(* ===== verification/_CoqProject ===== *)
-Q . S2P
Prelude.v
GoStrings.v
GoFloat.v
Keys.v
Gate.v
Attribution.v
GateDo.v
RefreshQueue.v
Stream.v
StreamClient.v
EntityWriter.v
Classify.v
Branch.v
Deliveries.v
Codeowners.v
SweepSchedule.v
GapHeal.v
Sweep.v
Lease.v
Derive.v
Writers.v
PullRequests.v
GitHub.v
BranchPages.v
ChangeInputs.v
Convert.v
Coordinator.v
Fetch.v
Backfill.v
Drift.v
Retention.v
GoParse.v
Config.v
Tokens.v
GenerationLocks.v
EventHub.v
Loops.v
Endpoints.v
Recording.v
ReplayStacks.v
ReplayProgram.v
Workers.v
Commands.v
