(* ===== verification/Prelude.v ===== *)
(** * ghsync: a verification library

    ghsync mirrors a GitHub installation into Postgres. Webhooks arrive at the
    ingress handler and are stored as deliveries; the dispatcher classifies each
    delivery into refresh intents and enqueues durable pointers to entities; fetch
    workers serve the pointers through one budget gate in front of GitHub and hand
    what they observed to the entity writer; the writer updates the cache, marks
    derivation scopes dirty and appends change events in one transaction; and the
    change events become a gap-free stream that consumers tail. Webhook payloads
    are hints only: the cache changes by observed records, or by exact
    compare-and-set of a pushed SHA.

    ** Files

    - [Prelude]: results, Go integers and times, sums over finite maps, sorted
      lists, and the tactics and hint database [ghsync].
    - [GoStrings], [GoFloat]: the parts of Go's [strings], [strconv], [sort] and
      IEEE arithmetic the sources use. Strings are byte strings.
    - [Keys]: the string keys of [internal/outbox/outbox.go],
      [internal/store/keys.go], [internal/derive/derive.go] and
      [internal/fetch/key.go].
    - [Gate], [Attribution], [GateDo]: the budget gate of [internal/budget]. The
      record [Gate] keeps the Go fields; each critical section under the mutex is
      one function ([tryAdmit], [finishAdmission], [observeREST], [loseLease], ...),
      [gate_step] interleaves them, and [GateDo] runs a whole request through
      [Do] and [doAdmitted].
    - [RefreshQueue]: [internal/queue/refresh.go] and [orphan.go]. River, which is
      not in the repository, is the class [River] with the laws [RiverLaws]; the
      module [RefRiver] is a table that satisfies them. [queue_step] interleaves
      producers, workers, completions and reconcilers.
    - [Stream], [StreamClient]: the outbox fences of [internal/outbox], the leased
      watermark and retention of [internal/stream], and the consumer of
      [pkg/streamclient]; [stream_step] interleaves writers, watermarkers, pruners
      and consumers.
    - [EntityWriter]: [internal/store/observation.go] and [repository.go]:
      optimistic observations, the entity transaction with its generation fences,
      and the repository writes.
    - [Classify]: [internal/dispatch/classify.go] and the pure helpers of
      [dispatcher.go].
    - [Branch]: [internal/store/branch.go] and the branch phase of the dispatcher.
    - [Deliveries]: [internal/ingress/handler.go], the [webhook_deliveries]
      statements and [dispatchBatchAttempt]; [ledger_step] interleaves ingress,
      dispatch, operator requeue and payload pruning.
    - [Codeowners]: [internal/codeowners]: the CODEOWNERS parser, its pattern
      compiler as a matcher by derivatives, and owner resolution.
    - [SweepSchedule], [GapHeal], [Sweep]: [internal/sweep]: the schedule and its
      staleness bound, the healing of delivery gaps, and the reconciliation of
      listings.
    - [Lease]: [internal/budget/lease.go] and its statements: the leased gate, its
      renewals and watchdog against the database side of the lease.
    - [Derive]: [internal/derive] and [internal/opsstate]: dirty scopes, the deriver's
      passes, the derived work items and their events.
    - [Writers], [PullRequests]: the stack, check-run, rule and pull-request writers of
      [internal/store] with their statements in [dbgen/cache.sql.go].
    - [GitHub], [Endpoints]: [internal/gh]: path escaping, conditional requests, the
      CODEOWNERS search, connections and pages; the endpoints, the link to the next page
      and the GraphQL call.
    - [BranchPages]: [ReconcileBranchPage]: the workers of branch-reconciliation pages;
      [pages_step] interleaves them with pushes.
    - [ChangeInputs]: [internal/changeinputs]: the source resolver, identity lookups and
      the hydration of a change snapshot.
    - [Convert], [Coordinator], [Fetch]: [internal/fetch]: conversions to records, the
      pull-request coordinator and the discovery gate, and the refresh handlers.
    - [Backfill]: [internal/fetch/backfill.go]: the resumable enumeration of an
      installation; [backfill_step] interleaves its pages with refreshes.
    - [Drift]: [internal/drift]: the sampled comparison of the cache with GitHub, its
      findings and their healing; [drift_step] interleaves them with refreshes.
    - [Retention]: [internal/sweep/retention.go]: the pruning of payloads and history.
    - [GoParse], [Config]: [internal/config] with Go's number and duration syntax, and the
      roles and options of [cmd/ghsyncd/main.go].
    - [Tokens]: [internal/gh/token.go]: the installation token and its renewals.
    - [GenerationLocks]: the generation locks of [internal/queue/refresh.go] and the
      transactions that take them; [lock_step] interleaves them.
    - [EventHub]: [cmd/example-api]: the hub that fans the change stream out to watchers;
      [watch_step] interleaves the stream, the tailer and the watchers.
    - [Loops]: the polling loops of the stream client, the deriver and the dispatcher.
    - [Recording], [ReplayStacks], [ReplayProgram]: [internal/replay]: the format of
      recordings, the stacks they imply, and their compilation into laps and copies.
    - [Workers]: [internal/queue/queue.go], the job types and workers of
      [internal/queue/refresh.go], [internal/sweep/sweep.go] and [internal/drift/drift.go],
      and the River client of [cmd/ghsyncd/main.go]; [produced] has a rule for each place
      that inserts jobs.
    - [Commands]: the commands of [cmd/ghsyncd/main.go]: their choice, the requeue of parked
      deliveries and the shutdown of a process.

    A Postgres transaction is one function from tables to tables; a SQL statement
    is a function on finite maps or lists of rows, with the columns it reads and
    writes, its [ORDER BY] and its conflict clauses. A rollback is [Err] or [None].
    Rows that another transaction has locked, lock contention, clocks, GitHub's
    answers and the consumer's handler are arguments. Timestamps are nanoseconds
    since Go's zero time. Where Go computes in a fixed width and the width can
    matter, the wrap-around is written out ([wrap64], [wrap32]).

    ** What the theorems show

    - Stream: no event becomes visible after a later one was read past it
      ([watermark_gap_free]); a consumer's projection has each event of its range
      exactly once and in order ([delivery_exactly_once]); a resync is demanded
      exactly when a pruned event would be missed ([resync_iff_missed]); the
      detailed watermark step refines its contract ([watermark_step_refines]);
      pruning and tailing terminate and finish their work.
    - Queue: a signalled identity always has a live pointer or a terminated worker
      that orphan reconciliation picks up ([no_lost_signal],
      [reconcile_restores_liveness]); batches coalesce to the most urgent spec;
      insertion and completion are characterised on every branch.
    - Dispatch: a stored delivery is never lost and tried a bounded number of times
      ([delivery_lifecycle]); one attempt finishes exactly what it claims, together
      with its pointers ([dispatch_batch_durable]); classification yields exactly
      what the rules ask for and every intent can be routed and parsed back; hints
      drop only covered intents; a push moves SHAs by compare-and-set and leaves no
      affected entity without a page.
    - Writer: a write based on a stale observation is discarded, fences reject
      exactly the superseded generations, and a repository row never goes back in
      time.
    - Gate: admitted and reserved work is accounted exactly in every interleaving,
      floors and backoffs hold, losing the lease releases everything, observations
      merge in any order, and a request never leaks its admission.
      [retry_after_overflow] exhibits a header value whose deadline wraps.
    - Lease: at most one gate admits at a time ([single_active_gate]), and a failover
      restores the saved budget ([failover_keeps_budget]).
    - Writers: every writer keeps the derivation contract, that a change a scope can see
      marks the scope ([writers_keep_contract], [pull_writer_keeps_contract]); work items
      stay consistent with the cache ([work_items_consistent]) and the deriver drains its
      dirty scopes ([deriver_drains]); change inputs belong to the head they were read at
      ([change_inputs_consistent]).
    - Fetch: a fetch that raced with another write changes nothing
      ([raced_fetch_discarded]); a batch answers every item with its own outcome
      ([batch_answers_own]) and loses none ([batching_no_loss]); a fetched pull request
      is a record the writer accepts ([fetched_pull_accepted]); the check runs of a
      commit become exactly those listed ([checks_refresh_mirrors]).
    - Branch pages: a reconciliation is complete exactly when its pages are
      ([completion_exact]), and a page only when its targets have returned
      ([page_completed_by_targets]).
    - Sweeps and gaps: a listing is complete only after what it missed was verified
      ([sweep_completion_verifies]); a gap run redelivers what is missing
      ([gap_run_heals]).
    - Backfill: a repository is done only when everything it listed has been fetched
      ([backfill_done_settled]); the passes over pull requests converge
      ([pull_passes_converge]); the cursor code round trips within its bounds
      ([pull_cursor_round_trip]); a page hands on to the next
      ([next_page_survives]).
    - Drift: the comparison ignores the order of lists ([order_never_drifts]) and reports
      exactly the members that differ ([diff_reports_exactly]); sampling reaches every
      entity ([sampling_covers], [pass_advances_cursors]); a finding is reported once,
      healed, and escalated only after its refresh has completed
      ([finding_lifecycle]).
    - Retention: a prune terminates and leaves only locked rows ([retention_enforced]).
    - Configuration: an environment that is accepted starts the components with its values
      ([accepted_configuration_starts]); the queues of GitHub work are worked together
      ([github_queues_together]).
    - Watchers: a watcher of the example API is written exactly the committed changes after
      its start ([watch_exact]), and reconnecting continues where it stopped
      ([resume_seamless]); every key the engine publishes is read back to its entity
      ([engine_keys_materialize]).
    - Locks: the transactions that lock generations never wait in a circle, as long as no
      entity write takes follow-ups before its fence ([no_circular_wait]); two that do can
      ([crossing_fences]).
    - Tokens and loops: a token is handed out only while it is valid ([tokens_usable]); the
      loops poll on time, do not spin, and end only for a reason ([tail_on_time],
      [derive_on_time], [dispatcher_persists]).
    - Endpoints: requests for different things have different paths
      ([endpoints_unambiguous]), the next page is found in the header
      ([next_link_followed]), and a successful call was accounted ([call_accounted]).
    - Replay: a recording that was written is read back ([recording_round_trip]), and
      what is read is well formed ([read_well_formed]); the stacks of a recording are the
      classes of pull requests based on each other, bases first ([stacks_partition],
      [stacks_bases_first], [stacks_any_order]); the laps and copies of a replay share no
      identifier ([replay_isolated]) and do not overlap in time ([laps_ordered]).
    - Processes: whatever the program inserts is worked by a process that has its worker
      and what the worker needs ([every_job_runs]), and is known to the process that inserts
      it ([producers_know_kinds]); an attempt reports itself once, with the error it returns
      ([attempt_reported]); the schedules have positive periods ([schedules_sound]); a replay
      of deliveries succeeds exactly when all of them were replayed ([requeue_exact]).
    - CODEOWNERS: matching agrees with the reference semantics of patterns
      ([pattern_match_equivalence]); the file in effect is the one GitHub would use
      ([find_codeowners_effective]); a resolver answers from the file of its ref
      ([resolver_sound]).
    - Keys: distinct entities have distinct keys; scopes and pointers survive the
      print and parse round trip.

    ** Fuel and bounds

    Recursion that is not structural takes fuel that its caller computes: decimal
    printing takes the binary length of the number, [pages_go] the number of
    targets, [prune_loop] and [tail_pages] a bound that the termination theorems
    show to be enough, [run_drain] and the gap pass the size of what is left,
    connections, file listings and check-run listings at least the number of pages,
    the traversals of stacks one more than what there is to visit.
    The correction loops of the backfill cursor take 200000, more than the estimate
    can be off. Other bounds are the code's own: five attempts of an incidental
    write, three of a superseded observation, 25 items of a batch. The proofs use the
    bounds, so no theorem about a result holds because fuel ran out.

    ** Not modelled

    The construction of services and connections in [serve], River's scheduling, tracing,
    log lines, metrics, migrations, the fake GitHub server, the payloads of replayed
    webhooks, the recorder, the load generator and the rest of the commands, which are
    process plumbing or test support. JSON, YAML, HMAC, SHA-256, MD5 and Unicode tables, HTTP and
    the GitHub API are inputs of the models; case folding is that of ASCII. A
    transaction reads one clock, Postgres' rounding of timestamps to microseconds is
    left out, and so are secondary unique and check constraints that the writes of
    one component cannot violate on their own. *)

From Stdlib Require Import ZArith Lia Bool.
From Stdlib Require Import Ascii String.
From stdpp Require Import sorting numbers strings gmap base list.

Local Open Scope Z_scope.

(** ** Automation *)

Create HintDb ghsync discriminated.
Create Rewrite HintDb ghsync.

(** [case_bool]: split on the outermost boolean test of an [if] in the goal,
    turning arithmetic and string tests into propositions. *)
Ltac to_props :=
  repeat match goal with
  | H : (_ && _)%bool = true |- _ => apply andb_true_iff in H as [? ?]
  | H : (_ || _)%bool = false |- _ => apply orb_false_iff in H as [? ?]
  | H : negb _ = true |- _ => apply negb_true_iff in H
  | H : negb _ = false |- _ => apply negb_false_iff in H
  | H : (_ <? _) = true |- _ => apply Z.ltb_lt in H
  | H : (_ <? _) = false |- _ => apply Z.ltb_ge in H
  | H : (_ <=? _) = true |- _ => apply Z.leb_le in H
  | H : (_ <=? _) = false |- _ => apply Z.leb_gt in H
  | H : (_ =? _) = true |- _ => apply Z.eqb_eq in H
  | H : (_ =? _) = false |- _ => apply Z.eqb_neq in H
  | H : (_ >? _) = true |- _ => apply Z.gtb_lt in H
  | H : bool_decide _ = true |- _ => apply bool_decide_eq_true in H
  | H : bool_decide _ = false |- _ => apply bool_decide_eq_false in H
  end.

Ltac case_if :=
  match goal with
  | |- context [if ?b then _ else _] =>
      let E := fresh "E" in destruct b eqn:E
  end.

Ltac case_if_in H :=
  match type of H with
  | context [if ?b then _ else _] =>
      let E := fresh "E" in destruct b eqn:E
  end.

Ltac case_match_in H :=
  match type of H with
  | context [match ?x with _ => _ end] =>
      let E := fresh "E" in destruct x eqn:E
  end.

(** [break H]: exhaust the conditionals of a successful computation [H],
    discarding the branches that contradict its result. *)
Ltac break H :=
  repeat (case_match_in H; try discriminate H; simplify_eq); to_props.

(** ** Results *)

(** A Go [(T, error)] pair in which the error is non-nil exactly when the value
    is unusable. *)
Inductive result (E A : Type) : Type :=
  | Ok (a : A)
  | Err (e : E).
Arguments Ok {E A} a.
Arguments Err {E A} e.

#[export] Instance result_ret E : MRet (result E) := λ A a, Ok a.
#[export] Instance result_bind E : MBind (result E) := λ A B k m,
  match m with Ok a => k a | Err e => Err e end.

Definition is_ok {E A} (m : result E A) : bool :=
  match m with Ok _ => true | Err _ => false end.

Lemma bind_ok {E A B} (m : result E A) (k : A → result E B) b :
  m ≫= k = Ok b ↔ ∃ a, m = Ok a ∧ k a = Ok b.
Proof.
  unfold mbind, result_bind. destruct m; split.
  - eauto.
  - by intros (? & [= ->] & ?).
  - done.
  - by intros (? & ? & ?).
Qed.

Lemma bind_err {E A B} (m : result E A) (k : A → result E B) e :
  m ≫= k = Err e ↔ m = Err e ∨ ∃ a, m = Ok a ∧ k a = Err e.
Proof.
  unfold mbind, result_bind. destruct m; split.
  - eauto.
  - by intros [?|(? & [= ->] & ?)].
  - intros [= ->]. by left.
  - by intros [[= ->]|(? & ? & ?)].
Qed.

(** ** Go integers and times *)

(** Two's-complement wrap-around of an [int64] (and of [int], which is 64 bits
    wide on every platform the program is released for). *)
Definition wrap64 (z : Z) : Z := (z + 2 ^ 63) `mod` 2 ^ 64 - 2 ^ 63.

Definition in_int64 (z : Z) : Prop := - 2 ^ 63 ≤ z < 2 ^ 63.

Definition in_int64b (z : Z) : bool := (- 2 ^ 63 <=? z) && (z <? 2 ^ 63).

Lemma in_int64b_spec z : in_int64b z = true ↔ in_int64 z.
Proof. unfold in_int64b, in_int64. rewrite andb_true_iff, Z.leb_le, Z.ltb_lt. done. Qed.

Lemma wrap64_id z : in_int64 z → wrap64 z = z.
Proof. unfold in_int64, wrap64. intros. rewrite Z.mod_small; lia. Qed.

Lemma wrap64_range z : in_int64 (wrap64 z).
Proof.
  unfold in_int64, wrap64.
  pose proof (Z.mod_pos_bound (z + 2 ^ 63) (2 ^ 64) ltac:(lia)). lia.
Qed.

Lemma wrap64_congr z : ∃ k, wrap64 z = z + k * 2 ^ 64.
Proof.
  unfold wrap64. exists (- ((z + 2 ^ 63) `div` 2 ^ 64)).
  pose proof (Z.div_mod (z + 2 ^ 63) (2 ^ 64) ltac:(lia)). lia.
Qed.

Lemma wrap64_shift z k : wrap64 (z + k * 2 ^ 64) = wrap64 z.
Proof.
  unfold wrap64.
  replace (z + k * 2 ^ 64 + 2 ^ 63) with (z + 2 ^ 63 + k * 2 ^ 64) by lia.
  by rewrite Z.mod_add by lia.
Qed.

Lemma wrap64_add_l a b : wrap64 (wrap64 a + b) = wrap64 (a + b).
Proof.
  destruct (wrap64_congr a) as [k ->].
  replace (a + k * 2 ^ 64 + b) with (a + b + k * 2 ^ 64) by lia.
  apply wrap64_shift.
Qed.

#[export] Hint Resolve wrap64_id wrap64_range : ghsync.

(** Conversion to an [int32]. *)
Definition wrap32 (z : Z) : Z := (z + 2 ^ 31) `mod` 2 ^ 32 - 2 ^ 31.

Lemma wrap32_id z : - 2 ^ 31 ≤ z < 2 ^ 31 → wrap32 z = z.
Proof. unfold wrap32. intros. rewrite Z.mod_small; lia. Qed.

(** A [time.Time] is its distance in nanoseconds from Go's zero time, January 1
    of year 1 UTC: [IsZero] is the test against 0, and [Before], [After] and
    [Equal] compare instants. A [time.Duration] is an [int64] of nanoseconds. *)
Definition time : Type := Z.
Definition duration : Type := Z.

#[global] Typeclasses Transparent time duration.

Definition zero_time : time := 0.
Definition IsZero (t : time) : bool := t =? 0.
Definition Before (t u : time) : bool := t <? u.
Definition After (t u : time) : bool := u <? t.

Definition Nanosecond : duration := 1.
Definition Second : duration := 1000000000.

(** Seconds from Go's zero time to the Unix epoch. *)
Definition unix_epoch_seconds : Z := 62135596800.

(** [time.Unix(sec, 0)]. *)
Definition Unix (sec : Z) : time := (sec + unix_epoch_seconds) * Second.


(** ** Sums over finite maps *)

Section msum.
Context {K : Type} `{Countable K} {A : Type}.

(** The sum of [f] over the values of a map. *)
Definition msum (f : A → Z) (m : gmap K A) : Z := map_fold (λ _ a s, f a + s) 0 m.

Lemma msum_empty f : msum f ∅ = 0.
Proof. apply map_fold_empty. Qed.

Lemma msum_insert f m i a :
  m !! i = None → msum f (<[i:=a]> m) = f a + msum f m.
Proof.
  intros Hi. unfold msum. rewrite map_fold_insert_L; [done|intros; lia|done].
Qed.

Lemma msum_delete f m i a :
  m !! i = Some a → msum f (delete i m) = msum f m - f a.
Proof.
  intros Hi. rewrite <- (insert_delete_id m i a Hi) at 2.
  rewrite msum_insert by apply lookup_delete_eq. lia.
Qed.

Lemma msum_nonneg f m : (∀ a, 0 ≤ f a) → 0 ≤ msum f m.
Proof.
  intros Hf. induction m as [|i a m Hi IH] using map_ind.
  - rewrite msum_empty. lia.
  - rewrite msum_insert by done. pose proof (Hf a). lia.
Qed.

Lemma msum_lookup_le f m i a :
  (∀ a, 0 ≤ f a) → m !! i = Some a → f a ≤ msum f m.
Proof.
  intros Hf Hi. pose proof (msum_nonneg f (delete i m) Hf).
  rewrite (msum_delete f m i a Hi) in *. lia.
Qed.
End msum.

(** ** Sorted lists of integers *)

Lemma sorted_take_elem (l : list Z) n x y :
  StronglySorted Z.lt l → last (take n l) = Some y → x ∈ l → x ≤ y → x ∈ take n l.
Proof.
  intros Hs Hy Hx Hle. rewrite <- (take_drop n l) in Hs, Hx.
  apply elem_of_app in Hx as [?|Hx]; [done|].
  apply last_Some in Hy as [l' Hl'].
  pose proof (StronglySorted_app_1_elem_of _ _ _ y x Hs) as H. rewrite Hl' in H.
  assert (y < x) by (apply H; [apply elem_of_app; right; by left|done]). lia.
Qed.

Lemma sorted_last_max (l : list Z) x y :
  StronglySorted Z.lt l → last l = Some y → x ∈ l → x ≤ y.
Proof.
  intros Hs [l' ->]%last_Some. rewrite elem_of_app, list_elem_of_singleton.
  intros [Hx| ->]; [|lia].
  apply (StronglySorted_app_1_elem_of _ _ _ x y Hs) in Hx; [lia|by left].
Qed.

Lemma sorted_le_lt (l : list Z) : NoDup l → StronglySorted Z.le l → StronglySorted Z.lt l.
Proof.
  induction 1 as [|x l Hx Hnd IH]; inversion_clear 1; constructor; [by apply IH|].
  apply Forall_forall. intros y Hy.
  assert (x ≤ y) by by eapply Forall_forall. assert (x ≠ y) by (by intros <-). lia.
Qed.

Lemma sorted_app_lt (l1 l2 : list Z) m :
  StronglySorted Z.lt l1 → StronglySorted Z.lt l2 →
  (∀ x, x ∈ l1 → x ≤ m) → (∀ x, x ∈ l2 → m < x) → StronglySorted Z.lt (l1 ++ l2).
Proof.
  intros H1 H2 Hm1 Hm2. apply StronglySorted_app_2; [|done|done].
  intros x y Hx%Hm1 Hy%Hm2. lia.
Qed.
