(* ===== verification/GoStrings.v ===== *)
(** * Go strings

    The fragment of Go's [strings] and [strconv] packages the modelled code
    uses, on [string], a sequence of bytes as in Go: prefixes, cutting and
    splitting at a byte, and decimal formatting and parsing of 64-bit integers
    with their range checks. *)

From Stdlib Require Import ZArith Lia Bool Ascii String.
From stdpp Require Import base list strings numbers sorting.
From S2P Require Import Prelude.

Local Open Scope Z_scope.

(** ** Bytewise order *)

Lemma ascii_compare_trans c1 c2 c3 o :
  Ascii.compare c1 c2 = o → Ascii.compare c2 c3 = o → Ascii.compare c1 c3 = o.
Proof.
  unfold Ascii.compare.
  destruct (N.compare_spec (N_of_ascii c1) (N_of_ascii c2)),
    (N.compare_spec (N_of_ascii c2) (N_of_ascii c3)),
    (N.compare_spec (N_of_ascii c1) (N_of_ascii c3)); intros <- ?; try done; lia.
Qed.

Lemma ascii_compare_eq c1 c2 : Ascii.compare c1 c2 = Eq ↔ c1 = c2.
Proof.
  unfold Ascii.compare. rewrite N.compare_eq_iff. split; [|by intros ->].
  intros H. by rewrite <- (ascii_N_embedding c1), <- (ascii_N_embedding c2), H.
Qed.

Lemma string_compare_refl s : String.compare s s = Eq.
Proof.
  induction s as [|c s IH]; [done|]. simpl.
  by rewrite (proj2 (ascii_compare_eq c c) eq_refl).
Qed.

Lemma string_compare_lt_trans a b c :
  String.compare a b = Lt → String.compare b c = Lt → String.compare a c = Lt.
Proof.
  revert b c. induction a as [|x a IH]; intros [|y b] [|z c]; simpl; try done.
  destruct (Ascii.compare x y) eqn:E1, (Ascii.compare y z) eqn:E2; try done; intros H1 H2.
  - rewrite (ascii_compare_trans _ _ _ _ E1 E2). eauto.
  - apply ascii_compare_eq in E1 as ->. by rewrite E2.
  - apply ascii_compare_eq in E2 as ->. by rewrite E1.
  - by rewrite (ascii_compare_trans _ _ _ _ E1 E2).
Qed.

Definition string_lt (a b : string) : Prop := String.compare a b = Lt.
Definition string_ltb (a b : string) : bool := String.ltb a b.

Lemma string_ltb_lt a b : string_ltb a b = true ↔ string_lt a b.
Proof. unfold string_ltb, String.ltb, string_lt. by destruct (String.compare a b). Qed.

#[export] Instance string_lt_trans : Transitive string_lt.
Proof. intros a b c. apply string_compare_lt_trans. Qed.

#[export] Instance string_lt_irrefl : Irreflexive string_lt.
Proof. intros a. unfold complement, string_lt. by rewrite string_compare_refl. Qed.

Lemma string_lt_total a b : string_lt a b ∨ a = b ∨ string_lt b a.
Proof.
  unfold string_lt. destruct (String.compare a b) eqn:E.
  - right; left. by apply String.compare_eq_iff.
  - by left.
  - right; right. rewrite String.compare_antisym, E. done.
Qed.

(** ** Prefixes, cutting and splitting *)

(** [strings.HasPrefix(s, p)]. *)
Definition HasPrefix (s p : string) : bool := String.prefix p s.

Fixpoint sdrop (n : nat) (s : string) : string :=
  match n, s with
  | S n, String _ s => sdrop n s
  | _, _ => s
  end.

(** [strings.TrimPrefix(s, p)]. *)
Definition TrimPrefix (s p : string) : string :=
  if HasPrefix s p then sdrop (String.length p) s else s.

(** [strings.Cut(s, string(c))] for a one-byte separator: [None] when the
    separator is absent, and otherwise the text around its first occurrence. *)
Fixpoint Cut (s : string) (c : ascii) : option (string * string) :=
  match s with
  | EmptyString => None
  | String d s' =>
      if Ascii.eqb d c then Some (EmptyString, s')
      else match Cut s' c with
           | Some (before, after) => Some (String d before, after)
           | None => None
           end
  end.

(** [strings.Split(s, string(c))] for a one-byte separator. *)
Fixpoint Split (s : string) (c : ascii) : list string :=
  match s with
  | EmptyString => [EmptyString]
  | String d s' =>
      if Ascii.eqb d c then EmptyString :: Split s' c
      else match Split s' c with
           | [] => [String d EmptyString]
           | p :: ps => String d p :: ps
           end
  end.

(** [strings.Contains(s, string(c))] and [strings.IndexByte(s, c) >= 0]. *)
Fixpoint ContainsByte (s : string) (c : ascii) : bool :=
  match s with
  | EmptyString => false
  | String d s' => Ascii.eqb d c || ContainsByte s' c
  end.

Lemma append_empty (b : string) : "" +:+ b = b.
Proof. done. Qed.

Lemma append_cons c (a b : string) : String c a +:+ b = String c (a +:+ b).
Proof. done. Qed.

Lemma append_assoc (a b c : string) : (a +:+ b) +:+ c = a +:+ (b +:+ c).
Proof. induction a as [|d a IH]; [done|]. by rewrite !append_cons, IH. Qed.

Lemma append_nil_r (a : string) : a +:+ "" = a.
Proof. induction a as [|d a IH]; [done|]. by rewrite !append_cons, IH. Qed.

Lemma append_inj_l (p a b : string) : p +:+ a = p +:+ b → a = b.
Proof. induction p as [|d p IH]; [done|]. rewrite !append_cons. intros [= ?]. eauto. Qed.

Lemma HasPrefix_app p s : HasPrefix (p +:+ s) p = true.
Proof.
  unfold HasPrefix. induction p as [|c p IH]; [by destruct s|]. rewrite append_cons. simpl.
  by destruct (ascii_dec c c).
Qed.

Lemma HasPrefix_inv s p : HasPrefix s p = true → s = p +:+ TrimPrefix s p.
Proof.
  intros H. unfold TrimPrefix. rewrite H. revert s H.
  induction p as [|c p IH]; intros [|d s] H; simpl in *; try done.
  destruct (ascii_dec c d) as [->|]; [|done]. rewrite append_cons. f_equal. by apply IH.
Qed.

Lemma TrimPrefix_app p s : TrimPrefix (p +:+ s) p = s.
Proof.
  unfold TrimPrefix. rewrite HasPrefix_app. by induction p.
Qed.

Lemma ContainsByte_app a b c :
  ContainsByte (a +:+ b) c = ContainsByte a c || ContainsByte b c.
Proof. induction a as [|d a IH]; [done|]. rewrite append_cons. simpl. by rewrite IH, orb_assoc. Qed.

Lemma Cut_app a b c :
  ContainsByte a c = false → Cut (a +:+ String c b) c = Some (a, b).
Proof.
  induction a as [|d a IH];
    rewrite ?append_empty, ?append_cons; simpl; [by rewrite Ascii.eqb_refl|].
  intros [-> ?]%orb_false_iff. by rewrite IH.
Qed.

Lemma Cut_inv s c before after :
  Cut s c = Some (before, after) →
  s = before +:+ String c after ∧ ContainsByte before c = false.
Proof.
  revert before. induction s as [|d s IH]; intros before; [done|]. simpl.
  destruct (Ascii.eqb_spec d c) as [->|Hne]; [by intros [= <- <-]|].
  destruct (Cut s c) as [[b' a']|]; [|done]. intros [= <- <-].
  destruct (IH b' eq_refl) as [-> Hb]. rewrite append_cons. simpl. rewrite Hb.
  by destruct (Ascii.eqb_spec d c).
Qed.

Lemma Split_nosep a c : ContainsByte a c = false → Split a c = [a].
Proof.
  induction a as [|d a IH]; [done|]. simpl.
  intros [-> ?]%orb_false_iff. by rewrite IH.
Qed.

Lemma Split_app a b c :
  ContainsByte a c = false → Split (a +:+ String c b) c = a :: Split b c.
Proof.
  induction a as [|d a IH];
    rewrite ?append_empty, ?append_cons; simpl; [by rewrite Ascii.eqb_refl|].
  intros [-> ?]%orb_false_iff. by rewrite IH.
Qed.

#[export] Hint Rewrite append_assoc : ghsync.

(** ** Decimal integers *)

Definition digit (d : Z) : ascii := ascii_of_N (Z.to_N (48 + d)).

Definition digit_value (c : ascii) : option Z :=
  let n := Z.of_N (N_of_ascii c) in
  if (48 <=? n) && (n <=? 57) then Some (n - 48) else None.

(** Most significant digit first; [fuel] bounds the number of digits. *)
Fixpoint format_go (fuel : nat) (n : Z) (acc : string) : string :=
  match fuel with
  | O => acc
  | S fuel =>
      let acc := String (digit (n `mod` 10)) acc in
      if n <? 10 then acc else format_go fuel (n `div` 10) acc
  end.

(** One decimal digit per binary digit is always enough fuel. *)
Definition format_nonneg (n : Z) : string :=
  format_go (S (Z.to_nat (Z.log2 n))) n "".

(** [strconv.FormatInt(n, 10)] and [strconv.Itoa(n)]. *)
Definition FormatInt (n : Z) : string :=
  if n <? 0 then String "-" (format_nonneg (- n)) else format_nonneg n.

Fixpoint parse_digits (s : string) (acc : Z) : option Z :=
  match s with
  | EmptyString => Some acc
  | String c s =>
      match digit_value c with
      | Some d => parse_digits s (acc * 10 + d)
      | None => None
      end
  end.

Definition parse_unsigned (s : string) : option Z :=
  match s with EmptyString => None | _ => parse_digits s 0 end.

(** [strconv.ParseInt(s, 10, 64)] and [strconv.Atoi(s)]: an optional sign, at
    least one digit, and a range error outside [int64]. *)
Definition ParseInt (s : string) : option Z :=
  let parsed :=
    match s with
    | String c s' =>
        if Ascii.eqb c "-" then Z.opp <$> parse_unsigned s'
        else if Ascii.eqb c "+" then parse_unsigned s'
        else parse_unsigned s
    | EmptyString => None
    end in
  match parsed with
  | Some n => if in_int64b n then Some n else None
  | None => None
  end.

Lemma digit_value_digit d : 0 ≤ d < 10 → digit_value (digit d) = Some d.
Proof.
  intros Hd. unfold digit_value, digit.
  rewrite N_ascii_embedding by lia.
  replace (Z.of_N (Z.to_N (48 + d))) with (48 + d) by lia.
  replace ((48 <=? 48 + d) && (48 + d <=? 57)) with true by lia. f_equal. lia.
Qed.

Lemma digit_not_byte d c :
  0 ≤ d < 10 → digit_value c = None → Ascii.eqb (digit d) c = false.
Proof.
  intros Hd Hc. destruct (Ascii.eqb_spec (digit d) c) as [<-|]; [|done].
  by rewrite digit_value_digit in Hc.
Qed.

(** [log2] drops by at least one per decimal digit. *)
Lemma fuel_step fuel n :
  10 ≤ n → n < 2 ^ Z.of_nat (S fuel) → n `div` 10 < 2 ^ Z.of_nat fuel.
Proof.
  intros Hn Hf. apply Z.div_lt_upper_bound; [lia|].
  rewrite Nat2Z.inj_succ, Z.pow_succ_r in Hf by lia. lia.
Qed.

Lemma parse_format_go fuel : ∀ n acc,
  0 ≤ n < 2 ^ Z.of_nat fuel → fuel ≠ O →
  ∃ k, 0 < k ∧ ∀ a,
    parse_digits (format_go fuel n acc) a = parse_digits acc (a * 10 ^ k + n).
Proof.
  induction fuel as [|fuel IH]; intros n acc Hn Hf; [done|]. cbn [format_go].
  pose proof (Z.mod_pos_bound n 10 ltac:(lia)).
  destruct (n <? 10) eqn:E; to_props.
  - exists 1. split; [lia|]. intros a. cbn [parse_digits].
    rewrite digit_value_digit, Z.mod_small by lia. f_equal; lia.
  - pose proof (Z.div_mod n 10 ltac:(lia)).
    assert (n `div` 10 < 2 ^ Z.of_nat fuel) by (apply fuel_step; lia).
    assert (1 ≤ n `div` 10) by (apply Z.div_le_lower_bound; lia).
    destruct (IH (n `div` 10) (String (digit (n `mod` 10)) acc)) as (k & Hk & Hp).
    { split; [lia|done]. }
    { intros ->. simpl in *. lia. }
    exists (k + 1). split; [lia|]. intros a. rewrite Hp. cbn [parse_digits].
    rewrite digit_value_digit by lia. f_equal. rewrite Z.pow_add_r by lia. lia.
Qed.

Lemma format_nonneg_fuel n : 0 ≤ n → n < 2 ^ Z.of_nat (S (Z.to_nat (Z.log2 n))).
Proof.
  intros Hn. rewrite Nat2Z.inj_succ, Z2Nat.id by apply Z.log2_nonneg.
  destruct (decide (n = 0)) as [->|]; [done|].
  by apply Z.log2_spec; lia.
Qed.

Lemma parse_format_nonneg n a :
  0 ≤ n → a = 0 → parse_digits (format_nonneg n) a = Some n.
Proof.
  intros Hn ->. unfold format_nonneg.
  destruct (parse_format_go _ n "" (conj Hn (format_nonneg_fuel n Hn)) ltac:(done))
    as (k & ? & ->). done.
Qed.

(** Formatting yields a digit followed by text without a non-digit byte. *)
Lemma format_go_head fuel : ∀ n acc, fuel ≠ O → 0 ≤ n →
  ∃ d s, 0 ≤ d < 10 ∧ format_go fuel n acc = String (digit d) s.
Proof.
  induction fuel as [|fuel IH]; intros n acc Hf Hn; [done|]. cbn [format_go].
  pose proof (Z.mod_pos_bound n 10 ltac:(lia)).
  destruct (n <? 10) eqn:E; [eauto|]. destruct fuel; [eauto|].
  apply IH; [done|]. apply Z.div_pos; lia.
Qed.

Lemma format_go_nobyte c fuel : ∀ n acc, digit_value c = None → 0 ≤ n →
  ContainsByte acc c = false → ContainsByte (format_go fuel n acc) c = false.
Proof.
  induction fuel as [|fuel IH]; intros n acc Hc Hn Ha; [done|]. cbn [format_go].
  pose proof (Z.mod_pos_bound n 10 ltac:(lia)).
  assert (ContainsByte (String (digit (n `mod` 10)) acc) c = false).
  { simpl. by rewrite digit_not_byte, Ha by done. }
  case_if; [done|]. apply IH; [done| |done]. apply Z.div_pos; lia.
Qed.

Lemma FormatInt_nobyte n c :
  digit_value c = None → c ≠ "-"%char → ContainsByte (FormatInt n) c = false.
Proof.
  intros Hc Hd. unfold FormatInt, format_nonneg. case_if; to_props.
  - cbn [ContainsByte]. destruct (Ascii.eqb_spec "-" c); [congruence|]. cbn [orb]. apply format_go_nobyte; [done|lia|done].
  - apply format_go_nobyte; [done|lia|done].
Qed.

Lemma FormatInt_nocolon n : ContainsByte (FormatInt n) ":" = false.
Proof. by apply FormatInt_nobyte. Qed.

#[export] Hint Resolve FormatInt_nocolon : ghsync.

(** The decimal round trip, for every integer the type can hold. *)
Lemma ParseInt_FormatInt n : in_int64 n → ParseInt (FormatInt n) = Some n.
Proof.
  intros Hn. unfold ParseInt, FormatInt, format_nonneg.
  destruct (n <? 0) eqn:E; to_props.
  - cbn [Ascii.eqb Bool.eqb]. unfold parse_unsigned.
    destruct (format_go_head (S (Z.to_nat (Z.log2 (- n)))) (- n) "") as (d & s & ? & Hs); [done|lia|].
    fold (format_nonneg (- n)) in *. rewrite Hs. cbn -[in_int64b parse_digits]. rewrite <- Hs.
    rewrite parse_format_nonneg by lia. cbn -[in_int64b]. rewrite Z.opp_involutive.
    by rewrite (proj2 (in_int64b_spec n) Hn).
  - destruct (format_go_head (S (Z.to_nat (Z.log2 n))) n "") as (d & s & ? & Hs); [done|lia|].
    fold (format_nonneg n) in *. rewrite Hs.
    rewrite !digit_not_byte by done. unfold parse_unsigned. rewrite <- Hs.
    rewrite parse_format_nonneg by lia.
    by rewrite (proj2 (in_int64b_spec n) Hn).
Qed.

Lemma FormatInt_inj n m :
  in_int64 n → in_int64 m → FormatInt n = FormatInt m → n = m.
Proof.
  intros Hn Hm H. apply (f_equal ParseInt) in H.
  rewrite !ParseInt_FormatInt in H by done. congruence.
Qed.

Lemma FormatInt_nonempty n : FormatInt n ≠ "".
Proof.
  unfold FormatInt. case_if; to_props; [done|]. unfold format_nonneg.
  destruct (format_go_head (S (Z.to_nat (Z.log2 n))) n "") as (d & s & ? & ->); [done|lia|done].
Qed.

(** ** Sorting *)

(** [sort.Strings]: the bytewise order is total, so the sorted permutation is
    determined and stability is irrelevant. *)
Definition string_le (a b : string) : Prop := String.leb a b = true.

#[export] Instance string_le_dec : RelDecision string_le.
Proof. intros a b. unfold string_le. apply _. Defined.

#[export] Instance string_le_total : Total string_le.
Proof. intros a b. apply String.leb_total. Qed.

Lemma string_le_lt_eq a b : string_le a b ↔ string_lt a b ∨ a = b.
Proof.
  unfold string_le, String.leb, string_lt. destruct (String.compare a b) eqn:E.
  - apply String.compare_eq_iff in E. naive_solver.
  - naive_solver.
  - split; [done|]. intros [?| ->]; [done|]. by rewrite string_compare_refl in E.
Qed.

#[export] Instance string_le_trans : Transitive string_le.
Proof.
  intros a b c. rewrite !string_le_lt_eq. intros [?|<-] [?|<-]; eauto.
  left. by trans b.
Qed.

Definition sort_Strings (l : list string) : list string := merge_sort string_le l.

Lemma sort_Strings_perm l : sort_Strings l ≡ₚ l.
Proof. apply merge_sort_Permutation. Qed.

Lemma StronglySorted_le_lt l :
  NoDup l → StronglySorted string_le l → StronglySorted string_lt l.
Proof.
  induction 1 as [|x l Hx Hnd IH]; inversion_clear 1; constructor; [by apply IH|].
  apply Forall_forall. intros y Hy.
  destruct (proj1 (string_le_lt_eq x y)) as [?| ->]; [|done|done].
  by eapply Forall_forall.
Qed.

Lemma sort_Strings_sorted l : NoDup l → StronglySorted string_lt (sort_Strings l).
Proof.
  intros Hl. apply StronglySorted_le_lt.
  - by rewrite sort_Strings_perm.
  - apply StronglySorted_merge_sort; apply _.
Qed.

(** ** White space and case *)

(** The UTF-8 encodings of the code points [unicode.IsSpace] accepts. *)
Definition bytes (l : list N) : string :=
  fold_right (λ n s, String (ascii_of_N n) s) "" l.

Definition space_runes : list string :=
  bytes <$> [[9]; [10]; [11]; [12]; [13]; [32]; [194; 133]; [194; 160];
    [225; 154; 128]; [226; 128; 128]; [226; 128; 129]; [226; 128; 130];
    [226; 128; 131]; [226; 128; 132]; [226; 128; 133]; [226; 128; 134];
    [226; 128; 135]; [226; 128; 136]; [226; 128; 137]; [226; 128; 138];
    [226; 128; 168]; [226; 128; 169]; [226; 128; 175]; [226; 129; 159];
    [227; 128; 128]]%N.

Definition strip_one (runes : list string) (s : string) : option string :=
  match filter (λ r, HasPrefix s r = true) runes with
  | r :: _ => Some (TrimPrefix s r)
  | [] => None
  end.

Fixpoint trim_left (fuel : nat) (runes : list string) (s : string) : string :=
  match fuel with
  | O => s
  | S fuel =>
      match strip_one runes s with
      | Some s' => trim_left fuel runes s'
      | None => s
      end
  end.

Fixpoint srev_app (s acc : string) : string :=
  match s with
  | EmptyString => acc
  | String c s => srev_app s (String c acc)
  end.

Definition srev (s : string) : string := srev_app s "".

(** [strings.TrimSpace] and [bytes.TrimSpace]: no encoding of a space is a
    proper suffix of another, so trimming the reversed string by reversed
    encodings trims on the right. Each round removes at least one byte. *)
Definition TrimSpace (s : string) : string :=
  let s := trim_left (String.length s) space_runes s in
  srev (trim_left (String.length s) (srev <$> space_runes) (srev s)).

Definition lower_byte (c : ascii) : ascii :=
  let n := N_of_ascii c in
  if ((65 <=? n) && (n <=? 90))%N then ascii_of_N (n + 32) else c.

(** [strings.ToLower] as seen by a search for ASCII text: ASCII letters are
    lowered, and so are the two non-ASCII letters whose lower case is ASCII,
    U+0130 (to "i") and U+212A (to "k"); every other rune stays non-ASCII and is
    left as it is. *)
Fixpoint ToLower (s : string) : string :=
  match s with
  | EmptyString => EmptyString
  | String c s1 =>
      match s1 with
      | String d s2 =>
          if bool_decide (N_of_ascii c = 196 ∧ N_of_ascii d = 176)%N
          then String "i" (ToLower s2)
          else match s2 with
               | String e s3 =>
                   if bool_decide
                        (N_of_ascii c = 226 ∧ N_of_ascii d = 132 ∧ N_of_ascii e = 170)%N
                   then String "k" (ToLower s3)
                   else String (lower_byte c) (ToLower s1)
               | EmptyString => String (lower_byte c) (ToLower s1)
               end
      | EmptyString => String (lower_byte c) EmptyString
      end
  end.

(** [strings.Contains(s, sub)]. *)
Fixpoint Contains (s sub : string) : bool :=
  HasPrefix s sub ||
  match s with
  | EmptyString => false
  | String _ s => Contains s sub
  end.

Example TrimSpace_ex :
  TrimSpace (String "009" " a b " +:+ bytes [194; 160]%N) = "a b".
Proof. vm_compute. reflexivity. Qed.
