(* ===== verification/GoFloat.v ===== *)
(** * Go float64

    The binary64 arithmetic the sources use, on the standard library's
    executable specification floats: conversion from [int64], multiplication
    (round to nearest, ties to even), comparison, and [math.Ceil] followed by
    the conversion to [int64]. *)

From Stdlib Require Import ZArith Lia Bool SpecFloat.
From stdpp Require Import base numbers.
From S2P Require Import Prelude.

Local Open Scope Z_scope.

Definition float64 : Type := spec_float.
Definition f64_prec : Z := 53.
Definition f64_emax : Z := 1024.

(** [float64(z)]. *)
Definition f64_of_int (z : Z) : float64 := binary_normalize f64_prec f64_emax z 0 false.

Definition f64_mul (x y : float64) : float64 := SFmul f64_prec f64_emax x y.

(** The constant [n / d], correctly rounded, as the compiler rounds a decimal
    literal. *)
Definition f64_ratio (n d : Z) : float64 :=
  SFdiv f64_prec f64_emax (f64_of_int n) (f64_of_int d).

Definition f64_zero : float64 := S754_zero false.
Definition f64_one : float64 := f64_of_int 1.
Definition f64_leb (x y : float64) : bool := SFleb x y.
Definition f64_ltb (x y : float64) : bool := SFltb x y.

(** [int64(math.Ceil(x))]: exact for every finite [x] whose ceiling fits; Go
    leaves the other conversions to the implementation, which on amd64 yields
    the least [int64]. *)
Definition f64_ceil (x : float64) : Z :=
  match x with
  | S754_zero _ => 0
  | S754_finite s m e =>
      let v := if s then Zneg m else Zpos m in
      let c := if 0 <=? e then v * 2 ^ e else - ((- v) `div` 2 ^ (- e)) in
      if in_int64b c then c else - 2 ^ 63
  | S754_infinity _ | S754_nan => - 2 ^ 63
  end.

Definition f64_sub (x y : float64) : float64 := SFsub f64_prec f64_emax x y.
Definition f64_div (x y : float64) : float64 := SFdiv f64_prec f64_emax x y.

(** [math.Sqrt]. *)
Definition f64_sqrt (x : float64) : float64 := SFsqrt f64_prec f64_emax x.

(** [int64(x)]: towards zero. *)
Definition f64_trunc (x : float64) : Z :=
  match x with
  | S754_zero _ => 0
  | S754_finite s m e =>
      let v := if 0 <=? e then Zpos m * 2 ^ e else Zpos m `div` 2 ^ (- e) in
      let v := if s then - v else v in
      if in_int64b v then v else - 2 ^ 63
  | S754_infinity _ | S754_nan => - 2 ^ 63
  end.

(** ** Interval bounds

    [within L H x]: the float [x] lies between the integers [L] and [H]. Rounding keeps an
    integer lower bound and adds at most one to an upper bound, which is enough to bound
    the results of the square root, the subtraction and the division below. *)
Definition within (L H : Z) (x : float64) : Prop :=
  match x with
  | S754_zero _ => L ≤ 0 ≤ H
  | S754_finite false m e => -1074 ≤ e < 0 ∧ L * 2 ^ (- e) ≤ Zpos m ≤ H * 2 ^ (- e)
  | _ => False
  end.

Lemma digits2_size p : digits2_pos p = Pos.size p.
Proof. induction p; cbn; congruence. Qed.

Lemma digits_bound m a : 0 ≤ m ≤ 2 ^ a → 0 ≤ a → 0 ≤ Zdigits2 m ≤ a + 1.
Proof.
  intros Hm Ha. destruct m as [|p|p]; cbn [Zdigits2]; [lia| |lia]. rewrite digits2_size.
  pose proof (Pos.size_le p) as Hp. apply Pos2Z.pos_le_pos in Hp. rewrite Pos2Z.inj_pow in Hp.
  assert (2 ^ Zpos (Pos.size p) ≤ 2 ^ (a + 1)) as Hle by (rewrite Z.pow_add_r by lia; lia).
  split; [lia|]. by apply (Z.pow_le_mono_r_iff 2) in Hle; lia.
Qed.

Lemma shr_1_div r : 0 ≤ shr_m r → shr_m (shr_1 r) = shr_m r `div` 2.
Proof.
  destruct r as [m r s]. cbn [shr_m shr_1]. intros Hm.
  destruct m as [|[p|p|]|p]; cbn [shr_m]; try done; try lia.
  - rewrite Pos2Z.inj_xI. apply (Z.div_unique _ _ _ 1); lia.
  - rewrite Pos2Z.inj_xO. apply (Z.div_unique _ _ _ 0); lia.
Qed.

Lemma iter_shr_div p : ∀ r, 0 ≤ shr_m r → shr_m (SpecFloat.iter_pos shr_1 p r) = shr_m r `div` 2 ^ Zpos p.
Proof.
  assert (Hdiv : ∀ m a, 0 ≤ m → 0 ≤ a → 0 ≤ m `div` 2 ^ a) by (intros; apply Z.div_pos; lia).
  induction p as [p IH|p IH|]; intros r Hr; cbn [SpecFloat.iter_pos].
  - assert (0 ≤ shr_m (shr_1 r)) by (rewrite shr_1_div by done; by apply Z.div_pos).
    rewrite IH; [|rewrite IH by done; apply Hdiv; lia]. rewrite IH, shr_1_div by done.
    rewrite !Z.div_div by lia. f_equal. rewrite <- Z.pow_add_r by lia.
    rewrite <- (Z.pow_succ_r 2) by lia. f_equal. lia.
  - rewrite IH; [|rewrite IH by done; apply Hdiv; lia]. rewrite IH by done.
    rewrite Z.div_div by lia. f_equal. rewrite <- Z.pow_add_r by lia. f_equal. lia.
  - by rewrite shr_1_div.
Qed.

Lemma shr_fexp_spec m e l r e' a : 0 ≤ m ≤ 2 ^ a → 0 ≤ a → -1074 ≤ e →
  shr_fexp f64_prec f64_emax m e l = (r, e') →
  ∃ k, 0 ≤ k ≤ Z.max 0 (a - 52) ∧ shr_m r = m `div` 2 ^ k ∧ e' = e + k.
Proof.
  intros Hm Ha He. unfold shr_fexp, shr. set (n := fexp _ _ _ - e).
  assert (n ≤ Z.max 0 (a - 52)).
  { subst n. pose proof (digits_bound m a Hm Ha). unfold fexp, f64_prec, f64_emax, emin. lia. }
  assert (Hs : shr_m (shr_record_of_loc m l) = m) by (by destruct l as [|[]]).
  destruct n as [|p|p] eqn:En; intros [= <- <-].
  - exists 0. rewrite Z.pow_0_r, Z.div_1_r, Hs. lia.
  - exists (Zpos p). rewrite iter_shr_div by (rewrite Hs; lia). rewrite Hs. lia.
  - exists 0. rewrite Z.pow_0_r, Z.div_1_r, Hs. lia.
Qed.

Lemma shift_bounds L H m a k : 0 ≤ k ≤ a → L * 2 ^ a ≤ m ≤ H * 2 ^ a →
  L * 2 ^ (a - k) ≤ m `div` 2 ^ k ≤ H * 2 ^ (a - k).
Proof.
  intros Hk. assert (2 ^ a = 2 ^ (a - k) * 2 ^ k) as -> by (rewrite <- Z.pow_add_r by lia; f_equal; lia).
  intros Hm. split; [apply Z.div_le_lower_bound; nia|apply Z.div_le_upper_bound; nia].
Qed.

Lemma round_up m l : m ≤ round_nearest_even m l ≤ m + 1.
Proof. destruct l as [|[]]; cbn; [lia| |lia|lia]. destruct (Z.even m); lia. Qed.

(** Rounding to binary64 keeps the lower bound and loses at most one above. *)
Lemma round_within L H m e l :
  0 ≤ L → 0 ≤ H ≤ 2 ^ 40 → -1074 ≤ e < 0 → L * 2 ^ (- e) ≤ m ≤ H * 2 ^ (- e) →
  within L (H + 1) (binary_round_aux f64_prec f64_emax false m e l).
Proof.
  intros HL HH He Hm. unfold binary_round_aux.
  assert (Hp : ∀ a, 0 < 2 ^ a → 0 ≤ L * 2 ^ a) by nia.
  destruct (shr_fexp _ _ m e l) as [r1 e1] eqn:E1.
  apply (shr_fexp_spec _ _ _ _ _ (40 - e)) in E1 as (k1 & Hk1 & Hr1 & ->); [|split|lia|lia].
  2: { pose proof (Z.pow_pos_nonneg 2 (- e)). nia. }
  2: { etrans; [apply Hm|]. replace (40 - e) with (40 + - e) by lia. rewrite Z.pow_add_r by lia. nia. }
  destruct (shift_bounds L H m (- e) k1) as [Hl1 Hu1]; [lia|done|]. rewrite <- Hr1 in Hl1, Hu1.
  set (m2 := round_nearest_even _ _). pose proof (round_up (shr_m r1) (loc_of_shr_record r1)) as Hm2. fold m2 in Hm2.
  pose proof (Z.pow_pos_nonneg 2 (- e - k1)) as Hpos.
  assert (Hb : L * 2 ^ (- e - k1) ≤ m2 ≤ (H + 1) * 2 ^ (- e - k1)) by lia.
  destruct (shr_fexp _ _ m2 _ _) as [r2 e2] eqn:E2.
  apply (shr_fexp_spec _ _ _ _ _ (41 - e - k1)) in E2 as (k2 & Hk2 & Hr2 & ->); [|split|lia|lia].
  2: { nia. }
  2: { etrans; [apply Hb|]. replace (41 - e - k1) with (41 + (- e - k1)) by lia. rewrite Z.pow_add_r by lia. nia. }
  destruct (shift_bounds L (H + 1) m2 (- e - k1) k2) as [Hl2 Hu2]; [lia|done|]. rewrite <- Hr2 in Hl2, Hu2.
  replace (- e - k1 - k2) with (- (e + k1 + k2)) in Hl2, Hu2 by lia.
  pose proof (Z.pow_pos_nonneg 2 (- (e + k1 + k2))) as Hpos2.
  destruct (shr_m r2) as [|p|p] eqn:Er.
  - cbn. nia.
  - rewrite (proj2 (Z.leb_le _ _)) by (unfold f64_emax, f64_prec; lia). cbn. split; [lia|]. nia.
  - nia.
Qed.

Lemma shl_align_spec m e e' : (shl_align m e e').2 ≤ e ∧
  Zpos (shl_align m e e').1 = Zpos m * 2 ^ (e - (shl_align m e e').2) ∧
  (shl_align m e e').2 = Z.min e e'.
Proof.
  unfold shl_align. destruct (e' - e) as [|p|p] eqn:E; cbn [fst snd]; try (replace (e - e) with 0 by lia; lia).
  change (Pos.iter xO m p) with (shift_pos p m). rewrite shift_pos_correct. split_and!; [lia| |lia]. rewrite Z.mul_comm. f_equal.
  rewrite Z.pow_pos_fold. f_equal. lia.
Qed.

Lemma normalize_within L H m e :
  0 ≤ L → 0 ≤ H ≤ 2 ^ 40 → -1074 ≤ e ≤ 0 → L * 2 ^ (- e) ≤ m ≤ H * 2 ^ (- e) →
  within L (H + 1) (binary_normalize f64_prec f64_emax m e false).
Proof.
  intros HL HH He Hm. pose proof (Z.pow_pos_nonneg 2 (- e)) as Hpos.
  destruct m as [|p|p]; cbn [binary_normalize]; [cbn; nia| |nia].
  unfold binary_round. destruct (shl_align p e _) as [m' e'] eqn:E.
  pose proof (shl_align_spec p e (fexp f64_prec f64_emax (Zpos (digits2_pos p) + e))) as (_ & Hv & He').
  rewrite E in Hv, He'. cbn [fst snd] in Hv, He'.
  assert (Hd : Zdigits2 (Zpos p) ≤ 40 - e + 1).
  { apply digits_bound; [|lia]. split; [lia|]. etrans; [apply Hm|].
    replace (40 - e) with (40 + - e) by lia. rewrite Z.pow_add_r by lia. nia. }
  cbn [Zdigits2] in Hd. unfold fexp, f64_prec, f64_emax, emin in He'.
  apply round_within; [done|done|lia|]. rewrite Hv.
  replace (- e') with (- e + (e - e')) by lia. rewrite Z.pow_add_r by lia.
  pose proof (Z.pow_pos_nonneg 2 (e - e')). nia.
Qed.

Lemma sqrt_within H x : 0 ≤ H ≤ 2 ^ 20 → within 1 (H * H) x → within 1 (H + 1) (f64_sqrt x).
Proof.
  intros HH. destruct x as [| | |[] m e]; cbn [within]; [lia|done|done|done|].
  intros (He & Hm). unfold f64_sqrt, SFsqrt, SFsqrt_core_binary.
  set (e' := Z.min _ (Z.div2 e)).
  assert (He' : -1074 ≤ e' < 0 ∧ 2 * e' ≤ e).
  { subst e'. unfold fexp, f64_prec, f64_emax, emin. pose proof (Z.div2_odd e). destruct (Z.odd e); cbn in *; lia. }
  set (m' := match e - 2 * e' with Z0 => _ | _ => _ end).
  assert (Hm' : m' = Zpos m * 2 ^ (e - 2 * e')).
  { subst m'. destruct (e - 2 * e') as [|p|p] eqn:E; [lia|apply Z.shiftl_mul_pow2; lia|lia]. }
  assert (Hb : 1 * 2 ^ (- e') * 2 ^ (- e') ≤ m' ≤ H * 2 ^ (- e') * (H * 2 ^ (- e'))).
  { assert (2 ^ (- e) * 2 ^ (e - 2 * e') = 2 ^ (- e') * 2 ^ (- e')) as Heq
      by (rewrite <- !Z.pow_add_r by lia; f_equal; lia).
    pose proof (Z.pow_pos_nonneg 2 (e - 2 * e')). rewrite Hm'. nia. }
  pose proof (Z.pow_pos_nonneg 2 (- e')) as Hpos.
  pose proof (Z.sqrtrem_spec m') as Hs. destruct (Z.sqrtrem m') as [q r].
  destruct Hs as [Hq Hr]; [nia|]. apply round_within; [lia|lia|lia|]. split; nia.
Qed.

Lemma sub_one_within H x : 1 ≤ H ≤ 2 ^ 40 → within 1 H x → within 0 H (f64_sub x f64_one).
Proof.
  intros HH. destruct x as [| | |[] m e]; cbn [within]; [lia|done|done|done|].
  intros (He & Hm). change f64_one with (S754_finite false (2 ^ 52) (-52)). unfold f64_sub, SFsub.
  set (ez := Z.min e (-52)). cbn [cond_Zopp].
  pose proof (shl_align_spec m e ez) as (_ & -> & Hz1). pose proof (shl_align_spec (2 ^ 52) (-52) ez) as (_ & -> & Hz2).
  rewrite Hz1, Hz2. replace (Z.min e ez) with ez by lia. replace (Z.min (-52) ez) with ez by lia.
  assert (Zpos (2 ^ 52) * 2 ^ (-52 - ez) = 2 ^ (- ez)) as ->.
  { change (Zpos (2 ^ 52)) with (2 ^ 52). rewrite <- Z.pow_add_r by lia. f_equal. lia. }
  replace H with (H - 1 + 1) at 1 by lia. apply normalize_within; [lia|lia|lia|].
  assert (2 ^ (- e) * 2 ^ (e - ez) = 2 ^ (- ez)) as Heq by (rewrite <- Z.pow_add_r by lia; f_equal; lia).
  pose proof (Z.pow_pos_nonneg 2 (e - ez)). nia.
Qed.

Lemma half_within H x : 0 ≤ H ≤ 2 ^ 40 → within 0 H x → within 0 (H + 1) (f64_div x (f64_of_int 2)).
Proof.
  intros HH. change (f64_of_int 2) with (S754_finite false (2 ^ 52) (-51)).
  destruct x as [s| | |[] m e]; cbn [within]; [intros; cbn; lia|done|done|done|].
  intros (He & Hm). unfold f64_div, SFdiv, SFdiv_core_binary.
  change (Zdigits2 (Zpos (2 ^ 52))) with 53.
  assert (Hd : 0 ≤ Zdigits2 (Zpos m) ≤ 40 - e + 1).
  { apply digits_bound; [|lia]. split; [lia|]. etrans; [apply Hm|].
    replace (40 - e) with (40 + - e) by lia. rewrite Z.pow_add_r by lia. pose proof (Z.pow_pos_nonneg 2 (- e)). nia. }
  set (e' := Z.min _ (e - -51)).
  assert (He' : -1074 ≤ e' < 0 ∧ e' ≤ e + 51).
  { subst e'. unfold fexp, f64_prec, f64_emax, emin. lia. }
  clearbody e'. set (m' := match e - -51 - e' with Z0 => _ | _ => _ end).
  assert (Hm' : m' = Zpos m * 2 ^ (e + 51 - e')).
  { subst m'. replace (e - -51 - e') with (e + 51 - e') by lia.
    destruct (e + 51 - e') as [|p|p] eqn:E; [lia|apply Z.shiftl_mul_pow2; lia|lia]. }
  pose proof (Z.div_eucl_eq m' (Zpos (2 ^ 52))) as Hq. pose proof (Z.mod_pos_bound m' (Zpos (2 ^ 52))) as Hr.
  unfold Z.modulo in Hr. destruct (Z.div_eucl m' _) as [q r]. change (Zpos (2 ^ 52)) with (2 ^ 52) in *.
  specialize (Hq ltac:(lia)). specialize (Hr ltac:(lia)). cbn [xorb].
  assert (2 ^ (- e) * 2 ^ (e + 51 - e') = 2 ^ 51 * 2 ^ (- e')) as Heq by (rewrite <- !Z.pow_add_r by lia; f_equal; lia).
  pose proof (Z.pow_pos_nonneg 2 (e + 51 - e')) as Hp1. pose proof (Z.pow_pos_nonneg 2 (- e')) as Hp2.
  assert (Hb : 0 ≤ m' ≤ H * (2 ^ 51 * 2 ^ (- e'))) by (rewrite Hm', <- Heq; nia).
  apply round_within; [lia|lia|lia|]. nia.
Qed.

Lemma trunc_within H x : 0 ≤ H ≤ 2 ^ 40 → within 0 H x → 0 ≤ f64_trunc x ≤ H.
Proof.
  intros HH. destruct x as [| | |[] m e]; cbn [within f64_trunc]; [lia|done|done|done|].
  intros (He & Hm). rewrite (proj2 (Z.leb_gt 0 e)) by lia.
  pose proof (Z.pow_pos_nonneg 2 (- e)) as Hp.
  assert (0 ≤ Zpos m `div` 2 ^ (- e) ≤ H) as Hd.
  { split; [apply Z.div_pos; lia|apply Z.div_le_upper_bound; lia]. }
  rewrite (proj2 (in_int64b_spec _)); [done|]. unfold in_int64. lia.
Qed.

(** The estimate [int64((math.Sqrt(float64(n)) - 1) / 2)] is neither negative nor far
    from the root. *)
Lemma sqrt_estimate H n : 1 ≤ H ≤ 2 ^ 20 → 1 ≤ n → n + 1 ≤ H * H →
  0 ≤ f64_trunc (f64_div (f64_sub (f64_sqrt (f64_of_int n)) f64_one) (f64_of_int 2)) ≤ H + 2.
Proof.
  intros HH Hn Hs. replace (H + 2) with (H + 1 + 1) by lia. apply trunc_within; [lia|]. apply half_within; [lia|].
  apply sub_one_within; [lia|]. apply sqrt_within; [lia|].
  assert (Hw : within 1 (n + 1) (f64_of_int n)) by (apply normalize_within; nia).
  destruct (f64_of_int n) as [| | |[] m e]; cbn [within] in *; [lia|done|done|done|].
  destruct Hw as [He Hw]. split; [done|]. pose proof (Z.pow_pos_nonneg 2 (- e)). nia.
Qed.
