(* ===== verification/Keys.v ===== *)
(** * Entity, lock, scope and pointer keys

    The string keys by which the components name entities: the change-stream
    and advisory-lock keys of [internal/outbox/outbox.go] and
    [internal/store/keys.go], the derivation scopes and work-item identities of
    [internal/derive/derive.go], and the refresh pointers that
    [internal/dispatch/classify.go] prints and [internal/fetch/key.go] parses.
    The theorems show that distinct entities never share a lock, that scopes and
    pointers survive the print/parse round trip, and that work-item identities
    depend on domain identity alone. *)

From Stdlib Require Import ZArith Lia Bool Ascii String.
From stdpp Require Import base list strings numbers sorting sets.
From S2P Require Import Prelude GoStrings.

Local Open Scope Z_scope.

(** ** Printing *)

Module Outbox.

Definition RepositoryKey (installationID repositoryGitHubID : Z) : string :=
  "repo:" +:+ FormatInt installationID +:+ ":" +:+ FormatInt repositoryGitHubID.

Definition PullRequestKey (installationID repositoryGitHubID number : Z) : string :=
  "pr:" +:+ FormatInt installationID +:+ ":" +:+ FormatInt repositoryGitHubID
    +:+ ":" +:+ FormatInt number.

Definition StackKey (installationID repositoryGitHubID number : Z) : string :=
  "stack:" +:+ FormatInt installationID +:+ ":" +:+ FormatInt repositoryGitHubID
    +:+ ":" +:+ FormatInt number.

Definition ChecksKey (installationID repositoryGitHubID : Z) (sha : string) : string :=
  "checks:" +:+ FormatInt installationID +:+ ":" +:+ FormatInt repositoryGitHubID
    +:+ ":" +:+ sha.

Definition RepoRulesKey (installationID repositoryGitHubID : Z) : string :=
  "repo_rules:" +:+ FormatInt installationID +:+ ":" +:+ FormatInt repositoryGitHubID.

Definition StackWorkItemKey (repositoryGitHubID stackNumber : Z) : string :=
  "repo:" +:+ FormatInt repositoryGitHubID +:+ ":stack:" +:+ FormatInt stackNumber.

Definition PullRequestWorkItemKey (repositoryGitHubID pullNumber : Z) : string :=
  "repo:" +:+ FormatInt repositoryGitHubID +:+ ":pr:" +:+ FormatInt pullNumber.

End Outbox.

(** The entities whose keys share one advisory-lock keyspace
    ([internal/store/keys.go], "Lock ordering"). *)
Inductive entity : Type :=
  | ERepository (installationID repositoryGitHubID : Z)
  | EPullRequest (installationID repositoryGitHubID number : Z)
  | EStack (installationID repositoryGitHubID number : Z)
  | EChecks (installationID repositoryGitHubID : Z) (sha : string)
  | ERepoRules (installationID repositoryGitHubID : Z).

(** [RepositoryEntityKey], [PullRequestEntityKey], [StackEntityKey],
    [ChecksEntityKey] and [RepoRulesEntityKey]. *)
Definition entity_key (e : entity) : string :=
  match e with
  | ERepository i r => Outbox.RepositoryKey i r
  | EPullRequest i r n => Outbox.PullRequestKey i r n
  | EStack i r n => Outbox.StackKey i r n
  | EChecks i r sha => Outbox.ChecksKey i r sha
  | ERepoRules i r => Outbox.RepoRulesKey i r
  end.

(** The numeric components fit their Go types. *)
Definition entity_wf (e : entity) : Prop :=
  match e with
  | ERepository i r | EChecks i r _ | ERepoRules i r => in_int64 i ∧ in_int64 r
  | EPullRequest i r n | EStack i r n => in_int64 i ∧ in_int64 r ∧ in_int64 n
  end.

(** [derivationScope] of [internal/store/keys.go]: a stacked pull request is
    derived with its stack, a loose one on its own. *)
Definition derivationScope
    (installationID repositoryGitHubID number : Z) (stackNumber : option Z) : string :=
  match stackNumber with
  | Some s => Outbox.StackKey installationID repositoryGitHubID s
  | None => Outbox.PullRequestKey installationID repositoryGitHubID number
  end.

(** [uniqueStrings] of [internal/store/keys.go]: drop empty strings and
    duplicates, then sort. *)
Fixpoint unique_go (seen : list string) (values : list string) : list string :=
  match values with
  | [] => []
  | v :: values =>
      if bool_decide (v = "") then unique_go seen values
      else if bool_decide (v ∈ seen) then unique_go seen values
      else v :: unique_go (v :: seen) values
  end.

Definition uniqueStrings (values : list string) : list string :=
  sort_Strings (unique_go [] values).

(** ** Parsing *)

Record parsedScope : Type := ParsedScope {
  ScopeKey : string;
  Kind : string;
  Installation : Z;
  RepositoryID : Z;
  Number : Z
}.

Inductive scope_error : Type :=
  | InvalidScopeKey
  | InvalidScopeInstallation
  | InvalidScopeRepository
  | InvalidScopeNumber.

(** A positive decimal [int64] field, or the given error. *)
Definition positive_field (e : scope_error) (s : string) : result scope_error Z :=
  match ParseInt s with
  | Some n => if n <=? 0 then Err e else Ok n
  | None => Err e
  end.

Definition parseScope (key : string) : result scope_error parsedScope :=
  match Split key ":" with
  | [kind; a; b; c] =>
      if bool_decide (kind = "stack" ∨ kind = "pr") then
        installation ← positive_field InvalidScopeInstallation a;
        repositoryID ← positive_field InvalidScopeRepository b;
        number ← positive_field InvalidScopeNumber c;
        Ok (ParsedScope key kind installation repositoryID number)
      else Err InvalidScopeKey
  | _ => Err InvalidScopeKey
  end.

(** [identityForScope], [StackIdentity] and [PullRequestIdentity]. *)
Definition identityForScope (scope : parsedScope) : string :=
  if bool_decide (Kind scope = "stack") then
    Outbox.StackWorkItemKey (RepositoryID scope) (Number scope)
  else Outbox.PullRequestWorkItemKey (RepositoryID scope) (Number scope).

(** [entityKey] and [parseEntityKey] of [internal/fetch/key.go]. *)
Record entityKey : Type := EntityKey {
  ek_Kind : string;
  ek_Repo : string;
  ek_Value : string;
  ek_Number : Z
}.

Inductive pointer_error : Type :=
  | NotThatKind
  | InvalidPointer
  | InvalidPointerNumber.

Definition parseEntityKey (raw wantKind : string) : result pointer_error entityKey :=
  let prefix := wantKind +:+ ":" in
  if negb (HasPrefix raw prefix) then Err NotThatKind
  else match Cut (TrimPrefix raw prefix) ":" with
  | None => Err InvalidPointer
  | Some (repo, value) =>
      if bool_decide (repo = "") || bool_decide (value = "")
         || negb (ContainsByte repo "/")
      then Err InvalidPointer
      else if bool_decide (wantKind = "pr") || bool_decide (wantKind = "stack") then
        match ParseInt value with
        | Some number =>
            if number <=? 0 then Err InvalidPointerNumber
            else Ok (EntityKey wantKind repo value number)
        | None => Err InvalidPointerNumber
        end
      else Ok (EntityKey wantKind repo value 0)
  end.

(** [repoutil.Split]: an [owner/name] pair with exactly one slash. *)
Definition repoutil_Split (fullName : string) : option (string * string) :=
  match Cut fullName "/" with
  | Some (owner, name) =>
      if bool_decide (owner = "") || bool_decide (name = "") || ContainsByte name "/"
      then None else Some (owner, name)
  | None => None
  end.

(** The pointer keys of [intentKey] in [internal/dispatch/classify.go]. *)
Definition pointer_key (kind repo value : string) : string :=
  kind +:+ ":" +:+ repo +:+ ":" +:+ value.

(** ** Shared lemmas *)

Lemma append_colon (a b : string) : a +:+ ":" +:+ b = a +:+ String ":" b.
Proof. done. Qed.

Lemma colon_inj a1 b1 a2 b2 :
  ContainsByte a1 ":" = false → ContainsByte a2 ":" = false →
  a1 +:+ String ":" b1 = a2 +:+ String ":" b2 → a1 = a2 ∧ b1 = b2.
Proof.
  intros H1 H2 H. apply (f_equal (λ s, Cut s ":")) in H.
  rewrite !Cut_app in H by done. by simplify_eq.
Qed.

(** Peel equal colon-terminated integer fields off two equal keys. *)
Ltac peel :=
  repeat match goal with
  | H : FormatInt _ +:+ ":" +:+ _ = FormatInt _ +:+ ":" +:+ _ |- _ =>
      apply colon_inj in H as [? ?]; [|by apply FormatInt_nocolon..]
  | H : FormatInt _ = FormatInt _ |- _ =>
      apply FormatInt_inj in H; [|done..]
  end.

Lemma positive_field_format e n :
  in_int64 n → 0 < n → positive_field e (FormatInt n) = Ok n.
Proof.
  intros Hn Hp. unfold positive_field. rewrite ParseInt_FormatInt by done.
  case_if; to_props; [lia|done].
Qed.

Lemma ParseInt_range s n : ParseInt s = Some n → in_int64 n.
Proof. unfold ParseInt. intros H. break H. by apply in_int64b_spec. Qed.

Lemma positive_field_range e s n : positive_field e s = Ok n → 0 < n < 2 ^ 63.
Proof.
  unfold positive_field. destruct (ParseInt s) as [m|] eqn:E; [|done].
  apply ParseInt_range in E. unfold in_int64 in E.
  case_if; [done|]. intros [= <-]. to_props. lia.
Qed.

Lemma Split_scope kind a b c :
  ContainsByte kind ":" = false → ContainsByte a ":" = false →
  ContainsByte b ":" = false → ContainsByte c ":" = false →
  Split (kind +:+ String ":" (a +:+ String ":" (b +:+ String ":" c))) ":" = [kind; a; b; c].
Proof. intros. by rewrite !Split_app, Split_nosep. Qed.

Lemma parseScope_key kind i r n key :
  key = kind +:+ String ":" (FormatInt i +:+ String ":" (FormatInt r +:+ String ":" (FormatInt n))) →
  kind = "stack" ∨ kind = "pr" →
  in_int64 i → in_int64 r → in_int64 n → 0 < i → 0 < r → 0 < n →
  parseScope key = Ok (ParsedScope key kind i r n).
Proof.
  intros -> Hk **. unfold parseScope.
  rewrite Split_scope by (destruct Hk as [-> | ->]; eauto with ghsync).
  rewrite bool_decide_true by done. by rewrite !positive_field_format.
Qed.

Lemma parseScope_range key scope :
  parseScope key = Ok scope →
  ScopeKey scope = key ∧ (Kind scope = "stack" ∨ Kind scope = "pr") ∧
  0 < Installation scope < 2 ^ 63 ∧ 0 < RepositoryID scope < 2 ^ 63 ∧
  0 < Number scope < 2 ^ 63.
Proof.
  unfold parseScope. intros H.
  destruct (Split key ":") as [|k [|a [|b [|c [|]]]]]; try discriminate H.
  case_if_in H; [|discriminate H]. to_props.
  apply bind_ok in H as (i & Hi & H). apply bind_ok in H as (r & Hr & H).
  apply bind_ok in H as (n & Hn & H). simplify_eq; simpl.
  apply positive_field_range in Hi, Hr, Hn. done.
Qed.

Lemma unique_go_elem values : ∀ seen x,
  x ∈ unique_go seen values ↔ x ∈ values ∧ x ≠ "" ∧ x ∉ seen.
Proof.
  induction values as [|v values IH]; intros seen x; simpl.
  { rewrite elem_of_nil. tauto. }
  repeat case_bool_decide;
    rewrite ?elem_of_cons, ?IH, ?elem_of_cons; destruct (decide (x = v)) as [->|]; tauto.
Qed.

Lemma unique_go_NoDup values : ∀ seen, NoDup (unique_go seen values).
Proof.
  induction values as [|v values IH]; intros seen; simpl; [constructor|].
  repeat case_bool_decide; [done..|]. constructor; [|done].
  rewrite unique_go_elem, elem_of_cons. tauto.
Qed.

(** Parsing a printed pointer comes down to parsing its value. *)
Lemma parse_pointer kind repo value :
  ContainsByte repo "/" = true → ContainsByte repo ":" = false → value ≠ "" →
  parseEntityKey (pointer_key kind repo value) kind
  = if bool_decide (kind = "pr") || bool_decide (kind = "stack") then
      match ParseInt value with
      | Some number =>
          if number <=? 0 then Err InvalidPointerNumber
          else Ok (EntityKey kind repo value number)
      | None => Err InvalidPointerNumber
      end
    else Ok (EntityKey kind repo value 0).
Proof.
  intros Hs Hc Hv. unfold parseEntityKey, pointer_key.
  rewrite <- append_assoc, HasPrefix_app, TrimPrefix_app. cbn [negb].
  rewrite append_colon, Cut_app by done. rewrite Hs.
  by rewrite (bool_decide_false (repo = "")), (bool_decide_false (value = "")) by (done || by intros ->).
Qed.

(** ** Theorems *)

(** Advisory locks and change-stream references are keyed by
    strings; distinct entities of the shared keyspace never collide, so holding
    the lock of one entity never blocks or admits a writer of another. *)
Theorem entity_key_injective e1 e2 :
  entity_wf e1 → entity_wf e2 → entity_key e1 = entity_key e2 → e1 = e2.
Proof.
  destruct e1, e2; simpl; intros H1 H2 H; try discriminate H;
    destruct_and?; unfold Outbox.RepositoryKey, Outbox.PullRequestKey, Outbox.StackKey,
      Outbox.ChecksKey, Outbox.RepoRulesKey in H;
    apply append_inj_l in H; peel; by subst.
Qed.

Lemma entity_key_injective_witness :
  entity_key (EPullRequest 1 22 3) = entity_key (EPullRequest 1 22 3) ∧
  EPullRequest 1 22 3 = EPullRequest 1 22 3 ∧
  entity_key (EPullRequest 1 22 3) ≠ entity_key (EStack 1 22 3).
Proof.
  split; [reflexivity|]. split; [|vm_compute; discriminate].
  apply entity_key_injective; [vm_compute; intuition discriminate..|reflexivity].
Defined.

(** The scope key the cache writer marks dirty is accepted by
    the deriver, which recovers from it the kind, installation, repository and
    number it was printed from, and with them the owning work-item identity. *)
Theorem derivationScope_roundtrip i r n stack :
  in_int64 i → in_int64 r → in_int64 n → 0 < i → 0 < r → 0 < n →
  (∀ s, stack = Some s → in_int64 s ∧ 0 < s) →
  ∃ scope, parseScope (derivationScope i r n stack) = Ok scope ∧
    ScopeKey scope = derivationScope i r n stack ∧
    Installation scope = i ∧ RepositoryID scope = r ∧
    Number scope = default n stack ∧
    identityForScope scope =
      match stack with
      | Some s => Outbox.StackWorkItemKey r s
      | None => Outbox.PullRequestWorkItemKey r n
      end.
Proof.
  intros ?????? Hs.
  destruct stack as [s|].
  - destruct (Hs s eq_refl). exists (ParsedScope (derivationScope i r n (Some s)) "stack" i r s).
    split; [by apply parseScope_key; [|left|..]|]. split_and!; reflexivity.
  - exists (ParsedScope (derivationScope i r n None) "pr" i r n).
    split; [by apply parseScope_key; [|right|..]|]. split_and!; reflexivity.
Qed.

Lemma derivationScope_roundtrip_witness :
  parseScope (derivationScope 1 9 4 (Some 7)) = Ok (ParsedScope "stack:1:9:7" "stack" 1 9 7) ∧
  ∃ scope, parseScope (derivationScope 1 9 4 (Some 7)) = Ok scope ∧
    ScopeKey scope = derivationScope 1 9 4 (Some 7) ∧
    Installation scope = 1 ∧ RepositoryID scope = 9 ∧ Number scope = 7 ∧
    identityForScope scope = Outbox.StackWorkItemKey 9 7.
Proof.
  split; [vm_compute; reflexivity|].
  apply (derivationScope_roundtrip 1 9 4 (Some 7));
    [vm_compute; intuition discriminate..|].
  intros s [= <-]. vm_compute; intuition discriminate.
Defined.

(** Whatever [parseScope] accepts has a known kind and
    positive 64-bit identifiers, and it is the key itself that it reports. *)
Theorem parseScope_sound key scope :
  parseScope key = Ok scope →
  ScopeKey scope = key ∧ (Kind scope = "stack" ∨ Kind scope = "pr") ∧
  0 < Installation scope < 2 ^ 63 ∧ 0 < RepositoryID scope < 2 ^ 63 ∧
  0 < Number scope < 2 ^ 63.
Proof. apply parseScope_range. Qed.

Lemma parseScope_sound_witness :
  parseScope "pr:3:44:5" = Ok (ParsedScope "pr:3:44:5" "pr" 3 44 5) ∧ 0 < 44 < 2 ^ 63.
Proof.
  assert (H : parseScope "pr:3:44:5" = Ok (ParsedScope "pr:3:44:5" "pr" 3 44 5))
    by (vm_compute; reflexivity).
  split; [exact H|]. apply (parseScope_sound _ _ H).
Defined.

(** Work-item identities follow domain identity alone: two
    well-formed scopes have the same identity exactly when they agree on
    repository, kind and number, whatever installation or row they came from. *)
Theorem identityForScope_stable k1 k2 s1 s2 :
  parseScope k1 = Ok s1 → parseScope k2 = Ok s2 →
  identityForScope s1 = identityForScope s2 ↔
  Kind s1 = Kind s2 ∧ RepositoryID s1 = RepositoryID s2 ∧ Number s1 = Number s2.
Proof.
  intros (_ & Hk1 & _ & Hr1 & Hn1)%parseScope_range (_ & Hk2 & _ & Hr2 & Hn2)%parseScope_range.
  destruct s1 as [key1 kd1 i1 r1 n1], s2 as [key2 kd2 i2 r2 n2]; simpl in *.
  assert (in_int64 r1 ∧ in_int64 r2 ∧ in_int64 n1 ∧ in_int64 n2) as (? & ? & ? & ?)
    by (unfold in_int64; lia).
  split; [|by intros (-> & -> & ->)].
  unfold identityForScope, Outbox.StackWorkItemKey, Outbox.PullRequestWorkItemKey; simpl.
  destruct Hk1 as [-> | ->], Hk2 as [-> | ->]; 
    intros Heq; apply append_inj_l in Heq;
    apply (colon_inj (FormatInt r1) _ (FormatInt r2)) in Heq as [? Heq]; eauto with ghsync;
    try discriminate Heq; injection Heq as Heq; peel; by subst.
Qed.

Lemma identityForScope_stable_witness :
  parseScope "pr:1:8:5" = Ok (ParsedScope "pr:1:8:5" "pr" 1 8 5) ∧
  parseScope "pr:2:8:5" = Ok (ParsedScope "pr:2:8:5" "pr" 2 8 5) ∧
  identityForScope (ParsedScope "pr:1:8:5" "pr" 1 8 5) =
  identityForScope (ParsedScope "pr:2:8:5" "pr" 2 8 5).
Proof.
  split; [vm_compute; reflexivity|]. split; [vm_compute; reflexivity|].
  apply (identityForScope_stable "pr:1:8:5" "pr:2:8:5"); vm_compute; auto.
Defined.

(** A pull-request or stack pointer printed by the dispatcher
    is parsed back by the fetcher to the same repository and number, provided
    the repository name is an [owner/name] without a colon. *)
Theorem parseEntityKey_roundtrip kind repo n :
  kind = "pr" ∨ kind = "stack" → ContainsByte repo "/" = true →
  ContainsByte repo ":" = false → in_int64 n → 0 < n →
  parseEntityKey (pointer_key kind repo (FormatInt n)) kind
  = Ok (EntityKey kind repo (FormatInt n) n).
Proof.
  intros Hk Hs Hc Hn Hp. rewrite parse_pointer, ParseInt_FormatInt by auto using FormatInt_nonempty.
  replace (n <=? 0) with false by lia. by destruct Hk as [-> | ->].
Qed.

Lemma parseEntityKey_roundtrip_witness :
  pointer_key "pr" "acme/monolith" (FormatInt 4812) = "pr:acme/monolith:4812" ∧
  parseEntityKey (pointer_key "pr" "acme/monolith" (FormatInt 4812)) "pr"
  = Ok (EntityKey "pr" "acme/monolith" (FormatInt 4812) 4812).
Proof.
  split; [vm_compute; reflexivity|].
  apply parseEntityKey_roundtrip; [by left|vm_compute; reflexivity..|vm_compute; intuition discriminate|lia].
Defined.

(** [parseEntityKey] accepts only keys of the requested
    kind: the accepted text is exactly [kind:repo:value] with a colon-free
    repository that names an owner, and a positive number for pull requests and
    stacks. *)
Theorem parseEntityKey_sound raw kind k :
  parseEntityKey raw kind = Ok k →
  ek_Kind k = kind ∧ raw = pointer_key kind (ek_Repo k) (ek_Value k) ∧
  ContainsByte (ek_Repo k) ":" = false ∧ ContainsByte (ek_Repo k) "/" = true ∧
  ek_Value k ≠ "" ∧
  (kind = "pr" ∨ kind = "stack" →
   ParseInt (ek_Value k) = Some (ek_Number k) ∧ 0 < ek_Number k).
Proof.
  unfold parseEntityKey. intros H. break H; apply HasPrefix_inv in E;
    match goal with H : Cut _ _ = _ |- _ => apply Cut_inv in H as [Hcut ?] end;
    rewrite E, Hcut; unfold pointer_key; simpl;
    (split_and!; [done|by rewrite append_assoc|done|done|done|]);
    naive_solver.
Qed.

Lemma parseEntityKey_sound_witness :
  parseEntityKey "checks:o/r:ab:cd" "checks" = Ok (EntityKey "checks" "o/r" "ab:cd" 0) ∧
  "checks:o/r:ab:cd" = pointer_key "checks" "o/r" "ab:cd".
Proof.
  assert (H : parseEntityKey "checks:o/r:ab:cd" "checks"
              = Ok (EntityKey "checks" "o/r" "ab:cd" 0)) by (vm_compute; reflexivity).
  split; [exact H|]. apply (parseEntityKey_sound _ _ _ H).
Defined.

(** [uniqueStrings] returns the non-empty strings of its argument,
    each once and in strictly ascending order: the order in which every holder
    of several entity locks must acquire them. *)
Theorem uniqueStrings_spec values :
  StronglySorted string_lt (uniqueStrings values) ∧
  ∀ x, x ∈ uniqueStrings values ↔ x ∈ values ∧ x ≠ "".
Proof.
  split; [apply sort_Strings_sorted, unique_go_NoDup|].
  intros x. unfold uniqueStrings. rewrite sort_Strings_perm, unique_go_elem, elem_of_nil. tauto.
Qed.
