(* ===== verification/Gate.v ===== *)
(** * The GitHub budget gate

    [internal/budget/gate.go] and [internal/budget/types.go]: the single
    admission and accounting choke point for GitHub requests. The gate's mutex
    makes every critical section atomic, so each is one function on the state
    [Gate]; the goroutines that run them interleave arbitrarily ([gate_step]).

    The state keeps the Go fields. An [*admission] is represented by its id:
    ids are never reused before the 64-bit counter wraps, so pointer equality of
    live admissions is equality of ids. [sync.Once] in [finish] is subsumed by
    the membership test of [finishAdmission]. The wake-up channel [changed],
    closed and replaced by every signal, is the number of signals so far. *)

From Stdlib Require Import ZArith Lia Bool Ascii String SpecFloat.
From stdpp Require Import base list strings gmap numbers sorting.
From S2P Require Import Prelude GoStrings GoFloat.

Local Open Scope Z_scope.

(** ** Types *)

Definition Class : Type := string.
Definition Interactive : Class := "interactive".
Definition Event : Class := "event".
Definition Sweep : Class := "sweep".

Definition class_valid (c : Class) : bool :=
  bool_decide (c = Interactive) || bool_decide (c = Event) || bool_decide (c = Sweep).

Definition AuthContext : Type := string.
Definition InstallationAuth : AuthContext := "installation".
Definition AppJWTAuth : AuthContext := "app_jwt".

Definition auth_valid (a : AuthContext) : bool :=
  bool_decide (a = InstallationAuth) || bool_decide (a = AppJWTAuth).

Definition Resource : Type := string.
Definition REST : Resource := "rest".
Definition GraphQL : Resource := "graphql".

Definition resource_valid (r : Resource) : bool :=
  bool_decide (r = REST) || bool_decide (r = GraphQL).

Record ResourceBudget : Type := Budget {
  Known : bool;
  Limit : Z;
  Remaining : Z;
  ResetAt : time
}.

Record Starvation : Type := mkStarvation {
  st_Class : Class;
  st_Resource : Resource;
  st_AuthContext : AuthContext;
  st_Remaining : Z;
  st_Limit : Z;
  st_ResetAt : time
}.

Inductive gate_error : Type :=
  | ErrClosed
  | ErrLeaseLost
  | ErrLeaseLostWrapped (context : string).

Record admission : Type := Admission {
  resource : Resource;
  authContext : AuthContext;
  cost : Z;
  holdsSlot : bool
}.

(** ** Options and construction *)

Record Options : Type := mkOptions {
  MaxConcurrent : Z;
  RESTLimit : Z;
  GraphQLLimit : Z;
  SweepFloor : float64;
  EventFloor : float64;
  RESTRequestEstimate : Z;
  GraphQLPointEstimate : Z;
  SecondaryLimitFallback : duration
}.

Definition defaultConcurrency : Z := 40.
Definition defaultRESTLimit : Z := 5000.
Definition defaultGraphQLLimit : Z := 5000.
Definition defaultRESTEstimate : Z := 1.
Definition defaultGraphQLEstimate : Z := 100.
Definition defaultSecondaryBackoff : duration := 60 * Second.
Definition defaultSweepFloor : float64 := f64_ratio 20 100.
Definition defaultEventFloor : float64 := f64_ratio 10 100.
Definition secondaryBodyInspectSize : Z := 65536.

Definition positive_or (default v : Z) : Z := if v <=? 0 then default else v.

(** A floor outside (0, 1) is replaced by its default. *)
Definition fraction_or (default v : float64) : float64 :=
  if f64_leb v f64_zero || f64_leb f64_one v then default else v.

Definition normalizeOptions (o : Options) : Options :=
  let sweep := fraction_or defaultSweepFloor (SweepFloor o) in
  let event := fraction_or defaultEventFloor (EventFloor o) in
  let floors :=
    if f64_leb sweep event then (defaultSweepFloor, defaultEventFloor)
    else (sweep, event) in
  {| MaxConcurrent := positive_or defaultConcurrency (MaxConcurrent o);
     RESTLimit := positive_or defaultRESTLimit (RESTLimit o);
     GraphQLLimit := positive_or defaultGraphQLLimit (GraphQLLimit o);
     SweepFloor := fst floors;
     EventFloor := snd floors;
     RESTRequestEstimate := positive_or defaultRESTEstimate (RESTRequestEstimate o);
     GraphQLPointEstimate := positive_or defaultGraphQLEstimate (GraphQLPointEstimate o);
     SecondaryLimitFallback :=
       positive_or defaultSecondaryBackoff (SecondaryLimitFallback o) |}.

Record Gate : Type := mkGate {
  options : Options;
  inFlight : Z;
  rest : ResourceBudget;
  appREST : ResourceBudget;
  graphql : ResourceBudget;
  restReserved : Z;
  appRESTReserved : Z;
  graphqlReserved : Z;
  backoffUntil : time;
  appJWTBackoffUntil : time;
  unavailable : option gate_error;
  leaseUntil : time;
  nextAdmissionID : Z;
  admissions : gmap Z admission;
  (** Admissions on which [abort] ran, and those with an attached body. *)
  aborted : gset Z;
  attached : gset Z;
  (** The lease runtime, when there is one: whether it was cancelled. *)
  lease : option bool;
  (** Signals so far: the identity of the current [changed] channel. *)
  changed : nat
}.

Definition New (o : Options) : Gate :=
  let o := normalizeOptions o in
  {| options := o; inFlight := 0;
     rest := Budget false (RESTLimit o) 0 zero_time;
     appREST := Budget false defaultRESTLimit 0 zero_time;
     graphql := Budget false (GraphQLLimit o) 0 zero_time;
     restReserved := 0; appRESTReserved := 0; graphqlReserved := 0;
     backoffUntil := zero_time; appJWTBackoffUntil := zero_time;
     unavailable := None; leaseUntil := zero_time;
     nextAdmissionID := 0; admissions := ∅; aborted := ∅; attached := ∅;
     lease := None; changed := 0 |}.

(** ** Locked accessors *)

Definition floorFor (g : Gate) (class : Class) : float64 :=
  if bool_decide (class = Sweep) then SweepFloor (options g)
  else if bool_decide (class = Event) then EventFloor (options g)
  else f64_zero.

Definition estimateLocked (g : Gate) (r : Resource) : Z :=
  if bool_decide (r = REST) then RESTRequestEstimate (options g)
  else if bool_decide (r = GraphQL) then GraphQLPointEstimate (options g)
  else 0.

(** The three independently accounted pools. *)
Inductive pool : Type := PoolREST | PoolAppREST | PoolGraphQL.

#[export] Instance pool_eq_dec : EqDecision pool.
Proof. solve_decision. Defined.

(** The switch shared by [reservedLocked], [addReservationLocked] and
    [resourceLocked]. On the resources [validateDo] lets through they agree. *)
Definition pool_of (r : Resource) (a : AuthContext) : pool :=
  if bool_decide (r = GraphQL) then PoolGraphQL
  else if bool_decide (r = REST) && bool_decide (a = AppJWTAuth) then PoolAppREST
  else PoolREST.

Definition reserved (g : Gate) (p : pool) : Z :=
  match p with
  | PoolREST => restReserved g
  | PoolAppREST => appRESTReserved g
  | PoolGraphQL => graphqlReserved g
  end.

Definition budget (g : Gate) (p : pool) : ResourceBudget :=
  match p with
  | PoolREST => rest g
  | PoolAppREST => appREST g
  | PoolGraphQL => graphql g
  end.

Definition reservedLocked (g : Gate) (r : Resource) (a : AuthContext) : Z :=
  reserved g (pool_of r a).

Definition resourceLocked (g : Gate) (r : Resource) (a : AuthContext) : ResourceBudget :=
  budget g (pool_of r a).

Definition set_reserved (g : Gate) (p : pool) (v : Z) : Gate :=
  {| options := options g; inFlight := inFlight g;
     rest := rest g; appREST := appREST g; graphql := graphql g;
     restReserved := if decide (p = PoolREST) then v else restReserved g;
     appRESTReserved := if decide (p = PoolAppREST) then v else appRESTReserved g;
     graphqlReserved := if decide (p = PoolGraphQL) then v else graphqlReserved g;
     backoffUntil := backoffUntil g; appJWTBackoffUntil := appJWTBackoffUntil g;
     unavailable := unavailable g; leaseUntil := leaseUntil g;
     nextAdmissionID := nextAdmissionID g; admissions := admissions g;
     aborted := aborted g; attached := attached g; lease := lease g; changed := changed g |}.

Definition set_budget (g : Gate) (p : pool) (b : ResourceBudget) : Gate :=
  {| options := options g; inFlight := inFlight g;
     rest := if decide (p = PoolREST) then b else rest g;
     appREST := if decide (p = PoolAppREST) then b else appREST g;
     graphql := if decide (p = PoolGraphQL) then b else graphql g;
     restReserved := restReserved g; appRESTReserved := appRESTReserved g;
     graphqlReserved := graphqlReserved g;
     backoffUntil := backoffUntil g; appJWTBackoffUntil := appJWTBackoffUntil g;
     unavailable := unavailable g; leaseUntil := leaseUntil g;
     nextAdmissionID := nextAdmissionID g; admissions := admissions g;
     aborted := aborted g; attached := attached g; lease := lease g; changed := changed g |}.

(** A resource that is neither REST nor GraphQL reserves nothing. *)
Definition addReservationLocked
    (g : Gate) (r : Resource) (a : AuthContext) (delta : Z) : Gate :=
  if resource_valid r then
    set_reserved g (pool_of r a) (wrap64 (reserved g (pool_of r a) + delta))
  else g.

Definition backoffLocked (g : Gate) (a : AuthContext) : time :=
  if bool_decide (a = AppJWTAuth) then appJWTBackoffUntil g else backoffUntil g.

Definition setBackoffLocked (g : Gate) (a : AuthContext) (until : time) : Gate :=
  {| options := options g; inFlight := inFlight g;
     rest := rest g; appREST := appREST g; graphql := graphql g;
     restReserved := restReserved g; appRESTReserved := appRESTReserved g;
     graphqlReserved := graphqlReserved g;
     backoffUntil := if bool_decide (a = AppJWTAuth) then backoffUntil g else until;
     appJWTBackoffUntil := if bool_decide (a = AppJWTAuth) then until else appJWTBackoffUntil g;
     unavailable := unavailable g; leaseUntil := leaseUntil g;
     nextAdmissionID := nextAdmissionID g; admissions := admissions g;
     aborted := aborted g; attached := attached g; lease := lease g; changed := changed g |}.

(** The availability fields: the terminal error, the lease deadline, and whether
    the lease runtime was cancelled. *)
Definition set_availability
    (g : Gate) (err : option gate_error) (until : time) (l : option bool) : Gate :=
  {| options := options g; inFlight := inFlight g;
     rest := rest g; appREST := appREST g; graphql := graphql g;
     restReserved := restReserved g; appRESTReserved := appRESTReserved g;
     graphqlReserved := graphqlReserved g;
     backoffUntil := backoffUntil g; appJWTBackoffUntil := appJWTBackoffUntil g;
     unavailable := err; leaseUntil := until;
     nextAdmissionID := nextAdmissionID g; admissions := admissions g;
     aborted := aborted g; attached := attached g; lease := l; changed := changed g |}.

(** The admission fields. *)
Definition set_admissions
    (g : Gate) (n : Z) (next : Z) (m : gmap Z admission) : Gate :=
  {| options := options g; inFlight := n;
     rest := rest g; appREST := appREST g; graphql := graphql g;
     restReserved := restReserved g; appRESTReserved := appRESTReserved g;
     graphqlReserved := graphqlReserved g;
     backoffUntil := backoffUntil g; appJWTBackoffUntil := appJWTBackoffUntil g;
     unavailable := unavailable g; leaseUntil := leaseUntil g;
     nextAdmissionID := next; admissions := m;
     aborted := aborted g; attached := attached g; lease := lease g; changed := changed g |}.

Definition set_bodies (g : Gate) (ab at_ : gset Z) : Gate :=
  {| options := options g; inFlight := inFlight g;
     rest := rest g; appREST := appREST g; graphql := graphql g;
     restReserved := restReserved g; appRESTReserved := appRESTReserved g;
     graphqlReserved := graphqlReserved g;
     backoffUntil := backoffUntil g; appJWTBackoffUntil := appJWTBackoffUntil g;
     unavailable := unavailable g; leaseUntil := leaseUntil g;
     nextAdmissionID := nextAdmissionID g; admissions := admissions g;
     aborted := ab; attached := at_; lease := lease g; changed := changed g |}.

Definition signalLocked (g : Gate) : Gate :=
  {| options := options g; inFlight := inFlight g;
     rest := rest g; appREST := appREST g; graphql := graphql g;
     restReserved := restReserved g; appRESTReserved := appRESTReserved g;
     graphqlReserved := graphqlReserved g;
     backoffUntil := backoffUntil g; appJWTBackoffUntil := appJWTBackoffUntil g;
     unavailable := unavailable g; leaseUntil := leaseUntil g;
     nextAdmissionID := nextAdmissionID g; admissions := admissions g;
     aborted := aborted g; attached := attached g; lease := lease g;
     changed := S (changed g) |}.

(** ** Admission *)

Inductive admissionDecision : Type :=
  | DecisionError (err : gate_error)
  (** Wait for a change of [channel], or until [waitUntil] unless it is the zero
      time; [starvation] is set when a reserved floor is the reason. *)
  | DecisionWait (waitUntil : time) (channel : nat) (starvation : option Starvation)
  | DecisionAdmit (id : Z).

(** The reserved floor of a class, in requests or points. *)
Definition floorRemaining (g : Gate) (class : Class) (limit : Z) : Z :=
  f64_ceil (f64_mul (f64_of_int limit) (floorFor g class)).

(** Whether a nested token exchange may run in its parent's slot. *)
Definition reuseSlot (g : Gate) (parent : option Z) : bool :=
  match parent with
  | Some p => match admissions g !! p with Some a => holdsSlot a | None => false end
  | None => false
  end.

(** The first step of [tryAdmit]: an expired lease closes the gate for good. *)
Definition expireLease (g : Gate) (now : time) : Gate :=
  match unavailable g with
  | None =>
      if negb (IsZero (leaseUntil g)) && negb (Before now (leaseUntil g)) then
        signalLocked (set_availability g (Some ErrLeaseLost) (leaseUntil g)
          (const true <$> lease g))
      else g
  | Some _ => g
  end.

Definition tryAdmit (g : Gate) (now : time) (class : Class) (res : Resource)
    (auth : AuthContext) (parent : option Z) : admissionDecision * Gate :=
  let reuse := reuseSlot g parent in
  let g := expireLease g now in
  match unavailable g with
  | Some err => (DecisionError err, g)
  | None =>
    if Before now (backoffLocked g auth) then
      (DecisionWait (backoffLocked g auth) (changed g) None, g)
    else if negb reuse && (MaxConcurrent (options g) <=? inFlight g) then
      (DecisionWait zero_time (changed g) None, g)
    else
      let cost := estimateLocked g res in
      let state := resourceLocked g res auth in
      let afterReservation :=
        wrap64 (wrap64 (Remaining state - reservedLocked g res auth) - cost) in
      let floor := floorFor g class in
      if Known state && Before now (ResetAt state)
         && ((afterReservation <? 0)
             || (f64_ltb f64_zero floor
                 && (afterReservation <? floorRemaining g class (Limit state))))
      then
        (DecisionWait (ResetAt state) (changed g)
           (Some (mkStarvation class res auth
              (wrap64 (Remaining state - reservedLocked g res auth))
              (Limit state) (ResetAt state))), g)
      else
        let id := (nextAdmissionID g + 1) `mod` 2 ^ 64 in
        let entry := Admission res auth cost (negb reuse) in
        let g := set_admissions g
          (if reuse then inFlight g else wrap64 (inFlight g + 1)) id (admissions g) in
        let g := addReservationLocked g res auth cost in
        (DecisionAdmit id,
         set_admissions g (inFlight g) (nextAdmissionID g)
           (<[id := entry]> (admissions g)))
  end.

(** [finish] and [finishAdmission]: release what the admission holds, once. *)
Definition finishAdmission (g : Gate) (id : Z) : Gate :=
  match admissions g !! id with
  | Some a =>
      let g := set_admissions g
        (if holdsSlot a then wrap64 (inFlight g - 1) else inFlight g)
        (nextAdmissionID g) (delete id (admissions g)) in
      signalLocked (addReservationLocked g (resource a) (authContext a) (- cost a))
  | None => g
  end.

(** [attachBody]: a body offered to an aborted admission is closed instead. *)
Definition attachBody (g : Gate) (id : Z) : Gate :=
  if decide (id ∈ aborted g) then g
  else set_bodies g (aborted g) ({[id]} ∪ attached g).

(** [abort]: mark, close the attached body, and release. Closing an
    [admittedBody] only finishes the same admission again. *)
Definition abort (g : Gate) (id : Z) : Gate :=
  finishAdmission (set_bodies g ({[id]} ∪ aborted g) (attached g)) id.

(** ** Observations *)

Definition mergeObservation (current observed : ResourceBudget) : ResourceBudget :=
  if negb (Known observed) then current
  else if negb (Known current) || After (ResetAt observed) (ResetAt current) then observed
  else if Before (ResetAt observed) (ResetAt current) then current
  else
    {| Known := Known current;
       Limit := Z.max (Limit current) (Limit observed);
       Remaining := if Remaining observed <? Remaining current
                    then Remaining observed else Remaining current;
       ResetAt := ResetAt current |}.

(** An [http.Header]: values by canonical key. *)
Definition http_header : Type := gmap string (list string).

(** [textproto.CanonicalMIMEHeaderKey] on header names made of token bytes. *)
Definition upper_byte (c : ascii) : ascii :=
  let n := N_of_ascii c in
  if ((97 <=? n) && (n <=? 122))%N then ascii_of_N (n - 32) else c.

Fixpoint canonical_go (upper : bool) (s : string) : string :=
  match s with
  | EmptyString => EmptyString
  | String c s =>
      String (if upper then upper_byte c else lower_byte c)
        (canonical_go (Ascii.eqb c "-") s)
  end.

Definition header_get (h : http_header) (key : string) : string :=
  default "" (h !! canonical_go true key ≫= head).

Inductive observe_error : Type :=
  | IncompleteRateHeaders
  | InvalidRateLimit
  | InvalidRateRemaining
  | InvalidRateReset
  | NegativeRetryAfter
  | InvalidRetryAfter
  | InspectBody
  | PersistBackoff
  | BackoffOwnershipLost.

Definition observeBudget (g : Gate) (p : pool) (b : ResourceBudget) : Gate :=
  signalLocked (set_budget g p (mergeObservation (budget g p) b)).

Definition observeREST (g : Gate) (auth : AuthContext) (h : http_header)
    : result observe_error unit * Gate :=
  let rawLimit := header_get h "X-RateLimit-Limit" in
  let rawRemaining := header_get h "X-RateLimit-Remaining" in
  let rawReset := header_get h "X-RateLimit-Reset" in
  if bool_decide (rawLimit = "" ∧ rawRemaining = "" ∧ rawReset = "") then (Ok tt, g)
  else if bool_decide (rawLimit = "" ∨ rawRemaining = "" ∨ rawReset = "") then
    (Err IncompleteRateHeaders, g)
  else match ParseInt rawLimit with
  | Some limit =>
      if limit <=? 0 then (Err InvalidRateLimit, g)
      else match ParseInt rawRemaining with
      | Some remaining =>
          if remaining <? 0 then (Err InvalidRateRemaining, g)
          else match ParseInt rawReset with
          | Some resetUnix =>
              if resetUnix <=? 0 then (Err InvalidRateReset, g)
              else (Ok tt, observeBudget g (pool_of REST auth)
                             (Budget true limit remaining (Unix resetUnix)))
          | None => (Err InvalidRateReset, g)
          end
      | None => (Err InvalidRateRemaining, g)
      end
  | None => (Err InvalidRateLimit, g)
  end.

Record GraphQLRate : Type := mkRate {
  rate_Cost : Z;
  rate_Limit : Z;
  rate_Remaining : Z;
  rate_ResetAt : time
}.

Definition observeGraphQL (g : Gate) (rate : GraphQLRate) : Gate :=
  if (rate_Limit rate <=? 0) || (rate_Remaining rate <? 0) || IsZero (rate_ResetAt rate)
  then g
  else observeBudget g PoolGraphQL
         (Budget true (rate_Limit rate) (rate_Remaining rate) (rate_ResetAt rate)).

(** ** Availability *)

Definition stopAdmission (g : Gate) (err : option gate_error) : Gate :=
  match unavailable g with
  | None => signalLocked (set_availability g (Some (default ErrClosed err)) (leaseUntil g) (lease g))
  | Some _ => g
  end.

Definition setLeaseUntil (g : Gate) (until : time) : Gate :=
  match unavailable g with
  | None => signalLocked (set_availability g None until (lease g))
  | Some _ => g
  end.

(** [cancelAdmissions] aborts a snapshot of the live admissions. *)
Definition cancelAdmissions (g : Gate) : Gate :=
  foldl abort g (fst <$> map_to_list (admissions g)).

Definition loseLease (g : Gate) (err : option gate_error) : Gate :=
  let g := set_availability g (unavailable g) (leaseUntil g) (const true <$> lease g) in
  cancelAdmissions (stopAdmission g (Some (default ErrLeaseLost err))).

Record Snapshot : Type := mkSnapshot {
  sn_REST : ResourceBudget;
  sn_AppREST : ResourceBudget;
  sn_GraphQL : ResourceBudget;
  sn_BackoffUntil : time;
  sn_AppJWTBackoffUntil : time;
  sn_InFlight : Z
}.

Definition snapshot (g : Gate) : Snapshot :=
  mkSnapshot (rest g) (appREST g) (graphql g) (backoffUntil g)
    (appJWTBackoffUntil g) (inFlight g).

Definition restore (g : Gate) (s : Snapshot) : Gate :=
  let g := if Known (sn_REST s) then set_budget g PoolREST (sn_REST s) else g in
  let g := if Known (sn_AppREST s) then set_budget g PoolAppREST (sn_AppREST s) else g in
  let g := if Known (sn_GraphQL s) then set_budget g PoolGraphQL (sn_GraphQL s) else g in
  let g := if After (sn_BackoffUntil s) (backoffUntil g)
           then setBackoffLocked g InstallationAuth (sn_BackoffUntil s) else g in
  let g := if After (sn_AppJWTBackoffUntil s) (appJWTBackoffUntil g)
           then setBackoffLocked g AppJWTAuth (sn_AppJWTBackoffUntil s) else g in
  signalLocked g.

(** ** Secondary limits *)

(** What a response body yields: its bytes, whether reading them ends in an
    error rather than EOF, and whether that end is reported together with the
    last bytes or by a further read. *)
Record reader : Type := mkReader {
  r_data : string;
  r_fails : bool;
  r_eager : bool
}.

(** [io.ReadAll(io.LimitReader(r, n))]: the bytes, and whether the end of the
    underlying reader was observed. *)
Definition read_limited (r : reader) (n : Z) : string * bool :=
  let len := Z.of_nat (String.length (r_data r)) in
  if (len <? n) || ((len =? n) && r_eager r) then (r_data r, true)
  else (String.substring 0 (Z.to_nat n) (r_data r), false).

(** [responseHasSecondaryLimitShape]: the verdict and whether the network body
    was read to its end. A body that is absent is never secondary. *)
Definition responseHasSecondaryLimitShape (body : option reader)
    : result observe_error bool * bool :=
  match body with
  | None => (Ok false, false)
  | Some r =>
      let '(prefix, ended) := read_limited r (secondaryBodyInspectSize + 1) in
      if ended && r_fails r then (Err InspectBody, true)
      else
        let inspect :=
          String.substring 0 (Z.to_nat secondaryBodyInspectSize) prefix in
        let lower := ToLower inspect in
        (Ok (Contains lower "secondary rate limit" || Contains lower "abuse detection"),
         ended)
  end.

Section secondary.
(** [http.ParseTime]: the HTTP date formats. *)
Variable http_ParseTime : string → option time.

Definition retryAfterDeadline (now : time) (raw : string) : result observe_error time :=
  match ParseInt raw with
  | Some seconds =>
      if seconds <? 0 then Err NegativeRetryAfter
      else Ok (now + wrap64 (seconds * Second))
  | None =>
      match http_ParseTime raw with
      | Some t => Ok t
      | None => Err InvalidRetryAfter
      end
  end.

(** How the synchronous write of [persistBackoff] ended: with an error, or
    with whether this runtime still owns the lease. *)
Definition persist_outcome : Type := option bool.

(** [observeSecondaryLimit]: the error, the gate, and whether the network body
    was read to its end. *)
Definition observeSecondaryLimit (g : Gate) (now : time) (auth : AuthContext)
    (status : Z) (h : http_header) (body : option reader) (persist : persist_outcome)
    : option observe_error * Gate * bool :=
  if negb (status =? 403) && negb (status =? 429) then (None, g, false)
  else
    let raw := TrimSpace (header_get h "Retry-After") in
    let '(deadline, ended) :=
      if negb (bool_decide (raw = "")) then
        (match retryAfterDeadline now raw with
         | Ok t => Ok (Some t) | Err e => Err e end, false)
      else
        let '(secondary, ended) := responseHasSecondaryLimitShape body in
        (match secondary with
         | Ok true => Ok (Some (now + SecondaryLimitFallback (options g)))
         | Ok false => Ok None
         | Err e => Err e end, ended) in
    match deadline with
    | Err e => (Some e, g, ended)
    | Ok None => (None, g, ended)
    | Ok (Some until) =>
        if After until (backoffLocked g auth) then
          let g := signalLocked (setBackoffLocked g auth until) in
          match lease g with
          | None => (None, g, ended)
          | Some _ =>
              match persist with
              | None => (Some PersistBackoff, g, ended)
              | Some true => (None, g, ended)
              | Some false =>
                  (Some BackoffOwnershipLost,
                   loseLease g (Some (ErrLeaseLostWrapped
                     "persist secondary-limit backoff: ownership lost")), ended)
              end
          end
        else (None, g, ended)
    end.
End secondary.

(** ** Interleavings *)

(** Every way a goroutine can change the gate, one critical section at a time.
    The counter premise of [step_admit] says that no gate admits 2^64 requests. *)
Inductive gate_step (http_ParseTime : string → option time) (g : Gate) : Gate → Prop :=
  | step_admit now class res auth parent :
      nextAdmissionID g + 1 < 2 ^ 64 →
      gate_step _ g (snd (tryAdmit g now class res auth parent))
  | step_finish id : gate_step _ g (finishAdmission g id)
  | step_attach id : gate_step _ g (attachBody g id)
  | step_abort id : gate_step _ g (abort g id)
  | step_observe_rest auth h : gate_step _ g (snd (observeREST g auth h))
  | step_observe_graphql rate : gate_step _ g (observeGraphQL g rate)
  | step_secondary now auth status h body persist :
      gate_step _ g
        (observeSecondaryLimit http_ParseTime g now auth status h body persist).1.2
  | step_stop err : gate_step _ g (stopAdmission g err)
  | step_set_lease until : gate_step _ g (setLeaseUntil g until)
  | step_lose err : gate_step _ g (loseLease g err)
  | step_restore s : gate_step _ g (restore g s).

Definition gate_reachable (http_ParseTime : string → option time) (o : Options) : Gate → Prop :=
  rtc (gate_step http_ParseTime) (New o).

(** ** The accounting invariant *)

Definition slot_of (a : admission) : Z := if holdsSlot a then 1 else 0.

(** What an admission reserves from a pool. *)
Definition cost_in (p : pool) (a : admission) : Z :=
  if resource_valid (resource a) && bool_decide (pool_of (resource a) (authContext a) = p)
  then cost a else 0.

Record gate_inv (g : Gate) : Prop := {
  gi_slots : inFlight g = msum slot_of (admissions g);
  gi_max : inFlight g ≤ MaxConcurrent (options g);
  gi_width : 0 < MaxConcurrent (options g) < 2 ^ 63;
  gi_reserved : ∀ p, reserved g p = wrap64 (msum (cost_in p) (admissions g));
  gi_next : 0 ≤ nextAdmissionID g < 2 ^ 64;
  gi_fresh : ∀ id a, admissions g !! id = Some a → id ≤ nextAdmissionID g
}.

(** Operations outside admission and release keep the accounting fields. *)
Definition same_accounting (g g' : Gate) : Prop :=
  options g' = options g ∧ inFlight g' = inFlight g ∧
  (∀ p, reserved g' p = reserved g p) ∧
  nextAdmissionID g' = nextAdmissionID g ∧ admissions g' = admissions g.

#[export] Instance same_accounting_preorder : PreOrder same_accounting.
Proof.
  split; [done|]. intros g1 g2 g3 (?&?&Hr1&?&?) (?&?&Hr2&?&?).
  split_and!; congruence.
Qed.

Lemma gate_inv_frame g g' : same_accounting g g' → gate_inv g → gate_inv g'.
Proof.
  intros (Ho & Hi & Hr & Hn & Ha) [H1 H2 H3 H4 H5 H6].
  constructor; rewrite ?Ho, ?Hi, ?Hn, ?Ha; auto. intros p. by rewrite Hr.
Qed.

Lemma slot_of_nonneg a : 0 ≤ slot_of a.
Proof. unfold slot_of. case_if; lia. Qed.

#[export] Hint Resolve slot_of_nonneg : ghsync.

Section accounting_frames.
Context (g : Gate).

Lemma signal_same : same_accounting g (signalLocked g).
Proof. by split_and!. Qed.
Lemma set_budget_same p b : same_accounting g (set_budget g p b).
Proof. by split_and!. Qed.
Lemma setBackoff_same a t : same_accounting g (setBackoffLocked g a t).
Proof. by split_and!. Qed.
Lemma set_availability_same e t l : same_accounting g (set_availability g e t l).
Proof. by split_and!. Qed.
Lemma set_bodies_same ab at_ : same_accounting g (set_bodies g ab at_).
Proof. by split_and!. Qed.
End accounting_frames.

#[export] Hint Resolve signal_same set_budget_same setBackoff_same
  set_availability_same set_bodies_same : ghsync.

Ltac frame := repeat (etrans; [|solve [eauto with ghsync]]); solve [reflexivity | eauto with ghsync].

Lemma expireLease_same g now : same_accounting g (expireLease g now).
Proof. unfold expireLease. destruct (unavailable g); [done|]. case_if; [frame|done]. Qed.

Lemma stopAdmission_same g e : same_accounting g (stopAdmission g e).
Proof. unfold stopAdmission. destruct (unavailable g); [done|frame]. Qed.

Lemma setLeaseUntil_same g t : same_accounting g (setLeaseUntil g t).
Proof. unfold setLeaseUntil. destruct (unavailable g); [done|frame]. Qed.

Lemma observeBudget_same g p b : same_accounting g (observeBudget g p b).
Proof. unfold observeBudget. frame. Qed.

#[export] Hint Resolve expireLease_same stopAdmission_same setLeaseUntil_same
  observeBudget_same : ghsync.

Lemma observeREST_same g auth h : same_accounting g (snd (observeREST g auth h)).
Proof. unfold observeREST. repeat case_match; eauto with ghsync; done. Qed.

Lemma observeGraphQL_same g r : same_accounting g (observeGraphQL g r).
Proof. unfold observeGraphQL. case_if; eauto with ghsync; done. Qed.

Lemma attachBody_same g id : same_accounting g (attachBody g id).
Proof. unfold attachBody. case_match; eauto with ghsync; done. Qed.

Lemma restore_same g s : same_accounting g (restore g s).
Proof.
  unfold restore. repeat case_if; frame.
Qed.

Lemma reserved_set_admissions g n next m p :
  reserved (set_admissions g n next m) p = reserved g p.
Proof. by destruct p. Qed.

Lemma reserved_add g r a d p :
  reserved (addReservationLocked g r a d) p =
  if resource_valid r && bool_decide (pool_of r a = p)
  then wrap64 (reserved g p + d) else reserved g p.
Proof.
  unfold addReservationLocked. destruct (resource_valid r); [|done]. simpl.
  case_bool_decide as Hp; [subst|].
  - by destruct (pool_of r a).
  - by destruct p, (pool_of r a).
Qed.

Lemma add_reservation_fields g r a d :
  options (addReservationLocked g r a d) = options g ∧
  inFlight (addReservationLocked g r a d) = inFlight g ∧
  nextAdmissionID (addReservationLocked g r a d) = nextAdmissionID g ∧
  admissions (addReservationLocked g r a d) = admissions g.
Proof. unfold addReservationLocked. by case_if. Qed.

(** Reserving on admission and releasing on completion track the wrapped sum. *)
Lemma reserved_insert g r a c (m : gmap Z admission) id e p :
  e = Admission r a c (holdsSlot e) → m !! id = None →
  reserved g p = wrap64 (msum (cost_in p) m) →
  reserved (addReservationLocked g r a c) p = wrap64 (msum (cost_in p) (<[id:=e]> m)).
Proof.
  intros He Hm Hr. rewrite He, reserved_add, msum_insert, Hr by done.
  assert (cost_in p (Admission r a c (holdsSlot e)) =
    if resource_valid r && bool_decide (pool_of r a = p) then c else 0) as -> by done.
  case_if; [|done]. rewrite wrap64_add_l. f_equal. apply Z.add_comm.
Qed.

Lemma reserved_delete g (m : gmap Z admission) id e p :
  m !! id = Some e → reserved g p = wrap64 (msum (cost_in p) m) →
  reserved (addReservationLocked g (resource e) (authContext e) (- cost e)) p
  = wrap64 (msum (cost_in p) (delete id m)).
Proof.
  intros Hm Hr. rewrite reserved_add, (msum_delete _ _ _ _ Hm), Hr.
  assert (cost_in p e = if resource_valid (resource e)
    && bool_decide (pool_of (resource e) (authContext e) = p) then cost e else 0) as -> by done.
  case_if; [by rewrite wrap64_add_l|by rewrite Z.sub_0_r].
Qed.

(** [tryAdmit] either leaves the accounting alone or inserts one entry. *)
Lemma tryAdmit_cases g now class res auth parent d g' :
  tryAdmit g now class res auth parent = (d, g') →
  (same_accounting g g' ∧ (∀ id, d ≠ DecisionAdmit id)) ∨
  ∃ g1 id entry,
    same_accounting g g1 ∧ d = DecisionAdmit id ∧
    id = (nextAdmissionID g + 1) `mod` 2 ^ 64 ∧
    entry = Admission res auth (estimateLocked g res) (negb (reuseSlot g parent)) ∧
    (holdsSlot entry = true → inFlight g < MaxConcurrent (options g)) ∧
    options g' = options g ∧
    inFlight g' = (if holdsSlot entry then wrap64 (inFlight g + 1) else inFlight g) ∧
    (∀ p, reserved g' p = reserved (addReservationLocked g1 res auth (cost entry)) p) ∧
    nextAdmissionID g' = id ∧ admissions g' = <[id := entry]> (admissions g).
Proof.
  unfold tryAdmit. set (g1 := expireLease g now).
  assert (Hs : same_accounting g g1) by apply expireLease_same.
  destruct (Hs) as (Ho & Hi & Hr & Hn & Ha).
  destruct (unavailable g1); [intros [= <- <-]; by left|].
  case_if; [intros [= <- <-]; by left|].
  case_if; [intros [= <- <-]; by left|].
  case_if; [intros [= <- <-]; by left|].
  intros [= <- <-]. right.
  destruct (add_reservation_fields
    (set_admissions g1 (if reuseSlot g parent then inFlight g1 else wrap64 (inFlight g1 + 1))
       ((nextAdmissionID g1 + 1) `mod` 2 ^ 64) (admissions g1)) res auth (estimateLocked g1 res))
    as (Ho' & Hi' & Hn' & Ha').
  eexists g1, _, (Admission res auth (estimateLocked g res) (negb (reuseSlot g parent))).
  assert (estimateLocked g1 res = estimateLocked g res) as Hest
    by (unfold estimateLocked; by rewrite Ho).
  split_and!; try done; cbn -[addReservationLocked Z.modulo Z.pow wrap64].
  - by rewrite <- Hn.
  - intros Hh. rewrite Hh in *. simpl in *. to_props. rewrite <- Hi, <- Ho. lia.
  - by rewrite Ho'.
  - rewrite Hi'. cbn -[wrap64]. rewrite Hi. by destruct (reuseSlot g parent).
  - intros p. rewrite <- Hest. rewrite reserved_set_admissions, !reserved_add.
    by rewrite reserved_set_admissions.
  - rewrite Ha', Hest. cbn -[Z.modulo Z.pow]. by rewrite Ha.
Qed.

Lemma gate_inv_nonneg g : gate_inv g → 0 ≤ inFlight g.
Proof. intros H. rewrite gi_slots by done. apply msum_nonneg, slot_of_nonneg. Qed.

Lemma gate_inv_admit g now class res auth parent :
  nextAdmissionID g + 1 < 2 ^ 64 → gate_inv g →
  gate_inv (snd (tryAdmit g now class res auth parent)).
Proof.
  intros Hw Hg. destruct (tryAdmit _ _ _ _ _ _) as [d g'] eqn:E. simpl.
  apply tryAdmit_cases in E as [[Hs _]|E]; [by eapply gate_inv_frame|].
  destruct E as (g1 & id & e & Hs & _ & Hid & He & Hmax & Ho & Hi & Hr & Hn & Ha).
  pose proof (gi_next g Hg). pose proof (gi_width g Hg).
  pose proof (gate_inv_nonneg g Hg). pose proof (gi_max g Hg).
  assert (Hid' : id = nextAdmissionID g + 1) by (rewrite Hid; apply Z.mod_small; lia).
  assert (admissions g !! id = None) as Hfresh.
  { destruct (admissions g !! id) eqn:El; [|done]. apply (gi_fresh g Hg) in El. lia. }
  constructor.
  - rewrite Hi, Ha, msum_insert, (gi_slots g Hg) by done.
    assert (slot_of e = if holdsSlot e then 1 else 0) as -> by done.
    destruct (holdsSlot e) eqn:Eh; [|done]. rewrite wrap64_id; [apply Z.add_comm|].
    rewrite <- (gi_slots g Hg). unfold in_int64. pose proof (Hmax eq_refl). lia.
  - rewrite Hi, Ho. destruct (holdsSlot e) eqn:Eh; [|done]. pose proof (Hmax eq_refl).
    rewrite wrap64_id; unfold in_int64; lia.
  - by rewrite Ho.
  - intros p. rewrite Hr, Ha. apply reserved_insert; [by subst e|done|].
    destruct Hs as (_ & _ & Hsr & _ & _). rewrite Hsr. by apply gi_reserved.
  - rewrite Hn. lia.
  - intros i a. rewrite Hn, Ha, lookup_insert. case_decide; [lia|].
    intros Hl%(gi_fresh g Hg). lia.
Qed.

Lemma gate_inv_finish g id : gate_inv g → gate_inv (finishAdmission g id).
Proof.
  intros Hg. unfold finishAdmission. destruct (admissions g !! id) as [e|] eqn:El; [|done].
  eapply gate_inv_frame; [apply signal_same|].
  set (n := if holdsSlot e then _ else _). set (g1 := set_admissions _ _ _ _).
  destruct (add_reservation_fields g1 (resource e) (authContext e) (- cost e))
    as (Ho & Hi & Hn & Ha).
  assert (n = inFlight g - slot_of e) as Hslot.
  { pose proof (gi_max g Hg). pose proof (gi_width g Hg).
    pose proof (msum_lookup_le _ _ _ _ slot_of_nonneg El) as Hle.
    rewrite <- (gi_slots g Hg) in Hle. subst n. unfold slot_of in *.
    destruct (holdsSlot e); [apply wrap64_id; unfold in_int64|]; lia. }
  pose proof (slot_of_nonneg e). pose proof (gi_max g Hg).
  constructor; rewrite ?Ho, ?Hi, ?Hn, ?Ha; cbn -[wrap64 Z.pow]; rewrite ?Hslot.
  - by rewrite (msum_delete _ _ _ _ El), (gi_slots g Hg).
  - lia.
  - apply (gi_width g Hg).
  - intros p. eapply reserved_delete; [done|]. unfold g1.
    rewrite reserved_set_admissions. by apply gi_reserved.
  - apply (gi_next g Hg).
  - intros i a [_ Hl]%lookup_delete_Some. by eapply (gi_fresh g Hg).
Qed.

Lemma gate_inv_abort g id : gate_inv g → gate_inv (abort g id).
Proof. intros Hg. apply gate_inv_finish. by eapply gate_inv_frame; [apply set_bodies_same|]. Qed.

Lemma gate_inv_aborts l : ∀ g, gate_inv g → gate_inv (foldl abort g l).
Proof. induction l as [|id l IH]; intros g Hg; [done|]. by apply IH, gate_inv_abort. Qed.

Lemma gate_inv_lose g err : gate_inv g → gate_inv (loseLease g err).
Proof.
  intros Hg. apply gate_inv_aborts.
  eapply gate_inv_frame; [apply stopAdmission_same|].
  by eapply gate_inv_frame; [apply set_availability_same|].
Qed.

Lemma gate_inv_secondary pt g now auth status h body persist :
  gate_inv g →
  gate_inv (observeSecondaryLimit pt g now auth status h body persist).1.2.
Proof.
  intros Hg. unfold observeSecondaryLimit. case_if; [done|].
  destruct (if negb _ then _ else _) as [[[until|]|e] ended]; simpl; try done.
  case_if; [|done].
  assert (gate_inv (signalLocked (setBackoffLocked g auth until))) as Hg'.
  { eapply gate_inv_frame; [|done]. etrans; [apply setBackoff_same|apply signal_same]. }
  cbn [lease signalLocked setBackoffLocked].
  destruct (lease g); [|done]. destruct persist as [[]|]; try done. by apply gate_inv_lose.
Qed.

Lemma gate_inv_step pt g g' : gate_step pt g g' → gate_inv g → gate_inv g'.
Proof.
  intros Hs Hg. destruct Hs;
    eauto using gate_inv_admit, gate_inv_finish, gate_inv_abort, gate_inv_lose,
      gate_inv_secondary;
    (eapply gate_inv_frame; [|done]);
    eauto using attachBody_same, observeREST_same, observeGraphQL_same,
      stopAdmission_same, setLeaseUntil_same, restore_same.
Qed.

Lemma gate_inv_new o : MaxConcurrent o < 2 ^ 63 → gate_inv (New o).
Proof.
  intros Ho. constructor; simpl; unfold positive_or, defaultConcurrency;
    try (case_if; to_props; lia); try lia.
  - by rewrite msum_empty.
  - intros p. rewrite msum_empty. by destruct p.
  - intros id a. by rewrite lookup_empty.
Qed.

Lemma gate_inv_reachable pt o g :
  MaxConcurrent o < 2 ^ 63 → gate_reachable pt o g → gate_inv g.
Proof.
  intros Ho Hr. pose proof (gate_inv_new o Ho) as Hi. revert Hi.
  induction Hr; eauto using gate_inv_step.
Qed.

(** ** Merging rate observations *)

(** Decide the order tests the context settles. *)
Ltac settle_ltb :=
  repeat (match goal with
  | |- context [?x <? ?y] =>
      first [ replace (x <? y) with true by (symmetry; apply Z.ltb_lt; lia)
            | replace (x <? y) with false by (symmetry; apply Z.ltb_ge; lia) ]
  end; simpl).

Lemma if_ltb_min (x y : Z) : (if x <? y then x else y) = Z.min y x.
Proof. case_if; to_props; lia. Qed.

Lemma mergeObservation_right_comm c a b :
  mergeObservation (mergeObservation c a) b = mergeObservation (mergeObservation c b) a.
Proof.
  destruct c as [ck cl cr ct], a as [ak al ar at_], b as [bk bl br bt].
  unfold mergeObservation, After, Before; simpl. rewrite !if_ltb_min.
  destruct ak, bk, ck; simpl; try done;
    destruct (Ztrichotomy ct at_) as [|[|]], (Ztrichotomy ct bt) as [|[|]],
      (Ztrichotomy at_ bt) as [|[|]]; subst; try lia; settle_ltb; rewrite ?if_ltb_min;
    try done; f_equal; lia.
Qed.

Lemma foldl_right_comm {A B} (f : A → B → A) l1 l2 :
  (∀ c a b, f (f c a) b = f (f c b) a) → l1 ≡ₚ l2 → ∀ c, foldl f c l1 = foldl f c l2.
Proof.
  intros Hf. induction 1 as [|x l1 l2 _ IH|x y l|l1 l2 l3 _ IH1 _ IH2]; intros c; simpl.
  - done.
  - apply IH.
  - by rewrite Hf.
  - by rewrite IH1.
Qed.

(** Release and abort on other admissions. *)
Lemma finishAdmission_admissions g id :
  admissions (finishAdmission g id) = delete id (admissions g).
Proof.
  unfold finishAdmission. destruct (admissions g !! id) eqn:E.
  - cbn -[addReservationLocked]. destruct (add_reservation_fields
      (set_admissions g (if holdsSlot a then wrap64 (inFlight g - 1) else inFlight g)
         (nextAdmissionID g) (delete id (admissions g)))
      (resource a) (authContext a) (- cost a)) as (_ & _ & _ & ->). done.
  - by rewrite delete_id.
Qed.

Lemma aborts_admissions l : ∀ g id,
  admissions (foldl abort g l) !! id = if decide (id ∈ l) then None else admissions g !! id.
Proof.
  induction l as [|x l IH]; intros g id; cbn [foldl].
  { rewrite decide_False; [done|apply not_elem_of_nil]. }
  rewrite IH. unfold abort. rewrite finishAdmission_admissions. cbn [admissions set_bodies].
  destruct (decide (id ∈ l)) as [Hl|Hl], (decide (id ∈ x :: l)) as [Hx|Hx]; try done.
  - destruct Hx. by apply elem_of_cons; right.
  - apply elem_of_cons in Hx as [->|]; [apply lookup_delete_eq|done].
  - apply lookup_delete_ne. intros ->. destruct Hx. by apply elem_of_cons; left.
Qed.

(** Availability is untouched by everything but the four operations that set
    it, and those only set it when it is unset. *)
Lemma finishAdmission_unavailable g id : unavailable (finishAdmission g id) = unavailable g.
Proof.
  unfold finishAdmission. destruct (admissions g !! id); [|done].
  cbn -[addReservationLocked]. unfold addReservationLocked. by case_if.
Qed.

Lemma aborts_unavailable l : ∀ g, unavailable (foldl abort g l) = unavailable g.
Proof.
  induction l as [|x l IH]; intros g; [done|]. simpl. rewrite IH. unfold abort.
  by rewrite finishAdmission_unavailable.
Qed.

Lemma loseLease_unavailable g err e :
  unavailable g = Some e → unavailable (loseLease g err) = Some e.
Proof.
  intros He. unfold loseLease, cancelAdmissions. rewrite aborts_unavailable.
  unfold stopAdmission. cbn [unavailable set_availability]. by rewrite He.
Qed.

Lemma restore_unavailable g s : unavailable (restore g s) = unavailable g.
Proof. unfold restore. by repeat case_if. Qed.

Lemma tryAdmit_unavailable g now class res auth parent e :
  unavailable g = Some e →
  tryAdmit g now class res auth parent = (DecisionError e, g).
Proof. intros He. unfold tryAdmit, expireLease. by rewrite !He. Qed.

Lemma step_unavailable pt g g' e :
  gate_step pt g g' → unavailable g = Some e → unavailable g' = Some e.
Proof.
  intros Hs He. destruct Hs.
  - by rewrite (tryAdmit_unavailable _ _ _ _ _ _ _ He).
  - by rewrite finishAdmission_unavailable.
  - unfold attachBody. by case_match.
  - unfold abort. by rewrite finishAdmission_unavailable.
  - unfold observeREST. by repeat case_match.
  - unfold observeGraphQL. by case_if.
  - unfold observeSecondaryLimit. case_if; [done|].
    destruct (if negb _ then _ else _) as [[[until|]|e'] ended]; simpl; try done.
    case_if; [|done]. cbn [lease signalLocked setBackoffLocked].
    destruct (lease g); [|done]. destruct persist as [[]|]; try done.
    by apply loseLease_unavailable.
  - unfold stopAdmission. by rewrite He.
  - unfold setLeaseUntil. by rewrite He.
  - by apply loseLease_unavailable.
  - by rewrite restore_unavailable.
Qed.

(** ** Theorems *)

Section concrete.
(** The configuration of the examples below: one slot, default floors. *)
Definition demo_options : Options :=
  mkOptions 1 0 0 f64_zero f64_zero 0 0 0.

Definition demo_admitted : Gate :=
  snd (tryAdmit (New demo_options) 10 Event REST InstallationAuth None).

Definition demo_known : Gate :=
  set_budget (New demo_options) PoolREST (Budget true 5000 1002 (Unix 100)).

Definition no_dates (s : string) : option time := None.
End concrete.

(** C4. In every reachable state of the gate, whatever the interleaving of its
    operations, the number of requests in flight is the number of live
    admissions that hold a slot and never exceeds the configured ceiling, and
    the reservation of each pool is the sum of the costs of the live admissions
    accounted to it. *)
Theorem gate_accounting pt o g :
  MaxConcurrent o < 2 ^ 63 → gate_reachable pt o g →
  0 ≤ inFlight g ≤ MaxConcurrent (options g) ∧
  inFlight g = msum slot_of (admissions g) ∧
  ∀ p, reserved g p = wrap64 (msum (cost_in p) (admissions g)).
Proof.
  intros Ho Hg. pose proof (gate_inv_reachable pt o g Ho Hg) as Hi.
  split_and!; [by apply gate_inv_nonneg|by apply gi_max|by apply gi_slots|by apply gi_reserved].
Qed.

Lemma gate_accounting_witness :
  inFlight demo_admitted = 1 ∧ 0 ≤ inFlight demo_admitted ≤ 1 ∧
  reserved demo_admitted PoolREST = 1.
Proof.
  assert (H : gate_reachable no_dates demo_options demo_admitted).
  { apply rtc_once. apply step_admit. vm_compute. reflexivity. }
  pose proof (gate_accounting no_dates demo_options demo_admitted
    ltac:(vm_compute; reflexivity) H) as (H1 & H2 & H3).
  split; [vm_compute; reflexivity|]. split; [exact H1|vm_compute; reflexivity].
Defined.

(** A request is admitted against a known, unexpired budget only when what
    remains after every live reservation, its own included, is non-negative and,
    for a class with a reserved floor, at least [ceil(limit * floor)]. *)
Theorem admit_respects_floor g now class res auth parent id g' :
  let b := resourceLocked g res auth in
  resource_valid res = true →
  tryAdmit g now class res auth parent = (DecisionAdmit id, g') →
  Known b = true → now < ResetAt b →
  0 ≤ Remaining b < 2 ^ 62 → 0 ≤ reservedLocked g res auth < 2 ^ 61 →
  0 ≤ estimateLocked g res < 2 ^ 61 →
  let after := Remaining b - reservedLocked g' res auth in
  0 ≤ after ∧
  (f64_ltb f64_zero (floorFor g class) = true → floorRemaining g class (Limit b) ≤ after).
Proof.
  intros b Hv H Hk Hnow Hrem Hres Hcost.
  pose proof (expireLease_same g now) as (Ho & _ & Hr & _ & _).
  pose proof (tryAdmit_cases _ _ _ _ _ _ _ _ H) as [[_ Hna]|Hc]; [by destruct (Hna id)|].
  destruct Hc as (g1 & id' & e & (_ & _ & Hr1 & _ & _) & _ & _ & He & _ & _ & _ & Hr' & _).
  assert (reservedLocked g' res auth = reservedLocked g res auth + estimateLocked g res) as Hg'.
  { unfold reservedLocked in *. rewrite Hr', reserved_add, Hv, bool_decide_true, Hr1 by done.
    subst e. apply wrap64_id. unfold in_int64. simpl. lia. }
  unfold tryAdmit in H. destruct (unavailable _); [discriminate H|].
  do 2 (case_if_in H; [discriminate H|]).
  assert (resourceLocked (expireLease g now) res auth = b) as Hb.
  { unfold expireLease. destruct (unavailable g); [done|]. case_if; [|done].
    unfold b, resourceLocked. by destruct (pool_of res auth). }
  assert (estimateLocked (expireLease g now) res = estimateLocked g res) as Hest
    by (unfold estimateLocked; by rewrite Ho).
  assert (floorFor (expireLease g now) class = floorFor g class) as Hf
    by (unfold floorFor; by rewrite Ho).
  assert (reservedLocked (expireLease g now) res auth = reservedLocked g res auth) as Hrl
    by apply Hr.
  case_if_in H; [discriminate H|]. rename E1 into Hno.
  unfold floorRemaining, Before in *. rewrite Hb, Hest, Hf, Hrl, Hk in Hno.
  rewrite (proj2 (Z.ltb_lt now (ResetAt b)) Hnow) in Hno. cbn [andb] in Hno.
  rewrite (wrap64_id (Remaining b - _)), wrap64_id in Hno by (unfold in_int64; lia).
  apply orb_false_iff in Hno as [Hn1 Hn2]. to_props. rewrite Hg'. split; [lia|].
  intros Hpos. rewrite Hpos in Hn2. simpl in Hn2. to_props. lia.
Qed.

Lemma admit_respects_floor_witness :
  floorRemaining demo_known Sweep 5000 = 1000 ∧
  ∃ g', tryAdmit demo_known 5 Sweep REST InstallationAuth None = (DecisionAdmit 1, g') ∧
    1000 ≤ 1002 - reservedLocked g' REST InstallationAuth.
Proof.
  split; [vm_compute; reflexivity|]. eexists. split; [vm_compute; reflexivity|].
  refine (proj2 (admit_respects_floor demo_known 5 Sweep REST InstallationAuth None 1 _
    _ _ _ _ _ _ _) _);
    vm_compute; intuition (reflexivity || discriminate).
Defined.

(** While a credential context is backing off, no request of that context is
    admitted, not even one running in its parent's slot: an open gate asks the
    caller to wait exactly until the recorded deadline. *)
Theorem backoff_blocks_admission g now class res auth parent :
  unavailable (expireLease g now) = None → now < backoffLocked g auth →
  tryAdmit g now class res auth parent =
  (DecisionWait (backoffLocked g auth) (changed g) None, g).
Proof.
  intros Hu Hn. unfold tryAdmit.
  assert (expireLease g now = g) as ->.
  { unfold expireLease in *. destruct (unavailable g) eqn:E; [done|]. by case_if. }
  assert (unavailable g = None) as ->.
  { unfold expireLease in Hu. destruct (unavailable g) eqn:E; [congruence|done]. }
  unfold Before. by rewrite (proj2 (Z.ltb_lt now (backoffLocked g auth)) Hn).
Qed.

Lemma backoff_blocks_admission_witness :
  let g := setBackoffLocked (New demo_options) AppJWTAuth 50 in
  fst (tryAdmit g 49 Interactive REST AppJWTAuth None) = DecisionWait 50 0 None ∧
  fst (tryAdmit g 49 Interactive REST InstallationAuth None) = DecisionAdmit 1.
Proof.
  split; [|vm_compute; reflexivity].
  erewrite backoff_blocks_admission; vm_compute; reflexivity.
Defined.

(** A 403 or 429 response with [Retry-After: s] closes the gate for its own
    credential context for exactly [s] seconds (or for longer, if it already was
    closed for longer) and leaves the other context alone. The bound on [s] is
    the greatest number of seconds a [time.Duration] can hold. *)
Theorem retry_after_closes_context pt g now auth status h body s :
  status = 403 ∨ status = 429 → auth_valid auth = true →
  TrimSpace (header_get h "Retry-After") = FormatInt s →
  0 ≤ s ≤ 9223372036 → lease g = None →
  let '(err, g', _) := observeSecondaryLimit pt g now auth status h body None in
  err = None ∧
  backoffLocked g' auth = Z.max (backoffLocked g auth) (now + s * Second) ∧
  ∀ other, auth_valid other = true → other ≠ auth →
    backoffLocked g' other = backoffLocked g other.
Proof.
  intros Hst Ha Hraw Hs Hl. unfold observeSecondaryLimit.
  replace (negb (status =? 403) && negb (status =? 429)) with false
    by (destruct Hst as [-> | ->]; reflexivity).
  rewrite Hraw, bool_decide_false by apply FormatInt_nonempty. cbn [negb].
  unfold retryAfterDeadline. rewrite ParseInt_FormatInt by (unfold in_int64; lia).
  replace (s <? 0) with false by lia. rewrite wrap64_id by (unfold in_int64, Second; lia).
  unfold After. case_if; to_props; cbn [lease signalLocked setBackoffLocked]; rewrite ?Hl.
  - split; [done|]. unfold backoffLocked in *; simpl. unfold auth_valid in *.
    repeat case_bool_decide; simplify_eq; (split; [lia|]);
      intros other Hv Hne; repeat case_bool_decide; simplify_eq; done.
  - split_and!; [done|lia|done].
Qed.

Definition demo_header : http_header := {[ "Retry-After" := ["30"] ]}.

Lemma retry_after_closes_context_witness :
  let g := New demo_options in
  let '(err, g', _) :=
    observeSecondaryLimit no_dates g 1000 AppJWTAuth 429 demo_header None None in
  backoffLocked g' AppJWTAuth = 1000 + 30 * Second.
Proof.
  pose proof (retry_after_closes_context no_dates (New demo_options) 1000 AppJWTAuth 429
    demo_header None 30 ltac:(by right) ltac:(vm_compute; reflexivity)
    ltac:(vm_compute; reflexivity) ltac:(lia) ltac:(reflexivity)) as H.
  cbv zeta. destruct (observeSecondaryLimit _ _ _ _ _ _ _ _) as [[err g'] e].
  destruct H as (_ & -> & _). vm_compute. reflexivity.
Defined.

(** The duration of a [Retry-After] wraps around at 64 bits: one second past
    the greatest representable duration yields a deadline in the past, so such a
    header does not close the gate at all. *)
Theorem retry_after_overflow pt now :
  retryAfterDeadline pt now "9223372037" = Ok (now - 9223372036709551616).
Proof. reflexivity. Qed.

(** Rate observations of concurrent responses may arrive in any order: the
    budget recorded after a set of responses does not depend on the order in
    which they were observed. *)
Theorem mergeObservation_order_independent observed observed' current :
  observed ≡ₚ observed' →
  foldl mergeObservation current observed = foldl mergeObservation current observed'.
Proof. intros H. by apply foldl_right_comm; [apply mergeObservation_right_comm|]. Qed.

Lemma mergeObservation_order_independent_witness :
  let a := Budget true 5000 400 7 in
  let b := Budget true 5100 380 7 in
  let c := Budget true 5000 4999 3 in
  foldl mergeObservation (Budget false 5000 0 0) [a; b; c] = Budget true 5100 380 7 ∧
  foldl mergeObservation (Budget false 5000 0 0) [a; b; c]
  = foldl mergeObservation (Budget false 5000 0 0) [c; b; a].
Proof.
  split; [vm_compute; reflexivity|].
  apply mergeObservation_order_independent. symmetry. apply (reverse_Permutation [_; _; _]).
Defined.

(** Server observations only tighten an open window: after observing a
    response, the recorded remaining budget of a window is at most what that
    response reported, and never rises within one window. *)
Theorem mergeObservation_conservative current observed :
  Known current = true → Known observed = true →
  let merged := mergeObservation current observed in
  ResetAt current ≤ ResetAt merged ∧
  (ResetAt observed = ResetAt merged → Remaining merged ≤ Remaining observed) ∧
  (ResetAt current = ResetAt merged → Remaining merged ≤ Remaining current) ∧
  (ResetAt observed < ResetAt current → merged = current).
Proof.
  intros Hc Ho. unfold mergeObservation, After, Before. rewrite Hc, Ho. simpl.
  repeat case_if; to_props; simpl; split_and!; intros; try done; try lia.
Qed.

Lemma mergeObservation_conservative_witness :
  Remaining (mergeObservation (Budget true 5000 10 7) (Budget true 5000 4000 7)) ≤ 10.
Proof.
  apply (mergeObservation_conservative (Budget true 5000 10 7) (Budget true 5000 4000 7));
    reflexivity.
Defined.

(** A gate that became unavailable stays so: no later operation reopens it
    or changes the reported cause, and every admission attempt fails with that
    cause without changing the gate. *)
Theorem unavailable_is_final pt g g' e :
  unavailable g = Some e → rtc (gate_step pt) g g' →
  unavailable g' = Some e ∧
  ∀ now class res auth parent,
    tryAdmit g' now class res auth parent = (DecisionError e, g').
Proof.
  intros He Hr. assert (unavailable g' = Some e) as He'.
  { revert He. induction Hr; eauto using step_unavailable. }
  split; [done|]. intros. by apply tryAdmit_unavailable.
Qed.

Lemma unavailable_is_final_witness :
  let g := stopAdmission (New demo_options) None in
  fst (tryAdmit (setLeaseUntil g 99) 1 Interactive REST InstallationAuth None)
  = DecisionError ErrClosed.
Proof.
  intros g. pose proof (unavailable_is_final no_dates g (setLeaseUntil g 99) ErrClosed
    ltac:(reflexivity) ltac:(apply rtc_once, step_set_lease)) as [_ H].
  by rewrite H.
Defined.

(** Losing the lease closes the gate, cancels the lease runtime and releases
    every live admission: no slot and no reservation survives. *)
Theorem loseLease_releases_everything g err :
  gate_inv g →
  let g' := loseLease g err in
  admissions g' = ∅ ∧ inFlight g' = 0 ∧ (∀ p, reserved g' p = 0) ∧
  unavailable g' ≠ None.
Proof.
  intros Hg g'. assert (admissions g' = ∅) as Ha.
  { apply map_eq. intros id. rewrite lookup_empty. unfold g', loseLease, cancelAdmissions.
    rewrite aborts_admissions. case_decide as Hd; [done|].
    destruct (admissions _ !! id) as [a|] eqn:El; [|done]. destruct Hd.
    apply list_elem_of_fmap. exists (id, a). split; [done|]. by apply elem_of_map_to_list. }
  pose proof (gate_inv_lose g err Hg) as Hg'. fold g' in Hg'.
  split; [done|]. split; [|split].
  - by rewrite (gi_slots g' Hg'), Ha, msum_empty.
  - intros p. by rewrite (gi_reserved g' Hg'), Ha, msum_empty.
  - unfold g', loseLease, cancelAdmissions. rewrite aborts_unavailable.
    unfold stopAdmission. cbn [unavailable set_availability].
    by destruct (unavailable g) eqn:E; simpl; rewrite ?E.
Qed.

Lemma loseLease_releases_everything_witness :
  inFlight demo_admitted = 1 ∧ inFlight (loseLease demo_admitted None) = 0.
Proof.
  split; [vm_compute; reflexivity|].
  assert (gate_inv demo_admitted) as Hi.
  { apply gate_inv_admit; [vm_compute; reflexivity|]. apply gate_inv_new. vm_compute. reflexivity. }
  apply (loseLease_releases_everything demo_admitted None Hi).
Defined.

(** A token exchange issued from inside an admitted request never waits for
    a concurrency slot: it runs in its parent's slot, so renewal cannot deadlock
    even with a ceiling of one, and it leaves the in-flight count unchanged. *)
Theorem nested_mint_needs_no_slot g now class res auth p a :
  admissions g !! p = Some a → holdsSlot a = true →
  let '(d, g') := tryAdmit g now class res auth (Some p) in
  inFlight g' = inFlight g ∧
  match d with
  | DecisionWait until _ st =>
      (until = backoffLocked g auth ∧ now < until) ∨ st ≠ None
  | DecisionError e => unavailable g' = Some e
  | DecisionAdmit id => holdsSlot <$> admissions g' !! id = Some false
  end.
Proof.
  intros Hp Hh. destruct (tryAdmit _ _ _ _ _ _) as [d g'] eqn:H.
  assert (Hreuse : reuseSlot g (Some p) = true) by (unfold reuseSlot; by rewrite Hp).
  split.
  - apply tryAdmit_cases in H as [[(_ & Hi & _) _]|H]; [done|].
    destruct H as (_ & _ & e & _ & _ & _ & He & _ & _ & Hi & _).
    rewrite Hi, He, Hreuse. done.
  - pose proof (tryAdmit_cases _ _ _ _ _ _ _ _ H) as Hc.
    unfold tryAdmit in H. destruct (unavailable (expireLease g now)) eqn:Eu; [by simplify_eq|].
    rewrite Hreuse in H. cbn [negb andb] in H.
    assert (backoffLocked (expireLease g now) auth = backoffLocked g auth) as Hb.
    { unfold expireLease. destruct (unavailable g); [done|]. by case_if. }
    case_if_in H; [simplify_eq; left; unfold Before in *; to_props; by rewrite Hb in *|].
    case_if_in H; [simplify_eq; by right|]. simplify_eq.
    destruct Hc as [[_ Hna]|Hc]; [by edestruct Hna|].
    destruct Hc as (_ & id & e & _ & Hid & _ & He & _ & _ & _ & _ & _ & ->).
    injection Hid as <-. rewrite lookup_insert_eq. simpl. by rewrite He, Hreuse.
Qed.

Lemma nested_mint_needs_no_slot_witness :
  fst (tryAdmit demo_admitted 10 Interactive REST AppJWTAuth None)
    = DecisionWait zero_time 0 None ∧
  fst (tryAdmit demo_admitted 10 Interactive REST AppJWTAuth (Some 1)) = DecisionAdmit 2 ∧
  inFlight (snd (tryAdmit demo_admitted 10 Interactive REST AppJWTAuth (Some 1))) = 1.
Proof.
  split; [vm_compute; reflexivity|]. split; [vm_compute; reflexivity|].
  pose proof (nested_mint_needs_no_slot demo_admitted 10 Interactive REST AppJWTAuth 1
    (Admission REST InstallationAuth 1 true) ltac:(vm_compute; reflexivity)
    ltac:(reflexivity)) as H.
  destruct (tryAdmit _ _ _ _ _ _) as [d g']. apply H.
Defined.
