(* ===== verification/Attribution.v ===== *)
(** * Request attribution

    [internal/budget/attribution.go]: the reduction of a request to
    cardinality-bounded labels before observers see it. *)

From Stdlib Require Import ZArith Lia Bool Ascii String.
From stdpp Require Import base list strings numbers sets.
From S2P Require Import Prelude GoStrings Gate.

(** The endpoint families. *)
Definition endpointOther : string := "other".
Definition endpointGraphQL : string := "graphql".
Definition endpointInstallationRepositories : string := "installation_repositories".
Definition endpointRepositoryMetadata : string := "repository_metadata".
Definition endpointRepositoryRules : string := "repository_rules".
Definition endpointStacks : string := "stacks".
Definition endpointPullRequestList : string := "pull_request_list".
Definition endpointPullRequestMetadata : string := "pull_request_metadata".
Definition endpointPullRequestFiles : string := "pull_request_files".
Definition endpointRepositoryContents : string := "repository_contents".
Definition endpointCheckRuns : string := "check_runs".
Definition endpointAppHookDeliveries : string := "app_hook_deliveries".
Definition endpointInstallationTokens : string := "installation_tokens".

Definition endpointFamilies : list string :=
  [endpointOther; endpointGraphQL; endpointInstallationRepositories;
   endpointRepositoryMetadata; endpointRepositoryRules; endpointStacks;
   endpointPullRequestList; endpointPullRequestMetadata; endpointPullRequestFiles;
   endpointRepositoryContents; endpointCheckRuns; endpointAppHookDeliveries;
   endpointInstallationTokens].

(** [strings.FieldsFunc(path, func(r) r == '/')]: the non-empty segments. *)
Definition path_segments (path : string) : list string :=
  filter (λ s, s ≠ "") (Split path "/").

Fixpoint hasSegmentPrefix (segments want : list string) : bool :=
  match want, segments with
  | [], _ => true
  | w :: want, s :: segments => bool_decide (s = w) && hasSegmentPrefix segments want
  | _ :: _, [] => false
  end.

(** Drop everything up to the first [api/v3] that precedes a known root. *)
Fixpoint githubAPISegments_go (segments : list string) : option (list string) :=
  match segments with
  | a :: ((b :: ((c :: _) as tail)) as rest) =>
      if bool_decide (a = "api") && bool_decide (b = "v3")
         && bool_decide (c = "repos" ∨ c = "app" ∨ c = "installation")
      then Some tail else githubAPISegments_go rest
  | _ => None
  end.

Definition githubAPISegments (segments : list string) : list string :=
  default segments (githubAPISegments_go segments).

(** The endpoint family of a REST path below [/repos/{owner}/{name}]. *)
Definition repositoryEndpoint (tail : list string) : string :=
  match tail with
  | [] => endpointRepositoryMetadata
  | t0 :: more =>
      if bool_decide (t0 = "rulesets") then endpointRepositoryRules
      else if bool_decide (t0 = "stacks") then endpointStacks
      else if bool_decide (t0 = "pulls") then
        match more with
        | [] => endpointPullRequestList
        | _ :: t2 :: _ =>
            if bool_decide (t2 = "files") then endpointPullRequestFiles
            else endpointPullRequestMetadata
        | _ => endpointPullRequestMetadata
        end
      else if bool_decide (t0 = "contents") then endpointRepositoryContents
      else if bool_decide (t0 = "commits") then
        match more with
        | _ :: t2 :: _ =>
            if bool_decide (t2 = "check-runs") then endpointCheckRuns else endpointOther
        | _ => endpointOther
        end
      else endpointOther
  end.

Definition requestAttribution (res : Resource) (auth : AuthContext) (path : string)
    : AuthContext * string :=
  let segments := path_segments path in
  if bool_decide (res = GraphQL) then (auth, endpointGraphQL)
  else
    let segments := githubAPISegments segments in
    if hasSegmentPrefix segments ["app"; "hook"; "deliveries"]
    then (auth, endpointAppHookDeliveries)
    else if hasSegmentPrefix segments ["app"; "installations"]
            && bool_decide (segments !! 3%nat = Some "access_tokens")
    then (auth, endpointInstallationTokens)
    else if hasSegmentPrefix segments ["installation"; "repositories"]
    then (auth, endpointInstallationRepositories)
    else match segments with
    | s0 :: _ :: _ :: tail =>
        if bool_decide (s0 = "repos") then (auth, repositoryEndpoint tail)
        else (auth, endpointOther)
    | _ => (auth, endpointOther)
    end.

(** ** Theorems *)

Lemma repositoryEndpoint_family tail : repositoryEndpoint tail ∈ endpointFamilies.
Proof. unfold repositoryEndpoint. repeat case_match; set_solver. Qed.

(** Attribution is cardinality-bounded: whatever the path, the label is one
    of the thirteen constant families, and the credential context is passed
    through unchanged, so no repository name or identifier reaches an observer. *)
Theorem requestAttribution_bounded res auth path :
  (requestAttribution res auth path).1 = auth ∧
  (requestAttribution res auth path).2 ∈ endpointFamilies ∧
  length endpointFamilies = 13%nat.
Proof.
  unfold requestAttribution.
  repeat case_match; simpl; split_and!; try done; try apply repositoryEndpoint_family;
    set_solver.
Qed.

(** The families of the requests the program makes. *)
Example attribution_examples :
  (requestAttribution REST AppJWTAuth "/app/hook/deliveries/12/attempts").2 = endpointAppHookDeliveries ∧
  (requestAttribution REST AppJWTAuth "/app/installations/7/access_tokens").2 = endpointInstallationTokens ∧
  (requestAttribution REST InstallationAuth "/api/v3/repos/o/r/pulls/3/files").2 = endpointPullRequestFiles ∧
  (requestAttribution REST InstallationAuth "/repos/o/r/commits/abc/check-runs").2 = endpointCheckRuns.
Proof. split_and!; vm_compute; reflexivity. Qed.
