(* ===== verification/GateDo.v ===== *)
(** * Performing a request through the gate

    [Gate.Do] and [doAdmitted] of [internal/budget/gate.go]: validation, the
    admission loop, and the one network call with the observations that follow
    it. What other goroutines, the before-send hook and the transport do in
    between are arguments: transformations of the gate and their results. *)

From Stdlib Require Import ZArith Lia Bool Ascii String.
From stdpp Require Import base list strings gmap numbers.
From S2P Require Import Prelude GoStrings GoFloat Gate Attribution.

Local Open Scope Z_scope.

(** ** Requests *)

(** A response body: absent (nil or [http.NoBody]), not yet tied to the
    admission, or an [admittedBody] that releases the admission at its end. *)
Inductive response_body : Type :=
  | BodyAbsent
  | BodyPlain
  | BodyAdmitted (id : Z).

Record http_response : Type := mkResponse {
  StatusCode : Z;
  Header : http_header;
  (** What the network delivers; [None] is an unusable body. *)
  Network : option reader
}.

(** What the GraphQL observer reports: the rate block when present, whether it
    failed, and whether it consumed the network body. *)
Record rate_observation : Type := mkRateObservation {
  ro_rate : option GraphQLRate;
  ro_failed : bool;
  ro_consumed : bool
}.

Record Request : Type := mkRequest {
  path : string;
  conditional : bool;
  req_resource : Resource;
  req_authContext : AuthContext;
  observeRate : option (http_response → rate_observation);
  (** The hook may itself use the gate (a token exchange); [false] is an error. *)
  beforeSend : option (Gate → Gate * bool);
  tokenMint : bool
}.

(** [NewInstallationRESTRequest], [NewAppRESTRequest], [NewGraphQLRequest] and
    [NewAuthRequest]. *)
Definition NewInstallationRESTRequest (p : string) (c : bool) : Request :=
  mkRequest p c REST InstallationAuth None None false.
Definition NewAppRESTRequest (p : string) (c : bool) : Request :=
  mkRequest p c REST AppJWTAuth None None false.
Definition NewGraphQLRequest (p : string) (c : bool)
    (observer : http_response → rate_observation) : Request :=
  mkRequest p c GraphQL InstallationAuth (Some observer) None false.
Definition NewAuthRequest (p : string) (c : bool) : Request :=
  mkRequest p c REST AppJWTAuth None None true.

(** [BeforeSend]. *)
Definition BeforeSend (r : Request) (hook : Gate → Gate * bool) : Request :=
  mkRequest (path r) (conditional r) (req_resource r) (req_authContext r)
    (observeRate r) (Some hook) (tokenMint r).

Inductive do_error : Type :=
  | InvalidClass
  | InvalidResource
  | InvalidAuthContext
  | GraphQLNeedsInstallation
  | TokenExchangeNeedsAppJWT
  | NoRateObserver
  | GateUnavailable (e : gate_error)
  | ContextDone
  | BeforeSendFailed
  | TransportFailed
  | ObserveFailed (secondary : option observe_error) (rate : option observe_error) (graphql : bool).

Definition validateDo (class : Class) (req : Request) : result do_error unit :=
  if negb (class_valid class) then Err InvalidClass
  else if negb (resource_valid (req_resource req)) then Err InvalidResource
  else if negb (auth_valid (req_authContext req)) then Err InvalidAuthContext
  else if bool_decide (req_resource req = GraphQL)
          && negb (bool_decide (req_authContext req = InstallationAuth))
  then Err GraphQLNeedsInstallation
  else if tokenMint req
          && (negb (bool_decide (req_resource req = REST))
              || negb (bool_decide (req_authContext req = AppJWTAuth)))
  then Err TokenExchangeNeedsAppJWT
  else if bool_decide (req_resource req = GraphQL) && negb (bool_decide (is_Some (observeRate req)))
  then Err NoRateObserver
  else Ok tt.

(** ** The admission loop *)

(** Why [waitForChange] returned: the context ended, or a signal or timer fired
    after the other goroutines had changed the gate. *)
Inductive wakeup : Type :=
  | CtxDone
  | Woken (others : Gate → Gate) (now : time).

(** The loop of [Do] against a finite schedule of wake-ups: the admission or
    error that ended it, [None] when the schedule ends with the request still
    waiting, with the starvation reports emitted meanwhile. *)
Fixpoint admit_loop (g : Gate) (now : time) (class : Class) (req : Request)
    (parent : option Z) (reported : bool) (schedule : list wakeup)
    : option (result do_error Z) * Gate * list Starvation :=
  let '(decision, g') := tryAdmit g now class (req_resource req) (req_authContext req) parent in
  match decision with
  | DecisionError e => (Some (Err (GateUnavailable e)), g', [])
  | DecisionAdmit id => (Some (Ok id), g', [])
  | DecisionWait _ _ starvation =>
      let emitted :=
        match starvation with Some s => if reported then [] else [s] | None => [] end in
      let reported := reported || bool_decide (is_Some starvation) in
      match schedule with
      | [] => (None, g', emitted)
      | CtxDone :: _ => (Some (Err ContextDone), g', emitted)
      | Woken others now' :: schedule =>
          let '(r, g'', more) :=
            admit_loop (others g') now' class req parent reported schedule in
          (r, g'', emitted ++ more)
      end
  end.

(** [parent] is the admission whose before-send hook issued the call; it is used
    only for a token exchange. *)
Definition acquireAdmission (g : Gate) (now : time) (class : Class) (req : Request)
    (parent : option Z) (schedule : list wakeup)
    : option (result do_error Z) * Gate * list Starvation :=
  match validateDo class req with
  | Err e => (Some (Err e), g, [])
  | Ok _ => admit_loop g now class req (if tokenMint req then parent else None) false schedule
  end.

(** ** The admitted call *)

Record RequestObservation : Type := mkRequestObservation {
  ob_Class : Class;
  ob_Resource : Resource;
  ob_AuthContext : AuthContext;
  ob_EndpointFamily : string;
  ob_StatusCode : Z;
  ob_Conditional : bool;
  ob_NotModified : bool;
  ob_Failed : bool
}.

(** The result of [doAdmitted]: the error if any, the body the caller received
    when there is a response, and the observation passed to the hook. *)
Record do_result : Type := mkDoResult {
  dr_error : option do_error;
  dr_body : option response_body;
  dr_rate : option GraphQLRate;
  dr_observation : option RequestObservation
}.

Section do_admitted.
Variable http_ParseTime : string → option time.

(** The accounting part of [doAdmitted]: what the response teaches the gate,
    the errors, the GraphQL rate, and whether the network body was read out. *)
Definition observeResponse (g : Gate) (now : time) (req : Request)
    (resp : http_response) (persist : persist_outcome)
    : Gate * option observe_error * option observe_error * bool * option GraphQLRate * bool :=
  let '(secondaryErr, g, ended) :=
    observeSecondaryLimit http_ParseTime g now (req_authContext req)
      (StatusCode resp) (Header resp) (Network resp) persist in
  if bool_decide (req_resource req = REST) then
    let '(r, g) := observeREST g (req_authContext req) (Header resp) in
    (g, secondaryErr, match r with Ok _ => None | Err e => Some e end, false, None, ended)
  else match observeRate req with
  | Some observer =>
      let ro := observer resp in
      let g := match ro_rate ro with Some rate => observeGraphQL g rate | None => g end in
      (g, secondaryErr, None, ro_failed ro, ro_rate ro, ended || ro_consumed ro)
  | None => (g, secondaryErr, None, false, None, ended)
  end.

Definition doAdmitted (g : Gate) (now : time) (class : Class) (req : Request) (id : Z)
    (transport : Gate → Gate * option http_response * bool) (persist : persist_outcome)
    : do_result * Gate :=
  let '(g, sent) := match beforeSend req with Some hook => hook g | None => (g, true) end in
  if negb sent then
    (mkDoResult (Some BeforeSendFailed) None None None, finishAdmission g id)
  else
    let '(g, resp, failed) := transport g in
    let '(auth, endpoint) := requestAttribution (req_resource req) (req_authContext req) (path req) in
    match resp with
    | None =>
        let g := finishAdmission g id in
        (mkDoResult (if failed then Some TransportFailed else None) None None
           (Some (mkRequestObservation class (req_resource req) auth endpoint 0
              (conditional req) false failed)), g)
    | Some resp =>
        let usable := bool_decide (is_Some (Network resp)) in
        let g := if usable then attachBody g id else g in
        let '(g, secErr, restErr, gqlErr, rate, ended) :=
          observeResponse g now req resp persist in
        let observeErr :=
          if bool_decide (is_Some secErr) || bool_decide (is_Some restErr) || gqlErr
          then Some (ObserveFailed secErr restErr gqlErr) else None in
        let '(body, g) :=
          if negb usable then (BodyAbsent, finishAdmission g id)
          else if ended then (BodyPlain, finishAdmission g id)
          else (BodyAdmitted id, attachBody g id) in
        (mkDoResult (if failed then Some TransportFailed else observeErr)
           (Some body) rate
           (Some (mkRequestObservation class (req_resource req) auth endpoint
              (StatusCode resp) (conditional req) (StatusCode resp =? 304)
              (failed || bool_decide (is_Some observeErr)))), g)
    end.
End do_admitted.

(** Reading to the end or closing the returned body ([admittedBody.Read],
    [admittedBody.Close]). *)
Definition closeBody (g : Gate) (body : response_body) : Gate :=
  match body with
  | BodyAdmitted id => finishAdmission g id
  | _ => g
  end.

(** ** Theorems *)

(** No path through an admitted call leaks its concurrency slot: when
    [doAdmitted] returns, the admission has been released or the returned body
    owns it, and closing that body releases it; in particular every error
    without a response has already released it. *)
Theorem doAdmitted_no_leak pt g now class req id transport persist :
  let '(r, g') := doAdmitted pt g now class req id transport persist in
  (admissions g' !! id = None ∨ dr_body r = Some (BodyAdmitted id)) ∧
  (dr_body r = None → admissions g' !! id = None) ∧
  ∀ body, dr_body r = Some body → admissions (closeBody g' body) !! id = None.
Proof.
  assert (Hfin : ∀ h, admissions (finishAdmission h id) !! id = None).
  { intros h. rewrite finishAdmission_admissions. apply lookup_delete_eq. }
  unfold doAdmitted.
  destruct (match beforeSend req with Some hook => hook g | None => (g, true) end) as [g1 sent].
  destruct (negb sent); [by split_and!; eauto|].
  destruct (transport g1) as [[g2 resp] failed].
  destruct (requestAttribution _ _ _) as [auth endpoint].
  destruct resp as [resp|]; [|by split_and!; eauto].
  destruct (observeResponse _ _ _ _ _ _) as [[[[[g3 se] re] ge] rate] ended].
  destruct (negb _); [|destruct ended]; simpl; split_and!; eauto; try done;
    intros body [= <-]; simpl; apply Hfin.
Qed.

(** A caller of [Do] reports starvation at most once, however often it is
    woken without being admitted, and only while it has not been admitted for
    a reserved floor. *)
Theorem starvation_reported_once g now class req parent schedule :
  (length (acquireAdmission g now class req parent schedule).2 ≤ 1)%nat.
Proof.
  unfold acquireAdmission. destruct (validateDo class req); [|simpl; lia].
  set (p := if tokenMint req then parent else None).
  enough (∀ reported, (length (admit_loop g now class req p reported schedule).2
    ≤ if reported then 0 else 1)%nat) as H by apply (H false).
  revert g now. induction schedule as [|w schedule IH]; intros g now reported; simpl;
    destruct (tryAdmit _ _ _ _ _ _) as [[e|u c st|id] g']; simpl; try (destruct reported; lia).
  - destruct st, reported; simpl; lia.
  - destruct w as [|others now']; [destruct st, reported; simpl; lia|].
    specialize (IH (others g') now' (reported || bool_decide (is_Some st))).
    destruct (admit_loop _ _ _ _ _ _ _) as [[r g''] more]. simpl in *.
    rewrite length_app. destruct reported, st; simpl in *; lia.
Qed.

(** [validateDo] lets through exactly the requests the constructors build:
    a known class, GraphQL only under an installation token and with a rate
    observer, and token exchanges only as App-JWT REST requests. *)
Theorem validateDo_spec class req :
  validateDo class req = Ok tt ↔
  class_valid class = true ∧
  (req_resource req = REST ∧ auth_valid (req_authContext req) = true ∧
     (tokenMint req = true → req_authContext req = AppJWTAuth)
   ∨ req_resource req = GraphQL ∧ req_authContext req = InstallationAuth ∧
     tokenMint req = false ∧ is_Some (observeRate req)).
Proof.
  destruct req as [p c r a o b t]; unfold validateDo, resource_valid; simpl.
  destruct (class_valid class); simpl; [|naive_solver].
  destruct (auth_valid a) eqn:Ea; simpl; repeat case_bool_decide; simplify_eq;
    destruct t; simpl; try naive_solver.
  all: try (vm_compute in Ea; discriminate). 
  all: naive_solver.
Qed.
