(* ===== verification/RefreshQueue.v ===== *)
(** * Durable refresh generations and their River pointers

    [internal/queue/refresh.go] and [internal/queue/orphan.go], with the SQL of
    [db/queries/refresh_intent_generations.sql] they run through
    [internal/store/dbgen]. A refresh identity has a durable row with a
    generation, bumped by every signal, and a completed generation, advanced
    only by a finished fetch; a River job is a pointer to the identity.

    Every operation here is one Postgres transaction on one or more identities,
    serialised by the per-identity advisory lock, so it is one function on the
    state [queue_state]; workers, producers, reconcilers and River interleave as
    the steps of [queue_step]. River itself is the interface [River]. *)

From Stdlib Require Import ZArith Lia Bool Ascii String.
From stdpp Require Import base list strings gmap numbers sorting.
From S2P Require Import Prelude GoStrings.

Local Open Scope Z_scope.

(** ** Kinds, arguments and specs *)

Definition KindRefreshPR : string := "refresh_pr".
Definition KindRefreshRepository : string := "refresh_repository".
Definition KindRefreshRepoRules : string := "refresh_repo_rules".
Definition KindRefreshStack : string := "refresh_stack".
Definition KindRefreshChecks : string := "refresh_checks".
Definition KindRefreshBranch : string := "refresh_branch".
Definition KindResolveStackMembership : string := "resolve_stack_membership".

(** The argument of a pointer job, its whole durable payload. *)
Record RefreshArgs : Type := mkArgs {
  PointerKind : string;
  Key : string;
  ObserveDefaultBranchHead : bool
}.

#[export] Instance RefreshArgs_eq_dec : EqDecision RefreshArgs.
Proof. solve_decision. Defined.

(** [RefreshGenerationKey]: the identity of a generation row. *)
Abbreviation identity := (string * string)%type.

Definition args_identity (a : RefreshArgs) : identity := (PointerKind a, Key a).

Record RefreshSpec : Type := mkSpec {
  sp_Kind : string;
  sp_Key : string;
  ScheduledAt : time;
  Deadline : time;
  EventReceivedAt : time
}.

Definition spec_identity (s : RefreshSpec) : identity := (sp_Kind s, sp_Key s).

(** [NewRefreshRepositoryHeadArgs]: the one constructor that sets the flag. *)
Definition NewRefreshRepositoryHeadArgs (key : string) : RefreshArgs :=
  mkArgs KindRefreshRepository key true.

Inductive queue_error : Type :=
  | EmptyRefreshKey
  | UnsupportedKind
  | RefreshFailed
  | NotInBatch
  | InvalidBatchLimit.

Definition supported_kinds : list string :=
  [KindRefreshPR; KindRefreshRepository; KindRefreshRepoRules; KindRefreshStack;
   KindRefreshChecks; KindRefreshBranch; KindResolveStackMembership].

Definition argsForSpec (s : RefreshSpec) : result queue_error RefreshArgs :=
  if bool_decide (sp_Kind s ∈ supported_kinds) then Ok (mkArgs (sp_Kind s) (sp_Key s) false)
  else Err UnsupportedKind.

(** ** The River interface *)

(** What an insertion reports: the job, its arguments and schedule, and whether
    an equal live job absorbed the insertion. *)
Record insert_result : Type := mkInserted {
  ir_job : Z;
  EncodedArgs : RefreshArgs;
  UniqueSkippedAsDuplicate : bool;
  ir_ScheduledAt : time
}.

(** The operations of River the program uses. A job is live while it is
    available, pending, retryable, running or scheduled: the states of the
    uniqueness mask of [NewRefreshInsertOptsForQueue]. *)
Class River : Type := {
  jobs : Type;
  job_args : jobs → Z → option RefreshArgs;
  (** The last value of the job-id sequence. *)
  issued : jobs → Z;
  (** [InsertTx] with that mask: arguments, queue, schedule. *)
  river_insert : RefreshArgs → string → time → jobs → insert_result * jobs;
  (** [JobCompleteTx]. *)
  river_complete : Z → jobs → jobs;
  (** [JobRetryTx]: make the job available now. *)
  river_retry : Z → jobs → jobs
}.

(** River's documented behaviour: unique insertion within the mask, completion
    that touches one job and only ends it, and rescheduling that keeps jobs
    live. *)
Class RiverLaws (R : River) : Prop := {
  args_issued (t : jobs) id a : job_args t id = Some a → id ≤ issued t;
  insert_fresh (t : jobs) a q s :
    (∀ id, job_args t id ≠ Some a) →
    let '(r, t') := river_insert a q s t in
    UniqueSkippedAsDuplicate r = false ∧ issued t < ir_job r ≤ issued t' ∧
    ∀ id, job_args t' id = if decide (id = ir_job r) then Some a else job_args t id;
  (** The unique insert runs under the conflict's row lock and consumes at most
      sequence values. *)
  insert_duplicate (t : jobs) a q s id :
    job_args t id = Some a →
    let '(r, t') := river_insert a q s t in
    UniqueSkippedAsDuplicate r = true ∧ EncodedArgs r = a ∧ issued t ≤ issued t' ∧
    ∀ id', job_args t' id' = job_args t id';
  complete_other (t : jobs) id id' :
    id' ≠ id → job_args (river_complete id t) id' = job_args t id';
  complete_self (t : jobs) id :
    job_args (river_complete id t) id = None ∨
    job_args (river_complete id t) id = job_args t id;
  complete_issued (t : jobs) id : issued (river_complete id t) = issued t;
  retry_args (t : jobs) id id' : job_args (river_retry id t) id' = job_args t id';
  retry_issued (t : jobs) id : issued (river_retry id t) = issued t;
  (** Whether an equal live job exists can be read off the table. *)
  find_args (t : jobs) a :
    (∀ id, job_args t id ≠ Some a) ∨ ∃ id, job_args t id = Some a
}.

(** ** Generation rows *)

Record generation_row : Type := mkRow {
  generation : Z;
  completed_generation : Z;
  deadline_at : option time;
  event_received_at : option time;
  updated_at : time
}.

Abbreviation generations := (gmap identity generation_row).

(** [LEAST] of two timestamps where NULL means no constraint. *)
Definition earliest (old new : option time) : option time :=
  match new, old with
  | None, _ => old
  | Some _, None => new
  | Some n, Some o => Some (Z.min o n)
  end.

(** One intent of [BumpRefreshIntentGenerations]. *)
Definition bump_row (now : time) (deadline event : option time) (row : option generation_row)
    : generation_row :=
  match row with
  | None => mkRow 1 0 deadline event now
  | Some r =>
      mkRow (generation r + 1) (completed_generation r)
        (earliest (deadline_at r) deadline) (earliest (event_received_at r) event) now
  end.

(** A zero [time.Time] is encoded as an absent timestamp. *)
Definition nullable (t : time) : option time := if IsZero t then None else Some t.

Definition bump_spec (now : time) (gens : generations) (s : RefreshSpec) : generations :=
  <[spec_identity s :=
      bump_row now (nullable (Deadline s)) (nullable (EventReceivedAt s))
        (gens !! spec_identity s)]> gens.

Definition BumpRefreshIntentGenerations (now : time) (gens : generations)
    (specs : list RefreshSpec) : generations :=
  foldl (bump_spec now) gens specs.

(** [GetRefreshIntentState], with the zero value for an absent row. *)
Definition current_generation (gens : generations) (i : identity) : Z :=
  default 0 (generation <$> gens !! i).

Definition completed (gens : generations) (i : identity) : Z :=
  default 0 (completed_generation <$> gens !! i).

(** [CompleteRefreshIntentGeneration]. *)
Definition CompleteRefreshIntentGeneration (now : time) (gens : generations)
    (i : identity) (done : Z) : generations :=
  match gens !! i with
  | Some r =>
      if done <=? generation r then
        <[i := mkRow (generation r) (Z.max (completed_generation r) done)
                 (if generation r =? done then None else deadline_at r)
                 (if generation r =? done then None else event_received_at r) now]> gens
      else gens
  | None => gens
  end.

(** One target of [AdvanceBranchReconciliationTargetGenerations]: a branch bulk
    transaction advances the identity and claims the new generation for itself. *)
Definition claim_generation (now : time) (gens : generations) (i : identity) : generations :=
  <[i := let g := current_generation gens i + 1 in mkRow g g None None now]> gens.

(** An identity with a signal no finished fetch has covered. *)
Definition outstanding (gens : generations) (i : identity) : Prop :=
  completed gens i < current_generation gens i.

#[export] Instance outstanding_dec gens i : Decision (outstanding gens i).
Proof. unfold outstanding. apply _. Defined.

(** ** Coalescing a batch of specs *)

(** Merge a later spec of the same identity into the first one: the earliest
    schedule (zero is immediate), deadline and event time win. *)
Definition merge_spec (first later : RefreshSpec) : RefreshSpec :=
  mkSpec (sp_Kind first) (sp_Key first)
    (if negb (IsZero (ScheduledAt first))
        && (IsZero (ScheduledAt later) || Before (ScheduledAt later) (ScheduledAt first))
     then ScheduledAt later else ScheduledAt first)
    (if negb (IsZero (Deadline later))
        && (IsZero (Deadline first) || Before (Deadline later) (Deadline first))
     then Deadline later else Deadline first)
    (if negb (IsZero (EventReceivedAt later))
        && (IsZero (EventReceivedAt first)
            || Before (EventReceivedAt later) (EventReceivedAt first))
     then EventReceivedAt later else EventReceivedAt first).

(** The loop body: [deduped] keeps the first position of each identity. *)
Fixpoint dedupe_insert (deduped : list RefreshSpec) (s : RefreshSpec) : list RefreshSpec :=
  match deduped with
  | [] => [s]
  | d :: ds =>
      if decide (spec_identity d = spec_identity s) then merge_spec d s :: ds
      else d :: dedupe_insert ds s
  end.

(** A spec without an event time inherits the one of its context. *)
Definition with_event (contextEvent : time) (s : RefreshSpec) : RefreshSpec :=
  if IsZero (EventReceivedAt s)
  then mkSpec (sp_Kind s) (sp_Key s) (ScheduledAt s) (Deadline s) contextEvent
  else s.

Fixpoint dedupe (contextEvent : time) (deduped specs : list RefreshSpec)
    : result queue_error (list RefreshSpec) :=
  match specs with
  | [] => Ok deduped
  | s :: specs =>
      let s := with_event contextEvent s in
      if bool_decide (sp_Key s = "") then Err EmptyRefreshKey
      else dedupe contextEvent (dedupe_insert deduped s) specs
  end.

(** The lock and upsert order: kind, then key. *)
Definition identity_le (a b : identity) : Prop :=
  string_lt a.1 b.1 ∨ a.1 = b.1 ∧ string_le a.2 b.2.

#[export] Instance string_lt_dec : RelDecision string_lt.
Proof. intros a b. unfold string_lt. apply _. Defined.

#[export] Instance identity_le_dec : RelDecision identity_le.
Proof. intros a b. unfold identity_le. apply _. Defined.

Definition spec_le (a b : RefreshSpec) : Prop :=
  identity_le (spec_identity a) (spec_identity b).

#[export] Instance spec_le_dec : RelDecision spec_le.
Proof. intros a b. unfold spec_le. apply _. Defined.

Definition sort_specs (l : list RefreshSpec) : list RefreshSpec := merge_sort spec_le l.

(** ** Operations *)

Section operations.
Context `{R : River}.

(** One identity is served while some live job points at it. *)
Definition live (t : jobs) (i : identity) : Prop :=
  ∃ id a, job_args t id = Some a ∧ args_identity a = i.

(** [InsertManyTx]: the insertions of one batch, in order. *)
Fixpoint insert_many (queueName : string) (params : list (RefreshArgs * time)) (t : jobs)
    : list insert_result * jobs :=
  match params with
  | [] => ([], t)
  | (a, s) :: params =>
      let '(r, t1) := river_insert a queueName s t in
      let '(rs, t2) := insert_many queueName params t1 in
      (r :: rs, t2)
  end.

Fixpoint params_for (specs : list RefreshSpec) : result queue_error (list (RefreshArgs * time)) :=
  match specs with
  | [] => Ok []
  | s :: specs =>
      a ← argsForSpec s;
      ps ← params_for specs;
      Ok ((a, ScheduledAt s) :: ps)
  end.

(** [scheduledByKey]: the schedule wanted for an identity of the batch. *)
Definition desired_schedule (specs : list RefreshSpec) (i : identity) : option time :=
  (λ p, ScheduledAt p.2) <$> list_find (λ s, spec_identity s = i) specs.

(** A coalesced pointer that is scheduled too late is made available now. *)
Definition expedite_one (specs : list RefreshSpec) (r : insert_result) (t : jobs)
    : result queue_error jobs :=
  if negb (UniqueSkippedAsDuplicate r) then Ok t
  else
    match desired_schedule specs (args_identity (EncodedArgs r)) with
    | None => Err NotInBatch
    | Some desired =>
        if negb (IsZero desired) && negb (Before desired (ir_ScheduledAt r)) then Ok t
        else Ok (river_retry (ir_job r) t)
    end.

Fixpoint expedite (specs : list RefreshSpec) (rs : list insert_result) (t : jobs)
    : result queue_error jobs :=
  match rs with
  | [] => Ok t
  | r :: rs => t ← expedite_one specs r t; expedite specs rs t
  end.

Record RefreshGeneration : Type := mkGeneration {
  rg_Spec : RefreshSpec;
  rg_Generation : Z
}.

(** The two durable tables a queue transaction writes. *)
Record tables : Type := mkTables {
  gens : generations;
  river : jobs
}.

(** [InsertRefreshesTxReturning] inside its caller's transaction: [Err] is the
    error on which the caller rolls back. The locks it takes make it atomic for
    the identities it touches; [contextEvent] is [pipeline.EventReceivedAt ctx]. *)
Definition InsertRefreshesTxReturning (now contextEvent : time) (specs : list RefreshSpec)
    (queueName : string) (d : tables)
    : result queue_error (list RefreshGeneration * tables) :=
  match specs with
  | [] => Ok ([], d)
  | _ =>
      deduped ← dedupe contextEvent [] specs;
      let deduped := sort_specs deduped in
      let gens1 := BumpRefreshIntentGenerations now (gens d) deduped in
      params ← params_for deduped;
      let '(inserted, t1) := insert_many queueName params (river d) in
      t2 ← expedite deduped inserted t1;
      Ok (map (λ s, mkGeneration s (current_generation gens1 (spec_identity s))) deduped,
          mkTables gens1 t2)
  end.

(** [completeRefresh] for job [id] with arguments [a], which [runRefresh] had
    started at generation [startedGeneration]. *)
Definition completeRefresh (now : time) (id : Z) (a : RefreshArgs) (queueName : string)
    (startedGeneration : Z) (d : tables) : tables :=
  let i := args_identity a in
  let generation := current_generation (gens d) i in
  let completedGeneration := completed (gens d) i in
  let t1 := river_complete id (river d) in
  let gens1 :=
    if 0 <? startedGeneration
    then CompleteRefreshIntentGeneration now (gens d) i startedGeneration
    else gens d in
  let t2 :=
    if (startedGeneration <? generation) && (completedGeneration <? generation)
    then (river_insert a queueName zero_time t1).2
    else t1 in
  mkTables gens1 t2.

(** What the worker callback returned. *)
Inductive work_result : Type :=
  | WorkDone
  | WorkSuperseded
  | WorkFailed.

(** The end of [runRefresh], after the callback: the new tables and whether the
    deadline observer is called. A superseded attempt completes like a
    successful one; a failed one leaves the tables to River's retry. *)
Definition finishRefresh (now completedAt : time) (id : Z) (a : RefreshArgs)
    (queueName : string) (startedGeneration : Z) (startedDeadline : option time)
    (work : work_result) (d : tables) : result queue_error bool * tables :=
  match work with
  | WorkFailed => (Err RefreshFailed, d)
  | WorkDone | WorkSuperseded =>
      (Ok match startedDeadline with
          | Some deadline => After completedAt deadline
          | None => false
          end,
       completeRefresh now id a queueName startedGeneration d)
  end.

(** [reinsertRefreshPointer]: whether a replacement was created, and the
    generation that was outstanding under the lock (0 when none was). *)
Definition reinsertRefreshPointer (i : identity) (queueName : string) (d : tables)
    : result queue_error (bool * Z) * tables :=
  match argsForSpec (mkSpec i.1 i.2 zero_time zero_time zero_time) with
  | Err e => (Err e, d)
  | Ok a =>
      if current_generation (gens d) i <=? completed (gens d) i then (Ok (false, 0), d)
      else
        let '(r, t1) := river_insert a queueName zero_time (river d) in
        (Ok (negb (UniqueSkippedAsDuplicate r), current_generation (gens d) i),
         mkTables (gens d) t1)
  end.

(** The order of [ListOutstandingRefreshIntentGenerations]. *)
Definition stale_le (a b : time * identity) : Prop :=
  a.1 < b.1 ∨ a.1 = b.1 ∧ identity_le a.2 b.2.

#[export] Instance stale_le_dec : RelDecision stale_le.
Proof. intros a b. unfold stale_le. apply _. Defined.

Definition ListOutstandingRefreshIntentGenerations (g : generations) (staleBefore : time)
    (batchLimit : Z) : list identity :=
  let rows :=
    filter (λ p : identity * generation_row,
              completed_generation p.2 < generation p.2 ∧ updated_at p.2 ≤ staleBefore)
      (map_to_list g) in
  map snd (take (Z.to_nat batchLimit)
             (merge_sort stale_le (map (λ p, (updated_at p.2, p.1)) rows))).

Record OrphanReconcileResult : Type := mkReconciled {
  Scanned : Z;
  Delayed : Z;
  Orphans : list (identity * Z)
}.

Fixpoint reconcile_rows (rows : list identity) (queueName : string)
    (res : OrphanReconcileResult) (d : tables)
    : result (queue_error * OrphanReconcileResult) OrphanReconcileResult * tables :=
  match rows with
  | [] => (Ok res, d)
  | i :: rows =>
      match reinsertRefreshPointer i queueName d with
      | (Err e, d1) => (Err (e, res), d1)
      | (Ok (replaced, generation), d1) =>
          let res1 :=
            if generation =? 0 then res
            else if negb replaced
            then mkReconciled (Scanned res) (Delayed res + 1) (Orphans res)
            else mkReconciled (Scanned res) (Delayed res) (Orphans res ++ [(i, generation)]) in
          reconcile_rows rows queueName res1 d1
      end
  end.

Definition ReconcileOrphanedRefreshPointers (staleBefore : time) (batchLimit : Z)
    (queueName : string) (d : tables)
    : result (queue_error * OrphanReconcileResult) OrphanReconcileResult * tables :=
  if batchLimit <=? 0 then (Err (InvalidBatchLimit, mkReconciled 0 0 []), d)
  else
    let rows := ListOutstandingRefreshIntentGenerations (gens d) staleBefore batchLimit in
    reconcile_rows rows queueName (mkReconciled (Z.of_nat (length rows)) 0 []) d.

(** ** Interleavings *)

(** An attempt of a worker at a job, between the snapshot of [runRefresh] and
    its end. *)
Record attempt : Type := mkAttempt {
  at_job : Z;
  at_args : RefreshArgs;
  at_queue : string;
  at_started : Z;
  at_deadline : option time
}.

(** The tables, the attempts in progress, and the identities whose pointer River
    ended without a completion (discarded or cancelled) since the last
    insertion for them. *)
Record queue_state : Type := mkQueue {
  db : tables;
  attempts : list attempt;
  terminated : list identity
}.

Definition set_db (d : tables) (st : queue_state) : queue_state :=
  mkQueue d (attempts st) (terminated st).

(** A transaction that leaves a live pointer for each of [ids]. *)
Definition serve (ids : list identity) (d : tables) (st : queue_state) : queue_state :=
  mkQueue d (attempts st) (filter (.∉ ids) (terminated st)).

(** One transaction of a producer, worker, branch bulk or reconciler, or one
    move of River. *)
Inductive queue_step : queue_state → queue_state → Prop :=
  | step_produce st now ev specs q out d' :
      InsertRefreshesTxReturning now ev specs q (db st) = Ok (out, d') →
      queue_step st (serve (map (spec_identity ∘ rg_Spec) out) d' st)
  | step_claim st now i :
      queue_step st (set_db (mkTables (claim_generation now (gens (db st)) i) (river (db st))) st)
  | step_start st id a q :
      job_args (river (db st)) id = Some a →
      queue_step st
        (mkQueue (db st)
           (mkAttempt id a q (current_generation (gens (db st)) (args_identity a))
              (gens (db st) !! args_identity a ≫= deadline_at) :: attempts st)
           (terminated st))
  | step_finish st now completedAt x work :
      x ∈ attempts st →
      queue_step st
        (set_db (finishRefresh now completedAt (at_job x) (at_args x) (at_queue x)
                   (at_started x) (at_deadline x) work (db st)).2 st)
  | step_crash st xs :
      xs ⊆ attempts st → queue_step st (mkQueue (db st) xs (terminated st))
  | step_reinsert st i q replaced d' :
      reinsertRefreshPointer i q (db st) = (Ok replaced, d') →
      queue_step st (serve [i] d' st)
  | step_river st t' :
      issued (river (db st)) ≤ issued t' →
      (∀ id, job_args t' id = job_args (river (db st)) id) →
      queue_step st (set_db (mkTables (gens (db st)) t') st)
  | step_terminate st id a t' :
      issued (river (db st)) ≤ issued t' →
      job_args (river (db st)) id = Some a →
      (∀ id', job_args t' id' = if decide (id' = id) then None else job_args (river (db st)) id') →
      queue_step st
        (mkQueue (mkTables (gens (db st)) t') (attempts st) (args_identity a :: terminated st)).

Inductive queue_reachable : queue_state → Prop :=
  | reach_init t : queue_reachable (mkQueue (mkTables ∅ t) [] [])
  | reach_step st st' : queue_reachable st → queue_step st st' → queue_reachable st'.

End operations.

(** ** Generation lemmas *)

Lemma bump_spec_current now g s i :
  current_generation (bump_spec now g s) i =
  current_generation g i + if decide (spec_identity s = i) then 1 else 0.
Proof.
  unfold current_generation, bump_spec. destruct (decide (spec_identity s = i)) as [->|Hne].
  - rewrite lookup_insert_eq. destruct (g !! i); cbn; lia.
  - rewrite lookup_insert_ne by done. lia.
Qed.

Lemma bump_spec_completed now g s i : completed (bump_spec now g s) i = completed g i.
Proof.
  unfold completed, bump_spec. destruct (decide (spec_identity s = i)) as [->|Hne].
  - rewrite lookup_insert_eq. by destruct (g !! i).
  - by rewrite lookup_insert_ne.
Qed.

Lemma bump_cons now s specs g :
  BumpRefreshIntentGenerations now g (s :: specs) =
  BumpRefreshIntentGenerations now (bump_spec now g s) specs.
Proof. done. Qed.

Lemma bump_completed now specs g i :
  completed (BumpRefreshIntentGenerations now g specs) i = completed g i.
Proof.
  revert g. induction specs as [|s specs IH]; intros g; [done|].
  rewrite bump_cons. by rewrite IH, bump_spec_completed.
Qed.

Lemma bump_current_notin now specs g i :
  i ∉ map spec_identity specs →
  current_generation (BumpRefreshIntentGenerations now g specs) i = current_generation g i.
Proof.
  revert g. induction specs as [|s specs IH]; intros g; [done|].
  rewrite bump_cons; cbn [map]. rewrite not_elem_of_cons. intros [Hi Hni]. rewrite IH, bump_spec_current by done.
  rewrite decide_False by done. lia.
Qed.

Lemma bump_current_in now specs g i :
  NoDup (map spec_identity specs) → i ∈ map spec_identity specs →
  current_generation (BumpRefreshIntentGenerations now g specs) i = current_generation g i + 1.
Proof.
  revert g.
  induction specs as [|s specs IH]; intros g; rewrite ?bump_cons; cbn [map]; [by intros ? ?%elem_of_nil|].
  rewrite NoDup_cons, elem_of_cons. intros [Hs Hnd] [->|Hi].
  - rewrite bump_current_notin by done. by rewrite bump_spec_current, decide_True.
  - rewrite IH, bump_spec_current by done. rewrite decide_False by (by intros <-). lia.
Qed.

Lemma bump_current_mono now specs g i :
  current_generation g i ≤ current_generation (BumpRefreshIntentGenerations now g specs) i.
Proof.
  revert g. induction specs as [|s specs IH]; intros g; [done|].
  rewrite bump_cons. etransitivity; [|apply IH]. rewrite bump_spec_current. case_decide; lia.
Qed.

Lemma complete_current now g i n j :
  current_generation (CompleteRefreshIntentGeneration now g i n) j = current_generation g j.
Proof.
  unfold CompleteRefreshIntentGeneration, current_generation.
  destruct (g !! i) as [r|] eqn:E; [|done]. case_if; [|done].
  destruct (decide (i = j)) as [->|Hne]; [by rewrite lookup_insert_eq, E|by rewrite lookup_insert_ne].
Qed.

Lemma complete_completed now g i n j :
  0 < n → n ≤ current_generation g i →
  completed (CompleteRefreshIntentGeneration now g i n) j =
  if decide (i = j) then Z.max (completed g j) n else completed g j.
Proof.
  unfold CompleteRefreshIntentGeneration, current_generation, completed. intros Hpos Hn.
  destruct (g !! i) as [r|] eqn:E; cbn in Hn; [|lia].
  destruct (n <=? generation r) eqn:Hle; to_props; [|lia].
  destruct (decide (i = j)) as [->|Hne]; [by rewrite lookup_insert_eq, E|by rewrite lookup_insert_ne].
Qed.

Lemma claim_current now g i j :
  current_generation (claim_generation now g i) j =
  current_generation g j + if decide (i = j) then 1 else 0.
Proof.
  unfold claim_generation. unfold current_generation at 1.
  destruct (decide (i = j)) as [->|Hne].
  - by rewrite lookup_insert_eq.
  - rewrite lookup_insert_ne by done. unfold current_generation. lia.
Qed.

Lemma claim_completed now g i j :
  completed (claim_generation now g i) j =
  if decide (i = j) then current_generation g j + 1 else completed g j.
Proof.
  unfold claim_generation, completed.
  destruct (decide (i = j)) as [->|Hne]; [by rewrite lookup_insert_eq|by rewrite lookup_insert_ne].
Qed.

#[export] Hint Rewrite bump_completed complete_current claim_current claim_completed : ghsync.

(** ** Coalescing lemmas *)

Lemma merge_identity d s : spec_identity (merge_spec d s) = spec_identity d.
Proof. done. Qed.

Lemma dedupe_insert_elem l s i :
  i ∈ map spec_identity (dedupe_insert l s) ↔ i = spec_identity s ∨ i ∈ map spec_identity l.
Proof.
  induction l as [|d l IH]; cbn [dedupe_insert map].
  - rewrite elem_of_cons. tauto.
  - case_decide as Heq; cbn [map]; rewrite !elem_of_cons, ?merge_identity.
    + rewrite Heq. tauto.
    + rewrite IH. tauto.
Qed.

Lemma dedupe_insert_NoDup l s :
  NoDup (map spec_identity l) → NoDup (map spec_identity (dedupe_insert l s)).
Proof.
  induction l as [|d l IH]; cbn [dedupe_insert map].
  - intros _. apply NoDup_singleton.
  - rewrite NoDup_cons. intros [Hd Hl].
    case_decide as Heq; cbn [map]; rewrite NoDup_cons, ?merge_identity; [done|].
    split; [|by apply IH]. rewrite dedupe_insert_elem. intros [?|?]; done.
Qed.

Lemma with_event_identity ev s : spec_identity (with_event ev s) = spec_identity s.
Proof. unfold with_event. by case_if. Qed.

Lemma dedupe_spec ev acc specs out :
  dedupe ev acc specs = Ok out → NoDup (map spec_identity acc) →
  NoDup (map spec_identity out) ∧
  ∀ i, i ∈ map spec_identity out ↔ i ∈ map spec_identity acc ∨ i ∈ map spec_identity specs.
Proof.
  revert acc. induction specs as [|s specs IH]; intros acc; cbn [dedupe map].
  - intros [= ->] Hnd. split; [done|]. intros i. rewrite elem_of_nil. tauto.
  - case_if; [done|]. intros Hd Hnd.
    destruct (IH _ Hd (dedupe_insert_NoDup _ _ Hnd)) as [Hout Hin].
    split; [done|]. intros i. rewrite Hin, dedupe_insert_elem, elem_of_cons, with_event_identity.
    tauto.
Qed.

#[export] Instance identity_le_total : Total identity_le.
Proof.
  intros [a1 a2] [b1 b2]. unfold identity_le; cbn.
  destruct (string_lt_total a1 b1) as [?|[->|?]]; [by left; left| |by right; left].
  destruct (string_le_total a2 b2); [left|right]; by right.
Qed.

#[export] Instance identity_le_trans : Transitive identity_le.
Proof.
  intros [a1 a2] [b1 b2] [c1 c2]. unfold identity_le; cbn.
  intros [?|[-> ?]] [?|[-> ?]]; [left; by etransitivity|by left|by left|right].
  split; [done|by etransitivity].
Qed.

#[export] Instance spec_le_total : Total spec_le.
Proof. intros a b. apply identity_le_total. Qed.

#[export] Instance spec_le_trans : Transitive spec_le.
Proof. intros a b c. apply identity_le_trans. Qed.

Lemma sort_specs_perm l : sort_specs l ≡ₚ l.
Proof. apply merge_sort_Permutation. Qed.

Lemma sort_specs_NoDup l :
  NoDup (map spec_identity l) → NoDup (map spec_identity (sort_specs l)).
Proof. by rewrite (sort_specs_perm l). Qed.

Lemma sort_specs_elem l i :
  i ∈ map spec_identity (sort_specs l) ↔ i ∈ map spec_identity l.
Proof. by rewrite (sort_specs_perm l). Qed.

Lemma argsForSpec_ok s a :
  argsForSpec s = Ok a → sp_Kind s ∈ supported_kinds ∧ a = mkArgs (sp_Kind s) (sp_Key s) false.
Proof. unfold argsForSpec. case_if; [|done]. to_props. by intros [= <-]. Qed.

Lemma params_for_ok specs ps :
  params_for specs = Ok ps →
  ps = map (λ s, (mkArgs (sp_Kind s) (sp_Key s) false, ScheduledAt s)) specs ∧
  ∀ s, s ∈ specs → sp_Kind s ∈ supported_kinds.
Proof.
  revert ps. induction specs as [|s specs IH]; intros ps; cbn [params_for map].
  { intros [= <-]. split; [done|]. by intros s ?%elem_of_nil. }
  intros (a & [Hk ->]%argsForSpec_ok & (ps' & Hps & [= <-])%bind_ok)%bind_ok.
  destruct (IH _ Hps) as [-> Hks]. split; [done|]. by intros s' [->|?]%elem_of_cons; auto.
Qed.

(** ** River lemmas *)

Section river_lemmas.
Context `{RL : RiverLaws}.

(** What a table operation may do to other jobs: [t'] follows [t] when ids are
    never reused and no job changes its arguments. *)
Definition follows (t t' : jobs) : Prop :=
  issued t ≤ issued t' ∧
  ∀ id, id ≤ issued t → job_args t' id = None ∨ job_args t' id = job_args t id.

Lemma follows_refl t : follows t t.
Proof. split; [lia|]. by right. Qed.

Lemma follows_trans t1 t2 t3 : follows t1 t2 → follows t2 t3 → follows t1 t3.
Proof.
  intros [? H12] [? H23]. split; [lia|]. intros id Hid.
  destruct (H23 id ltac:(lia)) as [->| ->]; [by left|by apply H12].
Qed.

Lemma follows_ext t t' :
  issued t ≤ issued t' → (∀ id, job_args t' id = job_args t id) → follows t t'.
Proof. intros ? H. split; [done|]. intros id _. right. apply H. Qed.

Lemma river_insert_cases (t : jobs) a q s :
  issued t ≤ issued (river_insert a q s t).2 ∧
  ((∀ id, job_args (river_insert a q s t).2 id = job_args t id) ∧
    (∃ id, job_args t id = Some a) ∧ UniqueSkippedAsDuplicate (river_insert a q s t).1 = true ∧
    EncodedArgs (river_insert a q s t).1 = a
  ∨ UniqueSkippedAsDuplicate (river_insert a q s t).1 = false ∧
    (∀ id, job_args t id ≠ Some a) ∧
    ∃ id0, issued t < id0 ∧
      ∀ id, job_args (river_insert a q s t).2 id = if decide (id = id0) then Some a else job_args t id).
Proof.
  destruct (find_args t a) as [Hno|[id Hid]].
  - pose proof (insert_fresh t a q s Hno) as H.
    destruct (river_insert a q s t) as [r t']. destruct H as (H1 & H2 & H3). cbn.
    split; [lia|]. right. split_and!; [done..|]. exists (ir_job r). by split; [lia|].
  - pose proof (insert_duplicate t a q s id Hid) as H.
    destruct (river_insert a q s t) as [r t']. destruct H as (H1 & H2 & H3 & H4). cbn. eauto 10.
Qed.

Lemma river_insert_follows t a q s : follows t (river_insert a q s t).2.
Proof.
  destruct (river_insert_cases t a q s) as [Hi [(Hsame & _)|(_ & _ & id0 & Hfree & H)]].
  - by apply follows_ext.
  - split; [done|]. intros id Hid. rewrite H, decide_False by lia. by right.
Qed.

Lemma river_complete_follows t id : follows t (river_complete id t).
Proof.
  split; [by rewrite complete_issued|]. intros id' _.
  destruct (decide (id' = id)) as [->|?]; [apply complete_self|right; by apply complete_other].
Qed.

Lemma river_insert_live t a q s : live (river_insert a q s t).2 (args_identity a).
Proof.
  destruct (river_insert_cases t a q s) as [_ [(Hsame & (id & Hid) & _)|(_ & _ & id0 & _ & H)]].
  - exists id, a. by rewrite Hsame.
  - exists id0, a. by rewrite H, decide_True.
Qed.

Lemma river_insert_mono t a q s i : live t i → live (river_insert a q s t).2 i.
Proof.
  intros (id & b & Hid & Hb).
  destruct (river_insert_cases t a q s) as [_ [(Hsame & _)|(_ & _ & id0 & Hfree & H)]].
  - exists id, b. by rewrite Hsame.
  - exists id, b. apply args_issued in Hid as ?. by rewrite H, decide_False by lia.
Qed.

Lemma insert_many_mono q ps t i : live t i → live (insert_many q ps t).2 i.
Proof.
  revert t. induction ps as [|[a s] ps IH]; intros t Hl; [done|]. cbn [insert_many].
  pose proof (river_insert_mono t a q s i Hl) as H. destruct (river_insert a q s t) as [r t1].
  specialize (IH t1 H). by destruct (insert_many q ps t1).
Qed.

Lemma insert_many_follows q ps t : follows t (insert_many q ps t).2.
Proof.
  revert t. induction ps as [|[a s] ps IH]; intros t; [apply follows_refl|]. cbn [insert_many].
  pose proof (river_insert_follows t a q s) as H. destruct (river_insert a q s t) as [r t1].
  pose proof (follows_trans _ _ _ H (IH t1)) as H'. by destruct (insert_many q ps t1).
Qed.

Lemma insert_many_live q ps t i :
  i ∈ map (args_identity ∘ fst) ps → live (insert_many q ps t).2 i.
Proof.
  revert t. induction ps as [|[a s] ps IH]; intros t; cbn [insert_many map]; [by intros ?%elem_of_nil|].
  rewrite elem_of_cons. pose proof (river_insert_live t a q s) as H.
  destruct (river_insert a q s t) as [r t1]. cbn in H |- *. intros [->|Hi].
  - pose proof (insert_many_mono q ps t1 _ H). by destruct (insert_many q ps t1).
  - specialize (IH t1 Hi). by destruct (insert_many q ps t1).
Qed.

Lemma live_ext t t' i : (∀ id, job_args t' id = job_args t id) → live t i → live t' i.
Proof. intros H (id & a & ? & ?). exists id, a. by rewrite H. Qed.

Lemma expedite_args specs rs t t' :
  expedite specs rs t = Ok t' →
  issued t' = issued t ∧ ∀ id, job_args t' id = job_args t id.
Proof.
  revert t. induction rs as [|r rs IH]; intros t; cbn [expedite]; [by intros [= ->]|].
  intros (t1 & H1 & [Hi Ha]%IH)%bind_ok. rewrite Hi.
  assert (issued t1 = issued t ∧ ∀ id, job_args t1 id = job_args t id) as [Hi1 Ha1].
  { revert H1. unfold expedite_one. case_if; [by intros [= ->]|].
    destruct (desired_schedule _ _); [|done]. case_if; intros [= <-]; [done|].
    split; [apply retry_issued|apply retry_args]. }
  split; [done|]. intros id. by rewrite Ha.
Qed.

Lemma river_complete_live t id i :
  live t i → (∃ a, job_args t id = Some a ∧ args_identity a = i) ∨ live (river_complete id t) i.
Proof.
  intros (id' & a & Hid & Ha). destruct (decide (id' = id)) as [->|Hne]; [left; eauto|right].
  exists id', a. by rewrite complete_other.
Qed.

End river_lemmas.

(** ** The transactions preserve the queue invariant *)

Section invariant.
Context `{RL : RiverLaws}.

Definition out_ids (out : list RefreshGeneration) : list identity :=
  map (spec_identity ∘ rg_Spec) out.

(** What one producer transaction does to the two tables. *)
Lemma insert_refreshes_effect now ev specs q d out d' :
  InsertRefreshesTxReturning now ev specs q d = Ok (out, d') →
  NoDup (out_ids out) ∧
  (∀ i, i ∈ out_ids out ↔ i ∈ map spec_identity specs) ∧
  Sorted spec_le (map rg_Spec out) ∧
  (∀ i, i ∈ out_ids out → i.1 ∈ supported_kinds) ∧
  (∀ r, r ∈ out → rg_Generation r = current_generation (gens d') (spec_identity (rg_Spec r))) ∧
  (∀ i, completed (gens d') i = completed (gens d) i) ∧
  (∀ i, current_generation (gens d') i =
        current_generation (gens d) i + if decide (i ∈ out_ids out) then 1 else 0) ∧
  follows (river d) (river d') ∧
  (∀ i, live (river d) i ∨ i ∈ out_ids out → live (river d') i).
Proof.
  unfold InsertRefreshesTxReturning. destruct specs as [|s0 specs'] eqn:Es.
  { intros [= <- <-]. cbn. split_and!; auto using follows_refl, NoDup_nil_2, Sorted_nil.
    - intros i ?%elem_of_nil. done.
    - intros r ?%elem_of_nil. done.
    - intros i. rewrite decide_False by apply not_elem_of_nil. lia.
    - intros i [?|?%elem_of_nil]; done. }
  rewrite <- Es. clear Es s0 specs'.
  intros (ded & Hded & (ps & [Hps Hkinds]%params_for_ok & H)%bind_ok)%bind_ok.
  destruct (insert_many q ps (river d)) as [ins t1] eqn:Eins.
  apply bind_ok in H as (t2 & [Hi2 Ha2]%expedite_args & [= <- <-]). cbn [gens river].
  destruct (dedupe_spec ev [] specs ded Hded NoDup_nil_2) as [Hnd Hin].
  set (sorted := sort_specs ded) in *.
  assert (Hout : ∀ g, out_ids (map (λ s, mkGeneration s (g s)) sorted) = map spec_identity sorted).
  { intros g. unfold out_ids. rewrite map_map. done. }
  rewrite !Hout. assert (Hnd' : NoDup (map spec_identity sorted)) by by apply sort_specs_NoDup.
  assert (Hf : follows (river d) t2).
  { pose proof (insert_many_follows q ps (river d)) as Hf. rewrite Eins in Hf.
    eapply follows_trans; [exact Hf|]. apply follows_ext; [by rewrite Hi2|done]. }
  split_and!; try done.
  - intros i. subst sorted. rewrite sort_specs_elem, Hin. cbn [map]. rewrite elem_of_nil. tauto.
  - rewrite map_map, map_id. apply (Sorted_merge_sort _).
  - intros i (s & -> & Hs)%list_elem_of_fmap. by apply Hkinds.
  - intros r (s & -> & _)%list_elem_of_fmap. done.
  - intros i. by rewrite bump_completed.
  - intros i. case_decide; [by apply bump_current_in|]. rewrite bump_current_notin by done. lia.
  - intros i Hi. apply (live_ext t1); [done|].
    assert (live (insert_many q ps (river d)).2 i) as Hl; [|by rewrite Eins in Hl].
    destruct Hi as [?|Hi]; [by apply insert_many_mono|]. apply insert_many_live.
    subst ps. by rewrite map_map.
Qed.

(** What a completion does to the generations and to the live pointers. *)
Lemma complete_refresh_effect now id a q started d :
  0 ≤ started ≤ current_generation (gens d) (args_identity a) →
  (∀ i, 0 ≤ completed (gens d) i) →
  let d' := completeRefresh now id a q started d in
  let i := args_identity a in
  (∀ j, current_generation (gens d') j = current_generation (gens d) j) ∧
  completed (gens d') i = Z.max (completed (gens d) i) started ∧
  (∀ j, j ≠ i → completed (gens d') j = completed (gens d) j) ∧
  follows (river d) (river d') ∧
  (outstanding (gens d') i → live (river d') i) ∧
  (∀ j, live (river_complete id (river d)) j → live (river d') j).
Proof.
  intros Hs Hc. unfold completeRefresh. cbn [gens river]. cbv zeta.
  set (g1 := if 0 <? started then _ else _). set (t2 := if _ && _ then _ else _).
  assert (Hcur : ∀ j, current_generation g1 j = current_generation (gens d) j).
  { intros j. subst g1. case_if; autorewrite with ghsync; done. }
  assert (Hcomp : ∀ j, completed g1 j =
    if decide (args_identity a = j) then Z.max (completed (gens d) j) started
    else completed (gens d) j).
  { intros j. subst g1. case_if; to_props; [apply complete_completed; lia|].
    specialize (Hc j). case_decide; lia. }
  split_and!; [done|by rewrite Hcomp, decide_True|intros j Hj; by rewrite Hcomp, decide_False| | |].
  - eapply follows_trans; [apply (river_complete_follows _ id)|].
    subst t2. case_if; [apply river_insert_follows|apply follows_refl].
  - unfold outstanding. rewrite Hcur, Hcomp, decide_True by done. intros Ho. subst t2.
    rewrite (proj2 (andb_true_iff _ _)); [apply river_insert_live|].
    split; apply Z.ltb_lt; lia.
  - intros j Hj. subst t2. case_if; [by apply river_insert_mono|done].
Qed.

Lemma reinsert_effect i q d res d' :
  reinsertRefreshPointer i q d = (res, d') →
  gens d' = gens d ∧ follows (river d) (river d') ∧
  (∀ j, live (river d) j → live (river d') j) ∧
  (is_ok res = true → outstanding (gens d) i → live (river d') i).
Proof.
  unfold reinsertRefreshPointer.
  destruct (argsForSpec _) as [a|e] eqn:Ea.
  2: { intros [= <- <-]. split_and!; auto using follows_refl. done. }
  case_if; to_props.
  { intros [= <- <-]. split_and!; auto using follows_refl. unfold outstanding. lia. }
  pose proof (river_insert_follows (river d) a q zero_time) as Hf.
  pose proof (river_insert_live (river d) a q zero_time) as Hl.
  pose proof (λ j, river_insert_mono (river d) a q zero_time j) as Hm.
  apply argsForSpec_ok in Ea as [_ ->].
  destruct (river_insert _ q zero_time (river d)) as [r t1]. intros [= <- <-]. cbn in *.
  split_and!; [done..|]. intros _ _. by destruct i.
Qed.

(** The attempts stay consistent with the tables. *)
Definition attempt_ok (d : tables) (x : attempt) : Prop :=
  0 ≤ at_started x ≤ current_generation (gens d) (args_identity (at_args x)) ∧
  at_job x ≤ issued (river d) ∧
  (job_args (river d) (at_job x) = None ∨ job_args (river d) (at_job x) = Some (at_args x)).

Lemma attempt_ok_follows d d' x :
  attempt_ok d x →
  (∀ i, current_generation (gens d) i ≤ current_generation (gens d') i) →
  follows (river d) (river d') → attempt_ok d' x.
Proof.
  intros (Hs & Hj & Ha) Hg [Hi Hf]. specialize (Hg (args_identity (at_args x))).
  split_and!; [lia..|]. destruct (Hf _ Hj) as [->| ->]; auto.
Qed.

Record queue_inv (st : queue_state) : Prop := {
  qi_rows : ∀ i, 0 ≤ completed (gens (db st)) i ≤ current_generation (gens (db st)) i;
  qi_attempts : ∀ x, x ∈ attempts st → attempt_ok (db st) x;
  qi_live : ∀ i, outstanding (gens (db st)) i → live (river (db st)) i ∨ i ∈ terminated st;
  qi_kinds : ∀ i, outstanding (gens (db st)) i → i.1 ∈ supported_kinds
}.

Lemma queue_inv_init t : queue_inv (mkQueue (mkTables ∅ t) [] []).
Proof.
  split; cbn.
  - intros i. unfold completed, current_generation. rewrite lookup_empty. cbn. lia.
  - intros x ?%elem_of_nil. done.
  - intros i. unfold outstanding, completed, current_generation. rewrite lookup_empty. cbn. lia.
  - intros i. unfold outstanding, completed, current_generation. rewrite lookup_empty. cbn. lia.
Qed.

Lemma queue_inv_produce st now ev specs q out d' :
  queue_inv st → InsertRefreshesTxReturning now ev specs q (db st) = Ok (out, d') →
  queue_inv (serve (out_ids out) d' st).
Proof.
  intros [Hr Ha Hl Hk] (Hnd & Hids & _ & Hsup & _ & Hc & Hg & Hf & Hlive)%insert_refreshes_effect.
  split; cbn [serve db attempts terminated].
  - intros i. specialize (Hr i). rewrite Hc, Hg. case_decide; lia.
  - intros x Hx. eapply attempt_ok_follows; eauto. intros i. rewrite Hg. case_decide; lia.
  - intros i Ho. destruct (decide (i ∈ out_ids out)) as [Hi|Hi]; [left; auto|].
    destruct (Hl i) as [?|?]; [|left; auto|right; by apply list_elem_of_filter].
    unfold outstanding in *. rewrite Hc, Hg, decide_False in Ho by done. lia.
  - intros i Ho. destruct (decide (i ∈ out_ids out)) as [Hi|Hi]; [auto|]. apply Hk.
    unfold outstanding in *. rewrite Hc, Hg, decide_False in Ho by done. lia.
Qed.

Lemma queue_inv_complete st now x :
  queue_inv st → x ∈ attempts st →
  queue_inv (set_db (completeRefresh now (at_job x) (at_args x) (at_queue x)
                       (at_started x) (db st)) st).
Proof.
  intros [Hr Ha Hl Hk] Hx. destruct (Ha x Hx) as (Hs & Hj & Hargs).
  destruct (complete_refresh_effect now (at_job x) (at_args x) (at_queue x) (at_started x) (db st))
    as (Hg & Hci & Hcj & Hf & Hi & Hm); [done|intros; apply Hr|].
  set (i := args_identity (at_args x)) in *.
  split; cbn [set_db db attempts terminated].
  - intros j. rewrite Hg. specialize (Hr j). destruct (decide (j = i)) as [->|?].
    + rewrite Hci. lia.
    + by rewrite Hcj.
  - intros y Hy. eapply attempt_ok_follows; eauto. intros j. by rewrite Hg.
  - intros j Ho. destruct (decide (j = i)) as [->|Hne]; [left; auto|].
    unfold outstanding in Ho. rewrite Hg, Hcj in Ho by done.
    destruct (Hl j Ho) as [Hlj|?]; [left|by right].
    destruct (river_complete_live _ (at_job x) _ Hlj) as [(b & Hb & Hbj)|?]; [|auto].
    exfalso. destruct Hargs as [?|?]; [congruence|].
    assert (b = at_args x) as -> by congruence. by apply Hne.
  - intros j Ho. apply Hk. unfold outstanding in *. rewrite Hg in Ho.
    destruct (decide (j = i)) as [->|Hne]; [rewrite Hci in Ho; lia|by rewrite Hcj in Ho].
Qed.

Lemma queue_inv_step st st' : queue_inv st → queue_step st st' → queue_inv st'.
Proof.
  intros Hinv Hstep. pose proof Hinv as [Hr Ha Hl Hk]. destruct Hstep.
  - by eapply queue_inv_produce.
  - split; cbn [set_db db attempts terminated gens river].
    + intros j. autorewrite with ghsync. specialize (Hr j). case_decide; lia.
    + intros x Hx. eapply attempt_ok_follows; eauto using follows_refl.
      intros j. cbn. autorewrite with ghsync. case_decide; lia.
    + intros j. unfold outstanding. autorewrite with ghsync.
      case_decide; [lia|]. rewrite Z.add_0_r. apply Hl.
    + intros j. unfold outstanding. autorewrite with ghsync.
      case_decide; [lia|]. rewrite Z.add_0_r. apply Hk.
  - split; cbn [db attempts terminated]; [done| |done|done].
    intros x [->|?]%elem_of_cons; [|auto].
    split_and!; cbn; [pose proof (Hr (args_identity a)); lia|lia|by apply args_issued in H|auto].
  - destruct work; cbn [finishRefresh snd]; [by apply queue_inv_complete..|by destruct st].
  - split; cbn; [done| |done|done]. eauto.
  - apply reinsert_effect in H as (Hgens & Hf & Hm & Hi).
    split; cbn [serve db attempts terminated]; rewrite ?Hgens; [done| | |done].
    + intros x Hx. eapply attempt_ok_follows; eauto. intros j. by rewrite Hgens.
    + intros j Ho. destruct (decide (j = i)) as [->|Hne]; [left; auto|].
      destruct (Hl j Ho) as [?|?]; [left; auto|right].
      apply list_elem_of_filter. split; [|done]. by rewrite list_elem_of_singleton.
  - split; cbn [set_db db attempts terminated gens river]; [done| | |done].
    + intros x Hx. eapply attempt_ok_follows; eauto using follows_ext. done.
    + intros j Ho. destruct (Hl j Ho) as [?|?]; [left|by right]. by eapply live_ext.
  - split; cbn [db attempts terminated gens river]; [done| | |done].
    + intros x Hx. eapply attempt_ok_follows; eauto; [done|]. split; [done|].
      intros id' _. cbn. rewrite H1. case_decide; auto.
    + intros j Ho. rewrite elem_of_cons. destruct (Hl j Ho) as [(id' & b & Hb & Hj)|?]; [|tauto].
      destruct (decide (id' = id)) as [->|Hne].
      * right. left. by simplify_eq.
      * left. exists id', b. by rewrite H1, decide_False.
Qed.

Lemma queue_reachable_inv st : queue_reachable st → queue_inv st.
Proof. induction 1; eauto using queue_inv_init, queue_inv_step. Qed.

End invariant.

(** ** A reference River

    A table of live jobs and the id sequence: an instance of the interface, on
    which the operations run. *)

Module RefRiver.

Record job_table : Type := mkJobs {
  seq : Z;
  rows : gmap Z (RefreshArgs * time)
}.

Definition args_of (t : job_table) (id : Z) : option RefreshArgs :=
  if id <=? seq t then fst <$> rows t !! id else None.

Definition same (t : job_table) (a : RefreshArgs) (p : Z * (RefreshArgs * time)) : Prop :=
  p.1 ≤ seq t ∧ p.2.1 = a.

#[export] Instance same_dec t a p : Decision (same t a p).
Proof. unfold same. apply _. Defined.

Definition insert (a : RefreshArgs) (q : string) (s : time) (t : job_table)
    : insert_result * job_table :=
  match list_find (same t a) (map_to_list (rows t)) with
  | Some (_, (id, (b, sched))) => (mkInserted id b true sched, t)
  | None =>
      let id := seq t + 1 in
      (mkInserted id a false s, mkJobs id (<[id := (a, s)]> (rows t)))
  end.

Definition complete (id : Z) (t : job_table) : job_table :=
  mkJobs (seq t) (delete id (rows t)).

Definition retry (id : Z) (t : job_table) : job_table :=
  mkJobs (seq t) (alter (λ p, (p.1, zero_time)) id (rows t)).

#[export] Instance RefRiver : River := {
  jobs := job_table;
  job_args := args_of;
  issued := seq;
  river_insert := insert;
  river_complete := complete;
  river_retry := retry
}.

Lemma find_none t a :
  list_find (same t a) (map_to_list (rows t)) = None → ∀ id, args_of t id ≠ Some a.
Proof.
  rewrite list_find_None, Forall_forall. intros H id. unfold args_of.
  case_if; [|done]. to_props. rewrite fmap_Some. intros ([b s] & Hb & ->).
  apply (H (id, (b, s))); [by apply elem_of_map_to_list|done].
Qed.

Lemma find_some t a k id b s :
  list_find (same t a) (map_to_list (rows t)) = Some (k, (id, (b, s))) →
  b = a ∧ args_of t id = Some a.
Proof.
  intros (Hk & [Hle Hb] & _)%list_find_Some. cbn in *. subst b. split; [done|].
  apply list_elem_of_lookup_2, elem_of_map_to_list in Hk. unfold args_of.
  rewrite (proj2 (Z.leb_le _ _) Hle), Hk. done.
Qed.

#[export] Instance RefRiver_laws : RiverLaws RefRiver.
Proof.
  split; cbn.
  - intros t id a. unfold args_of. case_if; [|done]. by to_props.
  - intros t a q s Hno. unfold insert.
    destruct (list_find _ _) as [[k [id [b sc]]]|] eqn:E.
    { apply find_some in E as [_ E]. by destruct (Hno id). }
    cbn. split_and!; [done|lia|lia|]. intros id. unfold args_of. cbn. case_decide as Hid.
    + subst. rewrite lookup_insert_eq, Z.leb_refl. done.
    + rewrite lookup_insert_ne by done. destruct (id <=? seq t) eqn:E1, (id <=? seq t + 1) eqn:E2;
        to_props; (done || lia).
  - intros t a q s id Hid. unfold insert.
    destruct (list_find _ _) as [[k [id' [b sc]]]|] eqn:E.
    { apply find_some in E as [-> _]. split_and!; done. }
    by destruct (find_none _ _ E id).
  - intros t id id' Hne. unfold args_of. cbn. by rewrite lookup_delete_ne.
  - intros t id. left. unfold args_of. cbn. rewrite lookup_delete_eq. by case_if.
  - done.
  - intros t id id'. unfold args_of. cbn. case_if; [|done].
    destruct (decide (id = id')) as [->|?]; [|by rewrite lookup_alter_ne].
    rewrite lookup_alter_eq. by destruct (rows t !! id') as [[]|].
  - done.
  - intros t a. destruct (list_find (same t a) (map_to_list (rows t))) as [[k [id [b sc]]]|] eqn:E.
    + right. apply find_some in E as [_ ?]. eauto.
    + left. by apply find_none.
Qed.

Definition empty : tables := mkTables ∅ (mkJobs 0 ∅).

End RefRiver.

(** ** Batches *)

(** [o] stands for [s]: the same identity, a schedule at least as early (zero is
    immediate), and a deadline and event time at least as early (zero is none). *)
Definition sooner (o s : time) : Prop := o = 0 ∨ s ≠ 0 ∧ o ≤ s.
Definition tighter (o s : time) : Prop := s ≠ 0 → o ≠ 0 ∧ o ≤ s.

Definition covers (o s : RefreshSpec) : Prop :=
  spec_identity o = spec_identity s ∧ sooner (ScheduledAt o) (ScheduledAt s) ∧
  tighter (Deadline o) (Deadline s) ∧ tighter (EventReceivedAt o) (EventReceivedAt s).

Lemma covers_refl s : covers s s.
Proof. unfold covers, sooner, tighter. split_and!; [done|lia|lia|lia]. Qed.

Lemma tighter_trans a b c : tighter a b → tighter b c → tighter a c.
Proof. unfold tighter. lia. Qed.

Lemma covers_trans a b c : covers a b → covers b c → covers a c.
Proof.
  unfold covers. intros (-> & Hs1 & ? & ?) (-> & Hs2 & ? & ?).
  split_and!; [done| |by eapply tighter_trans..]. unfold sooner in *. lia.
Qed.

Lemma merge_covers d s :
  spec_identity d = spec_identity s → covers (merge_spec d s) d ∧ covers (merge_spec d s) s.
Proof.
  intros Hid. unfold covers. rewrite merge_identity, Hid.
  unfold merge_spec, sooner, tighter, IsZero, Before. cbn [ScheduledAt Deadline EventReceivedAt].
  split; (split_and!; [done| | |]); case_if; to_props;
    repeat match goal with H : (_ && _)%bool = false |- _ => apply andb_false_iff in H as [?|?]
           | H : (_ || _)%bool = true |- _ => apply orb_true_iff in H as [?|?] end; to_props; lia.
Qed.

Lemma dedupe_insert_covers l s x :
  x = s ∨ (∃ o, o ∈ l ∧ covers o x) → ∃ o, o ∈ dedupe_insert l s ∧ covers o x.
Proof.
  induction l as [|d l IH]; cbn [dedupe_insert].
  - intros [->|(o & ?%elem_of_nil & _)]; [|done]. exists s. split; [by left|apply covers_refl].
  - case_decide as Heq.
    + destruct (merge_covers d s Heq) as [Hd Hs]. intros [->|(o & [->|Ho]%elem_of_cons & Hx)].
      * eexists; split; [by left|done].
      * eexists; split; [by left|]. by apply (covers_trans _ _ _ Hd).
      * exists o. split; [by right|done].
    + intros [->|(o & [->|Ho]%elem_of_cons & Hx)].
      * destruct IH as (o & ? & ?); [by left|]. exists o. split; [by right|done].
      * exists d. split; [by left|done].
      * destruct IH as (o' & ? & ?); [by right; eauto|]. exists o'. split; [by right|done].
Qed.

Lemma dedupe_covers ev acc specs out x :
  dedupe ev acc specs = Ok out →
  (∃ o, o ∈ acc ∧ covers o x) ∨ (∃ s, s ∈ specs ∧ x = with_event ev s) →
  ∃ o, o ∈ out ∧ covers o x.
Proof.
  revert acc. induction specs as [|s specs IH]; intros acc; cbn [dedupe].
  - intros [= ->] [?|(s & ?%elem_of_nil & _)]; done.
  - case_if; [done|]. intros Hd Hx. apply (IH _ Hd).
    destruct Hx as [Hx|(s' & [->|Hs]%elem_of_cons & ->)]; [left|left|right; eauto];
      apply dedupe_insert_covers; auto.
Qed.

(** Each timing field of the batch comes from one of its signals. *)
Definition drawn (l : list RefreshSpec) (o : RefreshSpec) : Prop :=
  (∃ s, s ∈ l ∧ spec_identity s = spec_identity o ∧ ScheduledAt s = ScheduledAt o) ∧
  (∃ s, s ∈ l ∧ spec_identity s = spec_identity o ∧ Deadline s = Deadline o) ∧
  (∃ s, s ∈ l ∧ spec_identity s = spec_identity o ∧ EventReceivedAt s = EventReceivedAt o).

Lemma drawn_merge l d s :
  spec_identity d = spec_identity s → drawn l d → s ∈ l → drawn l (merge_spec d s).
Proof.
  unfold drawn. intros Hid (H1 & H2 & H3) Hs. rewrite merge_identity.
  unfold merge_spec. cbn [ScheduledAt Deadline EventReceivedAt].
  split_and!; case_if; eauto.
Qed.

Lemma dedupe_insert_drawn l acc s o :
  (∀ o, o ∈ acc → drawn l o) → s ∈ l → o ∈ dedupe_insert acc s → drawn l o.
Proof.
  induction acc as [|d acc IH]; intros Hacc Hs; cbn [dedupe_insert].
  - intros ->%list_elem_of_singleton. split_and!; exists s; done.
  - case_decide as Heq; intros [->|Ho]%elem_of_cons.
    + apply drawn_merge; [done| |done]. apply Hacc. by left.
    + apply Hacc. by right.
    + apply Hacc. by left.
    + apply IH; [|done..]. intros. apply Hacc. by right.
Qed.

Lemma dedupe_drawn ev l acc specs out o :
  dedupe ev acc specs = Ok out →
  (∀ o, o ∈ acc → drawn l o) → (∀ s, s ∈ specs → with_event ev s ∈ l) → o ∈ out → drawn l o.
Proof.
  revert acc. induction specs as [|s specs IH]; intros acc; cbn [dedupe].
  - intros [= ->]. auto.
  - case_if; [done|]. intros Hd Hacc Hl. apply (IH _ Hd).
    + intros o' Ho'. eapply dedupe_insert_drawn; eauto. apply Hl. by left.
    + intros s' Hs'. apply Hl. by right.
Qed.

(** Coalescing a batch of refresh signals keeps the most urgent timing. When
    the deduplication of [InsertRefreshesTxReturning] succeeds, the result has
    each identity of the batch exactly once; every signal is covered by the kept
    spec of its identity (schedule, deadline and event time at least as early,
    a zero schedule being immediate and a zero deadline none), and every timing
    field kept is that of some signal of the batch for the same identity. *)
Theorem coalesced_batch_most_urgent ev specs out
    (Hok : dedupe ev [] specs = Ok out) :
  NoDup (map spec_identity out) ∧
  (∀ s, s ∈ specs → ∃ o, o ∈ out ∧ covers o (with_event ev s)) ∧
  (∀ o, o ∈ out → drawn (map (with_event ev) specs) o).
Proof.
  split_and!.
  - apply (dedupe_spec ev [] specs); [done|constructor].
  - intros s Hs. apply (dedupe_covers _ _ _ _ _ Hok). right. eauto.
  - intros o. apply (dedupe_drawn _ _ _ _ _ _ Hok).
    + by intros o' ?%elem_of_nil.
    + intros s Hs. apply list_elem_of_fmap. eauto.
Qed.

Lemma coalesced_batch_most_urgent_witness :
  ∃ out, dedupe 7 [] [mkSpec "refresh_pr" "k" 50 0 0; mkSpec "refresh_pr" "k" 0 9 3] = Ok out ∧
         NoDup (map spec_identity out).
Proof.
  eexists. split; [vm_compute; reflexivity|].
  apply (coalesced_batch_most_urgent 7
           [mkSpec "refresh_pr" "k" 50 0 0; mkSpec "refresh_pr" "k" 0 9 3]).
  vm_compute. reflexivity.
Defined.

(** ** The queue theorems *)

Section theorems.
Context `{RL : RiverLaws}.

Lemma desired_in specs s :
  s ∈ specs → ∃ x, desired_schedule specs (spec_identity s) = Some x.
Proof.
  intros Hs. unfold desired_schedule.
  destruct (list_find_elem_of (λ s', spec_identity s' = spec_identity s) specs s Hs eq_refl)
    as [[k s'] ->]. by eexists.
Qed.

Lemma expedite_total specs q ps t t' :
  (∀ p, p ∈ ps → ∃ s, s ∈ specs ∧ args_identity p.1 = spec_identity s) →
  ∃ t2, expedite specs (insert_many q ps t).1 t' = Ok t2.
Proof.
  revert t t'. induction ps as [|[a sc] ps IH]; intros t t' Hps; cbn [insert_many]; [by eexists|].
  destruct (river_insert_cases t a q sc) as [_ Hcases].
  destruct (river_insert a q sc t) as [r t1]. cbn [fst snd] in Hcases.
  assert (∃ t'', expedite_one specs r t' = Ok t'') as [t'' Hone].
  { unfold expedite_one. destruct Hcases as [(_ & _ & -> & ->)|(-> & _)]; cbn [negb]; [|by eexists].
    destruct (Hps (a, sc)) as (s & Hs & Heq); [by left|]. cbn [fst] in Heq. rewrite Heq.
    destruct (desired_in _ _ Hs) as [x ->]. case_if; by eexists. }
  destruct (IH t1 t'') as [t2 Ht2]; [intros p Hp; apply Hps; by right|].
  destruct (insert_many q ps t1) as [rs t3]. exists t2. cbn [fst expedite].
  apply bind_ok. eauto.
Qed.

Lemma dedupe_keys ev acc specs :
  (∃ out, dedupe ev acc specs = Ok out) ↔ ∀ s, s ∈ specs → sp_Key s ≠ "".
Proof.
  revert acc. induction specs as [|s specs IH]; intros acc; cbn [dedupe].
  - split; [by intros _ s ?%elem_of_nil|by eexists].
  - assert (sp_Key (with_event ev s) = sp_Key s) as -> by (unfold with_event; by case_if).
    case_bool_decide as Hk.
    + split; [by intros [? ?]|]. intros H. destruct (H s); [by left|done].
    + rewrite IH. split; [intros H s' [->|?]%elem_of_cons; auto|].
      intros H s' ?. apply H. by right.
Qed.

Lemma params_for_total specs :
  (∀ s, s ∈ specs → sp_Kind s ∈ supported_kinds) → ∃ ps, params_for specs = Ok ps.
Proof.
  induction specs as [|s specs IH]; intros H; [by eexists|]. cbn [params_for].
  destruct IH as [ps Hps]; [intros s' ?; apply H; by right|].
  exists ((mkArgs (sp_Kind s) (sp_Key s) false, ScheduledAt s) :: ps).
  apply bind_ok. eexists. split; [|apply bind_ok; eauto].
  unfold argsForSpec. rewrite bool_decide_true; [done|]. apply H. by left.
Qed.

(** [InsertRefreshesTxReturning] succeeds exactly on batches whose signals
    all have a key and a supported kind, and its effect is exact: it returns one
    entry per distinct identity of the batch, in lock order; each of those
    identities has its generation advanced by one and the returned generation is
    the new one, no other generation and no completed generation changes, and
    every identity of the batch has a live pointer afterwards, as has every
    identity that had one. *)
Theorem insert_refreshes_exact now ev specs q d :
  ((∃ out d', InsertRefreshesTxReturning now ev specs q d = Ok (out, d')) ↔
   ∀ s, s ∈ specs → sp_Key s ≠ "" ∧ sp_Kind s ∈ supported_kinds) ∧
  ∀ out d', InsertRefreshesTxReturning now ev specs q d = Ok (out, d') →
  NoDup (out_ids out) ∧
  (∀ i, i ∈ out_ids out ↔ i ∈ map spec_identity specs) ∧
  Sorted spec_le (map rg_Spec out) ∧
  (∀ r, r ∈ out → rg_Generation r = current_generation (gens d') (spec_identity (rg_Spec r))) ∧
  (∀ i, completed (gens d') i = completed (gens d) i) ∧
  (∀ i, current_generation (gens d') i =
        current_generation (gens d) i + if decide (i ∈ out_ids out) then 1 else 0) ∧
  (∀ i, live (river d) i ∨ i ∈ out_ids out → live (river d') i).
Proof.
  split; [split|].
  - intros (out & d' & H) s Hs. split.
    + destruct specs as [|s0 specs]; [by apply elem_of_nil in Hs|].
      apply bind_ok in H as (ded & Hded & _). eapply (proj1 (dedupe_keys ev [] (s0 :: specs))); eauto.
    + apply insert_refreshes_effect in H as (_ & Hids & _ & Hk & _).
      apply (Hk (spec_identity s)), Hids, list_elem_of_fmap. eauto.
  - intros Hall. unfold InsertRefreshesTxReturning. destruct specs as [|s0 specs]; [eauto|].
    destruct (proj2 (dedupe_keys ev [] (s0 :: specs))) as [ded Hded]; [intros; by apply Hall|].
    rewrite Hded. cbn [mbind result_bind].
    destruct (dedupe_spec _ _ _ _ Hded NoDup_nil_2) as [_ Hin].
    destruct (params_for_total (sort_specs ded)) as [ps Hps].
    { intros s Hs. assert (spec_identity s ∈ map spec_identity ded) as Hi.
      { rewrite <- sort_specs_elem. apply list_elem_of_fmap. eauto. }
      apply Hin in Hi as [Hi|(s' & Heq & Hs')%list_elem_of_fmap]; [by apply elem_of_nil in Hi|].
      destruct (Hall s' Hs') as [_ Hk]. unfold spec_identity in Heq. by simplify_eq/=; congruence. }
    rewrite Hps. cbn [mbind result_bind].
    destruct (expedite_total (sort_specs ded) q ps (river d) (insert_many q ps (river d)).2)
      as [t2 Ht2].
    { apply params_for_ok in Hps as [-> _]. intros p (s & -> & Hs)%list_elem_of_fmap. eauto. }
    destruct (insert_many q ps (river d)) as [ins t1]. cbn in Ht2. rewrite Ht2. cbn. eauto.
  - intros out d' (? & ? & ? & ? & ? & ? & ? & ? & ?)%insert_refreshes_effect. done.
Qed.

(** C3. No refresh signal is lost. In every state that producers, workers, branch
    bulks, reconcilers and River reach by interleaving their transactions, worker
    crashes and attempts run twice included, an identity with a signal that no
    finished fetch covers has a live River job pointing at it, unless River itself
    ended its pointer (discarded or cancelled it) since the last insertion for
    that identity. *)
Theorem no_lost_signal st i
    (Hreach : queue_reachable st) (Hout : outstanding (gens (db st)) i) :
  live (river (db st)) i ∨ i ∈ terminated st.
Proof. by apply (qi_live _ (queue_reachable_inv _ Hreach)). Qed.

(** A completion covers exactly what its attempt saw. For an attempt started
    at generation [started], [completeRefresh] raises the completed generation to
    [started] if it was lower and changes no generation; the identity stays
    outstanding exactly when a signal arrived after the start that nothing else
    completed, and then the follow-up pointer is live in the same transaction;
    other identities keep their rows. *)
Theorem complete_refresh_exact now id a q started d
    (Hstarted : 0 ≤ started ≤ current_generation (gens d) (args_identity a))
    (Hrows : ∀ i, 0 ≤ completed (gens d) i ≤ current_generation (gens d) i) :
  let d' := completeRefresh now id a q started d in
  let i := args_identity a in
  (∀ j, current_generation (gens d') j = current_generation (gens d) j) ∧
  completed (gens d') i = Z.max (completed (gens d) i) started ∧
  (∀ j, j ≠ i → completed (gens d') j = completed (gens d) j) ∧
  (outstanding (gens d') i ↔
     started < current_generation (gens d) i ∧ completed (gens d) i < current_generation (gens d) i) ∧
  (outstanding (gens d') i → live (river d') i).
Proof.
  destruct (complete_refresh_effect now id a q started d Hstarted) as (Hg & Hci & Hcj & _ & Hl & _);
    [intros; apply Hrows|].
  cbv zeta. split_and!; try done.
  unfold outstanding. rewrite Hg, Hci. specialize (Hrows (args_identity a)). lia.
Qed.

Lemma reinsert_ok i q d :
  outstanding (gens d) i → i.1 ∈ supported_kinds →
  ∃ replaced, (reinsertRefreshPointer i q d).1
              = Ok (replaced, current_generation (gens d) i) ∧
    (replaced = true ↔ ∀ id, job_args (river d) id ≠ Some (mkArgs i.1 i.2 false)).
Proof.
  intros Ho Hk. unfold reinsertRefreshPointer, argsForSpec. cbn [sp_Kind sp_Key].
  rewrite bool_decide_true by done. unfold outstanding in Ho.
  rewrite (proj2 (Z.leb_gt _ _) Ho).
  destruct (river_insert_cases (river d) (mkArgs i.1 i.2 false) q zero_time) as [_ Hc].
  destruct (river_insert _ q zero_time (river d)) as [r t1]. cbn [fst snd] in Hc |- *.
  exists (negb (UniqueSkippedAsDuplicate r)). split; [done|].
  destruct Hc as [(_ & [id Hid] & -> & _)|(-> & Hno & _)]; [|done].
  split; [done|]. intros Hno. by destruct (Hno id).
Qed.

Lemma reconcile_rows_effect rows q res d :
  (∀ i, i ∈ rows → outstanding (gens d) i ∧ i.1 ∈ supported_kinds) →
  (∀ i, 0 ≤ completed (gens d) i) →
  ∃ res' d', reconcile_rows rows q res d = (Ok res', d') ∧ gens d' = gens d ∧
    (∀ j, live (river d) j ∨ j ∈ rows → live (river d') j) ∧
    Scanned res' = Scanned res ∧
    Delayed res' + Z.of_nat (length (Orphans res')) =
      Delayed res + Z.of_nat (length (Orphans res)) + Z.of_nat (length rows) ∧
    (∀ p, p ∈ Orphans res' → p ∈ Orphans res ∨
       p.1 ∈ rows ∧ p.2 = current_generation (gens d) p.1).
Proof.
  revert res d. induction rows as [|i rows IH]; intros res d Hrows Hc; cbn [reconcile_rows].
  { exists res, d. split_and!; [done..| |done|cbn;lia|by left]. intros j [?|?%elem_of_nil]; done. }
  destruct (Hrows i) as [Hoi Hki]; [by left|].
  destruct (reinsert_ok i q d Hoi Hki) as (repl & Hre & _).
  destruct (reinsertRefreshPointer i q d) as [r1 d1] eqn:E. cbn in Hre. subst r1.
  apply reinsert_effect in E as (Hg & _ & Hm & Hl).
  assert (Hpos : (current_generation (gens d) i =? 0) = false).
  { apply Z.eqb_neq. specialize (Hc i). unfold outstanding in Hoi. lia. }
  rewrite Hpos. set (res1 := if negb repl then _ else _).
  destruct (IH res1 d1) as (res' & d' & Hrec & Hg' & Hm' & Hsc & Hcount & Horph).
  { intros j Hj. rewrite Hg. apply Hrows. by right. }
  { intros j. rewrite Hg. apply Hc. }
  exists res', d'. rewrite Hrec, Hg', Hg. split_and!; [done..| | | |].
  - intros j [?|[->|?]%elem_of_cons]; apply Hm'; auto.
  - rewrite Hsc. subst res1. by case_if.
  - rewrite Hcount. subst res1. destruct repl; cbn [negb Delayed Orphans];
      rewrite ?length_app; cbn [length]; lia.
  - intros p Hp. destruct (Horph p Hp) as [Hp1|[Hp1 Hp2]].
    + subst res1. destruct repl; cbn [negb Orphans] in Hp1; [|by left].
      rewrite elem_of_app, list_elem_of_singleton in Hp1. destruct Hp1 as [?|Hp1]; [by left|right].
      subst p. split; [by left|done].
    + right. rewrite <- Hg. split; [by right|done].
Qed.

Lemma list_outstanding_sound g stale n i :
  i ∈ ListOutstandingRefreshIntentGenerations g stale n → outstanding g i.
Proof.
  unfold ListOutstandingRefreshIntentGenerations.
  intros ([u i'] & -> & Hi)%list_elem_of_fmap.
  apply elem_of_take in Hi as (k & Hi%list_elem_of_lookup_2 & _).
  rewrite merge_sort_Permutation in Hi.
  apply list_elem_of_fmap in Hi as ([j r] & [= -> ->] & ([Hlt _] & Hr%elem_of_map_to_list)%list_elem_of_filter).
  cbn in *. unfold outstanding, completed, current_generation. by rewrite Hr.
Qed.

(** All stale rows fit the batch when it is as large as the table. *)
Lemma list_outstanding_complete g stale n i r :
  Z.of_nat (size g) ≤ n → g !! i = Some r →
  completed_generation r < generation r → updated_at r ≤ stale →
  i ∈ ListOutstandingRefreshIntentGenerations g stale n.
Proof.
  intros Hn Hr Ho Hu. unfold ListOutstandingRefreshIntentGenerations.
  apply list_elem_of_fmap. exists (updated_at r, i). split; [done|].
  rewrite take_ge.
  - rewrite merge_sort_Permutation. apply list_elem_of_fmap. exists (i, r). split; [done|].
    apply list_elem_of_filter. split; [done|]. by apply elem_of_map_to_list.
  - rewrite (Permutation_length (merge_sort_Permutation _ _)), length_map.
    etransitivity; [apply length_filter|]. rewrite length_map_to_list. lia.
Qed.

(** Orphan reconciliation restores liveness. In every reachable state a pass
    with a positive batch limit succeeds, whatever the rows; it changes no
    generation; afterwards every scanned identity has a live pointer, and with a
    batch at least as large as the table every stale outstanding identity has
    one; the identities scanned are counted once each, as delayed or as
    orphans, and the orphans reported carry their current generation. *)
Theorem reconcile_restores_liveness st stale limit q
    (Hreach : queue_reachable st) (Hlimit : 0 < limit) :
  let rows := ListOutstandingRefreshIntentGenerations (gens (db st)) stale limit in
  ∃ res d',
    ReconcileOrphanedRefreshPointers stale limit q (db st) = (Ok res, d') ∧
    gens d' = gens (db st) ∧
    (∀ i, i ∈ rows → live (river d') i) ∧
    (∀ i, live (river (db st)) i → live (river d') i) ∧
    (Z.of_nat (size (gens (db st))) ≤ limit →
     ∀ i r, gens (db st) !! i = Some r → completed_generation r < generation r →
            updated_at r ≤ stale → live (river d') i) ∧
    Scanned res = Z.of_nat (length rows) ∧
    Delayed res + Z.of_nat (length (Orphans res)) = Scanned res ∧
    (∀ p, p ∈ Orphans res → p.1 ∈ rows ∧ p.2 = current_generation (gens (db st)) p.1).
Proof.
  apply queue_reachable_inv in Hreach as [Hr _ _ Hk]. cbv zeta.
  unfold ReconcileOrphanedRefreshPointers. rewrite (proj2 (Z.leb_gt _ _) Hlimit).
  set (rows := ListOutstandingRefreshIntentGenerations _ _ _).
  destruct (reconcile_rows_effect rows q (mkReconciled (Z.of_nat (length rows)) 0 []) (db st))
    as (res & d' & Hrec & Hg & Hl & Hsc & Hcount & Horph).
  { intros i Hi%list_outstanding_sound. auto. }
  { intros i. apply Hr. }
  exists res, d'. cbn in Hsc, Hcount. split_and!; auto; try lia.
  - intros Hsize i r Hi Ho Hu. apply Hl. right. by eapply list_outstanding_complete.
  - intros p Hp. destruct (Horph p Hp) as [?%elem_of_nil|?]; done.
Qed.

End theorems.

(** ** Witnesses, on the reference River *)

#[local] Existing Instances RefRiver.RefRiver RefRiver.RefRiver_laws.

(** One pull-request signal, then a second one while a worker runs. *)
Definition example_spec : RefreshSpec := mkSpec KindRefreshPR "pr:o/r:7" 0 90 5.

Definition example_insert (now : time) (st : queue_state) : queue_state :=
  match InsertRefreshesTxReturning now 0 [example_spec; example_spec] "event" (db st) with
  | Ok (out, d') => serve (map (spec_identity ∘ rg_Spec) out) d' st
  | Err _ => st
  end.

Definition example_start : queue_state := mkQueue RefRiver.empty [] [].

Definition example_args : RefreshArgs := mkArgs KindRefreshPR "pr:o/r:7" false.

Definition example_running : queue_state :=
  let st := example_insert 10 example_start in
  mkQueue (db st)
    [mkAttempt 1 example_args "event"
       (current_generation (gens (db st)) (args_identity example_args))
       (gens (db st) !! args_identity example_args ≫= deadline_at)]
    (terminated st).

Definition example_dirty : queue_state := example_insert 20 example_running.

Lemma example_insert_reachable now st :
  queue_reachable st → queue_reachable (example_insert now st).
Proof.
  intros H. unfold example_insert.
  destruct (InsertRefreshesTxReturning _ _ _ _ _) as [[out d']|e] eqn:E; [|done].
  eapply reach_step; [exact H|]. by apply (step_produce _ now 0 [example_spec; example_spec] "event").
Qed.

Lemma example_dirty_reachable : queue_reachable example_dirty.
Proof.
  apply example_insert_reachable. eapply reach_step.
  - apply (example_insert_reachable 10 example_start), reach_init.
  - apply (step_start (example_insert 10 example_start) 1 example_args "event").
    vm_compute. reflexivity.
Qed.

Lemma insert_refreshes_exact_witness :
  ∃ out d', InsertRefreshesTxReturning 10 0 [example_spec; example_spec] "event" RefRiver.empty
            = Ok (out, d') ∧
    current_generation (gens d') (spec_identity example_spec) =
    0 + if decide (spec_identity example_spec ∈ out_ids out) then 1 else 0.
Proof.
  destruct (insert_refreshes_exact 10 0 [example_spec; example_spec] "event" RefRiver.empty)
    as [Hok Heff].
  destruct (proj2 Hok) as (out & d' & H).
  - intros s Hs. rewrite !elem_of_cons in Hs.
    destruct Hs as [->|[->|Hs%elem_of_nil]]; [..|done]; (split; [done|by vm_compute; left]).
  - exists out, d'. split; [exact H|]. destruct (Heff out d' H) as (_ & _ & _ & _ & _ & Hg & _). apply Hg.
Defined.

Lemma no_lost_signal_witness :
  live (river (db example_dirty)) (KindRefreshPR, "pr:o/r:7") ∨
  (KindRefreshPR, "pr:o/r:7") ∈ terminated example_dirty.
Proof.
  apply (no_lost_signal example_dirty); [apply example_dirty_reachable|by vm_compute].
Defined.

Lemma complete_refresh_exact_witness :
  let d' := completeRefresh 30 1 (mkArgs KindRefreshPR "pr:o/r:7" false) "event" 1
              (db example_dirty) in
  completed (gens d') (KindRefreshPR, "pr:o/r:7") = 1 ∧
  live (river d') (KindRefreshPR, "pr:o/r:7").
Proof.
  destruct (complete_refresh_exact 30 1 (mkArgs KindRefreshPR "pr:o/r:7" false) "event" 1
              (db example_dirty)) as (_ & Hc & _ & Ho & Hl).
  - by vm_compute.
  - apply (qi_rows _ (queue_reachable_inv _ example_dirty_reachable)).
  - split; [exact Hc|]. apply Hl, Ho. by vm_compute.
Defined.

Lemma reconcile_restores_liveness_witness :
  ∃ res d', ReconcileOrphanedRefreshPointers 100 5 "reconcile" (db example_dirty) = (Ok res, d') ∧
            Scanned res = 1 ∧ gens d' = gens (db example_dirty).
Proof.
  destruct (reconcile_restores_liveness example_dirty 100 5 "reconcile")
    as (res & d' & H1 & H2 & _ & _ & _ & H3 & _).
  - apply example_dirty_reachable.
  - lia.
  - exists res, d'. split_and!; [exact H1| |exact H2]. rewrite H3. by vm_compute.
Defined.
