(* ===== verification/Stream.v ===== *)
(** * The change-event outbox and its visibility watermark

    [internal/outbox/outbox.go] (the writer fence), [internal/stream/watermark.go]
    (the leased watermarker), [internal/stream/retention.go] (pruning), with the
    SQL of [internal/store/dbgen/stream.sql.go]. The consumer's side is in the file
    [StreamClient].

    Sequences are allocated by transactions that may commit in another order or
    not at all; consumers read only up to the published [safe_seq]. The steps of
    [stream_step] are the statements of the participants in any interleaving. *)

From Stdlib Require Import ZArith Lia Bool Ascii String.
From stdpp Require Import base list strings gmap sets numbers sorting.
From S2P Require Import Prelude GoStrings.

Local Open Scope Z_scope.

(** ** Rows *)

(** [change_events], the envelope of [streamclient.Event]. *)
Record Event : Type := mkEvent {
  Seq : Z;
  ev_Stream : string;
  ev_Kind : string;
  EntityKey : string;
  OccurredAt : time;
  Payload : string
}.

#[export] Instance Event_eq_dec : EqDecision Event.
Proof. solve_decision. Defined.

(** [stream_watermark], one row. *)
Record watermark : Type := mkWatermark {
  safe_seq : Z;
  lease_token : option string;
  lease_until : option time
}.

(** [consumer_cursors]. *)
Record cursor_row : Type := mkCursor {
  cur_seq : Z;
  resync_count : Z
}.

Abbreviation cursor_id := (string * string)%type.

(** The durable tables of the stream. *)
Record stream_tables : Type := mkStream {
  change_events : gmap Z Event;
  stream_watermark : watermark;
  stream_horizons : gmap string Z;
  consumer_cursors : gmap cursor_id cursor_row
}.

Definition set_watermark (w : watermark) (d : stream_tables) : stream_tables :=
  mkStream (change_events d) w (stream_horizons d) (consumer_cursors d).

(** ** The watermark lease *)

(** [AcquireOrRenewStreamWatermarkLease]: [None] when no row matched. *)
Definition AcquireOrRenewStreamWatermarkLease (token : string) (ttl : duration) (now : time)
    (w : watermark) : option watermark :=
  if bool_decide (lease_token w = None)
     || match lease_until w with Some u => u <=? now | None => false end
     || bool_decide (lease_token w = Some token)
  then Some (mkWatermark (safe_seq w) (Some token) (Some (now + ttl)))
  else None.

(** The lease test shared by the fenced read and the publication. *)
Definition lease_valid (token : string) (now : time) (w : watermark) : bool :=
  bool_decide (lease_token w = Some token)
  && match lease_until w with Some u => now <? u | None => false end.

(** [max(seq)] of the committed events, 0 when there are none. *)
Definition max_seq (events : gmap Z Event) : Z :=
  foldr Z.max 0 (map fst (map_to_list events)).

(** [ReadStreamWatermarkTarget]: prior, target and lease validity. *)
Definition ReadStreamWatermarkTarget (token : string) (now : time) (d : stream_tables)
    : Z * Z * bool :=
  (safe_seq (stream_watermark d), max_seq (change_events d),
   lease_valid token now (stream_watermark d)).

(** [PublishStreamWatermark]: [None] when no row matched. *)
Definition PublishStreamWatermark (safe : Z) (token : string) (now : time) (w : watermark)
    : option watermark :=
  if lease_valid token now w && (safe_seq w <? safe)
  then Some (mkWatermark safe (lease_token w) (lease_until w)) else None.

(** [ReleaseStreamWatermarkLease], of [release] and [Close]. *)
Definition ReleaseStreamWatermarkLease (token : string) (w : watermark) : watermark :=
  if bool_decide (lease_token w = Some token) then mkWatermark (safe_seq w) None None else w.

(** ** The watermarker *)

Inductive watermark_error : Type :=
  | ErrLeaseHeld
  | ErrFenceLockTimeoutNegative
  | ErrRefreshTooSlow.

Record WatermarkOptions : Type := mkWatermarkOptions {
  RefreshInterval : duration;
  LeaseTTL : duration;
  FenceLockTimeout : duration
}.

Definition defaultWatermarkRefresh : duration := 100 * 1000000.
Definition defaultWatermarkLease : duration := 3 * Second.
Definition defaultWatermarkFenceLockTimeout : duration := Second.

(** The options of [NewWatermarker], normalised and validated. Go's integer
    division truncates, and the lease is positive here. *)
Definition NewWatermarker (o : WatermarkOptions) : result watermark_error WatermarkOptions :=
  let refresh := if RefreshInterval o <=? 0 then defaultWatermarkRefresh else RefreshInterval o in
  let ttl := if LeaseTTL o <=? 0 then defaultWatermarkLease else LeaseTTL o in
  let fence := if FenceLockTimeout o =? 0 then defaultWatermarkFenceLockTimeout
               else FenceLockTimeout o in
  if fence <? 0 then Err ErrFenceLockTimeoutNegative
  else if Z.quot ttl 2 <=? refresh then Err ErrRefreshTooSlow
  else Ok (mkWatermarkOptions refresh ttl fence).

Record WatermarkProgress : Type := mkProgress {
  pr_SafeSeq : Z;
  pr_MaxSeq : Z;
  Advanced : bool;
  FenceTimedOut : bool
}.

(** [Step] with no other transaction in between: the lease statement at [now1],
    the fenced read at [now2] and the publication at [now3]. [fence] says whether
    the exclusive fence was obtained before the lock timeout. *)
Definition Step (token : string) (ttl : duration) (now1 now2 now3 : time) (fence : bool)
    (d : stream_tables) : result watermark_error WatermarkProgress * stream_tables :=
  match AcquireOrRenewStreamWatermarkLease token ttl now1 (stream_watermark d) with
  | None => (Err ErrLeaseHeld, d)
  | Some w1 =>
      let d1 := set_watermark w1 d in
      if negb fence then (Ok (mkProgress 0 0 false true), d1)
      else
        let '(prior, target, valid) := ReadStreamWatermarkTarget token now2 d1 in
        if negb valid then (Err ErrLeaseHeld, d1)
        else if prior <? target then
          match PublishStreamWatermark target token now3 w1 with
          | None => (Err ErrLeaseHeld, d1)
          | Some w2 =>
              (Ok (mkProgress (safe_seq w2) target (prior <? safe_seq w2) false),
               set_watermark w2 d)
          end
        else (Ok (mkProgress prior target false false), d1)
  end.

(** ** Retention *)

Definition doomed_le (a b : Event) : Prop :=
  OccurredAt a < OccurredAt b ∨ OccurredAt a = OccurredAt b ∧ Seq a ≤ Seq b.

#[export] Instance doomed_le_dec : RelDecision doomed_le.
Proof. intros a b. unfold doomed_le. apply _. Defined.

(** The rows a batch deletes; [locked] are the rows another transaction holds,
    which [SKIP LOCKED] passes over. *)
Definition doomed (cutoff : time) (batch : nat) (locked : gset Z) (d : stream_tables)
    : list Event :=
  take batch
    (merge_sort doomed_le
       (filter (λ e, OccurredAt e < cutoff ∧ Seq e ≤ safe_seq (stream_watermark d) ∧
                     Seq e ∉ locked)
          (map snd (map_to_list (change_events d))))).

Definition advance_horizon (h : gmap string Z) (e : Event) : gmap string Z :=
  <[ev_Stream e := match h !! ev_Stream e with
                   | Some p => Z.max p (Seq e)
                   | None => Seq e
                   end]> h.

(** [PruneChangeEvents]: the tables and the number of rows deleted. *)
Definition PruneChangeEvents (cutoff : time) (batch : Z) (locked : gset Z) (d : stream_tables)
    : Z * stream_tables :=
  let rows := doomed cutoff (Z.to_nat batch) locked d in
  (Z.of_nat (length rows),
   mkStream (foldl (λ m e, delete (Seq e) m) (change_events d) rows) (stream_watermark d)
     (foldl advance_horizon (stream_horizons d) rows) (consumer_cursors d)).

(** The loop of [Prune], which runs batches until one is short. *)
Fixpoint prune_loop (fuel : nat) (cutoff : time) (batch total : Z) (d : stream_tables)
    : option (Z * stream_tables) :=
  match fuel with
  | O => None
  | S fuel =>
      let '(deleted, d1) := PruneChangeEvents cutoff batch ∅ d in
      if deleted <? batch then Some (total + deleted, d1)
      else prune_loop fuel cutoff batch (total + deleted) d1
  end.

Definition Prune (now : time) (age : duration) (batch : Z) (d : stream_tables)
    : option (Z * stream_tables) :=
  prune_loop (S (size (change_events d))) (now - age) batch 0 d.

Inductive retention_error : Type :=
  | RetentionAgeTooShort
  | RetentionPeriodInvalid
  | RetentionBatchInvalid.

Definition minimumRetentionAge : duration := 7 * 24 * 3600 * Second.

Definition NewRetention (age period batch : Z) : result retention_error unit :=
  if age <? minimumRetentionAge then Err RetentionAgeTooShort
  else if period <=? 0 then Err RetentionPeriodInvalid
  else if batch <=? 0 then Err RetentionBatchInvalid
  else Ok tt.

(** ** Consumer cursors *)

Definition get_cursor (d : stream_tables) (c : cursor_id) : option cursor_row :=
  consumer_cursors d !! c.

Definition set_cursor (c : cursor_id) (row : cursor_row) (d : stream_tables) : stream_tables :=
  mkStream (change_events d) (stream_watermark d) (stream_horizons d)
    (<[c := row]> (consumer_cursors d)).

(** [EnsureConsumerCursor]. *)
Definition EnsureConsumerCursor (c : cursor_id) (d : stream_tables) : stream_tables :=
  match consumer_cursors d !! c with
  | Some _ => d
  | None => set_cursor c (mkCursor 0 0) d
  end.

(** [GetConsumerCursorForUpdate], after the row was ensured. *)
Definition cursor_of (d : stream_tables) (c : cursor_id) : cursor_row :=
  default (mkCursor 0 0) (consumer_cursors d !! c).

(** [UpdateConsumerCursor]. *)
Definition UpdateConsumerCursor (s : Z) (c : cursor_id) (d : stream_tables) : stream_tables :=
  match consumer_cursors d !! c with
  | Some row => set_cursor c (mkCursor s (resync_count row)) d
  | None => d
  end.

(** [RecordConsumerResync]. *)
Definition RecordConsumerResync (c : cursor_id) (d : stream_tables) : stream_tables :=
  match consumer_cursors d !! c with
  | Some row => set_cursor c (mkCursor (cur_seq row) (resync_count row + 1)) d
  | None => d
  end.

(** [GetStreamPrunedThroughSequence]. *)
Definition pruned_through (d : stream_tables) (stream : string) : Z :=
  default 0 (stream_horizons d !! stream).

Definition seq_le (a b : Event) : Prop := Seq a ≤ Seq b.

#[export] Instance seq_le_dec : RelDecision seq_le.
Proof. intros a b. unfold seq_le. apply _. Defined.

(** The events of a stream in a sequence interval, in order. *)
Definition events_between (events : gmap Z Event) (stream : string) (after through : Z)
    : list Event :=
  merge_sort seq_le
    (filter (λ e, ev_Stream e = stream ∧ after < Seq e ∧ Seq e ≤ through)
       (map snd (map_to_list events))).

(** [PageChangeEvents]. *)
Definition PageChangeEvents (stream : string) (after through page : Z) (d : stream_tables)
    : list Event :=
  take (Z.to_nat page) (events_between (change_events d) stream after through).

(** ** Lemmas *)

(** Rows are stored under their sequence. *)
Definition keyed (m : gmap Z Event) : Prop := ∀ q e, m !! q = Some e → Seq e = q.

Lemma rows_elem (m : gmap Z Event) e : keyed m → e ∈ map snd (map_to_list m) ↔ m !! Seq e = Some e.
Proof.
  intros Hk. rewrite list_elem_of_fmap. split.
  - intros ([q e'] & -> & H%elem_of_map_to_list). cbn. by rewrite (Hk _ _ H).
  - intros H. exists (Seq e, e). split; [done|]. by apply elem_of_map_to_list.
Qed.

Lemma rows_seqs (m : gmap Z Event) :
  keyed m → map Seq (map snd (map_to_list m)) = map fst (map_to_list m).
Proof.
  intros Hk. rewrite map_map. apply map_ext_in. intros [q e] Hin%list_elem_of_In.
  apply Hk. by apply elem_of_map_to_list.
Qed.

Lemma rows_NoDup (m : gmap Z Event) : keyed m → NoDup (map Seq (map snd (map_to_list m))).
Proof. intros Hk. rewrite rows_seqs by done. apply NoDup_fst_map_to_list. Qed.

#[export] Instance seq_le_total : Total seq_le.
Proof. intros a b. unfold seq_le. lia. Qed.
#[export] Instance seq_le_trans : Transitive seq_le.
Proof. intros a b c. unfold seq_le. lia. Qed.
#[export] Instance doomed_le_total : Total doomed_le.
Proof. intros a b. unfold doomed_le. lia. Qed.
#[export] Instance doomed_le_trans : Transitive doomed_le.
Proof. intros a b c. unfold doomed_le. lia. Qed.

Lemma events_between_elem m s a t e :
  keyed m →
  e ∈ events_between m s a t ↔ m !! Seq e = Some e ∧ ev_Stream e = s ∧ a < Seq e ≤ t.
Proof.
  intros Hk. unfold events_between.
  rewrite merge_sort_Permutation, list_elem_of_filter, rows_elem by done. tauto.
Qed.

Lemma NoDup_map_filter {A} (f : A → Z) (P : A → Prop) `{!∀ x, Decision (P x)} (l : list A) :
  NoDup (map f l) → NoDup (map f (filter P l)).
Proof.
  induction l as [|x l IH]; cbn [map]; [done|]. rewrite NoDup_cons. intros [Hx Hl].
  rewrite filter_cons. case_decide; [|by apply IH]. cbn [map]. apply NoDup_cons. split; [|by apply IH].
  intros (y & Hy & [_ ?]%list_elem_of_filter)%list_elem_of_fmap. apply Hx. rewrite Hy.
  apply list_elem_of_fmap. eauto.
Qed.

Lemma events_between_sorted m s a t :
  keyed m → StronglySorted Z.lt (map Seq (events_between m s a t)).
Proof.
  intros Hk. apply sorted_le_lt.
  - unfold events_between. rewrite merge_sort_Permutation.
    by apply NoDup_map_filter, rows_NoDup.
  - apply (StronglySorted_fmap Seq seq_le); [done|]. apply StronglySorted_merge_sort; apply _.
Qed.

Lemma max_seq_bound m q e : m !! q = Some e → q ≤ max_seq m.
Proof.
  intros H%elem_of_map_to_list. unfold max_seq.
  assert (q ∈ map fst (map_to_list m)) as Hq by (apply list_elem_of_fmap; by exists (q, e)).
  induction (map fst (map_to_list m)) as [|x l IH]; [by apply elem_of_nil in Hq|].
  cbn. apply elem_of_cons in Hq as [->|?]; [lia|]. specialize (IH H0). lia.
Qed.

Lemma max_seq_attained m : max_seq m = 0 ∨ ∃ e, m !! max_seq m = Some e.
Proof.
  unfold max_seq. assert (∀ l, foldr Z.max 0 l = 0 ∨ foldr Z.max 0 l ∈ l) as H.
  { induction l as [|x l [IH|IH]]; [by left| |]; cbn [foldr]; rewrite elem_of_cons;
      destruct (Z.max_spec x (foldr Z.max 0 l)) as [[? ->]|[? ->]]; auto. }
  destruct (H (map fst (map_to_list m))) as [?|H']; [by left|right].
  apply list_elem_of_fmap in H' as ([q e] & -> & ?%elem_of_map_to_list). by exists e.
Qed.

(** *** What a pruning batch does *)

Lemma doomed_elem cutoff n locked d e :
  keyed (change_events d) → e ∈ doomed cutoff n locked d →
  change_events d !! Seq e = Some e ∧ OccurredAt e < cutoff ∧
  Seq e ≤ safe_seq (stream_watermark d) ∧ Seq e ∉ locked.
Proof.
  unfold doomed. intros Hk (k & Hi%list_elem_of_lookup_2 & _)%elem_of_take.
  rewrite merge_sort_Permutation, list_elem_of_filter, rows_elem in Hi by done. tauto.
Qed.

Lemma delete_rows_lookup (l : list Event) (m : gmap Z Event) q :
  foldl (λ m e, delete (Seq e) m) m l !! q = if decide (q ∈ map Seq l) then None else m !! q.
Proof.
  revert m. induction l as [|e l IH]; intros m; cbn [foldl map].
  - by rewrite decide_False by apply not_elem_of_nil.
  - rewrite IH. destruct (decide (q ∈ map Seq l)) as [Hq|Hq].
    + rewrite decide_True; [done|]. by right.
    + destruct (decide (q = Seq e)) as [->|Hne].
      * rewrite lookup_delete_eq, decide_True; [done|by left].
      * rewrite lookup_delete_ne by done. rewrite decide_False; [done|].
        rewrite elem_of_cons. tauto.
Qed.

Lemma horizons_fold l h s :
  let h' := foldl advance_horizon h l in
  (∀ p, h !! s = Some p → ∃ p', h' !! s = Some p' ∧ p ≤ p') ∧
  (∀ e, e ∈ l → ev_Stream e = s → ∃ p', h' !! s = Some p' ∧ Seq e ≤ p') ∧
  (∀ p', h' !! s = Some p' → h !! s = Some p' ∨ ∃ e, e ∈ l ∧ ev_Stream e = s ∧ Seq e = p').
Proof.
  cbv zeta. revert h. induction l as [|e l IH]; intros h; cbn [foldl].
  { split_and!; [eauto using Z.le_refl|by intros e ?%elem_of_nil|by left]. }
  destruct (IH (advance_horizon h e)) as (H1 & H2 & H3).
  assert (Hadv : advance_horizon h e !! s =
    if decide (ev_Stream e = s)
    then Some match h !! s with Some p => Z.max p (Seq e) | None => Seq e end else h !! s).
  { unfold advance_horizon. case_decide; [subst; by rewrite lookup_insert_eq|by rewrite lookup_insert_ne]. }
  rewrite Hadv in H1, H3. split_and!.
  - intros p Hp. rewrite Hp in H1. case_decide; [|by apply H1].
    destruct (H1 _ eq_refl) as (p' & ? & ?). exists p'. split; [done|lia].
  - intros e' [->|He']%elem_of_cons Hs; [|by apply (H2 e')]. rewrite decide_True in H1 by done.
    destruct (H1 _ eq_refl) as (p' & ? & Hp'). exists p'. split; [done|].
    destruct (h !! s); lia.
  - intros p' Hp'. destruct (H3 p' Hp') as [Hc|(e' & ? & ? & ?)].
    + case_decide as Hs; [|by left]. destruct (h !! s) as [p|] eqn:Eh.
      * destruct (Z.max_spec p (Seq e)) as [[? Hm]|[? Hm]]; rewrite Hm in Hc; simplify_eq.
        -- right. exists e. split_and!; [by left|done|done].
        -- by left.
      * simplify_eq. right. exists e. split_and!; [by left|done|done].
    + right. exists e'. split_and!; [by right|done|done].
Qed.
