(* ===== verification/StreamClient.v ===== *)
(** * The stream consumer and the interleavings of the stream

    [pkg/streamclient/streamclient.go] with the SQL of
    [internal/store/dbgen/streamclient.sql.go]: delivery of pages inside the
    cursor transaction, bootstrap snapshots, error classification and the page
    loop of [Tail]; then the step relation of the whole stream, with writers,
    watermarkers, pruners and consumers. *)

From Stdlib Require Import ZArith Lia Bool Ascii String.
From stdpp Require Import base list strings gmap sets numbers sorting.
From S2P Require Import Prelude GoStrings Stream.

Local Open Scope Z_scope.

(** ** Pages *)

Inductive page_error (E : Type) : Type :=
  | ErrResyncRequired (cursor prunedThrough : Z)
  | tailHandlerError (seq : Z) (cause : E)
  | NegativePageSize.
Arguments ErrResyncRequired {E} cursor prunedThrough.
Arguments tailHandlerError {E} seq cause.
Arguments NegativePageSize {E}.

Section pages.
(** The consumer's projection, which its handler writes in the page's
    transaction. *)
Context {P E : Type} (handler : P → Event → result E P).

(** The delivery loop: the projection after the page, or the first failure. *)
Fixpoint run_handler (events : list Event) (p : P) : result (page_error E) P :=
  match events with
  | [] => Ok p
  | e :: events =>
      match handler p e with
      | Err cause => Err (tailHandlerError (Seq e) cause)
      | Ok p => run_handler events p
      end
  end.

(** [deliverPage]: one repeatable-read transaction that holds the cursor's row
    lock. An error other than RESYNC_REQUIRED rolls everything back. *)
Definition deliverPage (batchSize : Z) (c : cursor_id) (st : stream_tables * P)
    : result (page_error E) Z * (stream_tables * P) :=
  let '(d, p) := st in
  let d1 := EnsureConsumerCursor c d in
  let cursor := cur_seq (cursor_of d1 c) in
  let prunedThrough := pruned_through d1 c.2 in
  if cursor <? prunedThrough then
    (Err (ErrResyncRequired cursor prunedThrough), (RecordConsumerResync c d1, p))
  else if wrap32 batchSize <? 0 then (Err NegativePageSize, st)
  else
    let events := PageChangeEvents c.2 cursor (safe_seq (stream_watermark d1))
                    (wrap32 batchSize) d1 in
    match run_handler events p with
    | Err e => (Err e, st)
    | Ok p1 =>
        let d2 := match list.last events with
                  | Some e => UpdateConsumerCursor (Seq e) c d1
                  | None => d1
                  end in
        (Ok (Z.of_nat (length events)), (d2, p1))
    end.

(** The page loop of [Tail] up to its first wait: pages while they are full. *)
Fixpoint tail_pages (fuel : nat) (batchSize : Z) (c : cursor_id) (st : stream_tables * P)
    : option (result (page_error E) unit * (stream_tables * P)) :=
  match fuel with
  | O => None
  | S fuel =>
      match deliverPage batchSize c st with
      | (Err e, st1) => Some (Err e, st1)
      | (Ok delivered, st1) =>
          if delivered =? batchSize then tail_pages fuel batchSize c st1
          else Some (Ok tt, st1)
      end
  end.

End pages.

(** ** Bootstrap *)

(** An open [Snapshot]: the cursor it replaces, the watermark of its
    transaction, and whether it was finalised. *)
Record Snapshot : Type := mkSnapshot {
  SafeSeq : Z;
  PriorSeq : Z;
  closed : bool
}.

(** [Bootstrap] up to its return: what it read. The writes stay in its open
    transaction until [Commit]. *)
Definition Bootstrap (c : cursor_id) (d : stream_tables) : Snapshot :=
  let d1 := EnsureConsumerCursor c d in
  mkSnapshot (safe_seq (stream_watermark d1)) (cur_seq (cursor_of d1 c)) false.

(** What the transaction of a bootstrap wrote, applied by its commit. *)
Definition bootstrap_write (c : cursor_id) (s : Snapshot) (d : stream_tables) : stream_tables :=
  UpdateConsumerCursor (SafeSeq s) c (EnsureConsumerCursor c d).

(** [Snapshot.Commit]: [None] is [pgx.ErrTxClosed]. *)
Definition Commit (c : cursor_id) (s : Snapshot) (d : stream_tables)
    : option (Snapshot * stream_tables) :=
  if closed s then None
  else Some (mkSnapshot (SafeSeq s) (PriorSeq s) true, bootstrap_write c s d).

(** [Snapshot.Close] of a snapshot with a transaction: rollback, idempotent. *)
Definition Close (s : Snapshot) : Snapshot := mkSnapshot (SafeSeq s) (PriorSeq s) true.

(** ** Error classification *)

(** The facts [IsRetryable] asks of an error chain. *)
Record error_chain : Type := mkError {
  is_cursor_contention : bool;
  is_listener_unavailable : bool;
  is_canceled : bool;
  is_deadline_exceeded : bool;
  pg_code : option string;
  safe_to_retry : bool
}.

Definition retryable_codes : list string :=
  ["08000"; "08001"; "08003"; "08004"; "08006"; "08007"; "08P01"; "40001"; "40P01";
   "53300"; "55P03"; "57P01"; "57P02"; "57P03"].

Definition IsRetryable (err : option error_chain) : bool :=
  match err with
  | None => false
  | Some e =>
      if is_cursor_contention e || is_listener_unavailable e then true
      else if is_canceled e || is_deadline_exceeded e then false
      else if match pg_code e with
              | Some code => bool_decide (code ∈ retryable_codes)
              | None => false
              end
      then true
      else safe_to_retry e
  end.

(** [growBackoff], on [int64] durations. *)
Definition growBackoff (current maximum : duration) : duration :=
  let current := wrap64 (current * 2) in
  if maximum <? current then maximum else current.

Inductive identity_error : Type :=
  | ConsumerRequired
  | StreamRequired
  | NulInName.

Definition validateIdentity (consumer stream : string) : result identity_error unit :=
  if bool_decide (TrimSpace consumer = "") then Err ConsumerRequired
  else if bool_decide (TrimSpace stream = "") then Err StreamRequired
  else if ContainsByte consumer zero || ContainsByte stream zero then Err NulInName
  else Ok tt.

Inductive client_error : Type :=
  | BatchSizeInvalid
  | PollIntervalInvalid.

Definition defaultBatchSize : Z := 256.
Definition defaultPollInterval : duration := 500 * 1000000.

(** [New]: the effective batch size and poll interval. *)
Definition NewClient (batchSize : Z) (pollInterval : duration)
    : result client_error (Z * duration) :=
  let batchSize := if batchSize =? 0 then defaultBatchSize else batchSize in
  let pollInterval := if pollInterval =? 0 then defaultPollInterval else pollInterval in
  if batchSize <? 0 then Err BatchSizeInvalid
  else if pollInterval <? 0 then Err PollIntervalInvalid
  else Ok (batchSize, pollInterval).

(** ** Interleavings *)

(** The transaction that holds the exclusive fence: its token and, after the
    fenced read, the prior watermark and the target. *)
Record watermark_tx : Type := mkWatermarkTx {
  wt_token : string;
  wt_read : option (Z * Z)
}.

(** The stream at one instant: the tables, the sequence, the transactions that
    hold the shared fence with the rows they inserted, the holder of the
    exclusive fence, the open bootstraps (which hold their cursor's lock), and,
    for the statements only, every event ever committed and the sequences each
    consumer has applied since its start. *)
Record stream_state : Type := mkStreamState {
  tabs : stream_tables;
  last_seq : Z;
  writers : gmap Z (list Event);
  fence : option watermark_tx;
  snapshots : gmap cursor_id Snapshot;
  log : gmap Z Event;
  applied : gmap cursor_id (Z * list Z)
}.

Definition with_tabs (d : stream_tables) (s : stream_state) : stream_state :=
  mkStreamState d (last_seq s) (writers s) (fence s) (snapshots s) (log s) (applied s).
Definition with_writers (n : Z) (w : gmap Z (list Event)) (s : stream_state) : stream_state :=
  mkStreamState (tabs s) n w (fence s) (snapshots s) (log s) (applied s).
Definition with_fence (f : option watermark_tx) (s : stream_state) : stream_state :=
  mkStreamState (tabs s) (last_seq s) (writers s) f (snapshots s) (log s) (applied s).
Definition with_snapshots (m : gmap cursor_id Snapshot) (s : stream_state) : stream_state :=
  mkStreamState (tabs s) (last_seq s) (writers s) (fence s) m (log s) (applied s).
Definition with_applied (a : gmap cursor_id (Z * list Z)) (s : stream_state) : stream_state :=
  mkStreamState (tabs s) (last_seq s) (writers s) (fence s) (snapshots s) (log s) a.

Definition insert_events (l : list Event) (m : gmap Z Event) : gmap Z Event :=
  foldl (λ m e, <[Seq e := e]> m) m l.

Definition commit_events (l : list Event) (d : stream_tables) : stream_tables :=
  mkStream (insert_events l (change_events d)) (stream_watermark d) (stream_horizons d)
    (consumer_cursors d).

Definition applied_of (s : stream_state) (c : cursor_id) : Z * list Z :=
  default (0, []) (applied s !! c).

(** The handler of the statements: it records the sequences it applied, and may
    fail on some events. *)
Definition recording_handler (fails : Event → bool) (p : list Z) (e : Event)
    : result unit (list Z) :=
  if fails e then Err tt else Ok (p ++ [Seq e]).

Inductive stream_step : stream_state → stream_state → Prop :=
  | writer_begin s tx :
      (** [AcquireWriterFence]: the shared lock waits for the exclusive one. *)
      fence s = None → writers s !! tx = None →
      stream_step s (with_writers (last_seq s) (<[tx := []]> (writers s)) s)
  | writer_insert s tx l e :
      (** An insert of a registered writer allocates the next sequence. *)
      writers s !! tx = Some l → Seq e = last_seq s + 1 →
      stream_step s (with_writers (last_seq s + 1) (<[tx := l ++ [e]]> (writers s)) s)
  | writer_commit s tx l :
      writers s !! tx = Some l →
      stream_step s
        (mkStreamState (commit_events l (tabs s)) (last_seq s) (delete tx (writers s)) (fence s)
           (snapshots s) (insert_events l (log s)) (applied s))
  | writer_rollback s tx l :
      writers s !! tx = Some l →
      stream_step s (with_writers (last_seq s) (delete tx (writers s)) s)
  | lease_acquire s token ttl now w :
      AcquireOrRenewStreamWatermarkLease token ttl now (stream_watermark (tabs s)) = Some w →
      stream_step s (with_tabs (set_watermark w (tabs s)) s)
  | lease_release s token :
      stream_step s
        (with_tabs (set_watermark
           (ReleaseStreamWatermarkLease token (stream_watermark (tabs s))) (tabs s)) s)
  | watermark_fence s token :
      (** [AcquireWatermarkFence]: the exclusive lock waits for every writer. *)
      fence s = None → writers s = ∅ →
      stream_step s (with_fence (Some (mkWatermarkTx token None)) s)
  | watermark_read s token now prior target :
      fence s = Some (mkWatermarkTx token None) →
      ReadStreamWatermarkTarget token now (tabs s) = (prior, target, true) →
      stream_step s (with_fence (Some (mkWatermarkTx token (Some (prior, target)))) s)
  | watermark_publish s token now prior target w :
      fence s = Some (mkWatermarkTx token (Some (prior, target))) → prior < target →
      PublishStreamWatermark target token now (stream_watermark (tabs s)) = Some w →
      stream_step s (with_fence None (with_tabs (set_watermark w (tabs s)) s))
  | watermark_end s :
      (** Commit without a publication, or rollback. *)
      stream_step s (with_fence None s)
  | prune s cutoff batch locked :
      stream_step s (with_tabs (PruneChangeEvents cutoff batch locked (tabs s)).2 s)
  | deliver s batchSize c fails r d start l' :
      snapshots s !! c = None → applied_of s c = (start, l') →
      ∀ l'' (Hpage : deliverPage (recording_handler fails) batchSize c (tabs s, l')
                     = (r, (d, l''))),
      stream_step s (with_applied (<[c := (start, l'')]> (applied s)) (with_tabs d s))
  | bootstrap_open s c :
      snapshots s !! c = None →
      stream_step s (with_snapshots (<[c := Bootstrap c (tabs s)]> (snapshots s)) s)
  | bootstrap_commit s c snap snap' d :
      snapshots s !! c = Some snap → Commit c snap (tabs s) = Some (snap', d) →
      stream_step s
        (with_snapshots (delete c (snapshots s))
           (with_applied (<[c := (SafeSeq snap, [])]> (applied s)) (with_tabs d s)))
  | bootstrap_close s c :
      stream_step s (with_snapshots (delete c (snapshots s)) s).

Definition stream_init (token : option string) (until : option time) : stream_state :=
  mkStreamState (mkStream ∅ (mkWatermark 0 token until) ∅ ∅) 0 ∅ None ∅ ∅ ∅.

Inductive stream_reachable : stream_state → Prop :=
  | stream_start token until : stream_reachable (stream_init token until)
  | stream_next s s' : stream_reachable s → stream_step s s' → stream_reachable s'.

(** ** Lemmas *)

Lemma insert_events_notin l (m : gmap Z Event) q : q ∉ map Seq l → insert_events l m !! q = m !! q.
Proof.
  unfold insert_events. revert m. induction l as [|e l IH]; intros m; [done|]. cbn [map foldl].
  rewrite not_elem_of_cons. intros [Hq Hl]. rewrite IH by done. by apply lookup_insert_ne.
Qed.

Lemma insert_events_in l q :
  q ∈ map Seq l → ∃ e, e ∈ l ∧ Seq e = q ∧ ∀ m' : gmap Z Event, insert_events l m' !! q = Some e.
Proof.
  unfold insert_events. induction l as [|e l IH]; cbn [map foldl]; [by intros ?%elem_of_nil|].
  destruct (decide (q ∈ map Seq l)) as [Hin|Hni].
  - intros _. destruct (IH Hin) as (e' & ? & ? & H). exists e'. split_and!; [by right|done|].
    intros m'. apply H.
  - intros [->|?]%elem_of_cons; [|done]. exists e. split_and!; [by left|done|]. intros m'.
    pose proof (insert_events_notin l (<[Seq e := e]> m') (Seq e) Hni) as H.
    unfold insert_events in H. rewrite H. apply lookup_insert_eq.
Qed.

Lemma insert_events_some l (m : gmap Z Event) q e :
  insert_events l m !! q = Some e → (e ∈ l ∧ Seq e = q) ∨ ((q ∉ map Seq l) ∧ m !! q = Some e).
Proof.
  destruct (decide (q ∈ map Seq l)) as [Hin|Hni].
  - destruct (insert_events_in l q Hin) as (e' & ? & ? & H). rewrite H. intros [= <-]. by left.
  - rewrite insert_events_notin by done. by right.
Qed.

Lemma insert_events_keyed l m : keyed m → keyed (insert_events l m).
Proof. intros Hk q e [[_ ?]|[_ ?]]%insert_events_some; [done|]. by apply Hk. Qed.

Lemma run_recording fails l p p' :
  run_handler (recording_handler fails) l p = Ok p' → p' = p ++ map Seq l.
Proof.
  revert p. induction l as [|e l IH]; intros p; cbn [run_handler map].
  - intros [= <-]. by rewrite app_nil_r.
  - unfold recording_handler at 1. destruct (fails e); [done|]. intros ->%IH. by rewrite <- app_assoc.
Qed.

Lemma ensure_cursor_of c c' d : cursor_of (EnsureConsumerCursor c d) c' = cursor_of d c'.
Proof.
  unfold EnsureConsumerCursor, cursor_of. destruct (consumer_cursors d !! c) eqn:E; [done|].
  cbn. destruct (decide (c = c')) as [->|?]; [by rewrite lookup_insert_eq, E|by rewrite lookup_insert_ne].
Qed.

Lemma ensure_cursor_some c d :
  ∃ row, consumer_cursors (EnsureConsumerCursor c d) !! c = Some row ∧ row = cursor_of d c.
Proof.
  unfold EnsureConsumerCursor, cursor_of. destruct (consumer_cursors d !! c) eqn:E; [rewrite E; by eexists|].
  cbn. rewrite lookup_insert_eq. by eexists.
Qed.

Lemma ensure_frame c d :
  change_events (EnsureConsumerCursor c d) = change_events d ∧
  stream_watermark (EnsureConsumerCursor c d) = stream_watermark d ∧
  stream_horizons (EnsureConsumerCursor c d) = stream_horizons d.
Proof. unfold EnsureConsumerCursor. by destruct (consumer_cursors d !! c). Qed.

Lemma update_cursor_of s c c' d :
  cur_seq (cursor_of (UpdateConsumerCursor s c (EnsureConsumerCursor c d)) c') =
  if decide (c = c') then s else cur_seq (cursor_of d c').
Proof.
  destruct (ensure_cursor_some c d) as (row & Hrow & _). unfold UpdateConsumerCursor. rewrite Hrow.
  unfold cursor_of at 1. cbn. case_decide as Hc.
  - subst. by rewrite lookup_insert_eq.
  - rewrite lookup_insert_ne by done. apply (f_equal cur_seq (ensure_cursor_of c c' d)).
Qed.

Lemma update_frame s c d :
  change_events (UpdateConsumerCursor s c d) = change_events d ∧
  stream_watermark (UpdateConsumerCursor s c d) = stream_watermark d ∧
  stream_horizons (UpdateConsumerCursor s c d) = stream_horizons d.
Proof. unfold UpdateConsumerCursor. by destruct (consumer_cursors d !! c). Qed.

Lemma resync_effect c d :
  let d' := RecordConsumerResync c (EnsureConsumerCursor c d) in
  change_events d' = change_events d ∧ stream_watermark d' = stream_watermark d ∧
  stream_horizons d' = stream_horizons d ∧
  (∀ c', cur_seq (cursor_of d' c') = cur_seq (cursor_of d c')) ∧
  resync_count (cursor_of d' c) = resync_count (cursor_of d c) + 1.
Proof.
  destruct (ensure_cursor_some c d) as (row & Hrow & ->). destruct (ensure_frame c d) as (? & ? & ?).
  unfold RecordConsumerResync. rewrite Hrow. cbn. split_and!; try done.
  - intros c'. destruct (decide (c = c')) as [->|?].
    + unfold cursor_of at 1. cbn. by rewrite lookup_insert_eq.
    + unfold cursor_of at 1. cbn. rewrite lookup_insert_ne by done.
      apply (f_equal cur_seq (ensure_cursor_of c c' d)).
  - unfold cursor_of at 1. cbn. by rewrite lookup_insert_eq.
Qed.

(** ** The stream invariant *)

(** The sequences a consumer applied are exactly those of its stream's committed
    events in an interval, each once, in order. *)
Definition exactly (log : gmap Z Event) (stream : string) (after through : Z) (l : list Z) : Prop :=
  StronglySorted Z.lt l ∧
  ∀ q, q ∈ l ↔ ∃ e, log !! q = Some e ∧ ev_Stream e = stream ∧ after < q ≤ through.

Record tables_inv (d : stream_tables) (log : gmap Z Event) (last : Z) : Prop := {
  ti_keyed : keyed (change_events d);
  ti_log_keyed : keyed log;
  ti_sub : ∀ q e, change_events d !! q = Some e → log !! q = Some e;
  ti_bound : ∀ q e, log !! q = Some e → 0 < q ≤ last;
  ti_safe : 0 ≤ safe_seq (stream_watermark d) ≤ last;
  ti_pruned : ∀ q e, log !! q = Some e → change_events d !! q = None →
    ∃ h, stream_horizons d !! ev_Stream e = Some h ∧ q ≤ h;
  ti_horizon : ∀ s h, stream_horizons d !! s = Some h →
    h ≤ safe_seq (stream_watermark d) ∧
    ∃ e, log !! h = Some e ∧ ev_Stream e = s ∧ change_events d !! h = None;
  ti_cursor : ∀ c, 0 ≤ cur_seq (cursor_of d c) ≤ safe_seq (stream_watermark d)
}.

(** Every consumer applied exactly its stream's events since its start. *)
Definition applied_ok (d : stream_tables) (log : gmap Z Event)
    (app : gmap cursor_id (Z * list Z)) : Prop :=
  ∀ c, let '(start, l) := default (0, []) (app !! c) in
    start ≤ cur_seq (cursor_of d c) ∧ exactly log c.2 start (cur_seq (cursor_of d c)) l.

Record stream_inv (s : stream_state) : Prop := {
  si_tables : tables_inv (tabs s) (log s) (last_seq s);
  si_flight : ∀ tx l e, writers s !! tx = Some l → e ∈ l →
    safe_seq (stream_watermark (tabs s)) < Seq e ≤ last_seq s ∧ log s !! Seq e = None;
  si_distinct : ∀ tx tx' l l' e e', writers s !! tx = Some l → writers s !! tx' = Some l' →
    e ∈ l → e' ∈ l' → Seq e = Seq e' → tx = tx' ∧ e = e';
  si_fence : ∀ f, fence s = Some f →
    writers s = ∅ ∧ ∀ p t, wt_read f = Some (p, t) → t ≤ last_seq s;
  si_snapshot : ∀ c snap, snapshots s !! c = Some snap →
    0 ≤ SafeSeq snap ≤ safe_seq (stream_watermark (tabs s));
  si_applied : applied_ok (tabs s) (log s) (applied s)
}.

(** *** The tables under each statement *)

Lemma tables_inv_watermark d log last w :
  tables_inv d log last → safe_seq (stream_watermark d) ≤ safe_seq w ≤ last →
  tables_inv (set_watermark w d) log last.
Proof.
  intros [] Hw. split; cbn; auto; try lia.
  - intros s h Hh. destruct (ti_horizon0 s h Hh). split; [lia|done].
  - intros c. specialize (ti_cursor0 c). unfold cursor_of in *. cbn. lia.
Qed.

Lemma tables_inv_cursor d d' log last :
  tables_inv d log last →
  change_events d' = change_events d → stream_watermark d' = stream_watermark d →
  stream_horizons d' = stream_horizons d →
  (∀ c, 0 ≤ cur_seq (cursor_of d' c) ≤ safe_seq (stream_watermark d)) → tables_inv d' log last.
Proof. intros [] He Hw Hh Hc. split; rewrite ?He, ?Hw, ?Hh; auto. Qed.

Lemma tables_inv_commit d log last l :
  tables_inv d log last →
  (∀ e, e ∈ l → safe_seq (stream_watermark d) < Seq e ≤ last ∧ log !! Seq e = None) →
  tables_inv (commit_events l d) (insert_events l log) last.
Proof.
  intros [] Hl. split; cbn; auto using insert_events_keyed.
  - intros q e. destruct (decide (q ∈ map Seq l)) as [Hin|Hni].
    + destruct (insert_events_in l q Hin) as (e' & _ & _ & H). by rewrite !H.
    + rewrite !insert_events_notin by done. apply ti_sub0.
  - intros q e [[He <-]|[_ ?]]%insert_events_some; [|eauto]. specialize (Hl e He). lia.
  - intros q e Hq. destruct (decide (q ∈ map Seq l)) as [Hin|Hni].
    + destruct (insert_events_in l q Hin) as (e' & _ & _ & H). by rewrite H.
    + rewrite insert_events_notin in Hq |- * by done. by apply ti_pruned0.
  - intros s h Hh. destruct (ti_horizon0 s h Hh) as (Hle & e & Hlog & Hs & Hev).
    split; [done|]. exists e.
    assert (h ∉ map Seq l) as Hni.
    { intros (e' & -> & He')%list_elem_of_fmap. destruct (Hl e' He') as [? Hno]. congruence. }
    by rewrite !insert_events_notin.
Qed.

Lemma tables_inv_prune d log last cutoff batch locked :
  tables_inv d log last → tables_inv (PruneChangeEvents cutoff batch locked d).2 log last.
Proof.
  intros []. unfold PruneChangeEvents. set (rows := doomed _ _ _ _).
  assert (Hrows : ∀ e, e ∈ rows → change_events d !! Seq e = Some e ∧
                       Seq e ≤ safe_seq (stream_watermark d)).
  { intros e He. by destruct (doomed_elem _ _ _ _ _ ti_keyed0 He) as (? & _ & ? & _). }
  split; cbn [snd change_events stream_watermark stream_horizons]; auto.
  - intros q e. rewrite delete_rows_lookup. case_decide; [done|]. apply ti_keyed0.
  - intros q e. rewrite delete_rows_lookup. case_decide; [done|]. apply ti_sub0.
  - intros q e Hq. rewrite delete_rows_lookup.
    destruct (horizons_fold rows (stream_horizons d) (ev_Stream e)) as (Hold & Hnew & _).
    case_decide as Hin.
    + intros _. apply list_elem_of_fmap in Hin as (e' & -> & He').
      destruct (Hrows e' He') as [Hev _]. apply ti_sub0 in Hev. simplify_eq.
      by apply Hnew.
    + intros Hno. destruct (ti_pruned0 q e Hq Hno) as (h & Hh & ?).
      destruct (Hold h Hh) as (h' & ? & ?). exists h'. split; [done|lia].
  - intros s h Hh. destruct (horizons_fold rows (stream_horizons d) s) as (_ & _ & Hsrc).
    destruct (Hsrc h Hh) as [Hold|(e & He & Hs & <-)].
    + destruct (ti_horizon0 s h Hold) as (? & e & ? & ? & Hno). split; [done|].
      exists e. rewrite delete_rows_lookup, Hno. by case_decide.
    + destruct (Hrows e He) as [Hev ?]. split; [done|]. exists e.
      rewrite delete_rows_lookup, decide_True by (apply list_elem_of_fmap; eauto).
      split_and!; auto.
Qed.

(** *** A page *)

(** While the cursor is not behind the horizon, the undelivered events are all
    still stored. *)
Lemma undelivered_stored d log last stream cursor q e :
  tables_inv d log last → pruned_through d stream ≤ cursor →
  log !! q = Some e → ev_Stream e = stream → cursor < q → change_events d !! q = Some e.
Proof.
  intros [] Hp Hq Hs Hc. destruct (change_events d !! q) as [e'|] eqn:E.
  - apply ti_sub0 in E. congruence.
  - destruct (ti_pruned0 q e Hq E) as (h & Hh & ?). unfold pruned_through in Hp.
    rewrite <- Hs, Hh in Hp. cbn in Hp. lia.
Qed.

(** The new end of the page's interval. *)
Definition page_end (cursor : Z) (events : list Event) : Z :=
  match last events with Some e => Seq e | None => cursor end.

Lemma last_map_Seq (l : list Event) : last (map Seq l) = Seq <$> last l.
Proof. apply fmap_last. Qed.

Lemma page_exact d log ls stream cursor safe n :
  tables_inv d log ls → pruned_through d stream ≤ cursor →
  let page := PageChangeEvents stream cursor safe n d in
  cursor ≤ page_end cursor page ∧ (cursor ≤ safe → page_end cursor page ≤ safe) ∧
  exactly log stream cursor (page_end cursor page) (map Seq page).
Proof.
  intros Hinv Hp. pose proof (ti_keyed _ _ _ Hinv) as Hk. cbv zeta.
  unfold PageChangeEvents. set (all := events_between _ _ _ _).
  assert (Hall : StronglySorted Z.lt (map Seq all)) by by apply events_between_sorted.
  set (page := take (Z.to_nat n) all).
  assert (Hpage : ∀ e, e ∈ page → change_events d !! Seq e = Some e ∧ ev_Stream e = stream ∧
                                  cursor < Seq e ≤ safe).
  { intros e (k & He%list_elem_of_lookup_2 & _)%elem_of_take. by apply events_between_elem in He. }
  assert (Hsorted : StronglySorted Z.lt (map Seq page)).
  { subst page. rewrite <- firstn_map. rewrite <- (take_drop (Z.to_nat n) (map Seq all)) in Hall.
    by eapply StronglySorted_app_1_l. }
  unfold page_end. destruct (last page) as [e|] eqn:El.
  - assert (He : e ∈ page) by (apply last_Some in El as [l' ->]; apply elem_of_app; right; by left).
    destruct (Hpage e He) as (_ & _ & Hb). split_and!; [lia|lia|]. split; [done|]. intros q. split.
    + intros Hq. pose proof (sorted_last_max _ q (Seq e) Hsorted) as Hmax.
      rewrite last_map_Seq, El in Hmax. specialize (Hmax eq_refl Hq).
      apply list_elem_of_fmap in Hq as (e' & -> & He').
      destruct (Hpage e' He') as (Hev & Hs & ?). exists e'.
      split_and!; [by apply (ti_sub _ _ _ Hinv)|done|lia|lia].
    + intros (e' & Hlog & Hs & Hq). pose proof (ti_log_keyed _ _ _ Hinv q e' Hlog) as <-.
      subst page. rewrite <- firstn_map. apply (sorted_take_elem _ _ _ (Seq e)); [done| | |lia].
      * rewrite firstn_map, last_map_Seq, El. done.
      * apply list_elem_of_fmap. exists e'. split; [done|]. apply events_between_elem; [done|].
        split_and!; [|done|lia|lia].
        apply (undelivered_stored d log ls stream cursor); [done..|lia].
  - split_and!; [lia|lia|]. apply last_None in El. rewrite El. split; [constructor|].
    intros q. cbn [map]. rewrite elem_of_nil. split; [done|]. intros (? & _ & _ & ?). lia.
Qed.

Lemma exactly_app log stream a b c l1 l2 :
  a ≤ b ≤ c → exactly log stream a b l1 → exactly log stream b c l2 →
  exactly log stream a c (l1 ++ l2).
Proof.
  intros Hle [Hs1 H1] [Hs2 H2]. split.
  - apply (sorted_app_lt _ _ b); [done..| |].
    + intros x (e & _ & _ & ?)%H1. lia.
    + intros x (e & _ & _ & ?)%H2. lia.
  - intros q. rewrite elem_of_app, H1, H2. split.
    + intros [(e & ? & ? & ?)|(e & ? & ? & ?)]; exists e; (split_and!; [done|done|lia|lia]).
    + intros (e & ? & ? & ?). destruct (decide (q ≤ b)); [left|right]; exists e;
        (split_and!; [done|done|lia|lia]).
Qed.

Lemma run_handler_err {P E} (handler : P → Event → result E P) l p e :
  run_handler handler l p = Err e → ∃ q cause, e = tailHandlerError q cause.
Proof.
  revert p. induction l as [|x l IH]; intros p; cbn [run_handler]; [done|].
  destruct (handler p x); [apply IH|]. intros [= <-]. eauto.
Qed.

(** What [deliverPage] does, whatever its handler: rolled back, resynced, or one
    complete page applied with the cursor at its end. *)
Lemma deliver_cases {P E} (handler : P → Event → result E P) batch c d p r d' p' :
  deliverPage handler batch c (d, p) = (r, (d', p')) →
  let cursor := cur_seq (cursor_of d c) in
  let page := PageChangeEvents c.2 cursor (safe_seq (stream_watermark d)) (wrap32 batch) d in
  (pruned_through d c.2 ≤ cursor ∧
   (r = Err NegativePageSize ∨ ∃ q cause, r = Err (tailHandlerError q cause)) ∧
   d' = d ∧ p' = p) ∨
  (cursor < pruned_through d c.2 ∧ r = Err (ErrResyncRequired cursor (pruned_through d c.2)) ∧
   d' = RecordConsumerResync c (EnsureConsumerCursor c d) ∧ p' = p) ∨
  (pruned_through d c.2 ≤ cursor ∧ r = Ok (Z.of_nat (length page)) ∧
   run_handler handler page p = Ok p' ∧
   change_events d' = change_events d ∧ stream_watermark d' = stream_watermark d ∧
   stream_horizons d' = stream_horizons d ∧
   ∀ c', cur_seq (cursor_of d' c') =
         if decide (c = c') then page_end cursor page else cur_seq (cursor_of d c')).
Proof.
  unfold deliverPage. destruct (ensure_frame c d) as (He & Hw & Hh).
  assert (Hpt : pruned_through (EnsureConsumerCursor c d) c.2 = pruned_through d c.2)
    by (unfold pruned_through; by rewrite Hh).
  assert (Hpg : ∀ a b n, PageChangeEvents c.2 a b n (EnsureConsumerCursor c d) =
                         PageChangeEvents c.2 a b n d)
    by (intros; unfold PageChangeEvents; by rewrite He).
  rewrite Hpt, Hw, ensure_cursor_of, Hpg. cbv zeta.
  set (cursor := cur_seq (cursor_of d c)). set (page := PageChangeEvents _ _ _ _ _).
  destruct (cursor <? pruned_through d c.2) eqn:Ec; to_props.
  { intros [= <- <- <-]. right. left. done. }
  destruct (wrap32 batch <? 0); [intros [= <- <- <-]; left; eauto 6|].
  destruct (run_handler handler page p) as [p1|e] eqn:Er.
  2: { apply run_handler_err in Er as (q & cause & ->). intros [= <- <- <-].
       left. split_and!; [done|right; by exists q, cause|done|done]. }
  intros [= <- <- <-]. right. right. unfold page_end. destruct (last page) as [e|].
  - destruct (update_frame (Seq e) c (EnsureConsumerCursor c d)) as (-> & -> & ->).
    split_and!; [done..|]. intros c'. apply update_cursor_of.
  - split_and!; [done..|]. intros c'. rewrite ensure_cursor_of. by case_decide; subst.
Qed.

Lemma deliver_effect fails batch c d log ls start l r d' l' :
  deliverPage (recording_handler fails) batch c (d, l) = (r, (d', l')) →
  tables_inv d log ls → start ≤ cur_seq (cursor_of d c) →
  exactly log c.2 start (cur_seq (cursor_of d c)) l →
  tables_inv d' log ls ∧ stream_watermark d' = stream_watermark d ∧
  (∀ c', c ≠ c' → cur_seq (cursor_of d' c') = cur_seq (cursor_of d c')) ∧
  start ≤ cur_seq (cursor_of d' c) ∧ exactly log c.2 start (cur_seq (cursor_of d' c)) l'.
Proof.
  intros Hd Hinv Hs Hl.
  destruct (deliver_cases _ _ _ _ _ _ _ _ Hd)
    as [(_ & _ & -> & ->)|[(_ & _ & -> & ->)|(Hp & _ & Hrun & He & Hw & Hh & Hc)]]; [done|..].
  - destruct (resync_effect c d) as (He & Hw & Hh & Hc & _). rewrite Hc.
    split_and!; auto. apply (tables_inv_cursor d); auto.
    intros c'. rewrite Hc. apply (ti_cursor _ _ _ Hinv).
  - set (cursor := cur_seq (cursor_of d c)) in *.
    destruct (page_exact d log ls c.2 cursor (safe_seq (stream_watermark d)) (wrap32 batch) Hinv Hp)
      as (Hend & Hsafe & Hexact).
    set (page := PageChangeEvents _ _ _ _ _) in *. apply run_recording in Hrun as ->.
    pose proof (Hc c) as Hcc. rewrite decide_True in Hcc by done. rewrite Hcc.
    assert (Hcur := ti_cursor _ _ _ Hinv). pose proof (Hcur c) as Hcb. fold cursor in Hcb.
    split_and!; [|done| |lia|].
    + apply (tables_inv_cursor d); auto. intros c'. rewrite Hc. case_decide; [lia|apply Hcur].
    + intros c' Hne. by rewrite Hc, decide_False.
    + apply (exactly_app _ _ _ cursor); auto.
Qed.

Lemma exactly_log_grow log l stream a b xs :
  exactly log stream a b xs → (∀ e, e ∈ l → b < Seq e) →
  exactly (insert_events l log) stream a b xs.
Proof.
  intros [Hs H] Hl. split; [done|]. intros q. rewrite H. split; intros (e & He & Hes & Hq).
  - exists e. split_and!; [|done|lia|lia]. rewrite insert_events_notin; [done|].
    intros (e' & -> & ?%Hl)%list_elem_of_fmap. lia.
  - exists e. split_and!; [|done|lia|lia].
    apply insert_events_some in He as [[?%Hl <-]|[_ ?]]; [lia|done].
Qed.

Lemma tables_inv_init w : safe_seq w = 0 → tables_inv (mkStream ∅ w ∅ ∅) ∅ 0.
Proof.
  intros Hw. split; cbn; rewrite ?Hw; try (intros *; rewrite lookup_empty; done);
    [by intros ? ?; rewrite lookup_empty..|done|].
  intros c'. unfold cursor_of. cbn. rewrite lookup_empty. cbn. lia.
Qed.

Lemma stream_inv_init token until : stream_inv (stream_init token until).
Proof.
  split; cbn; try (intros *; rewrite lookup_empty; done); [by apply tables_inv_init|done|].
  intros c'. unfold cursor_of. cbn. rewrite !lookup_empty. cbn. split; [lia|].
  split; [constructor|]. intros q. rewrite elem_of_nil. split; [done|].
  intros (e & He & _). by rewrite lookup_empty in He.
Qed.

Lemma max_seq_le d log ls : tables_inv d log ls → max_seq (change_events d) ≤ ls.
Proof.
  intros []. destruct (max_seq_attained (change_events d)) as [->|[e He]]; [lia|].
  apply ti_sub0, ti_bound0 in He. lia.
Qed.

Lemma tables_inv_last d log ls ls' : tables_inv d log ls → ls ≤ ls' → tables_inv d log ls'.
Proof.
  intros [] Hls. split; auto; [|lia]. intros q e He. specialize (ti_bound0 q e He). lia.
Qed.

(** *** The state under each step *)

Lemma stream_inv_insert s tx l e :
  stream_inv s → writers s !! tx = Some l → Seq e = last_seq s + 1 →
  stream_inv (with_writers (last_seq s + 1) (<[tx := l ++ [e]]> (writers s)) s).
Proof.
  intros [Ht Hf Hd Hfe Hsn Ha] Hw He.
  assert (Hnew : ∀ tx' l' e', <[tx := l ++ [e]]> (writers s) !! tx' = Some l' → e' ∈ l' →
    (tx' = tx ∧ e' = e) ∨ ∃ l0, writers s !! tx' = Some l0 ∧ e' ∈ l0).
  { intros tx' l' e'. destruct (decide (tx = tx')) as [<-|?].
    - rewrite lookup_insert_eq. intros [= <-]. rewrite elem_of_app, list_elem_of_singleton.
      intros [?| ->]; [right|left]; eauto.
    - rewrite lookup_insert_ne by done. eauto. }
  pose proof (ti_safe _ _ _ Ht) as Hs.
  split; cbn [with_writers tabs last_seq writers fence snapshots log].
  - apply (tables_inv_last _ _ (last_seq s)); [done|lia].
  - intros tx' l' e' Hl' He'. destruct (Hnew _ _ _ Hl' He') as [[-> ->]|(l0 & Hl0 & He0)].
    + split; [lia|]. destruct (log s !! Seq e) eqn:E; [|done]. apply (ti_bound _ _ _ Ht) in E. lia.
    + destruct (Hf _ _ _ Hl0 He0). split; [lia|done].
  - intros tx1 tx2 l1 l2 e1 e2 H1 H2 He1 He2 Heq.
    destruct (Hnew _ _ _ H1 He1) as [[-> ->]|(l1' & Hl1 & He1')],
             (Hnew _ _ _ H2 He2) as [[-> ->]|(l2' & Hl2 & He2')]; [done|..].
    + destruct (Hf _ _ _ Hl2 He2'). lia.
    + destruct (Hf _ _ _ Hl1 He1'). lia.
    + by eapply Hd.
  - intros f Hf'. destruct (Hfe f Hf') as [Hw0 _]. rewrite Hw0, lookup_empty in Hw. done.
  - done.
  - exact Ha.
Qed.

Lemma stream_inv_drop s tx l :
  stream_inv s → writers s !! tx = Some l →
  stream_inv (with_writers (last_seq s) (delete tx (writers s)) s).
Proof.
  intros [Ht Hf Hd Hfe Hsn Ha] Hw.
  split; cbn [with_writers tabs last_seq writers fence snapshots log]; auto.
  - intros tx' l' e. rewrite lookup_delete_Some. intros [_ ?]. eauto.
  - intros tx1 tx2 l1 l2 e1 e2. rewrite !lookup_delete_Some. intros [_ ?] [_ ?]. eauto.
  - intros f Hf'. destruct (Hfe f Hf') as [-> ?]. split; [apply delete_empty|done].
Qed.

Lemma stream_inv_commit s tx l :
  stream_inv s → writers s !! tx = Some l →
  stream_inv (mkStreamState (commit_events l (tabs s)) (last_seq s) (delete tx (writers s))
                (fence s) (snapshots s) (insert_events l (log s)) (applied s)).
Proof.
  intros Hinv Hw. pose proof (stream_inv_drop s tx l Hinv Hw) as [_ _ Hd' Hfe' _ _].
  destruct Hinv as [Ht Hf Hd Hfe Hsn Ha].
  split; cbn [tabs last_seq writers fence snapshots log stream_watermark commit_events] in *; auto.
  - apply tables_inv_commit; [done|]. intros e He. eauto.
  - intros tx' l' e. rewrite lookup_delete_Some. intros [Hne Hl'] He.
    destruct (Hf _ _ _ Hl' He) as [? Hno]. split; [done|].
    rewrite insert_events_notin; [done|]. intros (e' & Heq & He')%list_elem_of_fmap.
    by destruct (Hd tx' tx l' l e e') as [-> _].
  - intros c'. specialize (Ha c'). cbn [applied].
    destruct (default (0, []) (applied s !! c')) as [start l0]. destruct Ha as [? Hex].
    assert (cursor_of (commit_events l (tabs s)) c' = cursor_of (tabs s) c') as -> by done.
    split; [done|]. apply exactly_log_grow; [done|]. intros e He.
    destruct (Hf tx l e Hw He). pose proof (ti_cursor _ _ _ Ht c'). lia.
Qed.

(** A publication: the fence holder read its target with no writer registered. *)
Lemma stream_inv_watermark s w f :
  stream_inv s → safe_seq (stream_watermark (tabs s)) ≤ safe_seq w ≤ last_seq s →
  writers s = ∅ ∨ safe_seq w = safe_seq (stream_watermark (tabs s)) →
  (f = None ∨ f = fence s) →
  stream_inv (with_fence f (with_tabs (set_watermark w (tabs s)) s)).
Proof.
  intros [Ht Hf Hd Hfe Hsn Ha] Hw Hempty Hfence.
  split; cbn [with_fence with_tabs set_watermark stream_watermark tabs last_seq writers fence
              snapshots log]; auto.
  - by apply tables_inv_watermark.
  - intros tx l e Hl He. destruct Hempty as [Hw0|Heq].
    + by rewrite Hw0, lookup_empty in Hl.
    + rewrite Heq. eauto.
  - intros f' Hf'. destruct Hfence as [->| ->]; [done|auto].
  - intros c' snap Hsnap. specialize (Hsn c' snap Hsnap). lia.
Qed.

Lemma publish_safe safe token now w w' :
  PublishStreamWatermark safe token now w = Some w' → safe_seq w' = safe ∧ safe_seq w < safe.
Proof. unfold PublishStreamWatermark. case_if; [|done]. intros [= <-]. by to_props. Qed.

Lemma acquire_safe token ttl now w w' :
  AcquireOrRenewStreamWatermarkLease token ttl now w = Some w' → safe_seq w' = safe_seq w.
Proof. unfold AcquireOrRenewStreamWatermarkLease. case_if; [|done]. by intros [= <-]. Qed.

Lemma release_safe token w : safe_seq (ReleaseStreamWatermarkLease token w) = safe_seq w.
Proof. unfold ReleaseStreamWatermarkLease. by case_if. Qed.

Lemma stream_inv_lease s w :
  stream_inv s → safe_seq w = safe_seq (stream_watermark (tabs s)) →
  stream_inv (with_tabs (set_watermark w (tabs s)) s).
Proof.
  intros Hinv Hw. pose proof (ti_safe _ _ _ (si_tables _ Hinv)).
  apply (stream_inv_watermark s w (fence s)); [done|lia|by right|by right].
Qed.

Lemma stream_inv_deliver s batch c fails r d start l l' :
  stream_inv s → applied_of s c = (start, l) →
  deliverPage (recording_handler fails) batch c (tabs s, l) = (r, (d, l')) →
  stream_inv (with_applied (<[c := (start, l')]> (applied s)) (with_tabs d s)).
Proof.
  intros [Ht Hf Hd Hfe Hsn Ha] Happ Hpage. pose proof (Ha c) as Hc. unfold applied_of in Happ. rewrite Happ in Hc.
  destruct Hc as [Hstart Hex].
  destruct (deliver_effect _ _ _ _ _ _ _ _ _ _ _ Hpage Ht Hstart Hex)
    as (Ht' & Hw & Hother & Hstart' & Hex').
  split; cbn [with_applied with_tabs tabs last_seq writers fence snapshots log]; rewrite ?Hw; auto.
  intros c'. cbn [applied with_applied with_snapshots]. destruct (decide (c = c')) as [<-|Hne].
  - by rewrite lookup_insert_eq.
  - rewrite lookup_insert_ne by done. rewrite Hother by done. apply (Ha c').
Qed.

Lemma stream_inv_bootstrap s c snap :
  stream_inv s → snapshots s !! c = Some snap →
  stream_inv (with_snapshots (delete c (snapshots s))
    (with_applied (<[c := (SafeSeq snap, [])]> (applied s))
       (with_tabs (bootstrap_write c snap (tabs s)) s))).
Proof.
  intros [Ht Hf Hd Hfe Hsn Ha] Hsnap. pose proof (Hsn c snap Hsnap) as Hsafe.
  unfold bootstrap_write. destruct (ensure_frame c (tabs s)) as (He & Hw & Hh).
  destruct (update_frame (SafeSeq snap) c (EnsureConsumerCursor c (tabs s))) as (He' & Hw' & Hh').
  pose proof (λ c', update_cursor_of (SafeSeq snap) c c' (tabs s)) as Hcur.
  set (d := UpdateConsumerCursor _ _ _) in *.
  split; cbn [with_snapshots with_applied with_tabs tabs last_seq writers fence snapshots log];
    rewrite ?Hw', ?Hw; auto.
  - apply (tables_inv_cursor (tabs s)); [done|congruence..|].
    intros c'. rewrite Hcur. case_decide; [done|]. apply (ti_cursor _ _ _ Ht).
  - intros c' snap'. rewrite lookup_delete_Some. intros [_ ?]. eauto.
  - intros c'. cbn [applied with_applied with_snapshots]. rewrite Hcur. destruct (decide (c = c')) as [<-|Hne].
    + rewrite lookup_insert_eq. cbn. split; [lia|]. split; [constructor|].
      intros q. rewrite elem_of_nil. split; [done|]. intros (? & _ & _ & ?). lia.
    + rewrite lookup_insert_ne by done. apply (Ha c').
Qed.

Lemma stream_inv_step s s' : stream_inv s → stream_step s s' → stream_inv s'.
Proof.
  intros Hinv Hstep. destruct Hstep.
  - destruct Hinv as [Ht Hf Hd Hfe Hsn Ha].
    split; cbn [with_writers tabs last_seq writers fence snapshots log]; auto.
    + intros tx' l e. rewrite lookup_insert_Some.
      intros [[_ <-]|[_ ?]] He; [by apply elem_of_nil in He|eauto].
    + intros tx1 tx2 l1 l2 e1 e2. rewrite !lookup_insert_Some.
      intros [[_ <-]|[_ ?]] [[_ <-]|[_ ?]] He1 He2; try (by apply elem_of_nil in He1);
        try (by apply elem_of_nil in He2). eauto.
    + intros f. congruence.
  - by apply stream_inv_insert.
  - by apply (stream_inv_commit s tx l).
  - by apply (stream_inv_drop s tx l).
  - apply stream_inv_lease; [done|]. by apply acquire_safe in H.
  - apply stream_inv_lease; [done|]. apply release_safe.
  - destruct Hinv as [Ht Hf Hd Hfe Hsn Ha].
    split; cbn [with_fence tabs last_seq writers fence snapshots log]; auto.
    + intros f [= <-]. done.
  - unfold ReadStreamWatermarkTarget in H0. injection H0 as Hp Ht' _.
    destruct Hinv as [Ht Hf Hd Hfe Hsn Ha].
    split; cbn [with_fence tabs last_seq writers fence snapshots log]; auto.
    + intros f [= <-]. destruct (Hfe _ H) as [? _]. split; [done|].
      intros p t [= <- <-]. rewrite <- Ht'. by eapply max_seq_le.
  - apply publish_safe in H1 as [Hw ?]. destruct (si_fence _ Hinv _ H) as [Hempty Hread].
    specialize (Hread _ _ eq_refl). apply stream_inv_watermark; [done|lia|by left|by left].
  - destruct Hinv as [Ht Hf Hd Hfe Hsn Ha].
    split; cbn [with_fence tabs last_seq writers fence snapshots log]; auto.
    + done.
  - destruct Hinv as [Ht Hf Hd Hfe Hsn Ha].
    split; cbn [with_tabs tabs last_seq writers fence snapshots log]; auto.
    + by apply tables_inv_prune.
  - by eapply stream_inv_deliver.
  - destruct Hinv as [Ht Hf Hd Hfe Hsn Ha].
    split; cbn [with_snapshots tabs last_seq writers fence snapshots log]; auto.
    + intros c' snap. rewrite lookup_insert_Some. intros [[<- <-]|[_ ?]]; [|eauto].
      unfold Bootstrap. cbn [SafeSeq]. destruct (ensure_frame c (tabs s)) as (_ & -> & _).
      pose proof (ti_safe _ _ _ Ht). lia.
  - unfold Commit in H0. destruct (closed snap); [done|]. injection H0 as _ <-.
    by apply stream_inv_bootstrap.
  - destruct Hinv as [Ht Hf Hd Hfe Hsn Ha].
    split; cbn [with_snapshots tabs last_seq writers fence snapshots log]; auto.
    + intros c' snap'. rewrite lookup_delete_Some. intros [_ ?]. eauto.
Qed.

Lemma stream_reachable_inv s : stream_reachable s → stream_inv s.
Proof. induction 1; eauto using stream_inv_init, stream_inv_step. Qed.

(** ** Theorems *)

Lemma step_watermark_stable s s' :
  stream_inv s → stream_step s s' →
  safe_seq (stream_watermark (tabs s)) ≤ safe_seq (stream_watermark (tabs s')) ∧
  ∀ q, q ≤ safe_seq (stream_watermark (tabs s)) → log s' !! q = log s !! q.
Proof.
  intros Hinv Hstep. destruct Hstep; cbn; try done.
  - split; [done|]. intros q Hq. apply insert_events_notin.
    intros (e & -> & He)%list_elem_of_fmap. destruct (si_flight _ Hinv _ _ _ H He). lia.
  - apply acquire_safe in H. split; [lia|done].
  - rewrite release_safe. done.
  - apply publish_safe in H1 as [-> ?]. split; [lia|done].
  - destruct (deliver_cases _ _ _ _ _ _ _ _ Hpage)
      as [(_ & _ & -> & _)|[(_ & _ & -> & _)|(_ & _ & _ & _ & -> & _)]]; try done.
    destruct (resync_effect c (tabs s)) as (_ & -> & _). done.
  - unfold Commit in H0. destruct (closed snap); [done|]. injection H0 as _ <-.
    unfold bootstrap_write. destruct (update_frame (SafeSeq snap) c (EnsureConsumerCursor c (tabs s)))
      as (_ & -> & _). destruct (ensure_frame c (tabs s)) as (_ & -> & _). done.
Qed.

(** C1. No event ever appears behind the watermark. From any reachable state of
    the stream, whatever writers, watermarkers, pruners and consumers do next, in
    whatever order transactions allocate sequences, commit and roll back, the
    published [safe_seq] only grows and the set of events committed at or below it
    is final: what a consumer may read up to [safe_seq] has no gap that a later
    commit could fill. *)
Theorem watermark_gap_free s s'
    (Hreach : stream_reachable s) (Hsteps : rtc stream_step s s') :
  safe_seq (stream_watermark (tabs s)) ≤ safe_seq (stream_watermark (tabs s')) ∧
  ∀ q, q ≤ safe_seq (stream_watermark (tabs s)) → log s' !! q = log s !! q.
Proof.
  apply stream_reachable_inv in Hreach. induction Hsteps as [s|s s1 s2 H1 _ IH]; [done|].
  destruct (step_watermark_stable s s1 Hreach H1) as [Hle Hlog].
  destruct IH as [Hle' Hlog']; [by eapply stream_inv_step|].
  split; [lia|]. intros q Hq. rewrite Hlog' by lia. auto.
Qed.

(** C2. Exactly-once, in-order delivery. In every reachable state, with handlers
    that fail at any event, pruning, resyncs and bootstraps, the events a consumer
    has applied since its start (its first delivery, or the watermark of its last
    bootstrap) are exactly the committed events of its stream in the interval from
    that start to its cursor: none is missing, none is applied twice, and they
    were applied in sequence order. *)
Theorem delivery_exactly_once s c start l
    (Hreach : stream_reachable s) (Happlied : applied_of s c = (start, l)) :
  exactly (log s) c.2 start (cur_seq (cursor_of (tabs s) c)) l.
Proof.
  apply stream_reachable_inv, si_applied in Hreach. specialize (Hreach c).
  unfold applied_of in Happlied. rewrite Happlied in Hreach. apply Hreach.
Qed.

(** C10. A consumer is told to resync exactly when it would have missed an event:
    in a reachable state, [deliverPage] answers RESYNC_REQUIRED if and only if
    some event of its stream behind which its cursor stands was pruned. The answer
    leaves every cursor where it was and counts one resync. *)
Theorem resync_iff_missed {P E} (handler : P → Event → result E P) s batch c p
    (Hreach : stream_reachable s) :
  let '(r, (d', p')) := deliverPage handler batch c (tabs s, p) in
  ((∃ cursor h, r = Err (ErrResyncRequired cursor h)) ↔
   ∃ q e, log s !! q = Some e ∧ ev_Stream e = c.2 ∧ cur_seq (cursor_of (tabs s) c) < q ∧
          change_events (tabs s) !! q = None) ∧
  ((∃ cursor h, r = Err (ErrResyncRequired cursor h)) →
   p' = p ∧ (∀ c', cur_seq (cursor_of d' c') = cur_seq (cursor_of (tabs s) c')) ∧
   resync_count (cursor_of d' c) = resync_count (cursor_of (tabs s) c) + 1).
Proof.
  pose proof (si_tables _ (stream_reachable_inv _ Hreach)) as Ht.
  set (d := tabs s) in *. set (cursor := cur_seq (cursor_of d c)).
  assert (Hmiss : cursor < pruned_through d c.2 ↔
    ∃ q e, log s !! q = Some e ∧ ev_Stream e = c.2 ∧ cursor < q ∧ change_events d !! q = None).
  { unfold pruned_through. split.
    - pose proof (ti_cursor _ _ _ Ht c).
      destruct (stream_horizons d !! c.2) as [h|] eqn:Eh; cbn; [|lia]. intros Hlt.
      destruct (ti_horizon _ _ _ Ht _ _ Eh) as (_ & e & ? & ? & ?). exists h, e. done.
    - intros (q & e & Hq & Hs & Hlt & Hno).
      destruct (ti_pruned _ _ _ Ht q e Hq Hno) as (h & Hh & ?). rewrite <- Hs, Hh. cbn. lia. }
  destruct (deliverPage handler batch c (d, p)) as [r [d' p']] eqn:Hd.
  destruct (deliver_cases handler batch c d p _ _ _ Hd)
    as [(Hge & Hr & _)|[(Hlt & -> & -> & ->)|(Hge & -> & _)]];
    [fold cursor in Hge|fold cursor in Hlt|fold cursor in Hge].
  - assert (¬ ∃ a b, r = Err (ErrResyncRequired a b)) as Hno
      by (intros (? & ? & ->); destruct Hr as [?|(? & ? & ?)]; done).
    rewrite <- Hmiss. split; [split; [done|lia]|done].
  - split; [rewrite <- Hmiss; split; [done|eauto]|]. intros _.
    destruct (resync_effect c d) as (_ & _ & _ & ? & ?). done.
  - rewrite <- Hmiss. split; [split; [by intros (? & ? & ?)|lia]|by intros (? & ? & ?)].
Qed.

Lemma with_tabs_fence d s : fence s = None → with_tabs d s = with_fence None (with_tabs d s).
Proof. unfold with_tabs, with_fence. cbn. by intros ->. Qed.

Lemma acquire_step s token ttl now w :
  AcquireOrRenewStreamWatermarkLease token ttl now (stream_watermark (tabs s)) = Some w →
  stream_step s (with_tabs (set_watermark w (tabs s)) s).
Proof. apply lease_acquire. Qed.

(** C24. The watermarker's [Step] refines the fenced protocol and catches up. Run
    when no writer holds the fence, it is a sequence of protocol steps (lease,
    exclusive fence, fenced read, publication, release of the fence); when its
    lease is granted and outlives the step, it succeeds and publishes the larger
    of the old watermark and the greatest committed sequence, and reports an
    advance exactly when the watermark moved. *)
Theorem watermark_step_refines s token ttl now1 now2 now3
    (Hfence : fence s = None) (Hwriters : writers s = ∅) :
  let '(r, d') := Step token ttl now1 now2 now3 true (tabs s) in
  rtc stream_step s (with_tabs d' s) ∧
  (AcquireOrRenewStreamWatermarkLease token ttl now1 (stream_watermark (tabs s)) ≠ None →
   now2 < now1 + ttl → now3 < now1 + ttl →
   let old := safe_seq (stream_watermark (tabs s)) in
   let new := Z.max old (max_seq (change_events (tabs s))) in
   safe_seq (stream_watermark d') = new ∧
   r = Ok (mkProgress new (max_seq (change_events (tabs s))) (old <? new) false)).
Proof.
  unfold Step. destruct (AcquireOrRenewStreamWatermarkLease _ _ _ _) as [w1|] eqn:Ew.
  2: { split; [by destruct s|done]. }
  pose proof (acquire_safe _ _ _ _ _ Ew) as Hsafe. pose proof (acquire_step s _ _ _ _ Ew) as Hacq.
  assert (Hlease : ∀ now, now < now1 + ttl → lease_valid token now w1 = true).
  { revert Ew. unfold AcquireOrRenewStreamWatermarkLease. case_if; [|done]. intros [= <-] now ?.
    unfold lease_valid. cbn. rewrite bool_decide_true by done. apply Z.ltb_lt. lia. }
  unfold ReadStreamWatermarkTarget. cbn [negb stream_watermark set_watermark change_events].
  rewrite Hsafe. set (old := safe_seq _). set (target := max_seq _).
  set (s1 := with_tabs (set_watermark w1 (tabs s)) s).
  assert (Hread : lease_valid token now2 w1 = true →
    rtc stream_step s (with_fence (Some (mkWatermarkTx token (Some (old, target)))) s1)).
  { intros Hv. eapply rtc_l; [exact Hacq|]. fold s1.
    eapply rtc_l; [by apply (watermark_fence s1 token)|]. apply rtc_once.
    apply (watermark_read (with_fence (Some (mkWatermarkTx token None)) s1) token now2); [done|].
    unfold ReadStreamWatermarkTarget. cbn. by rewrite Hsafe, Hv. }
  destruct (lease_valid token now2 w1) eqn:Ev; cbn [negb].
  2: { split; [by apply rtc_once|]. intros _ H2 _. by rewrite Hlease in Ev. }
  specialize (Hread eq_refl). destruct (old <? target) eqn:Elt; to_props.
  - destruct (PublishStreamWatermark target token now3 w1) as [w2|] eqn:Ep.
    + apply publish_safe in Ep as Hp. destruct Hp as [Hp _]. rewrite Hp. split.
      * eapply rtc_r; [exact Hread|]. rewrite with_tabs_fence by done.
        exact (watermark_publish (with_fence (Some (mkWatermarkTx token (Some (old, target)))) s1)
                 token now3 old target w2 eq_refl Elt Ep).
      * intros _ _ _. cbn. rewrite Hp, Z.max_r by lia. done.
    + split; [by apply rtc_once|]. intros _ _ H3. exfalso.
      unfold PublishStreamWatermark in Ep. rewrite (Hlease _ H3), Hsafe in Ep. fold old in Ep.
      by rewrite (proj2 (Z.ltb_lt _ _) Elt) in Ep.
  - split; [by apply rtc_once|]. intros _ _ _. cbn. rewrite Hsafe. fold old.
    rewrite Z.max_l, Z.ltb_irrefl by lia. done.
Qed.

(** *** Retention *)

Lemma doomed_NoDup cutoff n locked d :
  keyed (change_events d) → NoDup (map Seq (doomed cutoff n locked d)).
Proof.
  intros Hk. unfold doomed. set (l := merge_sort _ _).
  assert (NoDup (map Seq l)) as Hl.
  { subst l. rewrite merge_sort_Permutation. by apply NoDup_map_filter, rows_NoDup. }
  rewrite <- (take_drop n l), map_app in Hl. by apply NoDup_app in Hl as [? _].
Qed.

Lemma delete_rows_size (l : list Event) (m : gmap Z Event) :
  NoDup (map Seq l) → (∀ e, e ∈ l → m !! Seq e = Some e) →
  (size (foldl (λ m e, delete (Seq e) m) m l) + length l = size m)%nat.
Proof.
  revert m. induction l as [|e l IH]; intros m; cbn [foldl map length]; [lia|].
  rewrite NoDup_cons. intros [He Hl] Hm. pose proof (Hm e ltac:(by left)) as Hin.
  specialize (IH (delete (Seq e) m) Hl). rewrite map_size_delete_Some in IH by done.
  assert (size m ≠ 0)%nat by (intros H0%map_size_empty_inv; by rewrite H0, lookup_empty in Hin).
  rewrite Nat.add_succ_r, IH; [lia|]. intros e' He'. rewrite lookup_delete_ne; [apply Hm; by right|].
  intros Heq. apply He. rewrite Heq. apply list_elem_of_fmap. eauto.
Qed.

(** The events retention may remove. *)
Definition expired (cutoff : time) (d : stream_tables) (e : Event) : Prop :=
  OccurredAt e < cutoff ∧ Seq e ≤ safe_seq (stream_watermark d).

#[export] Instance expired_dec cutoff d e : Decision (expired cutoff d e).
Proof. unfold expired. apply _. Defined.

(** A batch shorter than its limit deleted every expired event. *)
Lemma doomed_short cutoff n d e :
  keyed (change_events d) → (length (doomed cutoff n ∅ d) < n)%nat →
  change_events d !! Seq e = Some e → expired cutoff d e → e ∈ doomed cutoff n ∅ d.
Proof.
  intros Hk Hlen He [? ?]. unfold doomed in *. set (l := merge_sort _ _) in *.
  rewrite length_take in Hlen. rewrite take_ge by lia.
  subst l. rewrite merge_sort_Permutation, list_elem_of_filter, rows_elem by done.
  split; [|done]. split_and!; [done|done|set_solver].
Qed.

Lemma prune_loop_spec fuel cutoff batch total d :
  keyed (change_events d) → 0 < batch → (size (change_events d) < fuel)%nat →
  ∃ n d', prune_loop fuel cutoff batch total d = Some (n, d') ∧
    (∀ q, change_events d' !! q =
          change_events d !! q ≫= λ e, if decide (expired cutoff d e) then None else Some e) ∧
    n - total = Z.of_nat (size (change_events d)) - Z.of_nat (size (change_events d')) ∧
    stream_watermark d' = stream_watermark d ∧ consumer_cursors d' = consumer_cursors d.
Proof.
  revert total d. induction fuel as [|fuel IH]; intros total d Hk Hb Hsize; [lia|].
  cbn [prune_loop]. unfold PruneChangeEvents. set (rows := doomed cutoff (Z.to_nat batch) ∅ d).
  set (d1 := mkStream _ _ _ _).
  assert (Hrows : ∀ e, e ∈ rows → change_events d !! Seq e = Some e ∧ expired cutoff d e).
  { intros e He. destruct (doomed_elem _ _ _ _ _ Hk He) as (? & ? & ? & _). done. }
  assert (Hlook : ∀ q, change_events d1 !! q =
    if decide (q ∈ map Seq rows) then None else change_events d !! q)
    by (intros q; apply delete_rows_lookup).
  pose proof (delete_rows_size rows (change_events d) (doomed_NoDup cutoff (Z.to_nat batch) ∅ d Hk)
                (λ e He, proj1 (Hrows e He))) as Hdel.
  assert (length rows ≤ Z.to_nat batch)%nat as Hlen.
  { subst rows. unfold doomed. rewrite length_take. lia. }
  assert (Hgone : ∀ q e, change_events d !! q = Some e → q ∈ map Seq rows → expired cutoff d e).
  { intros q e He (e' & -> & He')%list_elem_of_fmap. destruct (Hrows e' He'). by simplify_eq. }
  destruct (Z.of_nat (length rows) <? batch) eqn:Eb; to_props.
  - exists (total + Z.of_nat (length rows)), d1. split_and!; [done| |cbn; lia|done|done].
    intros q. rewrite Hlook. destruct (change_events d !! q) as [e|] eqn:E; cbn; [|by case_decide].
    case_decide as Hin; case_decide as Hex; try done.
    + by destruct Hex; apply (Hgone q e).
    + destruct Hin. pose proof (Hk _ _ E) as <-. apply list_elem_of_fmap. exists e. split; [done|].
      apply doomed_short; [done| |done|done]. fold rows. lia.
  - destruct (IH (total + Z.of_nat (length rows)) d1) as (n & d' & Hloop & Hev & Hn & Hw & Hc).
    + intros q e. rewrite Hlook. case_decide; [done|]. apply Hk.
    + done.
    + change (change_events d1) with (foldl (λ m e, delete (Seq e) m) (change_events d) rows). lia.
    + exists n, d'. split_and!; [done| | |done|done].
      * intros q. rewrite Hev, Hlook. destruct (change_events d !! q) as [e|] eqn:E; cbn.
        -- case_decide as Hin; cbn; [|done]. rewrite decide_True; [done|by apply (Hgone q)].
        -- by case_decide.
      * change (change_events d1) with (foldl (λ m e, delete (Seq e) m) (change_events d) rows) in Hn. lia.
Qed.


(** *** Draining *)

Lemma run_handler_app {P E} (handler : P → Event → result E P) l1 l2 p :
  run_handler handler (l1 ++ l2) p =
  match run_handler handler l1 p with Ok p1 => run_handler handler l2 p1 | Err e => Err e end.
Proof.
  revert p. induction l1 as [|e l1 IH]; intros p; [done|]. cbn [app run_handler].
  destruct (handler p e); [apply IH|done].
Qed.

Lemma events_between_NoDup m s a t : keyed m → NoDup (events_between m s a t).
Proof.
  intros Hk. apply (NoDup_fmap_1 Seq). unfold events_between. rewrite merge_sort_Permutation.
  by apply NoDup_map_filter, rows_NoDup.
Qed.

Lemma events_between_le m s a t : StronglySorted seq_le (events_between m s a t).
Proof. apply StronglySorted_merge_sort; apply _. Qed.

(** A page cuts the pending events at its end. *)
Lemma page_cut (l : list Event) a n e :
  StronglySorted Z.lt (map Seq l) → (∀ x, x ∈ l → a < Seq x) → e ∈ l →
  page_end a (take n l) < Seq e ↔ e ∈ drop n l.
Proof.
  intros Hsort Ha He. unfold page_end. destruct (last (take n l)) as [y|] eqn:El.
  - assert (Hy : y ∈ take n l)
      by (apply last_Some in El as [l' ->]; apply elem_of_app; right; by left).
    rewrite <- (take_drop n l), map_app in Hsort. split.
    + intros Hlt. rewrite <- (take_drop n l) in He. apply elem_of_app in He as [He|?]; [|done].
      exfalso. apply StronglySorted_app_1_l in Hsort.
      pose proof (sorted_last_max (map Seq (take n l)) (Seq e) (Seq y) Hsort) as Hmax.
      rewrite last_map_Seq, El in Hmax. specialize (Hmax eq_refl).
      assert (Seq e ≤ Seq y) by (apply Hmax, list_elem_of_fmap; eauto). lia.
    + intros Hd. apply (StronglySorted_app_1_elem_of _ _ _ (Seq y) (Seq e) Hsort);
        apply list_elem_of_fmap; eauto.
  - apply last_None in El. apply Ha in He as Hb. split; [|lia].
    intros _. rewrite <- (take_drop n l), El in He. done.
Qed.

Lemma page_end_ge (l : list Event) a n : (∀ x, x ∈ l → a < Seq x) → a ≤ page_end a (take n l).
Proof.
  intros Ha. unfold page_end. destruct (last (take n l)) as [y|] eqn:El; [|lia].
  assert (a < Seq y); [|lia]. apply Ha. rewrite <- (take_drop n l). apply elem_of_app. left.
  apply last_Some in El as [l' ->]. apply elem_of_app. right. by left.
Qed.

(** The events after a page are the rest of the pending ones. *)
Lemma events_between_rest m s a t n :
  keyed m →
  let all := events_between m s a t in
  events_between m s (page_end a (take n all)) t = drop n all.
Proof.
  intros Hk all. assert (Hnd : NoDup all) by by apply events_between_NoDup.
  assert (Hsort : StronglySorted Z.lt (map Seq all)) by by apply events_between_sorted.
  assert (Hall : ∀ e, e ∈ all ↔ m !! Seq e = Some e ∧ ev_Stream e = s ∧ a < Seq e ≤ t)
    by (intros e; by apply events_between_elem).
  assert (Ha : ∀ e, e ∈ all → a < Seq e) by (intros e ?%Hall; lia).
  assert (Hdrop : ∀ e, e ∈ drop n all → e ∈ all)
    by (intros e ?; rewrite <- (take_drop n all); apply elem_of_app; by right).
  apply (StronglySorted_unique_strong seq_le).
  - intros e1 e2 (H1 & _)%events_between_elem (H2 & _)%Hdrop%Hall H12 H21; [|done].
    unfold seq_le in *. assert (Seq e1 = Seq e2) as Heq by lia. rewrite Heq in *. by simplify_eq.
  - apply events_between_le.
  - pose proof (events_between_le m s a t) as Hle. fold all in Hle.
    rewrite <- (take_drop n all) in Hle. by eapply StronglySorted_app_1_r.
  - apply NoDup_Permutation; [by apply events_between_NoDup| |].
    + rewrite <- (take_drop n all) in Hnd. by apply NoDup_app in Hnd as (_ & _ & ?).
    + intros e. pose proof (page_end_ge all a n Ha). rewrite events_between_elem by done. split.
      * intros (He & Hs & Hlt & Ht). apply (page_cut all a); [done|done| |done].
        apply Hall. split_and!; [done|done|lia|done].
      * intros Hd. apply Hdrop in Hd as Hin. apply (page_cut all a) in Hd; [|done..].
        apply Hall in Hin as (? & ? & ?). split_and!; [done|done|done|lia].
Qed.

(** The pending events of a consumer. *)
Definition pending (d : stream_tables) (c : cursor_id) : list Event :=
  events_between (change_events d) c.2 (cur_seq (cursor_of d c)) (safe_seq (stream_watermark d)).

Lemma page_end_app a l1 l2 : page_end (page_end a l1) l2 = page_end a (l1 ++ l2).
Proof.
  unfold page_end. rewrite last_app. by destruct (last l2).
Qed.

Lemma tail_pages_spec {P E} (handler : P → Event → result E P) fuel batch c d p p' :
  keyed (change_events d) → pruned_through d c.2 ≤ cur_seq (cursor_of d c) →
  0 < batch < 2 ^ 31 → run_handler handler (pending d c) p = Ok p' →
  (length (pending d c) < fuel)%nat →
  ∃ d', tail_pages handler fuel batch c (d, p) = Some (Ok tt, (d', p')) ∧
    change_events d' = change_events d ∧ stream_watermark d' = stream_watermark d ∧
    ∀ c', cur_seq (cursor_of d' c') =
          if decide (c = c') then page_end (cur_seq (cursor_of d c)) (pending d c)
          else cur_seq (cursor_of d c').
Proof.
  revert d p. induction fuel as [|fuel IH]; intros d p Hk Hp Hb Hrun Hlen; [lia|].
  cbn [tail_pages]. destruct (deliverPage handler batch c (d, p)) as [r [d1 p1]] eqn:Hd.
  pose proof (deliver_cases _ _ _ _ _ _ _ _ Hd) as Hcases. cbv zeta in Hcases.
  rewrite wrap32_id in Hcases by lia. unfold PageChangeEvents in Hcases. fold (pending d c) in Hcases.
  set (n := Z.to_nat batch) in *. set (cursor := cur_seq (cursor_of d c)) in *.
  rewrite <- (take_drop n (pending d c)), run_handler_app in Hrun.
  destruct Hcases as [(_ & Hr & -> & ->)|[(? & _)|(_ & -> & Hrun1 & He & Hw & Hh & Hc)]]; [|lia|].
  { exfalso. revert Hd. unfold deliverPage. destruct (ensure_frame c d) as (He & Hw & Hh).
    unfold pruned_through, PageChangeEvents. rewrite Hh, Hw, He, ensure_cursor_of, wrap32_id by lia.
    fold (pruned_through d c.2) cursor. rewrite (proj2 (Z.ltb_ge _ _) Hp), (proj2 (Z.ltb_ge _ _)) by lia.
    unfold pending, cursor in Hrun. unfold n in Hrun.
    destruct (run_handler handler (take (Z.to_nat batch) _) p); [|done].
    intros [= <- _]. by destruct Hr as [?|(? & ? & ?)]. }
  rewrite Hrun1 in Hrun. assert (Hcc := Hc c). rewrite decide_True in Hcc by done.
  assert (Hpend : pending d1 c = drop n (pending d c)).
  { unfold pending at 1. rewrite He, Hw, Hcc. by apply events_between_rest. }
  rewrite length_take. case_if; to_props.
  - destruct (IH d1 p1) as (d' & Htail & He' & Hw' & Hc').
    + by rewrite He.
    + unfold pruned_through. rewrite Hh, Hcc. etransitivity; [exact Hp|].
      apply page_end_ge. intros x Hx. apply events_between_elem in Hx; [lia|done].
    + done.
    + by rewrite Hpend.
    + rewrite Hpend, length_drop. lia.
    + exists d'. split_and!; [done|congruence..|]. intros c'. rewrite Hc', Hcc, Hpend.
      case_decide; [by rewrite page_end_app, take_drop|]. by rewrite Hc, decide_False.
  - rewrite drop_ge in Hrun by lia. cbn [run_handler] in Hrun. injection Hrun as ->.
    exists d1. split_and!; [done..|]. intros c'. rewrite Hc. by rewrite take_ge by lia.
Qed.

(** Draining the stream is one in-order fold. When the cursor is not behind the
    horizon and the handler accepts the pending events one after the other, the
    page loop of [Tail], whatever its batch size, ends after finitely many pages
    without an error, with the projection that applying all events between the
    cursor and the watermark in sequence order gives, and the cursor at the last
    of them; other cursors do not move. *)
Theorem tail_drains_pending {P E} (handler : P → Event → result E P) batch c d p p'
    (Hkeyed : keyed (change_events d))
    (Hcursor : pruned_through d c.2 ≤ cur_seq (cursor_of d c))
    (Hbatch : 0 < batch < 2 ^ 31)
    (Hhandler : run_handler handler (pending d c) p = Ok p') :
  ∃ d', tail_pages handler (S (length (pending d c))) batch c (d, p) = Some (Ok tt, (d', p')) ∧
    change_events d' = change_events d ∧
    ∀ c', cur_seq (cursor_of d' c') =
          if decide (c = c') then page_end (cur_seq (cursor_of d c)) (pending d c)
          else cur_seq (cursor_of d c').
Proof.
  destruct (tail_pages_spec handler (S (length (pending d c))) batch c d p p')
    as (d' & H1 & H2 & _ & H3); [done..|lia|]. eauto.
Qed.

(** [IsRetryable] never tells a consumer to retry what cannot succeed or needs
    a bootstrap: without cursor contention or a listener failure, a cancelled or
    expired context is not retryable whatever database error it wraps, and an
    error with neither a listed SQLSTATE nor pgx's safe-to-retry mark, as
    RESYNC_REQUIRED is, is not retryable; cursor contention always is. *)
Theorem is_retryable_spec e :
  (is_cursor_contention e = true → IsRetryable (Some e) = true) ∧
  (is_cursor_contention e = false → is_listener_unavailable e = false →
   (is_canceled e = true ∨ is_deadline_exceeded e = true → IsRetryable (Some e) = false) ∧
   ((∀ code, pg_code e = Some code → code ∉ retryable_codes) → safe_to_retry e = false →
    IsRetryable (Some e) = false)).
Proof.
  unfold IsRetryable. split; [by intros ->|]. intros -> ->. cbn [orb]. split.
  - by intros [-> | ->]; rewrite ?orb_true_r.
  - intros Hcode ->. case_if; [done|]. destruct (pg_code e) as [code|]; [|done].
    by rewrite bool_decide_false by auto.
Qed.

(** ** Witnesses *)

(** Two writers allocate 1 and 2; the second commits first; then both have
    committed, the watermarker publishes 2, and one consumer drains. *)
Definition ex_event (q : Z) (occurred : time) : Event :=
  mkEvent q "entities" "pull_request.changed" "pr:1:2:3" occurred "{}".

Definition ex_tables : stream_tables :=
  mkStream (insert_events [ex_event 2 20; ex_event 1 10] ∅)
    (mkWatermark 0 None None) ∅ ∅.

Definition ex_committed : stream_state :=
  mkStreamState ex_tables 2 ∅ None ∅ (insert_events [ex_event 2 20; ex_event 1 10] ∅) ∅.

Lemma ex_committed_reachable : stream_reachable ex_committed.
Proof.
  assert (rtc stream_step (stream_init None None) ex_committed) as Hsteps.
  { eapply rtc_l; [by apply (writer_begin _ 1)|].
    eapply rtc_l; [by apply (writer_begin _ 2)|].
    eapply rtc_l; [apply (writer_insert _ 1 [] (ex_event 1 10)); vm_compute; reflexivity|].
    eapply rtc_l; [apply (writer_insert _ 2 [] (ex_event 2 20)); vm_compute; reflexivity|].
    eapply rtc_l; [apply (writer_commit _ 2 [ex_event 2 20]); vm_compute; reflexivity|].
    eapply rtc_l; [apply (writer_commit _ 1 [ex_event 1 10]); vm_compute; reflexivity|].
    assert (∀ s, s = ex_committed → rtc stream_step s ex_committed) as Hrefl by (intros ? ->; done).
    apply Hrefl. vm_compute. reflexivity. }
  generalize (stream_start None None). induction Hsteps; [done|].
  intros Hr. apply IHHsteps. by eapply stream_next.
Qed.

(** The published state: lease, fence, fenced read, publication. *)
Definition ex_published : stream_state :=
  mkStreamState (set_watermark (mkWatermark 2 (Some "w") (Some 100)) ex_tables)
    2 ∅ None ∅ (log ex_committed) ∅.

Lemma ex_publish_steps : rtc stream_step ex_committed ex_published.
Proof.
  eapply rtc_l; [apply (lease_acquire _ "w" 100 0); vm_compute; reflexivity|].
  eapply rtc_l; [by apply (watermark_fence _ "w")|].
  eapply rtc_l; [apply (watermark_read _ "w" 1 0 2); vm_compute; reflexivity|].
  eapply rtc_l; [apply (watermark_publish _ "w" 2 0 2 (mkWatermark 2 (Some "w") (Some 100)));
                 vm_compute; reflexivity|].
  assert (∀ s, s = ex_published → rtc stream_step s ex_published) as Hrefl by (intros ? ->; done).
  apply Hrefl. vm_compute. reflexivity.
Qed.

Lemma stream_reachable_rtc s s' : stream_reachable s → rtc stream_step s s' → stream_reachable s'.
Proof. intros H Hs. induction Hs; [done|]. apply IHHs. by eapply stream_next. Qed.

Lemma ex_published_reachable : stream_reachable ex_published.
Proof. eapply stream_reachable_rtc; [apply ex_committed_reachable|apply ex_publish_steps]. Qed.

Lemma watermark_gap_free_witness :
  safe_seq (stream_watermark (tabs ex_committed)) ≤ safe_seq (stream_watermark (tabs ex_published)) ∧
  ∀ q, q ≤ safe_seq (stream_watermark (tabs ex_committed)) →
       log ex_published !! q = log ex_committed !! q.
Proof.
  apply (watermark_gap_free ex_committed ex_published);
    [apply ex_committed_reachable|apply ex_publish_steps].
Defined.

Definition ex_consumer : cursor_id := ("api", "entities").

(** One page of one event, then the handler fails on the second. *)
Definition ex_delivered : stream_state :=
  let '(r, (d, l)) := deliverPage (recording_handler (λ e, Seq e =? 2)) 1 ex_consumer
                        (tabs ex_published, []) in
  with_applied (<[ex_consumer := (0, l)]> ∅) (with_tabs d ex_published).

Lemma ex_delivered_reachable : stream_reachable ex_delivered.
Proof.
  eapply stream_next; [apply ex_published_reachable|]. unfold ex_delivered.
  destruct (deliverPage _ _ _ _) as [r [d l]] eqn:E.
  by apply (deliver ex_published 1 ex_consumer (λ e, Seq e =? 2) r d 0 []).
Qed.

Lemma delivery_exactly_once_witness :
  applied_of ex_delivered ex_consumer = (0, [1]) ∧
  exactly (log ex_delivered) "entities" 0 (cur_seq (cursor_of (tabs ex_delivered) ex_consumer)) [1].
Proof.
  assert (applied_of ex_delivered ex_consumer = (0, [1])) as H by (vm_compute; reflexivity).
  split; [exact H|].
  apply (delivery_exactly_once ex_delivered ex_consumer 0 [1]); [apply ex_delivered_reachable|exact H].
Defined.

(** The first event is pruned before the consumer read it. *)
Definition ex_pruned : stream_state :=
  with_tabs (PruneChangeEvents 15 10 ∅ (tabs ex_published)).2 ex_published.

Lemma resync_iff_missed_witness :
  let '(r, (d', p')) := deliverPage (recording_handler (λ _, false)) 5 ex_consumer
                          (tabs ex_pruned, []) in
  (∃ cursor h, r = Err (ErrResyncRequired cursor h)) ↔
  ∃ q e, log ex_pruned !! q = Some e ∧ ev_Stream e = "entities" ∧
         cur_seq (cursor_of (tabs ex_pruned) ex_consumer) < q ∧
         change_events (tabs ex_pruned) !! q = None.
Proof.
  pose proof (resync_iff_missed (recording_handler (λ _, false)) ex_pruned 5 ex_consumer []) as H.
  destruct (deliverPage (recording_handler (λ _, false)) 5 ex_consumer (tabs ex_pruned, []))
    as [r [d' p']].
  apply H. eapply stream_next; [apply ex_published_reachable|apply prune].
Defined.

Lemma watermark_step_refines_witness :
  let '(r, d') := Step "w" 100 0 1 2 true (tabs ex_committed) in
  rtc stream_step ex_committed (with_tabs d' ex_committed).
Proof.
  pose proof (watermark_step_refines ex_committed "w" 100 0 1 2 eq_refl eq_refl) as H.
  destruct (Step "w" 100 0 1 2 true (tabs ex_committed)) as [r d']. apply H.
Defined.

Lemma ex_keyed : keyed (change_events (tabs ex_published)).
Proof. apply (ti_keyed _ _ _ (si_tables _ (stream_reachable_inv _ ex_published_reachable))). Qed.


Lemma tail_drains_pending_witness :
  ∃ d', tail_pages (recording_handler (λ _, false))
          (S (length (pending (tabs ex_published) ex_consumer))) 1 ex_consumer
          (tabs ex_published, []) = Some (Ok tt, (d', [1; 2])) ∧
        change_events d' = change_events (tabs ex_published).
Proof.
  destruct (tail_drains_pending (recording_handler (λ _, false)) 1 ex_consumer
              (tabs ex_published) [] [1; 2]) as (d' & H1 & H2 & _).
  - apply ex_keyed.
  - by vm_compute.
  - lia.
  - vm_compute. reflexivity.
  - exists d'. split; [exact H1|exact H2].
Defined.
