(* ===== verification/EntityWriter.v ===== *)
(** * The cache writer

    [internal/store/observation.go] (optimistic observations, the short entity
    transaction and its generation fences) and [internal/store/repository.go] with
    the repository statements of [internal/store/dbgen/cache.sql.go]: the
    write-if-newer upsert, aliases, tombstones, dirty marking and the outbox event
    of the same transaction.

    A transaction that holds the entity's advisory lock is one function on the
    state; [Err] is its rollback. The rows an event transaction inserts are kept in
    [emitted] in order: their sequences are allocated by the outbox of the file
    [Stream], where the transaction is a registered writer. *)

From Stdlib Require Import ZArith Lia Bool Ascii String.
From stdpp Require Import base list strings gmap numbers sorting.
From S2P Require Import Prelude GoStrings Keys RefreshQueue.

Local Open Scope Z_scope.

(** ** Rows *)

Record repo_row : Type := mkRepo {
  rp_id : Z;
  rp_installation_id : Z;
  rp_org_id : Z;
  rp_gh_id : Z;
  rp_node_id : string;
  rp_owner : string;
  rp_name : string;
  rp_full_name : string;
  rp_default_branch : string;
  rp_archived : bool;
  rp_gh_updated_at : option time;
  rp_head_sha : string;
  rp_synced_at : time;
  rp_last_checked_at : time;
  rp_etag : string;
  rp_sync_source : string;
  rp_tombstoned_at : option time
}.

Record alias_row : Type := mkAlias {
  al_repo_id : Z;
  first_seen_at : time;
  last_seen_at : time
}.

(** The columns of [stacks] and [pull_requests] the repository statements read. *)
Record stack_ref : Type := mkStackRef { st_repo_id : Z; st_number : Z; st_tombstoned : bool }.
Record pull_ref : Type :=
  mkPullRef { pl_repo_id : Z; pl_number : Z; pl_tombstoned : bool; pl_stack : option Z }.

(** The tables an entity transaction reads and writes. *)
Record cache : Type := mkCache {
  repos : gmap Z repo_row;
  last_repo_id : Z;
  repo_aliases : gmap string alias_row;
  stacks : list stack_ref;
  pull_requests : list pull_ref;
  derivation_dirty : gmap string time;
  emitted : list (string * string * time);
  refresh_intents : generations;
  branch_generations : gmap (Z * string) Z
}.

Definition set_repos (m : gmap Z repo_row) (n : Z) (c : cache) : cache :=
  mkCache m n (repo_aliases c) (stacks c) (pull_requests c) (derivation_dirty c) (emitted c)
    (refresh_intents c) (branch_generations c).
Definition set_aliases (m : gmap string alias_row) (c : cache) : cache :=
  mkCache (repos c) (last_repo_id c) m (stacks c) (pull_requests c) (derivation_dirty c) (emitted c)
    (refresh_intents c) (branch_generations c).
Definition set_dirty (m : gmap string time) (c : cache) : cache :=
  mkCache (repos c) (last_repo_id c) (repo_aliases c) (stacks c) (pull_requests c) m (emitted c)
    (refresh_intents c) (branch_generations c).
Definition set_emitted (l : list (string * string * time)) (c : cache) : cache :=
  mkCache (repos c) (last_repo_id c) (repo_aliases c) (stacks c) (pull_requests c)
    (derivation_dirty c) l (refresh_intents c) (branch_generations c).

(** [entity_observation_versions] and the cache. *)
Record writer_state : Type := mkWriter {
  versions : gmap string Z;
  body : cache
}.

(** ** Observations *)

Record Observation : Type := mkObservation {
  ob_key : string;
  ob_version : Z
}.

(** The errors of [validatePullRequest], one per message. *)
Inductive pull_error : Type :=
  | InvalidPullRequest
  | MembershipMismatch
  | InvalidStackSummary
  | InvalidReviewRequest
  | DuplicateReviewRequest
  | InvalidReview
  | DuplicateReview
  | InvalidComment
  | DuplicateComment
  | SnapshotRequired
  | InvalidSnapshotFence
  | InvalidCodeownersSource
  | InvalidChangedFile
  | DuplicateChangedFile
  | InvalidFileOwner
  | DuplicateFileOwner.

Inductive write_error : Type :=
  | ObservationKeyRequired
  | ObservationRequired
  | ObservationKeyMismatch
  | ErrObservationSuperseded
  | ErrRefreshGenerationSuperseded
  | ErrBranchReconciliationSuperseded
  | InvalidRefreshFence
  | InvalidBranchFence
  | InvalidRepositoryRecord
  | InvalidTombstoneSource
  | RepositoryNotFound
  | InvalidStackRecord
  | InvalidChecksRecord
  | InvalidRepoRulesRecord
  | InvalidPullRequestRecord (e : pull_error)
  | PullRequestNotFound
  | DuplicateRow
  | TransactionHookFailed.

(** [GetEntityObservationVersion], with 0 for an absent row. *)
Definition version_of (st : writer_state) (key : string) : Z := default 0 (versions st !! key).

Definition BeginObservation (key : string) (st : writer_state) : result write_error Observation :=
  if bool_decide (key = "") then Err ObservationKeyRequired
  else Ok (mkObservation key (version_of st key)).

Definition verifyObservationVersion (o : Observation) (st : writer_state) : result write_error unit :=
  if version_of st (ob_key o) =? ob_version o then Ok tt else Err ErrObservationSuperseded.

Definition requireObservation (o : option Observation) (key : string) : result write_error unit :=
  match o with
  | None => Err ObservationRequired
  | Some o => if bool_decide (ob_key o = key) then Ok tt else Err ObservationKeyMismatch
  end.

(** [AdvanceEntityObservationVersion]. *)
Definition AdvanceEntityObservationVersion (key : string) (m : gmap string Z) : gmap string Z :=
  <[key := match m !! key with Some v => v + 1 | None => 1 end]> m.

(** ** Generation fences *)

Record RefreshGenerationFence : Type := mkRefreshFence {
  rf_Kind : string;
  rf_RefreshKey : string;
  rf_Generation : Z
}.

Record BranchReconciliationFence : Type := mkBranchFence {
  bf_RepoID : Z;
  bf_Branch : string;
  bf_BranchGeneration : Z;
  bf_RefreshKind : string;
  bf_RefreshKey : string;
  bf_RefreshGeneration : Z;
  bf_EntityKey : string
}.

Definition checkRefreshGenerationFence (g : generations) (f : RefreshGenerationFence)
    : result write_error unit :=
  if bool_decide (rf_Kind f = "") || bool_decide (rf_RefreshKey f = "") || (rf_Generation f <? 0)
  then Err InvalidRefreshFence
  else
    match g !! (rf_Kind f, rf_RefreshKey f) with
    | None => if rf_Generation f =? 0 then Ok tt else Err ErrRefreshGenerationSuperseded
    | Some row =>
        if (rf_Generation f =? 0)
           || (negb (generation row =? rf_Generation f)
               && (rf_Generation f <? completed_generation row))
        then Err ErrRefreshGenerationSuperseded
        else Ok tt
    end.

Definition checkBranchReconciliationFence (g : generations) (b : gmap (Z * string) Z)
    (entityKey : string) (f : BranchReconciliationFence) : result write_error unit :=
  if (bf_RepoID f <=? 0) || bool_decide (bf_Branch f = "") || (bf_BranchGeneration f <=? 0)
     || bool_decide (bf_RefreshKind f = "") || bool_decide (bf_RefreshKey f = "")
     || (bf_RefreshGeneration f <=? 0) || bool_decide (bf_EntityKey f = "")
     || negb (bool_decide (bf_EntityKey f = entityKey))
  then Err InvalidBranchFence
  else
    match g !! (bf_RefreshKind f, bf_RefreshKey f) with
    | None => Err ErrBranchReconciliationSuperseded
    | Some row =>
        match b !! (bf_RepoID f, bf_Branch f) with
        | None => Err ErrBranchReconciliationSuperseded
        | Some branchGeneration =>
            if negb (generation row =? bf_RefreshGeneration f)
               || negb (branchGeneration =? bf_BranchGeneration f)
            then Err ErrBranchReconciliationSuperseded
            else Ok tt
        end
    end.

(** ** The entity transaction *)

(** The fences a context may carry. *)
Record fences : Type := mkFences {
  refresh_fence : option RefreshGenerationFence;
  branch_fence : option BranchReconciliationFence
}.

Definition no_fences : fences := mkFences None None.

(** [withEntityTx]: the checks in the code's order, the callback on the cache, the
    fences on what the callback left, and the version advance of the commit. *)
Definition withEntityTx (ctx : fences) (observation : option Observation) (key : string)
    (fn : cache → result write_error cache) (st : writer_state)
    : result write_error writer_state :=
  _ ← match observation with
      | Some o => requireObservation (Some o) key
      | None => Ok tt
      end;
  _ ← match observation with
      | Some o =>
          match verifyObservationVersion o st with
          | Ok _ => Ok tt
          | Err _ =>
              match branch_fence ctx with
              | Some _ => Err ErrBranchReconciliationSuperseded
              | None => Err ErrObservationSuperseded
              end
          end
      | None => Ok tt
      end;
  c ← fn (body st);
  _ ← match refresh_fence ctx with
      | Some f => checkRefreshGenerationFence (refresh_intents c) f
      | None => Ok tt
      end;
  _ ← match branch_fence ctx with
      | Some f => checkBranchReconciliationFence (refresh_intents c) (branch_generations c) key f
      | None => Ok tt
      end;
  Ok (mkWriter (AdvanceEntityObservationVersion key (versions st)) c).

(** [WithObservationTransaction]: the same version check, no version advance. *)
Definition WithObservationTransaction (observation : option Observation)
    (fn : cache → result write_error cache) (st : writer_state)
    : result write_error writer_state :=
  match observation with
  | None => Err ObservationRequired
  | Some o =>
      _ ← verifyObservationVersion o st;
      c ← fn (body st);
      Ok (mkWriter (versions st) c)
  end.

(** ** Dirty marks and events *)

(** [MarkDerivationDirty]. *)
Definition mark_dirty (at_ : time) (m : gmap string time) (scope : string) : gmap string time :=
  <[scope := match m !! scope with Some t => Z.max t at_ | None => at_ end]> m.

Definition MarkDerivationDirty (at_ : time) (scopes : list string) (m : gmap string time)
    : gmap string time :=
  foldl (mark_dirty at_) m scopes.

Definition markAndEmit (scopes : list string) (kind entityKey : string) (at_ : time) (c : cache)
    : cache :=
  let c := match scopes with
           | [] => c
           | _ => set_dirty (MarkDerivationDirty at_ scopes (derivation_dirty c)) c
           end in
  set_emitted (emitted c ++ [(kind, entityKey, at_)]) c.

(** [ListRepositoryDerivationScopes]: live stacks and live unstacked pulls. *)
Definition ListRepositoryDerivationScopes (c : cache) (r : repo_row) : list string :=
  uniqueStrings
    (map (λ s, Outbox.StackKey (rp_installation_id r) (rp_gh_id r) (st_number s))
       (filter (λ s, st_repo_id s = rp_id r ∧ st_tombstoned s = false) (stacks c))
     ++ map (λ p, Outbox.PullRequestKey (rp_installation_id r) (rp_gh_id r) (pl_number p))
          (filter (λ p, pl_repo_id p = rp_id r ∧ pl_tombstoned p = false ∧ pl_stack p = None)
             (pull_requests c))).

(** ** Repositories *)

Record RepositoryRecord : Type := mkRepository {
  InstallationID : Z;
  OrgID : Z;
  GitHubID : Z;
  NodeID : string;
  Owner : string;
  Name : string;
  FullName : string;
  DefaultBranch : string;
  DefaultHeadSHA : string;
  Archived : bool;
  GitHubUpdatedAt : time
}.

Definition RepositoryChangedKind : string := "repository.changed".
Definition RepositoryTombstonedKind : string := "repository.tombstoned".

Definition SyncSource_Valid (s : string) : bool :=
  bool_decide (s ∈ ["webhook"; "reconcile"; "backfill"; "manual"; "interactive"]).

Definition validateRepository (r : RepositoryRecord) (source : string) : result write_error unit :=
  if negb (SyncSource_Valid source) || (InstallationID r <=? 0) || (OrgID r <=? 0)
     || (GitHubID r <=? 0) || bool_decide (Owner r = "") || bool_decide (Name r = "")
     || negb (bool_decide (FullName r = Owner r +:+ "/" +:+ Name r))
     || IsZero (GitHubUpdatedAt r)
  then Err InvalidRepositoryRecord else Ok tt.

(** The head an upsert stores: an unknown head keeps the cached one. *)
Definition upserted_head (r : RepositoryRecord) (row : repo_row) : string :=
  if bool_decide (DefaultHeadSHA r = "") then rp_head_sha row else DefaultHeadSHA r.

(** The row an upsert writes over [id] with head [head]. *)
Definition repo_of (id : Z) (head : string) (r : RepositoryRecord) (source etag : string)
    (observedAt : time) : repo_row :=
  mkRepo id (InstallationID r) (OrgID r) (GitHubID r) (NodeID r) (Owner r) (Name r) (FullName r)
    (DefaultBranch r) (Archived r) (nullable (GitHubUpdatedAt r)) head observedAt observedAt etag
    source None.

(** The semantic columns two observations with equal GitHub times are compared
    on. *)
Definition semantic_columns (row : repo_row) : Z * Z * string * string * string * string * string * bool * string :=
  (rp_installation_id row, rp_org_id row, rp_node_id row, rp_owner row, rp_name row,
   rp_full_name row, rp_default_branch row, rp_archived row, rp_head_sha row).

(** The condition of the conflicting update, on the incoming row [new]. *)
Definition write_if_newer (row new : repo_row) : bool :=
  bool_decide (rp_gh_updated_at row = None)
  || match rp_gh_updated_at new, rp_gh_updated_at row with
     | Some n, Some o => o <? n
     | _, _ => false
     end
  || (bool_decide (rp_gh_updated_at new = rp_gh_updated_at row)
      && negb (bool_decide (semantic_columns new = semantic_columns row)))
  || match rp_tombstoned_at row with
     | Some t => t <? rp_last_checked_at new
     | None => false
     end.

(** [UpsertRepositoryWriteIfNewer]: the row written, or [None] for no row. *)
Definition UpsertRepositoryWriteIfNewer (r : RepositoryRecord) (source etag : string)
    (observedAt : time) (c : cache) : option repo_row * cache :=
  match repos c !! GitHubID r with
  | None =>
      let row := repo_of (last_repo_id c + 1) (DefaultHeadSHA r) r source etag observedAt in
      (Some row, set_repos (<[GitHubID r := row]> (repos c)) (last_repo_id c + 1) c)
  | Some row =>
      let new := repo_of (rp_id row) (upserted_head r row) r source etag observedAt in
      if write_if_newer row new
      then (Some new, set_repos (<[GitHubID r := new]> (repos c)) (last_repo_id c) c)
      else (None, c)
  end.

(** [TouchRepositoryCheckedAt]. *)
Definition touch_row (checkedAt : time) (etag : string) (row : repo_row) : repo_row :=
  mkRepo (rp_id row) (rp_installation_id row) (rp_org_id row) (rp_gh_id row) (rp_node_id row)
    (rp_owner row) (rp_name row) (rp_full_name row) (rp_default_branch row) (rp_archived row)
    (rp_gh_updated_at row) (rp_head_sha row) (rp_synced_at row)
    (Z.max (rp_last_checked_at row) checkedAt)
    (if bool_decide (etag = "") then rp_etag row else etag) (rp_sync_source row)
    (rp_tombstoned_at row).

Definition TouchRepositoryCheckedAt (checkedAt : time) (etag : string) (ghID : Z) (c : cache) : cache :=
  set_repos (alter (touch_row checkedAt etag) ghID (repos c)) (last_repo_id c) c.

(** [UpsertRepositoryAlias]. *)
Definition UpsertRepositoryAlias (fullName : string) (repoID : Z) (observedAt : time) (c : cache)
    : cache :=
  match repo_aliases c !! fullName with
  | None => set_aliases (<[fullName := mkAlias repoID observedAt observedAt]> (repo_aliases c)) c
  | Some a =>
      if last_seen_at a <=? observedAt
      then set_aliases (<[fullName := mkAlias repoID (first_seen_at a)
                                        (Z.max (last_seen_at a) observedAt)]> (repo_aliases c)) c
      else c
  end.

(** [applyRepositoryTx]: the row it leaves, whether it was applied, the cache. *)
Definition applyRepositoryTx (r : RepositoryRecord) (source etag : string) (observedAt : time)
    (c : cache) : result write_error (repo_row * bool * cache) :=
  _ ← validateRepository r source;
  let '(written, c1) := UpsertRepositoryWriteIfNewer r source etag observedAt c in
  match match written with Some row => Some row | None => repos c1 !! GitHubID r end with
  | None => Err RepositoryNotFound
  | Some row =>
      let c2 := TouchRepositoryCheckedAt observedAt etag (GitHubID r) c1 in
      let c3 := UpsertRepositoryAlias (FullName r) (rp_id row) observedAt c2 in
      match written with
      | None => Ok (row, false, c3)
      | Some _ =>
          Ok (row, true,
              markAndEmit (ListRepositoryDerivationScopes c3 row) RepositoryChangedKind
                (Outbox.RepositoryKey (rp_installation_id row) (rp_gh_id row)) observedAt c3)
      end
  end.

(** [applyRepository], [ApplyRepository] (no observation) and
    [ApplyRepositoryObserved], at the database clock [databaseTime]. *)
Definition applyRepository (ctx : fences) (observation : option Observation) (r : RepositoryRecord)
    (source etag : string) (databaseTime : time) (st : writer_state)
    : result write_error writer_state :=
  withEntityTx ctx observation (Outbox.RepositoryKey (InstallationID r) (GitHubID r))
    (λ c, '(_, _, c') ← applyRepositoryTx r source etag databaseTime c; Ok c') st.

Definition ApplyRepositoryObserved (ctx : fences) (observation : option Observation)
    (r : RepositoryRecord) (source etag : string) (databaseTime : time) (st : writer_state)
    : result write_error writer_state :=
  _ ← requireObservation observation (Outbox.RepositoryKey (InstallationID r) (GitHubID r));
  applyRepository ctx observation r source etag databaseTime st.

(** [TombstoneRepository]. *)
Definition TombstoneRepository (at_ : time) (source : string) (ghID : Z) (c : cache) : option cache :=
  match repos c !! ghID with
  | Some row =>
      if bool_decide (rp_tombstoned_at row = None) && (rp_last_checked_at row <=? at_) then
        Some (set_repos
          (<[ghID := mkRepo (rp_id row) (rp_installation_id row) (rp_org_id row) (rp_gh_id row)
             (rp_node_id row) (rp_owner row) (rp_name row) (rp_full_name row) (rp_default_branch row)
             (rp_archived row) (rp_gh_updated_at row) (rp_head_sha row) at_
             (Z.max (rp_last_checked_at row) at_) "" source (Some at_)]> (repos c))
          (last_repo_id c) c)
      else None
  | None => None
  end.

(** The callback of [TombstoneRepositoryObserved]. *)
Definition tombstoneTx (r : RepositoryRecord) (source : string) (at_ : time) (c : cache) : cache :=
  match repos c !! GitHubID r with
  | None => c
  | Some current =>
      let scopes := ListRepositoryDerivationScopes c current in
      match TombstoneRepository at_ source (GitHubID r) c with
      | None => c
      | Some c1 =>
          markAndEmit scopes RepositoryTombstonedKind
            (Outbox.RepositoryKey (InstallationID r) (GitHubID r)) at_ c1
      end
  end.

Definition TombstoneRepositoryObserved (ctx : fences) (observation : option Observation)
    (r : RepositoryRecord) (source : string) (databaseTime : time) (st : writer_state)
    : result write_error writer_state :=
  if negb (SyncSource_Valid source) then Err InvalidTombstoneSource
  else
    let key := Outbox.RepositoryKey (InstallationID r) (GitHubID r) in
    _ ← requireObservation observation key;
    withEntityTx ctx observation key (λ c, Ok (tombstoneTx r source databaseTime c)) st.

(** ** Lemmas *)

Lemma advance_version st key k c :
  version_of (mkWriter (AdvanceEntityObservationVersion key (versions st)) c) k =
  version_of st k + if decide (key = k) then 1 else 0.
Proof.
  unfold version_of, AdvanceEntityObservationVersion. cbn. case_decide as Hk.
  - subst k. rewrite lookup_insert_eq. destruct (versions st !! key); cbn; lia.
  - rewrite lookup_insert_ne by done. lia.
Qed.

Lemma withEntityTx_ok ctx o key fn st st' :
  withEntityTx ctx o key fn st = Ok st' →
  ∃ c, fn (body st) = Ok c ∧
       st' = mkWriter (AdvanceEntityObservationVersion key (versions st)) c.
Proof.
  unfold withEntityTx.
  intros (_ & _ & (_ & _ & (c & Hc & (_ & _ & (_ & _ & [= <-])%bind_ok)%bind_ok)%bind_ok)%bind_ok)%bind_ok.
  eauto.
Qed.

(** A history of committed transactions, with the keys of the entity writes. *)
Inductive commits : list string → writer_state → writer_state → Prop :=
  | commits_nil st : commits [] st st
  | commits_write ctx o key fn st st1 ks st2 :
      withEntityTx ctx o key fn st = Ok st1 → commits ks st1 st2 → commits (key :: ks) st st2
  | commits_side o fn st st1 ks st2 :
      WithObservationTransaction o fn st = Ok st1 → commits ks st1 st2 → commits ks st st2.

Definition writes_of (key : string) (ks : list string) : Z :=
  Z.of_nat (length (filter (λ k, k = key) ks)).

Lemma commits_version ks st st' key :
  commits ks st st' → version_of st' key = version_of st key + writes_of key ks.
Proof.
  unfold writes_of. induction 1 as [st|ctx o k fn st st1 ks st2 Hw _ IH|o fn st st1 ks st2 Hw _ IH].
  - cbn. lia.
  - apply withEntityTx_ok in Hw as (c & _ & ->). rewrite IH, advance_version, filter_cons.
    repeat case_decide; cbn [length]; (lia || congruence).
  - rewrite IH. destruct o as [o|]; [|done]. cbn in Hw.
    by apply bind_ok in Hw as (_ & _ & (c & _ & [= <-])%bind_ok).
Qed.

Lemma writes_of_elem key ks : key ∈ ks ↔ 0 < writes_of key ks.
Proof.
  unfold writes_of. split.
  - intros H. assert (key ∈ filter (λ k, k = key) ks) as Hf by by apply list_elem_of_filter.
    destruct (filter _ ks); [by apply elem_of_nil in Hf|cbn; lia].
  - destruct (filter (λ k, k = key) ks) as [|k l] eqn:E; cbn; [lia|]. intros _.
    assert (k ∈ filter (λ k, k = key) ks) as Hk by (rewrite E; by left).
    by apply list_elem_of_filter in Hk as [-> ?].
Qed.

(** C7. A stale response never reaches the cache. If an observation of an entity
    is begun and then any history of transactions commits, a later write with
    that observation is rejected as superseded, whatever its callback and fences,
    exactly when the history contains a committed write of the same entity;
    otherwise the observation changes nothing: the write behaves as one without an
    observation. *)
Theorem stale_observation_discarded key o st ks st'
    (Hbegin : BeginObservation key st = Ok o) (Hcommits : commits ks st st') :
  (key ∈ ks → ∀ ctx fn, withEntityTx ctx (Some o) key fn st' =
     Err match branch_fence ctx with
         | Some _ => ErrBranchReconciliationSuperseded
         | None => ErrObservationSuperseded
         end) ∧
  (key ∉ ks → ∀ ctx fn, withEntityTx ctx (Some o) key fn st' = withEntityTx ctx None key fn st').
Proof.
  unfold BeginObservation in Hbegin. case_bool_decide; [done|]. injection Hbegin as <-.
  pose proof (commits_version _ _ _ key Hcommits) as Hv. rewrite writes_of_elem.
  assert (0 ≤ writes_of key ks) by (unfold writes_of; lia).
  unfold withEntityTx, requireObservation, verifyObservationVersion. cbn [ob_key ob_version].
  rewrite bool_decide_true by done. split; intros Hin ctx fn; cbn [mbind result_bind].
  - rewrite (proj2 (Z.eqb_neq _ _)) by lia. by destruct (branch_fence ctx).
  - rewrite (proj2 (Z.eqb_eq _ _)) by lia. done.
Qed.

Lemma stale_observation_discarded_witness :
  let st := mkWriter ∅ (mkCache ∅ 0 ∅ [] [] ∅ [] ∅ ∅) in
  let st' := mkWriter {[ "repo:1:2" := 1 ]} (mkCache ∅ 0 ∅ [] [] ∅ [] ∅ ∅) in
  withEntityTx no_fences (Some (mkObservation "repo:1:2" 0)) "repo:1:2" (λ c, Ok c) st' =
  Err ErrObservationSuperseded.
Proof.
  intros st st'.
  destruct (stale_observation_discarded "repo:1:2" (mkObservation "repo:1:2" 0) st ["repo:1:2"] st')
    as [H _].
  - vm_compute. reflexivity.
  - eapply (commits_write no_fences None "repo:1:2" (λ c, Ok c)); [vm_compute; reflexivity|].
    apply commits_nil.
  - apply (H ltac:(by left) no_fences (λ c, Ok c)).
Defined.

(** The generation fence of a direct refresh rejects exactly what a branch bulk
    overtook. For a worker that started at the identity's current generation
    [started], and any later state of the identity's row, the check of
    [withEntityTx] fails if and only if a generation above [started] has been
    completed since. In particular it fails after a branch bulk claimed the
    identity, and newer signals alone do not make it fail. *)
Theorem refresh_fence_exact now g g' i started
    (Hkind : i.1 ≠ "") (Hkey : i.2 ≠ "")
    (Hstarted : started = current_generation g i) (Hpos : 0 < started)
    (Hrow : completed g i ≤ started)
    (Hlater : current_generation g i ≤ current_generation g' i)
    (Hrow' : completed g' i ≤ current_generation g' i) :
  let check g := checkRefreshGenerationFence g (mkRefreshFence i.1 i.2 started) in
  (check g' = if started <? completed g' i then Err ErrRefreshGenerationSuperseded else Ok tt) ∧
  check (claim_generation now g i) = Err ErrRefreshGenerationSuperseded ∧
  ∀ specs, check (BumpRefreshIntentGenerations now g specs) = Ok tt.
Proof.
  assert (Hgen : ∀ g1, started ≤ current_generation g1 i → completed g1 i ≤ current_generation g1 i →
    checkRefreshGenerationFence g1 (mkRefreshFence i.1 i.2 started) =
    if started <? completed g1 i then Err ErrRefreshGenerationSuperseded else Ok tt).
  { intros g1 H1 H2. unfold checkRefreshGenerationFence. cbn [rf_Kind rf_RefreshKey rf_Generation].
    rewrite !bool_decide_false by done. rewrite (proj2 (Z.ltb_ge _ _)) by lia. cbn [orb].
    rewrite <- surjective_pairing. unfold current_generation, completed in *.
    destruct (g1 !! i) as [row|]; cbn in *; [|lia].
    rewrite (proj2 (Z.eqb_neq started 0)) by lia. cbn [orb].
    destruct (started <? completed_generation row) eqn:E; to_props; [|by rewrite andb_false_r].
    rewrite (proj2 (Z.eqb_neq _ _)) by lia. done. }
  cbv zeta. split_and!.
  - apply Hgen; lia.
  - rewrite Hgen; rewrite ?claim_current, ?claim_completed, ?decide_True by done; [|lia..].
    by rewrite (proj2 (Z.ltb_lt _ _)) by lia.
  - intros specs. pose proof (bump_current_mono now specs g i).
    rewrite Hgen; rewrite ?bump_completed; [|lia..]. by rewrite (proj2 (Z.ltb_ge _ _)) by lia.
Qed.

Lemma refresh_fence_exact_witness :
  let g : generations := {[ (KindRefreshPR, "pr:o/r:7") := mkRow 2 1 None None 10 ]} in
  checkRefreshGenerationFence (claim_generation 20 g (KindRefreshPR, "pr:o/r:7"))
    (mkRefreshFence KindRefreshPR "pr:o/r:7" 2) = Err ErrRefreshGenerationSuperseded.
Proof.
  intros g.
  destruct (refresh_fence_exact 20 g g (KindRefreshPR, "pr:o/r:7") 2) as (_ & H & _);
    [done|done|by vm_compute..|exact H].
Defined.

(** *** Dirty marks *)

Lemma mark_dirty_lookup at_ m scope k t :
  m !! k = Some t → ∃ t', mark_dirty at_ m scope !! k = Some t' ∧ t ≤ t'.
Proof.
  intros H. unfold mark_dirty. destruct (decide (scope = k)) as [->|?].
  - rewrite lookup_insert_eq, H. eexists. split; [done|lia].
  - rewrite lookup_insert_ne by done. eauto using Z.le_refl.
Qed.

Lemma mark_all_mono at_ scopes m k t :
  m !! k = Some t → ∃ t', MarkDerivationDirty at_ scopes m !! k = Some t' ∧ t ≤ t'.
Proof.
  unfold MarkDerivationDirty. revert m t. induction scopes as [|s scopes IH]; intros m t H; cbn [foldl].
  - eauto using Z.le_refl.
  - destruct (mark_dirty_lookup at_ m s k t H) as (t1 & H1 & ?).
    destruct (IH _ _ H1) as (t2 & ? & ?). exists t2. split; [done|lia].
Qed.

Lemma mark_all_marked at_ scopes m k :
  k ∈ scopes → ∃ t, MarkDerivationDirty at_ scopes m !! k = Some t ∧ at_ ≤ t.
Proof.
  revert m. induction scopes as [|s scopes IH]; intros m; [by intros ?%elem_of_nil|].
  intros [->|Hk]%elem_of_cons; [|by apply (IH (mark_dirty at_ m s))].
  assert (∃ t, mark_dirty at_ m s !! s = Some t ∧ at_ ≤ t) as (t & Ht & ?).
  { unfold mark_dirty. rewrite lookup_insert_eq. eexists. split; [done|]. destruct (m !! s); lia. }
  destruct (mark_all_mono at_ scopes _ _ _ Ht) as (t' & ? & ?). exists t'. split; [done|lia].
Qed.

Lemma markAndEmit_effect scopes kind key at_ c :
  let c' := markAndEmit scopes kind key at_ c in
  repos c' = repos c ∧ emitted c' = emitted c ++ [(kind, key, at_)] ∧
  (∀ k, k ∈ scopes → ∃ t, derivation_dirty c' !! k = Some t ∧ at_ ≤ t) ∧
  (∀ k t, derivation_dirty c !! k = Some t → ∃ t', derivation_dirty c' !! k = Some t' ∧ t ≤ t').
Proof.
  unfold markAndEmit. destruct scopes as [|s scopes].
  - cbn. split_and!; [done|done|by intros k ?%elem_of_nil|eauto using Z.le_refl].
  - cbn -[MarkDerivationDirty]. split_and!; [done|done| |].
    + intros k. apply mark_all_marked.
    + intros k t. apply mark_all_mono.
Qed.

(** *** The repository write *)

Definition repo_frame (c c' : cache) : Prop :=
  stacks c' = stacks c ∧ pull_requests c' = pull_requests c ∧
  derivation_dirty c' = derivation_dirty c ∧ emitted c' = emitted c.

Lemma alias_frame n id t c :
  repo_frame c (UpsertRepositoryAlias n id t c) ∧ repos (UpsertRepositoryAlias n id t c) = repos c.
Proof.
  unfold UpsertRepositoryAlias, repo_frame. destruct (repo_aliases c !! n); [case_if|]; done.
Qed.

Lemma upsert_repository_effect r source etag t c :
  let '(written, c1) := UpsertRepositoryWriteIfNewer r source etag t c in
  repo_frame c c1 ∧ (∀ g, g ≠ GitHubID r → repos c1 !! g = repos c !! g) ∧
  match written with
  | Some w => repos c1 !! GitHubID r = Some w ∧ rp_installation_id w = InstallationID r ∧
              rp_gh_id w = GitHubID r
  | None => c1 = c ∧ repos c !! GitHubID r ≠ None
  end ∧
  match repos c !! GitHubID r with
  | None => written = Some (repo_of (last_repo_id c + 1) (DefaultHeadSHA r) r source etag t)
  | Some old =>
      let new := repo_of (rp_id old) (upserted_head r old) r source etag t in
      written = if write_if_newer old new then Some new else None
  end.
Proof.
  unfold UpsertRepositoryWriteIfNewer.
  destruct (repos c !! GitHubID r) as [old|] eqn:E; [case_if|]; cbn;
    split_and!; rewrite ?lookup_insert_eq; try done; intros g Hg; by rewrite lookup_insert_ne.
Qed.

(** What [applyRepositoryTx] leaves under the repository's id. *)
Lemma apply_repository_effect r source etag t c row applied c' :
  applyRepositoryTx r source etag t c = Ok (row, applied, c') →
  (∀ g, g ≠ GitHubID r → repos c' !! g = repos c !! g) ∧
  repos c' !! GitHubID r = Some (touch_row t etag row) ∧
  match repos c !! GitHubID r with
  | None =>
      applied = true ∧ row = repo_of (last_repo_id c + 1) (DefaultHeadSHA r) r source etag t
  | Some old =>
      let new := repo_of (rp_id old) (upserted_head r old) r source etag t in
      applied = write_if_newer old new ∧ row = if applied then new else old
  end ∧
  emitted c' = emitted c ++
    (if applied then [(RepositoryChangedKind,
        Outbox.RepositoryKey (InstallationID r) (GitHubID r), t)] else []) ∧
  (if applied
   then ∀ k, k ∈ ListRepositoryDerivationScopes c row →
             ∃ m, derivation_dirty c' !! k = Some m ∧ t ≤ m
   else derivation_dirty c' = derivation_dirty c).
Proof.
  unfold applyRepositoryTx. intros (_ & _ & H)%bind_ok.
  destruct (UpsertRepositoryWriteIfNewer r source etag t c) as [written c1] eqn:Eu.
  pose proof (upsert_repository_effect r source etag t c) as Hup. rewrite Eu in Hup.
  destruct Hup as (Hf1 & Hother & Hwritten & Hcase).
  set (row1 := match written with Some w => Some w | None => repos c1 !! GitHubID r end) in H.
  destruct row1 as [row0|] eqn:Erow; [|done].
  assert (Hrow1 : repos c1 !! GitHubID r = Some row0).
  { subst row1. destruct written; [destruct Hwritten as [? _]; congruence|done]. }
  set (c2 := TouchRepositoryCheckedAt t etag (GitHubID r) c1) in H.
  set (c3 := UpsertRepositoryAlias (FullName r) (rp_id row0) t c2) in H.
  destruct (alias_frame (FullName r) (rp_id row0) t c2) as [Hf3 Hr3]. fold c3 in Hf3, Hr3.
  assert (Hrepos : ∀ g, repos c3 !! g = if decide (g = GitHubID r)
                                        then Some (touch_row t etag row0) else repos c !! g).
  { intros g. rewrite Hr3. cbn. case_decide as Hg.
    - subst g. by rewrite lookup_alter_eq, Hrow1.
    - by rewrite lookup_alter_ne, Hother by done. }
  assert (Hframe : repo_frame c c3).
  { destruct Hf1 as (? & ? & ? & ?), Hf3 as (? & ? & ? & ?). subst c2. cbn in *.
    split_and!; congruence. }
  destruct Hframe as (Hst & Hpl & Hdi & Hem).
  assert (Hscopes : ListRepositoryDerivationScopes c3 row0 = ListRepositoryDerivationScopes c row0)
    by (unfold ListRepositoryDerivationScopes; by rewrite Hst, Hpl).
  destruct written as [w|].
  - injection H as <- <- <-. destruct Hwritten as (Hw & Hinst & Hgh). injection Erow as ->.
    destruct (markAndEmit_effect (ListRepositoryDerivationScopes c3 row0) RepositoryChangedKind
                (Outbox.RepositoryKey (rp_installation_id row0) (rp_gh_id row0)) t c3)
      as (Hr & He & Hd & _). rewrite Hinst, Hgh in *.
    rewrite Hr, He, Hem, <- Hscopes. split_and!; [|by rewrite Hrepos, decide_True| |done|done].
    + intros g Hg. by rewrite Hrepos, decide_False.
    + destruct (repos c !! GitHubID r) as [old|]; cbv zeta in *; [|by simplify_eq].
      by destruct (write_if_newer old _); simplify_eq.
  - injection H as <- <- <-. destruct Hwritten as [-> Hno].
    rewrite Hem, Hdi, app_nil_r. split_and!; [|by rewrite Hrepos, decide_True| |done|done].
    + intros g Hg. by rewrite Hrepos, decide_False.
    + destruct (repos c !! GitHubID r) as [old|]; cbv zeta in *; [|by simplify_eq].
      by destruct (write_if_newer old _); simplify_eq.
Qed.

(** A repository observation is written exactly when it is news, and the event
    and the dirty marks are written exactly with it. [applyRepositoryTx] succeeds
    exactly on valid records; it is applied when the repository is unknown or the
    write-if-newer condition holds against the cached row; an applied write emits
    one [repository.changed] event under the repository's key and marks every
    derivation scope of the repository dirty at or after the observation, an
    unapplied one emits nothing and marks nothing; other repositories keep their
    rows. *)
Theorem repository_write_exact r source etag t c :
  ((∃ out, applyRepositoryTx r source etag t c = Ok out) ↔ validateRepository r source = Ok tt) ∧
  ∀ row applied c', applyRepositoryTx r source etag t c = Ok (row, applied, c') →
  (applied = true ↔
     ∀ old, repos c !! GitHubID r = Some old →
       write_if_newer old (repo_of (rp_id old) (upserted_head r old) r source etag t) = true) ∧
  emitted c' = emitted c ++
    (if applied then [(RepositoryChangedKind,
        Outbox.RepositoryKey (InstallationID r) (GitHubID r), t)] else []) ∧
  (if applied
   then ∀ k, k ∈ ListRepositoryDerivationScopes c row →
             ∃ m, derivation_dirty c' !! k = Some m ∧ t ≤ m
   else derivation_dirty c' = derivation_dirty c) ∧
  (∀ g, g ≠ GitHubID r → repos c' !! g = repos c !! g).
Proof.
  split.
  - split; [intros [out (u & Hu & _)%bind_ok]; by destruct u|]. intros Hv.
    pose proof (upsert_repository_effect r source etag t c) as Hup.
    unfold applyRepositoryTx. rewrite Hv. cbn [mbind result_bind].
    destruct (UpsertRepositoryWriteIfNewer r source etag t c) as [[w|] c1]; [by eexists|].
    destruct Hup as (_ & _ & [-> Hno] & _).
    destruct (repos c !! GitHubID r); [by eexists|done].
  - intros row applied c' (Hother & _ & Hcase & He & Hd)%apply_repository_effect.
    split_and!; [|done|done|done].
    destruct (repos c !! GitHubID r) as [old|].
    + destruct Hcase as [-> _]. split; [by intros ? ? [= <-]|by intros ->].
    + destruct Hcase as [-> _]. done.
Qed.

(** The repository cache does not go backwards. Applying any observation to a
    cached repository keeps the row; while the row is not tombstoned its GitHub
    update time never decreases; a known head commit is never replaced by an
    unknown one; an observation that is not applied leaves every semantic column
    and the tombstone as they were, and an applied one clears the tombstone. *)
Theorem repository_never_regresses r source etag t c old row applied c'
    (Hold : repos c !! GitHubID r = Some old)
    (Happly : applyRepositoryTx r source etag t c = Ok (row, applied, c')) :
  ∃ new, repos c' !! GitHubID r = Some new ∧ rp_id new = rp_id old ∧
    (rp_tombstoned_at old = None → ∀ o, rp_gh_updated_at old = Some o →
       ∃ n, rp_gh_updated_at new = Some n ∧ o ≤ n) ∧
    (rp_head_sha new = "" → rp_head_sha old = "") ∧
    (applied = false → semantic_columns new = semantic_columns old ∧
                       rp_tombstoned_at new = rp_tombstoned_at old) ∧
    (applied = true → rp_tombstoned_at new = None).
Proof.
  apply apply_repository_effect in Happly as (_ & Hnew & Hcase & _). rewrite Hold in Hcase.
  destruct Hcase as [Happ ->]. eexists. split; [exact Hnew|]. destruct applied.
  - cbn -[upserted_head]. split_and!; [done| | |done|done].
    + intros Htomb o Ho. unfold write_if_newer in Happ. rewrite Ho, Htomb in Happ.
      rewrite (bool_decide_false (Some o = None)) in Happ by done. cbn in Happ.
      destruct (nullable (GitHubUpdatedAt r)) as [n|]; cbn in Happ.
      * exists n. split; [done|]. destruct (o <? n) eqn:E; to_props; [lia|]. cbn in Happ.
        rewrite orb_false_r in Happ. symmetry in Happ. to_props. simplify_eq. lia.
      * rewrite bool_decide_false in Happ by done. done.
    + unfold upserted_head. case_bool_decide; [done|]. done.
  - cbn. split_and!; [done| |done|done|done]. intros _ o Ho. eauto using Z.le_refl.
Qed.

(** A cached repository with one live stack, and a newer observation of it. *)
Definition example_record : RepositoryRecord :=
  mkRepository 1 5 2 "n" "o" "r" "o/r" "main" "" false 40.

Definition example_cache : cache :=
  mkCache {[ 2 := mkRepo 9 1 5 2 "n" "o" "r" "o/r" "main" false (Some 30) "abc" 10 10 "" "webhook" None ]}
    9 ∅ [mkStackRef 9 3 false] [] ∅ [] ∅ ∅.

Lemma repository_never_regresses_witness :
  ∃ row applied c' new, applyRepositoryTx example_record "webhook" "e" 50 example_cache
                        = Ok (row, applied, c') ∧
    repos c' !! 2 = Some new ∧ rp_id new = 9.
Proof.
  do 3 eexists.
  destruct (repository_never_regresses example_record "webhook" "e" 50 example_cache
              (mkRepo 9 1 5 2 "n" "o" "r" "o/r" "main" false (Some 30) "abc" 10 10 "" "webhook" None)
              (repo_of 9 "abc" example_record "webhook" "e" 50) true
              (markAndEmit ["stack:1:2:3"] RepositoryChangedKind "repo:1:2" 50
                 (UpsertRepositoryAlias "o/r" 9 50
                    (TouchRepositoryCheckedAt 50 "e" 2
                       (UpsertRepositoryWriteIfNewer example_record "webhook" "e" 50 example_cache).2))))
    as (new & H1 & H2 & _).
  - vm_compute. reflexivity.
  - vm_compute. reflexivity.
  - exists new. split; [|split; [exact H1|exact H2]]. vm_compute. reflexivity.
Defined.
