(* ===== verification/Classify.v ===== *)
(** * Webhook classification

    [internal/dispatch/classify.go] and the intent helpers of
    [internal/dispatch/dispatcher.go]: the rule table, the validation of rules,
    the extraction of pointer keys from a webhook payload, the stack-summary and
    branch-push hints, and what the dispatcher does with a classification before
    it touches the queue.

    The payload is the decoded [payloadEnvelope]; decoding (content type, form
    or JSON body) is the argument [decode] of [classifyContent], [None] standing
    for any decoding error. Targets, events and actions are strings, as the
    rules file may name any of them. *)

From Stdlib Require Import ZArith Lia Bool Ascii String.
From stdpp Require Import strings numbers sorting sets base list.
From S2P Require Import Prelude GoStrings Keys RefreshQueue.

Local Open Scope Z_scope.

Definition ActionAny : string := "*".

(** [queue.QueueEvent]. *)
Definition PriorityEvent : string := "event".

Record Intent : Type := mkIntent {
  in_Kind : string;
  in_Key : string;
  Priority : string
}.

#[export] Instance Intent_eq_dec : EqDecision Intent.
Proof. solve_decision. Defined.

Definition TargetPullRequest : string := "pull_request".
Definition TargetStack : string := "stack".
Definition TargetChecks : string := "checks".
Definition TargetBranch : string := "branch".
Definition TargetCodeowners : string := "codeowners".
Definition TargetResolveStackMembership : string := "resolve_stack_membership".

Record Rule : Type := mkRule {
  ru_Event : string;
  ru_Action : string;
  ru_Target : string;
  StackedTarget : string
}.

Definition DefaultRules : list Rule :=
  [ mkRule "pull_request" ActionAny TargetPullRequest TargetStack;
    mkRule "pull_request" ActionAny TargetResolveStackMembership "";
    mkRule "pull_request_review" ActionAny TargetPullRequest "";
    mkRule "pull_request_review_comment" ActionAny TargetPullRequest "";
    mkRule "pull_request_review_thread" ActionAny TargetPullRequest "";
    mkRule "issue_comment" ActionAny TargetPullRequest "";
    mkRule "check_run" ActionAny TargetChecks "";
    mkRule "check_suite" ActionAny TargetChecks "";
    mkRule "push" ActionAny TargetBranch TargetStack;
    mkRule "push" ActionAny TargetCodeowners "" ].

(** ** Rule validation *)

Inductive rule_error : Type :=
  | UntrimmedEvent
  | UntrimmedAction
  | UnsupportedRuleTarget
  | UnsupportedStackedTarget
  | TargetEventMismatch
  | StackOnlyAsStackedTarget
  | StackedTargetMustBeStack
  | StackedTargetMisplaced.

Definition isPullRequestEvent (event : string) : bool :=
  bool_decide (event ∈
    ["pull_request"; "pull_request_review"; "pull_request_review_comment";
     "pull_request_review_thread"; "issue_comment"]).

Definition validTarget (target : string) : bool :=
  bool_decide (target ∈
    [TargetPullRequest; TargetStack; TargetChecks; TargetBranch; TargetCodeowners;
     TargetResolveStackMembership]).

Definition seqb (a b : string) : bool := bool_decide (a = b).

(** The [switch] on the rule's target. *)
Definition validateTargetEvent (rule : Rule) : option rule_error :=
  let t := ru_Target rule in
  let e := ru_Event rule in
  if seqb t TargetPullRequest then
    if negb (isPullRequestEvent e) then Some TargetEventMismatch else None
  else if seqb t TargetResolveStackMembership then
    if negb (seqb e "pull_request") then Some TargetEventMismatch else None
  else if seqb t TargetChecks then
    if negb (seqb e "check_run") && negb (seqb e "check_suite")
    then Some TargetEventMismatch else None
  else if seqb t TargetBranch || seqb t TargetCodeowners then
    if negb (seqb e "push") then Some TargetEventMismatch else None
  else if seqb t TargetStack then Some StackOnlyAsStackedTarget
  else None.

Definition validateRule (rule : Rule) : option rule_error :=
  if seqb (ru_Event rule) "" || negb (seqb (TrimSpace (ru_Event rule)) (ru_Event rule))
  then Some UntrimmedEvent
  else if seqb (ru_Action rule) "" || negb (seqb (TrimSpace (ru_Action rule)) (ru_Action rule))
  then Some UntrimmedAction
  else if negb (validTarget (ru_Target rule)) then Some UnsupportedRuleTarget
  else if negb (seqb (StackedTarget rule) "") && negb (validTarget (StackedTarget rule))
  then Some UnsupportedStackedTarget
  else match validateTargetEvent rule with
  | Some e => Some e
  | None =>
      if negb (seqb (StackedTarget rule) "") then
        if negb (seqb (StackedTarget rule) TargetStack) then Some StackedTargetMustBeStack
        else if negb (seqb (ru_Target rule) TargetPullRequest)
                && negb (seqb (ru_Target rule) TargetBranch)
        then Some StackedTargetMisplaced
        else None
      else None
  end.

(** ** Payloads *)

(** The changed paths of one commit. *)
Record commit_paths : Type := mkCommit {
  Added : list string;
  Modified : list string;
  Removed : list string
}.

Record payloadStackRef : Type := mkStackRef {
  ps_ID : Z;
  ps_Number : Z;
  ps_Size : Z;
  ps_Position : Z;
  ps_Base_Ref : string;
  ps_Base_SHA : string
}.

Record payloadEnvelope : Type := mkPayload {
  pe_Action : string;
  pe_Number : Z;
  pe_Ref : string;
  pe_Before : string;
  pe_After : string;
  pe_Deleted : bool;
  pe_Forced : bool;
  FullName : string;
  DefaultBranch : string;
  Commits : list commit_paths;
  HeadCommit : option commit_paths;
  PullRequest_Number : Z;
  PullRequest_Stack : option payloadStackRef;
  Issue_Number : Z;
  (** [Issue.PullRequest] is non-nil. *)
  Issue_PullRequest : bool;
  pe_Stack : option Z;
  CheckRun_HeadSHA : string;
  CheckSuite_HeadSHA : string
}.

(** The numbers of a payload are Go [int]s. *)
Definition payload_wf (p : payloadEnvelope) : Prop :=
  in_int64 (pe_Number p) ∧ in_int64 (PullRequest_Number p) ∧ in_int64 (Issue_Number p) ∧
  (∀ s, PullRequest_Stack p = Some s → in_int64 (ps_Number s)) ∧
  (∀ n, pe_Stack p = Some n → in_int64 n).

Record stackSummaryHint : Type := mkStackHint {
  sh_Repo : string;
  sh_PRNumber : Z;
  sh_ID : Z;
  sh_Number : Z;
  sh_Size : Z;
  sh_Position : Z;
  sh_BaseRef : string;
  sh_BaseSHA : string
}.

Record branchPushHint : Type := mkBranchHint {
  bh_Repo : string;
  bh_Branch : string;
  bh_BeforeSHA : string;
  bh_AfterSHA : string;
  bh_TransitionKnown : bool;
  bh_Deleted : bool;
  bh_Forced : bool
}.

Record classification : Type := mkClassification {
  intents : list Intent;
  matchedRules : nat;
  stackHint : option stackSummaryHint;
  branchHint : option branchPushHint
}.

Definition empty_classification : classification := mkClassification [] 0 None None.

Inductive classify_error : Type :=
  | DecodeFailed
  | MissingRepository
  | MissingPRNumber
  | MissingStackNumber
  | MissingHeadSHA
  | EmptyBranchRef
  | UnsupportedTarget.

(** ** Key extraction *)

Definition branchPrefix : string := "refs/heads/".

(** The stack pointer of a payload, by its number. *)
Definition payloadStack (p : payloadEnvelope) : option Z :=
  match PullRequest_Stack p with
  | Some s => Some (ps_Number s)
  | None => pe_Stack p
  end.

Definition isCodeowners (path : string) : bool :=
  bool_decide (path ∈ [".github/CODEOWNERS"; "CODEOWNERS"; "docs/CODEOWNERS"]).

Definition commitTouchesCodeowners (c : commit_paths) : bool :=
  existsb isCodeowners (Added c) || existsb isCodeowners (Modified c)
  || existsb isCodeowners (Removed c).

Definition pushTouchesCodeowners (p : payloadEnvelope) : bool :=
  existsb commitTouchesCodeowners (Commits p)
  || match HeadCommit p with Some c => commitTouchesCodeowners c | None => false end.

(** [number], falling back to [pull_request.number]. *)
Definition prNumber (p : payloadEnvelope) : Z :=
  if pe_Number p =? 0 then PullRequest_Number p else pe_Number p.

(** [Ok None] is "nothing to emit". *)
Definition intentKey (target event : string) (p : payloadEnvelope)
    : result classify_error (option string) :=
  let repo := FullName p in
  if seqb repo "" then Err MissingRepository
  else if seqb target TargetPullRequest || seqb target TargetResolveStackMembership then
    if seqb event "issue_comment" && negb (Issue_PullRequest p) then Ok None
    else
      let number := if seqb event "issue_comment" then Issue_Number p else prNumber p in
      if number <=? 0 then Err MissingPRNumber
      else Ok (Some (pointer_key "pr" repo (FormatInt number)))
  else if seqb target TargetStack then
    match payloadStack p with
    | Some number =>
        if number <=? 0 then Err MissingStackNumber
        else Ok (Some (pointer_key "stack" repo (FormatInt number)))
    | None => Err MissingStackNumber
    end
  else if seqb target TargetChecks then
    let headSHA :=
      if seqb event "check_suite" then CheckSuite_HeadSHA p else CheckRun_HeadSHA p in
    if seqb headSHA "" then Err MissingHeadSHA
    else Ok (Some (pointer_key "checks" repo headSHA))
  else if seqb target TargetBranch then
    if negb (HasPrefix (pe_Ref p) branchPrefix) then Ok None
    else
      let branch := TrimPrefix (pe_Ref p) branchPrefix in
      if seqb branch "" then Err EmptyBranchRef
      else Ok (Some (pointer_key "branch" repo branch))
  else if seqb target TargetCodeowners then
    if negb (HasPrefix (pe_Ref p) branchPrefix) then Ok None
    else
      let branch := TrimPrefix (pe_Ref p) branchPrefix in
      if seqb branch "" then Err EmptyBranchRef
      else if seqb (DefaultBranch p) "" || negb (seqb branch (DefaultBranch p))
              || negb (pushTouchesCodeowners p)
      then Ok None
      else Ok (Some (pointer_key "branch" repo branch))
  else Err UnsupportedTarget.

Definition jobKind (target : string) : result classify_error string :=
  if seqb target TargetPullRequest then Ok KindRefreshPR
  else if seqb target TargetStack then Ok KindRefreshStack
  else if seqb target TargetChecks then Ok KindRefreshChecks
  else if seqb target TargetBranch || seqb target TargetCodeowners then Ok KindRefreshBranch
  else if seqb target TargetResolveStackMembership then Ok KindResolveStackMembership
  else Err UnsupportedTarget.

(** ** Hints *)

Fixpoint all_zero_digits (sha : string) : bool :=
  match sha with
  | EmptyString => true
  | String c sha => bool_decide (c = "0"%char) && all_zero_digits sha
  end.

Definition normalizePushSHA (sha : string) : string :=
  if seqb sha "" then "" else if all_zero_digits sha then "" else sha.

(** Some intent has this kind and key. *)
Definition has_intent (kind key : string) (intents : list Intent) : bool :=
  existsb (λ i, seqb (in_Kind i) kind && seqb (in_Key i) key) intents.

Definition completeBranchPushHint (p : payloadEnvelope) (intents : list Intent)
    : option branchPushHint :=
  if seqb (FullName p) "" || negb (HasPrefix (pe_Ref p) branchPrefix) then None
  else
    let branch := TrimPrefix (pe_Ref p) branchPrefix in
    if negb (has_intent KindRefreshBranch (pointer_key "branch" (FullName p) branch) intents)
    then None
    else Some (mkBranchHint (FullName p) branch
                 (normalizePushSHA (pe_Before p)) (normalizePushSHA (pe_After p))
                 (negb (seqb (pe_Before p) "") && negb (seqb (pe_After p) ""))
                 (pe_Deleted p) (pe_Forced p)).

Definition completeStackSummaryHint (p : payloadEnvelope) (intents : list Intent)
    : option stackSummaryHint :=
  match PullRequest_Stack p with
  | None => None
  | Some stack =>
      if seqb (FullName p) "" || (prNumber p <=? 0) || (ps_ID stack <=? 0)
         || (ps_Number stack <=? 0) || (ps_Size stack <=? 0) || (ps_Position stack <=? 0)
         || (ps_Size stack <? ps_Position stack)
         || seqb (ps_Base_Ref stack) "" || seqb (ps_Base_SHA stack) ""
      then None
      else
        let stackKey := pointer_key "stack" (FullName p) (FormatInt (ps_Number stack)) in
        let prKey := pointer_key "pr" (FullName p) (FormatInt (prNumber p)) in
        if negb (has_intent KindRefreshStack stackKey intents)
           || negb (has_intent KindResolveStackMembership prKey intents)
        then None
        else Some (mkStackHint (FullName p) (prNumber p) (ps_ID stack) (ps_Number stack)
                     (ps_Size stack) (ps_Position stack) (ps_Base_Ref stack)
                     (ps_Base_SHA stack))
  end.

(** ** Classification *)

(** The [seen] key of an intent. *)
Definition seen_key (kind key : string) : string :=
  kind +:+ String "000"%char "" +:+ key.

(** The inner loop: the targets of one matched rule. The accumulator is the
    [seen] set and the intents so far. *)
Fixpoint classify_targets (event : string) (p : payloadEnvelope) (targets : list string)
    (acc : list string * list Intent) : result classify_error (list string * list Intent) :=
  match targets with
  | [] => Ok acc
  | target :: targets =>
      emitted ← intentKey target event p;
      match emitted with
      | None => classify_targets event p targets acc
      | Some key =>
          kind ← jobKind target;
          let identity := seen_key kind key in
          if bool_decide (identity ∈ acc.1) then classify_targets event p targets acc
          else classify_targets event p targets
                 (identity :: acc.1, acc.2 ++ [mkIntent kind key PriorityEvent])
      end
  end.

Definition rule_targets (rule : Rule) (p : payloadEnvelope) : list string :=
  if negb (seqb (StackedTarget rule) "") && bool_decide (is_Some (payloadStack p))
     && negb (seqb (ru_Target rule) TargetBranch)
  then [ru_Target rule; StackedTarget rule] else [ru_Target rule].

Definition rule_matches (rule : Rule) (p : payloadEnvelope) : bool :=
  seqb (ru_Action rule) ActionAny || seqb (ru_Action rule) (pe_Action p).

(** The outer loop: the rules of the event, in table order. *)
Fixpoint classify_rules (event : string) (p : payloadEnvelope) (rules : list Rule)
    (matched : nat) (acc : list string * list Intent)
    : result classify_error (nat * (list string * list Intent)) :=
  match rules with
  | [] => Ok (matched, acc)
  | rule :: rules =>
      if negb (rule_matches rule p) then classify_rules event p rules matched acc
      else
        acc ← classify_targets event p (rule_targets rule p) acc;
        classify_rules event p rules (S matched) acc
  end.

Definition event_rules (rules : list Rule) (event : string) : list Rule :=
  List.filter (λ r, seqb (ru_Event r) event) rules.

Definition classifyContent (decode : string → string → option payloadEnvelope)
    (rules : list Rule) (event contentType body : string)
    : result classify_error classification :=
  match event_rules rules event with
  | [] => Ok empty_classification
  | eventRules =>
      match decode contentType body with
      | None => Err DecodeFailed
      | Some p =>
          '(matched, (_, intents)) ← classify_rules event p eventRules 0 ([], []);
          Ok (mkClassification intents matched
                (completeStackSummaryHint p intents) (completeBranchPushHint p intents))
      end
  end.

(** ** The dispatcher's use of a classification *)

Inductive dispatch_error : Type :=
  | UnsupportedPriority
  | UnsupportedRefreshKind
  | RefreshGenerationContention
  | PageSizeNotPositive
  | UnsupportedPageTarget.

Definition refreshArgs (i : Intent) : result dispatch_error RefreshArgs :=
  if negb (seqb (Priority i) PriorityEvent) then Err UnsupportedPriority
  else if bool_decide (in_Kind i ∈
            [KindRefreshPR; KindRefreshStack; KindRefreshChecks; KindRefreshBranch;
             KindResolveStackMembership])
  then Ok (mkArgs (in_Kind i) (in_Key i) false)
  else Err UnsupportedRefreshKind.

(** [insertParams]: every pointer of a batch is scheduled after one debounce. *)
Fixpoint insertParams (now : time) (debounce : duration) (l : list Intent)
    : result dispatch_error (list (RefreshArgs * time)) :=
  match l with
  | [] => Ok []
  | i :: l =>
      args ← refreshArgs i;
      params ← insertParams now debounce l;
      Ok ((args, now + debounce) :: params)
  end.

Definition withoutMatchingStackRefresh (intents : list Intent) (hint : stackSummaryHint)
    : list Intent :=
  let stackKey := pointer_key "stack" (sh_Repo hint) (FormatInt (sh_Number hint)) in
  List.filter (λ i, negb (seqb (in_Kind i) KindRefreshStack && seqb (in_Key i) stackKey)) intents.

Definition withoutBranchRefresh (intents : list Intent) : list Intent :=
  List.filter (λ i, negb (seqb (in_Kind i) KindRefreshBranch)) intents.

(** The columns of a cached stack that [stackSummaryMatchesCache] reads; the
    entries are the pull-request numbers in stack order. *)
Record cached_stack : Type := mkCachedStack {
  cs_TombstonedAt : option time;
  cs_GhID : option Z;
  cs_BaseRef : string;
  cs_BaseSha : string;
  cs_Entries : list Z
}.

(** [GetStackByKey] is the lookup [stacks] in repository and (32-bit) number. *)
Definition stackSummaryMatchesCache (stacks : string → Z → option cached_stack)
    (hint : stackSummaryHint) : bool :=
  if sh_Size hint <? sh_Position hint then false
  else if seqb (sh_BaseSHA hint) "" then false
  else match stacks (sh_Repo hint) (wrap32 (sh_Number hint)) with
  | None => false
  | Some stack =>
      if bool_decide (is_Some (cs_TombstonedAt stack))
         || negb (bool_decide (cs_GhID stack = Some (sh_ID hint)))
         || negb (seqb (cs_BaseRef stack) (sh_BaseRef hint))
         || seqb (cs_BaseSha stack) ""
         || negb (seqb (cs_BaseSha stack) (sh_BaseSHA hint))
      then false
      else
        (Z.of_nat (length (cs_Entries stack)) =? sh_Size hint)
        && (sh_Position hint <=? Z.of_nat (length (cs_Entries stack)))
        && bool_decide (cs_Entries stack !! Z.to_nat (sh_Position hint - 1)
                        = Some (sh_PRNumber hint))
  end.

(** The intents of one delivery after the hints have been applied. *)
Definition delivery_intents (stacks : string → Z → option cached_stack) (c : classification)
    : list Intent :=
  let classified :=
    match branchHint c with
    | Some _ => withoutBranchRefresh (intents c)
    | None => intents c
    end in
  match stackHint c with
  | Some hint =>
      if stackSummaryMatchesCache stacks hint
      then withoutMatchingStackRefresh classified hint else classified
  | None => classified
  end.

(** [dedupeIntents]: the first of equal intents, in (kind, key, priority) order. *)
Fixpoint dedupe_go (seen : list Intent) (l : list Intent) : list Intent :=
  match l with
  | [] => []
  | i :: l =>
      if bool_decide (i ∈ seen) then dedupe_go seen l else i :: dedupe_go (i :: seen) l
  end.

Definition intent_less (a b : Intent) : bool :=
  if negb (seqb (in_Kind a) (in_Kind b)) then string_ltb (in_Kind a) (in_Kind b)
  else if negb (seqb (in_Key a) (in_Key b)) then string_ltb (in_Key a) (in_Key b)
  else string_ltb (Priority a) (Priority b).

(** [sort.Slice] orders by the negation of the reversed [less]. *)
Definition intent_le (a b : Intent) : Prop := intent_less b a = false.

#[export] Instance intent_le_dec : RelDecision intent_le.
Proof. intros a b. unfold intent_le. apply _. Defined.

Definition dedupeIntents (l : list Intent) : list Intent :=
  merge_sort intent_le (dedupe_go [] l).

(** [classificationRetryBackoff]: [fuel] iterations of the doubling loop. *)
Definition classificationRetryBaseBackoff : duration := Second.
Definition classificationRetryMaxBackoff : duration := 60 * Second.

Fixpoint backoff_loop (n : nat) (delay : duration) : duration :=
  match n with
  | O => delay
  | S n =>
      if classificationRetryMaxBackoff / 2 <=? delay then classificationRetryMaxBackoff
      else backoff_loop n (delay * 2)
  end.

Definition classificationRetryBackoff (attempt : Z) : duration :=
  backoff_loop (Z.to_nat (attempt - 1)) classificationRetryBaseBackoff.

(** ** Branch reconciliation pages *)

(** [store.BranchReconciliationTarget] and [queue.BranchReconcileTarget]. *)
Record branch_target : Type := mkTarget {
  bt_Kind : string;
  bt_Key : string;
  bt_EntityKey : string;
  bt_Generation : Z
}.

(** [queue.BranchReconcilePageArgs]. *)
Record page_args : Type := mkPage {
  bp_RepoID : Z;
  bp_Repo : string;
  bp_Branch : string;
  bp_Generation : Z;
  bp_Page : Z;
  bp_Targets : list branch_target
}.

Definition page_target_ok (t : branch_target) : bool :=
  negb (negb (seqb (bt_Kind t) KindRefreshPR) && negb (seqb (bt_Kind t) KindRefreshStack)).

(** The paging loop; [fuel] bounds the number of pages, which the number of
    targets bounds in turn. [page] is the number of pages built so far. *)
Fixpoint pages_go (fuel : nat) (hint : branchPushHint) (repoID generation : Z)
    (pageSize : nat) (page : Z) (targets : list branch_target)
    : result dispatch_error (list page_args) :=
  match fuel, targets with
  | _, [] => Ok []
  | O, _ => Ok []
  | S fuel, _ =>
      let here := take pageSize targets in
      if negb (forallb page_target_ok here) then Err UnsupportedPageTarget
      else
        rest ← pages_go fuel hint repoID generation pageSize (page + 1) (drop pageSize targets);
        Ok (mkPage repoID (bh_Repo hint) (bh_Branch hint) generation (page + 1) here :: rest)
  end.

Definition branchReconciliationPages (hint : branchPushHint) (repoID generation : Z)
    (targets : list branch_target) (pageSize : Z)
    : result dispatch_error (list page_args * list Z) :=
  if pageSize <=? 0 then Err PageSizeNotPositive
  else
    params ← pages_go (length targets) hint repoID generation (Z.to_nat pageSize) 0 targets;
    Ok (params, map (λ a, Z.of_nat (length (bp_Targets a))) params).

(** ** Lemmas *)

Lemma seqb_true a b : seqb a b = true ↔ a = b.
Proof. apply bool_decide_eq_true. Qed.

Lemma seqb_false a b : seqb a b = false ↔ a ≠ b.
Proof. apply bool_decide_eq_false. Qed.

Lemma seqb_refl a : seqb a a = true.
Proof. by apply seqb_true. Qed.

#[export] Hint Rewrite seqb_true seqb_false : ghsync.
#[export] Hint Resolve seqb_refl : ghsync.

(** [break_classify H]: exhaust the tests of a successful computation. *)
Ltac break_classify H :=
  repeat (case_match_in H; try discriminate H; simplify_eq); to_props;
  autorewrite with ghsync in *; subst.

(** The prefix each fetch handler passes to [parseEntityKey] for a job kind. *)
Definition handler_prefix (kind : string) : string :=
  if seqb kind KindRefreshStack then "stack"
  else if seqb kind KindRefreshChecks then "checks"
  else if seqb kind KindRefreshBranch then "branch"
  else "pr".

(** Evaluate the string tests between constants. *)
Ltac eval_seqb :=
  repeat match goal with
  | |- context [seqb ?a ?b] =>
      let v := eval vm_compute in (seqb a b) in
      match v with true => idtac | false => idtac end; change (seqb a b) with v
  | H : context [seqb ?a ?b] |- _ =>
      let v := eval vm_compute in (seqb a b) in
      match v with true => idtac | false => idtac end; change (seqb a b) with v in H
  end; cbn [orb andb negb] in *.

Lemma jobKind_inv target kind :
  jobKind target = Ok kind →
  target = TargetPullRequest ∧ kind = KindRefreshPR ∨
  target = TargetStack ∧ kind = KindRefreshStack ∨
  target = TargetChecks ∧ kind = KindRefreshChecks ∨
  target = TargetBranch ∧ kind = KindRefreshBranch ∨
  target = TargetCodeowners ∧ kind = KindRefreshBranch ∨
  target = TargetResolveStackMembership ∧ kind = KindResolveStackMembership.
Proof.
  unfold jobKind. intros H. break_classify H; try tauto.
  apply orb_true_iff in E2. autorewrite with ghsync in E2. tauto.
Qed.

Lemma intentKey_shape target event p key kind :
  intentKey target event p = Ok (Some key) → jobKind target = Ok kind →
  ∃ value, key = pointer_key (handler_prefix kind) (FullName p) value ∧ value ≠ "" ∧
    (handler_prefix kind = "pr" ∨ handler_prefix kind = "stack" →
     ∃ n, value = FormatInt n ∧ 0 < n ∧ (payload_wf p → in_int64 n)).
Proof.
  unfold intentKey, payload_wf. intros Hk Hj%jobKind_inv.
  destruct_or! Hj; destruct Hj as [-> ->]; eval_seqb; break_classify Hk;
    eexists; (split; [reflexivity|]);
    (split; [first [apply FormatInt_nonempty|done]|]);
    try (by intros [?|?]); intros _; eexists; (split; [reflexivity|]); (split; [done|]).
  all: unfold prNumber, payloadStack in *; repeat case_match; naive_solver.
Qed.

Lemma jobKind_kinds target kind :
  jobKind target = Ok kind →
  kind ∈ [KindRefreshPR; KindRefreshStack; KindRefreshChecks; KindRefreshBranch;
          KindResolveStackMembership].
Proof. intros H%jobKind_inv. destruct_or! H; destruct H as [_ ->]; set_solver. Qed.

Lemma kinds_no_nul kind :
  kind ∈ [KindRefreshPR; KindRefreshStack; KindRefreshChecks; KindRefreshBranch;
          KindResolveStackMembership] → ContainsByte kind "000" = false.
Proof. rewrite !elem_of_cons, elem_of_nil. by intros [->|[->|[->|[->|[->|[]]]]]]. Qed.

Lemma seen_key_inj k1 k2 a b :
  ContainsByte k1 "000" = false → ContainsByte k2 "000" = false →
  seen_key k1 a = seen_key k2 b → k1 = k2 ∧ a = b.
Proof.
  intros H1 H2 H. apply (f_equal (λ s, Cut s "000"%char)) in H. unfold seen_key in H.
  rewrite !append_cons, !append_empty, !Cut_app in H by done. by simplify_eq.
Qed.

Lemma exists_cons {A} (y : A) l (Q : A → Prop) :
  (∃ x, x ∈ y :: l ∧ Q x) ↔ Q y ∨ ∃ x, x ∈ l ∧ Q x.
Proof.
  setoid_rewrite elem_of_cons. split.
  - intros (x & [-> | ?] & ?); eauto.
  - intros [?|(x & ? & ?)]; eauto.
Qed.

(** Target [target] asks for intent [i]. *)
Definition emits (event : string) (p : payloadEnvelope) (target : string) (i : Intent) : Prop :=
  ∃ key kind, intentKey target event p = Ok (Some key) ∧ jobKind target = Ok kind ∧
    i = mkIntent kind key PriorityEvent.

(** The accumulator holds exactly the intents of [P], each once. *)
Record acc_ok (P : Intent → Prop) (acc : list string * list Intent) : Prop := {
  acc_seen : acc.1 = reverse (map (λ i, seen_key (in_Kind i) (in_Key i)) acc.2);
  acc_nodup : NoDup acc.2;
  acc_shape i : i ∈ acc.2 →
    Priority i = PriorityEvent ∧ ContainsByte (in_Kind i) "000" = false;
  acc_exact i : i ∈ acc.2 ↔ P i
}.

Lemma acc_ok_iff P Q acc : (∀ i, P i ↔ Q i) → acc_ok P acc → acc_ok Q acc.
Proof. intros HPQ [H1 H2 H3 H4]. split; [done..|]. intros i. by rewrite H4. Qed.

Lemma acc_seen_iff P acc kind key :
  acc_ok P acc → ContainsByte kind "000" = false →
  seen_key kind key ∈ acc.1 ↔ mkIntent kind key PriorityEvent ∈ acc.2.
Proof.
  intros [-> _ Hshape _] Hk.
  rewrite elem_of_reverse. split.
  - intros (i & Heq & Hi)%list_elem_of_fmap. destruct (Hshape i Hi) as [Hp Hn].
    apply seen_key_inj in Heq as [-> ->]; [|done..]. rewrite <- Hp. by destruct i.
  - intros Hi. apply list_elem_of_fmap. by exists (mkIntent kind key PriorityEvent).
Qed.

Lemma acc_ok_snoc P acc kind key :
  acc_ok P acc → ContainsByte kind "000" = false →
  mkIntent kind key PriorityEvent ∉ acc.2 →
  acc_ok (λ i, P i ∨ i = mkIntent kind key PriorityEvent)
    (seen_key kind key :: acc.1, acc.2 ++ [mkIntent kind key PriorityEvent]).
Proof.
  intros [Hs Hnd Hsh He] Hk Hni. split; simpl.
  - by rewrite map_app, reverse_app, Hs.
  - apply NoDup_app. split_and!; [done| |apply NoDup_singleton].
    intros i Hi ->%list_elem_of_singleton. done.
  - intros i [Hi| ->%list_elem_of_singleton]%elem_of_app; [by apply Hsh|done].
  - intros i. by rewrite elem_of_app, list_elem_of_singleton, He.
Qed.

Lemma emits_some event p target key kind i :
  intentKey target event p = Ok (Some key) → jobKind target = Ok kind →
  emits event p target i ↔ i = mkIntent kind key PriorityEvent.
Proof.
  intros Hk Hj. unfold emits. rewrite Hk, Hj. split; [naive_solver|]. intros ->. eauto.
Qed.

Lemma classify_targets_ok event p targets : ∀ P acc acc',
  acc_ok P acc → classify_targets event p targets acc = Ok acc' →
  acc_ok (λ i, P i ∨ ∃ t, t ∈ targets ∧ emits event p t i) acc'.
Proof.
  induction targets as [|t targets IH]; intros P acc acc' Hacc H; cbn in H.
  { simplify_eq. eapply acc_ok_iff, Hacc. set_solver. }
  apply bind_ok in H as (emitted & Hk & H). destruct emitted as [key|].
  - apply bind_ok in H as (kind & Hj & H).
    pose proof (kinds_no_nul _ (jobKind_kinds _ _ Hj)) as Hn.
    pose proof (λ i, emits_some _ _ _ _ _ i Hk Hj) as He.
    case_if_in H; to_props; rewrite acc_seen_iff in E by done.
    + apply (IH _ _ _ Hacc) in H. rewrite (acc_exact _ _ Hacc) in E.
      eapply acc_ok_iff, H. intros i. cbn beta. rewrite exists_cons, He. split; [tauto|].
      intros [?|[-> |?]]; tauto.
    + apply (IH _ _ _ (acc_ok_snoc _ _ _ _ Hacc Hn E)) in H.
      eapply acc_ok_iff, H. intros i. cbn beta. rewrite exists_cons, He. tauto.
  - eapply IH in H; [|exact Hacc]. eapply acc_ok_iff, H. intros i. cbn beta.
    rewrite exists_cons. assert (¬ emits event p t i); [|tauto].
    intros (key & kind & ? & _). congruence.
Qed.

(** Rule [rule] applies to the payload and asks for intent [i]. *)
Definition rule_emits (event : string) (p : payloadEnvelope) (rule : Rule) (i : Intent) : Prop :=
  rule_matches rule p = true ∧ ∃ t, t ∈ rule_targets rule p ∧ emits event p t i.

Lemma classify_rules_ok event p rules : ∀ P m acc m' acc',
  acc_ok P acc → classify_rules event p rules m acc = Ok (m', acc') →
  m' = (m + length (List.filter (λ r, rule_matches r p) rules))%nat ∧
  acc_ok (λ i, P i ∨ ∃ r, r ∈ rules ∧ rule_emits event p r i) acc'.
Proof.
  unfold rule_emits.
  induction rules as [|r rules IH]; intros P m acc m' acc' Hacc H; cbn in H.
  { simplify_eq. split; [cbn; lia|]. eapply acc_ok_iff, Hacc. set_solver. }
  cbn. destruct (rule_matches r p) eqn:E; cbn in H.
  - apply bind_ok in H as (acc1 & H1 & H). apply (classify_targets_ok _ _ _ _ _ _ Hacc) in H1.
    apply (IH _ _ _ _ _ H1) in H as [-> H]. split; [cbn; lia|].
    eapply acc_ok_iff, H. intros i. cbn beta. rewrite exists_cons. tauto.
  - apply (IH _ _ _ _ _ Hacc) in H as [-> H]. split; [done|].
    eapply acc_ok_iff, H. intros i. cbn beta. rewrite exists_cons, E. naive_solver.
Qed.

Lemma acc_ok_start : acc_ok (λ _, False) ([], []).
Proof. split; cbn; [done|constructor|..]; set_solver. Qed.

(** What a successful classification consists of. *)
Lemma classifyContent_inv decode rules event contentType body c :
  classifyContent decode rules event contentType body = Ok c →
  event_rules rules event = [] ∧ c = empty_classification ∨
  event_rules rules event ≠ [] ∧ ∃ p, decode contentType body = Some p ∧
    NoDup (intents c) ∧
    matchedRules c = length (List.filter (λ r, rule_matches r p) (event_rules rules event)) ∧
    (∀ i, i ∈ intents c ↔ ∃ r, r ∈ event_rules rules event ∧ rule_emits event p r i) ∧
    stackHint c = completeStackSummaryHint p (intents c) ∧
    branchHint c = completeBranchPushHint p (intents c).
Proof.
  unfold classifyContent. intros H. destruct (event_rules rules event) eqn:Er.
  { simplify_eq. by left. }
  rewrite <- Er in *. right. split; [by rewrite Er|].
  destruct (decode contentType body) as [p|]; [|done]. exists p. split; [done|].
  apply bind_ok in H as ([m [seen out]] & H & [= <-]); cbn.
  apply (classify_rules_ok _ _ _ _ _ _ _ _ acc_ok_start) in H as [-> [_ Hnd _ He]].
  split_and!; [done..| |done|done]. intros i. cbn in He. rewrite He. naive_solver.
Qed.

Lemma rule_emits_kind event p r i :
  rule_emits event p r i →
  Priority i = PriorityEvent ∧
  in_Kind i ∈ [KindRefreshPR; KindRefreshStack; KindRefreshChecks; KindRefreshBranch;
               KindResolveStackMembership] ∧
  ∃ value, in_Key i = pointer_key (handler_prefix (in_Kind i)) (FullName p) value ∧ value ≠ "" ∧
    (handler_prefix (in_Kind i) = "pr" ∨ handler_prefix (in_Kind i) = "stack" →
     ∃ n, value = FormatInt n ∧ 0 < n ∧ (payload_wf p → in_int64 n)).
Proof.
  intros (_ & t & _ & key & kind & Hk & Hj & ->). cbn. split; [done|].
  split; [by eapply jobKind_kinds|]. by eapply intentKey_shape.
Qed.

(** Every branch refresh of a payload names the pushed branch. *)
Lemma rule_emits_branch event p r i :
  rule_emits event p r i → in_Kind i = KindRefreshBranch →
  i = mkIntent KindRefreshBranch
        (pointer_key "branch" (FullName p) (TrimPrefix (pe_Ref p) branchPrefix)) PriorityEvent ∧
  FullName p ≠ "" ∧ HasPrefix (pe_Ref p) branchPrefix = true.
Proof.
  intros (_ & t & _ & key & kind & Hk & Hj%jobKind_inv & ->) Hkind; cbn in Hkind; subst kind.
  unfold intentKey in Hk.
  destruct_or! Hj; destruct Hj as [-> Heq]; try discriminate Heq;
    eval_seqb; by break_classify Hk.
Qed.

Lemma has_intent_elem kind key l :
  has_intent kind key l = true ↔ ∃ i, i ∈ l ∧ in_Kind i = kind ∧ in_Key i = key.
Proof.
  unfold has_intent. rewrite existsb_exists. setoid_rewrite andb_true_iff.
  setoid_rewrite seqb_true. by setoid_rewrite <- list_elem_of_In.
Qed.

Lemma filter_elem {A} (f : A → bool) l x : x ∈ List.filter f l ↔ x ∈ l ∧ f x = true.
Proof. by rewrite !list_elem_of_In, filter_In. Qed.

(** A push with a branch intent always has a branch hint that names it. *)
Lemma branch_hint_complete event p r l i :
  rule_emits event p r i → i ∈ l → in_Kind i = KindRefreshBranch →
  ∃ b, completeBranchPushHint p l = Some b ∧
    i = mkIntent KindRefreshBranch (pointer_key "branch" (bh_Repo b) (bh_Branch b)) PriorityEvent.
Proof.
  intros Hr Hi Hk. destruct (rule_emits_branch _ _ _ _ Hr Hk) as (-> & Hf & Hp).
  unfold completeBranchPushHint. rewrite Hp, (proj2 (seqb_false _ _) Hf). cbn [orb negb].
  rewrite (proj2 (has_intent_elem _ _ _)) by eauto. cbn [negb].
  eexists. split; [reflexivity|done].
Qed.

(** A stack hint is taken only when the membership of its pull request is
    resolved by another intent. *)
Lemma stack_hint_membership p l h :
  completeStackSummaryHint p l = Some h →
  sh_Position h ≤ sh_Size h ∧ 0 < sh_Position h ∧
  ∃ i, i ∈ l ∧ in_Kind i = KindResolveStackMembership ∧
    in_Key i = pointer_key "pr" (sh_Repo h) (FormatInt (sh_PRNumber h)).
Proof.
  unfold completeStackSummaryHint. intros H. break_classify H. cbn.
  split_and!; [lia..|]. by apply has_intent_elem.
Qed.

Lemma stack_matches_inv stacks h :
  stackSummaryMatchesCache stacks h = true → 0 < sh_Position h →
  ∃ s, stacks (sh_Repo h) (wrap32 (sh_Number h)) = Some s ∧
    cs_TombstonedAt s = None ∧ cs_GhID s = Some (sh_ID h) ∧
    cs_BaseRef s = sh_BaseRef h ∧ cs_BaseSha s = sh_BaseSHA h ∧
    Z.of_nat (length (cs_Entries s)) = sh_Size h ∧
    cs_Entries s !! Z.to_nat (sh_Position h - 1) = Some (sh_PRNumber h).
Proof.
  unfold stackSummaryMatchesCache. intros H Hp. repeat case_match; try done.
  to_props. autorewrite with ghsync in *. eexists. split; [reflexivity|].
  split_and!; try done. by apply eq_None_not_Some.
Qed.

(** ** Theorems *)

(** Classification yields exactly the intents the rule table asks for: for
    each rule of the event that matches the payload's action and each target of
    that rule, the extracted pointer, once, and nothing else; an event without
    rules is a successful no-op whatever its body. *)
Theorem classify_exact decode rules event contentType body c :
  classifyContent decode rules event contentType body = Ok c →
  (event_rules rules event = [] → c = empty_classification) ∧
  (event_rules rules event ≠ [] → ∃ p, decode contentType body = Some p ∧
    NoDup (intents c) ∧
    matchedRules c = length (List.filter (λ r, rule_matches r p) (event_rules rules event)) ∧
    ∀ i, i ∈ intents c ↔ ∃ r, r ∈ event_rules rules event ∧ rule_emits event p r i).
Proof.
  intros [[H1 ->]|(H1 & p & ? & ? & ? & ? & _)]%classifyContent_inv; [done|].
  split; [done|]. intros _. exists p. done.
Qed.

(** Every intent of a classification can be routed: the dispatcher turns it
    into a pointer job of the same kind and key, and the fetch handler of that
    kind parses the key back to the repository of the payload, provided the
    repository is an [owner/name] without a colon. *)
Theorem intents_routable decode rules event contentType body c p i :
  classifyContent decode rules event contentType body = Ok c →
  decode contentType body = Some p → payload_wf p →
  ContainsByte (FullName p) "/" = true → ContainsByte (FullName p) ":" = false →
  i ∈ intents c →
  refreshArgs i = Ok (mkArgs (in_Kind i) (in_Key i) false) ∧
  ∃ k, parseEntityKey (in_Key i) (handler_prefix (in_Kind i)) = Ok k ∧
    ek_Repo k = FullName p ∧ in_Key i = pointer_key (ek_Kind k) (FullName p) (ek_Value k).
Proof.
  intros [[_ ->]|(_ & p' & Hp' & _ & _ & Hin & _)]%classifyContent_inv Hp Hwf Hs Hc Hi.
  { by apply elem_of_nil in Hi. }
  assert (p' = p) as -> by congruence. apply Hin in Hi as (r & _ & Hr).
  destruct (rule_emits_kind _ _ _ _ Hr) as (Hpr & Hkind & value & Hkey & Hv & Hnum).
  split.
  { unfold refreshArgs. rewrite Hpr, seqb_refl, bool_decide_true by done. done. }
  rewrite Hkey, parse_pointer by done. case_if; [|by eexists].
  destruct Hnum as (n & -> & Hn & Hn'); [apply orb_true_iff in E as [E|E]; to_props; auto|].
  rewrite ParseInt_FormatInt by auto. replace (n <=? 0) with false by lia. by eexists.
Qed.

(** C25. Applying the hints of a delivery never loses a signal: an intent that
    is dropped is either the refresh of the pushed branch, which the branch hint
    carries, or the refresh of a stack whose cached row agrees with the payload
    in identity, base and membership, and then the membership of the pull
    request is still resolved. *)
Theorem dropped_intent_covered decode rules event contentType body c stacks i :
  classifyContent decode rules event contentType body = Ok c →
  i ∈ intents c → i ∉ delivery_intents stacks c →
  (∃ b, branchHint c = Some b ∧
     i = mkIntent KindRefreshBranch (pointer_key "branch" (bh_Repo b) (bh_Branch b))
           PriorityEvent) ∨
  (∃ h s, stackHint c = Some h ∧
     i = mkIntent KindRefreshStack (pointer_key "stack" (sh_Repo h) (FormatInt (sh_Number h)))
           PriorityEvent ∧
     stacks (sh_Repo h) (wrap32 (sh_Number h)) = Some s ∧
     cs_TombstonedAt s = None ∧ cs_GhID s = Some (sh_ID h) ∧
     cs_BaseRef s = sh_BaseRef h ∧ cs_BaseSha s = sh_BaseSHA h ∧
     Z.of_nat (length (cs_Entries s)) = sh_Size h ∧
     cs_Entries s !! Z.to_nat (sh_Position h - 1) = Some (sh_PRNumber h) ∧
     mkIntent KindResolveStackMembership
       (pointer_key "pr" (sh_Repo h) (FormatInt (sh_PRNumber h))) PriorityEvent
     ∈ delivery_intents stacks c).
Proof.
  intros [[_ ->]|(_ & p & _ & _ & _ & Hin & Hsh & Hbh)]%classifyContent_inv Hi Hni.
  { by apply elem_of_nil in Hi. }
  destruct (proj1 (Hin i) Hi) as (r & _ & Hr).
  destruct (decide (in_Kind i = KindRefreshBranch)) as [Hb|Hb].
  { left. rewrite Hbh. by eapply branch_hint_complete. }
  right. unfold delivery_intents in *.
  set (classified := match branchHint c with Some _ => _ | None => _ end) in *.
  assert (Hcl : ∀ j, in_Kind j ≠ KindRefreshBranch → j ∈ intents c → j ∈ classified).
  { intros j Hj ?. unfold classified. destruct (branchHint c); [|done].
    apply filter_elem. rewrite negb_true_iff. by rewrite seqb_false. }
  destruct (stackHint c) as [h|]; [|exfalso; auto].
  destruct (stackSummaryMatchesCache stacks h) eqn:Hm; [|exfalso; auto].
  destruct (stack_hint_membership _ _ _ (eq_sym Hsh)) as (? & Hpos & j & Hj & Hjk & Hjkey).
  destruct (stack_matches_inv _ _ Hm Hpos) as (s & ? & ? & ? & ? & ? & ? & ?).
  exists h, s. split; [done|]. split.
  { destruct (seqb (in_Kind i) KindRefreshStack && seqb (in_Key i) (pointer_key "stack" (sh_Repo h) (FormatInt (sh_Number h)))) eqn:E.
    - to_props. autorewrite with ghsync in *. destruct (rule_emits_kind _ _ _ _ Hr) as [? _].
      destruct i; naive_solver.
    - exfalso. apply Hni, filter_elem. split; [by apply Hcl|]. by rewrite E. }
  split_and!; try done. apply filter_elem. split.
  - destruct (proj1 (Hin j) Hj) as (r' & _ & Hr'). destruct (rule_emits_kind _ _ _ _ Hr') as [Hpr _].
    assert (j = mkIntent KindResolveStackMembership
      (pointer_key "pr" (sh_Repo h) (FormatInt (sh_PRNumber h))) PriorityEvent) as <-
      by (destruct j; naive_solver).
    apply Hcl; [by rewrite Hjk|done].
  - done.
Qed.

(** The pointers of a pull-request event under the default rules. *)
Definition pull_request_intents (p : payloadEnvelope) : list Intent :=
  let prKey := pointer_key "pr" (FullName p) (FormatInt (prNumber p)) in
  mkIntent KindRefreshPR prKey PriorityEvent ::
  match payloadStack p with
  | Some n =>
      [mkIntent KindRefreshStack (pointer_key "stack" (FullName p) (FormatInt n)) PriorityEvent]
  | None => []
  end ++ [mkIntent KindResolveStackMembership prKey PriorityEvent].

Lemma seen_distinct k1 k2 a b seen :
  ContainsByte k1 "000" = false → ContainsByte k2 "000" = false → k1 ≠ k2 →
  bool_decide (seen_key k1 a ∈ seen) = false →
  bool_decide (seen_key k1 a ∈ seen_key k2 b :: seen) = false.
Proof.
  intros ??? H. apply bool_decide_eq_false in H. apply bool_decide_eq_false.
  rewrite elem_of_cons. intros [Heq|?]; [|done]. apply seen_key_inj in Heq; naive_solver.
Qed.

(** Step over a target whose key and kind are known. *)
Lemma classify_targets_new event p t targets key kind acc :
  intentKey t event p = Ok (Some key) → jobKind t = Ok kind →
  bool_decide (seen_key kind key ∈ acc.1) = false →
  classify_targets event p (t :: targets) acc
  = classify_targets event p targets
      (seen_key kind key :: acc.1, acc.2 ++ [mkIntent kind key PriorityEvent]).
Proof. intros Hk Hj Hs. cbn. rewrite Hk. cbn. rewrite Hj. cbn. by rewrite Hs. Qed.

Lemma classify_targets_nil event p acc : classify_targets event p [] acc = Ok acc.
Proof. done. Qed.

Lemma rule_targets_cons rule p : ∃ tl, rule_targets rule p = ru_Target rule :: tl.
Proof. unfold rule_targets. case_if; by eexists. Qed.

Ltac solve_seen :=
  cbn [fst snd]; repeat (apply seen_distinct; [reflexivity|reflexivity|discriminate|]);
  reflexivity.

Lemma pr_rules_classify p :
  classify_rules "pull_request" p (event_rules DefaultRules "pull_request") 0 ([], []) =
  if seqb (FullName p) "" then Err MissingRepository
  else if prNumber p <=? 0 then Err MissingPRNumber
  else match payloadStack p with
  | Some n => if n <=? 0 then Err MissingStackNumber
              else Ok (2%nat, (map (λ i, seen_key (in_Kind i) (in_Key i))
                                (reverse (pull_request_intents p)), pull_request_intents p))
  | None => Ok (2%nat, (map (λ i, seen_key (in_Kind i) (in_Key i))
                                (reverse (pull_request_intents p)), pull_request_intents p))
  end.
Proof.
  change (event_rules DefaultRules "pull_request") with
    [mkRule "pull_request" ActionAny TargetPullRequest TargetStack;
     mkRule "pull_request" ActionAny TargetResolveStackMembership ""].
  set (prKey := pointer_key "pr" (FullName p) (FormatInt (prNumber p))).
  assert (Hrm : ∀ t s, rule_matches (mkRule "pull_request" ActionAny t s) p = true) by done.
  cbn [classify_rules]. rewrite !Hrm. cbn [negb].
  destruct (seqb (FullName p) "") eqn:Hf.
  { destruct (rule_targets_cons (mkRule "pull_request" ActionAny TargetPullRequest TargetStack) p)
      as [tl ->]. cbn. unfold intentKey. by rewrite Hf. }
  assert (Hpr : ∀ t, t = TargetPullRequest ∨ t = TargetResolveStackMembership →
    intentKey t "pull_request" p
    = if prNumber p <=? 0 then Err MissingPRNumber else Ok (Some prKey)).
  { intros t [-> | ->]; unfold intentKey; rewrite Hf; eval_seqb; done. }
  destruct (prNumber p <=? 0) eqn:Hn.
  { destruct (rule_targets_cons (mkRule "pull_request" ActionAny TargetPullRequest TargetStack) p)
      as [tl ->]. cbn. by rewrite Hpr by auto. }
  unfold rule_targets, pull_request_intents; cbn [ru_Target StackedTarget]. eval_seqb.
  destruct (payloadStack p) as [n|] eqn:Hst.
  - rewrite (bool_decide_true (is_Some (Some n))) by eauto. cbn [andb].
    assert (Hsk : intentKey TargetStack "pull_request" p = if n <=? 0 then Err MissingStackNumber
      else Ok (Some (pointer_key "stack" (FullName p) (FormatInt n)))).
    { unfold intentKey. rewrite Hf, Hst. eval_seqb. done. }
    erewrite classify_targets_new; [|by rewrite Hpr by auto|done|done].
    destruct (n <=? 0) eqn:Hn0; [cbn; by rewrite Hsk|].
    erewrite classify_targets_new; [|done|done|solve_seen].
    rewrite classify_targets_nil. cbn [mbind result_bind].
    erewrite classify_targets_new; [|by rewrite Hpr by auto|done|solve_seen]. done.
  - rewrite (bool_decide_false (is_Some None)) by (by intros []). cbn [andb].
    erewrite classify_targets_new; [|by rewrite Hpr by auto|done|done].
    rewrite classify_targets_nil. cbn [mbind result_bind].
    erewrite classify_targets_new; [|by rewrite Hpr by auto|done|solve_seen]. done.
Qed.

Definition push_intent (p : payloadEnvelope) : Intent :=
  mkIntent KindRefreshBranch
    (pointer_key "branch" (FullName p) (TrimPrefix (pe_Ref p) branchPrefix)) PriorityEvent.

Lemma push_rules_classify p :
  classify_rules "push" p (event_rules DefaultRules "push") 0 ([], []) =
  if seqb (FullName p) "" then Err MissingRepository
  else if negb (HasPrefix (pe_Ref p) branchPrefix) then Ok (2%nat, ([], []))
  else if seqb (TrimPrefix (pe_Ref p) branchPrefix) "" then Err EmptyBranchRef
  else Ok (2%nat, ([seen_key KindRefreshBranch (in_Key (push_intent p))], [push_intent p])).
Proof.
  change (event_rules DefaultRules "push") with
    [mkRule "push" ActionAny TargetBranch TargetStack; mkRule "push" ActionAny TargetCodeowners ""].
  assert (Hrm : ∀ t s, rule_matches (mkRule "push" ActionAny t s) p = true) by done.
  cbn [classify_rules]. rewrite !Hrm. unfold rule_targets. cbn [ru_Target StackedTarget].
  eval_seqb. rewrite andb_false_r. cbn [classify_targets]. unfold intentKey.
  destruct (seqb (FullName p) "") eqn:Hf; [done|]. eval_seqb.
  destruct (HasPrefix (pe_Ref p) branchPrefix) eqn:Hh; [|done]. cbn [negb].
  destruct (seqb (TrimPrefix (pe_Ref p) branchPrefix) "") eqn:Hb; [done|].
  cbn [mbind result_bind]. change (jobKind TargetBranch) with (Ok (E:=classify_error) KindRefreshBranch).
  cbn [mbind result_bind fst snd app]. cbn [bool_decide].
  rewrite bool_decide_false by apply not_elem_of_nil.
  destruct (_ || negb (pushTouchesCodeowners p)); [done|].
  change (jobKind TargetCodeowners) with (Ok (E:=classify_error) KindRefreshBranch).
  cbn [mbind result_bind fst snd app]. by rewrite bool_decide_true by by left.
Qed.

Lemma no_membership_no_hint p l :
  has_intent KindResolveStackMembership
    (pointer_key "pr" (FullName p) (FormatInt (prNumber p))) l = false →
  completeStackSummaryHint p l = None.
Proof.
  intros Hl. unfold completeStackSummaryHint. destruct (PullRequest_Stack p); [|done].
  rewrite Hl. cbn [negb]. rewrite orb_true_r. by case_if.
Qed.

Lemma classifyContent_decoded decode rules event contentType body p :
  decode contentType body = Some p → event_rules rules event ≠ [] →
  classifyContent decode rules event contentType body =
  '(matched, (_, out)) ← classify_rules event p (event_rules rules event) 0 ([], []);
  Ok (mkClassification out matched (completeStackSummaryHint p out)
        (completeBranchPushHint p out)).
Proof.
  intros Hd Hr. unfold classifyContent. destruct (event_rules rules event); [done|]. by rewrite Hd.
Qed.

(** What the default rules ask for, on every branch. A pull-request event
    refreshes the pull request, its stack when the payload carries one, and its
    stack membership; a push to a branch asks for one refresh of that branch,
    whether or not CODEOWNERS changed; a push to another ref asks for nothing;
    a payload that lacks the repository, the number or the branch is refused
    with that error. *)
Theorem default_rules_exact decode contentType body p :
  decode contentType body = Some p →
  classifyContent decode DefaultRules "pull_request" contentType body =
    (if seqb (FullName p) "" then Err MissingRepository
     else if prNumber p <=? 0 then Err MissingPRNumber
     else if match payloadStack p with Some n => n <=? 0 | None => false end
     then Err MissingStackNumber
     else Ok (mkClassification (pull_request_intents p) 2
                (completeStackSummaryHint p (pull_request_intents p))
                (completeBranchPushHint p (pull_request_intents p)))) ∧
  classifyContent decode DefaultRules "push" contentType body =
    (if seqb (FullName p) "" then Err MissingRepository
     else if negb (HasPrefix (pe_Ref p) branchPrefix)
     then Ok (mkClassification [] 2 None None)
     else if seqb (TrimPrefix (pe_Ref p) branchPrefix) "" then Err EmptyBranchRef
     else Ok (mkClassification [push_intent p] 2 None
                (Some (mkBranchHint (FullName p) (TrimPrefix (pe_Ref p) branchPrefix)
                         (normalizePushSHA (pe_Before p)) (normalizePushSHA (pe_After p))
                         (negb (seqb (pe_Before p) "") && negb (seqb (pe_After p) ""))
                         (pe_Deleted p) (pe_Forced p))))).
Proof.
  intros Hd. split; rewrite (classifyContent_decoded _ _ _ _ _ _ Hd) by done.
  - rewrite pr_rules_classify. repeat case_match; done.
  - rewrite push_rules_classify.
    destruct (seqb (FullName p) "") eqn:Hf; [done|].
    destruct (HasPrefix (pe_Ref p) branchPrefix) eqn:Hh; cbn [negb]; last first.
    { cbn [mbind result_bind]. rewrite no_membership_no_hint by done.
      unfold completeBranchPushHint. by rewrite Hf, Hh. }
    destruct (seqb (TrimPrefix _ _) "") eqn:Hb; [done|].
    cbn [mbind result_bind]. rewrite no_membership_no_hint by done.
    unfold completeBranchPushHint, push_intent. rewrite Hf, Hh. cbn [orb negb].
    unfold has_intent. cbn [existsb in_Kind in_Key]. by rewrite !seqb_refl.
Qed.

(** A pull-request payload with a complete stack summary, and its decoder. *)
Definition sample_payload : payloadEnvelope :=
  mkPayload "synchronize" 4812 "" "" "" false false "acme/monolith" "main" [] None 4812
    (Some (mkStackRef 90 7 3 2 "main" "b0b")) 0 false None "" "".

Definition sample_decode (contentType body : string) : option payloadEnvelope :=
  if seqb contentType "application/json" then Some sample_payload else None.

Definition sample_stacks (repo : string) (number : Z) : option cached_stack :=
  if seqb repo "acme/monolith" && (number =? 7)
  then Some (mkCachedStack None (Some 90) "main" "b0b" [4811; 4812; 4813]) else None.

Definition sample_classification : classification :=
  mkClassification (pull_request_intents sample_payload) 2
    (Some (mkStackHint "acme/monolith" 4812 90 7 3 2 "main" "b0b")) None.

Lemma sample_classified :
  classifyContent sample_decode DefaultRules "pull_request" "application/json" "{}"
  = Ok sample_classification.
Proof. vm_compute. reflexivity. Defined.

Lemma classify_exact_witness :
  classifyContent sample_decode DefaultRules "pull_request" "application/json" "{}"
    = Ok sample_classification ∧
  NoDup (intents sample_classification) ∧ matchedRules sample_classification = 2%nat.
Proof.
  split; [exact sample_classified|].
  destruct (classify_exact _ _ _ _ _ _ sample_classified) as [_ H].
  destruct H as (p & _ & Hnd & _); [discriminate|]. split; [exact Hnd|reflexivity].
Defined.

Lemma intents_routable_witness :
  ∃ k, parseEntityKey "stack:acme/monolith:7" "stack" = Ok k ∧ ek_Repo k = "acme/monolith".
Proof.
  destruct (intents_routable _ _ _ _ _ _ sample_payload
    (mkIntent KindRefreshStack "stack:acme/monolith:7" PriorityEvent) sample_classified)
    as [_ (k & Hk & Hr & _)].
  - reflexivity.
  - unfold payload_wf; cbn; split_and!; try (intros ? [= <-]); try done;
      vm_compute; intuition discriminate.
  - reflexivity.
  - reflexivity.
  - right. left.
  - exists k. split; [exact Hk|exact Hr].
Defined.

Lemma dropped_intent_covered_witness :
  delivery_intents sample_stacks sample_classification
    = [mkIntent KindRefreshPR "pr:acme/monolith:4812" PriorityEvent;
       mkIntent KindResolveStackMembership "pr:acme/monolith:4812" PriorityEvent] ∧
  mkIntent KindResolveStackMembership "pr:acme/monolith:4812" PriorityEvent
    ∈ delivery_intents sample_stacks sample_classification.
Proof.
  split; [vm_compute; reflexivity|].
  destruct (dropped_intent_covered _ _ _ _ _ _ sample_stacks
    (mkIntent KindRefreshStack "stack:acme/monolith:7" PriorityEvent) sample_classified)
    as [(b & Hb & _)|(h & st & Hh & _ & _ & _ & _ & _ & _ & _ & _ & H)].
  - right. left.
  - by apply (bool_decide_unpack (_ ∉ _)); vm_compute.
  - discriminate Hb.
  - injection Hh as <-. exact H.
Defined.

Lemma default_rules_exact_witness :
  classifyContent sample_decode DefaultRules "pull_request" "application/json" "{}"
    = Ok sample_classification ∧
  classifyContent sample_decode DefaultRules "push" "application/json" "{}"
    = Ok (mkClassification [] 2 None None).
Proof.
  destruct (default_rules_exact sample_decode "application/json" "{}" sample_payload eq_refl)
    as [-> ->]. split; vm_compute; reflexivity.
Defined.

(** ** Pages, batches and backoff *)

Lemma pages_go_spec hint repoID gen size : (0 < size)%nat → ∀ fuel page targets,
  (length targets ≤ fuel)%nat → forallb page_target_ok targets = true →
  ∃ pages, pages_go fuel hint repoID gen size page targets = Ok pages ∧
    concat (map bp_Targets pages) = targets ∧
    Forall (λ a, bp_RepoID a = repoID ∧ bp_Repo a = bh_Repo hint ∧
                 bp_Branch a = bh_Branch hint ∧ bp_Generation a = gen ∧
                 (0 < length (bp_Targets a) ≤ size)%nat) pages ∧
    map bp_Page pages = map (λ k, page + 1 + Z.of_nat k) (seq 0 (length pages)).
Proof.
  intros Hsize. induction fuel as [|fuel IH]; intros page targets Hlen Hok.
  { destruct targets; [|cbn in Hlen; lia]. by exists []. }
  destruct targets as [|t rest] eqn:Et; [by exists []|]. rewrite <- Et in *.
  assert (Hne : (0 < length targets)%nat) by (rewrite Et; cbn; lia).
  rewrite <- (take_drop size targets), forallb_app in Hok. apply andb_true_iff in Hok as [Hok1 Hok2].
  destruct (IH (page + 1) (drop size targets)) as (pages & Hp & Hc & Hf & Hn);
    [rewrite length_drop; lia|done|].
  assert (Hstep : pages_go (S fuel) hint repoID gen size page targets =
    Ok (mkPage repoID (bh_Repo hint) (bh_Branch hint) gen (page + 1) (take size targets) :: pages)).
  { rewrite Et at 1. cbn [pages_go]. rewrite <- Et, Hok1. cbn [negb]. by rewrite Hp. }
  eexists. split; [exact Hstep|]. cbn. split_and!.
  - by rewrite Hc, take_drop.
  - constructor; [|done]. cbn. rewrite length_take. split_and!; try done; lia.
  - rewrite Hn. f_equal; [lia|]. rewrite <- (seq_shift _ 0), map_map. apply map_ext. intros; lia.
Qed.

Lemma pages_go_bad hint repoID gen size : (0 < size)%nat → ∀ fuel page targets,
  (length targets ≤ fuel)%nat → forallb page_target_ok targets = false →
  pages_go fuel hint repoID gen size page targets = Err UnsupportedPageTarget.
Proof.
  intros Hsize. induction fuel as [|fuel IH]; intros page targets Hlen Hok.
  { destruct targets; [done|cbn in Hlen; lia]. }
  destruct targets as [|t rest] eqn:Et; [done|]. rewrite <- Et in *.
  rewrite Et at 1. cbn [pages_go]. rewrite <- Et.
  rewrite <- (take_drop size targets), forallb_app in Hok.
  destruct (forallb page_target_ok (take size targets)); [|done]. cbn [negb].
  rewrite IH; [done|rewrite Et, length_drop in *; cbn in *; lia|done].
Qed.

Lemma pages_spec hint repoID gen targets pageSize :
  0 < pageSize →
  if forallb page_target_ok targets then
    ∃ pages, branchReconciliationPages hint repoID gen targets pageSize
      = Ok (pages, map (λ a, Z.of_nat (length (bp_Targets a))) pages) ∧
      concat (map bp_Targets pages) = targets ∧
      Forall (λ a, bp_RepoID a = repoID ∧ bp_Repo a = bh_Repo hint ∧
                   bp_Branch a = bh_Branch hint ∧ bp_Generation a = gen ∧
                   0 < Z.of_nat (length (bp_Targets a)) ≤ pageSize) pages ∧
      map bp_Page pages = map (λ k, Z.of_nat k + 1) (seq 0 (length pages))
  else branchReconciliationPages hint repoID gen targets pageSize = Err UnsupportedPageTarget.
Proof.
  intros Hp. unfold branchReconciliationPages. replace (pageSize <=? 0) with false by lia.
  destruct (forallb page_target_ok targets) eqn:Hok.
  - destruct (pages_go_spec hint repoID gen (Z.to_nat pageSize) ltac:(lia) (length targets) 0 targets)
      as (pages & -> & Hc & Hf & Hn); [done..|].
    exists pages. split_and!; [done|done| |].
    + eapply Forall_impl; [exact Hf|]. cbn. intros a (? & ? & ? & ? & ?). split_and!; try done; lia.
    + rewrite Hn. apply map_ext. intros; lia.
  - by rewrite pages_go_bad by (done || lia).
Qed.

(** The pages of a branch reconciliation partition its targets: read in
    page order they are the targets in their order, every page is non-empty and
    holds at most [pageSize] of them, the recorded counts are the page sizes and
    the numbers run from 1; a target of another kind refuses the whole batch. *)
Theorem branch_pages_partition hint repoID gen targets pageSize :
  0 < pageSize →
  if forallb page_target_ok targets then
    ∃ pages, branchReconciliationPages hint repoID gen targets pageSize
      = Ok (pages, map (λ a, Z.of_nat (length (bp_Targets a))) pages) ∧
      concat (map bp_Targets pages) = targets ∧
      Forall (λ a, bp_RepoID a = repoID ∧ bp_Repo a = bh_Repo hint ∧
                   bp_Branch a = bh_Branch hint ∧ bp_Generation a = gen ∧
                   0 < Z.of_nat (length (bp_Targets a)) ≤ pageSize) pages ∧
      map bp_Page pages = map (λ k, Z.of_nat k + 1) (seq 0 (length pages))
  else branchReconciliationPages hint repoID gen targets pageSize = Err UnsupportedPageTarget.
Proof. apply pages_spec. Qed.

Lemma branch_pages_partition_witness :
  ∃ pages,
    branchReconciliationPages (mkBranchHint "o/r" "main" "" "" false false false) 4 2
      [mkTarget KindRefreshPR "pr:o/r:1" "pr:1:4:1" 3; mkTarget KindRefreshPR "pr:o/r:2" "pr:1:4:2" 1;
       mkTarget KindRefreshStack "stack:o/r:7" "stack:1:4:7" 5] 2
    = Ok (pages, map (λ a, Z.of_nat (length (bp_Targets a))) pages) ∧
    map bp_Page pages = [1; 2].
Proof.
  pose proof (branch_pages_partition (mkBranchHint "o/r" "main" "" "" false false false) 4 2
    [mkTarget KindRefreshPR "pr:o/r:1" "pr:1:4:1" 3; mkTarget KindRefreshPR "pr:o/r:2" "pr:1:4:2" 1;
     mkTarget KindRefreshStack "stack:o/r:7" "stack:1:4:7" 5] 2 eq_refl) as H.
  vm_compute forallb in H. destruct H as (pages & H & _). exists pages. split; [exact H|].
  vm_compute in H. by simplify_eq.
Defined.

Lemma dedupe_go_elem l : ∀ seen i, i ∈ dedupe_go seen l ↔ i ∈ l ∧ i ∉ seen.
Proof.
  induction l as [|j l IH]; intros seen i; cbn; [set_solver|].
  case_bool_decide; rewrite ?elem_of_cons, IH, ?elem_of_cons; [|destruct (decide (i = j))]; naive_solver.
Qed.

Lemma dedupe_go_NoDup l : ∀ seen, NoDup (dedupe_go seen l).
Proof.
  induction l as [|j l IH]; intros seen; cbn; [constructor|].
  case_bool_decide; [done|]. constructor; [|done]. rewrite dedupe_go_elem. set_solver.
Qed.

(** The queue inserts a deduplicated batch without a conflict inside it. *)
Lemma dedupeIntents_elem l : NoDup (dedupeIntents l) ∧ ∀ i, i ∈ dedupeIntents l ↔ i ∈ l.
Proof.
  unfold dedupeIntents. split.
  - rewrite merge_sort_Permutation. apply dedupe_go_NoDup.
  - intros i. rewrite merge_sort_Permutation, dedupe_go_elem. set_solver.
Qed.

Lemma backoff_loop_bounds n : ∀ delay,
  classificationRetryBaseBackoff ≤ delay ≤ classificationRetryMaxBackoff →
  delay ≤ backoff_loop n delay ≤ classificationRetryMaxBackoff.
Proof.
  induction n as [|n IH]; intros delay Hd; [cbn [backoff_loop]; lia|].
  cbn [backoff_loop]. change (classificationRetryMaxBackoff / 2) with (30 * Second).
  destruct (30 * Second <=? delay) eqn:E; to_props; [lia|].
  unfold classificationRetryBaseBackoff, classificationRetryMaxBackoff, Second in *.
  specialize (IH (delay * 2)). lia.
Qed.
