(* ===== verification/Branch.v ===== *)
(** * Bulk branch reconciliation

    [internal/store/branch.go] with the statements of
    [internal/store/dbgen/branch.sql.go], and the branch phase of
    [dispatchBatchAttempt] ([internal/dispatch/dispatcher.go]): what one push does
    to the cached SHAs, to the generations of the entities it affects, and to the
    durable pages that re-fetch them.

    The statements run in the dispatcher's transaction, so each is a function on
    the tables; the generation locks another transaction may hold are the
    argument [contended]. [pull_requests] and [stacks] carry the columns these
    statements read and write; a stack entry is its pull-request number, head
    ref and head SHA. *)

From Stdlib Require Import ZArith Lia Bool Ascii String.
From stdpp Require Import strings numbers sorting sets gmap base list.
From S2P Require Import Prelude GoStrings Keys RefreshQueue EntityWriter Classify.

Local Open Scope Z_scope.

(** ** Tables *)

Record pull_row : Type := mkPull {
  pr_repo_id : Z;
  pr_number : Z;
  pr_state : string;
  pr_head_ref : string;
  pr_head_sha : string;
  pr_base_ref : string;
  pr_base_sha : string;
  pr_stack_number : option Z;
  pr_review_decision : string;
  pr_mergeable_state : string;
  pr_etag : string;
  pr_tombstoned_at : option time
}.

Record stack_entry : Type := mkEntry {
  en_number : Z;
  en_head_ref : string;
  en_head_sha : string
}.

#[export] Instance stack_entry_eq_dec : EqDecision stack_entry.
Proof. solve_decision. Defined.

Record stack_row : Type := mkStack {
  sk_repo_id : Z;
  sk_number : Z;
  sk_base_ref : string;
  sk_base_sha : string;
  sk_head_sha : string;
  sk_entries : list stack_entry;
  sk_etag : string;
  sk_tombstoned_at : option time
}.

(** A row of [branch_reconciliations]. *)
Record reconciliation : Type := mkReconciliation {
  rc_generation : Z;
  rc_before_sha : string;
  rc_after_sha : string;
  rc_transition_known : bool;
  rc_deleted : bool;
  rc_forced : bool;
  rc_delivery_guid : string;
  rc_received_at : time;
  rc_applied_at : time;
  rc_target_count : Z;
  rc_page_count : Z;
  rc_completed_at : option time
}.

Inductive page_status : Type := PagePending | PageCompleted | PageSuperseded.

#[export] Instance page_status_eq_dec : EqDecision page_status.
Proof. solve_decision. Defined.

(** A row of [branch_reconciliation_pages]. *)
Record page_row : Type := mkPageRow {
  pg_target_count : Z;
  pg_status : page_status;
  pg_superseded_targets : Z;
  pg_created_at : time;
  pg_completed_at : option time
}.

(** Repository, branch, generation and page number. *)
Abbreviation page_key := (Z * string * Z * Z)%type.

Record branch_db : Type := mkBranchDb {
  (** Repository ids by alias, and repositories by id. *)
  bd_aliases : gmap string Z;
  bd_repos : gmap Z repo_row;
  bd_pulls : list pull_row;
  bd_stacks : list stack_row;
  bd_reconciliations : gmap (Z * string) reconciliation;
  bd_pages : gmap page_key page_row;
  bd_dirty : gmap string time;
  bd_events : list (string * string * time)
}.

(** The [repository] subquery the statements share. *)
Definition repository_of (db : branch_db) (fullName : string) : option repo_row :=
  id ← bd_aliases db !! fullName;
  r ← bd_repos db !! id;
  if bool_decide (is_Some (rp_tombstoned_at r)) then None else Some r.

(** [store.BranchPushHint]. *)
Record BranchPushHint : Type := mkPush {
  bph_hint : branchPushHint;
  DeliveryGUID : string;
  ReceivedAt : time
}.

(** ** [BeginBranchReconciliation] *)

Definition supersede_page (repoID : Z) (branch : string) (generation : Z) (appliedAt : time)
    (k : page_key) (p : page_row) : page_row :=
  let '(r, b, g, _) := k in
  if (r =? repoID) && seqb b branch && (g <? generation)
     && bool_decide (pg_status p = PagePending)
  then mkPageRow (pg_target_count p) PageSuperseded (pg_target_count p) (pg_created_at p)
         (Some appliedAt)
  else p.

Definition superseded_count (repoID : Z) (branch : string) (generation : Z)
    (pages : gmap page_key page_row) : Z :=
  Z.of_nat (length (List.filter
    (λ '(((r, b, g, _), p)), (r =? repoID) && seqb b branch && (g <? generation)
                             && bool_decide (pg_status p = PagePending))
    (map_to_list pages))).

(** The new generation, the pages it superseded and the tables; [None] is "no
    rows": the repository is unknown, or this delivery was already applied. *)
Definition BeginBranchReconciliation (h : BranchPushHint) (appliedAt : time) (r : repo_row)
    (db : branch_db) : option (Z * Z * branch_db) :=
  let k := (rp_id r, bh_Branch (bph_hint h)) in
  let row g := mkReconciliation g (bh_BeforeSHA (bph_hint h)) (bh_AfterSHA (bph_hint h))
    (bh_TransitionKnown (bph_hint h)) (bh_Deleted (bph_hint h)) (bh_Forced (bph_hint h))
    (DeliveryGUID h) (ReceivedAt h) appliedAt 0 0 None in
  let start g :=
    Some (g, superseded_count (rp_id r) (bh_Branch (bph_hint h)) g (bd_pages db),
          mkBranchDb (bd_aliases db) (bd_repos db) (bd_pulls db) (bd_stacks db)
            (<[k := row g]> (bd_reconciliations db))
            (map_imap (λ pk p, Some (supersede_page (rp_id r) (bh_Branch (bph_hint h)) g appliedAt pk p))
               (bd_pages db))
            (bd_dirty db) (bd_events db)) in
  match bd_reconciliations db !! k with
  | None => start 1
  | Some rc =>
      if seqb (rc_delivery_guid rc) (DeliveryGUID h) then None
      else start (rc_generation rc + 1)
  end.

(** ** [ApplyBranchHintTransition] *)

Section transition.
Context (branch before after : string) (known : bool).

(** A ref at its old SHA, which really moves. *)
Definition at_before (ref sha : string) : bool := seqb ref branch && seqb sha before.

Definition moves (ref sha : string) : bool := at_before ref sha && negb (seqb sha after).

Definition advance (ref sha : string) : string := if at_before ref sha then after else sha.

Definition updates_repository (r : repo_row) : bool :=
  known && seqb (rp_default_branch r) branch && seqb (rp_head_sha r) before
  && negb (seqb (rp_head_sha r) after).

Definition updated_repository (r : repo_row) : repo_row :=
  mkRepo (rp_id r) (rp_installation_id r) (rp_org_id r) (rp_gh_id r) (rp_node_id r)
    (rp_owner r) (rp_name r) (rp_full_name r) (rp_default_branch r) (rp_archived r)
    (rp_gh_updated_at r) after (rp_synced_at r) (rp_last_checked_at r) "" (rp_sync_source r)
    (rp_tombstoned_at r).

Definition updates_pull (repoID : Z) (p : pull_row) : bool :=
  (pr_repo_id p =? repoID) && bool_decide (pr_tombstoned_at p = None)
  && seqb (pr_state p) "open" && known
  && (moves (pr_head_ref p) (pr_head_sha p) || moves (pr_base_ref p) (pr_base_sha p)).

Definition updated_pull (p : pull_row) : pull_row :=
  mkPull (pr_repo_id p) (pr_number p) (pr_state p)
    (pr_head_ref p) (advance (pr_head_ref p) (pr_head_sha p))
    (pr_base_ref p) (advance (pr_base_ref p) (pr_base_sha p))
    (pr_stack_number p) "" "" "" (pr_tombstoned_at p).

Definition advanced_entry (e : stack_entry) : stack_entry :=
  mkEntry (en_number e) (en_head_ref e) (advance (en_head_ref e) (en_head_sha e)).

Definition stack_candidate (repoID : Z) (s : stack_row) : bool :=
  (sk_repo_id s =? repoID) && bool_decide (sk_tombstoned_at s = None) && known
  && (at_before (sk_base_ref s) (sk_base_sha s)
      || existsb (λ e, at_before (en_head_ref e) (en_head_sha e)) (sk_entries s)).

Definition new_base_sha (s : stack_row) : string := advance (sk_base_ref s) (sk_base_sha s).
Definition new_entries (s : stack_row) : list stack_entry := map advanced_entry (sk_entries s).

Definition updates_stack (repoID : Z) (s : stack_row) : bool :=
  stack_candidate repoID s
  && negb (bool_decide (sk_base_sha s = new_base_sha s ∧ sk_entries s = new_entries s)).

Definition updated_stack (s : stack_row) : stack_row :=
  mkStack (sk_repo_id s) (sk_number s) (sk_base_ref s) (new_base_sha s)
    (match last (new_entries s) with Some e => en_head_sha e | None => new_base_sha s end)
    (new_entries s) "" (sk_tombstoned_at s).
End transition.

Definition PullRequestChangedKind : string := "pull_request.changed".
Definition StackChangedKind : string := "stack.changed".

Definition event_le (a b : string * string) : Prop :=
  string_lt a.2 b.2 ∨ a.2 = b.2 ∧ string_le a.1 b.1.

#[export] Instance event_le_dec : RelDecision event_le.
Proof. intros a b. unfold event_le. apply _. Defined.

(** The dirty scopes of the updated pulls and stacks. *)
Definition branch_dirty_scopes (r : repo_row) (pulls : list pull_row) (stacks : list stack_row)
    : list string :=
  map (λ p, derivationScope (rp_installation_id r) (rp_gh_id r) (pr_number p) (pr_stack_number p))
    pulls
  ++ map (λ s, Outbox.StackKey (rp_installation_id r) (rp_gh_id r) (sk_number s)) stacks.

(** The events (kind, entity key) of the updated rows, in insertion order. *)
Definition branch_events (r : repo_row) (repo_updated : bool) (pulls : list pull_row)
    (stacks : list stack_row) : list (string * string) :=
  merge_sort event_le
    ((if repo_updated
      then [(RepositoryChangedKind, Outbox.RepositoryKey (rp_installation_id r) (rp_gh_id r))]
      else [])
     ++ map (λ p, (PullRequestChangedKind,
                   Outbox.PullRequestKey (rp_installation_id r) (rp_gh_id r) (pr_number p))) pulls
     ++ map (λ s, (StackChangedKind,
                   Outbox.StackKey (rp_installation_id r) (rp_gh_id r) (sk_number s))) stacks).

(** The inserted events and the tables. *)
Definition ApplyBranchHintTransition (h : branchPushHint) (appliedAt : time) (r : repo_row)
    (db : branch_db) : list (string * string) * branch_db :=
  let branch := bh_Branch h in
  let before := bh_BeforeSHA h in
  let after := bh_AfterSHA h in
  let known := bh_TransitionKnown h in
  let repo_updated := updates_repository branch before after known r in
  let pull_up := updates_pull branch before after known (rp_id r) in
  let stack_up := updates_stack branch before after known (rp_id r) in
  let pulls := List.filter pull_up (bd_pulls db) in
  let stacks := List.filter stack_up (bd_stacks db) in
  let events := branch_events r repo_updated pulls stacks in
  (events,
   mkBranchDb (bd_aliases db)
     (if repo_updated then <[rp_id r := updated_repository after r]> (bd_repos db) else bd_repos db)
     (map (λ p, if pull_up p then updated_pull branch before after p else p) (bd_pulls db))
     (map (λ s, if stack_up s then updated_stack branch before after s else s) (bd_stacks db))
     (bd_reconciliations db) (bd_pages db)
     (MarkDerivationDirty appliedAt (branch_dirty_scopes r pulls stacks) (bd_dirty db))
     (bd_events db ++ map (λ e, (e.1, e.2, appliedAt)) events)).

(** ** Generation targets *)

(** An open pull request on the branch. *)
Definition targets_pull (repoID : Z) (branch : string) (p : pull_row) : bool :=
  (pr_repo_id p =? repoID) && bool_decide (pr_tombstoned_at p = None)
  && seqb (pr_state p) "open"
  && (seqb (pr_head_ref p) branch || seqb (pr_base_ref p) branch).

Definition targets_stack (repoID : Z) (branch : string) (s : stack_row) : bool :=
  (sk_repo_id s =? repoID) && bool_decide (sk_tombstoned_at s = None)
  && (seqb (sk_base_ref s) branch || existsb (λ e, seqb (en_head_ref e) branch) (sk_entries s)).

Definition pull_target (fullName : string) (r : repo_row) (p : pull_row) : string * string * string :=
  (KindRefreshPR, pointer_key "pr" fullName (FormatInt (pr_number p)),
   Outbox.PullRequestKey (rp_installation_id r) (rp_gh_id r) (pr_number p)).

Definition stack_target (fullName : string) (r : repo_row) (s : stack_row) : string * string * string :=
  (KindRefreshStack, pointer_key "stack" fullName (FormatInt (sk_number s)),
   Outbox.StackKey (rp_installation_id r) (rp_gh_id r) (sk_number s)).

(** The [page_targets] subquery: kind, refresh key and entity key. *)
Definition page_targets (fullName branch : string) (r : repo_row) (db : branch_db)
    : list (string * string * string) :=
  remove_dups
    (map (pull_target fullName r) (List.filter (targets_pull (rp_id r) branch) (bd_pulls db))
     ++ map (stack_target fullName r) (List.filter (targets_stack (rp_id r) branch) (bd_stacks db))).

(** The [generation_targets] subquery. *)
Definition generation_targets (fullName branch : string) (r : repo_row) (db : branch_db)
    : list identity :=
  remove_dups
    (map fst (page_targets fullName branch r db)
     ++ (if seqb (rp_default_branch r) branch
         then [(KindRefreshRepository, "repo:" +:+ fullName +:+ ":metadata")] else [])).

(** [ListBranchReconciliationGenerationKeys]. *)
Definition BranchReconciliationGenerationKeys (fullName branch : string) (r : repo_row)
    (db : branch_db) : list identity :=
  merge_sort identity_le (generation_targets fullName branch r db).

Definition branch_target_le (a b : branch_target) : Prop :=
  identity_le (bt_Kind a, bt_Key a) (bt_Kind b, bt_Key b).

#[export] Instance branch_target_le_dec : RelDecision branch_target_le.
Proof. intros a b. unfold branch_target_le. apply _. Defined.

(** [AdvanceBranchReconciliationTargetGenerations], and the caller's sort. *)
Definition AdvanceBranchReconciliationTargetGenerations (fullName branch : string)
    (appliedAt : time) (r : repo_row) (db : branch_db) (g : generations)
    : list branch_target * generations :=
  let g' := foldl (claim_generation appliedAt) g
              (BranchReconciliationGenerationKeys fullName branch r db) in
  (merge_sort branch_target_le
     (map (λ '((kind, key), entity),
             mkTarget kind key entity (current_generation g' (kind, key)))
        (page_targets fullName branch r db)), g').

(** ** [ApplyBranchPushTx] *)

Record BranchBulkResult : Type := mkBulk {
  bb_RepoID : Z;
  bb_Generation : Z;
  bb_Targets : list branch_target;
  bb_RepositoryRefreshKey : string;
  bb_Repositories : nat;
  bb_PullRequests : nat;
  bb_Stacks : nat;
  bb_SupersededPages : Z
}.

Inductive branch_error : Type :=
  | InvalidBranchHint
  | GenerationContention
  | EmptyPage
  | PageError (e : dispatch_error).

(** The key of the first repository refresh among the generation keys. *)
Definition repository_refresh_key (keys : list identity) : string :=
  match list_find (λ k : identity, k.1 = KindRefreshRepository) keys with
  | Some (_, k) => k.2
  | None => ""
  end.

Definition count_kind (kind : string) (events : list (string * string)) : nat :=
  length (List.filter (λ e, seqb e.1 kind) events).

(** [Ok None] is the result with repository id 0: nothing to reconcile. *)
Definition ApplyBranchPushTx (contended : list identity → bool) (appliedAt : time)
    (h : BranchPushHint) (db : branch_db) (g : generations)
    : result branch_error (option BranchBulkResult * branch_db * generations) :=
  let repo := bh_Repo (bph_hint h) in
  let branch := bh_Branch (bph_hint h) in
  if seqb repo "" || seqb branch "" || seqb (DeliveryGUID h) "" || IsZero (ReceivedAt h)
  then Err InvalidBranchHint
  else match repository_of db repo with
  | None => Ok (None, db, g)
  | Some r =>
      match BeginBranchReconciliation h appliedAt r db with
      | None => Ok (None, db, g)
      | Some (generation, superseded, db1) =>
          let '(events, db2) := ApplyBranchHintTransition (bph_hint h) appliedAt r db1 in
          (* the statements that follow read the repository again *)
          let r2 := default r (repository_of db2 repo) in
          let keys := BranchReconciliationGenerationKeys repo branch r2 db2 in
          if contended keys then Err GenerationContention
          else
            let '(targets, g') :=
              AdvanceBranchReconciliationTargetGenerations repo branch appliedAt r2 db2 g in
            Ok (Some (mkBulk (rp_id r) generation targets (repository_refresh_key keys)
                        (count_kind RepositoryChangedKind events)
                        (count_kind PullRequestChangedKind events)
                        (count_kind StackChangedKind events) superseded), db2, g')
      end
  end.

(** ** The page manifest *)

Definition total (counts : list Z) : Z := foldr Z.add 0 counts.

(** The inserted page rows; an existing row is kept. *)
Fixpoint insert_pages (repoID : Z) (branch : string) (generation : Z) (now : time)
    (number : Z) (counts : list Z) (pages : gmap page_key page_row) : gmap page_key page_row :=
  match counts with
  | [] => pages
  | c :: counts =>
      let k := (repoID, branch, generation, number) in
      insert_pages repoID branch generation now (number + 1) counts
        (match pages !! k with
         | Some _ => pages
         | None => <[k := mkPageRow c PagePending 0 now None]> pages
         end)
  end.

Definition RecordBranchReconciliationPagesTx (repoID : Z) (branch : string) (generation : Z)
    (counts : list Z) (now : time) (db : branch_db) : result branch_error branch_db :=
  if negb (forallb (λ c, 0 <? c) counts) then Err EmptyPage
  else
    let k := (repoID, branch) in
    let n := Z.of_nat (length counts) in
    Ok (mkBranchDb (bd_aliases db) (bd_repos db) (bd_pulls db) (bd_stacks db)
          (match bd_reconciliations db !! k with
           | Some rc =>
               if rc_generation rc =? generation then
                 <[k := mkReconciliation (rc_generation rc) (rc_before_sha rc) (rc_after_sha rc)
                          (rc_transition_known rc) (rc_deleted rc) (rc_forced rc)
                          (rc_delivery_guid rc) (rc_received_at rc) (rc_applied_at rc)
                          (wrap32 (total counts)) (wrap32 n)
                          (if wrap32 n =? 0 then Some now else None)]> (bd_reconciliations db)
               else bd_reconciliations db
           | None => bd_reconciliations db
           end)
          (insert_pages repoID branch generation now 1 counts (bd_pages db))
          (bd_dirty db) (bd_events db)).

(** ** The branch phase of a dispatch attempt *)

#[export] Instance branch_target_eq_dec : EqDecision branch_target.
Proof. solve_decision. Defined.
#[export] Instance page_args_eq_dec : EqDecision page_args.
Proof. solve_decision. Defined.

(** [InsertManyTx] of page jobs, unique by arguments among the live ones. *)
Definition insert_page_job (l : list page_args) (a : page_args) : list page_args :=
  if bool_decide (a ∈ l) then l else l ++ [a].

Section phase.
Context `{R : River}.
Context (contended : list identity → bool) (pageSize : Z).

(** The tables of the dispatch transaction that a push touches. *)
Record push_state : Type := mkPushState {
  ps_db : branch_db;
  ps_queue : tables;
  ps_page_jobs : list page_args
}.

(** The database clock when the push is applied and when its pages are recorded. *)
Context (clock : BranchPushHint → time * time).

Definition apply_push (h : BranchPushHint) (st : push_state)
    : result branch_error push_state :=
  let '(appliedAt, recordedAt) := clock h in
  '(bulk, db1, g1) ← ApplyBranchPushTx contended appliedAt h (ps_db st) (gens (ps_queue st));
  match bulk with
  | None => Ok (mkPushState db1 (mkTables g1 (river (ps_queue st))) (ps_page_jobs st))
  | Some bulk =>
      match branchReconciliationPages (bph_hint h) (bb_RepoID bulk) (bb_Generation bulk)
              (bb_Targets bulk) pageSize with
      | Err e => Err (PageError e)
      | Ok (pages, counts) =>
          db2 ← RecordBranchReconciliationPagesTx (bb_RepoID bulk) (bh_Branch (bph_hint h))
                  (bb_Generation bulk) counts recordedAt db1;
          let jobs := foldl insert_page_job (ps_page_jobs st) pages in
          let t :=
            if negb (seqb (bb_RepositoryRefreshKey bulk) "")
            then (river_insert (NewRefreshRepositoryHeadArgs (bb_RepositoryRefreshKey bulk))
                    "bulk" zero_time (river (ps_queue st))).2
            else river (ps_queue st) in
          Ok (mkPushState db2 (mkTables g1 t) jobs)
      end
  end.

Fixpoint apply_pushes (hs : list BranchPushHint) (st : push_state)
    : result branch_error push_state :=
  match hs with
  | [] => Ok st
  | h :: hs => st ← apply_push h st; apply_pushes hs st
  end.
End phase.

(** ** Lemmas *)

(** Repositories are keyed by their id. *)
Definition repos_keyed (db : branch_db) : Prop :=
  ∀ id r, bd_repos db !! id = Some r → rp_id r = id.

Lemma repository_of_inv db name r :
  repository_of db name = Some r →
  ∃ id, bd_aliases db !! name = Some id ∧ bd_repos db !! id = Some r ∧ rp_tombstoned_at r = None.
Proof.
  unfold repository_of. intros (id & Hid & (r' & Hr & H)%bind_Some)%bind_Some.
  case_if_in H; simplify_eq. to_props. exists id. split_and!; [done..|]. by apply eq_None_not_Some.
Qed.

(** The transition leaves the repository found, with the same identity. *)
Lemma repository_after h at_ r db name :
  repos_keyed db → repository_of db name = Some r →
  ∃ r2, repository_of (ApplyBranchHintTransition h at_ r db).2 name = Some r2 ∧
    rp_id r2 = rp_id r ∧ rp_installation_id r2 = rp_installation_id r ∧
    rp_gh_id r2 = rp_gh_id r ∧ rp_default_branch r2 = rp_default_branch r.
Proof.
  intros Hk (id & Ha & Hr & Ht)%repository_of_inv. apply Hk in Hr as Hid.
  unfold repository_of. cbn. rewrite Ha. cbn.
  destruct (updates_repository _ _ _ _ r).
  - rewrite Hid, lookup_insert_eq. cbn. rewrite Ht, bool_decide_false by (by intros []).
    eexists. split; [done|]. by cbn.
  - rewrite Hr. cbn. rewrite Ht, bool_decide_false by (by intros []). by eexists.
Qed.

(** Claiming distinct keys advances each once, leaving nothing outstanding on
    it, and no other. *)
Lemma claims_spec at_ keys : ∀ g i, NoDup keys →
  let g' := foldl (claim_generation at_) g keys in
  current_generation g' i = current_generation g i + (if decide (i ∈ keys) then 1 else 0) ∧
  completed g' i = if decide (i ∈ keys) then current_generation g i + 1 else completed g i.
Proof.
  induction keys as [|k keys IH]; intros g i Hnd; cbn [foldl].
  { cbn zeta. rewrite decide_False by apply not_elem_of_nil. split; [lia|done]. }
  apply NoDup_cons in Hnd as [Hk Hnd]. cbn zeta. destruct (IH (claim_generation at_ g k) i Hnd) as [Hc Hd].
  rewrite Hc, Hd, claim_current, claim_completed.
  destruct (decide (k = i)) as [->|Hne].
  - rewrite !(decide_False (P:=i ∈ keys)), !(decide_True (P:=i ∈ i :: keys)) by (done || by left).
    split; [lia|done].
  - destruct (decide (i ∈ keys)).
    + rewrite !(decide_True (P:=i ∈ k :: keys)) by (by right). split; lia.
    + rewrite !(decide_False (P:=i ∈ k :: keys)) by (rewrite elem_of_cons; naive_solver). split; [lia|done].
Qed.

Lemma generation_keys_NoDup fullName branch r db :
  NoDup (BranchReconciliationGenerationKeys fullName branch r db).
Proof.
  unfold BranchReconciliationGenerationKeys. rewrite merge_sort_Permutation. apply NoDup_remove_dups.
Qed.

Lemma generation_keys_elem fullName branch r db i :
  i ∈ BranchReconciliationGenerationKeys fullName branch r db ↔
  (∃ e, (i, e) ∈ page_targets fullName branch r db) ∨
  (rp_default_branch r = branch ∧ i = (KindRefreshRepository, "repo:" +:+ fullName +:+ ":metadata")).
Proof.
  unfold BranchReconciliationGenerationKeys, generation_targets.
  rewrite merge_sort_Permutation, elem_of_remove_dups, elem_of_app, list_elem_of_fmap.
  f_equiv.
  - split; [intros ([i' e] & -> & ?); eauto|intros (e & ?); by exists (i, e)].
  - case_if; autorewrite with ghsync in *; [rewrite list_elem_of_singleton|rewrite elem_of_nil]; tauto.
Qed.

(** The targets of a push: kinds and generations. *)
Lemma targets_spec fullName branch at_ r db g :
  let '(targets, g') := AdvanceBranchReconciliationTargetGenerations fullName branch at_ r db g in
  forallb page_target_ok targets = true ∧
  ∀ kind key e, (kind, key, e) ∈ page_targets fullName branch r db →
    mkTarget kind key e (current_generation g' (kind, key)) ∈ targets ∧
    current_generation g' (kind, key) = current_generation g (kind, key) + 1 ∧
    completed g' (kind, key) = current_generation g (kind, key) + 1.
Proof.
  unfold AdvanceBranchReconciliationTargetGenerations. split.
  - apply forallb_forall. intros t Ht. rewrite <- list_elem_of_In, merge_sort_Permutation in Ht.
    apply list_elem_of_fmap in Ht as ([[kind key] e] & -> & Ht).
    unfold page_targets in Ht. rewrite elem_of_remove_dups, elem_of_app, !list_elem_of_fmap in Ht.
    destruct Ht as [(p & [= -> _ _] & _)|(s & [= -> _ _] & _)]; done.
  - intros kind key e He. split.
    + rewrite merge_sort_Permutation. apply list_elem_of_fmap. by exists (kind, key, e).
    + destruct (claims_spec at_ (BranchReconciliationGenerationKeys fullName branch r db) g (kind, key))
        as [Hc Hd]; [apply generation_keys_NoDup|].
      rewrite Hc, Hd, !decide_True by (apply generation_keys_elem; eauto). done.
Qed.

(** Pages belong to a generation their branch has reached. *)
Definition pages_bounded (db : branch_db) : Prop :=
  ∀ r b g n p, bd_pages db !! (r, b, g, n) = Some p →
    ∃ rc, bd_reconciliations db !! (r, b) = Some rc ∧ g ≤ rc_generation rc.

Definition branch_wf (db : branch_db) : Prop := repos_keyed db ∧ pages_bounded db.

(** The generation a branch has reached. *)
Definition branch_generation (db : branch_db) (repoID : Z) (branch : string) : Z :=
  default 0 (rc_generation <$> bd_reconciliations db !! (repoID, branch)).

(** What [BeginBranchReconciliation] starts. *)
Lemma begin_spec h at_ r db gen sup db1 :
  BeginBranchReconciliation h at_ r db = Some (gen, sup, db1) →
  let b := bh_Branch (bph_hint h) in
  gen = branch_generation db (rp_id r) b + 1 ∧
  bd_aliases db1 = bd_aliases db ∧ bd_repos db1 = bd_repos db ∧
  bd_pulls db1 = bd_pulls db ∧ bd_stacks db1 = bd_stacks db ∧
  (∃ rc, bd_reconciliations db1 = <[(rp_id r, b) := rc]> (bd_reconciliations db) ∧
     rc_generation rc = gen ∧ rc_delivery_guid rc = DeliveryGUID h) ∧
  (∀ k, bd_pages db1 !! k = supersede_page (rp_id r) b gen at_ k <$> bd_pages db !! k).
Proof.
  unfold BeginBranchReconciliation, branch_generation. intros H. cbn zeta.
  destruct (bd_reconciliations db !! _) as [rc|]; [case_if_in H; [done|]|]; simplify_eq; cbn;
    (split_and!; [done..|by eexists|]); intros k; rewrite map_lookup_imap;
    by destruct (bd_pages db !! k).
Qed.

Lemma begin_some h at_ r db :
  (∀ rc, bd_reconciliations db !! (rp_id r, bh_Branch (bph_hint h)) = Some rc →
     rc_delivery_guid rc ≠ DeliveryGUID h) →
  ∃ gen sup db1, BeginBranchReconciliation h at_ r db = Some (gen, sup, db1).
Proof.
  intros H. unfold BeginBranchReconciliation.
  destruct (bd_reconciliations db !! _) as [rc|]; [|by do 3 eexists].
  rewrite (proj2 (seqb_false _ _) (H _ eq_refl)). by do 3 eexists.
Qed.

Lemma insert_pages_other r b g now counts : ∀ n pages k,
  (∀ m, k ≠ (r, b, g, m)) → insert_pages r b g now n counts pages !! k = pages !! k.
Proof.
  induction counts as [|c counts IH]; intros n pages k Hk; [done|]. cbn [insert_pages].
  rewrite IH by done. case_match; [done|]. by rewrite lookup_insert_ne.
Qed.

Lemma insert_pages_below r b g now counts : ∀ n m pages,
  m < n → insert_pages r b g now n counts pages !! (r, b, g, m) = pages !! (r, b, g, m).
Proof.
  induction counts as [|c counts IH]; intros n m pages Hm; [done|]. cbn [insert_pages].
  rewrite IH by lia. case_match; [done|]. rewrite lookup_insert_ne; [done|]. intros [= ?]. lia.
Qed.

Lemma insert_pages_in r b g now counts : ∀ n pages j c,
  (∀ m, n ≤ m → pages !! (r, b, g, m) = None) → counts !! j = Some c →
  insert_pages r b g now n counts pages !! (r, b, g, n + Z.of_nat j)
  = Some (mkPageRow c PagePending 0 now None).
Proof.
  induction counts as [|c0 counts IH]; intros n pages j c Hfresh Hj; [done|].
  cbn [insert_pages]. rewrite (Hfresh n) by lia. destruct j as [|j]; cbn in Hj.
  - simplify_eq. rewrite insert_pages_below by lia. by rewrite Z.add_0_r, lookup_insert_eq.
  - replace (n + Z.of_nat (S j)) with (n + 1 + Z.of_nat j) by lia. apply IH; [|done].
    intros m Hm. rewrite lookup_insert_ne; [apply Hfresh; lia|]. intros [= ?]. lia.
Qed.

Lemma insert_page_jobs l pages a :
  a ∈ foldl insert_page_job l pages ↔ a ∈ l ∨ a ∈ pages.
Proof.
  revert l. induction pages as [|p pages IH]; intros l; cbn; [set_solver|].
  rewrite IH, elem_of_cons. unfold insert_page_job. case_bool_decide; [|rewrite elem_of_app,
    list_elem_of_singleton; tauto]. naive_solver.
Qed.

(** A target of a list of pages is in one of them, by its position. *)
Lemma target_page t pages :
  t ∈ concat (map bp_Targets pages) → ∃ j a, pages !! j = Some a ∧ t ∈ bp_Targets a.
Proof.
  rewrite list_elem_of_In, in_concat. intros (ts & Hts & Ht).
  apply in_map_iff in Hts as (a & <- & Ha). apply list_elem_of_In in Ha, Ht.
  apply list_elem_of_lookup in Ha as [j Hj]. eauto.
Qed.

Definition valid_push (h : BranchPushHint) : Prop :=
  bh_Repo (bph_hint h) ≠ "" ∧ bh_Branch (bph_hint h) ≠ "" ∧ DeliveryGUID h ≠ "" ∧ ReceivedAt h ≠ 0.

(** The pointer of target [x] is on a recorded pending page of generation [gen],
    at the generation the push claimed for it. *)
Definition paged `{R : River} (st : push_state) (repoID : Z) (branch : string) (gen : Z)
    (x : string * string * string) : Prop :=
  ∃ a t p, a ∈ ps_page_jobs st ∧ t ∈ bp_Targets a ∧
    bp_RepoID a = repoID ∧ bp_Branch a = branch ∧ bp_Generation a = gen ∧
    (bt_Kind t, bt_Key t, bt_EntityKey t) = x ∧
    bt_Generation t = current_generation (gens (ps_queue st)) x.1 ∧
    completed (gens (ps_queue st)) x.1 = bt_Generation t ∧
    bd_pages (ps_db st) !! (repoID, branch, gen, bp_Page a) = Some p ∧
    pg_status p = PagePending ∧ pg_target_count p = Z.of_nat (length (bp_Targets a)).

(** The effect of a push that is applied. *)
Record push_applied `{R : River} (h : BranchPushHint) (r : repo_row) (st st' : push_state)
    : Prop := {
  pa_gen : branch_generation (ps_db st') (rp_id r) (bh_Branch (bph_hint h))
           = branch_generation (ps_db st) (rp_id r) (bh_Branch (bph_hint h)) + 1;
  pa_paged x : x ∈ page_targets (bh_Repo (bph_hint h)) (bh_Branch (bph_hint h)) r (ps_db st') →
    paged st' (rp_id r) (bh_Branch (bph_hint h))
      (branch_generation (ps_db st') (rp_id r) (bh_Branch (bph_hint h))) x;
  pa_superseded g n p : bd_pages (ps_db st) !! (rp_id r, bh_Branch (bph_hint h), g, n) = Some p →
    ∃ p', bd_pages (ps_db st') !! (rp_id r, bh_Branch (bph_hint h), g, n) = Some p' ∧
      pg_status p' = (if decide (pg_status p = PagePending) then PageSuperseded else pg_status p);
  pa_other r' b n g : (r', b) ≠ (rp_id r, bh_Branch (bph_hint h)) →
    bd_pages (ps_db st') !! (r', b, g, n) = bd_pages (ps_db st) !! (r', b, g, n)
}.

(** What every push preserves. *)
Record push_frame `{R : River} (st st' : push_state) : Prop := {
  pf_wf : branch_wf (ps_db st) → branch_wf (ps_db st');
  pf_gens i : completed (gens (ps_queue st)) i ≤ current_generation (gens (ps_queue st)) i →
    completed (gens (ps_queue st')) i ≤ current_generation (gens (ps_queue st')) i;
  pf_live i : live (river (ps_queue st)) i → live (river (ps_queue st')) i;
  pf_jobs a : a ∈ ps_page_jobs st → a ∈ ps_page_jobs st'
}.

Section push_lemmas.
Context `{R : River} `{!RiverLaws R} (pageSize : Z) (clock : BranchPushHint → time * time).
Context (Hsize : 0 < pageSize).

Lemma push_frame_refl st : push_frame st st.
Proof. done. Qed.

Lemma push_frame_trans st1 st2 st3 : push_frame st1 st2 → push_frame st2 st3 → push_frame st1 st3.
Proof. intros [] []. split; eauto. Qed.

Lemma page_targets_ext fullName branch r r2 db db' :
  rp_id r2 = rp_id r → rp_installation_id r2 = rp_installation_id r → rp_gh_id r2 = rp_gh_id r →
  bd_pulls db' = bd_pulls db → bd_stacks db' = bd_stacks db →
  page_targets fullName branch r2 db = page_targets fullName branch r db'.
Proof.
  intros Hi Hn Hg Hp Hs. unfold page_targets. rewrite Hp, Hs, Hi.
  f_equal. f_equal; apply map_ext; intros; unfold pull_target, stack_target; by rewrite Hn, Hg.
Qed.

(** The recorded manifest. *)
Lemma record_spec repoID branch gen counts now db :
  forallb (λ c, 0 <? c) counts = true →
  ∃ db', RecordBranchReconciliationPagesTx repoID branch gen counts now db = Ok db' ∧
    bd_aliases db' = bd_aliases db ∧ bd_repos db' = bd_repos db ∧
    bd_pulls db' = bd_pulls db ∧ bd_stacks db' = bd_stacks db ∧
    bd_pages db' = insert_pages repoID branch gen now 1 counts (bd_pages db) ∧
    ∀ k, rc_generation <$> bd_reconciliations db' !! k
         = rc_generation <$> bd_reconciliations db !! k.
Proof.
  intros Hc. unfold RecordBranchReconciliationPagesTx. rewrite Hc. cbn [negb].
  eexists. split; [done|]. cbn. split_and!; [done..|]. intros k.
  destruct (bd_reconciliations db !! (repoID, branch)) as [rc|] eqn:E; [|done].
  case_if; [|done]. destruct (decide (k = (repoID, branch))) as [->|Hne].
  - by rewrite lookup_insert_eq, E.
  - by rewrite lookup_insert_ne.
Qed.

(** The run of an applied push, statement by statement. *)
Lemma apply_push_run contended h r st :
  valid_push h → branch_wf (ps_db st) → (∀ ks, contended ks = false) →
  repository_of (ps_db st) (bh_Repo (bph_hint h)) = Some r →
  (∀ rc, bd_reconciliations (ps_db st) !! (rp_id r, bh_Branch (bph_hint h)) = Some rc →
     rc_delivery_guid rc ≠ DeliveryGUID h) →
  ∃ gen sup db1 r2 pages db3 t,
    BeginBranchReconciliation h (clock h).1 r (ps_db st) = Some (gen, sup, db1) ∧
    let db2 := (ApplyBranchHintTransition (bph_hint h) (clock h).1 r db1).2 in
    let adv := AdvanceBranchReconciliationTargetGenerations (bh_Repo (bph_hint h))
                 (bh_Branch (bph_hint h)) (clock h).1 r2 db2 (gens (ps_queue st)) in
    rp_id r2 = rp_id r ∧ rp_installation_id r2 = rp_installation_id r ∧
    rp_gh_id r2 = rp_gh_id r ∧
    branchReconciliationPages (bph_hint h) (rp_id r) gen adv.1 pageSize
      = Ok (pages, map (λ a, Z.of_nat (length (bp_Targets a))) pages) ∧
    RecordBranchReconciliationPagesTx (rp_id r) (bh_Branch (bph_hint h)) gen
      (map (λ a, Z.of_nat (length (bp_Targets a))) pages) (clock h).2 db2 = Ok db3 ∧
    (∀ i, live (river (ps_queue st)) i → live t i) ∧
    apply_push contended pageSize clock h st
    = Ok (mkPushState db3 (mkTables adv.2 t) (foldl insert_page_job (ps_page_jobs st) pages)).
Proof.
  intros (Hv1 & Hv2 & Hv3 & Hv4) [Hk Hpb] Hcon Hr Hdup.
  destruct (begin_some h (clock h).1 r (ps_db st) Hdup) as (gen & sup & db1 & Hb).
  destruct (begin_spec _ _ _ _ _ _ _ Hb) as (Hgen & Ha & Hrp & Hpl & Hst & Hrc & Hpg).
  assert (Hr1 : repository_of db1 (bh_Repo (bph_hint h)) = Some r)
    by (unfold repository_of; by rewrite Ha, Hrp).
  assert (Hk1 : repos_keyed db1) by (unfold repos_keyed; by rewrite Hrp).
  destruct (repository_after (bph_hint h) (clock h).1 r db1 _ Hk1 Hr1)
    as (r2 & Hr2 & Hi & Hn & Hg & _).
  set (tr := ApplyBranchHintTransition (bph_hint h) (clock h).1 r db1) in *.
  pose proof (targets_spec (bh_Repo (bph_hint h)) (bh_Branch (bph_hint h)) (clock h).1 r2 tr.2
    (gens (ps_queue st))) as Ht.
  destruct (AdvanceBranchReconciliationTargetGenerations _ _ (clock h).1 r2 tr.2 _)
    as [targets g'] eqn:Eadv. destruct Ht as [Hok _].
  pose proof (pages_spec (bph_hint h) (rp_id r) gen targets pageSize Hsize) as Hpages.
  rewrite Hok in Hpages. destruct Hpages as (pages & Hpages & _ & Hf & _).
  destruct (record_spec (rp_id r) (bh_Branch (bph_hint h)) gen
    (map (λ a, Z.of_nat (length (bp_Targets a))) pages) (clock h).2 tr.2) as (db3 & Hrec & _).
  { apply forallb_forall. intros c Hc. apply in_map_iff in Hc as (a & <- & Hin).
    apply list_elem_of_In in Hin. eapply Forall_forall in Hf; [|done]. lia. }
  set (key := repository_refresh_key (BranchReconciliationGenerationKeys
    (bh_Repo (bph_hint h)) (bh_Branch (bph_hint h)) r2 tr.2)).
  exists gen, sup, db1, r2, pages, db3,
    (if negb (seqb key "") then (river_insert (NewRefreshRepositoryHeadArgs key) "bulk" zero_time
       (river (ps_queue st))).2 else river (ps_queue st)).
  cbn zeta. fold tr. rewrite Eadv. cbn [fst snd]. do 6 (split; [done|]). split.
  { intros i Hl. destruct (negb (seqb key "")); [by apply river_insert_mono|done]. }
  unfold apply_push, ApplyBranchPushTx. rewrite (surjective_pairing (clock h)).
  rewrite (proj2 (seqb_false _ _) Hv1), (proj2 (seqb_false _ _) Hv2), (proj2 (seqb_false _ _) Hv3).
  unfold IsZero. rewrite (proj2 (Z.eqb_neq _ _) Hv4). cbn [orb].
  rewrite Hr, Hb. fold tr. rewrite (surjective_pairing tr), Hr2.
  change (default r (Some r2)) with r2. rewrite Hcon, Eadv. cbn [mbind result_bind].
  cbn [bb_RepoID bb_Generation bb_Targets]. by rewrite Hpages, Hrec.
Qed.

(** The reconciliation a run leaves, and its pages. *)
Lemma run_generations h r db gen sup db1 db3 counts :
  BeginBranchReconciliation h (clock h).1 r db = Some (gen, sup, db1) →
  RecordBranchReconciliationPagesTx (rp_id r) (bh_Branch (bph_hint h)) gen counts (clock h).2
    (ApplyBranchHintTransition (bph_hint h) (clock h).1 r db1).2 = Ok db3 →
  ∀ k, rc_generation <$> bd_reconciliations db3 !! k =
    if decide (k = (rp_id r, bh_Branch (bph_hint h))) then Some gen
    else rc_generation <$> bd_reconciliations db !! k.
Proof.
  intros (_ & _ & _ & _ & _ & (rc & Hrc & Hg & _) & _)%begin_spec Hrec k.
  unfold RecordBranchReconciliationPagesTx in Hrec. case_if_in Hrec; [done|].
  edestruct record_spec as (db' & Hrec' & _ & _ & _ & _ & _ & H); [|].
  2: { unfold RecordBranchReconciliationPagesTx in Hrec'. rewrite E in Hrec'.
       rewrite Hrec in Hrec'. simplify_eq. rewrite H. cbn. rewrite Hrc.
       case_decide as Hk; [by subst; rewrite lookup_insert_eq|by rewrite lookup_insert_ne]. }
  by to_props.
Qed.

Lemma run_pages h r db gen sup db1 db3 counts :
  BeginBranchReconciliation h (clock h).1 r db = Some (gen, sup, db1) →
  RecordBranchReconciliationPagesTx (rp_id r) (bh_Branch (bph_hint h)) gen counts (clock h).2
    (ApplyBranchHintTransition (bph_hint h) (clock h).1 r db1).2 = Ok db3 →
  bd_pages db3 = insert_pages (rp_id r) (bh_Branch (bph_hint h)) gen (clock h).2 1 counts
                   (bd_pages db1).
Proof.
  intros _ H. unfold RecordBranchReconciliationPagesTx in H. case_if_in H; [done|]. by simplify_eq.
Qed.

(** No page of the new generation exists before it. *)
Lemma fresh_pages h r db gen sup db1 n :
  pages_bounded db → BeginBranchReconciliation h (clock h).1 r db = Some (gen, sup, db1) →
  bd_pages db1 !! (rp_id r, bh_Branch (bph_hint h), gen, n) = None.
Proof.
  intros Hb (Hgen & _ & _ & _ & _ & _ & Hpg)%begin_spec. rewrite Hpg.
  destruct (bd_pages db !! _) as [p|] eqn:E; [|done]. apply Hb in E as (rc & Hrc & Hle).
  unfold branch_generation in Hgen. rewrite Hrc in Hgen. cbn in Hgen. lia.
Qed.

Lemma run_wf h r db gen sup db1 db3 counts name :
  branch_wf db → repository_of db name = Some r →
  BeginBranchReconciliation h (clock h).1 r db = Some (gen, sup, db1) →
  RecordBranchReconciliationPagesTx (rp_id r) (bh_Branch (bph_hint h)) gen counts (clock h).2
    (ApplyBranchHintTransition (bph_hint h) (clock h).1 r db1).2 = Ok db3 →
  branch_wf db3.
Proof.
  intros [Hk Hb] (id & _ & Hr & _)%repository_of_inv Hbegin Hrec.
  pose proof (run_generations _ _ _ _ _ _ _ _ Hbegin Hrec) as Hg.
  pose proof (run_pages _ _ _ _ _ _ _ _ Hbegin Hrec) as Hp.
  destruct (begin_spec _ _ _ _ _ _ _ Hbegin) as (Hgen & _ & Hrp & _ & _ & _ & Hpg).
  split.
  - unfold repos_keyed. assert (bd_repos db3 = bd_repos (ApplyBranchHintTransition (bph_hint h) (clock h).1 r db1).2) as ->.
    { unfold RecordBranchReconciliationPagesTx in Hrec. case_if_in Hrec; [done|]. by simplify_eq. }
    intros id' r'. cbn. rewrite Hrp. case_if; [|apply Hk].
    rewrite lookup_insert_Some. intros [[<- <-]|[_ ?]]; [done|by apply Hk].
  - intros r' b g n p Hpage. specialize (Hg (r', b)).
    assert (Hcase : (r', b) = (rp_id r, bh_Branch (bph_hint h)) ∧ g = gen ∨
                    is_Some (bd_pages db !! (r', b, g, n))).
    { destruct (decide ((r', b) = (rp_id r, bh_Branch (bph_hint h)) ∧ g = gen)) as [|Hne]; [by left|].
      right. rewrite Hp, insert_pages_other, Hpg in Hpage by (intros m [= -> -> ->]; naive_solver).
      destruct (bd_pages db !! _); [by eexists|done]. }
    destruct Hcase as [[Heq ->]|[p0 (rc & Hrc & Hle)%Hb]].
    + rewrite Heq, decide_True in Hg by done. rewrite Heq.
      apply fmap_Some in Hg as (rc & -> & ->). eexists. done.
    + rewrite Hrc in Hg. case_decide as Hk'.
      * apply fmap_Some in Hg as (rc' & -> & Hg'). eexists. split; [done|]. rewrite <- Hg'.
        unfold branch_generation in Hgen. rewrite <- Hk', Hrc in Hgen. cbn in Hgen. lia.
      * apply fmap_Some in Hg as (rc' & -> & Hg'). eexists. split; [done|]. cbn in Hg'. lia.
Qed.

(** Advancing targets never leaves a completed generation ahead. *)
Lemma advance_gens_ok fullName branch at_ r db g i :
  completed g i ≤ current_generation g i →
  let g' := (AdvanceBranchReconciliationTargetGenerations fullName branch at_ r db g).2 in
  completed g' i ≤ current_generation g' i.
Proof.
  intros H. cbn. destruct (claims_spec at_ (BranchReconciliationGenerationKeys fullName branch r db) g i)
    as [-> ->]; [apply generation_keys_NoDup|]. case_decide; lia.
Qed.

(** Every target of an applied push is on one of its pages. *)
Lemma run_paged h r r2 db gen sup db1 db3 g pages x :
  pages_bounded db →
  BeginBranchReconciliation h (clock h).1 r db = Some (gen, sup, db1) →
  let db2 := (ApplyBranchHintTransition (bph_hint h) (clock h).1 r db1).2 in
  let adv := AdvanceBranchReconciliationTargetGenerations (bh_Repo (bph_hint h))
               (bh_Branch (bph_hint h)) (clock h).1 r2 db2 g in
  branchReconciliationPages (bph_hint h) (rp_id r) gen adv.1 pageSize
    = Ok (pages, map (λ a, Z.of_nat (length (bp_Targets a))) pages) →
  RecordBranchReconciliationPagesTx (rp_id r) (bh_Branch (bph_hint h)) gen
    (map (λ a, Z.of_nat (length (bp_Targets a))) pages) (clock h).2 db2 = Ok db3 →
  x ∈ page_targets (bh_Repo (bph_hint h)) (bh_Branch (bph_hint h)) r2 db2 →
  ∀ t jobs, paged (mkPushState db3 (mkTables adv.2 t) (foldl insert_page_job jobs pages))
              (rp_id r) (bh_Branch (bph_hint h)) gen x.
Proof.
  intros Hpb Hbegin db2 adv Hpages Hrec Hx t jobs. destruct x as [[kind key] e].
  pose proof (targets_spec (bh_Repo (bph_hint h)) (bh_Branch (bph_hint h)) (clock h).1 r2 db2 g) as Ht.
  fold adv in Ht. destruct adv as [targets g'] eqn:Eadv. cbn [fst snd] in *.
  destruct Ht as [Hok Hin]. destruct (Hin _ _ _ Hx) as (Htg & Hcur & Hcom).
  pose proof (pages_spec (bph_hint h) (rp_id r) gen targets pageSize Hsize) as Hps.
  rewrite Hok in Hps. destruct Hps as (pages' & Hpages' & Hcat & Hf & Hnum).
  rewrite Hpages in Hpages'. simplify_eq. clear Hpages.
  destruct (target_page _ _ Htg) as (j & a & Hj & Hta).
  assert (Ha : a ∈ pages') by by eapply list_elem_of_lookup_2.
  eapply Forall_forall in Hf as (Hf1 & Hf2 & Hf3 & Hf4 & _); [|exact Ha].
  assert (Hpage : bp_Page a = 1 + Z.of_nat j).
  { apply (f_equal (λ l, l !! j)) in Hnum. rewrite !list_lookup_fmap, Hj in Hnum.
    rewrite lookup_seq_lt in Hnum by (by eapply lookup_lt_Some). cbn in Hnum. simplify_eq. lia. }
  exists a, (mkTarget kind key e (current_generation g' (kind, key))),
    (mkPageRow (Z.of_nat (length (bp_Targets a))) PagePending 0 (clock h).2 None).
  cbn [ps_page_jobs ps_queue ps_db gens]. split_and!; try done.
  - apply insert_page_jobs. by right.
  - cbn. congruence.
  - rewrite (run_pages _ _ _ _ _ _ _ _ Hbegin Hrec), Hpage. apply insert_pages_in.
    + intros m _. by eapply fresh_pages.
    + by rewrite list_lookup_fmap, Hj.
Qed.

Lemma apply_push_applied contended h r st :
  valid_push h → branch_wf (ps_db st) → (∀ ks, contended ks = false) →
  repository_of (ps_db st) (bh_Repo (bph_hint h)) = Some r →
  (∀ rc, bd_reconciliations (ps_db st) !! (rp_id r, bh_Branch (bph_hint h)) = Some rc →
     rc_delivery_guid rc ≠ DeliveryGUID h) →
  ∃ st', apply_push contended pageSize clock h st = Ok st' ∧ push_applied h r st st' ∧
    push_frame st st'.
Proof.
  intros Hv Hwf Hcon Hr Hdup.
  destruct (apply_push_run contended h r st Hv Hwf Hcon Hr Hdup)
    as (gen & sup & db1 & r2 & pages & db3 & t & Hb & Hi & Hn & Hg & Hpages & Hrec & Hlive & Hrun).
  eexists. split; [exact Hrun|]. destruct Hwf as [Hk Hpb].
  pose proof (run_generations _ _ _ _ _ _ _ _ Hb Hrec) as Hgens.
  pose proof (run_pages _ _ _ _ _ _ _ _ Hb Hrec) as Hpg.
  destruct (begin_spec _ _ _ _ _ _ _ Hb) as (Hgen & _ & _ & _ & _ & _ & Hsup).
  assert (Hbg : branch_generation db3 (rp_id r) (bh_Branch (bph_hint h)) = gen).
  { unfold branch_generation. by rewrite Hgens, decide_True. }
  split; split; cbn [ps_db ps_queue ps_page_jobs gens river]; rewrite ?Hbg; try done.
  - intros x Hx. eapply run_paged; try done.
    erewrite page_targets_ext; [exact Hx|done..| |];
      unfold RecordBranchReconciliationPagesTx in Hrec; case_if_in Hrec; by simplify_eq.
  - intros g n p Hp. destruct (Hpb _ _ _ _ _ Hp) as (rc & Hrc & Hle).
    assert (g < gen) by (unfold branch_generation in Hgen; rewrite Hrc in Hgen; cbn in Hgen; lia).
    rewrite Hpg, insert_pages_other, Hsup, Hp by (intros m [= ?]; lia). cbn.
    eexists. split; [done|]. unfold supersede_page.
    rewrite Z.eqb_refl, seqb_refl, (proj2 (Z.ltb_lt _ _)) by done. cbn [andb].
    case_bool_decide; case_decide; done.
  - intros r' b n g Hne. rewrite Hpg, insert_pages_other, Hsup by (intros m [= ? ? ?]; naive_solver).
    destruct (bd_pages (ps_db st) !! _); [|done]. cbn. unfold supersede_page.
    case_if; [|done]. to_props. autorewrite with ghsync in *. naive_solver.
  - intros _. by eapply run_wf.
  - intros i. apply advance_gens_ok.
  - intros a Ha. apply insert_page_jobs. by left.
Qed.

(** A push that is not applied changes nothing. *)
Lemma apply_push_skipped contended h st :
  valid_push h →
  (repository_of (ps_db st) (bh_Repo (bph_hint h)) = None ∨
   ∃ r rc, repository_of (ps_db st) (bh_Repo (bph_hint h)) = Some r ∧
     bd_reconciliations (ps_db st) !! (rp_id r, bh_Branch (bph_hint h)) = Some rc ∧
     rc_delivery_guid rc = DeliveryGUID h) →
  apply_push contended pageSize clock h st = Ok st.
Proof.
  intros (Hv1 & Hv2 & Hv3 & Hv4) Hcase. unfold apply_push, ApplyBranchPushTx.
  rewrite (surjective_pairing (clock h)).
  rewrite (proj2 (seqb_false _ _) Hv1), (proj2 (seqb_false _ _) Hv2), (proj2 (seqb_false _ _) Hv3).
  unfold IsZero. rewrite (proj2 (Z.eqb_neq _ _) Hv4). cbn [orb].
  destruct Hcase as [->|(r & rc & -> & Hrc & Hg)].
  - cbn. by destruct st as [? [? ?] ?].
  - unfold BeginBranchReconciliation. rewrite Hrc, Hg, seqb_refl. cbn. by destruct st as [? [? ?] ?].
Qed.

(** Without contention a list of valid pushes always applies. *)
Lemma apply_pushes_total contended hs : ∀ st,
  Forall valid_push hs → branch_wf (ps_db st) → (∀ ks, contended ks = false) →
  ∃ st', apply_pushes contended pageSize clock hs st = Ok st' ∧ push_frame st st'.
Proof.
  induction hs as [|h hs IH]; intros st Hv Hwf Hcon; [by exists st|].
  apply Forall_cons in Hv as [Hh Hv]. cbn [apply_pushes].
  assert (∃ st1, apply_push contended pageSize clock h st = Ok st1 ∧ push_frame st st1)
    as (st1 & Hst1 & Hf1).
  { destruct (repository_of (ps_db st) (bh_Repo (bph_hint h))) as [r|] eqn:Hr.
    - destruct (bd_reconciliations (ps_db st) !! (rp_id r, bh_Branch (bph_hint h))) as [rc|] eqn:Hrc;
        [destruct (decide (rc_delivery_guid rc = DeliveryGUID h))|].
      + exists st. split; [|done]. apply apply_push_skipped; [done|]. right. eauto.
      + destruct (apply_push_applied contended h r st) as (st1 & ? & _ & ?); naive_solver.
      + destruct (apply_push_applied contended h r st) as (st1 & ? & _ & ?); naive_solver.
    - exists st. split; [|done]. apply apply_push_skipped; auto. }
  rewrite Hst1. destruct (IH st1 Hv (pf_wf _ _ Hf1 Hwf) Hcon) as (st' & Hst' & Hf').
  exists st'. split; [done|]. by eapply push_frame_trans.
Qed.
End push_lemmas.

(** ** Theorems *)

(** A row the transition may change: a live row of the repository, when the push
    proves the SHAs it moves between. *)
Definition eligible (h : branchPushHint) (r : repo_row) (repoID : Z) (tombstone : option time)
    : bool :=
  bh_TransitionKnown h && (repoID =? rp_id r) && bool_decide (tombstone = None).

(** The SHA a ref has after the push. *)
Definition moved (h : branchPushHint) (ok : bool) (ref sha : string) : string :=
  if ok && seqb ref (bh_Branch h) && seqb sha (bh_BeforeSHA h) then bh_AfterSHA h else sha.

Lemma moved_advance h ref sha :
  moved h true ref sha = advance (bh_Branch h) (bh_BeforeSHA h) (bh_AfterSHA h) ref sha.
Proof. done. Qed.

Lemma moved_stays h ok ref sha :
  ok && moves (bh_Branch h) (bh_BeforeSHA h) (bh_AfterSHA h) ref sha = false →
  moved h ok ref sha = sha.
Proof.
  unfold moved, moves, at_before. intros H. case_if; [|done]. to_props.
  autorewrite with ghsync in *. subst.
  apply andb_false_iff in H as [?|H]; [congruence|].
  apply andb_false_iff in H as [H|H].
  - by rewrite !seqb_refl in H.
  - to_props. by apply seqb_true in H.
Qed.

Lemma advance_same h ref sha :
  sha = advance (bh_Branch h) (bh_BeforeSHA h) (bh_AfterSHA h) ref sha →
  moves (bh_Branch h) (bh_BeforeSHA h) (bh_AfterSHA h) ref sha = false.
Proof.
  unfold advance, moves. destruct (at_before _ _ _ _); [|done]. intros <-. by rewrite seqb_refl.
Qed.

(** The pull-request rows after the transition. *)
Lemma pull_moved h r p :
  let up := updates_pull (bh_Branch h) (bh_BeforeSHA h) (bh_AfterSHA h) (bh_TransitionKnown h) (rp_id r) p in
  let p' := if up then updated_pull (bh_Branch h) (bh_BeforeSHA h) (bh_AfterSHA h) p else p in
  let ok := eligible h r (pr_repo_id p) (pr_tombstoned_at p) && seqb (pr_state p) "open" in
  pr_number p' = pr_number p ∧ pr_head_ref p' = pr_head_ref p ∧ pr_base_ref p' = pr_base_ref p ∧
  pr_head_sha p' = moved h ok (pr_head_ref p) (pr_head_sha p) ∧
  pr_base_sha p' = moved h ok (pr_base_ref p) (pr_base_sha p).
Proof.
  cbn zeta. set (ok := eligible _ _ _ _ && _).
  assert (Hup : updates_pull (bh_Branch h) (bh_BeforeSHA h) (bh_AfterSHA h) (bh_TransitionKnown h) (rp_id r) p
    = ok && (moves (bh_Branch h) (bh_BeforeSHA h) (bh_AfterSHA h) (pr_head_ref p) (pr_head_sha p)
             || moves (bh_Branch h) (bh_BeforeSHA h) (bh_AfterSHA h) (pr_base_ref p) (pr_base_sha p))).
  { unfold updates_pull, ok, eligible. destruct (bh_TransitionKnown h), (_ =? _), (bool_decide _), (seqb _ _); done. }
  rewrite Hup. destruct (ok && _) eqn:E.
  - apply andb_true_iff in E as [-> _]. split_and!; done.
  - split_and!; try done; symmetry; apply moved_stays; destruct ok; [|done| |done];
      cbn [andb] in *; by apply orb_false_iff in E as [? ?].
Qed.

(** The stack rows after the transition. *)
Lemma stack_moved h r s :
  let up := updates_stack (bh_Branch h) (bh_BeforeSHA h) (bh_AfterSHA h) (bh_TransitionKnown h) (rp_id r) s in
  let s' := if up then updated_stack (bh_Branch h) (bh_BeforeSHA h) (bh_AfterSHA h) s else s in
  let ok := eligible h r (sk_repo_id s) (sk_tombstoned_at s) in
  sk_number s' = sk_number s ∧ sk_base_ref s' = sk_base_ref s ∧
  sk_base_sha s' = moved h ok (sk_base_ref s) (sk_base_sha s) ∧
  sk_entries s' = map (λ e, mkEntry (en_number e) (en_head_ref e)
                              (moved h ok (en_head_ref e) (en_head_sha e))) (sk_entries s).
Proof.
  cbn zeta. set (ok := eligible _ _ _ _). unfold updates_stack.
  assert (Hc : stack_candidate (bh_Branch h) (bh_BeforeSHA h) (bh_TransitionKnown h) (rp_id r) s
    = ok && (at_before (bh_Branch h) (bh_BeforeSHA h) (sk_base_ref s) (sk_base_sha s)
        || existsb (λ e, at_before (bh_Branch h) (bh_BeforeSHA h) (en_head_ref e) (en_head_sha e))
             (sk_entries s))).
  { unfold stack_candidate, ok, eligible. destruct (bh_TransitionKnown h), (_ =? _), (bool_decide _); done. }
  rewrite Hc.
  assert (Hid : ∀ f : string → string → string, (∀ e, e ∈ sk_entries s → f (en_head_ref e) (en_head_sha e) = en_head_sha e) →
    sk_entries s = map (λ e, mkEntry (en_number e) (en_head_ref e) (f (en_head_ref e) (en_head_sha e))) (sk_entries s)).
  { intros f Hf. rewrite <- (map_id (sk_entries s)) at 1. apply map_ext_in. intros e He.
    apply list_elem_of_In in He. rewrite Hf by done. by destruct e. }
  destruct ok; cbn [andb]; [|split_and!; try done; by apply (Hid (moved h false))].
  destruct (_ || _) eqn:E; cbn [andb]; last first.
  - apply orb_false_iff in E as [E1 E2]. split_and!; try done.
    + rewrite moved_advance. unfold advance. by rewrite E1.
    + apply (Hid (moved h true)). intros e He. rewrite moved_advance. unfold advance.
      destruct (at_before _ _ (en_head_ref e) _) eqn:Ee; [|done].
      assert (existsb (λ e, at_before (bh_Branch h) (bh_BeforeSHA h) (en_head_ref e) (en_head_sha e))
        (sk_entries s) = true) by (apply existsb_exists; exists e; by rewrite <- list_elem_of_In).
      congruence.
  - case_bool_decide as Heq; cbn [negb]; [|done]. destruct Heq as [Hb He].
    split_and!; [done|done|exact Hb|exact He].
Qed.


(** C8. A push leaves no affected entity behind. When its repository is cached
    and its delivery is new, the push applies: the branch moves to the next
    generation, every open pull request and every stack on the branch gets a
    pointer on a recorded, pending page of that generation, at a generation the
    push claimed for the entity so that no direct refresh is left outstanding
    under it; every pending page of an older generation of the branch is
    superseded, other branches keep their pages, and no live pointer is lost. *)
Theorem branch_push_covered `{R : River} `{!RiverLaws R} pageSize clock contended h r st :
  0 < pageSize → valid_push h → branch_wf (ps_db st) → (∀ ks, contended ks = false) →
  repository_of (ps_db st) (bh_Repo (bph_hint h)) = Some r →
  (∀ rc, bd_reconciliations (ps_db st) !! (rp_id r, bh_Branch (bph_hint h)) = Some rc →
     rc_delivery_guid rc ≠ DeliveryGUID h) →
  ∃ st', apply_push contended pageSize clock h st = Ok st' ∧
    let repo := bh_Repo (bph_hint h) in
    let branch := bh_Branch (bph_hint h) in
    let gen := branch_generation (ps_db st) (rp_id r) branch + 1 in
    branch_generation (ps_db st') (rp_id r) branch = gen ∧
    (∀ p, p ∈ bd_pulls (ps_db st') → targets_pull (rp_id r) branch p = true →
       paged st' (rp_id r) branch gen (pull_target repo r p)) ∧
    (∀ s, s ∈ bd_stacks (ps_db st') → targets_stack (rp_id r) branch s = true →
       paged st' (rp_id r) branch gen (stack_target repo r s)) ∧
    (∀ g n p, bd_pages (ps_db st) !! (rp_id r, branch, g, n) = Some p →
       pg_status p = PagePending →
       ∃ p', bd_pages (ps_db st') !! (rp_id r, branch, g, n) = Some p' ∧
         pg_status p' = PageSuperseded) ∧
    (∀ r' b n g, (r', b) ≠ (rp_id r, branch) →
       bd_pages (ps_db st') !! (r', b, g, n) = bd_pages (ps_db st) !! (r', b, g, n)) ∧
    (∀ i, live (river (ps_queue st)) i → live (river (ps_queue st')) i).
Proof.
  intros Hs Hv Hwf Hcon Hr Hdup.
  destruct (apply_push_applied pageSize clock Hs contended h r st Hv Hwf Hcon Hr Hdup)
    as (st' & Hrun & [Hgen Hpaged Hsup Hoth] & Hframe).
  exists st'. split; [done|]. cbn zeta. rewrite Hgen in Hpaged. split_and!; [done| | | |done|].
  - intros p Hp Ht. apply Hpaged. unfold page_targets. rewrite elem_of_remove_dups, elem_of_app.
    left. apply list_elem_of_fmap. exists p. split; [done|]. by apply filter_elem.
  - intros s Hin Ht. apply Hpaged. unfold page_targets. rewrite elem_of_remove_dups, elem_of_app.
    right. apply list_elem_of_fmap. exists s. split; [done|]. by apply filter_elem.
  - intros g n p Hp Hpend. destruct (Hsup g n p Hp) as (p' & Hp' & Hst).
    exists p'. split; [done|]. by rewrite Hst, decide_True.
  - intros i. apply (pf_live _ _ Hframe).
Qed.

(** ** Witnesses *)

#[local] Existing Instances RefRiver.RefRiver RefRiver.RefRiver_laws.

Definition sample_repo : repo_row :=
  mkRepo 4 1 2 90 "R_1" "acme" "monolith" "acme/monolith" "main" false None "aaa" 3 3 "etag"
    "webhook" None.

Definition sample_pull : pull_row :=
  mkPull 4 7 "open" "feature" "f00" "main" "aaa" None "APPROVED" "clean" "etag" None.

Definition sample_stack : stack_row :=
  mkStack 4 2 "main" "aaa" "f00" [mkEntry 7 "feature" "f00"] "etag" None.

Definition sample_db : branch_db :=
  mkBranchDb {["acme/monolith" := 4]} {[4 := sample_repo]} [sample_pull] [sample_stack] ∅ ∅ ∅ [].

Definition sample_hint : branchPushHint :=
  mkBranchHint "acme/monolith" "main" "aaa" "bbb" true false false.

Definition sample_push_state : push_state := mkPushState sample_db RefRiver.empty [].


Lemma sample_db_wf : branch_wf sample_db.
Proof.
  split.
  - intros id r. cbn. rewrite lookup_singleton_Some. by intros [<- <-].
  - intros r b g n p. cbn. by rewrite lookup_empty.
Qed.

Lemma branch_push_covered_witness :
  ∃ st', apply_push (λ _, false) 25 (λ _, (10, 11)) (mkPush sample_hint "guid-1" 9) sample_push_state
    = Ok st' ∧ branch_generation (ps_db st') 4 "main" = 1 ∧
    paged st' 4 "main" 1 (stack_target "acme/monolith" sample_repo
      (updated_stack "main" "aaa" "bbb" sample_stack)).
Proof.
  destruct (branch_push_covered 25 (λ _, (10, 11)) (λ _, false) (mkPush sample_hint "guid-1" 9)
    sample_repo sample_push_state) as (st' & Hrun & Hgen & _ & Hs & _).
  - lia.
  - unfold valid_push; cbn; split_and!; (discriminate || lia).
  - apply sample_db_wf.
  - done.
  - vm_compute. reflexivity.
  - cbn. intros rc. rewrite lookup_empty. discriminate.
  - exists st'. split; [exact Hrun|]. split; [exact Hgen|].
    apply Hs; [|vm_compute; reflexivity].
    vm_compute in Hrun. injection Hrun as <-. vm_compute. left.
Defined.
