(* ===== verification/Deliveries.v ===== *)
(** * Webhook deliveries

    The ledger of webhook deliveries from the HTTP request to the refresh queue:
    the ingress handler ([internal/ingress/handler.go], [internal/gh/sign.go],
    [internal/gh/webhook.go]), the [webhook_deliveries] statements
    ([internal/store/dbgen/webhook_deliveries.sql.go] and the payload pruner of
    [sweep.sql.go]), and one dispatch attempt ([dispatchBatchAttempt] of
    [internal/dispatch/dispatcher.go]): claim, classify, apply the branch pushes
    (file [Branch]), enqueue, finish.

    What the sources take from Go's standard library (HMAC, media types, form and
    JSON syntax) is a field of [library]; the stacks that the cache holds are the
    lookup [stacks]. Rows are keyed by delivery GUID. *)

From Stdlib Require Import ZArith Lia Bool Ascii String.
From stdpp Require Import strings numbers sorting sets gmap base list.
From S2P Require Import Prelude GoStrings Keys RefreshQueue Classify Branch.

Local Open Scope Z_scope.

(** ** The ledger *)

Inductive delivery_status : Type := Pending | Processing | Processed | Parked.

#[export] Instance delivery_status_eq_dec : EqDecision delivery_status.
Proof. solve_decision. Defined.

Record delivery : Type := mkDelivery {
  d_event : string;
  raw_body : option string;
  d_headers : string;
  received_at : time;
  d_status : delivery_status;
  attempts : Z;
  last_error : option string;
  payload_pruned_at : option time;
  next_attempt_at : time;
  traceparent : option string;
  tracestate : option string
}.

Abbreviation ledger := (gmap string delivery).

(** [NULLIF(s, '')]. *)
Definition nullif (s : string) : option string := if seqb s "" then None else Some s.

Definition InsertWebhookDelivery (now : time)
    (guid event body headers traceparent tracestate : string) (l : ledger) : Z * ledger :=
  match l !! guid with
  | Some _ => (0, l)
  | None =>
      (1, <[guid := mkDelivery event (Some body) headers now Pending 0 None None now
                      (nullif traceparent) (nullif tracestate)]> l)
  end.

(** ** Ingress *)

(** What the handler takes from the standard library. *)
Record library : Type := mkLibrary {
  (** [hex(hmac-sha256(secret, body))]. *)
  hmac_hex : string → string → string;
  (** [mime.ParseMediaType], without the parameters. *)
  ParseMediaType : string → option string;
  (** The [payload] values of [url.ParseQuery]. *)
  payload_values : string → option (list string);
  json_Valid : string → bool;
  (** [json.Unmarshal] into a [payloadEnvelope]. *)
  json_Unmarshal : string → option payloadEnvelope;
  (** The [Content-Type] of a stored request envelope; [None] when it is not JSON. *)
  stored_content_type : string → option string
}.

Definition signaturePrefix : string := "sha256=".

Definition SignBody (lib : library) (secret body : string) : string :=
  signaturePrefix +:+ hmac_hex lib secret body.

Definition VerifySignature (lib : library) (secret body header : string) : bool :=
  seqb (SignBody lib secret body) header.

Definition WebhookJSONContentType : string := "application/json".
Definition WebhookFormContentType : string := "application/x-www-form-urlencoded".

Inductive webhook_error : Type :=
  | UnsupportedContentType
  | InvalidPayload.

(** The first byte of a trimmed payload. *)
Definition starts_object (s : string) : bool :=
  match s with String c _ => bool_decide (c = "{"%char) | EmptyString => false end.

Definition DecodeWebhookPayload (lib : library) (contentType body : string)
    : result webhook_error string :=
  match ParseMediaType lib contentType with
  | None => Err UnsupportedContentType
  | Some mediaType =>
      payload ←
        (if seqb mediaType WebhookJSONContentType then Ok body
         else if seqb mediaType WebhookFormContentType then
           match payload_values lib body with
           | Some [payload] => Ok payload
           | _ => Err InvalidPayload
           end
         else Err UnsupportedContentType);
      let trimmed := TrimSpace payload in
      if negb (starts_object trimmed) || negb (json_Valid lib trimmed)
      then Err InvalidPayload else Ok payload
  end.

(** A request: the bytes that arrived, whether the connection broke after them,
    the headers the handler reads, and the stored envelope ([None] when it cannot
    be encoded). *)
Record request : Type := mkRequest {
  rq_received : string;
  rq_broken : bool;
  rq_signature : string;
  rq_delivery : string;
  rq_event : string;
  rq_content_type : string;
  rq_envelope : option string;
  rq_traceparent : string;
  rq_tracestate : string
}.

(** [ServeHTTP]: the status code and the ledger. [stored] is whether the insert
    reached the database. *)
Definition ServeHTTP (lib : library) (secret : string) (maxBodyBytes : Z) (now : time)
    (stored : bool) (r : request) (l : ledger) : Z * ledger :=
  let body := rq_received r in
  if maxBodyBytes <? Z.of_nat (String.length body) then (413, l)
  else if rq_broken r then (400, l)
  else if negb (VerifySignature lib secret body (rq_signature r)) then (401, l)
  else if seqb (rq_delivery r) "" || seqb (rq_event r) "" then (400, l)
  else match DecodeWebhookPayload lib (rq_content_type r) body with
  | Err UnsupportedContentType => (415, l)
  | Err InvalidPayload => (400, l)
  | Ok _ =>
      match rq_envelope r with
      | None => (500, l)
      | Some headers =>
          if stored then
            (200, (InsertWebhookDelivery now (rq_delivery r) (rq_event r) body headers
                     (rq_traceparent r) (rq_tracestate r) l).2)
          else (500, l)
      end
  end.

(** ** Claiming *)

(** [ORDER BY next_attempt_at, received_at, delivery_guid]. *)
Definition claim_le (a b : string * delivery) : Prop :=
  next_attempt_at a.2 < next_attempt_at b.2 ∨
  next_attempt_at a.2 = next_attempt_at b.2 ∧
    (received_at a.2 < received_at b.2 ∨
     received_at a.2 = received_at b.2 ∧ string_le a.1 b.1).

#[export] Instance claim_le_dec : RelDecision claim_le.
Proof. intros a b. unfold claim_le. apply _. Defined.

Definition claimable (now : time) (d : delivery) : bool :=
  bool_decide (d_status d = Pending) && (next_attempt_at d <=? now).

(** The rows a batch claims; [locked] are those another dispatcher holds. *)
Definition claim_candidates (now : time) (locked : gset string) (batchSize : Z) (l : ledger)
    : list (string * delivery) :=
  take (Z.to_nat batchSize)
    (merge_sort claim_le
       (List.filter (λ p, claimable now p.2 && negb (bool_decide (p.1 ∈ locked)))
          (map_to_list l))).

Definition claimed_row (d : delivery) : delivery :=
  mkDelivery (d_event d) (raw_body d) (d_headers d) (received_at d) Processing
    (attempts d + 1) None (payload_pruned_at d) (next_attempt_at d)
    (traceparent d) (tracestate d).

(** [ClaimWebhookDeliveries]: the claimed rows and the ledger. *)
Definition ClaimWebhookDeliveries (now : time) (locked : gset string) (batchSize : Z)
    (l : ledger) : list (string * delivery) * ledger :=
  let claimed := map (λ p, (p.1, claimed_row p.2)) (claim_candidates now locked batchSize l) in
  (claimed, foldr (λ p l, <[p.1 := p.2]> l) l claimed).

(** ** Classifying a batch *)

Record delivery_result : Type := mkResult {
  dr_guid : string;
  dr_status : delivery_status;
  dr_error : string;
  retry_delay_seconds : option Z
}.

#[export] Instance Intent_countable : Countable Intent.
Proof.
  apply (inj_countable' (λ i, (in_Kind i, in_Key i, Priority i))
    (λ p, mkIntent p.1.1 p.1.2 p.2)). by intros [].
Defined.

Record batch : Type := mkBatch {
  ba_results : list delivery_result;
  ba_intents : list Intent;
  intentReceivedAt : gmap Intent time;
  branchPushes : list BranchPushHint
}.

Definition empty_batch : batch := mkBatch [] [] ∅ [].

Section dispatch.
Context (lib : library) (rules : list Rule) (stacks : string → Z → option cached_stack).
(** The text of a classification error. *)
Context (describe : classify_error → string).
Context (MaxAttempts batchSize : Z) (Debounce : duration).
(** The branch phase: lock contention, page size and database clock. *)
Context (contended : list identity → bool) (pageSize : Z).
Context (clock : BranchPushHint → time * time).

(** [classifyContent]'s decoder: [DecodeWebhookPayload], then [json.Unmarshal]. *)
Definition decode (contentType body : string) : option payloadEnvelope :=
  match DecodeWebhookPayload lib contentType body with
  | Ok payload => json_Unmarshal lib payload
  | Err _ => None
  end.

Definition storedWebhookContentType (headers : string) : option string :=
  if seqb (TrimSpace headers) "" then Some WebhookJSONContentType
  else match stored_content_type lib headers with
  | None => None
  | Some contentType =>
      if seqb contentType "" then Some WebhookJSONContentType else Some contentType
  end.

Definition classifyStored (d : delivery) : result classify_error classification :=
  match storedWebhookContentType (d_headers d) with
  | None => Err DecodeFailed
  | Some contentType =>
      classifyContent decode rules (d_event d) contentType (default "" (raw_body d))
  end.

Definition note_received (receivedAt : time) (m : gmap Intent time) (i : Intent)
    : gmap Intent time :=
  match m !! i with
  | Some prior => if Before receivedAt prior then <[i := receivedAt]> m else m
  | None => <[i := receivedAt]> m
  end.

(** What becomes of one claimed delivery. *)
Definition finish_delivery (guid : string) (d : delivery) : delivery_result :=
  match classifyStored d with
  | Err e =>
      if MaxAttempts <=? attempts d then mkResult guid Parked (describe e) None
      else mkResult guid Pending (describe e)
             (Some (classificationRetryBackoff (attempts d) / Second))
  | Ok _ => mkResult guid Processed "" None
  end.

(** The body of the batch loop. *)
Definition classify_delivery (b : batch) (p : string * delivery) : batch :=
  let '(guid, d) := p in
  let results := ba_results b ++ [finish_delivery guid d] in
  match classifyStored d with
  | Err _ => mkBatch results (ba_intents b) (intentReceivedAt b) (branchPushes b)
  | Ok c =>
      let classified := delivery_intents stacks c in
      mkBatch results (ba_intents b ++ classified)
        (foldl (note_received (received_at d)) (intentReceivedAt b) classified)
        (branchPushes b ++
         match branchHint c with Some h => [mkPush h guid (received_at d)] | None => [] end)
  end.

Definition classify_batch (claimed : list (string * delivery)) : batch :=
  foldl classify_delivery empty_batch claimed.

(** ** Finishing a batch *)

Definition finished_row (now : time) (r : delivery_result) (d : delivery) : delivery :=
  mkDelivery (d_event d) (raw_body d) (d_headers d) (received_at d) (dr_status r)
    (attempts d) (nullif (dr_error r)) (payload_pruned_at d)
    (match retry_delay_seconds r with
     | None => next_attempt_at d
     | Some s => now + s * Second
     end) (traceparent d) (tracestate d).

(** [SetWebhookDeliveryResults]: the rows updated and the ledger. *)
Fixpoint SetWebhookDeliveryResults (now : time) (results : list delivery_result) (l : ledger)
    : Z * ledger :=
  match results with
  | [] => (0, l)
  | r :: results =>
      let '(n, l) := SetWebhookDeliveryResults now results l in
      match l !! dr_guid r with
      | Some d =>
          if bool_decide (d_status d = Processing)
          then (n + 1, <[dr_guid r := finished_row now r d]> l) else (n, l)
      | None => (n, l)
      end
  end.

(** ** Enqueueing *)

Context `{R : River}.

(** [intentGenerationPointers]: no deadline; the earliest delivery of the intent. *)
Definition intentGenerationPointers (receivedAt : gmap Intent time) (l : list Intent)
    : list RefreshSpec :=
  map (λ i, mkSpec (in_Kind i) (in_Key i) zero_time zero_time
              (default zero_time (receivedAt !! i))) l.

(** [appNow] is the process clock, [now] the database's. *)
Definition enqueue_intents (now appNow : time) (b : batch) (q : tables) : result dispatch_error tables :=
  match ba_intents b with
  | [] => Ok q
  | _ =>
      let deduped := dedupeIntents (ba_intents b) in
      if contended (map (λ i, (in_Kind i, in_Key i)) deduped) then Err RefreshGenerationContention
      else
      let gens1 := BumpRefreshIntentGenerations now (gens q)
                     (intentGenerationPointers (intentReceivedAt b) deduped) in
      params ← insertParams appNow Debounce deduped;
      Ok (mkTables gens1 (insert_many PriorityEvent params (river q)).2)
  end.

Record dispatch_state : Type := mkDispatch {
  deliveries : ledger;
  shared : push_state
}.

Definition queue (st : dispatch_state) : tables := ps_queue (shared st).

(** One attempt: the number of deliveries finished and the committed state;
    [None] rolls back. *)
Definition dispatchBatchAttempt (now appNow : time) (locked : gset string) (st : dispatch_state)
    : option (Z * dispatch_state) :=
  let '(claimed, l1) := ClaimWebhookDeliveries now locked batchSize (deliveries st) in
  match claimed with
  | [] => Some (0, st)
  | _ =>
      let b := classify_batch claimed in
      match apply_pushes contended pageSize clock (branchPushes b) (shared st) with
      | Err _ => None
      | Ok mid =>
          match enqueue_intents now appNow b (ps_queue mid) with
          | Err _ => None
          | Ok q =>
              let '(updated, l2) := SetWebhookDeliveryResults now (ba_results b) l1 in
              if negb (updated =? Z.of_nat (length claimed)) then None
              else Some (Z.of_nat (length claimed),
                         mkDispatch l2 (mkPushState (ps_db mid) q (ps_page_jobs mid)))
          end
      end
  end.
End dispatch.

(** ** Operator and retention statements *)

(** SQL [LIKE] with [%], [_] and backslash escapes, bytewise. *)
Fixpoint like_chars (p : list ascii) (s : list ascii) : bool :=
  match p with
  | [] => match s with [] => true | _ => false end
  | c :: p =>
      if bool_decide (c = "%"%char) then
        (fix any (s : list ascii) : bool :=
           like_chars p s || match s with [] => false | _ :: s => any s end) s
      else if bool_decide (c = "_"%char) then
        match s with [] => false | _ :: s => like_chars p s end
      else if bool_decide (c = "092"%char) then
        match p, s with
        | e :: p, x :: s => bool_decide (e = x) && like_chars p s
        | _, _ => false
        end
      else match s with [] => false | x :: s => bool_decide (c = x) && like_chars p s end
  end.

Definition like (text pattern : string) : bool :=
  like_chars (list_ascii_of_string pattern) (list_ascii_of_string text).

(** [ORDER BY received_at, delivery_guid]. *)
Definition received_le (a b : string * delivery) : Prop :=
  received_at a.2 < received_at b.2 ∨
  received_at a.2 = received_at b.2 ∧ string_le a.1 b.1.

#[export] Instance received_le_dec : RelDecision received_le.
Proof. intros a b. unfold received_le. apply _. Defined.

Definition requeue_selected (guids : list string) (event errorContains : string)
    (guid : string) (d : delivery) : bool :=
  bool_decide (d_status d = Parked) &&
  match guids with
  | [] => seqb (d_event d) event
          && like (default "" (last_error d)) ("%" +:+ errorContains +:+ "%")
  | _ => bool_decide (guid ∈ guids)
  end.

(** [RequeueParkedWebhookDeliveries]; [note] is the text both branches write to
    [last_error] from the row and whether the requeue was refused. *)
Definition requeued_row (now : time) (note : bool → delivery → string) (d : delivery) : delivery :=
  if bool_decide (is_Some (payload_pruned_at d)) || bool_decide (raw_body d = None)
  then mkDelivery (d_event d) (raw_body d) (d_headers d) (received_at d) (d_status d)
         (attempts d) (Some (note true d)) (payload_pruned_at d) (next_attempt_at d)
         (traceparent d) (tracestate d)
  else mkDelivery (d_event d) (raw_body d) (d_headers d) (received_at d) Pending
         0 (Some (note false d)) (payload_pruned_at d) now
         (traceparent d) (tracestate d).

Definition RequeueParkedWebhookDeliveries (now : time) (note : bool → delivery → string)
    (guids : list string) (event errorContains : string) (locked : gset string) (l : ledger)
    : ledger :=
  foldr (λ p l, <[p.1 := requeued_row now note p.2]> l) l
    (take 100 (merge_sort received_le
       (List.filter (λ p, requeue_selected guids event errorContains p.1 p.2
                          && negb (bool_decide (p.1 ∈ locked))) (map_to_list l)))).

Definition pruned_row (prunedAt : time) (d : delivery) : delivery :=
  mkDelivery (d_event d) None "{}" (received_at d) (d_status d) (attempts d) (last_error d)
    (Some prunedAt) (next_attempt_at d) None None.

Definition PruneWebhookDeliveryPayloadBatch (prunedAt cutoff : time) (batchSize : Z)
    (locked : gset string) (l : ledger) : ledger :=
  foldr (λ p l, <[p.1 := pruned_row prunedAt p.2]> l) l
    (take (Z.to_nat batchSize) (merge_sort received_le
       (List.filter (λ p, (received_at p.2 <? cutoff)
                          && bool_decide (is_Some (raw_body p.2))
                          && bool_decide (d_status p.2 = Processed)
                          && negb (bool_decide (p.1 ∈ locked))) (map_to_list l)))).

(** ** Lemmas *)

Lemma NoDup_fst_filter {A B} (f : A * B → bool) (l : list (A * B)) :
  NoDup (l.*1) → NoDup ((List.filter f l).*1).
Proof.
  induction l as [|p l IH]; [done|]. cbn. intros [Hn Hnd]%NoDup_cons.
  case_if; cbn; [|by apply IH]. constructor; [|by apply IH].
  rewrite !list_elem_of_fmap in *. intros (q & Hq & [Hin _]%filter_elem). eauto.
Qed.

Section selection.
Context (Rel : relation (string * delivery)) `{!RelDecision Rel}.

(** A statement that selects rows by a predicate, an order and a limit. *)
Definition select (f : string * delivery → bool) (n : nat) (l : ledger) : list (string * delivery) :=
  take n (merge_sort Rel (List.filter f (map_to_list l))).

Lemma select_elem f n l g d : (g, d) ∈ select f n l → l !! g = Some d ∧ f (g, d) = true.
Proof.
  intros (i & H%list_elem_of_lookup_2 & _)%elem_of_take. rewrite merge_sort_Permutation in H.
  apply filter_elem in H as [H ?]. by apply elem_of_map_to_list in H.
Qed.

Lemma select_NoDup f n l : NoDup ((select f n l).*1).
Proof.
  unfold select. rewrite fmap_take. eapply sublist_NoDup; [|apply sublist_take].
  rewrite merge_sort_Permutation. apply NoDup_fst_filter, NoDup_fst_map_to_list.
Qed.
End selection.

(** Updating the rows of a selection. *)
Lemma fold_update_in (f : string * delivery → delivery) ps (l : ledger) g d :
  NoDup (ps.*1) → (g, d) ∈ ps →
  foldr (λ p l, <[p.1 := f p]> l) l ps !! g = Some (f (g, d)).
Proof.
  induction ps as [|p ps IH]; [by intros _ ?%elem_of_nil|]. csimpl.
  intros [Hn Hnd]%NoDup_cons [<- |Hin]%elem_of_cons; [apply lookup_insert_eq|].
  rewrite lookup_insert_ne; [by apply IH|]. intros Heq. apply Hn, list_elem_of_fmap. by exists (g, d).
Qed.

Lemma fold_update_notin (f : string * delivery → delivery) ps (l : ledger) g :
  g ∉ ps.*1 → foldr (λ p l, <[p.1 := f p]> l) l ps !! g = l !! g.
Proof.
  induction ps as [|p ps IH]; [done|]. csimpl. intros [? ?]%not_elem_of_cons.
  rewrite lookup_insert_ne by done. by apply IH.
Qed.

(** Every row of a fold of updates is the old row or an updated one. *)
Lemma fold_update_row (f : string * delivery → delivery) ps (l : ledger) g d' :
  NoDup (ps.*1) → foldr (λ p l, <[p.1 := f p]> l) l ps !! g = Some d' →
  l !! g = Some d' ∨ ∃ d, (g, d) ∈ ps ∧ d' = f (g, d).
Proof.
  intros Hnd H. destruct (decide (g ∈ ps.*1)) as [Hin|Hn].
  - apply list_elem_of_fmap in Hin as ([g' d] & -> & Hin).
    erewrite fold_update_in in H by done. simplify_eq. eauto.
  - rewrite fold_update_notin in H by done. by left.
Qed.

Lemma claim_candidates_select now locked n l :
  claim_candidates now locked n l =
  select claim_le (λ p, claimable now p.2 && negb (bool_decide (p.1 ∈ locked))) (Z.to_nat n) l.
Proof. done. Qed.

Lemma claimed_fst (ps : list (string * delivery)) :
  (map (λ p, (p.1, claimed_row p.2)) ps).*1 = ps.*1.
Proof. by induction ps as [|p ps IH]; cbn; [|f_equal]. Qed.

(** What a claim does to the ledger. *)
Lemma claim_spec now locked n l :
  let '(claimed, l1) := ClaimWebhookDeliveries now locked n l in
  let cands := claim_candidates now locked n l in
  claimed = map (λ p, (p.1, claimed_row p.2)) cands ∧ NoDup (claimed.*1) ∧
  (∀ g d, (g, d) ∈ claimed → l1 !! g = Some d ∧ d_status d = Processing) ∧
  (∀ g, g ∉ claimed.*1 → l1 !! g = l !! g).
Proof.
  unfold ClaimWebhookDeliveries. cbn. split; [done|].
  set (claimed := map _ _).
  assert (Hnd : NoDup (claimed.*1)) by (unfold claimed; rewrite claimed_fst; apply select_NoDup).
  split; [done|]. split.
  - intros g d Hin. split; [by apply (fold_update_in (λ p, p.2))|].
    apply list_elem_of_fmap in Hin as ([g' d'] & [= -> ->] & _). done.
  - intros g Hg. by apply (fold_update_notin (λ p, p.2)).
Qed.

(** Finishing a batch of distinct rows that are all being processed updates each
    of them and no other. *)
Lemma set_results_spec now results l :
  NoDup (map dr_guid results) →
  (∀ r, r ∈ results → ∃ d, l !! dr_guid r = Some d ∧ d_status d = Processing) →
  ∃ l', SetWebhookDeliveryResults now results l = (Z.of_nat (length results), l') ∧
    (∀ r d, r ∈ results → l !! dr_guid r = Some d →
       l' !! dr_guid r = Some (finished_row now r d)) ∧
    (∀ g, g ∉ map dr_guid results → l' !! g = l !! g).
Proof.
  induction results as [|r results IH]; intros Hnd Hp.
  { exists l. split_and!; [done|by intros ?? ?%elem_of_nil|done]. }
  cbn in Hnd. apply NoDup_cons in Hnd as [Hn Hnd].
  destruct IH as (l' & Heq & Hin & Hout); [done|by intros; apply Hp; right|].
  destruct (Hp r) as (d & Hd & Hs); [by left|].
  cbn [SetWebhookDeliveryResults]. rewrite Heq, (Hout _ Hn), Hd, bool_decide_true by done.
  eexists. split; [f_equal; cbn [length]; lia|]. split.
  - intros r' d' [-> |Hr']%elem_of_cons Hd'; [rewrite lookup_insert_eq; congruence|].
    rewrite lookup_insert_ne; [by apply Hin|]. intros He. apply Hn. rewrite He.
    apply list_elem_of_fmap. eauto.
  - intros g [? ?]%not_elem_of_cons. rewrite lookup_insert_ne by done. by apply Hout.
Qed.

(** Hints only remove intents. *)
Lemma delivery_intents_sub stacks c i : i ∈ delivery_intents stacks c → i ∈ intents c.
Proof.
  unfold delivery_intents, withoutMatchingStackRefresh, withoutBranchRefresh.
  repeat case_match; rewrite ?filter_elem; tauto.
Qed.

(** An intent the dispatcher can turn into a pointer. *)
Definition routable (i : Intent) : Prop :=
  Priority i = PriorityEvent ∧ refreshArgs i = Ok (mkArgs (in_Kind i) (in_Key i) false).

Lemma classified_routable decode rules event contentType body c i :
  classifyContent decode rules event contentType body = Ok c → i ∈ intents c → routable i.
Proof.
  intros [[_ ->]|(_ & p & _ & _ & _ & Hin & _)]%classifyContent_inv Hi; [by apply elem_of_nil in Hi|].
  apply Hin in Hi as (r & _ & (Hp & Hk & _)%rule_emits_kind). split; [done|].
  unfold refreshArgs. by rewrite Hp, seqb_refl, bool_decide_true.
Qed.

Lemma insertParams_ok now debounce l :
  Forall routable l →
  insertParams now debounce l
  = Ok (map (λ i, (mkArgs (in_Kind i) (in_Key i) false, now + debounce)) l).
Proof.
  induction 1 as [|i l [_ Hi] _ IH]; [done|]. cbn. rewrite Hi. cbn. by rewrite IH.
Qed.

Definition intent_identity (i : Intent) : identity := (in_Kind i, in_Key i).

Lemma routable_identities l : NoDup l → Forall routable l → NoDup (map intent_identity l).
Proof.
  induction 1 as [|i l Hi Hnd IH]; intros Hr; [constructor|]. cbn.
  apply Forall_cons in Hr as [[Hp _] Hr]. constructor; [|by apply IH].
  rewrite list_elem_of_fmap. intros (j & [= Hk He] & Hj).
  eapply Forall_forall in Hr as [Hp' _]; [|exact Hj]. apply Hi.
  destruct i, j; cbn in *. by subst.
Qed.

Lemma pointer_key_inj kind repo a b : pointer_key kind repo a = pointer_key kind repo b → a = b.
Proof. unfold pointer_key. intros H. by do 4 apply append_inj_l in H. Qed.

(** A branch hint names a repository and a branch. *)
Lemma branch_hint_valid decode rules event contentType body c h :
  classifyContent decode rules event contentType body = Ok c → branchHint c = Some h →
  bh_Repo h ≠ "" ∧ bh_Branch h ≠ "".
Proof.
  intros [[_ ->]|(_ & p & _ & _ & _ & Hin & _ & Hbh)]%classifyContent_inv Hh; [done|].
  rewrite Hh in Hbh. symmetry in Hbh. unfold completeBranchPushHint in Hbh.
  case_if_in Hbh; [done|]. case_if_in Hbh; [done|]. simplify_eq. cbn. to_props.
  autorewrite with ghsync in *. split; [done|].
  apply has_intent_elem in E0 as (i & Hi & Hk & Hkey).
  apply Hin in Hi as (r & _ & (_ & _ & value & Hv & Hne & _)%rule_emits_kind).
  rewrite Hkey, Hk in Hv. apply pointer_key_inj in Hv. by rewrite Hv.
Qed.

Section dispatch_lemmas.
Context (lib : library) (rules : list Rule) (stacks : string → Z → option cached_stack).
Context (describe : classify_error → string).
Context (MaxAttempts batchSize : Z) (Debounce : duration).

Local Abbreviation classifyStored := (classifyStored lib rules).
Local Abbreviation finish_delivery := (finish_delivery lib rules describe MaxAttempts).
Local Abbreviation classify_delivery :=
  (classify_delivery lib rules stacks describe MaxAttempts).
Local Abbreviation classify_batch := (classify_batch lib rules stacks describe MaxAttempts).

(** Delivery [p] asks for intent [i] once its hints are applied. *)
Definition delivers (p : string * delivery) (i : Intent) : Prop :=
  ∃ c, classifyStored p.2 = Ok c ∧ i ∈ delivery_intents stacks c.

Lemma classify_fold ps : ∀ b,
  let b' := foldl classify_delivery b ps in
  ba_results b' = ba_results b ++ map (λ p, finish_delivery p.1 p.2) ps ∧
  (∀ i, i ∈ ba_intents b' ↔ i ∈ ba_intents b ∨ ∃ p, p ∈ ps ∧ delivers p i) ∧
  (∀ x, x ∈ branchPushes b' ↔ x ∈ branchPushes b ∨
     ∃ p c h, p ∈ ps ∧ classifyStored p.2 = Ok c ∧ branchHint c = Some h ∧
       x = mkPush h p.1 (received_at p.2)).
Proof.
  induction ps as [|[g d] ps IH]; intros b; cbn [foldl map].
  { split_and!; [by rewrite app_nil_r|set_solver..]. }
  destruct (IH (classify_delivery b (g, d))) as (Hr & Hi & Hb).
  cbn zeta in *. rewrite Hr. split_and!.
  - unfold Deliveries.classify_delivery. destruct (classifyStored d); cbn; by rewrite <- app_assoc.
  - intros i. rewrite Hi, exists_cons. unfold Deliveries.classify_delivery, delivers. cbn [snd].
    destruct (classifyStored d) as [c|e]; cbn [ba_intents]; [rewrite elem_of_app|]; naive_solver.
  - intros x. rewrite Hb. unfold Deliveries.classify_delivery.
    setoid_rewrite elem_of_cons. destruct (classifyStored d) as [c|e] eqn:Ec; cbn [branchPushes].
    + rewrite elem_of_app. destruct (branchHint c) as [h|] eqn:Eh.
      * rewrite list_elem_of_singleton. split.
        -- intros [[?| ->]|(p & c' & h' & ? & ?)]; [by left| |naive_solver].
           right. exists (g, d), c, h. eauto 10.
        -- intros [?|(p & c' & h' & [-> |?] & Hc & Hh & ->)]; [tauto| |naive_solver].
           cbn in *. left; right. congruence.
      * rewrite elem_of_nil. split; [naive_solver|].
        intros [?|(p & c' & h' & [-> |?] & Hc & Hh & ->)]; [tauto| |naive_solver].
        cbn in Hc. congruence.
    + split; [naive_solver|].
      intros [?|(p & c' & h' & [-> |?] & Hc & Hh & ->)]; [tauto| |naive_solver].
      cbn in Hc. congruence.
Qed.

Lemma delivers_routable p i : delivers p i → routable i.
Proof.
  intros (c & Hc & Hi%delivery_intents_sub). unfold Deliveries.classifyStored in Hc.
  case_match; [|done]. by eapply classified_routable.
Qed.

(** The pushes of a batch of named deliveries that arrived are valid. *)
Lemma pushes_valid ps :
  (∀ g d, (g, d) ∈ ps → g ≠ "" ∧ received_at d ≠ 0) →
  Forall valid_push (branchPushes (classify_batch ps)).
Proof.
  intros Hps. apply Forall_forall. intros x Hx.
  destruct (classify_fold ps empty_batch) as (_ & _ & Hp). apply Hp in Hx.
  destruct Hx as [?%elem_of_nil|([g d] & c & h & Hin & Hc & Hh & ->)]; [done|].
  destruct (Hps g d Hin). cbn in Hc. unfold Deliveries.classifyStored in Hc.
  case_match; [|done]. destruct (branch_hint_valid _ _ _ _ _ _ _ Hc Hh). by split_and!.
Qed.
End dispatch_lemmas.

Section enqueue_lemmas.
Context `{R : River} `{!RiverLaws R} (Debounce : duration) (contended : list identity → bool).

(** What enqueueing a batch does to the queue. *)
Record enqueued (b : batch) (q q' : tables) : Prop := {
  enq_live i : i ∈ ba_intents b → live (river q') (intent_identity i);
  enq_bumped i : i ∈ ba_intents b →
    current_generation (gens q') (intent_identity i)
    = current_generation (gens q) (intent_identity i) + 1;
  enq_frame j : j ∉ map intent_identity (ba_intents b) →
    current_generation (gens q') j = current_generation (gens q) j;
  enq_completed j : completed (gens q') j = completed (gens q) j;
  enq_mono j : live (river q) j → live (river q') j
}.

Lemma enqueue_spec now appNow b q q' :
  Forall routable (ba_intents b) →
  enqueue_intents Debounce contended now appNow b q = Ok q' → enqueued b q q'.
Proof.
  intros Hr. unfold enqueue_intents. destruct (ba_intents b) as [|i0 l0] eqn:Eb.
  { intros [= <-]. split; rewrite ?Eb; [set_solver..|done|done|done]. }
  rewrite <- Eb in *. destruct (dedupeIntents_elem (ba_intents b)) as [Hnd Hel].
  set (ds := dedupeIntents (ba_intents b)) in *.
  assert (Hds : Forall routable ds).
  { apply Forall_forall. intros i Hi%Hel. by eapply Forall_forall. }
  case_if; [done|]. rewrite insertParams_ok by done. intros [= <-].
  set (specs := intentGenerationPointers _ _).
  assert (Hids : map spec_identity specs = map intent_identity ds).
  { unfold specs, intentGenerationPointers. by rewrite map_map. }
  assert (Hin : ∀ i, i ∈ ba_intents b → intent_identity i ∈ map intent_identity ds).
  { intros i Hi%Hel. apply list_elem_of_fmap. eauto. }
  split; cbn [gens river].
  - intros i Hi%Hin. apply insert_many_live. by rewrite map_map.
  - intros i Hi. apply bump_current_in; rewrite Hids; [by apply routable_identities|by apply Hin].
  - intros j Hj. apply bump_current_notin. rewrite Hids. intros (i & -> & Hi%Hel)%list_elem_of_fmap.
    apply Hj, list_elem_of_fmap. eauto.
  - intros j. apply bump_completed.
  - intros j. apply insert_many_mono.
Qed.

Lemma enqueue_total now appNow b q :
  (∀ ks, contended ks = false) → Forall routable (ba_intents b) →
  ∃ q', enqueue_intents Debounce contended now appNow b q = Ok q'.
Proof.
  intros Hcon Hr. unfold enqueue_intents. destruct (ba_intents b) as [|i0 l0] eqn:Eb; [by eexists|].
  rewrite <- Eb in *. rewrite Hcon, insertParams_ok; [eexists; reflexivity|]. apply Forall_forall.
  intros i Hi. rewrite Forall_forall in Hr.
  apply Hr, (proj1 (proj2 (dedupeIntents_elem (ba_intents b)) i) Hi).
Qed.
End enqueue_lemmas.

(** The row a claimed delivery is left with. *)
Lemma finish_row_spec lib rules describe MaxAttempts now g d d' :
  d' = finished_row now (finish_delivery lib rules describe MaxAttempts g (claimed_row d))
         (claimed_row d) →
  raw_body d' = raw_body d ∧ attempts d' = attempts d + 1 ∧
  match classifyStored lib rules (claimed_row d) with
  | Ok _ => d_status d' = Processed
  | Err _ =>
      if MaxAttempts <=? attempts d + 1 then d_status d' = Parked
      else d_status d' = Pending ∧ now + Second ≤ next_attempt_at d' ≤ now + 60 * Second
  end.
Proof.
  intros ->. unfold finish_delivery. destruct (classifyStored lib rules (claimed_row d)); [done|].
  cbn [attempts claimed_row]. destruct (MaxAttempts <=? attempts d + 1); [done|].
  do 3 (split; [done|]). cbn [finished_row retry_delay_seconds next_attempt_at].
  unfold classificationRetryBackoff.
  pose proof (backoff_loop_bounds (Z.to_nat (attempts d + 1 - 1)) classificationRetryBaseBackoff)
    as Hb. unfold classificationRetryBaseBackoff, classificationRetryMaxBackoff in *.
  set (t := backoff_loop _ _) in *. unfold Second in *.
  assert (1 ≤ t / 1000000000) by (apply Z.div_le_lower_bound; lia).
  assert (t / 1000000000 ≤ 60) by (apply Z.div_le_upper_bound; lia). lia.
Qed.

(** A batch of distinct claimed rows: its results name exactly those rows, and
    its intents can all be enqueued. *)
Lemma classify_batch_spec lib rules stacks describe MaxAttempts ps :
  let b := classify_batch lib rules stacks describe MaxAttempts ps in
  ba_results b = map (λ p, finish_delivery lib rules describe MaxAttempts p.1 p.2) ps ∧
  map dr_guid (ba_results b) = ps.*1 ∧ Forall routable (ba_intents b).
Proof.
  cbn zeta. destruct (classify_fold lib rules stacks describe MaxAttempts ps empty_batch)
    as (Hr & Hi & _). unfold classify_batch. rewrite Hr. cbn [empty_batch ba_results app].
  split_and!; [done| |].
  - rewrite map_map. apply map_ext. intros [g d]. unfold finish_delivery.
    cbn [fst snd]. repeat case_match; done.
  - apply Forall_forall. intros i [?%elem_of_nil|(p & _ & Hd)]%Hi; [done|].
    by eapply delivers_routable.
Qed.

Section attempt.
Context `{R : River} `{!RiverLaws R}.
Context (lib : library) (rules : list Rule) (stacks : string → Z → option cached_stack).
Context (describe : classify_error → string).
Context (MaxAttempts batchSize : Z) (Debounce : duration).
Context (contended : list identity → bool) (pageSize : Z).
Context (clock : BranchPushHint → time * time).

Local Abbreviation attempt :=
  (dispatchBatchAttempt lib rules stacks describe MaxAttempts batchSize Debounce contended
     pageSize clock).

(** The batch an attempt claims and classifies. *)
Definition claimed_rows (now : time) (locked : gset string) (l : ledger)
    : list (string * delivery) :=
  map (λ p, (p.1, claimed_row p.2)) (claim_candidates now locked batchSize l).

Definition attempt_batch (now : time) (locked : gset string) (l : ledger) : batch :=
  classify_batch lib rules stacks describe MaxAttempts (claimed_rows now locked l).

(** The ledger a committed attempt leaves. *)
Definition finished_ledger (now : time) (locked : gset string) (l l' : ledger) : Prop :=
  (∀ g d, (g, d) ∈ claim_candidates now locked batchSize l →
     l' !! g = Some (finished_row now
       (finish_delivery lib rules describe MaxAttempts g (claimed_row d)) (claimed_row d))) ∧
  (∀ g, g ∉ (claim_candidates now locked batchSize l).*1 → l' !! g = l !! g).

Lemma finish_guid g d : dr_guid (finish_delivery lib rules describe MaxAttempts g d) = g.
Proof. unfold finish_delivery; repeat case_match; done. Qed.

(** Claiming and finishing, without the queue. *)
Lemma ledger_finished now locked l :
  let '(claimed, l1) := ClaimWebhookDeliveries now locked batchSize l in
  claimed = claimed_rows now locked l ∧
  ∃ l2, SetWebhookDeliveryResults now (ba_results (attempt_batch now locked l)) l1
        = (Z.of_nat (length claimed), l2) ∧ finished_ledger now locked l l2.
Proof.
  pose proof (claim_spec now locked batchSize l) as Hclaim.
  destruct (ClaimWebhookDeliveries now locked batchSize l) as [claimed l1].
  destruct Hclaim as (-> & Hnd & Hin & Hout). split; [done|]. fold (claimed_rows now locked l) in *.
  destruct (classify_batch_spec lib rules stacks describe MaxAttempts (claimed_rows now locked l))
    as (Hres & Hguid & _). fold (attempt_batch now locked l) in *.
  destruct (set_results_spec now (ba_results (attempt_batch now locked l)) l1)
    as (l2 & Hset & Hset_in & Hset_out).
  { by rewrite Hguid. }
  { rewrite Hres. intros r ([g d] & -> & Hp)%list_elem_of_fmap. exists d.
    rewrite finish_guid. by apply Hin. }
  exists l2. split; [by rewrite Hset, Hres, length_map|]. split.
  - intros g d Hgd. assert (Hcl : (g, claimed_row d) ∈ claimed_rows now locked l).
    { apply list_elem_of_fmap. by exists (g, d). }
    rewrite <- (finish_guid g (claimed_row d)) at 1.
    apply Hset_in; rewrite ?finish_guid; [|by apply Hin].
    rewrite Hres. apply list_elem_of_fmap. by exists (g, claimed_row d).
  - intros g Hgn. unfold claimed_rows in *. rewrite <- claimed_fst in Hgn.
    rewrite Hset_out by (by rewrite Hguid). by apply Hout.
Qed.

(** What a committed attempt did. *)
Lemma attempt_inv now appNow locked st n st' :
  attempt now appNow locked st = Some (n, st') →
  let b := attempt_batch now locked (deliveries st) in
  n = Z.of_nat (length (claim_candidates now locked batchSize (deliveries st))) ∧
  finished_ledger now locked (deliveries st) (deliveries st') ∧
  ∃ mid, apply_pushes contended pageSize clock (branchPushes b) (shared st) = Ok mid ∧
    enqueued b (ps_queue mid) (queue st') ∧
    ps_db (shared st') = ps_db mid ∧ ps_page_jobs (shared st') = ps_page_jobs mid.
Proof.
  unfold dispatchBatchAttempt. pose proof (ledger_finished now locked (deliveries st)) as Hl.
  destruct (ClaimWebhookDeliveries now locked batchSize (deliveries st)) as [claimed l1] eqn:Ecl.
  destruct Hl as [Hc (l2 & Hset & Hfin)]. cbn zeta.
  set (b := attempt_batch now locked (deliveries st)) in *.
  assert (Hlen : length claimed = length (claim_candidates now locked batchSize (deliveries st))).
  { rewrite Hc. apply length_map. }
  destruct claimed as [|p0 ps0] eqn:E.
  { assert (Eb : b = empty_batch) by (unfold b, attempt_batch; by rewrite <- Hc).
    intros [= <- <-]. rewrite <- Hlen. split; [done|]. split.
    - assert (Hnil : claim_candidates now locked batchSize (deliveries st) = [])
        by (apply length_zero_iff_nil; cbn in Hlen; lia).
      split; rewrite Hnil; [by intros ?? ?%elem_of_nil|done].
    - exists (shared st). rewrite Eb. split_and!; [done| |done..]. by split; cbn; [set_solver..|]. }
  rewrite <- E in *.
  assert (Hb : classify_batch lib rules stacks describe MaxAttempts claimed = b)
    by (unfold b, attempt_batch; by rewrite <- Hc).
  rewrite Hb.
  destruct (apply_pushes _ _ _ _ _) as [mid|] eqn:Emid; [|done].
  destruct (enqueue_intents _ _ _ _ _ _) as [q|] eqn:Eq; [|done].
  rewrite Hset, Z.eqb_refl. cbn [negb]. intros [= <- <-].
  split; [by rewrite Hlen|]. split; [done|]. exists mid. split_and!; [done| |done..].
  eapply enqueue_spec; [|exact Eq].
  apply (classify_batch_spec lib rules stacks describe MaxAttempts (claimed_rows now locked (deliveries st))).
Qed.

(** Deliveries have a name and an arrival time. *)
Definition named_ledger (l : ledger) : Prop :=
  ∀ g d, l !! g = Some d → g ≠ "" ∧ received_at d ≠ 0.

Lemma claimed_named now locked l :
  named_ledger l → ∀ g d, (g, d) ∈ claimed_rows now locked l → g ≠ "" ∧ received_at d ≠ 0.
Proof.
  intros Hl g d ([g' d'] & [= -> ->] & Hin)%list_elem_of_fmap.
  destruct (select_elem _ _ _ _ _ _ Hin) as [Hd _]. by apply Hl in Hd.
Qed.

(** Without contention an attempt commits. *)
Lemma attempt_total now appNow locked st :
  0 < pageSize → (∀ ks, contended ks = false) → named_ledger (deliveries st) →
  branch_wf (ps_db (shared st)) →
  ∃ n st', attempt now appNow locked st = Some (n, st').
Proof.
  intros Hsize Hcon Hnamed Hwf. unfold dispatchBatchAttempt.
  pose proof (ledger_finished now locked (deliveries st)) as Hl.
  destruct (ClaimWebhookDeliveries now locked batchSize (deliveries st)) as [claimed l1] eqn:Ecl.
  destruct Hl as [Hc (l2 & Hset & _)]. destruct claimed as [|p0 ps0] eqn:E; [by do 2 eexists|].
  rewrite <- E in *. unfold attempt_batch in Hset. rewrite <- Hc in Hset.
  destruct (apply_pushes_total pageSize clock Hsize contended
    (branchPushes (classify_batch lib rules stacks describe MaxAttempts claimed)) (shared st))
    as (mid & -> & _); [|done|done|].
  { apply pushes_valid. rewrite Hc. by apply claimed_named. }
  destruct (classify_batch_spec lib rules stacks describe MaxAttempts claimed) as (_ & _ & Hrt).
  destruct (enqueue_total Debounce contended now appNow _ (ps_queue mid) Hcon Hrt) as [q ->].
  rewrite Hset, Z.eqb_refl. cbn [negb]. by do 2 eexists.
Qed.
End attempt.

(** ** Theorems *)


(** The ingress handler, on every branch. It acknowledges a request exactly
    when the body fits, arrived whole, is signed with the secret, names a
    delivery and an event, has a supported content type with a JSON object, and
    was stored; an acknowledged delivery is in the ledger, a fresh one pending
    with its body and a known one unchanged; a request that is not acknowledged
    changes nothing, and no request changes another delivery. *)
Theorem ingress_exact lib secret maxBodyBytes now stored r l :
  let '(code, l') := ServeHTTP lib secret maxBodyBytes now stored r l in
  (code = 200 ↔
     Z.of_nat (String.length (rq_received r)) ≤ maxBodyBytes ∧ rq_broken r = false ∧
     rq_signature r = SignBody lib secret (rq_received r) ∧
     rq_delivery r ≠ "" ∧ rq_event r ≠ "" ∧
     is_ok (DecodeWebhookPayload lib (rq_content_type r) (rq_received r)) = true ∧
     is_Some (rq_envelope r) ∧ stored = true) ∧
  (code = 200 → ∃ d, l' !! rq_delivery r = Some d ∧
     match l !! rq_delivery r with
     | Some d0 => d = d0
     | None => d_status d = Pending ∧ d_event d = rq_event r ∧ attempts d = 0 ∧
               raw_body d = Some (rq_received r) ∧ next_attempt_at d = now
     end) ∧
  (code ≠ 200 → l' = l) ∧
  (∀ g, g ≠ rq_delivery r → l' !! g = l !! g).
Proof.
  unfold ServeHTTP. destruct (_ <? _) eqn:Hsz; to_props; [split_and!; (done || lia)|].
  destruct (rq_broken r) eqn:Hbr; [split_and!; naive_solver|].
  destruct (VerifySignature _ _ _ _) eqn:Hsig; unfold VerifySignature in Hsig;
    autorewrite with ghsync in Hsig; cbn [negb]; [|split_and!; naive_solver].
  destruct (seqb (rq_delivery r) "" || seqb (rq_event r) "") eqn:Hn.
  { apply orb_true_iff in Hn. autorewrite with ghsync in Hn. split_and!; naive_solver. }
  to_props. autorewrite with ghsync in *.
  destruct (DecodeWebhookPayload lib _ _) as [p|[]] eqn:Hd; [|split_and!; naive_solver..].
  destruct (rq_envelope r) as [h|]; last first.
  { split_and!; try done. split; [done|]. by intros (_ & _ & _ & _ & _ & _ & [? ?] & _). }
  destruct stored; [|split_and!; naive_solver].
  unfold InsertWebhookDelivery. destruct (l !! rq_delivery r) as [d|] eqn:Hl; cbn [snd].
  - split; [split; [|done]; intros _; split_and!; eauto|]. split; [by eauto|done].
  - split; [split; [|done]; intros _; split_and!; eauto|]. split; [|split; [done|]].
    + intros _. eexists. split; [apply lookup_insert_eq|done].
    + intros g Hg. by rewrite lookup_insert_ne.
Qed.

(** ** The life of a delivery *)

Section lifecycle.
Context `{R : River} `{!RiverLaws R}.
Context (lib : library) (rules : list Rule) (describe : classify_error → string).
Context (MaxAttempts batchSize : Z) (Debounce : duration).

(** The transactions that write the ledger. *)
Inductive ledger_step : ledger → ledger → Prop :=
  | step_ingress secret maxBodyBytes now stored r l :
      ledger_step l (ServeHTTP lib secret maxBodyBytes now stored r l).2
  | step_dispatch stacks contended pageSize clock now appNow locked l q n st' :
      dispatchBatchAttempt lib rules stacks describe MaxAttempts batchSize Debounce contended
        pageSize clock now appNow locked (mkDispatch l q) = Some (n, st') →
      ledger_step l (deliveries st')
  | step_requeue now note guids event errorContains locked l :
      ledger_step l (RequeueParkedWebhookDeliveries now note guids event errorContains locked l)
  | step_prune prunedAt cutoff size locked l :
      ledger_step l (PruneWebhookDeliveryPayloadBatch prunedAt cutoff size locked l).

Inductive ledger_reachable : ledger → Prop :=
  | reachable_empty : ledger_reachable ∅
  | reachable_step l l' : ledger_reachable l → ledger_step l l' → ledger_reachable l'.

(** The states a committed row can be in. *)
Definition row_ok (d : delivery) : Prop :=
  (raw_body d = None ↔ is_Some (payload_pruned_at d)) ∧
  match d_status d with
  | Pending => is_Some (raw_body d) ∧ 0 ≤ attempts d < MaxAttempts
  | Processing => False
  | Processed => 0 < attempts d ≤ MaxAttempts
  | Parked => is_Some (raw_body d) ∧ attempts d = MaxAttempts
  end.

(** How a committed transaction may change a row. *)
Definition row_step (d d' : delivery) : Prop :=
  d_event d' = d_event d ∧ received_at d' = received_at d ∧
  (d_status d = Processed → d_status d' = Processed) ∧
  (d_status d' ≠ Processed → raw_body d' = raw_body d).

Lemma row_step_refl d : row_step d d.
Proof. done. Qed.

Lemma finished_row_ok now g d :
  row_ok d → d_status d = Pending →
  let d' := finished_row now (finish_delivery lib rules describe MaxAttempts g (claimed_row d))
              (claimed_row d) in
  row_ok d' ∧ row_step d d'.
Proof.
  intros [Hb Hs] Hp. rewrite Hp in Hs. destruct Hs as [Hbody Ha].
  unfold row_ok, row_step, finish_delivery.
  destruct (classifyStored lib rules (claimed_row d)); cbn; [|case_if; cbn; to_props];
    rewrite ?Hp; (split; [split; [done|]|split_and!; done]); [lia|split; [done|lia]..].
Qed.

Lemma requeued_row_ok now note d :
  0 < MaxAttempts → row_ok d → d_status d = Parked →
  row_ok (requeued_row now note d) ∧ row_step d (requeued_row now note d).
Proof.
  intros HM [Hb Hs] Hp. unfold row_ok, row_step, requeued_row. rewrite Hp in *.
  case_if; cbn; rewrite ?Hp; (split; [split; [done|]|split_and!; done]); [done|].
  split; [tauto|lia].
Qed.

Lemma pruned_row_ok at_ d :
  row_ok d → d_status d = Processed → row_ok (pruned_row at_ d) ∧ row_step d (pruned_row at_ d).
Proof.
  intros [Hb Hs] Hp. unfold row_ok, row_step, pruned_row. cbn. rewrite Hp in *. cbn.
  split; [split; [split; eauto|done]|]. split_and!; done.
Qed.

(** All rows well formed, and every row of [l] carried on in [l']. *)
Definition ledger_ok (l : ledger) : Prop := ∀ g d, l !! g = Some d → row_ok d.

Definition carries (l l' : ledger) : Prop :=
  ∀ g, match l !! g with
       | Some d => ∃ d', l' !! g = Some d' ∧ row_ok d' ∧ row_step d d'
       | None => ∀ d', l' !! g = Some d' → row_ok d'
       end.

Lemma carries_refl l : ledger_ok l → carries l l.
Proof.
  intros Hok g. destruct (l !! g) as [d|] eqn:Hg; [|by intros d' ?].
  exists d. split; [done|]. split; [by eapply Hok|apply row_step_refl].
Qed.

Lemma carries_ok l l' : carries l l' → ledger_ok l'.
Proof.
  intros H g d' Hd'. specialize (H g). destruct (l !! g) as [d|]; [|by apply H].
  destruct H as (d'' & Hd'' & Hok & _). congruence.
Qed.

(** A selection that updates rows of one kind keeps every row well formed. *)
Lemma fold_carries Rel `{!RelDecision Rel} sel n (f : string * delivery → delivery) (l : ledger) :
  (∀ g d, sel (g, d) = true → row_ok d → row_ok (f (g, d)) ∧ row_step d (f (g, d))) →
  ledger_ok l → carries l (foldr (λ p l, <[p.1 := f p]> l) l (select Rel sel n l)).
Proof.
  intros Hf Hok g. pose proof (select_NoDup Rel sel n l) as Hnd.
  destruct (decide (g ∈ (select Rel sel n l).*1)) as [Hin|Hn].
  - apply list_elem_of_fmap in Hin as ([g' d] & -> & Hin). cbn.
    destruct (select_elem _ _ _ _ _ _ Hin) as [Hl Hsel]. rewrite Hl.
    exists (f (g', d)). split; [by apply (fold_update_in f)|]. eauto.
  - rewrite (fold_update_notin f) by done. destruct (l !! g) as [d|] eqn:Hg; [|by intros].
    eauto using row_step_refl.
Qed.

Lemma ingress_carries secret mx now stored r l :
  0 < MaxAttempts → ledger_ok l → carries l (ServeHTTP lib secret mx now stored r l).2.
Proof.
  intros HM Hok. pose proof (carries_refl _ Hok) as Hrefl. unfold ServeHTTP, InsertWebhookDelivery.
  destruct (l !! rq_delivery r) as [d|] eqn:Hd; [by repeat case_match|].
  repeat case_match; try exact Hrefl. cbn [snd]. intros g.
  destruct (decide (g = rq_delivery r)) as [->|Hne].
  - rewrite Hd, lookup_insert_eq. intros d' [= <-]. unfold row_ok. cbn.
    split; [split; [done|by intros []]|]. split; [by eexists|lia].
  - rewrite lookup_insert_ne by done. apply Hrefl.
Qed.

Lemma dispatch_carries stacks contended pageSize clock now appNow locked l q n st' :
  ledger_ok l →
  dispatchBatchAttempt lib rules stacks describe MaxAttempts batchSize Debounce contended
    pageSize clock now appNow locked (mkDispatch l q) = Some (n, st') →
  carries l (deliveries st').
Proof.
  intros Hok Hrun. destruct (attempt_inv _ _ _ _ _ _ _ _ _ _ _ _ _ _ _ _ Hrun)
    as (_ & [Hin Hout] & _). cbn [deliveries] in *. intros g.
  destruct (decide (g ∈ (claim_candidates now locked batchSize l).*1)) as [Hg|Hg].
  - apply list_elem_of_fmap in Hg as ([g' d] & -> & Hc). cbn [fst].
    destruct (select_elem _ _ _ _ _ _ Hc) as [Hl Hsel]. cbn in Hsel. unfold claimable in Hsel.
    to_props. rewrite Hl. eexists. split; [by apply Hin|]. apply finished_row_ok; eauto.
  - rewrite Hout by done. apply (carries_refl _ Hok).
Qed.

Lemma ledger_step_carries l l' :
  0 < MaxAttempts → ledger_ok l → ledger_step l l' → carries l l'.
Proof.
  intros HM Hok Hstep. destruct Hstep as [| |now note guids event ec locked l|at_ cutoff size locked l].
  - by apply ingress_carries.
  - by eapply dispatch_carries.
  - apply (fold_carries received_le
      (λ p, requeue_selected guids event ec p.1 p.2 && negb (bool_decide (p.1 ∈ locked))) 100
      (λ p, requeued_row now note p.2)); [|done].
    intros g d Hsel ?. cbn in Hsel. unfold requeue_selected in Hsel. to_props.
    by apply requeued_row_ok.
  - apply (fold_carries received_le
      (λ p, (received_at p.2 <? cutoff) && bool_decide (is_Some (raw_body p.2))
            && bool_decide (d_status p.2 = Processed) && negb (bool_decide (p.1 ∈ locked)))
      (Z.to_nat size) (λ p, pruned_row at_ p.2)); [|done].
    intros g d Hsel ?. cbn in Hsel. to_props. by apply pruned_row_ok.
Qed.

Lemma ledger_reachable_ok l : 0 < MaxAttempts → ledger_reachable l → ledger_ok l.
Proof.
  intros HM. induction 1 as [|l l' _ IH Hstep]; [by intros g d; rewrite lookup_empty|].
  by eapply carries_ok, ledger_step_carries.
Qed.
End lifecycle.

(** C6. The life of a delivery, over every interleaving of ingress, dispatch,
    operator requeue and payload pruning. A stored delivery is never lost; its
    event and arrival never change and a processed one stays processed; between
    transactions none is left processing; the payload is dropped only once the
    delivery is processed, so a pending or parked one can always be dispatched;
    and a delivery is tried at most [MaxAttempts] times before it is parked. *)
Theorem delivery_lifecycle `{R : River} `{!RiverLaws R} lib rules describe MaxAttempts batchSize
    Debounce l g d :
  0 < MaxAttempts →
  ledger_reachable lib rules describe MaxAttempts batchSize Debounce l →
  l !! g = Some d →
  row_ok MaxAttempts d ∧
  ∀ l', ledger_step lib rules describe MaxAttempts batchSize Debounce l l' →
    ∃ d', l' !! g = Some d' ∧ row_step d d'.
Proof.
  intros HM Hreach Hd. pose proof (ledger_reachable_ok _ _ _ _ _ _ _ HM Hreach) as Hok.
  split; [by eapply Hok|]. intros l' Hstep.
  pose proof (ledger_step_carries _ _ _ _ _ _ _ _ HM Hok Hstep g) as Hc. rewrite Hd in Hc.
  destruct Hc as (d' & ? & _ & ?). eauto.
Qed.

(** ** Witnesses *)

#[local] Existing Instances RefRiver.RefRiver RefRiver.RefRiver_laws.

(** A library that signs with a fixed digest and accepts JSON bodies. *)
Definition sample_library : library :=
  mkLibrary (λ _ _, "0badc0de") Some (λ _, None) (λ _, true) (λ _, Some sample_payload)
    (λ _, Some "application/json").

Definition sample_request : request :=
  mkRequest "{}" false "sha256=0badc0de" "guid-1" "pull_request" "application/json"
    (Some "headers") "" "".

Definition sample_ledger : ledger :=
  (ServeHTTP sample_library "secret" 100 5 true sample_request ∅).2.

Definition sample_describe (_ : classify_error) : string := "classification failed".

Definition no_stacks (_ : string) (_ : Z) : option cached_stack := None.

Definition sample_row : delivery :=
  mkDelivery "pull_request" (Some "{}") "headers" 5 Pending 0 None None 5 None None.

Lemma sample_ledger_named : named_ledger sample_ledger.
Proof.
  replace sample_ledger with (<["guid-1" := sample_row]> (∅ : ledger)) by (vm_compute; reflexivity).
  intros g d. rewrite lookup_insert_Some, lookup_empty. by intros [[<- <-]|[_ ?]].
Qed.


Lemma delivery_lifecycle_witness :
  ∃ d, sample_ledger !! "guid-1" = Some d ∧ row_ok 5 d.
Proof.
  eexists. split; [vm_compute; reflexivity|].
  eapply (delivery_lifecycle sample_library DefaultRules sample_describe 5 10 Second
    sample_ledger "guid-1").
  - lia.
  - apply (reachable_step _ _ _ _ _ _ ∅); [apply reachable_empty|apply step_ingress].
  - vm_compute. reflexivity.
Defined.
