(* ===== verification/Codeowners.v ===== *)
(** * CODEOWNERS resolution

    [internal/codeowners/resolver.go]: splitting a line into a pattern and its
    owner tokens, compiling the pattern into a regular expression, classifying
    owners, and resolving a path to its last matching rule. Go's [regexp] works
    on the runes of a string: [runes] is [utf8.DecodeRuneInString] repeated, and
    [regex] is the fragment of the expression syntax the compiler emits, with
    its language [lang] and an executable matcher by derivatives. *)

From Stdlib Require Import ZArith Lia Bool Ascii String.
From stdpp Require Import strings numbers sorting sets base list.
From S2P Require Import Prelude GoStrings.

Local Open Scope Z_scope.

(** ** Runes *)

Definition code (c : ascii) : Z := Z.of_N (N_of_ascii c).

Definition between (lo hi z : Z) : bool := (lo <=? z) && (z <=? hi).

Definition two_bytes (b0 b1 : Z) : option Z :=
  if between 194 223 b0 && between 128 191 b1
  then Some ((b0 - 192) * 64 + (b1 - 128)) else None.

Definition three_bytes (b0 b1 b2 : Z) : option Z :=
  let second :=
    if b0 =? 224 then between 160 191 b1
    else if b0 =? 237 then between 128 159 b1
    else between 128 191 b1 in
  if between 224 239 b0 && second && between 128 191 b2
  then Some ((b0 - 224) * 4096 + (b1 - 128) * 64 + (b2 - 128)) else None.

Definition four_bytes (b0 b1 b2 b3 : Z) : option Z :=
  let second :=
    if b0 =? 240 then between 144 191 b1
    else if b0 =? 244 then between 128 143 b1
    else between 128 191 b1 in
  if between 240 244 b0 && second && between 128 191 b2 && between 128 191 b3
  then Some ((b0 - 240) * 262144 + (b1 - 128) * 4096 + (b2 - 128) * 64 + (b3 - 128))
  else None.

(** The runes of a string, [None] for a byte that starts no valid encoding
    (Go's [utf8.RuneError] with width 1). *)
Fixpoint runes (s : string) : list (option Z) :=
  match s with
  | EmptyString => []
  | String c0 s1 =>
      let b0 := code c0 in
      if b0 <? 128 then Some b0 :: runes s1 else
      match s1 with
      | EmptyString => None :: runes s1
      | String c1 s2 =>
          match two_bytes b0 (code c1) with
          | Some r => Some r :: runes s2
          | None =>
              match s2 with
              | EmptyString => None :: runes s1
              | String c2 s3 =>
                  match three_bytes b0 (code c1) (code c2) with
                  | Some r => Some r :: runes s3
                  | None =>
                      match s3 with
                      | EmptyString => None :: runes s1
                      | String c3 s4 =>
                          match four_bytes b0 (code c1) (code c2) (code c3) with
                          | Some r => Some r :: runes s4
                          | None => None :: runes s1
                          end
                      end
                  end
              end
          end
      end
  end.

(** [utf8.RuneError]. *)
Definition rune_error : Z := 65533.

(** The runes a Go [range] over a string or a regular expression's input sees. *)
Definition decoded (s : string) : list Z := default rune_error <$> runes s.

Definition slash : Z := 47.
Definition newline : Z := 10.

(** ** Regular expressions *)

Inductive cls :=
  | One (r : Z)
  | NotSlash
  | NotNewline.

Definition in_cls (p : cls) (r : Z) : bool :=
  match p with
  | One x => r =? x
  | NotSlash => negb (r =? slash)
  | NotNewline => negb (r =? newline)
  end.

Inductive regex :=
  | Void
  | Eps
  | Cls (p : cls)
  | Cat (a b : regex)
  | Alt (a b : regex)
  | Star (a : regex).

Definition Plus (a : regex) : regex := Cat a (Star a).
Definition Opt (a : regex) : regex := Alt a Eps.

(** The language of an expression. *)
Inductive lang : regex → list Z → Prop :=
  | lang_eps : lang Eps []
  | lang_cls p r : in_cls p r = true → lang (Cls p) [r]
  | lang_cat a b u v : lang a u → lang b v → lang (Cat a b) (u ++ v)
  | lang_alt_l a b u : lang a u → lang (Alt a b) u
  | lang_alt_r a b u : lang b u → lang (Alt a b) u
  | lang_star_nil a : lang (Star a) []
  | lang_star_cons a r u v :
      lang a (r :: u) → lang (Star a) v → lang (Star a) (r :: u ++ v).

Fixpoint nullable (e : regex) : bool :=
  match e with
  | Void => false
  | Eps => true
  | Cls _ => false
  | Cat a b => nullable a && nullable b
  | Alt a b => nullable a || nullable b
  | Star _ => true
  end.

Fixpoint deriv (r : Z) (e : regex) : regex :=
  match e with
  | Void => Void
  | Eps => Void
  | Cls p => if in_cls p r then Eps else Void
  | Cat a b =>
      if nullable a then Alt (Cat (deriv r a) b) (deriv r b) else Cat (deriv r a) b
  | Alt a b => Alt (deriv r a) (deriv r b)
  | Star a => Cat (deriv r a) (Star a)
  end.

(** Does the whole text belong to the expression? *)
Fixpoint full_match (e : regex) (w : list Z) : bool :=
  match w with
  | [] => nullable e
  | r :: w => full_match (deriv r e) w
  end.

(** A search that may start at any position of the text. *)
Fixpoint search (e : regex) (w : list Z) : bool :=
  full_match e w || match w with [] => false | _ :: w => search e w end.

(** A compiled expression: [begin] when it starts with [^], and otherwise it
    starts with [(?:^|.*/)]. Every expression ends in [$]. *)
Record matcher := mkMatcher { begin : bool; body : regex }.

Definition any_before_slash : regex := Cat (Star (Cls NotNewline)) (Cls (One slash)).

(** [Regexp.MatchString]: the alternative [^] of the prefix holds at the first
    position only. *)
Definition MatchString (m : matcher) (text : string) : bool :=
  let w := decoded text in
  if begin m then full_match (body m) w
  else full_match (body m) w || search (Cat any_before_slash (body m)) w.

(** ** The pattern compiler *)

Inductive pattern_error :=
  | ErrNegation
  | ErrCharacterRange
  | ErrEmptyPattern
  | ErrDanglingEscape
  | ErrCompile.

Definition backslash : ascii := "092".

Fixpoint hasUnescaped_go (escaped : bool) (value : string) (target : ascii) : bool :=
  match value with
  | EmptyString => false
  | String c rest =>
      if escaped then hasUnescaped_go false rest target
      else if Ascii.eqb c backslash then hasUnescaped_go true rest target
      else if Ascii.eqb c target then true
      else hasUnescaped_go false rest target
  end.

Definition hasUnescaped (value : string) (target : ascii) : bool :=
  hasUnescaped_go false value target.

Definition hasUnescapedWildcard (value : string) : bool :=
  hasUnescaped value "*" || hasUnescaped value "?".

Definition lastPatternComponent (pattern : string) : string :=
  List.last (Split pattern "/") EmptyString.

(** One [WriteString] of the compiler's loop: a quoted byte, [[^/]*], [[^/]],
    [.*] and [(?:[^/]+/)*]. *)
Inductive piece :=
  | PByte (c : ascii)
  | PStar
  | PQuestion
  | PAll
  | PDeep.

Fixpoint star_run (s : string) : nat * string :=
  match s with
  | String c rest =>
      if Ascii.eqb c "*" then let '(n, rest') := star_run rest in (S n, rest')
      else (O, s)
  | EmptyString => (O, s)
  end.

(** The loop over the pattern. [prev] is the byte before the current index, and
    [fuel] bounds the bytes left. *)
Fixpoint pieces_go (fuel : nat) (prev : option ascii) (s : string) :
    result pattern_error (list piece) :=
  match fuel with
  | O => Err ErrCompile
  | S fuel =>
      match s with
      | EmptyString => Ok []
      | String c rest =>
          if Ascii.eqb c backslash then
            match rest with
            | EmptyString => Err ErrDanglingEscape
            | String d rest' =>
                ps ← pieces_go fuel (Some d) rest'; mret (PByte d :: ps)
            end
          else if Ascii.eqb c "*" then
            let '(n, after) := star_run s in
            let segmentStart :=
              match prev with None => true | Some p => Ascii.eqb p "/" end in
            let plain := ps ← pieces_go fuel (Some "*"%char) after; mret (PStar :: ps) in
            if (n =? 2)%nat && segmentStart then
              match after with
              | EmptyString => mret [PAll]
              | String d after' =>
                  if Ascii.eqb d "/" then
                    ps ← pieces_go fuel (Some "/"%char) after'; mret (PDeep :: ps)
                  else plain
              end
            else plain
          else if Ascii.eqb c "?" then
            ps ← pieces_go fuel (Some c) rest; mret (PQuestion :: ps)
          else
            ps ← pieces_go fuel (Some c) rest; mret (PByte c :: ps)
      end
  end.

Definition pieces (pattern : string) : result pattern_error (list piece) :=
  pieces_go (S (String.length pattern)) None pattern.

(** The elements [regexp.Compile] reads back: the quoted bytes between two
    wildcards form literal runes, and an invalid encoding is an error. *)
Inductive glob :=
  | GRune (r : Z)
  | GStar
  | GQuestion
  | GAll
  | GDeep.

Definition literal (lit : string) : option (list glob) :=
  fmap GRune <$> mapM id (runes lit).

Fixpoint globs_go (lit : string) (ps : list piece) : option (list glob) :=
  match ps with
  | [] => literal lit
  | PByte c :: ps => globs_go (lit +:+ String c EmptyString) ps
  | p :: ps =>
      l ← literal lit;
      rest ← globs_go EmptyString ps;
      let g := match p with
               | PStar => GStar
               | PQuestion => GQuestion
               | PAll => GAll
               | _ => GDeep
               end in
      mret (l ++ g :: rest)
  end.

Definition globs (ps : list piece) : option (list glob) := globs_go EmptyString ps.

Definition glob_regex (g : glob) : regex :=
  match g with
  | GRune r => Cls (One r)
  | GStar => Star (Cls NotSlash)
  | GQuestion => Cls NotSlash
  | GAll => Star (Cls NotNewline)
  | GDeep => Star (Cat (Plus (Cls NotSlash)) (Cls (One slash)))
  end.

(** The optional suffix: a slash and anything below it. *)
Definition subtree_regex : regex := Opt (Cat (Cls (One slash)) (Star (Cls NotNewline))).

Definition expression (gs : list glob) (subtree : bool) : regex :=
  foldr (λ g e, Cat (glob_regex g) e) (if subtree then subtree_regex else Eps) gs.

(** [strings.HasSuffix(s, string(c))] and [strings.TrimSuffix(s, string(c))]. *)
Fixpoint HasSuffixByte (s : string) (c : ascii) : bool :=
  match s with
  | EmptyString => false
  | String d EmptyString => Ascii.eqb d c
  | String _ s' => HasSuffixByte s' c
  end.

Fixpoint DropLast (s : string) : string :=
  match s with
  | EmptyString => EmptyString
  | String d EmptyString => EmptyString
  | String d s' => String d (DropLast s')
  end.

Definition TrimSuffixByte (s : string) (c : ascii) : string :=
  if HasSuffixByte s c then DropLast s else s.

(** What the compiler decides before its loop: whether the expression is
    anchored, the pattern without its outer slashes, and whether the files below
    a match are owned too. *)
Definition prepare (pattern : string) : result pattern_error (bool * string * bool) :=
  if HasPrefix pattern "!" then Err ErrNegation
  else if hasUnescaped pattern "[" || hasUnescaped pattern "]" then Err ErrCharacterRange
  else
    let anchored := HasPrefix pattern "/" in
    let pattern := if anchored then TrimPrefix pattern "/" else pattern in
    let directory := HasSuffixByte pattern "/" in
    let pattern := if directory then TrimSuffixByte pattern "/" else pattern in
    if String.eqb pattern "" then Err ErrEmptyPattern
    else
      let hasSlash := ContainsByte pattern "/" in
      Ok (anchored || hasSlash, pattern,
          directory || negb (hasUnescapedWildcard (lastPatternComponent pattern))).

Definition compilePattern (pattern : string) : result pattern_error matcher :=
  '(start, pattern, subtree) ← prepare pattern;
  ps ← pieces pattern;
  match globs ps with
  | None => Err ErrCompile
  | Some gs => mret (mkMatcher start (expression gs subtree))
  end.

(** ** Lines *)

(** [isSpace]: blank, tab, vertical tab and form feed. *)
Definition isSpace (c : ascii) : bool :=
  Ascii.eqb c " " || Ascii.eqb c "009" || Ascii.eqb c "011" || Ascii.eqb c "012".

Fixpoint skip_spaces (s : string) : string :=
  match s with
  | String c rest => if isSpace c then skip_spaces rest else s
  | EmptyString => s
  end.

(** The pattern ends at the first unescaped space; [None] when the line ends
    inside an escape. *)
Fixpoint scan_pattern (escaped : bool) (s : string) : option (string * string) :=
  match s with
  | EmptyString => if escaped then None else Some (EmptyString, EmptyString)
  | String c rest =>
      let continue (escaped : bool) :=
        '(p, after) ← scan_pattern escaped rest; Some (String c p, after) in
      if escaped then continue false
      else if Ascii.eqb c backslash then continue true
      else if isSpace c then Some (EmptyString, s)
      else continue false
  end.

Fixpoint scan_word (s : string) : string * string :=
  match s with
  | EmptyString => (EmptyString, EmptyString)
  | String c rest =>
      if isSpace c then (EmptyString, s)
      else let '(w, after) := scan_word rest in (String c w, after)
  end.

(** The owner tokens after the pattern, up to a comment; [fuel] bounds the bytes
    left. *)
Fixpoint scan_tokens (fuel : nat) (s : string) : list string :=
  match fuel with
  | O => []
  | S fuel =>
      match skip_spaces s with
      | EmptyString => []
      | String c _ as s' =>
          if Ascii.eqb c "#" then []
          else let '(w, after) := scan_word s' in w :: scan_tokens fuel after
      end
  end.

(** [strings.TrimRight(line, string(c))]. *)
Fixpoint TrimRightByte (s : string) (c : ascii) : string :=
  match s with
  | EmptyString => EmptyString
  | String d rest =>
      match TrimRightByte rest c with
      | EmptyString => if Ascii.eqb d c then EmptyString else String d EmptyString
      | rest' => String d rest'
      end
  end.

Definition splitRule (line : string) : option (string * list string) :=
  let line := skip_spaces (TrimRightByte line "013") in
  match line with
  | EmptyString => None
  | String c _ =>
      if Ascii.eqb c "#" then None
      else if HasPrefix line (String backslash "#") then None
      else
        '(pattern, after) ← scan_pattern false line;
        if String.eqb pattern "" then None
        else Some (pattern, scan_tokens (S (String.length after)) after)
  end.

(** ** Owners *)

Inductive OwnerType := OwnerUser | OwnerTeam | OwnerEmail | OwnerMalformed.

Record Owner := mkOwner { Token : string; owner_type : OwnerType; Name : string }.

Fixpoint CountByte (s : string) (c : ascii) : nat :=
  match s with
  | EmptyString => O
  | String d rest => ((if Ascii.eqb d c then 1 else 0) + CountByte rest c)%nat
  end.

Section owners.

(** [unicode.IsLetter] and [unicode.IsDigit] outside ASCII are the tables of the
    Unicode standard. *)
Context (unicode_letter unicode_digit : Z → bool).

Definition IsLetter (r : Z) : bool :=
  if r <? 128 then between 65 90 r || between 97 122 r else unicode_letter r.

Definition IsDigit (r : Z) : bool :=
  if r <? 128 then between 48 57 r else unicode_digit r.

Definition owner_rune (r : Z) : bool :=
  IsLetter r || IsDigit r || (r =? 45) || (r =? 95).

Definition validOwnerPart (value : string) : bool :=
  if String.eqb value "" then false else forallb owner_rune (decoded value).

Definition classifyOwner (token : string) : Owner :=
  if HasPrefix token "@" then
    let name := TrimPrefix token "@" in
    match Split name "/" with
    | [user] =>
        if validOwnerPart user then mkOwner token OwnerUser user
        else mkOwner token OwnerMalformed ""
    | [org; team] =>
        if validOwnerPart org && validOwnerPart team then mkOwner token OwnerTeam name
        else mkOwner token OwnerMalformed ""
    | _ => mkOwner token OwnerMalformed ""
    end
  else if (CountByte token "@" =? 1)%nat then
    match Cut token "@" with
    | Some (local, domain) =>
        if negb (String.eqb local "") && negb (String.eqb domain "") &&
           negb (ContainsByte token " " || ContainsByte token "/" ||
                 ContainsByte token "009")
        then mkOwner token OwnerEmail token
        else mkOwner token OwnerMalformed ""
    | None => mkOwner token OwnerMalformed ""
    end
  else mkOwner token OwnerMalformed "".

(** ** Rules *)

Record Rule := mkRule
  { Pattern : string; Line : Z; Owners : list Owner; rule_matcher : matcher }.

Record Match := mkMatch { m_Pattern : string; m_Line : Z; m_Owners : list Owner }.

(** [strings.ReplaceAll(s, "\r\n", "\n")]. *)
Fixpoint drop_cr (s : string) : string :=
  match s with
  | EmptyString => EmptyString
  | String c rest =>
      match rest with
      | String d _ =>
          if Ascii.eqb c "013" && Ascii.eqb d "010" then drop_cr rest
          else String c (drop_cr rest)
      | EmptyString => s
      end
  end.

Definition parse_line (index : nat) (line : string) : option Rule :=
  '(pattern, tokens) ← splitRule line;
  match compilePattern pattern with
  | Err _ => None
  | Ok m => Some (mkRule pattern (Z.of_nat index + 1) (classifyOwner <$> tokens) m)
  end.

Definition source_lines (source : string) : list string := Split (drop_cr source) "010".

Definition Parse (source : string) : list Rule :=
  omap (λ '(index, line), parse_line index line) (imap pair (source_lines source)).

Fixpoint resolve_go (result : option Match) (rules : list Rule) (path : string) :
    option Match :=
  match rules with
  | [] => result
  | r :: rules =>
      let result :=
        if MatchString (rule_matcher r) path
        then Some (mkMatch (Pattern r) (Line r) (Owners r))
        else result in
      resolve_go result rules path
  end.

Definition Resolve (rules : list Rule) (path : string) : option Match :=
  resolve_go None rules (TrimPrefix path "/").

End owners.

(** ** The matcher decides the language *)

#[local] Hint Constructors lang : core.

Lemma lang_star_cons_iff a r w :
  lang (Star a) (r :: w) ↔ ∃ u v, w = u ++ v ∧ lang a (r :: u) ∧ lang (Star a) v.
Proof.
  split.
  - inversion_clear 1; eauto.
  - intros (u & v & -> & Hu & Hv). by constructor.
Qed.

Lemma lang_cat_iff a b w :
  lang (Cat a b) w ↔ ∃ u v, w = u ++ v ∧ lang a u ∧ lang b v.
Proof. split; [inversion_clear 1; eauto|intros (? & ? & -> & ? & ?); eauto]. Qed.

Lemma lang_cat_cons a b r w :
  lang (Cat a b) (r :: w) ↔
    (∃ u v, w = u ++ v ∧ lang a (r :: u) ∧ lang b v) ∨ (lang a [] ∧ lang b (r :: w)).
Proof.
  rewrite lang_cat_iff. split.
  - intros ([|x u] & v & E & Hu & Hv); simplify_eq/=; [by right|left; eauto].
  - intros [(u & v & -> & Hu & Hv)|[Ha Hb]]; [by exists (r :: u), v|by exists [], (r :: w)].
Qed.

Lemma lang_alt_iff a b w : lang (Alt a b) w ↔ lang a w ∨ lang b w.
Proof. split; [inversion_clear 1; eauto|intros [?|?]; eauto]. Qed.

Lemma lang_void w : ¬ lang Void w.
Proof. inversion 1. Qed.

Lemma lang_eps_iff w : lang Eps w ↔ w = [].
Proof. split; [by inversion_clear 1|intros ->; constructor]. Qed.

Lemma lang_cls_iff p w : lang (Cls p) w ↔ ∃ r, w = [r] ∧ in_cls p r = true.
Proof. split; [inversion_clear 1; eauto|intros (? & -> & ?); eauto]. Qed.

Lemma nullable_lang e : nullable e = true ↔ lang e [].
Proof.
  induction e as [| |p|a IHa b IHb|a IHa b IHb|a IHa]; simpl.
  - by split; [|intros ?%lang_void].
  - by rewrite lang_eps_iff.
  - rewrite lang_cls_iff. by split; [|intros (? & ? & _)].
  - rewrite andb_true_iff, IHa, IHb, lang_cat_iff. split; [by intros []; exists [], []|].
    intros (u & v & E & Hu & Hv). symmetry in E. by apply app_nil in E as [-> ->].
  - by rewrite orb_true_iff, IHa, IHb, lang_alt_iff.
  - split; eauto.
Qed.

Lemma deriv_lang r e w : lang (deriv r e) w ↔ lang e (r :: w).
Proof.
  revert w. induction e as [| |p|a IHa b IHb|a IHa b IHb|a IHa]; intros w; simpl.
  - split; intros H; by inversion H.
  - split; intros H; by inversion H.
  - rewrite lang_cls_iff. destruct (in_cls p r) eqn:E.
    + rewrite lang_eps_iff. split; [intros ->; eauto|by intros (? & [= ? ->] & _)].
    + split; [by intros ?%lang_void|]. intros (? & [= <- ->] & ?); congruence.
  - rewrite lang_cat_cons, <- nullable_lang. destruct (nullable a).
    + rewrite lang_alt_iff, lang_cat_iff, IHb. setoid_rewrite IHa. naive_solver.
    + rewrite lang_cat_iff. setoid_rewrite IHa. naive_solver.
  - by rewrite !lang_alt_iff, IHa, IHb.
  - rewrite lang_star_cons_iff, lang_cat_iff. by setoid_rewrite IHa.
Qed.

Lemma full_match_lang e w : full_match e w = true ↔ lang e w.
Proof.
  revert e. induction w as [|r w IH]; intros e; simpl; [apply nullable_lang|].
  by rewrite IH, deriv_lang.
Qed.

Lemma search_lang e w : search e w = true ↔ ∃ u v, w = u ++ v ∧ lang e v.
Proof.
  induction w as [|r w IH]; simpl; rewrite orb_true_iff.
  - rewrite nullable_lang. split.
    + intros [H|H]; [by exists [], []|done].
    + intros (u & v & E & H). symmetry in E. apply app_nil in E as [-> ->]. by left.
  - rewrite full_match_lang, deriv_lang, IH. split.
    + intros [H|(u & v & -> & H)]; [by exists [], (r :: w)|by exists (r :: u), v].
    + intros ([|x u] & v & E & H); simplify_eq/=; [by left|right; eauto].
Qed.

Lemma lang_star_cls p w : lang (Star (Cls p)) w ↔ Forall (λ r, in_cls p r = true) w.
Proof.
  induction w as [|r w IH]; [split; eauto|].
  rewrite lang_star_cons_iff, Forall_cons, <- IH. setoid_rewrite lang_cls_iff. split.
  - intros (u & v & -> & (x & [= -> ->] & Hp) & Hv). done.
  - intros [Hr Hw]. exists [], w. eauto.
Qed.

Lemma forall_not_slash w : Forall (λ r, in_cls NotSlash r = true) w ↔ slash ∉ w.
Proof.
  rewrite Forall_forall. unfold in_cls. split.
  - intros H Hin. by specialize (H _ Hin).
  - intros H x Hx. apply negb_true_iff, Z.eqb_neq. by intros ->.
Qed.

Lemma forall_not_newline w : Forall (λ r, in_cls NotNewline r = true) w ↔ newline ∉ w.
Proof.
  rewrite Forall_forall. unfold in_cls. split.
  - intros H Hin. by specialize (H _ Hin).
  - intros H x Hx. apply negb_true_iff, Z.eqb_neq. by intros ->.
Qed.

Lemma lang_one x w : lang (Cls (One x)) w ↔ w = [x].
Proof.
  rewrite lang_cls_iff. simpl. setoid_rewrite Z.eqb_eq.
  split; [by intros (? & -> & ->)|intros ->; eauto].
Qed.

Lemma lang_not_slash w : lang (Cls NotSlash) w ↔ ∃ r, w = [r] ∧ r ≠ slash.
Proof.
  rewrite lang_cls_iff. simpl. by setoid_rewrite negb_true_iff; setoid_rewrite Z.eqb_neq.
Qed.

(** ** What a pattern owns *)

(** Path components, each with its closing slash. *)
Definition directories (segs : list (list Z)) : list Z :=
  mjoin ((λ seg, seg ++ [slash]) <$> segs).

Definition component (seg : list Z) : Prop := seg ≠ [] ∧ slash ∉ seg.

(** A list of pattern elements covers a piece of a path: a literal covers
    itself, [?] one character and [*] any characters of one component, [**/]
    any number of whole components, and a final [**] everything on the line. *)
Inductive covers : list glob → list Z → Prop :=
  | covers_nil : covers [] []
  | covers_rune r gs w : covers gs w → covers (GRune r :: gs) (r :: w)
  | covers_question r gs w : r ≠ slash → covers gs w → covers (GQuestion :: gs) (r :: w)
  | covers_star u gs w : slash ∉ u → covers gs w → covers (GStar :: gs) (u ++ w)
  | covers_all u gs w : newline ∉ u → covers gs w → covers (GAll :: gs) (u ++ w)
  | covers_deep segs gs w :
      Forall component segs → covers gs w → covers (GDeep :: gs) (directories segs ++ w).

(** A pattern owns a path when it covers a part of it that starts at the root
    (or, for a pattern that is not anchored, after any slash) and reaches to its
    end (or, for a pattern that owns subtrees, to a slash). *)
Definition owns (start : bool) (gs : list glob) (subtree : bool) (path : list Z) : Prop :=
  ∃ before here below, path = before ++ here ++ below ∧ covers gs here ∧
    (before = [] ∨ start = false ∧ last before = Some slash) ∧
    (below = [] ∨ subtree = true ∧ ∃ rest, below = slash :: rest ∧ newline ∉ rest).

Lemma lang_component w :
  lang (Cat (Plus (Cls NotSlash)) (Cls (One slash))) w ↔
    ∃ seg, component seg ∧ w = seg ++ [slash].
Proof.
  unfold Plus, component. rewrite lang_cat_iff. setoid_rewrite lang_one.
  setoid_rewrite lang_cat_iff. setoid_rewrite lang_star_cls.
  setoid_rewrite forall_not_slash. setoid_rewrite lang_not_slash. split.
  - intros (u & v & -> & (a & b & -> & (r & -> & Hr) & Hb) & ->).
    exists ([r] ++ b). split; [|done]. split; [done|]. set_solver.
  - intros (seg & [Hne Hs] & ->). exists seg, [slash]. split; [done|]. split; [|done].
    destruct seg as [|r seg]; [done|]. exists [r], seg. split; [done|].
    split; [exists r|]; set_solver.
Qed.

Lemma directories_cons seg segs :
  directories (seg :: segs) = seg ++ slash :: directories segs.
Proof. unfold directories. cbn. by rewrite <- (assoc_L (++)). Qed.

Lemma lang_deep w :
  lang (glob_regex GDeep) w ↔ ∃ segs, Forall component segs ∧ w = directories segs.
Proof.
  cbn [glob_regex]. split.
  - remember (Star _) as e eqn:He. induction 1 as [| | | | | |a r u v Ha _ Hs IH];
      simplify_eq.
    + by exists [].
    + destruct (IH eq_refl) as (segs & Hsegs & ->).
      apply lang_component in Ha as (seg & Hseg & E).
      exists (seg :: segs). split; [by constructor|].
      rewrite directories_cons, app_comm_cons, E, <- (assoc_L (++)). done.
  - intros (segs & Hsegs & ->). induction Hsegs as [|seg segs Hseg Hsegs IH]; [constructor|].
    rewrite directories_cons. destruct seg as [|r seg]; [by destruct Hseg|].
    rewrite <- app_comm_cons. apply lang_star_cons_iff.
    exists (seg ++ [slash]), (directories segs). split; [by rewrite <- (assoc_L (++))|].
    split; [|done]. apply lang_component. by exists (r :: seg).
Qed.

Lemma lang_subtree w :
  lang subtree_regex w ↔ w = [] ∨ ∃ rest, w = slash :: rest ∧ newline ∉ rest.
Proof.
  unfold subtree_regex, Opt. rewrite lang_alt_iff, lang_eps_iff, lang_cat_iff.
  setoid_rewrite lang_one. setoid_rewrite lang_star_cls.
  setoid_rewrite forall_not_newline. split.
  - intros [(? & v & -> & -> & Hv)| ->]; [right; by exists v|by left].
  - intros [->|(v & -> & Hv)]; [by right|left; by exists [slash], v].
Qed.

(** The expression of one element followed by [e]. *)
Lemma lang_glob_cons g gs w :
  covers (g :: gs) w ↔ ∃ u v, w = u ++ v ∧ lang (glob_regex g) u ∧ covers gs v.
Proof.
  split.
  - inversion_clear 1 as [|r ? v|r ? v|u ? v|u ? v|segs ? v]; cbn [glob_regex].
    + exists [r], v. split; [done|]. split; [by apply lang_one|done].
    + exists [r], v. split; [done|]. split; [apply lang_not_slash; eauto|done].
    + exists u, v. split; [done|]. split; [by apply lang_star_cls, forall_not_slash|done].
    + exists u, v. split; [done|]. split; [by apply lang_star_cls, forall_not_newline|done].
    + exists (directories segs), v. split; [done|].
      split; [apply (lang_deep (directories segs)); eauto|done].
  - intros (u & v & -> & Hu & Hv). destruct g; cbn [glob_regex] in Hu.
    + apply lang_one in Hu as ->. by constructor.
    + apply lang_star_cls, forall_not_slash in Hu. by constructor.
    + apply lang_not_slash in Hu as (r & -> & Hr). by constructor.
    + apply lang_star_cls, forall_not_newline in Hu. by constructor.
    + apply (lang_deep u) in Hu as (segs & Hs & ->). by constructor.
Qed.

Lemma covers_nil_iff w : covers [] w ↔ w = [].
Proof. split; [by inversion_clear 1|intros ->; constructor]. Qed.

Lemma lang_expression gs subtree w :
  lang (expression gs subtree) w ↔
    ∃ here below, w = here ++ below ∧ covers gs here ∧
      (below = [] ∨ subtree = true ∧ ∃ rest, below = slash :: rest ∧ newline ∉ rest).
Proof.
  revert w. induction gs as [|g gs IH]; intros w; cbn [expression foldr].
  - setoid_rewrite covers_nil_iff. destruct subtree;
      [rewrite lang_subtree|rewrite lang_eps_iff]; split.
    + intros H. exists [], w. tauto.
    + intros (? & b & -> & -> & [?|[_ ?]]); auto.
    + intros ->. exists [], []. auto.
    + by intros (? & b & -> & -> & [->|[? _]]).
  - rewrite lang_cat_iff. setoid_rewrite lang_glob_cons. split.
    + intros (u & v & -> & Hu & (here & below & -> & Hh & Hb)%IH).
      exists (u ++ here), below. rewrite (assoc_L (++)). split; [done|].
      split; [by exists u, here|done].
    + intros (h & below & -> & (u & v & -> & Hu & Hv) & Hb).
      exists u, (v ++ below). rewrite (assoc_L (++)). split; [done|]. split; [done|].
      apply IH. by exists v, below.
Qed.

Lemma lang_any_before_slash w :
  lang any_before_slash w ↔ ∃ u, w = u ++ [slash] ∧ newline ∉ u.
Proof.
  unfold any_before_slash. rewrite lang_cat_iff. setoid_rewrite lang_star_cls.
  setoid_rewrite forall_not_newline. setoid_rewrite lang_one. split.
  - intros (u & ? & -> & Hu & ->). by exists u.
  - intros (u & -> & Hu). by exists u, [slash].
Qed.

(** The prefix of an expression that is not anchored holds at the start of the
    text and after every slash, whatever precedes it. *)
Lemma search_after_slash e w :
  search (Cat any_before_slash e) w = true ↔
    ∃ before rest, w = before ++ rest ∧ last before = Some slash ∧ lang e rest.
Proof.
  rewrite search_lang. split.
  - intros (u & v & -> & (a & b & -> & (c & -> & _)%lang_any_before_slash & Hb)%lang_cat_iff).
    exists ((u ++ c) ++ [slash]), b. rewrite last_snoc, <- !(assoc_L (++)). done.
  - intros (before & rest & -> & [l ->]%last_Some & He).
    exists l, (slash :: rest). split; [by rewrite <- (assoc_L (++))|].
    apply lang_cat_iff. exists [slash], rest. split; [done|]. split; [|done].
    apply lang_any_before_slash. exists []. split; [done|set_solver].
Qed.

Lemma MatchString_owns start gs subtree path :
  MatchString (mkMatcher start (expression gs subtree)) path = true ↔
    owns start gs subtree (decoded path).
Proof.
  unfold MatchString, owns. cbn [begin body]. destruct start.
  - rewrite full_match_lang, lang_expression. split.
    + intros (h & b & -> & Hh & Hb). exists [], h, b. auto.
    + intros (? & h & b & -> & Hh & [->|[? _]] & Hb); [|done]. by exists h, b.
  - rewrite orb_true_iff, full_match_lang, search_after_slash.
    setoid_rewrite lang_expression. split.
    + intros [(h & b & -> & Hh & Hb)|(u & ? & -> & Hu & h & b & -> & Hh & Hb)].
      * exists [], h, b. split; [done|]. split; [done|]. auto.
      * exists u, h, b. split; [done|]. split; [done|]. auto.
    + intros (u & h & b & -> & Hh & [->|[_ Hu]] & Hb).
      * left. by exists h, b.
      * right. exists u, (h ++ b). split; [done|]. split; [done|]. by exists h, b.
Qed.

(** ** Errors of the compiler *)

(** Does the text end inside an escape? *)
Fixpoint ends_escaped (escaped : bool) (s : string) : bool :=
  match s with
  | EmptyString => escaped
  | String c rest =>
      if escaped then ends_escaped false rest
      else ends_escaped (Ascii.eqb c backslash) rest
  end.

Lemma star_run_spec s n after : star_run s = (n, after) →
  (String.length s = n + String.length after)%nat ∧
  ends_escaped false s = ends_escaped false after.
Proof.
  revert n. induction s as [|c s IH]; intros n; cbn [star_run]; [by intros [= <- <-]|].
  destruct (Ascii.eqb_spec c "*") as [->|_]; [|by intros [= <- <-]].
  destruct (star_run s) as [k a]. intros [= <- <-].
  destruct (IH k eq_refl) as [IH1 IH2]. cbn. rewrite IH1. auto.
Qed.

Lemma star_run_pos s : (0 < (star_run (String "*" s)).1)%nat.
Proof. cbn. destruct (star_run s). cbn. lia. Qed.

(** The fuel is enough, and the only error of the loop is the escape that ends
    the pattern. *)
Lemma pieces_go_spec fuel : ∀ prev s, (String.length s < fuel)%nat →
  match pieces_go fuel prev s with
  | Ok _ => ends_escaped false s = false
  | Err e => e = ErrDanglingEscape ∧ ends_escaped false s = true
  end.
Proof.
  induction fuel as [|fuel IH]; intros prev s Hf; [lia|].
  assert (Hrec : ∀ prev' s' p, (String.length s' < fuel)%nat →
    ends_escaped false s = ends_escaped false s' →
    match (ps ← pieces_go fuel prev' s'; mret (p :: ps)) with
    | Ok _ => ends_escaped false s = false
    | Err e => e = ErrDanglingEscape ∧ ends_escaped false s = true
    end).
  { intros prev' s' p Hs' ->. specialize (IH prev' s' Hs').
    by destruct (pieces_go fuel prev' s'). }
  destruct s as [|c rest]; [done|]. cbn [pieces_go].
  destruct (Ascii.eqb_spec c backslash) as [->|Hb].
  { destruct rest as [|d rest]; [done|]. apply Hrec; [cbn in Hf; lia|done]. }
  assert (Hc : ends_escaped false (String c rest) = ends_escaped false rest).
  { cbn. apply Ascii.eqb_neq in Hb. by rewrite Hb. }
  destruct (Ascii.eqb_spec c "*") as [->|Hs].
  2: { destruct (Ascii.eqb c "?"); (apply Hrec; [cbn in Hf; lia|done]). }
  pose proof (star_run_pos rest) as Hpos.
  destruct (star_run (String "*" rest)) as [n after] eqn:Erun. cbn [fst] in Hpos.
  destruct (star_run_spec _ _ _ Erun) as [Hlen He].
  assert (Hplain := Hrec (Some "*"%char) after PStar ltac:(lia) He).
  destruct (_ && _); [|done]. destruct after as [|d after]; [done|].
  destruct (Ascii.eqb_spec d "/") as [->|]; [|done].
  apply Hrec; [cbn [String.length] in *; lia|by rewrite He].
Qed.

Lemma pieces_spec s :
  match pieces s with
  | Ok _ => ends_escaped false s = false
  | Err e => e = ErrDanglingEscape ∧ ends_escaped false s = true
  end.
Proof. apply pieces_go_spec. lia. Qed.

(** ** Resolution *)

Section resolution.
Context (unicode_letter unicode_digit : Z → bool).

Lemma resolve_go_snoc res rules r path :
  resolve_go res (rules ++ [r]) path =
    if MatchString (rule_matcher r) path
    then Some (mkMatch (Pattern r) (Line r) (Owners r))
    else resolve_go res rules path.
Proof. revert res. induction rules as [|r' rules IH]; intros res; cbn; [done|apply IH]. Qed.

(** The rules of the first lines do not depend on the lines below them. *)
Definition parse_lines (lines : list string) : list Rule :=
  omap (λ '(index, line), parse_line unicode_letter unicode_digit index line)
    (imap pair lines).

Lemma parse_lines_snoc lines line :
  parse_lines (lines ++ [line]) = parse_lines lines ++
    match parse_line unicode_letter unicode_digit (length lines) line with
    | Some r => [r]
    | None => []
    end.
Proof.
  unfold parse_lines. rewrite imap_app, omap_app. cbn. rewrite Nat.add_0_r.
  by destruct (parse_line _ _ _ _).
Qed.

(** Line [i] has a valid rule that owns [path], with the given result. *)
Definition line_owns (lines : list string) (path : string) (i : nat) (m : Match) : Prop :=
  ∃ line pattern tokens start core subtree ps gs,
    lines !! i = Some line ∧ splitRule line = Some (pattern, tokens) ∧
    prepare pattern = Ok (start, core, subtree) ∧ pieces core = Ok ps ∧
    globs ps = Some gs ∧ owns start gs subtree (decoded path) ∧
    m = mkMatch pattern (Z.of_nat i + 1)
          (classifyOwner unicode_letter unicode_digit <$> tokens).

Lemma compile_ok_iff pattern m :
  compilePattern pattern = Ok m ↔
    ∃ start core subtree ps gs, prepare pattern = Ok (start, core, subtree) ∧
      pieces core = Ok ps ∧ globs ps = Some gs ∧
      m = mkMatcher start (expression gs subtree).
Proof.
  unfold compilePattern. rewrite bind_ok. split.
  - intros ([[start core] subtree] & Hp & (ps & Hps & Hg)%bind_ok).
    destruct (globs ps) as [gs|] eqn:Eg; [|done].
    injection Hg as <-. by exists start, core, subtree, ps, gs.
  - intros (start & core & subtree & ps & gs & Hp & Hps & Hg & ->).
    exists (start, core, subtree). split; [done|]. apply bind_ok. exists ps.
    by rewrite Hg.
Qed.

Lemma parse_line_owns lines path i line r :
  lines !! i = Some line →
  parse_line unicode_letter unicode_digit i line = Some r →
  (MatchString (rule_matcher r) path = true ↔
   line_owns lines path i (mkMatch (Pattern r) (Line r) (Owners r))).
Proof.
  intros Hl Hr. unfold parse_line in Hr.
  apply bind_Some in Hr as ([pattern tokens] & Hs & Hr).
  destruct (compilePattern pattern) as [m|] eqn:Hc; simplify_eq/=.
  apply compile_ok_iff in Hc as (st & core & sub & ps & gs & Hp & Hps & Hg & ->).
  rewrite MatchString_owns. split.
  - intros Ho. exists line, pattern, tokens, st, core, sub, ps, gs. by rewrite <- Hl.
  - intros (? & ? & ? & ? & ? & ? & ? & ? & ? & ? & Hp' & Hps' & ? & Ho & ?). simplify_eq.
    rewrite Hp in Hp'. simplify_eq. rewrite Hps in Hps'. by simplify_eq.
Qed.

Lemma line_owns_parse lines path i m : line_owns lines path i m → ∃ line r,
  lines !! i = Some line ∧ parse_line unicode_letter unicode_digit i line = Some r.
Proof.
  intros (line & pattern & tokens & st & core & sub & ps & gs & Hl & Hs & Hp & Hps & Hg & _).
  exists line. unfold parse_line. rewrite Hs. cbn.
  rewrite (proj2 (compile_ok_iff pattern (mkMatcher st (expression gs sub)))); [eauto|]. by exists st, core, sub, ps, gs.
Qed.

Lemma parse_line_match lines path i line r m :
  lines !! i = Some line → parse_line unicode_letter unicode_digit i line = Some r →
  line_owns lines path i m → m = mkMatch (Pattern r) (Line r) (Owners r).
Proof.
  intros Hl Hr (? & pattern & tokens & ? & ? & ? & ? & ? & Hl' & Hs & _ & _ & _ & _ & ->).
  simplify_eq. unfold parse_line in Hr. rewrite Hs in Hr. cbn in Hr.
  by destruct (compilePattern pattern); simplify_eq/=.
Qed.

Lemma line_owns_app lines more path i m : (i < length lines)%nat →
  (line_owns (lines ++ more) path i m ↔ line_owns lines path i m).
Proof. intros Hi. unfold line_owns. by setoid_rewrite (lookup_app_l lines more i Hi). Qed.

Lemma line_owns_lt lines path i m : line_owns lines path i m → (i < length lines)%nat.
Proof.
  intros (? & ? & ? & ? & ? & ? & ? & ? & Hl & _). by apply lookup_lt_Some in Hl.
Qed.

(** The last line that owns the path decides. *)
Lemma resolve_lines lines path :
  match resolve_go None (parse_lines lines) path with
  | Some m => ∃ i, line_owns lines path i m ∧
      ∀ j m', line_owns lines path j m' → (j ≤ i)%nat
  | None => ∀ j m', ¬ line_owns lines path j m'
  end.
Proof.
  induction lines as [|line lines IH] using rev_ind.
  { by intros j m ?%line_owns_lt%Nat.nlt_0_r. }
  assert (Hold : ∀ j m, line_owns (lines ++ [line]) path j m →
    j = length lines ∨ line_owns lines path j m).
  { intros j m H. pose proof (line_owns_lt _ _ _ _ H) as Hj. rewrite length_app in Hj.
    cbn in Hj. destruct (decide (j = length lines)); [by left|right].
    apply line_owns_app in H; [done|lia]. }
  rewrite parse_lines_snoc.
  assert (Hlast : (lines ++ [line]) !! length lines = Some line)
    by (by rewrite lookup_app_r, Nat.sub_diag by lia).
  assert (Hkeep : (∀ m, ¬ line_owns (lines ++ [line]) path (length lines) m) →
    match resolve_go None (parse_lines lines) path with
    | Some m => ∃ i, line_owns (lines ++ [line]) path i m ∧
        ∀ j m', line_owns (lines ++ [line]) path j m' → (j ≤ i)%nat
    | None => ∀ j m', ¬ line_owns (lines ++ [line]) path j m'
    end).
  { intros Hno. destruct (resolve_go _ _ _) as [m|].
    - destruct IH as (i & Hi & Hmax). exists i. split.
      + apply line_owns_app; [by apply line_owns_lt in Hi|done].
      + intros j m' H. destruct (Hold j m' H) as [->|]; [by apply Hno in H|eauto].
    - intros j m' H. destruct (Hold j m' H) as [->|]; [by apply Hno in H|by eapply IH]. }
  destruct (parse_line _ _ (length lines) line) as [r|] eqn:Hr.
  - pose proof (parse_line_owns _ path _ _ _ Hlast Hr) as Hiff.
    rewrite resolve_go_snoc. destruct (MatchString _ _) eqn:Hm.
    + exists (length lines). split; [by apply Hiff|].
      intros j m' ?%line_owns_lt. rewrite length_app in *. cbn in *. lia.
    + apply Hkeep. intros m H.
      assert (m = mkMatch (Pattern r) (Line r) (Owners r)) as ->
        by (eapply parse_line_match; eauto).
      apply Hiff in H. congruence.
  - rewrite app_nil_r. apply Hkeep. intros m (line' & r' & Hl' & Hr')%line_owns_parse.
    simplify_eq.
Qed.

End resolution.

(** ** Round trip of a line *)

Definition no_space (s : string) : bool :=
  negb (ContainsByte s " " || ContainsByte s "009" || ContainsByte s "011" ||
        ContainsByte s "012").

Lemma no_space_cons c s :
  no_space (String c s) = negb (isSpace c) && no_space s.
Proof.
  unfold no_space, isSpace. cbn [ContainsByte].
  destruct (Ascii.eqb c " "), (Ascii.eqb c "009"), (Ascii.eqb c "011"),
    (Ascii.eqb c "012"), (ContainsByte s " "), (ContainsByte s "009"),
    (ContainsByte s "011"), (ContainsByte s "012"); done.
Qed.

(** No space outside an escape. *)
Fixpoint unspaced (escaped : bool) (s : string) : bool :=
  match s with
  | EmptyString => true
  | String c rest =>
      if escaped then unspaced false rest
      else negb (isSpace c) && unspaced (Ascii.eqb c backslash) rest
  end.

(** A pattern that can stand on a line by itself. *)
Definition pattern_ok (p : string) : bool :=
  match p with
  | EmptyString => false
  | String c _ => negb (Ascii.eqb c "#")
  end && negb (HasPrefix p (String backslash "#")) && unspaced false p &&
  negb (ends_escaped false p).

Definition token_ok (t : string) : bool :=
  match t with
  | EmptyString => false
  | String c _ => negb (Ascii.eqb c "#")
  end && no_space t.

(** The text after the pattern: each token behind one blank. *)
Fixpoint render_tokens (tokens : list string) : string :=
  match tokens with
  | [] => EmptyString
  | t :: tokens => String " " (t +:+ render_tokens tokens)
  end.

Definition render_rule (pattern : string) (tokens : list string) : string :=
  pattern +:+ render_tokens tokens.

Lemma backslash_not_space : isSpace backslash = false.
Proof. done. Qed.

Lemma scan_pattern_app escaped p after :
  unspaced escaped p = true → ends_escaped escaped p = false →
  match after with EmptyString => True | String c _ => isSpace c = true end →
  scan_pattern escaped (p +:+ after) = Some (p, after).
Proof.
  revert escaped. induction p as [|c p IH]; intros escaped Hu He Ha.
  - cbn in He. subst escaped. destruct after as [|c after]; [done|].
    rewrite append_empty. cbn [scan_pattern]. rewrite Ha.
    destruct (Ascii.eqb_spec c backslash) as [->|]; [done|done].
  - rewrite append_cons. cbn [scan_pattern unspaced ends_escaped] in *. destruct escaped.
    + by rewrite (IH false).
    + apply andb_true_iff in Hu as [Hs%negb_true_iff Hu]. rewrite Hs.
      destruct (Ascii.eqb c backslash); by rewrite IH.
Qed.

Lemma scan_pattern_inv escaped s p after :
  scan_pattern escaped s = Some (p, after) →
  s = p +:+ after ∧ unspaced escaped p = true ∧ ends_escaped escaped p = false.
Proof.
  revert escaped p after.
  induction s as [|c s IH]; intros escaped p after; cbn [scan_pattern].
  - destruct escaped; [done|]. by intros [= <- <-].
  - destruct escaped; [|destruct (Ascii.eqb c backslash) eqn:Eb;
      [|destruct (isSpace c) eqn:Es]].
    3: by intros [= <- <-].
    all: intros ([q a] & (-> & Hu & He)%IH & [= <- <-])%bind_Some.
    all: rewrite append_cons; cbn [unspaced ends_escaped]; try rewrite Eb; try rewrite Es;
      try done.
    apply Ascii.eqb_eq in Eb as ->. by rewrite backslash_not_space.
Qed.

Lemma scan_word_app w after :
  no_space w = true →
  match after with EmptyString => True | String c _ => isSpace c = true end →
  scan_word (w +:+ after) = (w, after).
Proof.
  intros Hw Ha. induction w as [|c w IH].
  - rewrite append_empty. destruct after; [done|]. cbn. by rewrite Ha.
  - rewrite append_cons. rewrite no_space_cons in Hw.
    apply andb_true_iff in Hw as [Hc%negb_true_iff Hw]. cbn. by rewrite Hc, IH.
Qed.

Lemma skip_spaces_nonspace c s : isSpace c = false → skip_spaces (String c s) = String c s.
Proof. intros H. cbn. by rewrite H. Qed.

Lemma render_tokens_after tokens :
  match render_tokens tokens with EmptyString => True | String c _ => isSpace c = true end.
Proof. by destruct tokens. Qed.

Lemma append_length (a b : string) :
  String.length (a +:+ b) = (String.length a + String.length b)%nat.
Proof. induction a as [|c a IH]; [done|]. rewrite append_cons. cbn. by rewrite IH. Qed.

Lemma scan_tokens_render tokens fuel :
  forallb token_ok tokens = true → (String.length (render_tokens tokens) < fuel)%nat →
  scan_tokens fuel (render_tokens tokens) = tokens.
Proof.
  revert fuel. induction tokens as [|t tokens IH]; intros [|fuel] Ht Hf; try lia; [done|].
  cbn [forallb] in Ht. apply andb_true_iff in Ht as [Ht Hts].
  cbn [render_tokens String.length] in Hf. rewrite append_length in Hf.
  unfold token_ok in Ht. apply andb_true_iff in Ht as [Hc Hs].
  destruct t as [|c t]; [done|]. pose proof Hs as Hs'. rewrite no_space_cons in Hs'.
  apply andb_true_iff in Hs' as [Hsp%negb_true_iff _]. apply negb_true_iff in Hc.
  cbn [scan_tokens render_tokens]. rewrite append_cons.
  change (skip_spaces (String " " ?s)) with (skip_spaces s).
  rewrite skip_spaces_nonspace, Hc, <- append_cons, scan_word_app
    by (done || apply render_tokens_after).
  f_equal. apply IH; [done|]. cbn in Hf. lia.
Qed.

Lemma TrimRightByte_id s c : HasSuffixByte s c = false → TrimRightByte s c = s.
Proof.
  induction s as [|d s IH]; [done|]. intros H. cbn [TrimRightByte].
  destruct s as [|e s].
  - cbn in H |- *. by rewrite H.
  - rewrite IH by exact H. done.
Qed.

Lemma HasPrefix_cons c s d p :
  HasPrefix (String c s) (String d p) = Ascii.eqb c d && HasPrefix s p.
Proof.
  unfold HasPrefix. cbn [String.prefix]. destruct (ascii_dec d c) as [->|Hne].
  - by rewrite Ascii.eqb_refl.
  - by rewrite (proj2 (Ascii.eqb_neq c d)) by congruence.
Qed.

(** A rule written as its pattern and its owner tokens, each behind a blank,
    is split back into exactly that pattern and those tokens. *)
Theorem splitRule_roundtrip pattern tokens :
  pattern_ok pattern = true → forallb token_ok tokens = true →
  HasSuffixByte (render_rule pattern tokens) "013" = false →
  splitRule (render_rule pattern tokens) = Some (pattern, tokens).
Proof.
  intros Hp Ht Hcr. unfold splitRule. rewrite TrimRightByte_id by done.
  destruct pattern as [|c p]; [done|]. unfold pattern_ok in Hp.
  apply andb_true_iff in Hp as [[[Hc%negb_true_iff Hpre%negb_true_iff]%andb_true_iff
    Hu]%andb_true_iff He%negb_true_iff].
  assert (Hsp : isSpace c = false) by (by cbn in Hu; apply andb_true_iff in Hu as [?%negb_true_iff _]).
  unfold render_rule. rewrite append_cons, skip_spaces_nonspace, Hc, <- append_cons by done.
  destruct (HasPrefix (String c p +:+ _) _) eqn:Epre.
  { rewrite append_cons, HasPrefix_cons in Epre. rewrite HasPrefix_cons in Hpre.
    destruct (Ascii.eqb_spec c backslash) as [->|]; [|done]. destruct p as [|d p]; [done|].
    rewrite append_cons, HasPrefix_cons in Epre. rewrite HasPrefix_cons in Hpre.
    destruct (Ascii.eqb d "#"); [|by rewrite andb_false_r in Epre]. by destruct p. }
  rewrite scan_pattern_app by (done || apply render_tokens_after).
  cbn [mbind option_bind]. rewrite scan_tokens_render by (done || lia). done.
Qed.

Lemma splitRule_roundtrip_witness :
  splitRule (render_rule "/apps/a\ b" ["@org/team"; "x@y.z"]) =
    Some ("/apps/a\ b", ["@org/team"; "x@y.z"]).
Proof. apply splitRule_roundtrip; vm_compute; reflexivity. Defined.

(** ** Well-formed rules *)

Lemma skip_spaces_head s : match skip_spaces s with
  EmptyString => True | String c _ => isSpace c = false end.
Proof.
  induction s as [|c s IH]; [done|]. cbn. destruct (isSpace c) eqn:E; [done|]. by rewrite E.
Qed.

Lemma scan_word_no_space s : no_space (scan_word s).1 = true.
Proof.
  induction s as [|c s IH]; [done|]. cbn. destruct (isSpace c) eqn:E; [done|].
  destruct (scan_word s) as [w a]. cbn [fst] in *. by rewrite no_space_cons, E, IH.
Qed.

Lemma scan_tokens_ok fuel s : forallb token_ok (scan_tokens fuel s) = true.
Proof.
  revert s. induction fuel as [|fuel IH]; intros s; [done|]. cbn [scan_tokens].
  pose proof (skip_spaces_head s) as Hc. destruct (skip_spaces s) as [|c s'] eqn:Es; [done|].
  destruct (Ascii.eqb c "#") eqn:Eh; [done|].
  pose proof (scan_word_no_space (String c s')) as Hw. cbn [scan_word] in *. rewrite Hc in *.
  destruct (scan_word s') as [w a]. cbn [forallb fst token_ok] in *.
  unfold token_ok. by rewrite Eh, Hw, IH.
Qed.

Definition owner_wf (o : Owner) : Prop :=
  token_ok (Token o) = true ∧
  match owner_type o with
  | OwnerUser => Token o = "@" +:+ Name o ∧ ContainsByte (Name o) "/" = false
  | OwnerTeam => Token o = "@" +:+ Name o ∧ ∃ org team, Split (Name o) "/" = [org; team] ∧
      org ≠ "" ∧ team ≠ ""
  | OwnerEmail => Token o = Name o ∧ CountByte (Name o) "@" = 1%nat ∧
      ContainsByte (Name o) "/" = false
  | OwnerMalformed => Name o = ""
  end.

Definition rule_wf (lines : nat) (r : Rule) : Prop :=
  1 ≤ Line r ≤ Z.of_nat lines ∧ pattern_ok (Pattern r) = true ∧ Forall owner_wf (Owners r).

Lemma Split_single s c p : Split s c = [p] → p = s ∧ ContainsByte s c = false.
Proof.
  revert p. induction s as [|d s IH]; intros p; cbn; [by intros [= <-]|].
  destruct (Ascii.eqb d c); cbn.
  - destruct (Split s c) eqn:E; [|done]. exfalso. revert E. destruct s; [done|]. cbn.
    destruct (Ascii.eqb _ _); [done|]. by destruct (Split s c).
  - destruct (Split s c) as [|q [|]] eqn:E; [|by intros [= <-]; destruct (IH q eq_refl) as [-> ->]|done].
    exfalso. revert E. destruct s; [done|]. cbn.
    destruct (Ascii.eqb _ _); [done|]. by destruct (Split s c).
Qed.

Section well_formed.
Context (unicode_letter unicode_digit : Z → bool).

Lemma validOwnerPart_nonempty s : validOwnerPart unicode_letter unicode_digit s = true → s ≠ "".
Proof. by intros H ->. Qed.

Lemma classifyOwner_wf token :
  token_ok token = true → owner_wf (classifyOwner unicode_letter unicode_digit token).
Proof.
  intros Ht. unfold classifyOwner, owner_wf. destruct (HasPrefix token "@") eqn:Ep.
  - pose proof (HasPrefix_inv _ _ Ep) as Htok.
    destruct (Split (TrimPrefix token "@") "/") as [|user [|team [|]]] eqn:Es; try done.
    + destruct (validOwnerPart _ _ user); cbn; [|done].
      apply Split_single in Es as [-> Hs]. done.
    + destruct (_ && _) eqn:Ev; cbn; [|done]. apply andb_true_iff in Ev as [Ho Hm].
      do 2 (split; [done|]). exists user, team.
      split; [done|]. split; by eapply validOwnerPart_nonempty.
  - destruct (Nat.eqb_spec (CountByte token "@") 1) as [Hc|]; [|done].
    destruct (Cut token "@") as [[local domain]|]; [|done].
    destruct (_ && _) eqn:Ev; [|done]. cbn. to_props. done.
Qed.

Lemma splitRule_ok line pattern tokens : splitRule line = Some (pattern, tokens) →
  pattern_ok pattern = true ∧ forallb token_ok tokens = true.
Proof.
  unfold splitRule. pose proof (skip_spaces_head (TrimRightByte line "013")) as Hh.
  destruct (skip_spaces _) as [|c s]; [done|].
  destruct (Ascii.eqb c "#") eqn:Ec; [done|].
  destruct (HasPrefix _ _) eqn:Epre; [done|].
  intros ([p after] & Hscan & Hp)%bind_Some.
  destruct (String.eqb_spec p "") as [|Hne]; [done|]. injection Hp as <- <-.
  apply scan_pattern_inv in Hscan as (Heq & Hu & He).
  split; [|apply (scan_tokens_ok (S (String.length after)))]. unfold pattern_ok. rewrite Hu, He.
  destruct p as [|d p]; [done|]. rewrite append_cons in Heq. injection Heq as <- ->.
  rewrite Ec. destruct (HasPrefix (String c p) _) eqn:E; [|done].
  apply HasPrefix_inv in E. rewrite <- append_cons, E, append_assoc in Epre.
  by rewrite HasPrefix_app in Epre.
Qed.

Lemma parse_line_wf lines index line r : (index < lines)%nat →
  parse_line unicode_letter unicode_digit index line = Some r → rule_wf lines r.
Proof.
  intros Hi ([pattern tokens] & [Hp Ht]%splitRule_ok & Hr)%bind_Some.
  destruct (compilePattern pattern); [|done]. injection Hr as <-.
  unfold rule_wf; cbn. split; [lia|]. split; [done|].
  apply Forall_fmap, Forall_forall. intros t Hin. apply classifyOwner_wf.
  rewrite forallb_forall in Ht. apply Ht. by apply list_elem_of_In.
Qed.

Lemma parse_lines_wf lines :
  Forall (rule_wf (length lines)) (parse_lines unicode_letter unicode_digit lines) ∧
  StronglySorted Z.lt (Line <$> parse_lines unicode_letter unicode_digit lines).
Proof.
  induction lines as [|line lines [IH1 IH2]] using rev_ind; [by split; constructor|].
  rewrite parse_lines_snoc, fmap_app, length_app. cbn [length].
  assert (Hmono : ∀ r, rule_wf (length lines) r → rule_wf (length lines + 1) r).
  { intros r (? & ? & ?). unfold rule_wf. split; [lia|done]. }
  destruct (parse_line _ _ (length lines) line) as [r|] eqn:Hr.
  - split.
    + apply Forall_app. split; [by eapply Forall_impl|].
      constructor; [eapply parse_line_wf; [|done]; lia|constructor].
    + apply (sorted_app_lt _ _ (Z.of_nat (length lines))); [done|repeat constructor| |].
      * intros x (r' & -> & Hr')%list_elem_of_fmap.
        rewrite Forall_forall in IH1. apply IH1 in Hr' as (? & _). lia.
      * intros x Hx. cbn in Hx. apply list_elem_of_singleton in Hx as ->.
        apply bind_Some in Hr as ([p t] & _ & Hr). destruct (compilePattern p); [|done].
        injection Hr as <-. cbn. lia.
  - cbn. rewrite !app_nil_r. split; [by eapply Forall_impl|done].
Qed.

End well_formed.

(** ** Patterns that compile *)

Fixpoint is_ascii (s : string) : bool :=
  match s with
  | EmptyString => true
  | String c rest => (code c <? 128) && is_ascii rest
  end.

Definition piece_ascii (p : piece) : bool :=
  match p with PByte c => code c <? 128 | _ => true end.

Lemma is_ascii_app a b : is_ascii (a +:+ b) = is_ascii a && is_ascii b.
Proof.
  induction a as [|c a IH]; [done|]. rewrite append_cons. cbn [is_ascii].
  by rewrite IH, andb_assoc.
Qed.

Lemma star_run_ascii s : is_ascii s = true → is_ascii (star_run s).2 = true.
Proof.
  induction s as [|c s IH]; [done|]. intros H. cbn [star_run].
  destruct (Ascii.eqb c "*"); [|done]. cbn [is_ascii] in H.
  apply andb_true_iff in H as [_ H]. specialize (IH H). by destruct (star_run s).
Qed.

Lemma pieces_go_ascii fuel : ∀ prev s ps, is_ascii s = true →
  pieces_go fuel prev s = Ok ps → forallb piece_ascii ps = true.
Proof.
  induction fuel as [|fuel IH]; intros prev s ps Hs H; [done|].
  assert (Hrec : ∀ prev' s' p ps', is_ascii s' = true → piece_ascii p = true →
    (qs ← pieces_go fuel prev' s'; mret (p :: qs)) = Ok ps' → forallb piece_ascii ps' = true).
  { intros prev' s' p ps' Hs' Hp (qs & Hqs & [= <-])%bind_ok. cbn [forallb].
    by rewrite Hp, (IH _ _ _ Hs' Hqs). }
  destruct s as [|c rest]; [by injection H as <-|]. cbn [pieces_go] in H.
  pose proof Hs as Hs'. cbn [is_ascii] in Hs'. apply andb_true_iff in Hs' as [Hc Hr].
  destruct (Ascii.eqb c backslash).
  { destruct rest as [|d rest]; [done|]. cbn [is_ascii] in Hr.
    apply andb_true_iff in Hr as [Hd Hr]. by eapply Hrec in H. }
  destruct (Ascii.eqb c "*"); [|destruct (Ascii.eqb c "?"); by eapply Hrec in H].
  pose proof (star_run_ascii _ Hs) as Ha. destruct (star_run _) as [n after].
  cbn [snd] in Ha. destruct (_ && _); [|by eapply Hrec in H].
  destruct after as [|d after]; [by injection H as <-|].
  cbn [is_ascii] in Ha. pose proof Ha as [_ Ha']%andb_true_iff.
  destruct (Ascii.eqb d "/"); by eapply Hrec in H.
Qed.

Lemma literal_ascii s : is_ascii s = true → ∃ gs, literal s = Some gs.
Proof.
  intros H. unfold literal. enough (∃ rs, mapM id (runes s) = Some rs) as [rs ->] by (cbn; eauto).
  induction s as [|c s IH]; [by exists []|]. cbn [is_ascii] in H.
  apply andb_true_iff in H as [Hc Hs]. destruct (IH Hs) as [rs Hrs].
  exists (code c :: rs). cbn [runes]. rewrite Hc. cbn. by rewrite Hrs.
Qed.

Lemma globs_ascii ps lit : forallb piece_ascii ps = true → is_ascii lit = true →
  ∃ gs, globs_go lit ps = Some gs.
Proof.
  revert lit. induction ps as [|p ps IH]; intros lit Hp Hl; [by apply literal_ascii|].
  cbn [forallb] in Hp. apply andb_true_iff in Hp as [Hp Hps].
  destruct p as [c| | | |]; cbn [globs_go].
  { apply IH; [done|]. rewrite is_ascii_app, Hl. cbn in Hp |- *. by rewrite Hp. }
  all: destruct (literal_ascii lit Hl) as [l ->], (IH "" Hps eq_refl) as [rest Hrest];
    cbn; rewrite Hrest; eauto.
Qed.

Lemma TrimPrefix_ascii s p : is_ascii s = true → is_ascii (TrimPrefix s p) = true.
Proof.
  intros Hs. destruct (HasPrefix s p) eqn:E; [|by unfold TrimPrefix; rewrite E].
  apply HasPrefix_inv in E. rewrite E, is_ascii_app in Hs. by apply andb_true_iff in Hs as [_ ?].
Qed.

Lemma DropLast_ascii s : is_ascii s = true → is_ascii (DropLast s) = true.
Proof.
  induction s as [|c s IH]; [done|]. cbn [is_ascii DropLast].
  intros [Hc Hs]%andb_true_iff. destruct s; [done|]. cbn [is_ascii].
  rewrite Hc. by apply IH.
Qed.

(** The pattern between its outer slashes. *)
Definition core_of (pattern : string) : string :=
  TrimSuffixByte (TrimPrefix pattern "/") "/".

Lemma prepare_ok pattern start core subtree :
  prepare pattern = Ok (start, core, subtree) →
  HasPrefix pattern "!" = false ∧ hasUnescaped pattern "[" = false ∧
  hasUnescaped pattern "]" = false ∧ core = core_of pattern ∧ core_of pattern ≠ "".
Proof.
  unfold prepare, core_of, TrimSuffixByte, TrimPrefix. intros H.
  destruct (HasPrefix pattern "!"); [done|].
  destruct (hasUnescaped pattern "["), (hasUnescaped pattern "]"); try done.
  cbn [orb] in H. destruct (HasPrefix pattern "/"); cbn zeta in H;
    destruct (HasSuffixByte _ _);
    match type of H with context [String.eqb ?a ?b] => destruct (String.eqb_spec a b) end;
    by simplify_eq.
Qed.

(** An ASCII pattern compiles exactly when it is not a negation, has no
    unescaped bracket, is not empty between its outer slashes and does not end
    inside an escape. *)
Theorem ascii_pattern_compiles pattern :
  is_ascii pattern = true →
  is_ok (compilePattern pattern) = true ↔
    HasPrefix pattern "!" = false ∧ hasUnescaped pattern "[" = false ∧
    hasUnescaped pattern "]" = false ∧ core_of pattern ≠ "" ∧
    ends_escaped false (core_of pattern) = false.
Proof.
  intros Ha. split.
  - destruct (compilePattern pattern) as [m|] eqn:Hc; [|done]. intros _.
    apply compile_ok_iff in Hc as (st & core & sub & ps & gs & Hp & Hps & _).
    apply prepare_ok in Hp as (? & ? & ? & -> & ?).
    pose proof (pieces_spec (core_of pattern)) as He. by rewrite Hps in He.
  - intros (Hn & Hl & Hr & Hne & He).
    assert (∃ st sub, prepare pattern = Ok (st, core_of pattern, sub)) as (st & sub & Hp).
    { unfold prepare, core_of, TrimSuffixByte, TrimPrefix in *. rewrite Hn, Hl, Hr.
      cbn [orb]. destruct (HasPrefix pattern "/"); cbn zeta; destruct (HasSuffixByte _ _);
        match goal with |- context [String.eqb ?a ?b] => destruct (String.eqb_spec a b) end;
        by eauto. }
    pose proof (pieces_spec (core_of pattern)) as Hsp.
    destruct (pieces (core_of pattern)) as [ps|] eqn:Hps; [|destruct Hsp; congruence].
    destruct (globs_ascii ps "") as [gs Hgs]; [|done|].
    { eapply pieces_go_ascii; [|done]. unfold core_of, TrimSuffixByte.
      destruct (HasSuffixByte _ _); [apply DropLast_ascii|]; by apply TrimPrefix_ascii. }
    by rewrite (proj2 (compile_ok_iff pattern (mkMatcher st (expression gs sub))))
      by (exists st, (core_of pattern), sub, ps, gs; done).
Qed.

Lemma ascii_pattern_compiles_witness :
  is_ok (compilePattern "docs/**/*.md") = true.
Proof. apply ascii_pattern_compiles; [reflexivity|]. vm_compute. done. Defined.

(** ** Matching and resolution *)



(** Resolving a path in a CODEOWNERS file gives the owners of the last line
    that has a valid rule owning the path, and nothing when no line has one. *)
Theorem resolve_last_owner unicode_letter unicode_digit source path :
  match Resolve (Parse unicode_letter unicode_digit source) path with
  | Some m => ∃ i,
      line_owns unicode_letter unicode_digit (source_lines source) (TrimPrefix path "/") i m ∧
      ∀ j m', line_owns unicode_letter unicode_digit (source_lines source)
                (TrimPrefix path "/") j m' → (j ≤ i)%nat
  | None => ∀ j m', ¬ line_owns unicode_letter unicode_digit (source_lines source)
                        (TrimPrefix path "/") j m'
  end.
Proof. apply resolve_lines. Qed.

(** C30. The rules of any file are well formed: their lines increase and lie in
    the file, their patterns are not empty and have no space outside an escape,
    and each owner's name is read off its token as its kind says. *)
Theorem parsed_rules_wf unicode_letter unicode_digit source :
  Forall (rule_wf (length (source_lines source))) (Parse unicode_letter unicode_digit source) ∧
  StronglySorted Z.lt (Line <$> Parse unicode_letter unicode_digit source).
Proof. apply parse_lines_wf. Qed.

(** A rule for a directory does not own the files below it whose path has a
    line feed: [.] does not match one. *)
Example newline_path_unowned :
  let no (_ : Z) := false in
  let below := "docs/a" +:+ String "010" "b" in
  is_Some (Resolve (Parse no no "/docs/ @team") "docs/a") ∧
  Resolve (Parse no no "/docs/ @team") below = None ∧
  Resolve (Parse no no "docs/ @team") below = None.
Proof. vm_compute. split; [by eexists|done]. Qed.
