(* ===== verification/SweepSchedule.v ===== *)
(** * Sweep configuration and schedule

    [internal/sweep/sweep.go]: the service configuration with its defaults and
    validation, the schedule derived from a staleness bound, and the spreading of
    one fan-out over the cadence. Durations are [int64] nanoseconds and wrap where
    Go computes with them; [time.Time.Add] is exact on the instants in use. *)

From Stdlib Require Import ZArith Lia Bool String.
From stdpp Require Import strings numbers base list.
From S2P Require Import Prelude GoStrings RefreshQueue.

Local Open Scope Z_scope.

Definition KindRepositories : string := "repositories".
Definition KindStacks : string := "stacks".
Definition KindPullRequests : string := "pull_requests".
Definition KindRepoRules : string := "repo_rules".
Definition KindClosed : string := "closed_tracked".

Definition Minute : duration := 60 * Second.
Definition Hour : duration := 60 * Minute.

Definition defaultGapLeaseTTL : duration := 5 * Minute.
Definition defaultGapContinuationDelay : duration := 30 * Second.
Definition defaultGapDeepScanPeriod : duration := 24 * Hour.
Definition githubDeliveryRetention : duration := 72 * Hour.
Definition defaultOrphanScanPeriod : duration := 5 * Minute.
Definition defaultOrphanStaleAfter : duration := 15 * Minute.
Definition defaultOrphanBatchLimit : Z := 200.

(** [sweep.Config], without its hooks. *)
Record Config : Type := mkConfig {
  InstallationID : Z;
  OpenStackMaxStaleness : duration;
  OpenPRMaxStaleness : duration;
  RepoRulesMaxStaleness : duration;
  ClosedMaxStaleness : duration;
  RepositoryListPeriod : duration;
  cf_PageSize : Z;
  GapHealPeriod : duration;
  GapWindow : duration;
  GapPageSize : Z;
  GapMaxPages : Z;
  GapLeaseTTL : duration;
  GapContinuationDelay : duration;
  GapDeepScanPeriod : duration;
  RetentionPeriod : duration;
  RetentionAge : duration;
  RetentionBatchSize : Z;
  OrphanScanPeriod : duration;
  OrphanStaleAfter : duration;
  OrphanBatchLimit : Z
}.

Definition positive_or (value fallback : Z) : Z := if 0 <? value then value else fallback.

Definition orphanScanPeriod (c : Config) : duration :=
  positive_or (OrphanScanPeriod c) defaultOrphanScanPeriod.
Definition orphanStaleAfter (c : Config) : duration :=
  positive_or (OrphanStaleAfter c) defaultOrphanStaleAfter.
Definition orphanBatchLimit (c : Config) : Z :=
  if 0 <? OrphanBatchLimit c then wrap32 (OrphanBatchLimit c) else defaultOrphanBatchLimit.

Record SchedulePlan : Type := mkPlan {
  Bound : duration;
  Cadence : duration;
  CompletionHeadroom : duration
}.

(** [bound * 3 / 4] and [bound / 5], with Go's truncating division. *)
Definition scheduleForBound (bound : duration) : SchedulePlan :=
  mkPlan bound (wrap64 (bound * 3) `quot` 4) (bound `quot` 5).

Definition dueBefore (p : SchedulePlan) (now : time) : time :=
  now + wrap64 (wrap64 (Cadence p + CompletionHeadroom p) - Bound p).

Inductive config_error : Type :=
  | ErrNotPositive
  | ErrPageSizes
  | ErrGapWindow
  | ErrBoundTooSmall.

Definition config_durations (c : Config) : list duration :=
  [OpenStackMaxStaleness c; OpenPRMaxStaleness c; RepoRulesMaxStaleness c;
   ClosedMaxStaleness c; RepositoryListPeriod c; GapHealPeriod c; GapLeaseTTL c;
   GapContinuationDelay c; GapDeepScanPeriod c; GapWindow c; RetentionPeriod c;
   RetentionAge c].

Definition config_bounds (c : Config) : list duration :=
  [OpenStackMaxStaleness c; OpenPRMaxStaleness c; RepoRulesMaxStaleness c;
   ClosedMaxStaleness c; RepositoryListPeriod c].

Definition bound_too_small (bound : duration) : bool :=
  let plan := scheduleForBound bound in
  (Cadence plan <=? 0) || (CompletionHeadroom plan <=? 0) ||
  (bound <=? wrap64 (Cadence plan + CompletionHeadroom plan)).

(** [Config.validate]: [None] when the configuration is accepted. *)
Definition validate (c : Config) : option config_error :=
  if existsb (λ d, d <=? 0) (config_durations c) then Some ErrNotPositive
  else if (cf_PageSize c <=? 0) || (100 <? cf_PageSize c) ||
          (GapPageSize c <=? 0) || (100 <? GapPageSize c) ||
          (GapMaxPages c <=? 0) || (RetentionBatchSize c <=? 0) then Some ErrPageSizes
  else if (githubDeliveryRetention <? GapWindow c) ||
          (wrap64 (githubDeliveryRetention - GapWindow c) <? GapDeepScanPeriod c)
  then Some ErrGapWindow
  else if existsb bound_too_small (config_bounds c) then Some ErrBoundTooSmall
  else None.

(** The defaults [New] fills in before it validates. *)
Definition with_defaults (c : Config) : Config :=
  mkConfig (InstallationID c) (OpenStackMaxStaleness c) (OpenPRMaxStaleness c)
    (RepoRulesMaxStaleness c) (ClosedMaxStaleness c) (RepositoryListPeriod c)
    (cf_PageSize c) (GapHealPeriod c) (GapWindow c) (GapPageSize c) (GapMaxPages c)
    (positive_or (GapLeaseTTL c) defaultGapLeaseTTL)
    (positive_or (GapContinuationDelay c) defaultGapContinuationDelay)
    (positive_or (GapDeepScanPeriod c) defaultGapDeepScanPeriod)
    (RetentionPeriod c) (RetentionAge c) (RetentionBatchSize c)
    (OrphanScanPeriod c) (OrphanStaleAfter c) (OrphanBatchLimit c).

(** [New], on a service with its pool. *)
Definition New (c : Config) : result config_error Config :=
  let c := with_defaults c in
  match validate c with
  | Some e => Err e
  | None => Ok c
  end.

(** [schedulePlanForSweepKind]: [None] for a kind that has no listing. *)
Definition schedulePlanForSweepKind (c : Config) (kind : string) : option SchedulePlan :=
  if String.eqb kind KindRepositories then Some (scheduleForBound (RepositoryListPeriod c))
  else if String.eqb kind KindStacks then Some (scheduleForBound (OpenStackMaxStaleness c))
  else if String.eqb kind KindPullRequests then Some (scheduleForBound (OpenPRMaxStaleness c))
  else None.

(** The schedule of entry [index] of a fan-out whose last index is [last]. *)
Definition spread_at (now : time) (plan : SchedulePlan) (last index : Z) (s : RefreshSpec)
    : RefreshSpec :=
  let latestStart := Deadline s - CompletionHeadroom plan in
  let scheduledAt := now + wrap64 (Cadence plan * index) `quot` last in
  let scheduledAt := if After scheduledAt latestStart then latestStart else scheduledAt in
  let scheduledAt := if Before scheduledAt now then now else scheduledAt in
  mkSpec (sp_Kind s) (sp_Key s) scheduledAt (Deadline s) (EventReceivedAt s).

Definition spreadRefreshSchedule (specs : list RefreshSpec) (now : time) (plan : SchedulePlan)
    : list RefreshSpec :=
  let n := Z.of_nat (length specs) in
  if (n <? 2) || (Cadence plan <=? 0) || (CompletionHeadroom plan <=? 0) then specs
  else imap (λ index s, spread_at now plan (Z.max (n - 1) 1) (Z.of_nat index) s) specs.

(** ** Accepted configurations *)

Definition plan_ok (p : SchedulePlan) : Prop :=
  0 < Cadence p ∧ 0 < CompletionHeadroom p ∧ Cadence p + CompletionHeadroom p < Bound p ∧
  Bound p < 2 ^ 63.

Lemma quot_bounds x d : 0 < d → 0 ≤ x → 0 ≤ x `quot` d ≤ x.
Proof.
  intros Hd Hx. rewrite Z.quot_div_nonneg by lia. split; [apply Z.div_pos; lia|].
  apply Z.div_le_upper_bound; nia.
Qed.

Lemma existsb_false_elem {A} (f : A → bool) l x : existsb f l = false → x ∈ l → f x = false.
Proof.
  intros H Hx. destruct (f x) eqn:E; [|done]. rewrite <- H. symmetry.
  apply existsb_exists. exists x. split; [by apply list_elem_of_In|done].
Qed.

Lemma scheduleForBound_ok bound :
  0 < bound → in_int64 bound → bound_too_small bound = false → plan_ok (scheduleForBound bound).
Proof.
  unfold bound_too_small, plan_ok, scheduleForBound. cbn [Cadence CompletionHeadroom Bound].
  intros Hb Hin H. to_props.
  set (cad := wrap64 (bound * 3) `quot` 4) in *. set (head := bound `quot` 5) in *.
  assert (cad < 2 ^ 61 + 1).
  { unfold cad. pose proof (wrap64_range (bound * 3)) as [Hlo Hhi].
    destruct (Z.le_gt_cases 0 (wrap64 (bound * 3))) as [Hp|Hn].
    - rewrite Z.quot_div_nonneg by lia. apply Z.div_lt_upper_bound; lia.
    - pose proof (Z.quot_opp_l (- wrap64 (bound * 3)) 4 ltac:(lia)) as E.
      rewrite Z.opp_involutive in E. rewrite E.
      pose proof (quot_bounds (- wrap64 (bound * 3)) 4). lia. }
  assert (head < 2 ^ 61).
  { unfold head. destruct Hin. rewrite Z.quot_div_nonneg by lia.
    apply Z.div_lt_upper_bound; lia. }
  rewrite wrap64_id in * by (unfold in_int64; lia). destruct Hin. lia.
Qed.

Lemma validate_ok c : validate c = None →
  (∀ d, d ∈ config_durations c → 0 < d) ∧
  (1 ≤ cf_PageSize c ≤ 100 ∧ 1 ≤ GapPageSize c ≤ 100 ∧ 0 < GapMaxPages c ∧
   0 < RetentionBatchSize c) ∧
  GapWindow c + GapDeepScanPeriod c ≤ githubDeliveryRetention ∧
  (∀ b, b ∈ config_bounds c → bound_too_small b = false).
Proof.
  unfold validate. destruct (existsb (λ d, d <=? 0) (config_durations c)) eqn:Hd; [done|].
  destruct (_ || _) eqn:Hp; [done|].
  destruct (githubDeliveryRetention <? GapWindow c) eqn:Hw; [done|]. cbn [orb].
  destruct (_ <? GapDeepScanPeriod c) eqn:Hg; [done|].
  destruct (existsb bound_too_small _) eqn:Hb; [done|]. intros _. to_props.
  assert (Hpos : ∀ d, d ∈ config_durations c → 0 < d).
  { intros d Hin. eapply existsb_false_elem in Hd; [|done]. by apply Z.leb_gt in Hd. }
  split; [done|]. split; [lia|].
  assert (0 < GapWindow c) by (apply Hpos; unfold config_durations; rewrite !elem_of_cons; tauto).
  split.
  - rewrite wrap64_id in Hg; [lia|]. unfold in_int64, githubDeliveryRetention, Hour, Minute, Second in *.
    lia.
  - intros b Hin. by eapply existsb_false_elem in Hb.
Qed.

(** The plan of every list sweep of an accepted configuration. *)
Lemma plan_for_kind_ok c kind plan :
  validate c = None → (∀ d, d ∈ config_durations c → in_int64 d) →
  schedulePlanForSweepKind c kind = Some plan → plan_ok plan.
Proof.
  intros (Hpos & _ & _ & Hb)%validate_ok Hin. unfold schedulePlanForSweepKind.
  assert (Hok : ∀ b, b ∈ config_bounds c → plan_ok (scheduleForBound b)).
  { intros b Hbin. assert (b ∈ config_durations c).
    { unfold config_bounds, config_durations in *. rewrite !elem_of_cons in *. tauto. }
    apply scheduleForBound_ok; auto. }
  repeat case_if; intros [= <-]; apply Hok; unfold config_bounds; rewrite !elem_of_cons; tauto.
Qed.

(** ** Spreading *)

Lemma spread_at_bounds now plan last index s :
  let s' := spread_at now plan last index s in
  now ≤ ScheduledAt s' ≤ Z.max now (Deadline s - CompletionHeadroom plan).
Proof.
  unfold spread_at, After, Before. cbn [ScheduledAt].
  repeat case_if; to_props; lia.
Qed.

Lemma spread_length specs now plan :
  length (spreadRefreshSchedule specs now plan) = length specs.
Proof. unfold spreadRefreshSchedule. destruct (_ || _); [done|]. apply length_imap. Qed.

Lemma spread_identities specs now plan :
  map spec_identity (spreadRefreshSchedule specs now plan) = map spec_identity specs.
Proof.
  unfold spreadRefreshSchedule. destruct (_ || _); [done|].
  apply list_eq. intros i. change (map ?f) with (fmap f : list _ → list _).
  rewrite !list_lookup_fmap, list_lookup_imap. by destruct (specs !! i).
Qed.

Lemma dueBefore_eq p now : plan_ok p →
  dueBefore p now = now + Cadence p + CompletionHeadroom p - Bound p.
Proof.
  intros (Hc & Hh & Hs & Hb). unfold dueBefore.
  rewrite !wrap64_id by (unfold in_int64; rewrite ?wrap64_id; unfold in_int64; lia). lia.
Qed.

Lemma spread_lookup specs now plan i s :
  specs !! i = Some s → ScheduledAt s ≤ now →
  ∃ s', spreadRefreshSchedule specs now plan !! i = Some s' ∧
    spec_identity s' = spec_identity s ∧ Deadline s' = Deadline s ∧
    EventReceivedAt s' = EventReceivedAt s ∧
    ScheduledAt s' ≤ Z.max now (Deadline s - CompletionHeadroom plan).
Proof.
  intros Hi Hs. unfold spreadRefreshSchedule. destruct (_ || _).
  - exists s. split; [done|]. do 3 (split; [done|]). lia.
  - eexists. rewrite list_lookup_imap, Hi. split; [reflexivity|].
    do 3 (split; [done|]). apply spread_at_bounds.
Qed.

(** The staleness bound is kept. When kickoffs are at most one cadence apart,
    a row last checked at [checked] that was not due at one kickoff is enqueued by
    the next one no later than the completion headroom before its deadline: its
    refresh is scheduled at or before [checked + bound - headroom], wherever it
    stands in the fan-out. *)
Theorem stale_refresh_in_time plan k1 k2 specs i s checked :
  plan_ok plan → k2 ≤ k1 + Cadence plan → dueBefore plan k1 < checked →
  specs !! i = Some s → Deadline s = checked + Bound plan → ScheduledAt s ≤ k2 →
  ∃ s', spreadRefreshSchedule specs k2 plan !! i = Some s' ∧
    spec_identity s' = spec_identity s ∧ Deadline s' = Deadline s ∧
    ScheduledAt s' ≤ Deadline s' - CompletionHeadroom plan.
Proof.
  intros Hp Hk Hdue Hi Hd Hs. rewrite dueBefore_eq in Hdue by done.
  destruct (spread_lookup specs k2 plan i s Hi Hs) as (s' & Hs' & Hid & Hdl & _ & Hle).
  exists s'. do 3 (split; [done|]). lia.
Qed.

Definition example_config : Config :=
  mkConfig 1 (10 * Minute) (10 * Minute) (24 * Hour) (24 * Hour) (6 * Hour) 100 (5 * Minute)
    (24 * Hour) 100 10 0 0 0 Hour (2160 * Hour) 500 0 0 0.

Lemma stale_refresh_in_time_witness :
  let plan := scheduleForBound (10 * Minute) in
  let s := mkSpec "refresh_stack" "stack:o/r:1" 0 (Unix 0 + 10 * Minute) 0 in
  ∃ s', spreadRefreshSchedule [s; s] (Unix 450) plan !! 1%nat = Some s' ∧
    spec_identity s' = spec_identity s ∧ Deadline s' = Deadline s ∧
    ScheduledAt s' ≤ Deadline s' - CompletionHeadroom plan.
Proof.
  apply (stale_refresh_in_time _ (Unix 0) _ _ _ _ (Unix 0)); vm_compute; done.
Defined.

(** A service starts only with a configuration whose plans leave room: the
    defaults are filled in, every list sweep's cadence and headroom are positive
    and together shorter than its bound, the page sizes are in GitHub's range, and
    a deep delivery scan fits in GitHub's retention. *)
Theorem new_config_valid c c' :
  (∀ d, d ∈ config_durations c → in_int64 d) → New c = Ok c' →
  (∀ kind plan, schedulePlanForSweepKind c' kind = Some plan → plan_ok plan) ∧
  1 ≤ cf_PageSize c' ≤ 100 ∧ 1 ≤ GapPageSize c' ≤ 100 ∧ 0 < GapMaxPages c' ∧
  0 < GapLeaseTTL c' ∧ 0 < GapContinuationDelay c' ∧ 0 < GapWindow c' ∧
  0 < GapDeepScanPeriod c' ∧
  GapWindow c' + GapDeepScanPeriod c' ≤ githubDeliveryRetention.
Proof.
  intros Hin H. unfold New in H. destruct (validate _) eqn:Hv; [done|]. injection H as <-.
  pose proof (validate_ok _ Hv) as (Hpos & (? & ? & ? & ?) & ? & _).
  split.
  - intros kind plan. apply plan_for_kind_ok; [done|].
    assert (Hor : ∀ v f, in_int64 v → in_int64 f → in_int64 (positive_or v f)).
    { intros v f ? ?. unfold positive_or. by destruct (0 <? v). }
    assert (Hdef : in_int64 defaultGapLeaseTTL ∧ in_int64 defaultGapContinuationDelay ∧
                   in_int64 defaultGapDeepScanPeriod) by (vm_compute; done).
    destruct Hdef as (? & ? & ?). unfold config_durations in *.
    cbn [with_defaults OpenStackMaxStaleness OpenPRMaxStaleness RepoRulesMaxStaleness
      ClosedMaxStaleness RepositoryListPeriod GapHealPeriod GapLeaseTTL GapContinuationDelay
      GapDeepScanPeriod GapWindow RetentionPeriod RetentionAge].
    intros d Hd. rewrite !elem_of_cons in Hd.
    destruct_or!; subst; try (apply Hor; [|done]); try (apply Hin; rewrite !elem_of_cons; tauto).
  - do 3 (split; [done|]).
    repeat (split; [apply Hpos; unfold config_durations; rewrite !elem_of_cons; tauto|]). done.
Qed.

Lemma new_config_valid_witness :
  let c' := with_defaults example_config in
  (∀ kind plan, schedulePlanForSweepKind c' kind = Some plan → plan_ok plan) ∧
  1 ≤ cf_PageSize c' ≤ 100 ∧ 1 ≤ GapPageSize c' ≤ 100 ∧ 0 < GapMaxPages c' ∧
  0 < GapLeaseTTL c' ∧ 0 < GapContinuationDelay c' ∧ 0 < GapWindow c' ∧
  0 < GapDeepScanPeriod c' ∧
  GapWindow c' + GapDeepScanPeriod c' ≤ githubDeliveryRetention.
Proof.
  apply (new_config_valid example_config).
  - intros d Hd. apply in_int64b_spec.
    apply (proj1 (forallb_forall in_int64b (config_durations example_config)));
      [vm_compute; reflexivity|by apply list_elem_of_In].
  - vm_compute. reflexivity.
Defined.
