(* ===== verification/GapHeal.v ===== *)
(** * Delivery-gap healing

    [internal/sweep/gap.go] with its statements of
    [internal/store/dbgen/sweep.sql.go]: a leased scan over GitHub's delivery log
    that asks for the redelivery of every webhook the ledger does not have. One
    row of [gap_heal_cursors] carries the pass across jobs: its cursor, cutoff,
    scan mode and lease. [HealDeliveryGaps] is one job. What other workers do
    between its statements, GitHub's pages, the outcome of a redelivery request,
    the clock and the fresh lease token are arguments. *)

From Stdlib Require Import ZArith Lia Bool String.
From stdpp Require Import strings numbers gmap sets base list.
From S2P Require Import Prelude GoStrings SweepSchedule.

Local Open Scope Z_scope.

(** ** Rows *)

Inductive scan_mode : Type := gapScanDeep | gapScanIncrement.

#[export] Instance scan_mode_eq_dec : EqDecision scan_mode.
Proof. solve_decision. Defined.

Definition gapCursorVersion : Z := 1.

(** [gap_heal_cursors]. *)
Record GapHealCursor : Type := mkGapRow {
  gc_Cursor : string;
  gc_Cutoff : option time;
  gc_StartedAt : option time;
  gc_UpdatedAt : time;
  gc_CompletedAt : option time;
  gc_LeaseToken : option string;
  gc_LeaseUntil : option time;
  gc_HighWatermarkAt : option time;
  gc_PassHighWatermarkAt : option time;
  gc_BoundaryDeliveryID : Z;
  gc_PassBoundaryDeliveryID : Z;
  gc_LastDeepStartedAt : option time;
  gc_LastDeepCompletedAt : option time;
  gc_ScanMode : scan_mode;
  gc_CursorVersion : Z;
  gc_LookbackDurationNs : Z;
  gc_PageSize : Z
}.

Definition empty_gap_row (now : time) : GapHealCursor :=
  mkGapRow "" None None now None None None None None 0 0 None None gapScanDeep 0 0 0.

Abbreviation gap_table := (gmap Z GapHealCursor).

Record GapHealArgs : Type := mkGapArgs {
  ga_Installation : Z;
  ga_Cursor : string;
  ga_LeaseToken : string
}.

(** [gh.AppHookDelivery], the fields the scan reads. *)
Record AppHookDelivery : Type := mkHook {
  hd_ID : Z;
  hd_GUID : string;
  hd_DeliveredAt : time
}.

(** A page of the delivery log and the cursor of the next one, or the failure of
    the call: GitHub's 422 for a cursor it no longer knows, or another error. *)
Inductive list_error : Type := InvalidDeliveryCursor | ListFailed.

Definition list_answer : Type := result list_error (list AppHookDelivery * string).

Inductive gap_error : Type :=
  | ErrNoDeliveriesClient
  | ErrGapHealLeaseLost
  | ErrList
  | ErrRedeliver
  | ErrNoRiverClient.

(** ** Statements *)

(** [GREATEST] ignores NULL. *)
Definition greatest (a b : option time) : option time :=
  match a, b with
  | Some x, Some y => Some (Z.max x y)
  | Some x, None => Some x
  | None, y => y
  end.

Definition EnsureGapHealCursor (now : time) (installation : Z) (t : gap_table) : gap_table :=
  match t !! installation with
  | Some _ => t
  | None => <[installation := empty_gap_row now]> t
  end.

Definition start_row (cutoff started : time) (highWatermark : option time) (boundary : Z)
    (mode : scan_mode) (lookback pageSize : Z) (token : string) (leaseUntil : time)
    (r : GapHealCursor) : GapHealCursor :=
  mkGapRow "" (Some cutoff) (Some started) started None (Some token) (Some leaseUntil)
    highWatermark None boundary 0
    (if bool_decide (mode = gapScanDeep) then Some started else gc_LastDeepStartedAt r)
    (gc_LastDeepCompletedAt r) mode gapCursorVersion lookback pageSize.

Definition claim_row (token : string) (leaseUntil claimed : time) (r : GapHealCursor)
    : GapHealCursor :=
  mkGapRow (gc_Cursor r) (gc_Cutoff r) (gc_StartedAt r) claimed (gc_CompletedAt r)
    (Some token) (Some leaseUntil) (gc_HighWatermarkAt r) (gc_PassHighWatermarkAt r)
    (gc_BoundaryDeliveryID r) (gc_PassBoundaryDeliveryID r) (gc_LastDeepStartedAt r)
    (gc_LastDeepCompletedAt r) (gc_ScanMode r) (gc_CursorVersion r)
    (gc_LookbackDurationNs r) (gc_PageSize r).

(** The guard of the fenced statements: the expected cursor, this worker's token
    and a pass that is not complete. *)
Definition fenced (expected token : string) (r : GapHealCursor) : bool :=
  String.eqb (gc_Cursor r) expected && bool_decide (gc_LeaseToken r = Some token)
  && bool_decide (gc_CompletedAt r = None).

Definition RestartGapHealCursor (restarted leaseUntil : time) (installation : Z)
    (expected token : string) (t : gap_table) : option (GapHealCursor * gap_table) :=
  r ← t !! installation;
  if fenced expected token r then
    let r' := mkGapRow "" (gc_Cutoff r) (gc_StartedAt r) restarted (gc_CompletedAt r)
      (gc_LeaseToken r) (Some leaseUntil) (gc_HighWatermarkAt r) None
      (gc_BoundaryDeliveryID r) 0 (gc_LastDeepStartedAt r) (gc_LastDeepCompletedAt r)
      (gc_ScanMode r) (gc_CursorVersion r) (gc_LookbackDurationNs r) (gc_PageSize r) in
    Some (r', <[installation := r']> t)
  else None.

Definition advance_row (next : string) (observed : option time) (observedBoundary : Z)
    (updated leaseUntil : time) (r : GapHealCursor) : GapHealCursor :=
  mkGapRow next (gc_Cutoff r) (gc_StartedAt r) updated (gc_CompletedAt r)
    (gc_LeaseToken r) (Some leaseUntil) (gc_HighWatermarkAt r)
    (greatest (gc_PassHighWatermarkAt r) observed) (gc_BoundaryDeliveryID r)
    (if gc_PassBoundaryDeliveryID r =? 0 then observedBoundary else gc_PassBoundaryDeliveryID r)
    (gc_LastDeepStartedAt r) (gc_LastDeepCompletedAt r) (gc_ScanMode r) (gc_CursorVersion r)
    (gc_LookbackDurationNs r) (gc_PageSize r).

Definition AdvanceGapHealCursor (next : string) (observed : option time) (observedBoundary : Z)
    (updated leaseUntil : time) (installation : Z) (expected token : string) (t : gap_table)
    : option gap_table :=
  r ← t !! installation;
  if fenced expected token r
  then Some (<[installation := advance_row next observed observedBoundary updated leaseUntil r]> t)
  else None.

Definition complete_row (observed : option time) (observedBoundary : Z) (completed : time)
    (r : GapHealCursor) : GapHealCursor :=
  mkGapRow "" (gc_Cutoff r) (gc_StartedAt r) completed (Some completed) None None
    (greatest (greatest (gc_HighWatermarkAt r) (gc_PassHighWatermarkAt r)) observed) None
    (if negb (gc_PassBoundaryDeliveryID r =? 0) then gc_PassBoundaryDeliveryID r
     else if negb (observedBoundary =? 0) then observedBoundary
     else gc_BoundaryDeliveryID r) 0
    (gc_LastDeepStartedAt r)
    (if bool_decide (gc_ScanMode r = gapScanDeep) then Some completed
     else gc_LastDeepCompletedAt r)
    (gc_ScanMode r) (gc_CursorVersion r) (gc_LookbackDurationNs r) (gc_PageSize r).

Definition CompleteGapHealCursor (observed : option time) (observedBoundary : Z)
    (completed : time) (installation : Z) (expected token : string) (t : gap_table)
    : option gap_table :=
  r ← t !! installation;
  if fenced expected token r
  then Some (<[installation := complete_row observed observedBoundary completed r]> t)
  else None.

(** [RenewGapHealLease], the statement of [maintainGapLease]'s ticker: [None] is
    the lost lease that cancels the work. *)
Definition RenewGapHealLease (leaseUntil : time) (installation : Z) (token : string)
    (t : gap_table) : option gap_table :=
  r ← t !! installation;
  if bool_decide (gc_LeaseToken r = Some token) && bool_decide (gc_CompletedAt r = None)
  then Some (<[installation :=
      mkGapRow (gc_Cursor r) (gc_Cutoff r) (gc_StartedAt r) (gc_UpdatedAt r) (gc_CompletedAt r)
        (gc_LeaseToken r) (Some leaseUntil) (gc_HighWatermarkAt r) (gc_PassHighWatermarkAt r)
        (gc_BoundaryDeliveryID r) (gc_PassBoundaryDeliveryID r) (gc_LastDeepStartedAt r)
        (gc_LastDeepCompletedAt r) (gc_ScanMode r) (gc_CursorVersion r)
        (gc_LookbackDurationNs r) (gc_PageSize r)]> t)
  else None.

(** ** Opening and claiming a window *)

Definition gapLookback (c : Config) : duration := wrap64 (GapWindow c + GapDeepScanPeriod c).

Definition gapDeepCutoff (c : Config) (now : time) (r : GapHealCursor) : time :=
  let cutoff := now - gapLookback c in
  let cutoff :=
    match gc_LastDeepStartedAt r with
    | Some deep => if Before (deep - GapWindow c) cutoff then deep - GapWindow c else cutoff
    | None => cutoff
    end in
  let oldestRetained := now - githubDeliveryRetention in
  if Before cutoff oldestRetained then oldestRetained else cutoff.

Definition gapCursorShapeCompatible (c : Config) (r : GapHealCursor) : bool :=
  (gc_CursorVersion r =? gapCursorVersion) && (gc_LookbackDurationNs r =? gapLookback c)
  && (gc_PageSize r =? wrap32 (GapPageSize c)).

(** Is a deep scan due for a new window? *)
Definition deepDue (c : Config) (now : time) (r : GapHealCursor) : bool :=
  negb (gapCursorShapeCompatible c r) ||
  match gc_LastDeepStartedAt r with
  | None => true
  | Some deep => negb (After deep (now - GapDeepScanPeriod c))
  end.

(** Does another worker hold the lease? *)
Definition leaseHeld (now : time) (token : string) (r : GapHealCursor) : bool :=
  match gc_LeaseToken r, gc_LeaseUntil r with
  | Some held, Some until => negb (String.eqb held token) && Before now until
  | _, _ => false
  end.

Definition new_window (c : Config) (now : time) (args : GapHealArgs) (r : GapHealCursor)
    : GapHealCursor :=
  let compatible := gapCursorShapeCompatible c r in
  let mode :=
    if deepDue c now r || bool_decide (gc_HighWatermarkAt r = None)
       || (gc_BoundaryDeliveryID r =? 0)
    then gapScanDeep else gapScanIncrement in
  let highWatermark := if compatible then gc_HighWatermarkAt r else None in
  let boundary := if compatible then gc_BoundaryDeliveryID r else 0 in
  let cutoff :=
    if bool_decide (mode = gapScanDeep) then gapDeepCutoff c now r else now - gapLookback c in
  start_row cutoff now highWatermark boundary mode (gapLookback c) (wrap32 (GapPageSize c))
    (ga_LeaseToken args) (now + GapLeaseTTL c) r.

Definition restart_stale (c : Config) (now : time) (args : GapHealArgs) (r : GapHealCursor)
    : GapHealCursor :=
  let compatible := gapCursorShapeCompatible c r in
  start_row (gapDeepCutoff c now r) now
    (if compatible then gc_HighWatermarkAt r else None)
    (if compatible then gc_BoundaryDeliveryID r else 0)
    gapScanDeep (gapLookback c) (wrap32 (GapPageSize c))
    (ga_LeaseToken args) (now + GapLeaseTTL c) r.

(** [loadOrStartGapWindow]: the claimed row and the new table, or [None] when the
    job is not to run, in which case the transaction rolls back. *)
Definition loadOrStartGapWindow (c : Config) (now : time) (args : GapHealArgs) (t : gap_table)
    : option (GapHealCursor * gap_table) :=
  let t := EnsureGapHealCursor now (InstallationID c) t in
  r ← t !! InstallationID c;
  let claimed (r' : GapHealCursor) := Some (r', <[InstallationID c := r']> t) in
  if bool_decide (gc_StartedAt r = None) || bool_decide (is_Some (gc_CompletedAt r)) then
    if negb (String.eqb (ga_Cursor args) "") then None
    else claimed (new_window c now args r)
  else if negb (String.eqb (ga_Cursor args) "") && negb (String.eqb (ga_Cursor args) (gc_Cursor r))
  then None
  else if leaseHeld now (ga_LeaseToken args) r then None
  else if negb (gapCursorShapeCompatible c r)
          || Before (default zero_time (gc_StartedAt r)) (now - gapLookback c)
  then claimed (restart_stale c now args r)
  else claimed (claim_row (ga_LeaseToken args) (now + GapLeaseTTL c) now r).

(** ** One page *)

Record scan : Type := mkScan {
  sc_observedHigh : option time;
  sc_observedBoundary : Z;
  sc_reachedHighWatermark : bool;
  sc_pageWithinLookback : bool;
  sc_seen : gset string;
  sc_candidates : list AppHookDelivery
}.

(** The body of the loop over a page's deliveries, for the pass of row [r] at
    [cursor]. *)
Definition scan_delivery (r : GapHealCursor) (cursor : string) (s : scan) (d : AppHookDelivery)
    : scan :=
  let boundary :=
    if String.eqb cursor "" && (sc_observedBoundary s =? 0) && (0 <? hd_ID d)
    then hd_ID d else sc_observedBoundary s in
  let high :=
    match sc_observedHigh s with
    | None => Some (hd_DeliveredAt d)
    | Some h => if After (hd_DeliveredAt d) h then Some (hd_DeliveredAt d) else Some h
    end in
  let reached :=
    if bool_decide (gc_ScanMode r = gapScanIncrement)
       && bool_decide (is_Some (gc_HighWatermarkAt r))
       && (0 <? gc_BoundaryDeliveryID r) && (hd_ID d =? gc_BoundaryDeliveryID r)
    then true else sc_reachedHighWatermark s in
  if Before (hd_DeliveredAt d) (default zero_time (gc_Cutoff r)) then
    mkScan high boundary reached (sc_pageWithinLookback s) (sc_seen s) (sc_candidates s)
  else if String.eqb (hd_GUID d) "" || (hd_ID d <=? 0) || bool_decide (hd_GUID d ∈ sc_seen s) then
    mkScan high boundary reached true (sc_seen s) (sc_candidates s)
  else
    mkScan high boundary reached true ({[hd_GUID d]} ∪ sc_seen s) (sc_candidates s ++ [d]).

(** [redeliverMissing]: the accepted requests, and whether all of them were. The
    ledger's GUIDs answer [ListExistingWebhookDeliveryGUIDs]. *)
Fixpoint redeliverMissing (redeliver : Z → bool) (present : gset string)
    (ds : list AppHookDelivery) : list AppHookDelivery * bool :=
  match ds with
  | [] => ([], true)
  | d :: ds =>
      if bool_decide (hd_GUID d ∈ present) then redeliverMissing redeliver present ds
      else if redeliver (hd_ID d) then
        let '(requested, ok) := redeliverMissing redeliver present ds in (d :: requested, ok)
      else ([], false)
  end.

(** ** One job *)

Section run.
(** River's job table and its unique insertion of a continuation. *)
Context {J : Type} (InsertTx : GapHealArgs → time → J → J).

Record gap_world : Type := mkGapWorld {
  gap_cursors : gap_table;
  ledger_guids : gset string;
  gap_jobs : J
}.

Definition set_cursors (t : gap_table) (w : gap_world) : gap_world :=
  mkGapWorld t (ledger_guids w) (gap_jobs w).

(** What surrounds the handling of one page: GitHub's answers, the clock, and what
    other workers do to the database before each access. *)
Record page_env : Type := mkEnv {
  pe_list : string → list_answer;
  pe_before_restart : gap_world → gap_world;
  pe_restart_now : time;
  pe_list_again : string → list_answer;
  pe_before_compare : gap_world → gap_world;
  pe_redeliver : Z → bool;
  pe_before_commit : gap_world → gap_world;
  pe_commit_now : time
}.

(** The variables of the loop; the high watermark and the boundary of the pass
    are read from [ps_row], the Go variable [state]. *)
Record pass : Type := mkPass {
  ps_row : GapHealCursor;
  ps_cursor : string;
  ps_observedHigh : option time;
  ps_observedBoundary : Z;
  ps_seen : gset string;
  ps_restarted : bool
}.

Definition pass_of (r : GapHealCursor) (seen : gset string) (restarted : bool) : pass :=
  mkPass r (gc_Cursor r) (gc_PassHighWatermarkAt r) (gc_PassBoundaryDeliveryID r) seen restarted.

(** A page whose redeliveries were all requested. *)
Record visit : Type := mkVisit {
  v_row : GapHealCursor;
  v_cursor : string;
  v_deliveries : list AppHookDelivery;
  v_next : string;
  v_present : gset string;
  v_requested : list AppHookDelivery
}.

Inductive gap_outcome : Type :=
  | Ignored
  | NotAcquired
  | WindowCompleted
  | WindowCapped
  | NoPages.

Record gap_run : Type := mkRun {
  run_result : result gap_error gap_outcome;
  run_world : gap_world;
  run_trace : list visit
}.

Context (c : Config) (hasDeliveries hasRiver : bool) (freshToken : string)
  (env : nat → page_env).

(** [restartGapWindow]: the expected cursor is the one of [state]. *)
Definition restartGapWindow (now : time) (r : GapHealCursor) (token : string) (w : gap_world)
    : result gap_error (GapHealCursor * gap_world) :=
  match RestartGapHealCursor now (now + GapLeaseTTL c) (InstallationID c) (gc_Cursor r) token
          (gap_cursors w) with
  | None => Err ErrGapHealLeaseLost
  | Some (r', t) => Ok (r', set_cursors t w)
  end.

(** The listing of one iteration, with the restart a rejected cursor causes. *)
Definition list_page (e : page_env) (token : string) (st : pass) (w : gap_world)
    : result gap_error (pass * (list AppHookDelivery * string)) * gap_world :=
  match pe_list e (ps_cursor st) with
  | Ok page => (Ok (st, page), w)
  | Err err =>
      if negb (String.eqb (ps_cursor st) "") && negb (ps_restarted st)
         && match err with InvalidDeliveryCursor => true | ListFailed => false end
      then
        let w := pe_before_restart e w in
        match restartGapWindow (pe_restart_now e) (ps_row st) token w with
        | Err x => (Err x, w)
        | Ok (r, w) =>
            let st := pass_of r (ps_seen st) true in
            match pe_list_again e (ps_cursor st) with
            | Ok page => (Ok (st, page), w)
            | Err _ => (Err ErrList, w)
            end
        end
      else (Err ErrList, w)
  end.

Definition scan_page (st : pass) (ds : list AppHookDelivery) : scan :=
  foldl (scan_delivery (ps_row st) (ps_cursor st))
    (mkScan (ps_observedHigh st) (ps_observedBoundary st) false false (ps_seen st) []) ds.

(** [advanceGapWindow]. *)
Definition advanceGapWindow (now : time) (expected next : string) (high : option time)
    (boundary : Z) (scheduleContinuation : bool) (token : string) (w : gap_world)
    : result gap_error gap_world :=
  match AdvanceGapHealCursor next high boundary now (now + GapLeaseTTL c) (InstallationID c)
          expected token (gap_cursors w) with
  | None => Err ErrGapHealLeaseLost
  | Some t =>
      if scheduleContinuation then
        if hasRiver then
          Ok (mkGapWorld t (ledger_guids w)
                (InsertTx (mkGapArgs (InstallationID c) next token)
                   (now + GapContinuationDelay c) (gap_jobs w)))
        else Err ErrNoRiverClient
      else Ok (set_cursors t w)
  end.

(** [completeGapWindow]. *)
Definition completeGapWindow (now : time) (expected : string) (high : option time)
    (boundary : Z) (token : string) (w : gap_world) : result gap_error gap_world :=
  match CompleteGapHealCursor high boundary now (InstallationID c) expected token
          (gap_cursors w) with
  | None => Err ErrGapHealLeaseLost
  | Some t => Ok (set_cursors t w)
  end.

(** Does the pass end with this page? *)
Definition last_page (ds : list AppHookDelivery) (next : string) (s : scan) : bool :=
  String.eqb next "" || sc_reachedHighWatermark s
  || ((0 <? length ds)%nat && negb (sc_pageWithinLookback s)).

(** The loop, with [remaining] pages of [GapMaxPages] to go; [number] is the iteration. *)
Fixpoint heal_pages (token : string) (remaining number : nat) (st : pass) (trace : list visit)
    (w : gap_world) : gap_run :=
  match remaining with
  | O => mkRun (Ok NoPages) w trace
  | S remaining =>
      let e := env number in
      match list_page e token st w with
      | (Err x, w) => mkRun (Err x) w trace
      | (Ok (st, (ds, next)), w) =>
          let s := scan_page st ds in
          let w := pe_before_compare e w in
          let '(requested, ok) :=
            redeliverMissing (pe_redeliver e) (ledger_guids w) (sc_candidates s) in
          if negb ok then mkRun (Err ErrRedeliver) w trace
          else
            let trace :=
              trace ++ [mkVisit (ps_row st) (ps_cursor st) ds next (ledger_guids w) requested] in
            let w := pe_before_commit e w in
            let now := pe_commit_now e in
            if last_page ds next s then
              match completeGapWindow now (ps_cursor st) (sc_observedHigh s)
                      (sc_observedBoundary s) token w with
              | Err x => mkRun (Err x) w trace
              | Ok w => mkRun (Ok WindowCompleted) w trace
              end
            else
              let capped := (remaining =? 0)%nat in
              match advanceGapWindow now (ps_cursor st) next (sc_observedHigh s)
                      (sc_observedBoundary s) capped token w with
              | Err x => mkRun (Err x) w trace
              | Ok w =>
                  if capped then mkRun (Ok WindowCapped) w trace
                  else
                    heal_pages token remaining (S number)
                      (mkPass (ps_row st) next (sc_observedHigh s) (sc_observedBoundary s)
                         (sc_seen s) (ps_restarted st)) trace w
              end
      end
  end.

Definition HealDeliveryGaps (now : time) (args : GapHealArgs) (w : gap_world) : gap_run :=
  if negb (ga_Installation args =? InstallationID c) then mkRun (Ok Ignored) w []
  else if negb hasDeliveries then mkRun (Err ErrNoDeliveriesClient) w []
  else
    let token := if String.eqb (ga_LeaseToken args) "" then freshToken else ga_LeaseToken args in
    let args := mkGapArgs (ga_Installation args) (ga_Cursor args) token in
    match loadOrStartGapWindow c now args (gap_cursors w) with
    | None => mkRun (Ok NotAcquired) w []
    | Some (r, t) =>
        heal_pages token (Z.to_nat (GapMaxPages c)) 0 (pass_of r ∅ false) [] (set_cursors t w)
    end.

(** [gapHealWorker.Work]: a lost lease ends the job without a retry. *)
Definition gap_heal_work (now : time) (args : GapHealArgs) (w : gap_world)
    : result gap_error unit :=
  match run_result (HealDeliveryGaps now args w) with
  | Ok _ | Err ErrGapHealLeaseLost => Ok tt
  | Err x => Err x
  end.

End run.

(** ** What a page asks for *)

(** A delivery inside the window of the pass, with an identity. *)
Definition eligible (r : GapHealCursor) (d : AppHookDelivery) : Prop :=
  default zero_time (gc_Cutoff r) ≤ hd_DeliveredAt d ∧ hd_GUID d ≠ "" ∧ 0 < hd_ID d.

(** The delivery at which an incremental pass stops. *)
Definition at_boundary (r : GapHealCursor) (d : AppHookDelivery) : Prop :=
  gc_ScanMode r = gapScanIncrement ∧ is_Some (gc_HighWatermarkAt r) ∧
  0 < gc_BoundaryDeliveryID r ∧ hd_ID d = gc_BoundaryDeliveryID r.

Definition has_guid (g : string) (ds : list AppHookDelivery) : Prop :=
  ∃ d, d ∈ ds ∧ hd_GUID d = g.

(** The relation between a scan before and after the deliveries [ds]. *)
Record scan_rel (r : GapHealCursor) (s : scan) (ds : list AppHookDelivery) (s' : scan) : Prop := {
  rel_seen : ∀ g, g ∈ sc_seen s' ↔ g ∈ sc_seen s ∨
    ∃ d, d ∈ ds ∧ eligible r d ∧ hd_GUID d = g;
  rel_candidates : ∃ new, sc_candidates s' = sc_candidates s ++ new ∧
    (∀ d, d ∈ new → d ∈ ds ∧ eligible r d ∧ hd_GUID d ∉ sc_seen s) ∧
    NoDup (hd_GUID <$> new) ∧
    ∀ g, g ∈ sc_seen s' → g ∈ sc_seen s ∨ has_guid g new;
  rel_reached : sc_reachedHighWatermark s' = true ↔
    sc_reachedHighWatermark s = true ∨ ∃ d, d ∈ ds ∧ at_boundary r d;
  rel_within : sc_pageWithinLookback s' = true ↔
    sc_pageWithinLookback s = true ∨
    ∃ d, d ∈ ds ∧ default zero_time (gc_Cutoff r) ≤ hd_DeliveredAt d
}.

Lemma scan_rel_refl r s : scan_rel r s [] s.
Proof.
  split.
  - set_solver.
  - exists []. rewrite app_nil_r. split; [done|]. split; [set_solver|].
    split; [constructor|auto].
  - set_solver.
  - set_solver.
Qed.

#[local] Instance eligible_dec r d : Decision (eligible r d).
Proof. apply _. Defined.

Lemma scan_delivery_reached r cursor s d :
  sc_reachedHighWatermark (scan_delivery r cursor s d) = true ↔
    sc_reachedHighWatermark s = true ∨ at_boundary r d.
Proof.
  unfold scan_delivery, at_boundary. set (b := _ && _ && _ && _).
  assert (b = true ↔ gc_ScanMode r = gapScanIncrement ∧ is_Some (gc_HighWatermarkAt r) ∧
    0 < gc_BoundaryDeliveryID r ∧ hd_ID d = gc_BoundaryDeliveryID r) as Hb.
  { unfold b. rewrite !andb_true_iff, !bool_decide_eq_true, Z.ltb_lt, Z.eqb_eq. tauto. }
  rewrite <- Hb. clearbody b. destruct (Before (hd_DeliveredAt d) (default zero_time (gc_Cutoff r)));
    [|destruct (_ || _)]; cbn; (destruct b; [tauto|split; [auto|by intros [?|?]]]).
Qed.

Lemma scan_delivery_within r cursor s d :
  sc_pageWithinLookback (scan_delivery r cursor s d) = true ↔
    sc_pageWithinLookback s = true ∨ default zero_time (gc_Cutoff r) ≤ hd_DeliveredAt d.
Proof.
  unfold scan_delivery, Before. destruct (Z.ltb_spec (hd_DeliveredAt d) (default zero_time (gc_Cutoff r)));
    [|destruct (_ || _)]; cbn; split; auto; intros [?|?]; (done || lia).
Qed.

Lemma scan_delivery_select r cursor s d :
  let s' := scan_delivery r cursor s d in
  if decide (eligible r d ∧ hd_GUID d ∉ sc_seen s)
  then sc_seen s' = {[hd_GUID d]} ∪ sc_seen s ∧ sc_candidates s' = sc_candidates s ++ [d]
  else sc_seen s' = sc_seen s ∧ sc_candidates s' = sc_candidates s.
Proof.
  unfold scan_delivery, Before, eligible. cbn zeta.
  destruct (Z.ltb_spec (hd_DeliveredAt d) (default zero_time (gc_Cutoff r))) as [Hb|Hb].
  { rewrite decide_False by (intros [[? _] _]; lia). done. }
  destruct (String.eqb_spec (hd_GUID d) "") as [Hg|Hg].
  { rewrite decide_False by (by intros [(_ & ? & _) _]). done. }
  destruct (Z.leb_spec (hd_ID d) 0) as [Hi|Hi].
  { rewrite decide_False by (intros [(_ & _ & ?) _]; lia). done. }
  cbn [orb]. destruct (bool_decide_reflect (hd_GUID d ∈ sc_seen s)) as [Hs|Hs].
  { rewrite decide_False by tauto. done. }
  by rewrite decide_True by (repeat split; done).
Qed.

Lemma scan_delivery_rel r cursor s d : scan_rel r s [d] (scan_delivery r cursor s d).
Proof.
  pose proof (scan_delivery_select r cursor s d) as Hsel. cbn zeta in Hsel. split.
  - intros g. setoid_rewrite list_elem_of_singleton. destruct (decide _) as [[He Hn]|Hn].
    + destruct Hsel as [-> _]. rewrite elem_of_union, elem_of_singleton. naive_solver.
    + destruct Hsel as [-> _]. split; [auto|]. intros [?|(? & -> & He & <-)]; [done|].
      destruct (decide (hd_GUID d ∈ sc_seen s)); tauto.
  - destruct (decide _) as [[He Hn]|Hn]; destruct Hsel as [-> ->].
    + exists [d]. split; [done|]. split; [intros ? ->%list_elem_of_singleton; by rewrite list_elem_of_singleton|].
      split; [apply NoDup_singleton|]. intros g [->%elem_of_singleton|?]%elem_of_union; [|by left].
      right. exists d. by rewrite list_elem_of_singleton.
    + exists []. rewrite app_nil_r. split; [done|]. split; [set_solver|].
      split; [constructor|auto].
  - rewrite scan_delivery_reached. setoid_rewrite list_elem_of_singleton. naive_solver.
  - rewrite scan_delivery_within. setoid_rewrite list_elem_of_singleton. naive_solver.
Qed.

Lemma scan_rel_trans r s1 ds1 s2 ds2 s3 :
  scan_rel r s1 ds1 s2 → scan_rel r s2 ds2 s3 → scan_rel r s1 (ds1 ++ ds2) s3.
Proof.
  intros [A1 (n1 & E1 & B1 & N1 & C1) D1 F1] [A2 (n2 & E2 & B2 & N2 & C2) D2 F2]. split.
  - intros g. rewrite A2, A1. setoid_rewrite elem_of_app. naive_solver.
  - exists (n1 ++ n2). rewrite E2, E1, <- (assoc_L (++)). split; [done|].
    split; [intros d [Hd|Hd]%elem_of_app|split].
    + destruct (B1 d Hd) as (? & ? & ?). rewrite elem_of_app. auto.
    + destruct (B2 d Hd) as (? & ? & Hs). rewrite elem_of_app. rewrite A1 in Hs. naive_solver.
    + rewrite fmap_app. apply NoDup_app. split; [done|]. split; [|done].
      intros g (d & -> & Hd)%list_elem_of_fmap (d2 & Hg & Hd2)%list_elem_of_fmap.
      destruct (B1 d Hd) as (Hin & He & _), (B2 d2 Hd2) as (_ & _ & Hs).
      apply Hs. rewrite A1, <- Hg. eauto.
    + intros g [Hg|(d & Hd & Hg)]%C2.
      * destruct (C1 g Hg) as [?|(d & Hd & ?)]; [auto|]. right. exists d. by rewrite elem_of_app; auto.
      * right. exists d. by rewrite elem_of_app; auto.
  - rewrite D2, D1. setoid_rewrite elem_of_app. naive_solver.
  - rewrite F2, F1. setoid_rewrite elem_of_app. naive_solver.
Qed.

Lemma scan_fold_rel r cursor s ds : scan_rel r s ds (foldl (scan_delivery r cursor) s ds).
Proof.
  revert s. induction ds as [|d ds IH]; intros s; [apply scan_rel_refl|].
  apply (scan_rel_trans _ _ [d] (scan_delivery r cursor s d)); [apply scan_delivery_rel|apply IH].
Qed.

Lemma redeliverMissing_spec redeliver present ds requested ok :
  redeliverMissing redeliver present ds = (requested, ok) →
  requested `sublist_of` ds ∧
  (∀ d, d ∈ requested → hd_GUID d ∉ present) ∧
  (ok = true → ∀ d, d ∈ ds → hd_GUID d ∈ present ∨ d ∈ requested).
Proof.
  revert requested ok. induction ds as [|d ds IH]; intros requested ok; cbn.
  - intros [= <- <-]. split; [constructor|]. set_solver.
  - destruct (bool_decide_reflect (hd_GUID d ∈ present)) as [Hp|Hp].
    + intros (Hs & Hn & Hc)%IH. split; [by constructor|]. split; [done|].
      intros Hok d' [->|Hd']%elem_of_cons; [by left|by apply Hc].
    + destruct (redeliver (hd_ID d)).
      * destruct (redeliverMissing redeliver present ds) as [q o] eqn:E.
        intros [= <- <-]. destruct (IH _ _ eq_refl) as (Hs & Hn & Hc).
        split; [by constructor|]. split; [set_solver|].
        intros Hok d' [->|Hd']%elem_of_cons; [set_solver|].
        destruct (Hc Hok d' Hd'); set_solver.
      * intros [= <- <-]. split; [apply sublist_nil_l|]. set_solver.
Qed.

(** ** What a run has healed *)

(** The ledger had the GUID when a visited page was compared, or its redelivery
    was requested. *)
Definition covered (trace : list visit) (g : string) : Prop :=
  ∃ v, v ∈ trace ∧ (g ∈ v_present v ∨ has_guid g (v_requested v)).

Record trace_inv (trace : list visit) (seen : gset string) : Prop := {
  ti_seen : ∀ g, g ∈ seen → covered trace g;
  ti_covered : ∀ v d, v ∈ trace → d ∈ v_deliveries v → eligible (v_row v) d →
    covered trace (hd_GUID d);
  ti_requested : ∀ v d, v ∈ trace → d ∈ v_requested v →
    d ∈ v_deliveries v ∧ eligible (v_row v) d ∧ (hd_GUID d ∉ v_present v) ∧ hd_GUID d ∈ seen;
  ti_once : NoDup (hd_GUID <$> (trace ≫= v_requested))
}.

Lemma trace_inv_nil : trace_inv [] ∅.
Proof. split; [set_solver|set_solver|set_solver|constructor]. Qed.

Lemma covered_app trace v g : covered trace g → covered (trace ++ [v]) g.
Proof. intros (v' & Hv & H). exists v'. rewrite elem_of_app. auto. Qed.

Lemma trace_inv_snoc trace seen redeliver r cursor ds next high boundary present s requested :
  trace_inv trace seen →
  scan_rel r (mkScan high boundary false false seen []) ds s →
  redeliverMissing redeliver present (sc_candidates s) = (requested, true) →
  trace_inv (trace ++ [mkVisit r cursor ds next present requested]) (sc_seen s).
Proof.
  intros [T1 T2 T3 T4] [A (new & E & B & N & C) _ _] HR.
  apply redeliverMissing_spec in HR as (Hsub & Hmiss & Hall).
  cbn [sc_seen sc_candidates app] in *. rewrite E in *. cbn [app] in *.
  specialize (Hall eq_refl). set (v := mkVisit _ _ _ _ _ _).
  assert (Hin : ∀ d, d ∈ requested → d ∈ new) by (intros; by eapply elem_of_sublist).
  assert (Hnew : ∀ g, g ∈ sc_seen s → covered (trace ++ [v]) g).
  { intros g [Hg|(d & Hd & <-)]%C; [by apply covered_app, T1|].
    exists v. rewrite elem_of_app, list_elem_of_singleton. split; [auto|].
    destruct (Hall d Hd); [by left|right; by exists d]. }
  split.
  - exact Hnew.
  - intros v' d [Hv| ->%list_elem_of_singleton]%elem_of_app Hd He.
    + by eapply covered_app, T2.
    + apply Hnew, A. right. eauto.
  - intros v' d [Hv| ->%list_elem_of_singleton]%elem_of_app Hd.
    + destruct (T3 v' d Hv Hd) as (? & ? & ? & ?). do 3 (split; [done|]). apply A. by left.
    + cbn in Hd |- *. destruct (B d (Hin d Hd)) as (? & ? & _).
      do 2 (split; [done|]). split; [by apply Hmiss|]. apply A. right. eauto.
  - rewrite bind_app, fmap_app. cbn. rewrite app_nil_r. apply NoDup_app.
    split; [done|]. split.
    + intros g (d & -> & (v' & Hd & Hv)%list_elem_of_bind)%list_elem_of_fmap
        (d2 & Hg & Hd2)%list_elem_of_fmap.
      destruct (T3 v' d Hv Hd) as (_ & _ & _ & Hs), (B d2 (Hin d2 Hd2)) as (_ & _ & Hn).
      by rewrite <- Hg in Hn.
    + eapply sublist_NoDup; [exact N|]. by apply fmap_sublist.
Qed.

(** A page that ends the pass. *)
Definition terminal (v : visit) : Prop :=
  v_next v = "" ∨ (∃ d, d ∈ v_deliveries v ∧ at_boundary (v_row v) d) ∨
  (v_deliveries v ≠ [] ∧ ∀ d, d ∈ v_deliveries v →
    hd_DeliveredAt d < default zero_time (gc_Cutoff (v_row v))).

Lemma last_page_terminal r cursor ds next high boundary seen present requested s :
  scan_rel r (mkScan high boundary false false seen []) ds s →
  last_page ds next s = true ↔ terminal (mkVisit r cursor ds next present requested).
Proof.
  intros [_ _ Hr Hw]. unfold last_page, terminal.
  cbn [v_next v_deliveries v_row sc_reachedHighWatermark sc_pageWithinLookback] in *.
  rewrite !orb_true_iff, andb_true_iff, negb_true_iff, Hr, String.eqb_eq, Nat.ltb_lt.
  rewrite <- not_true_iff_false, Hw. split.
  - intros [[?|[?|?]]|[Hl Hn]]; [by left|done|by right; left|right; right].
    split; [by destruct ds; cbn in *; [lia|]|]. intros d Hd. apply Z.nle_gt. intros Hle.
    apply Hn. right. eauto.
  - intros [?|[?|[Hl Hn]]]; [by left; left|left; right; by right|right].
    split; [destruct ds; cbn; [done|lia]|]. intros [?|(d & Hd & Hle)]; [done|].
    specialize (Hn d Hd). lia.
Qed.

Section run_facts.
Context {J : Type} (InsertTx : GapHealArgs → time → J → J) (c : Config).

Lemma list_page_seen (e : page_env (J := J)) token st w st' page w' :
  list_page c e token st w = (Ok (st', page), w') → ps_seen st' = ps_seen st.
Proof.
  unfold list_page. destruct (pe_list e (ps_cursor st)) as [p|err]; [by intros [= <- <- <-]|].
  destruct (_ && _); [|done]. destruct (restartGapWindow _ _ _ _ _) as [[r w1]|]; [|done].
  destruct (pe_list_again _ _); [|done]. by intros [= <- <- <-].
Qed.

Lemma heal_pages_inv hasRiver env token remaining : ∀ number st trace w,
  trace_inv trace (ps_seen st) →
  let run := heal_pages (J := J) InsertTx c hasRiver env token remaining number st trace w in
  (∃ seen, trace_inv (run_trace run) seen) ∧
  (run_result run = Ok WindowCompleted → ∃ v, last (run_trace run) = Some v ∧ terminal v).
Proof.
  induction remaining as [|remaining IH]; intros number st trace w Hinv; [by split; [eexists|]|].
  cbn [heal_pages]. destruct (list_page _ _ _ _ _) as [[[st' [ds next]]|] w1] eqn:El;
    [|by split; [eexists|]].
  apply list_page_seen in El. rewrite <- El in Hinv.
  destruct (redeliverMissing _ _ _) as [requested ok] eqn:Er.
  destruct ok; [|by split; [eexists|]]. cbn [negb].
  pose proof (scan_fold_rel (ps_row st') (ps_cursor st')
    (mkScan (ps_observedHigh st') (ps_observedBoundary st') false false (ps_seen st') []) ds) as Hrel.
  pose proof (trace_inv_snoc _ _ _ _ (ps_cursor st') _ next _ _ _ _ _ Hinv Hrel Er) as Hinv'.
  fold (scan_page st' ds) in *.
  destruct (last_page ds next (scan_page st' ds)) eqn:Elast.
  - destruct (completeGapWindow _ _ _ _ _ _ _); cbn; (split; [by eexists|]); [|done].
    intros _. rewrite last_snoc. eexists. split; [done|].
    by eapply last_page_terminal.
  - destruct (advanceGapWindow _ _ _ _ _ _ _ _ _ _ _); [|by split; [eexists|]].
    destruct (_ =? _)%nat; [by split; [eexists|]|]. by apply IH.
Qed.
End run_facts.


(** ** A pass comes to its end *)

Section liveness.
Context {J : Type} (InsertTx : GapHealArgs → time → J → J) (is_live : J → GapHealArgs → Prop).
(** River keeps an inserted job, or the live one it duplicates. *)
Hypothesis InsertTx_live : ∀ a at_time j, is_live (InsertTx a at_time j) a.

Context (c : Config) (freshToken : string) (listing : string → option (list AppHookDelivery * string)).

(** GitHub's log from a cursor to its last page. *)
Inductive log_from : string → list (string * list AppHookDelivery * string) → Prop :=
  | log_last cur ds : listing cur = Some (ds, "") → log_from cur [(cur, ds, "")]
  | log_next cur ds next pages :
      listing cur = Some (ds, next) → next ≠ "" → log_from next pages →
      log_from cur ((cur, ds, next) :: pages).

Definition answer (cur : string) : list_answer :=
  match listing cur with Some page => Ok page | None => Err ListFailed end.

(** Pages that GitHub serves and redelivers, with no other worker. *)
Definition quiet_env (commit : nat → time) (number : nat) : page_env (J := J) :=
  mkEnv answer id zero_time answer id (λ _, true) id (commit number).

Definition job (start : time) (commit : nat → time) (args : GapHealArgs) (w : gap_world (J := J))
    : gap_run (J := J) :=
  HealDeliveryGaps InsertTx c true true freshToken (quiet_env commit) start args w.

(** Jobs that follow each other's continuations until the window is complete;
    [clock] gives the start and commit times of each. *)
Inductive drains : nat → list (time * (nat → time)) → GapHealArgs → gap_world (J := J) →
    list visit → gap_world (J := J) → Prop :=
  | drain_done start commit clock args w :
      run_result (job start commit args w) = Ok WindowCompleted →
      drains 1 ((start, commit) :: clock) args w
        (run_trace (job start commit args w)) (run_world (job start commit args w))
  | drain_more n start commit clock args w args' trace w' :
      run_result (job start commit args w) = Ok WindowCapped →
      is_live (gap_jobs (run_world (job start commit args w))) args' →
      drains n clock args' (run_world (job start commit args w)) trace w' →
      drains (S n) ((start, commit) :: clock) args w
        (run_trace (job start commit args w) ++ trace) w'.

Definition page_of (v : visit) : string * list AppHookDelivery * string :=
  (v_cursor v, v_deliveries v, v_next v).

(** The pass of [token] stands at [cur]. *)
Definition in_pass (token cur : string) (started : time) (w : gap_world (J := J)) : Prop :=
  ∃ r, gap_cursors w !! InstallationID c = Some r ∧ gc_Cursor r = cur ∧
    gc_LeaseToken r = Some token ∧ gc_CompletedAt r = None ∧ gc_StartedAt r = Some started ∧
    gapCursorShapeCompatible c r = true.

Definition window_completed (w : gap_world (J := J)) : Prop :=
  ∃ r, gap_cursors w !! InstallationID c = Some r ∧ is_Some (gc_CompletedAt r).

Lemma fenced_ok r token cur :
  gc_Cursor r = cur → gc_LeaseToken r = Some token → gc_CompletedAt r = None →
  fenced cur token r = true.
Proof.
  intros <- Ht Hc. unfold fenced. rewrite Ht, Hc, String.eqb_refl.
  by rewrite !bool_decide_eq_true_2.
Qed.

Lemma redeliver_all present ds :
  ∃ requested, redeliverMissing (λ _, true) present ds = (requested, true).
Proof.
  induction ds as [|d ds [q IH]]; cbn; [by eexists|].
  destruct (bool_decide _); [by eexists|]. rewrite IH. by eexists.
Qed.

(** The rest of a job, from a page of the log. *)
Lemma heal_pages_quiet token commit started remaining : ∀ number st trace w pages run,
  log_from (ps_cursor st) pages → in_pass token (ps_cursor st) started w →
  heal_pages InsertTx c true (quiet_env commit) token (S remaining) number st trace w = run →
  ∃ tr, run_trace run = trace ++ tr ∧ tr ≠ [] ∧ page_of <$> tr = take (length tr) pages ∧
    ((run_result run = Ok WindowCompleted ∧ window_completed (run_world run)) ∨
     (run_result run = Ok WindowCapped ∧ ∃ cur', in_pass token cur' started (run_world run) ∧
        log_from cur' (drop (length tr) pages) ∧
        is_live (gap_jobs (run_world run)) (mkGapArgs (InstallationID c) cur' token))).
Proof.
  induction remaining as [remaining IH] using lt_wf_ind; intros number st trace w pages run Hlog Hpass.
  assert (∃ ds next rest, listing (ps_cursor st) = Some (ds, next) ∧
    pages = (ps_cursor st, ds, next) :: rest ∧ (next ≠ "" → log_from next rest))
    as (ds & next & rest & Hl & -> & Hrest).
  { inversion Hlog as [cur ds Hl|cur ds next rest Hl Hne Hr]; subst.
    - by exists ds, "", [].
    - by exists ds, next, rest. }
  cbn [heal_pages]. unfold list_page. cbn [quiet_env pe_list]. unfold answer. rewrite Hl.
  cbn [quiet_env pe_before_compare pe_redeliver pe_before_commit pe_commit_now id].
  destruct (redeliver_all (ledger_guids w) (sc_candidates (scan_page st ds))) as [requested ->].
  cbn [negb]. set (v := mkVisit _ _ _ _ _ _).
  destruct Hpass as (r & Hr & Hcur & Htok & Hcomp & Hst & Hshape).
  pose proof (fenced_ok r token _ Hcur Htok Hcomp) as Hf.
  destruct (last_page ds next (scan_page st ds)) eqn:Hlast.
  - unfold completeGapWindow, CompleteGapHealCursor. rewrite Hr. cbn [mbind option_bind].
    rewrite Hf. intros <-. exists [v]. cbn. split; [done|]. split; [done|]. split; [done|]. left.
    split; [done|]. eexists. split; [apply lookup_insert_eq|]. by eexists.
  - assert (Hne : next ≠ "").
    { intros ->. unfold last_page in Hlast. by rewrite String.eqb_refl in Hlast. }
    unfold advanceGapWindow, AdvanceGapHealCursor. rewrite Hr. cbn [mbind option_bind].
    rewrite Hf. set (row' := advance_row _ _ _ _ _ _).
    assert (Hin : ∀ j, in_pass token next started
      (mkGapWorld (<[InstallationID c := row']> (gap_cursors w)) (ledger_guids w) j)).
    { intros j. exists row'. cbn. rewrite lookup_insert_eq. done. }
    destruct remaining as [|remaining].
    + cbn. intros <-. exists [v]. split; [done|]. split; [done|]. split; [done|]. right.
      split; [done|]. exists next. cbn [gap_jobs]. split; [apply Hin|]. split; [by apply Hrest|].
      apply InsertTx_live.
    + cbn [Nat.eqb].
      intros (tr & Htr & Hnil & Hmap & Hres)%(IH remaining ltac:(lia) _ _ _ _ rest);
        [|by apply Hrest|by apply Hin].
      exists (v :: tr). rewrite Htr, <- (assoc_L (++)). split; [done|]. split; [done|].
      cbn. rewrite Hmap. split; [done|]. exact Hres.
Qed.

Lemma shape_of_start cutoff started high boundary mode token until r :
  gapCursorShapeCompatible c
    (start_row cutoff started high boundary mode (gapLookback c) (wrap32 (GapPageSize c))
       token until r) = true.
Proof. unfold gapCursorShapeCompatible, start_row. cbn. by rewrite !Z.eqb_refl. Qed.

(** Every acquired row is a pass of the job's token. *)
Lemma load_in_pass now args t r t' :
  loadOrStartGapWindow c now args t = Some (r, t') →
  ∃ started, gc_StartedAt r = Some started ∧
    ∀ w, in_pass (ga_LeaseToken args) (gc_Cursor r) started (set_cursors t' w).
Proof.
  unfold loadOrStartGapWindow. intros (r0 & Hr0 & H)%bind_Some.
  assert (Hgo : ∀ r1 started, Some (r1, <[InstallationID c := r1]>
      (EnsureGapHealCursor now (InstallationID c) t)) = Some (r, t') →
    gc_LeaseToken r1 = Some (ga_LeaseToken args) → gc_CompletedAt r1 = None →
    gc_StartedAt r1 = Some started → gapCursorShapeCompatible c r1 = true →
    ∃ started, gc_StartedAt r = Some started ∧
      ∀ w, in_pass (ga_LeaseToken args) (gc_Cursor r) started (set_cursors t' w)).
  { intros r1 started [= <- <-] ? ? ? ?. exists started. split; [done|]. intros w.
    exists r1. cbn. rewrite lookup_insert_eq. done. }
  destruct (bool_decide (gc_StartedAt r0 = None) || _) eqn:Hopen.
  { destruct (negb _); [done|]. eapply Hgo; [done..|]. apply shape_of_start. }
  destruct (_ && _); [done|]. destruct (leaseHeld _ _ _); [done|].
  destruct (negb _ || _) eqn:Hstale.
  { eapply Hgo; [done..|]. apply shape_of_start. }
  apply orb_false_iff in Hopen as [Hs Hc]. apply bool_decide_eq_false in Hs, Hc.
  apply orb_false_iff in Hstale as [Hsh%negb_false_iff _].
  destruct (gc_StartedAt r0) as [started|] eqn:Est; [|done].
  eapply (Hgo _ started); [done|done| |done|done].
  cbn. destruct (gc_CompletedAt r0); [|done]. by destruct Hc.
Qed.

(** The continuation of a pass is acquired at its cursor. *)
Lemma load_continuation now token cur started w :
  in_pass token cur started w → now - gapLookback c ≤ started →
  ∃ r t, loadOrStartGapWindow c now (mkGapArgs (InstallationID c) cur token) (gap_cursors w)
    = Some (r, t) ∧ gc_Cursor r = cur ∧ gc_StartedAt r = Some started.
Proof.
  intros (r & Hr & Hcur & Htok & Hcomp & Hst & Hsh) Hnow.
  unfold loadOrStartGapWindow, EnsureGapHealCursor. rewrite Hr.
  cbn [mbind option_bind ga_Cursor ga_LeaseToken]. rewrite Hr. cbn [mbind option_bind].
  rewrite Hst, Hcomp, Hcur, Hsh, String.eqb_refl, andb_false_r.
  cbn [default negb orb]. unfold leaseHeld. rewrite Htok, String.eqb_refl.
  unfold Before. rewrite (proj2 (Z.ltb_ge started _)) by done.
  destruct (gc_LeaseUntil r); cbn; eexists _, _; (split; [reflexivity|]); cbn; auto.
Qed.

Lemma job_trace_inv start commit args w :
  ∃ seen, trace_inv (run_trace (job start commit args w)) seen.
Proof.
  unfold job, HealDeliveryGaps. destruct (negb _); [exists ∅; apply trace_inv_nil|].
  cbn [negb]. destruct (loadOrStartGapWindow _ _ _ _) as [[r t]|];
    [|exists ∅; apply trace_inv_nil].
  eapply (heal_pages_inv InsertTx c), trace_inv_nil.
Qed.

Lemma job_completed_terminal start commit args w :
  run_result (job start commit args w) = Ok WindowCompleted →
  ∃ v, last (run_trace (job start commit args w)) = Some v ∧ terminal v.
Proof.
  unfold job, HealDeliveryGaps. destruct (negb _); [done|].
  cbn [negb]. destruct (loadOrStartGapWindow _ _ _ _) as [[r t]|]; [|done].
  eapply (heal_pages_inv InsertTx c), trace_inv_nil.
Qed.

(** An acquired job of the pass: it completes it, or hands over to its
    continuation further down the log. *)
Lemma job_quiet start commit args w r t pages :
  ga_Installation args = InstallationID c → ga_LeaseToken args ≠ "" → 0 < GapMaxPages c →
  loadOrStartGapWindow c start args (gap_cursors w) = Some (r, t) →
  log_from (gc_Cursor r) pages →
  let run := job start commit args w in
  run_trace run ≠ [] ∧ page_of <$> run_trace run = take (length (run_trace run)) pages ∧
  ((run_result run = Ok WindowCompleted ∧ window_completed (run_world run)) ∨
   (run_result run = Ok WindowCapped ∧ ∃ cur' started, gc_StartedAt r = Some started ∧
      in_pass (ga_LeaseToken args) cur' started (run_world run) ∧
      log_from cur' (drop (length (run_trace run)) pages) ∧
      is_live (gap_jobs (run_world run)) (mkGapArgs (InstallationID c) cur' (ga_LeaseToken args)))).
Proof.
  intros Hi Htok Hmax Hload Hlog run.
  destruct (load_in_pass _ _ _ _ _ Hload) as (started & Hst & Hin).
  assert (Hrun : run = heal_pages InsertTx c true (quiet_env commit) (ga_LeaseToken args)
    (S (pred (Z.to_nat (GapMaxPages c)))) 0 (pass_of r ∅ false) [] (set_cursors t w)).
  { rewrite Nat.succ_pred by lia. unfold run, job, HealDeliveryGaps. rewrite Hi, Z.eqb_refl. cbn [negb].
    rewrite (proj2 (String.eqb_neq _ _)) by done.
    destruct args as [i cur tok]. cbn in Hi, Hload |- *. subst i.
    by rewrite Hload. }
  symmetry in Hrun. eapply heal_pages_quiet in Hrun as (tr & Htr & Hnil & Hmap & Hres);
    [|exact Hlog|apply Hin].
  cbn [app] in Htr. rewrite Htr. split; [done|]. split; [done|].
  destruct Hres as [?|(? & cur' & ? & ? & ?)]; [by left|right]. split; [done|].
  exists cur', started. done.
Qed.

Lemma drains_covers n clock args w trace w' :
  drains n clock args w trace w' →
  (∀ v d, v ∈ trace → d ∈ v_deliveries v → eligible (v_row v) d → covered trace (hd_GUID d)) ∧
  ∃ v, last trace = Some v ∧ terminal v.
Proof.
  induction 1 as [start commit clock args w Hdone|n start commit clock args w args' trace w'
    Hcap Hlive _ [IH1 (v & IH2 & IH3)]].
  - destruct (job_trace_inv start commit args w) as [seen [_ T _ _]].
    split; [done|by apply job_completed_terminal].
  - destruct (job_trace_inv start commit args w) as [seen [_ T _ _]]. split.
    + intros v' d [Hv|Hv]%elem_of_app Hd He.
      * destruct (T v' d Hv Hd He) as (u & Hu & ?). exists u. rewrite elem_of_app. auto.
      * destruct (IH1 v' d Hv Hd He) as (u & Hu & ?). exists u. rewrite elem_of_app. auto.
    + exists v. rewrite last_app, IH2. done.
Qed.

Lemma drains_exist pages : ∀ clock args w r t start commit,
  ga_Installation args = InstallationID c → ga_LeaseToken args ≠ "" → 0 < GapMaxPages c →
  loadOrStartGapWindow c start args (gap_cursors w) = Some (r, t) →
  log_from (gc_Cursor r) pages → (length pages ≤ S (length clock))%nat →
  (∀ started start' commit', gc_StartedAt r = Some started → (start', commit') ∈ clock →
     start' - gapLookback c ≤ started) →
  ∃ n trace w', drains n ((start, commit) :: clock) args w trace w' ∧
    (n ≤ length pages)%nat ∧ page_of <$> trace = take (length trace) pages ∧
    window_completed w'.
Proof.
  induction pages as [pages IH] using (induction_ltof1 _ length).
  intros clock args w r t start commit Hi Htok Hmax Hload Hlog Hlen Hclock.
  pose proof (job_quiet start commit args w r t pages Hi Htok Hmax Hload Hlog) as Hjob.
  cbn zeta in Hjob. set (run := job start commit args w) in *.
  destruct Hjob as (Hne & Hmap & [[Hdone Hw]|(Hcap & cur' & started & Hst & Hin & Hlog' & Hlive)]).
  - exists 1%nat, (run_trace run), (run_world run). split; [by apply drain_done|].
    split; [inversion Hlog; cbn; lia|done].
  - set (k := length (run_trace run)) in *.
    assert (Hk : (0 < k)%nat) by (unfold k; destruct (run_trace run); cbn; [done|lia]).
    assert (Hpos : (0 < length (drop k pages))%nat) by (inversion Hlog'; cbn; lia).
    rewrite length_drop in Hpos.
    destruct clock as [|[start' commit'] clock]; [cbn in Hlen; lia|].
    destruct (load_continuation start' (ga_LeaseToken args) cur' started (run_world run) Hin)
      as (r' & t' & Hload' & Hcur' & Hst').
    { eapply Hclock; [done|by left]. }
    destruct (IH (drop k pages)) with (clock := clock) (start := start') (commit := commit')
      (args := mkGapArgs (InstallationID c) cur' (ga_LeaseToken args)) (w := run_world run)
      (r := r') (t := t') as (n & trace & w' & Hdr & Hn & Hmap' & Hw'); try done.
    { unfold ltof. rewrite length_drop. lia. }
    { by rewrite Hcur'. }
    { rewrite length_drop. cbn in Hlen. lia. }
    { intros s0 s1 c1 Hs0 Hc1. rewrite Hst' in Hs0. injection Hs0 as <-.
      eapply Hclock; [done|by right]. }
    rewrite length_drop in Hn.
    exists (S n), (run_trace run ++ trace), w'. split; [by eapply drain_more|].
    split; [lia|]. split; [|done].
    rewrite fmap_app, Hmap, Hmap', length_app. fold k.
    rewrite <- take_take_drop. done.
Qed.

(** A pass ends. Once a job has acquired the window, the job and the
    continuations it schedules complete it, in at most as many jobs as the log has
    pages: they visit the pages of the log in order up to one that ends the pass,
    and every delivery on them that lies in the window is in the ledger or its
    redelivery was requested. The jobs have to start within the lookback of the
    pass's start, and each continuation is a live River job. *)
Theorem gap_pass_drains pages clock args w r t start commit :
  ga_Installation args = InstallationID c → ga_LeaseToken args ≠ "" → 0 < GapMaxPages c →
  loadOrStartGapWindow c start args (gap_cursors w) = Some (r, t) →
  log_from (gc_Cursor r) pages → (length pages ≤ S (length clock))%nat →
  (∀ started start' commit', gc_StartedAt r = Some started → (start', commit') ∈ clock →
     start' - gapLookback c ≤ started) →
  ∃ n trace w', drains n ((start, commit) :: clock) args w trace w' ∧
    (n ≤ length pages)%nat ∧ page_of <$> trace = take (length trace) pages ∧
    (∃ v, last trace = Some v ∧ terminal v) ∧
    (∀ v d, v ∈ trace → d ∈ v_deliveries v → eligible (v_row v) d →
       covered trace (hd_GUID d)) ∧
    window_completed w'.
Proof.
  intros Hi Htok Hmax Hload Hlog Hlen Hclock.
  destruct (drains_exist pages clock args w r t start commit) as (n & trace & w' & Hd & ? & ? & ?);
    try done.
  destruct (drains_covers _ _ _ _ _ _ Hd) as [? ?]. by exists n, trace, w'.
Qed.
End liveness.

(** River as a list of live jobs. *)
Definition list_insert (a : GapHealArgs) (_ : time) (j : list GapHealArgs) : list GapHealArgs :=
  a :: j.

Lemma list_insert_live a at_time j : a ∈ list_insert a at_time j.
Proof. apply list_elem_of_here. Qed.

Definition one_page_config : Config :=
  mkConfig 1 (10 * Minute) (10 * Minute) (24 * Hour) (24 * Hour) (6 * Hour) 100 (5 * Minute)
    (24 * Hour) 100 1 (5 * Minute) (30 * Second) (24 * Hour) Hour (2160 * Hour) 500 0 0 0.

Definition two_pages (cur : string) : option (list AppHookDelivery * string) :=
  if String.eqb cur "" then Some ([mkHook 7 "g7" (Unix 1000000)], "c2")
  else if String.eqb cur "c2" then Some ([mkHook 5 "g5" (Unix 999000)], "")
  else None.

Definition empty_world : gap_world (J := list GapHealArgs) := mkGapWorld ∅ {["g7"]} [].

Lemma gap_pass_drains_witness :
  ∃ n trace w', drains list_insert (λ j a, a ∈ j) one_page_config "fresh" two_pages n
      [(Unix 1000100, λ _, Unix 1000200); (Unix 1000300, λ _, Unix 1000400)]
      (mkGapArgs 1 "" "token") empty_world trace w' ∧
    (n ≤ 2)%nat ∧
    page_of <$> trace = take (length trace)
      [("", [mkHook 7 "g7" (Unix 1000000)], "c2"); ("c2", [mkHook 5 "g5" (Unix 999000)], "")] ∧
    (∃ v, last trace = Some v ∧ terminal v) ∧
    (∀ v d, v ∈ trace → d ∈ v_deliveries v → eligible (v_row v) d →
       covered trace (hd_GUID d)) ∧
    window_completed one_page_config w'.
Proof.
  apply (gap_pass_drains list_insert (λ j a, a ∈ j) list_insert_live one_page_config
    "fresh" two_pages
    [("", [mkHook 7 "g7" (Unix 1000000)], "c2"); ("c2", [mkHook 5 "g5" (Unix 999000)], "")]
    [(Unix 1000300, λ _, Unix 1000400)] (mkGapArgs 1 "" "token") empty_world
    (new_window one_page_config (Unix 1000100) (mkGapArgs 1 "" "token")
       (empty_gap_row (Unix 1000100)))
    {[1 := new_window one_page_config (Unix 1000100) (mkGapArgs 1 "" "token")
       (empty_gap_row (Unix 1000100))]} (Unix 1000100) (λ _, Unix 1000200)).
  - reflexivity.
  - discriminate.
  - vm_compute. reflexivity.
  - vm_compute. reflexivity.
  - apply (log_next two_pages "" _ "c2"); [reflexivity|discriminate|].
    apply (log_last two_pages "c2"). reflexivity.
  - cbn. lia.
  - intros started start' commit' Hs [= -> ->]%list_elem_of_singleton.
    injection Hs as <-. vm_compute. discriminate.
Defined.

(** ** The lease *)

Lemma complete_not_fenced {J} c now expected high boundary token (w : gap_world (J := J)) r :
  gap_cursors w !! InstallationID c = Some r → gc_LeaseToken r ≠ Some token →
  completeGapWindow c now expected high boundary token w = Err ErrGapHealLeaseLost.
Proof.
  intros Hr Ht. unfold completeGapWindow, CompleteGapHealCursor, fenced. rewrite Hr. cbn.
  by rewrite (bool_decide_eq_false_2 _ Ht), andb_false_r.
Qed.

Lemma advance_not_fenced {J} (InsertTx : GapHealArgs → time → J → J) c hasRiver now expected next
    high boundary continue token (w : gap_world (J := J)) r :
  gap_cursors w !! InstallationID c = Some r → gc_LeaseToken r ≠ Some token →
  advanceGapWindow InsertTx c hasRiver now expected next high boundary continue token w =
    Err ErrGapHealLeaseLost.
Proof.
  intros Hr Ht. unfold advanceGapWindow, AdvanceGapHealCursor, fenced. rewrite Hr. cbn.
  by rewrite (bool_decide_eq_false_2 _ Ht), andb_false_r.
Qed.

(** The lease excludes. While a worker's lease on an open pass has not expired,
    a job with another token neither lists nor writes anything; and a worker whose
    token is no longer on the row can neither advance, complete, restart nor renew:
    it ends with a lost lease and leaves the row as it is. *)
Theorem gap_lease_exclusive {J : Type} (InsertTx : GapHealArgs → time → J → J) c hasRiver
    freshToken env (w : gap_world (J := J)) r held until token :
  gap_cursors w !! InstallationID c = Some r → gc_LeaseToken r = Some held →
  gc_LeaseUntil r = Some until → gc_CompletedAt r = None → is_Some (gc_StartedAt r) →
  token ≠ held →
  (∀ now cursor, now < until → token ≠ "" →
     HealDeliveryGaps InsertTx c true hasRiver freshToken env now
       (mkGapArgs (InstallationID c) cursor token) w = mkRun (Ok NotAcquired) w []) ∧
  (∀ now expected next high boundary continue,
     advanceGapWindow InsertTx c hasRiver now expected next high boundary continue token w =
       Err ErrGapHealLeaseLost) ∧
  (∀ now expected high boundary,
     completeGapWindow c now expected high boundary token w = Err ErrGapHealLeaseLost) ∧
  (∀ now row, restartGapWindow c now row token w = Err ErrGapHealLeaseLost) ∧
  (∀ leaseUntil, RenewGapHealLease leaseUntil (InstallationID c) token (gap_cursors w) = None).
Proof.
  intros Hr Hheld Huntil Hcomp [started Hst] Hne.
  assert (Hno : gc_LeaseToken r ≠ Some token) by congruence.
  split; [|split; [|split; [|split]]].
  - intros now cursor Hnow Htok. unfold HealDeliveryGaps.
    cbn [ga_Installation ga_LeaseToken ga_Cursor negb]. rewrite Z.eqb_refl. cbn [negb].
    rewrite (proj2 (String.eqb_neq token "")) by done.
    unfold loadOrStartGapWindow, EnsureGapHealCursor. rewrite Hr. cbn [mbind option_bind].
    rewrite Hr. cbn [mbind option_bind]. rewrite Hst, Hcomp. cbn [ga_Cursor ga_LeaseToken].
    rewrite (bool_decide_eq_false_2 (Some started = None)) by done.
    rewrite (bool_decide_eq_false_2 (is_Some None)) by (by intros [? ?]). cbn [orb].
    destruct (_ && _); [done|]. unfold leaseHeld. rewrite Hheld, Huntil.
    rewrite (proj2 (String.eqb_neq held token)) by done. unfold Before.
    by rewrite (proj2 (Z.ltb_lt now until)).
  - intros. by eapply advance_not_fenced.
  - intros. by eapply complete_not_fenced.
  - intros. unfold restartGapWindow, RestartGapHealCursor, fenced. rewrite Hr. cbn.
    by rewrite (bool_decide_eq_false_2 _ Hno), andb_false_r.
  - intros. unfold RenewGapHealLease. rewrite Hr. cbn. by rewrite (bool_decide_eq_false_2 _ Hno).
Qed.

(** A world in which token [a] holds the lease of installation 1. *)
Definition leased_world : gap_world (J := list GapHealArgs) :=
  mkGapWorld {[1 := new_window one_page_config (Unix 1000100) (mkGapArgs 1 "" "a")
                 (empty_gap_row (Unix 1000100))]} ∅ [].

Lemma gap_lease_exclusive_witness :
  HealDeliveryGaps list_insert one_page_config true true "fresh" (λ _, quiet_env two_pages (λ _, 0) 0)
    (Unix 1000200) (mkGapArgs 1 "" "b") leased_world = mkRun (Ok NotAcquired) leased_world [].
Proof.
  refine (proj1 (gap_lease_exclusive list_insert one_page_config true "fresh"
    (λ _, quiet_env two_pages (λ _, 0) 0) leased_world _ "a" _ "b" _ _ _ _ _ _) (Unix 1000200) "" _ _).
  all: try (vm_compute; reflexivity).
  all: try discriminate.
  by eexists.
Defined.

(** ** The cutoff of a deep scan *)

Lemma gapLookback_eq c : validate c = None → gapLookback c = GapWindow c + GapDeepScanPeriod c.
Proof.
  intros (Hpos & _ & Hret & _)%validate_ok. apply wrap64_id.
  assert (0 < GapWindow c ∧ 0 < GapDeepScanPeriod c) as [? ?].
  { split; apply Hpos; unfold config_durations; rewrite !elem_of_cons; tauto. }
  unfold in_int64, githubDeliveryRetention, Hour, Minute, Second in *. lia.
Qed.

(** A deep scan looks far enough back and no further than GitHub keeps
    deliveries: its cutoff lies between the retention limit and the full lookback,
    and it overlaps the start of the previous deep scan by the whole window unless
    that is past the retention limit. *)
Theorem deep_cutoff_bounds c now r :
  validate c = None →
  now - githubDeliveryRetention ≤ gapDeepCutoff c now r ≤
    now - (GapWindow c + GapDeepScanPeriod c) ∧
  (∀ deep, gc_LastDeepStartedAt r = Some deep →
     gapDeepCutoff c now r ≤ Z.max (deep - GapWindow c) (now - githubDeliveryRetention)).
Proof.
  intros Hv. pose proof (gapLookback_eq c Hv) as Hl.
  pose proof (validate_ok c Hv) as (_ & _ & Hret & _).
  unfold gapDeepCutoff, Before. rewrite Hl.
  split; [|intros deep ->]; repeat case_match; to_props; lia.
Qed.

Lemma deep_cutoff_bounds_witness :
  let r := empty_gap_row (Unix 0) in
  (Unix 500000 - githubDeliveryRetention ≤ gapDeepCutoff one_page_config (Unix 500000) r ≤
    Unix 500000 - (GapWindow one_page_config + GapDeepScanPeriod one_page_config)) ∧
  (∀ deep, gc_LastDeepStartedAt r = Some deep →
     gapDeepCutoff one_page_config (Unix 500000) r ≤
       Z.max (deep - GapWindow one_page_config) (Unix 500000 - githubDeliveryRetention)).
Proof. apply deep_cutoff_bounds. vm_compute. reflexivity. Defined.

(** ** A cursor that expires inside a job *)

(** The second page's cursor is rejected: the restart expects the cursor the job
    started from, which the row no longer has, so the job ends as if its lease were
    lost although the row still carries its token. *)
Example rejected_cursor_reported_as_lost_lease :
  let cfg := example_config in
  let expired (cur : string) : list_answer :=
    if String.eqb cur "" then Ok ([mkHook 7 "g7" (Unix 1000000)], "c2")
    else Err InvalidDeliveryCursor in
  let e := mkEnv (J := list GapHealArgs) expired id (Unix 1000200) expired id (λ _, true) id
             (Unix 1000150) in
  let run := HealDeliveryGaps list_insert cfg true true "fresh" (λ _, e) (Unix 1000100)
               (mkGapArgs 1 "" "token") empty_world in
  run_result run = Err ErrGapHealLeaseLost ∧
  match gap_cursors (run_world run) !! 1 with
  | Some r => gc_LeaseToken r = Some "token" ∧ gc_Cursor r = "c2" ∧ gc_CompletedAt r = None
  | None => False
  end.
Proof. vm_compute. done. Qed.
