(* ===== verification/Sweep.v ===== *)
(** * Reconciliation sweeps

    [internal/sweep/reconcile.go], the stale-row fan-outs of [sweep.go] and their
    statements of [internal/store/dbgen/sweep.sql.go]. A kickoff enqueues refreshes
    for rows that come due and starts or resumes a listing per scope; a page job
    fetches one page of the listing, records the keys it saw and moves the cursor;
    the last page enqueues a verification fetch for each cached entity the listing
    did not show. GitHub's pages, the clock and the cache rows are arguments; River
    is the class of the refresh queue for pointers and [PageRiver] for page jobs. *)

From Stdlib Require Import ZArith Lia Bool String.
From stdpp Require Import strings numbers gmap sets sorting base list.
From S2P Require Import Prelude GoStrings Keys RefreshQueue EntityWriter SweepSchedule.

Local Open Scope Z_scope.

(** ** Rows *)

(** Installation, sweep kind and scope. *)
Abbreviation sweep_id := (Z * string * string)%type.

Record SweepCursor : Type := mkSweepCursor {
  sc_Cursor : string;
  sc_StartedAt : option time;
  sc_UpdatedAt : time;
  sc_CompletedAt : option time;
  sc_PassNewCount : Z
}.

Record SweepPage : Type := mkSweepPage {
  sp_Etag : string;
  sp_NextCursor : string;
  sp_EntityKeys : list string;
  sp_ListSeenAt : time
}.

(** The columns of [stacks] and [pull_requests] the sweep statements read. *)
Record sweep_stack : Type := mkSweepStack {
  ss_repo_id : Z;
  ss_number : Z;
  ss_open : bool;
  ss_tombstoned : bool;
  ss_last_checked_at : time;
  ss_display_until : option time
}.

Record sweep_pull : Type := mkSweepPull {
  sl_repo_id : Z;
  sl_number : Z;
  sl_state : string;
  sl_tombstoned : bool;
  sl_last_checked_at : time;
  sl_display_until : option time
}.

(** The cache as the sweeps read it; [rule_checked] is [last_checked_at] of
    [repo_rule_sync_state] by repository. *)
Record sweep_cache : Type := mkSweepCache {
  cached_repos : list repo_row;
  cached_stacks : list sweep_stack;
  cached_pulls : list sweep_pull;
  rule_checked : gmap Z time
}.

Record ListPageArgs : Type := mkPageArgs {
  lp_SweepKind : string;
  lp_Installation : Z;
  lp_ScopeKey : string;
  lp_Cursor : string
}.

#[export] Instance ListPageArgs_eq_dec : EqDecision ListPageArgs.
Proof. solve_decision. Defined.

(** River's page jobs: the job types and the unique insertion of
    [listPageInsertOpts], whose mask holds every state of a job that has not ended,
    the running one included; [page_end] is the end of a running job. *)
Class PageRiver : Type := {
  page_jobs : Type;
  page_live : page_jobs → ListPageArgs → Prop;
  page_insert : ListPageArgs → page_jobs → page_jobs;
  page_end : ListPageArgs → page_jobs → page_jobs
}.

(** River's documented behaviour: a unique insert leaves exactly one job with
    these arguments in the mask, the existing one if there is one, and a job that
    ended is no longer in it. *)
Class PageRiverLaws (P : PageRiver) : Prop := {
  page_insert_live j a b : page_live (page_insert a j) b ↔ b = a ∨ page_live j b;
  page_end_live j a b : page_live (page_end a j) b ↔ b ≠ a ∧ page_live j b
}.

Inductive sweep_error : Type :=
  | ErrNoRiver
  | ErrNoREST
  | ErrUnsupportedKind
  | ErrCursorNotFound
  | ErrFetch
  | ErrInvalidCursor
  | ErrInvalidScope
  | ErrNoPageState
  | ErrRefreshInsert
  | ErrHeartbeat.

(** ** Keys *)

(** [sortedUnique]. *)
Definition sortedUnique (keys : list string) : list string := uniqueStrings keys.

Definition decimalCursor (cursor : string) : option Z :=
  match ParseInt cursor with
  | Some page => if page <=? 0 then None else Some page
  | None => None
  end.

Definition numericNextCursor (page : Z) : string :=
  if page <=? 0 then "" else FormatInt page.

Definition repo_key (full_name : string) : string := "repo:" +:+ full_name +:+ ":metadata".
Definition stack_key (full_name : string) (number : Z) : string :=
  "stack:" +:+ full_name +:+ ":" +:+ FormatInt number.
Definition pull_key (full_name : string) (number : Z) : string :=
  "pr:" +:+ full_name +:+ ":" +:+ FormatInt number.
Definition rules_key (full_name : string) : string := "repo_rules:" +:+ full_name +:+ ":rules".

(** ** Stale rows *)

Definition live_repo (installation : Z) (r : repo_row) : bool :=
  (rp_installation_id r =? installation) && bool_decide (rp_tombstoned_at r = None).

(** The join of a child row with its live repository. *)
Definition repo_of (cache : sweep_cache) (installation repoID : Z) : option repo_row :=
  head (filter (λ r, live_repo installation r && (rp_id r =? repoID)) (cached_repos cache)).

(** A stale row: name, number, last check, and repository for the order. *)
Record stale_row : Type := mkStale {
  sr_full_name : string;
  sr_number : Z;
  sr_last_checked_at : time;
  sr_repo_id : Z
}.

Definition stale_le (a b : stale_row) : Prop :=
  sr_last_checked_at a < sr_last_checked_at b ∨
  sr_last_checked_at a = sr_last_checked_at b ∧
    (sr_repo_id a < sr_repo_id b ∨ sr_repo_id a = sr_repo_id b ∧ sr_number a ≤ sr_number b).

#[export] Instance stale_le_dec : RelDecision stale_le.
Proof. unfold stale_le. intros a b. apply _. Defined.

Definition displayed (now : time) (until : option time) : bool :=
  match until with Some u => now <? u | None => false end.

(** [ListStaleOpenStacks], and [ListStaleClosedStacks] for [want = false]. *)
Definition ListStaleStacks (want : bool) (now : time) (installation : Z) (staleBefore : time)
    (cache : sweep_cache) : list stale_row :=
  merge_sort stale_le (omap (λ s,
    r ← repo_of cache installation (ss_repo_id s);
    if negb (ss_tombstoned s) && eqb (ss_open s) want
       && (want || displayed now (ss_display_until s))
       && (ss_last_checked_at s <=? staleBefore)
    then Some (mkStale (rp_full_name r) (ss_number s) (ss_last_checked_at s) (ss_repo_id s))
    else None) (cached_stacks cache)).

(** [ListStaleOpenPullRequests], and [ListStaleClosedPullRequests] for
    [want = false]. *)
Definition ListStalePullRequests (want : bool) (now : time) (installation : Z)
    (staleBefore : time) (cache : sweep_cache) : list stale_row :=
  merge_sort stale_le (omap (λ p,
    r ← repo_of cache installation (sl_repo_id p);
    if negb (sl_tombstoned p) && eqb (String.eqb (sl_state p) "open") want
       && (want || displayed now (sl_display_until p))
       && (sl_last_checked_at p <=? staleBefore)
    then Some (mkStale (rp_full_name r) (sl_number p) (sl_last_checked_at p) (sl_repo_id p))
    else None) (cached_pulls cache)).

Definition rules_checked_at (cache : sweep_cache) (r : repo_row) : time :=
  default (rp_last_checked_at r) (rule_checked cache !! rp_id r).

Definition rules_le (a b : stale_row) : Prop :=
  sr_last_checked_at a < sr_last_checked_at b ∨
  sr_last_checked_at a = sr_last_checked_at b ∧ string_le (sr_full_name a) (sr_full_name b).

#[export] Instance rules_le_dec : RelDecision rules_le.
Proof. unfold rules_le. intros a b. apply _. Defined.

Definition ListStaleRepoRules (installation : Z) (staleBefore : time) (cache : sweep_cache)
    : list stale_row :=
  merge_sort rules_le (omap (λ r,
    if live_repo installation r && (rules_checked_at cache r <=? staleBefore)
    then Some (mkStale (rp_full_name r) 0 (rules_checked_at cache r) (rp_id r))
    else None) (cached_repos cache)).

Definition stale_spec (kind : string) (key : stale_row → string) (plan : SchedulePlan)
    (row : stale_row) : RefreshSpec :=
  mkSpec kind (key row) zero_time (sr_last_checked_at row + Bound plan) zero_time.

Definition stack_spec := stale_spec KindRefreshStack (λ r, stack_key (sr_full_name r) (sr_number r)).
Definition pull_spec := stale_spec KindRefreshPR (λ r, pull_key (sr_full_name r) (sr_number r)).
Definition rules_spec := stale_spec KindRefreshRepoRules (λ r, rules_key (sr_full_name r)).

(** The batches of [enqueueStaleStacks], [enqueueStalePullRequests],
    [enqueueStaleRepoRules] and [enqueueClosedTracked], with one reading of the
    clock. *)
Definition staleStackSpecs (c : Config) (now : time) (cache : sweep_cache) : list RefreshSpec :=
  let plan := scheduleForBound (OpenStackMaxStaleness c) in
  spreadRefreshSchedule
    (map (stack_spec plan) (ListStaleStacks true now (InstallationID c) (dueBefore plan now) cache))
    now plan.

Definition stalePullSpecs (c : Config) (now : time) (cache : sweep_cache) : list RefreshSpec :=
  let plan := scheduleForBound (OpenPRMaxStaleness c) in
  spreadRefreshSchedule
    (map (pull_spec plan)
       (ListStalePullRequests true now (InstallationID c) (dueBefore plan now) cache))
    now plan.

Definition staleRuleSpecs (c : Config) (now : time) (cache : sweep_cache) : list RefreshSpec :=
  let plan := scheduleForBound (RepoRulesMaxStaleness c) in
  map (rules_spec plan) (ListStaleRepoRules (InstallationID c) (dueBefore plan now) cache).

Definition closedSpecs (c : Config) (now : time) (cache : sweep_cache) : list RefreshSpec :=
  let plan := scheduleForBound (ClosedMaxStaleness c) in
  map (stack_spec plan) (ListStaleStacks false now (InstallationID c) (dueBefore plan now) cache) ++
  map (pull_spec plan)
    (ListStalePullRequests false now (InstallationID c) (dueBefore plan now) cache).

(** ** Cursors and pages *)

Section sweep.
Context `{R : River} `{P : PageRiver}.

(** The tables a sweep transaction writes. *)
Record sweep_db : Type := mkSweepDb {
  sweep_cursors : gmap sweep_id SweepCursor;
  sweep_pages : gmap (sweep_id * string) SweepPage;
  sweep_seen_keys : gmap sweep_id (gset string);
  sweep_page_jobs : page_jobs;
  sweep_refreshes : tables;
  sweep_heartbeats : list (string * Z)
}.

Definition set_sweep_cursor (i : sweep_id) (r : SweepCursor) (d : sweep_db) : sweep_db :=
  mkSweepDb (<[i := r]> (sweep_cursors d)) (sweep_pages d) (sweep_seen_keys d)
    (sweep_page_jobs d) (sweep_refreshes d) (sweep_heartbeats d).
Definition set_sweep_seen (i : sweep_id) (s : gset string) (d : sweep_db) : sweep_db :=
  mkSweepDb (sweep_cursors d) (sweep_pages d) (<[i := s]> (sweep_seen_keys d))
    (sweep_page_jobs d) (sweep_refreshes d) (sweep_heartbeats d).
Definition set_sweep_page (k : sweep_id * string) (p : SweepPage) (d : sweep_db) : sweep_db :=
  mkSweepDb (sweep_cursors d) (<[k := p]> (sweep_pages d)) (sweep_seen_keys d)
    (sweep_page_jobs d) (sweep_refreshes d) (sweep_heartbeats d).
Definition insert_page_job (a : ListPageArgs) (d : sweep_db) : sweep_db :=
  mkSweepDb (sweep_cursors d) (sweep_pages d) (sweep_seen_keys d)
    (page_insert a (sweep_page_jobs d)) (sweep_refreshes d) (sweep_heartbeats d).
Definition set_sweep_refreshes (t : tables) (d : sweep_db) : sweep_db :=
  mkSweepDb (sweep_cursors d) (sweep_pages d) (sweep_seen_keys d) (sweep_page_jobs d) t
    (sweep_heartbeats d).
Definition record_heartbeat (operation : string) (samples : Z) (d : sweep_db) : sweep_db :=
  mkSweepDb (sweep_cursors d) (sweep_pages d) (sweep_seen_keys d) (sweep_page_jobs d)
    (sweep_refreshes d) (sweep_heartbeats d ++ [(operation, samples)]).

Definition seen_of (d : sweep_db) (i : sweep_id) : gset string :=
  default ∅ (sweep_seen_keys d !! i).

Definition EnsureSweepCursor (now : time) (i : sweep_id) (d : sweep_db) : sweep_db :=
  match sweep_cursors d !! i with
  | Some _ => d
  | None => set_sweep_cursor i (mkSweepCursor "" None now None 0) d
  end.

(** [StartSweepCursor] also clears the keys of the previous pass. *)
Definition StartSweepCursor (first : string) (now : time) (i : sweep_id) (d : sweep_db)
    : SweepCursor * sweep_db :=
  let r := mkSweepCursor first (Some now) now None 0 in
  (r, set_sweep_cursor i r (set_sweep_seen i ∅ d)).

(** [startOrResumeScope]: the new tables and whether the pass has overrun. *)
Definition startOrResumeScope (now : time) (installation : Z) (kind scope first : string)
    (period : duration) (d : sweep_db) : sweep_db * bool :=
  let i := (installation, kind, scope) in
  let d := EnsureSweepCursor now i d in
  match sweep_cursors d !! i with
  | None => (d, false)
  | Some r =>
      let '(r, d, overrun) :=
        match sc_StartedAt r, sc_CompletedAt r with
        | Some started, None => (r, d, period <=? now - started)
        | _, _ => (StartSweepCursor first now i d, false)
        end in
      (insert_page_job (mkPageArgs kind installation scope (sc_Cursor r)) d, overrun)
  end.

(** [ReapOrphanedRepositorySweepCursors], with the cascade to pages and keys. *)
Definition orphaned_scope (cache : sweep_cache) (installation : Z) (i : sweep_id) : bool :=
  let '(inst, kind, scope) := i in
  (inst =? installation) && (String.eqb kind KindStacks || String.eqb kind KindPullRequests)
  && negb (existsb (λ r, live_repo inst r && String.eqb (rp_full_name r) scope)
             (cached_repos cache)).

Definition ReapOrphanedRepositorySweepCursors (installation : Z) (cache : sweep_cache)
    (d : sweep_db) : sweep_db :=
  let gone i := orphaned_scope cache installation i in
  mkSweepDb (filter (λ p, gone p.1 = false) (sweep_cursors d))
    (filter (λ p, gone p.1.1 = false) (sweep_pages d))
    (filter (λ p, gone p.1 = false) (sweep_seen_keys d))
    (sweep_page_jobs d) (sweep_refreshes d) (sweep_heartbeats d).

Definition repo_id_le (a b : repo_row) : Prop := rp_id a ≤ rp_id b.

#[global] Instance repo_id_le_dec : RelDecision repo_id_le.
Proof. unfold repo_id_le. intros a b. apply _. Defined.

Definition ListSweepRepositories (installation : Z) (cache : sweep_cache) : list string :=
  map rp_full_name (merge_sort repo_id_le (filter (λ r, live_repo installation r) (cached_repos cache))).

(** [kickoffRepositoryScopes]; the scopes that overran are reported in order. *)
Definition kickoffRepositoryScopes (now : time) (c : Config) (kind : string) (period : duration)
    (cache : sweep_cache) (d : sweep_db) : sweep_db * list string :=
  foldl (λ '(d, over) scope,
      let '(d, overrun) := startOrResumeScope now (InstallationID c) kind scope "1" period d in
      (d, if overrun then over ++ [scope] else over))
    (ReapOrphanedRepositorySweepCursors (InstallationID c) cache d, [])
    (ListSweepRepositories (InstallationID c) cache).

(** [enqueueRefreshes] and [enqueueRefreshesWithHeartbeat], each one transaction. *)
Definition enqueueRefreshes (now : time) (specs : list RefreshSpec) (d : sweep_db)
    : result sweep_error sweep_db :=
  match InsertRefreshesTxReturning now zero_time specs "sweep" (sweep_refreshes d) with
  | Err _ => Err ErrRefreshInsert
  | Ok (_, t) => Ok (set_sweep_refreshes t d)
  end.

Definition enqueueRefreshesWithHeartbeat (c : Config) (now : time) (kind : string)
    (specs : list RefreshSpec) (d : sweep_db) : result sweep_error sweep_db :=
  d ← enqueueRefreshes now specs d;
  if InstallationID c <=? 0 then Err ErrHeartbeat
  else Ok (record_heartbeat kind (Z.of_nat (length specs)) d).

(** [Kickoff], for a job of this installation on a service with its River client.
    Each step is a transaction of its own: an error leaves the earlier ones
    committed. *)
Definition Kickoff (c : Config) (now : time) (kind : string) (cache : sweep_cache) (d : sweep_db)
    : sweep_db * result sweep_error (list string) :=
  let listing specs bound :=
    match enqueueRefreshes now specs d with
    | Err e => (d, Err e)
    | Ok d =>
        let '(d, over) :=
          kickoffRepositoryScopes now c kind (Cadence (scheduleForBound bound)) cache d in
        (d, Ok over)
    end in
  let fan_out specs :=
    match enqueueRefreshesWithHeartbeat c now kind specs d with
    | Err e => (d, Err e)
    | Ok d => (d, Ok [])
    end in
  if String.eqb kind KindStacks then
    listing (staleStackSpecs c now cache) (OpenStackMaxStaleness c)
  else if String.eqb kind KindPullRequests then
    listing (stalePullSpecs c now cache) (OpenPRMaxStaleness c)
  else if String.eqb kind KindRepoRules then fan_out (staleRuleSpecs c now cache)
  else if String.eqb kind KindClosed then fan_out (closedSpecs c now cache)
  else if String.eqb kind KindRepositories then
    let '(d, overrun) :=
      startOrResumeScope now (InstallationID c) KindRepositories "" "1"
        (Cadence (scheduleForBound (RepositoryListPeriod c))) d in
    (d, Ok (if overrun then [""] else []))
  else (d, Err ErrUnsupportedKind).

(** ** One page *)

Record fetchedPage : Type := mkFetched {
  fp_keys : list string;
  fp_nextCursor : string;
  fp_etag : string;
  fp_notModified : bool;
  fp_refreshSpecs : list RefreshSpec
}.

(** What GitHub answers to a listing: its items, the response's validator and the
    number of its next page. *)
Record listing (A : Type) : Type := mkListing {
  lr_items : list A;
  lr_ETag : string;
  lr_NotModified : bool;
  lr_NextPage : Z
}.

(** [gh.RESTClient]: full names of repositories, and numbers of a repository's
    stacks and open pull requests, by page and validator; [None] is an error. *)
Record RESTClient : Type := mkREST {
  ListInstallationRepositories : Z → string → option (listing string);
  ListStacks : string → string → Z → string → option (listing Z);
  ListPulls : string → string → Z → string → option (listing Z)
}.

Definition page_specs (kind : string) (deadline : time) (keys : list string) : list RefreshSpec :=
  map (λ key, mkSpec kind key zero_time deadline zero_time) keys.

Definition fetched_of {A} (kind : string) (deadline : time) (key : A → string)
    (answer : option (listing A)) : result sweep_error fetchedPage :=
  match answer with
  | None => Err ErrFetch
  | Some response =>
      let keys := map key (lr_items _ response) in
      Ok (mkFetched keys (numericNextCursor (lr_NextPage _ response)) (lr_ETag _ response)
            (lr_NotModified _ response) (page_specs kind deadline keys))
  end.

Definition fetchPage (c : Config) (now : time) (rest : RESTClient) (args : ListPageArgs)
    (etag : string) : result sweep_error fetchedPage :=
  match schedulePlanForSweepKind c (lp_SweepKind args) with
  | None => Err ErrUnsupportedKind
  | Some plan =>
      let deadline := now + Bound plan in
      let scope := lp_ScopeKey args in
      if String.eqb (lp_SweepKind args) KindRepositories then
        match decimalCursor (lp_Cursor args) with
        | None => Err ErrInvalidCursor
        | Some page =>
            fetched_of KindRefreshRepository deadline repo_key
              (ListInstallationRepositories rest page etag)
        end
      else if String.eqb (lp_SweepKind args) KindStacks then
        match decimalCursor (lp_Cursor args), repoutil_Split scope with
        | None, _ => Err ErrInvalidCursor
        | _, None => Err ErrInvalidScope
        | Some page, Some (owner, repo) =>
            fetched_of KindRefreshStack deadline (stack_key scope)
              (ListStacks rest owner repo page etag)
        end
      else if String.eqb (lp_SweepKind args) KindPullRequests then
        match decimalCursor (lp_Cursor args), repoutil_Split scope with
        | None, _ => Err ErrInvalidCursor
        | _, None => Err ErrInvalidScope
        | Some page, Some (owner, repo) =>
            fetched_of KindRefreshPR deadline (pull_key scope)
              (ListPulls rest owner repo page etag)
        end
      else Err ErrUnsupportedKind
  end.

(** [ListMissingSweepEntityKeys]: the live cached entities of the scope. *)
Definition cached_keys (cache : sweep_cache) (i : sweep_id) : list string :=
  let '(installation, kind, scope) := i in
  if String.eqb kind KindRepositories then
    map (λ r, repo_key (rp_full_name r)) (filter (λ r, live_repo installation r) (cached_repos cache))
  else if String.eqb kind KindStacks then
    omap (λ s,
      r ← repo_of cache installation (ss_repo_id s);
      if String.eqb (rp_full_name r) scope && negb (ss_tombstoned s)
      then Some (stack_key (rp_full_name r) (ss_number s)) else None) (cached_stacks cache)
  else if String.eqb kind KindPullRequests then
    omap (λ p,
      r ← repo_of cache installation (sl_repo_id p);
      if String.eqb (rp_full_name r) scope && negb (sl_tombstoned p)
         && String.eqb (sl_state p) "open"
      then Some (pull_key (rp_full_name r) (sl_number p)) else None) (cached_pulls cache)
  else [].

Definition ListMissingSweepEntityKeys (cache : sweep_cache) (seen : gset string) (i : sweep_id)
    : list string :=
  sort_Strings (filter (λ k, k ∉ seen) (cached_keys cache i)).

(** The refresh kind of a list sweep. *)
Definition refresh_kind (kind : string) : option string :=
  if String.eqb kind KindRepositories then Some KindRefreshRepository
  else if String.eqb kind KindStacks then Some KindRefreshStack
  else if String.eqb kind KindPullRequests then Some KindRefreshPR
  else None.

Definition missingVerificationSpecs (c : Config) (now : time) (cache : sweep_cache)
    (seen : gset string) (i : sweep_id) : result sweep_error (list RefreshSpec) :=
  match refresh_kind i.1.2, schedulePlanForSweepKind c i.1.2 with
  | Some kind, Some plan =>
      Ok (page_specs kind (now + Bound plan) (ListMissingSweepEntityKeys cache seen i))
  | _, _ => Err ErrUnsupportedKind
  end.

Definition args_id (a : ListPageArgs) : sweep_id := (lp_Installation a, lp_SweepKind a, lp_ScopeKey a).

Definition at_cursor (a : ListPageArgs) (cursor : string) : ListPageArgs :=
  mkPageArgs (lp_SweepKind a) (lp_Installation a) (lp_ScopeKey a) cursor.

(** [persistPage], one transaction. *)
Definition persistPage (c : Config) (now : time) (cache : sweep_cache) (args : ListPageArgs)
    (page : fetchedPage) (d : sweep_db) : result sweep_error sweep_db :=
  let i := args_id args in
  match sweep_cursors d !! i with
  | None => Err ErrCursorNotFound
  | Some current =>
      if bool_decide (is_Some (sc_CompletedAt current))
         || negb (String.eqb (sc_Cursor current) (lp_Cursor args))
      then Ok d
      else
        let keys := sortedUnique (fp_keys page) in
        let seen := seen_of d i in
        let newKeys := Z.of_nat (length (filter (λ k, k ∉ seen) keys)) in
        let d := set_sweep_seen i (list_to_set keys ∪ seen) d in
        let passNewCount := sc_PassNewCount current + newKeys in
        let d := set_sweep_page (i, lp_Cursor args)
                   (mkSweepPage (fp_etag page) (fp_nextCursor page) keys now) d in
        '(specs, completed, d) ←
          (if String.eqb (fp_nextCursor page) "" then
             if String.eqb (lp_SweepKind args) KindPullRequests && (0 <? passNewCount) then
               Ok (fp_refreshSpecs page, false,
                   insert_page_job (at_cursor args "1")
                     (set_sweep_cursor i
                        (mkSweepCursor "1" (sc_StartedAt current) now None 0) d))
             else
               missing ← missingVerificationSpecs c now cache (list_to_set keys ∪ seen) i;
               Ok (fp_refreshSpecs page ++ missing, true,
                   set_sweep_cursor i
                     (mkSweepCursor "" (sc_StartedAt current) now (Some now) 0) d)
           else
             Ok (fp_refreshSpecs page, false,
                 insert_page_job (at_cursor args (fp_nextCursor page))
                   (set_sweep_cursor i
                      (mkSweepCursor (fp_nextCursor page) (sc_StartedAt current) now None
                         (wrap32 passNewCount)) d)));
        specs ←
          (match specs with
           | [] => Ok []
           | _ =>
               match schedulePlanForSweepKind c (lp_SweepKind args) with
               | None => Err ErrUnsupportedKind
               | Some plan => Ok (spreadRefreshSchedule specs now plan)
               end
           end);
        d ← enqueueRefreshes now specs d;
        if (completed : bool) then
          if lp_Installation args <=? 0 then Err ErrHeartbeat
          else Ok (record_heartbeat (lp_SweepKind args) 1 d)
        else Ok d
  end.

(** [ReconcilePage], for a job of this installation on a service with its clients;
    [d] is read before the fetch and [d'] is the database when it is persisted. *)
Definition ReconcilePage (c : Config) (now : time) (rest : RESTClient)
    (cache : sweep_cache) (args : ListPageArgs) (d d' : sweep_db) : result sweep_error sweep_db :=
  let i := args_id args in
  match sweep_cursors d !! i with
  | None => Err ErrCursorNotFound
  | Some cursor =>
      if bool_decide (is_Some (sc_CompletedAt cursor))
         || negb (String.eqb (sc_Cursor cursor) (lp_Cursor args))
      then Ok d'
      else
        let cachedPage := sweep_pages d !! (i, lp_Cursor args) in
        let etag := match cachedPage with Some p => sp_Etag p | None => "" end in
        page ← fetchPage c now rest args etag;
        page ←
          (if fp_notModified page then
             match cachedPage with
             | None => Err ErrNoPageState
             | Some p =>
                 Ok (mkFetched (sp_EntityKeys p) (sp_NextCursor p) (sp_Etag p) true
                       (fp_refreshSpecs page))
             end
           else Ok page);
        persistPage c now cache args page d'
  end.

End sweep.

(** ** The transaction of a page *)

(** The scope's cursor is open at the job's page. *)
Definition open_at `{R : River} `{P : PageRiver} (d : sweep_db) (a : ListPageArgs)
    (current : SweepCursor) : Prop :=
  sweep_cursors d !! args_id a = Some current ∧ sc_CompletedAt current = None ∧
  sc_Cursor current = lp_Cursor a.

(** What becomes of the cursor. *)
Inductive page_outcome : Type :=
  | PageAdvanced (next : string)
  | PageRestarted
  | PassCompleted.

Definition outcome_of (args : ListPageArgs) (page : fetchedPage) (passNewCount : Z) : page_outcome :=
  if String.eqb (fp_nextCursor page) "" then
    if String.eqb (lp_SweepKind args) KindPullRequests && (0 <? passNewCount)
    then PageRestarted else PassCompleted
  else PageAdvanced (fp_nextCursor page).

Definition outcome_cursor (now : time) (current : SweepCursor) (passNewCount : Z)
    (o : page_outcome) : SweepCursor :=
  match o with
  | PageAdvanced next => mkSweepCursor next (sc_StartedAt current) now None (wrap32 passNewCount)
  | PageRestarted => mkSweepCursor "1" (sc_StartedAt current) now None 0
  | PassCompleted => mkSweepCursor "" (sc_StartedAt current) now (Some now) 0
  end.

(** Keys of the page that the pass had not seen. *)
Definition new_keys (page : fetchedPage) (seen : gset string) : list string :=
  filter (λ k, k ∉ seen) (sortedUnique (fp_keys page)).

Section page_facts.
Context `{RL : RiverLaws} `{PL : PageRiverLaws}.

Lemma enqueueRefreshes_effect now specs d d' :
  enqueueRefreshes now specs d = Ok d' →
  sweep_cursors d' = sweep_cursors d ∧ sweep_pages d' = sweep_pages d ∧
  sweep_seen_keys d' = sweep_seen_keys d ∧ sweep_page_jobs d' = sweep_page_jobs d ∧
  sweep_heartbeats d' = sweep_heartbeats d ∧
  (∀ i, live (river (sweep_refreshes d)) i ∨ i ∈ map spec_identity specs →
     live (river (sweep_refreshes d')) i).
Proof.
  unfold enqueueRefreshes. destruct (InsertRefreshesTxReturning _ _ _ _ _) as [[out t]|] eqn:E;
    [|done]. intros [= <-]. cbn. do 5 (split; [done|]).
  apply insert_refreshes_effect in E as (_ & Hids & _ & _ & _ & _ & _ & _ & Hlive).
  intros i [?|?]; apply Hlive; [by left|right; by apply Hids].
Qed.

(** Everything [persistPage] does on an open cursor. *)
Lemma persistPage_effect c now cache args page d d' current :
  open_at d args current → persistPage c now cache args page d = Ok d' →
  let i := args_id args in
  let seen := seen_of d i in
  let seen' := list_to_set (sortedUnique (fp_keys page)) ∪ seen in
  let count := sc_PassNewCount current + Z.of_nat (length (new_keys page seen)) in
  let o := outcome_of args page count in
  sweep_cursors d' = <[i := outcome_cursor now current count o]> (sweep_cursors d) ∧
  sweep_seen_keys d' = <[i := seen']> (sweep_seen_keys d) ∧
  sweep_page_jobs d' =
    match o with
    | PageAdvanced next => page_insert (at_cursor args next) (sweep_page_jobs d)
    | PageRestarted => page_insert (at_cursor args "1") (sweep_page_jobs d)
    | PassCompleted => sweep_page_jobs d
    end ∧
  (∀ s, s ∈ fp_refreshSpecs page → live (river (sweep_refreshes d')) (spec_identity s)) ∧
  (∀ k, live (river (sweep_refreshes d)) k → live (river (sweep_refreshes d')) k) ∧
  (o = PassCompleted → ∃ kind, refresh_kind (lp_SweepKind args) = Some kind ∧
     ∀ key, key ∈ cached_keys cache i → key ∈ seen' ∨ live (river (sweep_refreshes d')) (kind, key)).
Proof.
  intros (Hcur & Hopen & Heq) H. unfold persistPage in H. rewrite Hcur, Hopen, Heq in H.
  rewrite String.eqb_refl in H.
  rewrite (bool_decide_eq_false_2 (is_Some None)) in H by (by intros [? ?]). cbn [negb orb] in H.
  fold (new_keys page (seen_of d (args_id args))) in H.
  set (i := args_id args) in *. set (seen := seen_of d i) in *.
  set (count := sc_PassNewCount current + _) in *. cbn zeta.
  apply bind_ok in H as ([[specs completed] d1] & Hbranch & H).
  apply bind_ok in H as (specs' & Hspecs & H). apply bind_ok in H as (d2 & Hq & Hend).
  assert (Hids : map spec_identity specs' = map spec_identity specs).
  { destruct specs as [|s0 specs0]; [by injection Hspecs as <-|].
    destruct (schedulePlanForSweepKind _ _); [|done]. injection Hspecs as <-.
    apply spread_identities. }
  apply enqueueRefreshes_effect in Hq as (Hc2 & Hp2 & Hs2 & Hj2 & _ & Hlive). rewrite Hids in Hlive.
  assert (Hd' : sweep_cursors d' = sweep_cursors d2 ∧ sweep_seen_keys d' = sweep_seen_keys d2 ∧
    sweep_page_jobs d' = sweep_page_jobs d2 ∧ sweep_refreshes d' = sweep_refreshes d2).
  { destruct completed; [destruct (_ <=? _); [done|]|]; by injection Hend as <-. }
  destruct Hd' as (-> & -> & -> & ->). rewrite Hc2, Hs2, Hj2.
  unfold outcome_of. destruct (String.eqb (fp_nextCursor page) "").
  - destruct (_ && _).
    + injection Hbranch as <- <- <-. cbn in *. do 3 (split; [done|]).
      split; [|split; [auto|done]]. intros s Hs. apply Hlive. right. apply list_elem_of_fmap. eauto.
    + apply bind_ok in Hbranch as (missing & Hm & [= <- <- <-]). cbn in *. do 3 (split; [done|]).
      split; [|split; [auto|]].
      { intros s Hs. apply Hlive. right. apply list_elem_of_fmap. exists s.
        split; [done|]. apply elem_of_app. by left. }
      intros _. unfold missingVerificationSpecs in Hm. change (i.1.2) with (lp_SweepKind args) in Hm.
      destruct (refresh_kind _) as [kind|]; [|done].
      destruct (schedulePlanForSweepKind _ _) as [plan|]; [|done]. injection Hm as <-.
      exists kind. split; [done|]. intros key Hkey.
      destruct (decide (key ∈ (list_to_set (sortedUnique (fp_keys page)) ∪ seen : gset string)))
        as [?|Hno]; [by left|right].
      apply Hlive. right. rewrite map_app. apply elem_of_app. right.
      apply list_elem_of_fmap. eexists (mkSpec kind key zero_time _ zero_time). split; [done|].
      apply list_elem_of_fmap. exists key. split; [done|].
      unfold ListMissingSweepEntityKeys. rewrite sort_Strings_perm. by apply list_elem_of_filter.
  - injection Hbranch as <- <- <-. cbn in *. do 3 (split; [done|]).
    split; [|split; [auto|done]]. intros s Hs. apply Hlive. right. apply list_elem_of_fmap. eauto.
Qed.
End page_facts.

(** ** Completion, continuation and restart *)

Section page_claims.
Context `{RL : RiverLaws} `{PL : PageRiverLaws}.

Lemma at_cursor_eq a cursor : at_cursor a cursor = a ↔ cursor = lp_Cursor a.
Proof. destruct a. cbn. split; [by intros [= ->]|by intros ->]. Qed.

Lemma at_cursor_self a : at_cursor a (lp_Cursor a) = a.
Proof. by destruct a. Qed.


(** Exactly when a finished page job leaves its scope without work: after the
    job has committed and ended, a scope that is still open has a live page job at
    its cursor if and only if that cursor is not the job's own, since the unique
    insert of a page is a duplicate of the running job with the same cursor. *)
Theorem open_scope_has_page_job c now cache args page d d' current row' :
  open_at d args current → persistPage c now cache args page d = Ok d' →
  sweep_cursors d' !! args_id args = Some row' → sc_CompletedAt row' = None →
  page_live (page_end args (sweep_page_jobs d')) (at_cursor args (sc_Cursor row')) ↔
    sc_Cursor row' ≠ lp_Cursor args.
Proof.
  intros Hopen H Hrow Hcomp.
  destruct (persistPage_effect _ _ _ _ _ _ _ _ Hopen H) as (Hc & _ & Hj & _).
  rewrite Hc, lookup_insert_eq in Hrow. injection Hrow as <-. rewrite Hj, page_end_live.
  rewrite at_cursor_eq. destruct (outcome_of _ _ _); cbn in *; [| |done]; rewrite page_insert_live; naive_solver.
Qed.

(** A pull-request listing that fits on one page and shows something new restarts
    at its own cursor, so it waits for the next kickoff. *)
Theorem single_page_pull_sweep_stalls c now cache args page d d' current :
  open_at d args current → lp_SweepKind args = KindPullRequests → lp_Cursor args = "1" →
  fp_nextCursor page = "" → new_keys page (seen_of d (args_id args)) ≠ [] →
  0 ≤ sc_PassNewCount current → persistPage c now cache args page d = Ok d' →
  (∃ row', sweep_cursors d' !! args_id args = Some row' ∧ sc_CompletedAt row' = None ∧
     sc_Cursor row' = "1") ∧
  ¬ page_live (page_end args (sweep_page_jobs d')) (at_cursor args "1").
Proof.
  intros Hopen Hk Hone Hnext Hnew Hcount H.
  destruct (persistPage_effect _ _ _ _ _ _ _ _ Hopen H) as (Hc & _ & Hj & _).
  assert (Hpos : 0 < sc_PassNewCount current +
    Z.of_nat (length (new_keys page (seen_of d (args_id args))))).
  { destruct (new_keys _ _); [done|cbn; lia]. }
  unfold outcome_of in *. rewrite Hnext, Hk, !String.eqb_refl in *. apply Z.ltb_lt in Hpos.
  rewrite Hpos in *. cbn in *. split.
  - rewrite Hc, lookup_insert_eq. by eexists.
  - rewrite page_end_live, <- Hone, at_cursor_self. naive_solver.
Qed.

(** ** Kickoffs *)

(** The scope has an open pass and a live job at its cursor. *)
Definition scope_live (d : sweep_db) (i : sweep_id) : Prop :=
  ∃ r, sweep_cursors d !! i = Some r ∧ is_Some (sc_StartedAt r) ∧ sc_CompletedAt r = None ∧
    page_live (sweep_page_jobs d) (mkPageArgs i.1.2 i.1.1 i.2 (sc_Cursor r)).

Lemma ensure_lookup now i d :
  ∃ r, sweep_cursors (EnsureSweepCursor now i d) !! i = Some r ∧
    (sweep_cursors d !! i = Some r ∨ sweep_cursors d !! i = None ∧ sc_StartedAt r = None).
Proof.
  unfold EnsureSweepCursor. destruct (sweep_cursors d !! i) as [r|] eqn:E; [eauto|].
  cbn. rewrite lookup_insert_eq. by eexists; eauto.
Qed.

Lemma ensure_other now i j d : j ≠ i →
  sweep_cursors (EnsureSweepCursor now i d) !! j = sweep_cursors d !! j.
Proof.
  intros Hne. unfold EnsureSweepCursor. destruct (sweep_cursors d !! i); [done|].
  cbn. by rewrite lookup_insert_ne.
Qed.

Lemma ensure_jobs now i d :
  sweep_page_jobs (EnsureSweepCursor now i d) = sweep_page_jobs d ∧
  sweep_refreshes (EnsureSweepCursor now i d) = sweep_refreshes d.
Proof. unfold EnsureSweepCursor. by destruct (sweep_cursors d !! i). Qed.

Lemma start_scope_live now installation kind scope first period d :
  let d' := (startOrResumeScope now installation kind scope first period d).1 in
  scope_live d' (installation, kind, scope) ∧
  (∀ j, scope_live d j → scope_live d' j) ∧ sweep_refreshes d' = sweep_refreshes d.
Proof.
  cbn zeta. unfold startOrResumeScope. set (i := (installation, kind, scope)).
  destruct (ensure_lookup now i d) as (r & Hr & Hold). rewrite Hr.
  destruct (ensure_jobs now i d) as [Hjobs Href].
  set (de := EnsureSweepCursor now i d) in *.
  destruct (decide (is_Some (sc_StartedAt r) ∧ sc_CompletedAt r = None))
    as [[[started Hst] Hco]|Hclosed].
  - rewrite Hst, Hco. cbn. split; [|split; [|by rewrite Href]].
    + exists r. cbn. rewrite Hst. split; [done|]. split; [done|]. split; [done|].
      apply page_insert_live. by left.
    + intros j (r' & Hr' & ? & ? & ?). exists r'. cbn. split.
      * destruct (decide (j = i)) as [->|?]; [|by unfold de; rewrite ensure_other].
        destruct Hold as [Hold|[Hold _]]; congruence.
      * do 2 (split; [done|]). apply page_insert_live. right. by rewrite Hjobs.
  - assert (Hm : match sc_StartedAt r, sc_CompletedAt r with
      | Some started, None => (r, de, period <=? now - started)
      | _, _ => (StartSweepCursor first now i de, false) end =
      (StartSweepCursor first now i de, false)).
    { destruct (sc_StartedAt r); [|done]. destruct (sc_CompletedAt r); [done|].
      destruct Hclosed; eauto. }
    rewrite Hm. clear Hm. cbn. split; [|split; [|by rewrite Href]].
    + eexists. cbn. rewrite lookup_insert_eq. split; [done|]. split; [by eexists|].
      split; [done|]. apply page_insert_live. by left.
    + intros j (r' & Hr' & ? & ? & ?). exists r'. cbn.
      assert (j ≠ i) by (intros ->; destruct Hold as [Hold|[Hold _]]; [|congruence];
        rewrite Hold in Hr'; injection Hr' as <-; auto).
      rewrite lookup_insert_ne by done. unfold de. rewrite ensure_other by done.
      do 3 (split; [done|]). apply page_insert_live. right. by rewrite (proj1 (ensure_jobs now i d)).
Qed.
End page_claims.

Section kickoff_facts.
Context `{RL : RiverLaws} `{PL : PageRiverLaws}.

Lemma kickoff_fold now c kind period scopes : ∀ d over,
  let d' := (foldl (λ '(d, over) scope,
      let '(d, overrun) := startOrResumeScope now (InstallationID c) kind scope "1" period d in
      (d, if overrun then over ++ [scope] else over)) (d, over) scopes).1 in
  (∀ j, scope_live d j → scope_live d' j) ∧
  (∀ scope, scope ∈ scopes → scope_live d' (InstallationID c, kind, scope)) ∧
  sweep_refreshes d' = sweep_refreshes d.
Proof.
  induction scopes as [|scope scopes IH]; intros d over; cbn [foldl].
  { split; [auto|]. split; [intros ? ?%elem_of_nil; done|done]. }
  destruct (startOrResumeScope _ _ _ _ _ _ _) as [d1 overrun] eqn:E.
  pose proof (start_scope_live now (InstallationID c) kind scope "1" period d) as Hs.
  rewrite E in Hs. cbn in Hs. destruct Hs as (Hlive & Hkeep & Href).
  destruct (IH d1 (if overrun then over ++ [scope] else over)) as (IH1 & IH2 & IH3).
  split; [auto|]. split; [|by rewrite IH3].
  intros x [->|Hx]%elem_of_cons; auto.
Qed.

Lemma kickoff_scopes now c kind period cache d :
  let d' := (kickoffRepositoryScopes now c kind period cache d).1 in
  (∀ scope, scope ∈ ListSweepRepositories (InstallationID c) cache →
     scope_live d' (InstallationID c, kind, scope)) ∧
  sweep_refreshes d' = sweep_refreshes d.
Proof.
  cbn zeta. unfold kickoffRepositoryScopes.
  destruct (kickoff_fold now c kind period (ListSweepRepositories (InstallationID c) cache)
    (ReapOrphanedRepositorySweepCursors (InstallationID c) cache d) []) as (_ & ? & Href).
  split; [done|]. by rewrite Href.
Qed.

Lemma spread_live_stale kind key plan now rows (row : stale_row) :
  row ∈ rows →
  (kind, key row) ∈ map spec_identity
    (spreadRefreshSchedule (map (stale_spec kind key plan) rows) now plan).
Proof.
  intros Hrow. rewrite spread_identities. apply list_elem_of_fmap.
  exists (stale_spec kind key plan row). split; [done|]. apply list_elem_of_fmap. eauto.
Qed.

(** A stack or pull request whose row is due. *)
Definition due_stack (c : Config) (now : time) (cache : sweep_cache) (s : sweep_stack)
    (r : repo_row) : Prop :=
  s ∈ cached_stacks cache ∧ repo_of cache (InstallationID c) (ss_repo_id s) = Some r ∧
  ss_tombstoned s = false ∧ ss_open s = true ∧
  ss_last_checked_at s ≤ dueBefore (scheduleForBound (OpenStackMaxStaleness c)) now.

Definition due_pull (c : Config) (now : time) (cache : sweep_cache) (p : sweep_pull)
    (r : repo_row) : Prop :=
  p ∈ cached_pulls cache ∧ repo_of cache (InstallationID c) (sl_repo_id p) = Some r ∧
  sl_tombstoned p = false ∧ sl_state p = "open" ∧
  sl_last_checked_at p ≤ dueBefore (scheduleForBound (OpenPRMaxStaleness c)) now.

Lemma due_stack_listed c now cache s r : due_stack c now cache s r →
  mkStale (rp_full_name r) (ss_number s) (ss_last_checked_at s) (ss_repo_id s) ∈
    ListStaleStacks true now (InstallationID c)
      (dueBefore (scheduleForBound (OpenStackMaxStaleness c)) now) cache.
Proof.
  intros (Hs & Hr & Ht & Ho & Hdue). unfold ListStaleStacks. rewrite merge_sort_Permutation.
  apply list_elem_of_omap. exists s. split; [done|]. rewrite Hr. cbn.
  rewrite Ht, Ho. cbn. by rewrite (proj2 (Z.leb_le _ _) Hdue).
Qed.

Lemma due_pull_listed c now cache p r : due_pull c now cache p r →
  mkStale (rp_full_name r) (sl_number p) (sl_last_checked_at p) (sl_repo_id p) ∈
    ListStalePullRequests true now (InstallationID c)
      (dueBefore (scheduleForBound (OpenPRMaxStaleness c)) now) cache.
Proof.
  intros (Hs & Hr & Ht & Ho & Hdue). unfold ListStalePullRequests. rewrite merge_sort_Permutation.
  apply list_elem_of_omap. exists p. split; [done|]. rewrite Hr. cbn.
  rewrite Ht, Ho. cbn. by rewrite (proj2 (Z.leb_le _ _) Hdue).
Qed.

(** A kickoff leaves work for everything it is responsible for: each open stack
    (or pull request) of a live repository that is due has a live refresh pointer,
    and each live repository has an open listing with a live job at its cursor,
    whatever state an earlier pass was left in. *)
Theorem kickoff_covers c now cache d d' over kind :
  kind = KindStacks ∨ kind = KindPullRequests →
  Kickoff c now kind cache d = (d', Ok over) →
  (∀ s r, kind = KindStacks → due_stack c now cache s r →
     live (river (sweep_refreshes d')) (KindRefreshStack, stack_key (rp_full_name r) (ss_number s))) ∧
  (∀ p r, kind = KindPullRequests → due_pull c now cache p r →
     live (river (sweep_refreshes d')) (KindRefreshPR, pull_key (rp_full_name r) (sl_number p))) ∧
  (∀ scope, scope ∈ ListSweepRepositories (InstallationID c) cache →
     scope_live d' (InstallationID c, kind, scope)).
Proof.
  intros Hkind H. unfold Kickoff in H.
  assert (∃ specs bound d1, enqueueRefreshes now specs d = Ok d1 ∧
    d' = (kickoffRepositoryScopes now c kind (Cadence (scheduleForBound bound)) cache d1).1 ∧
    (kind = KindStacks → specs = staleStackSpecs c now cache) ∧
    (kind = KindPullRequests → specs = stalePullSpecs c now cache))
    as (specs & bound & d1 & Hq & -> & Hst & Hpl).
  { destruct Hkind as [-> | ->];
      [rewrite String.eqb_refl in H
      |change (String.eqb KindPullRequests KindStacks) with false in H; rewrite String.eqb_refl in H].
    - destruct (enqueueRefreshes now (staleStackSpecs c now cache) d) as [d1|] eqn:E; [|done].
      destruct (kickoffRepositoryScopes _ _ _ _ _ _) as [d2 o] eqn:Ek. injection H as <- <-.
      exists (staleStackSpecs c now cache), (OpenStackMaxStaleness c), d1.
      split; [done|]. by rewrite Ek.
    - destruct (enqueueRefreshes now (stalePullSpecs c now cache) d) as [d1|] eqn:E; [|done].
      destruct (kickoffRepositoryScopes _ _ _ _ _ _) as [d2 o] eqn:Ek. injection H as <- <-.
      exists (stalePullSpecs c now cache), (OpenPRMaxStaleness c), d1.
      split; [done|]. by rewrite Ek. }
  apply enqueueRefreshes_effect in Hq as (_ & _ & _ & _ & _ & Hlive).
  destruct (kickoff_scopes now c kind (Cadence (scheduleForBound bound)) cache d1) as [Hsc Href].
  rewrite Href. split; [|split; [|done]].
  - intros s r Hk Hdue. apply Hlive. right. rewrite (Hst Hk).
    exact (spread_live_stale KindRefreshStack _ _ now _ _ (due_stack_listed _ _ _ _ _ Hdue)).
  - intros p r Hk Hdue. apply Hlive. right. rewrite (Hpl Hk).
    exact (spread_live_stale KindRefreshPR _ _ now _ _ (due_pull_listed _ _ _ _ _ Hdue)).
Qed.

(** ** Overlap passes end *)

(** Pages of one scope, one after the other, without a new kickoff; [n] of them
    restarted the pass. *)
Inductive pass_pages (U : gset string) (a : ListPageArgs) : nat → sweep_db → sweep_db → Prop :=
  | pass_nil d : pass_pages U a 0 d d
  | pass_page n d d1 d2 c now cache cursor page current :
      open_at d (at_cursor a cursor) current →
      persistPage c now cache (at_cursor a cursor) page d = Ok d1 →
      (∀ k, k ∈ fp_keys page → k ∈ U) →
      pass_pages U a n d1 d2 →
      let count := sc_PassNewCount current
        + Z.of_nat (length (new_keys page (seen_of d (args_id a)))) in
      pass_pages U a
        (match outcome_of (at_cursor a cursor) page count with PageRestarted => S n | _ => n end)
        d d2.

(** The keys seen before the current pass of the scope. *)
Definition settled (d : sweep_db) (i : sweep_id) : Z :=
  Z.of_nat (size (seen_of d i)) -
  match sweep_cursors d !! i with Some r => sc_PassNewCount r | None => 0 end.

Lemma new_keys_size page (seen : gset string) :
  Z.of_nat (size (list_to_set (sortedUnique (fp_keys page)) ∪ seen : gset string)) =
    Z.of_nat (size seen) + Z.of_nat (length (new_keys page seen)).
Proof.
  assert (E : (list_to_set (sortedUnique (fp_keys page)) ∪ seen : gset string)
    = list_to_set (new_keys page seen) ∪ seen).
  { apply set_eq. intros x. unfold new_keys.
    rewrite !elem_of_union, !elem_of_list_to_set, list_elem_of_filter.
    destruct (decide (x ∈ seen)); tauto. }
  rewrite E, size_union.
  - rewrite size_list_to_set; [lia|]. apply NoDup_filter.
    unfold sortedUnique, uniqueStrings. rewrite sort_Strings_perm. apply unique_go_NoDup.
  - intros x. unfold new_keys. rewrite elem_of_list_to_set, list_elem_of_filter. tauto.
Qed.

(** The keys of the scope lie in [U], and its counter counts some of them. *)
Definition pass_ok (U : gset string) (d : sweep_db) (i : sweep_id) : Prop :=
  seen_of d i ⊆ U ∧
  0 ≤ settled d i ∧
  match sweep_cursors d !! i with Some r => 0 ≤ sc_PassNewCount r | None => True end.

Lemma pass_page_step U a d d1 c now cache cursor page current :
  open_at d (at_cursor a cursor) current →
  persistPage c now cache (at_cursor a cursor) page d = Ok d1 →
  (∀ k, k ∈ fp_keys page → k ∈ U) → Z.of_nat (size U) < 2 ^ 31 → pass_ok U d (args_id a) →
  let count := sc_PassNewCount current
    + Z.of_nat (length (new_keys page (seen_of d (args_id a)))) in
  pass_ok U d1 (args_id a) ∧
  settled d (args_id a) +
    match outcome_of (at_cursor a cursor) page count with PageRestarted => 1 | _ => 0 end
    ≤ settled d1 (args_id a).
Proof.
  intros Hopen H HU Hsize (Hsub & Hset & Hcount). cbn zeta.
  destruct (persistPage_effect _ _ _ _ _ _ _ _ Hopen H) as (Hc & Hs & _).
  destruct Hopen as (Hcur & _ & _). change (args_id (at_cursor a cursor)) with (args_id a) in *.
  set (i := args_id a) in *. unfold settled in Hset |- *. rewrite Hcur in Hset, Hcount |- *.
  assert (Hseen : seen_of d1 i = list_to_set (sortedUnique (fp_keys page)) ∪ seen_of d i)
    by (unfold seen_of; by rewrite Hs, lookup_insert_eq).
  pose proof (new_keys_size page (seen_of d i)) as Hn. rewrite <- Hseen in Hn.
  assert (Hsub1 : seen_of d1 i ⊆ U).
  { rewrite Hseen. apply union_subseteq. split; [|done]. intros k Hk%elem_of_list_to_set.
    apply HU. unfold sortedUnique, uniqueStrings in Hk.
    rewrite sort_Strings_perm, unique_go_elem in Hk. tauto. }
  pose proof (subseteq_size _ _ Hsub1) as Hle.
  unfold pass_ok, settled. rewrite Hc, lookup_insert_eq.
  set (k := Z.of_nat (length (new_keys page (seen_of d i)))) in *.
  unfold outcome_of. destruct (String.eqb _ _); [destruct (_ && _) eqn:E|]; cbn.
  - apply andb_true_iff in E as [_ E%Z.ltb_lt]. split; [split; [done|]|]; lia.
  - split; [split; [done|]|]; lia.
  - rewrite wrap32_id by lia. split; [split; [done|]|]; lia.
Qed.

(** The overlap passes of a pull-request sweep end: if the listing shows only
    keys of a finite set, then from one kickoff to the next at most as many passes
    restart as the set has keys not seen before. *)
Theorem overlap_passes_bounded U a n d d' :
  pass_pages U a n d d' → Z.of_nat (size U) < 2 ^ 31 → pass_ok U d (args_id a) →
  Z.of_nat n ≤ Z.of_nat (size U) - settled d (args_id a).
Proof.
  intros Hp Hsize. induction Hp as [d|n d d1 d2 c now cache cursor page current Hopen H HU _ IH count];
    intros Hok.
  - destruct Hok as (Hsub%subseteq_size & _ & Hc). unfold settled.
    destruct (sweep_cursors d !! args_id a); lia.
  - destruct (pass_page_step _ _ _ _ _ _ _ _ _ _ Hopen H HU Hsize Hok) as [Hok1 Hle].
    specialize (IH Hok1). fold count in Hle. destruct (outcome_of _ _ _); lia.
Qed.
End kickoff_facts.

(** ** River's page jobs as a list *)

#[local] Instance RefPageRiver : PageRiver := {
  page_jobs := list ListPageArgs;
  page_live j a := a ∈ j;
  page_insert a j := if bool_decide (a ∈ j) then j else a :: j;
  page_end a j := filter (λ b, b ≠ a) j
}.

#[local] Instance RefPageRiver_laws : PageRiverLaws RefPageRiver.
Proof.
  split; cbn.
  - intros j a b. case_bool_decide; [|by rewrite elem_of_cons]. naive_solver.
  - intros j a b. by rewrite list_elem_of_filter.
Qed.

(** ** A small installation *)

#[local] Existing Instances RefRiver.RefRiver RefRiver.RefRiver_laws.

Definition sample_repo : repo_row :=
  mkRepo 1 1 1 10 "n" "o" "r" "o/r" "main" false None "" 0 0 "" "sweep" None.

Definition sample_cache : sweep_cache :=
  mkSweepCache [sample_repo]
    [mkSweepStack 1 1 true false 0 None; mkSweepStack 1 2 true false 0 None]
    [mkSweepPull 1 7 "open" false 0 None] ∅.

Definition sample_sweep_db (kind : string) (cursor : string) : sweep_db :=
  mkSweepDb {[(1, kind, "o/r") := mkSweepCursor cursor (Some 1) 1 None 0]} ∅ ∅
    [mkPageArgs kind 1 "o/r" cursor] RefRiver.empty [].

Definition sample_page (next : string) (kind key : string) : fetchedPage :=
  mkFetched [key] next "etag" false (page_specs kind (Unix 100) [key]).

Definition ok_or {E A} (fallback : A) (m : result E A) : A :=
  match m with Ok a => a | Err _ => fallback end.

Definition completed_stacks : sweep_db :=
  let d := sample_sweep_db KindStacks "1" in
  ok_or d (persistPage example_config (Unix 5) sample_cache (mkPageArgs KindStacks 1 "o/r" "1")
             (sample_page "" KindRefreshStack "stack:o/r:1") d).


(** The single page of a pull-request listing restarts its pass. *)
Definition restarted_pulls : sweep_db :=
  let d := sample_sweep_db KindPullRequests "1" in
  ok_or d (persistPage example_config (Unix 5) sample_cache
             (mkPageArgs KindPullRequests 1 "o/r" "1")
             (sample_page "" KindRefreshPR "pr:o/r:7") d).

Lemma open_scope_has_page_job_witness :
  page_live (page_end (mkPageArgs KindPullRequests 1 "o/r" "1") (sweep_page_jobs restarted_pulls))
    (at_cursor (mkPageArgs KindPullRequests 1 "o/r" "1") "1") ↔ "1" ≠ "1".
Proof.
  apply (open_scope_has_page_job example_config (Unix 5) sample_cache
    (mkPageArgs KindPullRequests 1 "o/r" "1") (sample_page "" KindRefreshPR "pr:o/r:7")
    (sample_sweep_db KindPullRequests "1") restarted_pulls
    (mkSweepCursor "1" (Some 1) 1 None 0) (mkSweepCursor "1" (Some 1) (Unix 5) None 0)).
  - split; [vm_compute; reflexivity|]. split; reflexivity.
  - vm_compute. reflexivity.
  - vm_compute. reflexivity.
  - reflexivity.
Defined.

Definition kicked_off : sweep_db :=
  (Kickoff example_config (Unix 900) KindStacks sample_cache
     (sample_sweep_db KindPullRequests "1")).1.

Lemma kickoff_covers_witness :
  live (river (sweep_refreshes kicked_off)) (KindRefreshStack, "stack:o/r:2") ∧
  scope_live kicked_off (1, KindStacks, "o/r").
Proof.
  destruct (kickoff_covers example_config (Unix 900) sample_cache
    (sample_sweep_db KindPullRequests "1") kicked_off [] KindStacks) as (Hs & _ & Hsc).
  - left. reflexivity.
  - vm_compute. reflexivity.
  - split.
    + apply (Hs (mkSweepStack 1 2 true false 0 None) sample_repo); [reflexivity|].
      split; [right; left|]. split; [vm_compute; reflexivity|].
      split; [reflexivity|]. split; [reflexivity|]. vm_compute. discriminate.
    + apply Hsc. vm_compute. left.
Defined.

Lemma overlap_passes_bounded_witness :
  Z.of_nat 1 ≤ Z.of_nat (size ({["pr:o/r:7"]} : gset string)) -
    settled (sample_sweep_db KindPullRequests "1") (1, KindPullRequests, "o/r").
Proof.
  apply (overlap_passes_bounded {["pr:o/r:7"]} (mkPageArgs KindPullRequests 1 "o/r" "1") 1
    (sample_sweep_db KindPullRequests "1") restarted_pulls).
  - apply (pass_page {["pr:o/r:7"]} (mkPageArgs KindPullRequests 1 "o/r" "1") 0
      (sample_sweep_db KindPullRequests "1") restarted_pulls restarted_pulls example_config (Unix 5) sample_cache "1"
      (sample_page "" KindRefreshPR "pr:o/r:7") (mkSweepCursor "1" (Some 1) 1 None 0)).
    + split; [vm_compute; reflexivity|]. split; reflexivity.
    + vm_compute. reflexivity.
    + intros k Hk. cbn in Hk. set_solver.
    + constructor.
  - vm_compute. reflexivity.
  - split; [|split].
    + assert (seen_of (sample_sweep_db KindPullRequests "1")
        (args_id (mkPageArgs KindPullRequests 1 "o/r" "1")) = ∅) as -> by (vm_compute; reflexivity).
      apply empty_subseteq.
    + vm_compute. discriminate.
    + vm_compute. discriminate.
Defined.
