(* ===== verification/Lease.v ===== *)
(** * The installation's budget lease

    [internal/budget/lease.go] with [internal/store/dbgen/installation_budgets.sql.go]:
    one process at a time runs the budget gate of an installation. The interface
    [LeaseStore] is the class of the same name, its documented contract the class
    [LeaseStoreLaws]; [PostgresLeaseStore] implements it on the three rows of
    [installation_budgets] and discharges the contract. [lease_step] interleaves
    the processes that acquire, renew, save, lose, close and crash, and the theorem
    that at most one of them admits requests is proved against the interface.

    One clock serves the database and the processes; a statement sees one instant
    of it. A call that times out may or may not have reached the database. *)

From Stdlib Require Import ZArith Lia Bool String.
From stdpp Require Import base list strings gmap sets numbers.
From S2P Require Import Prelude GoStrings Gate.

Local Open Scope Z_scope.

(** ** The interface *)

Inductive store_error : Type :=
  | ErrInvalidIdentity
  | ErrInvalidAuthContext
  | ErrInconsistentRows
  | ErrStoreLeaseLost
  | ErrStore.

(** [LeaseStore]: each operation takes the database's clock and returns its answer
    and the new state of the store. [None] is Go's [false]: the store has proved
    that the caller does not hold the lease. *)
Class LeaseStore : Type := {
  store_state : Type;
  Acquire : time → Z → string → duration → store_state →
    result store_error (option (Snapshot * time)) * store_state;
  Renew : time → Z → string → duration → store_state →
    result store_error (option time) * store_state;
  Save : time → Z → string → Snapshot → store_state →
    result store_error bool * store_state;
  SaveBackoff : time → Z → string → AuthContext → time → store_state →
    result store_error bool * store_state;
  Release : Z → string → store_state → result store_error unit * store_state;
  (** The owner of an installation's lease and its expiry, and the states in which
      a store is found. *)
  holder : store_state → Z → option (string * time);
  store_ok : store_state → Prop
}.

(** The caller holds the lease and it has not expired. *)
Definition owns_lease `{LeaseStore} (now : time) (i : Z) (token : string) (s : store_state) : Prop :=
  ∃ until, holder s i = Some (token, until) ∧ now < until.

(** The lease can be taken by the caller. *)
Definition can_take `{LeaseStore} (now : time) (i : Z) (token : string) (s : store_state) : Prop :=
  ∀ token' until, holder s i = Some (token', until) → token' = token ∨ until ≤ now.

(** The contract stated with the interface. *)
Class LeaseStoreLaws (L : LeaseStore) : Prop := {
  acquire_granted now i token ttl s snap until s' :
    store_ok s → Acquire now i token ttl s = (Ok (Some (snap, until)), s') →
    can_take now i token s ∧ until = now + ttl ∧ store_ok s' ∧
    ∀ j, holder s' j = if decide (j = i) then Some (token, until) else holder s j;
  acquire_refused now i token ttl s s' :
    store_ok s → Acquire now i token ttl s = (Ok None, s') →
    ¬ can_take now i token s ∧ store_ok s' ∧ ∀ j, holder s' j = holder s j;
  acquire_failed now i token ttl s e s' :
    store_ok s → Acquire now i token ttl s = (Err e, s') →
    store_ok s' ∧ ∀ j, holder s' j = holder s j;
  renew_confirmed now i token ttl s until s' :
    store_ok s → Renew now i token ttl s = (Ok (Some until), s') →
    owns_lease now i token s ∧ until = now + ttl ∧ store_ok s' ∧
    ∀ j, holder s' j = if decide (j = i) then Some (token, until) else holder s j;
  renew_refused now i token ttl s r s' :
    store_ok s → Renew now i token ttl s = (r, s') → (∀ until, r ≠ Ok (Some until)) →
    (r = Ok None → ¬ owns_lease now i token s) ∧ store_ok s' ∧
    ∀ j, holder s' j = holder s j;
  save_holder now i token snap s r s' :
    store_ok s → Save now i token snap s = (r, s') →
    (r = Ok false → ¬ owns_lease now i token s) ∧ store_ok s' ∧
    ∀ j, holder s' j = holder s j;
  backoff_holder now i token auth until s r s' :
    store_ok s → SaveBackoff now i token auth until s = (r, s') →
    (r = Ok false → ¬ owns_lease now i token s) ∧ store_ok s' ∧
    ∀ j, holder s' j = holder s j;
  release_holder i token s r s' :
    store_ok s → Release i token s = (r, s') →
    store_ok s' ∧
    ∀ j, holder s' j =
      if decide (j = i ∧ fst <$> holder s i = Some token) then None else holder s j
}.

(** ** Options *)

Definition Millisecond : duration := 1000000.
Definition defaultLeaseTTL : duration := 30 * Second.
Definition defaultRenewInterval : duration := 10 * Second.
Definition defaultSnapshotInterval : duration := 30 * Second.
Definition defaultStoreTimeout : duration := 5 * Second.
Definition maxStandbyRetryInterval : duration := 3 * Second.

Record LeaseOptions : Type := mkLeaseOptions {
  lo_InstallationID : Z;
  lo_Owner : string;
  lo_TTL : duration;
  lo_RenewInterval : duration;
  lo_SnapshotInterval : duration;
  lo_StoreTimeout : duration
}.

Inductive lease_options_error : Type :=
  | ErrInstallationID
  | ErrOwner
  | ErrRenewInterval
  | ErrStoreTimeout.

Definition normalizeLeaseOptions (o : LeaseOptions) : result lease_options_error LeaseOptions :=
  let ttl := if lo_TTL o <=? 0 then defaultLeaseTTL else lo_TTL o in
  let renew := if lo_RenewInterval o <=? 0 then Z.min defaultRenewInterval (ttl `quot` 3)
               else lo_RenewInterval o in
  let snap := if lo_SnapshotInterval o <=? 0 then defaultSnapshotInterval
              else lo_SnapshotInterval o in
  let timeout := if lo_StoreTimeout o <=? 0 then Z.min defaultStoreTimeout (ttl `quot` 4)
                 else lo_StoreTimeout o in
  if lo_InstallationID o <=? 0 then Err ErrInstallationID
  else if String.eqb (lo_Owner o) "" then Err ErrOwner
  else if (renew <=? 0) || (ttl <=? renew) then Err ErrRenewInterval
  else if (timeout <=? 0) || (ttl <=? timeout) then Err ErrStoreTimeout
  else Ok (mkLeaseOptions (lo_InstallationID o) (lo_Owner o) ttl renew snap timeout).

(** [standbyRetryDelay]: [jitter] is [rand.Int64N(maximum - minimum)]. *)
Definition standbyRetryDelay (ttl : duration) (jitter : Z → Z) : duration :=
  let maximum := Z.min (ttl `quot` 3) maxStandbyRetryInterval in
  if maximum <=? Nanosecond then Nanosecond
  else let minimum := maximum `quot` 2 in minimum + jitter (maximum - minimum).

(** [renewRetryDelay], with the confirmed expiry of the runtime. *)
Definition renewRetryDelay (renewInterval : duration) (expiry now : time) : duration :=
  let remaining := expiry - now in
  if remaining <=? 0 then 0 else Z.min (renewInterval `quot` 2) (remaining `quot` 2).

(** ** A leased gate *)

Inductive new_leased_error : Type :=
  | LeaseHeld
  | AcquiredExpired
  | StoreFailed (e : store_error).

(** [NewLeased], with normalised options and a fresh [token]: [now] is the clock
    after the acquisition, which ran at [at_db]. An acquired lease that has expired
    already is released. *)
Definition NewLeased `{LeaseStore} (at_db now : time) (gateOptions : Options) (i : Z)
    (token : string) (ttl : duration) (s : store_state)
    : result new_leased_error Gate * store_state :=
  match Acquire at_db i token ttl s with
  | (Err e, s) => (Err (StoreFailed e), s)
  | (Ok None, s) => (Err LeaseHeld, s)
  | (Ok (Some (snap, until)), s) =>
      if IsZero until || negb (Before now until)
      then (Err AcquiredExpired, (Release i token s).2)
      else (Ok (setLeaseUntil (restore (New gateOptions) snap) until), s)
  end.

(** [maintainLease] on the answer of a renewal, at [now]; a failed call changes
    nothing. *)
Definition renewal_answer (now : time) (answer : result store_error (option time)) (g : Gate) : Gate :=
  match answer with
  | Err _ => g
  | Ok None => loseLease g (Some ErrLeaseLost)
  | Ok (Some until) =>
      if IsZero until || negb (Before now until) then loseLease g (Some ErrLeaseLost)
      else setLeaseUntil g until
  end.

(** [maintainLease] on the answer of a snapshot. *)
Definition snapshot_answer (answer : result store_error bool) (g : Gate) : Gate :=
  match answer with
  | Ok false => loseLease g (Some ErrLeaseLost)
  | _ => g
  end.

(** [watchLeaseExpiry] when the timer it set for [expiry] is looked at. *)
Definition watchdog (now expiry : time) (g : Gate) : Gate :=
  if now <? expiry then g else loseLease g (Some ErrLeaseLost).

(** [maintainLease] when its context ends. *)
Definition maintain_done (cause : string) (g : Gate) : Gate :=
  match unavailable g with
  | Some ErrClosed => g
  | _ => loseLease g (Some (ErrLeaseLostWrapped cause))
  end.

(** The end of [Close], after the drain and the end of the maintenance: the final
    snapshot and the release, and the errors that are joined. *)
Definition close_cleanup `{LeaseStore} (now : time) (i : Z) (token : string) (g : Gate)
    (drainErr : list store_error) (s : store_state) : list store_error * store_state :=
  let '(saved, s) := Save now i token (snapshot g) s in
  let saveErr := match saved with
                 | Ok true => [] | Ok false => [ErrStoreLeaseLost] | Err e => [e]
                 end in
  let '(released, s) := Release i token s in
  let releaseErr := match released with Ok _ => [] | Err e => [e] end in
  (drainErr ++ saveErr ++ releaseErr, s).

(** ** The Postgres store *)

(** A row of [installation_budgets]. *)
Record budget_row : Type := mkBudgetRow {
  br_remaining : option Z;
  br_rate_limit : option Z;
  br_reset_at : option time;
  br_lease_owner : option string;
  br_lease_until : option time;
  br_backoff_until : option time;
  br_updated_at : time
}.

(** The classes of [installation_budgets_class_check]. *)
Inductive budget_class : Type := ClassREST | ClassAppREST | ClassGraphQL.

#[export] Instance budget_class_eq_dec : EqDecision budget_class.
Proof. solve_decision. Defined.

(** The rows of one installation, by class. *)
Record inst_rows : Type := mkRows {
  row_rest : option budget_row;
  row_app_rest : option budget_row;
  row_graphql : option budget_row
}.

Definition rows_list (r : inst_rows) : list (budget_class * budget_row) :=
  let entry c o := match o with Some b => [(c, b)] | None => [] end in
  entry ClassAppREST (row_app_rest r) ++ entry ClassGraphQL (row_graphql r) ++
  entry ClassREST (row_rest r).

(** An [UPDATE] of the rows that satisfy [cond]. *)
Definition update_rows (cond : budget_class → budget_row → bool)
    (f : budget_class → budget_row → budget_row) (r : inst_rows) : inst_rows :=
  let go c o := (λ b, if cond c b then f c b else b) <$> o in
  mkRows (go ClassREST (row_rest r)) (go ClassAppREST (row_app_rest r))
    (go ClassGraphQL (row_graphql r)).

(** The rows it updates, as [RETURNING] shows them. *)
Definition returned_rows (cond : budget_class → budget_row → bool)
    (f : budget_class → budget_row → budget_row) (r : inst_rows)
    : list (budget_class * budget_row) :=
  map (λ '(c, b), (c, f c b)) (filter (λ '(c, b), cond c b) (rows_list r)).

Abbreviation budget_table := (gmap Z inst_rows).

Definition rows_of (t : budget_table) (i : Z) : inst_rows :=
  default (mkRows None None None) (t !! i).

(** [EnsureInstallationBudget] for the three classes. *)
Definition ensure_rows (now : time) (r : inst_rows) : inst_rows :=
  let fresh := mkBudgetRow None None None None None None now in
  mkRows (Some (default fresh (row_rest r))) (Some (default fresh (row_app_rest r)))
    (Some (default fresh (row_graphql r))).

Definition set_lease (token : string) (until : time) (b : budget_row) : budget_row :=
  mkBudgetRow (br_remaining b) (br_rate_limit b) (br_reset_at b) (Some token) (Some until)
    (br_backoff_until b) (br_updated_at b).

(** SQL's [lease_until <= now] and [lease_until > now], false on NULL. *)
Definition expired (now : time) (b : budget_row) : bool :=
  match br_lease_until b with Some u => u <=? now | None => false end.
Definition unexpired (now : time) (b : budget_row) : bool :=
  match br_lease_until b with Some u => now <? u | None => false end.
Definition owned_by (token : string) (b : budget_row) : bool :=
  bool_decide (br_lease_owner b = Some token).

Definition takeable (now : time) (token : string) (b : budget_row) : bool :=
  bool_decide (br_lease_owner b = None) || expired now b || owned_by token b.

Definition validLeaseIdentity (i : Z) (token : string) (ttl : duration) : bool :=
  (0 <? i) && negb (String.eqb token "") && (0 <? ttl).

(** [authoritativeExpiry]: [Ok None] for no rows. *)
Definition authoritativeExpiry (values : list (option time)) : result store_error (option time) :=
  match values with
  | [] => Ok None
  | first :: _ =>
      if negb (length values =? 3)%nat then Err ErrInconsistentRows
      else
        match first with
        | None => Err ErrInconsistentRows
        | Some u =>
            if forallb (λ v, bool_decide (v = Some u)) values then Ok (Some u)
            else Err ErrInconsistentRows
        end
  end.

Definition restoredBudget (b : budget_row) : ResourceBudget :=
  match br_remaining b, br_rate_limit b, br_reset_at b with
  | Some remaining, Some limit, Some reset => Budget true limit remaining reset
  | _, _, _ => Budget false 0 0 zero_time
  end.

(** The latest of a deadline and a nullable one. *)
Definition later (current : time) (v : option time) : time :=
  match v with Some u => if After u current then u else current | None => current end.

(** [scanAcquiredBudgetRows]. *)
Definition scan_row (snap : Snapshot) (entry : budget_class * budget_row) : Snapshot :=
  let '(class, b) := entry in
  let state := restoredBudget b in
  match class with
  | ClassREST =>
      mkSnapshot state (sn_AppREST snap) (sn_GraphQL snap)
        (later (sn_BackoffUntil snap) (br_backoff_until b)) (sn_AppJWTBackoffUntil snap)
        (sn_InFlight snap)
  | ClassAppREST =>
      mkSnapshot (sn_REST snap) state (sn_GraphQL snap) (sn_BackoffUntil snap)
        (later (sn_AppJWTBackoffUntil snap) (br_backoff_until b)) (sn_InFlight snap)
  | ClassGraphQL =>
      mkSnapshot (sn_REST snap) (sn_AppREST snap) state
        (later (sn_BackoffUntil snap) (br_backoff_until b)) (sn_AppJWTBackoffUntil snap)
        (sn_InFlight snap)
  end.

Definition unknown_budget : ResourceBudget := Budget false 0 0 zero_time.

Definition empty_snapshot : Snapshot :=
  mkSnapshot unknown_budget unknown_budget unknown_budget zero_time zero_time 0.

Definition scanAcquiredBudgetRows (rows : list (budget_class * budget_row))
    : result store_error (Snapshot * time) :=
  if negb (length rows =? 3)%nat then Err ErrInconsistentRows
  else
    match authoritativeExpiry (map (λ e, br_lease_until e.2) rows) with
    | Ok (Some until) => Ok (foldl scan_row empty_snapshot rows, until)
    | _ => Err ErrInconsistentRows
    end.

(** [Acquire]: an error rolls the transaction back, a held lease commits the rows
    it ensured. *)
Definition pg_Acquire (now : time) (i : Z) (token : string) (ttl : duration) (t : budget_table)
    : result store_error (option (Snapshot * time)) * budget_table :=
  if negb (validLeaseIdentity i token ttl) then (Err ErrInvalidIdentity, t)
  else
    let r := ensure_rows now (rows_of t i) in
    let cond (_ : budget_class) b := takeable now token b in
    let f (_ : budget_class) b := set_lease token (now + ttl) b in
    match returned_rows cond f r with
    | [] => (Ok None, <[i := r]> t)
    | rows =>
        match scanAcquiredBudgetRows rows with
        | Err e => (Err e, t)
        | Ok (snap, until) => (Ok (Some (snap, until)), <[i := update_rows cond f r]> t)
        end
    end.

Definition pg_Renew (now : time) (i : Z) (token : string) (ttl : duration) (t : budget_table)
    : result store_error (option time) * budget_table :=
  if negb (validLeaseIdentity i token ttl) then (Err ErrInvalidIdentity, t)
  else
    match t !! i with
    | None => (Ok None, t)
    | Some r =>
        let cond (_ : budget_class) b := owned_by token b && unexpired now b in
        let f (_ : budget_class) b := set_lease token (now + ttl) b in
        (authoritativeExpiry (map (λ e, br_lease_until e.2) (returned_rows cond f r)),
         <[i := update_rows cond f r]> t)
    end.

(** [persistedValues]. *)
Definition persistedValues (b : ResourceBudget) : option Z * option Z * option time :=
  if Known b then (Some (Remaining b), Some (Limit b), Some (ResetAt b)) else (None, None, None).

(** [timestamp]: the zero time is NULL. *)
Definition nullable_time (t : time) : option time := if IsZero t then None else Some t.

(** The later of a stored deadline and a new one, as the [CASE] of the updates
    computes it: a NULL new deadline replaces a NULL stored one only. *)
Definition raise_backoff (stored new : option time) : option time :=
  match stored, new with
  | None, _ => new
  | Some s, Some n => if s <? n then Some n else Some s
  | Some s, None => Some s
  end.

Definition class_budget (snap : Snapshot) (c : budget_class) : ResourceBudget :=
  match c with
  | ClassREST => sn_REST snap
  | ClassAppREST => sn_AppREST snap
  | ClassGraphQL => sn_GraphQL snap
  end.

Definition class_backoff (snap : Snapshot) (c : budget_class) : time :=
  match c with ClassAppREST => sn_AppJWTBackoffUntil snap | _ => sn_BackoffUntil snap end.

Definition save_row (now : time) (snap : Snapshot) (c : budget_class) (b : budget_row) : budget_row :=
  let '(remaining, limit, reset) := persistedValues (class_budget snap c) in
  mkBudgetRow remaining limit reset (br_lease_owner b) (br_lease_until b)
    (raise_backoff (br_backoff_until b) (nullable_time (class_backoff snap c))) now.

(** [installation_budgets_check]. *)
Definition budget_storable (b : ResourceBudget) : bool :=
  negb (Known b) || ((0 <=? Remaining b) && (0 <? Limit b)).

Definition pg_Save (now : time) (i : Z) (token : string) (snap : Snapshot) (t : budget_table)
    : result store_error bool * budget_table :=
  match t !! i with
  | None => (Ok false, t)
  | Some r =>
      let cond (_ : budget_class) b := owned_by token b && unexpired now b in
      let f c b := save_row now snap c b in
      let rows := returned_rows cond f r in
      if forallb (λ e, budget_storable (class_budget snap e.1)) rows
      then (Ok (length rows =? 3)%nat, <[i := update_rows cond f r]> t)
      else (Err ErrStore, t)
  end.

(** The [owned] condition of [SaveInstallationBudgetBackoff]. *)
Definition all_owned (now : time) (token : string) (r : inst_rows) : bool :=
  (length (rows_list r) =? 3)%nat
  && forallb (λ e, owned_by token e.2 && unexpired now e.2) (rows_list r).

Definition pg_SaveBackoff (now : time) (i : Z) (token : string) (auth : AuthContext)
    (until : time) (t : budget_table) : result store_error bool * budget_table :=
  if negb (auth_valid auth) then (Err ErrInvalidAuthContext, t)
  else
    match t !! i with
    | None => (Ok false, t)
    | Some r =>
        let app := bool_decide (auth = AppJWTAuth) in
        let cond c (_ : budget_row) :=
          all_owned now token r && eqb app (bool_decide (c = ClassAppREST)) in
        let f (_ : budget_class) b :=
          mkBudgetRow (br_remaining b) (br_rate_limit b) (br_reset_at b) (br_lease_owner b)
            (br_lease_until b) (raise_backoff (br_backoff_until b) (nullable_time until)) now in
        (Ok (length (returned_rows cond f r) =? if app then 1 else 2)%nat,
         <[i := update_rows cond f r]> t)
    end.

Definition pg_Release (i : Z) (token : string) (t : budget_table)
    : result store_error unit * budget_table :=
  match t !! i with
  | None => (Err ErrStoreLeaseLost, t)
  | Some r =>
      let cond (_ : budget_class) b := owned_by token b in
      let f (_ : budget_class) b :=
        mkBudgetRow (br_remaining b) (br_rate_limit b) (br_reset_at b) None None
          (br_backoff_until b) (br_updated_at b) in
      (if (length (returned_rows cond f r) =? 3)%nat then Ok tt else Err ErrStoreLeaseLost,
       <[i := update_rows cond f r]> t)
  end.

(** The rows of an installation carry one lease. *)
Definition rows_agree (owner : option string) (until : option time) (r : inst_rows) : Prop :=
  ∃ a b c, r = mkRows (Some a) (Some b) (Some c) ∧
    (∀ x, x ∈ [a; b; c] → br_lease_owner x = owner ∧ br_lease_until x = until) ∧
    (owner = None ↔ until = None).

Definition pg_ok (t : budget_table) : Prop :=
  ∀ i r, t !! i = Some r → ∃ owner until, rows_agree owner until r.

Definition pg_holder (t : budget_table) (i : Z) : option (string * time) :=
  r ← t !! i;
  b ← row_rest r;
  owner ← br_lease_owner b;
  until ← br_lease_until b;
  Some (owner, until).

#[export] Instance PostgresLeaseStore : LeaseStore := {
  store_state := budget_table;
  Acquire := pg_Acquire;
  Renew := pg_Renew;
  Save := pg_Save;
  SaveBackoff := pg_SaveBackoff;
  Release := pg_Release;
  holder := pg_holder;
  store_ok := pg_ok
}.

(** ** The Postgres store keeps the contract *)

(** On rows that agree, a condition on the lease selects all of them or none. *)
Lemma rows_all cond f a b c :
  cond ClassREST a = true → cond ClassAppREST b = true → cond ClassGraphQL c = true →
  let r := mkRows (Some a) (Some b) (Some c) in
  returned_rows cond f r =
    [(ClassAppREST, f ClassAppREST b); (ClassGraphQL, f ClassGraphQL c);
     (ClassREST, f ClassREST a)] ∧
  update_rows cond f r =
    mkRows (Some (f ClassREST a)) (Some (f ClassAppREST b)) (Some (f ClassGraphQL c)).
Proof.
  intros Ha Hb Hc r. unfold returned_rows, update_rows, r.
  change (rows_list _) with [(ClassAppREST, b); (ClassGraphQL, c); (ClassREST, a)].
  rewrite !filter_cons, !decide_True by (by rewrite ?Ha, ?Hb, ?Hc). cbn.
  by rewrite Ha, Hb, Hc.
Qed.

Lemma rows_none cond f a b c :
  cond ClassREST a = false → cond ClassAppREST b = false → cond ClassGraphQL c = false →
  let r := mkRows (Some a) (Some b) (Some c) in
  returned_rows cond f r = [] ∧ update_rows cond f r = r.
Proof.
  intros Ha Hb Hc r. unfold returned_rows, update_rows, r.
  change (rows_list _) with [(ClassAppREST, b); (ClassGraphQL, c); (ClassREST, a)].
  rewrite !filter_cons, !decide_False by (cbn; rewrite ?Ha, ?Hb, ?Hc; intros []). cbn.
  by rewrite Ha, Hb, Hc.
Qed.

Lemma agree_ensure now t i : pg_ok t →
  ∃ owner until, rows_agree owner until (ensure_rows now (rows_of t i)) ∧
    pg_holder t i = (o ← owner; u ← until; Some (o, u)).
Proof.
  intros Hok. unfold rows_of, pg_holder. destruct (t !! i) as [r|] eqn:E; cbn.
  - destruct (Hok _ _ E) as (owner & until & a & b & c & -> & Hag & Hn).
    exists owner, until. split; [by exists a, b, c|]. cbn.
    destruct (Hag a) as [-> ->]; [by left|done].
  - exists None, None. split; [|done].
    eexists _, _, _. split; [reflexivity|]. split; [|done].
    intros x Hx. rewrite !elem_of_cons, elem_of_nil in Hx. by destruct_or!; subst.
Qed.

Lemma holder_insert t i r j :
  pg_holder (<[i := r]> t) j = if decide (j = i) then pg_holder {[i := r]} i else pg_holder t j.
Proof.
  unfold pg_holder. destruct (decide (j = i)) as [->|Hne].
  - by rewrite lookup_insert_eq, lookup_singleton_eq.
  - by rewrite lookup_insert_ne.
Qed.

Lemma ok_insert t i r owner until : pg_ok t → rows_agree owner until r → pg_ok (<[i := r]> t).
Proof.
  intros Hok Hr j r' [[-> <-]|[_ H]]%lookup_insert_Some; eauto.
Qed.

Lemma holder_agree i owner until r : rows_agree owner until r →
  pg_holder {[i := r]} i = (o ← owner; u ← until; Some (o, u)).
Proof.
  intros (a & b & c & -> & Hag & _). unfold pg_holder. rewrite lookup_singleton_eq. cbn.
  by destruct (Hag a) as [-> ->]; [left|].
Qed.

(** An update that leaves the lease alone. *)
Lemma agree_update cond f r owner until :
  rows_agree owner until r →
  (∀ c b, br_lease_owner (f c b) = br_lease_owner b ∧ br_lease_until (f c b) = br_lease_until b) →
  rows_agree owner until (update_rows cond f r).
Proof.
  intros (a & b & c & -> & Hag & Hn) Hf. unfold update_rows. cbn.
  eexists _, _, _. split; [reflexivity|]. split; [|done].
  intros x Hx. rewrite !elem_of_cons, elem_of_nil in Hx.
  destruct_or!; try done; subst x;
    (match goal with |- context [if ?b then _ else _] => destruct b end;
     [rewrite (proj1 (Hf _ _)), (proj2 (Hf _ _))|]); apply Hag; rewrite !elem_of_cons; auto.
Qed.

Lemma agree_set_lease a b c token until :
  rows_agree (Some token) (Some until)
    (mkRows (Some (set_lease token until a)) (Some (set_lease token until b))
       (Some (set_lease token until c))).
Proof.
  eexists _, _, _. split; [reflexivity|]. split; [|done].
  intros x Hx. rewrite !elem_of_cons, elem_of_nil in Hx. by destruct_or!; subst.
Qed.

Section agree.
Context (owner : option string) (until : option time) (a b c : budget_row).
Context (Hag : ∀ x, x ∈ [a; b; c] → br_lease_owner x = owner ∧ br_lease_until x = until).

Lemma agree_takeable now token x : x ∈ [a; b; c] →
  takeable now token x =
    bool_decide (owner = None) ||
    match until with Some u => u <=? now | None => false end ||
    bool_decide (owner = Some token).
Proof. intros [Ho Hu]%Hag. unfold takeable, expired, owned_by. by rewrite Ho, Hu. Qed.

Lemma agree_owned now token x : x ∈ [a; b; c] →
  owned_by token x && unexpired now x =
    bool_decide (owner = Some token) && match until with Some u => now <? u | None => false end.
Proof. intros [Ho Hu]%Hag. unfold unexpired, owned_by. by rewrite Ho, Hu. Qed.

Lemma agree_owner token x : x ∈ [a; b; c] → owned_by token x = bool_decide (owner = Some token).
Proof. intros [Ho _]%Hag. unfold owned_by. by rewrite Ho. Qed.
End agree.

Lemma in3_1 {A} (a b c : A) : a ∈ [a; b; c].
Proof. by left. Qed.
Lemma in3_2 {A} (a b c : A) : b ∈ [a; b; c].
Proof. right. by left. Qed.
Lemma in3_3 {A} (a b c : A) : c ∈ [a; b; c].
Proof. right. right. by left. Qed.
#[local] Hint Resolve in3_1 in3_2 in3_3 : core.

Lemma expiry_three u : authoritativeExpiry [Some u; Some u; Some u] = Ok (Some u).
Proof. unfold authoritativeExpiry. cbn. by rewrite bool_decide_eq_true_2. Qed.

(** [Acquire] on rows that agree: all of them are taken, or none. *)
Lemma pg_Acquire_cases now i token ttl t :
  pg_ok t → validLeaseIdentity i token ttl = true →
  (can_take now i token t ∧ ∃ snap r,
     pg_Acquire now i token ttl t = (Ok (Some (snap, now + ttl)), <[i := r]> t) ∧
     rows_agree (Some token) (Some (now + ttl)) r) ∨
  (¬ can_take now i token t ∧ ∃ r owner until,
     pg_Acquire now i token ttl t = (Ok None, <[i := r]> t) ∧
     rows_agree owner until r ∧ pg_holder t i = (o ← owner; u ← until; Some (o, u))).
Proof.
  intros Hok Hv. destruct (agree_ensure now t i Hok) as (owner & until & Hr & Hh).
  pose proof Hr as (a & b & c & Er & Hag & Hn). unfold pg_Acquire. rewrite Hv, Er. cbn [negb].
  set (k := bool_decide (owner = None) ||
    match until with Some u => u <=? now | None => false end || bool_decide (owner = Some token)).
  assert (Hk : k = true ↔ can_take now i token t).
  { unfold can_take. change (@holder PostgresLeaseStore t i) with (pg_holder t i). rewrite Hh. unfold k.
    rewrite !orb_true_iff, !bool_decide_eq_true. split.
    - intros Hcase token' u Hs. destruct owner as [o|], until as [u'|]; try done.
      cbn in Hs. injection Hs as -> ->. destruct Hcase as [[?|Hc]|[= ->]]; [done| |by left].
      right. by apply Z.leb_le in Hc.
    - intros Hcan. destruct owner as [o|]; [|by auto]. destruct until as [u|]; [|by discriminate (proj2 Hn eq_refl)].
      destruct (Hcan o u eq_refl) as [->|Hle]; [auto|]. left. right. by apply Z.leb_le. }
  destruct k eqn:Ek.
  - left. split; [by apply Hk|].
    destruct (rows_all (λ _ x, takeable now token x)
      (λ _ x, set_lease token (now + ttl) x) a b c)
      as [-> ->]; try (erewrite agree_takeable by eauto; exact Ek).
    unfold scanAcquiredBudgetRows. cbn [length Nat.eqb negb map fst snd set_lease br_lease_until].
    rewrite expiry_three. eexists _, _. split; [reflexivity|]. apply agree_set_lease.
  - right. split; [by rewrite <- Hk|].
    destruct (rows_none (λ _ x, takeable now token x)
      (λ _ x, set_lease token (now + ttl) x) a b c)
      as [-> _]; try (erewrite agree_takeable by eauto; exact Ek).
    exists (mkRows (Some a) (Some b) (Some c)), owner, until. split; [done|]. split; [|done].
    by exists a, b, c.
Qed.

Lemma pg_owns now i token t :
  owns_lease (H := PostgresLeaseStore) now i token t ↔
    ∃ u, pg_holder t i = Some (token, u) ∧ now < u.
Proof. done. Qed.

(** The rows of a present installation, with what its holder says of them. *)
Lemma present_rows t i r : pg_ok t → t !! i = Some r →
  ∃ owner until a b c, r = mkRows (Some a) (Some b) (Some c) ∧
    (∀ x, x ∈ [a; b; c] → br_lease_owner x = owner ∧ br_lease_until x = until) ∧
    (owner = None ↔ until = None) ∧ rows_agree owner until r ∧
    pg_holder t i = (o ← owner; u ← until; Some (o, u)).
Proof.
  intros Hok Hr. destruct (Hok _ _ Hr) as (owner & until & a & b & c & -> & Hag & Hn).
  exists owner, until, a, b, c. split; [done|]. do 2 (split; [done|]).
  split; [by exists a, b, c|]. unfold pg_holder. rewrite Hr. cbn.
  by destruct (Hag a) as [-> ->].
Qed.

Lemma owned_cond now i token t owner until :
  pg_holder t i = (o ← owner; u ← until; Some (o, u)) →
  bool_decide (owner = Some token) && match until with Some u => now <? u | None => false end = true
  ↔ ∃ u, pg_holder t i = Some (token, u) ∧ now < u.
Proof.
  intros ->. rewrite andb_true_iff, bool_decide_eq_true. split.
  - intros [-> Hu]. destruct until as [u|]; [|done]. exists u. split; [done|by apply Z.ltb_lt].
  - intros (u & Hs & Hlt). destruct owner, until; try done. cbn in Hs. injection Hs as -> ->.
    split; [done|by apply Z.ltb_lt].
Qed.

Lemma pg_holder_same t i r owner until : pg_ok t → rows_agree owner until r →
  pg_holder t i = (o ← owner; u ← until; Some (o, u)) →
  pg_ok (<[i := r]> t) ∧ ∀ j, pg_holder (<[i := r]> t) j = pg_holder t j.
Proof.
  intros Hok Hr Hh. split; [by eapply ok_insert|]. intros j. rewrite holder_insert.
  destruct (decide (j = i)) as [->|]; [|done]. rewrite Hh. by apply holder_agree.
Qed.

Lemma pg_holder_set t i r token until : pg_ok t → rows_agree (Some token) (Some until) r →
  pg_ok (<[i := r]> t) ∧
  ∀ j, pg_holder (<[i := r]> t) j = if decide (j = i) then Some (token, until) else pg_holder t j.
Proof.
  intros Hok Hr. split; [by eapply ok_insert|]. intros j. rewrite holder_insert.
  destruct (decide (j = i)); [|done]. by rewrite (holder_agree _ _ _ _ Hr).
Qed.

Lemma pg_Renew_cases now i token ttl t :
  pg_ok t →
  (owns_lease (H := PostgresLeaseStore) now i token t ∧ ∃ r,
     pg_Renew now i token ttl t = (Ok (Some (now + ttl)), <[i := r]> t) ∧
     rows_agree (Some token) (Some (now + ttl)) r) ∨
  (∃ t', (pg_Renew now i token ttl t = (Ok None, t') ∧
          ¬ owns_lease (H := PostgresLeaseStore) now i token t ∨
          pg_Renew now i token ttl t = (Err ErrInvalidIdentity, t')) ∧
     pg_ok t' ∧ ∀ j, pg_holder t' j = pg_holder t j).
Proof.
  intros Hok. unfold pg_Renew.
  destruct (validLeaseIdentity i token ttl); cbn [negb]; [|right; exists t; by auto].
  destruct (t !! i) as [r|] eqn:Hr.
  2: { right. exists t. split; [left; split; [done|]|done].
       intros (u & Hs & _). cbn in Hs. unfold pg_holder in Hs. by rewrite Hr in Hs. }
  destruct (present_rows t i r Hok Hr) as (owner & until & a & b & c & -> & Hag & Hn & Hra & Hh).
  pose proof (owned_cond now i token t owner until Hh) as Hk.
  destruct (_ && _) eqn:Ek in Hk.
  - left. split; [by apply Hk|].
    destruct (rows_all (λ _ x, owned_by token x && unexpired now x)
      (λ _ x, set_lease token (now + ttl) x) a b c) as [-> ->];
      try (erewrite agree_owned by eauto; exact Ek).
    cbn [map snd set_lease br_lease_until]. rewrite expiry_three.
    eexists. split; [reflexivity|]. apply agree_set_lease.
  - right.
    destruct (rows_none (λ _ x, owned_by token x && unexpired now x)
      (λ _ x, set_lease token (now + ttl) x) a b c) as [-> ->];
      try (erewrite agree_owned by eauto; exact Ek).
    eexists. split; [left; split; [reflexivity|]|by eapply pg_holder_same].
    intros Ho. apply Hk in Ho. done.
Qed.

Lemma pg_Save_cases now i token snap t r t' :
  pg_ok t → pg_Save now i token snap t = (r, t') →
  (r = Ok false → ¬ owns_lease (H := PostgresLeaseStore) now i token t) ∧ pg_ok t' ∧
  ∀ j, pg_holder t' j = pg_holder t j.
Proof.
  intros Hok. unfold pg_Save. destruct (t !! i) as [rows|] eqn:Hr.
  2: { intros [= <- <-]. split; [|done]. intros _ (u & Hs & _). cbn in Hs.
       unfold pg_holder in Hs. by rewrite Hr in Hs. }
  destruct (present_rows t i rows Hok Hr) as (owner & until & a & b & c & -> & Hag & Hn & Hra & Hh).
  destruct (forallb _ _) eqn:Hst; [|by intros [= <- <-]].
  intros H. injection H as <- <-. split; [|eapply pg_holder_same; [done| |done]].
  - intros Hfalse Ho. apply pg_owns in Ho. apply (owned_cond _ _ _ _ _ _ Hh) in Ho.
    destruct (rows_all (λ _ x, owned_by token x && unexpired now x)
      (λ cl x, save_row now snap cl x) a b c) as [Hall _];
      try (erewrite agree_owned by eauto; exact Ho).
    by rewrite Hall in Hfalse.
  - apply agree_update; [done|]. intros cl x. unfold save_row.
    by destruct (persistedValues _) as [[? ?] ?].
Qed.

Lemma all_owned_rows now token owner until a b c :
  (∀ x, x ∈ [a; b; c] → br_lease_owner x = owner ∧ br_lease_until x = until) →
  all_owned now token (mkRows (Some a) (Some b) (Some c)) =
    bool_decide (owner = Some token) && match until with Some u => now <? u | None => false end.
Proof.
  intros Hag. unfold all_owned. cbn [rows_list app length Nat.eqb forallb snd andb
    row_rest row_app_rest row_graphql].
  rewrite !(agree_owned owner until a b c Hag) by auto.
  set (k := bool_decide _ && _). by destruct k.
Qed.

Lemma pg_SaveBackoff_cases now i token auth until t r t' :
  pg_ok t → pg_SaveBackoff now i token auth until t = (r, t') →
  (r = Ok false → ¬ owns_lease (H := PostgresLeaseStore) now i token t) ∧ pg_ok t' ∧
  ∀ j, pg_holder t' j = pg_holder t j.
Proof.
  intros Hok. unfold pg_SaveBackoff. destruct (negb _); [by intros [= <- <-]|].
  destruct (t !! i) as [rows|] eqn:Hr.
  2: { intros [= <- <-]. split; [|done]. intros _ (u & Hs & _). cbn in Hs.
       unfold pg_holder in Hs. by rewrite Hr in Hs. }
  destruct (present_rows t i rows Hok Hr) as (owner & lu & a & b & c & -> & Hag & Hn & Hra & Hh).
  intros H. injection H as <- <-. split; [|eapply pg_holder_same; [done| |done]].
  - intros Hfalse Ho. apply pg_owns in Ho. apply (owned_cond _ _ _ _ _ _ Hh) in Ho.
    assert (Hall : all_owned now token (mkRows (Some a) (Some b) (Some c)) = true)
      by (rewrite (all_owned_rows now token owner lu a b c Hag); exact Ho).
    rewrite Hall in Hfalse.
    unfold returned_rows in Hfalse.
    change (rows_list _) with [(ClassAppREST, b); (ClassGraphQL, c); (ClassREST, a)] in Hfalse.
    by destruct (bool_decide (auth = AppJWTAuth)).
  - by apply agree_update.
Qed.

Lemma pg_Release_cases i token t r t' :
  pg_ok t → pg_Release i token t = (r, t') →
  pg_ok t' ∧ ∀ j, pg_holder t' j =
    if decide (j = i ∧ fst <$> pg_holder t i = Some token) then None else pg_holder t j.
Proof.
  intros Hok. unfold pg_Release. destruct (t !! i) as [rows|] eqn:Hr.
  2: { intros [= <- <-]. split; [done|]. intros j. rewrite decide_False; [done|].
       intros [-> Hs]. unfold pg_holder in Hs. by rewrite Hr in Hs. }
  destruct (present_rows t i rows Hok Hr) as (owner & lu & a & b & c & -> & Hag & Hn & Hra & Hh).
  intros H. injection H as _ <-.
  destruct (decide (owner = Some token)) as [->|Hne].
  - destruct (rows_all (λ _ x, owned_by token x) (λ _ x, mkBudgetRow (br_remaining x)
      (br_rate_limit x) (br_reset_at x) None None (br_backoff_until x) (br_updated_at x)) a b c)
      as [_ ->];
      try (erewrite agree_owner by eauto; by apply bool_decide_eq_true).
    match goal with |- context [<[i := ?x]> t] => set (rows := x) end.
    assert (Hfree : rows_agree None None rows).
    { eexists _, _, _. split; [reflexivity|]. split; [|done].
      intros x Hx. rewrite !elem_of_cons, elem_of_nil in Hx. by destruct_or!; subst. }
    split; [by eapply ok_insert|]. intros j. rewrite holder_insert.
    destruct lu as [u|]; [|by discriminate (proj2 Hn eq_refl)].
    destruct (decide (j = i)) as [->|Hj].
    + rewrite decide_True by (by rewrite Hh). by rewrite (holder_agree _ _ _ _ Hfree).
    + by rewrite decide_False by tauto.
  - destruct (rows_none (λ _ x, owned_by token x) (λ _ x, mkBudgetRow (br_remaining x)
      (br_rate_limit x) (br_reset_at x) None None (br_backoff_until x) (br_updated_at x)) a b c)
      as [_ ->];
      try (erewrite agree_owner by eauto; by apply bool_decide_eq_false).
    destruct (pg_holder_same t i _ _ _ Hok Hra Hh) as [Hok' Hsame]. split; [done|].
    intros j. rewrite Hsame, decide_False; [done|]. intros [-> Hs]. rewrite Hh in Hs.
    destruct owner, lu; cbn in Hs; congruence.
Qed.

#[export] Instance PostgresLeaseStore_laws : LeaseStoreLaws PostgresLeaseStore.
Proof.
  split; cbn [Acquire Renew Save SaveBackoff Release store_ok holder PostgresLeaseStore store_state].
  - intros now i token ttl t snap until t' Hok H.
    destruct (validLeaseIdentity i token ttl) eqn:Hv; [|unfold pg_Acquire in H; by rewrite Hv in H].
    destruct (pg_Acquire_cases now i token ttl t Hok Hv)
      as [(Hcan & sn & r & E & Hr)|(_ & r & o & u & E & _)]; rewrite E in H; [|done].
    injection H as <- <- <-. split; [done|]. split; [done|]. by apply pg_holder_set.
  - intros now i token ttl t t' Hok H.
    destruct (validLeaseIdentity i token ttl) eqn:Hv; [|unfold pg_Acquire in H; by rewrite Hv in H].
    destruct (pg_Acquire_cases now i token ttl t Hok Hv)
      as [(_ & sn & r & E & Hr)|(Hno & r & o & u & E & Hr & Hh)]; rewrite E in H; [done|].
    injection H as <-. split; [done|]. by eapply pg_holder_same.
  - intros now i token ttl t e t' Hok H.
    destruct (validLeaseIdentity i token ttl) eqn:Hv;
      [|unfold pg_Acquire in H; rewrite Hv in H; by injection H as _ <-].
    destruct (pg_Acquire_cases now i token ttl t Hok Hv)
      as [(_ & sn & r & E & Hr)|(Hno & r & o & u & E & Hr & Hh)]; rewrite E in H; done.
  - intros now i token ttl t until t' Hok H.
    destruct (pg_Renew_cases now i token ttl t Hok)
      as [(Ho & r & E & Hr)|(t1 & [[E _]|E] & _)]; rewrite E in H; [|done|done].
    injection H as <- <-. split; [done|]. split; [done|]. by apply pg_holder_set.
  - intros now i token ttl t ans t' Hok H Hne.
    destruct (pg_Renew_cases now i token ttl t Hok)
      as [(Ho & r & E & Hr)|(t1 & [[E Hno]|E] & Hok1 & Hsame)]; rewrite E in H;
      injection H as <- <-; [by destruct (Hne (now + ttl))|done|done].
  - intros now i token snap t r t'. apply pg_Save_cases.
  - intros now i token auth until t r t'. apply pg_SaveBackoff_cases.
  - intros i token t r t'. apply pg_Release_cases.
Qed.

(** ** Processes that share an installation *)

(** Request handling does not touch the lease, and never makes a gate available. *)
Definition lease_frame (g g' : Gate) : Prop :=
  leaseUntil g' = leaseUntil g ∧ (unavailable g' = None → unavailable g = None).

Section system.
Context `{L : LeaseStore} (i : Z) (ttl : duration) (gateOptions : Options).

(** A running gate: its token, the gate, and the answer of a renewal it has not
    handled yet. *)
Record process : Type := mkProcess {
  p_token : string;
  p_gate : Gate;
  p_pending : option (result store_error (option time))
}.

Record system : Type := mkSystem {
  sys_now : time;
  sys_store : store_state;
  sys_procs : gmap nat process;
  sys_used : gset string
}.

Definition set_proc (pid : nat) (p : process) (st : store_state) (s : system) : system :=
  mkSystem (sys_now s) st (<[pid := p]> (sys_procs s)) (sys_used s).

Inductive lease_step (s : system) : system → Prop :=
  | sys_tick now' :
      sys_now s ≤ now' →
      lease_step s (mkSystem now' (sys_store s) (sys_procs s) (sys_used s))
  | sys_start pid token g st :
      sys_procs s !! pid = None → token ∉ sys_used s →
      NewLeased (sys_now s) (sys_now s) gateOptions i token ttl (sys_store s) = (Ok g, st) →
      lease_step s (mkSystem (sys_now s) st (<[pid := mkProcess token g None]> (sys_procs s))
                      ({[token]} ∪ sys_used s))
  | sys_refused token e st :
      token ∉ sys_used s →
      NewLeased (sys_now s) (sys_now s) gateOptions i token ttl (sys_store s) = (Err e, st) →
      lease_step s (mkSystem (sys_now s) st (sys_procs s) ({[token]} ∪ sys_used s))
  | sys_acquire_lost token answer st :
      token ∉ sys_used s → Acquire (sys_now s) i token ttl (sys_store s) = (answer, st) →
      lease_step s (mkSystem (sys_now s) st (sys_procs s) ({[token]} ∪ sys_used s))
  | sys_renew pid p answer st :
      sys_procs s !! pid = Some p → p_pending p = None →
      Renew (sys_now s) i (p_token p) ttl (sys_store s) = (answer, st) →
      lease_step s (set_proc pid (mkProcess (p_token p) (p_gate p) (Some answer)) st s)
  | sys_renew_lost pid p answer st :
      sys_procs s !! pid = Some p →
      Renew (sys_now s) i (p_token p) ttl (sys_store s) = (answer, st) →
      lease_step s (set_proc pid (mkProcess (p_token p) (p_gate p) (p_pending p)) st s)
  | sys_renewed pid p answer :
      sys_procs s !! pid = Some p → p_pending p = Some answer →
      lease_step s
        (set_proc pid (mkProcess (p_token p) (renewal_answer (sys_now s) answer (p_gate p)) None)
           (sys_store s) s)
  | sys_save pid p snap answer st :
      sys_procs s !! pid = Some p →
      Save (sys_now s) i (p_token p) snap (sys_store s) = (answer, st) →
      lease_step s
        (set_proc pid (mkProcess (p_token p) (snapshot_answer answer (p_gate p)) (p_pending p)) st s)
  | sys_backoff pid p auth until answer st :
      sys_procs s !! pid = Some p →
      SaveBackoff (sys_now s) i (p_token p) auth until (sys_store s) = (answer, st) →
      lease_step s
        (set_proc pid (mkProcess (p_token p) (snapshot_answer answer (p_gate p)) (p_pending p)) st s)
  | sys_watchdog pid p expiry :
      sys_procs s !! pid = Some p →
      lease_step s
        (set_proc pid (mkProcess (p_token p) (watchdog (sys_now s) expiry (p_gate p)) (p_pending p))
           (sys_store s) s)
  | sys_cancelled pid p cause :
      sys_procs s !! pid = Some p →
      lease_step s
        (set_proc pid (mkProcess (p_token p) (maintain_done cause (p_gate p)) (p_pending p))
           (sys_store s) s)
  | sys_activity pid p g :
      sys_procs s !! pid = Some p → lease_frame (p_gate p) g →
      lease_step s (set_proc pid (mkProcess (p_token p) g (p_pending p)) (sys_store s) s)
  | sys_close pid p :
      sys_procs s !! pid = Some p →
      lease_step s
        (set_proc pid (mkProcess (p_token p) (stopAdmission (p_gate p) (Some ErrClosed)) (p_pending p))
           (sys_store s) s)
  | sys_release pid p answer st :
      sys_procs s !! pid = Some p → unavailable (p_gate p) ≠ None →
      Release i (p_token p) (sys_store s) = (answer, st) →
      lease_step s (set_proc pid p st s)
  | sys_crash pid :
      lease_step s (mkSystem (sys_now s) (sys_store s) (delete pid (sys_procs s)) (sys_used s)).

(** No process yet, and a lease left by an earlier deployment at most. *)
Definition lease_initial (s : system) : Prop :=
  sys_procs s = ∅ ∧ store_ok (sys_store s) ∧
  ∀ token until, holder (sys_store s) i = Some (token, until) →
    token ∈ sys_used s ∧ until ≤ sys_now s + ttl.

Definition lease_reachable (s : system) : Prop :=
  ∃ s0, lease_initial s0 ∧ rtc lease_step s0 s.

(** The expiry [e] of token [token] is passed, or the lease is still its own. *)
Definition backed (s : system) (token : string) (e : time) : Prop :=
  e ≤ sys_now s ∨ ∃ until, holder (sys_store s) i = Some (token, until) ∧ e ≤ until.

Record lease_inv (s : system) : Prop := {
  li_ok : store_ok (sys_store s);
  li_holder : ∀ token until, holder (sys_store s) i = Some (token, until) →
    token ∈ sys_used s ∧ until ≤ sys_now s + ttl;
  li_used : ∀ pid p, sys_procs s !! pid = Some p → p_token p ∈ sys_used s;
  li_tokens : ∀ pid1 pid2 p1 p2, sys_procs s !! pid1 = Some p1 → sys_procs s !! pid2 = Some p2 →
    p_token p1 = p_token p2 → pid1 = pid2;
  li_gate : ∀ pid p, sys_procs s !! pid = Some p → unavailable (p_gate p) = None →
    leaseUntil (p_gate p) ≠ 0 ∧ backed s (p_token p) (leaseUntil (p_gate p)) ∧
    ∀ until, p_pending p = Some (Ok (Some until)) → backed s (p_token p) until
}.
End system.

Lemma loseLease_final g err : unavailable (loseLease g err) ≠ None.
Proof.
  unfold loseLease, cancelAdmissions. rewrite aborts_unavailable. unfold stopAdmission.
  cbn [unavailable set_availability]. by destruct (unavailable g) eqn:E; cbn; rewrite ?E.
Qed.

Lemma stopAdmission_final g err : unavailable (stopAdmission g err) ≠ None.
Proof. unfold stopAdmission. by destruct (unavailable g) eqn:E; cbn; rewrite ?E. Qed.

Lemma setLeaseUntil_frame g until :
  unavailable (setLeaseUntil g until) = unavailable g ∧
  (unavailable g = None → leaseUntil (setLeaseUntil g until) = until).
Proof. unfold setLeaseUntil. by destruct (unavailable g) eqn:E; cbn; rewrite ?E. Qed.

(** An admission needs an unexpired lease. *)
Lemma tryAdmit_leased g now class res auth parent id g' :
  tryAdmit g now class res auth parent = (DecisionAdmit id, g') → leaseUntil g ≠ 0 →
  unavailable g = None ∧ now < leaseUntil g.
Proof.
  intros H Hz. destruct (unavailable g) eqn:Hu.
  { by rewrite (tryAdmit_unavailable _ _ _ _ _ _ _ Hu) in H. }
  split; [done|]. apply Z.nle_gt. intros Hle. unfold tryAdmit, expireLease in H. rewrite Hu in H.
  unfold IsZero, Before in H. apply Z.eqb_neq in Hz. rewrite Hz in H.
  rewrite (proj2 (Z.ltb_ge now (leaseUntil g))) in H by done. by cbn in H.
Qed.

Lemma finishAdmission_leaseUntil g id : leaseUntil (finishAdmission g id) = leaseUntil g.
Proof.
  unfold finishAdmission. destruct (admissions g !! id); [|done].
  cbn -[addReservationLocked]. unfold addReservationLocked. by case_if.
Qed.

Lemma loseLease_leaseUntil g err : leaseUntil (loseLease g err) = leaseUntil g.
Proof.
  assert (Hab : ∀ l g, leaseUntil (foldl abort g l) = leaseUntil g).
  { induction l as [|x l IH]; intros g0; [done|]. simpl. rewrite IH. unfold abort.
    by rewrite finishAdmission_leaseUntil. }
  unfold loseLease, cancelAdmissions. rewrite Hab. unfold stopAdmission. by case_match.
Qed.

(** Every step of the gate but a new expiry keeps the lease: the activity of
    [lease_step] covers all request handling. *)
Lemma gate_step_frame pt g g' :
  gate_step pt g g' → (∃ until, g' = setLeaseUntil g until) ∨ lease_frame g g'.
Proof.
  intros Hs.
  assert (Hun : unavailable g' = None → unavailable g = None).
  { destruct (unavailable g) as [e|] eqn:Hu; [|done].
    by rewrite (step_unavailable _ _ _ _ Hs Hu). }
  assert ((∃ until, g' = setLeaseUntil g until) ∨ leaseUntil g' = leaseUntil g) as [?|?];
    [clear Hun|by left|by right].
  destruct Hs; [right|right|right|right|right|right|right|right|left; by eexists|right|right].
  - destruct (tryAdmit _ _ _ _ _ _) as [d g'] eqn:E. cbn.
    unfold tryAdmit, addReservationLocked, expireLease in E.
    repeat case_match; simplify_eq; done.
  - apply finishAdmission_leaseUntil.
  - unfold attachBody. by case_match.
  - unfold abort. by rewrite finishAdmission_leaseUntil.
  - unfold observeREST. by repeat case_match.
  - unfold observeGraphQL. by case_if.
  - unfold observeSecondaryLimit. case_if; [done|].
    destruct (if negb _ then _ else _) as [[[until|]|e'] ended]; simpl; try done.
    assert (Hb : ∀ a, leaseUntil (setBackoffLocked g a until) = leaseUntil g)
      by (intros a; unfold setBackoffLocked; by case_if).
    case_if; [|done]. cbn [lease signalLocked setBackoffLocked].
    destruct (lease g); [|apply Hb]. destruct persist as [[]|]; try apply Hb.
    cbn. rewrite loseLease_leaseUntil. apply Hb.
  - unfold stopAdmission. by case_match.
  - apply loseLease_leaseUntil.
  - unfold restore. by repeat case_if.
Qed.

Section invariant.
Context (L : LeaseStore) (LL : LeaseStoreLaws L) (i : Z) (ttl : duration) (gateOptions : Options).

Abbreviation inv := (lease_inv i ttl).

(** A step of one process that keeps the holder of the lease. *)
Lemma inv_same_holder s pid p p' st :
  inv s → sys_procs s !! pid = Some p → p_token p' = p_token p →
  store_ok st → holder st i = holder (sys_store s) i →
  (unavailable (p_gate p') = None →
     leaseUntil (p_gate p') ≠ 0 ∧ backed i s (p_token p) (leaseUntil (p_gate p')) ∧
     ∀ until, p_pending p' = Some (Ok (Some until)) → backed i s (p_token p) until) →
  inv (set_proc pid p' st s).
Proof.
  intros [Hok Hh Hu Ht Hg] Hp Htok Hst Heq Hp'.
  assert (Hb : ∀ token e, backed i s token e → backed i (set_proc pid p' st s) token e).
  { intros token e. unfold backed. cbn. by rewrite Heq. }
  split; cbn.
  - done.
  - by rewrite Heq.
  - intros q pq [[-> <-]|[_ H]]%lookup_insert_Some; [rewrite Htok; eauto|eauto].
  - intros q1 q2 p1 p2 [[-> <-]|[Hn1 H1]]%lookup_insert_Some [[-> <-]|[Hn2 H2]]%lookup_insert_Some;
      rewrite ?Htok; eauto.
  - intros q pq [[-> <-]|[_ H]]%lookup_insert_Some Hav.
    + rewrite Htok. destruct (Hp' Hav) as (? & ? & ?). auto.
    + destruct (Hg _ _ H Hav) as (? & ? & ?). auto.
Qed.

(** The expiries of one token move with its own lease. *)
Lemma inv_extend s pid p p' st :
  inv s → sys_procs s !! pid = Some p → p_token p' = p_token p → store_ok st →
  owns_lease (sys_now s) i (p_token p) (sys_store s) →
  holder st i = Some (p_token p, sys_now s + ttl) →
  p_gate p' = p_gate p →
  (∀ until, p_pending p' = Some (Ok (Some until)) →
     p_pending p = Some (Ok (Some until)) ∨ until = sys_now s + ttl) →
  inv (set_proc pid p' st s).
Proof.
  intros [Hok Hh Hu Ht Hg] Hp Htok Hst (u & Hown & _) Hnew Hgate Hpend.
  destruct (Hh _ _ Hown) as [Hused Hbound].
  assert (Hb : ∀ q pq e, sys_procs s !! q = Some pq → backed i s (p_token pq) e →
    backed i (set_proc pid p' st s) (p_token pq) e).
  { intros q pq e Hq [?|(u' & Hu' & Hle)]; [by left|right]. cbn. rewrite Hnew.
    rewrite Hown in Hu'. injection Hu' as <- <-. exists (sys_now s + ttl).
    split; [done|]. lia. }
  split; cbn.
  - done.
  - rewrite Hnew. intros token until [= <- <-]. split; [done|lia].
  - intros q pq [[-> <-]|[_ H]]%lookup_insert_Some; [by rewrite Htok|eauto].
  - intros q1 q2 p1 p2 [[-> <-]|[Hn1 H1]]%lookup_insert_Some [[-> <-]|[Hn2 H2]]%lookup_insert_Some;
      rewrite ?Htok; eauto.
  - intros q pq [[-> <-]|[_ H]]%lookup_insert_Some Hav.
    + rewrite Htok, Hgate in *. destruct (Hg _ _ Hp Hav) as (? & ? & Hp2).
      split; [done|]. split; [by eapply Hb|]. intros u1 [Hold| ->]%Hpend; [by eapply Hb, Hp2|].
      right. cbn. eauto with lia.
    + destruct (Hg _ _ H Hav) as (? & ? & Hp2). split; [done|].
      split; [by eapply Hb|]. intros u1 Hold. by eapply Hb, Hp2.
Qed.

Lemma inv_start s pid token g st :
  inv s → sys_procs s !! pid = None → token ∉ sys_used s →
  NewLeased (sys_now s) (sys_now s) gateOptions i token ttl (sys_store s) = (Ok g, st) →
  inv (mkSystem (sys_now s) st (<[pid := mkProcess token g None]> (sys_procs s))
         ({[token]} ∪ sys_used s)).
Proof.
  intros [Hok Hh Hu Ht Hg] Hpid Hfresh H. unfold NewLeased in H.
  destruct (Acquire _ _ _ _ _) as [[[[snap until]|]|] st1] eqn:Ha; try done.
  destruct (acquire_granted _ _ _ _ _ _ _ _ Hok Ha) as (Hcan & Huntil & Hst & Hhold).
  destruct (IsZero until || negb (Before (sys_now s) until)) eqn:Hexp; [done|].
  injection H as <- <-. apply orb_false_iff in Hexp as [Hz%Z.eqb_neq _].
  assert (Hnew : holder st1 i = Some (token, until)) by (by rewrite Hhold, decide_True).
  assert (Hold : ∀ q pq e, sys_procs s !! q = Some pq → backed i s (p_token pq) e → e ≤ sys_now s).
  { intros q pq e Hq [?|(u & Hu' & Hle)]; [done|].
    destruct (Hcan _ _ Hu') as [Heq|?]; [|lia]. destruct (Hh _ _ Hu') as [Hin _].
    rewrite Heq in Hin. done. }
  split; cbn.
  - done.
  - rewrite Hnew. intros t u [= <- <-]. split; [set_solver|lia].
  - intros q pq [[-> <-]|[_ Hq]]%lookup_insert_Some; [set_solver|]. apply Hu in Hq. set_solver.
  - intros q1 q2 p1 p2 [[-> <-]|[Hn1 H1]]%lookup_insert_Some [[-> <-]|[Hn2 H2]]%lookup_insert_Some;
      cbn; eauto; intros Heq.
    + apply Hu in H2. by rewrite <- Heq in H2.
    + apply Hu in H1. by rewrite Heq in H1.
  - intros q pq [[-> <-]|[_ Hq]]%lookup_insert_Some Hav; cbn in *.
    + destruct (setLeaseUntil_frame (restore (New gateOptions) snap) until) as [Heq Hset].
      rewrite Heq in Hav. rewrite (Hset Hav). split; [done|]. split; [|done].
      right. cbn. exists until. split; [done|lia].
    + destruct (Hg _ _ Hq Hav) as (? & Hb & Hp2). split; [done|].
      split; [left; by eapply Hold|]. intros u Hu2. left. eapply Hold; [done|by apply Hp2].
Qed.

(** A fresh token leaves the lease alone, takes it while it is free, or takes it and
    gives it back. *)
Definition fresh_outcome (s : system) (token : string) (st : store_state) : Prop :=
  store_ok st ∧
  (holder st i = holder (sys_store s) i ∨
   (holder st i = None ∨ holder st i = Some (token, sys_now s + ttl)) ∧
   can_take (sys_now s) i token (sys_store s)).

Lemma acquire_outcome s token answer st :
  inv s → Acquire (sys_now s) i token ttl (sys_store s) = (answer, st) → fresh_outcome s token st.
Proof.
  intros [Hok _ _ _ _] Ha. destruct answer as [[[snap until]|]|e].
  - destruct (acquire_granted _ _ _ _ _ _ _ _ Hok Ha) as (Hcan & -> & Hst & Hhold).
    split; [done|right]. split; [right|done]. by rewrite Hhold, decide_True.
  - destruct (acquire_refused _ _ _ _ _ _ Hok Ha) as (_ & Hst & Hs). split; auto.
  - destruct (acquire_failed _ _ _ _ _ _ _ Hok Ha) as (Hst & Hs). split; auto.
Qed.

Lemma refused_outcome s token e st :
  inv s →
  NewLeased (sys_now s) (sys_now s) gateOptions i token ttl (sys_store s) = (Err e, st) →
  fresh_outcome s token st.
Proof.
  intros Hinv H. unfold NewLeased in H.
  destruct (Acquire _ _ _ _ _) as [answer st1] eqn:Ha.
  pose proof (acquire_outcome _ _ _ _ Hinv Ha) as Hout.
  destruct answer as [[[snap until]|]|]; [|by injection H as <- <-..].
  destruct (IsZero until || _); [|done]. injection H as <- <-.
  destruct (acquire_granted _ _ _ _ _ _ _ _ (li_ok _ _ _ Hinv) Ha) as (Hcan & Huntil & Hst & Hhold).
  destruct (Release i token st1) as [a st2] eqn:Er.
  destruct (release_holder _ _ _ _ _ Hst Er) as [Hst2 Hh2]. split; [done|right].
  split; [left|done]. cbn. rewrite Hh2, decide_True; [done|]. split; [done|].
  by rewrite Hhold, decide_True.
Qed.

Lemma inv_fresh s token st :
  inv s → token ∉ sys_used s → fresh_outcome s token st →
  inv (mkSystem (sys_now s) st (sys_procs s) ({[token]} ∪ sys_used s)).
Proof.
  intros [Hok Hh Hu Ht Hg] Hfresh [Hst Hcase].
  assert (Hb : ∀ q pq x, sys_procs s !! q = Some pq → backed i s (p_token pq) x →
    backed i (mkSystem (sys_now s) st (sys_procs s) ({[token]} ∪ sys_used s)) (p_token pq) x).
  { intros q pq x Hq [?|(u & Hu' & Hle)]; [by left|].
    destruct Hcase as [Hsame|[_ Hcan]]; [right; cbn; rewrite Hsame; eauto|left; cbn].
    destruct (Hcan _ _ Hu') as [Heq|?]; [|lia]. destruct (Hh _ _ Hu') as [Hin _].
    by rewrite Heq in Hin. }
  split; cbn.
  - done.
  - intros t u Htu. destruct Hcase as [Hsame|[[Hnone|Htake] _]].
    + rewrite Hsame in Htu. apply Hh in Htu as [? ?]. split; [set_solver|done].
    + by rewrite Hnone in Htu.
    + rewrite Htake in Htu. injection Htu as <- <-. split; [set_solver|lia].
  - intros q pq Hq. apply Hu in Hq. set_solver.
  - done.
  - intros q pq Hq Hav. destruct (Hg _ _ Hq Hav) as (? & ? & Hp2).
    split; [done|]. split; [by eapply Hb|]. intros u Hu2. by eapply Hb, Hp2.
Qed.

(** A renewal that reached the database, whether its answer is kept or lost. *)
Lemma inv_renew s pid p answer st pending :
  inv s → sys_procs s !! pid = Some p →
  Renew (sys_now s) i (p_token p) ttl (sys_store s) = (answer, st) →
  pending = Some answer ∨ pending = p_pending p →
  inv (set_proc pid (mkProcess (p_token p) (p_gate p) pending) st s).
Proof.
  intros Hinv Hp Hr Hpend. pose proof (li_ok _ _ _ Hinv) as Hok.
  assert ((∃ u, answer = Ok (Some u)) ∨ ∀ u, answer ≠ Ok (Some u)) as [[u ->]|Hne]
    by (destruct answer as [[u|]|]; [left; by exists u|by right..]).
  - destruct (renew_confirmed _ _ _ _ _ _ _ Hok Hr) as (Hown & -> & Hst & Hh).
    eapply inv_extend; cbn; try done; [by rewrite Hh, decide_True|].
    intros u1 Hu1. destruct Hpend as [->| ->]; [right; congruence|by left].
  - destruct (renew_refused _ _ _ _ _ _ _ Hok Hr Hne) as (_ & Hst & Hh).
    eapply inv_same_holder; cbn; try done. intros Hav.
    destruct (li_gate _ _ _ Hinv _ _ Hp Hav) as (? & ? & Hp2). split; [done|]. split; [done|].
    intros u1 Hu1. destruct Hpend as [->| ->]; [|by apply Hp2].
    injection Hu1 as Hu1. by destruct (Hne u1).
Qed.

(** A step of the gate that keeps its lease. *)
Lemma inv_frame s pid p g st :
  inv s → sys_procs s !! pid = Some p → lease_frame (p_gate p) g →
  store_ok st → holder st i = holder (sys_store s) i →
  inv (set_proc pid (mkProcess (p_token p) g (p_pending p)) st s).
Proof.
  intros Hinv Hp [Hl Hf] Hst Hh. eapply inv_same_holder; cbn; try done. intros Hav.
  destruct (li_gate _ _ _ Hinv _ _ Hp (Hf Hav)) as (? & ? & ?). by rewrite Hl.
Qed.

(** Losing the lease keeps the expiry, and never makes a gate available. *)
Lemma inv_lost s pid p g st pending :
  inv s → sys_procs s !! pid = Some p → unavailable g ≠ None →
  store_ok st → holder st i = holder (sys_store s) i →
  inv (set_proc pid (mkProcess (p_token p) g pending) st s).
Proof. intros Hinv Hp Hg Hst Hh. by eapply inv_same_holder. Qed.

Lemma inv_snapshot s pid p answer st :
  inv s → sys_procs s !! pid = Some p →
  store_ok st → holder st i = holder (sys_store s) i →
  inv (set_proc pid (mkProcess (p_token p) (snapshot_answer answer (p_gate p)) (p_pending p)) st s).
Proof.
  intros Hinv Hp Hst Hh. destruct answer as [[]|]; cbn [snapshot_answer].
  - by apply inv_frame.
  - eapply inv_lost; eauto using loseLease_final.
  - by apply inv_frame.
Qed.

(** A handled answer was confirmed by the database before. *)
Lemma inv_renewed s pid p answer :
  inv s → sys_procs s !! pid = Some p → p_pending p = Some answer →
  inv (set_proc pid (mkProcess (p_token p) (renewal_answer (sys_now s) answer (p_gate p)) None)
         (sys_store s) s).
Proof.
  intros Hinv Hp Hpend. pose proof (li_ok _ _ _ Hinv) as Hok.
  assert (Hkeep : inv (set_proc pid (mkProcess (p_token p) (p_gate p) None) (sys_store s) s)).
  { eapply inv_same_holder; cbn; try done. intros Hav.
    destruct (li_gate _ _ _ Hinv _ _ Hp Hav) as (? & ? & _). by split. }
  destruct answer as [[u|]|e]; cbn [renewal_answer]; [|eapply inv_lost; eauto using loseLease_final|done].
  destruct (IsZero u || _) eqn:Ez; [eapply inv_lost; eauto using loseLease_final|].
  apply orb_false_iff in Ez as [Hz%Z.eqb_neq _].
  destruct (setLeaseUntil_frame (p_gate p) u) as [Hu Hset].
  eapply inv_same_holder; cbn; try done. rewrite Hu. intros Hav. rewrite (Hset Hav).
  destruct (li_gate _ _ _ Hinv _ _ Hp Hav) as (_ & _ & Hp2). split; [done|]. split; [by apply Hp2|done].
Qed.

(** Only a gate that admits nothing any more gives its lease back. *)
Lemma inv_release s pid p answer st :
  inv s → sys_procs s !! pid = Some p → unavailable (p_gate p) ≠ None →
  Release i (p_token p) (sys_store s) = (answer, st) → inv (set_proc pid p st s).
Proof.
  intros [Hok Hh Hu Ht Hg] Hp Hun Hr.
  destruct (release_holder _ _ _ _ _ Hok Hr) as [Hst Hnew].
  assert (Hproc : <[pid := p]> (sys_procs s) = sys_procs s) by (by apply insert_id).
  specialize (Hnew i). split; cbn; rewrite ?Hproc; try done.
  - rewrite Hnew. case_decide; [done|apply Hh].
  - intros q pq Hq Hav. destruct (Hg _ _ Hq Hav) as (? & Hb & Hp2).
    assert (Hkeep : ∀ e, backed i s (p_token pq) e → backed i (set_proc pid p st s) (p_token pq) e).
    { intros e [?|(u & Hown & Hle)]; [by left|right]. exists u. cbn. rewrite Hnew, decide_False; [done|].
      intros [_ Hsame]. rewrite Hown in Hsame. injection Hsame as Hsame.
      rewrite (Ht _ _ _ _ Hq Hp Hsame) in Hq. congruence. }
    split; [done|]. split; [by apply Hkeep|]. intros u Hu2. by apply Hkeep, Hp2.
Qed.

Lemma inv_tick s now' :
  inv s → sys_now s ≤ now' → inv (mkSystem now' (sys_store s) (sys_procs s) (sys_used s)).
Proof.
  intros [Hok Hh Hu Ht Hg] Hle.
  assert (Hb : ∀ t e, backed i s t e →
    backed i (mkSystem now' (sys_store s) (sys_procs s) (sys_used s)) t e).
  { intros t e [?|?]; [left; cbn; lia|by right]. }
  split; cbn; try done.
  - intros t u Htu. apply Hh in Htu as [? ?]. split; [done|lia].
  - intros q pq Hq Hav. destruct (Hg _ _ Hq Hav) as (? & ? & ?). auto.
Qed.

Lemma inv_crash s pid :
  inv s → inv (mkSystem (sys_now s) (sys_store s) (delete pid (sys_procs s)) (sys_used s)).
Proof.
  intros [Hok Hh Hu Ht Hg]. split; cbn; try done.
  - intros q pq [_ Hq]%lookup_delete_Some. eauto.
  - intros q1 q2 p1 p2 [_ H1]%lookup_delete_Some [_ H2]%lookup_delete_Some. eauto.
  - intros q pq [_ Hq]%lookup_delete_Some Hav. by apply (Hg _ _ Hq Hav).
Qed.

Lemma lease_step_inv s s' : inv s → lease_step i ttl gateOptions s s' → inv s'.
Proof.
  intros Hinv Hs. pose proof (li_ok _ _ _ Hinv) as Hok. destruct Hs as
    [now' Hle|pid token g st Hn Hf H|token e st Hf H|token a st Hf H|pid p a st Hp _ H|pid p a st Hp H
    |pid p a Hp Ha|pid p sn a st Hp H|pid p au u a st Hp H|pid p x Hp|pid p cause Hp|pid p g Hp Hg|pid p Hp
    |pid p a st Hp Hun H|pid].
  - by apply inv_tick.
  - by eapply inv_start.
  - eapply inv_fresh; eauto using refused_outcome.
  - eapply inv_fresh; eauto using acquire_outcome.
  - eapply inv_renew; eauto.
  - eapply inv_renew; eauto.
  - by eapply inv_renewed.
  - destruct (save_holder _ _ _ _ _ _ _ Hok H) as (_ & Hst & Hh). eapply inv_snapshot; eauto.
  - destruct (backoff_holder _ _ _ _ _ _ _ _ Hok H) as (_ & Hst & Hh). eapply inv_snapshot; eauto.
  - unfold watchdog. destruct (_ <? _); [by apply inv_frame|].
    eapply inv_lost; eauto using loseLease_final.
  - unfold maintain_done. repeat case_match; try by apply inv_frame.
    all: eapply inv_lost; eauto using loseLease_final.
  - by apply inv_frame.
  - eapply inv_lost; eauto using stopAdmission_final.
  - by eapply inv_release.
  - by apply inv_crash.
Qed.

Lemma lease_reachable_inv s : lease_reachable i ttl gateOptions s → inv s.
Proof.
  intros (s0 & (Hp & Hok & Hh) & Hs).
  assert (H0 : inv s0) by (split; rewrite ?Hp; try done).
  clear Hp Hok Hh. induction Hs; eauto using lease_step_inv.
Qed.

(** A gate that admits a request owns the lease at that instant. *)
Lemma admitting_gate_owns s pid p class res auth parent id g' :
  lease_reachable i ttl gateOptions s → sys_procs s !! pid = Some p →
  tryAdmit (p_gate p) (sys_now s) class res auth parent = (DecisionAdmit id, g') →
  owns_lease (sys_now s) i (p_token p) (sys_store s).
Proof.
  intros Hinv%lease_reachable_inv Hp Hadm.
  assert (Hav : unavailable (p_gate p) = None).
  { destruct (unavailable (p_gate p)) eqn:Hu; [|done].
    by rewrite (tryAdmit_unavailable _ _ _ _ _ _ _ Hu) in Hadm. }
  destruct (li_gate _ _ _ Hinv _ _ Hp Hav) as (Hz & Hb & _).
  destruct (tryAdmit_leased _ _ _ _ _ _ _ _ Hadm Hz) as [_ Hlt].
  destruct Hb as [?|(u & Hu & ?)]; [lia|]. exists u. split; [done|lia].
Qed.

(** C11. Single active gate: processes that share an installation and go through any
    interleaving of acquisitions, renewals whose answers come late or never,
    snapshots, expiries, closes, releases and crashes never admit requests at the
    same time. Of two gates that admit a request at one instant, both are the same
    process, and it owns an unexpired lease in the store then. *)
Theorem single_active_gate s pid1 pid2 p1 p2 c1 c2 r1 r2 a1 a2 par1 par2 id1 id2 g1 g2 :
  lease_reachable i ttl gateOptions s →
  sys_procs s !! pid1 = Some p1 → sys_procs s !! pid2 = Some p2 →
  tryAdmit (p_gate p1) (sys_now s) c1 r1 a1 par1 = (DecisionAdmit id1, g1) →
  tryAdmit (p_gate p2) (sys_now s) c2 r2 a2 par2 = (DecisionAdmit id2, g2) →
  pid1 = pid2 ∧ owns_lease (sys_now s) i (p_token p1) (sys_store s).
Proof.
  intros Hr H1 H2 A1 A2.
  pose proof (admitting_gate_owns _ _ _ _ _ _ _ _ _ Hr H1 A1) as O1.
  pose proof (admitting_gate_owns _ _ _ _ _ _ _ _ _ Hr H2 A2) as O2.
  split; [|done]. destruct O1 as (u1 & E1 & _), O2 as (u2 & E2 & _).
  eapply (li_tokens _ _ _ (lease_reachable_inv _ Hr)); eauto. congruence.
Qed.
End invariant.

(** A holder that closes cleanly frees the lease, and no cleanup error is an error
    of ownership. *)
Theorem close_frees_lease (L : LeaseStore) (LL : LeaseStoreLaws L) now i token g drain s errs s' :
  store_ok s → owns_lease now i token s →
  close_cleanup now i token g drain s = (errs, s') →
  holder s' i = None ∧ ∀ j, j ≠ i → holder s' j = holder s j.
Proof.
  intros Hok (u & Hown & _) H. unfold close_cleanup in H.
  destruct (Save _ _ _ _ _) as [saved s1] eqn:Hs.
  destruct (save_holder _ _ _ _ _ _ _ Hok Hs) as (_ & Hok1 & Hh1).
  destruct (Release _ _ _) as [released s2] eqn:Hr.
  destruct (release_holder _ _ _ _ _ Hok1 Hr) as [_ Hh2]. injection H as _ <-. split.
  - rewrite Hh2, decide_True; [done|]. by rewrite Hh1, Hown.
  - intros j Hj. by rewrite Hh2, decide_False, Hh1 by tauto.
Qed.

(** Accepted options renew and call the store within the lease, a standby waits at
    most a third of it, and a failed renewal is retried before the confirmed
    expiry. *)
Theorem lease_timing o o' jitter expiry now :
  normalizeLeaseOptions o = Ok o' → (∀ n, 0 < n → 0 <= jitter n < n) →
  0 < lo_RenewInterval o' < lo_TTL o' ∧ 0 < lo_StoreTimeout o' < lo_TTL o' ∧
  0 < standbyRetryDelay (lo_TTL o') jitter <= Z.max Nanosecond (lo_TTL o' `quot` 3) ∧
  (now + 1 < expiry → 0 <= renewRetryDelay (lo_RenewInterval o') expiry now < expiry - now).
Proof.
  intros H Hj. unfold normalizeLeaseOptions in H.
  repeat (case_match; [discriminate H|]). injection H as <-.
  cbn [lo_RenewInterval lo_TTL lo_StoreTimeout].
  repeat match goal with E : _ || _ = false |- _ => apply orb_false_iff in E as [?%Z.leb_gt ?%Z.leb_gt] end.
  match goal with E : ?r < ?t |- 0 < ?r < ?t ∧ 0 < ?x < ?t ∧ _ =>
    generalize dependent r; intros renew; generalize dependent t; intros ttl; intros end.
  split; [lia|]. split; [lia|]. split.
  - unfold standbyRetryDelay, maxStandbyRetryInterval, Nanosecond, Second.
    destruct (Z.leb_spec (Z.min (ttl `quot` 3) (3 * 1000000000)) 1); [lia|].
    set (m := Z.min (ttl `quot` 3) (3 * 1000000000)) in *.
    assert (1 <= m `quot` 2 < m)
      by (rewrite Z.quot_div_nonneg by lia; pose proof (Z.div_mod m 2); pose proof (Z.mod_pos_bound m 2); lia).
    pose proof (Hj (m - m `quot` 2)). unfold m in *. lia.
  - intros Hlt. unfold renewRetryDelay. destruct (Z.leb_spec (expiry - now) 0); [lia|].
    rewrite !Z.quot_div_nonneg by lia.
    pose proof (Z.div_mod (expiry - now) 2). pose proof (Z.mod_pos_bound (expiry - now) 2).
    pose proof (Z.div_pos renew 2). lia.
Qed.

(** ** Failover *)

(** A row carries a pool of a snapshot: its budget when known, and its backoff at least. *)
Definition row_carries (snap : Snapshot) (c : budget_class) (b : budget_row) : Prop :=
  (Known (class_budget snap c) = true → restoredBudget b = class_budget snap c) ∧
  class_backoff snap c ≤ later zero_time (br_backoff_until b).

Definition rows_carry (snap : Snapshot) (r : inst_rows) : Prop :=
  ∃ a b c, r = mkRows (Some a) (Some b) (Some c) ∧
    row_carries snap ClassREST a ∧ row_carries snap ClassAppREST b ∧
    row_carries snap ClassGraphQL c.

Lemma later_le current v : current ≤ later current v.
Proof. unfold later, After. destruct v; [|lia]. destruct (Z.ltb_spec current t); lia. Qed.

Lemma later_mono current current' v : current ≤ current' → later current v ≤ later current' v.
Proof.
  unfold later, After. intros H. destruct v as [u|]; [|done].
  destruct (Z.ltb_spec current u), (Z.ltb_spec current' u); lia.
Qed.

Lemma save_row_carries now snap c b : row_carries snap c (save_row now snap c b).
Proof.
  unfold row_carries, save_row, persistedValues. destruct (class_budget snap c) as [k l r e].
  split.
  - cbn. intros ->. done.
  - assert (Hb : class_backoff snap c ≤
      later zero_time (raise_backoff (br_backoff_until b) (nullable_time (class_backoff snap c)))).
    { unfold later, raise_backoff, nullable_time, IsZero, After, zero_time.
      destruct (br_backoff_until b) as [s|], (Z.eqb_spec (class_backoff snap c) 0);
        try (destruct (Z.ltb_spec s (class_backoff snap c)));
        repeat match goal with |- context [?x <? ?y] => destruct (Z.ltb_spec x y) end; lia. }
    by destruct k.
Qed.

(** The columns of a lease are not the columns of a budget. *)
Lemma carries_frame snap c b b' :
  br_remaining b' = br_remaining b → br_rate_limit b' = br_rate_limit b →
  br_reset_at b' = br_reset_at b → br_backoff_until b' = br_backoff_until b →
  row_carries snap c b → row_carries snap c b'.
Proof.
  intros H1 H2 H3 H4 [Hk Hb]. split.
  - intros K. rewrite <- (Hk K). unfold restoredBudget. by rewrite H1, H2, H3.
  - by rewrite H4.
Qed.

Lemma carry_update snap cond f r :
  (∀ c b, row_carries snap c b → row_carries snap c (f c b)) →
  rows_carry snap r → rows_carry snap (update_rows cond f r).
Proof.
  intros Hf (a & b & c & -> & Ha & Hb & Hc). unfold update_rows. cbn.
  eexists _, _, _. split; [reflexivity|].
  by split_and!; case_match; auto.
Qed.

Lemma pg_Save_carries now i token snap t t' :
  pg_ok t → pg_Save now i token snap t = (Ok true, t') →
  pg_ok t' ∧ ∃ r, t' !! i = Some r ∧ rows_carry snap r.
Proof.
  intros Hok H. split; [by eapply pg_Save_cases|]. unfold pg_Save in H.
  destruct (t !! i) as [r|] eqn:Hr; [|done].
  destruct (present_rows t i r Hok Hr) as (owner & until & a & b & c & -> & Hag & _).
  destruct (forallb _ _); [|done]. injection H as Hlen <-.
  eexists. split; [apply lookup_insert_eq|].
  destruct (bool_decide (owner = Some token) &&
    match until with Some u => now <? u | None => false end) eqn:Ek.
  - destruct (rows_all (λ _ x, owned_by token x && unexpired now x)
      (λ cl x, save_row now snap cl x) a b c)
      as [_ ->]; try (erewrite agree_owned by eauto; exact Ek).
    eexists _, _, _. split; [reflexivity|]. split_and!; apply save_row_carries.
  - destruct (rows_none (λ _ x, owned_by token x && unexpired now x)
      (λ cl x, save_row now snap cl x) a b c)
      as [Hnone _]; try (erewrite agree_owned by eauto; exact Ek).
    by rewrite Hnone in Hlen.
Qed.

Lemma pg_Release_carries i token snap t r :
  t !! i = Some r → rows_carry snap r →
  ∃ r', (pg_Release i token t).2 !! i = Some r' ∧ rows_carry snap r'.
Proof.
  intros Hr Hc. unfold pg_Release. rewrite Hr. eexists. split; [apply lookup_insert_eq|].
  apply carry_update; [|done]. intros cl b. by apply carries_frame.
Qed.

(** What an acquisition restores. *)
Lemma pg_Acquire_carries now i token ttl snap t r snap' until t' :
  pg_ok t → t !! i = Some r → rows_carry snap r →
  pg_Acquire now i token ttl t = (Ok (Some (snap', until)), t') →
  (∀ c, Known (class_budget snap c) = true → class_budget snap' c = class_budget snap c) ∧
  (∀ c, class_backoff snap c ≤ class_backoff snap' c).
Proof.
  intros Hok Hr (a & b & c & -> & Ha & Hb & Hc) H. unfold pg_Acquire in H.
  assert (Hen : ensure_rows now (rows_of t i) = mkRows (Some a) (Some b) (Some c))
    by (unfold rows_of; by rewrite Hr).
  destruct (negb _); [done|]. rewrite Hen in H. clear Hen.
  destruct (present_rows t i _ Hok Hr) as (owner & lu & a' & b' & c' & [= <- <- <-] & Hag & _).
  set (k := bool_decide (owner = None) ||
    match lu with Some u => u <=? now | None => false end || bool_decide (owner = Some token)) in *.
  destruct k eqn:Ek.
  2: { destruct (rows_none (λ _ x, takeable now token x) (λ _ x, set_lease token (now + ttl) x) a b c)
         as [Hnone _]; try (erewrite agree_takeable by eauto; exact Ek).
       by rewrite Hnone in H. }
  destruct (rows_all (λ _ x, takeable now token x) (λ _ x, set_lease token (now + ttl) x) a b c)
    as [Hall _]; try (erewrite agree_takeable by eauto; exact Ek).
  rewrite Hall in H. unfold scanAcquiredBudgetRows in H.
  cbn [length Nat.eqb negb map fst snd set_lease br_lease_until] in H.
  rewrite expiry_three in H. injection H as <- _ _.
  destruct Ha as [Ka Ba], Hb as [Kb Bb], Hc as [Kc Bc]. cbn [class_backoff] in *.
  set (z := later zero_time (br_backoff_until c)) in *.
  pose proof (later_mono zero_time z (br_backoff_until a) (later_le _ _)) as M1.
  pose proof (later_le z (br_backoff_until a)) as M2.
  split; intros []; cbn; auto; unfold z in *; cbn in *; lia.
Qed.

Lemma restore_budget g snap p :
  budget (restore g snap) p =
    let b := class_budget snap match p with PoolREST => ClassREST | PoolAppREST => ClassAppREST
                               | PoolGraphQL => ClassGraphQL end in
    if Known b then b else budget g p.
Proof.
  unfold restore. destruct p; cbn;
  destruct (Known (sn_REST snap)), (Known (sn_AppREST snap)), (Known (sn_GraphQL snap));
  repeat case_if; done.
Qed.

Lemma restore_backoff g snap auth :
  (if bool_decide (auth = AppJWTAuth) then sn_AppJWTBackoffUntil snap else sn_BackoffUntil snap)
    ≤ backoffLocked (restore g snap) auth.
Proof.
  unfold restore, After.
  set (g1 := if Known (sn_GraphQL snap) then _ else _). generalize g1. clear g1 g. intros g.
  unfold backoffLocked.
  destruct (bool_decide (auth = AppJWTAuth)); cbn [signalLocked appJWTBackoffUntil backoffUntil];
  repeat (match goal with |- context [?x <? ?y] => destruct (Z.ltb_spec x y) end;
    cbn [setBackoffLocked appJWTBackoffUntil backoffUntil] in *);
  rewrite ?bool_decide_eq_true_2, ?bool_decide_eq_false_2 in * by done; cbn in *; lia.
Qed.


(** A deployment of two processes: the first holds the lease of installation 7. *)
Definition demo_empty : system (L := PostgresLeaseStore) := mkSystem 1000 ∅ ∅ ∅.

Definition demo_started : result new_leased_error Gate * store_state :=
  NewLeased 1000 1000 demo_options 7 "a" (30 * Second) ∅.

Definition demo_gate : Gate := match demo_started.1 with Ok g => g | Err _ => New demo_options end.

Definition demo_running : system (L := PostgresLeaseStore) :=
  mkSystem 1000 demo_started.2 {[ 0%nat := mkProcess "a" demo_gate None ]} {[ "a" ]}.

Lemma single_active_gate_witness :
  owns_lease (H := PostgresLeaseStore) 1000 7 "a" (sys_store demo_running).
Proof.
  eapply (single_active_gate PostgresLeaseStore PostgresLeaseStore_laws 7 (30 * Second) demo_options
    demo_running 0 0 (mkProcess "a" demo_gate None) (mkProcess "a" demo_gate None)
    Event Event REST REST InstallationAuth InstallationAuth None None).
  - exists demo_empty. split.
    + split; [done|]. split; [intros j r Hr; cbn in Hr; set_solver|].
      intros t u H. by vm_compute in H.
    + apply rtc_once.
      pose proof (sys_start 7 (30 * Second) demo_options demo_empty 0 "a" demo_gate demo_started.2)
        as Hs.
      apply Hs; [done|set_solver|]. vm_compute. reflexivity.
  - reflexivity.
  - reflexivity.
  - vm_compute. reflexivity.
  - vm_compute. reflexivity.
Defined.

Definition demo_saved : result store_error bool * budget_table :=
  pg_Save 1500 7 "a" (snapshot demo_known) demo_started.2.

(** The next process, after the first one has closed. *)
Definition demo_successor : result new_leased_error Gate * budget_table :=
  NewLeased (H := PostgresLeaseStore) 2000 2000 demo_options 7 "b" (30 * Second)
    (pg_Release 7 "a" demo_saved.2).2.

Lemma demo_started_ok : pg_ok demo_started.2.
Proof.
  assert (Hs : ∃ snap until,
    pg_Acquire 1000 7 "a" (30 * Second) ∅ = (Ok (Some (snap, until)), demo_started.2))
    by (eexists _, _; vm_compute; reflexivity).
  destruct Hs as (snap & until & Hs).
  eapply (acquire_granted (L := PostgresLeaseStore) 1000 7 "a" (30 * Second) ∅ snap until _); [|done].
  intros j r Hr. cbn in Hr. set_solver.
Qed.

