(* ===== verification/Derive.v ===== *)
(** * The deriver

    [internal/derive/derive.go] and [snapshot.go] with
    [internal/store/dbgen/derive.sql.go] and [internal/opsstate/heartbeat.go]: the
    loop that drains the dirty scopes the cache writers mark. A pass claims dirty
    scopes under row locks, loads one snapshot of the cache, calls the pure deriver,
    validates what it returns, and replaces the work items of the claimed scopes
    with their events in the same transaction.

    The deriver is the class [Deriver]; what a pass demands of it is
    [DeriverLaws]. [derive_step] interleaves writers and passes on the row locks of
    [derivation_dirty], and [work_items_consistent] is the invariant of the system:
    the work items of a scope that is not dirty are those of the current cache.

    A [jsonb] value is a term of an abstract type [J]; the document that the
    snapshot statement builds for a scope is kept as the record it encodes. *)

From Stdlib Require Import ZArith Lia Bool String.
From stdpp Require Import sorting strings gmap sets numbers base list.
From S2P Require Import Prelude GoStrings Keys EntityWriter.

Local Open Scope Z_scope.

(** ** Heartbeats *)

Record heartbeat_row : Type := mkHeartbeat {
  success_count : Z;
  sample_count : Z;
  last_success_at : time;
  last_sample_at : option time
}.

Abbreviation heartbeats := (gmap (Z * string * string) heartbeat_row).

(** [RecordOperationHeartbeat]. *)
Definition RecordOperationHeartbeat (now : time) (key : Z * string * string) (samples : Z)
    (h : heartbeats) : heartbeats :=
  let sample_at := if 0 <? samples then Some now else None in
  <[key := match h !! key with
           | None => mkHeartbeat 1 samples now sample_at
           | Some r =>
               mkHeartbeat (success_count r + 1) (sample_count r + samples) now
                 match sample_at with Some t => Some t | None => last_sample_at r end
           end]> h.

(** [RecordSuccessN]; [None] is the error of an invalid identity or count. *)
Definition RecordSuccessN (now : time) (installationID : Z) (component operation : string)
    (samples : Z) (h : heartbeats) : option heartbeats :=
  if (installationID <=? 0) || bool_decide (component = "") || bool_decide (operation = "")
  then None
  else if samples <? 0 then None
  else Some (RecordOperationHeartbeat now (installationID, component, operation) samples h).

(** ** Options *)

Definition defaultDirtyCap : Z := 500.
Definition defaultPollInterval : duration := 500 * 1000000.
Definition maxListenerBackoff : duration := 5 * Second.

Inductive options_error : Type :=
  | NegativeDirtyCap
  | NegativePollInterval
  | BadInstallation.

(** [resolveInstallationID], with the value of the environment variable. *)
Definition resolveInstallationID (configured : Z) (env : string) : result options_error Z :=
  if 0 <? configured then Ok configured
  else if configured <? 0 then Err BadInstallation
  else
    let raw := TrimSpace env in
    if bool_decide (raw = "") then Err BadInstallation
    else match ParseInt raw with
         | Some id => if id <=? 0 then Err BadInstallation else Ok id
         | None => Err BadInstallation
         end.

(** What [New] settles: the cap, the poll interval and the installation. *)
Definition New (dirtyCap : Z) (pollInterval : duration) (installationID : Z) (env : string)
    : result options_error (Z * duration * Z) :=
  let dirtyCap := if dirtyCap =? 0 then defaultDirtyCap else dirtyCap in
  let pollInterval := if pollInterval =? 0 then defaultPollInterval else pollInterval in
  if dirtyCap <? 0 then Err NegativeDirtyCap
  else if pollInterval <? 0 then Err NegativePollInterval
  else installation ← resolveInstallationID installationID env;
       Ok (dirtyCap, pollInterval, installation).

Definition growListenerBackoff (current : duration) : duration :=
  if maxListenerBackoff <? wrap64 (current * 2) then maxListenerBackoff else wrap64 (current * 2).

(** ** The deriver's view of the cache *)

Section deriver.
Context {J : Type} `{EqDecision J}.

(** The columns the snapshot statement joins and filters on; [columns] is the rest
    of the row. *)
Record pull_row : Type := mkPull {
  pr_repo_id : Z;
  pr_number : Z;
  pr_stack_number : option Z;
  pr_head_sha : string;
  pr_tombstoned_at : option time;
  pr_columns : J
}.

Record stack_row : Type := mkStack {
  sk_repo_id : Z;
  sk_number : Z;
  sk_tombstoned_at : option time;
  sk_columns : J
}.

Record thread_row : Type := mkThread {
  th_id : string;
  th_repo_id : Z;
  th_pr_number : Z;
  th_head_sha : string;
  th_tombstoned_at : option time;
  th_columns : J
}.

Record check_row : Type := mkCheck {
  ch_gh_id : Z;
  ch_repo_id : Z;
  ch_head_sha : string;
  ch_tombstoned_at : option time;
  ch_columns : J
}.

Record rule_row : Type := mkRule {
  ru_repo_id : Z;
  ru_rule_key : string;
  ru_tombstoned_at : option time;
  ru_columns : J
}.

(** The cache tables by their unique keys: repositories by GitHub id, pull requests
    and stacks by repository and number, threads and check runs by id, rules by
    repository and rule key. *)
Record tables : Type := mkTables {
  t_repos : gmap Z repo_row;
  t_pulls : gmap (Z * Z) pull_row;
  t_stacks : gmap (Z * Z) stack_row;
  t_threads : gmap string thread_row;
  t_checks : gmap Z check_row;
  t_rules : gmap (Z * string) rule_row
}.

(** The rows of a table. *)
Definition rows_of {K V} `{Countable K} (m : gmap K V) : list V := (map_to_list m).*2.

(** The document of one scope. *)
Record scope_data : Type := mkData {
  sd_kind : string;
  sd_number : Z;
  sd_repository : option repo_row;
  sd_repo_rules : list rule_row;
  sd_stack : option stack_row;
  sd_pull_requests : list pull_row;
  sd_review_threads : list thread_row;
  sd_check_runs : list check_row
}.

Record ScopeSnapshot : Type := mkScope {
  ss_ScopeKey : string;
  ss_OrgID : Z;
  ss_RepoID : Z;
  ss_Data : scope_data
}.

Definition Snapshot : Type := list ScopeSnapshot.

Definition number_le (a b : pull_row) : Prop := pr_number a <= pr_number b.
Definition thread_le (a b : thread_row) : Prop := string_le (th_id a) (th_id b).
Definition check_le (a b : check_row) : Prop := ch_gh_id a <= ch_gh_id b.
Definition rule_le (a b : rule_row) : Prop := string_le (ru_rule_key a) (ru_rule_key b).
#[export] Instance number_le_dec : RelDecision number_le := λ a b, decide (_ <= _).
#[export] Instance thread_le_dec : RelDecision thread_le := λ a b, decide (string_le _ _).
#[export] Instance check_le_dec : RelDecision check_le := λ a b, decide (_ <= _).
#[export] Instance rule_le_dec : RelDecision rule_le := λ a b, decide (string_le _ _).

(** [requested_repos]: the live repository of a scope. *)
Definition scope_repo (t : tables) (sc : parsedScope) : option repo_row :=
  match t_repos t !! RepositoryID sc with
  | Some r =>
      if bool_decide (rp_installation_id r = Installation sc ∧ rp_tombstoned_at r = None)
      then Some r else None
  | None => None
  end.

(** [selected_prs]: the members of a stack, or the pull request itself while it is
    in no stack. *)
Definition selects (sc : parsedScope) (repo : repo_row) (p : pull_row) : bool :=
  bool_decide (pr_repo_id p = rp_id repo ∧ pr_tombstoned_at p = None) &&
  (if bool_decide (Kind sc = "stack") then bool_decide (pr_stack_number p = Some (Number sc))
   else bool_decide (Kind sc = "pr" ∧ pr_number p = Number sc ∧ pr_stack_number p = None)).

Definition selected_prs (t : tables) (sc : parsedScope) (repo : repo_row) : list pull_row :=
  merge_sort number_le (rows_of (filter (λ e, selects sc repo e.2 = true) (t_pulls t))).

Definition scope_threads (t : tables) (prs : list pull_row) : list thread_row :=
  merge_sort thread_le (rows_of (filter (λ e, th_tombstoned_at e.2 = None ∧
    Exists (λ p, pr_repo_id p = th_repo_id e.2 ∧ pr_number p = th_pr_number e.2 ∧
                 pr_head_sha p = th_head_sha e.2) prs) (t_threads t))).

Definition scope_checks (t : tables) (prs : list pull_row) : list check_row :=
  merge_sort check_le (rows_of (filter (λ e, ch_tombstoned_at e.2 = None ∧
    Exists (λ p, pr_repo_id p = ch_repo_id e.2 ∧ pr_head_sha p = ch_head_sha e.2) prs)
      (t_checks t))).

Definition scope_rules (t : tables) (repo : repo_row) : list rule_row :=
  merge_sort rule_le (rows_of (filter (λ e, ru_repo_id e.2 = rp_id repo ∧
    ru_tombstoned_at e.2 = None) (t_rules t))).

Definition scope_stack (t : tables) (sc : parsedScope) (repo : repo_row) : option stack_row :=
  if bool_decide (Kind sc = "stack") then
    match t_stacks t !! (rp_id repo, Number sc) with
    | Some s => if bool_decide (sk_tombstoned_at s = None) then Some s else None
    | None => None
    end
  else None.

(** One row of [LoadDerivationSnapshot]. *)
Definition scope_view (t : tables) (sc : parsedScope) : ScopeSnapshot :=
  match scope_repo t sc with
  | None =>
      mkScope (ScopeKey sc) 0 (RepositoryID sc)
        (mkData (Kind sc) (Number sc) None [] None [] [] [])
  | Some repo =>
      let prs := selected_prs t sc repo in
      mkScope (ScopeKey sc) (rp_org_id repo) (RepositoryID sc)
        (mkData (Kind sc) (Number sc) (Some repo) (scope_rules t repo) (scope_stack t sc repo)
           prs (scope_threads t prs) (scope_checks t prs))
  end.

Inductive derive_error : Type :=
  | BadScope (e : scope_error)
  | NumberOutOfRange
  | NegativeLimit
  | UnclaimedScope
  | DuplicateScope
  | IdentityRequired
  | IdentityNotOwned
  | OrgMismatch
  | InvalidPayload
  | DuplicateIdentity
  | OmittedScope
  | InvalidJsonb
  | InvalidHeartbeat.

Definition parse_scope (key : string) : result derive_error parsedScope :=
  match parseScope key with Ok sc => Ok sc | Err e => Err (BadScope e) end.

Fixpoint parse_scopes (keys : list string) : result derive_error (list parsedScope) :=
  match keys with
  | [] => Ok []
  | k :: keys =>
      sc ← parse_scope k;
      rest ← parse_scopes keys;
      Ok (sc :: rest)
  end.

Definition scope_key_le (a b : parsedScope) : Prop := string_le (ScopeKey a) (ScopeKey b).
#[export] Instance scope_key_le_dec : RelDecision scope_key_le := λ a b, decide (string_le _ _).

(** [LoadDerivationSnapshot]: the cast of the number to [int] may fail. *)
Definition LoadDerivationSnapshot (t : tables) (requested : list parsedScope)
    : result derive_error Snapshot :=
  if forallb (λ sc, Number sc <? 2 ^ 31) requested
  then Ok (map (scope_view t) (merge_sort scope_key_le requested))
  else Err NumberOutOfRange.

(** [SnapshotLoader.Load]. *)
Definition Load (t : tables) (scopeKeys : list string) : result derive_error Snapshot :=
  requested ← parse_scopes scopeKeys;
  LoadDerivationSnapshot t requested.

(** ** The deriver and what a pass demands of it *)

Record WorkItem : Type := mkItem {
  it_IdentityKey : string;
  it_OrgID : Z;
  it_Payload : string
}.

Record ScopeResult : Type := mkResult {
  sr_ScopeKey : string;
  sr_WorkItems : list WorkItem
}.

Record ownedWorkItem : Type := mkOwned {
  ow_ScopeKey : string;
  ow_IdentityKey : string;
  ow_OrgID : Z;
  ow_Payload : string
}.

(** [NoopDeriver.Derive]. *)
Definition NoopDerive (snapshot : Snapshot) : list ScopeResult :=
  map (λ sc, mkResult (ss_ScopeKey sc) []) snapshot.

Section validate.
Context (json_Valid : string → bool).

(** The items of one result, in the order of the checks of the code. *)
Fixpoint validate_items (scope : ScopeSnapshot) (expected : string) (seen : gset string)
    (items : list WorkItem) : result derive_error (gset string * list ownedWorkItem) :=
  match items with
  | [] => Ok (seen, [])
  | item :: items =>
      if bool_decide (it_IdentityKey item = "") then Err IdentityRequired
      else if negb (bool_decide (it_IdentityKey item = expected)) then Err IdentityNotOwned
      else if (it_OrgID item <=? 0) || negb (it_OrgID item =? ss_OrgID scope) then Err OrgMismatch
      else if bool_decide (it_Payload item = "") || negb (json_Valid (it_Payload item))
      then Err InvalidPayload
      else if bool_decide (it_IdentityKey item ∈ seen) then Err DuplicateIdentity
      else
        '(seen, owned) ← validate_items scope expected ({[it_IdentityKey item]} ∪ seen) items;
        Ok (seen, mkOwned (ss_ScopeKey scope) (it_IdentityKey item) (it_OrgID item)
                    (it_Payload item) :: owned)
  end.

Fixpoint validate_results (claimed : gmap string ScopeSnapshot) (seenScopes seenItems : gset string)
    (results : list ScopeResult) : result derive_error (gset string * list ownedWorkItem) :=
  match results with
  | [] => Ok (seenScopes, [])
  | r :: results =>
      match claimed !! sr_ScopeKey r with
      | None => Err UnclaimedScope
      | Some scope =>
          if bool_decide (sr_ScopeKey r ∈ seenScopes) then Err DuplicateScope
          else
            parsed ← parse_scope (sr_ScopeKey r);
            '(seenItems, owned) ←
              validate_items scope (identityForScope parsed) seenItems (sr_WorkItems r);
            '(seenScopes, rest) ←
              validate_results claimed ({[sr_ScopeKey r]} ∪ seenScopes) seenItems results;
            Ok (seenScopes, owned ++ rest)
      end
  end.

Definition claimed_of (snapshot : Snapshot) : gmap string ScopeSnapshot :=
  foldl (λ m s, <[ss_ScopeKey s := s]> m) ∅ snapshot.

Definition validateScopeResults (snapshot : Snapshot) (results : list ScopeResult)
    : result derive_error (list ownedWorkItem) :=
  let claimed := claimed_of snapshot in
  '(seenScopes, items) ← validate_results claimed ∅ ∅ results;
  if forallb (λ k, bool_decide (k ∈ seenScopes)) (elements (dom claimed)) then Ok items
  else Err OmittedScope.
End validate.
End deriver.

Arguments tables J : clear implicits.
Arguments ScopeSnapshot J : clear implicits.
Arguments Snapshot J : clear implicits.

(** ** Work items and the dirty set *)

Definition WorkItemChangedKind : string := "work_item.changed".
Definition WorkItemRemovedKind : string := "work_item.removed".

Record work_item {J : Type} : Type := mkWorkItem {
  wi_scope_key : string;
  wi_org_id : Z;
  wi_payload : J;
  wi_updated_at : time
}.
Arguments work_item J : clear implicits.
Arguments mkWorkItem {J}.

(** The deriver is a pure function of the snapshot. *)
Class Deriver (J : Type) : Type := { Derive : Snapshot J → list ScopeResult }.

Section service.
Context {J : Type} `{EqDecision J} (json_Valid : string → bool) (jsonb_of : string → option J).

(** An element of the items parameter, as the statement reads it. *)
Record input_row : Type := mkInput {
  in_scope_key : string;
  in_identity_key : string;
  in_org_id : Z;
  in_payload : J
}.

Fixpoint input_rows (items : list ownedWorkItem) : result derive_error (list input_row) :=
  match items with
  | [] => Ok []
  | o :: items =>
      match jsonb_of (ow_Payload o) with
      | None => Err InvalidJsonb
      | Some j =>
          rest ← input_rows items;
          Ok (mkInput (ow_ScopeKey o) (ow_IdentityKey o) (ow_OrgID o) j :: rest)
      end
  end.

Abbreviation items_table := (gmap string (work_item J)).

(** Whether the upsert of an element inserts or changes a row. *)
Definition upserts (wi : items_table) (x : input_row) : bool :=
  match wi !! in_identity_key x with
  | None => true
  | Some w =>
      negb (bool_decide ((wi_scope_key w, wi_org_id w, wi_payload w)
                         = (in_scope_key x, in_org_id x, in_payload x)))
  end.

(** Whether a row of a claimed scope is removed. *)
Definition removes (claimed : list string) (input : list input_row) (e : string * work_item J) : bool :=
  bool_decide (wi_scope_key e.2 ∈ claimed) &&
  negb (existsb (λ x, bool_decide (in_identity_key x = e.1)) input).

(** An event of the work-item stream: kind, identity and scope. *)
Definition item_event : Type := string * string * string.

Definition event_le (a b : item_event) : Prop :=
  string_lt a.1.2 b.1.2 ∨ a.1.2 = b.1.2 ∧ string_le a.1.1 b.1.1.
#[export] Instance event_le_dec : RelDecision event_le.
Proof. intros a b. unfold event_le, string_lt. apply _. Defined.

(** [ApplyDerivedWorkItemBatch]: both data-modifying parts see the table as it was.
    The identities of the input are distinct, by the validation. *)
Definition ApplyDerivedWorkItemBatch (now : time) (claimed : list string) (input : list input_row)
    (wi : items_table) : list item_event * items_table :=
  let upserted := filter (λ x, upserts wi x = true) input in
  let removed := filter (λ e, removes claimed input e = true) (map_to_list wi) in
  (merge_sort event_le
     (map (λ x, (WorkItemChangedKind, in_identity_key x, in_scope_key x)) upserted ++
      map (λ e, (WorkItemRemovedKind, e.1, wi_scope_key e.2)) removed),
   foldr (λ x m, <[in_identity_key x :=
            mkWorkItem (in_scope_key x) (in_org_id x) (in_payload x) now]> m)
     (foldr (λ e m, delete e.1 m) wi removed) upserted).

Abbreviation dirty_table := (gmap string time).

Definition marked_le (a b : string * time) : Prop :=
  a.2 < b.2 ∨ a.2 = b.2 ∧ string_le a.1 b.1.
#[export] Instance marked_le_dec : RelDecision marked_le.
Proof. intros a b. unfold marked_le. apply _. Defined.

(** [ClaimDerivationDirtyScopes], skipping the rows that are locked. *)
Definition ClaimDerivationDirtyScopes (dirtyCap : Z) (locked : gset string) (dirty : dirty_table)
    : result derive_error (list string) :=
  let limit := wrap32 dirtyCap in
  if limit <? 0 then Err NegativeLimit
  else Ok (take (Z.to_nat limit)
         (map fst (merge_sort marked_le (filter (λ e, e.1 ∉ locked) (map_to_list dirty))))).

(** [ClearDerivationDirtyScopes]. *)
Definition ClearDerivationDirtyScopes (keys : list string) (dirty : dirty_table) : dirty_table :=
  foldr delete dirty keys.

Definition identity_le (a b : ownedWorkItem) : Prop :=
  string_le (ow_IdentityKey a) (ow_IdentityKey b).
#[export] Instance identity_le_dec : RelDecision identity_le := λ a b, decide (string_le _ _).

(** The middle of a pass: snapshot, derivation, validation, order and encoding. *)
Definition derive_batch `{Deriver J} (t : tables J) (scopeKeys : list string)
    : result derive_error (list input_row) :=
  snapshot ← Load t scopeKeys;
  items ← validateScopeResults json_Valid snapshot (Derive snapshot);
  input_rows (merge_sort identity_le items).

(** What a pass reads and writes. *)
Record dstate : Type := mkD {
  d_tables : tables J;
  d_dirty : dirty_table;
  d_items : items_table;
  d_events : list item_event;
  d_heartbeats : heartbeats
}.

Definition recordHeartbeat (now : time) (installationID samples : Z) (h : heartbeats)
    : result derive_error heartbeats :=
  match RecordSuccessN now installationID "deriver" "dirty_sets" samples h with
  | Some h => Ok h
  | None => Err InvalidHeartbeat
  end.

(** The end of a pass over [scopeKeys]. *)
Definition apply_batch (now : time) (installationID : Z) (scopeKeys : list string)
    (input : list input_row) (st : dstate) : result derive_error dstate :=
  let '(events, wi) := ApplyDerivedWorkItemBatch now scopeKeys input (d_items st) in
  h ← recordHeartbeat now installationID (Z.of_nat (length scopeKeys)) (d_heartbeats st);
  Ok (mkD (d_tables st) (ClearDerivationDirtyScopes scopeKeys (d_dirty st)) wi
        (d_events st ++ events) h).

(** [runOnce]: the number of scopes of the pass and the committed state; an error
    rolls back. *)
Definition runOnce `{Deriver J} (dirtyCap installationID : Z) (now : time) (locked : gset string)
    (st : dstate) : result derive_error (Z * dstate) :=
  scopeKeys ← ClaimDerivationDirtyScopes dirtyCap locked (d_dirty st);
  match scopeKeys with
  | [] =>
      h ← recordHeartbeat now installationID 0 (d_heartbeats st);
      Ok (0, mkD (d_tables st) (d_dirty st) (d_items st) (d_events st) h)
  | _ =>
      input ← derive_batch (d_tables st) scopeKeys;
      st ← apply_batch now installationID scopeKeys input st;
      Ok (Z.of_nat (length scopeKeys), st)
  end.

(** The part of [Run] between two waits: passes while the batch is full. [None] is
    the end of the fuel. *)
Fixpoint run_drain `{Deriver J} (fuel : nat) (dirtyCap installationID : Z) (now : time)
    (st : dstate) : option (result derive_error dstate) :=
  match fuel with
  | O => None
  | S fuel =>
      match runOnce dirtyCap installationID now ∅ st with
      | Err e => Some (Err e)
      | Ok (count, st) =>
          if count =? dirtyCap then run_drain fuel dirtyCap installationID now st
          else Some (Ok st)
      end
  end.
End service.

(** ** What a pass demands of the deriver *)

(** A deriver treats scopes one by one, by [derive_scope], and keeps the rules that
    [validateScopeResults] enforces: an item belongs to its scope, to its live
    organisation, carries a document that the database accepts, and a scope has at
    most one. *)
Class DeriverLaws {J} (json_Valid : string → bool) (jsonb_of : string → option J)
    (D : Deriver J) (derive_scope : ScopeSnapshot J → list WorkItem) : Prop := {
  derive_local snap :
    Derive snap ≡ₚ map (λ sc, mkResult (ss_ScopeKey sc) (derive_scope sc)) snap;
  derive_owned sc p item :
    parseScope (ss_ScopeKey sc) = Ok p → item ∈ derive_scope sc →
    it_IdentityKey item = identityForScope p ∧ 0 < it_OrgID item ∧
    it_OrgID item = ss_OrgID sc ∧ it_Payload item ≠ "" ∧
    json_Valid (it_Payload item) = true ∧ is_Some (jsonb_of (it_Payload item));
  derive_single sc : (length (derive_scope sc) <= 1)%nat
}.

(** The key that a scope is printed to. *)
Definition scope_key_of (sc : parsedScope) : string :=
  Kind sc +:+ ":" +:+ FormatInt (Installation sc) +:+ ":" +:+ FormatInt (RepositoryID sc)
    +:+ ":" +:+ FormatInt (Number sc).

(** A key that the cache writers print. *)
Definition canonical (k : string) : Prop :=
  ∃ sc, parseScope k = Ok sc ∧ k = scope_key_of sc ∧ Number sc < 2 ^ 31.

(** ** Writers and passes that run at the same time *)

Section system.
Context {J : Type} `{EqDecision J} (json_Valid : string → bool) (jsonb_of : string → option J).
Context {D : Deriver J} (derive_scope : ScopeSnapshot J → list WorkItem).
Context (dirtyCap installationID : Z).

(** An open transaction: a cache writer that has marked its scopes, or a pass
    that has claimed its scopes and perhaps derived them. *)
Inductive txn : Type :=
  | Writer (marks : list string) (at_ : time)
  | Pass (keys : list string) (input : option (list (input_row (J := J)))).

Definition txn_keys (x : txn) : list string :=
  match x with Writer marks _ => marks | Pass keys _ => keys end.

(** [locks] are the row locks of [derivation_dirty], by transaction. *)
Record dsys : Type := mkSys {
  sys_state : dstate (J := J);
  locks : gmap string nat;
  txns : gmap nat txn
}.

Definition take_locks (pid : nat) (keys : list string) (l : gmap string nat) : gmap string nat :=
  foldr (λ k, <[k := pid]>) l keys.

Definition free_locks (pid : nat) (l : gmap string nat) : gmap string nat :=
  filter (λ e, e.2 ≠ pid) l.

Definition with_tables (t : tables J) (dirty : gmap string time) (st : dstate (J := J)) : dstate :=
  mkD t dirty (d_items st) (d_events st) (d_heartbeats st).

(** A cache write marks the scopes it can affect. *)
Definition marks_cover (t t' : tables J) (marks : list string) : Prop :=
  ∀ k p, canonical k → parseScope k = Ok p →
    k ∈ marks ∨ derive_scope (scope_view t' p) = derive_scope (scope_view t p).

Inductive derive_step (s : dsys) : dsys → Prop :=
  (** A writer reaches [MarkDerivationDirty]: it waits for the locks of its keys. *)
  | step_mark pid marks at_ :
      txns s !! pid = None → Forall canonical marks → Forall (λ k, locks s !! k = None) marks →
      derive_step s (mkSys (sys_state s) (take_locks pid marks (locks s))
                       (<[pid := Writer marks at_]> (txns s)))
  | step_write pid marks at_ t' :
      txns s !! pid = Some (Writer marks at_) →
      marks_cover (d_tables (sys_state s)) t' marks →
      derive_step s
        (mkSys (with_tables t' (MarkDerivationDirty at_ marks (d_dirty (sys_state s))) (sys_state s))
           (free_locks pid (locks s)) (delete pid (txns s)))
  | step_claim pid keys :
      txns s !! pid = None →
      ClaimDerivationDirtyScopes dirtyCap (dom (locks s)) (d_dirty (sys_state s)) = Ok keys →
      derive_step s (mkSys (sys_state s) (take_locks pid keys (locks s))
                       (<[pid := Pass keys None]> (txns s)))
  | step_derive pid keys input :
      txns s !! pid = Some (Pass keys None) →
      derive_batch json_Valid jsonb_of (d_tables (sys_state s)) keys = Ok input →
      derive_step s (mkSys (sys_state s) (locks s) (<[pid := Pass keys (Some input)]> (txns s)))
  | step_apply pid keys input now st :
      txns s !! pid = Some (Pass keys (Some input)) →
      apply_batch now installationID keys input (sys_state s) = Ok st →
      derive_step s (mkSys st (free_locks pid (locks s)) (delete pid (txns s)))
  | step_rollback pid :
      derive_step s (mkSys (sys_state s) (free_locks pid (locks s)) (delete pid (txns s))).

(** An empty cache without open transactions. *)
Definition derive_initial (s : dsys) : Prop :=
  t_repos (d_tables (sys_state s)) = ∅ ∧ d_items (sys_state s) = ∅ ∧
  d_dirty (sys_state s) = ∅ ∧ locks s = ∅ ∧ txns s = ∅.

Definition derive_reachable (s : dsys) : Prop :=
  ∃ s0, derive_initial s0 ∧ rtc derive_step s0 s.

(** The item that the deriver computes for a scope from the current cache. *)
Definition derived (t : tables J) (k id : string) (org : Z) (j : J) : Prop :=
  ∃ sc item, parseScope k = Ok sc ∧ item ∈ derive_scope (scope_view t sc) ∧
    it_IdentityKey item = id ∧ it_OrgID item = org ∧ jsonb_of (it_Payload item) = Some j.

(** The work items of a scope are those of the current cache. *)
Definition fresh (t : tables J) (wi : gmap string (work_item J)) (k : string) : Prop :=
  ∀ id org j,
    (∃ w, wi !! id = Some w ∧ wi_scope_key w = k ∧ wi_org_id w = org ∧ wi_payload w = j)
    ↔ derived t k id org j.

(** The rows a pass is about to apply are those of the current cache. *)
Definition batch_ok (t : tables J) (keys : list string) (input : list (input_row (J := J))) : Prop :=
  NoDup (in_identity_key <$> input) ∧
  ∀ k id org j, k ∈ keys → (mkInput k id org j ∈ input ↔ derived t k id org j).

Definition input_owned (keys : list string) (input : list (input_row (J := J))) : Prop :=
  ∀ x, x ∈ input → in_scope_key x ∈ keys.

Record dinv (s : dsys) : Prop := {
  di_lock : ∀ pid x k, txns s !! pid = Some x → k ∈ txn_keys x → locks s !! k = Some pid;
  di_dirty : ∀ k, k ∈ dom (d_dirty (sys_state s)) → canonical k;
  di_marks : ∀ pid marks at_ k, txns s !! pid = Some (Writer marks at_) → k ∈ marks → canonical k;
  di_claim : ∀ pid keys input k, txns s !! pid = Some (Pass keys input) → k ∈ keys →
    k ∈ dom (d_dirty (sys_state s));
  di_input : ∀ pid keys input, txns s !! pid = Some (Pass keys (Some input)) →
    input_owned keys input ∧ batch_ok (d_tables (sys_state s)) keys input;
  di_fresh : ∀ k, canonical k → k ∉ dom (d_dirty (sys_state s)) →
    fresh (d_tables (sys_state s)) (d_items (sys_state s)) k
}.
End system.

(** ** Validation *)

Section validation.
Context {J : Type} (json_Valid : string → bool).

Definition owned_of (sc : ScopeSnapshot J) (it : WorkItem) : ownedWorkItem :=
  mkOwned (ss_ScopeKey sc) (it_IdentityKey it) (it_OrgID it) (it_Payload it).

Lemma validate_items_ok (sc : ScopeSnapshot J) expected items : ∀ seen seen' owned,
  validate_items json_Valid sc expected seen items = Ok (seen', owned) →
  owned = map (owned_of sc) items ∧
  NoDup (ow_IdentityKey <$> owned) ∧ (∀ o, o ∈ owned → ow_IdentityKey o ∉ seen) ∧
  (∀ id, id ∈ seen' ↔ id ∈ seen ∨ ∃ o, o ∈ owned ∧ ow_IdentityKey o = id).
Proof.
  induction items as [|it items IH]; intros seen seen' owned H; cbn [validate_items] in H.
  { injection H as <- <-. split_and!; [done|constructor|by intros ? ?%elem_of_nil|].
    intros id. split; [auto|]. intros [?|(o & []%elem_of_nil & _)]. done. }
  repeat (case_if_in H; [discriminate H|]). to_props.
  destruct (validate_items _ _ _ _ items) as [[seen1 owned1]|] eqn:E1; [|discriminate H].
  injection H as <- <-. destruct (IH _ _ _ E1) as (-> & Hnd & Hdis & Hseen).
  split_and!.
  - done.
  - rewrite fmap_cons. constructor; [|done].
    intros (o & Heq & Ho)%list_elem_of_fmap. apply Hdis in Ho. cbn in Heq. set_solver.
  - intros o [->|Ho]%elem_of_cons; [cbn; set_solver|]. apply Hdis in Ho. set_solver.
  - intros id. rewrite Hseen. split.
    + intros [[->%elem_of_singleton|?]%elem_of_union|(o & Ho & <-)]; [right|by left|right].
      * eexists. split; [by left|done].
      * eexists. split; [by right|done].
    + intros [?|(o & [->|Ho]%elem_of_cons & <-)]; [left; set_solver|left; cbn; set_solver|right; eauto].
Qed.

Lemma validate_results_ok (claimed : gmap string (ScopeSnapshot J)) results :
  ∀ seenS seenI seenS' owned,
  validate_results json_Valid claimed seenS seenI results = Ok (seenS', owned) →
  NoDup (ow_IdentityKey <$> owned) ∧ (∀ o, o ∈ owned → ow_IdentityKey o ∉ seenI) ∧
  (∀ k, k ∈ seenS' ↔ k ∈ seenS ∨ ∃ r, r ∈ results ∧ sr_ScopeKey r = k) ∧
  (∀ o, o ∈ owned ↔ ∃ r sc it, r ∈ results ∧ claimed !! sr_ScopeKey r = Some sc ∧
                      it ∈ sr_WorkItems r ∧ o = owned_of sc it).
Proof.
  induction results as [|r results IH]; intros seenS seenI seenS' owned H;
    cbn [validate_results] in H.
  { injection H as <- <-. split_and!; [constructor|by intros ? ?%elem_of_nil|..].
    - intros k. split; [auto|]. intros [?|(r & []%elem_of_nil & _)]. done.
    - intros o. rewrite elem_of_nil. split; [done|]. by intros (r & ? & ? & []%elem_of_nil & _). }
  destruct (claimed !! sr_ScopeKey r) as [sc|] eqn:Hc; [|discriminate H].
  case_if_in H; [discriminate H|]. to_props.
  destruct (parse_scope (sr_ScopeKey r)) as [p|]; [|discriminate H]. cbn in H.
  destruct (validate_items _ _ _ _ _) as [[seen1 owned1]|] eqn:E1; [|discriminate H]. cbn in H.
  destruct (validate_results _ _ _ _ results) as [[seenS2 owned2]|] eqn:E2; [|discriminate H].
  injection H as <- <-.
  destruct (validate_items_ok _ _ _ _ _ _ E1) as (-> & Hnd1 & Hdis1 & Hseen1).
  destruct (IH _ _ _ _ E2) as (Hnd2 & Hdis2 & HS2 & Ho2).
  split_and!.
  - rewrite fmap_app. apply NoDup_app. split; [done|]. split; [|done].
    intros id (o & -> & Ho)%list_elem_of_fmap (o' & Heq & Ho')%list_elem_of_fmap.
    apply Hdis2 in Ho'. apply Ho'. apply Hseen1. right. eauto.
  - intros o [Ho|Ho]%elem_of_app; [by apply Hdis1|]. apply Hdis2 in Ho. intros Hin.
    apply Ho, Hseen1. by left.
  - intros k. rewrite HS2. split.
    + intros [[->%elem_of_singleton|?]%elem_of_union|(r' & Hr' & <-)]; [right|by left|right].
      * exists r. split; [by left|done].
      * exists r'. split; [by right|done].
    + intros [?|(r' & [->|Hr']%elem_of_cons & <-)]; [left; set_solver|left; set_solver|right; eauto].
  - intros o. rewrite elem_of_app, Ho2. split.
    + intros [(it & -> & Hit)%list_elem_of_fmap|(r' & sc' & it & Hr' & ?)].
      * exists r, sc, it. split; [by left|]. done.
      * exists r', sc', it. split; [by right|done].
    + intros (r' & sc' & it & [->|Hr']%elem_of_cons & Hc' & Hit & ->).
      * left. rewrite Hc in Hc'. injection Hc' as <-. apply list_elem_of_fmap. eauto.
      * right. eauto 10.
Qed.

End validation.

Section loading.
Context {J : Type}.

Lemma claimed_of_lookup (snap : Snapshot J) k sc :
  claimed_of snap !! k = Some sc → sc ∈ snap ∧ ss_ScopeKey sc = k.
Proof.
  unfold claimed_of. change (list (ScopeSnapshot J)) with (Snapshot J).
  assert (H : ∀ m : gmap string (ScopeSnapshot J),
    foldl (λ m s, <[ss_ScopeKey s := s]> m) m snap !! k = Some sc →
    m !! k = Some sc ∨ sc ∈ snap ∧ ss_ScopeKey sc = k).
  { induction snap as [|s snap IH]; intros m; cbn; [auto|].
    intros [Hm|[? ?]]%IH; [|right; split; [by right|done]].
    apply lookup_insert_Some in Hm as [[<- <-]|[_ ?]]; [right; split; [by left|done]|by left]. }
  intros [Hm|?]%H; [by rewrite lookup_empty in Hm|done].
Qed.

Lemma claimed_of_dom (snap : Snapshot J) k :
  k ∈ dom (claimed_of snap) ↔ ∃ sc, sc ∈ snap ∧ ss_ScopeKey sc = k.
Proof.
  split.
  - intros [sc Hsc%claimed_of_lookup]%elem_of_dom. eauto.
  - unfold claimed_of.
    assert (H : ∀ m : gmap string (ScopeSnapshot J),
      k ∈ dom m ∨ (∃ sc, sc ∈ snap ∧ ss_ScopeKey sc = k) →
      k ∈ dom (foldl (λ m s, <[ss_ScopeKey s := s]> m) m snap)).
    { induction snap as [|s snap IH]; intros m; cbn.
      - intros [?|(sc & []%elem_of_nil & _)]. done.
      - intros Hk. apply IH. rewrite dom_insert.
        destruct Hk as [?|(sc & [->|?]%elem_of_cons & <-)]; [left; set_solver|left; set_solver|right; eauto]. }
    intros ?. apply H. by right.
Qed.

Lemma parse_scopes_ok keys : ∀ l, parse_scopes keys = Ok l →
  Forall2 (λ k sc, parseScope k = Ok sc) keys l.
Proof.
  induction keys as [|k keys IH]; intros l; cbn.
  { intros [= <-]. constructor. }
  unfold parse_scope. destruct (parseScope k) as [sc|] eqn:E; [|done]. cbn.
  destruct (parse_scopes keys) as [l'|]; [|done]. intros [= <-]. constructor; auto.
Qed.

Lemma parsed_in keys l : Forall2 (λ k sc, parseScope k = Ok sc) keys l →
  ∀ p, p ∈ l ↔ ∃ k, k ∈ keys ∧ parseScope k = Ok p.
Proof.
  induction 1 as [|k sc keys l Hk H IH]; intros p.
  - rewrite elem_of_nil. split; [done|]. by intros (k & []%elem_of_nil & _).
  - rewrite elem_of_cons, IH. split.
    + intros [->|(k' & ? & ?)]; [exists k; by split; [left|]|exists k'; by split; [right|]].
    + intros (k' & [->|?]%elem_of_cons & Hp); [left; congruence|right; eauto].
Qed.

(** A snapshot holds the views of exactly the requested scopes. *)
Lemma Load_ok (t : tables J) keys snap : Load t keys = Ok snap →
  ∀ sc, sc ∈ snap ↔ ∃ k p, k ∈ keys ∧ parseScope k = Ok p ∧ sc = scope_view t p.
Proof.
  unfold Load. destruct (parse_scopes keys) as [l|] eqn:E; [|done]. cbn.
  unfold LoadDerivationSnapshot. case_if; [|done]. intros [= <-] sc.
  apply parse_scopes_ok in E. rewrite list_elem_of_fmap.
  split.
  - intros (p & -> & Hp). rewrite merge_sort_Permutation in Hp.
    apply (parsed_in _ _ E) in Hp as (k & Hk & Hpk). eauto.
  - intros (k & p & Hk & Hp & ->). exists p. split; [done|]. rewrite merge_sort_Permutation.
    apply (parsed_in _ _ E). eauto.
Qed.

Lemma scope_view_key (t : tables J) k p : parseScope k = Ok p → ss_ScopeKey (scope_view t p) = k.
Proof.
  intros (Hk & _)%parseScope_range. unfold scope_view. by destruct (scope_repo t p).
Qed.
End loading.

(** ** One batch *)

Section batch.
Context {J : Type} `{EqDecision J} (json_Valid : string → bool) (jsonb_of : string → option J).
Context {D : Deriver J} (derive_scope : ScopeSnapshot J → list WorkItem).
Context (DL : DeriverLaws json_Valid jsonb_of D derive_scope).

Abbreviation derived := (derived jsonb_of derive_scope).
Abbreviation batch_ok := (batch_ok jsonb_of derive_scope).
Abbreviation fresh := (fresh jsonb_of derive_scope).

Lemma input_rows_ok items : ∀ input, input_rows jsonb_of items = Ok input →
  in_identity_key <$> input = ow_IdentityKey <$> items ∧
  ∀ x, x ∈ input ↔ ∃ o, o ∈ items ∧ jsonb_of (ow_Payload o) = Some (in_payload x) ∧
    in_scope_key x = ow_ScopeKey o ∧ in_identity_key x = ow_IdentityKey o ∧ in_org_id x = ow_OrgID o.
Proof.
  induction items as [|o items IH]; intros input; cbn.
  { intros [= <-]. split; [done|]. intros x. rewrite elem_of_nil. split; [done|].
    by intros (o & []%elem_of_nil & _). }
  destruct (jsonb_of (ow_Payload o)) as [j|] eqn:Ej; [|done].
  destruct (input_rows jsonb_of items) as [rest|] eqn:E; [|done]. intros [= <-].
  destruct (IH _ eq_refl) as [Hids Hin]. split; [by rewrite fmap_cons, Hids|].
  intros x. rewrite elem_of_cons, Hin. split.
  - intros [->|(o' & ? & ?)]; [exists o; by split; [left|]|exists o'; by split; [right|]].
  - intros (o' & [->|?]%elem_of_cons & Hx); [left|right; eauto].
    destruct x, Hx as (? & ? & ? & ?); cbn in *. congruence.
Qed.

(** A result of the deriver for a claimed scope is what it derives from the view. *)
Lemma Derive_result t keys snap r : Load t keys = Ok snap → r ∈ Derive snap →
  ∃ k p, k ∈ keys ∧ parseScope k = Ok p ∧ r = mkResult k (derive_scope (scope_view t p)).
Proof.
  intros HL Hr. rewrite (derive_local snap) in Hr.
  apply list_elem_of_fmap in Hr as (sc & -> & Hsc).
  apply (Load_ok _ _ _ HL) in Hsc as (k & p & Hk & Hp & ->). exists k, p.
  by rewrite (scope_view_key t k p Hp).
Qed.

Lemma derive_batch_ok t keys input :
  derive_batch json_Valid jsonb_of t keys = Ok input → input_owned keys input ∧ batch_ok t keys input.
Proof.
  unfold derive_batch. intros H. apply bind_ok in H as (snap & HL & H).
  apply bind_ok in H as (items & Hv & H). apply input_rows_ok in H as [Hids Hin].
  unfold validateScopeResults in Hv.
  destruct (validate_results _ _ _ _ _) as [[seenS owned]|] eqn:Hr; [|done]. cbn in Hv.
  case_if_in Hv; [|done]. injection Hv as <-.
  destruct (validate_results_ok _ _ _ _ _ _ _ Hr) as (Hnd & _ & HS & Ho).
  assert (Hcl : ∀ k sc, claimed_of snap !! k = Some sc →
    k ∈ keys ∧ ∃ p, parseScope k = Ok p ∧ sc = scope_view t p).
  { intros k sc [Hsc Hkey]%claimed_of_lookup.
    apply (Load_ok _ _ _ HL) in Hsc as (k' & p & Hk & Hp & ->).
    rewrite (scope_view_key t k' p Hp) in Hkey. subst. eauto. }
  assert (Hitem : ∀ o, o ∈ owned → ∃ k p it, k ∈ keys ∧ parseScope k = Ok p ∧
    it ∈ derive_scope (scope_view t p) ∧
    o = mkOwned k (it_IdentityKey it) (it_OrgID it) (it_Payload it)).
  { intros o (r & sc & it & Hr1 & Hc & Hit & ->)%Ho.
    destruct (Derive_result _ _ _ _ HL Hr1) as (k & p & Hk & Hp & ->). cbn in Hc, Hit.
    apply Hcl in Hc as (_ & p' & Hp' & ->). exists k, p, it.
    split_and!; [done..|]. unfold owned_of. rewrite (scope_view_key t k p' Hp'). done. }
  assert (Hsort : ∀ o, o ∈ merge_sort identity_le owned ↔ o ∈ owned)
    by (intros o; by rewrite merge_sort_Permutation).
  split; [|split].
  - intros x (o & Ho' & _ & -> & _)%Hin. apply Hsort, Hitem in Ho' as (k & p & it & Hk & _ & _ & ->).
    done.
  - rewrite Hids. by rewrite merge_sort_Permutation.
  - intros k id org j Hk. rewrite Hin. split.
    + intros (o & Ho' & Hj & Hkey & Hid & Horg). cbn in *.
      apply Hsort, Hitem in Ho' as (k' & p & it & _ & Hp & Hit & ->). cbn in *. subst.
      exists p, it. done.
    + intros (p & it & Hp & Hit & <- & <- & Hj).
      assert (Hdom : k ∈ dom (claimed_of snap)).
      { rewrite claimed_of_dom. exists (scope_view t p).
        split; [rewrite (Load_ok _ _ _ HL); by eauto|by apply scope_view_key]. }
      assert (HkS : k ∈ seenS).
      { rewrite forallb_forall in E. specialize (E k). rewrite bool_decide_eq_true in E.
        apply E, list_elem_of_In, elem_of_elements, Hdom. }
      apply HS in HkS as [HkS|(r & Hr1 & Hrk)]; [set_solver|].
      destruct (Derive_result _ _ _ _ HL Hr1) as (k' & p' & Hk' & Hp' & ->). cbn in Hrk. subst k'.
      assert (p' = p) as -> by congruence.
      apply elem_of_dom in Hdom as [sc Hsc].
      exists (owned_of sc it). split_and!; cbn; try done.
      * apply Hsort, Ho. eexists _, _, _. split; [exact Hr1|]. cbn. eauto.
      * apply claimed_of_lookup in Hsc as [_ ?]. done.
Qed.

(** ** Replacing the items of a batch *)

Definition row_of (now : time) (x : input_row (J := J)) : work_item J :=
  mkWorkItem (in_scope_key x) (in_org_id x) (in_payload x) now.

Lemma NoDup_fmap_inj_on {A B} (f : A → B) (l : list A) x y :
  NoDup (f <$> l) → x ∈ l → y ∈ l → f x = f y → x = y.
Proof.
  induction l as [|z l IH]; intros Hnd; [by intros ?%elem_of_nil|].
  rewrite fmap_cons in Hnd. apply NoDup_cons in Hnd as [Hz Hnd].
  intros [->|Hx]%elem_of_cons [->|Hy]%elem_of_cons Heq; auto.
  - destruct Hz. rewrite Heq. by apply list_elem_of_fmap_2.
  - destruct Hz. rewrite <- Heq. by apply list_elem_of_fmap_2.
Qed.

Lemma NoDup_fmap_filter {A B} (f : A → B) (P : A → Prop) `{∀ x, Decision (P x)} (l : list A) :
  NoDup (f <$> l) → NoDup (f <$> filter P l).
Proof.
  induction l as [|z l IH]; intros Hnd; [constructor|].
  rewrite fmap_cons in Hnd. apply NoDup_cons in Hnd as [Hz Hnd]. rewrite filter_cons.
  case_decide; [|by apply IH]. rewrite fmap_cons. constructor; [|by apply IH].
  intros (x & Hx & [_ Hin]%list_elem_of_filter)%list_elem_of_fmap. apply Hz. rewrite Hx.
  by apply list_elem_of_fmap_2.
Qed.

Lemma foldr_insert_lookup now (l : list input_row) (m : gmap string (work_item J)) id :
  NoDup (in_identity_key <$> l) →
  (∀ x, x ∈ l → in_identity_key x = id →
     foldr (λ x m, <[in_identity_key x := row_of now x]> m) m l !! id = Some (row_of now x)) ∧
  (id ∉ in_identity_key <$> l →
     foldr (λ x m, <[in_identity_key x := row_of now x]> m) m l !! id = m !! id).
Proof.
  induction l as [|y l IH]; intros Hnd; [by split; [intros ? ?%elem_of_nil|]|].
  rewrite fmap_cons in Hnd. apply NoDup_cons in Hnd as [Hy Hnd]. destruct (IH Hnd) as [I1 I2].
  split.
  - intros x [->|Hx]%elem_of_cons Hid; cbn; [by rewrite <- Hid, lookup_insert_eq|].
    rewrite lookup_insert_ne; [by apply I1|]. intros Heq. apply Hy. rewrite Heq, <- Hid.
    apply list_elem_of_fmap. eauto.
  - intros Hn. rewrite fmap_cons, not_elem_of_cons in Hn. destruct Hn as [Hne Hn].
    cbn. rewrite lookup_insert_ne by done. by apply I2.
Qed.

Lemma foldr_delete_lookup (l : list (string * work_item J)) (m : gmap string (work_item J)) id :
  foldr (λ e m, delete e.1 m) m l !! id = if decide (id ∈ fst <$> l) then None else m !! id.
Proof.
  induction l as [|[y w] l IH]; [done|]. cbn. rewrite lookup_delete.
  destruct (decide (y = id)) as [->|Hne].
  - rewrite decide_True by (by left). done.
  - rewrite IH. apply decide_ext. rewrite elem_of_cons. cbn. naive_solver.
Qed.

(** The table after a batch, identity by identity. *)
Lemma apply_lookup now claimed input (wi wi' : gmap string (work_item J)) events :
  NoDup (in_identity_key <$> input) →
  ApplyDerivedWorkItemBatch now claimed input wi = (events, wi') →
  (∀ x, x ∈ input →
     wi' !! in_identity_key x =
       if upserts wi x then Some (row_of now x) else wi !! in_identity_key x) ∧
  (∀ id, id ∉ in_identity_key <$> input →
     wi' !! id = w ← wi !! id; if decide (wi_scope_key w ∈ claimed) then None else Some w).
Proof.
  intros Hnd H. injection H as _ <-.
  set (removed := filter (λ e, removes claimed input e = true) (map_to_list wi)).
  set (up := filter (λ x, upserts wi x = true) input).
  change (λ x m, <[in_identity_key x := _]> m)
    with (λ x m, <[in_identity_key x := row_of now x]> (m : gmap string (work_item J))).
  assert (Hup : NoDup (in_identity_key <$> up)).
  { by apply NoDup_fmap_filter. }
  assert (Hrem : ∀ id, id ∈ fst <$> removed ↔ ∃ w, wi !! id = Some w ∧ wi_scope_key w ∈ claimed ∧
    id ∉ in_identity_key <$> input).
  { intros id. rewrite list_elem_of_fmap. split.
    - intros ([i w] & -> & [Hr Hin%elem_of_map_to_list]%list_elem_of_filter). exists w.
      unfold removes in Hr. to_props. cbn in *. split; [done|]. split; [done|].
      intros (x & Hx & Hxi)%list_elem_of_fmap. apply not_true_iff_false in H0. apply H0.
      apply existsb_exists. exists x. split; [by apply list_elem_of_In|]. by apply bool_decide_eq_true.
    - intros (w & Hw & Hc & Hni). exists (id, w). split; [done|]. apply list_elem_of_filter.
      split; [|by apply elem_of_map_to_list]. unfold removes. cbn.
      rewrite bool_decide_eq_true_2 by done. cbn. apply negb_true_iff, not_true_iff_false.
      intros (x & Hx%list_elem_of_In & Hxi%bool_decide_eq_true)%existsb_exists.
      apply Hni, list_elem_of_fmap. eauto. }
  split.
  - intros x Hx. destruct (foldr_insert_lookup now up (foldr (λ e m, delete e.1 m) wi removed)
      (in_identity_key x) Hup) as [I1 I2].
    destruct (upserts wi x) eqn:Eu.
    + apply I1; [|done]. by apply list_elem_of_filter.
    + rewrite I2.
      * rewrite foldr_delete_lookup, decide_False; [done|]. intros (w & _ & _ & Hn)%Hrem.
        apply Hn, list_elem_of_fmap. eauto.
      * intros (y & Hy & Hyu)%list_elem_of_fmap. apply list_elem_of_filter in Hyu as [Hyu Hyi].
        pose proof (NoDup_fmap_inj_on _ _ _ _ Hnd Hx Hyi Hy). congruence.
  - intros id Hid. destruct (foldr_insert_lookup now up (foldr (λ e m, delete e.1 m) wi removed)
      id Hup) as [_ I2].
    rewrite I2, foldr_delete_lookup.
    + destruct (wi !! id) as [w|] eqn:Hw; cbn.
      * apply decide_ext. rewrite Hrem, Hw. naive_solver.
      * by case_decide.
    + intros (y & -> & [_ Hy]%list_elem_of_filter)%list_elem_of_fmap. apply Hid, list_elem_of_fmap. eauto.
Qed.

Lemma apply_row now claimed input (wi wi' : gmap string (work_item J)) events x :
  NoDup (in_identity_key <$> input) →
  ApplyDerivedWorkItemBatch now claimed input wi = (events, wi') → x ∈ input →
  ∃ w, wi' !! in_identity_key x = Some w ∧ wi_scope_key w = in_scope_key x ∧
    wi_org_id w = in_org_id x ∧ wi_payload w = in_payload x.
Proof.
  intros Hnd H Hx. rewrite (proj1 (apply_lookup _ _ _ _ _ _ Hnd H) x Hx). unfold upserts.
  destruct (wi !! in_identity_key x) as [w|]; cbn; [|by eexists].
  case_bool_decide as Heq; cbn; [|by eexists]. exists w. by simplify_eq.
Qed.

(** A derived item names its scope and its live repository. *)
Lemma derived_live t k id org j : derived t k id org j →
  ∃ sc repo, parseScope k = Ok sc ∧ id = identityForScope sc ∧ scope_repo t sc = Some repo.
Proof.
  intros (sc & it & Hp & Hit & <- & _ & _).
  destruct (derive_owned (scope_view t sc) sc it) as (Hid & Hpos & Horg & _); [|done|].
  - by rewrite (scope_view_key t k sc Hp).
  - exists sc. destruct (scope_repo t sc) as [repo|] eqn:Er; [by exists repo|].
    unfold scope_view in Horg. rewrite Er in Horg. cbn in Horg. lia.
Qed.

Lemma scope_repo_installation (t : tables J) sc repo : scope_repo t sc = Some repo →
  t_repos t !! RepositoryID sc = Some repo ∧ rp_installation_id repo = Installation sc.
Proof.
  unfold scope_repo. destruct (t_repos t !! RepositoryID sc) as [r|]; [|done].
  case_bool_decide as Hb; [|done]. intros [= <-]. by destruct Hb.
Qed.

(** Two canonical scopes never derive the same identity from one cache. *)
Lemma derived_scope_unique t k k' id org org' j j' : canonical k → canonical k' →
  derived t k id org j → derived t k' id org' j' → k = k'.
Proof.
  intros (p & Hp & Hk & _) (p' & Hp' & Hk' & _) H H'.
  apply derived_live in H as (sc & r & Hsc & Hid & Hr), H' as (sc' & r' & Hsc' & Hid' & Hr').
  assert (p = sc) as -> by congruence. assert (p' = sc') as -> by congruence.
  destruct (proj1 (identityForScope_stable _ _ _ _ Hsc Hsc')) as (E1 & E2 & E3); [congruence|].
  apply scope_repo_installation in Hr as [Hr Hi], Hr' as [Hr' Hi'].
  rewrite E2 in Hr. assert (r = r') as -> by congruence.
  rewrite Hk, Hk'. unfold scope_key_of. by rewrite E1, E2, E3, <- Hi, Hi'.
Qed.

(** A batch makes its scopes fresh and keeps the fresh ones. *)
Lemma apply_fresh now keys input t (wi wi' : gmap string (work_item J)) events k :
  input_owned keys input → batch_ok t keys input → Forall canonical keys →
  ApplyDerivedWorkItemBatch now keys input wi = (events, wi') →
  canonical k → k ∈ keys ∨ fresh t wi k → fresh t wi' k.
Proof.
  intros Hown [Hnd Hb] Hcan H Hk Hcase id org j.
  pose proof (apply_lookup _ _ _ _ _ _ Hnd H) as [_ Hother].
  destruct (decide (k ∈ keys)) as [Hin|Hnin].
  - rewrite <- (Hb k id org j Hin). split.
    + intros (w & Hw & Hs & Ho & Hp). destruct (decide (id ∈ in_identity_key <$> input)) as [Hid|Hid].
      * apply list_elem_of_fmap in Hid as (x & -> & Hx).
        destruct (apply_row _ _ _ _ _ _ x Hnd H Hx) as (w' & Hw' & ? & ? & ?).
        assert (w' = w) as -> by congruence. destruct x; cbn in *. congruence.
      * rewrite (Hother id Hid) in Hw. destruct (wi !! id) as [w0|]; [|done]. cbn in Hw.
        case_decide; [done|]. congruence.
    + intros Hx. apply (apply_row _ _ _ _ _ _ _ Hnd H) in Hx as (w & ? & ? & ? & ?). by exists w.
  - destruct Hcase as [?|Hf]; [done|]. rewrite <- (Hf id org j). split.
    + intros (w & Hw & Hs & Ho & Hp). exists w. split_and!; try done.
      destruct (decide (id ∈ in_identity_key <$> input)) as [Hid|Hid].
      * apply list_elem_of_fmap in Hid as (x & -> & Hx). destruct Hnin.
        destruct (apply_row _ _ _ _ _ _ x Hnd H Hx) as (w' & Hw' & ? & _).
        assert (w' = w) as -> by congruence. specialize (Hown x Hx). congruence.
      * rewrite (Hother id Hid) in Hw. destruct (wi !! id) as [w0|]; [|done]. cbn in Hw.
        case_decide; [done|]. congruence.
    + intros (w & Hw & Hs & Ho & Hp). exists w. split_and!; try done.
      rewrite Hother.
      * rewrite Hw. cbn. rewrite decide_False by congruence. done.
      * intros (x & Hid & Hx)%list_elem_of_fmap. apply Hnin.
        specialize (Hown x Hx). rewrite Forall_forall in Hcan.
        enough (k = in_scope_key x) as -> by done.
        assert (Hd : derived t k id org j) by (apply Hf; by exists w).
        destruct x as [xk xid xorg xj]. cbn in *. subst xid.
        apply (Hb xk id xorg xj Hown) in Hx.
        by eapply (derived_scope_unique t k xk id org xorg j xj); auto.
Qed.
End batch.

(** ** The invariant *)

Lemma take_locks_lookup pid keys l k :
  take_locks pid keys l !! k = if decide (k ∈ keys) then Some pid else l !! k.
Proof.
  induction keys as [|x keys IH]; [done|]. cbn. fold (take_locks pid keys l).
  destruct (decide (x = k)) as [->|Hne].
  - rewrite lookup_insert_eq, decide_True; [done|by left].
  - rewrite lookup_insert_ne by done. rewrite IH. apply decide_ext. rewrite elem_of_cons. naive_solver.
Qed.

Lemma free_locks_lookup pid l k q :
  free_locks pid l !! k = Some q ↔ l !! k = Some q ∧ q ≠ pid.
Proof. unfold free_locks. by rewrite map_lookup_filter_Some. Qed.

Lemma mark_dom at_ marks : ∀ m k,
  k ∈ dom (MarkDerivationDirty at_ marks m) ↔ k ∈ dom m ∨ k ∈ marks.
Proof.
  induction marks as [|x marks IH]; intros m k; [set_solver|].
  change (MarkDerivationDirty at_ (x :: marks) m)
    with (MarkDerivationDirty at_ marks (mark_dirty at_ m x)).
  rewrite IH. unfold mark_dirty. rewrite dom_insert. set_solver.
Qed.

Lemma clear_dom keys (m : gmap string time) k :
  k ∈ dom (ClearDerivationDirtyScopes keys m) ↔ k ∈ dom m ∧ k ∉ keys.
Proof.
  induction keys as [|x keys IH]; cbn; [set_solver|].
  fold (ClearDerivationDirtyScopes keys m). rewrite dom_delete. set_solver.
Qed.

Lemma clear_size keys (m : gmap string time) : NoDup keys → (∀ k, k ∈ keys → k ∈ dom m) →
  Z.of_nat (size (ClearDerivationDirtyScopes keys m)) = Z.of_nat (size m) - Z.of_nat (length keys).
Proof.
  induction 1 as [|x keys Hx Hnd IH]; intros Hin; cbn -[Z.of_nat]; [lia|].
  fold (ClearDerivationDirtyScopes keys m).
  assert (Hd : x ∈ dom (ClearDerivationDirtyScopes keys m))
    by (apply clear_dom; split; [apply Hin; by left|done]).
  apply elem_of_dom in Hd. rewrite map_size_delete_Some by done.
  assert (size (ClearDerivationDirtyScopes keys m) ≠ 0%nat).
  { rewrite map_size_non_empty_iff. intros E. rewrite E in Hd. by destruct Hd. }
  rewrite Nat2Z.inj_pred by lia. rewrite IH; [lia|]. intros k Hk. apply Hin. by right.
Qed.

Lemma claim_ok dirtyCap locked dirty keys :
  ClaimDerivationDirtyScopes dirtyCap locked dirty = Ok keys →
  ∀ k, k ∈ keys → k ∈ dom dirty ∧ k ∉ locked.
Proof.
  unfold ClaimDerivationDirtyScopes. case_if; [done|]. intros [= <-] k Hk.
  apply elem_of_take in Hk as (i & Hi & _). apply list_elem_of_lookup_2 in Hi.
  apply list_elem_of_fmap in Hi as ([k' at_] & -> & Hin).
  rewrite merge_sort_Permutation in Hin. apply list_elem_of_filter in Hin as [Hl Hin].
  apply elem_of_map_to_list in Hin. split; [by apply elem_of_dom_2 in Hin|done].
Qed.

Section invariant.
Context {J : Type} `{EqDecision J} (json_Valid : string → bool) (jsonb_of : string → option J).
Context {D : Deriver J} (derive_scope : ScopeSnapshot J → list WorkItem).
Context (DL : DeriverLaws json_Valid jsonb_of D derive_scope).
Context (dirtyCap installationID : Z).

Abbreviation step := (derive_step json_Valid jsonb_of derive_scope dirtyCap installationID).
Abbreviation inv := (dinv jsonb_of derive_scope).

Lemma derived_ext t t' k p id org j : parseScope k = Ok p →
  derive_scope (scope_view t' p) = derive_scope (scope_view t p) →
  derived jsonb_of derive_scope t' k id org j ↔ derived jsonb_of derive_scope t k id org j.
Proof.
  intros Hp Heq. unfold derived.
  split; intros (sc & it & Hsc & Hit & ?); exists sc, it;
    (assert (sc = p) as -> by congruence); rewrite Heq in *; done.
Qed.

(** Open transactions hold the locks of their keys after one of them ends. *)
Lemma locks_end (s : dsys (J := J)) pid : inv s →
  ∀ q x k, delete pid (txns s) !! q = Some x → k ∈ txn_keys x →
    free_locks pid (locks s) !! k = Some q.
Proof.
  intros Hinv q x k [Hne Hq]%lookup_delete_Some Hk. apply free_locks_lookup.
  split; [by eapply (di_lock _ _ _ Hinv)|done].
Qed.

(** A transaction that begins takes locks that were free. *)
Lemma locks_begin (s : dsys (J := J)) pid x : inv s → txns s !! pid = None →
  (∀ k, k ∈ txn_keys x → locks s !! k = None) →
  ∀ q y k, <[pid := x]> (txns s) !! q = Some y → k ∈ txn_keys y →
    take_locks pid (txn_keys x) (locks s) !! k = Some q.
Proof.
  intros Hinv Hpid Hfree q y k Hq Hk. rewrite take_locks_lookup.
  apply lookup_insert_Some in Hq as [[<- <-]|[Hne Hq]]; [by rewrite decide_True|].
  pose proof (di_lock _ _ _ Hinv _ _ _ Hq Hk) as Hl.
  rewrite decide_False; [done|]. intros Hx%Hfree. congruence.
Qed.

Lemma inv_end s pid : inv s →
  inv (mkSys (sys_state s) (free_locks pid (locks s)) (delete pid (txns s))).
Proof.
  intros Hinv. split; cbn.
  - by apply locks_end.
  - apply Hinv.
  - intros q marks at_ k [_ Hq]%lookup_delete_Some. by eapply (di_marks _ _ _ Hinv).
  - intros q keys input k [_ Hq]%lookup_delete_Some. by eapply (di_claim _ _ _ Hinv).
  - intros q keys input [_ Hq]%lookup_delete_Some. by eapply (di_input _ _ _ Hinv).
  - apply Hinv.
Qed.

Lemma inv_write s pid marks at_ t' : inv s → txns s !! pid = Some (Writer marks at_) →
  marks_cover derive_scope (d_tables (sys_state s)) t' marks →
  inv (mkSys (with_tables t' (MarkDerivationDirty at_ marks (d_dirty (sys_state s))) (sys_state s))
         (free_locks pid (locks s)) (delete pid (txns s))).
Proof.
  intros Hinv Hpid Hcov.
  assert (Hsame : ∀ k id org j, canonical k → k ∉ marks →
    derived jsonb_of derive_scope t' k id org j ↔
    derived jsonb_of derive_scope (d_tables (sys_state s)) k id org j).
  { intros k id org j Hk Hm. pose proof Hk as (p & Hp & _).
    destruct (Hcov k p Hk Hp) as [?|Heq]; [done|]. by eapply derived_ext. }
  split; cbn.
  - by apply locks_end.
  - intros k [?|?]%mark_dom; [by apply (di_dirty _ _ _ Hinv)|by eapply (di_marks _ _ _ Hinv)].
  - intros q m a k [_ Hq]%lookup_delete_Some. by eapply (di_marks _ _ _ Hinv).
  - intros q keys input k [_ Hq]%lookup_delete_Some Hk. apply mark_dom. left.
    by eapply (di_claim _ _ _ Hinv).
  - intros q keys input [Hne Hq]%lookup_delete_Some.
    destruct (di_input _ _ _ Hinv _ _ _ Hq) as (Hown & Hnd & Hb). split; [done|]. split; [done|].
    intros k id org j Hk. rewrite (Hb k id org j Hk). symmetry. apply Hsame.
    + apply (di_dirty _ _ _ Hinv). by eapply (di_claim _ _ _ Hinv).
    + intros Hm. pose proof (di_lock _ _ _ Hinv _ _ _ Hq Hk).
      pose proof (di_lock _ _ _ Hinv _ _ _ Hpid Hm). congruence.
  - intros k Hk Hnd id org j. rewrite mark_dom in Hnd.
    rewrite (Hsame k id org j Hk) by tauto. apply (di_fresh _ _ _ Hinv k Hk). tauto.
Qed.

Lemma inv_apply s pid keys input now st : inv s →
  txns s !! pid = Some (Pass keys (Some input)) →
  apply_batch now installationID keys input (sys_state s) = Ok st →
  inv (mkSys st (free_locks pid (locks s)) (delete pid (txns s))).
Proof.
  intros Hinv Hpid H. unfold apply_batch in H.
  destruct (ApplyDerivedWorkItemBatch _ _ _ _) as [events wi] eqn:Ha.
  apply bind_ok in H as (h & _ & H). injection H as <-.
  destruct (di_input _ _ _ Hinv _ _ _ Hpid) as (Hown & Hb).
  assert (Hcan : Forall canonical keys).
  { apply Forall_forall. intros k Hk. apply (di_dirty _ _ _ Hinv).
    by eapply (di_claim _ _ _ Hinv). }
  split; cbn.
  - by apply locks_end.
  - intros k [Hk _]%clear_dom. by apply (di_dirty _ _ _ Hinv).
  - intros q m a k [_ Hq]%lookup_delete_Some. by eapply (di_marks _ _ _ Hinv).
  - intros q keys' input' k [Hne Hq]%lookup_delete_Some Hk. apply clear_dom.
    split; [by eapply (di_claim _ _ _ Hinv)|]. intros Hk'.
    pose proof (di_lock _ _ _ Hinv _ _ _ Hq Hk). pose proof (di_lock _ _ _ Hinv _ _ _ Hpid Hk').
    congruence.
  - intros q keys' input' [_ Hq]%lookup_delete_Some. by eapply (di_input _ _ _ Hinv).
  - intros k Hk Hnd. eapply apply_fresh; eauto.
    destruct (decide (k ∈ keys)); [by left|right]. apply (di_fresh _ _ _ Hinv k Hk).
    intros Hd. apply Hnd, clear_dom. done.
Qed.

Lemma derive_step_inv s s' : inv s → step s s' → inv s'.
Proof.
  intros Hinv Hs. destruct Hs as
    [pid marks at_ Hn Hc Hl|pid marks at_ t' Hp Hcov|pid keys Hn Hc|pid keys input Hp Hd
    |pid keys input now st Hp Ha|pid].
  - rewrite Forall_forall in Hc, Hl. split; cbn.
    + by apply (locks_begin s pid (Writer marks at_)).
    + apply Hinv.
    + intros q m a k [[<- [= <- <-]]|[_ Hq]]%lookup_insert_Some; [auto|].
      by eapply (di_marks _ _ _ Hinv).
    + intros q keys input k [[_ [=]]|[_ Hq]]%lookup_insert_Some. by eapply (di_claim _ _ _ Hinv).
    + intros q keys input [[_ [=]]|[_ Hq]]%lookup_insert_Some. by eapply (di_input _ _ _ Hinv).
    + apply Hinv.
  - by eapply inv_write.
  - pose proof (claim_ok _ _ _ _ Hc) as Hclaim. split; cbn.
    + apply (locks_begin s pid (Pass keys None)); [done..|]. cbn. intros k [_ Hk]%Hclaim.
      by apply not_elem_of_dom.
    + apply Hinv.
    + intros q m a k [[_ [=]]|[_ Hq]]%lookup_insert_Some. by eapply (di_marks _ _ _ Hinv).
    + intros q keys' input' k [[<- [= <- <-]]|[_ Hq]]%lookup_insert_Some Hk; [by apply Hclaim|].
      by eapply (di_claim _ _ _ Hinv).
    + intros q keys' input' [[_ [=]]|[_ Hq]]%lookup_insert_Some. by eapply (di_input _ _ _ Hinv).
    + apply Hinv.
  - split; cbn.
    + intros q x k [[<- <-]|[_ Hq]]%lookup_insert_Some Hk; [|by eapply (di_lock _ _ _ Hinv)].
      by apply (di_lock _ _ _ Hinv _ _ _ Hp).
    + apply Hinv.
    + intros q m a k [[_ [=]]|[_ Hq]]%lookup_insert_Some. by eapply (di_marks _ _ _ Hinv).
    + intros q keys' input' k [[<- [= <- <-]]|[_ Hq]]%lookup_insert_Some Hk;
        by eapply (di_claim _ _ _ Hinv).
    + intros q keys' input' [[<- [= <- <-]]|[_ Hq]]%lookup_insert_Some;
        [|by eapply (di_input _ _ _ Hinv)]. by eapply derive_batch_ok.
    + apply Hinv.
  - by eapply inv_apply.
  - by apply inv_end.
Qed.

Lemma derive_initial_inv s : derive_initial s → inv s.
Proof.
  intros (Hr & Hi & Hd & Hl & Ht). split; rewrite ?Ht, ?Hd; try done; try set_solver.
  intros k Hk _ id org j. rewrite Hi. split.
  - by intros (w & Hw%lookup_empty_Some & _).
  - intros (sc & repo & _ & _ & Hs)%(derived_live _ _ _ DL). unfold scope_repo in Hs. by rewrite Hr in Hs.
Qed.

End invariant.

(** ** Events of a pass *)

Section events.
Context {J : Type} `{EqDecision J} (json_Valid : string → bool) (jsonb_of : string → option J).
Context {D : Deriver J}.

Lemma derive_batch_nodup t keys input :
  derive_batch json_Valid jsonb_of t keys = Ok input → NoDup (in_identity_key <$> input).
Proof.
  unfold derive_batch. intros H. apply bind_ok in H as (snap & _ & H).
  apply bind_ok in H as (items & Hv & H). apply input_rows_ok in H as [-> _].
  unfold validateScopeResults in Hv.
  destruct (validate_results _ _ _ _ _) as [[seenS owned]|] eqn:Hr; [|done]. cbn in Hv.
  case_if_in Hv; [|done]. injection Hv as <-.
  rewrite merge_sort_Permutation. by apply validate_results_ok in Hr as (? & _).
Qed.

(** The events of a batch: who gets one, and of which kind. *)
Lemma apply_events now claimed input (wi wi' : gmap string (work_item J)) events :
  NoDup (in_identity_key <$> input) →
  ApplyDerivedWorkItemBatch now claimed input wi = (events, wi') →
  ∀ kind id scope, (kind, id, scope) ∈ events ↔
    kind = WorkItemChangedKind ∧ wi' !! id ≠ wi !! id ∧ wi_scope_key <$> wi' !! id = Some scope ∨
    kind = WorkItemRemovedKind ∧ wi' !! id = None ∧ wi_scope_key <$> wi !! id = Some scope.
Proof.
  intros Hnd H kind id scope. pose proof (apply_lookup _ _ _ _ _ _ Hnd H) as [Hin Hother].
  injection H as <- _. rewrite merge_sort_Permutation, elem_of_app, !list_elem_of_fmap.
  assert (Hdiff : ∀ x, x ∈ input → upserts wi x = true → wi' !! in_identity_key x ≠ wi !! in_identity_key x).
  { intros x Hx Hu. rewrite (Hin x Hx), Hu. unfold upserts in Hu. intros Heq. rewrite <- Heq in Hu.
    cbn in Hu. by rewrite bool_decide_eq_true_2 in Hu. }
  split.
  - intros [(x & [= -> -> ->] & [Hu Hx]%list_elem_of_filter)|
            ([i w] & [= -> -> ->] & [Hr Hw%elem_of_map_to_list]%list_elem_of_filter)].
    + left. split; [done|]. split; [by apply Hdiff|]. by rewrite (Hin x Hx), Hu.
    + right. unfold removes in Hr. to_props. cbn in *.
      assert (Hni : i ∉ in_identity_key <$> input).
      { intros (x & -> & Hx)%list_elem_of_fmap. apply not_true_iff_false in H0. apply H0.
        apply existsb_exists. exists x. split; [by apply list_elem_of_In|].
        by apply bool_decide_eq_true. }
      rewrite (Hother i Hni), Hw. cbn. by rewrite decide_True.
  - intros [(-> & Hne & Hs)|(-> & Hnone & Hs)].
    + left. destruct (decide (id ∈ in_identity_key <$> input)) as [Hid|Hid].
      * apply list_elem_of_fmap in Hid as (x & -> & Hx). exists x.
        rewrite (Hin x Hx) in Hne, Hs. destruct (upserts wi x) eqn:Hu; [|done].
        cbn in Hs. injection Hs as <-. split; [done|]. by apply list_elem_of_filter.
      * rewrite (Hother id Hid) in Hne, Hs. destruct (wi !! id) as [w|]; [|done]. cbn in *.
        by case_decide.
    + right. destruct (wi !! id) as [w|] eqn:Hw; [|done]. injection Hs as <-.
      exists (id, w). split; [done|]. apply list_elem_of_filter.
      split; [|by apply elem_of_map_to_list].
      assert (Hni : id ∉ in_identity_key <$> input).
      { intros (x & -> & Hx)%list_elem_of_fmap. rewrite (Hin x Hx) in Hnone.
        destruct (upserts wi x); [done|]. congruence. }
      rewrite (Hother id Hni), Hw in Hnone. cbn in Hnone. case_decide as Hc; [|done].
      unfold removes. cbn. rewrite bool_decide_eq_true_2 by done. cbn.
      apply negb_true_iff, not_true_iff_false.
      intros (x & Hx%list_elem_of_In & Hxi%bool_decide_eq_true)%existsb_exists.
      apply Hni, list_elem_of_fmap. eauto.
Qed.

(** The work-item stream tells the whole story of a pass: a committed pass
    appends an event for an identity exactly when its row was inserted or changed
    (kind changed, naming the new owning scope) or removed (kind removed, naming
    the old one); an identity whose row is the same gets none. *)
Theorem pass_events_exact dirtyCap installationID now locked st n st' :
  runOnce json_Valid jsonb_of dirtyCap installationID now locked st = Ok (n, st') →
  ∃ events, d_events st' = d_events st ++ events ∧
  ∀ kind id scope, (kind, id, scope) ∈ events ↔
    kind = WorkItemChangedKind ∧ d_items st' !! id ≠ d_items st !! id ∧
      wi_scope_key <$> d_items st' !! id = Some scope ∨
    kind = WorkItemRemovedKind ∧ d_items st' !! id = None ∧
      wi_scope_key <$> d_items st !! id = Some scope.
Proof.
  unfold runOnce. intros H. apply bind_ok in H as (keys & _ & H).
  destruct keys as [|k keys].
  - apply bind_ok in H as (h & _ & H). injection H as _ <-. exists []. cbn.
    split; [by rewrite app_nil_r|]. intros kind id scope. split; [by intros ?%elem_of_nil|].
    intros [(_ & ? & _)|(_ & Hn & Hs)]; [done|]. by rewrite Hn in Hs.
  - apply bind_ok in H as (input & Hb & H). apply derive_batch_nodup in Hb.
    apply bind_ok in H as (st1 & Ha & H). injection H as _ <-. unfold apply_batch in Ha.
    destruct (ApplyDerivedWorkItemBatch _ _ _ _) as [events wi] eqn:He.
    apply bind_ok in Ha as (h & _ & Ha). injection Ha as <-. exists events.
    split; [done|]. by eapply apply_events.
Qed.
End events.

(** ** Draining *)

Section drain.
Context {J : Type} `{EqDecision J} (json_Valid : string → bool) (jsonb_of : string → option J).
Context {D : Deriver J} (derive_scope : ScopeSnapshot J → list WorkItem).
Context (DL : DeriverLaws json_Valid jsonb_of D derive_scope).

Abbreviation derived := (derived jsonb_of derive_scope).

(** A result for a claimed scope, as a deriver that keeps its contract returns it. *)
Definition good_result (t : tables J) (claimed : gmap string (ScopeSnapshot J)) (r : ScopeResult) : Prop :=
  canonical (sr_ScopeKey r) ∧
  ∃ p, parseScope (sr_ScopeKey r) = Ok p ∧ claimed !! sr_ScopeKey r = Some (scope_view t p) ∧
    sr_WorkItems r = derive_scope (scope_view t p).

Lemma good_item_derived t k p it : parseScope k = Ok p → it ∈ derive_scope (scope_view t p) →
  ∃ j, derived t k (it_IdentityKey it) (it_OrgID it) j.
Proof.
  intros Hp Hit. destruct (derive_owned (scope_view t p) p it) as (_ & _ & _ & _ & _ & j & Hj);
    [by rewrite (scope_view_key t k p Hp)|done|]. exists j, p, it. done.
Qed.

Lemma validate_items_succeeds t k p seen : parseScope k = Ok p →
  (∀ it, it ∈ derive_scope (scope_view t p) → it_IdentityKey it ∉ seen) →
  ∃ seen' owned, validate_items json_Valid (scope_view t p) (identityForScope p) seen
    (derive_scope (scope_view t p)) = Ok (seen', owned).
Proof.
  intros Hp Hseen. pose proof (derive_single (scope_view t p)) as Hlen.
  pose proof (λ it, derive_owned (scope_view t p) p it) as Hown.
  rewrite (scope_view_key t k p Hp) in Hown.
  destruct (derive_scope (scope_view t p)) as [|it [|]]; [by eexists _, _| |cbn in Hlen; lia].
  destruct (Hown it Hp ltac:(by left)) as (Hid & Hpos & Horg & Hpay & Hval & _).
  specialize (Hseen it ltac:(by left)).
  cbn [validate_items]. rewrite bool_decide_eq_false_2.
  2: { rewrite Hid. unfold identityForScope. by case_if. }
  rewrite bool_decide_eq_true_2 by done. cbn.
  destruct (Z.leb_spec (it_OrgID it) 0); [lia|]. rewrite Horg, Z.eqb_refl. cbn.
  rewrite bool_decide_eq_false_2 by done. rewrite Hval. cbn.
  rewrite bool_decide_eq_false_2 by done. by eexists _, _.
Qed.

Lemma validate_results_succeeds t claimed results : ∀ seenS seenI,
  Forall (good_result t claimed) results →
  NoDup (sr_ScopeKey <$> results) → (∀ r, r ∈ results → sr_ScopeKey r ∉ seenS) →
  (∀ id, id ∈ seenI → ∃ k org j, k ∈ seenS ∧ canonical k ∧ derived t k id org j) →
  ∃ seenS' owned, validate_results json_Valid claimed seenS seenI results = Ok (seenS', owned).
Proof.
  induction results as [|r results IH]; intros seenS seenI Hgood Hnd HS HI; [by eexists _, _|].
  apply Forall_cons in Hgood as [(Hc & p & Hp & Hcl & Hit) Hgood].
  rewrite fmap_cons in Hnd. apply NoDup_cons in Hnd as [Hr Hnd].
  cbn [validate_results]. rewrite Hcl.
  assert (HrS : sr_ScopeKey r ∉ seenS) by (apply HS; by left).
  rewrite bool_decide_eq_false_2 by done. unfold parse_scope. rewrite Hp. cbn. rewrite Hit.
  destruct (validate_items_succeeds t (sr_ScopeKey r) p seenI Hp) as (seen1 & owned1 & E1).
  { intros it Hin Hseen. apply HI in Hseen as (k & org & j & Hk & Hkc & Hd).
    destruct (good_item_derived t _ p it Hp Hin) as [j' Hd'].
    by rewrite (derived_scope_unique _ _ _ DL t _ _ _ _ _ _ _ Hkc Hc Hd Hd') in Hk. }
  rewrite E1. cbn. destruct (validate_items_ok _ _ _ _ _ _ _ E1) as (-> & _ & _ & Hseen1).
  destruct (IH ({[sr_ScopeKey r]} ∪ seenS) seen1 Hgood Hnd) as (seenS' & owned & ->).
  - intros r' Hr'. apply not_elem_of_union. split; [|by apply HS; right].
    rewrite elem_of_singleton. intros Heq. apply Hr. rewrite <- Heq. by apply list_elem_of_fmap_2.
  - intros id [Hid|(o & (it & -> & Hin)%list_elem_of_fmap & <-)]%Hseen1.
    + apply HI in Hid as (k & org & j & Hk & ?). exists k, org, j. split; [set_solver|done].
    + destruct (good_item_derived t _ p it Hp Hin) as [j' Hd'].
      exists (sr_ScopeKey r), (it_OrgID it), j'. split; [set_solver|done].
  - by eexists _, _.
Qed.

Lemma parse_scopes_succeeds keys : Forall canonical keys →
  ∃ l, parse_scopes keys = Ok l ∧ ScopeKey <$> l = keys ∧ forallb (λ sc, Number sc <? 2 ^ 31) l = true.
Proof.
  induction 1 as [|k keys (sc & Hp & _ & Hn) _ (l & Hl & Hk & Hall)]; [by exists []|].
  exists (sc :: l). cbn. unfold parse_scope. rewrite Hp. cbn. rewrite Hl. cbn.
  split; [done|]. fold (ScopeKey <$> l). rewrite Hk, (proj1 (parseScope_range _ _ Hp)).
  split; [done|]. rewrite Hall, andb_true_r. by apply Z.ltb_lt.
Qed.

Lemma Load_succeeds t keys : Forall canonical keys →
  ∃ snap : Snapshot J, Load t keys = Ok snap ∧ ss_ScopeKey <$> snap ≡ₚ keys.
Proof.
  intros Hc. destruct (parse_scopes_succeeds keys Hc) as (l & Hl & Hk & Hall).
  unfold Load. rewrite Hl. cbn. unfold LoadDerivationSnapshot. rewrite Hall.
  eexists. split; [done|]. rewrite <- Hk.
  assert (Hv : ∀ l : list parsedScope, ss_ScopeKey <$> map (scope_view t) l = ScopeKey <$> l).
  { intros m. rewrite <- (list_fmap_compose (scope_view t) ss_ScopeKey).
    apply list_fmap_ext. intros i sc _. unfold compose, scope_view. by destruct (scope_repo t sc). }
  rewrite Hv. apply fmap_Permutation, merge_sort_Permutation.
Qed.

Lemma input_rows_succeeds items : (∀ o, o ∈ items → is_Some (jsonb_of (ow_Payload o))) →
  ∃ input, input_rows jsonb_of items = Ok input.
Proof.
  induction items as [|o items IH]; intros H; [by eexists|]. cbn.
  destruct (H o ltac:(by left)) as [j ->].
  destruct IH as [input ->]; [intros o' Ho'; apply H; by right|]. by eexists.
Qed.

(** A deriver that keeps its contract never fails a pass. *)
Lemma derive_batch_succeeds t keys : Forall canonical keys → NoDup keys →
  ∃ input, derive_batch json_Valid jsonb_of t keys = Ok input.
Proof.
  intros Hc Hnd. destruct (Load_succeeds t keys Hc) as (snap & HL & Hkeys).
  pose proof (Load_ok _ _ _ HL) as Hsnap.
  assert (Hcl : ∀ k p, k ∈ keys → parseScope k = Ok p → claimed_of snap !! k = Some (scope_view t p)).
  { intros k p Hk Hp. assert (Hd : k ∈ dom (claimed_of snap)).
    { rewrite claimed_of_dom. exists (scope_view t p).
      split; [apply Hsnap; by eauto|by apply scope_view_key]. }
    apply elem_of_dom in Hd as [sc Hsc]. rewrite Hsc. apply claimed_of_lookup in Hsc as [Hin Heq].
    apply Hsnap in Hin as (k' & p' & _ & Hp' & ->). rewrite (scope_view_key t k' p' Hp') in Heq.
    congruence. }
  assert (Hres : sr_ScopeKey <$> Derive snap ≡ₚ keys).
  { rewrite (derive_local snap), <- Hkeys, <- list_fmap_compose. done. }
  assert (Hgood : Forall (good_result t (claimed_of snap)) (Derive snap)).
  { apply Forall_forall. intros r Hr.
    destruct (Derive_result _ _ _ DL _ _ _ _ HL Hr) as (k & p & Hk & Hp & ->).
    split; [by eapply Forall_forall in Hc|]. exists p. cbn. auto. }
  destruct (validate_results_succeeds t (claimed_of snap) (Derive snap) ∅ ∅ Hgood)
    as (seenS & owned & Hv); [by rewrite Hres|set_solver|set_solver|].
  destruct (validate_results_ok _ _ _ _ _ _ _ Hv) as (_ & _ & HS & Ho).
  unfold derive_batch. rewrite HL. cbn. unfold validateScopeResults. rewrite Hv. cbn.
  rewrite (proj2 (forallb_forall _ _)).
  - cbn. apply input_rows_succeeds. intros o Hin. rewrite merge_sort_Permutation in Hin.
    apply Ho in Hin as (r & sc & it & Hr & _ & Hit & ->). cbn.
    rewrite Forall_forall in Hgood. destruct (Hgood r Hr) as (_ & p & Hp & _ & Hw).
    rewrite Hw in Hit.
    apply (derive_owned (scope_view t p) p it); [by rewrite (scope_view_key t _ p Hp)|done].
  - intros k Hk. apply bool_decide_eq_true, HS. right.
    apply list_elem_of_In, elem_of_elements in Hk. rewrite claimed_of_dom in Hk.
    destruct Hk as (sc & Hin & <-).
    assert (Hk : ss_ScopeKey sc ∈ sr_ScopeKey <$> Derive snap)
      by (rewrite Hres, <- Hkeys; by apply list_elem_of_fmap_2).
    apply list_elem_of_fmap in Hk as (r & Heq & Hr). eauto.
Qed.

(** What an uncontended claim takes. *)
Lemma claim_unlocked cap (dirty : gmap string time) : 0 < cap < 2 ^ 31 →
  ∃ keys, ClaimDerivationDirtyScopes cap ∅ dirty = Ok keys ∧ NoDup keys ∧
    (∀ k, k ∈ keys → k ∈ dom dirty) ∧
    length keys = Nat.min (Z.to_nat cap) (size dirty).
Proof.
  intros Hcap. unfold ClaimDerivationDirtyScopes. rewrite wrap32_id by lia.
  destruct (Z.ltb_spec cap 0); [lia|]. eexists. split; [done|].
  set (l := merge_sort _ _).
  assert (Hl : l ≡ₚ map_to_list dirty).
  { unfold l. rewrite merge_sort_Permutation. induction (map_to_list dirty) as [|e r IH]; [done|].
    rewrite filter_cons, decide_True by set_solver. by rewrite IH. }
  change (map fst l) with (l.*1).
  assert (Hnd : NoDup l.*1) by (rewrite Hl; apply NoDup_fst_map_to_list).
  split_and!.
  - eapply sublist_NoDup; [exact Hnd|]. apply sublist_take.
  - intros k Hk. apply elem_of_take in Hk as (i & Hi & _). apply list_elem_of_lookup_2 in Hi.
    rewrite Hl in Hi. apply list_elem_of_fmap in Hi as ([k' a] & -> & Hin%elem_of_map_to_list).
    by apply elem_of_dom_2 in Hin.
  - rewrite length_take, length_fmap, Hl, length_map_to_list. done.
Qed.

(** One uncontended pass: it succeeds, its scopes are no longer dirty and fresh. *)
Lemma runOnce_progress cap installationID now st :
  0 < cap < 2 ^ 31 → 0 < installationID →
  (∀ k, k ∈ dom (d_dirty st) → canonical k) →
  ∃ n st', runOnce json_Valid jsonb_of cap installationID now ∅ st = Ok (n, st') ∧
    n = Z.min cap (Z.of_nat (size (d_dirty st))) ∧ d_tables st' = d_tables st ∧
    dom (d_dirty st') ⊆ dom (d_dirty st) ∧
    Z.of_nat (size (d_dirty st')) = Z.of_nat (size (d_dirty st)) - n ∧
    ∀ k, canonical k → k ∉ dom (d_dirty st') →
      k ∈ dom (d_dirty st) ∨ fresh jsonb_of derive_scope (d_tables st) (d_items st) k →
      fresh jsonb_of derive_scope (d_tables st') (d_items st') k.
Proof.
  intros Hcap Hinst Hdirty.
  destruct (claim_unlocked cap (d_dirty st) Hcap) as (keys & Hclaim & Hnd & Hin & Hlen).
  assert (Hbeat : ∀ m h, 0 <= m → ∃ h', recordHeartbeat now installationID m h = Ok h').
  { intros m h Hm. unfold recordHeartbeat, RecordSuccessN.
    destruct (Z.leb_spec installationID 0); [lia|]. cbn. destruct (Z.ltb_spec m 0); [lia|]. by eexists. }
  assert (Hsize : Z.of_nat (length keys) = Z.min cap (Z.of_nat (size (d_dirty st)))) by lia.
  unfold runOnce. rewrite Hclaim. cbn.
  destruct (decide (keys = [])) as [->|Hne].
  - destruct (Hbeat 0 (d_heartbeats st) ltac:(lia)) as [h ->]. cbn. eexists _, _. split; [done|].
    cbn in Hsize |- *. split_and!; try done; [lia|]. intros k _ Hn [?|?]; done.
  - assert (Hcan : Forall canonical keys) by (apply Forall_forall; auto).
    destruct (derive_batch_succeeds (d_tables st) keys Hcan Hnd) as [input Hb].
    destruct (derive_batch_ok _ _ _ DL _ _ _ Hb) as [Hown Hok].
    destruct keys as [|k0 keys0]; [done|]. set (keys := k0 :: keys0) in *.
    rewrite Hb. cbn -[keys apply_batch]. unfold apply_batch.
    destruct (ApplyDerivedWorkItemBatch now keys input (d_items st)) as [events wi] eqn:Ha.
    destruct (Hbeat (Z.of_nat (length keys)) (d_heartbeats st) ltac:(lia)) as [h ->]. cbn -[keys].
    eexists _, _. split; [done|]. cbn -[keys]. split_and!; try done.
    + intros k Hk. apply clear_dom in Hk. tauto.
    + rewrite (clear_size keys) by auto. lia.
    + intros k Hk Hn Hcase. eapply apply_fresh; eauto.
      destruct (decide (k ∈ keys)); [by left|]. destruct Hcase as [Hd|?]; [|by right].
      destruct Hn. by apply clear_dom.
Qed.

(** C17. The deriver catches up: with a deriver that keeps its contract and no
    concurrent marks, the passes between two waits of the loop all succeed, end
    after at most one pass per dirty scope and one more, leave no dirty scope, and
    make every scope that was dirty or fresh before fresh: its work items are
    exactly what the deriver computes from the cache. *)
Theorem deriver_drains cap installationID now : 0 < cap < 2 ^ 31 → 0 < installationID →
  ∀ fuel st, (size (d_dirty st) < fuel)%nat → (∀ k, k ∈ dom (d_dirty st) → canonical k) →
  ∃ st', run_drain json_Valid jsonb_of fuel cap installationID now st = Some (Ok st') ∧
    d_dirty st' = ∅ ∧ d_tables st' = d_tables st ∧
    ∀ k, canonical k →
      k ∈ dom (d_dirty st) ∨ fresh jsonb_of derive_scope (d_tables st) (d_items st) k →
      fresh jsonb_of derive_scope (d_tables st) (d_items st') k.
Proof.
  intros Hcap Hinst fuel. induction fuel as [|fuel IH]; intros st Hfuel Hdirty; [lia|].
  destruct (runOnce_progress cap installationID now st Hcap Hinst Hdirty)
    as (n & st1 & Hrun & Hn & Ht & Hsub & Hsize & Hfresh).
  cbn [run_drain]. rewrite Hrun. destruct (Z.eqb_spec n cap) as [->|Hlt].
  - destruct (IH st1) as (st' & Hst' & Hd & Ht' & Hf'); [lia|set_solver|].
    exists st'. split; [done|]. split; [done|]. split; [congruence|].
    intros k Hk Hcase. rewrite <- Ht. apply Hf'; [done|].
    destruct (decide (k ∈ dom (d_dirty st1))); [by left|right]. auto.
  - exists st1. split; [done|].
    assert (Hempty : d_dirty st1 = ∅) by (apply map_size_empty_iff; lia).
    split; [done|]. split; [done|]. intros k Hk Hcase. rewrite <- Ht. apply Hfresh; [done| |done].
    rewrite Hempty. set_solver.
Qed.
End drain.

(** ** A concrete deriver *)

(** One item for every scope that has a pull request. *)
Definition demo_scope (sc : ScopeSnapshot string) : list WorkItem :=
  match parseScope (ss_ScopeKey sc), sd_pull_requests (ss_Data sc) with
  | Ok p, _ :: _ =>
      if 0 <? ss_OrgID sc then [mkItem (identityForScope p) (ss_OrgID sc) "{}"] else []
  | _, _ => []
  end.

#[local] Instance demo_deriver : Deriver string :=
  { Derive snap := map (λ sc, mkResult (ss_ScopeKey sc) (demo_scope sc)) snap }.

Definition demo_valid (s : string) : bool := negb (String.eqb s "").

#[local] Instance demo_laws : DeriverLaws demo_valid Some demo_deriver demo_scope.
Proof.
  split.
  - done.
  - intros sc p item Hp Hin. unfold demo_scope in Hin. rewrite Hp in Hin.
    destruct (sd_pull_requests _); [by apply elem_of_nil in Hin|].
    destruct (Z.ltb_spec 0 (ss_OrgID sc)); [|by apply elem_of_nil in Hin].
    apply list_elem_of_singleton in Hin as ->. cbn. by split_and!.
  - intros sc. unfold demo_scope. repeat case_match; cbn; lia.
Qed.

Definition demo_repo : repo_row :=
  mkRepo 1 7 3 9 "R" "acme" "app" "acme/app" "main" false (Some 5) "" 5 5 "" "webhook" None.

Definition demo_tables : tables string :=
  mkTables {[ 9 := demo_repo ]} {[ (1, 4) := mkPull 1 4 None "c0ffee" None "" ]} ∅ ∅ ∅ ∅.

Definition demo_start : dsys (J := string) :=
  mkSys (mkD (mkTables ∅ ∅ ∅ ∅ ∅ ∅) ∅ ∅ [] ∅) ∅ ∅.

(** The state after a writer has marked and written the pull request. *)
Definition demo_written : dsys (J := string) :=
  mkSys (mkD demo_tables {[ "pr:7:9:4" := 10; "stack:7:9:2" := 10 ]} ∅ [] ∅) ∅ ∅.

Lemma demo_canonical k : k ∈ ["pr:7:9:4"; "stack:7:9:2"] → canonical k.
Proof.
  intros Hk. rewrite !elem_of_cons, elem_of_nil in Hk. destruct Hk as [->|[->|[]]].
  - exists (ParsedScope "pr:7:9:4" "pr" 7 9 4). by split_and!; vm_compute.
  - exists (ParsedScope "stack:7:9:2" "stack" 7 9 2). by split_and!; vm_compute.
Qed.

Lemma deriver_drains_witness :
  ∃ st', run_drain demo_valid Some 4 1 7 20 (sys_state demo_written) = Some (Ok st') ∧
    d_dirty st' = ∅ ∧
    fresh Some demo_scope demo_tables (d_items st') "pr:7:9:4".
Proof.
  assert (Hd : ∀ k, k ∈ dom (d_dirty (sys_state demo_written)) → canonical k).
  { intros k Hk. apply demo_canonical. cbn in Hk. set_solver. }
  destruct (deriver_drains demo_valid Some demo_scope demo_laws 1 7 20 ltac:(lia) ltac:(lia) 4
    (sys_state demo_written) ltac:(vm_compute; lia) Hd) as (st' & H1 & H2 & _ & H4).
  exists st'. split; [exact H1|]. split; [exact H2|].
  apply H4; [apply demo_canonical; by left|left]. cbn. set_solver.
Defined.

Lemma pass_events_exact_witness :
  ∃ n st', runOnce demo_valid Some 5 7 20 ∅ (sys_state demo_written) = Ok (n, st') ∧
    ∃ events, d_events st' = [] ++ events ∧
      (WorkItemChangedKind, "repo:9:pr:4", "pr:7:9:4") ∈ events.
Proof.
  destruct (runOnce demo_valid Some 5 7 20 ∅ (sys_state demo_written)) as [[n st']|] eqn:E;
    [|by vm_compute in E].
  exists n, st'. split; [done|].
  destruct (pass_events_exact _ _ _ _ _ _ _ _ _ E) as (events & H1 & H2).
  exists events. split; [exact H1|]. apply H2. left.
  vm_compute in E. injection E as <- <-. split_and!; [done|by vm_compute|by vm_compute].
Defined.

(** The demo write affects the scope of its pull request only. *)
Lemma demo_cover : marks_cover demo_scope (d_tables (sys_state demo_start)) demo_tables ["pr:7:9:4"].
Proof.
  intros k p (p' & Hp' & Hk & _) Hp. assert (p' = p) as -> by congruence.
  assert (Hempty : ∀ t, scope_repo t p = None → demo_scope (scope_view t p) = []).
  { intros t Ht. unfold demo_scope, scope_view. rewrite Ht. cbn. by case_match. }
  rewrite (Hempty (d_tables (sys_state demo_start))) by done.
  destruct (scope_repo demo_tables p) as [repo|] eqn:Hr; [|right; by apply Hempty].
  assert (Hsel : selected_prs demo_tables p repo = [] ∨ Kind p = "pr" ∧ Number p = 4).
  { unfold selected_prs. cbn [t_pulls demo_tables]. rewrite map_filter_singleton.
    case_decide as Hs; [right|by left]. unfold selects in Hs. cbn in Hs. apply andb_true_iff in Hs as [_ Hs].
    case_if_in Hs; to_props; [done|]. by destruct Hs as (? & <- & _). }
  destruct Hsel as [Hsel|[Hkind Hnum]].
  - right. unfold demo_scope, scope_view. rewrite Hr. cbn [sd_pull_requests ss_Data].
    rewrite Hsel. by case_match.
  - left. apply scope_repo_installation in Hr as [Hr Hi]. cbn in Hr.
    apply lookup_singleton_Some in Hr as [Hid <-]. cbn in Hi.
    rewrite Hk. unfold scope_key_of. rewrite Hkind, Hnum, <- Hi, <- Hid. by left.
Qed.

