(* ===== verification/Writers.v ===== *)
(** * The writers of stacks, check runs and repository rules

    [internal/store/stack.go], [checks.go] and [repo_rules.go] with their statements
    in [internal/store/dbgen/cache.sql.go]. Each writer is the callback of an entity
    transaction of [EntityWriter]: it reads the repository, writes the rows that are
    newer, tombstones the rows that are gone, records the check, and marks the
    derivation scopes it affects with one change event.

    The rows are those of the deriver's tables ([Derive]): [tables_of] is the cache
    as a deriver pass sees it, and the last section shows that the writers keep the
    marking contract that [Derive.derive_step] asks of a cache write.

    The serial [id] columns are left out; a rule document is a [jsonb] value of an
    abstract type [R]. *)

From Stdlib Require Import ZArith Lia Bool String.
From stdpp Require Import sorting strings gmap sets numbers base list.
From S2P Require Import Prelude GoStrings Keys RefreshQueue EntityWriter Derive.

Local Open Scope Z_scope.

(** ** Replacing a set of rows *)

(** The shape of the [Replace...] statements: an upsert of the input rows under a
    write-if-newer condition, and an update of the rows in scope that the input does
    not name. Both see the table as it was. *)
Section replace.
Context {K V X : Type} `{Countable K}.
Context (key : X → K) (row : option V → X → V) (accept : V → X → bool).
Context (dead : K → V → bool) (kill : V → V).

(** The upserts in input order: an insert, or an update of an older row. A row cannot
    be written twice. *)
Fixpoint upsert_rows (written : gset K) (input : list X) (m : gmap K V) : option (gset K * gmap K V) :=
  match input with
  | [] => Some (written, m)
  | x :: input =>
      if bool_decide (key x ∈ written) then None
      else
        match m !! key x with
        | Some v =>
            if accept v x
            then upsert_rows ({[key x]} ∪ written) input (<[key x := row (Some v) x]> m)
            else upsert_rows written input m
        | None => upsert_rows ({[key x]} ∪ written) input (<[key x := row None x]> m)
        end
  end.

(** The rows that the statement tombstones. *)
Definition killed (input : list X) (m : gmap K V) : gmap K V :=
  filter (λ e, dead e.1 e.2 = true ∧ e.1 ∉ map key input) m.

(** The keys it returns and the table it leaves. *)
Definition replace_rows (input : list X) (m : gmap K V) : option (list K * gmap K V) :=
  '(written, m') ← upsert_rows ∅ input m;
  let k := killed input m in
  Some (elements written ++ (map_to_list k).*1, (kill <$> k) ∪ m').
End replace.

(** ** Rows *)

Record StackEntry : Type := mkStackEntry {
  se_Number : Z;
  se_State : string;
  se_Draft : bool;
  se_MergedAt : option time;
  se_UpdatedAt : time;
  se_HeadRef : string;
  se_HeadSHA : string
}.

#[export] Instance StackEntry_eq_dec : EqDecision StackEntry.
Proof. solve_decision. Defined.

(** The columns that say when and how a row was observed. *)
Record provenance : Type := mkProv {
  pv_synced_at : time;
  pv_last_checked_at : time;
  pv_etag : string;
  pv_sync_source : string
}.

Record stack_full : Type := mkStackFull {
  sf_gh_id : option Z;
  sf_node_id : string;
  sf_base_ref : string;
  sf_base_sha : string;
  sf_open : bool;
  sf_entries : list StackEntry;
  sf_gh_updated_at : option time;
  sf_head_sha : string;
  sf_prov : provenance;
  sf_tombstoned_at : option time;
  sf_display_until : option time
}.

Record check_full : Type := mkCheckFull {
  cf_repo_id : Z;
  cf_node_id : string;
  cf_name : string;
  cf_status : string;
  cf_conclusion : string;
  cf_details_url : string;
  cf_app_slug : string;
  cf_started_at : option time;
  cf_completed_at : option time;
  cf_gh_updated_at : option time;
  cf_semantic_version : string;
  cf_head_sha : string;
  cf_prov : provenance;
  cf_tombstoned_at : option time
}.

(** A pull-request row; the deriver sees it as a [pull_row]. *)
Record pull_full : Type := mkPullFull {
  pf_repo_id : Z;
  pf_gh_id : option Z;
  pf_node_id : string;
  pf_number : Z;
  pf_title : string;
  pf_state : string;
  pf_draft : bool;
  pf_author_login : string;
  pf_head_ref : string;
  pf_head_sha : string;
  pf_base_ref : string;
  pf_base_sha : string;
  pf_review_decision : string;
  pf_mergeable_state : string;
  pf_stack_number : option Z;
  pf_stack_position : option Z;
  pf_gh_updated_at : option time;
  pf_prov : provenance;
  pf_tombstoned_at : option time;
  pf_display_until : option time
}.

Record ReviewCommentRecord : Type := mkReviewComment {
  rc_ID : string;
  rc_Body : string;
  rc_UpdatedAt : time;
  rc_AuthorLogin : string
}.

#[export] Instance ReviewCommentRecord_eq_dec : EqDecision ReviewCommentRecord.
Proof. solve_decision. Defined.

Record thread_full : Type := mkThreadFull {
  tf_repo_id : Z;
  tf_pr_number : Z;
  tf_is_resolved : bool;
  tf_is_outdated : bool;
  tf_path : string;
  tf_line : option Z;
  tf_comments : list ReviewCommentRecord;
  tf_gh_updated_at : option time;
  tf_head_sha : string;
  tf_prov : provenance;
  tf_tombstoned_at : option time
}.

Section rows.
Context {R : Type}.

Record rule_full : Type := mkRuleFull {
  rf_rule : R;
  rf_gh_updated_at : option time;
  rf_head_sha : string;
  rf_prov : provenance;
  rf_tombstoned_at : option time
}.

(** A row as the snapshot statement encodes it. *)
Inductive doc : Type :=
  | StackDoc (number : Z) (s : stack_full)
  | CheckDoc (id : Z) (c : check_full)
  | RuleDoc (key : string) (r : rule_full)
  | PullDoc (p : pull_full)
  | ThreadDoc (id : string) (t : thread_full).

Record history_row : Type := mkHistory {
  hi_check_run_gh_id : Z;
  hi_repo_id : Z;
  hi_name : string;
  hi_status : string;
  hi_conclusion : string;
  hi_observed : string;
  hi_gh_updated_at : option time;
  hi_semantic_version : string;
  hi_head_sha : string;
  hi_synced_at : time;
  hi_etag : string;
  hi_sync_source : string
}.

(** The tables of the writers; [base] holds the repositories, dirty marks, events
    and generations of [EntityWriter]. *)
Record wcache : Type := mkW {
  base : cache;
  wc_stacks : gmap (Z * Z) stack_full;
  wc_pulls : gmap (Z * Z) pull_full;
  wc_threads : gmap string thread_full;
  wc_checks : gmap Z check_full;
  wc_history : list history_row;
  wc_rules : gmap (Z * string) rule_full;
  wc_rule_sync : gmap Z (string * time)
}.

Definition set_stacks (m : gmap (Z * Z) stack_full) (w : wcache) : wcache :=
  mkW (base w) m (wc_pulls w) (wc_threads w) (wc_checks w) (wc_history w) (wc_rules w) (wc_rule_sync w).
Definition set_pulls (m : gmap (Z * Z) pull_full) (w : wcache) : wcache :=
  mkW (base w) (wc_stacks w) m (wc_threads w) (wc_checks w) (wc_history w) (wc_rules w) (wc_rule_sync w).
Definition set_threads (m : gmap string thread_full) (w : wcache) : wcache :=
  mkW (base w) (wc_stacks w) (wc_pulls w) m (wc_checks w) (wc_history w) (wc_rules w) (wc_rule_sync w).
Definition set_checks (m : gmap Z check_full) (w : wcache) : wcache :=
  mkW (base w) (wc_stacks w) (wc_pulls w) (wc_threads w) m (wc_history w) (wc_rules w) (wc_rule_sync w).
Definition set_history (l : list history_row) (w : wcache) : wcache :=
  mkW (base w) (wc_stacks w) (wc_pulls w) (wc_threads w) (wc_checks w) l (wc_rules w) (wc_rule_sync w).
Definition set_rules (m : gmap (Z * string) rule_full) (w : wcache) : wcache :=
  mkW (base w) (wc_stacks w) (wc_pulls w) (wc_threads w) (wc_checks w) (wc_history w) m (wc_rule_sync w).
Definition set_rule_sync (m : gmap Z (string * time)) (w : wcache) : wcache :=
  mkW (base w) (wc_stacks w) (wc_pulls w) (wc_threads w) (wc_checks w) (wc_history w) (wc_rules w) m.
Definition set_base (c : cache) (w : wcache) : wcache :=
  mkW c (wc_stacks w) (wc_pulls w) (wc_threads w) (wc_checks w) (wc_history w) (wc_rules w) (wc_rule_sync w).

Definition pull_view (p : pull_full) : pull_row (J := doc) :=
  mkPull (pf_repo_id p) (pf_number p) (pf_stack_number p) (pf_head_sha p) (pf_tombstoned_at p) (PullDoc p).

Definition thread_view (id : string) (t : thread_full) : thread_row (J := doc) :=
  mkThread id (tf_repo_id t) (tf_pr_number t) (tf_head_sha t) (tf_tombstoned_at t) (ThreadDoc id t).

Definition pulls_view (w : wcache) : gmap (Z * Z) (pull_row (J := doc)) := pull_view <$> wc_pulls w.

(** The cache of [EntityWriter], with the columns it reads of stacks and pull
    requests. *)
Definition cache_of (w : wcache) : cache :=
  let c := base w in
  mkCache (repos c) (last_repo_id c) (repo_aliases c)
    (map (λ '((r, n), s), mkStackRef r n (bool_decide (sf_tombstoned_at s ≠ None)))
       (map_to_list (wc_stacks w)))
    (map (λ p, mkPullRef (pr_repo_id p) (pr_number p) (bool_decide (pr_tombstoned_at p ≠ None))
                 (pr_stack_number p)) (rows_of (pulls_view w)))
    (derivation_dirty c) (emitted c) (refresh_intents c) (branch_generations c).

(** The cache as the snapshot statement of the deriver sees it. *)
Definition tables_of (w : wcache) : tables doc :=
  mkTables (repos (base w)) (pulls_view w)
    (map_imap (λ '(r, n) s, Some (mkStack r n (sf_tombstoned_at s) (StackDoc n s))) (wc_stacks w))
    (map_imap (λ id t, Some (thread_view id t)) (wc_threads w))
    (map_imap (λ id c, Some (mkCheck id (cf_repo_id c) (cf_head_sha c) (cf_tombstoned_at c)
                               (CheckDoc id c))) (wc_checks w))
    (map_imap (λ '(r, k) u, Some (mkRule r k (rf_tombstoned_at u) (RuleDoc k u))) (wc_rules w)).

(** [markAndEmit] on the writers' tables. *)
Definition mark_emit (scopes : list string) (kind entityKey : string) (at_ : time) (w : wcache)
    : wcache :=
  set_base (markAndEmit scopes kind entityKey at_ (base w)) w.

(** ** The entity transaction *)

Record wstate (S : Type) : Type := mkWState {
  ws_versions : gmap string Z;
  ws_cache : S
}.
Arguments mkWState {S}.
Arguments ws_versions {S}.
Arguments ws_cache {S}.

Section transaction.
Context {S : Type} (view : S → cache) (put : cache → S → S).

(** [withEntityTx] around a callback that also returns its result. *)
Definition entityTx {A} (ctx : fences) (observation : option Observation) (key : string)
    (fn : S → result write_error (A * S)) (s : wstate S) : result write_error (A * wstate S) :=
  st ← withEntityTx ctx observation key
         (λ _, '(_, w) ← fn (ws_cache s); Ok (view w))
         (mkWriter (ws_versions s) (view (ws_cache s)));
  '(a, w) ← fn (ws_cache s);
  Ok (a, mkWState (versions st) w).

(** The parent repository of a direct write, in a transaction of its own. *)
Definition apply_parent (ctx : fences) (r : RepositoryRecord) (source etag : string)
    (databaseTime : time) (s : wstate S) : result write_error (wstate S) :=
  st ← applyRepository ctx None r source etag databaseTime
         (mkWriter (ws_versions s) (view (ws_cache s)));
  Ok (mkWState (versions st) (put (body st) (ws_cache s))).
End transaction.

(** [GetRepoByGitHubID]. *)
Definition find_repo (ghID : Z) (w : wcache) : result write_error repo_row :=
  match repos (base w) !! ghID with Some r => Ok r | None => Err RepositoryNotFound end.
End rows.
Arguments wcache R : clear implicits.
Arguments doc R : clear implicits.
Arguments rule_full R : clear implicits.
Arguments mkWState {S}.
Arguments ws_versions {S}.
Arguments ws_cache {S}.

(** A new deadline for the last check, and an entity tag unless it is empty. *)
Definition touch_prov (at_ : time) (etag : string) (p : provenance) : provenance :=
  mkProv (pv_synced_at p) (Z.max (pv_last_checked_at p) at_)
    (if bool_decide (etag = "") then pv_etag p else etag) (pv_sync_source p).

(** ** Stacks *)

Definition StackChangedKind : string := "stack.changed".
Definition StackTombstonedKind : string := "stack.tombstoned".

(** [displayWindow] in seconds, and in nanoseconds. *)
Definition displayWindow : duration := 30 * 24 * 3600 * Second.

Record StackRecord : Type := mkStackRecord {
  sr_Repository : RepositoryRecord;
  sr_GitHubID : Z;
  sr_NodeID : string;
  sr_Number : Z;
  sr_BaseRef : string;
  sr_BaseSHA : string;
  sr_Open : bool;
  sr_Entries : list StackEntry;
  sr_GitHubUpdatedAt : time;
  sr_ETag : string;
  sr_SyncedAt : time;
  sr_Source : string
}.

Record ApplyStackResult : Type := mkStackResult {
  as_Applied : bool;
  as_JoinedPRs : list Z;
  as_LeftPRs : list Z;
  as_MovedPRs : list Z;
  as_PriorStackByPR : gmap Z Z
}.

Definition no_stack_result : ApplyStackResult := mkStackResult false [] [] [] ∅.

Definition validateStack (s : StackRecord) : result write_error unit :=
  _ ← validateRepository (sr_Repository s) (sr_Source s);
  if (sr_Number s <=? 0) || (sr_GitHubID s <=? 0) || IsZero (sr_GitHubUpdatedAt s)
     || IsZero (sr_SyncedAt s)
  then Err InvalidStackRecord else Ok tt.

(** [sort.Ints]. *)
Definition sort_Ints (l : list Z) : list Z := merge_sort Z.le l.

(** The last position of every number, from 1. *)
Fixpoint positions (i : Z) (m : gmap Z Z) (entries : list StackEntry) : gmap Z Z :=
  match entries with
  | [] => m
  | e :: entries => positions (i + 1) (<[se_Number e := i]> m) entries
  end.

(** [stackMembershipDiff]. *)
Definition stackMembershipDiff (oldEntries newEntries : list StackEntry) : ApplyStackResult :=
  let oldP := positions 1 ∅ oldEntries in
  let newP := positions 1 ∅ newEntries in
  let joined := filter (λ e, oldP !! e.1 = None) (map_to_list newP) in
  let moved := filter (λ e, oldP !! e.1 ≠ None ∧ oldP !! e.1 ≠ Some e.2) (map_to_list newP) in
  let left_ := filter (λ e, newP !! e.1 = None) (map_to_list oldP) in
  mkStackResult false (sort_Ints joined.*1) (sort_Ints left_.*1) (sort_Ints moved.*1) ∅.

Definition entryNumbers (entries : list StackEntry) : list Z := sort_Ints (map se_Number entries).

Definition stackHeadSHA (entries : list StackEntry) (fallback : string) : string :=
  match last entries with None => fallback | Some e => se_HeadSHA e end.

(** [uniqueInts]. *)
Definition uniqueInts (values : list Z) : list Z := sort_Ints (remove_dups values).

Section stacks.
Context {R : Type}.

(** The row an upsert inserts, or writes over [old], with the database clock. *)
Definition stack_row_of (s : StackRecord) (now : time) (old : option stack_full) : stack_full :=
  mkStackFull (if sr_GitHubID s <=? 0 then None else Some (sr_GitHubID s)) (sr_NodeID s)
    (sr_BaseRef s) (sr_BaseSHA s) (sr_Open s) (sr_Entries s) (nullable (sr_GitHubUpdatedAt s))
    (stackHeadSHA (sr_Entries s) (sr_BaseSHA s))
    (mkProv now now (sr_ETag s) (sr_Source s)) None
    (if sr_Open s then None
     else match old with
          | Some o => if sf_open o then Some (now + displayWindow) else sf_display_until o
          | None => Some (now + displayWindow)
          end).

Definition stack_semantic (s : stack_full) :=
  (sf_gh_id s, sf_node_id s, sf_base_ref s, sf_base_sha s, sf_open s, sf_entries s, sf_head_sha s).

(** The condition of [UpsertStackWriteIfNewer]. *)
Definition stack_newer (old new : stack_full) : bool :=
  bool_decide (sf_gh_updated_at old = None)
  || match sf_gh_updated_at new, sf_gh_updated_at old with
     | Some n, Some o => o <? n
     | _, _ => false
     end
  || (bool_decide (sf_gh_updated_at new = sf_gh_updated_at old)
      && negb (bool_decide (stack_semantic new = stack_semantic old)))
  || (bool_decide (sf_gh_updated_at new = sf_gh_updated_at old)
      && bool_decide (pv_etag (sf_prov old) = "")
      && negb (bool_decide (pv_etag (sf_prov new) = "")))
  || match sf_tombstoned_at old with
     | Some t => t <? pv_last_checked_at (sf_prov new)
     | None => false
     end.

(** [UpsertStackWriteIfNewer]: whether a row was written, and the table. *)
Definition UpsertStackWriteIfNewer (repoID : Z) (s : StackRecord) (now : time)
    (m : gmap (Z * Z) stack_full) : bool * gmap (Z * Z) stack_full :=
  let k := (repoID, wrap32 (sr_Number s)) in
  match m !! k with
  | None => (true, <[k := stack_row_of s now None]> m)
  | Some old =>
      let new := stack_row_of s now (Some old) in
      if stack_newer old new then (true, <[k := new]> m) else (false, m)
  end.

Definition touch_stack (at_ : time) (etag : string) (s : stack_full) : stack_full :=
  mkStackFull (sf_gh_id s) (sf_node_id s) (sf_base_ref s) (sf_base_sha s) (sf_open s) (sf_entries s)
    (sf_gh_updated_at s) (sf_head_sha s) (touch_prov at_ etag (sf_prov s)) (sf_tombstoned_at s)
    (sf_display_until s).

(** [TouchStackCheckedAt]. *)
Definition TouchStackCheckedAt (at_ : time) (etag : string) (repoID number : Z)
    (m : gmap (Z * Z) stack_full) : gmap (Z * Z) stack_full :=
  alter (touch_stack at_ etag) (repoID, wrap32 number) m.

(** [ListCachedPRMemberships], as the map the writer builds from its rows. *)
Definition prior_stacks (repoID number : Z) (candidates : list Z) (w : wcache R) : gmap Z Z :=
  list_to_map (omap (λ p,
    if bool_decide (pr_repo_id p = repoID ∧ pr_number p ∈ map wrap32 candidates) then
      match pr_stack_number p with
      | Some n => if n =? number then None else Some (pr_number p, n)
      | None => None
      end
    else None) (rows_of (pulls_view w))).

(** A hook runs in the transaction: the refreshes it inserts are those of
    [RefreshQueue], and only its failure matters here. *)
Definition run_hook {A} (hook : option (A → result write_error unit)) (a : A) : result write_error unit :=
  match hook with Some h => h a | None => Ok tt end.

(** The callback of [applyStack]. *)
Definition applyStackTx (s : StackRecord) (hook : option (ApplyStackResult → result write_error unit))
    (now : time) (w : wcache R) : result write_error (ApplyStackResult * wcache R) :=
  let key := Outbox.StackKey (InstallationID (sr_Repository s)) (GitHubID (sr_Repository s)) (sr_Number s) in
  repo ← find_repo (GitHubID (sr_Repository s)) w;
  let oldEntries :=
    match wc_stacks w !! (rp_id repo, wrap32 (sr_Number s)) with
    | Some o => sf_entries o
    | None => []
    end in
  let '(applied, m) := UpsertStackWriteIfNewer (rp_id repo) s now (wc_stacks w) in
  let w1 := set_stacks (TouchStackCheckedAt now (sr_ETag s) (rp_id repo) (sr_Number s) m) w in
  let '(result, w2) :=
    if applied then
      let d := stackMembershipDiff oldEntries (sr_Entries s) in
      let candidates := uniqueInts (as_JoinedPRs d ++ as_LeftPRs d ++ as_MovedPRs d) in
      (mkStackResult true (as_JoinedPRs d) (as_LeftPRs d) (as_MovedPRs d)
         (prior_stacks (rp_id repo) (sr_Number s) candidates w1),
       mark_emit [key] StackChangedKind key now w1)
    else (no_stack_result, w1) in
  _ ← run_hook hook result;
  Ok (result, w2).

(** [applyStack], [ApplyStack] (no observation) and [ApplyStackObserved]. *)
Definition applyStack (ctx : fences) (observation : option Observation) (s : StackRecord)
    (repoETag : string) (hook : option (ApplyStackResult → result write_error unit)) (now : time)
    (st : wstate (wcache R)) : result write_error (ApplyStackResult * wstate (wcache R)) :=
  _ ← validateStack s;
  st ← match observation with
       | None => apply_parent cache_of set_base ctx (sr_Repository s) (sr_Source s) repoETag now st
       | Some _ => Ok st
       end;
  entityTx cache_of ctx observation
    (Outbox.StackKey (InstallationID (sr_Repository s)) (GitHubID (sr_Repository s)) (sr_Number s))
    (applyStackTx s hook now) st.

Definition ApplyStackObserved (ctx : fences) (observation : option Observation) (s : StackRecord)
    (hook : option (ApplyStackResult → result write_error unit)) (now : time)
    (st : wstate (wcache R)) : result write_error (ApplyStackResult * wstate (wcache R)) :=
  _ ← requireObservation observation
    (Outbox.StackKey (InstallationID (sr_Repository s)) (GitHubID (sr_Repository s)) (sr_Number s));
  applyStack ctx observation s "" hook now st.

(** [TouchStack]. *)
Definition TouchStack (ctx : fences) (observation : option Observation) (r : RepositoryRecord)
    (number : Z) (etag : string) (now : time) (st : wstate (wcache R)) : result write_error (unit * wstate (wcache R)) :=
  let key := Outbox.StackKey (InstallationID r) (GitHubID r) number in
  _ ← requireObservation observation key;
  entityTx cache_of ctx observation key
    (λ w, repo ← find_repo (GitHubID r) w;
          Ok (tt, set_stacks (TouchStackCheckedAt now etag (rp_id repo) number (wc_stacks w)) w)) st.

(** [TombstoneStack]. *)
Definition TombstoneStack (at_ : time) (source : string) (repoID number : Z)
    (m : gmap (Z * Z) stack_full) : option (gmap (Z * Z) stack_full) :=
  match m !! (repoID, wrap32 number) with
  | Some s =>
      if bool_decide (sf_tombstoned_at s = None) && (pv_last_checked_at (sf_prov s) <=? at_) then
        Some (<[(repoID, wrap32 number) :=
          mkStackFull (sf_gh_id s) (sf_node_id s) (sf_base_ref s) (sf_base_sha s) false (sf_entries s)
            (sf_gh_updated_at s) (sf_head_sha s)
            (mkProv at_ (Z.max (pv_last_checked_at (sf_prov s)) at_) "" source) (Some at_) None]> m)
      else None
  | None => None
  end.

(** The callback of [TombstoneStackObserved]. *)
Definition tombstoneStackTx (r : RepositoryRecord) (number : Z) (source : string)
    (hook : option (ApplyStackResult → result write_error unit)) (at_ : time) (w : wcache R)
    : result write_error (ApplyStackResult * wcache R) :=
  let key := Outbox.StackKey (InstallationID r) (GitHubID r) number in
  repo ← find_repo (GitHubID r) w;
  match wc_stacks w !! (rp_id repo, wrap32 number) with
  | None => Ok (no_stack_result, w)
  | Some old =>
      let '(result, w1) :=
        match TombstoneStack at_ source (rp_id repo) number (wc_stacks w) with
        | None => (no_stack_result, w)
        | Some m =>
            (mkStackResult true [] (entryNumbers (sf_entries old)) [] ∅,
             mark_emit [key] StackTombstonedKind key at_ (set_stacks m w))
        end in
      _ ← run_hook hook result;
      Ok (result, w1)
  end.

Definition TombstoneStackObserved (ctx : fences) (observation : option Observation)
    (r : RepositoryRecord) (number : Z) (source : string)
    (hook : option (ApplyStackResult → result write_error unit)) (now : time) (st : wstate (wcache R))
    : result write_error (ApplyStackResult * wstate (wcache R)) :=
  let key := Outbox.StackKey (InstallationID r) (GitHubID r) number in
  _ ← requireObservation observation key;
  entityTx cache_of ctx observation key (tombstoneStackTx r number source hook now) st.
End stacks.

(** ** Check runs *)

Definition ChecksChangedKind : string := "checks.changed".

Record CheckRunRecord : Type := mkRun {
  cr_GitHubID : Z;
  cr_NodeID : string;
  cr_Name : string;
  cr_Status : string;
  cr_Conclusion : string;
  cr_DetailsURL : string;
  cr_AppSlug : string;
  cr_StartedAt : option time;
  cr_CompletedAt : option time;
  cr_GitHubUpdatedAt : option time;
  cr_SemanticVersion : string;
  cr_Observed : string
}.

Record ChecksRecord : Type := mkChecks {
  ck_Repository : RepositoryRecord;
  ck_HeadSHA : string;
  ck_Runs : list CheckRunRecord;
  ck_ETag : string;
  ck_Source : string
}.

Section checks.
Context {R : Type}.
(** The SHA-256 digest, in hexadecimal, of the JSON object of the semantic fields. *)
Context (digest : string * string * string * string * option time * option time → string).

(** [checkSemanticVersion]. *)
Definition checkSemanticVersion (r : CheckRunRecord) : string :=
  digest (cr_Status r, cr_Conclusion r, cr_DetailsURL r, cr_AppSlug r, cr_StartedAt r, cr_CompletedAt r).

(** The loop that fills the missing semantic versions. *)
Definition with_version (r : CheckRunRecord) : CheckRunRecord :=
  if bool_decide (cr_SemanticVersion r = "") then
    mkRun (cr_GitHubID r) (cr_NodeID r) (cr_Name r) (cr_Status r) (cr_Conclusion r) (cr_DetailsURL r)
      (cr_AppSlug r) (cr_StartedAt r) (cr_CompletedAt r) (cr_GitHubUpdatedAt r)
      (checkSemanticVersion r) (cr_Observed r)
  else r.

Definition check_row_of (repoID : Z) (head etag source : string) (now : time) (r : CheckRunRecord)
    : check_full :=
  mkCheckFull repoID (cr_NodeID r) (cr_Name r) (cr_Status r) (cr_Conclusion r) (cr_DetailsURL r)
    (cr_AppSlug r) (cr_StartedAt r) (cr_CompletedAt r) (cr_GitHubUpdatedAt r) (cr_SemanticVersion r)
    head (mkProv now now etag source) None.

Definition check_semantic (c : check_full) :=
  (cf_repo_id c, cf_node_id c, cf_name c, cf_status c, cf_conclusion c, cf_details_url c,
   cf_app_slug c, cf_started_at c, cf_completed_at c, cf_semantic_version c, cf_head_sha c).

(** The write-if-newer condition that check runs and rules share. *)
Definition newer (oldAt newAt : option time) (differs : bool) (tombstone : option time)
    (checkedAt : time) : bool :=
  (bool_decide (oldAt = None) && negb (bool_decide (newAt = None)))
  || match newAt, oldAt with Some n, Some o => o <? n | _, _ => false end
  || (bool_decide (newAt = oldAt) && differs)
  || match tombstone with Some t => t <? checkedAt | None => false end.

Definition check_newer (old new : check_full) : bool :=
  newer (cf_gh_updated_at old) (cf_gh_updated_at new)
    (negb (bool_decide (check_semantic new = check_semantic old)))
    (cf_tombstoned_at old) (pv_last_checked_at (cf_prov new)).

Definition check_dead (repoID : Z) (head : string) (now : time) (c : check_full) : bool :=
  bool_decide (cf_repo_id c = repoID ∧ cf_head_sha c = head ∧ cf_tombstoned_at c = None)
  && (pv_last_checked_at (cf_prov c) <=? now).

Definition check_kill (etag source : string) (now : time) (c : check_full) : check_full :=
  mkCheckFull (cf_repo_id c) (cf_node_id c) (cf_name c) (cf_status c) (cf_conclusion c)
    (cf_details_url c) (cf_app_slug c) (cf_started_at c) (cf_completed_at c) (cf_gh_updated_at c)
    (cf_semantic_version c) (cf_head_sha c) (mkProv now now etag source) (Some now).

(** [ReplaceCheckRuns]. *)
Definition ReplaceCheckRuns (repoID : Z) (head etag source : string) (now : time)
    (runs : list CheckRunRecord) (m : gmap Z check_full) : option (list Z * gmap Z check_full) :=
  let row := check_row_of repoID head etag source now in
  replace_rows cr_GitHubID (λ _, row) (λ c r, check_newer c (row r))
    (λ _, check_dead repoID head now) (check_kill etag source now) runs m.

Definition touch_check (at_ : time) (etag : string) (c : check_full) : check_full :=
  mkCheckFull (cf_repo_id c) (cf_node_id c) (cf_name c) (cf_status c) (cf_conclusion c)
    (cf_details_url c) (cf_app_slug c) (cf_started_at c) (cf_completed_at c) (cf_gh_updated_at c)
    (cf_semantic_version c) (cf_head_sha c) (touch_prov at_ etag (cf_prov c)) (cf_tombstoned_at c).

(** [TouchCheckRunsCheckedAt]. *)
Definition TouchCheckRunsCheckedAt (at_ : time) (etag : string) (repoID : Z) (head : string)
    (m : gmap Z check_full) : gmap Z check_full :=
  (λ c, if bool_decide (cf_repo_id c = repoID ∧ cf_head_sha c = head)
        then touch_check at_ etag c else c) <$> m.

(** [AppendAcceptedCheckHistory]: the runs whose row was written by this pass. *)
Definition AppendAcceptedCheckHistory (repoID : Z) (head etag source : string) (now : time)
    (runs : list CheckRunRecord) (m : gmap Z check_full) : list history_row :=
  omap (λ r,
    match m !! cr_GitHubID r with
    | Some c =>
        if bool_decide (cf_repo_id c = repoID ∧ cf_head_sha c = head ∧
             pv_synced_at (cf_prov c) = now ∧ cf_status c = cr_Status r ∧
             cf_conclusion c = cr_Conclusion r ∧ cf_semantic_version c = cr_SemanticVersion r)
        then Some (mkHistory (cr_GitHubID r) repoID (cr_Name r) (cr_Status r) (cr_Conclusion r)
               (cr_Observed r) (cr_GitHubUpdatedAt r) (cr_SemanticVersion r) head now etag source)
        else None
    | None => None
    end) runs.

(** [ListPRScopesByHeadSHA] and the scope keys the writer makes of its rows. *)
Definition head_scopes (repo : repo_row) (head : string) (w : wcache R) : list string :=
  map (λ p, derivationScope (rp_installation_id repo) (rp_gh_id repo) (pr_number p) (pr_stack_number p))
    (merge_sort number_le
       (rows_of (filter (λ e, pr_repo_id e.2 = rp_id repo ∧ pr_head_sha e.2 = head ∧
                              pr_tombstoned_at e.2 = None) (pulls_view w)))).

(** The callback of [ApplyChecksObserved]. *)
Definition applyChecksTx (c : ChecksRecord) (now : time) (w : wcache R)
    : result write_error (bool * wcache R) :=
  let key := Outbox.ChecksKey (InstallationID (ck_Repository c)) (GitHubID (ck_Repository c))
               (ck_HeadSHA c) in
  repo ← find_repo (GitHubID (ck_Repository c)) w;
  let runs := map with_version (ck_Runs c) in
  match ReplaceCheckRuns (rp_id repo) (ck_HeadSHA c) (ck_ETag c) (ck_Source c) now runs (wc_checks w) with
  | None => Err DuplicateRow
  | Some (changed, m) =>
      let m := TouchCheckRunsCheckedAt now (ck_ETag c) (rp_id repo) (ck_HeadSHA c) m in
      let w1 := set_history (wc_history w ++ AppendAcceptedCheckHistory (rp_id repo) (ck_HeadSHA c)
                  (ck_ETag c) (ck_Source c) now runs m) (set_checks m w) in
      let applied := negb (bool_decide (changed = [])) in
      Ok (applied,
          if applied then
            mark_emit (uniqueStrings (head_scopes repo (ck_HeadSHA c) w1)) ChecksChangedKind key now w1
          else w1)
  end.

Definition ApplyChecksObserved (ctx : fences) (observation : option Observation) (c : ChecksRecord)
    (now : time) (st : wstate (wcache R)) : result write_error (bool * wstate (wcache R)) :=
  let key := Outbox.ChecksKey (InstallationID (ck_Repository c)) (GitHubID (ck_Repository c))
               (ck_HeadSHA c) in
  if negb (SyncSource_Valid (ck_Source c)) || (GitHubID (ck_Repository c) <=? 0)
     || bool_decide (ck_HeadSHA c = "")
  then Err InvalidChecksRecord
  else
    _ ← requireObservation observation key;
    entityTx cache_of ctx observation key (applyChecksTx c now) st.

(** [TouchChecks]. *)
Definition TouchChecks (ctx : fences) (observation : option Observation) (r : RepositoryRecord)
    (head etag : string) (now : time) (st : wstate (wcache R)) : result write_error (unit * wstate (wcache R)) :=
  let key := Outbox.ChecksKey (InstallationID r) (GitHubID r) head in
  _ ← requireObservation observation key;
  entityTx cache_of ctx observation key
    (λ w, repo ← find_repo (GitHubID r) w;
          Ok (tt, set_checks (TouchCheckRunsCheckedAt now etag (rp_id repo) head (wc_checks w)) w)) st.
End checks.

(** ** Repository rules *)

Definition RepoRulesChangedKind : string := "repo_rules.changed".

Section rules.
Context {R : Type} `{EqDecision R}.

Record RepoRuleRecord : Type := mkRuleRecord {
  rr_Key : string;
  rr_Rule : R;
  rr_GitHubUpdatedAt : option time;
  rr_HeadSHA : string
}.

Record RepoRulesRecord : Type := mkRules {
  rs_Repository : RepositoryRecord;
  rs_Rules : list RepoRuleRecord;
  rs_ETag : string;
  rs_SyncedAt : time;
  rs_Source : string
}.

Definition rule_row_of (etag source : string) (now : time) (r : RepoRuleRecord) : rule_full R :=
  mkRuleFull (rr_Rule r) (rr_GitHubUpdatedAt r) (rr_HeadSHA r) (mkProv now now etag source) None.

Definition rule_newer (old new : rule_full R) : bool :=
  newer (rf_gh_updated_at old) (rf_gh_updated_at new)
    (negb (bool_decide ((rf_rule new, rf_head_sha new) = (rf_rule old, rf_head_sha old))))
    (rf_tombstoned_at old) (pv_last_checked_at (rf_prov new)).

Definition rule_kill (etag source : string) (now : time) (u : rule_full R) : rule_full R :=
  mkRuleFull (rf_rule u) (rf_gh_updated_at u) (rf_head_sha u) (mkProv now now etag source) (Some now).

(** [ReplaceRepoRules]. *)
Definition ReplaceRepoRules (repoID : Z) (etag source : string) (now : time)
    (rules : list RepoRuleRecord) (m : gmap (Z * string) (rule_full R))
    : option (list (Z * string) * gmap (Z * string) (rule_full R)) :=
  let row := rule_row_of etag source now in
  replace_rows (λ r, (repoID, rr_Key r)) (λ _, row) (λ u r, rule_newer u (row r))
    (λ k u, bool_decide (k.1 = repoID ∧ rf_tombstoned_at u = None) && (pv_last_checked_at (rf_prov u) <=? now))
    (rule_kill etag source now) rules m.

(** [TouchRepoRulesCheckedAt]. *)
Definition touch_rule (at_ : time) (u : rule_full R) : rule_full R :=
  mkRuleFull (rf_rule u) (rf_gh_updated_at u) (rf_head_sha u) (touch_prov at_ "" (rf_prov u))
    (rf_tombstoned_at u).

Definition TouchRepoRulesCheckedAt (at_ : time) (repoID : Z) (m : gmap (Z * string) (rule_full R))
    : gmap (Z * string) (rule_full R) :=
  map_imap (λ k u, Some (if bool_decide (k.1 = repoID) then touch_rule at_ u else u)) m.

(** [UpsertRepoRuleSyncState]. *)
Definition UpsertRepoRuleSyncState (repoID : Z) (etag : string) (at_ : time)
    (m : gmap Z (string * time)) : gmap Z (string * time) :=
  <[repoID := match m !! repoID with
              | None => (etag, at_)
              | Some (old, checked) =>
                  (if bool_decide (etag = "") then old else etag, Z.max checked at_)
              end]> m.

(** The two statements that record a check of the rules. *)
Definition check_rules (etag : string) (at_ : time) (repoID : Z) (w : wcache R) : wcache R :=
  let w := set_rules (TouchRepoRulesCheckedAt at_ repoID (wc_rules w)) w in
  set_rule_sync (UpsertRepoRuleSyncState repoID etag at_ (wc_rule_sync w)) w.

(** The callback of [ApplyRepoRulesObserved]. *)
Definition applyRepoRulesTx (r : RepoRulesRecord) (now : time) (w : wcache R)
    : result write_error (bool * wcache R) :=
  let key := Outbox.RepoRulesKey (InstallationID (rs_Repository r)) (GitHubID (rs_Repository r)) in
  repo ← find_repo (GitHubID (rs_Repository r)) w;
  match ReplaceRepoRules (rp_id repo) (rs_ETag r) (rs_Source r) now (rs_Rules r) (wc_rules w) with
  | None => Err DuplicateRow
  | Some (changed, m) =>
      let w1 := check_rules (rs_ETag r) now (rp_id repo) (set_rules m w) in
      let applied := negb (bool_decide (changed = [])) in
      Ok (applied,
          if applied then
            mark_emit (ListRepositoryDerivationScopes (cache_of w1) repo) RepoRulesChangedKind key now w1
          else w1)
  end.

Definition ApplyRepoRulesObserved (ctx : fences) (observation : option Observation)
    (r : RepoRulesRecord) (now : time) (st : wstate (wcache R)) : result write_error (bool * wstate (wcache R)) :=
  let key := Outbox.RepoRulesKey (InstallationID (rs_Repository r)) (GitHubID (rs_Repository r)) in
  if negb (SyncSource_Valid (rs_Source r)) || (GitHubID (rs_Repository r) <=? 0) || IsZero (rs_SyncedAt r)
  then Err InvalidRepoRulesRecord
  else
    _ ← requireObservation observation key;
    entityTx cache_of ctx observation key (applyRepoRulesTx r now) st.

(** [TouchRepoRules]. *)
Definition TouchRepoRules (ctx : fences) (observation : option Observation) (r : RepositoryRecord)
    (etag : string) (now : time) (st : wstate (wcache R)) : result write_error (unit * wstate (wcache R)) :=
  let key := Outbox.RepoRulesKey (InstallationID r) (GitHubID r) in
  _ ← requireObservation observation key;
  entityTx cache_of ctx observation key
    (λ w, repo ← find_repo (GitHubID r) w; Ok (tt, check_rules etag now (rp_id repo) w)) st.
End rules.

(** ** Lemmas on replacement *)

Section replace_lemmas.
Context {K V X : Type} `{Countable K}.
Context (key : X → K) (row : option V → X → V) (accept : V → X → bool).
Context (dead : K → V → bool) (kill : V → V).

(** A key is written once, so an input that names a written key fails. *)
Lemma upsert_rows_once input : ∀ written m r k,
  upsert_rows key row accept written input m = Some r → k ∈ written → k ∉ map key input.
Proof.
  induction input as [|x input IH]; intros written m r k Hu Hk; cbn in *; [apply not_elem_of_nil|].
  case_bool_decide as Hx; [done|]. rewrite not_elem_of_cons.
  split; [by intros ->|]. repeat case_match; eapply IH; try exact Hu; set_solver.
Qed.

(** Rows that the input does not name stay; a row it names is written, or kept
    because it is not older. *)
Lemma upsert_rows_other input : ∀ written m written' m' k,
  upsert_rows key row accept written input m = Some (written', m') → k ∉ map key input →
  m' !! k = m !! k.
Proof.
  induction input as [|x input IH]; intros written m written' m' k Hu Hk; cbn in *; [congruence|].
  case_bool_decide as Hx; [done|]. apply not_elem_of_cons in Hk as [Hne Hk].
  repeat case_match; (rewrite (IH _ _ _ _ _ Hu Hk); [|done..]); by rewrite ?lookup_insert_ne.
Qed.

Lemma upsert_rows_mono input : ∀ written m written' m',
  upsert_rows key row accept written input m = Some (written', m') → written ⊆ written'.
Proof.
  induction input as [|x input IH]; intros written m written' m' Hu; cbn in *; [by simplify_eq|].
  case_bool_decide as Hx; [done|]. repeat case_match; apply IH in Hu; set_solver.
Qed.

Lemma upsert_rows_input input : ∀ written m written' m' k,
  upsert_rows key row accept written input m = Some (written', m') → k ∈ map key input →
  ∃ x, x ∈ input ∧ key x = k ∧
    (k ∈ written' ∧ m' !! k = Some (row (m !! k) x) ∧ (∀ v, m !! k = Some v → accept v x = true) ∨
     ∃ v, m !! k = Some v ∧ accept v x = false ∧ m' !! k = Some v).
Proof.
  induction input as [|x input IH]; intros written m written' m' k Hu Hk; [by apply elem_of_nil in Hk|].
  cbn in Hu. case_bool_decide as Hx; [done|].
  assert (Hput : (∀ v, m !! key x = Some v → accept v x = true) →
    upsert_rows key row accept ({[key x]} ∪ written) input (<[key x := row (m !! key x) x]> m)
    = Some (written', m') → ∃ y, y ∈ x :: input ∧ key y = k ∧
    (k ∈ written' ∧ m' !! k = Some (row (m !! k) y) ∧ (∀ v, m !! k = Some v → accept v y = true) ∨
     ∃ v, m !! k = Some v ∧ accept v y = false ∧ m' !! k = Some v)).
  { intros Hacc Hp. destruct (decide (key x = k)) as [<-|Hne].
    - exists x. split; [by left|]. split; [done|]. left.
      split; [apply upsert_rows_mono in Hp; set_solver|]. split; [|done].
      rewrite (upsert_rows_other _ _ _ _ _ _ Hp); [by rewrite lookup_insert_eq|].
      eapply upsert_rows_once; [exact Hp|set_solver].
    - apply elem_of_cons in Hk as [->|Hk]; [done|].
      destruct (IH _ _ _ _ k Hp Hk) as (y & Hy & Hky & Hcase). exists y. split; [by right|].
      by rewrite lookup_insert_ne in Hcase. }
  destruct (m !! key x) as [v|] eqn:Hm; [|by apply Hput].
  destruct (accept v x) eqn:Ha; [apply Hput; [by intros ? [= <-]|done]|].
  destruct (decide (k ∈ map key input)) as [Hin|Hout].
  - destruct (IH _ _ _ _ k Hu Hin) as (y & Hy & Hrest). exists y. by split; [right|].
  - cbn in Hk. apply elem_of_cons in Hk as [->|?]; [|done]. exists x. split; [by left|].
    split; [done|]. right. exists v. split; [done|]. split; [done|].
    by rewrite (upsert_rows_other _ _ _ _ _ _ Hu).
Qed.

(** The keys that the upserts report. *)
Lemma upsert_rows_written input : ∀ written m written' m' k,
  upsert_rows key row accept written input m = Some (written', m') → k ∈ written' →
  k ∈ written ∨ ∃ x, x ∈ input ∧ key x = k ∧ ∀ v, m !! k = Some v → accept v x = true.
Proof.
  induction input as [|x input IH]; intros written m written' m' k Hu Hk; cbn in Hu.
  { injection Hu as <- _. by left. }
  case_bool_decide as Hx; [done|].
  assert (Hput : (∀ v, m !! key x = Some v → accept v x = true) →
    upsert_rows key row accept ({[key x]} ∪ written) input (<[key x := row (m !! key x) x]> m)
    = Some (written', m') →
    k ∈ written ∨ ∃ y, y ∈ x :: input ∧ key y = k ∧ ∀ v, m !! k = Some v → accept v y = true).
  { intros Hacc Hp. destruct (decide (key x = k)) as [<-|Hne].
    - right. exists x. by split; [left|].
    - destruct (IH _ _ _ _ k Hp Hk) as [Hw|(y & Hy & Hky & Hacc')]; [left; set_solver|right].
      exists y. rewrite lookup_insert_ne in Hacc' by done. by split; [right|]. }
  destruct (m !! key x) as [v|] eqn:Hm; [|by apply Hput].
  destruct (accept v x) eqn:Ha; [apply Hput; [by intros ? [= <-]|done]|].
  destruct (IH _ _ _ _ k Hu Hk) as [Hw|(y & Hy & Hky & Hacc)]; [by left|right].
  exists y. by split; [right|].
Qed.

(** With distinct keys no row is written twice. *)
Lemma upsert_rows_total input : ∀ written m,
  NoDup (map key input) → (∀ k, k ∈ map key input → k ∉ written) →
  is_Some (upsert_rows key row accept written input m).
Proof.
  induction input as [|x input IH]; intros written m Hnd Hdis; cbn; [done|].
  cbn in *. apply NoDup_cons in Hnd as [Hx Hnd]. rewrite bool_decide_eq_false_2 by (apply Hdis; by left).
  repeat case_match; apply IH; try done; intros k Hk; set_solver.
Qed.

Lemma replace_rows_total input m : NoDup (map key input) →
  is_Some (replace_rows key row accept dead kill input m).
Proof.
  intros Hnd. destruct (upsert_rows_total input ∅ m Hnd) as [[written m'] Hu]; [set_solver|].
  unfold replace_rows. rewrite Hu. cbn. by eexists.
Qed.

Lemma replace_rows_input input m changed m' k :
  replace_rows key row accept dead kill input m = Some (changed, m') → k ∈ map key input →
  ∃ x, x ∈ input ∧ key x = k ∧
    (k ∈ changed ∧ m' !! k = Some (row (m !! k) x) ∧ (∀ v, m !! k = Some v → accept v x = true) ∨
     ∃ v, m !! k = Some v ∧ accept v x = false ∧ m' !! k = Some v).
Proof.
  unfold replace_rows. intros Hr Hk. apply bind_Some in Hr as ([written m1] & Hu & [= <- <-]).
  rewrite lookup_union, lookup_fmap.
  replace (killed key dead input m !! k) with (@None V).
  - change (kill <$> None) with (@None V). rewrite (left_id_L None (∪)).
    destruct (upsert_rows_input _ _ _ _ _ _ Hu Hk) as (x & Hx & Hkx & [(Hw & Hm & Ha)|Hkeep]);
      exists x; (split; [done|]; split; [done|]); [left|by right].
    split; [|done]. apply elem_of_app. left. by apply elem_of_elements.
  - symmetry. apply map_lookup_filter_None. right. intros v _ [_ Hno]. by apply Hno.
Qed.

Lemma replace_rows_other input m changed m' k :
  replace_rows key row accept dead kill input m = Some (changed, m') → k ∉ map key input →
  m' !! k = (λ v, if dead k v then kill v else v) <$> m !! k ∧
  ∀ v, m !! k = Some v → dead k v = true → k ∈ changed.
Proof.
  unfold replace_rows. intros Hr Hk. apply bind_Some in Hr as ([written m1] & Hu & [= <- <-]).
  assert (Hkilled : killed key dead input m !! k =
    v ← m !! k; if dead k v then Some v else None).
  { unfold killed. rewrite map_lookup_filter. destruct (m !! k) as [v|]; [|done]. cbn.
    destruct (dead k v) eqn:Hd; [by rewrite option_guard_True|].
    by rewrite option_guard_False by (intros [? _]; done). }
  split.
  - rewrite lookup_union, lookup_fmap, Hkilled, (upsert_rows_other _ _ _ _ _ _ Hu Hk).
    destruct (m !! k) as [v|]; [|done]. cbn. by destruct (dead k v).
  - intros v Hv Hd. apply elem_of_app. right. apply list_elem_of_fmap. exists (k, v).
    split; [done|]. apply elem_of_map_to_list. by rewrite Hkilled, Hv; cbn; rewrite Hd.
Qed.

(** A row after a replacement: unchanged, written from the input, or tombstoned;
    the last two are reported. *)
Lemma replace_rows_spec input m changed m' :
  replace_rows key row accept dead kill input m = Some (changed, m') →
  ∀ k, m' !! k = m !! k ∨
    k ∈ changed ∧ ((∃ x, x ∈ input ∧ key x = k ∧ m' !! k = Some (row (m !! k) x)) ∨
                   (∃ v, m !! k = Some v ∧ dead k v = true ∧ m' !! k = Some (kill v))).
Proof.
  intros Hr k. destruct (decide (k ∈ map key input)) as [Hin|Hout].
  - destruct (replace_rows_input _ _ _ _ _ Hr Hin) as (x & Hx & Hkx & [(Hc & Hm & _)|(v & Hv & _ & Hm)]).
    + right. split; [done|]. left. by exists x.
    + left. congruence.
  - destruct (replace_rows_other _ _ _ _ _ Hr Hout) as [Hm Hc]. rewrite Hm.
    destruct (m !! k) as [v|]; [|by left]. cbn.
    destruct (dead k v) eqn:Hd; [right|by left]. split; [by eapply Hc|]. right. by exists v.
Qed.

Lemma replace_rows_unchanged input m m' :
  replace_rows key row accept dead kill input m = Some ([], m') → m' = m.
Proof.
  intros Hr. apply map_eq. intros k.
  destruct (replace_rows_spec _ _ _ _ Hr k) as [?|[[]%elem_of_nil _]]. done.
Qed.
End replace_lemmas.

(** ** The marking contract *)

(** The time of the last check and the entity tag are no input of a derivation. *)
Definition erase_prov (p : provenance) : provenance :=
  mkProv (pv_synced_at p) 0 "" (pv_sync_source p).

Definition erase_doc {R} (d : doc R) : doc R :=
  match d with
  | StackDoc n s =>
      StackDoc n (mkStackFull (sf_gh_id s) (sf_node_id s) (sf_base_ref s) (sf_base_sha s) (sf_open s)
        (sf_entries s) (sf_gh_updated_at s) (sf_head_sha s) (erase_prov (sf_prov s))
        (sf_tombstoned_at s) (sf_display_until s))
  | CheckDoc i c =>
      CheckDoc i (mkCheckFull (cf_repo_id c) (cf_node_id c) (cf_name c) (cf_status c) (cf_conclusion c)
        (cf_details_url c) (cf_app_slug c) (cf_started_at c) (cf_completed_at c) (cf_gh_updated_at c)
        (cf_semantic_version c) (cf_head_sha c) (erase_prov (cf_prov c)) (cf_tombstoned_at c))
  | RuleDoc k u =>
      RuleDoc k (mkRuleFull (rf_rule u) (rf_gh_updated_at u) (rf_head_sha u) (erase_prov (rf_prov u))
        (rf_tombstoned_at u))
  | PullDoc p =>
      PullDoc (mkPullFull (pf_repo_id p) (pf_gh_id p) (pf_node_id p) (pf_number p) (pf_title p)
        (pf_state p) (pf_draft p) (pf_author_login p) (pf_head_ref p) (pf_head_sha p) (pf_base_ref p)
        (pf_base_sha p) (pf_review_decision p) (pf_mergeable_state p) (pf_stack_number p)
        (pf_stack_position p) (pf_gh_updated_at p) (erase_prov (pf_prov p)) (pf_tombstoned_at p)
        (pf_display_until p))
  | ThreadDoc i t =>
      ThreadDoc i (mkThreadFull (tf_repo_id t) (tf_pr_number t) (tf_is_resolved t) (tf_is_outdated t)
        (tf_path t) (tf_line t) (tf_comments t) (tf_gh_updated_at t) (tf_head_sha t)
        (erase_prov (tf_prov t)) (tf_tombstoned_at t))
  end.

Definition erase_pull {R} (p : pull_row (J := doc R)) : pull_row (J := doc R) :=
  mkPull (pr_repo_id p) (pr_number p) (pr_stack_number p) (pr_head_sha p) (pr_tombstoned_at p)
    (erase_doc (pr_columns p)).

Definition erase_thread {R} (t : thread_row (J := doc R)) : thread_row (J := doc R) :=
  mkThread (th_id t) (th_repo_id t) (th_pr_number t) (th_head_sha t) (th_tombstoned_at t)
    (erase_doc (th_columns t)).

Definition erase_tables {R} (t : tables (doc R)) : tables (doc R) :=
  mkTables (t_repos t) (erase_pull <$> t_pulls t)
    ((λ s, mkStack (sk_repo_id s) (sk_number s) (sk_tombstoned_at s) (erase_doc (sk_columns s))) <$> t_stacks t)
    (erase_thread <$> t_threads t)
    ((λ c, mkCheck (ch_gh_id c) (ch_repo_id c) (ch_head_sha c) (ch_tombstoned_at c)
             (erase_doc (ch_columns c))) <$> t_checks t)
    ((λ u, mkRule (ru_repo_id u) (ru_rule_key u) (ru_tombstoned_at u) (erase_doc (ru_columns u))) <$> t_rules t).

(** A deriver that ignores when a row was last checked, and that has nothing to say
    of a scope without a stack and without pull requests. *)
Class DerivesFromDomain {R} (derive_scope : ScopeSnapshot (doc R) → list WorkItem) : Prop := {
  derive_erased t t' p :
    scope_view (erase_tables t) p = scope_view (erase_tables t') p →
    derive_scope (scope_view t p) = derive_scope (scope_view t' p);
  derive_empty sc :
    sd_stack (ss_Data sc) = None → sd_pull_requests (ss_Data sc) = [] → derive_scope sc = []
}.

(** What the schema and the key columns guarantee of a cache. *)
Record wcache_ok {R} (w : wcache R) : Prop := {
  wk_repo : ∀ g r, repos (base w) !! g = Some r →
    rp_gh_id r = g ∧ 0 < g < 2 ^ 63 ∧ 0 < rp_installation_id r < 2 ^ 63;
  wk_repo_id : ∀ g g' r r', repos (base w) !! g = Some r → repos (base w) !! g' = Some r' →
    rp_id r = rp_id r' → g = g';
  wk_pull : ∀ k p, pulls_view w !! k = Some p → k = (pr_repo_id p, pr_number p) ∧
    0 < pr_number p < 2 ^ 31 ∧ ∀ n, pr_stack_number p = Some n → 0 < n < 2 ^ 31;
  wk_stack : ∀ r n s, wc_stacks w !! (r, n) = Some s → 0 < n < 2 ^ 31
}.

(** Pull requests of a repository are members of live stacks only. *)
Definition members_live {R} (w : wcache R) (repo : repo_row) : Prop :=
  ∀ k p n, pulls_view w !! k = Some p → pr_repo_id p = rp_id repo → pr_tombstoned_at p = None →
    pr_stack_number p = Some n →
    ∃ s, wc_stacks w !! (rp_id repo, n) = Some s ∧ sf_tombstoned_at s = None.

Section contract.
Context {R : Type} `{EqDecision R}.
Context (digest : string * string * string * string * option time * option time → string).

(** The callbacks of the writers, as they run on an observed entity. *)
Inductive cache_write (now : time) (w : wcache R) : wcache R → Prop :=
  | write_stack s hook repo result w' :
      applyStackTx s hook now w = Ok (result, w') →
      repos (base w) !! GitHubID (sr_Repository s) = Some repo →
      rp_installation_id repo = InstallationID (sr_Repository s) → 0 < sr_Number s < 2 ^ 31 →
      cache_write now w w'
  | tombstone_stack r number source hook repo result w' :
      tombstoneStackTx r number source hook now w = Ok (result, w') →
      repos (base w) !! GitHubID r = Some repo →
      rp_installation_id repo = InstallationID r → 0 < number < 2 ^ 31 →
      cache_write now w w'
  | touch_stack_write repoID number etag :
      cache_write now w (set_stacks (TouchStackCheckedAt now etag repoID number (wc_stacks w)) w)
  | write_checks c repo applied w' :
      applyChecksTx digest c now w = Ok (applied, w') →
      repos (base w) !! GitHubID (ck_Repository c) = Some repo →
      (** A check run belongs to one commit. *)
      (∀ r row, r ∈ ck_Runs c → wc_checks w !! cr_GitHubID r = Some row →
         cf_repo_id row = rp_id repo ∧ cf_head_sha row = ck_HeadSHA c) →
      cache_write now w w'
  | touch_checks_write repoID head etag :
      cache_write now w (set_checks (TouchCheckRunsCheckedAt now etag repoID head (wc_checks w)) w)
  | write_rules r repo applied w' :
      applyRepoRulesTx r now w = Ok (applied, w') →
      repos (base w) !! GitHubID (rs_Repository r) = Some repo → members_live w repo →
      cache_write now w w'
  | touch_rules_write repoID etag :
      cache_write now w (check_rules etag now repoID w).
End contract.

Section view.
Context {R : Type}.

Lemma stacks_lookup (w : wcache R) r n :
  t_stacks (tables_of w) !! (r, n) =
    (λ s, mkStack r n (sf_tombstoned_at s) (StackDoc n s)) <$> wc_stacks w !! (r, n).
Proof. cbn. rewrite map_lookup_imap. by destruct (wc_stacks w !! (r, n)). Qed.

Lemma checks_lookup (w : wcache R) i :
  t_checks (tables_of w) !! i =
    (λ c, mkCheck i (cf_repo_id c) (cf_head_sha c) (cf_tombstoned_at c) (CheckDoc i c))
      <$> wc_checks w !! i.
Proof. cbn. rewrite map_lookup_imap. by destruct (wc_checks w !! i). Qed.

Lemma rules_lookup (w : wcache R) r k :
  t_rules (tables_of w) !! (r, k) =
    (λ u, mkRule r k (rf_tombstoned_at u) (RuleDoc k u)) <$> wc_rules w !! (r, k).
Proof. cbn. rewrite map_lookup_imap. by destruct (wc_rules w !! (r, k)). Qed.

(** Two caches that differ only in rows a scope does not select have one view. *)
Lemma view_ext_rows (t t' : tables (doc R)) p :
  t_repos t = t_repos t' →
  (∀ repo, scope_repo t p = Some repo →
     selected_prs (erase_tables t) p repo = selected_prs (erase_tables t') p repo ∧
     scope_threads (erase_tables t) (selected_prs (erase_tables t) p repo) =
       scope_threads (erase_tables t') (selected_prs (erase_tables t) p repo) ∧
     scope_stack (erase_tables t) p repo = scope_stack (erase_tables t') p repo ∧
     scope_checks (erase_tables t) (selected_prs (erase_tables t) p repo) =
       scope_checks (erase_tables t') (selected_prs (erase_tables t) p repo) ∧
     scope_rules (erase_tables t) repo = scope_rules (erase_tables t') repo) →
  scope_view (erase_tables t) p = scope_view (erase_tables t') p.
Proof.
  intros Hr Hrest. unfold scope_view.
  assert (Hrepo : scope_repo (erase_tables t') p = scope_repo t p)
    by (unfold scope_repo; cbn; by rewrite Hr).
  rewrite Hrepo. change (scope_repo (erase_tables t) p) with (scope_repo t p).
  destruct (scope_repo t p) as [repo|]; [|done].
  destruct (Hrest repo eq_refl) as (Hsel & Hth & Hs & Hc & Hu). by rewrite <- Hsel, Hth, Hs, Hc, Hu.
Qed.

Lemma view_ext (t t' : tables (doc R)) p :
  t_repos t = t_repos t' → t_pulls t = t_pulls t' → t_threads t = t_threads t' →
  (∀ repo, scope_repo t p = Some repo →
     scope_stack (erase_tables t) p repo = scope_stack (erase_tables t') p repo ∧
     scope_checks (erase_tables t) (selected_prs (erase_tables t) p repo) =
       scope_checks (erase_tables t') (selected_prs (erase_tables t) p repo) ∧
     scope_rules (erase_tables t) repo = scope_rules (erase_tables t') repo) →
  scope_view (erase_tables t) p = scope_view (erase_tables t') p.
Proof.
  intros Hr Hp Hth Hrest. apply view_ext_rows; [done|]. intros repo Hrepo.
  split; [unfold selected_prs; cbn; by rewrite Hp|]. split; [|by apply Hrest].
  unfold scope_threads. cbn. by rewrite Hth.
Qed.

(** Rows that a condition rejects do not matter to a filter. *)
Lemma filter_map_ext {K V} `{Countable K} (P : K * V → Prop) `{∀ e, Decision (P e)} (m m' : gmap K V) :
  (∀ k, m !! k = m' !! k ∨
        (∀ v, m !! k = Some v → ¬ P (k, v)) ∧ (∀ v, m' !! k = Some v → ¬ P (k, v))) →
  filter P m = filter P m'.
Proof.
  intros Hext. apply map_eq. intros k. apply option_eq. intros v. rewrite !map_lookup_filter_Some.
  destruct (Hext k) as [->|[H1 H2]]; [done|]. split; intros [Hm HP]; [by destruct (H1 v Hm)|by destruct (H2 v Hm)].
Qed.
End view.

Section marks.
Context {R : Type} `{EqDecision R}.
Context (derive_scope : ScopeSnapshot (doc R) → list WorkItem) (DD : DerivesFromDomain derive_scope).

(** What [Derive.step_write] asks of a cache write. *)
Definition keeps_contract (now : time) (w w' : wcache R) : Prop :=
  ∃ marks, derivation_dirty (base w') = MarkDerivationDirty now marks (derivation_dirty (base w)) ∧
    Forall canonical marks ∧ marks_cover derive_scope (tables_of w) (tables_of w') marks.

(** A scope of a live repository that is not the marked one. *)
Lemma scope_key_parts k p : canonical k → parseScope k = Ok p →
  k = scope_key_of p ∧ (Kind p = "stack" ∨ Kind p = "pr").
Proof.
  intros (p' & Hp' & Hk & _) Hp. assert (p' = p) as -> by congruence.
  split; [done|]. by apply parseScope_range in Hp as (_ & ? & _).
Qed.

Lemma canonical_stack i r n : 0 < i < 2 ^ 63 → 0 < r < 2 ^ 63 → 0 < n < 2 ^ 31 →
  canonical (Outbox.StackKey i r n).
Proof.
  intros Hi Hr Hn. exists (ParsedScope (Outbox.StackKey i r n) "stack" i r n).
  split; [|split; [done|cbn; lia]].
  apply parseScope_key; [done|by left|unfold in_int64; lia..].
Qed.

Lemma canonical_pull i r n : 0 < i < 2 ^ 63 → 0 < r < 2 ^ 63 → 0 < n < 2 ^ 31 →
  canonical (Outbox.PullRequestKey i r n).
Proof.
  intros Hi Hr Hn. exists (ParsedScope (Outbox.PullRequestKey i r n) "pr" i r n).
  split; [|split; [done|cbn; lia]].
  apply parseScope_key; [done|by right|unfold in_int64; lia..].
Qed.

(** The repository of a scope, in the writers' tables. *)
Lemma scope_repo_of (w : wcache R) p repo : wcache_ok w → scope_repo (tables_of w) p = Some repo →
  repos (base w) !! RepositoryID p = Some repo ∧ rp_installation_id repo = Installation p ∧
  rp_gh_id repo = RepositoryID p.
Proof.
  intros Hok Hr. apply scope_repo_installation in Hr as [Hr Hi]. cbn in Hr.
  destruct (wk_repo _ Hok _ _ Hr) as (Hg & _). done.
Qed.

(** Stack rows may change at one key only, or in what derivations ignore. *)
Lemma stacks_contract now (w w' : wcache R) repo n marked :
  wcache_ok w → repos (base w) !! rp_gh_id repo = Some repo → 0 < n < 2 ^ 31 →
  repos (base w') = repos (base w) → wc_pulls w' = wc_pulls w → wc_threads w' = wc_threads w →
  wc_checks w' = wc_checks w → wc_rules w' = wc_rules w →
  (∀ k, wc_stacks w' !! k = wc_stacks w !! k ∨ k = (rp_id repo, n)) →
  (marked = false →
     (λ s, erase_doc (StackDoc n s)) <$> wc_stacks w' !! (rp_id repo, n) =
     (λ s, erase_doc (StackDoc (R := R) n s)) <$> wc_stacks w !! (rp_id repo, n)) →
  derivation_dirty (base w') =
    MarkDerivationDirty now
      (if marked then [Outbox.StackKey (rp_installation_id repo) (rp_gh_id repo) n] else [])
      (derivation_dirty (base w)) →
  keeps_contract now w w'.
Proof.
  intros Hok Hrepo Hn Hrs Hps Hths Hcs Hrls Hstacks Hsame Hdirty.
  exists (if marked then [Outbox.StackKey (rp_installation_id repo) (rp_gh_id repo) n] else []).
  split; [done|]. destruct (wk_repo _ Hok _ _ Hrepo) as (_ & Hg & Hi).
  split; [destruct marked; repeat constructor; by apply canonical_stack|].
  intros k p Hk Hp. destruct (scope_key_parts k p Hk Hp) as [Hkey Hkind].
  destruct (decide (marked = true ∧ k = Outbox.StackKey (rp_installation_id repo) (rp_gh_id repo) n))
    as [[-> ->]|Hother]; [left; by left|right].
  apply derive_erased. apply view_ext; cbn; unfold pulls_view; [congruence|congruence|congruence|].
  intros repo' Hr'. apply (scope_repo_of w' p repo') in Hr' as (Hr' & Hi' & Hg').
  2: { destruct Hok. split; unfold pulls_view; rewrite ?Hrs, ?Hps; try done. intros r m s Hs.
       destruct (Hstacks (r, m)) as [Heq|[= -> ->]]; [rewrite Heq in Hs; eauto|done]. }
  split; [|split].
  - unfold scope_stack. case_bool_decide as Hst; [|done].
    cbn [t_stacks erase_tables]. rewrite !lookup_fmap, !stacks_lookup.
    destruct (decide ((rp_id repo', Number p) = (rp_id repo, n))) as [[= Hid Hnum]|Hne].
    + assert (RepositoryID p = rp_gh_id repo) as Heq.
      { eapply (wk_repo_id _ Hok); [rewrite <- Hrs; exact Hr'|exact Hrepo|done]. }
      assert (repo' = repo) as -> by (rewrite Hrs, Heq in Hr'; congruence).
      destruct marked.
      * destruct Hother. split; [done|]. rewrite Hkey. unfold scope_key_of, Outbox.StackKey.
        by rewrite Hst, Hi', Hg', Hnum.
      * specialize (Hsame eq_refl). rewrite Hnum.
        destruct (wc_stacks w' !! (rp_id repo, n)) as [s'|], (wc_stacks w !! (rp_id repo, n)) as [s|];
          try discriminate Hsame; [|done].
        apply (inj Some) in Hsame. cbn [fmap option_fmap option_map].
        assert (sf_tombstoned_at s' = sf_tombstoned_at s) as Ht
          by exact (f_equal (λ d, match d with StackDoc _ s => sf_tombstoned_at s | _ => None end) Hsame).
        cbn [sk_repo_id sk_number sk_tombstoned_at sk_columns].
        by rewrite Ht, Hsame.
    + destruct (Hstacks (rp_id repo', Number p)) as [->|?]; [done|congruence].
  - unfold scope_checks. cbn. by rewrite Hcs.
  - unfold scope_rules. cbn. by rewrite Hrls.
Qed.

(** A selected pull request is live, in the repository, and names the scope. *)
Lemma selected_scope (t : tables (doc R)) p repo pr : (Kind p = "stack" ∨ Kind p = "pr") →
  pr ∈ selected_prs t p repo →
  (∃ k, t_pulls t !! k = Some pr) ∧ pr_repo_id pr = rp_id repo ∧ pr_tombstoned_at pr = None ∧
  (Kind p = "stack" ∧ pr_stack_number pr = Some (Number p) ∨
   Kind p = "pr" ∧ pr_stack_number pr = None ∧ pr_number pr = Number p).
Proof.
  intros Hkind Hin. unfold selected_prs in Hin. rewrite merge_sort_Permutation in Hin.
  unfold rows_of in Hin. apply list_elem_of_fmap in Hin as ([k pr'] & -> & Hin).
  apply elem_of_map_to_list, map_lookup_filter_Some in Hin as [Hk Hs]. cbn in *.
  unfold selects in Hs. apply andb_true_iff in Hs as [Hs1 Hs2]. to_props.
  destruct Hs1 as [Hid Hlive]. split; [by exists k|]. split; [done|]. split; [done|].
  case_if_in Hs2; to_props; [by left|right]. by destruct Hs2 as (? & ? & ?).
Qed.

Lemma repo_of_id (w : wcache R) repo p repo' : wcache_ok w →
  repos (base w) !! rp_gh_id repo = Some repo → scope_repo (tables_of w) p = Some repo' →
  rp_id repo' = rp_id repo → repo' = repo.
Proof.
  intros Hok Hrepo Hr Hid. apply scope_repo_of in Hr as (Hr & _ & Hg); [|done].
  rewrite <- Hg in Hr. pose proof (wk_repo_id _ Hok _ _ _ _ Hr Hrepo Hid) as Heq. congruence.
Qed.

Lemma scope_key_stack k p repo : k = scope_key_of p → Kind p = "stack" →
  rp_installation_id repo = Installation p → rp_gh_id repo = RepositoryID p →
  k = Outbox.StackKey (rp_installation_id repo) (rp_gh_id repo) (Number p).
Proof. intros -> Hk Hi Hg. unfold scope_key_of, Outbox.StackKey. by rewrite Hk, Hi, Hg. Qed.

Lemma scope_key_pull k p repo : k = scope_key_of p → Kind p = "pr" →
  rp_installation_id repo = Installation p → rp_gh_id repo = RepositoryID p →
  k = Outbox.PullRequestKey (rp_installation_id repo) (rp_gh_id repo) (Number p).
Proof. intros -> Hk Hi Hg. unfold scope_key_of, Outbox.PullRequestKey. by rewrite Hk, Hi, Hg. Qed.

Lemma canonical_nonempty k : canonical k → k ≠ "".
Proof. intros (p & Hp & _) ->. by vm_compute in Hp. Qed.

Lemma head_scopes_canonical (w : wcache R) repo head : wcache_ok w →
  repos (base w) !! rp_gh_id repo = Some repo →
  Forall canonical (uniqueStrings (head_scopes repo head w)).
Proof.
  intros Hok Hrepo. destruct (wk_repo _ Hok _ _ Hrepo) as (_ & Hg & Hi).
  apply Forall_forall. intros k [Hk _]%uniqueStrings_spec.
  apply list_elem_of_fmap in Hk as (p & -> & Hp). rewrite merge_sort_Permutation in Hp.
  apply list_elem_of_fmap in Hp as ([kk p'] & -> & Hp%elem_of_map_to_list).
  apply map_lookup_filter_Some in Hp as [Hp _]. apply (wk_pull _ Hok) in Hp as (_ & Hn & Hs). cbn.
  unfold derivationScope. destruct (pr_stack_number p') as [n|].
  - apply canonical_stack; auto.
  - by apply canonical_pull.
Qed.

Lemma checks_contract now (w w' : wcache R) repo head marked :
  wcache_ok w → repos (base w) !! rp_gh_id repo = Some repo →
  repos (base w') = repos (base w) → wc_pulls w' = wc_pulls w → wc_threads w' = wc_threads w →
  wc_stacks w' = wc_stacks w → wc_rules w' = wc_rules w →
  (∀ i, (λ c, erase_doc (R := R) (CheckDoc i c)) <$> wc_checks w' !! i =
        (λ c, erase_doc (CheckDoc i c)) <$> wc_checks w !! i ∨
     marked = true ∧
     ∀ x c, x ∈ [w; w'] → wc_checks x !! i = Some c → cf_repo_id c = rp_id repo ∧ cf_head_sha c = head) →
  derivation_dirty (base w') =
    MarkDerivationDirty now (if marked then uniqueStrings (head_scopes repo head w) else [])
      (derivation_dirty (base w)) →
  keeps_contract now w w'.
Proof.
  intros Hok Hrepo Hrs Hps Hths Hss Hrls Hchecks Hdirty. eexists. split; [exact Hdirty|].
  split; [destruct marked; [by apply head_scopes_canonical|constructor]|].
  intros k p Hk Hp. destruct (scope_key_parts k p Hk Hp) as [Hkey Hkind].
  destruct (decide (k ∈ if marked then uniqueStrings (head_scopes repo head w) else []))
    as [|Hout]; [by left|right].
  apply derive_erased. symmetry. apply view_ext; cbn; unfold pulls_view; [congruence|congruence|congruence|].
  intros repo' Hr'. pose proof (scope_repo_of _ _ _ Hok Hr') as (Hr & Hi & Hg).
  split; [|split].
  - unfold scope_stack. cbn. by rewrite Hss.
  - unfold scope_checks. f_equal. f_equal. apply filter_map_ext. intros i.
    cbn [t_checks erase_tables]. rewrite !lookup_fmap, !checks_lookup.
    destruct (Hchecks i) as [Heq|[-> Hmatch]].
    + left. destruct (wc_checks w' !! i) as [c'|], (wc_checks w !! i) as [c|];
        try discriminate Heq; [|done]. apply (inj Some) in Heq.
      cbn [fmap option_fmap option_map ch_gh_id ch_repo_id ch_head_sha ch_tombstoned_at ch_columns].
      set (f (d : doc R) := match d with CheckDoc _ c => Some (cf_repo_id c, cf_head_sha c, cf_tombstoned_at c)
                  | _ => None end).
      pose proof (f_equal f Heq) as Hf. cbn in Hf. injection Hf as -> -> ->. by rewrite Heq.
    + right. set (prs := selected_prs (erase_tables (tables_of w)) p repo').
      assert (Hno : ¬ Exists (λ pr, pr_repo_id pr = rp_id repo ∧ pr_head_sha pr = head) prs).
      { intros (pr & Hpr & Hid & Hhead)%Exists_exists. apply Hout.
        destruct (selected_scope _ _ _ _ Hkind Hpr) as ([kk Hkk] & Hid' & Hlive & Hcase).
        cbn [t_pulls erase_tables] in Hkk. rewrite lookup_fmap in Hkk.
        apply fmap_Some in Hkk as (pr0 & Hkk & ->).
        assert (repo' = repo) as ->
          by (eapply (repo_of_id w); [done|done|exact Hr'|congruence]).
        apply uniqueStrings_spec. split; [|by apply canonical_nonempty].
        apply list_elem_of_fmap. exists pr0. cbn in Hid, Hhead, Hid', Hlive, Hcase. split.
        - unfold derivationScope. destruct Hcase as [(Hkd & ->)|(Hkd & -> & ->)];
            [by apply scope_key_stack|by apply scope_key_pull].
        - rewrite merge_sort_Permutation. apply list_elem_of_fmap. exists (kk, pr0). split; [done|].
          apply elem_of_map_to_list, map_lookup_filter_Some. done. }
      assert (Hrej : ∀ x row, x ∈ [w; w'] →
        (λ c : check_row (J := doc R), mkCheck (ch_gh_id c) (ch_repo_id c) (ch_head_sha c)
           (ch_tombstoned_at c) (erase_doc (ch_columns c))) <$>
          ((λ c, mkCheck i (cf_repo_id c) (cf_head_sha c) (cf_tombstoned_at c) (CheckDoc i c))
             <$> wc_checks x !! i) = Some row →
        ¬ (ch_tombstoned_at row = None ∧
           Exists (λ pr, pr_repo_id pr = ch_repo_id row ∧ pr_head_sha pr = ch_head_sha row) prs)).
      { intros x row Hx Hrow [_ Hex]. destruct (wc_checks x !! i) as [c|] eqn:Hc; [|done].
        injection Hrow as <-. cbn in Hex. destruct (Hmatch x c Hx Hc) as [E1 E2].
        rewrite E1, E2 in Hex. done. }
      split; intros row Hrow; eapply Hrej; try exact Hrow; [by left|right; by left].
  - unfold scope_rules. cbn. by rewrite Hrls.
Qed.

(** The scopes of a repository that a write of its rules marks. *)
Lemma repository_scopes_spec (w : wcache R) repo k :
  k ∈ ListRepositoryDerivationScopes (cache_of w) repo ↔ k ≠ "" ∧
    ((∃ n s, wc_stacks w !! (rp_id repo, n) = Some s ∧ sf_tombstoned_at s = None ∧
        k = Outbox.StackKey (rp_installation_id repo) (rp_gh_id repo) n) ∨
     (∃ kk p, pulls_view w !! kk = Some p ∧ pr_repo_id p = rp_id repo ∧ pr_tombstoned_at p = None ∧
        pr_stack_number p = None ∧
        k = Outbox.PullRequestKey (rp_installation_id repo) (rp_gh_id repo) (pr_number p))).
Proof.
  unfold ListRepositoryDerivationScopes. rewrite (proj2 (uniqueStrings_spec _) k), elem_of_app.
  rewrite (Logic.and_comm (_ ∨ _)). apply and_iff_compat_l, Morphisms_Prop.or_iff_morphism.
  - rewrite list_elem_of_fmap. split.
    + intros (ref & -> & [[Hid Ht] Href]%list_elem_of_filter). cbn in Href.
      apply list_elem_of_fmap in Href as ([[r n] s] & -> & Hs%elem_of_map_to_list). cbn in *. subst r.
      exists n, s. split; [done|]. split; [|done]. apply bool_decide_eq_false in Ht.
      by destruct (sf_tombstoned_at s); [destruct Ht|].
    + intros (n & s & Hs & Ht & ->). exists (mkStackRef (rp_id repo) n false). split; [done|].
      apply list_elem_of_filter. split; [done|]. cbn. apply list_elem_of_fmap.
      exists ((rp_id repo, n), s). split; [|by apply elem_of_map_to_list]. by rewrite Ht.
  - rewrite list_elem_of_fmap. split.
    + intros (ref & -> & [(Hid & Ht & Hst) Href]%list_elem_of_filter). cbn in Href.
      apply list_elem_of_fmap in Href as (p & -> & Hp). cbn in *.
      apply list_elem_of_fmap in Hp as ([kk p'] & -> & Hp%elem_of_map_to_list). cbn in *.
      exists kk, p'. split; [done|]. split; [done|]. split; [|done].
      apply bool_decide_eq_false in Ht. by destruct (pr_tombstoned_at p'); [destruct Ht|].
    + intros (kk & p & Hp & Hid & Ht & Hst & ->).
      exists (mkPullRef (pr_repo_id p) (pr_number p) false None). split; [done|].
      apply list_elem_of_filter. split; [done|]. cbn. apply list_elem_of_fmap. exists p.
      split; [by rewrite Ht, Hst|]. apply list_elem_of_fmap. exists (kk, p).
      split; [done|]. by apply elem_of_map_to_list.
Qed.

Lemma repository_scopes_canonical (w : wcache R) repo : wcache_ok w →
  repos (base w) !! rp_gh_id repo = Some repo →
  Forall canonical (ListRepositoryDerivationScopes (cache_of w) repo).
Proof.
  intros Hok Hrepo. destruct (wk_repo _ Hok _ _ Hrepo) as (_ & Hg & Hi).
  apply Forall_forall. intros k Hk. apply repository_scopes_spec in Hk as [_ Hk].
  destruct Hk as [(n & s & Hs & _ & ->)|(kk & p & Hp & _ & _ & _ & ->)].
  - apply (wk_stack _ Hok) in Hs. by apply canonical_stack.
  - apply (wk_pull _ Hok) in Hp as (_ & Hn & _). by apply canonical_pull.
Qed.

Lemma rules_contract now (w w' : wcache R) repo marked :
  wcache_ok w → repos (base w) !! rp_gh_id repo = Some repo → members_live w repo →
  repos (base w') = repos (base w) → wc_pulls w' = wc_pulls w → wc_threads w' = wc_threads w →
  wc_stacks w' = wc_stacks w → wc_checks w' = wc_checks w →
  (∀ r k, (λ u, erase_doc (RuleDoc k u)) <$> wc_rules w' !! (r, k) =
          (λ u, erase_doc (RuleDoc k u)) <$> wc_rules w !! (r, k) ∨
     marked = true ∧ r = rp_id repo) →
  derivation_dirty (base w') =
    MarkDerivationDirty now
      (if marked then ListRepositoryDerivationScopes (cache_of w) repo else [])
      (derivation_dirty (base w)) →
  keeps_contract now w w'.
Proof.
  intros Hok Hrepo Hmem Hrs Hps Hths Hss Hcs Hrules Hdirty. eexists. split; [exact Hdirty|].
  split; [destruct marked; [by apply repository_scopes_canonical|constructor]|].
  intros k p Hk Hp. destruct (scope_key_parts k p Hk Hp) as [Hkey Hkind].
  destruct (decide (k ∈ if marked then ListRepositoryDerivationScopes (cache_of w) repo else []))
    as [|Hout]; [by left|right].
  assert (Hview : ∀ r, scope_repo (tables_of w) p = Some r → scope_repo (tables_of w') p = Some r)
    by (unfold scope_repo; cbn; by rewrite Hrs).
  destruct (decide (marked = true ∧ rp_id <$> scope_repo (tables_of w) p = Some (rp_id repo)))
    as [[-> Hr]|Hother].
  - (* An unmarked scope of the repository has no stack and no pull request. *)
    apply fmap_Some in Hr as (repo' & Hr & Hid%symmetry).
    pose proof (repo_of_id _ _ _ _ Hok Hrepo Hr Hid) as ->. clear Hid.
    destruct (scope_repo_of _ _ _ Hok Hr) as (_ & Hi & Hg).
    assert (Hstack : scope_stack (tables_of w) p repo = None).
    { unfold scope_stack. case_bool_decide as Hst; [|done]. rewrite stacks_lookup.
      destruct (wc_stacks w !! (rp_id repo, Number p)) as [s|] eqn:Hs; [|done]. cbn.
      case_bool_decide as Ht; [|done]. destruct Hout. apply repository_scopes_spec.
      split; [by apply canonical_nonempty|]. left. exists (Number p), s.
      split; [done|]. split; [done|]. by apply scope_key_stack. }
    assert (Hprs : selected_prs (tables_of w) p repo = []).
    { destruct (selected_prs (tables_of w) p repo) as [|pr prs] eqn:Hsel; [done|].
      destruct (selected_scope (tables_of w) p repo pr Hkind) as ([kk Hkk] & Hid & Hlive & Hcase);
        [rewrite Hsel; by left|]. destruct Hcase as [(Hkd & Hst)|(Hkd & Hst & Hnum)].
      - destruct (Hmem _ _ _ Hkk Hid Hlive Hst) as (s & Hs & Ht).
        unfold scope_stack in Hstack. rewrite bool_decide_eq_true_2, stacks_lookup, Hs in Hstack by done.
        cbn in Hstack. by rewrite bool_decide_eq_true_2 in Hstack.
      - destruct Hout. apply repository_scopes_spec. split; [by apply canonical_nonempty|].
        right. exists kk, pr. split_and!; try done. rewrite Hnum. by apply scope_key_pull. }
    assert (Hempty : ∀ x, x ∈ [w; w'] → derive_scope (scope_view (tables_of x) p) = []).
    { intros x Hx. assert (scope_repo (tables_of x) p = Some repo ∧
        scope_stack (tables_of x) p repo = None ∧ selected_prs (tables_of x) p repo = []) as (E1 & E2 & E3).
      { rewrite !elem_of_cons, elem_of_nil in Hx. destruct Hx as [->|[->|[]]]; [done|].
        split; [auto|]. unfold scope_stack, selected_prs. cbn. unfold pulls_view. rewrite Hss, Hps.
        split; [exact Hstack|exact Hprs]. }
      apply derive_empty; unfold scope_view; rewrite E1; cbn; done. }
    rewrite !Hempty; [done|by left|right; by left].
  - apply derive_erased. symmetry. apply view_ext; cbn; unfold pulls_view; [congruence|congruence|congruence|].
    intros repo' Hr'. split; [|split].
    + unfold scope_stack. cbn. by rewrite Hss.
    + unfold scope_checks. cbn. by rewrite Hcs.
    + unfold scope_rules. f_equal. f_equal. apply filter_map_ext. intros [r kk].
      cbn [t_rules erase_tables]. rewrite !lookup_fmap, !rules_lookup.
      destruct (Hrules r kk) as [Heq|[-> ->]].
      * left. destruct (wc_rules w' !! (r, kk)) as [u'|], (wc_rules w !! (r, kk)) as [u|];
          try discriminate Heq; [|done]. apply (inj Some) in Heq.
        cbn [fmap option_fmap option_map ru_repo_id ru_rule_key ru_tombstoned_at ru_columns].
        set (f (d : doc R) := match d with RuleDoc _ u => Some (rf_tombstoned_at u) | _ => None end).
        pose proof (f_equal f Heq) as Hf. cbn in Hf. injection Hf as ->. by rewrite Heq.
      * right. assert (Hid : rp_id repo ≠ rp_id repo').
        { intros Hid. apply Hother. split; [done|]. cbn in Hr'. rewrite Hr'. cbn. by rewrite Hid. }
        split; intros row Hrow [Hrow' _].
        -- destruct (wc_rules w !! _); [|done]. by injection Hrow as <-.
        -- destruct (wc_rules w' !! _); [|done]. by injection Hrow as <-.
Qed.

(** A write that only records a check marks nothing. *)
Lemma silent_contract now (w w' : wcache R) :
  derivation_dirty (base w') = derivation_dirty (base w) →
  erase_tables (tables_of w') = erase_tables (tables_of w) → keeps_contract now w w'.
Proof.
  intros Hd Ht. exists []. split; [done|]. split; [constructor|].
  intros k p _ _. right. apply derive_erased. by rewrite Ht.
Qed.

Lemma touch_stacks_erased etag now repoID number (w : wcache R) :
  erase_tables (tables_of (set_stacks (TouchStackCheckedAt now etag repoID number (wc_stacks w)) w)) =
    erase_tables (tables_of w).
Proof.
  unfold erase_tables. cbn [t_repos t_pulls t_threads t_stacks t_checks t_rules tables_of]. f_equal.
  apply map_eq. intros [r n]. rewrite !lookup_fmap, !map_lookup_imap. cbn. unfold TouchStackCheckedAt.
  destruct (decide ((repoID, wrap32 number) = (r, n))) as [Heq|Hne].
  - rewrite Heq, lookup_alter_eq. by destruct (wc_stacks w !! (r, n)).
  - by rewrite lookup_alter_ne.
Qed.

Lemma touch_check_erased i at_ etag (c : check_full) :
  erase_doc (R := R) (CheckDoc i (touch_check at_ etag c)) = erase_doc (CheckDoc i c).
Proof. done. Qed.

Lemma touch_checks_erased etag now repoID head (w : wcache R) :
  erase_tables (tables_of (set_checks (TouchCheckRunsCheckedAt now etag repoID head (wc_checks w)) w)) =
    erase_tables (tables_of w).
Proof.
  unfold erase_tables. cbn [t_repos t_pulls t_threads t_stacks t_checks t_rules tables_of]. f_equal.
  apply map_eq. intros i. rewrite !lookup_fmap, !map_lookup_imap. cbn. unfold TouchCheckRunsCheckedAt.
  rewrite lookup_fmap. destruct (wc_checks w !! i) as [c|]; [|done]. cbn. by case_bool_decide.
Qed.

Lemma touch_rules_lookup (now : time) (repoID : Z) (m : gmap (Z * string) (rule_full R)) (k : Z * string) :
  TouchRepoRulesCheckedAt now repoID m !! k =
    (λ u, if bool_decide (k.1 = repoID) then touch_rule now u else u) <$> m !! k.
Proof. unfold TouchRepoRulesCheckedAt. rewrite map_lookup_imap. by destruct (m !! k). Qed.

Lemma check_rules_erased etag now repoID (w : wcache R) :
  erase_tables (tables_of (check_rules etag now repoID w)) = erase_tables (tables_of w).
Proof.
  unfold erase_tables. cbn [t_repos t_pulls t_threads t_stacks t_checks t_rules tables_of]. f_equal.
  apply map_eq. intros [r k]. rewrite !lookup_fmap, !map_lookup_imap. cbn.
  rewrite touch_rules_lookup. destruct (wc_rules w !! (r, k)) as [u|]; [|done]. cbn. by case_bool_decide.
Qed.

Lemma mark_emit_dirty scopes kind key at_ (w : wcache R) :
  derivation_dirty (base (mark_emit scopes kind key at_ w)) =
    MarkDerivationDirty at_ scopes (derivation_dirty (base w)).
Proof. by destruct scopes. Qed.

Lemma mark_emit_repos scopes kind key at_ (w : wcache R) :
  repos (base (mark_emit scopes kind key at_ w)) = repos (base w).
Proof. by destruct scopes. Qed.

Lemma apply_stack_contract now s hook repo result (w w' : wcache R) :
  wcache_ok w → applyStackTx s hook now w = Ok (result, w') →
  repos (base w) !! GitHubID (sr_Repository s) = Some repo →
  rp_installation_id repo = InstallationID (sr_Repository s) → 0 < sr_Number s < 2 ^ 31 →
  keeps_contract now w w'.
Proof.
  intros Hok Ha Hrepo Hinst Hn. destruct (wk_repo _ Hok _ _ Hrepo) as (Hgh & _).
  unfold applyStackTx, find_repo in Ha. rewrite Hrepo in Ha. cbn in Ha.
  destruct (UpsertStackWriteIfNewer (rp_id repo) s now (wc_stacks w)) as [applied m] eqn:Hu.
  assert (Hm : (∀ k, k ≠ (rp_id repo, sr_Number s) → m !! k = wc_stacks w !! k) ∧
               (applied = false → m = wc_stacks w)).
  { clear Ha. unfold UpsertStackWriteIfNewer in Hu. rewrite wrap32_id in Hu by lia.
    repeat case_match; injection Hu as <- <-; split; try done; intros k Hk; by rewrite lookup_insert_ne. }
  destruct Hm as [Hm Hsame]. rewrite <- Hgh in Hrepo.
  destruct applied; destruct (run_hook hook _) in Ha; try discriminate Ha; cbn in Ha; injection Ha as <- <-.
  - apply (stacks_contract now w _ repo (sr_Number s) true); rewrite ?mark_emit_repos; try done.
    + intros k. destruct (decide (k = (rp_id repo, sr_Number s))) as [->|Hk]; [by right|left].
      cbn. unfold TouchStackCheckedAt. rewrite wrap32_id by lia.
      rewrite lookup_alter_ne by done. auto.
    + rewrite mark_emit_dirty. by rewrite Hinst, Hgh.
  - rewrite Hsame by done. apply silent_contract; [done|]. apply touch_stacks_erased.
Qed.

Lemma tombstone_stack_contract now r number source hook repo result (w w' : wcache R) :
  wcache_ok w → tombstoneStackTx r number source hook now w = Ok (result, w') →
  repos (base w) !! GitHubID r = Some repo →
  rp_installation_id repo = InstallationID r → 0 < number < 2 ^ 31 →
  keeps_contract now w w'.
Proof.
  intros Hok Ha Hrepo Hinst Hn. destruct (wk_repo _ Hok _ _ Hrepo) as (Hgh & _).
  unfold tombstoneStackTx, find_repo in Ha. rewrite Hrepo in Ha. cbn in Ha.
  rewrite <- Hgh in Hrepo. destruct (wc_stacks w !! (rp_id repo, wrap32 number)); cycle 1.
  { injection Ha as <- <-. by apply silent_contract. }
  destruct (TombstoneStack now source (rp_id repo) number (wc_stacks w)) as [m|] eqn:Hm;
    destruct (run_hook hook _) in Ha; try discriminate Ha; cbn in Ha; injection Ha as <- <-.
  - apply (stacks_contract now w _ repo number true); rewrite ?mark_emit_repos; try done.
    + intros k. destruct (decide (k = (rp_id repo, number))) as [->|Hk]; [by right|left].
      unfold TombstoneStack in Hm. rewrite wrap32_id in Hm by lia.
      repeat case_match; try done. injection Hm as <-. cbn. by rewrite lookup_insert_ne.
    + rewrite mark_emit_dirty. by rewrite Hinst, Hgh.
  - by apply silent_contract.
Qed.

Lemma apply_checks_contract digest now c repo applied (w w' : wcache R) :
  wcache_ok w → applyChecksTx digest c now w = Ok (applied, w') →
  repos (base w) !! GitHubID (ck_Repository c) = Some repo →
  (∀ r row, r ∈ ck_Runs c → wc_checks w !! cr_GitHubID r = Some row →
     cf_repo_id row = rp_id repo ∧ cf_head_sha row = ck_HeadSHA c) →
  keeps_contract now w w'.
Proof.
  intros Hok Ha Hrepo Hone. destruct (wk_repo _ Hok _ _ Hrepo) as (Hgh & _).
  unfold applyChecksTx, find_repo in Ha. rewrite Hrepo in Ha. rewrite <- Hgh in Hrepo. cbn in Ha.
  destruct (ReplaceCheckRuns _ _ _ _ _ _ _) as [[changed m]|] eqn:Hr; [|done].
  case_bool_decide as Hc; cbn in Ha; injection Ha as <- <-.
  { rewrite Hc in Hr. apply replace_rows_unchanged in Hr as ->. apply silent_contract; [done|].
    rewrite <- (touch_checks_erased (ck_ETag c) now (rp_id repo) (ck_HeadSHA c) w). done. }
  pose proof (replace_rows_spec _ _ _ _ _ _ _ _ _ Hr) as Hm.
  apply (checks_contract now w _ repo (ck_HeadSHA c) true); rewrite ?mark_emit_repos, ?mark_emit_dirty;
    try done.
  intros i. cbn [wc_checks mark_emit set_base set_history set_checks]. unfold TouchCheckRunsCheckedAt.
  rewrite lookup_fmap. destruct (Hm i) as [Heq|(_ & Hcase)].
  { left. rewrite Heq. destruct (wc_checks w !! i); [|done]. cbn. by case_bool_decide. }
  right. split; [done|]. intros x row Hx Hrow.
  rewrite !elem_of_cons, elem_of_nil in Hx. destruct Hx as [->|[->|[]]].
  - destruct Hcase as [(r & Hin & <- & _)|(v & Hv & Hdead & _)].
    + apply list_elem_of_fmap in Hin as (r0 & -> & Hin). apply (Hone r0); [done|].
      rewrite <- Hrow. f_equal. unfold with_version. by case_bool_decide.
    + assert (v = row) as -> by congruence. unfold check_dead in Hdead.
      apply andb_true_iff in Hdead as [Hdead _]. by apply bool_decide_eq_true in Hdead as (? & ? & _).
  - cbn in Hrow. rewrite lookup_fmap in Hrow.
    destruct Hcase as [(r & Hin & Hkey & Hm')|(v & Hv & Hdead & Hm')]; rewrite Hm' in Hrow;
      cbn in Hrow; injection Hrow as <-; case_bool_decide; cbn; try done.
    all: unfold check_dead in Hdead; apply andb_true_iff in Hdead as [Hdead _];
      by apply bool_decide_eq_true in Hdead as (? & ? & _).
Qed.

Lemma replace_rules_spec (repoID : Z) (etag source : string) (now : time) (rules : list (RepoRuleRecord (R := R)))
    (m : gmap (Z * string) (rule_full R)) changed m' :
  ReplaceRepoRules repoID etag source now rules m = Some (changed, m') →
  (∀ r k, m' !! (r, k) = m !! (r, k) ∨ r = repoID) ∧ (changed = [] → m' = m).
Proof.
  unfold ReplaceRepoRules. intros Hr. split.
  - intros r k. destruct (replace_rows_spec _ _ _ _ _ _ _ _ _ Hr (r, k)) as [Heq|(_ & Hcase)]; [by left|right].
    destruct Hcase as [(x & _ & [= -> _] & _)|(v & _ & Hd & _)]; [done|].
    apply andb_true_iff in Hd as [Hd _]. by apply bool_decide_eq_true in Hd as [? _].
  - intros ->. by apply replace_rows_unchanged in Hr.
Qed.

Lemma apply_rules_contract now r repo applied (w w' : wcache R) :
  wcache_ok w → applyRepoRulesTx r now w = Ok (applied, w') →
  repos (base w) !! GitHubID (rs_Repository r) = Some repo → members_live w repo →
  keeps_contract now w w'.
Proof.
  intros Hok Ha Hrepo Hmem. destruct (wk_repo _ Hok _ _ Hrepo) as (Hgh & _).
  unfold applyRepoRulesTx, find_repo in Ha. rewrite Hrepo in Ha. rewrite <- Hgh in Hrepo. cbn in Ha.
  destruct (ReplaceRepoRules _ _ _ _ _ _) as [[changed m]|] eqn:Hr; [|done].
  apply replace_rules_spec in Hr as [Hm Hsame].
  case_bool_decide as Hc; cbn in Ha; injection Ha as <- <-.
  { rewrite (Hsame Hc). apply silent_contract; [done|].
    rewrite <- (check_rules_erased (rs_ETag r) now (rp_id repo) w). done. }
  apply (rules_contract now w _ repo true); rewrite ?mark_emit_repos, ?mark_emit_dirty; try done.
  intros i k. destruct (Hm i k) as [Heq| ->]; [left|by right].
  cbn [wc_rules mark_emit set_base check_rules set_rule_sync set_rules]. rewrite touch_rules_lookup, Heq.
  destruct (wc_rules w !! (i, k)); [|done]. cbn. by case_bool_decide.
Qed.
End marks.

(** ** Stack membership *)

(** The last position of a number in the entries, from 1. *)
Definition last_position (entries : list StackEntry) (n i : Z) : Prop :=
  0 < i ∧ se_Number <$> entries !! Z.to_nat (i - 1) = Some n ∧
  ∀ j, (Z.to_nat (i - 1) < j)%nat → se_Number <$> entries !! j ≠ Some n.

Lemma positions_snoc entries e : ∀ i m,
  positions i m (entries ++ [e]) = <[se_Number e := i + Z.of_nat (length entries)]> (positions i m entries).
Proof.
  induction entries as [|x entries IH]; intros i m; cbn -[Z.of_nat].
  - by rewrite Z.add_0_r.
  - rewrite IH. f_equal. lia.
Qed.

Lemma positions_spec entries n i : positions 1 ∅ entries !! n = Some i ↔ last_position entries n i.
Proof.
  revert i. induction entries as [|e entries IH] using rev_ind; intros i.
  { unfold last_position. cbn. rewrite lookup_empty. split; [done|]. intros (_ & Hl & _).
    by rewrite lookup_nil in Hl. }
  rewrite positions_snoc. unfold last_position in *.
  assert (Hat : ∀ j, (entries ++ [e]) !! j =
    if decide (j = length entries) then Some e else entries !! j).
  { intros j. case_decide as Hj; [subst; by rewrite list_lookup_middle|].
    destruct (decide (j < length entries)%nat).
    - by rewrite lookup_app_l.
    - rewrite !lookup_ge_None_2; [done| |rewrite length_app; cbn]; lia. }
  destruct (decide (se_Number e = n)) as [Hn|Hn].
  - rewrite Hn, lookup_insert_eq. split.
    + intros [= <-]. split; [lia|]. split.
      * rewrite Hat, decide_True by lia. cbn. by rewrite Hn.
      * intros j Hj. rewrite lookup_ge_None_2; [done|]. rewrite length_app. cbn. lia.
    + intros (Hi & Hl & Hlast). f_equal.
      apply fmap_Some in Hl as (e' & Hl & _). apply lookup_lt_Some in Hl. rewrite length_app in Hl. cbn in Hl.
      destruct (decide (Z.to_nat (i - 1) < length entries)%nat) as [Hlt|]; [|lia].
      destruct (Hlast _ Hlt). rewrite Hat, decide_True by done. cbn. by rewrite Hn.
  - rewrite lookup_insert_ne by done. rewrite IH.
    assert (Heq : ∀ j, (se_Number <$> (entries ++ [e]) !! j = Some n) ↔ (se_Number <$> entries !! j = Some n)).
    { intros j. rewrite Hat. case_decide as Hj; [|done]. subst. cbn.
      rewrite lookup_ge_None_2 by done. split; [by intros [= ?]|done]. }
    rewrite Heq. split; intros (Hi & Hl & Hlast); (split; [done|]; split; [done|]); intros j Hj;
      specialize (Hlast j Hj); by rewrite Heq in *.
Qed.

Lemma positions_None entries n : positions 1 ∅ entries !! n = None ↔ n ∉ map se_Number entries.
Proof.
  assert (Hdom : ∀ i m, positions i m entries !! n = None ↔ (n ∉ map se_Number entries) ∧ m !! n = None).
  { induction entries as [|e entries IH]; intros i m; cbn.
    - split; [|by intros []]. split; [by intros ?%elem_of_nil|done].
    - rewrite IH, lookup_insert_None, not_elem_of_cons. naive_solver. }
  rewrite Hdom, lookup_empty. naive_solver.
Qed.

Lemma sorted_keys (P : Z * Z → Prop) `{∀ e, Decision (P e)} (m : gmap Z Z) :
  let l := sort_Ints (filter P (map_to_list m)).*1 in
  (∀ n, n ∈ l ↔ ∃ i, m !! n = Some i ∧ P (n, i)) ∧ NoDup l ∧ StronglySorted Z.le l.
Proof.
  cbn. unfold sort_Ints. split; [|split].
  - intros n. rewrite merge_sort_Permutation, list_elem_of_fmap. split.
    + intros ([n' i] & -> & [HP Hm%elem_of_map_to_list]%list_elem_of_filter). by exists i.
    + intros (i & Hm & HP). exists (n, i). split; [done|]. apply list_elem_of_filter.
      split; [done|]. by apply elem_of_map_to_list.
  - rewrite merge_sort_Permutation. apply NoDup_fmap_filter, NoDup_fst_map_to_list.
  - apply StronglySorted_merge_sort; apply _.
Qed.

(** ** Check runs of a commit *)

(** The live rows of a commit. *)
Definition live_run {R} (w : wcache R) (repoID : Z) (head : string) (i : Z) : Prop :=
  ∃ c, wc_checks w !! i = Some c ∧ cf_repo_id c = repoID ∧ cf_head_sha c = head ∧ cf_tombstoned_at c = None.

(** The rows of a commit were checked, and tombstoned, before a write. *)
Definition rows_before {R} (w : wcache R) (repoID : Z) (head : string) (now : time) : Prop :=
  ∀ i row, wc_checks w !! i = Some row → cf_repo_id row = repoID → cf_head_sha row = head →
    pv_last_checked_at (cf_prov row) ≤ now ∧ ∀ t, cf_tombstoned_at row = Some t → t < now.

(** The rows of the reported runs are those of the commit. *)
Definition runs_of_commit {R} (w : wcache R) (repoID : Z) (c : ChecksRecord) : Prop :=
  ∀ r row, r ∈ ck_Runs c → wc_checks w !! cr_GitHubID r = Some row →
    cf_repo_id row = repoID ∧ cf_head_sha row = ck_HeadSHA c.

Section commit.
Context (digest : string * string * string * string * option time * option time → string).

Lemma with_version_id r : cr_GitHubID (with_version digest r) = cr_GitHubID r.
Proof. unfold with_version. by case_bool_decide. Qed.

Lemma with_versions_ids runs :
  map cr_GitHubID (map (with_version digest) runs) = map cr_GitHubID runs.
Proof. rewrite map_map. apply map_ext, with_version_id. Qed.

End commit.

(** A tombstone older than the write is no reason to keep a row. *)
Lemma check_newer_revives old new t : cf_tombstoned_at old = Some t →
  t < pv_last_checked_at (cf_prov new) → check_newer old new = true.
Proof.
  intros Ht Hlt. unfold check_newer, newer. rewrite Ht. apply Z.ltb_lt in Hlt.
  by rewrite Hlt, orb_true_r.
Qed.

Lemma touched_row repoID head at_ etag (m : gmap Z check_full) i :
  ∃ f : check_full → check_full, TouchCheckRunsCheckedAt at_ etag repoID head m !! i = f <$> m !! i ∧
  ∀ c, cf_repo_id (f c) = cf_repo_id c ∧ cf_head_sha (f c) = cf_head_sha c ∧
       cf_tombstoned_at (f c) = cf_tombstoned_at c ∧
       (¬ (cf_repo_id c = repoID ∧ cf_head_sha c = head) → f c = c).
Proof.
  eexists. split; [apply lookup_fmap|]. intros c. cbn beta. by case_bool_decide.
Qed.

(** The rows of a commit after a replacement of its runs. *)
Lemma replace_checks_rows repoID head etag source now runs (m : gmap Z check_full) changed m' :
  ReplaceCheckRuns repoID head etag source now runs m = Some (changed, m') →
  (∀ r row, r ∈ runs → m !! cr_GitHubID r = Some row → cf_repo_id row = repoID ∧ cf_head_sha row = head) →
  (∀ i row, m !! i = Some row → cf_repo_id row = repoID → cf_head_sha row = head →
     pv_last_checked_at (cf_prov row) ≤ now ∧ ∀ t, cf_tombstoned_at row = Some t → t < now) →
  ∀ i, (i ∈ map cr_GitHubID runs ∧ ∃ row, m' !! i = Some row ∧ cf_repo_id row = repoID ∧
          cf_head_sha row = head ∧ cf_tombstoned_at row = None) ∨
       (i ∉ map cr_GitHubID runs) ∧
       ((∀ row, m !! i = Some row → ¬ (cf_repo_id row = repoID ∧ cf_head_sha row = head)) ∧
          m' !! i = m !! i ∨
        ∃ row, m' !! i = Some row ∧ cf_repo_id row = repoID ∧ cf_head_sha row = head ∧
          cf_tombstoned_at row ≠ None).
Proof.
  intros Hr Hone Hbefore i. destruct (decide (i ∈ map cr_GitHubID runs)) as [Hin|Hout].
  - left. split; [done|].
    destruct (replace_rows_input _ _ _ _ _ _ _ _ _ _ Hr Hin) as (r & Hrin & <- & Hcase).
    destruct Hcase as [(_ & Hm' & _)|(v & Hv & Ha & Hm')]; rewrite Hm'; eexists; (split; [done|]); [done|].
    destruct (Hone r v Hrin Hv) as [H1 H2]. split; [done|]. split; [done|].
    destruct (cf_tombstoned_at v) as [t|] eqn:Ht; [|done].
    destruct (Hbefore _ _ Hv H1 H2) as [_ Hlt].
    rewrite (check_newer_revives v _ t) in Ha; [done|done|exact (Hlt t Ht)].
  - right. split; [done|]. rewrite (proj1 (replace_rows_other _ _ _ _ _ _ _ _ _ _ Hr Hout)).
    destruct (m !! i) as [row|] eqn:Hm; [|by left].
    destruct (decide (cf_repo_id row = repoID ∧ cf_head_sha row = head)) as [[H1 H2]|Hno].
    + right. cbn. eexists. split; [done|]. unfold check_dead. destruct (Hbefore _ _ Hm H1 H2) as [Hle _].
      apply Z.leb_le in Hle. rewrite Hle, andb_true_r. case_bool_decide as Hd; [done|].
      split; [done|]. split; [done|]. intros Ht. by apply Hd.
    + left. split; [by intros ? [= <-]|]. cbn. unfold check_dead. by rewrite bool_decide_eq_false_2 by tauto.
Qed.
(** ** Theorems *)


(** The membership change a stack write reports is exact: a pull request joined
    when only the new entries name it, left when only the old entries do, and moved
    when both name it with different (last) positions. Every list is sorted and names
    a pull request once, so each joined or left pull request is refreshed once. *)
Theorem membership_diff_exact (oldEntries newEntries : list StackEntry) :
  let d := stackMembershipDiff oldEntries newEntries in
  (∀ n, n ∈ as_JoinedPRs d ↔ n ∈ map se_Number newEntries ∧ n ∉ map se_Number oldEntries) ∧
  (∀ n, n ∈ as_LeftPRs d ↔ n ∈ map se_Number oldEntries ∧ n ∉ map se_Number newEntries) ∧
  (∀ n, n ∈ as_MovedPRs d ↔ ∃ i j, last_position oldEntries n i ∧ last_position newEntries n j ∧ i ≠ j) ∧
  ∀ l, l ∈ [as_JoinedPRs d; as_LeftPRs d; as_MovedPRs d] → NoDup l ∧ StronglySorted Z.le l.
Proof.
  assert (Hin : ∀ l n, (∃ i, positions 1 ∅ l !! n = Some i) ↔ n ∈ map se_Number l).
  { intros l n. pose proof (positions_None l n) as Hnone.
    destruct (positions 1 ∅ l !! n) as [i|]; [|naive_solver].
    split; [|by eauto]. intros _. destruct (decide (n ∈ map se_Number l)); naive_solver. }
  cbn -[positions filter sort_Ints]. split; [|split; [|split]].
  - intros n. rewrite (proj1 (sorted_keys _ _)), <- Hin, <- positions_None. naive_solver.
  - intros n. rewrite (proj1 (sorted_keys _ _)), <- Hin, <- positions_None. naive_solver.
  - intros n. rewrite (proj1 (sorted_keys _ _)). cbn. setoid_rewrite <- positions_spec.
    split.
    + intros (j & Hj & Hold & Hne). destruct (positions 1 ∅ oldEntries !! n) as [i|] eqn:Hi; [|done].
      exists i, j. split_and!; [done|done|]. intros ->. done.
    + intros (i & j & Hi & Hj & Hne). exists j. rewrite Hi. split_and!; [done|done|].
      intros [= ?]. done.
  - intros l Hl. rewrite !elem_of_cons, elem_of_nil in Hl.
    destruct Hl as [->|[->|[->|[]]]]; apply sorted_keys.
Qed.

(** A list of a commit's check runs replaces the cached runs of that commit: when
    the write succeeds, the live rows of the commit are exactly the reported runs,
    the rows of other commits are as they were, and the write emits one change event
    if a row was written or tombstoned and leaves marks and events alone otherwise.
    Reported runs belong to the commit, and its rows were last checked and tombstoned
    before this write. *)
Theorem checks_replace_exact {R : Type}
    (digest : string * string * string * string * option time * option time → string)
    (c : ChecksRecord) (now : time) (repo : repo_row) (applied : bool) (w w' : wcache R) :
  applyChecksTx digest c now w = Ok (applied, w') →
  repos (base w) !! GitHubID (ck_Repository c) = Some repo →
  runs_of_commit w (rp_id repo) c → rows_before w (rp_id repo) (ck_HeadSHA c) now →
  (∀ i, live_run w' (rp_id repo) (ck_HeadSHA c) i ↔ i ∈ map cr_GitHubID (ck_Runs c)) ∧
  (∀ i row, ¬ (cf_repo_id row = rp_id repo ∧ cf_head_sha row = ck_HeadSHA c) →
     wc_checks w' !! i = Some row ↔ wc_checks w !! i = Some row) ∧
  emitted (base w') = emitted (base w) ++
    (if applied then [(ChecksChangedKind, Outbox.ChecksKey (InstallationID (ck_Repository c))
       (GitHubID (ck_Repository c)) (ck_HeadSHA c), now)] else []) ∧
  (applied = false → base w' = base w).
Proof.
  intros Ha Hrepo Hone Hbefore. unfold applyChecksTx, find_repo in Ha. rewrite Hrepo in Ha. cbn in Ha.
  destruct (ReplaceCheckRuns _ _ _ _ _ _ _) as [[changed m]|] eqn:Hr; [|done].
  assert (Hw' : wc_checks w' = TouchCheckRunsCheckedAt now (ck_ETag c) (rp_id repo) (ck_HeadSHA c) m)
    by (destruct (bool_decide (changed = [])); by injection Ha as _ <-).
  pose proof (replace_checks_rows _ _ _ _ _ _ _ _ _ Hr) as Hrows. rewrite with_versions_ids in Hrows.
  specialize (Hrows ltac:(intros r row (r0 & -> & H0)%list_elem_of_fmap; rewrite with_version_id; by apply Hone)
                    Hbefore).
  split; [|split; [|split]].
  - intros i. unfold live_run. rewrite Hw'.
    destruct (touched_row (rp_id repo) (ck_HeadSHA c) now (ck_ETag c) m i) as (f & -> & Hf).
    destruct (Hrows i) as [(Hin & row & -> & H1 & H2 & H3)|(Hout & Hcase)].
    + split; [done|]. intros _. exists (f row). destruct (Hf row) as (-> & -> & -> & _). done.
    + split; [|done]. intros (row' & Hrow' & H1 & H2 & H3). destruct Hcase as [[Hno Hm]|(row & Hm & _ & _ & H4)];
        apply fmap_Some in Hrow' as (row0 & Hrow0 & ->); destruct (Hf row0) as (E1 & E2 & E3 & _).
      * rewrite Hm in Hrow0. destruct (Hno _ Hrow0). by rewrite <- E1, <- E2.
      * assert (row = row0) as -> by congruence. by rewrite <- E3 in H4.
  - intros i row Hrow. rewrite Hw'.
    destruct (touched_row (rp_id repo) (ck_HeadSHA c) now (ck_ETag c) m i) as (f & -> & Hf).
    destruct (Hrows i) as [(Hin & row0 & Hm & H1 & H2 & _)|(Hout & [[Hno Hm]|(row0 & Hm & H1 & H2 & _)])].
    + rewrite Hm. cbn. destruct (Hf row0) as (E1 & E2 & _). split.
      * intros [= <-]. destruct Hrow. by rewrite E1, E2.
      * intros Hw. apply list_elem_of_fmap in Hin as (r & -> & Hin).
        destruct Hrow. by apply (Hone r).
    + rewrite Hm. destruct (wc_checks w !! i) as [row0|] eqn:Hw; [|done]. cbn.
      destruct (Hf row0) as (_ & _ & _ & ->); [done|]. apply Hno. done.
    + rewrite Hm. cbn. destruct (Hf row0) as (E1 & E2 & _). split.
      * intros [= <-]. destruct Hrow. by rewrite E1, E2.
      * intros Hw. exfalso. rewrite <- (with_versions_ids digest) in Hout.
        destruct (replace_rows_other _ _ _ _ _ _ _ _ _ i Hr Hout) as [Hm' _].
        rewrite Hm, Hw in Hm'. cbn in Hm'. injection Hm' as ->. destruct Hrow. by case_match.
  - destruct (bool_decide (changed = [])); injection Ha as <- <-; cbn; [by rewrite app_nil_r|].
    by destruct (uniqueStrings _).
  - destruct (bool_decide (changed = [])); injection Ha as <- <-; done.
Qed.

(** ** Witnesses *)

(** What the example deriver reads of a scope. *)
Definition scope_shape {R} (sc : ScopeSnapshot (doc R)) : string * Z * bool * nat :=
  (ss_ScopeKey sc, ss_OrgID sc, bool_decide (sd_stack (ss_Data sc) = None),
   length (sd_pull_requests (ss_Data sc))).

(** One item for every scope with a stack or a pull request. *)
Definition shape_items {R} (sc : ScopeSnapshot (doc R)) : list WorkItem :=
  match scope_shape sc with
  | (_, _, true, O) => []
  | (key, org, _, _) => [mkItem key org "{}"]
  end.

Lemma selected_length_erased {R} (t : tables (doc R)) p repo :
  length (selected_prs (erase_tables t) p repo) = length (selected_prs t p repo).
Proof.
  unfold selected_prs. rewrite !merge_sort_Permutation. unfold rows_of.
  rewrite !length_fmap, !length_map_to_list. cbn [t_pulls erase_tables].
  rewrite map_filter_fmap, map_size_fmap. done.
Qed.

Lemma scope_shape_erased {R} (t : tables (doc R)) p :
  scope_shape (scope_view (erase_tables t) p) = scope_shape (scope_view t p).
Proof.
  unfold scope_view. change (scope_repo (erase_tables t) p) with (scope_repo t p).
  destruct (scope_repo t p) as [repo|]; [|done].
  unfold scope_shape. cbn [ss_ScopeKey ss_OrgID ss_Data sd_stack sd_pull_requests].
  rewrite selected_length_erased. do 2 f_equal. unfold scope_stack. destruct (bool_decide (Kind p = _)); [|done].
  cbn [t_stacks erase_tables]. rewrite lookup_fmap. destruct (t_stacks t !! _) as [s|]; [|done]. cbn.
  by destruct (bool_decide (sk_tombstoned_at s = None)).
Qed.

#[local] Instance shape_domain R : DerivesFromDomain (shape_items (R := R)).
Proof.
  split.
  - intros t t' p Heq. unfold shape_items.
    rewrite <- (scope_shape_erased t), <- (scope_shape_erased t'). by rewrite Heq.
  - intros sc Hs Hp. unfold shape_items, scope_shape. by rewrite Hs, Hp.
Qed.

Definition wit_record : RepositoryRecord :=
  mkRepository 7 3 9 "R" "acme" "app" "acme/app" "main" "" false 5.

(** Pull request 4 has head [c0ffee], with one finished and one vanished check run. *)
Definition wit_cache : wcache string :=
  mkW (mkCache {[ 9 := demo_repo ]} 1 ∅ [] [] ∅ [] ∅ ∅) ∅
    {[ (1, 4) := mkPullFull 1 (Some 44) "P" 4 "t" "open" false "ann" "topic" "c0ffee" "main" "b0" "" "" None None
                   (Some 5) (mkProv 5 5 "" "webhook") None None ]} ∅
    {[ 50 := mkCheckFull 1 "C" "build" "queued" "" "" "ci" None None (Some 5) "v1" "c0ffee"
               (mkProv 5 5 "" "webhook") None;
       51 := mkCheckFull 1 "D" "lint" "queued" "" "" "ci" None None (Some 5) "v1" "c0ffee"
               (mkProv 5 5 "" "webhook") None ]} [] ∅ ∅.

Definition wit_checks : ChecksRecord :=
  mkChecks wit_record "c0ffee"
    [mkRun 50 "C" "build" "completed" "success" "" "ci" None (Some 8) (Some 8) "" "obs"] "" "manual".

Definition wit_digest (x : string * string * string * string * option time * option time) : string :=
  x.1.1.1.1.1.

Definition wit_after : wcache string :=
  match applyChecksTx wit_digest wit_checks 10 wit_cache with Ok (_, w) => w | Err _ => wit_cache end.

Lemma wit_cache_ok : wcache_ok wit_cache.
Proof.
  assert (Hrepos : ∀ g r, repos (base wit_cache) !! g = Some r → g = 9 ∧ r = demo_repo)
    by (intros g r Hr; unfold wit_cache in Hr; cbn [repos base] in Hr;
        apply lookup_singleton_Some in Hr as [<- <-]; done).
  split.
  - intros g r [-> ->]%Hrepos. cbn. lia.
  - by intros g g' r r' [-> _]%Hrepos [-> _]%Hrepos _.
  - intros k p Hp. unfold pulls_view, wit_cache in Hp. cbn [wc_pulls] in Hp.
    rewrite map_fmap_singleton in Hp.
    apply lookup_singleton_Some in Hp as [<- <-]. cbn. split_and!; [done|lia|lia|done].
  - intros r n s Hs. cbn in Hs. by rewrite lookup_empty in Hs.
Qed.

Lemma wit_runs : runs_of_commit wit_cache 1 wit_checks.
Proof.
  intros r row Hr Hrow. apply list_elem_of_singleton in Hr as ->.
  vm_compute in Hrow. by injection Hrow as <-.
Qed.

Lemma wit_write : applyChecksTx wit_digest wit_checks 10 wit_cache = Ok (true, wit_after).
Proof. by vm_compute. Qed.


Lemma checks_replace_exact_witness :
  live_run wit_cache 1 "c0ffee" 51 ∧ ¬ live_run wit_after 1 "c0ffee" 51 ∧ live_run wit_after 1 "c0ffee" 50.
Proof.
  destruct (checks_replace_exact wit_digest wit_checks 10 demo_repo true wit_cache wit_after wit_write
    eq_refl wit_runs) as (Hlive & _).
  { intros i row Hrow _ _. unfold wit_cache in Hrow. cbn [wc_checks] in Hrow. apply lookup_insert_Some in Hrow as [[<- <-]|[_ Hrow]];
      [|apply lookup_singleton_Some in Hrow as [<- <-]]; by split. }
  split; [|split].
  - eexists. split; [by vm_compute|]. by split_and!.
  - rewrite Hlive. cbn. rewrite list_elem_of_singleton. done.
  - apply Hlive. cbn. by left.
Defined.

(** A pull request whose stack has no live row belongs to a scope that the
    repository's scopes leave out: a change of the rules is not marked there. *)
Definition orphan_cache : wcache string :=
  mkW (mkCache {[ 9 := demo_repo ]} 1 ∅ [] [] ∅ [] ∅ ∅) ∅
    {[ (1, 4) := mkPullFull 1 (Some 44) "P" 4 "t" "open" false "ann" "topic" "c0ffee" "main" "b0" "" ""
                   (Some 2) (Some 1) (Some 5) (mkProv 5 5 "" "webhook") None None ]} ∅ ∅ [] ∅ ∅.

Example orphan_scope_unmarked :
  ∃ w', applyRepoRulesTx (mkRules wit_record [mkRuleRecord "review" "two approvals" None ""] "" 10 "manual")
          10 orphan_cache = Ok (true, w') ∧
    derivation_dirty (base w') = ∅ ∧
    let view w := ss_Data (scope_view (tables_of w) (ParsedScope "stack:7:9:2" "stack" 7 9 2)) in
    length (sd_pull_requests (view w')) = 1%nat ∧
    length (sd_repo_rules (view orphan_cache)) = 0%nat ∧ length (sd_repo_rules (view w')) = 1%nat.
Proof. eexists. split; [by vm_compute|]. by vm_compute. Qed.
