(* ===== verification/PullRequests.v ===== *)
(** * The pull-request writer

    [internal/store/pull_request.go] with its records in [records.go] and its
    statements in [internal/store/dbgen/cache.sql.go]. One entity transaction writes
    the pull-request row, its review requests, reviews, comments and review threads,
    and the change snapshot with its files and code owners; each table has its own
    write-if-newer condition, and most have a fence on the version of the parent row.

    [apply_pull] is the callback of [applyPullRequest], [tombstone_pull] that of
    [TombstonePullRequestObserved]. The theorems show that the callbacks keep the
    marking contract of the deriver ([Writers.keeps_contract]), that a validated
    record fails only for a missing repository, a repeated review thread or a hook,
    that live files and owners always belong to the live change snapshot, and that an
    older observation leaves a live pull request alone.

    Secondary unique and check constraints of the tables, and the serial [id] columns,
    are left out. *)

From Stdlib Require Import ZArith Lia Bool String Ascii.
From stdpp Require Import sorting strings gmap sets numbers base list.
From S2P Require Import Prelude GoStrings Keys RefreshQueue EntityWriter Derive Writers.

Local Open Scope Z_scope.

(** ** Records *)

Record ReviewThreadRecord : Type := mkThreadRecord {
  tr_ID : string;
  tr_IsResolved : bool;
  tr_IsOutdated : bool;
  tr_Path : string;
  tr_Line : option Z;
  tr_Comments : list ReviewCommentRecord;
  tr_GitHubUpdatedAt : time
}.

Definition ReviewRequestUser : string := "user".
Definition ReviewRequestTeam : string := "team".

Record ReviewRequestRecord : Type := mkRequest {
  rq_Kind : string;
  rq_GitHubID : Z;
  rq_NodeID : string;
  rq_Login : string;
  rq_RequestedAt : option time
}.

Record PullRequestReviewRecord : Type := mkReview {
  rw_GitHubID : Z;
  rw_NodeID : string;
  rw_AuthorKind : string;
  rw_AuthorNodeID : string;
  rw_AuthorLogin : string;
  rw_State : string;
  rw_SubmittedAt : option time;
  rw_CommitOID : string;
  rw_GitHubUpdatedAt : time
}.

Record PullRequestCommentRecord : Type := mkComment {
  cm_GitHubID : Z;
  cm_NodeID : string;
  cm_AuthorKind : string;
  cm_AuthorNodeID : string;
  cm_AuthorLogin : string;
  cm_CreatedAt : time;
  cm_GitHubUpdatedAt : time
}.

Record ChangedFileRecord : Type := mkFile {
  fi_Path : string;
  fi_PreviousPath : string;
  fi_ChangeType : string
}.

Record FileOwnerRecord : Type := mkOwner {
  fo_Path : string;
  fo_OwnerToken : string;
  fo_OwnerType : string;
  fo_OwnerName : string;
  fo_ResolutionState : string;
  fo_OwnerGitHubID : Z;
  fo_OwnerNodeID : string;
  fo_OwnerLogin : string;
  fo_SourcePattern : string;
  fo_SourceLine : Z
}.

Record PullRequestChangeSnapshotRecord : Type := mkSnapshot {
  sn_BaseSHA : string;
  sn_HeadSHA : string;
  sn_ETag : string;
  sn_FilesTotalCount : Z;
  sn_FilesTruncated : bool;
  sn_CodeownersRef : string;
  sn_CodeownersSHA : string;
  sn_CodeownersPath : string;
  sn_CodeownersState : string;
  sn_CodeownersSource : string;
  sn_CodeownersHash : string;
  sn_CodeownersETag : string;
  sn_Files : list ChangedFileRecord;
  sn_Owners : list FileOwnerRecord
}.

Record StackSummaryRecord : Type := mkSummary {
  su_GitHubID : Z;
  su_Number : Z;
  su_Size : Z;
  su_Position : Z;
  su_BaseRef : string;
  su_BaseSHA : string
}.

Record PullRequestRecord : Type := mkPullRecord {
  pl_Repository : RepositoryRecord;
  pl_GitHubID : Z;
  pl_NodeID : string;
  pl_Number : Z;
  pl_Title : string;
  pl_State : string;
  pl_Draft : bool;
  pl_AuthorLogin : string;
  pl_HeadRef : string;
  pl_HeadSHA : string;
  pl_BaseRef : string;
  pl_BaseSHA : string;
  pl_ReviewDecision : string;
  pl_MergeableState : string;
  pl_StackNumber : option Z;
  pl_StackPosition : option Z;
  pl_StackSummary : option StackSummaryRecord;
  pl_MembershipKnown : bool;
  pl_GitHubUpdatedAt : time;
  pl_ReviewThreads : list ReviewThreadRecord;
  pl_ThreadsKnown : bool;
  pl_ReviewRequests : list ReviewRequestRecord;
  pl_ReviewRequestsKnown : bool;
  pl_Reviews : list PullRequestReviewRecord;
  pl_ReviewsKnown : bool;
  pl_Comments : list PullRequestCommentRecord;
  pl_CommentsKnown : bool;
  pl_ChangeSnapshot : option PullRequestChangeSnapshotRecord;
  pl_ChangeInputsKnown : bool;
  pl_ETag : string;
  pl_SyncedAt : time;
  pl_Source : string
}.

Record ApplyPullRequestResult : Type := mkPullResult {
  ap_Applied : bool;
  ap_DomainChanged : bool;
  ap_ReviewRequestsChanged : bool;
  ap_ReviewsChanged : bool;
  ap_CommentsChanged : bool;
  ap_ChangeInputsChanged : bool;
  ap_StackStateChanged : bool;
  ap_OldStackNumber : option Z;
  ap_NewStackNumber : option Z;
  ap_OldHeadSHA : string;
  ap_NewHeadSHA : string
}.

(** ** Validation *)

Definition is_in (s : string) (l : list string) : bool := bool_decide (s ∈ l).

Definition ReviewRequestKind_valid (k : string) : bool :=
  bool_decide (k = ReviewRequestUser) || bool_decide (k = ReviewRequestTeam).

Definition validChangeType (value : string) : bool :=
  is_in value ["added"; "deleted"; "renamed"; "copied"; "modified"; "changed"].

Definition validFileOwner (o : FileOwnerRecord) : bool :=
  is_in (fo_OwnerType o) ["user"; "team"; "email"; "malformed"] &&
  (if is_in (fo_ResolutionState o) ["resolved"] then
     negb (bool_decide (fo_OwnerNodeID o = "")) && negb (bool_decide (fo_OwnerLogin o = ""))
   else if is_in (fo_ResolutionState o) ["unresolved"; "deleted"] then
     (fo_OwnerGitHubID o =? 0) && bool_decide (fo_OwnerNodeID o = "") && bool_decide (fo_OwnerLogin o = "")
   else false).

Definition validParticipationAuthor (kind nodeID login : string) : bool :=
  if is_in kind ["user"; "bot"; "mannequin"; "organization"; "enterprise_user_account"; "unknown"] then true
  else if is_in kind ["deleted"] then bool_decide (nodeID = "") && bool_decide (login = "")
  else false.

Definition invalid {A} (e : pull_error) : result write_error A := Err (InvalidPullRequestRecord e).

Definition require (b : bool) (e : pull_error) : result write_error unit := if b then Ok tt else invalid e.

(** A loop that checks every element and rejects a repeated key. *)
Fixpoint check_all {X K} `{EqDecision K} (valid : X → bool) (key : X → K) (bad dup : pull_error)
    (seen : list K) (l : list X) : result write_error unit :=
  match l with
  | [] => Ok tt
  | x :: l =>
      _ ← require (valid x) bad;
      if bool_decide (key x ∈ seen) then invalid dup
      else check_all valid key bad dup (key x :: seen) l
  end.

(** The byte between the two parts of an owner's key. *)
Definition nul : string := String "000" EmptyString.

Definition request_key (r : ReviewRequestRecord) : string :=
  (rq_Kind r ++ ":" ++ FormatInt (rq_GitHubID r))%string.
Definition owner_key (o : FileOwnerRecord) : string := (fo_Path o ++ nul ++ fo_OwnerToken o)%string.

Definition validateSummary (p : PullRequestRecord) : bool :=
  match pl_StackSummary p with
  | None => true
  | Some s =>
      pl_MembershipKnown p &&
      match pl_StackNumber p, pl_StackPosition p with
      | Some n, Some i =>
          (0 <? su_GitHubID s) && (su_Number s =? n) && (0 <? su_Size s) && (0 <? su_Position s) &&
          (su_Position s =? i) && negb (bool_decide (su_BaseRef s = ""))
      | _, _ => false
      end
  end.

Definition validSource (s : PullRequestChangeSnapshotRecord) : bool :=
  let no v := bool_decide (v = "") in
  if is_in (sn_CodeownersState s) ["present"] then negb (no (sn_CodeownersPath s))
  else if is_in (sn_CodeownersState s) ["missing"] then no (sn_CodeownersPath s) && no (sn_CodeownersSource s)
  else if is_in (sn_CodeownersState s) ["unavailable"] then
    no (sn_CodeownersSHA s) && no (sn_CodeownersPath s) && no (sn_CodeownersSource s)
  else if is_in (sn_CodeownersState s) ["oversized"] then
    negb (no (sn_CodeownersPath s)) && no (sn_CodeownersSource s)
  else false.

Definition validateSnapshot (p : PullRequestRecord) (s : PullRequestChangeSnapshotRecord)
    : result write_error unit :=
  _ ← require (negb (bool_decide (sn_HeadSHA s = "")) && bool_decide (sn_HeadSHA s = pl_HeadSHA p)
               && bool_decide (sn_BaseSHA s = pl_BaseSHA p) && (0 <=? sn_FilesTotalCount s)
               && (Z.of_nat (length (sn_Files s)) <=? sn_FilesTotalCount s)
               && bool_decide (sn_CodeownersRef s = pl_BaseRef p)
               && bool_decide (sn_CodeownersSHA s = pl_BaseSHA p)
               && negb (bool_decide (sn_CodeownersHash s = ""))) InvalidSnapshotFence;
  _ ← require (validSource s) InvalidCodeownersSource;
  _ ← check_all (λ f, negb (bool_decide (fi_Path f = "")) && validChangeType (fi_ChangeType f)) fi_Path
        InvalidChangedFile DuplicateChangedFile [] (sn_Files s);
  check_all (λ o, bool_decide (fo_Path o ∈ map fi_Path (sn_Files s)) &&
                  negb (bool_decide (fo_OwnerToken o = "")) && negb (bool_decide (fo_SourcePattern o = "")) &&
                  (0 <? fo_SourceLine o) && validFileOwner o) owner_key
    InvalidFileOwner DuplicateFileOwner [] (sn_Owners s).

Definition validatePullRequest (p : PullRequestRecord) : result write_error unit :=
  _ ← validateRepository (pl_Repository p) (pl_Source p);
  _ ← require ((0 <? pl_Number p) && (0 <? pl_GitHubID p) && negb (bool_decide (pl_NodeID p = ""))
               && negb (bool_decide (pl_HeadSHA p = "")) && negb (IsZero (pl_GitHubUpdatedAt p))
               && negb (IsZero (pl_SyncedAt p))) InvalidPullRequest;
  _ ← require (negb (pl_MembershipKnown p) ||
               Bool.eqb (bool_decide (pl_StackNumber p = None)) (bool_decide (pl_StackPosition p = None)))
        MembershipMismatch;
  _ ← require (validateSummary p) InvalidStackSummary;
  _ ← check_all (λ r, ReviewRequestKind_valid (rq_Kind r) && (0 <? rq_GitHubID r)
                      && negb (bool_decide (rq_NodeID r = "")) && negb (bool_decide (rq_Login r = "")))
        request_key InvalidReviewRequest DuplicateReviewRequest [] (pl_ReviewRequests p);
  _ ← check_all (λ r, (0 <=? rw_GitHubID r) && negb (bool_decide (rw_NodeID r = ""))
                      && validParticipationAuthor (rw_AuthorKind r) (rw_AuthorNodeID r) (rw_AuthorLogin r)
                      && negb (bool_decide (rw_State r = "")) && negb (IsZero (rw_GitHubUpdatedAt r)))
        rw_NodeID InvalidReview DuplicateReview [] (pl_Reviews p);
  _ ← check_all (λ c, (0 <=? cm_GitHubID c) && negb (bool_decide (cm_NodeID c = ""))
                      && validParticipationAuthor (cm_AuthorKind c) (cm_AuthorNodeID c) (cm_AuthorLogin c)
                      && negb (IsZero (cm_CreatedAt c)) && negb (IsZero (cm_GitHubUpdatedAt c)))
        cm_NodeID InvalidComment DuplicateComment [] (pl_Comments p);
  if pl_ChangeInputsKnown p then
    match pl_ChangeSnapshot p with
    | None => invalid SnapshotRequired
    | Some s => validateSnapshot p s
    end
  else Ok tt.

(** ** Rows *)

Record request_row : Type := mkRequestRow {
  qr_reviewer_node_id : string;
  qr_reviewer_login : string;
  qr_requested_at : option time;
  qr_first_seen_at : time;
  qr_gh_updated_at : time;
  qr_head_sha : string;
  qr_prov : provenance;
  qr_tombstoned_at : option time
}.

Record review_row : Type := mkReviewRow {
  vr_gh_id : option Z;
  vr_repo_id : Z;
  vr_pr_number : Z;
  vr_author_kind : string;
  vr_author_node_id : option string;
  vr_author_login : option string;
  vr_state : string;
  vr_submitted_at : option time;
  vr_commit_oid : option string;
  vr_gh_updated_at : time;
  vr_head_sha : string;
  vr_prov : provenance;
  vr_tombstoned_at : option time
}.

Record comment_row : Type := mkCommentRow {
  mr_gh_id : option Z;
  mr_repo_id : Z;
  mr_pr_number : Z;
  mr_author_kind : string;
  mr_author_node_id : option string;
  mr_author_login : option string;
  mr_created_at : time;
  mr_gh_updated_at : time;
  mr_head_sha : string;
  mr_prov : provenance;
  mr_tombstoned_at : option time
}.

(** The entity tag of the provenance is the one of the CODEOWNERS source. *)
Record snapshot_row : Type := mkSnapshotRow {
  nr_base_sha : string;
  nr_head_sha : string;
  nr_files_total_count : Z;
  nr_files_truncated : bool;
  nr_codeowners_ref : string;
  nr_codeowners_sha : string;
  nr_codeowners_path : option string;
  nr_codeowners_state : string;
  nr_codeowners_source : option string;
  nr_codeowners_hash : string;
  nr_parent_gh_updated_at : time;
  nr_files_etag : string;
  nr_prov : provenance;
  nr_tombstoned_at : option time
}.

Record file_row : Type := mkFileRow {
  fr_previous_path : option string;
  fr_change_type : string;
  fr_base_sha : string;
  fr_head_sha : string;
  fr_prov : provenance;
  fr_tombstoned_at : option time
}.

Record owner_row : Type := mkOwnerRow {
  or_owner_type : string;
  or_owner_name : string;
  or_resolution_state : string;
  or_owner_gh_id : option Z;
  or_owner_node_id : option string;
  or_owner_login : option string;
  or_source_pattern : string;
  or_source_line : Z;
  or_base_sha : string;
  or_head_sha : string;
  or_prov : provenance;
  or_tombstoned_at : option time
}.

(** The writers' tables with the children of pull requests. *)
Record pcache (R : Type) : Type := mkP {
  pc_w : wcache R;
  pc_requests : gmap (Z * Z * string * Z) request_row;
  pc_reviews : gmap string review_row;
  pc_comments : gmap string comment_row;
  pc_snapshots : gmap (Z * Z) snapshot_row;
  pc_files : gmap (Z * Z * string) file_row;
  pc_owners : gmap (Z * Z * string * string) owner_row
}.
Arguments mkP {R}.
Arguments pc_w {R}.
Arguments pc_requests {R}.
Arguments pc_reviews {R}.
Arguments pc_comments {R}.
Arguments pc_snapshots {R}.
Arguments pc_files {R}.
Arguments pc_owners {R}.

(** [NULLIF] on text and on numbers. *)
Definition text_opt (s : string) : option string := if bool_decide (s = "") then None else Some s.
Definition int_opt (z : Z) : option Z := if z =? 0 then None else Some z.

(** ** The pull-request row *)

Definition nullableInt8 (z : Z) : option Z := if 0 <? z then Some z else None.
Definition nullableInt4 (z : option Z) : option Z := wrap32 <$> z.

(** The row an upsert inserts, or writes over [old]. *)
Definition pull_row_of (repoID : Z) (p : PullRequestRecord) (now : time) (old : option pull_full)
    : pull_full :=
  mkPullFull repoID (nullableInt8 (pl_GitHubID p)) (pl_NodeID p) (wrap32 (pl_Number p)) (pl_Title p)
    (ToLower (pl_State p)) (pl_Draft p) (pl_AuthorLogin p) (pl_HeadRef p) (pl_HeadSHA p) (pl_BaseRef p)
    (pl_BaseSHA p) (pl_ReviewDecision p) (pl_MergeableState p)
    (if pl_MembershipKnown p then nullableInt4 (pl_StackNumber p) else old ≫= pf_stack_number)
    (if pl_MembershipKnown p then nullableInt4 (pl_StackPosition p) else old ≫= pf_stack_position)
    (nullable (pl_GitHubUpdatedAt p))
    (mkProv now now
       (if bool_decide (pl_ETag p = "") then from_option (λ o, pv_etag (pf_prov o)) "" old else pl_ETag p)
       (pl_Source p))
    None
    (if bool_decide (ToLower (pl_State p) = "open") then None
     else match old with
          | Some o => if bool_decide (pf_state o = "open") then Some (now + displayWindow) else pf_display_until o
          | None => Some (now + displayWindow)
          end).

Definition pull_semantic (p : pull_full) :=
  (pf_gh_id p, pf_node_id p, pf_title p, pf_state p, pf_draft p, pf_author_login p, pf_head_ref p,
   pf_head_sha p, pf_base_ref p, pf_base_sha p, pf_review_decision p, pf_mergeable_state p,
   pf_stack_number p, pf_stack_position p).

(** The condition of [UpsertPullRequestWriteIfNewer]. *)
Definition pull_newer (old new : pull_full) : bool :=
  bool_decide (pf_gh_updated_at old = None)
  || match pf_gh_updated_at new, pf_gh_updated_at old with Some n, Some o => o <? n | _, _ => false end
  || (bool_decide (pf_gh_updated_at new = pf_gh_updated_at old)
      && negb (bool_decide (pull_semantic new = pull_semantic old)))
  || match pf_tombstoned_at old with
     | Some t => t <? pv_last_checked_at (pf_prov new)
     | None => false
     end.

Definition UpsertPullRequestWriteIfNewer (repoID : Z) (p : PullRequestRecord) (now : time)
    (m : gmap (Z * Z) pull_full) : bool * gmap (Z * Z) pull_full :=
  let k := (repoID, wrap32 (pl_Number p)) in
  match m !! k with
  | None => (true, <[k := pull_row_of repoID p now None]> m)
  | Some old =>
      let new := pull_row_of repoID p now (Some old) in
      if pull_newer old new then (true, <[k := new]> m) else (false, m)
  end.

Definition set_pull_prov (f : provenance → provenance) (p : pull_full) : pull_full :=
  mkPullFull (pf_repo_id p) (pf_gh_id p) (pf_node_id p) (pf_number p) (pf_title p) (pf_state p)
    (pf_draft p) (pf_author_login p) (pf_head_ref p) (pf_head_sha p) (pf_base_ref p) (pf_base_sha p)
    (pf_review_decision p) (pf_mergeable_state p) (pf_stack_number p) (pf_stack_position p)
    (pf_gh_updated_at p) (f (pf_prov p)) (pf_tombstoned_at p) (pf_display_until p).

Definition TouchPullRequestCheckedAt (at_ : time) (etag : string) (repoID number : Z)
    (m : gmap (Z * Z) pull_full) : gmap (Z * Z) pull_full :=
  alter (set_pull_prov (touch_prov at_ etag)) (repoID, wrap32 number) m.

(** [ConfirmPullRequestMetadataCheckedAt], with the number of rows it updates. *)
Definition ConfirmPullRequestMetadataCheckedAt (at_ : time) (etag : string) (repoID number : Z)
    (m : gmap (Z * Z) pull_full) : Z * gmap (Z * Z) pull_full :=
  match m !! (repoID, wrap32 number) with
  | Some p =>
      if bool_decide (pf_tombstoned_at p = None ∧ pv_etag (pf_prov p) = etag)
      then (1, <[(repoID, wrap32 number) := set_pull_prov (touch_prov at_ "") p]> m)
      else (0, m)
  | None => (0, m)
  end.

(** [TombstonePullRequest]: the row it returns, and the table. *)
Definition TombstonePullRequest (at_ : time) (source : string) (repoID number : Z)
    (m : gmap (Z * Z) pull_full) : option (pull_full * gmap (Z * Z) pull_full) :=
  match m !! (repoID, wrap32 number) with
  | Some p =>
      if bool_decide (pf_tombstoned_at p = None) && (pv_last_checked_at (pf_prov p) <=? at_) then
        let row := mkPullFull (pf_repo_id p) (pf_gh_id p) (pf_node_id p) (pf_number p) (pf_title p)
          (pf_state p) (pf_draft p) (pf_author_login p) (pf_head_ref p) (pf_head_sha p) (pf_base_ref p)
          (pf_base_sha p) (pf_review_decision p) (pf_mergeable_state p) (pf_stack_number p)
          (pf_stack_position p) (pf_gh_updated_at p)
          (mkProv at_ (Z.max (pv_last_checked_at (pf_prov p)) at_) "" source) (Some at_) None in
        Some (row, <[(repoID, wrap32 number) := row]> m)
      else None
  | None => None
  end.

(** The fence of the participation tables: a live parent that is not newer. *)
Definition eligible_pull (repoID number : Z) (at_ : time) (m : gmap (Z * Z) pull_full) : bool :=
  match m !! (repoID, wrap32 number) with
  | Some p => bool_decide (pf_tombstoned_at p = None) &&
              match pf_gh_updated_at p with None => true | Some t => t <=? at_ end
  | None => false
  end.

(** A replacement behind a fence. *)
Definition fenced {K V} `{Countable K} (open_ : bool) (replace : gmap K V → option (list K * gmap K V))
    (m : gmap K V) : option (list K * gmap K V) :=
  if open_ then replace m else Some ([], m).

(** A new time of the last check, and the new source. *)
Definition kill_prov (at_ : time) (etag source : string) : provenance := mkProv at_ at_ etag source.

(** The provenance of a row that is tombstoned with its pull request. *)
Definition gone_prov (at_ : time) (source : string) (p : provenance) : provenance :=
  mkProv at_ (Z.max (pv_last_checked_at p) at_) "" source.

(** ** Review requests *)

Definition request_dbkey (repoID number : Z) (r : ReviewRequestRecord) : Z * Z * string * Z :=
  (repoID, wrap32 number, rq_Kind r, rq_GitHubID r).

(** The time of the request: kept while GitHub does not report one. *)
Definition requested_at (old : option request_row) (r : ReviewRequestRecord) : option time :=
  match old with
  | Some o =>
      if bool_decide (qr_tombstoned_at o = None)
      then match rq_RequestedAt r with Some t => Some t | None => qr_requested_at o end
      else rq_RequestedAt r
  | None => rq_RequestedAt r
  end.

Definition request_row_of (head etag source : string) (updatedAt now : time) (old : option request_row)
    (r : ReviewRequestRecord) : request_row :=
  mkRequestRow (rq_NodeID r) (rq_Login r) (requested_at old r)
    (match old with
     | Some o => if bool_decide (qr_tombstoned_at o = None) then qr_first_seen_at o else now
     | None => now
     end) updatedAt head (mkProv now now etag source) None.

Definition request_newer (head : string) (old : request_row) (r : ReviewRequestRecord) : bool :=
  negb (bool_decide (qr_tombstoned_at old = None))
  || negb (bool_decide ((rq_NodeID r, rq_Login r, requested_at (Some old) r, head) =
       (qr_reviewer_node_id old, qr_reviewer_login old, qr_requested_at old, qr_head_sha old))).

Definition request_with (p : provenance) (t : option time) (q : request_row) : request_row :=
  mkRequestRow (qr_reviewer_node_id q) (qr_reviewer_login q) (qr_requested_at q) (qr_first_seen_at q)
    (qr_gh_updated_at q) (qr_head_sha q) p t.

Definition request_mine (repoID number : Z) (k : Z * Z * string * Z) (q : request_row) : bool :=
  bool_decide (k.1.1.1 = repoID ∧ k.1.1.2 = wrap32 number ∧ qr_tombstoned_at q = None).

Definition ReplacePullRequestReviewRequests (repoID number : Z) (head etag source : string)
    (updatedAt now : time) (pulls : gmap (Z * Z) pull_full) (input : list ReviewRequestRecord)
    (m : gmap (Z * Z * string * Z) request_row) :=
  fenced (eligible_pull repoID number updatedAt pulls)
    (replace_rows (request_dbkey repoID number) (request_row_of head etag source updatedAt now)
       (request_newer head) (request_mine repoID number)
       (request_with (kill_prov now etag source) (Some now)) input) m.

Definition TouchPullRequestReviewRequestsCheckedAt (at_ : time) (etag : string) (repoID number : Z)
    (updatedAt : time) (pulls : gmap (Z * Z) pull_full) (m : gmap (Z * Z * string * Z) request_row) :=
  if eligible_pull repoID number updatedAt pulls then
    map_imap (λ k q, Some (if request_mine repoID number k q
      then request_with (touch_prov at_ etag (qr_prov q)) (qr_tombstoned_at q) q else q)) m
  else m.

Definition TombstonePullRequestReviewRequests (at_ : time) (source : string) (repoID number : Z)
    (m : gmap (Z * Z * string * Z) request_row) :=
  map_imap (λ k q, Some (if request_mine repoID number k q
    then request_with (gone_prov at_ source (qr_prov q)) (Some at_) q else q)) m.

(** ** Reviews *)

(** The order of the states of a review: lifecycle, submission, update. *)
Definition review_basis (v : review_row) : Z * option time * time :=
  (if bool_decide (vr_state v = "dismissed") then 2
   else if bool_decide (vr_submitted_at v = None) then 0 else 1,
   vr_submitted_at v, vr_gh_updated_at v).

(** Row comparison; no submission is earlier than any. *)
Definition opt_lt (a b : option time) : bool :=
  match a, b with
  | None, Some _ => true
  | Some a, Some b => a <? b
  | _, None => false
  end.

Definition basis_lt (a b : Z * option time * time) : bool :=
  (a.1.1 <? b.1.1)
  || ((a.1.1 =? b.1.1)
      && (opt_lt a.1.2 b.1.2 || (bool_decide (a.1.2 = b.1.2) && (a.2 <? b.2)))).

Definition review_row_of (repoID number : Z) (head etag source : string) (now : time)
    (r : PullRequestReviewRecord) : review_row :=
  mkReviewRow (int_opt (rw_GitHubID r)) repoID (wrap32 number) (rw_AuthorKind r)
    (text_opt (rw_AuthorNodeID r)) (text_opt (rw_AuthorLogin r)) (ToLower (rw_State r))
    (rw_SubmittedAt r) (text_opt (rw_CommitOID r)) (rw_GitHubUpdatedAt r) head
    (mkProv now now etag source) None.

Definition review_semantic (v : review_row) :=
  (vr_gh_id v, vr_repo_id v, vr_pr_number v, vr_author_kind v, vr_author_node_id v, vr_author_login v,
   vr_state v, vr_submitted_at v, vr_commit_oid v, vr_head_sha v).

(** At equal basis: a live row when it differs, a tombstoned row when it is older. *)
Definition refreshes {S} `{EqDecision S} (oldTombstone : option time) (checkedAt : time) (old new : S) : bool :=
  match oldTombstone with
  | None => negb (bool_decide (new = old))
  | Some t => t <? checkedAt
  end.

Definition review_newer (old new : review_row) : bool :=
  basis_lt (review_basis old) (review_basis new)
  || (bool_decide (review_basis new = review_basis old)
      && refreshes (vr_tombstoned_at old) (pv_last_checked_at (vr_prov new))
           (review_semantic old) (review_semantic new)).

Definition review_with (p : provenance) (t : option time) (v : review_row) : review_row :=
  mkReviewRow (vr_gh_id v) (vr_repo_id v) (vr_pr_number v) (vr_author_kind v) (vr_author_node_id v)
    (vr_author_login v) (vr_state v) (vr_submitted_at v) (vr_commit_oid v) (vr_gh_updated_at v)
    (vr_head_sha v) p t.

Definition review_mine (repoID number : Z) (v : review_row) : bool :=
  bool_decide (vr_repo_id v = repoID ∧ vr_pr_number v = wrap32 number ∧ vr_tombstoned_at v = None).

Definition ReplacePullRequestReviews (repoID number : Z) (head etag source : string)
    (updatedAt now : time) (pulls : gmap (Z * Z) pull_full) (input : list PullRequestReviewRecord)
    (m : gmap string review_row) :=
  let row := review_row_of repoID number head etag source now in
  fenced (eligible_pull repoID number updatedAt pulls)
    (replace_rows rw_NodeID (λ _, row) (λ v r, review_newer v (row r))
       (λ _ v, review_mine repoID number v && (pv_last_checked_at (vr_prov v) <=? now))
       (review_with (kill_prov now etag source) (Some now)) input) m.

Definition TouchPullRequestReviewsCheckedAt (at_ : time) (etag : string) (repoID number : Z)
    (updatedAt : time) (pulls : gmap (Z * Z) pull_full) (m : gmap string review_row) : gmap string review_row :=
  if eligible_pull repoID number updatedAt pulls then
    (λ v, if review_mine repoID number v
          then review_with (touch_prov at_ etag (vr_prov v)) (vr_tombstoned_at v) v else v) <$> m
  else m.

Definition TombstonePullRequestReviews (at_ : time) (source : string) (repoID number : Z)
    (m : gmap string review_row) : gmap string review_row :=
  (λ v, if review_mine repoID number v
        then review_with (gone_prov at_ source (vr_prov v)) (Some at_) v else v) <$> m.

(** ** Comments *)

Definition comment_row_of (repoID number : Z) (head etag source : string) (now : time)
    (c : PullRequestCommentRecord) : comment_row :=
  mkCommentRow (int_opt (cm_GitHubID c)) repoID (wrap32 number) (cm_AuthorKind c)
    (text_opt (cm_AuthorNodeID c)) (text_opt (cm_AuthorLogin c)) (cm_CreatedAt c) (cm_GitHubUpdatedAt c)
    head (mkProv now now etag source) None.

Definition comment_semantic (c : comment_row) :=
  (mr_gh_id c, mr_repo_id c, mr_pr_number c, mr_author_kind c, mr_author_node_id c, mr_author_login c,
   mr_created_at c, mr_head_sha c).

Definition comment_newer (old new : comment_row) : bool :=
  (mr_gh_updated_at old <? mr_gh_updated_at new)
  || ((mr_gh_updated_at new =? mr_gh_updated_at old)
      && refreshes (mr_tombstoned_at old) (pv_last_checked_at (mr_prov new))
           (comment_semantic old) (comment_semantic new)).

Definition comment_with (p : provenance) (t : option time) (c : comment_row) : comment_row :=
  mkCommentRow (mr_gh_id c) (mr_repo_id c) (mr_pr_number c) (mr_author_kind c) (mr_author_node_id c)
    (mr_author_login c) (mr_created_at c) (mr_gh_updated_at c) (mr_head_sha c) p t.

Definition comment_mine (repoID number : Z) (c : comment_row) : bool :=
  bool_decide (mr_repo_id c = repoID ∧ mr_pr_number c = wrap32 number ∧ mr_tombstoned_at c = None).

Definition ReplacePullRequestComments (repoID number : Z) (head etag source : string)
    (updatedAt now : time) (pulls : gmap (Z * Z) pull_full) (input : list PullRequestCommentRecord)
    (m : gmap string comment_row) :=
  let row := comment_row_of repoID number head etag source now in
  fenced (eligible_pull repoID number updatedAt pulls)
    (replace_rows cm_NodeID (λ _, row) (λ c r, comment_newer c (row r))
       (λ _ c, comment_mine repoID number c && (pv_last_checked_at (mr_prov c) <=? now))
       (comment_with (kill_prov now etag source) (Some now)) input) m.

Definition TouchPullRequestCommentsCheckedAt (at_ : time) (etag : string) (repoID number : Z)
    (updatedAt : time) (pulls : gmap (Z * Z) pull_full) (m : gmap string comment_row) : gmap string comment_row :=
  if eligible_pull repoID number updatedAt pulls then
    (λ c, if comment_mine repoID number c
          then comment_with (touch_prov at_ etag (mr_prov c)) (mr_tombstoned_at c) c else c) <$> m
  else m.

Definition TombstonePullRequestComments (at_ : time) (source : string) (repoID number : Z)
    (m : gmap string comment_row) : gmap string comment_row :=
  (λ c, if comment_mine repoID number c
        then comment_with (gone_prov at_ source (mr_prov c)) (Some at_) c else c) <$> m.

(** ** Review threads *)

Definition thread_row_of (repoID number : Z) (head etag source : string) (now : time)
    (t : ReviewThreadRecord) : thread_full :=
  mkThreadFull repoID (wrap32 number) (tr_IsResolved t) (tr_IsOutdated t) (tr_Path t) (tr_Line t)
    (tr_Comments t) (Some (tr_GitHubUpdatedAt t)) head (mkProv now now etag source) None.

Definition thread_semantic (t : thread_full) :=
  (tf_repo_id t, tf_pr_number t, tf_is_resolved t, tf_is_outdated t, tf_path t, tf_line t,
   tf_comments t, tf_head_sha t).

Definition thread_newer (old new : thread_full) : bool :=
  bool_decide (tf_gh_updated_at old = None)
  || match tf_gh_updated_at new, tf_gh_updated_at old with Some n, Some o => o <? n | _, _ => false end
  || (bool_decide (tf_gh_updated_at new = tf_gh_updated_at old)
      && negb (bool_decide (thread_semantic new = thread_semantic old)))
  || match tf_tombstoned_at old with
     | Some t => t <? pv_last_checked_at (tf_prov new)
     | None => false
     end.

Definition thread_with (p : provenance) (d : option time) (t : thread_full) : thread_full :=
  mkThreadFull (tf_repo_id t) (tf_pr_number t) (tf_is_resolved t) (tf_is_outdated t) (tf_path t)
    (tf_line t) (tf_comments t) (tf_gh_updated_at t) (tf_head_sha t) p d.

Definition thread_dead (repoID number : Z) (now : time) (t : thread_full) : bool :=
  bool_decide (tf_repo_id t = repoID ∧ tf_pr_number t = wrap32 number ∧ tf_tombstoned_at t = None)
  && (pv_last_checked_at (tf_prov t) <=? now).

(** [ReplaceReviewThreads]: the only replacement without a fence on the parent. *)
Definition ReplaceReviewThreads (repoID number : Z) (head etag source : string) (now : time)
    (input : list ReviewThreadRecord) (m : gmap string thread_full) :=
  let row := thread_row_of repoID number head etag source now in
  replace_rows tr_ID (λ _, row) (λ t r, thread_newer t (row r)) (λ _, thread_dead repoID number now)
    (thread_with (kill_prov now etag source) (Some now)) input m.

Definition TouchReviewThreadsCheckedAt (at_ : time) (repoID number : Z) (m : gmap string thread_full)
    : gmap string thread_full :=
  (λ t, if bool_decide (tf_repo_id t = repoID ∧ tf_pr_number t = wrap32 number)
        then thread_with (touch_prov at_ "" (tf_prov t)) (tf_tombstoned_at t) t else t) <$> m.

(** ** Change inputs *)

Definition snapshot_semantic (n : snapshot_row) :=
  (nr_base_sha n, nr_head_sha n, nr_files_total_count n, nr_files_truncated n, nr_codeowners_ref n,
   nr_codeowners_sha n, nr_codeowners_path n, nr_codeowners_state n, nr_codeowners_source n,
   nr_codeowners_hash n).

Definition snapshot_row_of (s : PullRequestChangeSnapshotRecord) (source : string) (parentAt now : time)
    : snapshot_row :=
  mkSnapshotRow (sn_BaseSHA s) (sn_HeadSHA s) (wrap32 (sn_FilesTotalCount s)) (sn_FilesTruncated s)
    (sn_CodeownersRef s) (sn_CodeownersSHA s) (text_opt (sn_CodeownersPath s)) (sn_CodeownersState s)
    (if bool_decide (sn_CodeownersState s = "present") then Some (sn_CodeownersSource s) else None)
    (sn_CodeownersHash s) parentAt (sn_ETag s) (mkProv now now (sn_CodeownersETag s) source) None.

(** Whether a write changes more than validators and times. *)
Definition snapshot_changed (old new : snapshot_row) : bool :=
  negb (bool_decide (nr_tombstoned_at old = None))
  || negb (bool_decide (snapshot_semantic new = snapshot_semantic old)).

Definition snapshot_newer (old new : snapshot_row) : bool :=
  (nr_parent_gh_updated_at old <? nr_parent_gh_updated_at new)
  || ((nr_parent_gh_updated_at new =? nr_parent_gh_updated_at old)
      && negb (bool_decide (snapshot_semantic new = snapshot_semantic old)))
  || match nr_tombstoned_at old with
     | Some t => t <? pv_last_checked_at (nr_prov new)
     | None => false
     end.

Definition snapshot_with (p : provenance) (filesETag : string) (t : option time) (n : snapshot_row)
    : snapshot_row :=
  mkSnapshotRow (nr_base_sha n) (nr_head_sha n) (nr_files_total_count n) (nr_files_truncated n)
    (nr_codeowners_ref n) (nr_codeowners_sha n) (nr_codeowners_path n) (nr_codeowners_state n)
    (nr_codeowners_source n) (nr_codeowners_hash n) (nr_parent_gh_updated_at n) filesETag p t.

(** The row written over [old]: when and from where it was synced stays unless
    something changed. *)
Definition snapshot_over (old new : snapshot_row) : snapshot_row :=
  if snapshot_changed old new then new
  else snapshot_with (mkProv (pv_synced_at (nr_prov old)) (pv_last_checked_at (nr_prov new))
                        (pv_etag (nr_prov new)) (pv_sync_source (nr_prov old)))
         (nr_files_etag new) None new.

(** The fence of the snapshot: a live parent at the same commits that is not newer. *)
Definition eligible_commits (repoID number : Z) (base head : string) (at_ : time)
    (m : gmap (Z * Z) pull_full) : bool :=
  eligible_pull repoID number at_ m &&
  match m !! (repoID, wrap32 number) with
  | Some p => bool_decide (pf_head_sha p = head ∧ pf_base_sha p = base)
  | None => false
  end.

(** [UpsertPullRequestChangeSnapshot], with the count it returns. *)
Definition UpsertPullRequestChangeSnapshot (repoID number : Z) (s : PullRequestChangeSnapshotRecord)
    (source : string) (parentAt now : time) (pulls : gmap (Z * Z) pull_full)
    (m : gmap (Z * Z) snapshot_row) : Z * gmap (Z * Z) snapshot_row :=
  let k := (repoID, wrap32 number) in
  let new := snapshot_row_of s source parentAt now in
  if eligible_commits repoID number (sn_BaseSHA s) (sn_HeadSHA s) parentAt pulls then
    match m !! k with
    | None => (1, <[k := new]> m)
    | Some old =>
        if snapshot_newer old new
        then ((if snapshot_changed old new then 1 else 0), <[k := snapshot_over old new]> m)
        else (0, m)
    end
  else (0, m).

(** The fences of the files and owners, and of their touches. *)
Definition live_snapshot (repoID number : Z) (at_ : time) (m : gmap (Z * Z) snapshot_row)
    : option snapshot_row :=
  match m !! (repoID, wrap32 number) with
  | Some n => if bool_decide (nr_tombstoned_at n = None) && (nr_parent_gh_updated_at n <=? at_)
              then Some n else None
  | None => None
  end.

Definition eligible_snapshot (repoID number : Z) (base head : string) (at_ : time)
    (m : gmap (Z * Z) snapshot_row) : bool :=
  match live_snapshot repoID number at_ m with
  | Some n => bool_decide (nr_base_sha n = base ∧ nr_head_sha n = head)
  | None => false
  end.

Definition TouchPullRequestChangeInputsCheckedAt (at_ : time) (codeownersETag filesETag : string)
    (repoID number : Z) (parentAt : time) (m : gmap (Z * Z) snapshot_row) : gmap (Z * Z) snapshot_row :=
  match live_snapshot repoID number parentAt m with
  | Some n => <[(repoID, wrap32 number) :=
      snapshot_with (touch_prov at_ codeownersETag (nr_prov n))
        (if bool_decide (filesETag = "") then nr_files_etag n else filesETag) (nr_tombstoned_at n) n]> m
  | None => m
  end.

Definition TombstonePullRequestChangeSnapshot (at_ : time) (source : string) (repoID number : Z)
    (m : gmap (Z * Z) snapshot_row) : gmap (Z * Z) snapshot_row :=
  alter (λ n, if bool_decide (nr_tombstoned_at n = None)
              then snapshot_with (gone_prov at_ source (nr_prov n)) "" (Some at_) n else n)
    (repoID, wrap32 number) m.

Definition file_row_of (s : PullRequestChangeSnapshotRecord) (etag source : string) (now : time)
    (f : ChangedFileRecord) : file_row :=
  mkFileRow (text_opt (fi_PreviousPath f)) (ToLower (fi_ChangeType f)) (sn_BaseSHA s) (sn_HeadSHA s)
    (mkProv now now etag source) None.

Definition file_semantic (f : file_row) :=
  (fr_previous_path f, fr_change_type f, fr_base_sha f, fr_head_sha f).

Definition file_newer (old new : file_row) : bool :=
  negb (bool_decide (file_semantic new = file_semantic old)) || negb (bool_decide (fr_tombstoned_at old = None)).

Definition file_with (p : provenance) (t : option time) (f : file_row) : file_row :=
  mkFileRow (fr_previous_path f) (fr_change_type f) (fr_base_sha f) (fr_head_sha f) p t.

Definition file_mine (repoID number : Z) (k : Z * Z * string) (f : file_row) : bool :=
  bool_decide (k.1.1 = repoID ∧ k.1.2 = wrap32 number ∧ fr_tombstoned_at f = None).

Definition ReplacePullRequestChangedFiles (repoID number : Z) (s : PullRequestChangeSnapshotRecord)
    (etag source : string) (parentAt now : time) (snapshots : gmap (Z * Z) snapshot_row)
    (m : gmap (Z * Z * string) file_row) :=
  let row := file_row_of s etag source now in
  fenced (eligible_snapshot repoID number (sn_BaseSHA s) (sn_HeadSHA s) parentAt snapshots)
    (replace_rows (λ f, (repoID, wrap32 number, fi_Path f)) (λ _, row) (λ o f, file_newer o (row f))
       (file_mine repoID number) (file_with (kill_prov now etag source) (Some now)) (sn_Files s)) m.

Definition TouchPullRequestChangedFilesCheckedAt (at_ : time) (etag : string) (repoID number : Z)
    (parentAt : time) (snapshots : gmap (Z * Z) snapshot_row) (m : gmap (Z * Z * string) file_row) :=
  match live_snapshot repoID number parentAt snapshots with
  | Some _ => map_imap (λ k f, Some (if file_mine repoID number k f
      then file_with (touch_prov at_ etag (fr_prov f)) (fr_tombstoned_at f) f else f)) m
  | None => m
  end.

Definition TombstonePullRequestChangedFiles (at_ : time) (source : string) (repoID number : Z)
    (m : gmap (Z * Z * string) file_row) :=
  map_imap (λ k f, Some (if file_mine repoID number k f
    then file_with (gone_prov at_ source (fr_prov f)) (Some at_) f else f)) m.

Definition owner_row_of (s : PullRequestChangeSnapshotRecord) (etag source : string) (now : time)
    (o : FileOwnerRecord) : owner_row :=
  mkOwnerRow (fo_OwnerType o) (fo_OwnerName o) (fo_ResolutionState o) (int_opt (fo_OwnerGitHubID o))
    (text_opt (fo_OwnerNodeID o)) (text_opt (fo_OwnerLogin o)) (fo_SourcePattern o) (fo_SourceLine o)
    (sn_BaseSHA s) (sn_HeadSHA s) (mkProv now now etag source) None.

Definition owner_semantic (o : owner_row) :=
  (or_owner_type o, or_owner_name o, or_resolution_state o, or_owner_gh_id o, or_owner_node_id o,
   or_owner_login o, or_source_pattern o, or_source_line o, or_base_sha o, or_head_sha o).

Definition owner_newer (old new : owner_row) : bool :=
  negb (bool_decide (owner_semantic new = owner_semantic old)) || negb (bool_decide (or_tombstoned_at old = None)).

Definition owner_with (p : provenance) (t : option time) (o : owner_row) : owner_row :=
  mkOwnerRow (or_owner_type o) (or_owner_name o) (or_resolution_state o) (or_owner_gh_id o)
    (or_owner_node_id o) (or_owner_login o) (or_source_pattern o) (or_source_line o) (or_base_sha o)
    (or_head_sha o) p t.

Definition owner_mine (repoID number : Z) (k : Z * Z * string * string) (o : owner_row) : bool :=
  bool_decide (k.1.1.1 = repoID ∧ k.1.1.2 = wrap32 number ∧ or_tombstoned_at o = None).

Definition ReplacePullRequestFileOwners (repoID number : Z) (s : PullRequestChangeSnapshotRecord)
    (etag source : string) (parentAt now : time) (snapshots : gmap (Z * Z) snapshot_row)
    (m : gmap (Z * Z * string * string) owner_row) :=
  let row := owner_row_of s etag source now in
  fenced (eligible_snapshot repoID number (sn_BaseSHA s) (sn_HeadSHA s) parentAt snapshots)
    (replace_rows (λ o, (repoID, wrap32 number, fo_Path o, fo_OwnerToken o)) (λ _, row)
       (λ o f, owner_newer o (row f)) (owner_mine repoID number)
       (owner_with (kill_prov now etag source) (Some now)) (sn_Owners s)) m.

Definition TouchPullRequestFileOwnersCheckedAt (at_ : time) (etag : string) (repoID number : Z)
    (parentAt : time) (snapshots : gmap (Z * Z) snapshot_row) (m : gmap (Z * Z * string * string) owner_row) :=
  match live_snapshot repoID number parentAt snapshots with
  | Some _ => map_imap (λ k o, Some (if owner_mine repoID number k o
      then owner_with (touch_prov at_ etag (or_prov o)) (or_tombstoned_at o) o else o)) m
  | None => m
  end.

Definition TombstonePullRequestFileOwners (at_ : time) (source : string) (repoID number : Z)
    (m : gmap (Z * Z * string * string) owner_row) :=
  map_imap (λ k o, Some (if owner_mine repoID number k o
    then owner_with (gone_prov at_ source (or_prov o)) (Some at_) o else o)) m.

(** ** The writer *)

Definition PullRequestChangedKind : string := "pull_request.changed".
Definition PullRequestTombstonedKind : string := "pull_request.tombstoned".

Definition no_pull_result : ApplyPullRequestResult :=
  mkPullResult false false false false false false false None None "" "".

(** [pullStackSummaryMatches]. *)
Definition pullStackSummaryMatches {R} (repo : repo_row) (prNumber : Z) (s : StackSummaryRecord)
    (w : wcache R) : bool :=
  if su_Size s <? su_Position s then false
  else if bool_decide (su_BaseSHA s = "") then false
  else
    match wc_stacks w !! (rp_id repo, wrap32 (su_Number s)) with
    | None => false
    | Some k =>
        if negb (bool_decide (sf_tombstoned_at k = None)) || negb (bool_decide (sf_gh_id k = Some (su_GitHubID s)))
           || negb (bool_decide (sf_base_ref k = su_BaseRef s)) || bool_decide (sf_base_sha k = "")
           || negb (bool_decide (sf_base_sha k = su_BaseSHA s))
        then false
        else (Z.of_nat (length (sf_entries k)) =? su_Size s) &&
             (su_Position s <=? Z.of_nat (length (sf_entries k))) &&
             bool_decide (se_Number <$> sf_entries k !! Z.to_nat (su_Position s - 1) = Some prNumber)
    end.

(** What of a pull request the members of its stack see. *)
Definition stack_state (p : pull_full) :=
  (pf_stack_number p, pf_stack_position p, pf_state p, pf_draft p, pf_head_ref p, pf_head_sha p,
   pf_base_ref p, pf_base_sha p).

Definition stack_state_changed (old : option pull_full) (row : pull_full) : bool :=
  match old with
  | None => bool_decide (pf_stack_number row ≠ None)
  | Some o => bool_decide ((pf_stack_number o ≠ None ∨ pf_stack_number row ≠ None) ∧
                           stack_state o ≠ stack_state row)
  end.

Section writer.
Context {R : Type}.

Definition set_w (w : wcache R) (p : pcache R) : pcache R :=
  mkP w (pc_requests p) (pc_reviews p) (pc_comments p) (pc_snapshots p) (pc_files p) (pc_owners p).
Definition set_requests m (p : pcache R) : pcache R :=
  mkP (pc_w p) m (pc_reviews p) (pc_comments p) (pc_snapshots p) (pc_files p) (pc_owners p).
Definition set_reviews m (p : pcache R) : pcache R :=
  mkP (pc_w p) (pc_requests p) m (pc_comments p) (pc_snapshots p) (pc_files p) (pc_owners p).
Definition set_comments m (p : pcache R) : pcache R :=
  mkP (pc_w p) (pc_requests p) (pc_reviews p) m (pc_snapshots p) (pc_files p) (pc_owners p).
Definition set_changes ms mf mo (p : pcache R) : pcache R :=
  mkP (pc_w p) (pc_requests p) (pc_reviews p) (pc_comments p) ms mf mo.

Definition pulls (p : pcache R) : gmap (Z * Z) pull_full := wc_pulls (pc_w p).

(** Whether a replacement reported rows, and the error of one that failed. *)
Definition replaced {K V} `{Countable K} (r : option (list K * gmap K V)) : result write_error (bool * gmap K V) :=
  match r with
  | None => Err DuplicateRow
  | Some (changed, m) => Ok (negb (bool_decide (changed = [])), m)
  end.

(** The row: whether it was written, the row as it is now, and the touch. *)
Definition write_pull (repo : repo_row) (r : PullRequestRecord) (now : time) (p : pcache R)
    : result write_error (bool * pull_full * pcache R) :=
  let '(changed, m) := UpsertPullRequestWriteIfNewer (rp_id repo) r now (pulls p) in
  match m !! (rp_id repo, wrap32 (pl_Number r)) with
  | None => Err PullRequestNotFound
  | Some row =>
      Ok (changed, row,
          set_w (set_pulls (TouchPullRequestCheckedAt now (pl_ETag r) (rp_id repo) (pl_Number r) m) (pc_w p)) p)
  end.

Definition write_requests (repo : repo_row) (r : PullRequestRecord) (head : string) (now : time)
    (p : pcache R) : result write_error (bool * pcache R) :=
  if pl_ReviewRequestsKnown r then
    '(changed, m) ← replaced (ReplacePullRequestReviewRequests (rp_id repo) (pl_Number r) head (pl_ETag r)
      (pl_Source r) (pl_GitHubUpdatedAt r) now (pulls p) (pl_ReviewRequests r) (pc_requests p));
    Ok (changed, set_requests (TouchPullRequestReviewRequestsCheckedAt now (pl_ETag r) (rp_id repo)
                   (pl_Number r) (pl_GitHubUpdatedAt r) (pulls p) m) p)
  else Ok (false, p).

Definition write_reviews (repo : repo_row) (r : PullRequestRecord) (head : string) (now : time)
    (p : pcache R) : result write_error (bool * pcache R) :=
  if pl_ReviewsKnown r then
    '(changed, m) ← replaced (ReplacePullRequestReviews (rp_id repo) (pl_Number r) head (pl_ETag r)
      (pl_Source r) (pl_GitHubUpdatedAt r) now (pulls p) (pl_Reviews r) (pc_reviews p));
    Ok (changed, set_reviews (TouchPullRequestReviewsCheckedAt now (pl_ETag r) (rp_id repo)
                   (pl_Number r) (pl_GitHubUpdatedAt r) (pulls p) m) p)
  else Ok (false, p).

Definition write_comments (repo : repo_row) (r : PullRequestRecord) (head : string) (now : time)
    (p : pcache R) : result write_error (bool * pcache R) :=
  if pl_CommentsKnown r then
    '(changed, m) ← replaced (ReplacePullRequestComments (rp_id repo) (pl_Number r) head (pl_ETag r)
      (pl_Source r) (pl_GitHubUpdatedAt r) now (pulls p) (pl_Comments r) (pc_comments p));
    Ok (changed, set_comments (TouchPullRequestCommentsCheckedAt now (pl_ETag r) (rp_id repo)
                   (pl_Number r) (pl_GitHubUpdatedAt r) (pulls p) m) p)
  else Ok (false, p).

(** A validated record that knows its change inputs has a snapshot. *)
Definition write_changes (repo : repo_row) (r : PullRequestRecord) (now : time) (p : pcache R)
    : result write_error (bool * pcache R) :=
  match pl_ChangeInputsKnown r, pl_ChangeSnapshot r with
  | true, Some s =>
      let '(count, ms) := UpsertPullRequestChangeSnapshot (rp_id repo) (pl_Number r) s (pl_Source r)
        (pl_GitHubUpdatedAt r) now (pulls p) (pc_snapshots p) in
      '(changedFiles, mf) ← replaced (ReplacePullRequestChangedFiles (rp_id repo) (pl_Number r) s (pl_ETag r)
        (pl_Source r) (pl_GitHubUpdatedAt r) now ms (pc_files p));
      '(changedOwners, mo) ← replaced (ReplacePullRequestFileOwners (rp_id repo) (pl_Number r) s (pl_ETag r)
        (pl_Source r) (pl_GitHubUpdatedAt r) now ms (pc_owners p));
      let ms := TouchPullRequestChangeInputsCheckedAt now (sn_CodeownersETag s) (sn_ETag s) (rp_id repo)
        (pl_Number r) (pl_GitHubUpdatedAt r) ms in
      Ok ((0 <? count) || changedFiles || changedOwners,
          set_changes ms
            (TouchPullRequestChangedFilesCheckedAt now (pl_ETag r) (rp_id repo) (pl_Number r)
               (pl_GitHubUpdatedAt r) ms mf)
            (TouchPullRequestFileOwnersCheckedAt now (pl_ETag r) (rp_id repo) (pl_Number r)
               (pl_GitHubUpdatedAt r) ms mo) p)
  | true, None => invalid SnapshotRequired
  | false, _ => Ok (false, p)
  end.

Definition write_threads (repo : repo_row) (r : PullRequestRecord) (head : string) (now : time)
    (p : pcache R) : result write_error (bool * pcache R) :=
  if pl_ThreadsKnown r then
    '(changed, m) ← replaced (ReplaceReviewThreads (rp_id repo) (pl_Number r) head (pl_ETag r) (pl_Source r)
      now (pl_ReviewThreads r) (wc_threads (pc_w p)));
    Ok (changed, set_w (set_threads (TouchReviewThreadsCheckedAt now (rp_id repo) (pl_Number r) m) (pc_w p)) p)
  else Ok (false, p).

(** The callback of [applyPullRequest]. *)
Definition apply_pull (r : PullRequestRecord) (hook : option (ApplyPullRequestResult → result write_error unit))
    (now : time) (p : pcache R) : result write_error (ApplyPullRequestResult * pcache R) :=
  let installation := InstallationID (pl_Repository r) in
  let repository := GitHubID (pl_Repository r) in
  let key := Outbox.PullRequestKey installation repository (pl_Number r) in
  repo ← find_repo repository (pc_w p);
  let old := pulls p !! (rp_id repo, wrap32 (pl_Number r)) in
  '(domain, row, p1) ← write_pull repo r now p;
  let summaryMismatch :=
    match pl_StackSummary r with
    | None => false
    | Some s => negb (pullStackSummaryMatches repo (pl_Number r) s (pc_w p))
    end in
  '(requests, p2) ← write_requests repo r (pf_head_sha row) now p1;
  '(reviews, p3) ← write_reviews repo r (pf_head_sha row) now p2;
  '(comments, p4) ← write_comments repo r (pf_head_sha row) now p3;
  '(changes, p5) ← write_changes repo r now p4;
  '(threads, p6) ← write_threads repo r (pf_head_sha row) now p5;
  let applied := domain || threads || requests || reviews || comments || changes in
  let result := mkPullResult applied domain requests reviews comments changes
    ((domain && stack_state_changed old row) || summaryMismatch)
    (old ≫= pf_stack_number) (pf_stack_number row) (from_option pf_head_sha "" old) (pf_head_sha row) in
  let scopes := uniqueStrings
    [derivationScope installation repository (pl_Number r) (ap_OldStackNumber result);
     derivationScope installation repository (pl_Number r) (ap_NewStackNumber result)] in
  let p7 := if applied then set_w (mark_emit scopes PullRequestChangedKind key now (pc_w p6)) p6 else p6 in
  _ ← run_hook hook result;
  Ok (result, p7).

(** The statements that tombstone the children of a pull request. *)
Definition tombstone_children (at_ : time) (source : string) (repoID number : Z) (p : pcache R) : pcache R :=
  mkP (pc_w p) (TombstonePullRequestReviewRequests at_ source repoID number (pc_requests p))
    (TombstonePullRequestReviews at_ source repoID number (pc_reviews p))
    (TombstonePullRequestComments at_ source repoID number (pc_comments p))
    (TombstonePullRequestChangeSnapshot at_ source repoID number (pc_snapshots p))
    (TombstonePullRequestChangedFiles at_ source repoID number (pc_files p))
    (TombstonePullRequestFileOwners at_ source repoID number (pc_owners p)).

(** The callback of [TombstonePullRequestObserved]. *)
Definition tombstone_pull (r : RepositoryRecord) (number : Z) (source : string)
    (hook : option (ApplyPullRequestResult → result write_error unit)) (at_ : time) (p : pcache R)
    : result write_error (ApplyPullRequestResult * pcache R) :=
  let key := Outbox.PullRequestKey (InstallationID r) (GitHubID r) number in
  repo ← find_repo (GitHubID r) (pc_w p);
  match pulls p !! (rp_id repo, wrap32 number) with
  | None => Ok (no_pull_result, p)
  | Some old =>
      let '(result, p1) :=
        match TombstonePullRequest at_ source (rp_id repo) number (pulls p) with
        | None =>
            (mkPullResult false false false false false false false (pf_stack_number old) None
               (pf_head_sha old) "", p)
        | Some (row, m) =>
            (mkPullResult true true false false false false (bool_decide (pf_stack_number old ≠ None))
               (pf_stack_number old) None (pf_head_sha old) (pf_head_sha row),
             tombstone_children at_ source (rp_id repo) number
               (set_w (mark_emit [derivationScope (InstallationID r) (GitHubID r) number (pf_stack_number old)]
                         PullRequestTombstonedKind key at_ (set_pulls m (pc_w p))) p))
        end in
      _ ← run_hook hook result;
      Ok (result, p1)
  end.

Definition pcache_of (p : pcache R) : cache := cache_of (pc_w p).
Definition put_base (c : cache) (p : pcache R) : pcache R := set_w (set_base c (pc_w p)) p.

(** [applyPullRequest]; a direct write commits its repository first, so the state
    after an error may differ from the state before. *)
Definition applyPullRequest (ctx : fences) (observation : option Observation) (r : PullRequestRecord)
    (repoETag : string) (hook : option (ApplyPullRequestResult → result write_error unit)) (now : time)
    (st : wstate (pcache R)) : result write_error ApplyPullRequestResult * wstate (pcache R) :=
  match validatePullRequest r with
  | Err e => (Err e, st)
  | Ok _ =>
      let parent :=
        match observation with
        | None => apply_parent pcache_of put_base ctx (pl_Repository r) (pl_Source r) repoETag now st
        | Some _ => Ok st
        end in
      match parent with
      | Err e => (Err e, st)
      | Ok st =>
          match entityTx pcache_of ctx observation
            (Outbox.PullRequestKey (InstallationID (pl_Repository r)) (GitHubID (pl_Repository r)) (pl_Number r))
            (apply_pull r hook now) st with
          | Err e => (Err e, st)
          | Ok (a, st) => (Ok a, st)
          end
      end
  end.

Definition ApplyPullRequestObserved (ctx : fences) (observation : option Observation) (r : PullRequestRecord)
    (hook : option (ApplyPullRequestResult → result write_error unit)) (now : time)
    (st : wstate (pcache R)) : result write_error ApplyPullRequestResult * wstate (pcache R) :=
  match requireObservation observation
    (Outbox.PullRequestKey (InstallationID (pl_Repository r)) (GitHubID (pl_Repository r)) (pl_Number r)) with
  | Err e => (Err e, st)
  | Ok _ => applyPullRequest ctx observation r "" hook now st
  end.

Definition TombstonePullRequestObserved (ctx : fences) (observation : option Observation)
    (r : RepositoryRecord) (number : Z) (source : string)
    (hook : option (ApplyPullRequestResult → result write_error unit)) (now : time)
    (st : wstate (pcache R)) : result write_error (ApplyPullRequestResult * wstate (pcache R)) :=
  let key := Outbox.PullRequestKey (InstallationID r) (GitHubID r) number in
  _ ← requireObservation observation key;
  entityTx pcache_of ctx observation key (tombstone_pull r number source hook now) st.

(** The callback of [TouchPullRequest], which tells whether the validator was current. *)
Definition touch_pull (r : RepositoryRecord) (number : Z) (etag : string) (now : time) (p : pcache R)
    : result write_error (bool * pcache R) :=
  repo ← find_repo (GitHubID r) (pc_w p);
  let '(rows, m) := ConfirmPullRequestMetadataCheckedAt now etag (rp_id repo) number (pulls p) in
  Ok (rows =? 1, set_w (set_pulls m (pc_w p)) p).

Definition TouchPullRequest (ctx : fences) (observation : option Observation) (r : RepositoryRecord)
    (number : Z) (etag : string) (now : time) (st : wstate (pcache R))
    : result write_error (bool * wstate (pcache R)) :=
  let key := Outbox.PullRequestKey (InstallationID r) (GitHubID r) number in
  _ ← requireObservation observation key;
  entityTx pcache_of ctx observation key (touch_pull r number etag now) st.

(** One item of a batch; the entity tag is the one of the record's repository. *)
Record PullRequestApply : Type := mkApply {
  pa_Context : option fences;
  pa_Record : PullRequestRecord;
  pa_RepositoryETag : string;
  pa_Observation : option Observation;
  pa_Hook : option (ApplyPullRequestResult → result write_error unit)
}.

Definition apply_key (a : PullRequestApply) : string :=
  Outbox.PullRequestKey (InstallationID (pl_Repository (pa_Record a)))
    (GitHubID (pl_Repository (pa_Record a))) (pl_Number (pa_Record a)).

Definition apply_le (a b : PullRequestApply) : Prop := string_le (apply_key a) (apply_key b).
#[export] Instance apply_le_dec : RelDecision apply_le := λ a b, decide (string_le _ _).

Definition apply_item (ctx : fences) (now : time) (a : PullRequestApply) (st : wstate (pcache R))
    : result write_error ApplyPullRequestResult * wstate (pcache R) :=
  applyPullRequest (default ctx (pa_Context a)) (pa_Observation a) (pa_Record a) (pa_RepositoryETag a)
    (pa_Hook a) now st.

(** The loop over the sorted items. *)
Fixpoint apply_items (ctx : fences) (now : time) (applies : list PullRequestApply)
    (outcomes : gmap string (result write_error ApplyPullRequestResult)) (st : wstate (pcache R))
    : gmap string (result write_error ApplyPullRequestResult) * wstate (pcache R) :=
  match applies with
  | [] => (outcomes, st)
  | a :: applies =>
      let '(outcome, st) := apply_item ctx now a st in
      apply_items ctx now applies (<[apply_key a := outcome]> outcomes) st
  end.

(** [ApplyPullRequestBatch]. *)
Definition ApplyPullRequestBatch (ctx : fences) (now : time) (applies : list PullRequestApply)
    (st : wstate (pcache R))
    : gmap string (result write_error ApplyPullRequestResult) * wstate (pcache R) :=
  apply_items ctx now (merge_sort apply_le applies) ∅ st.
End writer.

(** ** Validated records *)

Lemma require_ok b e : require b e = Ok tt → b = true.
Proof. by destruct b. Qed.

Lemma check_all_ok {X K} `{EqDecision K} (valid : X → bool) (key : X → K) bad dup l : ∀ seen,
  check_all valid key bad dup seen l = Ok tt →
  NoDup (map key l) ∧ (∀ x, x ∈ l → valid x = true ∧ key x ∉ seen).
Proof.
  induction l as [|x l IH]; intros seen Hc; cbn in *.
  { split; [constructor|]. by intros ? ?%elem_of_nil. }
  destruct (require (valid x) bad) as [[]|] eqn:Hv; [|done]. apply require_ok in Hv. cbn in Hc.
  case_bool_decide as Hx; [done|]. apply IH in Hc as [Hnd Hall]. split.
  - constructor; [|done]. intros (y & Heq & Hy)%list_elem_of_fmap.
    destruct (Hall y Hy) as [_ Hno]. rewrite <- Heq in Hno. apply Hno. by left.
  - intros y [->|Hy]%elem_of_cons; [done|]. destruct (Hall y Hy) as [? Hno].
    split; [done|]. intros ?. apply Hno. by right.
Qed.

(** The facts about a validated record that the statements rely on. *)
Record valid_pull (r : PullRequestRecord) : Prop := {
  vp_number : 0 < pl_Number r;
  vp_updated : pl_GitHubUpdatedAt r ≠ zero_time;
  vp_requests : NoDup (map request_key (pl_ReviewRequests r));
  vp_reviews : NoDup (map rw_NodeID (pl_Reviews r));
  vp_comments : NoDup (map cm_NodeID (pl_Comments r));
  vp_snapshot : pl_ChangeInputsKnown r = true → ∃ s, pl_ChangeSnapshot r = Some s ∧
    NoDup (map fi_Path (sn_Files s)) ∧ NoDup (map owner_key (sn_Owners s)) ∧
    ∀ o, o ∈ sn_Owners s → fo_Path o ∈ map fi_Path (sn_Files s)
}.

Lemma validate_pull_ok r : validatePullRequest r = Ok tt → valid_pull r.
Proof.
  unfold validatePullRequest. intros Hv.
  destruct (validateRepository (pl_Repository r) (pl_Source r)) as [[]|]; [cbn in Hv|done].
  repeat match type of Hv with
  | mbind _ ?e = Ok tt => let E := fresh "E" in destruct e as [[]|] eqn:E; [cbn in Hv|done]
  end.
  apply require_ok in E. to_props.
  apply check_all_ok in E2 as [Hrq _]. apply check_all_ok in E3 as [Hrw _].
  apply check_all_ok in E4 as [Hcm _].
  split; try done.
  - intros Hz. rewrite Hz in *. done.
  - intros Hk. rewrite Hk in Hv. destruct (pl_ChangeSnapshot r) as [s|]; [|done]. exists s. split; [done|].
    unfold validateSnapshot in Hv.
    repeat match type of Hv with
    | mbind _ ?e = Ok tt => let E := fresh "E" in destruct e as [[]|] eqn:E; [cbn in Hv|done]
    end.
    apply check_all_ok in Hv as [Ho Hin]. apply check_all_ok in E3 as [Hf _].
    split; [done|]. split; [done|]. intros o [Hvo _]%Hin.
    repeat match type of Hvo with _ && _ = true => apply andb_true_iff in Hvo as [Hvo ?] end.
    by apply bool_decide_eq_true in Hvo.
Qed.

(** ** What the steps of a write preserve *)

Section steps.
Context {R : Type}.
Implicit Types p : pcache R.

Lemma upsert_pull_lookup repoID r now m changed m' :
  UpsertPullRequestWriteIfNewer repoID r now m = (changed, m') →
  (∃ row, m' !! (repoID, wrap32 (pl_Number r)) = Some row) ∧
  (∀ k, k ≠ (repoID, wrap32 (pl_Number r)) → m' !! k = m !! k) ∧ (changed = false → m' = m).
Proof.
  unfold UpsertPullRequestWriteIfNewer. intros Hu.
  repeat case_match; injection Hu as <- <-;
    (split; [rewrite ?lookup_insert_eq; by eauto|split; [|done]]); intros k Hk; by rewrite ?lookup_insert_ne.
Qed.

Lemma write_pull_ok repo r now p : ∃ changed row p', write_pull repo r now p = Ok (changed, row, p').
Proof.
  unfold write_pull. destruct (UpsertPullRequestWriteIfNewer _ _ _ _) as [changed m] eqn:Hu.
  destruct (upsert_pull_lookup _ _ _ _ _ _ Hu) as [[row ->] _]. by eauto.
Qed.

Lemma replaced_ok {K V} `{Countable K} (o : option (list K * gmap K V)) :
  is_Some o → ∃ b m, replaced o = Ok (b, m).
Proof. intros [[changed m] ->]. by repeat eexists. Qed.

Lemma fenced_some {K V} `{Countable K} b (f : gmap K V → option (list K * gmap K V)) m :
  is_Some (f m) → is_Some (fenced b f m).
Proof. intros ?. unfold fenced. destruct b; [done|by eexists]. Qed.

(** Row keys are distinct when the keys of the validation are. *)
Lemma NoDup_finer {A B C} (f : A → B) (g : A → C) (l : list A) :
  (∀ x y, g x = g y → f x = f y) → NoDup (map f l) → NoDup (map g l).
Proof.
  intros Hfg. induction l as [|x l IH]; cbn; intros Hnd; [constructor|].
  apply NoDup_cons in Hnd as [Hx Hnd]. constructor; [|by apply IH].
  intros (y & Heq & Hy)%list_elem_of_fmap. apply Hx. rewrite (Hfg _ _ Heq). by apply list_elem_of_fmap_2.
Qed.

Lemma write_requests_ok repo r head now p : valid_pull r →
  ∃ b p', write_requests repo r head now p = Ok (b, p').
Proof.
  intros Hv. unfold write_requests. destruct (pl_ReviewRequestsKnown r); [|by eauto].
  edestruct @replaced_ok as (b & m & ->); [|by eauto]. apply fenced_some, replace_rows_total.
  eapply NoDup_finer; [|exact (vp_requests _ Hv)]. intros x y [= Hk Hi]. unfold request_key. by rewrite Hk, Hi.
Qed.

Lemma write_reviews_ok repo r head now p : valid_pull r →
  ∃ b p', write_reviews repo r head now p = Ok (b, p').
Proof.
  intros Hv. unfold write_reviews. destruct (pl_ReviewsKnown r); [|by eauto].
  edestruct @replaced_ok as (b & m & ->); [|by eauto].
  apply fenced_some, replace_rows_total, (vp_reviews _ Hv).
Qed.

Lemma write_comments_ok repo r head now p : valid_pull r →
  ∃ b p', write_comments repo r head now p = Ok (b, p').
Proof.
  intros Hv. unfold write_comments. destruct (pl_CommentsKnown r); [|by eauto].
  edestruct @replaced_ok as (b & m & ->); [|by eauto].
  apply fenced_some, replace_rows_total, (vp_comments _ Hv).
Qed.

Lemma write_changes_ok repo r now p : valid_pull r →
  ∃ b p', write_changes repo r now p = Ok (b, p').
Proof.
  intros Hv. unfold write_changes. destruct (pl_ChangeInputsKnown r) eqn:Hk; [|by eauto].
  destruct (vp_snapshot _ Hv Hk) as (s & -> & Hf & Ho & _).
  destruct (UpsertPullRequestChangeSnapshot _ _ _ _ _ _ _ _) as [count ms].
  destruct (replaced_ok (ReplacePullRequestChangedFiles (rp_id repo) (pl_Number r) s (pl_ETag r)
    (pl_Source r) (pl_GitHubUpdatedAt r) now ms (pc_files p))) as (b & m & ->).
  { apply fenced_some, replace_rows_total. eapply NoDup_finer; [|exact Hf]. by intros x y [= ?]. }
  destruct (replaced_ok (ReplacePullRequestFileOwners (rp_id repo) (pl_Number r) s (pl_ETag r)
    (pl_Source r) (pl_GitHubUpdatedAt r) now ms (pc_owners p))) as (b' & m' & ->); [|by cbn; eauto].
  apply fenced_some, replace_rows_total. eapply NoDup_finer; [|exact Ho].
  intros x y [= Hp Ht]. unfold owner_key. by rewrite Hp, Ht.
Qed.

Lemma write_threads_ok repo r head now p : NoDup (map tr_ID (pl_ReviewThreads r)) →
  ∃ b p', write_threads repo r head now p = Ok (b, p').
Proof.
  intros Hnd. unfold write_threads. destruct (pl_ThreadsKnown r); [|by eauto].
  edestruct @replaced_ok as (b & m & ->); [|by eauto]. by apply replace_rows_total.
Qed.

(** The children do not touch the tables of the deriver. *)
Lemma write_requests_w repo r head now p b p' : write_requests repo r head now p = Ok (b, p') → pc_w p' = pc_w p.
Proof.
  unfold write_requests. destruct (pl_ReviewRequestsKnown r); [|by intros [= _ <-]].
  destruct (replaced _) as [[]|]; [|done]. by intros [= _ <-].
Qed.

Lemma write_reviews_w repo r head now p b p' : write_reviews repo r head now p = Ok (b, p') → pc_w p' = pc_w p.
Proof.
  unfold write_reviews. destruct (pl_ReviewsKnown r); [|by intros [= _ <-]].
  destruct (replaced _) as [[]|]; [|done]. by intros [= _ <-].
Qed.

Lemma write_comments_w repo r head now p b p' : write_comments repo r head now p = Ok (b, p') → pc_w p' = pc_w p.
Proof.
  unfold write_comments. destruct (pl_CommentsKnown r); [|by intros [= _ <-]].
  destruct (replaced _) as [[]|]; [|done]. by intros [= _ <-].
Qed.

Lemma write_changes_w repo r now p b p' : write_changes repo r now p = Ok (b, p') → pc_w p' = pc_w p.
Proof.
  unfold write_changes. destruct (pl_ChangeInputsKnown r); [|by intros [= _ <-]].
  destruct (pl_ChangeSnapshot r) as [s|]; [|done].
  destruct (UpsertPullRequestChangeSnapshot _ _ _ _ _ _ _ _) as [count ms].
  destruct (replaced (ReplacePullRequestChangedFiles _ _ _ _ _ _ _ _ _)) as [[]|]; [|done]. cbn.
  destruct (replaced (ReplacePullRequestFileOwners _ _ _ _ _ _ _ _ _)) as [[]|]; [|done].
  by intros [= _ <-].
Qed.
End steps.

(** ** The callback, step by step *)

Section callback.
Context {R : Type}.
Implicit Types p : pcache R.

Definition pull_scope (r : PullRequestRecord) (stack : option Z) : string :=
  derivationScope (InstallationID (pl_Repository r)) (GitHubID (pl_Repository r)) (pl_Number r) stack.

(** The marks and the event of an accepted write. *)
Definition mark_pull (r : PullRequestRecord) (now : time) (a : ApplyPullRequestResult) p : pcache R :=
  if ap_Applied a then
    set_w (mark_emit (uniqueStrings [pull_scope r (ap_OldStackNumber a); pull_scope r (ap_NewStackNumber a)])
             PullRequestChangedKind
             (Outbox.PullRequestKey (InstallationID (pl_Repository r)) (GitHubID (pl_Repository r)) (pl_Number r))
             now (pc_w p)) p
  else p.

Record pull_run (r : PullRequestRecord) (now : time) (repo : repo_row) p (a : ApplyPullRequestResult)
    (row : pull_full) (p1 p2 p3 p4 p5 p6 : pcache R) (threads : bool) : Prop := {
  pr_pull : write_pull repo r now p = Ok (ap_DomainChanged a, row, p1);
  pr_requests : write_requests repo r (pf_head_sha row) now p1 = Ok (ap_ReviewRequestsChanged a, p2);
  pr_reviews : write_reviews repo r (pf_head_sha row) now p2 = Ok (ap_ReviewsChanged a, p3);
  pr_comments : write_comments repo r (pf_head_sha row) now p3 = Ok (ap_CommentsChanged a, p4);
  pr_changes : write_changes repo r now p4 = Ok (ap_ChangeInputsChanged a, p5);
  pr_threads : write_threads repo r (pf_head_sha row) now p5 = Ok (threads, p6);
  pr_applied : ap_Applied a = ap_DomainChanged a || threads || ap_ReviewRequestsChanged a
                 || ap_ReviewsChanged a || ap_CommentsChanged a || ap_ChangeInputsChanged a;
  pr_old : ap_OldStackNumber a = pulls p !! (rp_id repo, wrap32 (pl_Number r)) ≫= pf_stack_number;
  pr_new : ap_NewStackNumber a = pf_stack_number row
}.

Lemma apply_pull_inv r hook now p a p' :
  apply_pull r hook now p = Ok (a, p') →
  ∃ repo row p1 p2 p3 p4 p5 p6 threads,
    repos (base (pc_w p)) !! GitHubID (pl_Repository r) = Some repo ∧
    pull_run r now repo p a row p1 p2 p3 p4 p5 p6 threads ∧ p' = mark_pull r now a p6.
Proof.
  unfold apply_pull, find_repo. intros Ha.
  destruct (repos (base (pc_w p)) !! _) as [repo|] eqn:Hrepo; [|done]. cbn in Ha.
  destruct (write_pull repo r now p) as [[[domain row] p1]|] eqn:H1; [|done]. cbn in Ha.
  destruct (write_requests _ _ _ _ p1) as [[rq p2]|] eqn:H2; [|done]. cbn in Ha.
  destruct (write_reviews _ _ _ _ p2) as [[rw p3]|] eqn:H3; [|done]. cbn in Ha.
  destruct (write_comments _ _ _ _ p3) as [[cm p4]|] eqn:H4; [|done]. cbn in Ha.
  destruct (write_changes _ _ _ p4) as [[ch p5]|] eqn:H5; [|done]. cbn in Ha.
  destruct (write_threads _ _ _ _ p5) as [[th p6]|] eqn:H6; [|done]. cbn in Ha.
  destruct (run_hook hook _) as [[]|] in Ha; [|done]. cbn in Ha. injection Ha as <- <-.
  exists repo, row, p1, p2, p3, p4, p5, p6, th. split; [done|]. split; [by split|].
  unfold mark_pull. cbn. done.
Qed.
End callback.

(** ** The marking contract *)

Section contract.
Context {R : Type}.
Context (derive_scope : ScopeSnapshot (doc R) → list WorkItem) (DD : DerivesFromDomain derive_scope).

Lemma pulls_lookup (w : wcache R) k :
  t_pulls (erase_tables (tables_of w)) !! k = (λ row, erase_pull (pull_view row)) <$> wc_pulls w !! k.
Proof. cbn. unfold pulls_view. rewrite !lookup_fmap. by destruct (wc_pulls w !! k). Qed.

Lemma threads_lookup (w : wcache R) i :
  t_threads (erase_tables (tables_of w)) !! i = (λ t, erase_thread (thread_view i t)) <$> wc_threads w !! i.
Proof. cbn. rewrite lookup_fmap, map_lookup_imap. by destruct (wc_threads w !! i). Qed.

(** A pull request is selected by its own scope only. *)
Lemma selects_scope k p repo (row : pull_full) : canonical k → parseScope k = Ok p →
  rp_installation_id repo = Installation p → rp_gh_id repo = RepositoryID p →
  selects p repo (erase_pull (R := R) (pull_view row)) = true →
  pf_repo_id row = rp_id repo ∧
  k = derivationScope (rp_installation_id repo) (rp_gh_id repo) (pf_number row) (pf_stack_number row).
Proof.
  intros Hk Hp Hi Hg Hs. destruct (scope_key_parts k p Hk Hp) as [Hkey Hkind].
  unfold selects in Hs. apply andb_true_iff in Hs as [Hs1 Hs2]. cbn in Hs1, Hs2. to_props.
  destruct Hs1 as [Hid _]. split; [done|]. unfold derivationScope. case_if_in Hs2; to_props.
  - rewrite Hs2. by apply scope_key_stack.
  - destruct Hs2 as (Hkd & Hn & ->). rewrite Hn. by apply scope_key_pull.
Qed.

(** Rows of one pull request may change when its scopes are marked. *)
Lemma pulls_contract now (w w' : wcache R) repo n marks :
  wcache_ok w → repos (base w) !! rp_gh_id repo = Some repo →
  repos (base w') = repos (base w) → wc_stacks w' = wc_stacks w → wc_checks w' = wc_checks w →
  wc_rules w' = wc_rules w →
  (∀ k, k ≠ (rp_id repo, n) → wc_pulls w' !! k = wc_pulls w !! k) →
  (∀ x row, x ∈ [w; w'] → wc_pulls x !! (rp_id repo, n) = Some row →
     pf_repo_id row = rp_id repo ∧ pf_number row = n ∧
     derivationScope (rp_installation_id repo) (rp_gh_id repo) n (pf_stack_number row) ∈ marks) →
  (∀ i, (λ t, erase_thread (R := R) (thread_view i t)) <$> wc_threads w' !! i =
        (λ t, erase_thread (thread_view i t)) <$> wc_threads w !! i ∨
     ∀ x t, x ∈ [w; w'] → wc_threads x !! i = Some t → tf_repo_id t = rp_id repo ∧ tf_pr_number t = n) →
  Forall canonical marks →
  derivation_dirty (base w') = MarkDerivationDirty now marks (derivation_dirty (base w)) →
  keeps_contract derive_scope now w w'.
Proof.
  intros Hok Hrepo Hrs Hss Hcs Hrls Hpulls Hrows Hthreads Hcan Hdirty.
  exists marks. split; [done|]. split; [done|]. intros k p Hk Hp.
  destruct (decide (k ∈ marks)) as [|Hout]; [by left|right].
  assert (Hno : ∀ x row repo', x ∈ [w; w'] → scope_repo (tables_of w) p = Some repo' →
    wc_pulls x !! (rp_id repo, n) = Some row → selects p repo' (erase_pull (R := R) (pull_view row)) ≠ true).
  { intros x row repo' Hx Hr' Hrow Hs. destruct (scope_repo_of _ _ _ Hok Hr') as (_ & Hi & Hg).
    destruct (selects_scope k p repo' row Hk Hp Hi Hg Hs) as [Hid Hkey].
    destruct (Hrows x row Hx Hrow) as (Hid' & Hn & Hmark).
    assert (repo' = repo) as -> by (eapply (repo_of_id w); [done|done|exact Hr'|congruence]).
    rewrite Hkey, Hn in Hout. done. }
  apply derive_erased. apply view_ext_rows; [done|]. intros repo' Hr'.
  assert (Hr0 : scope_repo (tables_of w) p = Some repo')
    by (revert Hr'; unfold scope_repo; cbn; by rewrite Hrs).
  assert (Hsel : selected_prs (erase_tables (tables_of w')) p repo' =
                 selected_prs (erase_tables (tables_of w)) p repo').
  { unfold selected_prs. do 2 f_equal. apply filter_map_ext. intros kk. rewrite !pulls_lookup.
    destruct (decide (kk = (rp_id repo, n))) as [->|Hne]; [|left; by rewrite Hpulls].
    right. split; intros row Hrow; apply fmap_Some in Hrow as (row0 & Hrow0 & ->); cbn;
      (eapply Hno; [|exact Hr0|exact Hrow0]); [right; by left|by left]. }
  split; [done|]. split; [|split; [|split]].
  - unfold scope_threads. do 2 f_equal. apply filter_map_ext. intros i. rewrite !threads_lookup.
    destruct (Hthreads i) as [?|Hmine]; [by left|right].
    assert (Hrej : ∀ x t, x ∈ [w; w'] → wc_threads x !! i = Some t →
      ¬ Exists (λ pr, pr_repo_id pr = tf_repo_id t ∧ pr_number pr = tf_pr_number t ∧
                      pr_head_sha pr = tf_head_sha t) (selected_prs (erase_tables (tables_of w')) p repo')).
    { intros x t Hx Ht Hex. destruct (Hmine x t Hx Ht) as [E1 E2]. rewrite E1, E2 in Hex.
      apply Exists_exists in Hex as (pr & Hpr & Hid & Hn & _). rewrite Hsel in Hpr.
      unfold selected_prs in Hpr. rewrite merge_sort_Permutation in Hpr. unfold rows_of in Hpr.
      apply list_elem_of_fmap in Hpr as ([kk pr'] & -> & Hin). cbn in Hid, Hn.
      apply elem_of_map_to_list, map_lookup_filter_Some in Hin as [Hkk Hs]. cbn in Hs.
      rewrite pulls_lookup in Hkk. apply fmap_Some in Hkk as (row & Hrow & ->). cbn in Hid, Hn.
      assert (kk = (rp_id repo, n)) as ->.
      { assert (Hv : pulls_view w !! kk = Some (pull_view row)) by (unfold pulls_view; by rewrite lookup_fmap, Hrow).
        apply (wk_pull _ Hok) in Hv as (-> & _). cbn. by rewrite Hid, Hn. }
      by destruct (Hno w row repo' ltac:(by left) Hr0 Hrow). }
    split; intros t Ht; apply fmap_Some in Ht as (t0 & Ht0 & ->); intros [_ Hex]; cbn in Hex;
      (eapply Hrej; [|exact Ht0|exact Hex]); [right; by left|by left].
  - unfold scope_stack. cbn. by rewrite Hss.
  - unfold scope_checks. cbn. by rewrite Hcs.
  - unfold scope_rules. cbn. by rewrite Hrls.
Qed.
End contract.

(** ** The writers keep the contract *)

Section keeps.
Context {R : Type}.
Implicit Types p : pcache R.

Lemma write_pull_spec repo r now p domain row p1 :
  write_pull repo r now p = Ok (domain, row, p1) → 0 < pl_Number r < 2 ^ 31 →
  p1 = set_w (pc_w p1) p ∧
  (∃ m, pc_w p1 = set_pulls m (pc_w p) ∧
    (∀ k, k ≠ (rp_id repo, pl_Number r) → m !! k = pulls p !! k) ∧
    (∃ f, (∀ q, erase_prov (f q) = erase_prov q) ∧ m !! (rp_id repo, pl_Number r) = Some (set_pull_prov f row))) ∧
  (if domain then row = pull_row_of (rp_id repo) r now (pulls p !! (rp_id repo, pl_Number r)) ∧
       (∀ old, pulls p !! (rp_id repo, pl_Number r) = Some old → pull_newer old row = true)
   else pulls p !! (rp_id repo, pl_Number r) = Some row ∧
        pull_newer row (pull_row_of (rp_id repo) r now (Some row)) = false).
Proof.
  unfold write_pull, UpsertPullRequestWriteIfNewer. intros Hw Hn. rewrite wrap32_id in Hw by lia.
  assert (Hfin : ∀ changed m row0,
    m !! (rp_id repo, pl_Number r) = Some row0 → (∀ k, k ≠ (rp_id repo, pl_Number r) → m !! k = pulls p !! k) →
    Ok (changed, row0, set_w (set_pulls (TouchPullRequestCheckedAt now (pl_ETag r) (rp_id repo) (pl_Number r) m)
          (pc_w p)) p) = Ok (E := write_error) (domain, row, p1) →
    changed = domain ∧ row0 = row ∧ p1 = set_w (pc_w p1) p ∧
    ∃ m, pc_w p1 = set_pulls m (pc_w p) ∧
      (∀ k, k ≠ (rp_id repo, pl_Number r) → m !! k = pulls p !! k) ∧
      (∃ f, (∀ q, erase_prov (f q) = erase_prov q) ∧ m !! (rp_id repo, pl_Number r) = Some (set_pull_prov f row))).
  { intros changed m row0 Hm Hother [= <- <- <-]. split; [done|]. split; [done|]. split; [done|].
    eexists. split; [done|]. unfold TouchPullRequestCheckedAt. rewrite wrap32_id by lia. split.
    - intros k Hk. rewrite lookup_alter_ne by done. auto.
    - exists (touch_prov now (pl_ETag r)). split; [done|]. by rewrite lookup_alter_eq, Hm. }
  destruct (pulls p !! (rp_id repo, pl_Number r)) as [old|] eqn:Hold.
  - destruct (pull_newer old _) eqn:Hnew.
    + rewrite lookup_insert_eq in Hw.
      apply Hfin in Hw as (<- & <- & ? & ?); [|by rewrite lookup_insert_eq|intros; by rewrite lookup_insert_ne].
      split; [done|]. split; [done|]. split; [done|]. by intros ? [= <-].
    + rewrite Hold in Hw. apply Hfin in Hw as (<- & <- & ? & ?); done.
  - rewrite lookup_insert_eq in Hw.
    apply Hfin in Hw as (<- & <- & ? & ?); [|by rewrite lookup_insert_eq|intros; by rewrite lookup_insert_ne].
    split; [done|]. split; [done|]. by split.
Qed.

Lemma erase_set_prov f (row : pull_full) : (∀ q, erase_prov (f q) = erase_prov q) →
  erase_pull (R := R) (pull_view (set_pull_prov f row)) = erase_pull (pull_view row).
Proof. intros Hf. unfold erase_pull, pull_view. cbn. by rewrite Hf. Qed.

(** The rows of a run, as the deriver will read them. *)
Lemma write_threads_spec repo r head now p b p' :
  write_threads repo r head now p = Ok (b, p') →
  ∃ m, pc_w p' = set_threads m (pc_w p) ∧
    ∀ i, (λ t, erase_thread (R := R) (thread_view i t)) <$> m !! i =
           (λ t, erase_thread (thread_view i t)) <$> wc_threads (pc_w p) !! i ∨
      b = true ∧
      ((∃ t, t ∈ pl_ReviewThreads r ∧ tr_ID t = i) ∨
       ∃ t, wc_threads (pc_w p) !! i = Some t ∧ tf_repo_id t = rp_id repo ∧ tf_pr_number t = wrap32 (pl_Number r)) ∧
      ∀ t, m !! i = Some t → tf_repo_id t = rp_id repo ∧ tf_pr_number t = wrap32 (pl_Number r).
Proof.
  unfold write_threads. destruct (pl_ThreadsKnown r).
  2: { intros [= <- <-]. exists (wc_threads (pc_w p)). split; [by destruct (pc_w p)|]. intros i. by left. }
  unfold replaced. destruct (ReplaceReviewThreads _ _ _ _ _ _ _ _) as [[changed m]|] eqn:Hr; [|done].
  intros [= <- <-]. eexists. split; [done|]. intros i. unfold TouchReviewThreadsCheckedAt. rewrite lookup_fmap.
  set (touch (t : thread_full) := if bool_decide _ then _ else t).
  assert (Htouch : ∀ t, erase_thread (R := R) (thread_view i (touch t)) = erase_thread (thread_view i t) ∧
    tf_repo_id (touch t) = tf_repo_id t ∧ tf_pr_number (touch t) = tf_pr_number t)
    by (intros t; unfold touch; by case_bool_decide).
  destruct (replace_rows_spec _ _ _ _ _ _ _ _ _ Hr i) as [Heq|(Hc & Hcase)].
  { left. rewrite Heq. destruct (wc_threads (pc_w p) !! i) as [t|]; [|done]. cbn. by destruct (Htouch t) as [-> _]. }
  right. split; [rewrite bool_decide_eq_false_2; [done|]; intros ->; by apply elem_of_nil in Hc|].
  destruct Hcase as [(t & Ht & Hi & Hm)|(t & Ht & Hd & Hm)]; rewrite Hm.
  - split; [left; by exists t|]. intros t' [= <-]. by destruct (Htouch (thread_row_of (rp_id repo) (pl_Number r)
      head (pl_ETag r) (pl_Source r) now t)) as (_ & -> & ->).
  - unfold thread_dead in Hd. apply andb_true_iff in Hd as [Hd _]. apply bool_decide_eq_true in Hd as (H1 & H2 & _).
    split; [right; by exists t|]. intros t' [= <-].
    by destruct (Htouch (thread_with (kill_prov now (pl_ETag r) (pl_Source r)) (Some now) t)) as (_ & -> & ->).
Qed.

(** The hypotheses on a record whose numbers fit the columns. *)
Record pull_in_range (r : PullRequestRecord) : Prop := {
  ir_number : 0 < pl_Number r < 2 ^ 31;
  ir_stack : ∀ n, pl_MembershipKnown r = true → pl_StackNumber r = Some n → 0 < n < 2 ^ 31
}.

(** A review thread belongs to one pull request. *)
Definition threads_of_pull (w : wcache R) (repo : repo_row) (r : PullRequestRecord) : Prop :=
  ∀ t row, t ∈ pl_ReviewThreads r → wc_threads w !! tr_ID t = Some row →
    tf_repo_id row = rp_id repo ∧ tf_pr_number row = pl_Number r.

Lemma scope_canonical repo (w : wcache R) n stack : wcache_ok w →
  repos (base w) !! rp_gh_id repo = Some repo → 0 < n < 2 ^ 31 → (∀ k, stack = Some k → 0 < k < 2 ^ 31) →
  canonical (derivationScope (rp_installation_id repo) (rp_gh_id repo) n stack).
Proof.
  intros Hok Hrepo Hn Hs. destruct (wk_repo _ Hok _ _ Hrepo) as (_ & Hg & Hi).
  unfold derivationScope. destruct stack as [k|]; [apply canonical_stack|apply canonical_pull]; auto.
Qed.
End keeps.

Section keeps_contract.
Context {R : Type}.
Context (derive_scope : ScopeSnapshot (doc R) → list WorkItem) (DD : DerivesFromDomain derive_scope).
Implicit Types p : pcache R.

(** The tables of the deriver after the steps of a run. *)
Lemma pull_run_w r now repo p a row p1 p2 p3 p4 p5 p6 threads :
  pull_run r now repo p a row p1 p2 p3 p4 p5 p6 threads → pc_w p5 = pc_w p1.
Proof.
  intros []. rewrite (write_changes_w _ _ _ _ _ _ pr_changes0), (write_comments_w _ _ _ _ _ _ _ pr_comments0),
    (write_reviews_w _ _ _ _ _ _ _ pr_reviews0). by apply write_requests_w in pr_requests0.
Qed.

Lemma stored_pull (w : wcache R) k row : wcache_ok w → wc_pulls w !! k = Some row →
  k = (pf_repo_id row, pf_number row) ∧ ∀ n, pf_stack_number row = Some n → 0 < n < 2 ^ 31.
Proof.
  intros Hok Hrow. assert (Hv : pulls_view w !! k = Some (pull_view row))
    by (unfold pulls_view; by rewrite lookup_fmap, Hrow).
  by destruct (wk_pull _ Hok _ _ Hv) as (? & _ & ?).
Qed.

Lemma apply_pull_contract now r hook a p p' repo :
  wcache_ok (pc_w p) → apply_pull r hook now p = Ok (a, p') →
  repos (base (pc_w p)) !! GitHubID (pl_Repository r) = Some repo →
  rp_installation_id repo = InstallationID (pl_Repository r) → pull_in_range r →
  threads_of_pull (pc_w p) repo r →
  keeps_contract derive_scope now (pc_w p) (pc_w p').
Proof.
  intros Hok Ha Hrepo Hinst Hrange Hths. destruct (ir_number _ Hrange) as [Hn0 Hn1].
  apply apply_pull_inv in Ha as (repo0 & row & p1 & p2 & p3 & p4 & p5 & p6 & threads & Hrepo0 & Hrun & ->).
  assert (repo0 = repo) as -> by congruence. clear Hrepo0.
  destruct (wk_repo _ Hok _ _ Hrepo) as (Hgh & _).
  pose proof (pull_run_w _ _ _ _ _ _ _ _ _ _ _ _ _ Hrun) as Hw5. destruct Hrun.
  destruct (write_pull_spec _ _ _ _ _ _ _ pr_pull0 (ir_number _ Hrange))
    as (_ & (m & Hw1 & Hother & f & Hf & Hmk) & Hdom).
  destruct (write_threads_spec _ _ _ _ _ _ _ pr_threads0) as (mt & Hw6 & Hmt).
  rewrite Hw5, Hw1 in Hw6, Hmt. cbn [wc_threads set_pulls] in Hmt. rewrite wrap32_id in Hmt, pr_old0 by lia.
  unfold mark_pull. destruct (ap_Applied a) eqn:Happ; cycle 1.
  - (* Nothing was written. *)
    assert (ap_DomainChanged a = false ∧ threads = false) as [Hdom0 Hth0]
      by (revert pr_applied0; clear; by destruct (ap_DomainChanged a), threads).
    rewrite Hdom0 in Hdom. destruct Hdom as [Hdom _].
    apply silent_contract; [done|by rewrite Hw6|]. rewrite Hw6. unfold erase_tables.
    cbn [t_repos t_pulls t_threads t_stacks t_checks t_rules tables_of]. f_equal.
    + apply map_eq. intros k. unfold pulls_view. cbn. rewrite !lookup_fmap.
      destruct (decide (k = (rp_id repo, pl_Number r))) as [->|Hk]; [|by rewrite Hother].
      change (wc_pulls (pc_w p)) with (pulls p). rewrite Hmk, Hdom. cbn. by rewrite erase_set_prov.
    + apply map_eq. intros i. rewrite !lookup_fmap, !map_lookup_imap. cbn.
      destruct (Hmt i) as [Heq|[Hb _]]; [|congruence].
      destruct (mt !! i), (wc_threads (pc_w p) !! i); try discriminate Heq; [|done].
      cbn in *. by apply (inj Some) in Heq as ->.
  - assert (Hstacks : ∀ n, pf_stack_number row = Some n → 0 < n < 2 ^ 31).
    { destruct (ap_DomainChanged a); [|eapply (stored_pull (pc_w p)); [done|apply Hdom]].
      intros n. destruct Hdom as [-> _]. cbn. destruct (pl_MembershipKnown r) eqn:Hk.
      - destruct (pl_StackNumber r) as [s|] eqn:Hs; [|done]. cbn.
        pose proof (ir_stack _ Hrange s Hk Hs). rewrite wrap32_id by lia. by intros [= <-].
      - destruct (pulls p !! _) as [old|] eqn:Ho; [|done]. cbn. by eapply (stored_pull (pc_w p)). }
    assert (Hscope : ∀ st, pull_scope r st =
      derivationScope (rp_installation_id repo) (rp_gh_id repo) (pl_Number r) st)
      by (intros st; unfold pull_scope; by rewrite Hinst, Hgh).
    assert (Hrepo' := Hrepo). rewrite <- Hgh in Hrepo'.
    apply (pulls_contract derive_scope DD now (pc_w p) _ repo (pl_Number r)
      (uniqueStrings [pull_scope r (ap_OldStackNumber a); pull_scope r (ap_NewStackNumber a)])); try done.
    all: cbn [pc_w set_w]; rewrite ?mark_emit_repos, ?mark_emit_dirty, ?Hw6; try done.
    all: cbn [wc_pulls wc_threads mark_emit set_base set_threads set_pulls].
    + intros x rw Hx Hrw. assert (Hcan : ∀ st, (∀ k, st = Some k → 0 < k < 2 ^ 31) →
        canonical (pull_scope r st)).
      { intros st Hst. rewrite Hscope. eapply (scope_canonical repo (pc_w p)); try done. }
      rewrite !elem_of_cons, elem_of_nil in Hx. destruct Hx as [->|[->|[]]].
      * destruct (stored_pull _ _ _ Hok Hrw) as [[= Hid Hnum] Hst]. split; [done|]. split; [done|].
        rewrite <- Hscope. apply uniqueStrings_spec.
        split; [|by apply canonical_nonempty, Hcan]. rewrite pr_old0. change (wc_pulls (pc_w p)) with (pulls p) in Hrw.
        rewrite Hrw. by left.
      * cbn in Hrw. rewrite Hmk in Hrw. injection Hrw as <-.
        assert (pf_repo_id row = rp_id repo ∧ pf_number row = pl_Number r) as [E1 E2].
        { destruct (ap_DomainChanged a); destruct Hdom as [Hdom _].
          - rewrite Hdom. cbn. rewrite wrap32_id by lia. done.
          - by destruct (stored_pull _ _ _ Hok Hdom) as [[= -> ->] _]. }
        cbn [pf_repo_id pf_number pf_stack_number set_pull_prov]. split; [done|]. split; [done|].
        rewrite <- Hscope. apply uniqueStrings_spec.
        split; [|by apply canonical_nonempty, Hcan]. rewrite pr_new0. right. by left.
    + intros i. destruct (Hmt i) as [?|(_ & Hcase & Hafter)]; [by left|right].
      intros x t Hx Ht. rewrite !elem_of_cons, elem_of_nil in Hx. destruct Hx as [->|[->|[]]].
      * destruct Hcase as [(t0 & Ht0 & <-)|(t0 & Ht0 & ? & ?)]; [by eapply Hths|].
        assert (t = t0) as -> by congruence. done.
      * cbn in Ht. by apply Hafter.
    + apply Forall_forall. intros s [Hs _]%uniqueStrings_spec.
      rewrite !elem_of_cons, elem_of_nil in Hs.
      destruct Hs as [->|[->|[]]]; rewrite Hscope; (eapply (scope_canonical repo (pc_w p)); try done).
      * rewrite pr_old0. intros k Hk. destruct (pulls p !! _) as [old|] eqn:Ho; [|done].
        by eapply (stored_pull (pc_w p)).
      * rewrite pr_new0. done.
Qed.
End keeps_contract.

Section keeps_tombstone.
Context {R : Type}.
Context (derive_scope : ScopeSnapshot (doc R) → list WorkItem) (DD : DerivesFromDomain derive_scope).
Implicit Types p : pcache R.

Lemma tombstone_pull_contract now r number source hook a p p' repo :
  wcache_ok (pc_w p) → tombstone_pull r number source hook now p = Ok (a, p') →
  repos (base (pc_w p)) !! GitHubID r = Some repo →
  rp_installation_id repo = InstallationID r → 0 < number < 2 ^ 31 →
  keeps_contract derive_scope now (pc_w p) (pc_w p').
Proof.
  intros Hok Ha Hrepo Hinst Hn. destruct (wk_repo _ Hok _ _ Hrepo) as (Hgh & _).
  unfold tombstone_pull, find_repo in Ha. rewrite Hrepo in Ha. cbn in Ha. rewrite wrap32_id in Ha by lia.
  assert (Hsame : keeps_contract derive_scope now (pc_w p) (pc_w p)) by by apply silent_contract.
  destruct (pulls p !! (rp_id repo, number)) as [old|] eqn:Hold; [|by injection Ha as <- <-].
  unfold TombstonePullRequest in Ha. rewrite wrap32_id, Hold in Ha by lia.
  destruct (_ && _); destruct (run_hook hook _) in Ha; try discriminate Ha; cbn in Ha; injection Ha as <- <-;
    [|done]. destruct (stored_pull _ _ _ Hok Hold) as [[= Hid Hnum] Hst]. cbn [pc_w tombstone_children set_w].
  rewrite <- Hgh in Hrepo.
  apply (pulls_contract derive_scope DD now (pc_w p) _ repo number
    [derivationScope (rp_installation_id repo) (rp_gh_id repo) number (pf_stack_number old)]);
    rewrite ?mark_emit_repos, ?mark_emit_dirty; try done.
  - intros k Hk. cbn. by rewrite lookup_insert_ne.
  - intros x row Hx Hrow. rewrite !elem_of_cons, elem_of_nil in Hx.
    destruct Hx as [->|[->|[]]].
    + change (wc_pulls (pc_w p)) with (pulls p) in Hrow. rewrite Hold in Hrow. injection Hrow as <-.
      split; [done|]. split; [done|]. by left.
    + cbn in Hrow. rewrite lookup_insert_eq in Hrow. injection Hrow as <-. cbn.
      split; [done|]. split; [done|]. by left.
  - intros i. left. done.
  - repeat constructor. by eapply (scope_canonical repo (pc_w p)).
  - by rewrite Hinst, Hgh.
Qed.

Lemma touch_pull_contract now r number etag b p p' :
  touch_pull r number etag now p = Ok (b, p') → keeps_contract derive_scope now (pc_w p) (pc_w p').
Proof.
  unfold touch_pull. intros Ha. destruct (find_repo _ _) as [repo|]; [|done]. cbn in Ha.
  destruct (ConfirmPullRequestMetadataCheckedAt _ _ _ _ _) as [rows m] eqn:Hc. injection Ha as <- <-.
  apply silent_contract; [done|done|]. unfold erase_tables.
  cbn [t_repos t_pulls t_threads t_stacks t_checks t_rules tables_of]. f_equal.
  apply map_eq. intros k. unfold pulls_view. cbn. rewrite !lookup_fmap.
  unfold ConfirmPullRequestMetadataCheckedAt in Hc. change (wc_pulls (pc_w p)) with (pulls p).
  destruct (pulls p !! (rp_id repo, wrap32 number)) as [row|] eqn:Hrow; [|by injection Hc as _ <-].
  case_bool_decide; injection Hc as _ <-; [|done].
  destruct (decide (k = (rp_id repo, wrap32 number))) as [->|Hk]; [|by rewrite lookup_insert_ne].
  rewrite lookup_insert_eq, Hrow. cbn. by rewrite erase_set_prov.
Qed.
End keeps_tombstone.

(** The callbacks of the writer on an observed pull request. *)
Inductive pull_write {R} (now : time) (p : pcache R) : pcache R → Prop :=
  | write_applied r hook a p' :
      validatePullRequest r = Ok tt → apply_pull r hook now p = Ok (a, p') → pull_write now p p'
  | write_tombstoned r number source hook a p' :
      tombstone_pull r number source hook now p = Ok (a, p') → pull_write now p p'
  | write_touched r number etag b p' :
      touch_pull r number etag now p = Ok (b, p') → pull_write now p p'.

(** What the observed entity guarantees of a write: its repository, numbers that fit
    the columns, and threads of this pull request only. *)
Inductive sound_write {R} (now : time) (p : pcache R) : pcache R → Prop :=
  | sound_applied r hook a p' repo :
      apply_pull r hook now p = Ok (a, p') →
      repos (base (pc_w p)) !! GitHubID (pl_Repository r) = Some repo →
      rp_installation_id repo = InstallationID (pl_Repository r) → pull_in_range r →
      threads_of_pull (pc_w p) repo r → sound_write now p p'
  | sound_tombstoned r number source hook a p' repo :
      tombstone_pull r number source hook now p = Ok (a, p') →
      repos (base (pc_w p)) !! GitHubID r = Some repo →
      rp_installation_id repo = InstallationID r → 0 < number < 2 ^ 31 → sound_write now p p'
  | sound_touched r number etag b p' :
      touch_pull r number etag now p = Ok (b, p') → sound_write now p p'.

(** ** Live files and owners *)

(** A live file belongs to the live snapshot of its pull request, a live owner to a
    live file of it. *)
Definition of_snapshot {R} (p : pcache R) (r n : Z) (base head : string) : Prop :=
  ∃ s, pc_snapshots p !! (r, n) = Some s ∧ nr_tombstoned_at s = None ∧
    nr_base_sha s = base ∧ nr_head_sha s = head.

Record changes_ok {R} (p : pcache R) : Prop := {
  co_file : ∀ r n path f, pc_files p !! (r, n, path) = Some f → fr_tombstoned_at f = None →
    of_snapshot p r n (fr_base_sha f) (fr_head_sha f);
  co_owner : ∀ r n path token o, pc_owners p !! (r, n, path, token) = Some o → or_tombstoned_at o = None →
    of_snapshot p r n (or_base_sha o) (or_head_sha o) ∧
    ∃ f, pc_files p !! (r, n, path) = Some f ∧ fr_tombstoned_at f = None
}.

Section replace_live.
Context {K V X : Type} `{Countable K}.
Context (key : X → K) (row : option V → X → V) (accept : V → X → bool).
Context (dead : K → V → bool) (kill : V → V) (mine : K → Prop) (live P : V → Prop).

(** A replacement of all live rows of a scope leaves exactly the input live. *)
Lemma replace_rows_live input m changed m' :
  replace_rows key row accept dead kill input m = Some (changed, m') →
  (∀ o x, live (row o x) ∧ P (row o x)) → (∀ v x, accept v x = false → live v ∧ P v) →
  (∀ k v, dead k v = true ↔ mine k ∧ live v) → (∀ v, ¬ live (kill v)) →
  (∀ x, x ∈ input → mine (key x)) →
  ∀ k, (k ∈ map key input → ∃ v, m' !! k = Some v ∧ live v ∧ P v) ∧
       (k ∉ map key input → ∀ v, m' !! k = Some v → live v → ¬ mine k ∧ m !! k = Some v) ∧
       (¬ mine k → m' !! k = m !! k).
Proof.
  intros Hr Hrow Hkeep Hdead Hkill Hmine k. split; [|split].
  - intros Hin. destruct (replace_rows_input _ _ _ _ _ _ _ _ _ _ Hr Hin) as (x & _ & _ & [(_ & Hm & _)|(v & _ & Ha & Hm)]);
      rewrite Hm; eexists; (split; [done|]); [apply Hrow|by eapply Hkeep].
  - intros Hout v Hv Hl. rewrite (proj1 (replace_rows_other _ _ _ _ _ _ _ _ _ _ Hr Hout)) in Hv.
    apply fmap_Some in Hv as (v0 & Hv0 & ->). destruct (dead k v0) eqn:Hd; [by apply Hkill in Hl|].
    split; [|done]. intros Hk. assert (dead k v0 = true) by (by apply Hdead). congruence.
  - intros Hk. assert (Hout : k ∉ map key input)
      by (intros (x & -> & Hx)%list_elem_of_fmap; by apply Hk, Hmine).
    rewrite (proj1 (replace_rows_other _ _ _ _ _ _ _ _ _ _ Hr Hout)).
    destruct (m !! k) as [v|]; [|done]. cbn. destruct (dead k v) eqn:Hd; [|done].
    by apply Hdead in Hd as [? _].
Qed.
End replace_live.

Section changes.
Context {R : Type}.
Implicit Types p q : pcache R.

Lemma ReplaceFiles_unfold repoID number s etag source at_ now ms m :
  ReplacePullRequestChangedFiles repoID number s etag source at_ now ms m =
  if eligible_snapshot repoID number (sn_BaseSHA s) (sn_HeadSHA s) at_ ms
  then replace_rows (λ f, (repoID, wrap32 number, fi_Path f)) (λ _, file_row_of s etag source now)
         (λ o f, file_newer o (file_row_of s etag source now f))
         (file_mine repoID number) (file_with (kill_prov now etag source) (Some now)) (sn_Files s) m
  else Some ([], m).
Proof. done. Qed.

(** A snapshot that was written lets its files through. *)
Lemma upsert_snapshot_spec repoID number s source at_ now pulls m count m' :
  UpsertPullRequestChangeSnapshot repoID number s source at_ now pulls m = (count, m') →
  (∀ k, k ≠ (repoID, wrap32 number) → m' !! k = m !! k) ∧
  (eligible_snapshot repoID number (sn_BaseSHA s) (sn_HeadSHA s) at_ m' = false → m' = m).
Proof.
  intros Hu. unfold UpsertPullRequestChangeSnapshot in Hu.
  assert (Hput : ∀ n, nr_tombstoned_at n = None → nr_parent_gh_updated_at n = at_ →
    nr_base_sha n = sn_BaseSHA s → nr_head_sha n = sn_HeadSHA s → m' = <[(repoID, wrap32 number) := n]> m →
    (∀ k, k ≠ (repoID, wrap32 number) → m' !! k = m !! k) ∧
    (eligible_snapshot repoID number (sn_BaseSHA s) (sn_HeadSHA s) at_ m' = false → m' = m)).
  { intros n Ht Hat Hb Hh ->. split; [intros k Hk; by rewrite lookup_insert_ne|].
    unfold eligible_snapshot, live_snapshot. rewrite lookup_insert_eq, Ht, Hat.
    rewrite (proj2 (Z.leb_le at_ at_)) by lia. cbn. rewrite bool_decide_eq_true_2; [done|by split]. }
  destruct (eligible_commits _ _ _ _ _ _); [|by injection Hu as <- <-].
  destruct (m !! _) as [old|]; [|injection Hu as _ Hm; by eapply Hput; [..|symmetry; exact Hm]].
  destruct (snapshot_newer old _); [|by injection Hu as <- <-].
  injection Hu as _ Hm. eapply Hput; [..|symmetry; exact Hm]; unfold snapshot_over; by case_match.
Qed.

(** Times and validators do not matter to the invariant. *)
Lemma changes_ok_touch p q :
  (∀ k, ∃ g, pc_files q !! k = g <$> pc_files p !! k ∧
     ∀ f, fr_tombstoned_at (g f) = fr_tombstoned_at f ∧ fr_base_sha (g f) = fr_base_sha f ∧
          fr_head_sha (g f) = fr_head_sha f) →
  (∀ k, ∃ g, pc_owners q !! k = g <$> pc_owners p !! k ∧
     ∀ f, or_tombstoned_at (g f) = or_tombstoned_at f ∧ or_base_sha (g f) = or_base_sha f ∧
          or_head_sha (g f) = or_head_sha f) →
  (∀ k, ∃ g, pc_snapshots q !! k = g <$> pc_snapshots p !! k ∧
     ∀ f, nr_tombstoned_at (g f) = nr_tombstoned_at f ∧ nr_base_sha (g f) = nr_base_sha f ∧
          nr_head_sha (g f) = nr_head_sha f) →
  changes_ok p → changes_ok q.
Proof.
  intros Hf Ho Hs [Hfile Howner].
  assert (Hof : ∀ r n base head, of_snapshot p r n base head → of_snapshot q r n base head).
  { intros r n base head (s & Hs1 & Ht & Hb & Hh). destruct (Hs (r, n)) as (g & Hg & Hg').
    exists (g s). destruct (Hg' s) as (E1 & E2 & E3). rewrite Hg, Hs1. split; [done|].
    rewrite E1, E2, E3. done. }
  split.
  - intros r n path f Hq Ht. destruct (Hf (r, n, path)) as (g & Hg & Hg'). rewrite Hg in Hq.
    apply fmap_Some in Hq as (f0 & Hf0 & ->). destruct (Hg' f0) as (E1 & E2 & E3).
    rewrite E2, E3. apply Hof. eapply Hfile; [done|congruence].
  - intros r n path token o Hq Ht. destruct (Ho (r, n, path, token)) as (g & Hg & Hg'). rewrite Hg in Hq.
    apply fmap_Some in Hq as (o0 & Ho0 & ->). destruct (Hg' o0) as (E1 & E2 & E3). rewrite E2, E3.
    destruct (Howner _ _ _ _ _ Ho0) as [Hsn (f & Hf0 & Hft)]; [congruence|]. split; [by apply Hof|].
    destruct (Hf (r, n, path)) as (gf & Hgf & Hgf'). exists (gf f). rewrite Hgf, Hf0.
    split; [done|]. by destruct (Hgf' f) as (-> & _).
Qed.

Lemma live_snapshot_Some (repoID number : Z) (at_ : time) (m : gmap (Z * Z) snapshot_row) n :
  live_snapshot repoID number at_ m = Some n → m !! (repoID, wrap32 number) = Some n ∧ nr_tombstoned_at n = None.
Proof.
  unfold live_snapshot. destruct (m !! _) as [n0|]; [|done]. destruct (_ && _) eqn:E; [|done].
  intros [= ->]. apply andb_true_iff in E as [E _]. by apply bool_decide_eq_true in E.
Qed.

(** The replaced rows of a pull request belong to its snapshot. *)
Lemma replace_changes repoID number s etag source at_ now p ms cf mf co mo :
  (∀ o, o ∈ sn_Owners s → fo_Path o ∈ map fi_Path (sn_Files s)) →
  ReplacePullRequestChangedFiles repoID number s etag source at_ now ms (pc_files p) = Some (cf, mf) →
  ReplacePullRequestFileOwners repoID number s etag source at_ now ms (pc_owners p) = Some (co, mo) →
  (∀ k, k ≠ (repoID, wrap32 number) → ms !! k = pc_snapshots p !! k) →
  (eligible_snapshot repoID number (sn_BaseSHA s) (sn_HeadSHA s) at_ ms = false → ms = pc_snapshots p) →
  changes_ok p → changes_ok (set_changes ms mf mo p).
Proof.
  intros Hpaths Hf Ho Hother Hsame Hok. rewrite ReplaceFiles_unfold in Hf.
  unfold ReplacePullRequestFileOwners, fenced in Ho.
  destruct (eligible_snapshot _ _ _ _ _ _) eqn:Hel; cycle 1.
  { injection Hf as <- <-. injection Ho as <- <-. rewrite Hsame by done. by destruct p, Hok. }
  set (num := wrap32 number) in *.
  pose proof (replace_rows_live _ _ _ _ _ (λ k, k.1 = (repoID, num)) (λ f, fr_tombstoned_at f = None)
    (λ f, fr_base_sha f = sn_BaseSHA s ∧ fr_head_sha f = sn_HeadSHA s) _ _ _ _ Hf) as Hfiles.
  pose proof (replace_rows_live _ _ _ _ _ (λ k, k.1.1 = (repoID, num)) (λ o, or_tombstoned_at o = None)
    (λ o, or_base_sha o = sn_BaseSHA s ∧ or_head_sha o = sn_HeadSHA s) _ _ _ _ Ho) as Howners.
  assert (Hfiles' := Hfiles ltac:(done)
    ltac:(intros v x [Hs Ht]%orb_false_iff; apply negb_false_iff, bool_decide_eq_true in Hs, Ht; by injection Hs)
    ltac:(intros [[a b] c] v; unfold file_mine; rewrite bool_decide_eq_true; cbn; naive_solver)
    ltac:(done) ltac:(done)).
  assert (Howners' := Howners ltac:(done)
    ltac:(intros v x [Hs Ht]%orb_false_iff; apply negb_false_iff, bool_decide_eq_true in Hs, Ht; by injection Hs)
    ltac:(intros [[[a b] c] d] v; unfold owner_mine; rewrite bool_decide_eq_true; cbn; naive_solver)
    ltac:(done) ltac:(done)).
  clear Hfiles Howners. unfold eligible_snapshot in Hel.
  destruct (live_snapshot _ _ _ _) as [n|] eqn:Hlive; [|done]. apply bool_decide_eq_true in Hel as [Hb Hh].
  apply live_snapshot_Some in Hlive as [Hn Hnt].
  assert (Hmine : of_snapshot (set_changes ms mf mo p) repoID num (sn_BaseSHA s) (sn_HeadSHA s))
    by (exists n; done).
  assert (Hof : ∀ r k base head, (r, k) ≠ (repoID, num) → of_snapshot p r k base head →
    of_snapshot (set_changes ms mf mo p) r k base head).
  { intros r k base head Hne (x & Hx & Hrest). exists x. cbn. by rewrite Hother. }
  destruct Hok as [Hfile Howner]. split; cbn [pc_files pc_owners set_changes].
  - intros r k path f Hf1 Ht. destruct (Hfiles' (r, k, path)) as (Hin & Hout & _).
    destruct (decide ((r, k, path) ∈ map (λ f, (repoID, num, fi_Path f)) (sn_Files s))) as [Hi|Hi].
    + destruct (Hin Hi) as (f' & Hf' & _ & E1 & E2). assert (f' = f) as -> by congruence. rewrite E1, E2.
      apply list_elem_of_fmap in Hi as (x & [= -> -> ->] & _). done.
    + destruct (Hout Hi f Hf1 Ht) as [Hne Hp]. apply Hof; [done|]. by eapply Hfile.
  - intros r k path token o Ho1 Ht. destruct (Howners' (r, k, path, token)) as (Hin & Hout & _).
    destruct (decide ((r, k, path, token) ∈
      map (λ o, (repoID, num, fo_Path o, fo_OwnerToken o)) (sn_Owners s))) as [Hi|Hi].
    + destruct (Hin Hi) as (o' & Ho' & _ & E1 & E2). assert (o' = o) as -> by congruence. rewrite E1, E2.
      apply list_elem_of_fmap in Hi as (x & [= -> -> -> _] & Hx). split; [done|].
      destruct (Hfiles' (repoID, num, fo_Path x)) as (Hfin & _).
      destruct Hfin as (f & Hf1 & Hlf & _); [|by exists f].
      apply Hpaths, list_elem_of_fmap in Hx as (y & Hy & Hyin). rewrite Hy.
      apply list_elem_of_fmap. by exists y.
    + destruct (Hout Hi o Ho1 Ht) as [Hne Hp]. destruct (Howner _ _ _ _ _ Hp Ht) as [Hsn (f & Hf1 & Hft)].
      split; [by apply Hof|]. exists f. split; [|done].
      destruct (Hfiles' (r, k, path)) as (_ & _ & Hkeep). by rewrite Hkeep.
Qed.
End changes.

Section changes_kept.
Context {R : Type}.
Implicit Types p q : pcache R.

Lemma write_changes_kept repo r now p b p' : valid_pull r →
  write_changes repo r now p = Ok (b, p') → changes_ok p → changes_ok p'.
Proof.
  intros Hv Hw Hok. unfold write_changes in Hw.
  destruct (pl_ChangeInputsKnown r) eqn:Hk; [|by injection Hw as _ <-].
  destruct (vp_snapshot _ Hv Hk) as (s & Hs & _ & _ & Hpaths). rewrite Hs in Hw.
  destruct (UpsertPullRequestChangeSnapshot _ _ _ _ _ _ _ _) as [count ms] eqn:Hu.
  apply upsert_snapshot_spec in Hu as [Hother Hsame].
  unfold replaced in Hw.
  destruct (ReplacePullRequestChangedFiles _ _ _ _ _ _ _ _ _) as [[cf mf]|] eqn:Hf; [|done]. cbn in Hw.
  destruct (ReplacePullRequestFileOwners _ _ _ _ _ _ _ _ _) as [[co mo]|] eqn:Ho; [|done]. cbn in Hw.
  injection Hw as _ <-.
  apply (changes_ok_touch (set_changes ms mf mo p)); [..|by eapply replace_changes];
    cbn [pc_files pc_owners pc_snapshots set_changes]; intros k.
  - unfold TouchPullRequestChangedFilesCheckedAt. case_match; [|exists id; by rewrite option_fmap_id].
    exists (λ f, if file_mine (rp_id repo) (pl_Number r) k f
      then file_with (touch_prov now (pl_ETag r) (fr_prov f)) (fr_tombstoned_at f) f else f).
    split; [rewrite map_lookup_imap; by destruct (mf !! k)|]. intros f. by case_match.
  - unfold TouchPullRequestFileOwnersCheckedAt. case_match; [|exists id; by rewrite option_fmap_id].
    exists (λ f, if owner_mine (rp_id repo) (pl_Number r) k f
      then owner_with (touch_prov now (pl_ETag r) (or_prov f)) (or_tombstoned_at f) f else f).
    split; [rewrite map_lookup_imap; by destruct (mo !! k)|]. intros f. by case_match.
  - unfold TouchPullRequestChangeInputsCheckedAt.
    destruct (live_snapshot _ _ _ ms) as [n|] eqn:Hn; [|exists id; by rewrite option_fmap_id].
    apply live_snapshot_Some in Hn as [Hn _].
    destruct (decide (k = (rp_id repo, wrap32 (pl_Number r)))) as [->|Hne];
      [|exists id; by rewrite lookup_insert_ne, option_fmap_id].
    eexists (λ x, snapshot_with (touch_prov now (sn_CodeownersETag s) (nr_prov x)) _ (nr_tombstoned_at x) x).
    rewrite lookup_insert_eq, Hn. split; [done|]. done.
Qed.

(** The other steps leave the change inputs alone. *)
Definition same_changes p q : Prop :=
  pc_snapshots q = pc_snapshots p ∧ pc_files q = pc_files p ∧ pc_owners q = pc_owners p.

Lemma changes_ok_same p q : same_changes p q → changes_ok p → changes_ok q.
Proof. intros (Hs & Hf & Ho) [H1 H2]. split; unfold of_snapshot; rewrite ?Hs, ?Hf, ?Ho; auto. Qed.

Lemma pull_run_changes r now repo p a row p1 p2 p3 p4 p5 p6 threads :
  pull_run r now repo p a row p1 p2 p3 p4 p5 p6 threads → same_changes p p4 ∧ same_changes p5 p6.
Proof.
  intros []. split.
  - unfold write_pull in pr_pull0.
    destruct (UpsertPullRequestWriteIfNewer _ _ _ _) as [c m]. case_match; [|done]. injection pr_pull0 as _ _ <-.
    unfold write_requests, write_reviews, write_comments in *.
    repeat match goal with
    | H : (if ?b then _ else _) = Ok _ |- _ => destruct b
    | H : mbind _ (replaced ?e) = Ok _ |- _ => destruct (replaced e) as [[]|]; [cbn in H|done]
    | H : Ok (_, _) = Ok (_, ?p) |- _ => injection H as _ <-
    end; done.
  - unfold write_threads in pr_threads0.
    destruct (pl_ThreadsKnown r); [destruct (replaced _) as [[]|]; [|done]|]; injection pr_threads0 as _ <-; done.
Qed.

Lemma apply_pull_changes r hook now a p p' : validatePullRequest r = Ok tt →
  apply_pull r hook now p = Ok (a, p') → changes_ok p → changes_ok p'.
Proof.
  intros Hv Ha Hok. apply validate_pull_ok in Hv.
  apply apply_pull_inv in Ha as (repo & row & p1 & p2 & p3 & p4 & p5 & p6 & threads & _ & Hrun & ->).
  destruct (pull_run_changes _ _ _ _ _ _ _ _ _ _ _ _ _ Hrun) as [H14 H56]. destruct Hrun.
  apply (changes_ok_same p6); [by unfold mark_pull; case_match|].
  apply (changes_ok_same p5); [done|]. eapply write_changes_kept; [done|done|]. by eapply changes_ok_same.
Qed.

Lemma tombstone_children_changes at_ source repoID number p :
  changes_ok p → changes_ok (tombstone_children at_ source repoID number p).
Proof.
  intros [Hfile Howner]. set (num := wrap32 number).
  assert (Hof : ∀ r k base head, (r, k) ≠ (repoID, num) → of_snapshot p r k base head →
    of_snapshot (tombstone_children at_ source repoID number p) r k base head).
  { intros r k base head Hne (x & Hx & Hrest). exists x. cbn. unfold TombstonePullRequestChangeSnapshot.
    by rewrite lookup_alter_ne by (intros [= ? ?]; naive_solver). }
  split; cbn [pc_files pc_owners tombstone_children].
  - intros r k path f Hf Ht. unfold TombstonePullRequestChangedFiles in Hf. rewrite map_lookup_imap in Hf.
    destruct (pc_files p !! (r, k, path)) as [f0|] eqn:Hf0; [|done]. cbn in Hf. injection Hf as <-.
    destruct (file_mine repoID number (r, k, path) f0) eqn:Hm; [done|]. apply bool_decide_eq_false in Hm. cbn in Hm.
    apply Hof; [intros [= -> ->]; by apply Hm|by eapply Hfile].
  - intros r k path token o Ho Ht. unfold TombstonePullRequestFileOwners in Ho. rewrite map_lookup_imap in Ho.
    destruct (pc_owners p !! (r, k, path, token)) as [o0|] eqn:Ho0; [|done]. cbn in Ho. injection Ho as <-.
    destruct (owner_mine repoID number (r, k, path, token) o0) eqn:Hm; [done|].
    apply bool_decide_eq_false in Hm. cbn in Hm.
    assert (Hne : (r, k) ≠ (repoID, num)) by (intros [= -> ->]; by apply Hm).
    destruct (Howner _ _ _ _ _ Ho0 Ht) as [Hsn (f & Hf & Hft)]. split; [by apply Hof|]. exists f.
    split; [|done]. unfold TombstonePullRequestChangedFiles. rewrite map_lookup_imap, Hf. cbn.
    unfold file_mine. rewrite bool_decide_eq_false_2; [done|]. cbn. intros (-> & -> & _). done.
Qed.

Lemma tombstone_pull_changes r number source hook now a p p' :
  tombstone_pull r number source hook now p = Ok (a, p') → changes_ok p → changes_ok p'.
Proof.
  intros Ha Hok. unfold tombstone_pull in Ha. destruct (find_repo _ _) as [repo|]; [|done]. cbn in Ha.
  destruct (pulls p !! _) as [old|]; [|by injection Ha as _ <-].
  destruct (TombstonePullRequest _ _ _ _ _) as [[row m]|]; destruct (run_hook hook _) in Ha; try discriminate Ha;
    cbn in Ha; injection Ha as _ <-; [|done].
  apply tombstone_children_changes. by apply (changes_ok_same p).
Qed.

Lemma touch_pull_changes r number etag now b p p' :
  touch_pull r number etag now p = Ok (b, p') → changes_ok p → changes_ok p'.
Proof.
  intros Ha. unfold touch_pull in Ha. destruct (find_repo _ _) as [repo|]; [|done]. cbn in Ha.
  destruct (ConfirmPullRequestMetadataCheckedAt _ _ _ _ _). injection Ha as _ <-. by apply changes_ok_same.
Qed.
End changes_kept.

(** ** Older observations *)

Section stale.
Context {R : Type}.
Implicit Types p : pcache R.

(** A live parent row that is newer than the observation closes the fence. *)
Definition newer_parent p (repo : repo_row) (r : PullRequestRecord) : Prop :=
  ∃ row t, pulls p !! (rp_id repo, wrap32 (pl_Number r)) = Some row ∧ pf_gh_updated_at row = Some t ∧
    pl_GitHubUpdatedAt r < t.

Lemma newer_parent_closed p repo r : newer_parent p repo r →
  eligible_pull (rp_id repo) (pl_Number r) (pl_GitHubUpdatedAt r) (pulls p) = false.
Proof.
  intros (row & t & Hrow & Ht & Hlt). unfold eligible_pull. rewrite Hrow, Ht.
  rewrite (proj2 (Z.leb_gt t _)) by lia. apply andb_false_r.
Qed.

Lemma stale_requests repo r head now p b p' : newer_parent p repo r →
  write_requests repo r head now p = Ok (b, p') → b = false ∧ p' = p.
Proof.
  intros Hnew%newer_parent_closed. unfold write_requests, ReplacePullRequestReviewRequests,
    TouchPullRequestReviewRequestsCheckedAt. rewrite Hnew. cbn.
  destruct (pl_ReviewRequestsKnown r); intros [= <- <-]; by destruct p.
Qed.

Lemma stale_reviews repo r head now p b p' : newer_parent p repo r →
  write_reviews repo r head now p = Ok (b, p') → b = false ∧ p' = p.
Proof.
  intros Hnew%newer_parent_closed. unfold write_reviews, ReplacePullRequestReviews,
    TouchPullRequestReviewsCheckedAt. rewrite Hnew. cbn.
  destruct (pl_ReviewsKnown r); intros [= <- <-]; by destruct p.
Qed.

Lemma stale_comments repo r head now p b p' : newer_parent p repo r →
  write_comments repo r head now p = Ok (b, p') → b = false ∧ p' = p.
Proof.
  intros Hnew%newer_parent_closed. unfold write_comments, ReplacePullRequestComments,
    TouchPullRequestCommentsCheckedAt. rewrite Hnew. cbn.
  destruct (pl_CommentsKnown r); intros [= <- <-]; by destruct p.
Qed.

(** Of the snapshot only validators and the time of the last check may change. *)
Lemma stale_changes repo r now p b p' : newer_parent p repo r →
  write_changes repo r now p = Ok (b, p') →
  (pc_requests p', pc_reviews p', pc_comments p') = (pc_requests p, pc_reviews p, pc_comments p) ∧
  ∀ k, (λ n, (snapshot_semantic n, nr_parent_gh_updated_at n, nr_tombstoned_at n)) <$> pc_snapshots p' !! k =
       (λ n, (snapshot_semantic n, nr_parent_gh_updated_at n, nr_tombstoned_at n)) <$> pc_snapshots p !! k.
Proof.
  intros Hnew%newer_parent_closed. unfold write_changes.
  destruct (pl_ChangeInputsKnown r); [|by intros [= _ <-]]. destruct (pl_ChangeSnapshot r) as [s|]; [|done].
  unfold UpsertPullRequestChangeSnapshot, eligible_commits. rewrite Hnew. cbn [andb].
  destruct (replaced (ReplacePullRequestChangedFiles _ _ _ _ _ _ _ _ _)) as [[cf mf]|]; [|done]. cbn.
  destruct (replaced (ReplacePullRequestFileOwners _ _ _ _ _ _ _ _ _)) as [[co mo]|]; [|done]. cbn.
  intros [= _ <-]. cbn. split; [done|]. intros k. unfold TouchPullRequestChangeInputsCheckedAt.
  destruct (live_snapshot _ _ _ _) as [n|] eqn:Hn; [|done]. apply live_snapshot_Some in Hn as [Hn _].
  destruct (decide (k = (rp_id repo, wrap32 (pl_Number r)))) as [->|Hne]; [|by rewrite lookup_insert_ne].
  by rewrite lookup_insert_eq, Hn.
Qed.

Lemma nullable_Some t : t ≠ zero_time → nullable t = Some t.
Proof. intros Ht. unfold nullable, IsZero. by destruct (Z.eqb_spec t 0). Qed.

Lemma stale_row_kept old new t : pf_gh_updated_at old = Some t → pf_tombstoned_at old = None →
  (∀ n, pf_gh_updated_at new = Some n → n < t) → pf_gh_updated_at new ≠ None → pull_newer old new = false.
Proof.
  intros Ht Hlive Hlt Hnone. unfold pull_newer. rewrite Ht, Hlive.
  destruct (pf_gh_updated_at new) as [n|]; [|done]. specialize (Hlt n eq_refl).
  rewrite (proj2 (Z.ltb_ge t n)) by lia. rewrite bool_decide_eq_false_2 by done.
  rewrite bool_decide_eq_false_2; [done|]. intros [= ->]. lia.
Qed.
End stale.

(** ** Theorems *)


(** The writes of the pull-request writer between writes of other tables. *)
Inductive pull_step {R} (p : pcache R) : pcache R → Prop :=
  | step_pull now p' : pull_write now p p' → pull_step p p'
  | step_other w' : pull_step p (set_w w' p).

(** C18. Change inputs never mix commits: in every cache the writer can reach from
    empty tables, a live changed file belongs to the live snapshot of its pull request
    at the same base and head commits, and a live code owner belongs to that snapshot
    too and to a live changed file. *)
Theorem change_inputs_consistent {R : Type} (p0 p : pcache R) :
  pc_files p0 = ∅ → pc_owners p0 = ∅ → rtc pull_step p0 p → changes_ok p.
Proof.
  intros Hf Ho Hreach. assert (Hinit : changes_ok p0).
  { split; rewrite ?Hf, ?Ho; intros; by rewrite lookup_empty in *. }
  clear Hf Ho. induction Hreach as [|p0 p1 p2 Hstep _ IH]; [done|]. apply IH.
  destruct Hstep as [now p1 []|w']; [by eapply apply_pull_changes|by eapply tombstone_pull_changes|
    by eapply touch_pull_changes|by apply (changes_ok_same p0)].
Qed.


(** An older observation of a live pull request is discarded: the row keeps every
    column but the time of the last check and the entity tag, review requests, reviews
    and comments stay as they are, and of a change snapshot only validators and the
    time of the last check can move. *)
Theorem older_pull_discarded {R : Type} (r : PullRequestRecord)
    (hook : option (ApplyPullRequestResult → result write_error unit)) (now : time)
    (a : ApplyPullRequestResult) (p p' : pcache R) (repo : repo_row) (old : pull_full) (t : time) :
  apply_pull r hook now p = Ok (a, p') →
  repos (base (pc_w p)) !! GitHubID (pl_Repository r) = Some repo →
  0 < pl_Number r < 2 ^ 31 → pl_GitHubUpdatedAt r ≠ zero_time →
  pulls p !! (rp_id repo, pl_Number r) = Some old → pf_tombstoned_at old = None →
  pf_gh_updated_at old = Some t → pl_GitHubUpdatedAt r < t →
  ap_DomainChanged a = false ∧
  (∃ f, pulls p' !! (rp_id repo, pl_Number r) = Some (set_pull_prov f old)) ∧
  (pc_requests p', pc_reviews p', pc_comments p') = (pc_requests p, pc_reviews p, pc_comments p) ∧
  ∀ k, (λ n, (snapshot_semantic n, nr_parent_gh_updated_at n, nr_tombstoned_at n)) <$> pc_snapshots p' !! k =
       (λ n, (snapshot_semantic n, nr_parent_gh_updated_at n, nr_tombstoned_at n)) <$> pc_snapshots p !! k.
Proof.
  intros Ha Hrepo Hn Hz Hold Hlive Ht Hlt.
  apply apply_pull_inv in Ha as (repo0 & row & p1 & p2 & p3 & p4 & p5 & p6 & threads & Hrepo0 & Hrun & ->).
  assert (repo0 = repo) as -> by congruence. clear Hrepo0.
  pose proof (pull_run_w _ _ _ _ _ _ _ _ _ _ _ _ _ Hrun) as Hw5.
  destruct (pull_run_changes _ _ _ _ _ _ _ _ _ _ _ _ _ Hrun) as [_ [Hs56 _]]. destruct Hrun.
  destruct (write_pull_spec _ _ _ _ _ _ _ pr_pull0 Hn) as (Hp1 & (m & Hw1 & _ & f & _ & Hmk) & Hdom).
  assert (Hdom0 : ap_DomainChanged a = false).
  { destruct (ap_DomainChanged a); [|done]. destruct Hdom as [-> Hnew]. specialize (Hnew old Hold).
    rewrite (stale_row_kept old _ t) in Hnew;
      [done|done|done| |]; cbn; rewrite nullable_Some by done; [by intros ? [= <-]|done]. }
  rewrite Hdom0 in Hdom. destruct Hdom as [Hdom _]. assert (row = old) as -> by congruence.
  assert (Hparent : newer_parent p1 repo r).
  { exists (set_pull_prov f old), t. rewrite wrap32_id by lia. unfold pulls. rewrite Hw1. done. }
  apply stale_requests in pr_requests0 as [_ ->]; [|done].
  apply stale_reviews in pr_reviews0 as [_ ->]; [|done].
  apply stale_comments in pr_comments0 as [_ ->]; [|done].
  apply stale_changes in pr_changes0 as [Hch Hsn]; [|done].
  assert (Hp6 : (pc_requests p6, pc_reviews p6, pc_comments p6) = (pc_requests p5, pc_reviews p5, pc_comments p5)
    ∧ wc_pulls (pc_w p6) = wc_pulls (pc_w p5)).
  { unfold write_threads in pr_threads0. destruct (pl_ThreadsKnown r); [|by injection pr_threads0 as _ <-].
    destruct (replaced _) as [[]|]; [|done]. by injection pr_threads0 as _ <-. }
  destruct Hp6 as [Hp6 Hpulls6]. unfold mark_pull, pulls.
  split; [done|]. split; [|split].
  - exists f. rewrite <- Hmk. transitivity (wc_pulls (pc_w p6) !! (rp_id repo, pl_Number r)); [by case_match|].
    by rewrite Hpulls6, Hw5, Hw1.
  - transitivity (pc_requests p6, pc_reviews p6, pc_comments p6); [by case_match|]. rewrite Hp6, Hch.
    by rewrite Hp1.
  - intros k. transitivity ((λ n, (snapshot_semantic n, nr_parent_gh_updated_at n, nr_tombstoned_at n)) <$>
      pc_snapshots p6 !! k); [by case_match|]. rewrite Hs56, Hsn. by rewrite Hp1.
Qed.

(** ** Batches *)

Section batch.
Context {R : Type}.

Lemma apply_item_failed ctx now a (st : wstate (pcache R)) e st' : pa_Observation a ≠ None →
  apply_item ctx now a st = (Err e, st') → st' = st.
Proof.
  unfold apply_item, applyPullRequest. destruct (pa_Observation a); [|done]. intros _ Ha.
  destruct (validatePullRequest _); [|by injection Ha].
  destruct (entityTx _ _ _ _ _ _) as [[]|]; by injection Ha.
Qed.

Lemma apply_items_app ctx now l1 l2 : ∀ o (st : wstate (pcache R)),
  apply_items ctx now (l1 ++ l2) o st =
  apply_items ctx now l2 (apply_items ctx now l1 o st).1 (apply_items ctx now l1 o st).2.
Proof.
  induction l1 as [|a l1 IH]; intros o st; cbn; [done|].
  destruct (apply_item ctx now a st) as [outcome st1]. apply IH.
Qed.

(** An outcome under a key depends on the items only. *)
Lemma apply_items_outcome ctx now l k : ∀ o1 o2 (st : wstate (pcache R)), o1 !! k = o2 !! k →
  (apply_items ctx now l o1 st).1 !! k = (apply_items ctx now l o2 st).1 !! k ∧
  (apply_items ctx now l o1 st).2 = (apply_items ctx now l o2 st).2 ∧
  (k ∉ map apply_key l → (apply_items ctx now l o1 st).1 !! k = o1 !! k).
Proof.
  induction l as [|a l IH]; intros o1 o2 st Ho; cbn; [done|].
  destruct (apply_item ctx now a st) as [outcome st1].
  destruct (IH (<[apply_key a := outcome]> o1) (<[apply_key a := outcome]> o2) st1) as (H1 & H2 & H3).
  { destruct (decide (apply_key a = k)) as [<-|Hne]; [by rewrite !lookup_insert_eq|by rewrite !lookup_insert_ne]. }
  split; [done|]. split; [done|]. intros [Hne Hk]%not_elem_of_cons. rewrite (H3 Hk).
  by rewrite lookup_insert_ne.
Qed.
End batch.

(** A longer string differs. *)
Lemma str_cons_neq c (s : string) : String c s ≠ s.
Proof. revert c. induction s as [|d s IH]; intros c; [done|]. intros [= -> Heq]. by apply IH in Heq. Qed.

(** A poisoned item of a batch does not touch its siblings: when an observed item
    fails, the batch leaves the state and reports the outcomes that it would without
    the item, and it reports the failure under the item's key unless a later item has
    the same key. *)
Theorem batch_isolates_failure {R : Type} (ctx : fences) (now : time) (applies l1 l2 : list PullRequestApply)
    (a : PullRequestApply) (e : write_error) (st : wstate (pcache R)) :
  merge_sort apply_le applies = l1 ++ a :: l2 → pa_Observation a ≠ None →
  (apply_item ctx now a (apply_items ctx now l1 ∅ st).2).1 = Err e →
  (ApplyPullRequestBatch ctx now applies st).2 = (apply_items ctx now (l1 ++ l2) ∅ st).2 ∧
  (∀ k, k ≠ apply_key a →
     (ApplyPullRequestBatch ctx now applies st).1 !! k = (apply_items ctx now (l1 ++ l2) ∅ st).1 !! k) ∧
  (apply_key a ∉ map apply_key l2 → (ApplyPullRequestBatch ctx now applies st).1 !! apply_key a = Some (Err e)).
Proof.
  intros Hsort Hobs He. unfold ApplyPullRequestBatch. rewrite Hsort, !apply_items_app. cbn [apply_items].
  set (st1 := (apply_items ctx now l1 ∅ st).2) in *. set (o1 := (apply_items ctx now l1 ∅ st).1).
  destruct (apply_item ctx now a st1) as [outcome st2] eqn:Ha. cbn in He. subst outcome.
  apply apply_item_failed in Ha as ->; [|done].
  assert (Hout : ∀ k, k ≠ apply_key a → <[apply_key a := Err e]> o1 !! k = o1 !! k)
    by (intros k Hk; by rewrite lookup_insert_ne).
  split; [|split].
  - by apply (apply_items_outcome ctx now l2 (String "x" (apply_key a))), Hout, str_cons_neq.
  - intros k Hk. by apply apply_items_outcome, Hout.
  - intros Hno. rewrite (proj2 (proj2 (apply_items_outcome ctx now l2 (apply_key a) _ _ st1 eq_refl)) Hno).
    apply lookup_insert_eq.
Qed.

(** ** Witnesses *)

Definition wit_snapshot : PullRequestChangeSnapshotRecord :=
  mkSnapshot "b0" "c0ffee" "" 1 false "main" "b0" ".github/CODEOWNERS" "present" "* @ann" "h1" ""
    [mkFile "main.go" "" "modified"]
    [mkOwner "main.go" "@ann" "user" "ann" "resolved" 5 "U" "ann" "*" 1].

(** A record of pull request 4 that joins stack 2, updated at the given time. *)
Definition wit_pull (updatedAt : time) : PullRequestRecord :=
  mkPullRecord wit_record 44 "P" 4 "t" "OPEN" false "ann" "topic" "c0ffee" "main" "b0" "" "" (Some 2) (Some 1)
    None true updatedAt [mkThreadRecord "T2" false false "main.go" (Some 3) [] updatedAt] true
    [mkRequest "user" 6 "U6" "bob" None] true [] true [] true (Some wit_snapshot) true "" updatedAt "manual".

(** The cache of [Writers.wit_cache] with a live thread and a review request. *)
Definition wit_pcache : pcache string :=
  mkP (set_threads {[ "T1" := mkThreadFull 1 4 false false "main.go" (Some 3) [] (Some 5) "c0ffee"
                                (mkProv 5 5 "" "webhook") None ]} wit_cache)
    {[ (1, 4, "user", 6) := mkRequestRow "U6" "bob" None 5 5 "c0ffee" (mkProv 5 5 "" "webhook") None ]}
    ∅ ∅ ∅ ∅ ∅.

Definition applied_pull (r : PullRequestRecord) (now : time) (p : pcache string) :=
  match apply_pull r None now p with Ok ap => ap | Err _ => (no_pull_result, p) end.

Lemma wit_applies : apply_pull (wit_pull 8) None 10 wit_pcache =
  Ok (applied_pull (wit_pull 8) 10 wit_pcache).
Proof. by vm_compute. Qed.

Lemma wit_pcache_ok : wcache_ok (pc_w wit_pcache).
Proof. destruct wit_cache_ok. by split. Qed.


Lemma change_inputs_consistent_witness :
  ∃ p, rtc pull_step wit_pcache p ∧ changes_ok p ∧
    is_Some (pc_owners p !! (1, 4, "main.go", "@ann")).
Proof.
  exists (applied_pull (wit_pull 8) 10 wit_pcache).2.
  assert (Hr : rtc pull_step wit_pcache (applied_pull (wit_pull 8) 10 wit_pcache).2).
  { apply rtc_once, (step_pull _ 10).
    apply (write_applied _ _ (wit_pull 8) None (applied_pull (wit_pull 8) 10 wit_pcache).1);
      [by vm_compute|]. rewrite wit_applies. by destruct (applied_pull _ _ _). }
  split; [done|]. split; [|by vm_compute; eexists].
  by apply (change_inputs_consistent wit_pcache _ eq_refl eq_refl).
Defined.


Lemma older_pull_discarded_witness :
  let p' := (applied_pull (wit_pull 3) 10 wit_pcache).2 in
  ap_DomainChanged (applied_pull (wit_pull 3) 10 wit_pcache).1 = false ∧
  pc_requests p' = pc_requests wit_pcache.
Proof.
  cbn zeta.
  assert (Ha : apply_pull (wit_pull 3) None 10 wit_pcache =
    Ok ((applied_pull (wit_pull 3) 10 wit_pcache).1, (applied_pull (wit_pull 3) 10 wit_pcache).2))
    by by vm_compute.
  destruct (older_pull_discarded (wit_pull 3) None 10 _ _ _ demo_repo
    (mkPullFull 1 (Some 44) "P" 4 "t" "open" false "ann" "topic" "c0ffee" "main" "b0" "" "" None None
       (Some 5) (mkProv 5 5 "" "webhook") None None) 5 Ha)
    as (H1 & _ & H3 & _); [done|cbn; lia|done|done|done|done|cbn; lia|].
  split; [exact H1|]. exact (f_equal (λ x, x.1.1) H3).
Defined.

(** A batch of a record whose hook fails. *)
Lemma batch_isolates_failure_witness :
  let bad := mkApply None (wit_pull 8) "" (Some (mkObservation "pr:7:9:4" 0)) (Some (λ _, Err TransactionHookFailed)) in
  (ApplyPullRequestBatch no_fences 10 [bad] (mkWState ∅ wit_pcache)).1 !! "pr:7:9:4" =
    Some (Err TransactionHookFailed).
Proof.
  cbn zeta. set (bad := mkApply _ _ _ _ _).
  destruct (batch_isolates_failure no_fences 10 [bad] [] [] bad TransactionHookFailed (mkWState ∅ wit_pcache))
    as (_ & _ & H); [done|done|by vm_compute|].
  apply H, not_elem_of_nil.
Defined.

(** The review threads have no fence on their parent: an observation that is older
    than the cached pull request, and whose review requests are discarded, still
    tombstones a live thread it does not know. *)
Example older_threads_replaced :
  let p' := (applied_pull (wit_pull 3) 10 wit_pcache).2 in
  tf_tombstoned_at <$> wc_threads (pc_w wit_pcache) !! "T1" = Some None ∧
  tf_tombstoned_at <$> wc_threads (pc_w p') !! "T1" = Some (Some 10) ∧
  pc_requests p' = pc_requests wit_pcache.
Proof. by vm_compute. Qed.
