(* ===== verification/GitHub.v ===== *)
(** * The GitHub client

    [internal/gh/client.go], [rest.go] and [graphql.go] above the request gate: the
    paths of requests, the conditional responses, the shapes of the answers, the
    search for the effective CODEOWNERS source, the rename listing, and the loops that
    follow the cursors of a pull request's connections.

    The server is an argument: a function from what a request asks to what is
    answered. What the code relies on is a named law about that function
    ([content_server], [serves], [lists_files]). A loop that follows cursors takes
    fuel, since only the server decides how long it runs; the theorems say which fuel
    is enough for a server that ends. *)

From Stdlib Require Import ZArith Lia Bool String Ascii.
From stdpp Require Import sorting strings gmap sets numbers base list.
From S2P Require Import Prelude GoStrings.

Local Open Scope Z_scope.

(** [strings.EqualFold] on ASCII. *)
Definition EqualFold (a b : string) : bool := bool_decide (ToLower a = ToLower b).

(** ** Paths *)

Definition in_range (lo hi c : ascii) : bool :=
  (N_of_ascii lo <=? N_of_ascii c)%N && (N_of_ascii c <=? N_of_ascii hi)%N.

Definition one_of (l : list ascii) (c : ascii) : bool := bool_decide (c ∈ l).

(** The two escaping modes of [net/url] that the client uses. *)
Inductive encoding : Type := encodePath | encodePathSegment.

(** [shouldEscape]. *)
Definition shouldEscape (mode : encoding) (c : ascii) : bool :=
  if in_range "a" "z" c || in_range "A" "Z" c || in_range "0" "9" c then false
  else if one_of ["-"; "_"; "."; "~"]%char c then false
  else if one_of ["$"; "&"; "+"; ","; "/"; ":"; ";"; "="; "?"; "@"]%char c then
    match mode with
    | encodePath => one_of ["?"]%char c
    | encodePathSegment => one_of ["/"; ";"; ","; "?"]%char c
    end
  else true.

Definition hex_digit (n : N) : ascii :=
  if (n <? 10)%N then ascii_of_N (48 + n) else ascii_of_N (55 + n).

Definition unhex (c : ascii) : option N :=
  if in_range "0" "9" c then Some (N_of_ascii c - 48)%N
  else if in_range "a" "f" c then Some (N_of_ascii c - 87)%N
  else if in_range "A" "F" c then Some (N_of_ascii c - 55)%N
  else None.

(** [escape]. *)
Fixpoint escape (mode : encoding) (s : string) : string :=
  match s with
  | EmptyString => EmptyString
  | String c s =>
      if shouldEscape mode c then
        String "%" (String (hex_digit (N_of_ascii c / 16)) (String (hex_digit (N_of_ascii c mod 16))
          (escape mode s)))
      else String c (escape mode s)
  end.

(** How a server reads a path: every [%XX] is one byte. *)
Fixpoint unescape (s : string) : option string :=
  match s with
  | EmptyString => Some EmptyString
  | String "%" (String a (String b s)) =>
      match unhex a, unhex b with
      | Some x, Some y => String (ascii_of_N (16 * x + y)) <$> unescape s
      | _, _ => None
      end
  | String "%" _ => None
  | String c s => String c <$> unescape s
  end.

Definition PathEscape (s : string) : string := escape encodePathSegment s.

(** The path of the request [client.request] builds: the argument is the [Path] of a
    [url.URL], which [String] escapes. *)
Definition request_path (path : string) : string := escape encodePath path.

(** The path that [GetBranchHead] asks for. *)
Definition GetBranchHead_path (owner repo branch : string) : string :=
  request_path ("repos/" +:+ PathEscape owner +:+ "/" +:+ PathEscape repo +:+ "/branches/"
                +:+ PathEscape branch).

(** ** Responses *)

Record RESTResponse : Type := mkREST {
  rr_StatusCode : Z;
  rr_ETag : string;
  rr_NotModified : bool;
  rr_NextPage : Z;
  rr_NextCursor : string
}.

(** What the gate returned: the status, the entity tag, the parsed link and the
    decoded body. *)
Record http_response (T : Type) : Type := mkHTTP {
  ht_status : Z;
  ht_etag : string;
  ht_next : Z * string;
  ht_body : option T
}.
Arguments mkHTTP {T}.
Arguments ht_status {T}.
Arguments ht_etag {T}.
Arguments ht_next {T}.
Arguments ht_body {T}.

Inductive http_error : Type :=
  | TransportError
  | HTTPError (status : Z)
  | DecodeError.

Definition success (status : Z) : bool := negb ((status <? 200) || (299 <? status)).

(** [getJSON]: the response, and the value, nothing after a 304, or the error. *)
Definition getJSON {T} (etag : string) (resp : http_response T)
    : RESTResponse * result http_error (option T) :=
  let etag' := if (ht_status resp =? 304) && bool_decide (ht_etag resp = "") then etag
               else ht_etag resp in
  let meta n := mkREST (ht_status resp) etag' n (ht_next resp).1 (ht_next resp).2 in
  if ht_status resp =? 304 then (meta true, Ok None)
  else if negb (success (ht_status resp)) then (meta false, Err (HTTPError (ht_status resp)))
  else match ht_body resp with
       | None => (meta false, Err DecodeError)
       | Some v => (meta false, Ok (Some v))
       end.

(** [repoutil.IsNotFound]. *)
Definition IsNotFound {A} (r : result http_error A) : bool :=
  match r with
  | Err (HTTPError s) => s =? 404
  | _ => false
  end.

(** ** REST resources *)

(** A pull request reads a missing field as its zero value; the update time and the
    requested reviewers and teams may be absent. *)
Record StackRef : Type := mkStackPreview {
  sf_ID : Z;
  sf_Number : Z;
  sf_Size : Z;
  sf_Position : Z;
  sf_BaseRef : string;
  sf_BaseSHA : string
}.

Record github_account : Type := mkAccount {
  ga_ID : Z;
  ga_NodeID : string;
  ga_Login : string;
  ga_Type : string
}.

Record PullRequest : Type := mkRestPull {
  rl_ID : Z;
  rl_NodeID : string;
  rl_Number : Z;
  rl_Title : string;
  rl_State : string;
  rl_Draft : bool;
  rl_User : string;
  rl_HeadRef : string;
  rl_HeadSHA : string;
  rl_BaseRef : string;
  rl_BaseSHA : string;
  rl_MergeableState : string;
  rl_UpdatedAt : option time;
  rl_RequestedReviewers : option (list github_account);
  rl_RequestedTeams : option (list github_account);
  rl_Stack : option StackRef;
  rl_ReviewDecision : string
}.

(** [IsSupportedReviewRequestUser] and [IsSupportedReviewRequestTeam]; the login of a
    team is its slug. *)
Definition IsSupportedReviewRequestUser (u : github_account) : bool :=
  if (ga_ID u <=? 0) || bool_decide (ga_NodeID u = "") || bool_decide (ga_Login u = "") then false
  else bool_decide (ga_Type u = "") || bool_decide (ga_Type u = "User").

Definition IsSupportedReviewRequestTeam (u : github_account) : bool :=
  (0 <? ga_ID u) && negb (bool_decide (ga_NodeID u = "")) && negb (bool_decide (ga_Login u = "")).

Record Repository : Type := mkRestRepo {
  re_ID : Z;
  re_NodeID : string;
  re_Owner : string;
  re_Name : string;
  re_FullName : string;
  re_DefaultBranch : string;
  re_Archived : bool;
  re_UpdatedAt : time
}.

Record StackPullRequest : Type := mkStackPull {
  sp_Number : Z;
  sp_State : string;
  sp_Draft : bool;
  sp_MergedAt : option time;
  sp_UpdatedAt : time;
  sp_HeadRef : string;
  sp_HeadSHA : string
}.

Record Stack : Type := mkRestStack {
  ss_ID : Z;
  ss_Number : Z;
  ss_NodeID : string;
  ss_BaseRef : string;
  ss_BaseSHA : string;
  ss_Open : bool;
  ss_CreatedAt : time;
  ss_UpdatedAt : time;
  ss_PullRequests : list StackPullRequest
}.

(** The raw document of a check run or a rule is kept as it came, with whether it is
    valid JSON. *)
Record CheckRun : Type := mkRestCheck {
  ck_ID : Z;
  ck_NodeID : string;
  ck_Name : string;
  ck_Status : string;
  ck_Conclusion : string;
  ck_DetailsURL : string;
  ck_AppSlug : string;
  ck_StartedAt : option time;
  ck_CompletedAt : option time;
  ck_Raw : string
}.

(** ** CODEOWNERS *)

Record CodeownersSource : Type := mkSource {
  cs_Ref : string;
  cs_Path : string;
  cs_Content : string;
  cs_State : string;
  cs_ETag : string
}.

Definition CodeownersPresent : string := "present".
Definition CodeownersMissing : string := "missing".
Definition CodeownersOversized : string := "oversized".
Definition CodeownersUnavailable : string := "unavailable".
Definition MaxCodeownersBytes : Z := 3 * 2 ^ 20.

Definition codeowners_paths : list string := [".github/CODEOWNERS"; "CODEOWNERS"; "docs/CODEOWNERS"].

(** The outcomes of [getRepositoryContent]. *)
Inductive content_answer : Type :=
  | ContentError
  | ContentMissing
  | ContentUnchanged (etag : string)
  | ContentBody (body etag : string).

(** The answer as a function of the response, with the tag that was sent. The body is
    read up to one byte beyond the limit. *)
Definition getRepositoryContent (etag : string) (resp : option (http_response string)) : content_answer :=
  match resp with
  | None => ContentError
  | Some resp =>
      if ht_status resp =? 304 then
        ContentUnchanged (if bool_decide (ht_etag resp = "") then etag else ht_etag resp)
      else if ht_status resp =? 404 then ContentMissing
      else if negb (success (ht_status resp)) then ContentError
      else match ht_body resp with
           | None => ContentError
           | Some body =>
               ContentBody (String.substring 0 (Z.to_nat (MaxCodeownersBytes + 1)) body) (ht_etag resp)
           end
  end.

Inductive source_error : Type :=
  | FetchFailed (path : string)
  | UnchangedWithoutPrior (path : string).

Definition prior_path (prior : option CodeownersSource) (path : string) : bool :=
  match prior with Some p => bool_decide (cs_Path p = path) | None => false end.

(** The loop over the remaining paths; [get] sends a path and a tag. *)
Fixpoint find_source (get : string → string → content_answer) (ref : string)
    (prior : option CodeownersSource) (paths : list string) : result source_error CodeownersSource :=
  match paths with
  | [] => Ok (mkSource ref "" "" CodeownersMissing "")
  | path :: paths =>
      let etag := match prior with
                  | Some p => if bool_decide (cs_Path p = path) then cs_ETag p else ""
                  | None => ""
                  end in
      match get path etag with
      | ContentMissing => find_source get ref prior paths
      | ContentError => Err (FetchFailed path)
      | ContentUnchanged e =>
          match prior with
          | Some p =>
              if negb (bool_decide (cs_Path p = path)) ||
                 negb (bool_decide (cs_State p = CodeownersPresent)) &&
                 negb (bool_decide (cs_State p = CodeownersOversized))
              then Err (UnchangedWithoutPrior path)
              else Ok (mkSource ref (cs_Path p) (cs_Content p) (cs_State p) e)
          | None => Err (UnchangedWithoutPrior path)
          end
      | ContentBody body e =>
          if MaxCodeownersBytes <=? Z.of_nat (String.length body)
          then Ok (mkSource ref path "" CodeownersOversized e)
          else Ok (mkSource ref path body CodeownersPresent e)
      end
  end.

(** The paths from the prior one on, when it is one of them. *)
Fixpoint resume_at (path : string) (paths : list string) : option (list string) :=
  match paths with
  | [] => None
  | p :: ps => if bool_decide (path = p) then Some paths else resume_at path ps
  end.

Definition FindCodeowners (get : string → string → content_answer) (ref : string)
    (prior : option CodeownersSource) : result source_error CodeownersSource :=
  match prior with
  | Some p =>
      if bool_decide (cs_Ref p = ref) then
        if bool_decide (cs_State p = CodeownersMissing) then Ok p
        else find_source get ref prior (default codeowners_paths (resume_at (cs_Path p) codeowners_paths))
      else find_source get ref prior codeowners_paths
  | None => find_source get ref prior codeowners_paths
  end.

(** ** Renames *)

Record PullRequestFile : Type := mkRestFile {
  rf_Path : string;
  rf_PreviousPath : string;
  rf_Status : string
}.

Definition MaxPullRequestFiles : Z := 3000.

Record renames_response : Type := mkRenames {
  rn_ETag : string;
  rn_NotModified : bool;
  rn_Truncated : bool
}.

(** A page of the listing: an error, a 304, or files with the next page number. *)
Inductive files_answer : Type :=
  | FilesError
  | FilesUnchanged (etag : string)
  | FilesPage (files : list PullRequestFile) (etag : string) (next : Z).

Inductive renames_error : Type :=
  | ListFilesFailed (page : Z)
  | UnexpectedUnchanged (page : Z)
  | RenamesOutOfFuel.

Definition add_rename (m : gmap string string) (f : PullRequestFile) : gmap string string :=
  if EqualFold (rf_Status f) "renamed" && negb (bool_decide (rf_Path f = ""))
     && negb (bool_decide (rf_PreviousPath f = ""))
  then <[rf_Path f := rf_PreviousPath f]> m else m.

(** The loop; [fuel] bounds the pages. *)
Fixpoint renames_go (fuel : nat) (list_page : Z → string → files_answer) (etag0 : string) (page : Z)
    (count : Z) (renames : gmap string string) (etag : string)
    : result renames_error (option (gmap string string) * renames_response) :=
  match fuel with
  | O => Err RenamesOutOfFuel
  | S fuel =>
      if negb (count <? MaxPullRequestFiles) then Ok (Some renames, mkRenames etag false true)
      else
        match list_page page (if page =? 1 then etag0 else "") with
        | FilesError => Err (ListFilesFailed page)
        | FilesUnchanged e =>
            if negb (page =? 1) then Err (UnexpectedUnchanged page)
            else Ok (None, mkRenames e true false)
        | FilesPage files e next =>
            let etag := if page =? 1 then e else etag in
            let here := take (Z.to_nat (MaxPullRequestFiles - count)) files in
            let renames := foldl add_rename renames here in
            let count := count + Z.of_nat (length here) in
            if next =? 0 then Ok (Some renames, mkRenames etag false false)
            else if count =? MaxPullRequestFiles then Ok (Some renames, mkRenames etag false true)
            else renames_go fuel list_page etag0 (next - 1 + 1) count renames etag
        end
  end.

Definition PullRequestFileRenamesConditional (fuel : nat) (list_page : Z → string → files_answer)
    (etag : string) : result renames_error (option (gmap string string) * renames_response) :=
  renames_go fuel list_page etag 1 0 ∅ "".

(** ** GraphQL nodes *)

Record PageInfo : Type := mkPageInfo { HasNextPage : bool; EndCursor : option string }.

Record connection (A : Type) : Type := mkConnection { cn_Nodes : list A; cn_PageInfo : PageInfo }.
Arguments mkConnection {A}.
Arguments cn_Nodes {A}.
Arguments cn_PageInfo {A}.

Record ActorNode : Type := mkActor { ac_Typename : string; ac_ID : string; ac_Login : string }.

Record PullRequestReviewNode : Type := mkReviewNode {
  rv_ID : string;
  rv_FullDatabaseID : option Z;
  rv_State : string;
  rv_SubmittedAt : option time;
  rv_UpdatedAt : time;
  rv_Author : option ActorNode;
  rv_Commit : option string
}.

Record IssueCommentNode : Type := mkCommentNode {
  ic_ID : string;
  ic_FullDatabaseID : option Z;
  ic_CreatedAt : time;
  ic_UpdatedAt : time;
  ic_Author : option ActorNode
}.

Record ReviewRequestNode : Type := mkRequestNode {
  rv_Typename : string;
  rv_ReviewerID : string;
  rv_DatabaseID : Z;
  rv_Login : string;
  rv_Slug : string
}.

Record RepositoryNode : Type := mkRepoNode {
  rd_ID : string;
  rd_DatabaseID : Z;
  rd_Name : string;
  rd_NameWithOwner : string;
  rd_IsArchived : bool;
  rd_UpdatedAt : time;
  rd_DefaultBranchRef : option (string * string);
  rd_Owner : string
}.

Record ReviewCommentNode : Type := mkReviewComment {
  wc_ID : string;
  wc_Body : string;
  wc_UpdatedAt : time;
  wc_Author : option string
}.

Record ReviewThreadNode : Type := mkThreadNode {
  th_ID : string;
  th_IsResolved : bool;
  th_IsOutdated : bool;
  th_Path : string;
  th_Line : option Z;
  th_Comments : connection ReviewCommentNode
}.

Record PullRequestChangedFileNode : Type := mkFileNode { fn_Path : string; fn_ChangeType : string }.

Record PullRequestFilesConnection : Type := mkFiles {
  fc_Nodes : list PullRequestChangedFileNode;
  fc_PageInfo : PageInfo;
  fc_TotalCount : Z;
  fc_Truncated : bool
}.

Record PullRequestNode : Type := mkPullNode {
  pn_ID : string;
  pn_DatabaseID : Z;
  pn_Number : Z;
  pn_Title : string;
  pn_State : string;
  pn_IsDraft : bool;
  pn_UpdatedAt : time;
  pn_ReviewDecision : string;
  pn_Mergeable : string;
  pn_HeadRefName : string;
  pn_HeadRefOID : string;
  pn_BaseRefName : string;
  pn_BaseRefOID : string;
  pn_ChangedFiles : Z;
  pn_Author : string;
  pn_Repository : RepositoryNode;
  pn_Files : option PullRequestFilesConnection;
  pn_ReviewRequests : connection ReviewRequestNode;
  pn_Reviews : connection PullRequestReviewNode;
  pn_Comments : connection IssueCommentNode;
  pn_ReviewThreads : connection ReviewThreadNode
}.

(** ** Following cursors *)

Definition MaxPullRequestBatch : Z := 25.

Inductive graphql_error : Type :=
  | CallFailed
  | MissingCursor
  | NodeDisappeared
  | FenceChanged
  | BatchEmpty
  | BatchTooLarge
  | BatchLength
  | OutOfFuel.

(** A page query: the answer to an identity and a cursor; [None] is a null node. *)
Abbreviation page_query A := (string → string → result graphql_error (option A)).

(** The loop over a connection, with [finish] applied to every page it appends. *)
Fixpoint complete {A} (fuel : nat) (query : page_query (connection A))
    (finish : list A → result graphql_error (list A)) (id : string) (c : connection A)
    : result graphql_error (connection A) :=
  if HasNextPage (cn_PageInfo c) then
    match fuel with
    | O => Err OutOfFuel
    | S fuel =>
        match EndCursor (cn_PageInfo c) with
        | None => Err MissingCursor
        | Some cursor =>
            page ← query id cursor;
            match page with
            | None => Err NodeDisappeared
            | Some page =>
                nodes ← finish (cn_Nodes page);
                complete fuel query finish id (mkConnection (cn_Nodes c ++ nodes) (cn_PageInfo page))
            end
        end
    end
  else Ok c.

Fixpoint mapM_result {A B E} (f : A → result E B) (l : list A) : result E (list B) :=
  match l with
  | [] => Ok []
  | x :: l => y ← f x; ys ← mapM_result f l; Ok (y :: ys)
  end.

Section client.
(** The page queries of the server. A page of files also carries the base and head
    commits it was read at. *)
Context (files_page : page_query (string * string * option PullRequestFilesConnection)).
Context (requests_page : page_query (connection ReviewRequestNode)).
Context (reviews_page : page_query (connection PullRequestReviewNode)).
Context (comments_page : page_query (connection IssueCommentNode)).
Context (threads_page : page_query (connection ReviewThreadNode)).
Context (thread_comments_page : page_query (connection ReviewCommentNode)).
Context (fuel : nat).

Definition completeReviewThreadComments (t : ReviewThreadNode) : result graphql_error ReviewThreadNode :=
  c ← complete fuel thread_comments_page Ok (th_ID t) (th_Comments t);
  Ok (mkThreadNode (th_ID t) (th_IsResolved t) (th_IsOutdated t) (th_Path t) (th_Line t) c).

Definition set_truncated (f : PullRequestFilesConnection) : PullRequestFilesConnection :=
  mkFiles (fc_Nodes f) (fc_PageInfo f) (fc_TotalCount f) true.

(** The loop over the changed files, at most [MaxPullRequestFiles] of them. *)
Fixpoint files_loop (fuel : nat) (id base head : string) (f : PullRequestFilesConnection)
    : result graphql_error PullRequestFilesConnection :=
  if HasNextPage (fc_PageInfo f) && (Z.of_nat (length (fc_Nodes f)) <? MaxPullRequestFiles) then
    match fuel with
    | O => Err OutOfFuel
    | S fuel =>
        match EndCursor (fc_PageInfo f) with
        | None => Err MissingCursor
        | Some cursor =>
            page ← files_page id cursor;
            match page with
            | None | Some (_, _, None) => Ok (set_truncated f)
            | Some (base', head', Some page) =>
                if negb (bool_decide (base' = base)) || negb (bool_decide (head' = head))
                then Err FenceChanged
                else
                  let remaining := MaxPullRequestFiles - Z.of_nat (length (fc_Nodes f)) in
                  let over := remaining <? Z.of_nat (length (fc_Nodes page)) in
                  let nodes := if over then take (Z.to_nat remaining) (fc_Nodes page) else fc_Nodes page in
                  files_loop fuel id base head
                    (mkFiles (fc_Nodes f ++ nodes) (fc_PageInfo page) (fc_TotalCount f)
                       (fc_Truncated f || over || negb (fc_TotalCount page =? fc_TotalCount f)))
            end
        end
    end
  else Ok f.

Definition complete_files (id base head : string) (f : PullRequestFilesConnection)
    : result graphql_error PullRequestFilesConnection :=
  let f := if MaxPullRequestFiles <? Z.of_nat (length (fc_Nodes f))
           then mkFiles (take (Z.to_nat MaxPullRequestFiles) (fc_Nodes f)) (fc_PageInfo f)
                  (fc_TotalCount f) true
           else f in
  f ← files_loop fuel id base head f;
  Ok (if HasNextPage (fc_PageInfo f) || negb (fc_TotalCount f =? Z.of_nat (length (fc_Nodes f)))
         || (MaxPullRequestFiles <? fc_TotalCount f)
      then set_truncated f else f).

Definition completePullRequestReviewConnections (p : PullRequestNode)
    : result graphql_error PullRequestNode :=
  files ← match pn_Files p with
          | None => Ok None
          | Some f =>
              f ← complete_files (pn_ID p) (pn_BaseRefOID p) (pn_HeadRefOID p) f;
              Ok (Some f)
          end;
  requests ← complete fuel requests_page Ok (pn_ID p) (pn_ReviewRequests p);
  reviews ← complete fuel reviews_page Ok (pn_ID p) (pn_Reviews p);
  comments ← complete fuel comments_page Ok (pn_ID p) (pn_Comments p);
  first ← mapM_result completeReviewThreadComments (cn_Nodes (pn_ReviewThreads p));
  threads ← complete fuel threads_page (mapM_result completeReviewThreadComments) (pn_ID p)
              (mkConnection first (cn_PageInfo (pn_ReviewThreads p)));
  Ok (mkPullNode (pn_ID p) (pn_DatabaseID p) (pn_Number p) (pn_Title p) (pn_State p) (pn_IsDraft p)
        (pn_UpdatedAt p) (pn_ReviewDecision p) (pn_Mergeable p) (pn_HeadRefName p) (pn_HeadRefOID p)
        (pn_BaseRefName p) (pn_BaseRefOID p) (pn_ChangedFiles p) (pn_Author p) (pn_Repository p)
        files requests reviews comments threads).

(** The answer to the nodes query: one optional node per identity. *)
Context (nodes_query : list string → result graphql_error (list (option PullRequestNode))).

Definition complete_node (n : option PullRequestNode) : result graphql_error (option PullRequestNode) :=
  match n with
  | None => Ok None
  | Some n => n ← completePullRequestReviewConnections n; Ok (Some n)
  end.

Definition BatchPullRequests (ids : list string) : result graphql_error (list (option PullRequestNode)) :=
  if bool_decide (ids = []) then Err BatchEmpty
  else if MaxPullRequestBatch <? Z.of_nat (length ids) then Err BatchTooLarge
  else
    nodes ← nodes_query ids;
    if negb (Z.of_nat (length nodes) =? Z.of_nat (length ids)) then Err BatchLength
    else mapM_result complete_node nodes.
End client.

(** ** Paths *)

Lemma unescape_plain c s : c ≠ "%"%char → unescape (String c s) = String c <$> unescape s.
Proof.
  intros Hc. destruct c as [[] [] [] [] [] [] [] []]; try reflexivity. by destruct Hc.
Qed.

Lemma unhex_digit n : (n < 16)%N → unhex (hex_digit n) = Some n.
Proof.
  intros Hn. assert (∃ k, (k < 16)%nat ∧ n = N.of_nat k) as (k & Hk & ->) by (exists (N.to_nat n); lia).
  clear Hn. do 16 (destruct k as [|k]; [reflexivity|]). lia.
Qed.

Lemma escaped_byte c : shouldEscape encodePath c = false → c ≠ "%"%char.
Proof. by intros H ->. Qed.

Lemma segment_escaped_byte c : shouldEscape encodePathSegment c = false → c ≠ "%"%char.
Proof. by intros H ->. Qed.

(** A server reads back what was escaped. *)
Lemma unescape_escape mode s : unescape (escape mode s) = Some s.
Proof.
  induction s as [|c s IH]; [done|]. cbn [escape]. destruct (shouldEscape mode c) eqn:E.
  - cbn [unescape]. assert (N_of_ascii c < 256)%N by apply N_ascii_bounded.
    rewrite !unhex_digit by (apply N.Div0.div_lt_upper_bound || apply N.mod_lt; lia).
    rewrite IH. cbn. do 2 f_equal. rewrite <- N.div_mod by lia. apply ascii_N_embedding.
  - rewrite unescape_plain, IH; [done|].
    destruct mode; [by apply escaped_byte|by apply segment_escaped_byte].
Qed.

Definition needs_escape (s : string) : bool :=
  existsb (shouldEscape encodePathSegment) (list_ascii_of_string s).

Lemma escape_length mode s : (String.length s ≤ String.length (escape mode s))%nat.
Proof. induction s as [|c s IH]; cbn; [lia|]. case_if; cbn; lia. Qed.

Lemma PathEscape_id s : PathEscape s = s ↔ needs_escape s = false.
Proof.
  unfold PathEscape, needs_escape. induction s as [|c s IH]; [done|].
  cbn [escape list_ascii_of_string existsb]. destruct (shouldEscape encodePathSegment c) eqn:E; cbn [orb].
  - split; [|done]. intros H. apply (f_equal String.length) in H. cbn in H.
    pose proof (escape_length encodePathSegment s). lia.
  - rewrite <- IH. split; [by intros [=]|by intros ->].
Qed.

(** The branch whose head a repository refresh asks for. A server reads the path
    of the request as the escaped names, not as the names: the client escapes every
    name and then escapes the path again. So the branch that is looked up is the
    default branch exactly when no byte of its name needs escaping; a branch such as
    [release/1.0] is asked for under another name. *)
Theorem branch_head_asked owner repo branch :
  unescape (GetBranchHead_path owner repo branch) =
  Some ("repos/" +:+ PathEscape owner +:+ "/" +:+ PathEscape repo +:+ "/branches/" +:+ PathEscape branch) ∧
  (PathEscape branch = branch ↔ needs_escape branch = false).
Proof. split; [apply unescape_escape|apply PathEscape_id]. Qed.

Example slash_branch_misread :
  unescape (GetBranchHead_path "acme" "monolith" "release/1.0")
  = Some "repos/acme/monolith/branches/release%2F1.0".
Proof. reflexivity. Qed.

(** ** CODEOWNERS *)

Section codeowners.
(** [tree path] is the content of a path at the commit [ref], if there is one, and
    [validator e b] says that [e] is an entity tag of the content [b]. *)
Context (tree : string → option string) (validator : string → string → Prop).

(** A tag denotes one content. *)
Definition strong_tags : Prop := ∀ e a b, validator e a → validator e b → a = b.

Definition tags (e b : string) : Prop := e = "" ∨ validator e b.

(** The server at a commit: a missing path is answered as such, a 304 only to a tag
    of the content, a body is the content up to the read limit, and the tags of the
    answers are tags of the content. Any request may fail. *)
Definition content_server (get : string → string → content_answer) : Prop :=
  ∀ path etag,
    match get path etag with
    | ContentError => True
    | ContentMissing => tree path = None
    | ContentUnchanged e => ∃ b, tree path = Some b ∧ etag ≠ "" ∧ validator etag b ∧ tags e b
    | ContentBody body e => ∃ b, tree path = Some b ∧ tags e b ∧
        body = String.substring 0 (Z.to_nat (MaxCodeownersBytes + 1)) b
    end.

(** The source a commit has, by GitHub's precedence: state, path and content. *)
Fixpoint effective (paths : list string) : string * string * string :=
  match paths with
  | [] => (CodeownersMissing, "", "")
  | path :: paths =>
      match tree path with
      | None => effective paths
      | Some b =>
          if MaxCodeownersBytes <=? Z.of_nat (String.length b) then (CodeownersOversized, path, "")
          else (CodeownersPresent, path, b)
      end
  end.

Definition source_of (s : CodeownersSource) : string * string * string :=
  (cs_State s, cs_Path s, cs_Content s).

(** The tag of a source belongs to its content. *)
Definition tagged (s : CodeownersSource) : Prop :=
  (cs_State s = CodeownersPresent →
     Z.of_nat (String.length (cs_Content s)) < MaxCodeownersBytes ∧ tags (cs_ETag s) (cs_Content s)) ∧
  (cs_State s = CodeownersOversized →
     cs_Content s = "" ∧ ∃ b, MaxCodeownersBytes ≤ Z.of_nat (String.length b) ∧ tags (cs_ETag s) b).

(** A prior source: tagged, and the effective one when it is of the same commit. *)
Definition prior_ok (ref : string) (s : CodeownersSource) : Prop :=
  tagged s ∧ (cs_Ref s = ref → source_of s = effective codeowners_paths).
End codeowners.

Lemma substring_short n s : (String.length s ≤ n)%nat → String.substring 0 n s = s.
Proof.
  revert n. induction s as [|c s IH]; intros [|n] Hn; cbn in *; try done; try lia.
  by rewrite IH by lia.
Qed.

Lemma substring_length n s : String.length (String.substring 0 n s) = Nat.min n (String.length s).
Proof. revert n. induction s as [|c s IH]; intros [|n]; cbn; [done..|]. by rewrite IH. Qed.

Section find.
Context (tree : string → option string) (validator : string → string → Prop).
Context (Hstrong : strong_tags validator).
Context (get : string → string → content_answer) (Hget : content_server tree validator get).

(** The loop finds the effective source of the paths it tries. *)
Lemma find_source_effective ref prior paths s :
  (∀ p, prior = Some p → tagged validator p) → find_source get ref prior paths = Ok s →
  source_of s = effective tree paths ∧ tagged validator s ∧ cs_Ref s = ref.
Proof.
  intros Hprior. induction paths as [|path paths IH]; intros H.
  { cbn in H. simplify_eq. split; [done|]. split; [by split|done]. }
  cbn [find_source] in H. set (etag := match prior with Some _ => _ | None => _ end) in H.
  specialize (Hget path etag). destruct (get path etag) as [| |e|body e]; [done| | |].
  - cbn. rewrite Hget. by apply IH.
  - destruct Hget as (b & Hb & Hne & Hv & Ht). destruct prior as [p|]; [|done].
    destruct (bool_decide (cs_Path p = path)) eqn:Hp; cbn [negb orb] in H; [|done].
    to_props. subst path. unfold etag in Hne, Hv.
    destruct (Hprior p eq_refl) as [Hpres Hover]. case_if_in H; [done|]. simplify_eq.
    assert (Hst : cs_State p = CodeownersPresent ∨ cs_State p = CodeownersOversized).
    { apply andb_false_iff in E as [E|E]; to_props; auto. }
    cbn. rewrite Hb. destruct Hst as [Hs|Hs].
    + destruct (Hpres Hs) as [Hlen [?|Htag]]; [done|].
      rewrite (Hstrong _ _ _ Hv Htag), (proj2 (Z.leb_gt _ _)) by done. unfold source_of. cbn. rewrite Hs.
      split; [done|]. split; [|done]. split; cbn; [|done]. intros _. split; [done|].
      by rewrite <- (Hstrong _ _ _ Hv Htag).
    + destruct (Hover Hs) as (Hc & b' & Hlen & [?|Htag]); [done|].
      rewrite (Hstrong _ _ _ Hv Htag) in *. rewrite (proj2 (Z.leb_le _ _)) by done.
      unfold source_of. cbn. rewrite Hs, Hc.
      split; [done|]. split; [|done]. split; cbn; [done|]. eauto.
  - destruct Hget as (b & Hb & Ht & ->). rewrite substring_length in H. cbn. rewrite Hb.
    assert (Hmin : (MaxCodeownersBytes <=? Z.of_nat (Nat.min (Z.to_nat (MaxCodeownersBytes + 1)) (String.length b)))
      = (MaxCodeownersBytes <=? Z.of_nat (String.length b))).
    { apply eq_true_iff_eq. rewrite !Z.leb_le. unfold MaxCodeownersBytes. lia. }
    rewrite Hmin in H. destruct (MaxCodeownersBytes <=? _) eqn:El; simplify_eq; to_props.
    + split; [done|]. split; [|done]. split; cbn; [done|]. eauto.
    + rewrite substring_short by (unfold MaxCodeownersBytes in *; lia).
      split; [done|]. split; [|done]. split; cbn; [|done]. auto.
Qed.

(** The paths before the prior one are absent at its commit. *)
Lemma resume_effective path paths rest :
  resume_at path paths = Some rest → (effective tree paths).1.2 = path → path ≠ "" →
  effective tree paths = effective tree rest.
Proof.
  induction paths as [|p paths IH]; [done|]. cbn [resume_at]. case_bool_decide as Hp; [by intros [= <-]|].
  intros Hr Hpath Hne. cbn in Hpath |- *. destruct (tree p) as [b|]; [|by apply IH].
  case_if_in Hpath; cbn in Hpath; congruence.
Qed.

Lemma find_codeowners_prior ref prior s :
  (∀ p, prior = Some p → prior_ok tree validator ref p) → FindCodeowners get ref prior = Ok s →
  source_of s = effective tree codeowners_paths ∧ cs_Ref s = ref ∧ tagged validator s ∧
  prior_ok tree validator ref s.
Proof.
  intros Hprior H.
  assert (Htag : ∀ p, prior = Some p → tagged validator p) by (intros p Hp; by apply Hprior in Hp as [? _]).
  enough (source_of s = effective tree codeowners_paths ∧ tagged validator s ∧ cs_Ref s = ref)
    as (? & ? & ?) by (do 3 (split; [done|]); by split).
  unfold FindCodeowners in H. destruct prior as [p|]; [|by eapply find_source_effective].
  case_bool_decide as Href; [|by eapply find_source_effective].
  destruct (Hprior p eq_refl) as [Ht Heff]. specialize (Heff Href). case_bool_decide as Hm; [by simplify_eq|].
  destruct (resume_at (cs_Path p) codeowners_paths) as [rest|] eqn:Hr; cbn [default] in H;
    [|by eapply find_source_effective].
  rewrite (resume_effective (cs_Path p) codeowners_paths rest); [by eapply find_source_effective|done| |].
  - by rewrite <- Heff.
  - intros Hp. rewrite Hp in Hr. cbn in Hr. done.
Qed.

(** [FindCodeowners] returns the effective CODEOWNERS source of the commit, by
    GitHub's order of paths and its size limit, whatever prior source it is given: a
    source of another commit lends only its entity tag, and a 304 is answered with the
    content the tag belongs to. The result may serve as a prior source in turn. *)
Theorem find_codeowners_effective ref prior s :
  (∀ p, prior = Some p → prior_ok tree validator ref p) → FindCodeowners get ref prior = Ok s →
  source_of s = effective tree codeowners_paths ∧ cs_Ref s = ref ∧ prior_ok tree validator ref s.
Proof. intros Hp H. by destruct (find_codeowners_prior _ _ _ Hp H) as (? & ? & _ & ?). Qed.
End find.

(** ** Connections *)

(** [serves query finish id info pages]: from [info] on the server has exactly the
    pages [pages], and [finish] accepts them. *)
Inductive serves {A} (query : page_query (connection A)) (finish : list A → result graphql_error (list A))
    (id : string) : PageInfo → list (list A) → Prop :=
  | serves_end info : HasNextPage info = false → serves query finish id info []
  | serves_page info cursor page nodes pages :
      HasNextPage info = true → EndCursor info = Some cursor → query id cursor = Ok (Some page) →
      finish (cn_Nodes page) = Ok nodes → serves query finish id (cn_PageInfo page) pages →
      serves query finish id info (nodes :: pages).

Lemma complete_served {A} query finish id info (pages : list (list A)) :
  serves query finish id info pages → ∀ fuel nodes, (length pages ≤ fuel)%nat →
  ∃ info', complete fuel query finish id (mkConnection nodes info)
           = Ok (mkConnection (nodes ++ concat pages) info') ∧ HasNextPage info' = false.
Proof.
  induction 1 as [info Hn|info cursor page ns pages Hn Hc Hq Hf _ IH]; intros fuel nodes Hfuel.
  - exists info. destruct fuel; cbn; rewrite Hn, app_nil_r; done.
  - destruct fuel as [|fuel]; [cbn in Hfuel; lia|]. cbn [complete cn_PageInfo]. rewrite Hn, Hc, Hq.
    cbn [mbind result_bind]. rewrite Hf. cbn [mbind result_bind cn_Nodes].
    destruct (IH fuel (nodes ++ ns)) as (info' & -> & ?); [cbn in Hfuel; lia|].
    exists info'. by rewrite <- app_assoc.
Qed.

Lemma complete_inv {A} query finish id fuel : ∀ (c c' : connection A),
  complete fuel query finish id c = Ok c' →
  HasNextPage (cn_PageInfo c') = false ∧
  ∃ pages, serves query finish id (cn_PageInfo c) pages ∧ cn_Nodes c' = cn_Nodes c ++ concat pages.
Proof.
  induction fuel as [|fuel IH]; intros [nodes info] c' H; cbn [complete cn_PageInfo] in H.
  - case_if_in H; [done|]. simplify_eq. split; [done|]. exists []. rewrite app_nil_r. by split; [constructor|].
  - case_if_in H; [|simplify_eq; split; [done|]; exists []; rewrite app_nil_r; by split; [constructor|]].
    destruct (EndCursor info) as [cursor|] eqn:Hc; [|done].
    apply bind_ok in H as (page & Hq & H). destruct page as [page|]; [|done].
    apply bind_ok in H as (ns & Hf & H). apply IH in H as (? & pages & Hs & Hn). split; [done|].
    exists (ns :: pages). split; [by eapply serves_page|]. cbn in *. by rewrite Hn, <- app_assoc.
Qed.

(** Following the cursors of a connection returns all of it or fails. With fuel
    for the server's pages the loop ends with the nodes it had followed by the nodes
    of every page, in order; and whenever it succeeds the server has served every page
    up to one without a successor, so no page is left out. *)
Theorem connection_complete {A} (query : page_query (connection A)) finish id (c : connection A) :
  (∀ pages fuel, serves query finish id (cn_PageInfo c) pages → (length pages ≤ fuel)%nat →
     ∃ c', complete fuel query finish id c = Ok c' ∧ cn_Nodes c' = cn_Nodes c ++ concat pages) ∧
  (∀ fuel c', complete fuel query finish id c = Ok c' →
     ∃ pages, serves query finish id (cn_PageInfo c) pages ∧ cn_Nodes c' = cn_Nodes c ++ concat pages).
Proof.
  split.
  - intros pages fuel Hs Hf. destruct c as [nodes info]. cbn in Hs.
    destruct (complete_served _ _ _ _ _ Hs fuel nodes Hf) as (info' & -> & _). by eexists.
  - intros fuel c' H. by apply complete_inv in H as [_ ?].
Qed.

(** ** Changed files *)

Section files.
Context (files_page : page_query (string * string * option PullRequestFilesConnection)).

(** The pages of files of one commit pair, all with the same total. *)
Inductive lists_files (id base head : string) (total : Z)
    : PageInfo → list (list PullRequestChangedFileNode) → Prop :=
  | lists_end info : HasNextPage info = false → lists_files id base head total info []
  | lists_page info cursor page pages :
      HasNextPage info = true → EndCursor info = Some cursor →
      files_page id cursor = Ok (Some (base, head, Some page)) → fc_TotalCount page = total →
      lists_files id base head total (fc_PageInfo page) pages →
      lists_files id base head total info (fc_Nodes page :: pages).

Lemma files_loop_spec id base head fuel : ∀ f f',
  files_loop files_page fuel id base head f = Ok f' → Z.of_nat (length (fc_Nodes f)) ≤ MaxPullRequestFiles →
  Z.of_nat (length (fc_Nodes f')) ≤ MaxPullRequestFiles ∧ fc_TotalCount f' = fc_TotalCount f ∧
  (fc_Truncated f' = false → HasNextPage (fc_PageInfo f') = false →
     fc_Truncated f = false ∧
     ∃ pages, lists_files id base head (fc_TotalCount f) (fc_PageInfo f) pages ∧
       fc_Nodes f' = fc_Nodes f ++ concat pages).
Proof.
  induction fuel as [|fuel IH]; intros f f' H Hlen; cbn [files_loop] in H; case_if_in H; try done;
    try (simplify_eq; split_and!; [done..|]; intros Ht Hn; split; [done|]; exists [];
         rewrite app_nil_r; by split; [constructor|]).
  to_props. destruct (EndCursor (fc_PageInfo f)) as [cursor|] eqn:Hc; [|done].
  apply bind_ok in H as (page & Hq & H). destruct page as [[[base' head'] [page|]]|];
    try (simplify_eq; split_and!; done).
  case_if_in H; [done|]. to_props. subst base' head'.
  apply IH in H; clear IH.
  - cbn [fc_Nodes fc_TotalCount fc_Truncated fc_PageInfo] in H. destruct H as (Hl & Ht & Hs).
    split_and!; [done|done|]. intros Htr Hnx. destruct (Hs Htr Hnx) as (Hor & pages & Hp & Hn). to_props.
    split; [done|]. exists (fc_Nodes page :: pages).
    split; [by eapply lists_page|]. rewrite Hn, (proj2 (Z.ltb_ge _ _)) by done. cbn. by rewrite <- app_assoc.
  - cbn [fc_Nodes]. rewrite length_app. case_if; to_props; [rewrite length_take|]; lia.
Qed.

(** The changed files of a pull request are bounded and never silently
    incomplete. At most [MaxPullRequestFiles] are kept; and a listing that is not
    marked truncated holds the files of every page the server has, all read at the
    base and head commits of the pull request, as many as the total it reports. *)
Theorem files_bounded_complete fuel id base head f f' :
  complete_files files_page fuel id base head f = Ok f' →
  Z.of_nat (length (fc_Nodes f')) ≤ MaxPullRequestFiles ∧
  (fc_Truncated f' = false →
     ∃ pages, lists_files id base head (fc_TotalCount f) (fc_PageInfo f) pages ∧
       fc_Nodes f' = fc_Nodes f ++ concat pages ∧
       fc_TotalCount f = Z.of_nat (length (fc_Nodes f'))).
Proof.
  unfold complete_files. intros (g & H & [= <-])%bind_ok.
  set (f0 := if MaxPullRequestFiles <? _ then _ else f) in H.
  assert (Hf0 : Z.of_nat (length (fc_Nodes f0)) ≤ MaxPullRequestFiles).
  { unfold f0. case_if; to_props; [|done]. cbn [fc_Nodes]. rewrite length_take. unfold MaxPullRequestFiles. lia. }
  destruct (files_loop_spec _ _ _ _ _ _ H Hf0) as (Hlen & Htot & Hs).
  split; [by case_if|]. case_if; [done|]. apply orb_false_iff in E as [[Hn Ht]%orb_false_iff Hmax].
  intros Htr. to_props. destruct (Hs Htr Hn) as (Htr0 & pages & Hp & Hnodes).
  assert (f0 = f) as Heq.
  { unfold f0 in Htr0 |- *. case_if; [|done]. cbn in Htr0. done. }
  rewrite Heq in *. exists pages. split_and!; [done|done|]. lia.
Qed.
End files.

(** ** Renames *)

Section renames.
Context (list_page : Z → string → files_answer) (etag0 : string).

(** The pages the server lists from page [page] to the last one. *)
Inductive lists_pages : Z → list (list PullRequestFile) → Prop :=
  | lists_last page files e :
      list_page page (if page =? 1 then etag0 else "") = FilesPage files e 0 → lists_pages page [files]
  | lists_next page files e next pages :
      list_page page (if page =? 1 then etag0 else "") = FilesPage files e next → next ≠ 0 →
      lists_pages next pages → lists_pages page (files :: pages).

Lemma renames_go_spec fuel : ∀ page count renames etag m r,
  0 ≤ count → renames_go fuel list_page etag0 page count renames etag = Ok (Some m, r) →
  rn_Truncated r = false →
  ∃ pages, lists_pages page pages ∧
    m = foldl add_rename renames (take (Z.to_nat (MaxPullRequestFiles - count)) (concat pages)).
Proof.
  induction fuel as [|fuel IH]; intros page count renames etag m r Hc H Ht; [done|]. cbn [renames_go] in H.
  case_if_in H; [by simplify_eq|]. to_props. case_match_in H; [done|by case_if_in H|].
  case_if_in H; [|case_if_in H; [by simplify_eq|]]; to_props.
  - simplify_eq. exists [files]. split; [by eapply lists_last|]. by cbn [concat]; rewrite app_nil_r.
  - assert (Hall : take (Z.to_nat (MaxPullRequestFiles - count)) files = files).
    { apply take_ge. rewrite length_take in E2. lia. }
    rewrite Hall in H, E2. apply IH in H as (pages & Hp & ->); [|lia|done].
    replace (next - 1 + 1) with next in Hp by lia.
    exists (files :: pages). split; [by eapply lists_next|]. cbn [concat].
    rewrite take_app_ge by (apply (f_equal length) in Hall; rewrite length_take in Hall; lia).
    rewrite foldl_app. do 2 f_equal. lia.
Qed.

(** A rename listing that is neither a 304 nor marked truncated maps the renamed files
    of all pages, up to the cap, to their previous paths. *)
Lemma renames_listed fuel m r :
  PullRequestFileRenamesConditional fuel list_page etag0 = Ok (Some m, r) → rn_Truncated r = false →
  ∃ pages, lists_pages 1 pages ∧
    m = foldl add_rename ∅ (take (Z.to_nat MaxPullRequestFiles) (concat pages)).
Proof. intros H Ht. by apply (renames_go_spec _ _ 0) in H. Qed.
End renames.

(** ** Batches *)

Lemma mapM_result_Forall2 {A B E} (f : A → result E B) l l' :
  mapM_result f l = Ok l' ↔ Forall2 (λ x y, f x = Ok y) l l'.
Proof.
  split.
  - revert l'. induction l as [|x l IH]; intros l' H; cbn in H; [by simplify_eq|].
    apply bind_ok in H as (y & Hy & (ys & Hys & [= <-])%bind_ok). constructor; auto.
  - induction 1 as [|x y l l' Hx _ IH]; [done|]. cbn. by rewrite Hx, IH.
Qed.

(** A batch answers every identity, in order, with its completed node. *)
Lemma batch_answers fp rp vp cp tp tcp fuel nodes_query ids nodes :
  BatchPullRequests fp rp vp cp tp tcp fuel nodes_query ids = Ok nodes →
  0 < Z.of_nat (length ids) ≤ MaxPullRequestBatch ∧ length nodes = length ids ∧
  ∃ raw, nodes_query ids = Ok raw ∧
    Forall2 (λ x y, complete_node fp rp vp cp tp tcp fuel x = Ok y) raw nodes.
Proof.
  unfold BatchPullRequests. case_bool_decide as Hne; [done|]. case_if; [done|]. to_props.
  intros (raw & Hraw & H)%bind_ok. case_if_in H; [done|]. to_props. apply mapM_result_Forall2 in H.
  destruct ids; [done|]. cbn [length] in *. split; [lia|]. split; [|eauto].
  apply Forall2_length in H. lia.
Qed.

(** ** Witnesses *)

(** A commit with a CODEOWNERS file at the root only, and its server. *)
Definition wit_tree (path : string) : option string :=
  if bool_decide (path = "CODEOWNERS") then Some "* @acme" else None.

Definition wit_get (path etag : string) : content_answer :=
  match wit_tree path with
  | None => ContentMissing
  | Some b => if bool_decide (etag = "tag-1") then ContentUnchanged "tag-1" else ContentBody b "tag-1"
  end.

Definition wit_validator (e b : string) : Prop := e = "tag-1" ∧ b = "* @acme".

Definition wit_source : CodeownersSource := mkSource "c0" "CODEOWNERS" "* @acme" CodeownersPresent "tag-1".

Lemma find_codeowners_effective_witness :
  FindCodeowners wit_get "c1" (Some wit_source)
  = Ok (mkSource "c1" "CODEOWNERS" "* @acme" CodeownersPresent "tag-1") ∧
  effective wit_tree codeowners_paths = (CodeownersPresent, "CODEOWNERS", "* @acme").
Proof.
  split; [vm_compute; reflexivity|].
  destruct (find_codeowners_effective wit_tree wit_validator) with (get := wit_get) (ref := "c1")
    (prior := Some wit_source) (s := mkSource "c1" "CODEOWNERS" "* @acme" CodeownersPresent "tag-1")
    as [H _].
  - by intros e a b [_ ->] [_ ->].
  - intros path etag. unfold wit_get. destruct (wit_tree path) as [b|] eqn:Hb; [|done].
    assert (b = "* @acme") as -> by (unfold wit_tree in Hb; case_bool_decide; by simplify_eq).
    case_bool_decide as He; eexists; (split; [done|]).
    + subst etag. split; [done|]. split; [done|]. by right.
    + split; [by right|]. vm_compute. reflexivity.
  - intros p [= <-]. split; [|done]. split; [|done]. intros _. split; [done|]. by right.
  - vm_compute. reflexivity.
  - exact (eq_sym H).
Defined.

Lemma files_bounded_complete_witness :
  complete_files (λ _ _, Ok (Some ("b", "h", Some (mkFiles [mkFileNode "y" "ADDED"]
                                                    (mkPageInfo false None) 2 false)))) 3 "PR_1" "b" "h"
    (mkFiles [mkFileNode "x" "MODIFIED"] (mkPageInfo true (Some "c")) 2 false)
  = Ok (mkFiles [mkFileNode "x" "MODIFIED"; mkFileNode "y" "ADDED"] (mkPageInfo false None) 2 false) ∧
  Z.of_nat (length [mkFileNode "x" "MODIFIED"; mkFileNode "y" "ADDED"]) ≤ MaxPullRequestFiles.
Proof.
  split; [vm_compute; reflexivity|].
  apply (files_bounded_complete
    (λ _ _, Ok (Some ("b", "h", Some (mkFiles [mkFileNode "y" "ADDED"] (mkPageInfo false None) 2 false))))
    3 "PR_1" "b" "h" (mkFiles [mkFileNode "x" "MODIFIED"] (mkPageInfo true (Some "c")) 2 false)
    (mkFiles [mkFileNode "x" "MODIFIED"; mkFileNode "y" "ADDED"] (mkPageInfo false None) 2 false)).
  vm_compute. reflexivity.
Defined.

Lemma connection_complete_witness :
  ∃ c', complete 2 (λ _ c, Ok (Some (mkConnection [c] (mkPageInfo false None)))) Ok "PR_1"
          (mkConnection ["a"] (mkPageInfo true (Some "b"))) = Ok c' ∧ cn_Nodes c' = ["a"; "b"].
Proof.
  apply (connection_complete (λ _ c, Ok (Some (mkConnection [c] (mkPageInfo false None)))) Ok "PR_1"
    (mkConnection ["a"] (mkPageInfo true (Some "b")))) with (pages := [["b"]]); [|cbn; lia].
  eapply serves_page; [reflexivity..|]. by apply serves_end.
Defined.
