(* ===== verification/BranchPages.v ===== *)
(** * Branch reconciliation pages

    [ReconcileBranchPage] and [healBranchReconciliationCompletion] of
    [internal/fetch/handler.go] with their statements in
    [internal/store/dbgen/branch.sql.go]: the workers that refresh the targets of one
    page of a branch push and then account for the page.

    A worker is the machine [worker_step], one atomic statement or transaction per
    step; [pages_step] interleaves any number of workers with the pushes of
    [Branch.apply_push], which record new pages and supersede old ones. The return of
    [RefreshPR] or [RefreshStack] for a target is an input of the machine: the entity
    transactions behind it touch none of these tables.

    [completion_exact] is the invariant of the system: a reconciliation is marked
    complete exactly when every page of its generation is. [page_completed_by_targets]
    says that a page is completed only by a worker that has seen all of its targets
    return without an error. *)

From Stdlib Require Import ZArith Lia Bool String.
From stdpp Require Import sorting strings gmap sets numbers base list.
From S2P Require Import Prelude GoStrings Keys RefreshQueue EntityWriter Classify Branch Derive GitHub.

Local Open Scope Z_scope.

(** ** Tables *)

(** The columns of [branch_reconciliation_pages] that only a worker writes. *)
Record page_track : Type := mkTrack {
  tk_attempt_count : Z;
  tk_last_started_at : option time;
  tk_heartbeat_at : option time
}.

Definition new_track : page_track := mkTrack 0 None None.

Record pages_db : Type := mkPagesDb {
  pd_db : branch_db;
  pd_track : gmap page_key page_track;
  pd_heartbeats : heartbeats
}.

Definition set_recs (m : gmap (Z * string) reconciliation) (db : branch_db) : branch_db :=
  mkBranchDb (bd_aliases db) (bd_repos db) (bd_pulls db) (bd_stacks db) m (bd_pages db) (bd_dirty db)
    (bd_events db).

Definition set_pages (m : gmap page_key page_row) (db : branch_db) : branch_db :=
  mkBranchDb (bd_aliases db) (bd_repos db) (bd_pulls db) (bd_stacks db) (bd_reconciliations db) m
    (bd_dirty db) (bd_events db).

Definition page_key_of (a : page_args) : page_key :=
  (bp_RepoID a, bp_Branch a, bp_Generation a, wrap32 (bp_Page a)).

(** ** Statements *)

Definition GetBranchReconciliationPage (k : page_key) (db : branch_db) : option page_status :=
  pg_status <$> bd_pages db !! k.

(** The [EXISTS] over [branch_reconciliations]. *)
Definition current (r : Z) (b : string) (g : Z) (db : branch_db) : bool :=
  match bd_reconciliations db !! (r, b) with
  | Some rc => rc_generation rc =? g
  | None => false
  end.

Definition page_pending (k : page_key) (db : branch_db) : bool :=
  bool_decide (GetBranchReconciliationPage k db = Some PagePending).

Definition track_of (k : page_key) (st : pages_db) : page_track := default new_track (pd_track st !! k).

Definition set_track (k : page_key) (t : page_track) (st : pages_db) : pages_db :=
  mkPagesDb (pd_db st) (<[k := t]> (pd_track st)) (pd_heartbeats st).

(** Whether a row was updated, and the tables. *)
Definition StartBranchReconciliationPage (now : time) (k : page_key) (st : pages_db)
    : bool * pages_db :=
  let '(r, b, g, _) := k in
  if page_pending k (pd_db st) && current r b g (pd_db st) then
    (true, set_track k (mkTrack (tk_attempt_count (track_of k st) + 1) (Some now) (Some now)) st)
  else (false, st).

Definition HeartbeatBranchReconciliationPage (now : time) (k : page_key) (st : pages_db)
    : bool * pages_db :=
  let '(r, b, g, _) := k in
  if page_pending k (pd_db st) && current r b g (pd_db st) then
    (true, set_track k (mkTrack (tk_attempt_count (track_of k st)) (tk_last_started_at (track_of k st))
                          (Some now)) st)
  else (false, st).

(** [false] is "no rows". *)
Definition LockBranchReconciliationForCompletion (r : Z) (b : string) (g : Z) (db : branch_db) : bool :=
  current r b g db.

Definition CompleteBranchReconciliationPage (superseded : Z) (now : time) (k : page_key)
    (st : pages_db) : bool * pages_db :=
  match bd_pages (pd_db st) !! k with
  | Some p =>
      if bool_decide (pg_status p = PagePending) then
        (true, mkPagesDb
           (set_pages (<[k := mkPageRow (pg_target_count p) PageCompleted (wrap32 superseded)
                               (pg_created_at p) (Some now)]> (bd_pages (pd_db st))) (pd_db st))
           (<[k := mkTrack (tk_attempt_count (track_of k st)) (tk_last_started_at (track_of k st))
                     (Some now)]> (pd_track st))
           (pd_heartbeats st))
      else (false, st)
  | None => (false, st)
  end.

(** The pages of one generation of a branch. *)
Definition generation_pages (r : Z) (b : string) (g : Z) (db : branch_db) : list (page_key * page_row) :=
  filter (λ '((r', b', g', _), _), r' = r ∧ b' = b ∧ g' = g) (map_to_list (bd_pages db)).

(** [max] over a nullable column. *)
Definition sql_max (l : list (option time)) : option time :=
  foldr (λ x m, match x, m with
                | Some a, Some b => Some (Z.max a b)
                | Some a, None => Some a
                | None, _ => m
                end) None l.

Definition rc_complete (t : option time) (rc : reconciliation) : reconciliation :=
  mkReconciliation (rc_generation rc) (rc_before_sha rc) (rc_after_sha rc) (rc_transition_known rc)
    (rc_deleted rc) (rc_forced rc) (rc_delivery_guid rc) (rc_received_at rc) (rc_applied_at rc)
    (rc_target_count rc) (rc_page_count rc) t.

Definition FinalizeBranchReconciliation (r : Z) (b : string) (g : Z) (db : branch_db) : branch_db :=
  let pages := generation_pages r b g db in
  match bd_reconciliations db !! (r, b) with
  | Some rc =>
      if (rc_generation rc =? g) && bool_decide (rc_completed_at rc = None) && (0 <? rc_page_count rc)
         && (rc_page_count rc =? Z.of_nat (length pages))
         && forallb (λ kp, negb (bool_decide (pg_status kp.2 = PagePending))) pages
      then set_recs (<[(r, b) := rc_complete (sql_max (map (λ kp, pg_completed_at kp.2) pages)) rc]>
                       (bd_reconciliations db)) db
      else db
  | None => db
  end.

(** ** Handlers *)

(** The argument check of [ReconcileBranchPage]. *)
Definition valid_page (a : page_args) : bool :=
  negb ((bp_RepoID a <=? 0) || bool_decide (bp_Repo a = "") || bool_decide (bp_Branch a = "")
        || (bp_Generation a <=? 0) || (bp_Page a <=? 0) || bool_decide (bp_Targets a = [])
        || (MaxPullRequestBatch <? Z.of_nat (length (bp_Targets a)))).

(** What the handler reports: the observer's outcome, or how it returned. *)
Inductive page_outcome : Type :=
  | InvalidPage
  | AlreadyDone
  | PageFailed
  | PageStale
  | PageSuccess
  | PagePartial.

Definition healBranchReconciliationCompletion (a : page_args) (st : pages_db) : pages_db :=
  let '(r, b, g) := (bp_RepoID a, bp_Branch a, bp_Generation a) in
  if LockBranchReconciliationForCompletion r b g (pd_db st) then
    mkPagesDb (FinalizeBranchReconciliation r b g (pd_db st)) (pd_track st) (pd_heartbeats st)
  else st.

(** What a non-pending status leads to. *)
Definition settled (status : page_status) (a : page_args) (st : pages_db) : page_outcome * pages_db :=
  match status with
  | PageCompleted => (AlreadyDone, healBranchReconciliationCompletion a st)
  | _ => (PageStale, st)
  end.

(** The bookkeeping transaction; a failed heartbeat record rolls it back. *)
Definition complete_page (installationID : Z) (now : time) (a : page_args) (superseded : Z)
    (st : pages_db) : page_outcome * pages_db :=
  let '(r, b, g) := (bp_RepoID a, bp_Branch a, bp_Generation a) in
  if negb (LockBranchReconciliationForCompletion r b g (pd_db st)) then (PageStale, st)
  else
    let '(done, st1) := CompleteBranchReconciliationPage superseded now (page_key_of a) st in
    let st2 := mkPagesDb (FinalizeBranchReconciliation r b g (pd_db st1)) (pd_track st1)
                 (pd_heartbeats st1) in
    if negb done then (PageStale, st2)
    else match RecordSuccessN now installationID "fetch" "branch_reconciliation"
                 (Z.of_nat (length (bp_Targets a))) (pd_heartbeats st2) with
         | None => (PageFailed, st)
         | Some h =>
             (if 0 <? superseded then PagePartial else PageSuccess, mkPagesDb (pd_db st2) (pd_track st2) h)
         end.

(** The return of a target's refresh: no error,
    [ErrBranchReconciliationSuperseded], or another error. *)
Inductive target_result : Type := TargetDone | TargetSuperseded | TargetFailed.

#[export] Instance target_result_eq_dec : EqDecision target_result.
Proof. solve_decision. Defined.

(** The locals of the collecting loop. [wk_waiting] are the targets whose result has
    not been received, [wk_beating] whether the ticker still runs. *)
Record work : Type := mkWork {
  wk_waiting : list branch_target;
  wk_superseded : Z;
  wk_errs : nat;
  wk_manifestChanged : bool;
  wk_beating : bool
}.

Inductive phase : Type :=
  | Reading
  | Starting
  | Working (w : work)
  | Rereading (w : work)
  | Completing (superseded : Z)
  | Done (o : page_outcome).

(** The inputs of a step: the database clock of a statement or its failure, the
    result of a target, a tick of the heartbeat or its failure. *)
Inductive event : Type :=
  | Run (now : time)
  | RunFails
  | Result (i : nat) (r : target_result)
  | Beat (now : time)
  | BeatFails.

(** After every target has returned. *)
Definition collected (w : work) : phase :=
  if (0 <? Z.of_nat (wk_errs w)) then Done PageFailed else Completing (wk_superseded w).

Definition start_work (a : page_args) : work := mkWork (bp_Targets a) 0 0 false true.

(** Receiving the result of target [t], with the others in [rest]. *)
Definition receive (r : target_result) (rest : list branch_target) (w : work) : work :=
  match r with
  | TargetDone => mkWork rest (wk_superseded w) (wk_errs w) (wk_manifestChanged w) (wk_beating w)
  | TargetSuperseded => mkWork rest (wk_superseded w + 1) (wk_errs w) (wk_manifestChanged w) (wk_beating w)
  | TargetFailed => mkWork rest (wk_superseded w) (S (wk_errs w)) (wk_manifestChanged w) (wk_beating w)
  end.

(** One step of [ReconcileBranchPage]; [None] when the input cannot occur. *)
Definition worker_step (installationID : Z) (a : page_args) (ev : event) (p : phase) (st : pages_db)
    : option (phase * pages_db) :=
  match p, ev with
  | Reading, Run _ =>
      if negb (valid_page a) then Some (Done InvalidPage, st)
      else match GetBranchReconciliationPage (page_key_of a) (pd_db st) with
           | None => Some (Done PageFailed, st)
           | Some PagePending => Some (Starting, st)
           | Some s => let '(o, st') := settled s a st in Some (Done o, st')
           end
  | Starting, Run now =>
      let '(started, st') := StartBranchReconciliationPage now (page_key_of a) st in
      Some (if started then Working (start_work a) else Done PageStale, st')
  | Working w, Result i r =>
      match wk_waiting w !! i with
      | Some t =>
          if negb (page_target_ok t) && negb (bool_decide (r = TargetFailed)) then None
          else Some (Working (receive r (delete i (wk_waiting w)) w), st)
      | None => None
      end
  | Working w, Beat now =>
      if wk_beating w then
        let '(updated, st') := HeartbeatBranchReconciliationPage now (page_key_of a) st in
        Some (Working (if updated then w
                       else mkWork (wk_waiting w) (wk_superseded w) (wk_errs w) true false), st')
      else None
  | Working w, BeatFails =>
      if wk_beating w then
        Some (Working (mkWork (wk_waiting w) (wk_superseded w) (S (wk_errs w)) (wk_manifestChanged w) false), st)
      else None
  | Working w, Run _ =>
      match wk_waiting w with
      | [] => Some (if wk_manifestChanged w then Rereading w else collected w, st)
      | _ => None
      end
  | Rereading w, Run _ =>
      match GetBranchReconciliationPage (page_key_of a) (pd_db st) with
      | None => Some (Done PageFailed, st)
      | Some PagePending => Some (collected w, st)
      | Some s => let '(o, st') := settled s a st in Some (Done o, st')
      end
  | Completing n, Run now =>
      let '(o, st') := complete_page installationID now a n st in Some (Done o, st')
  | Reading, RunFails | Starting, RunFails | Rereading _, RunFails | Completing _, RunFails =>
      Some (Done PageFailed, st)
  | _, _ => None
  end.

(** ** The system *)

Section system.
Context `{R : River} (installationID pageSize : Z).

(** A worker, with the results its targets have returned. *)
Record page_worker : Type := mkPageWorker {
  pw_args : page_args;
  pw_phase : phase;
  pw_log : list (branch_target * target_result)
}.

Record pages_sys : Type := mkPagesSys {
  sy_push : push_state;
  sy_track : gmap page_key page_track;
  sy_heartbeats : heartbeats;
  sy_workers : gmap nat page_worker
}.

Definition tables_of (s : pages_sys) : pages_db :=
  mkPagesDb (ps_db (sy_push s)) (sy_track s) (sy_heartbeats s).

Definition with_tables (t : pages_db) (ws : gmap nat page_worker) (s : pages_sys) : pages_sys :=
  mkPagesSys (mkPushState (pd_db t) (ps_queue (sy_push s)) (ps_page_jobs (sy_push s)))
    (pd_track t) (pd_heartbeats t) ws.

Definition logged (ev : event) (p : phase) (log : list (branch_target * target_result))
    : list (branch_target * target_result) :=
  match p, ev with
  | Working w, Result i r =>
      match wk_waiting w !! i with Some t => log ++ [(t, r)] | None => log end
  | _, _ => log
  end.

(** A push, a write of another component, a job taken by a worker, or a step of a
    worker. *)
Inductive pages_step (s : pages_sys) : pages_sys → Prop :=
  | step_push h contended clock p :
      apply_push contended pageSize clock h (sy_push s) = Ok p →
      Z.of_nat (length (bd_pulls (ps_db (sy_push s))) + length (bd_stacks (ps_db (sy_push s)))) < 2 ^ 31 →
      pages_step s (mkPagesSys p (sy_track s) (sy_heartbeats s) (sy_workers s))
  | step_tables p :
      bd_reconciliations (ps_db p) = bd_reconciliations (ps_db (sy_push s)) →
      bd_pages (ps_db p) = bd_pages (ps_db (sy_push s)) →
      pages_step s (mkPagesSys p (sy_track s) (sy_heartbeats s) (sy_workers s))
  | step_spawn i a :
      a ∈ ps_page_jobs (sy_push s) → sy_workers s !! i = None →
      pages_step s (mkPagesSys (sy_push s) (sy_track s) (sy_heartbeats s)
                      (<[i := mkPageWorker a Reading []]> (sy_workers s)))
  | step_worker i w ev p t :
      sy_workers s !! i = Some w →
      worker_step installationID (pw_args w) ev (pw_phase w) (tables_of s) = Some (p, t) →
      pages_step s (with_tables t
        (<[i := mkPageWorker (pw_args w) p (logged ev (pw_phase w) (pw_log w))]> (sy_workers s)) s).

Definition initial (s : pages_sys) : Prop :=
  bd_reconciliations (ps_db (sy_push s)) = ∅ ∧ bd_pages (ps_db (sy_push s)) = ∅ ∧ sy_workers s = ∅.

Definition reachable (s : pages_sys) : Prop := ∃ s0, initial s0 ∧ rtc pages_step s0 s.
End system.

(** ** The manifest *)

(** The pages of a reconciliation are numbered from 1 to its page count; pages of its
    generation are not superseded and pages of older ones are not pending; and it is
    incomplete while one of its pages is pending. *)
Record manifest_wf (db : branch_db) : Prop := {
  mo_bounded : pages_bounded db;
  mo_dense r b rc n : bd_reconciliations db !! (r, b) = Some rc →
    is_Some (bd_pages db !! (r, b, rc_generation rc, n)) ↔ 1 ≤ n ≤ rc_page_count rc;
  mo_current r b rc n p : bd_reconciliations db !! (r, b) = Some rc →
    bd_pages db !! (r, b, rc_generation rc, n) = Some p → pg_status p ≠ PageSuperseded;
  mo_old r b rc g n p : bd_reconciliations db !! (r, b) = Some rc → g ≠ rc_generation rc →
    bd_pages db !! (r, b, g, n) = Some p → pg_status p ≠ PagePending;
  mo_closed k p : bd_pages db !! k = Some p → pg_status p = PagePending ↔ pg_completed_at p = None;
  mo_open r b rc n p : bd_reconciliations db !! (r, b) = Some rc →
    bd_pages db !! (r, b, rc_generation rc, n) = Some p → pg_status p = PagePending →
    rc_completed_at rc = None
}.

(** A page of the reconciliation is pending. *)
Definition has_pending (r : Z) (b : string) (rc : reconciliation) (db : branch_db) : Prop :=
  ∃ n p, bd_pages db !! (r, b, rc_generation rc, n) = Some p ∧ pg_status p = PagePending.

(** ... and an incomplete reconciliation has a pending page. *)
Record manifest_ok (db : branch_db) : Prop := {
  mo_wf : manifest_wf db;
  mo_complete r b rc : bd_reconciliations db !! (r, b) = Some rc → rc_completed_at rc = None →
    has_pending r b rc db
}.

(** *** Finalizing *)

Lemma generation_pages_elem r b g db k p :
  (k, p) ∈ generation_pages r b g db ↔ ∃ n, k = (r, b, g, n) ∧ bd_pages db !! (r, b, g, n) = Some p.
Proof.
  unfold generation_pages. rewrite list_elem_of_filter. destruct k as [[[r' b'] g'] n'].
  rewrite elem_of_map_to_list. naive_solver.
Qed.

Lemma generation_pages_length r b g db c :
  0 ≤ c → (∀ n, is_Some (bd_pages db !! (r, b, g, n)) ↔ 1 ≤ n ≤ c) →
  Z.of_nat (length (generation_pages r b g db)) = c.
Proof.
  intros Hc Hd.
  assert (Hp : map fst (generation_pages r b g db) ≡ₚ map (λ n, (r, b, g, n)) (seqZ 1 c)).
  { apply NoDup_Permutation.
    - apply NoDup_fmap_fst; [|apply NoDup_filter, NoDup_map_to_list].
      intros k p1 p2 (n & -> & H1)%generation_pages_elem (n' & Hn & H2)%generation_pages_elem. congruence.
    - apply NoDup_fmap_2; [|apply NoDup_seqZ]. by intros ?? [=].
    - intros k. rewrite !list_elem_of_fmap. split.
      + intros ([k' p] & -> & (n & -> & H)%generation_pages_elem). exists n. split; [done|].
        apply elem_of_seqZ. destruct (proj1 (Hd n)); [by eexists|]. lia.
      + intros (n & -> & Hn%elem_of_seqZ). destruct (proj2 (Hd n)) as [p H]; [lia|].
        exists ((r, b, g, n), p). split; [done|]. apply generation_pages_elem. eauto. }
  apply Permutation_length in Hp. rewrite !length_map, length_seqZ in Hp. lia.
Qed.

Lemma sql_max_None l : sql_max l = None → ∀ x, x ∈ l → x = None.
Proof.
  induction l as [|[a|] l IH]; cbn.
  - intros _ x Hx. by apply elem_of_nil in Hx.
  - fold (sql_max l). by destruct (sql_max l).
  - intros H x Hx. apply elem_of_cons in Hx as [->|Hx]; [done|by apply IH].
Qed.

(** The tables after [FinalizeBranchReconciliation], for a manifest whose
    reconciliation may be due. *)
Lemma finalize_recs r b g db : ∀ k, k ≠ (r, b) →
  bd_reconciliations (FinalizeBranchReconciliation r b g db) !! k = bd_reconciliations db !! k.
Proof.
  intros k Hk. unfold FinalizeBranchReconciliation. case_match; [|done]. case_if; [|done].
  cbn. by rewrite lookup_insert_ne.
Qed.

Lemma finalize_pages r b g db : bd_pages (FinalizeBranchReconciliation r b g db) = bd_pages db.
Proof. unfold FinalizeBranchReconciliation. case_match; [|done]. by case_if. Qed.

Lemma finalize_due r b rc db :
  bd_reconciliations db !! (r, b) = Some rc → rc_completed_at rc = None → 0 < rc_page_count rc →
  (∀ n, is_Some (bd_pages db !! (r, b, rc_generation rc, n)) ↔ 1 ≤ n ≤ rc_page_count rc) →
  (∀ n p, bd_pages db !! (r, b, rc_generation rc, n) = Some p → pg_status p ≠ PagePending) →
  bd_reconciliations (FinalizeBranchReconciliation r b (rc_generation rc) db) !! (r, b) =
  Some (rc_complete (sql_max (map (λ kp, pg_completed_at kp.2)
                                (generation_pages r b (rc_generation rc) db))) rc).
Proof.
  intros Hrc Hn Hc Hd Hp. unfold FinalizeBranchReconciliation.
  rewrite Hrc, Z.eqb_refl, Hn, (generation_pages_length _ _ _ _ (rc_page_count rc)) by (done || lia).
  rewrite (proj2 (Z.ltb_lt _ _)), Z.eqb_refl by done. cbn [andb].
  rewrite bool_decide_true by done. rewrite (proj2 (forallb_forall _ _)).
  - cbn. by rewrite lookup_insert_eq.
  - intros [k p] (n & -> & H)%list_elem_of_In%generation_pages_elem. cbn.
    rewrite bool_decide_false by by eapply Hp. done.
Qed.

(** Where a page of the reconciliation is pending nothing is finalized. *)
Lemma finalize_pending r b g n p db :
  bd_pages db !! (r, b, g, n) = Some p → pg_status p = PagePending →
  FinalizeBranchReconciliation r b g db = db.
Proof.
  intros H Hp. unfold FinalizeBranchReconciliation. case_match; [|done]. case_if; [|done].
  exfalso. apply andb_true_iff in E as [_ Hf]. rewrite forallb_forall in Hf.
  specialize (Hf ((r, b, g, n), p)). cbn in Hf. rewrite Hp in Hf.
  rewrite bool_decide_true in Hf by done.
  discriminate Hf. apply list_elem_of_In, generation_pages_elem. eauto.
Qed.

Lemma finalize_done r b g rc db :
  bd_reconciliations db !! (r, b) = Some rc → rc_completed_at rc ≠ None →
  FinalizeBranchReconciliation r b g db = db.
Proof.
  intros Hrc Hc. unfold FinalizeBranchReconciliation. rewrite Hrc, (bool_decide_false (_ = None)) by done.
  by rewrite andb_false_r.
Qed.

Lemma has_pending_dec r b rc db : Decision (has_pending r b rc db).
Proof.
  destruct (decide (Exists (λ kp, pg_status kp.2 = PagePending)
    (generation_pages r b (rc_generation rc) db))) as [H|H].
  - left. apply Exists_exists in H as ([k p] & (n & -> & Hp)%generation_pages_elem & Hs).
    exists n, p. done.
  - right. intros (n & p & Hp & Hs). apply H, Exists_exists.
    exists ((r, b, rc_generation rc, n), p). split; [|done]. apply generation_pages_elem. eauto.
Qed.

(** The invariant depends on the pages and on the generation, count and completion of
    the reconciliations. *)
Lemma manifest_wf_ext db db' :
  manifest_wf db → bd_pages db' = bd_pages db →
  (∀ r b, rc_generation <$> bd_reconciliations db' !! (r, b) = rc_generation <$> bd_reconciliations db !! (r, b)) →
  (∀ r b rc rc', bd_reconciliations db !! (r, b) = Some rc → bd_reconciliations db' !! (r, b) = Some rc' →
     rc_page_count rc' = rc_page_count rc ∧
     (has_pending r b rc db → rc_completed_at rc = None → rc_completed_at rc' = None)) →
  manifest_wf db'.
Proof.
  intros [Hb Hde Hcu Hol Hcl Hop] Hp Hg Hr.
  assert (Hback : ∀ r b rc', bd_reconciliations db' !! (r, b) = Some rc' →
    ∃ rc, bd_reconciliations db !! (r, b) = Some rc ∧ rc_generation rc' = rc_generation rc ∧
      rc_page_count rc' = rc_page_count rc ∧
      (has_pending r b rc db → rc_completed_at rc = None → rc_completed_at rc' = None)).
  { intros r b rc' H. specialize (Hg r b). rewrite H in Hg. cbn in Hg. symmetry in Hg.
    apply fmap_Some in Hg as (rc & Hrc & Hgen). exists rc. specialize (Hr _ _ _ _ Hrc H). tauto. }
  split; rewrite ?Hp.
  - intros r b g n p H. rewrite Hp in H. apply Hb in H as (rc & Hrc & Hle). specialize (Hg r b).
    rewrite Hrc in Hg. apply fmap_Some in Hg as (rc' & ? & Heq). exists rc'. split; [done|]. lia.
  - intros r b rc' n (rc & ? & -> & -> & _)%Hback. eauto.
  - intros r b rc' n p (rc & ? & -> & _)%Hback. eauto.
  - intros r b rc' g n p (rc & ? & -> & _)%Hback. eauto.
  - done.
  - intros r b rc' n p (rc & Hrc0 & -> & _ & Hc)%Hback H Hs. apply Hc; [|by eapply Hop].
    exists n, p. done.
Qed.

(** Finalizing restores the invariant of the reconciliation it locks. *)
Lemma finalize_ok r0 b0 rc0 db :
  manifest_wf db → bd_reconciliations db !! (r0, b0) = Some rc0 → 0 < rc_page_count rc0 →
  (∀ r b rc, (r, b) ≠ (r0, b0) → bd_reconciliations db !! (r, b) = Some rc → rc_completed_at rc = None →
     has_pending r b rc db) →
  manifest_ok (FinalizeBranchReconciliation r0 b0 (rc_generation rc0) db).
Proof.
  intros Hwf Hrc Hc Hothers. destruct (has_pending_dec r0 b0 rc0 db) as [Hpend|Hnone].
  { destruct Hpend as (n & p & Hp & Hs). rewrite (finalize_pending _ _ _ _ _ _ Hp Hs). split; [done|].
    intros r b rc H Hn. destruct (decide ((r, b) = (r0, b0))) as [[= -> ->]|]; [|by apply Hothers].
    rewrite Hrc in H. simplify_eq. by exists n, p. }
  destruct (rc_completed_at rc0) as [t|] eqn:Ht.
  { rewrite (finalize_done _ _ _ _ _ Hrc) by by rewrite Ht. split; [done|]. intros r b rc H Hn.
    destruct (decide ((r, b) = (r0, b0))) as [[= -> ->]|]; [congruence|by apply Hothers]. }
  pose proof (mo_dense _ Hwf r0 b0 rc0) as Hd.
  pose proof (finalize_due r0 b0 rc0 db Hrc Ht Hc (λ n, Hd n Hrc)) as Hfin.
  set (db' := FinalizeBranchReconciliation r0 b0 (rc_generation rc0) db) in *.
  assert (Hfin' : ∃ t, bd_reconciliations db' !! (r0, b0) = Some (rc_complete (Some t) rc0)).
  { rewrite Hfin by (intros n p ? ?; apply Hnone; by exists n, p).
    destruct (sql_max _) as [t|] eqn:Emax; [by exists t|]. exfalso.
    destruct (proj2 (Hd 1 Hrc)) as [p Hp]; [lia|].
    pose proof (sql_max_None _ Emax (pg_completed_at p)) as Hnull.
    apply Hnone. exists 1, p. split; [done|]. apply (mo_closed _ Hwf _ _ Hp), Hnull.
    apply list_elem_of_fmap. exists ((r0, b0, rc_generation rc0, 1), p). split; [done|].
    apply generation_pages_elem. eauto. }
  destruct Hfin' as [t Hfin'].
  assert (Hrecs : ∀ k, k ≠ (r0, b0) → bd_reconciliations db' !! k = bd_reconciliations db !! k)
    by apply finalize_recs.
  assert (Hpages : bd_pages db' = bd_pages db) by apply finalize_pages.
  split.
  - apply (manifest_wf_ext db); [done|done| |].
    + intros r b. destruct (decide ((r, b) = (r0, b0))) as [[= -> ->]|]; [|by rewrite Hrecs].
      by rewrite Hfin', Hrc.
    + intros r b rc rc' H H'. destruct (decide ((r, b) = (r0, b0))) as [[= -> ->]|].
      * rewrite Hfin' in H'. rewrite Hrc in H. simplify_eq. cbn. done.
      * rewrite Hrecs in H' by done. simplify_eq. done.
  - intros r b rc H Hn. destruct (decide ((r, b) = (r0, b0))) as [[= -> ->]|].
    + rewrite Hfin' in H. by simplify_eq.
    + rewrite Hrecs in H by done. destruct (Hothers _ _ _ n H Hn) as (m & p & ? & ?).
      exists m, p. by rewrite Hpages.
Qed.

(** *** Completing a page *)

Lemma completed_page_wf k p p' db :
  manifest_wf db → bd_pages db !! k = Some p → pg_status p' = PageCompleted → pg_completed_at p' ≠ None →
  manifest_wf (set_pages (<[k := p']> (bd_pages db)) db).
Proof.
  intros [Hb Hde Hcu Hol Hcl Hop] Hk Hs Hc.
  assert (Hsome : ∀ k', is_Some (<[k := p']> (bd_pages db) !! k') ↔ is_Some (bd_pages db !! k')).
  { intros k'. destruct (decide (k' = k)) as [->|]; [|by rewrite lookup_insert_ne].
    rewrite lookup_insert_eq, Hk. split; by eexists. }
  split; cbn.
  - intros r b g n q Hq. destruct (proj1 (Hsome (r, b, g, n))) as [q0 Hq0]; [by eexists|]. by eapply Hb.
  - intros r b rc n Hrc. rewrite Hsome. by apply Hde.
  - intros r b rc n q Hrc. rewrite lookup_insert_Some. intros [[_ <-]|[_ ?]]; [congruence|by eapply Hcu].
  - intros r b rc g n q Hrc Hg. rewrite lookup_insert_Some. intros [[_ <-]|[_ ?]]; [congruence|by eapply Hol].
  - intros k' q. rewrite lookup_insert_Some. intros [[_ <-]|[_ ?]]; [|by eapply Hcl].
    rewrite Hs. split; [done|]. intros ?. by destruct Hc.
  - intros r b rc n q Hrc. rewrite lookup_insert_Some. intros [[_ <-]|[_ ?]] ?; [congruence|by eapply Hop].
Qed.

(** Other reconciliations keep their pending pages. *)
Lemma completed_page_others r0 b0 g0 n0 p' db r b rc :
  (r, b) ≠ (r0, b0) → has_pending r b rc db →
  has_pending r b rc (set_pages (<[(r0, b0, g0, n0) := p']> (bd_pages db)) db).
Proof.
  intros Hne (n & p & Hp & Hs). exists n, p. split; [|done]. cbn. rewrite lookup_insert_ne; [done|].
  intros [= -> -> _ _]. done.
Qed.

Lemma current_Some r b g db :
  current r b g db = true ↔ ∃ rc, bd_reconciliations db !! (r, b) = Some rc ∧ rc_generation rc = g.
Proof.
  unfold current. destruct (bd_reconciliations db !! (r, b)) as [rc|]; rewrite ?Z.eqb_eq; naive_solver.
Qed.

Lemma manifest_tables db db' :
  bd_reconciliations db' = bd_reconciliations db → bd_pages db' = bd_pages db →
  manifest_ok db → manifest_ok db'.
Proof.
  intros Hr Hp [Hwf Hc]. split.
  - apply (manifest_wf_ext db); [done|done|by rewrite Hr|]. rewrite Hr. intros; simplify_eq. done.
  - intros r b rc. rewrite Hr. unfold has_pending. rewrite Hp. by apply Hc.
Qed.

(** The effect of the bookkeeping transaction. *)
Lemma complete_page_spec inst now a n st :
  let '(o, st') := complete_page inst now a n st in
  (o = PageSuccess ∨ o = PagePartial) ∧
  (∃ rc p, bd_reconciliations (pd_db st) !! (bp_RepoID a, bp_Branch a) = Some rc ∧
    rc_generation rc = bp_Generation a ∧ bd_pages (pd_db st) !! page_key_of a = Some p ∧
    pg_status p = PagePending ∧
    pd_db st' = FinalizeBranchReconciliation (bp_RepoID a) (bp_Branch a) (bp_Generation a)
      (set_pages (<[page_key_of a := mkPageRow (pg_target_count p) PageCompleted (wrap32 n)
                                      (pg_created_at p) (Some now)]> (bd_pages (pd_db st))) (pd_db st))) ∨
  o ≠ PageSuccess ∧ o ≠ PagePartial ∧
  (pd_db st' = pd_db st ∨
   current (bp_RepoID a) (bp_Branch a) (bp_Generation a) (pd_db st) = true ∧
   GetBranchReconciliationPage (page_key_of a) (pd_db st) ≠ Some PagePending ∧
   pd_db st' = FinalizeBranchReconciliation (bp_RepoID a) (bp_Branch a) (bp_Generation a) (pd_db st)).
Proof.
  unfold complete_page, LockBranchReconciliationForCompletion.
  destruct (current _ _ _ _) eqn:Hcur; cbn [negb]; [|right; auto].
  apply current_Some in Hcur as (rc & Hrc & Hg).
  unfold CompleteBranchReconciliationPage, GetBranchReconciliationPage.
  destruct (bd_pages (pd_db st) !! page_key_of a) as [p|] eqn:Hp; cbn [negb].
  2: { right. split_and!; [done..|]. by right. }
  case_bool_decide as Hs; cbn [negb].
  - destruct (RecordSuccessN _ _ _ _ _ _); [|right; auto]. left.
    split; [by destruct (0 <? n); auto|]. exists rc, p. done.
  - right. split_and!; [done..|]. right. split_and!; [done| |done].
    cbn. by intros [= ?].
Qed.

(** With the invariant there is nothing left to finalize. *)
Lemma finalize_noop r b g db : manifest_ok db → FinalizeBranchReconciliation r b g db = db.
Proof.
  intros [_ Hc]. destruct (bd_reconciliations db !! (r, b)) as [rc|] eqn:Hrc.
  2: { unfold FinalizeBranchReconciliation. by rewrite Hrc. }
  destruct (decide (rc_generation rc = g)) as [<-|Hne].
  - destruct (rc_completed_at rc) eqn:Ht; [by eapply finalize_done; [done|rewrite Ht]|].
    destruct (Hc _ _ _ Hrc Ht) as (n & p & Hp & Hs). by eapply finalize_pending.
  - unfold FinalizeBranchReconciliation. by rewrite Hrc, (proj2 (Z.eqb_neq _ _) Hne).
Qed.

Lemma settled_noop s a st : manifest_ok (pd_db st) → pd_db (settled s a st).2 = pd_db st.
Proof.
  intros H. destruct s; [done| |done]. cbn. unfold healBranchReconciliationCompletion. case_if; [|done].
  cbn. by apply finalize_noop.
Qed.

Lemma settled_step s a st p' st' :
  manifest_ok (pd_db st) → (let '(o, st') := settled s a st in Some (Done o, st')) = Some (p', st') →
  pd_db st' = pd_db st.
Proof. intros Hm H. rewrite <- (settled_noop s a st Hm). destruct (settled s a st). by simplify_eq. Qed.

Lemma complete_page_ok inst now a n st :
  manifest_ok (pd_db st) → manifest_ok (pd_db (complete_page inst now a n st).2).
Proof.
  intros Hm. pose proof (complete_page_spec inst now a n st) as H.
  destruct (complete_page inst now a n st) as [o st']. cbn.
  destruct H as [(_ & rc & p & Hrc & Hg & Hp & Hs & ->)|(_ & _ & [->|(_ & _ & ->)])]; [|done|].
  - rewrite <- Hg. destruct Hm as [Hwf Hc]. apply finalize_ok.
    + by eapply completed_page_wf.
    + done.
    + assert (1 ≤ wrap32 (bp_Page a) ≤ rc_page_count rc); [|lia].
      apply (mo_dense _ Hwf _ _ _ _ Hrc). rewrite Hg. by exists p.
    + intros r b rc' Hne Hrc' Hn. apply completed_page_others; [done|]. by apply Hc.
  - by rewrite finalize_noop.
Qed.

(** The steps of a worker. *)
Lemma worker_tables inst a ev p st p' st' :
  manifest_ok (pd_db st) → worker_step inst a ev p st = Some (p', st') →
  pd_db st' = pd_db st ∨
  ∃ now n, p = Completing n ∧ (Done (complete_page inst now a n st).1, (complete_page inst now a n st).2)
                              = (p', st').
Proof.
  intros Hm H. destruct p as [| |w|w|n|o], ev as [now| |i r|now|]; cbn -[complete_page settled] in H; try done;
    try (by simplify_eq; left).
  - case_if_in H; [by simplify_eq; left|]. case_match_in H; [|by simplify_eq; left].
    destruct p; [by simplify_eq; left| |]; left; by eapply settled_step.
  - unfold StartBranchReconciliationPage in H. cbn in H. case_if_in H; simplify_eq; by left.
  - case_match_in H; simplify_eq. by left.
  - case_match_in H; [|done]. case_if_in H; simplify_eq. by left.
  - case_if_in H; [|done]. unfold HeartbeatBranchReconciliationPage in H. cbn in H.
    case_if_in H; simplify_eq; by left.
  - case_if_in H; simplify_eq. by left.
  - case_match_in H; [|by simplify_eq; left].
    destruct p; [by simplify_eq; left| |]; left; by eapply settled_step.
  - right. exists now, n. destruct (complete_page inst now a n st). injection H as <- <-. done.
Qed.

(** *** Pushes *)

Lemma concat_length_ge {A} (f : A → list branch_target) (l : list A) :
  Forall (λ a, 0 < Z.of_nat (length (f a))) l → (length l ≤ length (concat (map f l)))%nat.
Proof. induction 1 as [|a l Ha _ IH]; cbn; [lia|]. rewrite length_app. lia. Qed.

Lemma length_remove_dups {A} `{EqDecision A} (l : list A) : (length (remove_dups l) ≤ length l)%nat.
Proof. induction l as [|x l IH]; cbn; [lia|]. case_decide; cbn; lia. Qed.

Lemma page_targets_length fullName branch r db :
  (length (page_targets fullName branch r db) ≤ length (bd_pulls db) + length (bd_stacks db))%nat.
Proof.
  unfold page_targets. etrans; [apply length_remove_dups|]. rewrite length_app, !length_map.
  pose proof (filter_length_le (targets_pull (rp_id r) branch) (bd_pulls db)).
  pose proof (filter_length_le (targets_stack (rp_id r) branch) (bd_stacks db)). lia.
Qed.

Section push.
Context `{R : River} (pageSize : Z).

(** What a push does to the reconciliations and their pages. *)
Lemma apply_push_effect contended clock h st st' :
  apply_push contended pageSize clock h st = Ok st' →
  (bd_reconciliations (ps_db st') = bd_reconciliations (ps_db st) ∧
   bd_pages (ps_db st') = bd_pages (ps_db st)) ∨
  ∃ r gen sup db1 rc counts,
    let b := bh_Branch (bph_hint h) in let n := Z.of_nat (length counts) in
    BeginBranchReconciliation h (clock h).1 r (ps_db st) = Some (gen, sup, db1) ∧
    bd_reconciliations (ps_db st') = <[(rp_id r, b) := rc]> (bd_reconciliations (ps_db st)) ∧
    rc_generation rc = gen ∧ rc_page_count rc = wrap32 n ∧
    rc_completed_at rc = (if wrap32 n =? 0 then Some (clock h).2 else None) ∧
    bd_pages (ps_db st') = insert_pages (rp_id r) b gen (clock h).2 1 counts (bd_pages db1) ∧
    (length counts ≤ length (bd_pulls (ps_db st)) + length (bd_stacks (ps_db st)))%nat.
Proof.
  unfold apply_push, ApplyBranchPushTx. rewrite (surjective_pairing (clock h)).
  case_if; [done|]. destruct (repository_of _ _) as [r|]; cbn [mbind result_bind]; [|intros [= <-]; by left].
  destruct (BeginBranchReconciliation h _ r (ps_db st)) as [[[gen sup] db1]|] eqn:Hb;
    cbn [mbind result_bind]; [|intros [= <-]; by left].
  destruct (ApplyBranchHintTransition _ _ _ _) as [events db2] eqn:Etr.
  case_if; [done|]. destruct (AdvanceBranchReconciliationTargetGenerations _ _ _ _ _ _) as [targets g'] eqn:Eadv.
  cbn [mbind result_bind bb_RepoID bb_Generation bb_Targets].
  destruct (branchReconciliationPages _ _ _ _ _) as [[pages counts]|] eqn:Hp; [|done].
  intros (db3 & Hrec & [= <-])%bind_ok. cbn [ps_db]. right.
  destruct (begin_spec _ _ _ _ _ _ _ Hb) as (Hgen & _ & _ & Hpl & Hst & (rc & Hrc & Hrg & _) & _).
  assert (Hdb2 : bd_reconciliations db2 = bd_reconciliations db1 ∧ bd_pages db2 = bd_pages db1 ∧
    length (bd_pulls db2) = length (bd_pulls (ps_db st)) ∧ length (bd_stacks db2) = length (bd_stacks (ps_db st))).
  { unfold ApplyBranchHintTransition in Etr. simplify_eq. cbn. by rewrite !length_map, Hpl, Hst. }
  destruct Hdb2 as (Hr2 & Hp2 & Hl1 & Hl2).
  assert (Hlen : (length counts ≤ length (bd_pulls (ps_db st)) + length (bd_stacks (ps_db st)))%nat).
  { assert (length targets ≤ length (bd_pulls (ps_db st)) + length (bd_stacks (ps_db st)))%nat.
    { unfold AdvanceBranchReconciliationTargetGenerations in Eadv. injection Eadv as <- _.
      rewrite merge_sort_Permutation, length_map, <- Hl1, <- Hl2. apply page_targets_length. }
    assert (0 < pageSize).
    { unfold branchReconciliationPages in Hp. case_if_in Hp; [done|]. by to_props. }
    pose proof (pages_spec (bph_hint h) (rp_id r) gen targets pageSize ltac:(done)) as Hs.
    case_if_in Hs; [|congruence]. destruct Hs as (pages' & Hs & Hcat & Hf & _).
    rewrite Hp in Hs. simplify_eq. rewrite length_map.
    etrans; [apply (concat_length_ge bp_Targets)|done].
    eapply Forall_impl; [exact Hf|]. cbn. tauto. }
  unfold RecordBranchReconciliationPagesTx in Hrec. case_if_in Hrec; [done|].
  rewrite Hr2, Hrc, lookup_insert_eq, Hrg, Z.eqb_refl, insert_insert_eq in Hrec. simplify_eq. cbn.
  do 6 eexists. rewrite Hp2. split_and!; [exact Hb|done..].
Qed.

(** The pages of a push: new ones pending, those of the branch superseded. *)
Lemma insert_pages_dense r b g now counts pages n :
  (∀ m, pages !! (r, b, g, m) = None) →
  insert_pages r b g now 1 counts pages !! (r, b, g, n) =
  if decide (1 ≤ n ≤ Z.of_nat (length counts))
  then (λ c, mkPageRow c PagePending 0 now None) <$> counts !! Z.to_nat (n - 1) else None.
Proof.
  intros Hf. case_decide as Hn.
  - destruct (lookup_lt_is_Some_2 counts (Z.to_nat (n - 1))) as [c Hc]; [lia|]. rewrite Hc. cbn.
    replace n with (1 + Z.of_nat (Z.to_nat (n - 1))) at 1 by lia. by apply insert_pages_in.
  - destruct (decide (n < 1)); [by rewrite insert_pages_below|].
    enough (Hg : ∀ k, k + Z.of_nat (length counts) ≤ n → ∀ pages : gmap page_key page_row,
      insert_pages r b g now k counts pages !! (r, b, g, n) = pages !! (r, b, g, n))
      by (rewrite Hg by lia; apply Hf).
    clear. induction counts as [|c counts IH]; intros k Hk pages; [done|]. cbn in *.
    rewrite IH by lia. case_match; [done|]. rewrite lookup_insert_ne; [done|]. intros [= ?]. lia.
Qed.

(** The tables a push leaves, for the branch it starts and for the others. *)
Record pushed (r : Z) (b : string) (rc : reconciliation) (now at_ : time) (db db' : branch_db) : Prop := {
  pu_recs : bd_reconciliations db' = <[(r, b) := rc]> (bd_reconciliations db);
  pu_newer rc0 : bd_reconciliations db !! (r, b) = Some rc0 → rc_generation rc0 < rc_generation rc;
  pu_new n : if decide (1 ≤ n ≤ rc_page_count rc)
    then ∃ c, bd_pages db' !! (r, b, rc_generation rc, n) = Some (mkPageRow c PagePending 0 now None)
    else bd_pages db' !! (r, b, rc_generation rc, n) = None;
  pu_completed : rc_completed_at rc = if rc_page_count rc =? 0 then Some now else None;
  pu_count : 0 ≤ rc_page_count rc;
  pu_old g n : g ≠ rc_generation rc →
    bd_pages db' !! (r, b, g, n) =
    supersede_page r b (rc_generation rc) at_ (r, b, g, n) <$> bd_pages db !! (r, b, g, n);
  pu_other r' b' g n : (r', b') ≠ (r, b) → bd_pages db' !! (r', b', g, n) = bd_pages db !! (r', b', g, n)
}.

Lemma push_pages contended clock h st st' :
  pages_bounded (ps_db st) → apply_push contended pageSize clock h st = Ok st' →
  Z.of_nat (length (bd_pulls (ps_db st)) + length (bd_stacks (ps_db st))) < 2 ^ 31 →
  (bd_reconciliations (ps_db st') = bd_reconciliations (ps_db st) ∧
   bd_pages (ps_db st') = bd_pages (ps_db st)) ∨
  ∃ r rc, pushed r (bh_Branch (bph_hint h)) rc (clock h).2 (clock h).1 (ps_db st) (ps_db st').
Proof.
  intros Hbd Hpush Hfew. apply apply_push_effect in Hpush as [?|H]; [by left|right].
  destruct H as (r & gen & sup & db1 & rc & counts & H). cbn zeta in H.
  destruct H as (Hb & Hr & <- & Hc & Ht & Hp & Hlen). rewrite wrap32_id in Hc, Ht by lia.
  pose proof (λ n, fresh_pages clock h r _ _ sup db1 n Hbd Hb) as Hfresh.
  destruct (begin_spec _ _ _ _ _ _ _ Hb) as (Hgen & _ & _ & _ & _ & _ & Hsup).
  set (b := bh_Branch (bph_hint h)) in *. exists (rp_id r), rc.
  assert (Hold : ∀ r' b' g n, (r', b', g) ≠ (rp_id r, b, rc_generation rc) →
    bd_pages (ps_db st') !! (r', b', g, n) = supersede_page (rp_id r) b (rc_generation rc) (clock h).1
      (r', b', g, n) <$> bd_pages (ps_db st) !! (r', b', g, n)).
  { intros r' b' g n Hne. rewrite Hp, insert_pages_other by (intros m [= -> -> ->]; done). apply Hsup. }
  split.
  - done.
  - intros rc0 H0. unfold branch_generation in Hgen. rewrite H0 in Hgen. cbn in Hgen. lia.
  - intros n. rewrite Hc, Hp, insert_pages_dense by done. case_decide; [|done].
    destruct (lookup_lt_is_Some_2 counts (Z.to_nat (n - 1))) as [c ->]; [lia|]. by exists c.
  - by rewrite Ht, Hc.
  - lia.
  - intros g n Hg. apply Hold. by intros [= ->].
  - intros r' b' g n Hne. rewrite Hold by (by intros [= -> -> _]).
    destruct (bd_pages (ps_db st) !! _) as [p|]; [|done]. cbn. unfold supersede_page.
    case_if; [|done]. to_props. autorewrite with ghsync in *. subst. done.
Qed.

(** Superseding: the pages of an older generation are no longer pending. *)
Lemma supersede_page_spec r b g0 at_ g n p :
  g < g0 → (pg_status p = PagePending ↔ pg_completed_at p = None) →
  let p' := supersede_page r b g0 at_ (r, b, g, n) p in
  pg_status p' ≠ PagePending ∧ pg_completed_at p' ≠ None.
Proof.
  intros Hg Hc. cbn. rewrite Z.eqb_refl, seqb_refl, (proj2 (Z.ltb_lt _ _)) by done. cbn [andb].
  case_bool_decide; cbn; [done|]. rewrite <- Hc. done.
Qed.

Lemma pushed_manifest r b rc now at_ db db' :
  manifest_ok db → pushed r b rc now at_ db db' → manifest_ok db'.
Proof.
  intros [[Hbd Hde Hcu Hol Hcl Hop] Hco] [Hr Hlt Hnew Ht Hc Hold Hother].
  assert (Hpast : ∀ g n p, g ≠ rc_generation rc → bd_pages db' !! (r, b, g, n) = Some p →
    g < rc_generation rc ∧ pg_status p ≠ PagePending ∧ pg_completed_at p ≠ None).
  { intros g n p Hg Hp. rewrite Hold in Hp by done. apply fmap_Some in Hp as (p0 & Hp & ->).
    destruct (Hbd _ _ _ _ _ Hp) as (rc0 & H0 & Hle). apply Hlt in H0.
    split; [lia|]. apply supersede_page_spec; [lia|]. by eapply Hcl. }
  assert (Hnow : ∀ n p, bd_pages db' !! (r, b, rc_generation rc, n) = Some p →
    1 ≤ n ≤ rc_page_count rc ∧ pg_status p = PagePending ∧ pg_completed_at p = None).
  { intros n p Hp. specialize (Hnew n). case_decide; [|congruence]. destruct Hnew as [c Hn].
    rewrite Hn in Hp. by simplify_eq. }
  assert (Hrec : ∀ r' b' rc', bd_reconciliations db' !! (r', b') = Some rc' →
    (r', b', rc') = (r, b, rc) ∨ (r', b') ≠ (r, b) ∧ bd_reconciliations db !! (r', b') = Some rc').
  { intros r' b' rc'. rewrite Hr, lookup_insert_Some. intros [[[= -> ->] ->]|[Hne H']]; auto. }
  split; [split|].
  - intros r' b' g n p Hp. rewrite Hr. destruct (decide ((r', b') = (r, b))) as [[= -> ->]|Hne].
    + rewrite lookup_insert_eq. eexists. split; [done|].
      destruct (decide (g = rc_generation rc)); [lia|]. destruct (Hpast _ _ _ n0 Hp). lia.
    + rewrite lookup_insert_ne by done. rewrite Hother in Hp by done. by eapply Hbd.
  - intros r' b' rc' n [[= -> -> ->]|[Hne H']]%Hrec; [|rewrite Hother by done; by apply Hde].
    specialize (Hnew n). case_decide; [destruct Hnew as [c ->]; split; [done|by eexists]|].
    rewrite Hnew. split; [by intros []|done].
  - intros r' b' rc' n p [[= -> -> ->]|[Hne H']]%Hrec Hp.
    + apply Hnow in Hp as (_ & -> & _). done.
    + rewrite Hother in Hp by done. by eapply Hcu.
  - intros r' b' rc' g n p [[= -> -> ->]|[Hne H']]%Hrec Hg Hp; [by eapply Hpast|].
    rewrite Hother in Hp by done. by eapply Hol.
  - intros [[[r' b'] g] n] p Hp. destruct (decide ((r', b') = (r, b))) as [[= -> ->]|Hne].
    + destruct (decide (g = rc_generation rc)) as [->|Hg].
      * apply Hnow in Hp as (_ & -> & ->). done.
      * apply Hpast in Hp as (_ & ? & ?); done.
    + rewrite Hother in Hp by done. by eapply Hcl.
  - intros r' b' rc' n p [[= -> -> ->]|[Hne H']]%Hrec Hp Hs.
    + rewrite Ht. apply Hnow in Hp as (? & _). by rewrite (proj2 (Z.eqb_neq _ _)) by lia.
    + rewrite Hother in Hp by done. by eapply Hop.
  - intros r' b' rc' [[= -> -> ->]|[Hne H']]%Hrec Hn.
    + rewrite Ht in Hn. case_if_in Hn; [done|]. to_props. specialize (Hnew 1).
      rewrite decide_True in Hnew by lia. destruct Hnew as [c Hn1]. by eexists 1, _.
    + destruct (Hco _ _ _ H' Hn) as (n & p & Hp & Hs). exists n, p. by rewrite Hother.
Qed.
End push.

(** ** Workers *)

Definition count_superseded (log : list (branch_target * target_result)) : Z :=
  Z.of_nat (length (filter (λ x, x.2 = TargetSuperseded) log)).

Definition no_failure (log : list (branch_target * target_result)) : Prop :=
  ∀ t, (t, TargetFailed) ∉ log.

(** The locals of a worker account for the results it has received. *)
Definition work_ok (a : page_args) (log : list (branch_target * target_result)) (w : work) : Prop :=
  map fst log ++ wk_waiting w ≡ₚ bp_Targets a ∧ wk_superseded w = count_superseded log ∧
  (wk_errs w = 0%nat → no_failure log).

Definition finished_ok (a : page_args) (log : list (branch_target * target_result)) (n : Z) : Prop :=
  map fst log ≡ₚ bp_Targets a ∧ no_failure log ∧ n = count_superseded log.

Definition worker_ok (w : page_worker) : Prop :=
  match pw_phase w with
  | Reading => pw_log w = []
  | Starting => pw_log w = [] ∧ valid_page (pw_args w) = true
  | Working x => work_ok (pw_args w) (pw_log w) x ∧ valid_page (pw_args w) = true
  | Rereading x => work_ok (pw_args w) (pw_log w) x ∧ wk_waiting x = [] ∧ valid_page (pw_args w) = true
  | Completing n => finished_ok (pw_args w) (pw_log w) n ∧ valid_page (pw_args w) = true
  | Done _ => True
  end.

Lemma count_superseded_app l x :
  count_superseded (l ++ [x]) = count_superseded l + (if decide (x.2 = TargetSuperseded) then 1 else 0).
Proof.
  unfold count_superseded. rewrite filter_app, length_app. cbn. case_decide; cbn; lia.
Qed.

Lemma receive_ok a log w i t r :
  work_ok a log w → wk_waiting w !! i = Some t →
  work_ok a (log ++ [(t, r)]) (receive r (delete i (wk_waiting w)) w).
Proof.
  intros (Hp & Hs & He) Hi. unfold work_ok. rewrite count_superseded_app, map_app, <- app_assoc. cbn.
  assert (Hw : t :: delete i (wk_waiting w) ≡ₚ wk_waiting w) by (symmetry; by apply delete_Permutation).
  split_and!.
  - replace (wk_waiting (receive r _ w)) with (delete i (wk_waiting w)) by by destruct r.
    by rewrite Hw.
  - destruct r; cbn [receive wk_superseded snd]; rewrite Hs; case_decide; try done; lia.
  - intros H0 t' Ht. assert (wk_errs w = 0%nat ∧ r ≠ TargetFailed) as [? ?] by (by destruct r).
    apply elem_of_app in Ht as [Ht|Ht]; [by eapply He|]. apply list_elem_of_singleton in Ht. congruence.
Qed.

Lemma collected_ok a log w :
  work_ok a log w → wk_waiting w = [] → valid_page a = true →
  worker_ok (mkPageWorker a (collected w) log).
Proof.
  intros (Hp & Hs & He) Hw Hv. rewrite Hw, app_nil_r in Hp. unfold collected. case_if; [done|]. to_props.
  cbn. split_and!; [|done]. split_and!; [done| |done]. apply He. lia.
Qed.

Lemma worker_step_ok inst w ev st p st' :
  worker_ok w → worker_step inst (pw_args w) ev (pw_phase w) st = Some (p, st') →
  worker_ok (mkPageWorker (pw_args w) p (logged ev (pw_phase w) (pw_log w))).
Proof.
  intros Hok H. destruct w as [a q log]. cbn [pw_args pw_phase pw_log] in *.
  destruct q as [| |w|w|n|o], ev as [now| |i r|now|]; cbn -[complete_page settled valid_page] in *; try done;
    try (by simplify_eq).
  - case_if_in H; [by simplify_eq|]. to_props. case_match_in H; [|by simplify_eq].
    destruct p0; [by simplify_eq|destruct (settled _ _ _); by simplify_eq..].
  - destruct Hok as [-> Hv]. unfold StartBranchReconciliationPage in H. cbn in H.
    case_if_in H; simplify_eq; [|done]. cbn. split; [|done]. split_and!; [done|done|].
    intros _ t Ht. by apply elem_of_nil in Ht.
  - destruct Hok as [Hok Hv]. destruct (wk_waiting w) eqn:Hw; [|done]. injection H as <- _.
    case_if; [done|by apply collected_ok].
  - destruct Hok as [Hok Hv]. destruct (wk_waiting w !! i) as [t|] eqn:Hi; [|done].
    case_if_in H; [done|]. injection H as <- _. cbn. split; [by apply receive_ok|done].
  - destruct Hok as [Hok Hv]. case_if_in H; [|done]. unfold HeartbeatBranchReconciliationPage in H.
    cbn in H. case_if_in H; injection H as <- _; done.
  - destruct Hok as [(Hp & Hs & He) Hv]. case_if_in H; [|done]. injection H as <- _. done.
  - destruct Hok as (Hok & Hw & Hv). case_match_in H; [|by simplify_eq].
    destruct p0; [injection H as <- _; by apply collected_ok|destruct (settled _ _ _); by simplify_eq..].
  - destruct (complete_page _ _ _ _ _). by simplify_eq.
Qed.

Lemma count_superseded_length l : 0 ≤ count_superseded l ≤ Z.of_nat (length l).
Proof. unfold count_superseded. pose proof (length_filter (λ x, x.2 = TargetSuperseded) l). lia. Qed.

(** No push completes a page. *)
Lemma pushed_uncompleted r b rc now at_ db db' k p p' :
  pushed r b rc now at_ db db' → bd_pages db !! k = Some p → pg_status p = PagePending →
  bd_pages db' !! k = Some p' → pg_status p' ≠ PageCompleted.
Proof.
  intros [Hr Hlt Hnew Ht Hc Hold Hother] Hp Hs Hp'. destruct k as [[[r' b'] g] n].
  destruct (decide ((r', b') = (r, b))) as [[= -> ->]|Hne]; [|rewrite Hother in Hp' by done; congruence].
  destruct (decide (g = rc_generation rc)) as [->|Hg].
  - specialize (Hnew n). case_decide; [destruct Hnew as [c Hnew]|]; rewrite Hnew in Hp'; by simplify_eq.
  - rewrite Hold, Hp in Hp' by done. cbn in Hp'. simplify_eq. case_if; [done|]. by rewrite Hs.
Qed.

(** The page a bookkeeping transaction completes is the worker's own. *)
Lemma completed_page_of inst now a n st db' k p p' :
  pd_db (complete_page inst now a n st).2 = db' →
  bd_pages (pd_db st) !! k = Some p → pg_status p = PagePending →
  bd_pages db' !! k = Some p' → pg_status p' = PageCompleted →
  k = page_key_of a ∧ pg_superseded_targets p' = wrap32 n.
Proof.
  intros <- Hp Hs Hp' Hs'. pose proof (complete_page_spec inst now a n st) as H.
  destruct (complete_page inst now a n st) as [o st']. cbn in *.
  destruct H as [(_ & rc & q & _ & _ & Hq & _ & Heq)|(_ & _ & [Heq|(_ & _ & Heq)])];
    rewrite Heq, ?finalize_pages in Hp'; [|congruence..].
  cbn in Hp'. rewrite lookup_insert_Some in Hp'. destruct Hp' as [[<- <-]|[_ ?]]; [done|congruence].
Qed.

(** ** Theorems *)

Section theorems.
Context `{R : River} (inst pageSize : Z).

Definition sys_ok (s : pages_sys) : Prop :=
  manifest_ok (ps_db (sy_push s)) ∧ ∀ i w, sy_workers s !! i = Some w → worker_ok w.

Lemma step_sys_ok s s' : sys_ok s → pages_step inst pageSize s s' → sys_ok s'.
Proof.
  intros [Hm Hw] Hstep. destruct Hstep as [h con clock p Hp Hfew|p Hr Hp|i a Ha Hi|i w ev p t Hi Hs];
    split; cbn; try done.
  - destruct (push_pages pageSize con clock h _ _ (mo_bounded _ (mo_wf _ Hm)) Hp Hfew) as [[? ?]|(r & rc & H)].
    + by eapply manifest_tables.
    + by eapply pushed_manifest.
  - by eapply manifest_tables.
  - intros j w. rewrite lookup_insert_Some. intros [[_ <-]|[_ ?]]; [done|by eapply Hw].
  - destruct (worker_tables _ _ _ _ (tables_of s) _ _ Hm Hs) as [->|(now & n & _ & Hc)]; [done|].
    injection Hc as _ <-. by apply (complete_page_ok _ _ _ _ (tables_of s)).
  - intros j v. rewrite lookup_insert_Some. intros [[_ <-]|[_ ?]]; [|by eapply Hw].
    eapply worker_step_ok; [by eapply Hw|done].
Qed.

Lemma reachable_ok s : reachable inst pageSize s → sys_ok s.
Proof.
  intros (s0 & (Hr & Hp & Hw) & Hsteps). assert (Hok : sys_ok s0).
  { split; [|by rewrite Hw]. split; [split|]; rewrite ?Hr, ?Hp; try done.
    intros r b g n p. by rewrite Hp. }
  clear Hr Hp Hw. induction Hsteps; eauto using step_sys_ok.
Qed.

(** C31. A branch reconciliation is marked complete exactly when every page of its
    generation has been completed, in every state that pushes and workers can reach:
    no page is left pending behind a completed push, no completion of the last page is
    lost between concurrent workers, and pages of superseded generations are never
    left pending. *)
Theorem completion_exact s r b rc :
  reachable inst pageSize s → bd_reconciliations (ps_db (sy_push s)) !! (r, b) = Some rc →
  (is_Some (rc_completed_at rc) ↔
   ∀ n, 1 ≤ n ≤ rc_page_count rc →
     ∃ p, bd_pages (ps_db (sy_push s)) !! (r, b, rc_generation rc, n) = Some p ∧
       pg_status p = PageCompleted) ∧
  (∀ g n p, bd_pages (ps_db (sy_push s)) !! (r, b, g, n) = Some p → g ≠ rc_generation rc →
     g < rc_generation rc ∧ pg_status p ≠ PagePending).
Proof.
  intros [[Hwf Hco] _]%reachable_ok Hrc. split.
  - split.
    + intros [t Ht] n Hn. destruct (proj2 (mo_dense _ Hwf _ _ _ n Hrc) Hn) as [p Hp]. exists p.
      split; [done|]. pose proof (mo_current _ Hwf _ _ _ _ _ Hrc Hp).
      destruct (pg_status p) eqn:Hs; [|done|done].
      pose proof (mo_open _ Hwf _ _ _ _ _ Hrc Hp Hs). congruence.
    + intros Hall. destruct (rc_completed_at rc) eqn:Ht; [by eexists|].
      destruct (Hco _ _ _ Hrc Ht) as (n & p & Hp & Hs).
      destruct (Hall n) as (p' & Hp' & Hs'); [|congruence].
      apply (mo_dense _ Hwf _ _ _ n Hrc). by exists p.
  - intros g n p Hp Hg. split; [|by eapply mo_old].
    destruct (mo_bounded _ Hwf _ _ _ _ _ Hp) as (rc' & Hrc' & Hle). rewrite Hrc in Hrc'. simplify_eq. lia.
Qed.

(** A page is completed only by a worker of that page to which every one of its
    targets has returned exactly once and none with an error, and the count of
    superseded targets it records is the number of targets that returned superseded. *)
Theorem page_completed_by_targets s s' k p p' :
  reachable inst pageSize s → pages_step inst pageSize s s' →
  bd_pages (ps_db (sy_push s)) !! k = Some p → pg_status p = PagePending →
  bd_pages (ps_db (sy_push s')) !! k = Some p' → pg_status p' = PageCompleted →
  ∃ i w, sy_workers s !! i = Some w ∧ page_key_of (pw_args w) = k ∧
    map fst (pw_log w) ≡ₚ bp_Targets (pw_args w) ∧ no_failure (pw_log w) ∧
    pg_superseded_targets p' = count_superseded (pw_log w).
Proof.
  intros [Hm Hw]%reachable_ok Hstep Hp Hs Hp' Hs'.
  destruct Hstep as [h con clock q Hq Hfew|q Hr Hq|i a Ha Hi|i w ev q t Hi Hstep]; cbn in Hp'.
  - destruct (push_pages pageSize con clock h _ _ (mo_bounded _ (mo_wf _ Hm)) Hq Hfew)
      as [[_ Heq]|(r & rc & H)]; [congruence|]. by destruct (pushed_uncompleted _ _ _ _ _ _ _ _ _ _ H Hp Hs Hp').
  - congruence.
  - congruence.
  - destruct (worker_tables _ _ _ _ (tables_of s) _ _ Hm Hstep) as [Heq|(now & n & Hph & Hc)];
      [cbn in Heq; congruence|].
    specialize (Hw _ _ Hi). unfold worker_ok in Hw. rewrite Hph in Hw. destruct Hw as [(Hperm & Hnf & ->) Hv].
    injection Hc as _ Ht. apply (f_equal pd_db) in Ht.
    destruct (completed_page_of _ _ _ _ (tables_of s) _ _ _ _ Ht Hp Hs Hp' Hs') as [Hkey Hn].
    exists i, w. split_and!; [done|by rewrite <- Hkey|done|done|]. rewrite Hn. apply wrap32_id.
    pose proof (count_superseded_length (pw_log w)) as Hl.
    apply Permutation_length in Hperm. rewrite length_map in Hperm.
    unfold valid_page, MaxPullRequestBatch in Hv. to_props. lia.
Qed.
End theorems.

(** ** An undisturbed worker *)

Fixpoint worker_run (inst : Z) (a : page_args) (evs : list event) (p : phase) (st : pages_db)
    : option (phase * pages_db) :=
  match evs with
  | [] => Some (p, st)
  | ev :: evs => '(p, st) ← worker_step inst a ev p st; worker_run inst a evs p st
  end.

Lemma worker_run_app inst a evs1 evs2 p st :
  worker_run inst a (evs1 ++ evs2) p st =
  '(p, st) ← worker_run inst a evs1 p st; worker_run inst a evs2 p st.
Proof.
  revert p st. induction evs1 as [|ev evs1 IH]; intros p st; [done|]. cbn.
  destruct (worker_step inst a ev p st) as [[p' st']|]; [apply IH|done].
Qed.

Definition superseded_in (rs : list target_result) : Z :=
  Z.of_nat (length (filter (λ r, r = TargetSuperseded) rs)).

(** Collecting results none of which failed, in order. *)
Lemma collect_run inst a st rs : ∀ targets n,
  Forall (λ t, page_target_ok t = true) targets → length rs = length targets → TargetFailed ∉ rs →
  worker_run inst a (map (Result 0) rs) (Working (mkWork targets n 0 false true)) st =
  Some (Working (mkWork [] (n + superseded_in rs) 0 false true), st).
Proof.
  induction rs as [|r rs IH]; intros [|t targets] n Hok Hl Hf; try done.
  { cbn. by rewrite Z.add_0_r. }
  apply Forall_cons in Hok as [Ht Hok]. apply not_elem_of_cons in Hf as [Hr Hf]. cbn in Hl.
  cbn [map worker_run worker_step wk_waiting lookup list_lookup]. rewrite Ht. cbn [negb andb mbind option_bind].
  change (delete 0%nat (t :: targets)) with targets.
  destruct r; [| |done]; cbn [receive wk_superseded wk_errs wk_manifestChanged wk_beating].
  - rewrite IH by (done || lia). do 4 f_equal.
  - rewrite IH by (done || lia). unfold superseded_in. rewrite filter_cons_True by done.
    cbn [length]. do 4 f_equal. lia.
Qed.

Lemma complete_page_done inst now a n st :
  0 < inst → current (bp_RepoID a) (bp_Branch a) (bp_Generation a) (pd_db st) = true →
  GetBranchReconciliationPage (page_key_of a) (pd_db st) = Some PagePending →
  ∃ st', complete_page inst now a n st = (if 0 <? n then PagePartial else PageSuccess, st').
Proof.
  intros Hi Hcur Hpend. unfold complete_page, LockBranchReconciliationForCompletion. rewrite Hcur. cbn [negb].
  apply fmap_Some in Hpend as (p & Hp & Hs). unfold CompleteBranchReconciliationPage.
  rewrite Hp, <- Hs, bool_decide_true by done. cbn [negb]. unfold RecordSuccessN.
  rewrite (proj2 (Z.leb_gt _ _)) by done. cbn [orb]. rewrite !bool_decide_false by done. cbn [orb].
  rewrite (proj2 (Z.ltb_ge _ _)) by lia. by eexists.
Qed.

(** Completing keeps the reconciliation's generation. *)
Lemma finalize_generation r b g db :
  rc_generation <$> bd_reconciliations (FinalizeBranchReconciliation r b g db) !! (r, b) =
  rc_generation <$> bd_reconciliations db !! (r, b).
Proof.
  unfold FinalizeBranchReconciliation. destruct (bd_reconciliations db !! (r, b)) as [rc|] eqn:Hrc;
    [|by rewrite Hrc]. case_if; [|by rewrite Hrc]. cbn. by rewrite lookup_insert_eq.
Qed.

(** A page job that is not disturbed completes: from a pending page of the current
    generation, a worker whose targets all return without an error ends with the page
    completed and the superseded targets counted, and if no other page is pending the
    reconciliation is complete as well. *)
Theorem page_job_completes inst a st rs t1 t2 t3 t4 t5 :
  manifest_ok (pd_db st) → 0 < inst → valid_page a = true →
  Forall (λ t, page_target_ok t = true) (bp_Targets a) →
  length rs = length (bp_Targets a) → TargetFailed ∉ rs →
  current (bp_RepoID a) (bp_Branch a) (bp_Generation a) (pd_db st) = true →
  GetBranchReconciliationPage (page_key_of a) (pd_db st) = Some PagePending →
  ∃ st' p rc,
    worker_run inst a (Run t1 :: Run t2 :: map (Result 0) rs ++ [Beat t3; Run t4; Run t5]) Reading st
    = Some (Done (if 0 <? superseded_in rs then PagePartial else PageSuccess), st') ∧
    bd_pages (pd_db st') !! page_key_of a = Some p ∧ pg_status p = PageCompleted ∧
    pg_completed_at p = Some t5 ∧
    bd_reconciliations (pd_db st') !! (bp_RepoID a, bp_Branch a) = Some rc ∧
    rc_generation rc = bp_Generation a ∧
    (rc_completed_at rc = None → has_pending (bp_RepoID a) (bp_Branch a) rc (pd_db st')).
Proof.
  intros Hm Hi Hv Hok Hl Hf Hcur Hpend.
  assert (Hpp : page_pending (page_key_of a) (pd_db st) = true) by (by apply bool_decide_true).
  cbn [worker_run worker_step]. rewrite Hv, Hpend. cbn [negb mbind option_bind worker_run worker_step].
  unfold StartBranchReconciliationPage, page_key_of at 1. rewrite Hpp, Hcur. cbn [andb mbind option_bind].
  match goal with |- context [set_track ?k ?t st] => set (st1 := set_track k t st) end.
  rewrite worker_run_app. unfold start_work. rewrite (collect_run inst a st1 rs) by done.
  cbn [mbind option_bind worker_run worker_step wk_beating].
  unfold HeartbeatBranchReconciliationPage, page_key_of at 1.
  change (pd_db st1) with (pd_db st). rewrite Hpp, Hcur. cbn [andb mbind option_bind].
  match goal with |- context [set_track ?k ?t st1] => set (st2 := set_track k t st1) end.
  cbn [worker_step wk_waiting wk_manifestChanged mbind option_bind].
  unfold collected. cbn [wk_errs Z.of_nat Z.ltb Z.compare worker_step mbind option_bind wk_superseded].
  rewrite Z.add_0_l. change (pd_db st) with (pd_db st2) in Hm, Hcur, Hpend. clearbody st2.
  destruct (complete_page_done inst t5 a (superseded_in rs) st2 Hi Hcur Hpend) as [st' Hc].
  pose proof (complete_page_spec inst t5 a (superseded_in rs) st2) as Hs.
  pose proof (complete_page_ok inst t5 a (superseded_in rs) st2 Hm) as [Hwf Hco].
  rewrite Hc in Hs, Hwf, Hco. change (0 <? Z.of_nat 0) with false. cbn [worker_step]. rewrite Hc. cbn [snd mbind option_bind] in *.
  destruct Hs as [(_ & rc & p & Hrc & Hg & Hp & _ & Hdb)|(Hn1 & Hn2 & _)]; [|by case_if].
  pose proof (finalize_generation (bp_RepoID a) (bp_Branch a) (bp_Generation a)) as Hgen.
  specialize (Hgen (set_pages (<[page_key_of a := mkPageRow (pg_target_count p) PageCompleted
    (wrap32 (superseded_in rs)) (pg_created_at p) (Some t5)]> (bd_pages (pd_db st2))) (pd_db st2))).
  rewrite <- Hdb in Hgen. cbn [bd_reconciliations set_pages] in Hgen. rewrite Hrc in Hgen.
  apply fmap_Some in Hgen as (rc' & Hrc' & Hg'). rewrite Hg in Hg'.
  eexists st', _, rc'. split; [done|].
  split; [rewrite Hdb, finalize_pages; apply lookup_insert_eq|].
  split_and!; [done..|]. by apply Hco.
Qed.

(** The repair of a parent that was left incomplete: when every page of the locked
    generation is settled, the retry of a completed page marks it complete. *)
Lemma heal_completes a st rc :
  bd_reconciliations (pd_db st) !! (bp_RepoID a, bp_Branch a) = Some rc →
  rc_generation rc = bp_Generation a → 0 < rc_page_count rc →
  (∀ n, is_Some (bd_pages (pd_db st) !! (bp_RepoID a, bp_Branch a, bp_Generation a, n))
        ↔ 1 ≤ n ≤ rc_page_count rc) →
  (∀ n p, bd_pages (pd_db st) !! (bp_RepoID a, bp_Branch a, bp_Generation a, n) = Some p →
     pg_status p ≠ PagePending ∧ pg_completed_at p ≠ None) →
  ∃ rc', bd_reconciliations (pd_db (healBranchReconciliationCompletion a st))
           !! (bp_RepoID a, bp_Branch a) = Some rc' ∧ is_Some (rc_completed_at rc').
Proof.
  intros Hrc Hg Hc Hd Hp. unfold healBranchReconciliationCompletion, LockBranchReconciliationForCompletion.
  rewrite (proj2 (current_Some _ _ _ _)) by eauto. cbn [pd_db]. rewrite <- Hg in *.
  destruct (rc_completed_at rc) as [t|] eqn:Ht.
  { exists rc. split; [|by rewrite Ht]. by rewrite (finalize_done _ _ _ _ _ Hrc) by by rewrite Ht. }
  rewrite (finalize_due _ _ _ _ Hrc Ht Hc Hd) by (intros n p ?; by eapply Hp).
  eexists. split; [done|]. cbn. destruct (sql_max _) as [t|] eqn:Hmax; [by eexists|].
  destruct (proj2 (Hd 1)) as [p H1]; [lia|]. destruct (Hp _ _ H1) as [_ []].
  apply (sql_max_None _ Hmax). apply list_elem_of_fmap.
  exists ((bp_RepoID a, bp_Branch a, rc_generation rc, 1), p). split; [done|]. apply generation_pages_elem. eauto.
Qed.

(** ** Witnesses *)

#[local] Existing Instances RefRiver.RefRiver RefRiver.RefRiver_laws.

Definition exec_worker `{River} (inst : Z) (i : nat) (ev : event) (s : pages_sys) : option pages_sys :=
  w ← sy_workers s !! i;
  '(p, t) ← worker_step inst (pw_args w) ev (pw_phase w) (tables_of s);
  Some (with_tables t
    (<[i := mkPageWorker (pw_args w) p (logged ev (pw_phase w) (pw_log w))]> (sy_workers s)) s).

Fixpoint exec_events `{River} (inst : Z) (i : nat) (evs : list event) (s : pages_sys) : option pages_sys :=
  match evs with
  | [] => Some s
  | ev :: evs => s ← exec_worker inst i ev s; exec_events inst i evs s
  end.

Lemma exec_worker_step `{River} inst pageSize i ev s s' :
  exec_worker inst i ev s = Some s' → pages_step inst pageSize s s'.
Proof.
  unfold exec_worker. intros (w & Hw & ([p t] & Hs & [= <-])%bind_Some)%bind_Some. by eapply step_worker.
Qed.

Lemma exec_events_steps `{River} inst pageSize i evs : ∀ s s',
  exec_events inst i evs s = Some s' → rtc (pages_step inst pageSize) s s'.
Proof.
  induction evs as [|ev evs IH]; intros s s'; cbn; [by intros [= ->]|].
  intros (s1 & H1 & H2)%bind_Some. eapply rtc_l; [by eapply exec_worker_step|by apply IH].
Qed.

Definition wit_push : push_state :=
  match apply_push (λ _, false) 25 (λ _, (10, 11)) (mkPush sample_hint "guid-1" 9) sample_push_state with
  | Ok p => p
  | Err _ => sample_push_state
  end.

Definition wit_page : page_args :=
  match ps_page_jobs wit_push with a :: _ => a | [] => mkPage 0 "" "" 0 0 [] end.

Definition wit_start : pages_sys :=
  mkPagesSys wit_push ∅ ∅ {[0%nat := mkPageWorker wit_page Reading []]}.

Definition wit_events : list event :=
  [Run 20; Run 21; Result 1 TargetDone; Result 0 TargetSuperseded; Run 22].

Definition wit_ready : pages_sys := default wit_start (exec_events 7 0 wit_events wit_start).
Definition wit_done : pages_sys := default wit_ready (exec_worker 7 0 (Run 23) wit_ready).

Lemma wit_reachable : reachable 7 25 wit_ready.
Proof.
  exists (mkPagesSys sample_push_state ∅ ∅ ∅). split; [done|].
  eapply rtc_l; [eapply (step_push _ _ _ (mkPush sample_hint "guid-1" 9) (λ _, false) (λ _, (10, 11)) wit_push);
    [vm_compute; reflexivity|done]|].
  eapply rtc_l; [eapply (step_spawn _ _ _ 0%nat wit_page); [vm_compute; left|done]|].
  apply (exec_events_steps _ _ 0%nat wit_events). vm_compute. reflexivity.
Qed.

Lemma wit_step : pages_step 7 25 wit_ready wit_done.
Proof. apply (exec_worker_step _ _ 0%nat (Run 23)). vm_compute. reflexivity. Qed.

Lemma completion_exact_witness :
  ∃ rc, bd_reconciliations (ps_db (sy_push wit_done)) !! (4, "main") = Some rc ∧
    rc_completed_at rc = Some 23 ∧ rc_page_count rc = 1 ∧
    ∃ p, bd_pages (ps_db (sy_push wit_done)) !! (4, "main", rc_generation rc, 1) = Some p ∧
      pg_status p = PageCompleted.
Proof.
  eexists. split; [vm_compute; reflexivity|]. split; [reflexivity|]. split; [reflexivity|].
  eapply (completion_exact 7 25 wit_done 4 "main").
  - destruct wit_reachable as (s0 & H0 & Hs). exists s0. split; [done|].
    eapply rtc_r; [exact Hs|exact wit_step].
  - vm_compute. reflexivity.
  - eexists. reflexivity.
  - cbn. lia.
Defined.

Lemma page_completed_by_targets_witness :
  ∃ i w, sy_workers wit_ready !! i = Some w ∧ page_key_of (pw_args w) = (4, "main", 1, 1) ∧
    map fst (pw_log w) ≡ₚ bp_Targets (pw_args w) ∧ no_failure (pw_log w) ∧
    1 = count_superseded (pw_log w).
Proof.
  eapply (page_completed_by_targets 7 25 wit_ready wit_done (4, "main", 1, 1) _
    (mkPageRow 2 PageCompleted 1 11 (Some 23))).
  - exact wit_reachable.
  - exact wit_step.
  - vm_compute. reflexivity.
  - reflexivity.
  - vm_compute. reflexivity.
  - reflexivity.
Defined.

Lemma page_job_completes_witness :
  ∃ st' p rc,
    worker_run 7 wit_page (Run 20 :: Run 21 :: map (Result 0) [TargetDone; TargetSuperseded]
                             ++ [Beat 22; Run 23; Run 24]) Reading (mkPagesDb (ps_db wit_push) ∅ ∅)
    = Some (Done PagePartial, st') ∧
    bd_pages (pd_db st') !! page_key_of wit_page = Some p ∧ pg_status p = PageCompleted ∧
    pg_completed_at p = Some 24 ∧
    bd_reconciliations (pd_db st') !! (bp_RepoID wit_page, bp_Branch wit_page) = Some rc ∧
    rc_generation rc = bp_Generation wit_page ∧
    (rc_completed_at rc = None → has_pending (bp_RepoID wit_page) (bp_Branch wit_page) rc (pd_db st')).
Proof.
  apply (page_job_completes 7 wit_page (mkPagesDb (ps_db wit_push) ∅ ∅) [TargetDone; TargetSuperseded]).
  - apply (reachable_ok 7 25 (mkPagesSys wit_push ∅ ∅ ∅)).
    exists (mkPagesSys sample_push_state ∅ ∅ ∅). split; [done|].
    apply rtc_once, (step_push _ _ (mkPagesSys sample_push_state ∅ ∅ ∅) (mkPush sample_hint "guid-1" 9)
      (λ _, false) (λ _, (10, 11)) wit_push); [vm_compute; reflexivity|done].
  - lia.
  - vm_compute. reflexivity.
  - repeat constructor.
  - vm_compute. reflexivity.
  - set_solver.
  - vm_compute. reflexivity.
  - vm_compute. reflexivity.
Defined.
