(* ===== verification/ChangeInputs.v ===== *)
(** * Change inputs

    [internal/changeinputs/source.go], [changeinputs.go] and
    [internal/store/codeowners.go]: the CODEOWNERS source of a base commit, and the
    snapshot of changed files and owners attached to one pull-request observation.

    [SourceResolver] is a cache shared by the workers: [resolve_locked] and
    [finish_fetch] are its two critical sections, on a heap of entries that the map
    points to, and [resolver_step] interleaves any number of callers.
    [resolver_sound] says that every caller gets the effective source of the commit it
    asked for, that a key is fetched by one caller at a time, and that a waiting
    caller is always waiting for a fetch in flight.

    [hydrateFromMirror] builds the snapshot. [hydrated_snapshot_valid] says that the
    writer's validation accepts it.

    SHA-256 and the Unicode tables are arguments, as in the other files. *)

From Stdlib Require Import ZArith Lia Bool String Ascii.
From stdpp Require Import sorting strings gmap sets numbers base list.
From S2P Require Import Prelude GoStrings Codeowners EntityWriter Writers PullRequests GitHub.

Local Open Scope Z_scope.

(** ** Source records *)

(** [store.CodeownersSourceRecord]. *)
Record CodeownersSourceRecord : Type := mkSourceRecord {
  co_Ref : string;
  co_SHA : string;
  co_Path : string;
  co_State : string;
  co_Content : string;
  co_Hash : string;
  co_ETag : string
}.

Definition no_source : CodeownersSource := mkSource "" "" "" "" "".

Definition sourceFromRecord (r : CodeownersSourceRecord) : CodeownersSource :=
  mkSource (co_SHA r) (co_Path r) (co_Content r) (co_State r) (co_ETag r).

Definition codeownersPath (path : string) : bool := bool_decide (path ∈ codeowners_paths).

Section resolver.
(** The lowercase hexadecimal SHA-256 of a string. *)
Context (sha256_hex : string → string).

Definition sourceHash (s : CodeownersSource) : string :=
  sha256_hex (cs_State s +:+ nul +:+ cs_Path s +:+ nul +:+ cs_Content s).

Definition validPriorRecord (r : CodeownersSourceRecord) (ref : string) : bool :=
  if negb (bool_decide (co_Ref r = ref)) || bool_decide (co_SHA r = "") then false
  else if bool_decide (co_Hash r = "") || negb (bool_decide (co_Hash r = sourceHash (sourceFromRecord r)))
  then false
  else if bool_decide (co_State r = CodeownersPresent) then codeownersPath (co_Path r)
  else if bool_decide (co_State r = CodeownersOversized) then
    codeownersPath (co_Path r) && bool_decide (co_Content r = "")
  else if bool_decide (co_State r = CodeownersMissing) then
    bool_decide (co_Path r = "") && bool_decide (co_Content r = "")
  else false.

Definition validSourceRecord (r : CodeownersSourceRecord) (ref sha : string) : bool :=
  bool_decide (co_Ref r = ref) && bool_decide (co_SHA r = sha) && validPriorRecord r ref.

(** ** The resolver *)

Abbreviation sourceKey := (Z * string)%type.

Record sourceEntry : Type := mkEntry {
  se_sha : string;
  se_source : CodeownersSource;
  se_fetching : bool;
  se_ready : option nat;
  se_lastUsed : Z
}.

(** The map points to entries in a heap; channels are numbered as they are made. *)
Record resolver : Type := mkResolver {
  rs_entries : gmap sourceKey nat;
  rs_heap : gmap nat sourceEntry;
  rs_clock : Z;
  rs_fresh : nat;
  rs_closed : gset nat
}.

Definition maxSourceEntries : Z := 1024.

(** One call: the repository, the branch name, the commit and the mirrored record. *)
Record source_request : Type := mkSourceRequest {
  sq_repo : Z;
  sq_ref : string;
  sq_sha : string;
  sq_mirrored : option CodeownersSourceRecord
}.

Definition request_source_key (q : source_request) : sourceKey :=
  (sq_repo q, if bool_decide (sq_ref q = "") then sq_sha q else sq_ref q).

(** The oldest entry that is not being fetched. *)
Definition oldest (st : resolver) : option (sourceKey * Z) :=
  foldl (λ best '(k, ptr),
    match rs_heap st !! ptr with
    | Some e =>
        if se_fetching e then best
        else match best with
             | Some (_, used) => if used <=? se_lastUsed e then best else Some (k, se_lastUsed e)
             | None => Some (k, se_lastUsed e)
             end
    | None => best
    end) None (map_to_list (rs_entries st)).

Definition evictLocked (st : resolver) : resolver :=
  if Z.of_nat (size (rs_entries st)) <? maxSourceEntries then st
  else match oldest st with
       | Some (k, _) =>
           mkResolver (delete k (rs_entries st)) (rs_heap st) (rs_clock st) (rs_fresh st) (rs_closed st)
       | None => st
       end.

Definition set_entry (ptr : nat) (e : sourceEntry) (st : resolver) : resolver :=
  mkResolver (rs_entries st) (<[ptr := e]> (rs_heap st)) (rs_clock st) (rs_fresh st) (rs_closed st).

(** The entry of a key, made when there is none. *)
Definition entry_of (k : sourceKey) (st : resolver) : nat * resolver :=
  match rs_entries st !! k with
  | Some ptr => (ptr, st)
  | None =>
      let st := evictLocked st in
      let ptr := rs_fresh st in
      (ptr, mkResolver (<[k := ptr]> (rs_entries st))
              (<[ptr := mkEntry "" no_source false None 0]> (rs_heap st)) (rs_clock st) (S ptr)
              (rs_closed st))
  end.

(** How a pass through the first critical section ends: wait on a channel, return a
    source, or fetch with a prior source. *)
Inductive section_end : Type :=
  | WaitOn (ch : nat)
  | Return (s : CodeownersSource)
  | Fetch (ptr : nat) (prior : option CodeownersSource).

Definition prior_of (q : source_request) (e : sourceEntry) : CodeownersSource :=
  if bool_decide (cs_State (se_source e) = "") then
    match sq_mirrored q with
    | Some r => if validPriorRecord r (sq_ref q) then sourceFromRecord r else se_source e
    | None => se_source e
    end
  else se_source e.

Definition mirrored_source (q : source_request) : option CodeownersSource :=
  r ← sq_mirrored q;
  if validSourceRecord r (sq_ref q) (sq_sha q) then Some (sourceFromRecord r) else None.

Definition resolve_locked (q : source_request) (st : resolver) : section_end * resolver :=
  let '(ptr, st) := entry_of (request_source_key q) st in
  let e := default (mkEntry "" no_source false None 0) (rs_heap st !! ptr) in
  let clock := (rs_clock st + 1) `mod` 2 ^ 64 in
  let st := mkResolver (rs_entries st) (rs_heap st) clock (rs_fresh st) (rs_closed st) in
  let e := mkEntry (se_sha e) (se_source e) (se_fetching e) (se_ready e) clock in
  if se_fetching e then
    (WaitOn (default 0%nat (se_ready e)), set_entry ptr e st)
  else match mirrored_source q with
  | Some s => (Return s, set_entry ptr (mkEntry (sq_sha q) s false (se_ready e) clock) st)
  | None =>
      if bool_decide (se_sha e = sq_sha q) then (Return (se_source e), set_entry ptr e st)
      else
        let prior := prior_of q e in
        let ch := rs_fresh st in
        (Fetch ptr (if bool_decide (cs_State prior = "") then None else Some prior),
         set_entry ptr (mkEntry (se_sha e) (se_source e) true (Some ch) clock)
           (mkResolver (rs_entries st) (rs_heap st) (rs_clock st) (S ch) (rs_closed st)))
  end.

(** The second critical section, after [FindCodeowners] has returned. *)
Definition finish_fetch (ptr : nat) (sha : string) (r : result source_error CodeownersSource)
    (st : resolver) : resolver :=
  match rs_heap st !! ptr with
  | None => st
  | Some e =>
      let st := set_entry ptr (mkEntry (match r with Ok _ => sha | Err _ => se_sha e end)
                                 (match r with Ok s => s | Err _ => se_source e end) false None
                                 (se_lastUsed e)) st in
      mkResolver (rs_entries st) (rs_heap st) (rs_clock st) (rs_fresh st)
        (match se_ready e with Some ch => {[ch]} ∪ rs_closed st | None => rs_closed st end)
  end.

(** The argument check of [Resolve]. *)
Definition valid_request (q : source_request) (owner repo : string) : bool :=
  negb ((sq_repo q <=? 0) || bool_decide (owner = "") || bool_decide (repo = "")
        || bool_decide (sq_sha q = "")).

(** ** Callers *)

Inductive caller : Type :=
  | Entering (q : source_request)
  | Waiting (q : source_request) (ch : nat)
  | Fetching (q : source_request) (ptr : nat) (prior : option CodeownersSource)
  | Returned (q : source_request) (r : option CodeownersSource).

Definition enter (q : source_request) (s : section_end) : caller :=
  match s with
  | WaitOn ch => Waiting q ch
  | Return s => Returned q (Some s)
  | Fetch ptr prior => Fetching q ptr prior
  end.

(** The contents of the commits of a repository, and their entity tags. *)
Context (tree : Z → string → string → option string) (validator : string → string → Prop).

(** The effective source of a commit. *)
Definition source_at (repo : Z) (sha : string) (s : CodeownersSource) : Prop :=
  source_of s = effective (tree repo sha) codeowners_paths ∧ cs_Ref s = sha ∧ tagged validator s.

(** A mirrored record that passes validation is the source of its commit. *)
Definition mirror_ok (repo : Z) (r : CodeownersSourceRecord) : Prop :=
  validPriorRecord r (co_Ref r) = true → source_at repo (co_SHA r) (sourceFromRecord r).

Definition request_ok (q : source_request) : Prop :=
  sq_sha q ≠ "" ∧ ∀ r, sq_mirrored q = Some r → mirror_ok (sq_repo q) r.

(** The resolver and its callers. A caller gives up with its context while it waits;
    a fetch talks to some server at the commit, and may fail. *)
Inductive resolver_step : resolver * gmap nat caller → resolver * gmap nat caller → Prop :=
  | step_call st cs i q :
      cs !! i = None → request_ok q → resolver_step (st, cs) (st, <[i := Entering q]> cs)
  | step_enter st cs i q s st' :
      cs !! i = Some (Entering q) → resolve_locked q st = (s, st') →
      resolver_step (st, cs) (st', <[i := enter q s]> cs)
  | step_ready st cs i q ch :
      cs !! i = Some (Waiting q ch) → ch ∈ rs_closed st →
      resolver_step (st, cs) (st, <[i := Entering q]> cs)
  | step_cancel st cs i q ch :
      cs !! i = Some (Waiting q ch) → resolver_step (st, cs) (st, <[i := Returned q None]> cs)
  | step_fetched st cs i q ptr prior get r :
      cs !! i = Some (Fetching q ptr prior) →
      content_server (tree (sq_repo q) (sq_sha q)) validator get →
      FindCodeowners get (sq_sha q) prior = r →
      resolver_step (st, cs)
        (finish_fetch ptr (sq_sha q) r st,
         <[i := Returned q (match r with Ok s => Some s | Err _ => None end)]> cs).

Definition fresh_resolver : resolver * gmap nat caller := (mkResolver ∅ ∅ 0 0 ∅, ∅).

(** ** The invariant *)

(** An entry of a repository: new, or the source of the commit it names. *)
Definition entry_ok (repo : Z) (e : sourceEntry) : Prop :=
  (se_sha e = "" ∧ se_source e = no_source) ∨ source_at repo (se_sha e) (se_source e).

(** The heap: entries are found by one key, and carry a channel exactly while they
    are fetched. *)
Record heap_ok (st : resolver) : Prop := {
  ho_bound ptr e : rs_heap st !! ptr = Some e → (ptr < rs_fresh st)%nat;
  ho_closed ch : ch ∈ rs_closed st → (ch < rs_fresh st)%nat;
  ho_entry k ptr : rs_entries st !! k = Some ptr → ∃ e, rs_heap st !! ptr = Some e ∧ entry_ok k.1 e;
  ho_inj k k' ptr : rs_entries st !! k = Some ptr → rs_entries st !! k' = Some ptr → k = k';
  ho_ready ptr e : rs_heap st !! ptr = Some e →
    if se_fetching e then ∃ ch, se_ready e = Some ch ∧ (ch < rs_fresh st)%nat ∧ ch ∉ rs_closed st
    else se_ready e = None;
  ho_chan p p' e e' ch : rs_heap st !! p = Some e → rs_heap st !! p' = Some e' →
    se_ready e = Some ch → se_ready e' = Some ch → p = p'
}.

(** Someone fetches the entry that has channel [ch]. *)
Definition in_flight (st : resolver) (ch : nat) : Prop :=
  ∃ ptr e, rs_heap st !! ptr = Some e ∧ se_fetching e = true ∧ se_ready e = Some ch.

Definition caller_ok (st : resolver) (c : caller) : Prop :=
  match c with
  | Entering q => request_ok q
  | Waiting q ch => request_ok q ∧ (ch ∈ rs_closed st ∨ in_flight st ch)
  | Fetching q ptr prior =>
      sq_sha q ≠ "" ∧
      rs_entries st !! request_source_key q = Some ptr ∧
      (∃ e, rs_heap st !! ptr = Some e ∧ se_fetching e = true) ∧
      (∀ p, prior = Some p → prior_ok (tree (sq_repo q) (sq_sha q)) validator (sq_sha q) p)
  | Returned q (Some s) => source_at (sq_repo q) (sq_sha q) s
  | Returned q None => True
  end.

Definition fetches (ptr : nat) (c : caller) : Prop :=
  match c with Fetching _ p _ => p = ptr | _ => False end.

Record resolver_ok (st : resolver) (cs : gmap nat caller) : Prop := {
  ro_heap : heap_ok st;
  ro_callers i c : cs !! i = Some c → caller_ok st c;
  ro_fetcher ptr e : rs_heap st !! ptr = Some e → se_fetching e = true → ∃ i c, cs !! i = Some c ∧ fetches ptr c;
  ro_single i j ci cj ptr : cs !! i = Some ci → cs !! j = Some cj → fetches ptr ci → fetches ptr cj → i = j
}.

Lemma source_at_prior repo sha sha' p : source_at repo sha' p → prior_ok (tree repo sha) validator sha p.
Proof. intros (He & Hr & Ht). split; [done|]. intros <-. by rewrite Hr. Qed.

(** *** Eviction *)

Lemma oldest_idle st k used :
  oldest st = Some (k, used) →
  ∃ ptr e, rs_entries st !! k = Some ptr ∧ rs_heap st !! ptr = Some e ∧ se_fetching e = false.
Proof.
  unfold oldest.
  assert (Hgen : ∀ l best, (∀ k ptr, (k, ptr) ∈ l → rs_entries st !! k = Some ptr) →
    (∀ k u, best = Some (k, u) → ∃ ptr e, rs_entries st !! k = Some ptr ∧ rs_heap st !! ptr = Some e ∧
       se_fetching e = false) →
    ∀ k u, foldl (λ best '(k, ptr),
      match rs_heap st !! ptr with
      | Some e => if se_fetching e then best
                  else match best with
                       | Some (_, used) => if used <=? se_lastUsed e then best else Some (k, se_lastUsed e)
                       | None => Some (k, se_lastUsed e)
                       end
      | None => best
      end) best l = Some (k, u) →
    ∃ ptr e, rs_entries st !! k = Some ptr ∧ rs_heap st !! ptr = Some e ∧ se_fetching e = false).
  { induction l as [|[k0 ptr0] l IH]; intros best Hl Hb k' u H; cbn in H; [by eapply Hb|].
    eapply IH in H; [done|intros; apply Hl; by right|]. clear IH H. intros k1 u1 H.
    assert (Hin : rs_entries st !! k0 = Some ptr0) by (apply Hl; by left).
    destruct (rs_heap st !! ptr0) as [e|] eqn:He; [|by eapply Hb].
    destruct (se_fetching e) eqn:Hf; [by eapply Hb|].
    destruct best as [[kb ub]|]; [case_if_in H; [by eapply Hb|]|]; simplify_eq; eauto. }
  apply Hgen; [|done]. intros k' ptr. by rewrite elem_of_map_to_list.
Qed.

(** What a critical section keeps for the other callers. *)
Record extends (st st' : resolver) : Prop := {
  ex_heap ptr e : rs_heap st !! ptr = Some e → se_fetching e = true →
    ∃ e', rs_heap st' !! ptr = Some e' ∧ se_fetching e' = true ∧ se_ready e' = se_ready e;
  ex_entries k ptr e : rs_entries st !! k = Some ptr → rs_heap st !! ptr = Some e → se_fetching e = true →
    rs_entries st' !! k = Some ptr;
  ex_closed : rs_closed st ⊆ rs_closed st'
}.

Lemma extends_refl st : extends st st.
Proof. split; eauto. Qed.

Lemma extends_trans st1 st2 st3 : extends st1 st2 → extends st2 st3 → extends st1 st3.
Proof.
  intros [Hh Hen Hc] [Hh' Hen' Hc']. split.
  - intros ptr e He Hf. destruct (Hh _ _ He Hf) as (e2 & He2 & Hf2 & Hr2).
    destruct (Hh' _ _ He2 Hf2) as (e3 & ? & ? & ?). exists e3. split_and!; [done..|congruence].
  - intros k ptr e Hk He Hf. destruct (Hh _ _ He Hf) as (e2 & He2 & Hf2 & _). eauto.
  - set_solver.
Qed.

Lemma caller_ok_extends st st' c : extends st st' → caller_ok st c → caller_ok st' c.
Proof.
  intros [Hh Hen Hc]. destruct c as [q|q ch|q ptr prior|q [s|]]; cbn; try done.
  - intros [Hq [?|(ptr & e & He & Hf & Hr)]]; (split; [done|]); [by left; apply Hc|].
    destruct (Hh _ _ He Hf) as (e' & ? & ? & ?). right. exists ptr, e'. split_and!; congruence.
  - intros (Hs & Hk & (e & He & Hf) & Hp). split; [done|]. split; [by eapply Hen|]. split; [|done].
    destruct (Hh _ _ He Hf) as (e' & ? & ? & ?). eauto.
Qed.

Lemma evict_ok st : heap_ok st → heap_ok (evictLocked st) ∧ extends st (evictLocked st) ∧
  rs_heap (evictLocked st) = rs_heap st ∧ rs_fresh (evictLocked st) = rs_fresh st ∧
  (∀ k, rs_entries st !! k = None → rs_entries (evictLocked st) !! k = None).
Proof.
  intros Hok. unfold evictLocked. case_if; [by auto using extends_refl|].
  destruct (oldest st) as [[k u]|] eqn:Ho; [|by auto using extends_refl].
  apply oldest_idle in Ho as (ptr & e & Hk & He & Hf). destruct Hok as [Hb Hc Hen Hi Hr Hch]. split_and!; try done.
  - split; cbn; try done.
    + intros k' p. rewrite lookup_delete_Some. intros [_ ?]. by apply Hen.
    + intros k1 k2 p. rewrite !lookup_delete_Some. intros [_ ?] [_ ?]. by eapply Hi.
  - split; cbn; [eauto| |done]. intros k' p e' Hk' He' Hf'. rewrite lookup_delete_ne; [done|].
    intros ->. congruence.
  - intros k' Hk'. cbn. rewrite lookup_delete_None. by right.
Qed.

Lemma entry_of_ok k st ptr st' :
  heap_ok st → entry_of k st = (ptr, st') →
  heap_ok st' ∧ extends st st' ∧ rs_entries st' !! k = Some ptr ∧
  (∀ p e, rs_heap st' !! p = Some e → se_fetching e = true → rs_heap st !! p = Some e).
Proof.
  intros Hok. unfold entry_of. destruct (rs_entries st !! k) as [p|] eqn:Hk.
  { intros [= <- <-]. auto using extends_refl. }
  destruct (evict_ok st Hok) as (Hok' & Hex & Hheap & Hfr & Hnone).
  intros [= <- <-]. set (st1 := evictLocked st) in *. destruct Hok' as [Hb Hc Hen Hi Hr Hch].
  assert (Hfresh : rs_heap st1 !! rs_fresh st1 = None).
  { destruct (rs_heap st1 !! rs_fresh st1) eqn:E; [|done]. apply Hb in E. lia. }
  split_and!; cbn.
  - split; cbn.
    + intros p e. rewrite lookup_insert_Some. intros [[<- _]|[_ ?%Hb]]; lia.
    + intros ch ?%Hc. lia.
    + intros k' p. rewrite lookup_insert_Some. intros [[<- <-]|[_ Hk']].
      * rewrite lookup_insert_eq. eexists. split; [done|]. by left.
      * destruct (Hen _ _ Hk') as (e & He & ?). exists e. split; [|done].
        rewrite lookup_insert_ne; [done|]. intros <-. apply Hb in He. lia.
    + intros k1 k2 p. rewrite !lookup_insert_Some. intros [[<- <-]|[_ H1]] [[<- H2]|[_ H2]]; try done.
      * destruct (Hen _ _ H2) as (e & He%Hb & _). lia.
      * subst p. destruct (Hen _ _ H1) as (e & He%Hb & _). lia.
      * by eapply Hi.
    + intros p e. rewrite lookup_insert_Some. intros [[_ <-]|[_ He]]; [done|].
      specialize (Hr _ _ He). case_if; [|done]. destruct Hr as (ch & ? & ? & ?). exists ch. split_and!; [done|lia|done].
    + intros p p' e e' ch. rewrite !lookup_insert_Some.
      intros [[_ <-]|[_ ?]] [[_ <-]|[_ ?]] H1 H2; try done. by eapply Hch.
  - eapply extends_trans; [exact Hex|]. split; cbn; [|intros k' p e Hk' _ _|done].
    + intros p e He Hf. exists e. rewrite lookup_insert_ne; [done|]. intros <-. congruence.
    + rewrite lookup_insert_ne; [done|]. intros <-. rewrite Hnone in Hk' by done. done.
  - by rewrite lookup_insert_eq.
  - intros p e. rewrite lookup_insert_Some. intros [[_ <-]|[_ He]] Hf; [done|]. by rewrite Hheap in He.
Qed.

(** *** The critical sections *)

Definition ready_ok (st : resolver) (e : sourceEntry) : Prop :=
  if se_fetching e then ∃ ch, se_ready e = Some ch ∧ (ch < rs_fresh st)%nat ∧ ch ∉ rs_closed st
  else se_ready e = None.

Lemma set_entry_ok k ptr e e0 st :
  heap_ok st → rs_entries st !! k = Some ptr → rs_heap st !! ptr = Some e0 → entry_ok k.1 e → ready_ok st e →
  (∀ ch, se_ready e = Some ch → se_ready e0 = Some ch ∨
     ∀ p' e', rs_heap st !! p' = Some e' → se_ready e' ≠ Some ch) →
  heap_ok (set_entry ptr e st).
Proof.
  intros [Hb Hc Hen Hi Hr Hch] Hk H0 Hok Hrd Hnew. split; cbn.
  - intros p e'. rewrite lookup_insert_Some. intros [[<- _]|[_ ?]]; by eapply Hb.
  - done.
  - intros k' p Hk'. destruct (decide (p = ptr)) as [->|Hne].
    + rewrite (Hi _ _ _ Hk' Hk), lookup_insert_eq. eauto.
    + rewrite lookup_insert_ne by done. by apply Hen.
  - done.
  - intros p e'. rewrite lookup_insert_Some. intros [[_ <-]|[_ ?]]; [done|by eapply Hr].
  - intros p p' e1 e2 ch. rewrite !lookup_insert_Some. intros [[<- <-]|[Hn1 H1]] [[<- <-]|[Hn2 H2]] Hc1 Hc2; [done| | |by eapply Hch].
    + destruct (Hnew _ Hc1) as [?|Hno]; [by eapply (Hch ptr p')|by destruct (Hno _ _ H2)].
    + destruct (Hnew _ Hc2) as [?|Hno]; [by eapply (Hch p ptr)|by destruct (Hno _ _ H1)].
Qed.

Lemma set_entry_extends ptr e e0 st :
  rs_heap st !! ptr = Some e0 → (se_fetching e0 = true → se_fetching e = true ∧ se_ready e = se_ready e0) →
  extends st (set_entry ptr e st).
Proof.
  intros H0 Hf. split; cbn; [|done|done]. intros p e' He' Hf'. destruct (decide (p = ptr)) as [->|Hne].
  - rewrite lookup_insert_eq. exists e. simplify_eq. destruct (Hf Hf'). done.
  - rewrite lookup_insert_ne by done. eauto.
Qed.

(** A change of the clock or of the channel counter. *)
Lemma tick_ok clock fresh st :
  heap_ok st → (rs_fresh st ≤ fresh)%nat →
  let st' := mkResolver (rs_entries st) (rs_heap st) clock fresh (rs_closed st) in
  heap_ok st' ∧ extends st st'.
Proof.
  intros [Hb Hc Hen Hi Hr Hch] Hf. split; [split; cbn; try done|split; cbn; eauto].
  - intros p e ?%Hb. lia.
  - intros ch ?%Hc. lia.
  - intros p e He. specialize (Hr _ _ He). case_if; [|done]. destruct Hr as (ch & ? & ? & ?).
    exists ch. split_and!; [done|lia|done].
Qed.

(** What the first critical section leaves. *)
Record entered (q : source_request) (st : resolver) (s : section_end) (st' : resolver) : Prop := {
  en_heap : heap_ok st';
  en_extends : extends st st';
  en_caller : caller_ok st' (enter q s);
  en_fetching p e : rs_heap st' !! p = Some e → se_fetching e = true →
    (∃ e0, rs_heap st !! p = Some e0 ∧ se_fetching e0 = true) ∨ fetches p (enter q s);
  en_new p : fetches p (enter q s) → ∀ e0, rs_heap st !! p = Some e0 → se_fetching e0 = false
}.

Lemma prior_of_ok q k e p :
  request_ok q → k = request_source_key q → entry_ok k.1 e → p = prior_of q e → cs_State p ≠ "" →
  prior_ok (tree (sq_repo q) (sq_sha q)) validator (sq_sha q) p.
Proof.
  intros [_ Hm] -> He -> Hs. unfold prior_of in *. destruct (bool_decide (cs_State (se_source e) = "")) eqn:E.
  - to_props. destruct (sq_mirrored q) as [r|] eqn:Hq; [|by rewrite E in Hs].
    destruct (validPriorRecord r (sq_ref q)) eqn:Hv; [|by rewrite E in Hs].
    eapply (source_at_prior (sq_repo q)), Hm; [done|].
    assert (co_Ref r = sq_ref q) as -> by (unfold validPriorRecord in Hv; case_if_in Hv; [done|]; by to_props).
    done.
  - destruct He as [[_ Hno]|He]; [by rewrite Hno in Hs|]. by eapply source_at_prior.
Qed.

Lemma resolve_locked_ok q st s st' :
  heap_ok st → request_ok q → resolve_locked q st = (s, st') → entered q st s st'.
Proof.
  intros Hok Hq. unfold resolve_locked.
  destruct (entry_of (request_source_key q) st) as [ptr st1] eqn:Hent.
  destruct (entry_of_ok _ _ _ _ Hok Hent) as (Hok1 & Hex1 & Hk & Hold).
  destruct (ho_entry _ Hok1 _ _ Hk) as (e & He & Heok). rewrite He.
  change (default (mkEntry "" no_source false None 0) (Some e)) with e.
  set (clock := (rs_clock st1 + 1) `mod` 2 ^ 64).
  destruct (tick_ok clock (rs_fresh st1) st1 Hok1 ltac:(lia)) as [Hok2 Hex2].
  set (st2 := mkResolver (rs_entries st1) (rs_heap st1) clock (rs_fresh st1) (rs_closed st1)) in *.
  pose proof (extends_trans _ _ _ Hex1 Hex2) as Hex.
  pose proof (ho_ready _ Hok2 ptr e He) as Hrd. fold (ready_ok st2 e) in Hrd.
  cbn [se_fetching se_ready se_sha se_source].
  assert (Hfrom : ∀ e' p e2, rs_heap (set_entry ptr e' st2) !! p = Some e2 → se_fetching e2 = true →
    (se_fetching e' = true → se_fetching e = true) → ∃ e0, rs_heap st !! p = Some e0 ∧ se_fetching e0 = true).
  { intros e' p e2. cbn. rewrite lookup_insert_Some. intros [[<- <-]|[_ H2]] Hf Hi.
    - exists e. split; [by apply Hold; [|apply Hi]|by apply Hi].
    - exists e2. split; [by apply Hold|done]. }
  destruct (se_fetching e) eqn:Hf.
  { intros Heq. apply pair_equal_spec in Heq as [<- <-]. set (e' := mkEntry _ _ _ _ _).
    assert (Hrd' : ready_ok st2 e') by (unfold ready_ok in *; cbn; by rewrite Hf in Hrd).
    assert (Hok3 : heap_ok (set_entry ptr e' st2)) by (eapply set_entry_ok; eauto).
    split; [done| | | |done].
    - eapply extends_trans; [exact Hex|]. by eapply set_entry_extends.
    - cbn. split; [done|]. right. unfold ready_ok in Hrd. rewrite Hf in Hrd. destruct Hrd as (ch & Hch & _).
      exists ptr, e'. cbn. rewrite lookup_insert_eq. split_and!; [done..|]. by rewrite Hch.
    - intros p e2 H2 Hf2. left. by eapply Hfrom. }
  assert (Hnr : se_ready e = None) by (unfold ready_ok in Hrd; by rewrite Hf in Hrd).
  destruct (mirrored_source q) as [src|] eqn:Hmir.
  { intros Heq. apply pair_equal_spec in Heq as [<- <-]. set (e' := mkEntry _ _ _ _ _).
    assert (Hsrc : source_at (sq_repo q) (sq_sha q) src).
    { unfold mirrored_source in Hmir. apply bind_Some in Hmir as (r & Hr & Hmir). case_if_in Hmir; [|done].
      unfold validSourceRecord in E. to_props. simplify_eq. destruct Hq as [_ Hm].
      rewrite <- H1. apply Hm; [done|]. by rewrite H. }
    split; [eapply set_entry_ok; [done|exact Hk|done|by right|done|eauto]| |done| |done].
    - eapply extends_trans; [exact Hex|]. eapply set_entry_extends; [done|]. by rewrite Hf.
    - intros p e2 H2 Hf2. left. by eapply Hfrom. }
  case_bool_decide as Hsha.
  { intros Heq. apply pair_equal_spec in Heq as [<- <-]. set (e' := mkEntry _ _ _ _ _).
    split; [eapply set_entry_ok; eauto| | | |done].
    - eapply extends_trans; [exact Hex|]. eapply set_entry_extends; [done|]. by rewrite Hf.
    - cbn. destruct Heok as [[He0 _]|Hs]; [by destruct Hq; congruence|]. by rewrite <- Hsha.
    - intros p e2 H2 Hf2. left. by eapply Hfrom. }
  intros Heq. apply pair_equal_spec in Heq as [<- <-]. set (e' := mkEntry _ _ true (Some _) _). set (ch := rs_fresh st1).
  destruct (tick_ok clock (S ch) st2 Hok2 ltac:(cbn; unfold ch; lia)) as [Hok3 Hex3].
  set (st3 := mkResolver (rs_entries st2) (rs_heap st2) clock (S ch) (rs_closed st2)) in *.
  assert (Hch : ready_ok st3 e').
  { unfold ready_ok, e'. cbn. exists ch. split_and!; [done|lia|]. intros Hin%(ho_closed _ Hok2).
    unfold ch in Hin. cbn in Hin. lia. }
  split.
  - eapply set_entry_ok; [done..|]. intros c [= <-]. right. intros p' e2 H2 Hr2.
    pose proof (ho_ready _ Hok2 _ _ H2) as Hrd2. destruct (se_fetching e2); [|congruence].
    destruct Hrd2 as (c2 & Hc2 & Hlt & _). rewrite Hr2 in Hc2. simplify_eq. cbn in Hlt. lia.
  - eapply extends_trans; [exact Hex|]. eapply extends_trans; [exact Hex3|].
    eapply set_entry_extends; [done|]. by rewrite Hf.
  - cbn. split; [apply Hq|]. split; [done|]. split; [exists e'; by rewrite lookup_insert_eq|].
    intros p. case_bool_decide; intros [= <-]. eapply (prior_of_ok q); try done.
  - intros p e2 H2 Hf2. cbn in H2. rewrite lookup_insert_Some in H2. destruct H2 as [[<- _]|[_ H2]]; [by right|].
    left. exists e2. split; [by apply Hold|done].
  - intros p. cbn. intros <- e0 H0. destruct (se_fetching e0) eqn:E0; [|done].
    destruct (ex_heap _ _ Hex _ _ H0 E0) as (e2 & H2 & ? & _). cbn in H2. rewrite He in H2. congruence.
Qed.

(** Replacing a caller that fetches nothing by another, with a state that extends. *)
Lemma step_caller st st' cs i c c' :
  resolver_ok st cs → cs !! i = Some c ∨ cs !! i = None → (∀ ptr, cs !! i = Some c → ¬ fetches ptr c) →
  heap_ok st' → extends st st' → caller_ok st' c' →
  (∀ p e, rs_heap st' !! p = Some e → se_fetching e = true →
     (∃ e0, rs_heap st !! p = Some e0 ∧ se_fetching e0 = true) ∨ fetches p c') →
  (∀ p, fetches p c' → ∀ e0, rs_heap st !! p = Some e0 → se_fetching e0 = false) →
  resolver_ok st' (<[i := c']> cs).
Proof.
  intros [Hh Hc Hf Hs] Hi Hnf Hh' Hex Hc' Hfrom Hnew. split; [done| | |].
  - intros j cj. rewrite lookup_insert_Some. intros [[_ <-]|[_ Hj]]; [done|].
    eapply caller_ok_extends; [done|by eapply Hc].
  - intros ptr e He Hfe. destruct (Hfrom _ _ He Hfe) as [(e0 & H0 & Hf0)|Hn].
    + destruct (Hf _ _ H0 Hf0) as (j & cj & Hj & Hfj). exists j, cj. split; [|done].
      rewrite lookup_insert_ne; [done|]. intros ->. destruct Hi as [Hi|Hi]; [|congruence].
      rewrite Hi in Hj. simplify_eq. by eapply Hnf.
    + exists i, c'. by rewrite lookup_insert_eq.
  - assert (Hclash : ∀ j cj ptr, j ≠ i → cs !! j = Some cj → fetches ptr cj → ¬ fetches ptr c').
    { intros j cj ptr Hne Hj Hfj Hfc. destruct cj as [| |q p prior|]; try done. cbn in Hfj. subst p.
      destruct (Hc _ _ Hj) as (_ & _ & (e & He & Hfe) & _). rewrite (Hnew _ Hfc _ He) in Hfe. done. }
    intros j1 j2 c1 c2 ptr. rewrite !lookup_insert_Some.
    intros [[<- <-]|[Hn1 H1]] [[<- <-]|[Hn2 H2]] Hf1 Hf2; [done| | |by eapply Hs].
    + by destruct (Hclash _ _ ptr (not_eq_sym Hn2) H2 Hf2).
    + by destruct (Hclash _ _ ptr (not_eq_sym Hn1) H1 Hf1).
Qed.

(** A caller changes and the resolver does not. *)
Lemma step_idle st cs i c c' :
  resolver_ok st cs → cs !! i = Some c ∨ cs !! i = None → (∀ ptr, cs !! i = Some c → ¬ fetches ptr c) →
  caller_ok st c' → (∀ ptr, ¬ fetches ptr c') → resolver_ok st (<[i := c']> cs).
Proof.
  intros Hok Hi Hnf Hc Hn. eapply step_caller; try done; [apply Hok|apply extends_refl|eauto|].
  intros p ?%Hn. done.
Qed.

(** The second critical section. *)
Lemma finish_ok st cs i q ptr prior get r :
  strong_tags validator → content_server (tree (sq_repo q) (sq_sha q)) validator get →
  resolver_ok st cs → cs !! i = Some (Fetching q ptr prior) → FindCodeowners get (sq_sha q) prior = r →
  resolver_ok (finish_fetch ptr (sq_sha q) r st)
    (<[i := Returned q (match r with Ok s => Some s | Err _ => None end)]> cs).
Proof.
  intros Hstrong Hget [Hh Hc Hf Hs] Hi Hr.
  destruct (Hc _ _ Hi) as (Hsha & Hk & (e & He & Hfe) & Hprior).
  assert (Hres : ∀ s, r = Ok s → source_at (sq_repo q) (sq_sha q) s).
  { intros s ->. destruct (find_codeowners_prior _ _ Hstrong _ Hget _ _ _ Hprior Hr) as (? & ? & ? & _).
    done. }
  pose proof (ho_ready _ Hh _ _ He) as Hrd. rewrite Hfe in Hrd. destruct Hrd as (ch & Hch & Hlt & Hopen).
  unfold finish_fetch. rewrite He, Hch. set (e' := mkEntry _ _ _ _ _).
  assert (He' : entry_ok (request_source_key q).1 e').
  { destruct (ho_entry _ Hh _ _ Hk) as (e0 & H0 & Hok). rewrite He in H0. injection H0 as <-.
    destruct r as [s|err]; [right; by apply Hres|exact Hok]. }
  pose proof (set_entry_ok _ _ e' _ _ Hh Hk He He' eq_refl ltac:(done)) as [Hb1 Hc1 He1 Hi1 Hr1 Hch1].
  assert (Hother : ∀ j cj p, j ≠ i → cs !! j = Some cj → fetches p cj → p ≠ ptr).
  { intros j cj p Hne Hj Hfj ->. destruct Hne. by eapply (Hs j i _ _ ptr). }
  split; cbn [rs_heap rs_entries rs_closed rs_fresh set_entry].
  - split; cbn [rs_heap rs_entries rs_closed rs_fresh set_entry]; try done.
    + intros c [->%elem_of_singleton|?%Hc1]%elem_of_union; done.
    + intros p e1. rewrite lookup_insert_Some. intros [[_ <-]|[Hne H1]]; [done|].
      pose proof (ho_ready _ Hh _ _ H1) as Hrd1. case_if; [|done].
      destruct Hrd1 as (c1 & Hc1' & ? & ?). exists c1. split_and!; [done..|]. intros [->%elem_of_singleton|?]%elem_of_union; [|done].
      destruct Hne. by eapply (ho_chan _ Hh ptr p).
  - intros j cj. rewrite lookup_insert_Some. intros [[_ <-]|[Hne Hj]].
    { destruct r as [s|err]; [by apply Hres|done]. }
    specialize (Hc _ _ Hj). destruct cj as [q'|q' ch'|q' p' prior'|q' [s|]]; cbn in *; try done.
    + destruct Hc as [Hq [?|(p & e1 & H1 & Hf1 & Hr1')]]; (split; [done|]); [left; set_solver|].
      destruct (decide (p = ptr)) as [->|Hp]; [left; simplify_eq; set_solver|].
      right. exists p, e1. cbn. by rewrite lookup_insert_ne.
    + destruct Hc as (? & ? & (e1 & H1 & ?) & ?). split_and!; [done..| |done].
      exists e1. rewrite lookup_insert_ne; [done|]. apply not_eq_sym. by eapply (Hother j).
  - intros p e1. rewrite lookup_insert_Some. intros [[_ <-]|[Hne H1]] Hf1; [done|].
    destruct (Hf _ _ H1 Hf1) as (j & cj & Hj & Hfj). exists j, cj. split; [|done].
    rewrite lookup_insert_ne; [done|]. intros <-. by rewrite Hi in Hj; simplify_eq.
  - intros j1 j2 c1 c2 p. rewrite !lookup_insert_Some.
    intros [[<- <-]|[_ H1]] [[<- <-]|[_ H2]]; try done. by eapply Hs.
Qed.

Lemma resolver_step_ok s s' :
  strong_tags validator → resolver_ok s.1 s.2 → resolver_step s s' → resolver_ok s'.1 s'.2.
Proof.
  intros Hstrong Hok Hstep.
  destruct Hstep as [st cs i q Hi Hq|st cs i q s st' Hi Hs|st cs i q ch Hi Hch|st cs i q ch Hi|
    st cs i q ptr prior get r Hi Hget Hr]; cbn [fst snd] in *.
  - eapply (step_idle _ _ _ (Entering q)); eauto.
  - pose proof (ro_callers _ _ Hok _ _ Hi) as Hq. cbn in Hq.
    destruct (resolve_locked_ok _ _ _ _ (ro_heap _ _ Hok) Hq Hs).
    eapply (step_caller st st' cs i (Entering q)); eauto.
  - eapply (step_idle _ _ _ (Waiting q ch)); eauto. by apply (ro_callers _ _ Hok _ _ Hi).
  - eapply (step_idle _ _ _ (Waiting q ch)); eauto. done.
  - by eapply finish_ok.
Qed.

Lemma resolver_reachable s :
  strong_tags validator → rtc resolver_step fresh_resolver s → resolver_ok s.1 s.2.
Proof.
  intros Hstrong Hsteps. assert (H0 : resolver_ok fresh_resolver.1 fresh_resolver.2)
    by (split; [split|..]; cbn; intros *; rewrite ?lookup_empty; done).
  induction Hsteps; eauto using resolver_step_ok.
Qed.

End resolver.

(** ** Owner identities *)

Record owner_identity : Type := mkIdentity {
  oi_githubID : Z;
  oi_nodeID : string;
  oi_login : string
}.

Definition identity_key (kind login : string) : string := kind +:+ nul +:+ GoStrings.ToLower login.

(** The name an owner is looked up by; [None] for one that is not looked up. *)
Definition owner_lookup (repositoryOwner : string) (o : FileOwnerRecord) : option string :=
  if bool_decide (fo_OwnerType o = "user") then Some (fo_OwnerName o)
  else if bool_decide (fo_OwnerType o = "team") then
    match Cut (fo_OwnerName o) "/" with
    | Some (org, team) => if EqualFold org repositoryOwner then Some team else None
    | None => None
    end
  else None.

Definition set_resolution (state : string) (i : owner_identity) (o : FileOwnerRecord) : FileOwnerRecord :=
  mkOwner (fo_Path o) (fo_OwnerToken o) (fo_OwnerType o) (fo_OwnerName o) state (oi_githubID i) (oi_nodeID i)
    (oi_login i) (fo_SourcePattern o) (fo_SourceLine o).

Definition own_identity (o : FileOwnerRecord) : owner_identity :=
  mkIdentity (fo_OwnerGitHubID o) (fo_OwnerNodeID o) (fo_OwnerLogin o).

Definition resolve_owner (known : gmap string owner_identity) (repositoryOwner : string)
    (o : FileOwnerRecord) : FileOwnerRecord :=
  match owner_lookup repositoryOwner o ≫= λ name, known !! identity_key (fo_OwnerType o) name with
  | Some i => set_resolution "resolved" i o
  | None => o
  end.

(** A row of [ListCodeOwnerIdentities]. *)
Record identity_row : Type := mkIdentityRow {
  ir_owner_type : string;
  ir_owner_gh_id : Z;
  ir_owner_node_id : string;
  ir_owner_login : string
}.

(** [ResolveFileOwnerIdentities], given the rows of the repository. *)
Definition ResolveFileOwnerIdentities (rows : list identity_row) (repositoryOwner : string)
    (owners : list FileOwnerRecord) : list FileOwnerRecord :=
  let known := foldl (λ m r,
      <[identity_key (ir_owner_type r) (ir_owner_login r) :=
          mkIdentity (ir_owner_gh_id r) (ir_owner_node_id r) (ir_owner_login r)]> m) ∅ rows in
  map (λ o, resolve_owner known repositoryOwner (set_resolution "unresolved" (own_identity o) o)) owners.

(** The identities a pull-request node mentions. *)
Definition add_known (kind login : string) (ok : bool) (i : owner_identity)
    (m : gmap string owner_identity) : gmap string owner_identity :=
  if ok then <[identity_key kind login := i]> m else m.

Definition add_reviewer (m : gmap string owner_identity) (r : ReviewRequestNode)
    : gmap string owner_identity :=
  if bool_decide (rv_Typename r = "User") then
    add_known "user" (rv_Login r) (negb (bool_decide (rv_ReviewerID r = "")) && negb (bool_decide (rv_Login r = "")))
      (mkIdentity (rv_DatabaseID r) (rv_ReviewerID r) (rv_Login r)) m
  else if bool_decide (rv_Typename r = "Team") then
    add_known "team" (rv_Slug r) (negb (bool_decide (rv_ReviewerID r = "")) && negb (bool_decide (rv_Slug r = "")))
      (mkIdentity (rv_DatabaseID r) (rv_ReviewerID r) (rv_Slug r)) m
  else m.

Definition add_author (m : gmap string owner_identity) (a : option ActorNode)
    : gmap string owner_identity :=
  match a with
  | Some a =>
      add_known "user" (ac_Login a)
        (bool_decide (ac_Typename a = "User") && negb (bool_decide (ac_ID a = ""))
         && negb (bool_decide (ac_Login a = "")))
        (mkIdentity 0 (ac_ID a) (ac_Login a)) m
  | None => m
  end.

Definition observed_identities (n : PullRequestNode) : gmap string owner_identity :=
  let m := foldl add_reviewer ∅ (cn_Nodes (pn_ReviewRequests n)) in
  let m := foldl (λ m r, add_author m (rv_Author r)) m (cn_Nodes (pn_Reviews n)) in
  foldl (λ m c, add_author m (ic_Author c)) m (cn_Nodes (pn_Comments n)).

Definition resolveObservedIdentities (owners : list FileOwnerRecord) (repositoryOwner : string)
    (n : PullRequestNode) : list FileOwnerRecord :=
  map (λ o, if bool_decide (fo_ResolutionState o = "unresolved")
            then resolve_owner (observed_identities n) repositoryOwner o else o) owners.

(** ** Hydration *)

(** [store.PullRequestChangeFetchMetadata]. *)
Record PullRequestChangeFetchMetadata : Type := mkChangeMetadata {
  cf_ETag : string;
  cf_PreviousPaths : gmap string string
}.

(** The changed files of the node: the files, whether they are incomplete, the total. *)
Definition node_files (n : PullRequestNode) : list ChangedFileRecord * bool * Z :=
  match pn_Files n with
  | None => ([], true, pn_ChangedFiles n)
  | Some f =>
      let files := map (λ x, mkFile (fn_Path x) "" (GoStrings.ToLower (fn_ChangeType x))) (fc_Nodes f) in
      let differs := negb (fc_TotalCount f =? pn_ChangedFiles n) in
      let total := if differs then Z.max (fc_TotalCount f) (pn_ChangedFiles n) else pn_ChangedFiles n in
      let count := Z.of_nat (length files) in
      if total <? count then (files, true, count) else (files, fc_Truncated f || differs, total)
  end.

Definition is_renamed (f : ChangedFileRecord) : bool := bool_decide (fi_ChangeType f = "renamed").

Definition set_previous (renames : gmap string string) (f : ChangedFileRecord) : ChangedFileRecord :=
  if is_renamed f then mkFile (fi_Path f) (default "" (renames !! fi_Path f)) (fi_ChangeType f) else f.

Inductive hydrate_error : Type :=
  | RenamesFailed (e : renames_error)
  | CodeownersFailed (e : source_error)
  | RepositoryMissing
  | FenceFailed
  | CommitsMoved
  | ParentMoved.

(** The rename supplement: the files, whether they are incomplete, the validator. *)
Definition supplement_renames (metadata : PullRequestChangeFetchMetadata)
    (fetch : string → result renames_error (option (gmap string string) * renames_response))
    (files : list ChangedFileRecord) (truncated : bool)
    : result hydrate_error (list ChangedFileRecord * bool * string) :=
  if existsb is_renamed files then
    match fetch (cf_ETag metadata) with
    | Err e => Err (RenamesFailed e)
    | Ok (renames, response) =>
        let renames := if rn_NotModified response then cf_PreviousPaths metadata else default ∅ renames in
        let files := map (set_previous renames) files in
        Ok (files,
            truncated || rn_Truncated response
            || existsb (λ f, is_renamed f && bool_decide (fi_PreviousPath f = "")) files,
            rn_ETag response)
    end
  else Ok (files, truncated, cf_ETag metadata).

Definition owner_type_name (t : OwnerType) : string :=
  match t with
  | OwnerUser => "user"
  | OwnerTeam => "team"
  | OwnerEmail => "email"
  | OwnerMalformed => "malformed"
  end.

(** The owners of a match, the first of each token. *)
Fixpoint dedupe_tokens (seen : list string) (owners : list Codeowners.Owner)
    : list Codeowners.Owner :=
  match owners with
  | [] => []
  | o :: owners =>
      if bool_decide (Token o ∈ seen) then dedupe_tokens seen owners
      else o :: dedupe_tokens (Token o :: seen) owners
  end.

Definition file_le (a b : ChangedFileRecord) : Prop := string_le (fi_Path a) (fi_Path b).

Definition owner_le (a b : FileOwnerRecord) : Prop :=
  if bool_decide (fo_Path a = fo_Path b) then string_le (fo_OwnerToken a) (fo_OwnerToken b)
  else string_le (fo_Path a) (fo_Path b).

#[export] Instance file_le_dec : RelDecision file_le.
Proof. intros a b. unfold file_le. apply _. Defined.
#[export] Instance owner_le_dec : RelDecision owner_le.
Proof. intros a b. unfold owner_le. destruct (bool_decide _); apply _. Defined.

Section hydrate.
Context (sha256_hex : string → string).
Context (unicode_letter unicode_digit : Z → bool).

Definition file_owners (rules : list Rule) (f : ChangedFileRecord) : list FileOwnerRecord :=
  match Resolve rules (fi_Path f) with
  | None => []
  | Some m =>
      map (λ o, mkOwner (fi_Path f) (Token o) (owner_type_name (owner_type o)) (Codeowners.Name o) "unresolved" 0 "" ""
                  (m_Pattern m) (m_Line m)) (dedupe_tokens [] (m_Owners m))
  end.

Definition source_owners (s : CodeownersSource) (files : list ChangedFileRecord) : list FileOwnerRecord :=
  if bool_decide (cs_State s = CodeownersPresent) then
    concat (map (file_owners (Parse unicode_letter unicode_digit (cs_Content s))) files)
  else [].

(** The final request for the pull request: an error, a 304, or the resource. *)
Inductive pull_answer : Type :=
  | PullFailed
  | PullUnchanged (etag : string)
  | PullAnswer (pull : PullRequest) (etag : string).

Record PullRequestFence : Type := mkFence { pf_ETag : string; pf_Pull : option PullRequest }.

(** [hydrateFromMirror]. [codeowners] is the source of a non-empty base commit, from
    the resolver or, when it is forced, from [FindCodeowners]; [identities] is [None]
    when the repository is not cached. *)
Definition hydrateFromMirror (metadata : PullRequestChangeFetchMetadata)
    (renames : string → result renames_error (option (gmap string string) * renames_response))
    (codeowners : result source_error CodeownersSource) (identities : option (list identity_row))
    (latest : string → pull_answer) (repositoryOwner : string) (n : PullRequestNode) (pullETag : string)
    : result hydrate_error (PullRequestChangeSnapshotRecord * PullRequestFence) :=
  let '(files, truncated, total) := node_files n in
  '(files, truncated, etag) ← supplement_renames metadata renames files truncated;
  source ← (if bool_decide (pn_BaseRefOID n = "")
            then Ok (mkSource "" "" "" CodeownersUnavailable "")
            else match codeowners with Ok s => Ok s | Err e => Err (CodeownersFailed e) end);
  rows ← match identities with Some rows => Ok rows | None => Err RepositoryMissing end;
  let owners := resolveObservedIdentities
                  (ResolveFileOwnerIdentities rows repositoryOwner (source_owners source files))
                  repositoryOwner n in
  let snapshot :=
    mkSnapshot (pn_BaseRefOID n) (pn_HeadRefOID n) etag total truncated (pn_BaseRefName n) (pn_BaseRefOID n)
      (cs_Path source) (cs_State source) (cs_Content source) (sourceHash sha256_hex source) (cs_ETag source)
      (merge_sort file_le files) (merge_sort owner_le owners) in
  match latest pullETag with
  | PullFailed => Err FenceFailed
  | PullUnchanged e => Ok (snapshot, mkFence e None)
  | PullAnswer pull e =>
      if negb (bool_decide (rl_BaseSHA pull = sn_BaseSHA snapshot))
         || negb (bool_decide (rl_HeadSHA pull = sn_HeadSHA snapshot)) then Err CommitsMoved
      else if negb (default zero_time (rl_UpdatedAt pull) =? pn_UpdatedAt n) then Err ParentMoved
      else Ok (snapshot, mkFence e (Some pull))
  end.
End hydrate.

(** ** The snapshot is valid *)

Lemma check_all_true {X K} `{EqDecision K} (valid : X → bool) (key : X → K) bad dup l : ∀ seen,
  NoDup (map key l) → (∀ x, x ∈ l → valid x = true ∧ key x ∉ seen) → check_all valid key bad dup seen l = Ok tt.
Proof.
  induction l as [|x l IH]; intros seen Hnd Hall; [done|]. cbn. destruct (Hall x) as [Hv Hs]; [by left|].
  unfold require. rewrite Hv. cbn. rewrite bool_decide_false by done. cbn in Hnd. apply NoDup_cons in Hnd as [Hx Hnd].
  apply IH; [done|]. intros y Hy. destruct (Hall y) as [? Hys]; [by right|]. split; [done|].
  rewrite not_elem_of_cons. split; [|done]. intros Heq. apply Hx. rewrite <- Heq.
  by apply (list_elem_of_fmap_2 key).
Qed.

(** What the source of a commit looks like. *)
Definition source_shape (s : CodeownersSource) : Prop :=
  cs_State s = CodeownersPresent ∧ cs_Path s ≠ "" ∨
  cs_State s = CodeownersOversized ∧ cs_Path s ≠ "" ∧ cs_Content s = "" ∨
  cs_State s = CodeownersMissing ∧ cs_Path s = "" ∧ cs_Content s = "".

Lemma effective_shape tree s : source_of s = effective tree codeowners_paths → source_shape s.
Proof.
  assert (Hgen : ∀ paths, "" ∉ paths → source_of s = effective tree paths → source_shape s).
  { induction paths as [|p paths IH]; cbn; intros Hn H.
    - injection H as ? ? ?. right. by right.
    - apply not_elem_of_cons in Hn as [Hp Hn]. destruct (tree p); [|by apply IH].
      case_if_in H; injection H as ? ? ?; [right; left|left]; split_and!; congruence. }
  apply Hgen. set_solver.
Qed.

Lemma shape_valid s base head etag total tr ref hash files owners :
  source_shape s →
  validSource (mkSnapshot base head etag total tr ref base (cs_Path s) (cs_State s) (cs_Content s) hash (cs_ETag s)
    files owners) = true.
Proof.
  intros [[Hs Hp]|[(Hs & Hp & Hc)|(Hs & Hp & Hc)]]; unfold validSource; cbn; rewrite Hs; cbn;
    rewrite ?Hc, ?Hp; cbn; rewrite ?(bool_decide_false (_ = "")) by done; done.
Qed.

(** *** Owners *)

(** What resolution leaves alone. *)
Definition owner_base (o : FileOwnerRecord) : string * string * string * string * Z :=
  (fo_Path o, fo_OwnerToken o, fo_OwnerType o, fo_SourcePattern o, fo_SourceLine o).

Definition known_ok (known : gmap string owner_identity) : Prop :=
  ∀ k i, known !! k = Some i → oi_nodeID i ≠ "" ∧ oi_login i ≠ "".

Lemma resolve_owner_base known org o : owner_base (resolve_owner known org o) = owner_base o.
Proof. unfold resolve_owner. by case_match. Qed.

Lemma resolve_owner_valid known org o :
  known_ok known → validFileOwner o = true → validFileOwner (resolve_owner known org o) = true.
Proof.
  intros Hk Ho. unfold resolve_owner. destruct (_ ≫= _) as [i|] eqn:E; [|done].
  apply bind_Some in E as (name & _ & [Hn Hl]%Hk). unfold validFileOwner in *. to_props. cbn.
  by rewrite H, !bool_decide_false.
Qed.

Lemma rows_known rows :
  Forall (λ r, ir_owner_node_id r ≠ "" ∧ ir_owner_login r ≠ "") rows → ∀ m, known_ok m →
  known_ok (foldl (λ m r, <[identity_key (ir_owner_type r) (ir_owner_login r) :=
              mkIdentity (ir_owner_gh_id r) (ir_owner_node_id r) (ir_owner_login r)]> m) m rows).
Proof.
  induction 1 as [|r rows Hr _ IH]; intros m Hm; [done|]. cbn. apply IH. intros k i.
  rewrite lookup_insert_Some. intros [[_ <-]|[_ ?]]; [done|by eapply Hm].
Qed.

Lemma add_known_ok kind login ok i m :
  known_ok m → (ok = true → oi_nodeID i ≠ "" ∧ oi_login i ≠ "") → known_ok (add_known kind login ok i m).
Proof.
  intros Hm Hi. unfold add_known. case_if; [|done]. intros k j. rewrite lookup_insert_Some.
  intros [[_ <-]|[_ ?]]; [by apply Hi|by eapply Hm].
Qed.

Lemma foldl_known {A} (f : gmap string owner_identity → A → gmap string owner_identity) l : ∀ m,
  (∀ m x, known_ok m → known_ok (f m x)) → known_ok m → known_ok (foldl f m l).
Proof. induction l as [|x l IH]; intros m Hf Hm; [done|]. cbn. by apply IH; [|apply Hf]. Qed.

Lemma add_author_ok m a : known_ok m → known_ok (add_author m a).
Proof. intros Hm. destruct a as [a|]; [|done]. apply add_known_ok; [done|]. intros ?. by to_props. Qed.

Lemma observed_ok n : known_ok (observed_identities n).
Proof.
  unfold observed_identities. do 2 (apply foldl_known; [intros; by apply add_author_ok|]).
  apply foldl_known; [|intros k i; by rewrite lookup_empty].
  intros m r Hm. unfold add_reviewer. case_if; [|case_if; [|done]];
    (apply add_known_ok; [done|]); intros ?; by to_props.
Qed.

Definition unresolved_owner (o : FileOwnerRecord) : Prop :=
  fo_OwnerGitHubID o = 0 ∧ fo_OwnerNodeID o = "" ∧ fo_OwnerLogin o = "" ∧
  is_in (fo_OwnerType o) ["user"; "team"; "email"; "malformed"] = true.

Lemma unresolved_valid o : unresolved_owner o → validFileOwner (set_resolution "unresolved" (own_identity o) o) = true.
Proof. intros (H1 & H2 & H3 & H4). unfold validFileOwner. cbn. by rewrite H1, H2, H3, H4. Qed.

(** Resolution keeps the base of every owner and leaves them valid. *)
Lemma resolved_owners rows org n owners :
  Forall (λ r, ir_owner_node_id r ≠ "" ∧ ir_owner_login r ≠ "") rows → Forall unresolved_owner owners →
  let resolved := resolveObservedIdentities (ResolveFileOwnerIdentities rows org owners) org n in
  map owner_base resolved = map owner_base owners ∧ Forall (λ o, validFileOwner o = true) resolved.
Proof.
  intros Hrows Hun. cbn zeta. unfold resolveObservedIdentities, ResolveFileOwnerIdentities.
  pose proof (rows_known rows Hrows ∅ ltac:(intros k i; by rewrite lookup_empty)) as Hknown.
  set (known := foldl _ ∅ rows) in *. clearbody known. rewrite !map_map. split.
  - apply map_ext_Forall. apply Forall_forall. intros o _. case_bool_decide; by rewrite ?resolve_owner_base.
  - rewrite Forall_map. eapply Forall_impl; [exact Hun|]. intros o Ho.
    assert (Hv : validFileOwner (resolve_owner known org (set_resolution "unresolved" (own_identity o) o)) = true)
      by (apply resolve_owner_valid; [done|by apply unresolved_valid]).
    cbn. case_bool_decide; [|done]. apply resolve_owner_valid; [apply observed_ok|done].
Qed.

Lemma dedupe_tokens_spec owners : ∀ seen,
  NoDup (map Token (dedupe_tokens seen owners)) ∧
  (∀ o, o ∈ dedupe_tokens seen owners → o ∈ owners ∧ Token o ∉ seen) ∧
  (∀ o, o ∈ owners → Token o ∉ seen → ∃ o', o' ∈ dedupe_tokens seen owners ∧ Token o' = Token o).
Proof.
  induction owners as [|x owners IH]; intros seen; cbn.
  { split_and!; [constructor|by intros ? ?%elem_of_nil..]. }
  case_bool_decide as Hx.
  - destruct (IH seen) as (Hnd & Hin & Hall). split_and!; [done| |].
    + intros o [? ?]%Hin. split; [by right|done].
    + intros o [->|Ho]%elem_of_cons Hs; [done|by apply Hall].
  - destruct (IH (Token x :: seen)) as (Hnd & Hin & Hall). cbn. split_and!.
    + constructor; [|done]. intros (o & Heq & Ho)%list_elem_of_fmap. destruct (Hin o Ho) as [_ Hn].
      apply Hn. rewrite Heq. by left.
    + intros o [->|Ho]%elem_of_cons; [split; [by left|done]|]. apply Hin in Ho as [? Hn].
      split; [by right|]. intros ?. apply Hn. by right.
    + intros o [->|Ho]%elem_of_cons Hs; [exists x; split; [by left|done]|].
      destruct (decide (Token o = Token x)) as [Heq|Hne]; [exists x; split; [by left|done]|].
      destruct (Hall o Ho) as (o' & ? & ?); [by rewrite not_elem_of_cons|]. exists o'. split; [by right|done].
Qed.

Lemma resolve_go_elem rules path : ∀ best m,
  resolve_go best rules path = Some m →
  best = Some m ∨ ∃ r, r ∈ rules ∧ m = mkMatch (Pattern r) (Line r) (Owners r).
Proof.
  induction rules as [|r rules IH]; intros best m H; cbn in H; [by left|].
  apply IH in H as [H|(r' & Hr & ->)]; [|right; exists r'; split; [by right|done]].
  case_if_in H; [|by left]. right. exists r. simplify_eq. split; [by left|done].
Qed.

Section owners_of_files.
Context (unicode_letter unicode_digit : Z → bool).

(** The rule a match of a parsed source comes from. *)
Lemma resolve_wf content path m :
  Resolve (Parse unicode_letter unicode_digit content) path = Some m →
  m_Pattern m ≠ "" ∧ 0 < m_Line m ∧ Forall owner_wf (m_Owners m).
Proof.
  intros [?|(r & Hr & ->)]%resolve_go_elem; [done|].
  destruct (parse_lines_wf unicode_letter unicode_digit (source_lines content)) as [Hwf _].
  rewrite Forall_forall in Hwf. apply Hwf in Hr as ([Hl _] & Hp & Ho). cbn. split_and!; [|lia|done].
  intros He. by rewrite He in Hp.
Qed.

Lemma token_nonempty o : owner_wf o → Token o ≠ "".
Proof. intros [Ht _] He. by rewrite He in Ht. Qed.

(** The owners of a file before their identities are resolved. *)
Lemma file_owners_spec content f o :
  o ∈ file_owners (Parse unicode_letter unicode_digit content) f →
  unresolved_owner o ∧ fo_Path o = fi_Path f ∧ fo_OwnerToken o ≠ "" ∧ fo_SourcePattern o ≠ "" ∧
  0 < fo_SourceLine o.
Proof.
  unfold file_owners. destruct (Resolve _ _) as [m|] eqn:Hm; [|by intros ?%elem_of_nil].
  apply resolve_wf in Hm as (Hp & Hl & Ho). intros (w & -> & Hw)%list_elem_of_fmap.
  destruct (dedupe_tokens_spec (m_Owners m) []) as (_ & Hin & _). apply Hin in Hw as [Hw _].
  rewrite Forall_forall in Ho. apply Ho in Hw. cbn. split_and!; try done; [|by apply token_nonempty].
  split_and!; try done. by destruct (owner_type w).
Qed.

Lemma file_owners_tokens rules f : NoDup (map fo_OwnerToken (file_owners rules f)).
Proof.
  unfold file_owners. destruct (Resolve rules (fi_Path f)) as [m|]; [|constructor]. rewrite map_map.
  by destruct (dedupe_tokens_spec (m_Owners m) []) as (Hnd & _).
Qed.

(** One owner per path and token, when the paths are distinct. *)
Lemma concat_owners_NoDup content files :
  NoDup (map fi_Path files) →
  NoDup (map (λ o, (fo_Path o, fo_OwnerToken o))
    (concat (map (file_owners (Parse unicode_letter unicode_digit content)) files))).
Proof.
  induction files as [|f files IH]; cbn; [constructor|]. intros [Hf Hnd]%NoDup_cons.
  rewrite map_app. apply NoDup_app. split_and!; [| |by apply IH].
  - apply (NoDup_fmap_1 snd). change (NoDup (map snd (map (λ o, (fo_Path o, fo_OwnerToken o))
      (file_owners (Parse unicode_letter unicode_digit content) f)))).
    rewrite map_map. apply file_owners_tokens.
  - intros [p t] (o & Ho & Hin)%list_elem_of_fmap (o' & Ho' & Hin')%list_elem_of_fmap. simplify_eq.
    apply list_elem_of_In, in_concat in Hin' as (l & Hl & Hin'). apply in_map_iff in Hl as (f' & <- & Hf').
    apply list_elem_of_In, file_owners_spec in Hin' as (_ & Hp' & _).
    apply file_owners_spec in Hin as (_ & Hp & _). apply Hf.
    assert (fi_Path f = fi_Path f') as -> by congruence.
    apply list_elem_of_In in Hf'. by apply (list_elem_of_fmap_2 fi_Path).
Qed.

Lemma source_owners_spec s files :
  NoDup (map fi_Path files) →
  NoDup (map (λ o, (fo_Path o, fo_OwnerToken o)) (source_owners unicode_letter unicode_digit s files)) ∧
  ∀ o, o ∈ source_owners unicode_letter unicode_digit s files →
    unresolved_owner o ∧ fo_Path o ∈ map fi_Path files ∧ fo_OwnerToken o ≠ "" ∧ fo_SourcePattern o ≠ "" ∧
    0 < fo_SourceLine o.
Proof.
  intros Hnd. unfold source_owners. case_bool_decide; [|split; [constructor|by intros ? ?%elem_of_nil]].
  split; [by apply concat_owners_NoDup|]. intros o Ho.
  apply list_elem_of_In, in_concat in Ho as (l & Hl & Ho). apply in_map_iff in Hl as (f & <- & Hf).
  apply list_elem_of_In, file_owners_spec in Ho as (? & Hp & ? & ? & ?). split_and!; try done.
  rewrite Hp. apply list_elem_of_In in Hf. by apply (list_elem_of_fmap_2 fi_Path).
Qed.
End owners_of_files.

(** Owners with the same bases have the same paths and tokens. *)
Lemma same_bases owners base path token :
  map owner_base owners = map owner_base base →
  (∃ o, o ∈ owners ∧ fo_Path o = path ∧ fo_OwnerToken o = token) ↔
  (∃ o, o ∈ base ∧ fo_Path o = path ∧ fo_OwnerToken o = token).
Proof.
  assert (Hdir : ∀ l l', map owner_base l = map owner_base l' →
    (∃ o, o ∈ l ∧ fo_Path o = path ∧ fo_OwnerToken o = token) →
    (∃ o, o ∈ l' ∧ fo_Path o = path ∧ fo_OwnerToken o = token)).
  { intros l l' Heq (o & Ho & Hp & Ht). apply (list_elem_of_fmap_2 owner_base) in Ho.
    change (owner_base <$> l) with (map owner_base l) in Ho. rewrite Heq in Ho.
    apply list_elem_of_fmap in Ho as (o' & Hb & Ho'). injection Hb as H1 H2 _ _ _. exists o'.
    split_and!; congruence. }
  intros Heq. split; by apply Hdir.
Qed.

Lemma source_owners_elem unicode_letter unicode_digit src files path token :
  (∃ o, o ∈ source_owners unicode_letter unicode_digit src files ∧ fo_Path o = path ∧ fo_OwnerToken o = token) ↔
  cs_State src = CodeownersPresent ∧ ∃ f m w, f ∈ files ∧ fi_Path f = path ∧
    Resolve (Parse unicode_letter unicode_digit (cs_Content src)) path = Some m ∧
    w ∈ m_Owners m ∧ Token w = token.
Proof.
  unfold source_owners. case_bool_decide as Hst; [|split; [by intros (? & ?%elem_of_nil & _)|by intros [? _]]].
  split.
  - intros (o & Ho & Hp & Ht). split; [done|]. apply list_elem_of_In, in_concat in Ho as (l & Hl & Ho).
    apply in_map_iff in Hl as (f & <- & Hf%list_elem_of_In). apply list_elem_of_In in Ho. exists f.
    unfold file_owners in Ho. destruct (Resolve _ (fi_Path f)) as [m|] eqn:Hm; [|by apply elem_of_nil in Ho].
    apply list_elem_of_fmap in Ho as (w & -> & Hw). cbn in Hp, Ht. subst path token.
    apply (dedupe_tokens_spec (m_Owners m) []) in Hw as [Hw _]. exists m, w. done.
  - intros (_ & f & m & w & Hf & <- & Hm & Hw & <-).
    destruct (dedupe_tokens_spec (m_Owners m) []) as (_ & _ & Hall).
    destruct (Hall w Hw) as (w' & Hw' & Ht); [apply not_elem_of_nil|].
    eexists (mkOwner (fi_Path f) (Token w') _ _ _ _ _ _ _ _). split; [|done].
    apply list_elem_of_In, in_concat. eexists. split; [apply in_map, list_elem_of_In, Hf|].
    apply list_elem_of_In. unfold file_owners. rewrite Hm. apply list_elem_of_fmap. by exists w'.
Qed.

(** *** Files *)

Lemma node_files_spec n files truncated total :
  node_files n = (files, truncated, total) → 0 ≤ pn_ChangedFiles n →
  0 ≤ total ∧ Z.of_nat (length files) ≤ total ∧
  files = match pn_Files n with
          | None => []
          | Some f => map (λ x, mkFile (fn_Path x) "" (GoStrings.ToLower (fn_ChangeType x))) (fc_Nodes f)
          end.
Proof.
  unfold node_files. destruct (pn_Files n) as [f|]; [|by intros [= <- <- <-]].
  intros H Hc. destruct (_ <? _) eqn:E in H; simplify_eq; to_props; (split; [|split; [|done]]);
    try lia; case_if; lia.
Qed.

Lemma supplement_spec metadata renames files truncated files' truncated' etag :
  supplement_renames metadata renames files truncated = Ok (files', truncated', etag) →
  map (λ f, (fi_Path f, fi_ChangeType f)) files' = map (λ f, (fi_Path f, fi_ChangeType f)) files ∧
  (truncated' = false → ∀ f, f ∈ files' → is_renamed f = true → fi_PreviousPath f ≠ "").
Proof.
  unfold supplement_renames. case_if.
  - case_match; [|done]. destruct a as [m r]. intros [= <- <- _]. split.
    + rewrite map_map. apply map_ext. intros f. unfold set_previous. by case_if.
    + intros Ht f Hf Hr Hp. apply orb_false_iff in Ht as [_ Ht].
      rewrite <- not_true_iff_false, existsb_exists in Ht. apply Ht. exists f.
      split; [by apply list_elem_of_In|]. rewrite Hr, Hp. done.
  - intros [= -> -> _]. split; [done|]. intros _ f Hf Hr _.
    rewrite <- not_true_iff_false, existsb_exists in E. apply E. exists f. split; [by apply list_elem_of_In|done].
Qed.

(** A node as GitHub describes a pull request: a head commit, distinct paths without a
    null byte, and the six kinds of change. *)
Record node_ok (n : PullRequestNode) : Prop := {
  no_head : pn_HeadRefOID n ≠ "";
  no_count : 0 ≤ pn_ChangedFiles n;
  no_paths f : pn_Files n = Some f → NoDup (map fn_Path (fc_Nodes f));
  no_files f x : pn_Files n = Some f → x ∈ fc_Nodes f →
    fn_Path x ≠ "" ∧ ContainsByte (fn_Path x) "000" = false ∧
    validChangeType (GoStrings.ToLower (fn_ChangeType x)) = true
}.

Lemma owner_key_inj o o' :
  ContainsByte (fo_Path o) "000" = false → ContainsByte (fo_Path o') "000" = false →
  owner_key o = owner_key o' → (fo_Path o, fo_OwnerToken o) = (fo_Path o', fo_OwnerToken o').
Proof.
  intros H1 H2 Heq. unfold owner_key, nul in Heq.
  assert (Hcut : ∀ a b : string, (a ++ String "000" "" ++ b)%string = a +:+ String "000" b) by done.
  rewrite !Hcut in Heq. apply (f_equal (λ s, Cut s "000")) in Heq. rewrite !Cut_app in Heq by done. cbn in Heq. congruence.
Qed.

Section valid.
Context (sha256_hex : string → string) (Hsha : ∀ x, sha256_hex x ≠ "").
Context (unicode_letter unicode_digit : Z → bool).
Context (metadata : PullRequestChangeFetchMetadata).
Context (renames : string → result renames_error (option (gmap string string) * renames_response)).
Context (codeowners : result source_error CodeownersSource) (identities : option (list identity_row)).
Context (latest : string → pull_answer) (org : string) (n : PullRequestNode) (pullETag : string).
Context (s : PullRequestChangeSnapshotRecord) (fence : PullRequestFence).
Context (Hrun : hydrateFromMirror sha256_hex unicode_letter unicode_digit metadata renames codeowners
                  identities latest org n pullETag = Ok (s, fence)).

(** The steps of a successful hydration. *)
Lemma hydrate_run : ∃ files0 truncated0 files source rows,
  node_files n = (files0, truncated0, sn_FilesTotalCount s) ∧
  supplement_renames metadata renames files0 truncated0 = Ok (files, sn_FilesTruncated s, sn_ETag s) ∧
  (if bool_decide (pn_BaseRefOID n = "") then source = mkSource "" "" "" CodeownersUnavailable ""
   else codeowners = Ok source) ∧
  identities = Some rows ∧
  s = mkSnapshot (pn_BaseRefOID n) (pn_HeadRefOID n) (sn_ETag s) (sn_FilesTotalCount s) (sn_FilesTruncated s)
        (pn_BaseRefName n) (pn_BaseRefOID n) (cs_Path source) (cs_State source) (cs_Content source)
        (sourceHash sha256_hex source) (cs_ETag source) (merge_sort file_le files)
        (merge_sort owner_le (resolveObservedIdentities
           (ResolveFileOwnerIdentities rows org (source_owners unicode_letter unicode_digit source files)) org n)) ∧
  (∀ pull, pf_Pull fence = Some pull → rl_BaseSHA pull = pn_BaseRefOID n ∧ rl_HeadSHA pull = pn_HeadRefOID n ∧
     default zero_time (rl_UpdatedAt pull) = pn_UpdatedAt n).
Proof.
  pose proof Hrun as H. unfold hydrateFromMirror in H.
  destruct (node_files n) as [[files0 tr0] total0] eqn:Hfiles.
  apply bind_ok in H as ([[files tr] etag] & Hsup & H).
  apply bind_ok in H as (source & Hsrc & (rows & Hrows & H)%bind_ok).
  destruct identities as [rows'|]; simplify_eq.
  assert (Hsource : if bool_decide (pn_BaseRefOID n = "") then source = mkSource "" "" "" CodeownersUnavailable ""
    else codeowners = Ok source).
  { case_bool_decide; [by simplify_eq|]. destruct codeowners; by simplify_eq. }
  clear Hsrc. exists files0, tr0, files, source, rows. destruct (latest pullETag) as [|e|pull e]; [done| |].
  - injection H as <- <-. by split_and!.
  - case_if_in H; [done|]. case_if_in H; [done|]. injection H as <- <-. split_and!; try done.
    intros p [= <-]. to_props. cbn in *. done.
Qed.

(** The pull request behind the fence is what the last request returned. *)
Lemma hydrated_pull pull : pf_Pull fence = Some pull → ∃ e, latest pullETag = PullAnswer pull e.
Proof.
  pose proof Hrun as H. unfold hydrateFromMirror in H. destruct (node_files n) as [[files0 tr0] total0].
  apply bind_ok in H as ([[files tr] etag] & _ & (source & _ & (rows & _ & H)%bind_ok)%bind_ok).
  destruct (latest pullETag) as [|e|q e]; [done| |].
  - injection H as _ <-. done.
  - case_if_in H; [done|]. case_if_in H; [done|]. injection H as _ <-. intros [= <-]. by exists e.
Qed.

Context (Hnode : node_ok n) (Hshape : ∀ src, codeowners = Ok src → source_shape src).
Context (Hids : ∀ rows, identities = Some rows →
  Forall (λ r, ir_owner_node_id r ≠ "" ∧ ir_owner_login r ≠ "") rows).

(** The files of the node, supplemented. *)
Lemma hydrated_files files0 truncated0 total files truncated etag :
  node_files n = (files0, truncated0, total) →
  supplement_renames metadata renames files0 truncated0 = Ok (files, truncated, etag) →
  0 ≤ total ∧ Z.of_nat (length files) ≤ total ∧ NoDup (map fi_Path files) ∧
  ∀ f, f ∈ files → fi_Path f ≠ "" ∧ ContainsByte (fi_Path f) "000" = false ∧ validChangeType (fi_ChangeType f) = true.
Proof.
  intros Hf Hs. destruct (node_files_spec _ _ _ _ Hf (no_count _ Hnode)) as (Ht & Hl & H0).
  apply supplement_spec in Hs as [Hs _].
  assert (Hlen : length files = length files0) by (apply (f_equal length) in Hs; by rewrite !length_map in Hs).
  assert (Hp : map fi_Path files = map fi_Path files0).
  { apply (f_equal (map fst)) in Hs. by rewrite !map_map in Hs. }
  split_and!; [done|lia| |].
  - rewrite Hp, H0. destruct (pn_Files n) as [c|] eqn:Hc; [|constructor]. rewrite map_map. by apply (no_paths _ Hnode).
  - intros f Hin.
    assert (Hx : (fi_Path f, fi_ChangeType f) ∈ map (λ f, (fi_Path f, fi_ChangeType f)) files0)
      by (rewrite <- Hs; by apply (list_elem_of_fmap_2 (λ f, (fi_Path f, fi_ChangeType f)))).
    rewrite H0 in Hx. destruct (pn_Files n) as [c|] eqn:Hc; [|by apply elem_of_nil in Hx].
    rewrite map_map in Hx. apply list_elem_of_fmap in Hx as (x & [= -> ->] & Hx). by eapply (no_files _ Hnode).
Qed.

(** The head of the validation. *)
Lemma snapshot_fence_ok source :
  s = mkSnapshot (pn_BaseRefOID n) (pn_HeadRefOID n) (sn_ETag s) (sn_FilesTotalCount s) (sn_FilesTruncated s)
        (pn_BaseRefName n) (pn_BaseRefOID n) (cs_Path source) (cs_State source) (cs_Content source)
        (sourceHash sha256_hex source) (cs_ETag source) (sn_Files s) (sn_Owners s) →
  0 ≤ sn_FilesTotalCount s → Z.of_nat (length (sn_Files s)) ≤ sn_FilesTotalCount s →
  negb (bool_decide (sn_HeadSHA s = "")) && bool_decide (sn_HeadSHA s = pn_HeadRefOID n)
  && bool_decide (sn_BaseSHA s = pn_BaseRefOID n) && (0 <=? sn_FilesTotalCount s)
  && (Z.of_nat (length (sn_Files s)) <=? sn_FilesTotalCount s)
  && bool_decide (sn_CodeownersRef s = pn_BaseRefName n) && bool_decide (sn_CodeownersSHA s = pn_BaseRefOID n)
  && negb (bool_decide (sn_CodeownersHash s = "")) = true.
Proof.
  intros Hs Ht Hl.
  assert (sn_HeadSHA s = pn_HeadRefOID n ∧ sn_BaseSHA s = pn_BaseRefOID n ∧
    sn_CodeownersRef s = pn_BaseRefName n ∧ sn_CodeownersSHA s = pn_BaseRefOID n ∧
    sn_CodeownersHash s = sourceHash sha256_hex source) as (-> & -> & -> & -> & ->) by (by rewrite Hs).
  rewrite (proj2 (Z.leb_le _ _) Ht), (proj2 (Z.leb_le _ _) Hl).
  rewrite (bool_decide_false (pn_HeadRefOID n = "")) by apply Hnode.
  rewrite (bool_decide_false (sourceHash sha256_hex source = "")) by apply Hsha.
  by rewrite !bool_decide_true.
Qed.

Lemma source_valid_ok source :
  (if bool_decide (pn_BaseRefOID n = "") then source = mkSource "" "" "" CodeownersUnavailable ""
   else codeowners = Ok source) →
  s = mkSnapshot (pn_BaseRefOID n) (pn_HeadRefOID n) (sn_ETag s) (sn_FilesTotalCount s) (sn_FilesTruncated s)
        (pn_BaseRefName n) (pn_BaseRefOID n) (cs_Path source) (cs_State source) (cs_Content source)
        (sourceHash sha256_hex source) (cs_ETag source) (sn_Files s) (sn_Owners s) →
  validSource s = true.
Proof.
  intros Hsrc ->. case_bool_decide as Hb; [|apply shape_valid; by apply Hshape].
  rewrite Hsrc. unfold validSource. cbn. by rewrite Hb.
Qed.

(** Distinct pairs of path and token have distinct keys. *)
Lemma owner_keys_NoDup owners base :
  NoDup (map (λ o, (fo_Path o, fo_OwnerToken o)) base) → map owner_base owners = map owner_base base →
  (∀ o, o ∈ base → ContainsByte (fo_Path o) "000" = false) → NoDup (map owner_key owners).
Proof.
  intros Hnd Hbase Hnul.
  assert (Hpairs : map (λ o, (fo_Path o, fo_OwnerToken o)) owners = map (λ o, (fo_Path o, fo_OwnerToken o)) base).
  { apply (f_equal (map (λ '(p, t, _, _, _), (p, t)))) in Hbase. by rewrite !map_map in Hbase. }
  assert (Hno : ∀ o, o ∈ owners → ContainsByte (fo_Path o) "000" = false).
  { intros o Ho. assert (Hin : owner_base o ∈ map owner_base base)
      by (rewrite <- Hbase; by apply (list_elem_of_fmap_2 owner_base)).
    apply list_elem_of_fmap in Hin as (b & Hb & Hin). injection Hb as -> _ _ _ _. by apply Hnul. }
  rewrite <- Hpairs in Hnd. clear Hpairs Hbase Hnul base. induction owners as [|o owners IH]; cbn in *; [constructor|].
  apply NoDup_cons in Hnd as [Ho Hnd]. constructor; [|apply IH; [done|intros x Hx; apply Hno; by right]].
  intros (o' & Heq & Hin)%list_elem_of_fmap. apply Ho. apply list_elem_of_fmap. exists o'. split; [|done].
  apply owner_key_inj; [apply Hno; by left|apply Hno; by right|done].
Qed.

(** A hydrated snapshot passes the writer's validation. For a node as GitHub
    describes one, every snapshot that hydration returns is accepted for a record of
    the node's commits, whatever CODEOWNERS contained and whichever identities were
    known; and the pull request behind the returned validator has those commits and
    the node's update time. *)
Lemma hydrated_snapshot_valid p :
  pl_HeadSHA p = pn_HeadRefOID n → pl_BaseSHA p = pn_BaseRefOID n → pl_BaseRef p = pn_BaseRefName n →
  validateSnapshot p s = Ok tt ∧
  (∀ pull, pf_Pull fence = Some pull → rl_BaseSHA pull = pl_BaseSHA p ∧ rl_HeadSHA pull = pl_HeadSHA p ∧
     default zero_time (rl_UpdatedAt pull) = pn_UpdatedAt n).
Proof.
  intros Hhead Hbase Href.
  destruct hydrate_run as (files0 & tr0 & files & source & rows & Hf & Hsup & Hsrc & Hrows & Hs & Hfence).
  rewrite Hhead, Hbase. split; [|done]. specialize (Hids _ Hrows).
  destruct (hydrated_files _ _ _ _ _ _ Hf Hsup) as (Ht & Hl & Hnd & Hgood).
  destruct (source_owners_spec unicode_letter unicode_digit source files Hnd) as [Hond Howner].
  destruct (resolved_owners rows org n (source_owners unicode_letter unicode_digit source files) Hids) as [Hres Hval].
  { apply Forall_forall. intros o Ho. by apply Howner in Ho as (? & _). }
  set (owners := resolveObservedIdentities _ org n) in *. clearbody owners.
  unfold validateSnapshot. rewrite Href, Hhead, Hbase.
  assert (Hfiles : sn_Files s ≡ₚ files) by (rewrite Hs; cbn; apply merge_sort_Permutation).
  assert (Howners : sn_Owners s ≡ₚ owners) by (rewrite Hs; cbn; apply merge_sort_Permutation).
  assert (Hs' : s = mkSnapshot (pn_BaseRefOID n) (pn_HeadRefOID n) (sn_ETag s) (sn_FilesTotalCount s)
    (sn_FilesTruncated s) (pn_BaseRefName n) (pn_BaseRefOID n) (cs_Path source) (cs_State source)
    (cs_Content source) (sourceHash sha256_hex source) (cs_ETag source) (sn_Files s) (sn_Owners s))
    by (rewrite Hs; reflexivity).
  rewrite (snapshot_fence_ok source Hs' Ht) by (by rewrite Hfiles). cbn [require mbind result_bind].
  rewrite (source_valid_ok source Hsrc Hs'). cbn [require mbind result_bind].
  rewrite (check_all_true _ fi_Path).
  2: { rewrite Hfiles. done. }
  2: { intros f Hin. rewrite Hfiles in Hin. apply Hgood in Hin as (Hne & _ & Hty).
       rewrite bool_decide_false, Hty by done. split; [done|]. by apply not_elem_of_nil. }
  cbn [mbind result_bind]. apply check_all_true.
  - rewrite Howners. apply (owner_keys_NoDup _ _ Hond Hres).
    intros o Ho. apply Howner in Ho as (_ & Hp & _). apply list_elem_of_fmap in Hp as (f & -> & Hin). by apply Hgood.
  - intros o Hin. rewrite Howners in Hin. split; [|by apply not_elem_of_nil].
    rewrite Forall_forall in Hval. rewrite (Hval _ Hin), andb_true_r.
    assert (Hb : owner_base o ∈ map owner_base (source_owners unicode_letter unicode_digit source files))
      by (rewrite <- Hres; by apply (list_elem_of_fmap_2 owner_base)).
    apply list_elem_of_fmap in Hb as (b & Hb & Hbin). apply Howner in Hbin as (_ & Hp & Htk & Hpt & Hln).
    injection Hb as -> -> _ -> ->. rewrite (bool_decide_true (fo_Path b ∈ _)) by (by rewrite Hfiles).
    by rewrite !bool_decide_false, (proj2 (Z.ltb_lt _ _)).
Qed.

(** The owners of a hydrated snapshot are those CODEOWNERS gives its files: a path has
    an owner token exactly when the last rule of the base commit's source that matches
    the path names it. *)
Theorem hydrated_owners_exact path token :
  (∃ o, o ∈ sn_Owners s ∧ fo_Path o = path ∧ fo_OwnerToken o = token) ↔
  ∃ src m w, pn_BaseRefOID n ≠ "" ∧ codeowners = Ok src ∧ cs_State src = CodeownersPresent ∧
    path ∈ map fi_Path (sn_Files s) ∧
    Resolve (Parse unicode_letter unicode_digit (cs_Content src)) path = Some m ∧
    w ∈ m_Owners m ∧ Token w = token.
Proof.
  destruct hydrate_run as (files0 & tr0 & files & source & rows & Hf & Hsup & Hsrc & Hrows & Hs & _).
  destruct (hydrated_files _ _ _ _ _ _ Hf Hsup) as (_ & _ & Hnd & _). specialize (Hids _ Hrows).
  destruct (source_owners_spec unicode_letter unicode_digit source files Hnd) as [_ Howner].
  destruct (resolved_owners rows org n (source_owners unicode_letter unicode_digit source files) Hids) as [Hres _].
  { apply Forall_forall. intros o Ho. by apply Howner in Ho as (? & _). }
  set (owners := resolveObservedIdentities _ org n) in *. clearbody owners.
  assert (Hfiles : sn_Files s ≡ₚ files) by (rewrite Hs; cbn; apply merge_sort_Permutation).
  assert (Howners : sn_Owners s ≡ₚ owners) by (rewrite Hs; cbn; apply merge_sort_Permutation).
  assert (Hbase : (∃ o, o ∈ sn_Owners s ∧ fo_Path o = path ∧ fo_OwnerToken o = token) ↔
    ∃ o, o ∈ source_owners unicode_letter unicode_digit source files ∧ fo_Path o = path ∧ fo_OwnerToken o = token).
  { rewrite <- (same_bases owners _ path token Hres). by setoid_rewrite Howners. }
  rewrite Hbase, source_owners_elem. clear Hbase Hres Howner Howners. setoid_rewrite Hfiles.
  case_bool_decide as Hb; split.
  - intros (Hst & _). by rewrite Hsrc in Hst.
  - by intros (src & m & w & ? & _).
  - intros (Hst & f & m & w & Hin & <- & Hm & Hw & Ht). exists source, m, w. split_and!; try done.
    by apply (list_elem_of_fmap_2 fi_Path).
  - intros (src & m & w & _ & Hc & Hst & (f & -> & Hin)%list_elem_of_fmap & Hm & Hw & Ht).
    rewrite Hsrc in Hc. injection Hc as <-. split; [done|]. by exists f, m, w.
Qed.
End valid.

(** ** Witnesses *)

Definition wit_sha (x : string) : string := "h" +:+ x.

Definition wit_request : source_request := mkSourceRequest 1 "main" "c1" None.

Definition wit_entered := resolve_locked wit_sha wit_request fresh_resolver.1.

Definition wit_answer : CodeownersSource := mkSource "c1" "CODEOWNERS" "* @acme" CodeownersPresent "tag-1".

Definition wit_resolved : resolver * gmap nat caller :=
  (finish_fetch 0 "c1" (Ok wit_answer) wit_entered.2, {[0%nat := Returned wit_request (Some wit_answer)]}).

Lemma wit_strong : strong_tags wit_validator.
Proof. by intros e a b [_ ->] [_ ->]. Qed.

Lemma wit_server : content_server wit_tree wit_validator wit_get.
Proof.
  intros path etag. unfold wit_get. destruct (wit_tree path) as [b|] eqn:Hb; [|done].
  assert (b = "* @acme") as -> by (unfold wit_tree in Hb; case_bool_decide; by simplify_eq).
  case_bool_decide as He; eexists; (split; [done|]).
  - subst etag. split; [done|]. split; [done|]. by right.
  - split; [by right|]. vm_compute. reflexivity.
Qed.

Lemma wit_resolver_run :
  rtc (resolver_step wit_sha (λ _ _, wit_tree) wit_validator) fresh_resolver wit_resolved.
Proof.
  eapply rtc_l; [eapply (step_call _ _ _ _ _ 0%nat wit_request); [done|by split]|].
  eapply rtc_l; [eapply (step_enter _ _ _ _ _ 0%nat wit_request wit_entered.1 wit_entered.2);
    [done|vm_compute; reflexivity]|].
  eapply rtc_l; [eapply (step_fetched _ _ _ _ _ 0%nat wit_request 0 None wit_get (Ok wit_answer));
    [done|exact wit_server|vm_compute; reflexivity]|].
  cbn [enter wit_entered]. unfold wit_resolved. rewrite !insert_insert_eq. done.
Qed.


Definition wit_node : PullRequestNode :=
  mkPullNode "PR_1" 11 7 "title" "OPEN" false 50 "" "MERGEABLE" "feature" "h1" "main" "c1" 1 "octocat"
    (mkRepoNode "R_1" 90 "monolith" "acme/monolith" false 40 (Some ("main", "c1")) "acme")
    (Some (mkFiles [mkFileNode "a.go" "MODIFIED"] (mkPageInfo false None) 1 false))
    (mkConnection [mkRequestNode "User" "U_9" 9 "acme" ""] (mkPageInfo false None))
    (mkConnection [] (mkPageInfo false None)) (mkConnection [] (mkPageInfo false None))
    (mkConnection [] (mkPageInfo false None)).

(** A record at given commits. *)
Definition set_commits (head base ref : string) (p : PullRequestRecord) : PullRequestRecord :=
  mkPullRecord (pl_Repository p) (pl_GitHubID p) (pl_NodeID p) (pl_Number p) (pl_Title p) (pl_State p) (pl_Draft p)
    (pl_AuthorLogin p) (pl_HeadRef p) head ref base (pl_ReviewDecision p) (pl_MergeableState p)
    (pl_StackNumber p) (pl_StackPosition p) (pl_StackSummary p) (pl_MembershipKnown p) (pl_GitHubUpdatedAt p)
    (pl_ReviewThreads p) (pl_ThreadsKnown p) (pl_ReviewRequests p) (pl_ReviewRequestsKnown p) (pl_Reviews p)
    (pl_ReviewsKnown p) (pl_Comments p) (pl_CommentsKnown p) (pl_ChangeSnapshot p) (pl_ChangeInputsKnown p)
    (pl_ETag p) (pl_SyncedAt p) (pl_Source p).

Definition wit_hydrate :=
  hydrateFromMirror wit_sha (λ _, false) (λ _, false) (mkChangeMetadata "" ∅) (λ _, Err RenamesOutOfFuel)
    (Ok wit_answer) (Some []) (λ _, PullUnchanged "tag-2") "acme" wit_node "tag-2".

Definition wit_hydrated : PullRequestChangeSnapshotRecord :=
  match wit_hydrate with
  | Ok (s, _) => s
  | Err _ => mkSnapshot "" "" "" 0 false "" "" "" "" "" "" "" [] []
  end.

Lemma wit_node_ok : node_ok wit_node.
Proof.
  split; [done|done| |].
  - intros f [= <-]. repeat constructor. by intros ?%elem_of_nil.
  - intros f x [= <-] ->%list_elem_of_singleton. by vm_compute.
Qed.

Lemma hydrated_snapshot_valid_witness :
  (wit_hydrate = Ok (wit_hydrated, mkFence "tag-2" None) ∧
   map fo_OwnerLogin (sn_Owners wit_hydrated) = ["acme"]) ∧
  validateSnapshot (set_commits "h1" "c1" "main" (wit_pull 1)) wit_hydrated = Ok tt.
Proof.
  split; [vm_compute; split; reflexivity|].
  refine (proj1 (hydrated_snapshot_valid wit_sha _ (λ _, false) (λ _, false) (mkChangeMetadata "" ∅)
    (λ _, Err RenamesOutOfFuel) (Ok wit_answer) (Some []) (λ _, PullUnchanged "tag-2") "acme" wit_node "tag-2"
    wit_hydrated (mkFence "tag-2" None) _ wit_node_ok _ _ _ _ _ _)).
  - by intros x.
  - vm_compute. reflexivity.
  - intros src [= <-]. by left.
  - intros rows [= <-]. constructor.
  - reflexivity.
  - reflexivity.
  - reflexivity.
Defined.
