(* ===== verification/Convert.v ===== *)
(** * From GitHub's answers to records

    [internal/fetch/convert.go] and the pure parts of [handler.go] and
    [coordinator.go]: the records that REST resources and GraphQL nodes become, the
    conditional-fetch metadata of a cached pull request, the reuse of its validator
    ([matchingPullETag]), the fence that hydration returns ([applyPullFence]), and the
    follow-up jobs a write asks for.

    The theorems show that a pull request as GitHub describes one becomes a record the
    writer accepts, that a validator is reused exactly for the representation it was
    stored with, and which refreshes follow a change. *)

From Stdlib Require Import ZArith Lia Bool String Ascii.
From stdpp Require Import sorting strings gmap sets numbers base list.
From S2P Require Import Prelude GoStrings Keys RefreshQueue EntityWriter Derive Writers PullRequests.
From S2P Require Import GitHub ChangeInputs.

Local Open Scope Z_scope.

(** ** Repositories *)

Definition repositoryRecordFromREST (r : Repository) (installationID orgID : Z) : RepositoryRecord :=
  mkRepository installationID orgID (re_ID r) (re_NodeID r) (re_Owner r) (re_Name r) (re_FullName r)
    (re_DefaultBranch r) "" (re_Archived r) (re_UpdatedAt r).

Definition repositoryRecordFromNode (r : RepositoryNode) (installationID orgID : Z) : RepositoryRecord :=
  let '(defaultBranch, defaultHeadSHA) := default ("", "") (rd_DefaultBranchRef r) in
  mkRepository installationID orgID (rd_DatabaseID r) (rd_ID r) (rd_Owner r) (rd_Name r)
    (rd_NameWithOwner r) defaultBranch defaultHeadSHA (rd_IsArchived r) (rd_UpdatedAt r).

(** ** Pull requests over REST *)

Definition stack_summary (s : StackRef) : StackSummaryRecord :=
  mkSummary (sf_ID s) (sf_Number s) (sf_Size s) (sf_Position s) (sf_BaseRef s) (sf_BaseSHA s).

Definition account_request (kind : string) (u : github_account) : ReviewRequestRecord :=
  mkRequest kind (ga_ID u) (ga_NodeID u) (ga_Login u) None.

Definition pullRecordFromREST (repository : RepositoryRecord) (pull : PullRequest) (etag source : string)
    (syncedAt : time) : PullRequestRecord :=
  let users := default [] (rl_RequestedReviewers pull) in
  let teams := default [] (rl_RequestedTeams pull) in
  let requests :=
    map (account_request ReviewRequestUser) (filter (λ u, IsSupportedReviewRequestUser u = true) users)
    ++ map (account_request ReviewRequestTeam) (filter (λ u, IsSupportedReviewRequestTeam u = true) teams) in
  mkPullRecord repository (rl_ID pull) (rl_NodeID pull) (rl_Number pull) (rl_Title pull) (rl_State pull)
    (rl_Draft pull) (rl_User pull) (rl_HeadRef pull) (rl_HeadSHA pull) (rl_BaseRef pull) (rl_BaseSHA pull)
    (rl_ReviewDecision pull) (rl_MergeableState pull)
    (sf_Number <$> rl_Stack pull) (sf_Position <$> rl_Stack pull) (stack_summary <$> rl_Stack pull)
    true (default zero_time (rl_UpdatedAt pull)) [] false requests
    (negb (bool_decide (rl_RequestedReviewers pull = None))
     || negb (bool_decide (rl_RequestedTeams pull = None)))
    [] false [] false None false etag syncedAt source.

(** The list endpoint is discovery input: its review requests are dropped. *)
Definition without_requests (p : PullRequestRecord) : PullRequestRecord :=
  mkPullRecord (pl_Repository p) (pl_GitHubID p) (pl_NodeID p) (pl_Number p) (pl_Title p) (pl_State p)
    (pl_Draft p) (pl_AuthorLogin p) (pl_HeadRef p) (pl_HeadSHA p) (pl_BaseRef p) (pl_BaseSHA p)
    (pl_ReviewDecision p) (pl_MergeableState p) (pl_StackNumber p) (pl_StackPosition p) (pl_StackSummary p)
    (pl_MembershipKnown p) (pl_GitHubUpdatedAt p) (pl_ReviewThreads p) (pl_ThreadsKnown p) [] false
    (pl_Reviews p) (pl_ReviewsKnown p) (pl_Comments p) (pl_CommentsKnown p) (pl_ChangeSnapshot p)
    (pl_ChangeInputsKnown p) (pl_ETag p) (pl_SyncedAt p) (pl_Source p).

Definition pullRecordsFromList (repository : RepositoryRecord) (pulls : list PullRequest)
    (etags : gmap Z string) (source : string) (syncedAt : time) : list PullRequestRecord :=
  map (λ pull, without_requests (pullRecordFromREST repository pull
                 (default "" (etags !! rl_Number pull)) source syncedAt)) pulls.

(** ** Pull requests over GraphQL *)

Definition graphQLDatabaseID (id : option Z) : Z := default 0 id.

Definition actor_kind (typename : string) : string :=
  if bool_decide (typename = "User") then "user"
  else if bool_decide (typename = "Bot") then "bot"
  else if bool_decide (typename = "Mannequin") then "mannequin"
  else if bool_decide (typename = "Organization") then "organization"
  else if bool_decide (typename = "EnterpriseUserAccount") then "enterprise_user_account"
  else "unknown".

Definition actorIdentity (actor : option ActorNode) : string * string * string :=
  match actor with
  | None => ("deleted", "", "")
  | Some a => (actor_kind (ac_Typename a), ac_ID a, ac_Login a)
  end.

(** A requested reviewer as a record, unless it is of another kind or incomplete. *)
Definition reviewer_request (r : ReviewRequestNode) : option ReviewRequestRecord :=
  let kind_login :=
    if bool_decide (rv_Typename r = "User") then Some (ReviewRequestUser, rv_Login r)
    else if bool_decide (rv_Typename r = "Team") then Some (ReviewRequestTeam, rv_Slug r)
    else None in
  match kind_login with
  | None => None
  | Some (kind, login) =>
      if (rv_DatabaseID r <=? 0) || bool_decide (rv_ReviewerID r = "") || bool_decide (login = "")
      then None else Some (mkRequest kind (rv_DatabaseID r) (rv_ReviewerID r) login None)
  end.

Definition review_record (r : PullRequestReviewNode) : PullRequestReviewRecord :=
  let '(kind, nodeID, login) := actorIdentity (rv_Author r) in
  mkReview (graphQLDatabaseID (rv_FullDatabaseID r)) (rv_ID r) kind nodeID login (ToLower (rv_State r))
    (rv_SubmittedAt r) (default "" (rv_Commit r)) (rv_UpdatedAt r).

Definition comment_record (c : IssueCommentNode) : PullRequestCommentRecord :=
  let '(kind, nodeID, login) := actorIdentity (ic_Author c) in
  mkComment (graphQLDatabaseID (ic_FullDatabaseID c)) (ic_ID c) kind nodeID login (ic_CreatedAt c)
    (ic_UpdatedAt c).

Definition review_comment (c : ReviewCommentNode) : ReviewCommentRecord :=
  Writers.mkReviewComment (wc_ID c) (wc_Body c) (wc_UpdatedAt c) (default "" (wc_Author c)).

(** A thread is as new as the newest of its comments and the pull request. *)
Definition thread_record (pullUpdatedAt : time) (t : ReviewThreadNode) : ReviewThreadRecord :=
  mkThreadRecord (th_ID t) (th_IsResolved t) (th_IsOutdated t) (th_Path t) (th_Line t)
    (map review_comment (cn_Nodes (th_Comments t)))
    (foldl (λ u c, if After (wc_UpdatedAt c) u then wc_UpdatedAt c else u) pullUpdatedAt
       (cn_Nodes (th_Comments t))).

(** [store.FetchMetadata]. *)
Record FetchMetadata : Type := mkMetadata {
  me_NodeID : string;
  me_ETag : string;
  me_Title : string;
  me_State : string;
  me_Draft : bool;
  me_AuthorLogin : string;
  me_HeadRef : string;
  me_BaseRef : string;
  me_ReviewDecision : string;
  me_MergeableState : string;
  me_StackNumber : option Z;
  me_StackPosition : option Z;
  me_GitHubUpdatedAt : time;
  me_BaseSHA : string;
  me_HeadSHA : string;
  me_RepoGitHubID : Z;
  me_InstallationID : Z;
  me_RepoFullName : string;
  me_Codeowners : option CodeownersSourceRecord;
  me_ForceCodeownersRefresh : bool
}.

Definition set_etag (etag : string) (m : FetchMetadata) : FetchMetadata :=
  mkMetadata (me_NodeID m) etag (me_Title m) (me_State m) (me_Draft m) (me_AuthorLogin m) (me_HeadRef m)
    (me_BaseRef m) (me_ReviewDecision m) (me_MergeableState m) (me_StackNumber m) (me_StackPosition m)
    (me_GitHubUpdatedAt m) (me_BaseSHA m) (me_HeadSHA m) (me_RepoGitHubID m) (me_InstallationID m)
    (me_RepoFullName m) (me_Codeowners m) (me_ForceCodeownersRefresh m).

(** [pullRecordFromNode]; of the batch item it reads the metadata, the source and the
    start. *)
Definition pullRecordFromNode (n : PullRequestNode) (m : FetchMetadata) (source : string)
    (startedAt : time) (installationID orgID : Z) : PullRequestRecord :=
  mkPullRecord (repositoryRecordFromNode (pn_Repository n) installationID orgID) (pn_DatabaseID n)
    (pn_ID n) (pn_Number n) (pn_Title n) (ToLower (pn_State n)) (pn_IsDraft n) (pn_Author n)
    (pn_HeadRefName n) (pn_HeadRefOID n) (pn_BaseRefName n) (pn_BaseRefOID n) (pn_ReviewDecision n)
    (pn_Mergeable n) (me_StackNumber m) (me_StackPosition m) None false (pn_UpdatedAt n)
    (map (thread_record (pn_UpdatedAt n)) (cn_Nodes (pn_ReviewThreads n))) true
    (omap reviewer_request (cn_Nodes (pn_ReviewRequests n))) true
    (map review_record (cn_Nodes (pn_Reviews n))) true
    (map comment_record (cn_Nodes (pn_Comments n))) true
    None false (me_ETag m) startedAt source.

(** ** Stacks and check runs *)

Definition stack_entry (p : StackPullRequest) : StackEntry :=
  mkStackEntry (sp_Number p) (sp_State p) (sp_Draft p) (sp_MergedAt p) (sp_UpdatedAt p) (sp_HeadRef p)
    (sp_HeadSHA p).

Definition stackRecordFromREST (repository : RepositoryRecord) (s : Stack) (etag source : string)
    (syncedAt : time) : StackRecord :=
  let newest := foldl (λ u p, if After (sp_UpdatedAt p) u then sp_UpdatedAt p else u) (ss_UpdatedAt s)
                  (ss_PullRequests s) in
  mkStackRecord repository (ss_ID s) (ss_NodeID s) (ss_Number s) (ss_BaseRef s) (ss_BaseSHA s) (ss_Open s)
    (map stack_entry (ss_PullRequests s)) (if IsZero newest then ss_CreatedAt s else newest) etag syncedAt
    source.

(** [checkRecordFromREST]; [json_valid] is [json.Valid]. *)
Definition checkRecordFromREST (json_valid : string → bool) (run : CheckRun) : option CheckRunRecord :=
  if json_valid (ck_Raw run) then
    Some (mkRun (ck_ID run) (ck_NodeID run) (ck_Name run) (ck_Status run) (ck_Conclusion run)
            (ck_DetailsURL run) (ck_AppSlug run) (ck_StartedAt run) (ck_CompletedAt run)
            (match ck_CompletedAt run with Some t => Some t | None => ck_StartedAt run end) "" (ck_Raw run))
  else None.

(** ** Metadata of a cached pull request *)

(** The repository behind a name. *)
Definition GetRepoByFullName (fullName : string) (c : cache) : option repo_row :=
  a ← repo_aliases c !! fullName;
  snd <$> list_find (λ r, rp_id r = al_repo_id a) (map snd (map_to_list (repos c))).

Definition repositoryFromRow (r : repo_row) : RepositoryRecord :=
  mkRepository (rp_installation_id r) (rp_org_id r) (rp_gh_id r) (rp_node_id r) (rp_owner r) (rp_name r)
    (rp_full_name r) (rp_default_branch r) (rp_head_sha r) (rp_archived r)
    (default zero_time (rp_gh_updated_at r)).

(** The mirrored source of a snapshot that is at the row's base. *)
Definition mirrored_record (row : pull_full) (s : snapshot_row) : option CodeownersSourceRecord :=
  if bool_decide (nr_tombstoned_at s = None ∧ nr_base_sha s = pf_base_sha row ∧
                  nr_codeowners_ref s = pf_base_ref row ∧ nr_codeowners_sha s = pf_base_sha row)
     && negb (bool_decide (nr_codeowners_state s = ""))
  then Some (mkSourceRecord (nr_codeowners_ref s) (nr_codeowners_sha s) (default "" (nr_codeowners_path s))
               (nr_codeowners_state s) (default "" (nr_codeowners_source s)) (nr_codeowners_hash s)
               (pv_etag (nr_prov s)))
  else None.

(** [PullRequestMetadata]; [forced] tells whether a drift finding of the pull request
    is open. *)
Definition row_metadata {R} (forced : bool) (repo : repo_row) (row : pull_full) (p : pcache R)
    : FetchMetadata :=
  mkMetadata (pf_node_id row) (pv_etag (pf_prov row)) (pf_title row) (pf_state row) (pf_draft row)
    (pf_author_login row) (pf_head_ref row) (pf_base_ref row) (pf_review_decision row)
    (pf_mergeable_state row) (pf_stack_number row) (pf_stack_position row)
    (default zero_time (pf_gh_updated_at row)) (pf_base_sha row) (pf_head_sha row) (rp_gh_id repo)
    (rp_installation_id repo) (rp_full_name repo)
    (pc_snapshots p !! (pf_repo_id row, pf_number row) ≫= mirrored_record row) forced.

Definition PullRequestMetadata {R} (forced : bool) (fullName : string) (number : Z) (p : pcache R)
    : option FetchMetadata :=
  repo ← GetRepoByFullName fullName (base (pc_w p));
  row ← pulls p !! (rp_id repo, wrap32 number);
  Some (row_metadata forced repo row p).

(** ** Validators *)

(** [matchingPullETag]: the cached validator, while the node has every column of the
    row it is stored with. *)
Definition matchingPullETag (m : FetchMetadata) (n : PullRequestNode) : string :=
  if bool_decide (me_ETag m = "")
     || negb (pn_UpdatedAt n =? me_GitHubUpdatedAt m)
     || negb (bool_decide (pn_Title n = me_Title m))
     || negb (EqualFold (pn_State n) (me_State m))
     || negb (Bool.eqb (pn_IsDraft n) (me_Draft m))
     || negb (bool_decide (pn_Author n = me_AuthorLogin m))
     || negb (bool_decide (pn_HeadRefName n = me_HeadRef m))
     || negb (bool_decide (pn_BaseRefName n = me_BaseRef m))
     || negb (bool_decide (pn_ReviewDecision n = me_ReviewDecision m))
     || negb (bool_decide (pn_Mergeable n = me_MergeableState m))
     || negb (bool_decide (pn_BaseRefOID n = me_BaseSHA m))
     || negb (bool_decide (pn_HeadRefOID n = me_HeadSHA m))
  then "" else me_ETag m.

Definition set_membership (number position : option Z) (summary : option StackSummaryRecord) (known : bool)
    (etag : string) (p : PullRequestRecord) : PullRequestRecord :=
  mkPullRecord (pl_Repository p) (pl_GitHubID p) (pl_NodeID p) (pl_Number p) (pl_Title p) (pl_State p)
    (pl_Draft p) (pl_AuthorLogin p) (pl_HeadRef p) (pl_HeadSHA p) (pl_BaseRef p) (pl_BaseSHA p)
    (pl_ReviewDecision p) (pl_MergeableState p) number position summary known (pl_GitHubUpdatedAt p)
    (pl_ReviewThreads p) (pl_ThreadsKnown p) (pl_ReviewRequests p) (pl_ReviewRequestsKnown p) (pl_Reviews p)
    (pl_ReviewsKnown p) (pl_Comments p) (pl_CommentsKnown p) (pl_ChangeSnapshot p) (pl_ChangeInputsKnown p)
    etag (pl_SyncedAt p) (pl_Source p).

(** [applyPullFence]: the entity tag of the final read, and its stack membership when
    it returned the pull request. *)
Definition applyPullFence (fence : PullRequestFence) (p : PullRequestRecord) : PullRequestRecord :=
  match pf_Pull fence with
  | None =>
      set_membership (pl_StackNumber p) (pl_StackPosition p) (pl_StackSummary p) (pl_MembershipKnown p)
        (pf_ETag fence) p
  | Some pull =>
      let a := pullRecordFromREST (pl_Repository p) pull (pf_ETag fence) (pl_Source p) (pl_SyncedAt p) in
      set_membership (pl_StackNumber a) (pl_StackPosition a) (pl_StackSummary a) true (pf_ETag fence) p
  end.

Definition set_snapshot (s : PullRequestChangeSnapshotRecord) (p : PullRequestRecord) : PullRequestRecord :=
  mkPullRecord (pl_Repository p) (pl_GitHubID p) (pl_NodeID p) (pl_Number p) (pl_Title p) (pl_State p)
    (pl_Draft p) (pl_AuthorLogin p) (pl_HeadRef p) (pl_HeadSHA p) (pl_BaseRef p) (pl_BaseSHA p)
    (pl_ReviewDecision p) (pl_MergeableState p) (pl_StackNumber p) (pl_StackPosition p) (pl_StackSummary p)
    (pl_MembershipKnown p) (pl_GitHubUpdatedAt p) (pl_ReviewThreads p) (pl_ThreadsKnown p)
    (pl_ReviewRequests p) (pl_ReviewRequestsKnown p) (pl_Reviews p) (pl_ReviewsKnown p) (pl_Comments p)
    (pl_CommentsKnown p) (Some s) true (pl_ETag p) (pl_SyncedAt p) (pl_Source p).

(** A node as the record a batch applies, with [hydrate] the hydration of the node
    under a validator. *)
Definition prepare_pull
    (hydrate : string → result hydrate_error (PullRequestChangeSnapshotRecord * PullRequestFence))
    (n : PullRequestNode) (m : FetchMetadata) (source : string) (startedAt : time) (installationID orgID : Z)
    : result hydrate_error PullRequestRecord :=
  let fenceETag := matchingPullETag m n in
  let record := pullRecordFromNode n (set_etag fenceETag m) source startedAt installationID orgID in
  match hydrate fenceETag with
  | Err e => Err e
  | Ok (snapshot, fence) => Ok (set_snapshot snapshot (applyPullFence fence record))
  end.

(** ** Follow-ups *)

Definition spec (kind key : string) : RefreshSpec := mkSpec kind key zero_time zero_time zero_time.

Definition pullRequestFollowupSpecs (repo : string) (r : ApplyPullRequestResult) : list RefreshSpec :=
  (if negb (bool_decide (ap_NewHeadSHA r = "")) && negb (bool_decide (ap_NewHeadSHA r = ap_OldHeadSHA r))
   then [spec KindRefreshChecks (pointer_key "checks" repo (ap_NewHeadSHA r))] else [])
  ++ (if ap_StackStateChanged r then
        let numbers : gset Z :=
          (match ap_OldStackNumber r with Some n => {[n]} | None => ∅ end)
          ∪ (match ap_NewStackNumber r with Some n => {[n]} | None => ∅ end) in
        map (λ n, spec KindRefreshStack (pointer_key "stack" repo (FormatInt n))) (elements numbers)
      else []).

Definition spec_le (a b : RefreshSpec) : Prop :=
  if bool_decide (sp_Kind a = sp_Kind b) then string_le (sp_Key a) (sp_Key b)
  else string_le (sp_Kind a) (sp_Kind b).

#[export] Instance spec_le_dec : RelDecision spec_le.
Proof. intros a b. unfold spec_le. destruct (bool_decide _); apply _. Defined.

Definition stackFollowupSpecs (repo : string) (r : ApplyStackResult) : list RefreshSpec :=
  let affected := as_JoinedPRs r ++ as_LeftPRs r ++ as_MovedPRs r in
  merge_sort spec_le
    (map (λ n, spec KindResolveStackMembership (pointer_key "pr" repo (FormatInt n))) (remove_dups affected)
     ++ map (λ '(_, old), spec KindRefreshStack (pointer_key "stack" repo (FormatInt old))) (map_to_list (as_PriorStackByPR r))).

(** The budget class and the provenance of a queue. *)
Definition classAndSource (queueName : string) : option (string * string) :=
  if bool_decide (queueName = "interactive") then Some ("interactive", "interactive")
  else if bool_decide (queueName = "event") then Some ("event", "webhook")
  else if bool_decide (queueName = "bulk") || bool_decide (queueName = "sweep") then Some ("sweep", "reconcile")
  else None.

(** ** Records the writer accepts *)

(** A pull request as GitHub describes one: positive identifiers, names, update times,
    and connections without repetitions. Authors and reviewers of any kind may
    occur. *)
Record pull_node_ok (n : PullRequestNode) : Prop := {
  pk_node : node_ok n;
  pk_pull : 0 < pn_Number n ∧ 0 < pn_DatabaseID n ∧ pn_ID n ≠ "" ∧ pn_UpdatedAt n ≠ zero_time;
  pk_repo : 0 < rd_DatabaseID (pn_Repository n) ∧ rd_Owner (pn_Repository n) ≠ "" ∧
    rd_Name (pn_Repository n) ≠ "" ∧
    rd_NameWithOwner (pn_Repository n) = rd_Owner (pn_Repository n) +:+ "/" +:+ rd_Name (pn_Repository n) ∧
    rd_UpdatedAt (pn_Repository n) ≠ zero_time;
  pk_requests : NoDup (map (λ r, (rv_Typename r, rv_DatabaseID r)) (cn_Nodes (pn_ReviewRequests n))) ∧
    Forall (λ r, in_int64 (rv_DatabaseID r)) (cn_Nodes (pn_ReviewRequests n));
  pk_reviews : NoDup (map rv_ID (cn_Nodes (pn_Reviews n))) ∧
    ∀ r, r ∈ cn_Nodes (pn_Reviews n) →
      rv_ID r ≠ "" ∧ rv_State r ≠ "" ∧ rv_UpdatedAt r ≠ zero_time ∧ 0 ≤ default 0 (rv_FullDatabaseID r);
  pk_comments : NoDup (map ic_ID (cn_Nodes (pn_Comments n))) ∧
    ∀ c, c ∈ cn_Nodes (pn_Comments n) →
      ic_ID c ≠ "" ∧ ic_CreatedAt c ≠ zero_time ∧ ic_UpdatedAt c ≠ zero_time ∧
      0 ≤ default 0 (ic_FullDatabaseID c);
  pk_threads : NoDup (map th_ID (cn_Nodes (pn_ReviewThreads n)))
}.

(** The stack preview of a REST pull request. *)
Definition stack_preview_ok (pull : PullRequest) : Prop :=
  ∀ s, rl_Stack pull = Some s → 0 < sf_ID s ∧ 0 < sf_Size s ∧ 0 < sf_Position s ∧ sf_BaseRef s ≠ "".

Lemma IsZero_false t : t ≠ zero_time → IsZero t = false.
Proof. intros Ht. unfold IsZero. by apply Z.eqb_neq. Qed.

Lemma ToLower_nonempty s : s ≠ "" → ToLower s ≠ "".
Proof.
  destruct s as [|a s]; [done|]. intros _. cbn. destruct s as [|b s]; [done|].
  case_bool_decide; [done|]. destruct s as [|c s]; [done|]. by case_bool_decide.
Qed.

Lemma actor_valid a : let '(k, i, l) := actorIdentity a in validParticipationAuthor k i l = true.
Proof.
  destruct a as [a|]; [|done]. cbn. unfold actor_kind. by repeat case_bool_decide.
Qed.

Lemma reviewer_request_Some r q : reviewer_request r = Some q →
  (ReviewRequestKind_valid (rq_Kind q) && (0 <? rq_GitHubID q)
   && negb (bool_decide (rq_NodeID q = "")) && negb (bool_decide (rq_Login q = ""))) = true ∧
  rq_GitHubID q = rv_DatabaseID r ∧
  (rq_Kind q = "user" ∧ rv_Typename r = "User" ∨ rq_Kind q = "team" ∧ rv_Typename r = "Team").
Proof.
  unfold reviewer_request.
  case_bool_decide as HU; [|case_bool_decide as HT; [|done]]; destruct (_ || _) eqn:Hb; try done; intros [= <-];
    cbn [rq_Kind rq_GitHubID rq_NodeID rq_Login]; to_props.
  - rewrite !(bool_decide_false (_ = "")), (proj2 (Z.ltb_lt _ _)) by (done || lia). split_and!; [done|done|by left].
  - rewrite !(bool_decide_false (_ = "")), (proj2 (Z.ltb_lt _ _)) by (done || lia). split_and!; [done|done|by right].
Qed.

(** Distinct reviewers have distinct keys. *)
Lemma requests_NoDup l :
  NoDup (map (λ r, (rv_Typename r, rv_DatabaseID r)) l) → Forall (λ r, in_int64 (rv_DatabaseID r)) l →
  NoDup (map request_key (omap reviewer_request l)).
Proof.
  induction l as [|r l IH]; cbn; [constructor|]. intros [Hr Hnd]%NoDup_cons [Hw Hws]%Forall_cons.
  destruct (reviewer_request r) as [q|] eqn:Hq; cbn; [|by apply IH]. constructor; [|by apply IH].
  intros (q' & Heq & Hin)%list_elem_of_fmap. apply list_elem_of_omap in Hin as (r' & Hin & Hq').
  apply reviewer_request_Some in Hq as (_ & Hid & Hk). apply reviewer_request_Some in Hq' as (_ & Hid' & Hk').
  apply Hr, list_elem_of_fmap. exists r'. split; [|done]. rewrite <- Hid, <- Hid'.
  unfold request_key in Heq.
  assert (∀ k i, Cut ((k : string) ++ ":" ++ i)%string ":" = Some (k, i) ∨ ContainsByte k ":" = true) as Hcut.
  { intros k i. destruct (ContainsByte k ":") eqn:Hc; [by right|left]. change (k ++ ":" ++ i)%string with (k +:+ String ":" i).
    by apply Cut_app. }
  destruct (Hcut (rq_Kind q) (FormatInt (rq_GitHubID q))) as [H1|H1];
    [|by destruct Hk as [[E _]|[E _]]; rewrite E in H1].
  destruct (Hcut (rq_Kind q') (FormatInt (rq_GitHubID q'))) as [H2|H2];
    [|by destruct Hk' as [[E _]|[E _]]; rewrite E in H2].
  rewrite Heq, H2 in H1. injection H1 as Hkind Hint.
  rewrite Forall_forall in Hws. apply FormatInt_inj in Hint; [|rewrite Hid'; by apply Hws|by rewrite Hid]. rewrite Hint. f_equal.
  destruct Hk as [[E1 ->]|[E1 ->]], Hk' as [[E2 ->]|[E2 ->]]; try done; congruence.
Qed.

Lemma node_requests_ok n seen_bad dup : pull_node_ok n →
  check_all (λ r, ReviewRequestKind_valid (rq_Kind r) && (0 <? rq_GitHubID r)
                  && negb (bool_decide (rq_NodeID r = "")) && negb (bool_decide (rq_Login r = "")))
    request_key seen_bad dup [] (omap reviewer_request (cn_Nodes (pn_ReviewRequests n))) = Ok tt.
Proof.
  intros Hn. apply check_all_true; [by apply requests_NoDup; apply Hn|].
  intros q (r & _ & Hq)%list_elem_of_omap. split; [|apply not_elem_of_nil].
  by apply reviewer_request_Some in Hq as (? & _).
Qed.

Lemma node_reviews_ok n bad dup : pull_node_ok n →
  check_all (λ r, (0 <=? rw_GitHubID r) && negb (bool_decide (rw_NodeID r = ""))
                  && validParticipationAuthor (rw_AuthorKind r) (rw_AuthorNodeID r) (rw_AuthorLogin r)
                  && negb (bool_decide (rw_State r = "")) && negb (IsZero (rw_GitHubUpdatedAt r)))
    rw_NodeID bad dup [] (map review_record (cn_Nodes (pn_Reviews n))) = Ok tt.
Proof.
  intros Hn. destruct (pk_reviews _ Hn) as [Hnd Hall]. apply check_all_true.
  - rewrite map_map. rewrite (map_ext _ rv_ID); [done|]. intros r. unfold review_record.
    by destruct (actorIdentity _) as [[??]?].
  - intros q (r & -> & Hr)%list_elem_of_fmap. split; [|apply not_elem_of_nil].
    destruct (Hall r Hr) as (Hid & Hst & Hup & Hdb). pose proof (actor_valid (rv_Author r)) as Ha.
    unfold review_record, graphQLDatabaseID. destruct (actorIdentity _) as [[k i] lg]. cbn [rw_GitHubID rw_NodeID rw_AuthorKind
      rw_AuthorNodeID rw_AuthorLogin rw_State rw_GitHubUpdatedAt]. rewrite Ha, IsZero_false by done.
    rewrite (proj2 (Z.leb_le _ _) Hdb), (bool_decide_false (rv_ID r = "")) by done.
    by rewrite (bool_decide_false (ToLower _ = "")) by (by apply ToLower_nonempty).
Qed.

Lemma node_comments_ok n bad dup : pull_node_ok n →
  check_all (λ c, (0 <=? cm_GitHubID c) && negb (bool_decide (cm_NodeID c = ""))
                  && validParticipationAuthor (cm_AuthorKind c) (cm_AuthorNodeID c) (cm_AuthorLogin c)
                  && negb (IsZero (cm_CreatedAt c)) && negb (IsZero (cm_GitHubUpdatedAt c)))
    cm_NodeID bad dup [] (map comment_record (cn_Nodes (pn_Comments n))) = Ok tt.
Proof.
  intros Hn. destruct (pk_comments _ Hn) as [Hnd Hall]. apply check_all_true.
  - rewrite map_map. rewrite (map_ext _ ic_ID); [done|]. intros r. unfold comment_record.
    by destruct (actorIdentity _) as [[??]?].
  - intros q (r & -> & Hr)%list_elem_of_fmap. split; [|apply not_elem_of_nil].
    destruct (Hall r Hr) as (Hid & Hc & Hup & Hdb). pose proof (actor_valid (ic_Author r)) as Ha.
    unfold comment_record, graphQLDatabaseID. destruct (actorIdentity _) as [[k i] lg]. cbn [cm_GitHubID cm_NodeID cm_AuthorKind
      cm_AuthorNodeID cm_AuthorLogin cm_CreatedAt cm_GitHubUpdatedAt]. rewrite Ha, !IsZero_false by done.
    by rewrite (proj2 (Z.leb_le _ _) Hdb), (bool_decide_false (ic_ID r = "")) by done.
Qed.

(** The membership a fence leaves in a node's record. *)
Lemma fence_membership n m source startedAt inst org fence :
  (∀ pull, pf_Pull fence = Some pull → stack_preview_ok pull) →
  let p := applyPullFence fence (pullRecordFromNode n m source startedAt inst org) in
  (negb (pl_MembershipKnown p)
   || Bool.eqb (bool_decide (pl_StackNumber p = None)) (bool_decide (pl_StackPosition p = None))) = true ∧
  validateSummary p = true.
Proof.
  intros Hst. unfold applyPullFence. destruct (pf_Pull fence) as [pull|]; [|done].
  specialize (Hst pull eq_refl). cbn. unfold validateSummary. cbn. destruct (rl_Stack pull) as [s|] eqn:Hs; [|done].
  destruct (Hst s Hs) as (H1 & H2 & H3 & H4). cbn.
  rewrite !(proj2 (Z.ltb_lt _ _)), !Z.eqb_refl, bool_decide_false by done. done.
Qed.

Lemma node_repository_ok n source inst org :
  pull_node_ok n → SyncSource_Valid source = true → 0 < inst → 0 < org →
  validateRepository (repositoryRecordFromNode (pn_Repository n) inst org) source = Ok tt.
Proof.
  intros Hn Hs Hi Ho. destruct (pk_repo _ Hn) as (Hid & Hown & Hname & Hfull & Hup).
  unfold validateRepository, repositoryRecordFromNode.
  destruct (default ("", "") _) as [b h]. cbn [InstallationID OrgID GitHubID Owner Name FullName GitHubUpdatedAt].
  rewrite Hs, !(proj2 (Z.leb_gt _ _)), !(bool_decide_false (_ = "")) by done.
  by rewrite IsZero_false, bool_decide_true.
Qed.

(** What the validation reads of a prepared record. *)
Lemma prepared_fields n m source startedAt inst org fence s :
  let p := set_snapshot s (applyPullFence fence (pullRecordFromNode n m source startedAt inst org)) in
  pl_Repository p = repositoryRecordFromNode (pn_Repository n) inst org ∧ pl_Number p = pn_Number n ∧
  pl_GitHubID p = pn_DatabaseID n ∧ pl_NodeID p = pn_ID n ∧ pl_HeadSHA p = pn_HeadRefOID n ∧
  pl_BaseSHA p = pn_BaseRefOID n ∧ pl_BaseRef p = pn_BaseRefName n ∧ pl_GitHubUpdatedAt p = pn_UpdatedAt n ∧
  pl_SyncedAt p = startedAt ∧ pl_Source p = source ∧
  pl_ReviewRequests p = omap reviewer_request (cn_Nodes (pn_ReviewRequests n)) ∧
  pl_Reviews p = map review_record (cn_Nodes (pn_Reviews n)) ∧
  pl_Comments p = map comment_record (cn_Nodes (pn_Comments n)) ∧
  pl_ReviewThreads p = map (thread_record (pn_UpdatedAt n)) (cn_Nodes (pn_ReviewThreads n)) ∧
  pl_ChangeSnapshot p = Some s ∧ pl_ChangeInputsKnown p = true.
Proof. unfold applyPullFence. cbn zeta. by destruct (pf_Pull fence). Qed.


(** ** Validators are reused for the representation they were stored with *)

(** What a validator vouches for. *)
Definition representation (n : PullRequestNode) :=
  (pn_UpdatedAt n, pn_Title n, ToLower (pn_State n), pn_IsDraft n, pn_Author n, pn_HeadRefName n,
   pn_BaseRefName n, pn_ReviewDecision n, pn_Mergeable n, pn_BaseRefOID n, pn_HeadRefOID n).

#[export] Instance representation_eq_dec n n' : Decision (representation n = representation n').
Proof. unfold representation. apply _. Defined.

Lemma matching_exact m n :
  me_ETag m ≠ "" →
  matchingPullETag m n =
    if decide ((pn_UpdatedAt n, pn_Title n, ToLower (pn_State n), pn_IsDraft n, pn_Author n, pn_HeadRefName n,
                pn_BaseRefName n, pn_ReviewDecision n, pn_Mergeable n, pn_BaseRefOID n, pn_HeadRefOID n) =
               (me_GitHubUpdatedAt m, me_Title m, ToLower (me_State m), me_Draft m, me_AuthorLogin m, me_HeadRef m,
                me_BaseRef m, me_ReviewDecision m, me_MergeableState m, me_BaseSHA m, me_HeadSHA m))
    then me_ETag m else "".
Proof.
  intros He. unfold matchingPullETag, EqualFold. rewrite (bool_decide_false (me_ETag m = "")) by done.
  case_decide as Hd.
  - injection Hd as -> -> -> -> -> -> -> -> -> -> ->. rewrite Z.eqb_refl, eqb_reflx. by rewrite !bool_decide_true.
  - case_match eqn:Hb; [done|]. exfalso. apply Hd. to_props.
    repeat match goal with H : Bool.eqb _ _ = true |- _ => apply eqb_prop in H end. congruence.
Qed.

(** The states of a pull request, and that lowering twice is lowering. *)
Definition known_state (s : string) : Prop := s ∈ ["OPEN"; "CLOSED"; "MERGED"].

Lemma known_state_lower s : known_state s → ToLower (ToLower s) = ToLower s.
Proof. unfold known_state. rewrite !elem_of_cons, elem_of_nil. by intros [->|[->|[->|[]]]]. Qed.

(** The row an accepted write leaves. *)
Lemma accepted_row {R} r hook now a (p p' : pcache R) repo :
  apply_pull r hook now p = Ok (a, p') → ap_DomainChanged a = true → 0 < pl_Number r < 2 ^ 31 →
  repos (base (pc_w p)) !! GitHubID (pl_Repository r) = Some repo →
  pulls p' !! (rp_id repo, pl_Number r) =
    Some (set_pull_prov (touch_prov now (pl_ETag r))
            (pull_row_of (rp_id repo) r now (pulls p !! (rp_id repo, pl_Number r)))).
Proof.
  intros Ha Hdom Hn Hrepo. apply apply_pull_inv in Ha as (repo' & row & p1 & p2 & p3 & p4 & p5 & p6 & th & Hr & Hrun & ->).
  assert (repo' = repo) as -> by congruence. clear Hr. pose proof (pull_run_w _ _ _ _ _ _ _ _ _ _ _ _ _ Hrun) as Hw.
  destruct Hrun as [Hpull _ _ _ _ Hth _ _ _].
  rewrite Hdom in Hpull.
  destruct (write_threads_spec _ _ _ _ _ _ _ Hth) as (mt & Hmt & _).
  assert (Hp6 : pulls (mark_pull r now a p6) = pulls p1).
  { unfold mark_pull, pulls. transitivity (wc_pulls (pc_w p6)); [by destruct (ap_Applied a)|]. by rewrite Hmt, Hw. }
  rewrite Hp6. unfold write_pull, UpsertPullRequestWriteIfNewer in Hpull. rewrite wrap32_id in Hpull by lia.
  destruct (pulls p !! (rp_id repo, pl_Number r)) as [old|] eqn:Hold; [case_if_in Hpull|].
  all: rewrite ?lookup_insert_eq, ?Hold in Hpull; inversion Hpull; subst row p1.
  all: unfold pulls; cbn; unfold TouchPullRequestCheckedAt; rewrite wrap32_id by lia.
  all: by rewrite lookup_alter_eq, lookup_insert_eq.
Qed.

Lemma touched_etag now etag row : etag ≠ "" →
  pv_etag (pf_prov (set_pull_prov (touch_prov now etag) row)) = etag.
Proof. intros He. cbn. by rewrite bool_decide_false. Qed.

(** A validator is reused exactly for the representation it was stored with. After
    a batch item's record has been written with a validator, reading the metadata back
    and comparing it with any later node of the pull request sends that validator when
    the node has the same update time, title, state, draft flag, author, branches,
    review decision, mergeability and commits, and sends none otherwise. *)
Theorem validator_round_trip {R : Type}
    (hydrate : string → result hydrate_error (PullRequestChangeSnapshotRecord * PullRequestFence))
    (n : PullRequestNode) (m : FetchMetadata) (source : string) (startedAt : time) (inst org : Z)
    (r : PullRequestRecord) (hook : option (ApplyPullRequestResult → result write_error unit)) (now : time)
    (a : ApplyPullRequestResult) (p p' : pcache R) (repo : repo_row) :
  prepare_pull hydrate n m source startedAt inst org = Ok r → pl_ETag r ≠ "" →
  0 < pn_Number n < 2 ^ 31 → pn_UpdatedAt n ≠ zero_time → known_state (pn_State n) →
  repos (base (pc_w p)) !! GitHubID (pl_Repository r) = Some repo →
  apply_pull r hook now p = Ok (a, p') → ap_DomainChanged a = true →
  ∃ row, pulls p' !! (rp_id repo, pn_Number n) = Some row ∧
    ∀ forced n', matchingPullETag (row_metadata forced repo row p') n' =
      if decide (representation n' = representation n) then pl_ETag r else "".
Proof.
  intros Hr He Hnum Hup Hst Hrepo Ha Hdom. unfold prepare_pull in Hr.
  destruct (hydrate _) as [[s fence]|]; [|done]. injection Hr as Hr.
  destruct (prepared_fields n (set_etag (matchingPullETag m n) m) source startedAt inst org fence s)
    as (_ & Hn & _ & _ & Hhead & Hbase & Href & Hupd & _). cbn zeta in Hn, Hhead, Hbase, Href, Hupd.
  rewrite Hr in Hn, Hhead, Hbase, Href, Hupd.
  eapply accepted_row in Ha; [|done|by rewrite Hn|done]. rewrite Hn in Ha.
  eexists. split; [exact Ha|]. intros forced n'.
  rewrite matching_exact; unfold row_metadata; cbn [me_ETag]; rewrite touched_etag by done; [|done].
  cbn [me_GitHubUpdatedAt me_Title me_State me_Draft me_AuthorLogin me_HeadRef me_BaseRef me_ReviewDecision
    me_MergeableState me_BaseSHA me_HeadSHA set_pull_prov pull_row_of pf_gh_updated_at pf_title pf_state pf_draft
    pf_author_login pf_head_ref pf_base_ref pf_review_decision pf_mergeable_state pf_base_sha pf_head_sha].
  rewrite Hupd, Hhead, Hbase, Href, nullable_Some by done.
  assert (Hcols : pl_Title r = pn_Title n ∧ pl_State r = ToLower (pn_State n) ∧ pl_Draft r = pn_IsDraft n ∧
    pl_AuthorLogin r = pn_Author n ∧ pl_HeadRef r = pn_HeadRefName n ∧ pl_ReviewDecision r = pn_ReviewDecision n ∧
    pl_MergeableState r = pn_Mergeable n)
    by (rewrite <- Hr; unfold applyPullFence; by destruct (pf_Pull fence)).
  destruct Hcols as (-> & -> & -> & -> & -> & -> & ->). by rewrite !(known_state_lower (pn_State n)) by done.
Qed.

(** ** Follow-ups can be processed *)

(** A repository name as GitHub writes it. *)
Definition repo_name_ok (repo : string) : Prop := ContainsByte repo "/" = true ∧ ContainsByte repo ":" = false.

(** Every follow-up of a pull-request write names an entity its worker can parse: the
    checks of the new head, or one of the two stacks. *)
Theorem pull_followups_exact repo r s :
  repo_name_ok repo →
  (∀ n, ap_OldStackNumber r = Some n ∨ ap_NewStackNumber r = Some n → 0 < n < 2 ^ 31) →
  s ∈ pullRequestFollowupSpecs repo r →
  (sp_Kind s = KindRefreshChecks ∧ ap_NewHeadSHA r ≠ ap_OldHeadSHA r ∧
   parseEntityKey (sp_Key s) "checks" = Ok (EntityKey "checks" repo (ap_NewHeadSHA r) 0)) ∨
  (sp_Kind s = KindRefreshStack ∧ ap_StackStateChanged r = true ∧
   ∃ n, (ap_OldStackNumber r = Some n ∨ ap_NewStackNumber r = Some n) ∧
        parseEntityKey (sp_Key s) "stack" = Ok (EntityKey "stack" repo (FormatInt n) n)).
Proof.
  intros [Hsl Hco] Hrange. unfold pullRequestFollowupSpecs. rewrite elem_of_app. intros [Hs|Hs].
  - left. case_if_in Hs; [|by apply elem_of_nil in Hs]. apply list_elem_of_singleton in Hs as ->. to_props.
    split_and!; try done. cbn [sp_Key spec]. by rewrite parse_pointer.
  - right. destruct (ap_StackStateChanged r); [|by apply elem_of_nil in Hs].
    apply list_elem_of_fmap in Hs as (n & -> & Hn%elem_of_elements).
    assert (Hcase : ap_OldStackNumber r = Some n ∨ ap_NewStackNumber r = Some n).
    { apply elem_of_union in Hn as [Hn|Hn]; [left; destruct (ap_OldStackNumber r)|right; destruct (ap_NewStackNumber r)];
        set_solver. }
    split_and!; [done|done|]. exists n. split; [done|]. specialize (Hrange _ Hcase). cbn [sp_Key spec].
    rewrite parse_pointer by (done || apply FormatInt_nonempty). cbn.
    rewrite ParseInt_FormatInt by (unfold in_int64; lia). by rewrite (proj2 (Z.leb_gt _ _)) by lia.
Qed.

(** ** Witnesses *)

Definition conv_node : PullRequestNode :=
  mkPullNode "P" 44 4 "new title" "OPEN" false 50 "" "MERGEABLE" "topic" "h1" "main" "c1" 1 "ann"
    (mkRepoNode "R" 9 "app" "acme/app" false 40 (Some ("main", "c1")) "acme")
    (Some (mkFiles [mkFileNode "a.go" "MODIFIED"] (mkPageInfo false None) 1 false))
    (mkConnection [mkRequestNode "User" "U_9" 9 "acme" ""; mkRequestNode "Bot" "B_1" 9 "ci" "";
                   mkRequestNode "Team" "T_9" 9 "" "core"] (mkPageInfo false None))
    (mkConnection [mkReviewNode "RV_1" None "APPROVED" (Some 45) 46 None (Some "h1")] (mkPageInfo false None))
    (mkConnection [mkCommentNode "IC_1" (Some 8) 41 41 (Some (mkActor "Bot" "B_1" "ci"))] (mkPageInfo false None))
    (mkConnection [] (mkPageInfo false None)).

Definition conv_pull : PullRequest :=
  mkRestPull 44 "P" 4 "new title" "open" false "ann" "topic" "h1" "main" "c1" "clean" (Some 50) None None
    (Some (mkStackPreview 5 2 3 1 "main" "c1")) "".

Definition conv_metadata : FetchMetadata :=
  mkMetadata "P" "" "t" "open" false "ann" "topic" "main" "" "" None None 5 "b0" "c0ffee" 9 7 "acme/app" None false.

Definition conv_hydrate : string → result hydrate_error (PullRequestChangeSnapshotRecord * PullRequestFence) :=
  hydrateFromMirror wit_sha (λ _, false) (λ _, false) (mkChangeMetadata "" ∅) (λ _, Err RenamesOutOfFuel)
    (Ok wit_answer) (Some []) (λ _, PullAnswer conv_pull "tag-3") "acme" conv_node.

Definition conv_record : PullRequestRecord :=
  match prepare_pull conv_hydrate conv_node conv_metadata "webhook" 60 7 3 with
  | Ok r => r
  | Err _ => wit_pull 0
  end.

Lemma conv_prepared : prepare_pull conv_hydrate conv_node conv_metadata "webhook" 60 7 3 = Ok conv_record.
Proof. vm_compute. reflexivity. Qed.

Lemma conv_node_ok : pull_node_ok conv_node.
Proof.
  split; try done.
  - split; [done|done| |].
    + intros f [= <-]. repeat constructor. by intros ?%elem_of_nil.
    + intros f x [= <-] ->%list_elem_of_singleton. by vm_compute.
  - split; [|repeat constructor; done]. apply NoDup_ListNoDup. repeat constructor; cbn; intuition discriminate.
  - split; [repeat constructor; by intros ?%elem_of_nil|]. by intros r ->%list_elem_of_singleton.
  - split; [repeat constructor; by intros ?%elem_of_nil|]. by intros r ->%list_elem_of_singleton.
  - constructor.
Qed.


Lemma conv_applied : apply_pull conv_record None 70 wit_pcache = Ok (applied_pull conv_record 70 wit_pcache).
Proof. vm_compute. reflexivity. Qed.

Lemma validator_round_trip_witness :
  ∃ row, pulls (applied_pull conv_record 70 wit_pcache).2 !! (1, 4) = Some row ∧
    matchingPullETag (row_metadata false demo_repo row (applied_pull conv_record 70 wit_pcache).2) conv_node = "tag-3" ∧
    matchingPullETag (row_metadata false demo_repo row (applied_pull conv_record 70 wit_pcache).2) wit_node = "".
Proof.
  destruct (validator_round_trip conv_hydrate conv_node conv_metadata "webhook" 60 7 3 conv_record None 70
    (applied_pull conv_record 70 wit_pcache).1 wit_pcache (applied_pull conv_record 70 wit_pcache).2 demo_repo)
    as (row & Hrow & Hmatch).
  - exact conv_prepared.
  - done.
  - done.
  - done.
  - left.
  - reflexivity.
  - rewrite conv_applied. by destruct (applied_pull _ _ _).
  - vm_compute. reflexivity.
  - exists row. split; [exact Hrow|]. rewrite !Hmatch. by rewrite decide_True, decide_False by done.
Defined.
