(* ===== verification/Coordinator.v ===== *)
(** * The batching coordinator of pull-request fetches

    [internal/fetch/coordinator.go] and [discovery_gate.go]: the queue that gangs
    concurrent refreshes into GraphQL batches ([prCoordinator]), the execution of one
    batch from its observations to the results its callers receive, the retried write
    of the parent repository, and the gate that serializes the discovery of a
    repository.

    The mutexes make each critical section one step; callers, timers and goroutines
    interleave between them. Contexts, tracing and [closeObservation] (which releases
    nothing) are left out. *)

From Stdlib Require Import ZArith Lia Bool String Ascii.
From stdpp Require Import sorting strings gmap sets numbers base list.
From S2P Require Import Prelude GoStrings Keys RefreshQueue EntityWriter Derive Writers PullRequests.
From S2P Require Import GitHub ChangeInputs Convert.

Local Open Scope Z_scope.

(** ** Counting *)

(** The number of entries that satisfy [P]. *)
Definition count {K A} `{Countable K} (P : A → Prop) `{∀ a, Decision (P a)} (m : gmap K A) : nat :=
  size (filter (λ kv, P kv.2) m).

Section count.
Context {K A : Type} `{Countable K} (P : A → Prop) `{∀ a, Decision (P a)}.

Lemma count_insert_new (m : gmap K A) k a : m !! k = None →
  count P (<[k := a]> m) = (count P m + if decide (P a) then 1 else 0)%nat.
Proof.
  intros Hk. unfold count. case_decide as Ha.
  - rewrite map_filter_insert_True by done. rewrite map_size_insert_None; [lia|].
    apply map_lookup_filter_None. by left.
  - rewrite map_filter_insert_False by done. rewrite delete_id by done. lia.
Qed.

Lemma count_delete (m : gmap K A) k a : m !! k = Some a →
  count P m = (count P (delete k m) + if decide (P a) then 1 else 0)%nat.
Proof.
  intros Hk. rewrite <- (insert_delete_id m k a Hk) at 1. by rewrite count_insert_new by apply lookup_delete_eq.
Qed.

Lemma count_insert (m : gmap K A) k a b : m !! k = Some a →
  (count P (<[k := b]> m) + (if decide (P a) then 1 else 0) = count P m + if decide (P b) then 1 else 0)%nat.
Proof.
  intros Hk. rewrite (count_delete m k a Hk), <- insert_delete_eq, count_insert_new by apply lookup_delete_eq. lia.
Qed.

Lemma count_pos (m : gmap K A) k a : m !! k = Some a → P a → (0 < count P m)%nat.
Proof. intros Hk Ha. rewrite (count_delete m k a Hk), decide_True by done. lia. Qed.

Lemma count_zero (m : gmap K A) k a : count P m = 0%nat → m !! k = Some a → ¬ P a.
Proof. intros Hz Hk Ha. pose proof (count_pos m k a Hk Ha). lia. Qed.

Lemma count_one (m : gmap K A) k1 k2 a1 a2 : (count P m ≤ 1)%nat →
  m !! k1 = Some a1 → P a1 → m !! k2 = Some a2 → P a2 → k1 = k2.
Proof.
  intros Hle Hk1 Ha1 Hk2 Ha2. destruct (decide (k1 = k2)) as [|Hne]; [done|].
  rewrite (count_delete m k1 a1 Hk1), decide_True in Hle by done.
  pose proof (count_pos (delete k1 m) k2 a2) as Hp. rewrite lookup_delete_ne in Hp by done. specialize (Hp Hk2 Ha2). lia.
Qed.
End count.

(** ** The discovery gate *)

Module Discovery.
(** An entry: whether its semaphore is taken, and its references. *)
Record gate_entry : Type := mkGateEntry { ge_taken : bool; ge_refs : Z }.

Record gate : Type := mkGate {
  dg_entries : gmap string nat;
  dg_heap : gmap nat gate_entry;
  dg_fresh : nat
}.

(** A caller of [acquire]: waiting for the semaphore, inside, or with the semaphore
    returned and its reference still to drop. *)
Inductive gate_caller : Type :=
  | Waiting (key : string) (ptr : nat)
  | Inside (key : string) (ptr : nat)
  | Leaving (key : string) (ptr : nat).

(** The critical section of [acquire]. *)
Definition acquire (key : string) (g : gate) : nat * gate :=
  let '(ptr, g) :=
    match dg_entries g !! key with
    | Some ptr => (ptr, g)
    | None => (dg_fresh g, mkGate (<[key := dg_fresh g]> (dg_entries g))
                             (<[dg_fresh g := mkGateEntry false 0]> (dg_heap g)) (S (dg_fresh g)))
    end in
  (ptr, mkGate (dg_entries g) (alter (λ e, mkGateEntry (ge_taken e) (ge_refs e + 1)) ptr (dg_heap g)) (dg_fresh g)).

Definition set_taken (b : bool) (ptr : nat) (g : gate) : gate :=
  mkGate (dg_entries g) (alter (λ e, mkGateEntry b (ge_refs e)) ptr (dg_heap g)) (dg_fresh g).

Definition releaseReference (key : string) (ptr : nat) (g : gate) : gate :=
  let heap := alter (λ e, mkGateEntry (ge_taken e) (ge_refs e - 1)) ptr (dg_heap g) in
  mkGate (if bool_decide (ge_refs <$> heap !! ptr = Some 0 ∧ dg_entries g !! key = Some ptr)
          then delete key (dg_entries g) else dg_entries g) heap (dg_fresh g).

(** A caller that gives up drops its reference; one that is let in returns the
    semaphore and then drops it. *)
Inductive discovery_step : gate * gmap nat gate_caller → gate * gmap nat gate_caller → Prop :=
  | step_acquire g cs i key ptr g' :
      cs !! i = None → acquire key g = (ptr, g') → discovery_step (g, cs) (g', <[i := Waiting key ptr]> cs)
  | step_admitted g cs i key ptr e :
      cs !! i = Some (Waiting key ptr) → dg_heap g !! ptr = Some e → ge_taken e = false →
      discovery_step (g, cs) (set_taken true ptr g, <[i := Inside key ptr]> cs)
  | step_cancelled g cs i key ptr :
      cs !! i = Some (Waiting key ptr) → discovery_step (g, cs) (releaseReference key ptr g, delete i cs)
  | step_release g cs i key ptr :
      cs !! i = Some (Inside key ptr) → discovery_step (g, cs) (set_taken false ptr g, <[i := Leaving key ptr]> cs)
  | step_left g cs i key ptr :
      cs !! i = Some (Leaving key ptr) → discovery_step (g, cs) (releaseReference key ptr g, delete i cs).

Definition fresh_gate : gate * gmap nat gate_caller := (mkGate ∅ ∅ 0, ∅).

Definition at_ (ptr : nat) (c : gate_caller) : Prop :=
  match c with Waiting _ q | Inside _ q | Leaving _ q => q = ptr end.
Definition inside (ptr : nat) (c : gate_caller) : Prop :=
  match c with Inside _ q => q = ptr | _ => False end.
Definition key_of (c : gate_caller) : string := match c with Waiting k _ | Inside k _ | Leaving k _ => k end.
Definition ptr_of (c : gate_caller) : nat := match c with Waiting _ p | Inside _ p | Leaving _ p => p end.

#[export] Instance at_dec ptr c : Decision (at_ ptr c).
Proof. destruct c; cbn; apply _. Defined.
#[export] Instance inside_dec ptr c : Decision (inside ptr c).
Proof. destruct c; cbn; apply _. Defined.

(** Every caller holds a reference to the entry its key names, and an entry is in the
    map exactly while it is referenced. *)
Record gate_ok (g : gate) (cs : gmap nat gate_caller) : Prop := {
  gk_caller i c : cs !! i = Some c → dg_entries g !! key_of c = Some (ptr_of c);
  gk_entry key ptr : dg_entries g !! key = Some ptr → ∃ e, dg_heap g !! ptr = Some e ∧ 0 < ge_refs e;
  gk_refs ptr e : dg_heap g !! ptr = Some e → ge_refs e = Z.of_nat (count (at_ ptr) cs);
  gk_taken ptr e : dg_heap g !! ptr = Some e → count (inside ptr) cs = if ge_taken e then 1%nat else 0%nat;
  gk_fresh ptr e : dg_heap g !! ptr = Some e → (ptr < dg_fresh g)%nat;
  gk_inj k1 k2 ptr : dg_entries g !! k1 = Some ptr → dg_entries g !! k2 = Some ptr → k1 = k2
}.

(** A change of one entry and of the callers that refer to it. *)
Lemma gate_change g cs cs' entries' ptr f :
  gate_ok g cs →
  (∀ k q, entries' !! k = Some q → dg_entries g !! k = Some q ∧
     (q = ptr → ∀ e, dg_heap g !! ptr = Some e → 0 < ge_refs (f e))) →
  (∀ i c, cs' !! i = Some c → entries' !! key_of c = Some (ptr_of c)) →
  (∀ q, q ≠ ptr → count (at_ q) cs' = count (at_ q) cs ∧ count (inside q) cs' = count (inside q) cs) →
  (∀ e, dg_heap g !! ptr = Some e → ge_refs (f e) = Z.of_nat (count (at_ ptr) cs') ∧
     count (inside ptr) cs' = if ge_taken (f e) then 1%nat else 0%nat) →
  gate_ok (mkGate entries' (alter f ptr (dg_heap g)) (dg_fresh g)) cs'.
Proof.
  intros Hg Hent Hcall Hother Hptr. split; cbn.
  - done.
  - intros k q Hk. apply Hent in Hk as [Hk Hpos]. destruct (gk_entry _ _ Hg _ _ Hk) as (e & He & Hr).
    destruct (decide (q = ptr)) as [->|Hne].
    + exists (f e). rewrite lookup_alter_eq, He. split; [done|]. by apply (Hpos eq_refl).
    + exists e. by rewrite lookup_alter_ne.
  - intros q e. destruct (decide (q = ptr)) as [->|Hne].
    + rewrite lookup_alter_eq. intros (e0 & He & ->)%fmap_Some. by apply Hptr.
    + rewrite lookup_alter_ne by done. intros He. rewrite (proj1 (Hother q Hne)). by apply (gk_refs _ _ Hg).
  - intros q e. destruct (decide (q = ptr)) as [->|Hne].
    + rewrite lookup_alter_eq. intros (e0 & He & ->)%fmap_Some. by apply Hptr.
    + rewrite lookup_alter_ne by done. intros He. rewrite (proj2 (Hother q Hne)). by apply (gk_taken _ _ Hg).
  - intros q e He. destruct (decide (q = ptr)) as [->|Hne].
    + rewrite lookup_alter_eq in He. apply fmap_Some in He as (e0 & He & _). by eapply gk_fresh.
    + rewrite lookup_alter_ne in He by done. by eapply gk_fresh.
  - intros k1 k2 q [H1 _]%Hent [H2 _]%Hent. by eapply gk_inj.
Qed.

(** The entry a caller refers to. *)
Lemma caller_entry g cs i c : gate_ok g cs → cs !! i = Some c →
  ∃ e, dg_heap g !! ptr_of c = Some e ∧ 0 < ge_refs e.
Proof. intros Hg Hc. by eapply gk_entry, gk_caller. Qed.

Lemma at_ptr_of c : at_ (ptr_of c) c.
Proof. by destruct c. Qed.

Lemma at_ne q c : q ≠ ptr_of c → ¬ at_ q c ∧ ¬ inside q c.
Proof. destruct c; cbn; naive_solver. Qed.

(** A caller that moves on keeps its reference. *)
Lemma move_ok g cs i c c' (b : bool) :
  gate_ok g cs → cs !! i = Some c → key_of c' = key_of c → ptr_of c' = ptr_of c →
  (count (inside (ptr_of c)) (<[i := c']> cs) = if b then 1%nat else 0%nat) →
  gate_ok (set_taken b (ptr_of c) g) (<[i := c']> cs).
Proof.
  intros Hg Hc Hk Hp Hin. apply (gate_change g cs); [done| | | |].
  - intros k q Hq. split; [done|]. intros -> e He. cbn. destruct (gk_entry _ _ Hg _ _ Hq) as (e' & He' & ?).
    by assert (e' = e) as -> by congruence.
  - intros j d [[<- <-]|[_ Hd]]%lookup_insert_Some; [rewrite Hk, Hp|]; by eapply gk_caller.
  - intros q Hq. pose proof (count_insert (at_ q) cs i c c' Hc) as H1.
    pose proof (count_insert (inside q) cs i c c' Hc) as H2. destruct (at_ne q c Hq) as [N1 N2].
    rewrite <- Hp in Hq. destruct (at_ne q c' Hq) as [N3 N4]. rewrite (decide_False (P := at_ q c)), (decide_False (P := at_ q c')) in H1 by done.
    rewrite (decide_False (P := inside q c)), (decide_False (P := inside q c')) in H2 by done. lia.
  - intros e He. split; [|done]. cbn. rewrite (gk_refs _ _ Hg _ _ He).
    pose proof (count_insert (at_ (ptr_of c)) cs i c c' Hc) as H1. rewrite decide_True in H1 by apply at_ptr_of.
    rewrite decide_True in H1 by (rewrite <- Hp; apply at_ptr_of). lia.
Qed.

(** Dropping a reference. *)
Lemma drop_ok g cs i c :
  gate_ok g cs → cs !! i = Some c → ¬ inside (ptr_of c) c →
  gate_ok (releaseReference (key_of c) (ptr_of c) g) (delete i cs).
Proof.
  intros Hg Hc Hout. destruct (caller_entry _ _ _ _ Hg Hc) as (e & He & Hpos).
  pose proof (count_delete (at_ (ptr_of c)) cs i c Hc) as Hat. rewrite decide_True in Hat by apply at_ptr_of.
  pose proof (count_delete (inside (ptr_of c)) cs i c Hc) as Hin. rewrite decide_False in Hin by done.
  pose proof (gk_refs _ _ Hg _ _ He) as Hrefs. unfold releaseReference. apply (gate_change g cs); [done| | | |].
  - intros k q. rewrite lookup_alter_eq, He. cbn. case_bool_decide as Hb.
    + intros [Hne Hk]%lookup_delete_Some. split; [done|]. intros ->. destruct Hne. symmetry.
      eapply gk_inj; [done..|]. by eapply gk_caller.
    + intros Hk. split; [done|]. intros -> e' He'. assert (e' = e) as -> by congruence. cbn.
      destruct (decide (ge_refs e = 1)) as [H1|]; [|lia]. destruct Hb. split; [by rewrite H1|]. by eapply gk_caller.
  - intros j d [Hne Hd]%lookup_delete_Some. rewrite lookup_alter_eq, He. cbn. case_bool_decide as Hb; [|by eapply gk_caller].
    rewrite lookup_delete_ne; [by eapply gk_caller|]. intros Heq. destruct Hb as [[= Hz] _].
    pose proof (gk_caller _ _ Hg _ _ Hd) as H1. pose proof (gk_caller _ _ Hg _ _ Hc) as H2. rewrite Heq, H1 in H2.
    injection H2 as H2. pose proof (count_pos (at_ (ptr_of c)) (delete i cs) j d) as H3.
    rewrite lookup_delete_ne in H3 by done. rewrite <- H2 in H3 at 1. specialize (H3 Hd (at_ptr_of d)).
    lia.
  - intros q Hq. destruct (at_ne q c Hq) as [N1 N2]. rewrite (count_delete (at_ q) cs i c Hc), (count_delete (inside q) cs i c Hc).
    rewrite (decide_False (P := at_ q c)), (decide_False (P := inside q c)) by done. lia.
  - intros e' He'. assert (e' = e) as -> by congruence. cbn. pose proof (gk_taken _ _ Hg _ _ He). split; [lia|]. rewrite Nat.add_0_r in Hin. congruence.
Qed.

(** A caller that enters by an entry that is there. *)
Lemma join_ok g cs i key ptr :
  gate_ok g cs → cs !! i = None → dg_entries g !! key = Some ptr →
  gate_ok (mkGate (dg_entries g) (alter (λ e, mkGateEntry (ge_taken e) (ge_refs e + 1)) ptr (dg_heap g)) (dg_fresh g))
    (<[i := Waiting key ptr]> cs).
Proof.
  intros Hg Hi Hk. destruct (gk_entry _ _ Hg _ _ Hk) as (e & He & Hpos). apply (gate_change g cs); [done| | | |].
  - intros k p Hp. split; [done|]. intros -> e' He'. assert (e' = e) as -> by congruence. cbn. lia.
  - intros j c [[<- <-]|[_ Hc]]%lookup_insert_Some; [done|]. by eapply gk_caller.
  - intros p Hp. rewrite !count_insert_new by done.
    rewrite (decide_False (P := at_ p _)), (decide_False (P := inside p _)) by (cbn; congruence || auto). lia.
  - intros e' He'. assert (e' = e) as -> by congruence. cbn. rewrite !count_insert_new by done.
    rewrite decide_True, decide_False by (cbn; auto). rewrite (gk_refs _ _ Hg _ _ He), (gk_taken _ _ Hg _ _ He).
    split; [lia|]. by destruct (ge_taken e).
Qed.

Lemma enter_ok g cs i key ptr g' :
  gate_ok g cs → cs !! i = None → acquire key g = (ptr, g') → gate_ok g' (<[i := Waiting key ptr]> cs).
Proof.
  intros Hg Hi Hent. unfold acquire in Hent.
  destruct (dg_entries g !! key) as [q|] eqn:Hk; injection Hent as <- <-; [by apply join_ok|].
  assert (Hf : dg_heap g !! dg_fresh g = None).
  { destruct (dg_heap g !! dg_fresh g) eqn:Hf; [|done]. apply (gk_fresh _ _ Hg) in Hf. lia. }
  assert (Hnone : ∀ j c, cs !! j = Some c → ptr_of c ≠ dg_fresh g).
  { intros j c Hc Heq. destruct (caller_entry _ _ _ _ Hg Hc) as (e & He & _). congruence. }
  assert (Hents : ∀ k, dg_entries g !! k ≠ Some (dg_fresh g)).
  { intros k Hk'. destruct (gk_entry _ _ Hg _ _ Hk') as (e & He & _). congruence. }
  assert (H0 : count (at_ (dg_fresh g)) cs = 0%nat ∧ count (inside (dg_fresh g)) cs = 0%nat).
  { unfold count. rewrite !map_size_empty_iff. split; apply map_empty; intros j; apply map_lookup_filter_None_2; right; intros c Hc Hx; apply Hnone in Hc;
      by destruct c; cbn in *. }
  destruct H0 as [H01 H02]. split; cbn.
  - intros j c [[<- <-]|[_ Hc]]%lookup_insert_Some; cbn; [by rewrite lookup_insert_eq|].
    rewrite lookup_insert_ne; [by eapply gk_caller|]. intros ->. apply (gk_caller _ _ Hg) in Hc. congruence.
  - intros k q [[<- <-]|[_ Hq]]%lookup_insert_Some.
    + rewrite lookup_alter_eq, lookup_insert_eq. eexists. by split.
    + destruct (gk_entry _ _ Hg _ _ Hq) as (e & He & Hr). exists e. split; [|done].
      rewrite lookup_alter_ne, lookup_insert_ne; [done|congruence..].
  - intros q e. rewrite count_insert_new by done. destruct (decide (q = dg_fresh g)) as [->|Hne].
    + rewrite lookup_alter_eq, lookup_insert_eq, decide_True, H01 by done. by intros [= <-].
    + rewrite lookup_alter_ne, lookup_insert_ne, decide_False by (cbn; congruence).
      intros He. rewrite (gk_refs _ _ Hg _ _ He). lia.
  - intros q e. rewrite count_insert_new, decide_False by (done || auto).
    destruct (decide (q = dg_fresh g)) as [->|Hne].
    + rewrite lookup_alter_eq, lookup_insert_eq, H02 by done. by intros [= <-].
    + rewrite lookup_alter_ne, lookup_insert_ne by congruence. intros He. rewrite (gk_taken _ _ Hg _ _ He). lia.
  - intros q e. destruct (decide (q = dg_fresh g)) as [->|Hne]; [lia|].
    rewrite lookup_alter_ne, lookup_insert_ne by congruence. intros He%(gk_fresh _ _ Hg). lia.
  - intros k1 k2 q [[<- <-]|[N1 H1]]%lookup_insert_Some [[<- Heq]|[N2 H2]]%lookup_insert_Some; try done.
    + by apply Hents in H2.
    + subst q. by apply Hents in H1.
    + by eapply gk_inj.
Qed.

Lemma discovery_step_ok g cs g' cs' : gate_ok g cs → discovery_step (g, cs) (g', cs') → gate_ok g' cs'.
Proof.
  intros Hg. inversion 1 as [? ? i key ptr ? Hi He|? ? i key ptr e Hi He Ht|? ? i key ptr Hi|? ? i key ptr Hi|? ? i key ptr Hi];
    subst.
  - by eapply enter_ok.
  - apply (move_ok g cs i (Waiting key ptr) (Inside key ptr) true); try done. cbn.
    pose proof (count_insert (inside ptr) cs i (Waiting key ptr) (Inside key ptr) Hi) as Hc.
    rewrite decide_False, decide_True in Hc by (cbn; auto). pose proof (gk_taken _ _ Hg _ _ He) as Hn. rewrite Ht in Hn. lia.
  - by apply (drop_ok g cs i (Waiting key ptr)); [..|cbn; auto].
  - apply (move_ok g cs i (Inside key ptr) (Leaving key ptr) false); try done. cbn.
    pose proof (count_insert (inside ptr) cs i (Inside key ptr) (Leaving key ptr) Hi) as Hc.
    rewrite decide_True, decide_False in Hc by (cbn; auto).
    destruct (caller_entry _ _ _ _ Hg Hi) as (e & He & _). pose proof (gk_taken _ _ Hg _ _ He) as Hn. cbn in Hn.
    destruct (ge_taken e); lia.
  - by apply (drop_ok g cs i (Leaving key ptr)); [..|cbn; auto].
Qed.

Lemma gate_reachable s : rtc discovery_step fresh_gate s → gate_ok s.1 s.2.
Proof.
  assert (Hrun : ∀ x y, rtc discovery_step x y → gate_ok x.1 x.2 → gate_ok y.1 y.2).
  { induction 1 as [|[g cs] [g' cs'] z Hstep _ IH]; [done|]. intros Hg. apply IH. by eapply discovery_step_ok. }
  intros Hreach. apply (Hrun _ _ Hreach). by split; cbn; intros *; rewrite ?lookup_empty.
Qed.

(** Discovery of a repository is serialized and leaves nothing behind: at every
    moment at most one caller is inside the gate of a name, a caller that waits does
    so at the same semaphore as the one inside, and a name is in the map exactly while
    some caller waits for it, is inside or is leaving. *)
Theorem discovery_exclusive g cs :
  rtc discovery_step fresh_gate (g, cs) →
  (∀ i j key p q, cs !! i = Some (Inside key p) → cs !! j = Some (Inside key q) → i = j) ∧
  (∀ i j key p q, cs !! i = Some (Inside key p) → cs !! j = Some (Waiting key q) → q = p) ∧
  (∀ key, is_Some (dg_entries g !! key) ↔ ∃ i c, cs !! i = Some c ∧ key_of c = key).
Proof.
  intros Hg%gate_reachable. cbn in Hg.
  split_and!.
  - intros i j key p q Hi Hj. pose proof (gk_caller _ _ Hg _ _ Hi) as H1. pose proof (gk_caller _ _ Hg _ _ Hj) as H2.
    cbn in H1, H2. rewrite H1 in H2. injection H2 as <-. destruct (caller_entry _ _ _ _ Hg Hi) as (e & He & _).
    apply (count_one (inside p) cs i j (Inside key p) (Inside key p)); [|done..]. cbn in He. rewrite (gk_taken _ _ Hg _ _ He). destruct (ge_taken e); lia.
  - intros i j key p q Hi Hj. pose proof (gk_caller _ _ Hg _ _ Hi) as H1. pose proof (gk_caller _ _ Hg _ _ Hj) as H2.
    cbn in H1, H2. congruence.
  - intros key. split.
    + intros [ptr Hk]. destruct (gk_entry _ _ Hg _ _ Hk) as (e & He & Hpos). rewrite (gk_refs _ _ Hg _ _ He) in Hpos.
      destruct (decide (count (at_ ptr) cs = 0%nat)) as [H0|H0]; [lia|]. unfold count in H0.
      rewrite map_size_empty_iff in H0. apply map_choose in H0 as (i & c & [Hc Hat]%map_lookup_filter_Some).
      exists i, c. split; [done|]. eapply gk_inj; [done|by eapply gk_caller|]. by replace (ptr_of c) with ptr by (by destruct c).
    + intros (i & c & Hc & <-). exists (ptr_of c). by eapply gk_caller.
Qed.

(** Two callers of one name: the second waits while the first is inside. *)
Definition wit_gate : gate := (acquire "acme/app" (set_taken true 0 (acquire "acme/app" (mkGate ∅ ∅ 0)).2)).2.

Definition wit_callers : gmap nat gate_caller :=
  <[1%nat := Waiting "acme/app" 0]> {[0%nat := Inside "acme/app" 0]}.

Lemma discovery_exclusive_witness :
  is_Some (dg_entries wit_gate !! "acme/app") ∧
  ∀ j q, wit_callers !! j = Some (Inside "acme/app" q) → 0%nat = j.
Proof.
  destruct (discovery_exclusive wit_gate wit_callers) as (H1 & _ & H3).
  - eapply rtc_l; [by apply (step_acquire _ _ 0%nat "acme/app" 0%nat)|].
    eapply rtc_l; [eapply (step_admitted _ _ 0%nat "acme/app" 0%nat); vm_compute; reflexivity|].
    eapply rtc_l; [by apply (step_acquire _ _ 1%nat "acme/app" 0%nat)|].
    unfold wit_callers. rewrite insert_insert_eq. apply rtc_refl.
  - split.
    + apply H3. exists 0%nat, (Inside "acme/app" 0). by split.
    + intros j q Hj. by eapply H1; [|exact Hj].
Defined.
End Discovery.

(** ** The parent repository of a batch *)

Module Incidental.
(** [errors.Is(err, store.ErrObservationSuperseded)]. *)
Definition is_superseded (e : write_error) : bool :=
  match e with ErrObservationSuperseded => true | _ => false end.

Definition incidentalRepositoryApplyAttempts : nat := 5.

(** What other writers do meanwhile: before attempt [i] takes its observation, and
    between its observation and its write. *)
Record interference : Type := mkInterference {
  before : nat → writer_state → writer_state;
  during : nat → writer_state → writer_state
}.

Section apply.
Context (ctx : fences) (key : string) (r : RepositoryRecord) (source : string) (now : time).
Context (others : interference).

(** The attempts from [i] on, with [n] left; the first one of all uses the observation
    the batch began with. *)
Fixpoint attempts (n i : nat) (o : Observation) (st : writer_state) : result write_error unit * writer_state :=
  match n with
  | O => (Err ErrObservationSuperseded, st)
  | S n =>
      let st := during others i st in
      match ApplyRepositoryObserved ctx (Some o) r source "" now st with
      | Ok st => (Ok tt, st)
      | Err e =>
          if is_superseded e then
            match n with
            | O => (Err e, st)
            | S _ =>
                let st := before others (S i) st in
                match BeginObservation key st with
                | Err e => (Err e, st)
                | Ok o => attempts n (S i) o st
                end
            end
          else (Err e, st)
      end
  end.

(** [applyIncidentalRepository], with the fence on the repository's refresh generation
    in [ctx]. *)
Definition applyIncidentalRepository (o : Observation) (st : writer_state)
    : result write_error unit * writer_state :=
  attempts incidentalRepositoryApplyAttempts 0 o st.

(** Another writer has committed the repository in every window between an
    observation and its write. *)
Fixpoint contended (n i : nat) (o : Observation) (st : writer_state) : Prop :=
  match n with
  | O => True
  | S n =>
      version_of (during others i st) key ≠ ob_version o ∧
      match n with
      | O => True
      | S _ =>
          let st := before others (S i) (during others i st) in
          contended n (S i) (mkObservation key (version_of st key)) st
      end
  end.

Context (Hkey : key = Outbox.RepositoryKey (InstallationID r) (GitHubID r)).

Lemma apply_tx_superseded c : applyRepositoryTx r source "" now c ≠ Err ErrObservationSuperseded.
Proof.
  unfold applyRepositoryTx, validateRepository. case_if; [done|]. cbn.
  destruct (UpsertRepositoryWriteIfNewer _ _ _ _ _) as [w c1]. by destruct w; [|destruct (repos c1 !! _)].
Qed.

Lemma refresh_check_superseded g f : checkRefreshGenerationFence g f ≠ Err ErrObservationSuperseded.
Proof. unfold checkRefreshGenerationFence. by repeat case_match. Qed.

(** The write of a repository is superseded exactly when the version moved. *)
Lemma repository_superseded o st : branch_fence ctx = None → ob_key o = key →
  (ApplyRepositoryObserved ctx (Some o) r source "" now st = Err ErrObservationSuperseded ↔
   version_of st key ≠ ob_version o).
Proof.
  intros Hb Ho. unfold ApplyRepositoryObserved, applyRepository, withEntityTx, requireObservation. rewrite Ho, <- Hkey.
  rewrite bool_decide_true by done. cbn. unfold verifyObservationVersion. rewrite Ho, Hb.
  destruct (Z.eqb_spec (version_of st key) (ob_version o)) as [Heq|Hne]; cbn; [|done]. split; [|done].
  destruct (applyRepositoryTx _ _ _ _ _) as [[[row b] c]|e] eqn:Htx; cbn.
  - destruct (refresh_fence ctx) as [f|]; cbn; [|done].
    destruct (checkRefreshGenerationFence _ f) as [[]|e] eqn:Hf; cbn; [done|]. intros [= ->].
    by apply refresh_check_superseded in Hf.
  - intros [= ->]. by apply apply_tx_superseded in Htx.
Qed.

Lemma key_nonempty : key ≠ "".
Proof. by rewrite Hkey. Qed.

Lemma attempts_step n i o st :
  attempts (S (S n)) i o st =
    match ApplyRepositoryObserved ctx (Some o) r source "" now (during others i st) with
    | Ok st' => (Ok tt, st')
    | Err e =>
        if is_superseded e then
          let st := before others (S i) (during others i st) in
          match BeginObservation key st with Err e => (Err e, st) | Ok o => attempts (S n) (S i) o st end
        else (Err e, during others i st)
    end.
Proof. reflexivity. Qed.

Lemma attempts_superseded n : ∀ i o st, branch_fence ctx = None → ob_key o = key →
  (attempts (S n) i o st).1 = Err ErrObservationSuperseded ↔ contended (S n) i o st.
Proof.
  induction n as [|n IH]; intros i o st Hb Ho.
  all: pose proof (repository_superseded o (during others i st) Hb Ho) as Hs.
  - cbn [attempts contended]. destruct (ApplyRepositoryObserved _ _ _ _ _ _ _) as [st'|e]; cbn [fst];
      [split; [done|by intros [?%Hs _]]|].
    destruct (is_superseded e) eqn:He; cbn [fst].
    + destruct e; try done. split; [|done]. intros _. split; [by apply Hs|done].
    + split; [by intros [= ->]|]. intros [Hv%Hs _]. by injection Hv as ->.
  - rewrite attempts_step. destruct (ApplyRepositoryObserved _ _ _ _ _ _ _) as [st'|e]; cbn [fst];
      [split; [done|by intros [?%Hs _]]|].
    destruct (is_superseded e) eqn:He.
    + destruct e; try done. unfold BeginObservation. rewrite bool_decide_false by apply key_nonempty.
      cbv zeta. rewrite IH by done. split; [intros Hc; split; [by apply Hs|done]|by intros [_ Hc]].
    + split; [by intros [= ->]|]. intros [Hv%Hs _]. by injection Hv as ->.
Qed.
End apply.

(** The parent repository of a batch is not lost to a race. A write of the
    repository that commits while the batch is fetching only costs one attempt: the
    incidental write reports a superseded observation exactly when another writer has
    committed the repository in each of the five windows between an observation and
    its write, so with one quiet window it lands or ends for another reason. *)
Theorem incidental_absorbs_races (ctx : fences) (r : RepositoryRecord) (source : string) (now : time)
    (others : interference) (o : Observation) (st : writer_state) :
  branch_fence ctx = None → ob_key o = Outbox.RepositoryKey (InstallationID r) (GitHubID r) →
  (applyIncidentalRepository ctx (ob_key o) r source now others o st).1 = Err ErrObservationSuperseded ↔
  contended (ob_key o) others incidentalRepositoryApplyAttempts 0 o st.
Proof. intros Hb Ho. by apply attempts_superseded. Qed.

(** One competing commit before the first write, then quiet. *)
Definition wit_others : interference :=
  mkInterference (λ _ st, st)
    (λ i st, match i with
             | O => mkWriter (AdvanceEntityObservationVersion "repo:7:9" (versions st)) (body st)
             | S _ => st
             end).

Definition wit_writer : writer_state := mkWriter ∅ (mkCache {[ 9 := demo_repo ]} 1 ∅ [] [] ∅ [] ∅ ∅).

Lemma incidental_absorbs_races_witness :
  (applyIncidentalRepository no_fences "repo:7:9" wit_record "webhook" 50 wit_others (mkObservation "repo:7:9" 0)
     wit_writer).1 ≠ Err ErrObservationSuperseded.
Proof.
  rewrite (incidental_absorbs_races no_fences wit_record "webhook" 50 wit_others (mkObservation "repo:7:9" 0) wit_writer);
    [|reflexivity|reflexivity].
  cbn. intros (_ & H & _). by apply H.
Defined.
End Incidental.

(** ** Batches of callers *)

Module Batching.
(** [pullBatchKey]: the budget class and the source. *)
Abbreviation pullBatchKey := (string * string)%type.

Record pendingPullBatch : Type := mkBatch {
  ba_key : pullBatchKey;
  ba_items : list nat;
  ba_timer : bool;
  ba_closed : bool
}.

(** The coordinator; a batch is numbered when it is made, and [co_running] holds the
    batches whose [execute] is under way. *)
Record prCoordinator : Type := mkCoordinator {
  co_batches : gmap pullBatchKey nat;
  co_heap : gmap nat pendingPullBatch;
  co_fresh : nat;
  co_running : gset nat
}.

Definition batch_max : Z := MaxPullRequestBatch.

Definition close (ptr : nat) (b : pendingPullBatch) (c : prCoordinator) : prCoordinator :=
  mkCoordinator (delete (ba_key b) (co_batches c))
    (<[ptr := mkBatch (ba_key b) (ba_items b) false true]> (co_heap c)) (co_fresh c) ({[ptr]} ∪ co_running c).

(** The batch of a key, made with a timer when there is none. *)
Definition batch_of (k : pullBatchKey) (c : prCoordinator) : nat * pendingPullBatch * prCoordinator :=
  let make :=
    (co_fresh c, mkBatch k [] true false,
     mkCoordinator (<[k := co_fresh c]> (co_batches c)) (<[co_fresh c := mkBatch k [] true false]> (co_heap c))
       (S (co_fresh c)) (co_running c)) in
  match co_batches c !! k with
  | Some ptr => match co_heap c !! ptr with Some b => (ptr, b, c) | None => make end
  | None => make
  end.

(** The critical section of [submit]. *)
Definition submit (i : nat) (k : pullBatchKey) (c : prCoordinator) : prCoordinator :=
  let '(ptr, b, c) := batch_of k c in
  let b := mkBatch (ba_key b) (ba_items b ++ [i]) (ba_timer b) (ba_closed b) in
  if Z.of_nat (length (ba_items b)) =? batch_max then close ptr b c
  else mkCoordinator (co_batches c) (<[ptr := b]> (co_heap c)) (co_fresh c) (co_running c).

(** [flush], which a timer calls, perhaps after the batch has filled up. *)
Definition flush (ptr : nat) (c : prCoordinator) : prCoordinator :=
  match co_heap c !! ptr with
  | None => c
  | Some b =>
      if ba_closed b || negb (bool_decide (co_batches c !! ba_key b = Some ptr)) then c else close ptr b c
  end.

(** The coordinator, the keys its items were submitted with, and the answers sent. *)
Record batching : Type := mkBatching {
  bt_coordinator : prCoordinator;
  bt_submitted : gmap nat pullBatchKey;
  bt_answers : list nat
}.

Inductive batching_step : batching → batching → Prop :=
  | step_submit c m l i k :
      m !! i = None → batching_step (mkBatching c m l) (mkBatching (submit i k c) (<[i := k]> m) l)
  | step_timer c m l ptr : batching_step (mkBatching c m l) (mkBatching (flush ptr c) m l)
  | step_finish c m l ptr b :
      ptr ∈ co_running c → co_heap c !! ptr = Some b →
      batching_step (mkBatching c m l)
        (mkBatching (mkCoordinator (co_batches c) (co_heap c) (co_fresh c) (co_running c ∖ {[ptr]})) m
           (l ++ ba_items b)).

Definition no_batches : batching := mkBatching (mkCoordinator ∅ ∅ 0 ∅) ∅ [].

(** A batch that has been answered. *)
Definition done_batch (c : prCoordinator) (ptr : nat) (b : pendingPullBatch) : Prop :=
  co_heap c !! ptr = Some b ∧ ba_closed b = true ∧ ptr ∉ co_running c.

Record coordinator_ok (c : prCoordinator) (m : gmap nat pullBatchKey) : Prop := {
  ck_pending k ptr : co_batches c !! k = Some ptr → ∃ b, co_heap c !! ptr = Some b ∧ ba_key b = k ∧ ba_closed b = false;
  ck_open ptr b : co_heap c !! ptr = Some b → ba_closed b = false →
    co_batches c !! ba_key b = Some ptr ∧ ba_timer b = true ∧ Z.of_nat (length (ba_items b)) < batch_max;
  ck_size ptr b : co_heap c !! ptr = Some b →
    (0 < length (ba_items b))%nat ∧ Z.of_nat (length (ba_items b)) ≤ batch_max ∧ NoDup (ba_items b);
  ck_running ptr : ptr ∈ co_running c → ∃ b, co_heap c !! ptr = Some b ∧ ba_closed b = true;
  ck_item i k : m !! i = Some k ↔ ∃ ptr b, co_heap c !! ptr = Some b ∧ i ∈ ba_items b ∧ ba_key b = k;
  ck_once i p q b d : co_heap c !! p = Some b → co_heap c !! q = Some d → i ∈ ba_items b → i ∈ ba_items d → p = q;
  ck_fresh ptr b : co_heap c !! ptr = Some b → (ptr < co_fresh c)%nat
}.

Record batching_ok (s : batching) : Prop := {
  bk_coordinator : coordinator_ok (bt_coordinator s) (bt_submitted s);
  bk_once : NoDup (bt_answers s);
  bk_answers i : i ∈ bt_answers s ↔ ∃ ptr b, done_batch (bt_coordinator s) ptr b ∧ i ∈ ba_items b
}.

(** The batch an item goes to: a new one, or the open one of its key. *)
Definition target (c : prCoordinator) (k : pullBatchKey) (ptr : nat) (old : list nat) : Prop :=
  (co_heap c !! ptr = None ∧ co_batches c !! k = None ∧ old = []) ∨
  (co_heap c !! ptr = Some (mkBatch k old true false) ∧ co_batches c !! k = Some ptr).

(** What [submit] does. *)
Lemma submit_spec i k c m : coordinator_ok c m →
  ∃ ptr old fresh, target c k ptr old ∧ (co_fresh c ≤ fresh)%nat ∧ (ptr < fresh)%nat ∧
    let full := Z.of_nat (length (old ++ [i])) =? batch_max in
    submit i k c =
      mkCoordinator (if full then delete k (co_batches c) else <[k := ptr]> (co_batches c))
        (<[ptr := mkBatch k (old ++ [i]) (negb full) full]> (co_heap c)) fresh
        (if full then {[ptr]} ∪ co_running c else co_running c).
Proof.
  intros Hc. unfold submit, batch_of. destruct (co_batches c !! k) as [ptr|] eqn:Hk.
  - destruct (ck_pending _ _ Hc _ _ Hk) as ([k' old t cl] & Hb & Hbk & Hcl). cbn in Hbk, Hcl. subst k' cl.
    destruct (ck_open _ _ Hc _ _ Hb eq_refl) as (_ & Ht & _). cbn in Ht. subst t.
    exists ptr, old, (co_fresh c). split; [by right|]. split; [done|]. split; [by eapply ck_fresh|]. rewrite Hb.
    cbn [ba_items ba_key ba_timer ba_closed]. case_if; cbn [negb].
    + done.
    + by rewrite (insert_id (co_batches c)).
  - exists (co_fresh c), [], (S (co_fresh c)).
    assert (Hf : co_heap c !! co_fresh c = None).
    { destruct (co_heap c !! co_fresh c) eqn:Hf; [|done]. apply (ck_fresh _ _ Hc) in Hf. lia. }
    split; [by left|]. split; [lia|]. split; [lia|].
    cbn [ba_items ba_key ba_timer ba_closed]. case_if; cbn [negb]; unfold close;
      cbn [ba_items ba_key ba_timer ba_closed co_batches co_heap co_fresh co_running].
    + by rewrite insert_insert_eq, delete_insert_eq.
    + by rewrite insert_insert_eq.
Qed.

Lemma old_items c m k ptr old j : coordinator_ok c m → target c k ptr old → j ∈ old →
  m !! j = Some k ∧ ∃ b, co_heap c !! ptr = Some b ∧ j ∈ ba_items b.
Proof.
  intros Hc [(_ & _ & ->)|[Hb _]] Hj; [by apply elem_of_nil in Hj|]. split; [|by eexists].
  apply (ck_item _ _ Hc). by exists ptr, (mkBatch k old true false).
Qed.

Lemma target_size c m k ptr old : coordinator_ok c m → target c k ptr old →
  Z.of_nat (length old) < batch_max ∧ NoDup old.
Proof.
  intros Hc [(_ & _ & ->)|[Hb _]]; [by split; [|constructor]|].
  destruct (ck_open _ _ Hc _ _ Hb eq_refl) as (_ & _ & ?). by destruct (ck_size _ _ Hc _ _ Hb) as (_ & _ & ?).
Qed.

Lemma submit_ok i k c m :
  coordinator_ok c m → m !! i = None → coordinator_ok (submit i k c) (<[i := k]> m).
Proof.
  intros Hc Hi. destruct (submit_spec i k c m Hc) as (ptr & old & fresh & Ht & Hfr & Hp & ->).
  destruct (target_size _ _ _ _ _ Hc Ht) as [Hlen Hnd].
  assert (Hnew : ∀ q d, co_heap c !! q = Some d → i ∉ ba_items d).
  { intros q d Hd Hin. assert (m !! i = Some (ba_key d)) by (apply (ck_item _ _ Hc); eauto). congruence. }
  assert (Hold : i ∉ old).
  { intros Hin. destruct (old_items _ _ _ _ _ _ Hc Ht Hin) as [? _]. congruence. }
  set (full := _ =? batch_max). split; cbn [co_batches co_heap co_fresh co_running].
  - intros k' q Hq. assert (Hcase : (full = false ∧ k' = k ∧ q = ptr) ∨ (k' ≠ k ∧ co_batches c !! k' = Some q)).
    { destruct full; [apply lookup_delete_Some in Hq as [? ?]; right; by split|].
      apply lookup_insert_Some in Hq as [[<- <-]|[? ?]]; [by left|right; by split]. }
    destruct Hcase as [(-> & -> & ->)|[Hk Hq']]; [rewrite lookup_insert_eq; by eexists|].
    destruct (ck_pending _ _ Hc _ _ Hq') as (b & Hb & Hbk & Hcl). exists b. rewrite lookup_insert_ne; [done|].
    intros ->. destruct Ht as [(? & _)|[Hb' _]]; [congruence|]. rewrite Hb in Hb'. injection Hb' as ->. by cbn in Hbk.
  - intros q d Hd Hcl. apply lookup_insert_Some in Hd as [[<- <-]|[Hne Hd]]; cbn in *.
    + rewrite Hcl. cbn. rewrite lookup_insert_eq. split_and!; [done|done|]. unfold full in Hcl. rewrite length_app in *.
      cbn in *. apply Z.eqb_neq in Hcl. lia.
    + destruct (ck_open _ _ Hc _ _ Hd Hcl) as (Hbk & Htm & Hl). split_and!; [|done|done].
      assert (ba_key d ≠ k) as Hk.
      { intros <-. destruct Ht as [(_ & ? & _)|[_ ?]]; congruence. }
      destruct full; [by rewrite lookup_delete_ne|by rewrite lookup_insert_ne].
  - intros q d [[<- <-]|[_ Hd]]%lookup_insert_Some; [|by eapply ck_size]. cbn. rewrite length_app. cbn. split_and!; [lia|lia|].
    apply NoDup_app. split_and!; [done| |apply NoDup_singleton]. intros j Hj ->%list_elem_of_singleton. done.
  - intros q Hq. assert (Hcase : (full = true ∧ q = ptr) ∨ q ∈ co_running c)
      by (destruct full; [apply elem_of_union in Hq as [->%elem_of_singleton|?]; auto|by right]).
    destruct Hcase as [[-> ->]|Hq']; [rewrite lookup_insert_eq; by eexists|].
    destruct (ck_running _ _ Hc _ Hq') as (b & Hb & Hcl). exists b. rewrite lookup_insert_ne; [done|]. intros ->.
    destruct Ht as [(? & _)|[Hb' _]]; [congruence|]. rewrite Hb in Hb'. by injection Hb' as ->.
  - intros j k'. rewrite lookup_insert_Some, (ck_item _ _ Hc). split.
    + intros [[<- <-]|[Hne (q & d & Hd & Hj & Hk)]].
      { exists ptr. eexists. rewrite lookup_insert_eq. split_and!; [done|set_solver|done]. }
      destruct (decide (q = ptr)) as [->|Hq]; [|exists q, d; by rewrite lookup_insert_ne].
      exists ptr. eexists. rewrite lookup_insert_eq. destruct Ht as [(? & _)|[Hb _]]; [congruence|].
      rewrite Hd in Hb. injection Hb as ->. cbn in *. split_and!; [done|set_solver|done].
    + intros (q & d & Hd & Hj & Hk). apply lookup_insert_Some in Hd as [[<- <-]|[Hne Hd]]; cbn in *.
      * apply elem_of_app in Hj as [Hj| ->%list_elem_of_singleton]; [|by left]. right.
        destruct (old_items _ _ _ _ _ _ Hc Ht Hj) as [Hm (b & Hb & Hjb)]. split; [congruence|].
        apply (ck_item _ _ Hc). by rewrite Hm, Hk.
      * right. split; [|eauto 6]. intros ->. by apply (Hnew _ _ Hd).
  - intros j p q b d Hb Hd Hjb Hjd. apply lookup_insert_Some in Hb as [[<- <-]|[Hpne Hb]], Hd as [[<- <-]|[Hqne Hd]];
      cbn in *; [done| | |by eapply ck_once].
    + apply elem_of_app in Hjb as [Hj| ->%list_elem_of_singleton]; [|by apply (Hnew _ _ Hd) in Hjd].
      destruct (old_items _ _ _ _ _ _ Hc Ht Hj) as [_ (e & He & Hje)]. by eapply (ck_once _ _ Hc j).
    + apply elem_of_app in Hjd as [Hj| ->%list_elem_of_singleton]; [|by apply (Hnew _ _ Hb) in Hjb].
      destruct (old_items _ _ _ _ _ _ Hc Ht Hj) as [_ (e & He & Hje)]. by eapply (ck_once _ _ Hc j).
  - intros q d [[<- <-]|[_ Hd]]%lookup_insert_Some; [done|]. apply (ck_fresh _ _ Hc) in Hd. lia.
Qed.

Lemma submit_done i k c m q d : coordinator_ok c m → done_batch (submit i k c) q d ↔ done_batch c q d.
Proof.
  intros Hc. destruct (submit_spec i k c m Hc) as (ptr & old & fresh & Ht & _ & _ & ->).
  set (full := _ =? batch_max). unfold done_batch. cbn [co_heap co_running]. split.
  - intros (Hd & Hcl & Hr). apply lookup_insert_Some in Hd as [[<- <-]|[Hne Hd]]; cbn in *.
    + rewrite Hcl in Hr. set_solver.
    + split_and!; [done|done|]. destruct full; set_solver.
  - intros (Hd & Hcl & Hr). assert (q ≠ ptr) as Hne.
    { intros ->. destruct Ht as [(? & _)|[Hb _]]; [congruence|]. rewrite Hd in Hb. injection Hb as ->. done. }
    rewrite lookup_insert_ne by done. split_and!; [done|done|]. destruct full; set_solver.
Qed.

(** A flush closes the batch, or finds it closed. *)
Lemma flush_spec ptr c m : coordinator_ok c m →
  flush ptr c = c ∨ ∃ b, co_heap c !! ptr = Some b ∧ ba_closed b = false ∧ flush ptr c = close ptr b c.
Proof.
  intros Hc. unfold flush. destruct (co_heap c !! ptr) as [b|] eqn:Hb; [|by left].
  destruct (ba_closed b) eqn:Hcl; cbn; [by left|]. destruct (ck_open _ _ Hc _ _ Hb Hcl) as (Hk & _).
  rewrite bool_decide_true by done. right. by exists b.
Qed.

Lemma close_ok ptr b c m :
  coordinator_ok c m → co_heap c !! ptr = Some b → ba_closed b = false → coordinator_ok (close ptr b c) m.
Proof.
  intros Hc Hb Hcl. destruct (ck_open _ _ Hc _ _ Hb Hcl) as (Hk & _ & _). split; cbn.
  - intros k q [Hne Hq]%lookup_delete_Some. destruct (ck_pending _ _ Hc _ _ Hq) as (d & Hd & Hdk & Hdc). exists d.
    rewrite lookup_insert_ne; [done|]. intros ->. rewrite Hb in Hd. injection Hd as ->. done.
  - intros q d [[<- <-]|[Hne Hd]]%lookup_insert_Some Hdc; [done|]. destruct (ck_open _ _ Hc _ _ Hd Hdc) as (Hdk & ? & ?).
    split_and!; [|done..]. rewrite lookup_delete_ne; [done|]. intros Heq. rewrite <- Heq in Hdk. congruence.
  - intros q d [[<- <-]|[Hne Hd]]%lookup_insert_Some; [by apply (ck_size _ _ Hc ptr b)|by eapply ck_size].
  - intros q [->%elem_of_singleton|Hq]%elem_of_union; [rewrite lookup_insert_eq; by eexists|].
    destruct (ck_running _ _ Hc _ Hq) as (d & Hd & Hdc). exists d. rewrite lookup_insert_ne; [done|]. intros ->. congruence.
  - intros i k. rewrite (ck_item _ _ Hc). split.
    + intros (q & d & Hd & Hi & Hdk). destruct (decide (q = ptr)) as [->|Hne].
      * exists ptr. eexists. rewrite lookup_insert_eq. split; [done|]. assert (d = b) as -> by congruence. done.
      * exists q, d. by rewrite lookup_insert_ne.
    + intros (q & d & Hd & Hi & Hdk). apply lookup_insert_Some in Hd as [[<- <-]|[Hne Hd]]; eauto.
  - intros i p q d e Hd He. apply lookup_insert_Some in Hd as [[<- <-]|[Hpne Hd]], He as [[<- <-]|[Hqne He]]; cbn; [done| | |];
      intros H1 H2; by eapply (ck_once _ _ Hc i).
  - intros q d [[<- <-]|[Hne Hd]]%lookup_insert_Some; by eapply ck_fresh.
Qed.

Lemma close_done ptr b c q d : co_heap c !! ptr = Some b → ba_closed b = false →
  done_batch (close ptr b c) q d ↔ done_batch c q d.
Proof.
  intros Hb Hcl. unfold done_batch. cbn. split.
  - intros (Hd & Hdc & Hr). apply lookup_insert_Some in Hd as [[<- <-]|[Hne Hd]]; [set_solver|]. split_and!; [done..|set_solver].
  - intros (Hd & Hdc & Hr). assert (q ≠ ptr) by congruence. rewrite lookup_insert_ne by done. split_and!; [done..|set_solver].
Qed.

Lemma finish_coordinator c m ptr : coordinator_ok c m →
  coordinator_ok (mkCoordinator (co_batches c) (co_heap c) (co_fresh c) (co_running c ∖ {[ptr]})) m.
Proof. intros []. split; cbn; try done. intros q [Hq _]%elem_of_difference. auto. Qed.

Lemma batching_step_ok s s' : batching_ok s → batching_step s s' → batching_ok s'.
Proof.
  intros [Hc Hnd Ha]. inversion 1 as [c m l i k Hi|c m l ptr|c m l ptr b Hr Hb]; subst; cbn in Hc, Hnd, Ha.
  - split; cbn; [by apply submit_ok|done|]. intros j. rewrite Ha. by setoid_rewrite (submit_done i k c m _ _ Hc).
  - destruct (flush_spec ptr c m Hc) as [->|(b & Hb & Hcl & ->)]; [by split|].
    split; cbn; [by apply close_ok|done|]. intros j. rewrite Ha. by setoid_rewrite (close_done ptr b c _ _ Hb Hcl).
  - destruct (ck_running _ _ Hc _ Hr) as (b' & Hb' & Hcl). assert (b' = b) as -> by congruence. clear Hb'.
    assert (Hdone : ∀ q d, done_batch (mkCoordinator (co_batches c) (co_heap c) (co_fresh c) (co_running c ∖ {[ptr]})) q d ↔
      done_batch c q d ∨ (q = ptr ∧ d = b)).
    { intros q d. unfold done_batch. cbn. split; [|intros [(? & ? & ?)|[-> ->]]; split_and!; set_solver].
      intros (Hd & Hdc & Hq). destruct (decide (q = ptr)) as [->|]; [right; split; congruence|left; set_solver]. }
    split; cbn; [by apply finish_coordinator| |].
    + apply NoDup_app. split_and!; [done| |by apply (ck_size _ _ Hc _ _ Hb)].
      intros i (q & d & (Hd & Hdc & Hq) & Hi)%Ha Hib. apply Hq. by rewrite (ck_once _ _ Hc i q ptr d b).
    + intros i. rewrite elem_of_app, Ha. setoid_rewrite Hdone. split.
      * intros [(q & d & Hd & Hi)|Hi]; [exists q, d|exists ptr, b]; auto.
      * intros (q & d & [Hd|[-> ->]] & Hi); eauto.
Qed.

Lemma batching_reachable s : rtc batching_step no_batches s → batching_ok s.
Proof.
  intros Hrun. assert (H0 : batching_ok no_batches).
  { split; cbn; [split; cbn; intros *; rewrite ?lookup_empty; [done..| |done|done]|constructor|].
    - split; [done|]. by intros (? & ? & ? & _).
    - intros i. split; [by intros ?%elem_of_nil|]. by intros (? & ? & (? & _) & _). }
  induction Hrun; eauto using batching_step_ok.
Qed.

(** C34. No caller of the coordinator is lost or answered twice. Whatever the
    interleaving of submissions, timers and executions: every batch has at most 25
    items, all of one budget class and one source; no item is answered twice; and an
    item that has been submitted is answered, or is in a batch that is being executed,
    or is in a batch that is still open and whose timer is armed. *)
Theorem batching_no_loss (s : batching) :
  rtc batching_step no_batches s →
  (∀ ptr b i, co_heap (bt_coordinator s) !! ptr = Some b →
     Z.of_nat (length (ba_items b)) ≤ 25 ∧ (i ∈ ba_items b → bt_submitted s !! i = Some (ba_key b))) ∧
  NoDup (bt_answers s) ∧
  (∀ i k, bt_submitted s !! i = Some k →
     i ∈ bt_answers s ∨
     ∃ ptr b, co_heap (bt_coordinator s) !! ptr = Some b ∧ i ∈ ba_items b ∧ i ∉ bt_answers s ∧
       (ptr ∈ co_running (bt_coordinator s) ∨
        ba_closed b = false ∧ ba_timer b = true ∧ co_batches (bt_coordinator s) !! k = Some ptr)).
Proof.
  intros [Hc Hnd Ha]%batching_reachable. split_and!; [| |].
  - intros ptr b i Hb. split; [by apply (ck_size _ _ Hc _ _ Hb)|]. intros Hi. apply (ck_item _ _ Hc). eauto.
  - done.
  - intros i k (ptr & b & Hb & Hi & Hk)%(ck_item _ _ Hc). destruct (decide (i ∈ bt_answers s)) as [|Hn]; [by left|right].
    exists ptr, b. split_and!; [done|done|done|]. destruct (decide (ptr ∈ co_running (bt_coordinator s))) as [|Hr]; [by left|right].
    destruct (ba_closed b) eqn:Hcl.
    + destruct Hn. apply Ha. by exists ptr, b.
    + destruct (ck_open _ _ Hc _ _ Hb Hcl) as (? & ? & _). by rewrite <- Hk.
Qed.

(** Two items of one class, flushed and answered. *)
Definition wit_open : prCoordinator :=
  submit 1 ("event", "webhook") (submit 0 ("event", "webhook") (mkCoordinator ∅ ∅ 0 ∅)).

Lemma batching_no_loss_witness :
  ∃ s, rtc batching_step no_batches s ∧ bt_submitted s !! 1%nat = Some ("event", "webhook") ∧
    (1%nat ∈ bt_answers s ∨ ∃ ptr b, co_heap (bt_coordinator s) !! ptr = Some b ∧ 1%nat ∈ ba_items b ∧
       1%nat ∉ bt_answers s ∧ (ptr ∈ co_running (bt_coordinator s) ∨
         ba_closed b = false ∧ ba_timer b = true ∧ co_batches (bt_coordinator s) !! ("event", "webhook") = Some ptr)).
Proof.
  assert (Hrun : rtc batching_step no_batches (mkBatching (flush 0 wit_open)
    {[1%nat := ("event", "webhook"); 0%nat := ("event", "webhook")]} [])).
  { eapply rtc_l; [by apply (step_submit _ _ _ 0%nat ("event", "webhook"))|].
    eapply rtc_l; [by apply (step_submit _ _ _ 1%nat ("event", "webhook"))|].
    eapply rtc_l; [by apply (step_timer _ _ _ 0%nat)|]. apply rtc_refl. }
  eexists. split; [exact Hrun|]. split; [reflexivity|].
  by apply (batching_no_loss _ Hrun).
Defined.
End Batching.

(** ** The execution of a batch *)

Module Execute.
Inductive batch_error : Type :=
  | WriteFailed (e : write_error)
  | MetadataMissing
  | GraphQLFailed (e : graphql_error)
  | GraphQLNodeNotFound
  | HydrateFailed (e : hydrate_error)
  | ResultOmitted.

(** [pullBatchItem]; the context of the caller is the fences it carries and whether it
    skips the repository observation. *)
Record pullBatchItem : Type := mkItem {
  pi_repo : string;
  pi_number : Z;
  pi_metadata : FetchMetadata;
  pi_source : string;
  pi_startedAt : time;
  pi_fences : fences;
  pi_skips : bool;
  pi_hook : string → option (ApplyPullRequestResult → result write_error unit)
}.

Definition immutablePRKey (i : pullBatchItem) : string :=
  Outbox.PullRequestKey (me_InstallationID (pi_metadata i)) (me_RepoGitHubID (pi_metadata i)) (pi_number i).

Definition item_le (a b : pullBatchItem) : Prop := string_le (immutablePRKey a) (immutablePRKey b).
#[export] Instance item_le_dec : RelDecision item_le := λ a b, decide (string_le _ _).

(** What an item has read before the fetch. *)
Record begun : Type := mkBegun {
  bg_observation : Observation;
  bg_metadata : FetchMetadata;
  bg_generation : Z;
  bg_repository : Observation
}.

Definition metadata_pointer (m : FetchMetadata) : string := pointer_key "repo" (me_RepoFullName m) "metadata".

(** [RefreshGeneration]. *)
Definition read_generation (kind key : string) (g : generations) : Z :=
  match g !! (kind, key) with Some row => generation row | None => 0 end.

Section execute.
Context {R : Type}.
Context (installationID orgID : Z) (now : time).
(** Whether a drift finding of a pull request is open. *)
Context (forced : string → Z → bool).
(** [BatchPullRequests] and the hydration of an item's node. *)
Context (batch_call : list string → result graphql_error (list (option PullRequestNode))).
Context (hydrate : FetchMetadata → PullRequestNode → string →
                   result hydrate_error (PullRequestChangeSnapshotRecord * PullRequestFence)).

(** The reads of one item. *)
Definition begin_item (i : pullBatchItem) (st : wstate (pcache R)) : result batch_error begun :=
  let ws := mkWriter (ws_versions st) (pcache_of (ws_cache st)) in
  match BeginObservation (immutablePRKey i) ws with
  | Err e => Err (WriteFailed e)
  | Ok o =>
      match PullRequestMetadata (forced (pi_repo i) (pi_number i)) (pi_repo i) (pi_number i) (ws_cache st) with
      | None => Err MetadataMissing
      | Some m =>
          match BeginObservation (Outbox.RepositoryKey (me_InstallationID m) (me_RepoGitHubID m)) ws with
          | Err e => Err (WriteFailed e)
          | Ok ro =>
              Ok (mkBegun o m (read_generation KindRefreshRepository (metadata_pointer m)
                                 (refresh_intents (pcache_of (ws_cache st)))) ro)
          end
      end
  end.

(** [fetchPullRequestNodes]: the batch, or one call per node when the batch fails. *)
Definition isolate (id : string) : result batch_error (option PullRequestNode) :=
  match batch_call [id] with
  | Err e => Err (GraphQLFailed e)
  | Ok nodes => Ok (default None (head nodes))
  end.

Definition fetchPullRequestNodes (ids : list string) : list (result batch_error (option PullRequestNode)) :=
  match batch_call ids with
  | Ok nodes => map Ok nodes
  | Err e => if (length ids =? 1)%nat then map (λ _, Err (GraphQLFailed e)) ids else map isolate ids
  end.

(** An item with what it has read and the answer for its node, as the record to write. *)
Definition prepare_item (i : pullBatchItem) (b : begun) (answer : result batch_error (option PullRequestNode))
    : result batch_error PullRequestRecord :=
  match answer with
  | Err e => Err e
  | Ok None => Err GraphQLNodeNotFound
  | Ok (Some n) =>
      match prepare_pull (hydrate (bg_metadata b) n) n (bg_metadata b) (pi_source i) (pi_startedAt i)
              installationID orgID with
      | Err e => Err (HydrateFailed e)
      | Ok r => Ok r
      end
  end.

(** A prepared item. *)
Record prepared : Type := mkPrepared { pp_item : pullBatchItem; pp_begun : begun; pp_record : PullRequestRecord }.

Definition repo_id (p : prepared) : Z := GitHubID (pl_Repository (pp_record p)).

(** The first item of each repository that does not skip the observation. *)
Definition repositoryCandidates (l : list prepared) : gmap Z prepared :=
  foldl (λ m p, if pi_skips (pp_item p) then m
                else match m !! repo_id p with Some _ => m | None => <[repo_id p := p]> m end) ∅ l.

(** [applyIncidentalRepository] of a candidate, on the tables of the cache. *)
Definition incidental_fences (p : prepared) : fences :=
  mkFences (Some (mkRefreshFence KindRefreshRepository (metadata_pointer (bg_metadata (pp_begun p)))
                    (bg_generation (pp_begun p)))) (branch_fence (pi_fences (pp_item p))).

Definition apply_repository (others : Incidental.interference) (p : prepared) (st : wstate (pcache R))
    : result write_error unit * wstate (pcache R) :=
  let '(res, ws) :=
    Incidental.applyIncidentalRepository (incidental_fences p)
      (Outbox.RepositoryKey (me_InstallationID (bg_metadata (pp_begun p))) (me_RepoGitHubID (bg_metadata (pp_begun p))))
      (pl_Repository (pp_record p)) (pi_source (pp_item p)) now others (bg_repository (pp_begun p))
      (mkWriter (ws_versions st) (pcache_of (ws_cache st))) in
  (res, mkWState (versions ws) (put_base (body ws) (ws_cache st))).

(** The repositories in the order of their identifiers, with the failures that count:
    a superseded generation is none. *)
Fixpoint apply_repositories (others : Incidental.interference) (l : list (Z * prepared)) (failures : gmap Z write_error)
    (st : wstate (pcache R)) : gmap Z write_error * wstate (pcache R) :=
  match l with
  | [] => (failures, st)
  | (id, p) :: l =>
      let '(res, st) := apply_repository others p st in
      let failures :=
        match res with
        | Ok _ | Err ErrRefreshGenerationSuperseded => failures
        | Err e => <[id := e]> failures
        end in
      apply_repositories others l failures st
  end.

Definition id_le (a b : Z * prepared) : Prop := a.1 ≤ b.1.
#[export] Instance id_le_dec : RelDecision id_le := λ a b, decide (a.1 ≤ b.1).

(** What keeps a prepared item from being written. *)
Definition repository_failure (failures : gmap Z write_error) (p : prepared) : option write_error :=
  if pi_skips (pp_item p) then None else failures !! repo_id p.

Definition item_apply (p : prepared) : PullRequestApply :=
  mkApply (Some (pi_fences (pp_item p))) (pp_record p) "" (Some (bg_observation (pp_begun p)))
    (pi_hook (pp_item p) (FullName (pl_Repository (pp_record p)))).

(** The answer of an item: its own failure, that of its repository, or the outcome
    under its key for the item that the key was last recorded for. *)
Definition answer_of (failures : gmap Z write_error) (applyItems : gmap string nat)
    (outcomes : gmap string (result write_error ApplyPullRequestResult)) (j : nat)
    (x : result batch_error prepared) : result batch_error ApplyPullRequestResult :=
  match x with
  | Err e => Err e
  | Ok p =>
      match repository_failure failures p with
      | Some e => Err (WriteFailed e)
      | None =>
          let key := apply_key (item_apply p) in
          if bool_decide (applyItems !! key = Some j) then
            match outcomes !! key with
            | Some (Ok a) => Ok a
            | Some (Err e) => Err (WriteFailed e)
            | None => Err ResultOmitted
            end
          else Err ResultOmitted
      end
  end.

(** The answers of the nodes go to the items that began, in order. *)
Fixpoint assign (l : list (pullBatchItem * result batch_error begun))
    (answers : list (result batch_error (option PullRequestNode))) : list (result batch_error prepared) :=
  match l with
  | [] => []
  | (_, Err e) :: l => Err e :: assign l answers
  | (i, Ok b) :: l =>
      match answers with
      | [] => Err ResultOmitted :: assign l []
      | a :: answers =>
          match prepare_item i b a with
          | Err e => Err e
          | Ok r => Ok (mkPrepared i b r)
          end :: assign l answers
      end
  end.

(** The items up to the writes; item number [j] begins in state [states j]. *)
Definition fetch_items (items : list pullBatchItem) (states : nat → wstate (pcache R))
    : list (result batch_error prepared) :=
  let began := imap (λ j i, (i, begin_item i (states j))) (merge_sort item_le items) in
  let ids := omap (λ x, match x.2 with Ok b => Some (me_NodeID (bg_metadata b)) | Err _ => None end) began in
  assign began (if bool_decide (ids = []) then [] else fetchPullRequestNodes ids).

Definition ok_item (x : result batch_error prepared) : option prepared :=
  match x with Ok p => Some p | Err _ => None end.

(** The items to write, with their numbers. *)
Definition writable (failures : gmap Z write_error) (j : nat) (x : result batch_error prepared)
    : option (nat * prepared) :=
  p ← ok_item x;
  match repository_failure failures p with Some _ => None | None => Some (j, p) end.

(** The writes of the repositories of the prepared items. *)
Definition run_repositories (xs : list (result batch_error prepared)) (others : Incidental.interference)
    (st : wstate (pcache R)) : gmap Z write_error * wstate (pcache R) :=
  apply_repositories others (merge_sort id_le (map_to_list (repositoryCandidates (omap ok_item xs)))) ∅ st.

(** [execute]: the answers of the sorted items, and the state it leaves. [st] is the
    state when the fetches are over. *)
Definition execute (items : list pullBatchItem) (states : nat → wstate (pcache R)) (others : Incidental.interference)
    (st : wstate (pcache R)) : list (result batch_error ApplyPullRequestResult) * wstate (pcache R) :=
  let xs := fetch_items items states in
  let '(failures, st) := run_repositories xs others st in
  let writes := omap id (imap (writable failures) xs) in
  let applyItems : gmap string nat :=
    list_to_map (reverse (map (λ jp, (apply_key (item_apply jp.2), jp.1)) writes)) in
  let '(outcomes, st) := ApplyPullRequestBatch no_fences now (map (λ jp, item_apply jp.2) writes) st in
  (imap (answer_of failures applyItems outcomes) xs, st).

(** ** Every item has its own answer *)

Lemma own_outcome ctx l a (st : wstate (pcache R)) :
  NoDup (map apply_key l) → a ∈ l →
  ∃ st1 : wstate (pcache R), (apply_items ctx now l ∅ st).1 !! apply_key a = Some (apply_item ctx now a st1).1.
Proof.
  intros Hnd (l1 & l2 & ->)%list_elem_of_split. rewrite apply_items_app. cbn [apply_items].
  set (st1 := (apply_items ctx now l1 ∅ st).2). exists st1. destruct (apply_item ctx now a st1) as [outcome st2]. cbn [fst].
  rewrite map_app in Hnd. apply NoDup_app in Hnd as (_ & _ & [Ha _]%NoDup_cons).
  rewrite (proj2 (proj2 (apply_items_outcome ctx now l2 (apply_key a) _ _ st2 eq_refl)) Ha). apply lookup_insert_eq.
Qed.

Lemma writes_elem failures xs j p :
  (j, p) ∈ omap id (imap (writable failures) xs) ↔ xs !! j = Some (Ok p) ∧ repository_failure failures p = None.
Proof.
  rewrite list_elem_of_omap. setoid_rewrite list_elem_of_lookup. setoid_rewrite list_lookup_imap. split.
  - intros (y & (n & Hy) & Hid). cbn in Hid. subst y. destruct (xs !! n) as [x|] eqn:Hx; [|done]. cbn in Hy.
    injection Hy as Hy. unfold writable in Hy. destruct x as [q|]; [|done]. cbn in Hy.
    destruct (repository_failure failures q) eqn:Hf; [done|]. by injection Hy as <- <-.
  - intros [Hx Hf]. exists (Some (j, p)). split; [|done]. exists j. rewrite Hx. cbn. by rewrite Hf.
Qed.

End execute.

(** A cache with a name for the repository, and a batch of its pull request. *)
Definition exec_state : wstate (pcache string) :=
  mkWState ∅ (set_w (set_base (set_aliases {[ "acme/app" := mkAlias 1 1 1 ]} (base (pc_w wit_pcache))) (pc_w wit_pcache))
                wit_pcache).

Definition exec_item : pullBatchItem :=
  mkItem "acme/app" 4 conv_metadata "webhook" 60 no_fences false (λ _, None).

Definition quiet : Incidental.interference := Incidental.mkInterference (λ _ st, st) (λ _ st, st).

Definition exec_batch (items : list pullBatchItem) :=
  execute 7 3 70 (λ _ _, false) (λ ids, Ok (map (λ _, Some conv_node) ids)) (λ _ _, conv_hydrate) items
    (λ _, exec_state) quiet exec_state.


(** Two items for one pull request in a batch: the write of the first commits and
    supersedes the observation of the second, whose error is the answer of the item
    recorded last; the first is answered that its result was omitted although its
    record was written. *)
Example duplicate_item_omitted :
  (exec_batch [exec_item; exec_item]).1 =
    [Err ResultOmitted; Err (WriteFailed ErrObservationSuperseded)] ∧
  pf_title <$> pulls (ws_cache (exec_batch [exec_item; exec_item]).2) !! (1, 4) = Some "new title".
Proof. vm_compute. split; reflexivity. Qed.
End Execute.
