(* ===== verification/Fetch.v ===== *)
(** * The refresh handlers

    [internal/fetch/handler.go]: what a refresh job does between its pointer and the
    entity writer. A handler parses its pointer, reads the cached row and takes an
    observation, asks GitHub, and hands the answer to the writer: a 404 tombstones, a
    304 touches, a body is written.

    A handler is a function of the state it reads in, of GitHub's answers, and of the
    state it writes in; other writers may have moved the cache in between. GitHub is an
    argument: an answer per request. The repository of a handler is the result of
    [ensureRepository]. Tracing, observers and the River client are left out. *)

From Stdlib Require Import ZArith Lia Bool String Ascii.
From stdpp Require Import sorting strings gmap sets numbers base list.
From S2P Require Import Prelude GoStrings Keys RefreshQueue EntityWriter Derive Writers PullRequests.
From S2P Require Import GitHub ChangeInputs Convert Coordinator.

Local Open Scope Z_scope.

(** ** Answers and errors *)

(** The answer to a conditional request: an error, a 404, a 304, or a value with its
    entity tag and the number of the next page. *)
Inductive answer (T : Type) : Type :=
  | Failed
  | NotFound
  | Unchanged (etag : string)
  | Fetched (value : T) (etag : string) (next : Z).
Arguments Failed {T}.
Arguments NotFound {T}.
Arguments Unchanged {T}.
Arguments Fetched {T}.

Inductive fetch_error : Type :=
  | InvalidRequest (e : pointer_error)
  | UnknownQueue
  | InvalidName
  | RequestFailed
  | LostAfterFirstPage (page : Z)
  | UnexpectedNotModified (page : Z)
  | ListingOutOfFuel
  | InvalidRuleID
  | InvalidCheckRun
  | ValidatorChanged
  | ParticipationMissing
  | NotHydrated (e : hydrate_error)
  | NotWritten (e : write_error).

(** A refresh job: its pointer, its queue, and whether the head of the default branch is
    to be observed. *)
Record refresh_request : Type := mkRequestArgs {
  ra_Key : string;
  ra_Queue : string;
  ra_ObserveDefaultBranchHead : bool
}.

(** The pointer and the queue of a job, as the key and the source. *)
Definition parse_request (kind : string) (q : refresh_request) : result fetch_error (entityKey * string) :=
  match parseEntityKey (ra_Key q) kind with
  | Err e => Err (InvalidRequest e)
  | Ok key =>
      match classAndSource (ra_Queue q) with
      | None => Err UnknownQueue
      | Some (_, source) => Ok (key, source)
      end
  end.

Definition set_head (sha : string) (r : RepositoryRecord) : RepositoryRecord :=
  mkRepository (InstallationID r) (OrgID r) (GitHubID r) (NodeID r) (Owner r) (Name r) (FullName r)
    (DefaultBranch r) sha (Archived r) (GitHubUpdatedAt r).

(** The repository with the head of its default branch, when the job asks for it. *)
Definition observed_head (wanted : bool) (head : string → option string) (r : RepositoryRecord)
    : option RepositoryRecord :=
  if wanted then (λ h, set_head h r) <$> head (DefaultBranch r) else Some r.

Section handlers.
Context {R : Type} `{EqDecision R}.
Context (digest : string * string * string * string * option time * option time → string).

(** Writes on the tables below the pull-request tables. *)
Definition lift_w {A} (f : wstate (wcache R) → result write_error (A * wstate (wcache R))) (st : wstate (pcache R))
    : result write_error (A * wstate (pcache R)) :=
  '(a, s) ← f (mkWState (ws_versions st) (pc_w (ws_cache st)));
  Ok (a, mkWState (ws_versions s) (set_w (ws_cache s) (ws_cache st))).

Definition lift_repo (f : writer_state → result write_error writer_state) (st : wstate (pcache R))
    : result write_error (unit * wstate (pcache R)) :=
  s ← f (mkWriter (ws_versions st) (pcache_of (ws_cache st)));
  Ok (tt, mkWState (versions s) (put_base (body s) (ws_cache st))).

(** The end of a handler: the writer's result, and the state it leaves. *)
Definition written {A} (st : wstate (pcache R)) (r : result write_error (A * wstate (pcache R)))
    : result fetch_error A * wstate (pcache R) :=
  match r with
  | Ok (a, st) => (Ok a, st)
  | Err e => (Err (NotWritten e), st)
  end.

Definition observe (key : string) (st : wstate (pcache R)) : option Observation :=
  match BeginObservation key (mkWriter (ws_versions st) (pcache_of (ws_cache st))) with
  | Ok o => Some o
  | Err _ => None
  end.

(** ** Repositories *)

(** [ensureRepository]: the cached repository, in the first read or behind the gate, or
    a new one that is fetched and written without an observation. *)
Definition ensureRepository (installationID orgID : Z) (ctx : fences) (source fullName : string) (includeDefaultHead : bool)
    (first second : wstate (pcache R)) (get : answer Repository) (head : string → option string) (now : time)
    (st : wstate (pcache R)) : result fetch_error RepositoryRecord * wstate (pcache R) :=
  match GetRepoByFullName fullName (pcache_of (ws_cache first)) with
  | Some row => (Ok (repositoryFromRow row), st)
  | None =>
      match GetRepoByFullName fullName (pcache_of (ws_cache second)) with
      | Some row => (Ok (repositoryFromRow row), st)
      | None =>
          match repoutil_Split fullName with
          | None => (Err InvalidName, st)
          | Some _ =>
              match get with
              | Fetched v etag _ =>
                  let record := repositoryRecordFromREST v installationID orgID in
                  match observed_head includeDefaultHead head record with
                  | None => (Err RequestFailed, st)
                  | Some record =>
                      match lift_repo (applyRepository ctx None record source etag now) st with
                      | Ok (_, st) => (Ok record, st)
                      | Err e => (Err (NotWritten e), st)
                      end
                  end
              | _ => (Err RequestFailed, st)
              end
          end
      end
  end.

(** [refreshRepositoryOnce]. *)
Definition refreshRepositoryOnce (installationID orgID : Z) (ctx : fences) (q : refresh_request)
    (get : string → answer Repository) (head : string → option string) (now : time)
    (st0 st1 : wstate (pcache R)) : result fetch_error unit * wstate (pcache R) :=
  match parse_request "repo" q with
  | Err e => (Err e, st1)
  | Ok (key, source) =>
      match GetRepoByFullName (ek_Repo key) (pcache_of (ws_cache st0)) with
      | None =>
          let '(res, st) := ensureRepository installationID orgID ctx source (ek_Repo key)
                              (ra_ObserveDefaultBranchHead q) st0 st1 (get "") head now st1 in
          (match res with Ok _ => Ok tt | Err e => Err e end, st)
      | Some row =>
          let repository := repositoryFromRow row in
          let o := observe (Outbox.RepositoryKey (InstallationID repository) (GitHubID repository)) st0 in
          match repoutil_Split (ek_Repo key) with
          | None => (Err InvalidName, st1)
          | Some _ =>
              let apply record etag :=
                match observed_head (ra_ObserveDefaultBranchHead q) head record with
                | None => (Err RequestFailed, st1)
                | Some record =>
                    written st1 (lift_repo (ApplyRepositoryObserved ctx o record source etag now) st1)
                end in
              match get (rp_etag row) with
              | Failed => (Err RequestFailed, st1)
              | NotFound => written st1 (lift_repo (TombstoneRepositoryObserved ctx o repository source now) st1)
              | Unchanged _ => apply repository (rp_etag row)
              | Fetched v etag _ => apply (repositoryRecordFromREST v installationID orgID) etag
              end
          end
      end
  end.

(** ** Rules *)

Record RepositoryRule : Type := mkRestRule { ru_ID : Z; ru_Raw : R; ru_UpdatedAt : option time }.

Fixpoint rule_records (head : string) (rules : list RepositoryRule)
    : result fetch_error (list (RepoRuleRecord (R := R))) :=
  match rules with
  | [] => Ok []
  | r :: rules =>
      if ru_ID r <=? 0 then Err InvalidRuleID
      else
        l ← rule_records head rules;
        Ok (mkRuleRecord (FormatInt (ru_ID r)) (ru_Raw r) (ru_UpdatedAt r) head :: l)
  end.

(** The validator of the rules of a repository. *)
Definition rules_etag (fullName : string) (st : wstate (pcache R)) : option string :=
  row ← GetRepoByFullName fullName (pcache_of (ws_cache st));
  Some (from_option fst "" (wc_rule_sync (pc_w (ws_cache st)) !! rp_id row)).

(** [refreshRepoRulesOnce]; the listing is one request, whose next page is not read. *)
Definition refreshRepoRulesOnce (ctx : fences) (q : refresh_request) (repository : RepositoryRecord)
    (list_rules : string → answer (list RepositoryRule)) (startedAt now : time) (st0 st1 : wstate (pcache R))
    : result fetch_error unit * wstate (pcache R) :=
  match parse_request "repo_rules" q with
  | Err e => (Err e, st1)
  | Ok (key, source) =>
      match rules_etag (ek_Repo key) st0 with
      | None => (Err RequestFailed, st1)
      | Some etag =>
          let o := observe (Outbox.RepoRulesKey (InstallationID repository) (GitHubID repository)) st0 in
          match repoutil_Split (ek_Repo key) with
          | None => (Err InvalidName, st1)
          | Some _ =>
              match list_rules etag with
              | Failed | NotFound => (Err RequestFailed, st1)
              | Unchanged _ => written st1 (lift_w (TouchRepoRules ctx o repository etag now) st1)
              | Fetched rules etag _ =>
                  match rule_records (DefaultHeadSHA repository) rules with
                  | Err e => (Err e, st1)
                  | Ok records =>
                      written st1 ('(_, st) ← lift_w (ApplyRepoRulesObserved ctx o
                        (mkRules repository records etag startedAt source) now) st1; Ok (tt, st))
                  end
              end
          end
      end
  end.

(** ** Stacks *)

Definition stack_etag (fullName : string) (number : Z) (st : wstate (pcache R)) : string :=
  match GetRepoByFullName fullName (pcache_of (ws_cache st)) ≫=
        λ row, wc_stacks (pc_w (ws_cache st)) !! (rp_id row, wrap32 number) with
  | Some s => pv_etag (sf_prov s)
  | None => ""
  end.

(** [refreshStackOnce]. *)
Definition refreshStackOnce (ctx : fences) (q : refresh_request) (repository : RepositoryRecord)
    (get : string → answer Stack) (hook : option (ApplyStackResult → result write_error unit)) (startedAt now : time)
    (st0 st1 : wstate (pcache R)) : result fetch_error unit * wstate (pcache R) :=
  match parse_request "stack" q with
  | Err e => (Err e, st1)
  | Ok (key, source) =>
      let number := ek_Number key in
      let o := observe (Outbox.StackKey (InstallationID repository) (GitHubID repository) number) st0 in
      match repoutil_Split (ek_Repo key) with
      | None => (Err InvalidName, st1)
      | Some _ =>
          let etag := stack_etag (ek_Repo key) number st0 in
          match get etag with
          | Failed => (Err RequestFailed, st1)
          | NotFound =>
              written st1 ('(_, st) ← lift_w (TombstoneStackObserved ctx o repository number source hook now) st1;
                           Ok (tt, st))
          | Unchanged _ => written st1 (lift_w (TouchStack ctx o repository number etag now) st1)
          | Fetched s etag _ =>
              written st1 ('(_, st) ← lift_w (ApplyStackObserved ctx o
                (stackRecordFromREST repository s etag source startedAt) hook now) st1; Ok (tt, st))
          end
      end
  end.

(** ** Check runs *)

(** The validator of the check runs of a commit: the one of the row checked last. *)
Definition checked_before (a b : Z * check_full) : Prop :=
  pv_last_checked_at (cf_prov b.2) < pv_last_checked_at (cf_prov a.2) ∨
  pv_last_checked_at (cf_prov b.2) = pv_last_checked_at (cf_prov a.2) ∧ a.1 ≤ b.1.
#[export] Instance checked_before_dec : RelDecision checked_before := λ a b, decide (_ ∨ _).

Definition checks_etag (fullName head : string) (st : wstate (pcache R)) : option string :=
  row ← GetRepoByFullName fullName (pcache_of (ws_cache st));
  Some (from_option (λ e, pv_etag (cf_prov e.2)) ""
          (list.head (merge_sort checked_before
             (map_to_list (filter (λ e, cf_repo_id e.2 = rp_id row ∧ cf_head_sha e.2 = head)
                             (wc_checks (pc_w (ws_cache st)))))))).

(** How the listing ends: nothing changed, or the runs with the validator of page 1. *)
Inductive listing : Type :=
  | ListingUnchanged
  | ListingRuns (runs : list CheckRun) (etag : string).

(** The loop over the pages; [fuel] bounds their number. *)
Fixpoint list_checks (fuel : nat) (list_page : Z → string → answer (list CheckRun)) (page : Z)
    (all : list CheckRun) (etag : string) : result fetch_error listing :=
  match fuel with
  | O => Err ListingOutOfFuel
  | S fuel =>
      match list_page page (if page =? 1 then etag else "") with
      | Failed => Err RequestFailed
      | NotFound => if page =? 1 then Ok (ListingRuns [] "") else Err (LostAfterFirstPage page)
      | Unchanged _ => if page =? 1 then Ok ListingUnchanged else Err (UnexpectedNotModified page)
      | Fetched runs tag next =>
          let etag := if page =? 1 then tag else etag in
          if next =? 0 then Ok (ListingRuns (all ++ runs) etag)
          else list_checks fuel list_page next (all ++ runs) etag
      end
  end.

Fixpoint check_records (json_valid : string → bool) (runs : list CheckRun) : result fetch_error (list CheckRunRecord) :=
  match runs with
  | [] => Ok []
  | r :: runs =>
      match checkRecordFromREST json_valid r with
      | None => Err InvalidCheckRun
      | Some c => l ← check_records json_valid runs; Ok (c :: l)
      end
  end.

(** [refreshChecksOnce]. *)
Definition refreshChecksOnce (json_valid : string → bool) (fuel : nat) (ctx : fences) (q : refresh_request)
    (repository : RepositoryRecord) (list_page : Z → string → answer (list CheckRun)) (now : time)
    (st0 st1 : wstate (pcache R)) : result fetch_error unit * wstate (pcache R) :=
  match parse_request "checks" q with
  | Err e => (Err e, st1)
  | Ok (key, source) =>
      let head := ek_Value key in
      let o := observe (Outbox.ChecksKey (InstallationID repository) (GitHubID repository) head) st0 in
      match repoutil_Split (ek_Repo key), checks_etag (ek_Repo key) head st0 with
      | None, _ => (Err InvalidName, st1)
      | Some _, None => (Err RequestFailed, st1)
      | Some _, Some etag =>
          match list_checks fuel list_page 1 [] etag with
          | Err e => (Err e, st1)
          | Ok ListingUnchanged => written st1 (lift_w (TouchChecks ctx o repository head etag now) st1)
          | Ok (ListingRuns runs tag) =>
              match check_records json_valid runs with
              | Err e => (Err e, st1)
              | Ok records =>
                  written st1 ('(_, st) ← lift_w (ApplyChecksObserved digest ctx o
                    (mkChecks repository head records tag source) now) st1; Ok (tt, st))
              end
          end
      end
  end.

(** ** Pull requests *)

(** The metadata of a pull request that REST has just returned. *)
Definition rest_metadata (repository : RepositoryRecord) (p : PullRequestRecord) (etag : string) : FetchMetadata :=
  mkMetadata "" etag (pl_Title p) (pl_State p) (pl_Draft p) (pl_AuthorLogin p) (pl_HeadRef p) (pl_BaseRef p)
    (pl_ReviewDecision p) (pl_MergeableState p) (pl_StackNumber p) (pl_StackPosition p) (pl_GitHubUpdatedAt p)
    (pl_BaseSHA p) (pl_HeadSHA p) (GitHubID repository) (InstallationID repository) (FullName repository) None false.

(** The record after hydration over GraphQL: the node's columns, with the membership
    and the summary of the REST answer unless the last read returns another. *)
Definition hydrated_record (installationID orgID : Z) (repository : RepositoryRecord) (record : PullRequestRecord)
    (etag source : string) (startedAt : time) (nodes : result graphql_error (list (option PullRequestNode)))
    (hydrate : PullRequestNode → string → result hydrate_error (PullRequestChangeSnapshotRecord * PullRequestFence))
    : result fetch_error PullRequestRecord :=
  match nodes with
  | Err _ => Err RequestFailed
  | Ok [Some n] =>
      let m := rest_metadata repository record etag in
      let fenceETag := matchingPullETag m n in
      let r := pullRecordFromNode n (set_etag fenceETag m) source startedAt installationID orgID in
      let r := set_membership (pl_StackNumber r) (pl_StackPosition r) (pl_StackSummary record) true (pl_ETag r) r in
      match hydrate n fenceETag with
      | Err e => Err (NotHydrated e)
      | Ok (snapshot, fence) => Ok (set_snapshot snapshot (applyPullFence fence r))
      end
  | Ok _ => Err ParticipationMissing
  end.

(** [refreshPRREST]. *)
Definition refreshPRREST (installationID orgID : Z) (ctx : fences) (forced hydrateGraphQL : bool) (key : entityKey)
    (source : string) (repository : RepositoryRecord) (get : string → answer PullRequest)
    (graphQL : string → result graphql_error (list (option PullRequestNode)))
    (hydrate : option FetchMetadata → PullRequestNode → string →
               result hydrate_error (PullRequestChangeSnapshotRecord * PullRequestFence))
    (hook : option (ApplyPullRequestResult → result write_error unit)) (startedAt now : time)
    (st0 st1 : wstate (pcache R)) : result fetch_error unit * wstate (pcache R) :=
  let number := ek_Number key in
  let o := observe (Outbox.PullRequestKey (InstallationID repository) (GitHubID repository) number) st0 in
  match repoutil_Split (ek_Repo key) with
  | None => (Err InvalidName, st1)
  | Some _ =>
      let metadata := PullRequestMetadata forced (ek_Repo key) number (ws_cache st0) in
      let etag := if hydrateGraphQL then "" else from_option me_ETag "" metadata in
      match get etag with
      | Failed => (Err RequestFailed, st1)
      | NotFound =>
          written st1 ('(_, st) ← TombstonePullRequestObserved ctx o repository number source hook now st1; Ok (tt, st))
      | Unchanged _ =>
          match TouchPullRequest ctx o repository number etag now st1 with
          | Err e => (Err (NotWritten e), st1)
          | Ok (confirmed, st) => (if confirmed then Ok tt else Err ValidatorChanged, st)
          end
      | Fetched pull tag _ =>
          let record := pullRecordFromREST repository pull tag source startedAt in
          match (if hydrateGraphQL then
                   hydrated_record installationID orgID repository record tag source startedAt
                     (graphQL (pl_NodeID record)) (hydrate metadata)
                 else Ok record) with
          | Err e => (Err e, st1)
          | Ok record =>
              match ApplyPullRequestObserved ctx o record hook now st1 with
              | (Ok _, st) => (Ok tt, st)
              | (Err e, st) => (Err (NotWritten e), st)
              end
          end
      end
  end.

(** [refreshPROnce]: through the coordinator when the node is known, else, or when the
    node has gone, over REST. [submit] is the coordinator's answer; [rest] is
    [refreshPRREST] on the state that is left. *)
Definition refreshPROnce (forced : bool) (q : refresh_request)
    (submit : entityKey → FetchMetadata → string → wstate (pcache R) →
              result Execute.batch_error ApplyPullRequestResult * wstate (pcache R))
    (rest : entityKey → string → wstate (pcache R) → result fetch_error unit * wstate (pcache R))
    (st0 st1 : wstate (pcache R))
    : result (fetch_error + Execute.batch_error) unit * wstate (pcache R) :=
  let over_rest key source st :=
    let '(r, st) := rest key source st in (match r with Ok _ => Ok tt | Err e => Err (inl e) end, st) in
  match parse_request "pr" q with
  | Err e => (Err (inl e), st1)
  | Ok (key, source) =>
      match PullRequestMetadata forced (ek_Repo key) (ek_Number key) (ws_cache st0) with
      | Some m =>
          if bool_decide (me_NodeID m = "") then over_rest key source st1
          else
            match submit key m source st1 with
            | (Ok _, st) => (Ok tt, st)
            | (Err Execute.GraphQLNodeNotFound, st) => over_rest key source st
            | (Err e, st) => (Err (inr e), st)
            end
      | None => over_rest key source st1
      end
  end.

(** ** Branch targets *)

(** [BranchTargets]: the stacks the branch touches, then the open pull requests with
    their stacks, each stack once. *)
Definition pull_on_branch (repoID : Z) (branch : string) (row : pull_full) : bool :=
  bool_decide (pf_repo_id row = repoID ∧ pf_tombstoned_at row = None ∧ pf_state row = "open")
  && (bool_decide (pf_head_ref row = branch) || bool_decide (pf_base_ref row = branch)).

Definition stack_on_branch (repoID : Z) (branch : string) (k : Z * Z) (s : stack_full) : bool :=
  bool_decide (k.1 = repoID ∧ sf_tombstoned_at s = None)
  && (bool_decide (sf_base_ref s = branch) || existsb (λ e, bool_decide (se_HeadRef e = branch)) (sf_entries s)).

Definition target_le (a b : Z * option Z) : Prop := a.1 ≤ b.1.
#[export] Instance target_le_dec : RelDecision target_le := λ a b, decide (a.1 ≤ b.1).

Definition branch_pulls (repoID : Z) (branch : string) (p : pcache R) : list (Z * option Z) :=
  merge_sort target_le
    (map (λ e, (pf_number e.2, pf_stack_number e.2))
       (map_to_list (filter (λ e, pull_on_branch repoID branch e.2 = true) (pulls p)))).

Definition branch_stacks (repoID : Z) (branch : string) (p : pcache R) : list Z :=
  merge_sort Z.le
    (map (λ e, e.1.2) (map_to_list (filter (λ e, stack_on_branch repoID branch e.1 e.2 = true) (wc_stacks (pc_w p))))).

Fixpoint pull_targets (repo : string) (seen : list Z) (prs : list (Z * option Z)) : list string :=
  match prs with
  | [] => []
  | (n, s) :: prs =>
      let '(more, seen) :=
        match s with
        | Some k => if bool_decide (k ∈ seen) then ([], seen) else ([pointer_key "stack" repo (FormatInt k)], k :: seen)
        | None => ([], seen)
        end in
      more ++ pointer_key "pr" repo (FormatInt n) :: pull_targets repo seen prs
  end.

Definition BranchTargets (repo branch : string) (p : pcache R) : list string :=
  match GetRepoByFullName repo (pcache_of p) with
  | None => []
  | Some row =>
      let stacks := branch_stacks (rp_id row) branch p in
      map (λ k, pointer_key "stack" repo (FormatInt k)) stacks
      ++ pull_targets repo stacks (branch_pulls (rp_id row) branch p)
  end.

(** [RefreshBranch]: the jobs it enqueues. *)
Definition refresh_branch_specs (q : refresh_request) (p : pcache R) : result fetch_error (list RefreshSpec) :=
  match parseEntityKey (ra_Key q) "branch" with
  | Err e => Err (InvalidRequest e)
  | Ok key =>
      Ok (map (λ t, spec (if HasPrefix t "stack:" then KindRefreshStack else KindRefreshPR) t)
            (BranchTargets (ek_Repo key) (ek_Value key) p))
  end.
End handlers.

(** ** Retries *)

Definition observationRetryLimit : nat := 3.

(** [retrySupersededObservation]: [fn i] is attempt [i], [cancelled i] whether the
    context ends while the loop waits after it. *)
Inductive retried (E A : Type) : Type :=
  | Finished (r : result E A)
  | ContextDone.
Arguments Finished {E A}.
Arguments ContextDone {E A}.

Fixpoint retry_from {E A} (superseded : E → bool) (fn : nat → result E A) (cancelled : nat → bool) (n i : nat)
    : retried E A :=
  match fn i with
  | Ok a => Finished (Ok a)
  | Err e =>
      if negb (superseded e) then Finished (Err e)
      else match n with
           | O => Finished (Err e)
           | S n => if cancelled i then ContextDone else retry_from superseded fn cancelled n (S i)
           end
  end.

Definition retrySupersededObservation {E A} (superseded : E → bool) (fn : nat → result E A)
    (cancelled : nat → bool) : retried E A :=
  retry_from superseded fn cancelled (observationRetryLimit - 1) 0.

(** ** A fetch that raced with another write changes nothing *)

Section stale.
Context {R : Type} `{EqDecision R}.
Context (digest : string * string * string * string * option time * option time → string).

(** The version of an entity. *)
Definition entity_version (key : string) (st : wstate (pcache R)) : Z := default 0 (ws_versions st !! key).

Lemma observe_version key (st : wstate (pcache R)) o :
  observe key st = Some o → ob_key o = key ∧ ob_version o = entity_version key st.
Proof. unfold observe, BeginObservation. case_bool_decide; [done|]. by intros [= <-]. Qed.

(** A transaction under a stale observation fails. *)
Lemma stale_tx ctx o key fn vs c :
  default 0 (vs !! ob_key o) ≠ ob_version o →
  ∃ e, withEntityTx ctx (Some o) key fn (mkWriter vs c) = Err e.
Proof.
  intros Hv. unfold withEntityTx, requireObservation. case_bool_decide; cbn; [|by eexists].
  unfold verifyObservationVersion, version_of. cbn. rewrite (proj2 (Z.eqb_neq _ _) Hv). destruct (branch_fence ctx); by eexists.
Qed.

Lemma stale_entityTx {S A} (view : S → cache) ctx o key (fn : S → result write_error (A * S)) (s : wstate S) :
  default 0 (ws_versions s !! ob_key o) ≠ ob_version o → ∃ e, entityTx view ctx (Some o) key fn s = Err e.
Proof.
  intros Hv. unfold entityTx. edestruct stale_tx as [e He]; [exact Hv|]. exists e. by rewrite He.
Qed.

(** An observation that is absent or out of date. *)
Definition out_of_date {S} (o : option Observation) (s : wstate S) : Prop :=
  ∀ x, o = Some x → default 0 (ws_versions s !! ob_key x) ≠ ob_version x.

Lemma stale_op {S A} (view : S → cache) ctx o key (fn : S → result write_error (A * S)) (s : wstate S) :
  out_of_date o s → ∃ e, (_ ← requireObservation o key; entityTx view ctx o key fn s) = Err e.
Proof.
  intros Ho. destruct o as [o|]; [|by eexists]. destruct (requireObservation (Some o) key); cbn; [|by eexists].
  apply stale_entityTx. by apply Ho.
Qed.

Lemma stale_repo_op ctx o key fn (s : writer_state) :
  (∀ x, o = Some x → default 0 (versions s !! ob_key x) ≠ ob_version x) →
  ∃ e, (_ ← requireObservation o key; withEntityTx ctx o key fn s) = Err e.
Proof.
  intros Ho. destruct o as [o|]; [|by eexists]. destruct (requireObservation (Some o) key); cbn; [|by eexists].
  destruct s. apply stale_tx. by apply Ho.
Qed.

Lemma observed_stale key (st0 st1 : wstate (pcache R)) :
  entity_version key st1 ≠ entity_version key st0 → out_of_date (observe key st0) st1.
Proof. intros Hne o [-> ->]%observe_version. done. Qed.

(** The end of a handler whose write is refused. *)
Lemma refused {A} (st : wstate (pcache R)) (r : result write_error (A * wstate (pcache R))) :
  (∃ e, r = Err e) → ∃ e, written st r = (Err e, st).
Proof. intros [e ->]. by eexists. Qed.

Lemma refused_unit {A} (st : wstate (pcache R)) (r : result write_error (A * wstate (pcache R))) :
  (∃ e, r = Err e) → ∃ e, written st ('(_, s) ← r; Ok (tt, s)) = (Err e, st).
Proof. intros [e ->]. by eexists. Qed.

Lemma refused_lift {A} (f : wstate (wcache R) → result write_error (A * wstate (wcache R))) (st : wstate (pcache R)) :
  (∃ e, f (mkWState (ws_versions st) (pc_w (ws_cache st))) = Err e) → ∃ e, lift_w f st = Err e.
Proof. intros [e He]. exists e. unfold lift_w. by rewrite He. Qed.

Lemma refused_repo f (st : wstate (pcache R)) :
  (∃ e, f (mkWriter (ws_versions st) (pcache_of (ws_cache st))) = Err e) → ∃ e, lift_repo f st = Err e.
Proof. intros [e He]. exists e. unfold lift_repo. by rewrite He. Qed.

(** The runs of the handlers, with the entity each of them refreshes. *)
Inductive fetch_run (st0 st1 : wstate (pcache R)) : string → result fetch_error unit * wstate (pcache R) → Prop :=
  | run_repository inst org ctx q get head now key source row :
      parse_request "repo" q = Ok (key, source) → GetRepoByFullName (ek_Repo key) (pcache_of (ws_cache st0)) = Some row →
      fetch_run st0 st1 (Outbox.RepositoryKey (rp_installation_id row) (rp_gh_id row))
        (refreshRepositoryOnce inst org ctx q get head now st0 st1)
  | run_rules ctx q repository list_rules startedAt now :
      fetch_run st0 st1 (Outbox.RepoRulesKey (InstallationID repository) (GitHubID repository))
        (refreshRepoRulesOnce ctx q repository list_rules startedAt now st0 st1)
  | run_stack ctx q repository get hook startedAt now key source :
      parse_request "stack" q = Ok (key, source) →
      fetch_run st0 st1 (Outbox.StackKey (InstallationID repository) (GitHubID repository) (ek_Number key))
        (refreshStackOnce ctx q repository get hook startedAt now st0 st1)
  | run_checks json_valid fuel ctx q repository list_page now key source :
      parse_request "checks" q = Ok (key, source) →
      fetch_run st0 st1 (Outbox.ChecksKey (InstallationID repository) (GitHubID repository) (ek_Value key))
        (refreshChecksOnce digest json_valid fuel ctx q repository list_page now st0 st1)
  | run_pull inst org ctx forced hydrateGraphQL key source repository get graphQL hydrate hook startedAt now :
      fetch_run st0 st1 (Outbox.PullRequestKey (InstallationID repository) (GitHubID repository) (ek_Number key))
        (refreshPRREST inst org ctx forced hydrateGraphQL key source repository get graphQL hydrate hook startedAt now
           st0 st1).

Lemma stale_repository inst org ctx q get head now key source row st0 st1 :
  parse_request "repo" q = Ok (key, source) → GetRepoByFullName (ek_Repo key) (pcache_of (ws_cache st0)) = Some row →
  entity_version (Outbox.RepositoryKey (rp_installation_id row) (rp_gh_id row)) st1 ≠
    entity_version (Outbox.RepositoryKey (rp_installation_id row) (rp_gh_id row)) st0 →
  ∃ e, refreshRepositoryOnce inst org ctx q get head now st0 st1 = (Err e, st1).
Proof.
  intros Hp Hrow Hne. apply observed_stale in Hne. unfold refreshRepositoryOnce. rewrite Hp, Hrow. cbn zeta.
  destruct (repoutil_Split _); [|by eexists]. cbn [InstallationID GitHubID repositoryFromRow].
  assert (Happly : ∀ record etag, ∃ e,
    match observed_head (ra_ObserveDefaultBranchHead q) head record with
    | None => (Err RequestFailed, st1)
    | Some record => written st1 (lift_repo (ApplyRepositoryObserved ctx (observe (Outbox.RepositoryKey
        (rp_installation_id row) (rp_gh_id row)) st0) record source etag now) st1)
    end = (Err e, st1)).
  { intros record etag. destruct (observed_head _ _ _) as [r|]; [|by eexists]. apply refused, refused_repo.
    by apply stale_repo_op. }
  destruct (get _); [by eexists| |apply Happly|apply Happly].
  apply refused, refused_repo. unfold TombstoneRepositoryObserved. case_if; [by eexists|]. by apply stale_repo_op.
Qed.

Lemma stale_rules ctx q repository list_rules startedAt now st0 st1 :
  entity_version (Outbox.RepoRulesKey (InstallationID repository) (GitHubID repository)) st1 ≠
    entity_version (Outbox.RepoRulesKey (InstallationID repository) (GitHubID repository)) st0 →
  ∃ e, refreshRepoRulesOnce ctx q repository list_rules startedAt now st0 st1 = (Err e, st1).
Proof.
  intros Hne%observed_stale. unfold refreshRepoRulesOnce. destruct (parse_request _ _) as [[key source]|]; [|by eexists].
  destruct (rules_etag _ _); [|by eexists]. destruct (repoutil_Split _); [|by eexists].
  destruct (list_rules _); [by eexists..| |].
  - apply refused, refused_lift. by apply stale_op.
  - destruct (rule_records _ _); [|by eexists]. apply refused_unit, refused_lift. unfold ApplyRepoRulesObserved.
    case_if; [by eexists|]. by apply stale_op.
Qed.

Lemma stale_stack ctx q repository get hook startedAt now key source st0 st1 :
  parse_request "stack" q = Ok (key, source) →
  entity_version (Outbox.StackKey (InstallationID repository) (GitHubID repository) (ek_Number key)) st1 ≠
    entity_version (Outbox.StackKey (InstallationID repository) (GitHubID repository) (ek_Number key)) st0 →
  ∃ e, refreshStackOnce ctx q repository get hook startedAt now st0 st1 = (Err e, st1).
Proof.
  intros Hp Hne%observed_stale. unfold refreshStackOnce. rewrite Hp. destruct (repoutil_Split _); [|by eexists]. cbn zeta.
  destruct (get _); [by eexists| | |].
  - apply refused_unit, refused_lift. by apply stale_op.
  - apply refused, refused_lift. by apply stale_op.
  - apply refused_unit, refused_lift. unfold ApplyStackObserved. destruct (requireObservation _ _) eqn:Hq; [|by eexists].
    cbn [mbind result_bind]. unfold applyStack. destruct (validateStack _); [|by eexists]. cbn [mbind result_bind].
    destruct (observe _ _) as [o|] eqn:Ho; [|done]. cbn [mbind result_bind]. by apply stale_entityTx, Hne.
Qed.

Lemma stale_checks json_valid fuel ctx q repository list_page now key source st0 st1 :
  parse_request "checks" q = Ok (key, source) →
  entity_version (Outbox.ChecksKey (InstallationID repository) (GitHubID repository) (ek_Value key)) st1 ≠
    entity_version (Outbox.ChecksKey (InstallationID repository) (GitHubID repository) (ek_Value key)) st0 →
  ∃ e, refreshChecksOnce digest json_valid fuel ctx q repository list_page now st0 st1 = (Err e, st1).
Proof.
  intros Hp Hne%observed_stale. unfold refreshChecksOnce. rewrite Hp. cbn zeta. destruct (repoutil_Split _); [|by eexists].
  destruct (checks_etag _ _ _); [|by eexists]. destruct (list_checks _ _ _ _ _) as [[|runs tag]|]; [| |by eexists].
  - apply refused, refused_lift. by apply stale_op.
  - destruct (check_records _ _); [|by eexists]. apply refused_unit, refused_lift. unfold ApplyChecksObserved.
    case_if; [by eexists|]. by apply stale_op.
Qed.

Lemma stale_pull inst org ctx forced hydrateGraphQL key source repository get graphQL hydrate hook startedAt now st0 st1 :
  entity_version (Outbox.PullRequestKey (InstallationID repository) (GitHubID repository) (ek_Number key)) st1 ≠
    entity_version (Outbox.PullRequestKey (InstallationID repository) (GitHubID repository) (ek_Number key)) st0 →
  ∃ e, refreshPRREST inst org ctx forced hydrateGraphQL key source repository get graphQL hydrate hook startedAt now
         st0 st1 = (Err e, st1).
Proof.
  intros Hne%observed_stale. unfold refreshPRREST. cbn zeta. destruct (repoutil_Split _); [|by eexists].
  destruct (get _); [by eexists| | |].
  - apply refused_unit. by apply stale_op.
  - destruct (stale_op (pcache_of (R := R)) ctx (observe (Outbox.PullRequestKey (InstallationID repository)
      (GitHubID repository) (ek_Number key)) st0) (Outbox.PullRequestKey (InstallationID repository) (GitHubID repository)
      (ek_Number key)) (touch_pull repository (ek_Number key)
      (if hydrateGraphQL then "" else from_option me_ETag "" (PullRequestMetadata forced (ek_Repo key) (ek_Number key) (ws_cache st0))) now) st1 Hne) as [e He].
    unfold TouchPullRequest. rewrite He. by eexists.
  - destruct (if hydrateGraphQL then _ else _) as [record|]; [|by eexists]. unfold ApplyPullRequestObserved.
    destruct (requireObservation _ _) eqn:Hq; [|by eexists]. unfold applyPullRequest.
    destruct (validatePullRequest record); [|by eexists].
    destruct (observe _ _) as [o|] eqn:Ho; [|done].
    destruct (stale_entityTx (pcache_of (R := R)) ctx o (Outbox.PullRequestKey (InstallationID (pl_Repository record))
      (GitHubID (pl_Repository record)) (pl_Number record)) (apply_pull record hook now) st1) as [e He]; [by apply Hne|].
    rewrite He. by eexists.
Qed.

End stale.

(** ** Listings of check runs *)

(** A server that lists the runs of a commit in pages, each under an entity tag of its
    own, and answers 304 to the tag of the page. *)
Definition page_server (pages : list (list CheckRun)) (tag : Z → string) (page : Z) (sent : string)
    : answer (list CheckRun) :=
  match pages !! Z.to_nat (page - 1) with
  | None => NotFound
  | Some runs =>
      if negb (bool_decide (sent = "")) && bool_decide (sent = tag page) then Unchanged sent
      else Fetched runs (tag page) (if page <? Z.of_nat (length pages) then page + 1 else 0)
  end.

(** The rest of the pages, from the one after [done]. *)
Lemma list_checks_from tag fuel : ∀ done_ rest all etag,
  rest ≠ [] → done_ ≠ [] → (length rest ≤ fuel)%nat →
  list_checks fuel (page_server (done_ ++ rest) tag) (Z.of_nat (length done_) + 1) all etag =
    Ok (ListingRuns (all ++ concat rest) etag).
Proof.
  induction fuel as [|fuel IH]; intros done_ rest all etag Hr Hd Hf; destruct rest as [|runs rest]; try done; [cbn in Hf; lia|].
  assert (Hlen : (0 < length done_)%nat) by (destruct done_; [done|cbn; lia]).
  cbn [list_checks]. rewrite (proj2 (Z.eqb_neq _ 1)) by lia. unfold page_server at 1.
  replace (Z.to_nat (Z.of_nat (length done_) + 1 - 1)) with (length done_) by lia.
  rewrite list_lookup_middle by done. cbn [negb andb bool_decide decide].
  rewrite bool_decide_true by done. cbn [negb andb]. rewrite length_app. cbn [length].
  destruct rest as [|next rest].
  - rewrite (proj2 (Z.ltb_ge _ _)) by (cbn; lia). cbn. by rewrite app_nil_r.
  - rewrite (proj2 (Z.ltb_lt _ _)) by (cbn; lia). rewrite (proj2 (Z.eqb_neq _ 0)) by lia.
    specialize (IH (done_ ++ [runs]) (next :: rest) (all ++ runs) etag). rewrite length_app in IH. cbn [length] in IH.
    rewrite <- (assoc_L (++)) in IH. cbn [app] in IH.
    replace (Z.of_nat (length done_) + 1 + 1) with (Z.of_nat (length done_ + 1) + 1) by lia.
    rewrite IH; [|done|by destruct done_|cbn in Hf; lia]. cbn. by rewrite <- !(assoc_L (++)).
Qed.

(** The whole listing, for a validator that is not that of the first page. *)
Lemma list_checks_whole pages tag fuel etag :
  pages ≠ [] → (length pages ≤ fuel)%nat → etag = "" ∨ etag ≠ tag 1 →
  list_checks fuel (page_server pages tag) 1 [] etag = Ok (ListingRuns (concat pages) (tag 1)).
Proof.
  intros Hp Hf He. destruct pages as [|runs pages]; [done|]. destruct fuel as [|fuel]; [cbn in Hf; lia|].
  cbn [list_checks]. rewrite Z.eqb_refl. unfold page_server at 1. cbn [Z.sub Z.to_nat lookup list_lookup].
  assert (Hb : negb (bool_decide (etag = "")) && bool_decide (etag = tag 1) = false).
  { destruct He as [->|He]; [by rewrite bool_decide_true|]. rewrite (bool_decide_false (etag = tag 1)) by done.
    apply andb_false_r. }
  rewrite Hb. destruct pages as [|next pages].
  - cbn. by rewrite app_nil_r.
  - rewrite (proj2 (Z.ltb_lt _ _)) by (cbn; lia). change (1 + 1 =? 0) with false.
    apply (list_checks_from tag fuel [runs] (next :: pages) runs (tag 1)); [done|done|cbn in *; lia].
Qed.

Lemma check_records_ids json_valid runs l :
  check_records json_valid runs = Ok l → map cr_GitHubID l = map ck_ID runs.
Proof.
  revert l. induction runs as [|r runs IH]; cbn; intros l Hl; [by simplify_eq|]. unfold checkRecordFromREST in Hl.
  destruct (json_valid (ck_Raw r)); [|done]. apply bind_ok in Hl as (l' & Hl' & [= <-]). cbn. f_equal. by apply IH.
Qed.

(** A committed transaction ran its callback on the state. *)
Lemma entityTx_ran {S A} (view : S → cache) ctx o key (fn : S → result write_error (A * S)) (s : wstate S) a s' :
  entityTx view ctx o key fn s = Ok (a, s') → fn (ws_cache s) = Ok (a, ws_cache s').
Proof.
  unfold entityTx. intros (st & _ & H)%bind_ok. apply bind_ok in H as ([a' w] & Hfn & Hret). by injection Hret as <- <-.
Qed.


(** ** Branch targets cover the branch *)

Lemma pull_targets_cover repo prs : ∀ seen n k,
  (n, k) ∈ prs →
  pointer_key "pr" repo (FormatInt n) ∈ pull_targets repo seen prs ∧
  ∀ s, k = Some s → s ∈ seen ∨ pointer_key "stack" repo (FormatInt s) ∈ pull_targets repo seen prs.
Proof.
  induction prs as [|[m t] prs IH]; intros seen n k; [by intros ?%elem_of_nil|].
  rewrite elem_of_cons. intros [[= -> ->]|Hin].
  - cbn [pull_targets]. destruct t as [s|]; [|split; [set_solver|done]]. case_bool_decide as Hs; cbn.
    + split; [set_solver|]. intros s' [= <-]. by left.
    + split; [set_solver|]. intros s' [= <-]. right. by left.
  - cbn [pull_targets]. destruct t as [s|]; [|specialize (IH seen n k Hin); set_solver].
    case_bool_decide as Hs; cbn; [specialize (IH seen n k Hin); set_solver|].
    destruct (IH (s :: seen) n k Hin) as [H1 H2]. split; [set_solver|]. intros s' Hs'.
    destruct (H2 s' Hs') as [[->|?]%elem_of_cons|?]; set_solver.
Qed.

(** A branch refresh asks for every open pull request whose head or base is the branch,
    and for the stack each of them is in. *)
Theorem branch_targets_cover {R : Type} (repo branch : string) (p : pcache R) (row : repo_row) k (r : pull_full) :
  GetRepoByFullName repo (pcache_of p) = Some row → pulls p !! k = Some r →
  pull_on_branch (rp_id row) branch r = true →
  pointer_key "pr" repo (FormatInt (pf_number r)) ∈ BranchTargets repo branch p ∧
  ∀ s, pf_stack_number r = Some s → pointer_key "stack" repo (FormatInt s) ∈ BranchTargets repo branch p.
Proof.
  intros Hrepo Hr Hon. unfold BranchTargets. rewrite Hrepo.
  assert (Hin : (pf_number r, pf_stack_number r) ∈ branch_pulls (rp_id row) branch p).
  { unfold branch_pulls. rewrite merge_sort_Permutation. apply list_elem_of_fmap. exists (k, r). split; [done|].
    apply elem_of_map_to_list, map_lookup_filter_Some. by split. }
  destruct (pull_targets_cover repo _ (branch_stacks (rp_id row) branch p) _ _ Hin) as [H1 H2].
  split; [apply elem_of_app; by right|]. intros s Hs. apply elem_of_app.
  destruct (H2 s Hs) as [H3|H3]; [left|by right]. by apply (list_elem_of_fmap_2 (λ k, pointer_key "stack" repo (FormatInt k))).
Qed.

(** ** A bounded number of attempts *)

(** The loop ends with the result of its last attempt, after at most three: every
    earlier attempt was superseded, and the last one was not unless it is the third. *)
Theorem retry_bounded {E A} (superseded : E → bool) (fn : nat → result E A) (cancelled : nat → bool) :
  match retrySupersededObservation superseded fn cancelled with
  | ContextDone => ∃ i, (i < 2)%nat ∧ cancelled i = true ∧ ∀ j, (j ≤ i)%nat → ∃ e, fn j = Err e ∧ superseded e = true
  | Finished r =>
      ∃ i, (i < 3)%nat ∧ r = fn i ∧ (∀ j, (j < i)%nat → ∃ e, fn j = Err e ∧ superseded e = true) ∧
        (i ≠ 2%nat → ∀ e, r = Err e → superseded e = false)
  end.
Proof.
  unfold retrySupersededObservation. change (observationRetryLimit - 1)%nat with 2%nat.
  assert (Hone : ∀ i e, fn i = Err e → superseded e = true → ∃ e, fn i = Err e ∧ superseded e = true) by eauto.
  cbn [retry_from]. destruct (fn 0%nat) as [a|e] eqn:H0.
  { exists 0%nat. split_and!; [lia|done|lia|done]. }
  destruct (superseded e) eqn:Hs0; cbn [negb].
  2: { exists 0%nat. split_and!; [lia|done|lia|]. by intros _ e' [= <-]. }
  destruct (cancelled 0%nat) eqn:Hc0.
  { exists 0%nat. split_and!; [lia|done|]. intros j Hj. assert (j = 0%nat) as -> by lia. eauto. }
  destruct (fn 1%nat) as [a|e1] eqn:H1.
  { exists 1%nat. split_and!; [lia|done| |done]. intros j Hj. assert (j = 0%nat) as -> by lia. eauto. }
  destruct (superseded e1) eqn:Hs1; cbn [negb].
  2: { exists 1%nat. split_and!; [lia|done| |by intros _ e' [= <-]]. intros j Hj. assert (j = 0%nat) as -> by lia. eauto. }
  destruct (cancelled 1%nat) eqn:Hc1.
  { exists 1%nat. split_and!; [lia|done|]. intros j Hj. assert (j = 0%nat ∨ j = 1%nat) as [->| ->] by lia; eauto. }
  assert (Hprev : ∀ j, (j < 2)%nat → ∃ e, fn j = Err e ∧ superseded e = true).
  { intros j Hj. assert (j = 0%nat ∨ j = 1%nat) as [->| ->] by lia; eauto. }
  destruct (fn 2%nat) as [a|e2] eqn:H2; [|destruct (superseded e2) eqn:Hs2]; exists 2%nat; rewrite H2; split_and!; try done; try lia.
Qed.

(** ** Witnesses and counterexamples *)

Definition fetch_checks_request : refresh_request := mkRequestArgs "checks:acme/app:c0ffee" "event" false.

Definition rest_run (id : Z) (status : string) : CheckRun :=
  mkRestCheck id "N" "job" status "" "" "ci" None None "{}".

Definition two_pages : list (list CheckRun) := [[rest_run 50 "completed"]; [rest_run 60 "queued"]].

Definition page_tag (page : Z) : string := if page =? 1 then "t1" else "t2".

Definition fetched_checks :=
  refreshChecksOnce wit_digest (λ _, true) 2 no_fences fetch_checks_request wit_record
    (page_server two_pages page_tag) 80 Execute.exec_state Execute.exec_state.


Definition fetch_stack_request : refresh_request := mkRequestArgs "stack:acme/app:2" "event" false.

(** The cache after another writer has committed the stack. *)
Definition moved_state : wstate (pcache string) := mkWState {[ "stack:7:9:2" := 1 ]} (ws_cache Execute.exec_state).

Definition raced_stack :=
  refreshStackOnce no_fences fetch_stack_request wit_record
    (λ _, Fetched (mkRestStack 5 2 "S" "main" "b0" true 1 70 []) "tag" 0) None 75 80 Execute.exec_state moved_state.


(** A validator of the first page vouches for that page only, yet a 304 for it ends the
    refresh: a run on a later page that has changed keeps its old state in the cache. *)
Definition tagged_state : wstate (pcache string) :=
  mkWState ∅ (set_w (set_checks
    {[ 50 := mkCheckFull 1 "C" "build" "queued" "" "" "ci" None None (Some 5) "v1" "c0ffee" (mkProv 5 5 "t1" "webhook") None;
       51 := mkCheckFull 1 "D" "lint" "queued" "" "" "ci" None None (Some 5) "v1" "c0ffee" (mkProv 5 5 "t1" "webhook") None ]}
    (pc_w (ws_cache Execute.exec_state))) (ws_cache Execute.exec_state)).

Example later_page_change_missed :
  let run := refreshChecksOnce wit_digest (λ _, true) 2 no_fences fetch_checks_request wit_record
    (page_server [[rest_run 50 "queued"]; [rest_run 51 "completed"]] page_tag) 80 tagged_state tagged_state in
  run.1 = Ok tt ∧ cf_status <$> wc_checks (pc_w (ws_cache run.2)) !! 51 = Some "queued".
Proof. vm_compute. split; reflexivity. Qed.

(** Rulesets are listed in pages, and only the first page is read: a rule on the second
    page is tombstoned. *)
Definition ruled_state : wstate (pcache string) :=
  mkWState ∅ (set_w (set_rules
    {[ (1, "1") := mkRuleFull "r1" None "" (mkProv 5 5 "" "webhook") None;
       (1, "2") := mkRuleFull "r2" None "" (mkProv 5 5 "" "webhook") None ]}
    (pc_w (ws_cache Execute.exec_state))) (ws_cache Execute.exec_state)).

Example second_page_rules_dropped :
  let run := refreshRepoRulesOnce no_fences (mkRequestArgs "repo_rules:acme/app:rules" "event" false) wit_record
    (λ _, Fetched [mkRestRule 1 "r1" None] "t" 2) 75 80 ruled_state ruled_state in
  run.1 = Ok tt ∧ (rf_tombstoned_at <$> wc_rules (pc_w (ws_cache run.2)) !! (1, "2")) = Some (Some 80).
Proof. vm_compute. split; reflexivity. Qed.
