(* ===== verification/Backfill.v ===== *)
(** * Backfill

    [internal/fetch/backfill.go] with the statements of
    [internal/store/dbgen/backfill.sql.go]: the resumable enumeration of an installation.
    The cursor of an installation walks the pages of its repositories and starts one
    cursor per repository; the cursor of a repository goes through the phases
    [repository], [stacks], [pull_requests], [waiting] and [done]. Each page is one River
    job; its last transaction checks the cursor again under a row lock, enqueues the
    refreshes of the page, records them as children of the backfill, moves the cursor and
    inserts the job of the next page. A repository is done when the refresh of every child
    has completed.

    Pull requests are listed in passes until a pass finds nothing new; the cursor's one
    integer encodes the page, the number of identifiers the pass has added, and the parity
    of the pass. *)

From Stdlib Require Import ZArith Lia Bool String Ascii.
From stdpp Require Import sorting strings gmap sets numbers base list.
From S2P Require Import Prelude GoStrings GoFloat Keys RefreshQueue EntityWriter Derive Writers PullRequests.
From S2P Require Import GitHub ChangeInputs Convert Coordinator Fetch.

Local Open Scope Z_scope.

Inductive backfill_error : Type :=
  | InvalidPullCursor
  | PullCursorOutOfRange
  | EstimateDiverged
  | NoSuchCursor
  | UnsupportedPhase
  | InvalidKickoff
  | InvalidRepositoryName
  | ListingFailed
  | RepositoryFailed
  | PullNotWritten
  | NotEnqueued (e : queue_error)
  | ChildrenNotPersisted
  | CursorNotAdvanced.

(** ** The cursor of the pull-request phase *)

(** [n*(n+1)/2] in [int64], for the two consecutive factors the code multiplies. *)
Definition half_product (a b : Z) : Z := wrap64 (a * b) `quot` 2.

Definition encodePullBackfillCursor (page passNewCount : Z) (alternatePass : bool)
    : result backfill_error Z :=
  if (page <=? 0) || (passNewCount <? 0) then Err InvalidPullCursor
  else
    let x := wrap64 (page - 1) in
    let y := passNewCount in
    let diagonal := wrap64 (x + y) in
    let paired := wrap64 (half_product diagonal (wrap64 (diagonal + 1)) + y) in
    let encoded := wrap64 (wrap64 (paired * 2) + 1) in
    let encoded := if alternatePass then wrap64 (encoded + 1) else encoded in
    if 2 ^ 31 - 1 <? encoded then Err PullCursorOutOfRange else Ok encoded.

(** [int64((math.Sqrt(float64(8*paired+1)) - 1) / 2)]. *)
Definition diagonal_estimate (paired : Z) : Z :=
  f64_trunc (f64_div (f64_sub (f64_sqrt (f64_of_int (wrap64 (wrap64 (8 * paired) + 1)))) f64_one)
               (f64_of_int 2)).

(** The two loops that correct the estimate; [fuel] bounds their iterations. *)
Fixpoint lower_diagonal (fuel : nat) (paired diagonal : Z) : option Z :=
  match fuel with
  | O => None
  | S fuel =>
      if paired <? half_product diagonal (wrap64 (diagonal + 1))
      then lower_diagonal fuel paired (wrap64 (diagonal - 1))
      else Some diagonal
  end.

Fixpoint raise_diagonal (fuel : nat) (paired diagonal : Z) : option Z :=
  match fuel with
  | O => None
  | S fuel =>
      if half_product (wrap64 (diagonal + 1)) (wrap64 (diagonal + 2)) <=? paired
      then raise_diagonal fuel paired (wrap64 (diagonal + 1))
      else Some diagonal
  end.

Definition correction_fuel : nat := Z.to_nat 200000.

Definition decodePullBackfillCursor (encoded : Z) : result backfill_error (Z * Z * bool) :=
  if encoded <=? 0 then Err InvalidPullCursor
  else
    let raw := wrap64 (encoded - 1) in
    let alternatePass := raw `rem` 2 =? 1 in
    let paired := raw `quot` 2 in
    match lower_diagonal correction_fuel paired (diagonal_estimate paired) ≫=
          raise_diagonal correction_fuel paired with
    | None => Err EstimateDiverged
    | Some diagonal =>
        let offset := wrap64 (paired - half_product diagonal (wrap64 (diagonal + 1))) in
        let page := wrap64 (wrap64 (diagonal - offset) + 1) in
        match encodePullBackfillCursor page offset alternatePass with
        | Ok roundTrip =>
            if roundTrip =? encoded then Ok (page, offset, alternatePass) else Err InvalidPullCursor
        | Err _ => Err InvalidPullCursor
        end
    end.

Definition triangle (d : Z) : Z := (d * (d + 1)) `div` 2.

Lemma triangle_double d : 2 * triangle d = d * (d + 1).
Proof.
  unfold triangle. symmetry. apply Z.div_exact; [done|]. destruct (Z.Even_or_Odd d) as [[k ->]|[k ->]].
  - rewrite <- Z.mul_assoc, Z.mul_comm. apply Z.mod_mul. lia.
  - replace (2 * k + 1 + 1) with ((k + 1) * 2) by lia. rewrite Z.mul_assoc. apply Z.mod_mul. lia.
Qed.

Lemma triangle_succ d : triangle (d + 1) = triangle d + d + 1.
Proof. pose proof (triangle_double d). pose proof (triangle_double (d + 1)). lia. Qed.

Lemma triangle_nonneg d : 0 ≤ d → 0 ≤ triangle d.
Proof. pose proof (triangle_double d). nia. Qed.

Lemma triangle_mono a b : 0 ≤ a ≤ b → triangle a ≤ triangle b.
Proof. pose proof (triangle_double a). pose proof (triangle_double b). nia. Qed.

(** The diagonal of a paired number is unique. *)
Lemma triangle_unique a b p : 0 ≤ a → 0 ≤ b →
  triangle a ≤ p < triangle (a + 1) → triangle b ≤ p < triangle (b + 1) → a = b.
Proof.
  intros Ha Hb H1 H2. destruct (Z.lt_trichotomy a b) as [Hlt|[Heq|Hlt]]; [|done|].
  - pose proof (triangle_mono (a + 1) b). lia.
  - pose proof (triangle_mono (b + 1) a). lia.
Qed.

Lemma half_triangle a : 0 ≤ a ≤ 2 ^ 31 → half_product a (wrap64 (a + 1)) = triangle a.
Proof.
  intros Ha. unfold half_product. rewrite (wrap64_id (a + 1)), wrap64_id by (unfold in_int64; nia).
  unfold triangle. apply Z.quot_div_nonneg; nia.
Qed.

Lemma half_triangle_next a : 0 ≤ a ≤ 2 ^ 30 →
  half_product (wrap64 (a + 1)) (wrap64 (a + 2)) = triangle (a + 1).
Proof.
  intros Ha. rewrite (wrap64_id (a + 1)) by (unfold in_int64; lia).
  replace (a + 2) with (a + 1 + 1) by lia. apply half_triangle. lia.
Qed.

(** The code number of a page, a count and a parity. *)
Definition pull_code (page count : Z) (alt : bool) : Z :=
  2 * (triangle (page - 1 + count) + count) + 1 + Z.b2z alt.

Lemma encode_value page count alt : 0 < page ≤ 2 ^ 30 → 0 ≤ count ≤ 2 ^ 30 →
  encodePullBackfillCursor page count alt =
  if 2 ^ 31 - 1 <? pull_code page count alt then Err PullCursorOutOfRange
  else Ok (pull_code page count alt).
Proof.
  intros Hp Hc. unfold encodePullBackfillCursor.
  rewrite (proj2 (Z.leb_gt page 0)), (proj2 (Z.ltb_ge count 0)) by lia. cbn [orb].
  rewrite (wrap64_id (page - 1)), (wrap64_id (page - 1 + count)) by (unfold in_int64; lia).
  rewrite half_triangle by lia. set (t := triangle (page - 1 + count)).
  assert (0 ≤ t ≤ 2 ^ 61) as Ht.
  { subst t. pose proof (triangle_double (page - 1 + count)). nia. }
  rewrite (wrap64_id (t + count)), (wrap64_id ((t + count) * 2)), (wrap64_id ((t + count) * 2 + 1))
    by (unfold in_int64; lia).
  unfold pull_code. fold t. destruct alt; cbn [Z.b2z].
  - rewrite wrap64_id by (unfold in_int64; lia). by replace ((t + count) * 2 + 1 + 1) with (2 * (t + count) + 1 + 1) by lia.
  - by replace ((t + count) * 2 + 1) with (2 * (t + count) + 1 + 0) by lia.
Qed.

Lemma lower_diagonal_spec fuel p : ∀ d, 0 ≤ p → 0 ≤ d ≤ 2 ^ 30 → d < Z.of_nat fuel →
  ∃ d', lower_diagonal fuel p d = Some d' ∧ 0 ≤ d' ≤ d ∧ triangle d' ≤ p.
Proof.
  induction fuel as [|fuel IH]; intros d Hp Hd Hf; [lia|]. cbn [lower_diagonal].
  rewrite half_triangle by lia. case_if; to_props.
  - rewrite wrap64_id by (unfold in_int64; lia). assert (d ≠ 0) by (intros ->; change (triangle 0) with 0 in *; lia).
    destruct (IH (d - 1)) as (d' & ? & ? & ?); [lia..|]. exists d'. split_and!; [done|lia|lia|done].
  - exists d. split_and!; [done|lia|lia|done].
Qed.

Lemma raise_diagonal_spec fuel p : ∀ d, p < 2 ^ 30 → 0 ≤ d → triangle d ≤ p → 46341 - d < Z.of_nat fuel →
  ∃ d', raise_diagonal fuel p d = Some d' ∧ 0 ≤ d' ≤ 46340 ∧ triangle d' ≤ p < triangle (d' + 1).
Proof.
  assert (Hmax : ∀ d, 0 ≤ d → triangle d < 2 ^ 30 → d ≤ 46340).
  { intros d Hd Ht. pose proof (triangle_double d). nia. }
  induction fuel as [|fuel IH]; intros d Hp Hd Ht Hf; pose proof (Hmax d); [lia|]. cbn [raise_diagonal].
  rewrite half_triangle_next by lia. case_if; to_props.
  - rewrite wrap64_id by (unfold in_int64; lia). apply IH; lia.
  - exists d. split_and!; [done|lia..].
Qed.

(** Every positive 32-bit number is a code, and its diagonal is found. *)
Lemma decode_diagonal e : 0 < e < 2 ^ 31 → let p := (e - 1) `div` 2 in
  ∃ d, 0 ≤ d ≤ 46340 ∧ triangle d ≤ p < triangle (d + 1) ∧
    decodePullBackfillCursor e = Ok (d - (p - triangle d) + 1, p - triangle d, Z.odd (e - 1)).
Proof.
  intros He p. assert (Hp : 0 ≤ p < 2 ^ 30).
  { subst p. split; [apply Z.div_pos; lia|apply Z.div_lt_upper_bound; lia]. }
  assert (Hodd : e - 1 = 2 * p + Z.b2z (Z.odd (e - 1))).
  { subst p. rewrite <- Z.div2_div. apply Z.div2_odd. }
  destruct (sqrt_estimate 92683 (8 * p + 1)) as [Hlo Hhi]; [lia..|].
  assert (Hfuel : Z.of_nat correction_fuel = 200000) by (unfold correction_fuel; lia).
  unfold decodePullBackfillCursor. rewrite (proj2 (Z.leb_gt e 0)) by lia.
  rewrite (wrap64_id (e - 1)) by (unfold in_int64; lia). rewrite Z.quot_div_nonneg, Z.rem_mod_nonneg by lia.
  fold p. rewrite <- Z.bit0_mod, Z.bit0_odd. unfold diagonal_estimate.
  rewrite (wrap64_id (8 * p)), (wrap64_id (8 * p + 1)) by (unfold in_int64; lia).
  destruct (lower_diagonal_spec correction_fuel p (f64_trunc (f64_div (f64_sub (f64_sqrt (f64_of_int (8 * p + 1)))
    f64_one) (f64_of_int 2)))) as (d0 & Hl & Hd0 & Ht0); [lia..|]. rewrite Hl. cbn [mbind option_bind].
  destruct (raise_diagonal_spec correction_fuel p d0) as (d & -> & Hd & Ht); [lia..|].
  exists d. split_and!; [lia|lia|lia|lia|]. rewrite half_triangle by lia.
  pose proof (triangle_succ d). pose proof (triangle_nonneg d).
  rewrite (wrap64_id (p - triangle d)), (wrap64_id (d - (p - triangle d))),
    (wrap64_id (d - (p - triangle d) + 1)) by (unfold in_int64; lia).
  assert (Hcode : pull_code (d - (p - triangle d) + 1) (p - triangle d) (Z.odd (e - 1)) = e).
  { unfold pull_code. replace (d - (p - triangle d) + 1 - 1 + (p - triangle d)) with d by lia. lia. }
  assert (Hb : (Z.b2z (Z.odd (e - 1)) =? 1) = Z.odd (e - 1)) by by destruct (Z.odd (e - 1)). rewrite Hb.
  rewrite encode_value, Hcode by lia. rewrite (proj2 (Z.ltb_ge _ _)) by lia. by rewrite Z.eqb_refl.
Qed.

Lemma code_diagonal page count alt : 0 < page → 0 ≤ count →
  let e := pull_code page count alt in
  (e - 1) `div` 2 = triangle (page - 1 + count) + count ∧ Z.odd (e - 1) = alt.
Proof.
  intros Hp Hc e. subst e. unfold pull_code. set (t := triangle (page - 1 + count)).
  replace (2 * (t + count) + 1 + Z.b2z alt - 1) with (Z.b2z alt + 2 * (t + count)) by lia.
  rewrite Z.odd_add_mul_2. split; [|by destruct alt].
  symmetry. apply (Z.div_unique _ _ _ (Z.b2z alt)); destruct alt; cbn [Z.b2z]; lia.
Qed.

Lemma encode_decode page count alt e : 0 < page ≤ 2 ^ 30 → 0 ≤ count ≤ 2 ^ 30 →
  encodePullBackfillCursor page count alt = Ok e →
  e = pull_code page count alt ∧ 0 < e < 2 ^ 31 ∧ decodePullBackfillCursor e = Ok (page, count, alt).
Proof.
  intros Hp Hc. rewrite encode_value by done. pose proof (triangle_nonneg (page - 1 + count)). intros He.
  case_if_in He; [done|]. to_props. injection He as <-. split; [done|].
  destruct (code_diagonal page count alt) as [Hdiv Hodd]; [lia..|]. set (e := pull_code page count alt) in *.
  assert (0 < e < 2 ^ 31) as Hr by (split; [subst e; unfold pull_code; destruct alt; cbn; lia|lia]).
  split; [done|]. destruct (decode_diagonal e Hr) as (d & Hd & Htd & ->). rewrite Hdiv, Hodd in *.
  assert (d = page - 1 + count) as ->.
  { eapply triangle_unique; [lia|lia|exact Htd|]. rewrite triangle_succ. lia. }
  do 3 f_equal; lia.
Qed.

Lemma encode_succeeds page count alt : 0 < page → 0 ≤ count → page + count ≤ 46340 →
  encodePullBackfillCursor page count alt = Ok (pull_code page count alt).
Proof.
  intros Hp Hc Hs. rewrite encode_value by lia. rewrite (proj2 (Z.ltb_ge _ _)); [done|].
  pose proof (triangle_double (page - 1 + count)). unfold pull_code. destruct alt; cbn [Z.b2z]; nia.
Qed.

(** C22. The cursor of the pull-request phase is a faithful code. For pages and counts up to
    2^30, [encodePullBackfillCursor] succeeds whenever the page and the count together stay
    within 46340, refuses whenever they exceed 46342, and what it returns is a positive
    32-bit integer that [decodePullBackfillCursor] takes back to the same page, count and
    parity; and every positive 32-bit integer decodes, to a positive page and a
    non-negative count that encode to it. The floating-point estimate of the decoder is the
    binary64 computation of the code. *)
Theorem pull_cursor_round_trip :
  (∀ page count alt, 0 < page ≤ 2 ^ 30 ∧ 0 ≤ count ≤ 2 ^ 30 →
     (page + count ≤ 46340 → is_ok (encodePullBackfillCursor page count alt) = true) ∧
     (46342 ≤ page + count → encodePullBackfillCursor page count alt = Err PullCursorOutOfRange) ∧
     ∀ e, encodePullBackfillCursor page count alt = Ok e →
       0 < e < 2 ^ 31 ∧ decodePullBackfillCursor e = Ok (page, count, alt)) ∧
  (∀ e, 0 < e < 2 ^ 31 → ∃ page count alt, decodePullBackfillCursor e = Ok (page, count, alt) ∧
     0 < page ∧ 0 ≤ count ∧ encodePullBackfillCursor page count alt = Ok e).
Proof.
  split.
  - intros page count alt [Hp Hc]. split_and!.
    + intros Hs. by rewrite encode_succeeds by lia.
    + intros Hs. rewrite encode_value by done. rewrite (proj2 (Z.ltb_lt _ _)); [done|].
      pose proof (triangle_double (page - 1 + count)). unfold pull_code. destruct alt; cbn [Z.b2z]; nia.
    + intros e He. by apply (encode_decode page count alt).
  - intros e He. destruct (decode_diagonal e He) as (d & Hd & Ht & ->). set (p := (e - 1) `div` 2) in *.
    pose proof (triangle_succ d). do 3 eexists. split; [done|]. split_and!; [lia|lia|].
    rewrite encode_value by lia.
    assert (pull_code (d - (p - triangle d) + 1) (p - triangle d) (Z.odd (e - 1)) = e) as ->.
    { unfold pull_code. replace (d - (p - triangle d) + 1 - 1 + (p - triangle d)) with d by lia.
      pose proof (Z.div2_odd (e - 1)) as Ho. rewrite Z.div2_div in Ho. fold p in Ho. lia. }
    by rewrite (proj2 (Z.ltb_ge _ _)) by lia.
Qed.

Lemma pull_cursor_round_trip_witness :
  ∃ page count alt, decodePullBackfillCursor 2147483647 = Ok (page, count, alt) ∧
    0 < page ∧ 0 ≤ count ∧ encodePullBackfillCursor page count alt = Ok 2147483647.
Proof. apply (proj2 pull_cursor_round_trip). lia. Defined.

(** A page of 2^32 would overflow [int64] and yield a negative number instead of an
    error. *)
Example huge_page_unchecked : encodePullBackfillCursor (2 ^ 32) 0 false = Ok (1 - 2 ^ 32).
Proof. reflexivity. Qed.

(** ** Tables and statements *)

Definition QueueInteractive : string := "interactive".
Definition QueueSweep : string := "sweep".

(** A row of [installation_backfill_cursors] or of [backfill_cursors]. *)
Record backfill_cursor : Type := mkCursor {
  cu_phase : string;
  cu_page : Z;
  cu_queue_name : string;
  cu_completed_at : option time;
  cu_updated_at : time
}.

Record child_row : Type := mkChild {
  ch_target_generation : Z;
  ch_created_at : time;
  ch_completed_at : option time
}.

(** A repository of an installation. *)
Abbreviation repo_key := (Z * string)%type.

Record backfill_tables : Type := mkBackfill {
  bf_installations : gmap Z backfill_cursor;
  bf_cursors : gmap repo_key backfill_cursor;
  bf_children : gmap (repo_key * identity) child_row
}.

Definition set_cursors (m : gmap repo_key backfill_cursor) (t : backfill_tables) : backfill_tables :=
  mkBackfill (bf_installations t) m (bf_children t).
Definition set_children (m : gmap (repo_key * identity) child_row) (t : backfill_tables) : backfill_tables :=
  mkBackfill (bf_installations t) (bf_cursors t) m.
Definition set_installations (m : gmap Z backfill_cursor) (t : backfill_tables) : backfill_tables :=
  mkBackfill m (bf_cursors t) (bf_children t).

Definition GetBackfillCursor (k : repo_key) (t : backfill_tables) : option backfill_cursor := bf_cursors t !! k.
Definition GetInstallationBackfillCursor (i : Z) (t : backfill_tables) : option backfill_cursor :=
  bf_installations t !! i.

(** An existing row is returned as it is. *)
Definition EnsureBackfillCursor (now : time) (k : repo_key) (t : backfill_tables) : backfill_cursor * backfill_tables :=
  match bf_cursors t !! k with
  | Some c => (c, t)
  | None =>
      let c := mkCursor "repository" 1 QueueInteractive None now in
      (c, set_cursors (<[k := c]> (bf_cursors t)) t)
  end.

Definition EnsureInstallationBackfillCursor (now : time) (i : Z) (t : backfill_tables)
    : backfill_cursor * backfill_tables :=
  match bf_installations t !! i with
  | Some c => (c, t)
  | None =>
      let c := mkCursor "repositories" 1 QueueInteractive None now in
      (c, set_installations (<[i := c]> (bf_installations t)) t)
  end.

(** The row an advance writes. *)
Definition advanced (now : time) (nextPhase : string) (nextPage : Z) (queueName : string) : backfill_cursor :=
  mkCursor nextPhase nextPage queueName (if bool_decide (nextPhase = "done") then Some now else None) now.

(** [None] when no row has the expected phase and page, or when the new page breaks the
    check [page > 0]. *)
Definition advance_cursor {K} `{Countable K} (now : time) (nextPhase : string) (nextPage : Z) (queueName : string)
    (k : K) (expectedPhase : string) (expectedPage : Z) (m : gmap K backfill_cursor) : option (gmap K backfill_cursor) :=
  match m !! k with
  | Some c =>
      if bool_decide (cu_phase c = expectedPhase) && (cu_page c =? expectedPage) && (0 <? nextPage)
      then Some (<[k := advanced now nextPhase nextPage queueName]> m) else None
  | None => None
  end.

Definition AdvanceBackfillCursor (now : time) (nextPhase : string) (nextPage : Z) (queueName : string)
    (k : repo_key) (expectedPhase : string) (expectedPage : Z) (t : backfill_tables) : option backfill_tables :=
  (λ m, set_cursors m t) <$>
    advance_cursor now nextPhase nextPage queueName k expectedPhase expectedPage (bf_cursors t).

Definition AdvanceInstallationBackfillCursor (now : time) (nextPhase : string) (nextPage : Z) (queueName : string)
    (i : Z) (expectedPhase : string) (expectedPage : Z) (t : backfill_tables) : option backfill_tables :=
  (λ m, set_installations m t) <$>
    advance_cursor now nextPhase nextPage queueName i expectedPhase expectedPage (bf_installations t).

(** The upsert of one child: the target only grows, and a grown target is not completed. *)
Definition upsert_child (now : time) (target : Z) (row : option child_row) : child_row :=
  match row with
  | None => mkChild target now None
  | Some c =>
      mkChild (Z.max (ch_target_generation c) target) (ch_created_at c)
        (if target <=? ch_target_generation c then ch_completed_at c else None)
  end.

(** [None] when two elements conflict on one row, which Postgres refuses. *)
Definition UpsertBackfillChildren (now : time) (k : repo_key) (children : list (identity * Z)) (t : backfill_tables)
    : option backfill_tables :=
  if bool_decide (NoDup (map fst children))
  then Some (set_children
    (foldl (λ m c, <[(k, c.1) := upsert_child now c.2 (m !! (k, c.1))]> m) (bf_children t) children) t)
  else None.

Definition mark_child (now : time) (g : generations) (k : repo_key) (ki : repo_key * identity) (c : child_row)
    : child_row :=
  if bool_decide (ki.1 = k) && bool_decide (ch_completed_at c = None)
     && match g !! ki.2 with
        | Some row => ch_target_generation c <=? completed_generation row
        | None => false
        end
  then mkChild (ch_target_generation c) (ch_created_at c) (Some now) else c.

Definition MarkCompletedBackfillChildren (now : time) (g : generations) (k : repo_key) (t : backfill_tables)
    : backfill_tables :=
  set_children (map_imap (λ ki c, Some (mark_child now g k ki c)) (bf_children t)) t.

Definition CountPendingBackfillChildren (k : repo_key) (t : backfill_tables) : nat :=
  size (filter (λ e, e.1.1 = k ∧ ch_completed_at e.2 = None) (bf_children t)).

Definition CountPendingInstallationRepos (i : Z) (t : backfill_tables) : nat :=
  size (filter (λ e, e.1.1 = i ∧ cu_phase e.2 ≠ "done") (bf_cursors t)).

Definition ListSeenBackfillRefreshKeys (k : repo_key) (kind : string) (keys : list string) (t : backfill_tables)
    : list string :=
  map (λ e, e.1.2.2)
    (filter (λ e, e.1.1 = k ∧ e.1.2.1 = kind ∧ e.1.2.2 ∈ keys) (map_to_list (bf_children t))).

(** [IsInstallationBackfillDone]. *)
Definition IsInstallationBackfillDone (i : Z) (t : backfill_tables) : bool :=
  match bf_installations t !! i with
  | Some c => bool_decide (cu_phase c = "done") && negb (bool_decide (cu_completed_at c = None))
  | None => false
  end
  && bool_decide (filter (λ e, e.1.1 = i ∧ cu_phase e.2 ≠ "done") (bf_cursors t) = ∅)
  && bool_decide (filter (λ e, e.1.1.1 = i ∧ ch_completed_at e.2 = None) (bf_children t) = ∅).

(** ** Page jobs *)

Record BackfillRepoPageArgs : Type := mkRepoPage {
  ra_InstallationID : Z;
  ra_RepoFullName : string;
  ra_Phase : string;
  ra_Page : Z
}.

Record BackfillInstallationPageArgs : Type := mkInstallationPage {
  ia_InstallationID : Z;
  ia_Phase : string;
  ia_Page : Z
}.

Inductive page_job : Type :=
  | RepoPage (a : BackfillRepoPageArgs)
  | InstallationPage (a : BackfillInstallationPageArgs).

#[export] Instance RepoPage_eq_dec : EqDecision BackfillRepoPageArgs.
Proof. solve_decision. Defined.
#[export] Instance InstallationPage_eq_dec : EqDecision BackfillInstallationPageArgs.
Proof. solve_decision. Defined.
#[export] Instance page_job_eq_dec : EqDecision page_job.
Proof. solve_decision. Defined.

(** River, for the jobs of [NewBackfillInsertOptsForQueue], which are unique by their
    arguments while they are available, pending, retryable, running or scheduled: whether
    a job with these arguments is in one of these states, its insertion in a queue, and
    its end. *)
Class PageJobs : Type := {
  page_jobs : Type;
  has_job : page_jobs → page_job → bool;
  insert_job : page_job → string → page_jobs → page_jobs;
  end_job : page_job → page_jobs → page_jobs
}.

Class PageJobsLaws (P : PageJobs) : Prop := {
  insert_job_has (t : page_jobs) a q b :
    has_job (insert_job a q t) b = bool_decide (b = a) || has_job t b;
  end_job_has (t : page_jobs) a b :
    has_job (end_job a t) b = negb (bool_decide (b = a)) && has_job t b
}.

Definition repo_of (a : BackfillRepoPageArgs) : repo_key := (ra_InstallationID a, ra_RepoFullName a).

Definition backfillClass (queueName : string) : string :=
  if bool_decide (queueName = QueueSweep) then "sweep" else "interactive".

Section operations.
Context `{R : River} `{P : PageJobs}.

Record backfill_db : Type := mkBackfillDb {
  bb_tables : backfill_tables;
  bb_queue : RefreshQueue.tables;
  bb_jobs : page_jobs
}.

Definition set_tables (t : backfill_tables) (d : backfill_db) : backfill_db :=
  mkBackfillDb t (bb_queue d) (bb_jobs d).

(** ** Advancing a repository *)

(** Whether a job's arguments are those of the cursor. *)
Definition cursor_matches (c : backfill_cursor) (phase : string) (page : Z) : bool :=
  bool_decide (cu_phase c = phase) && (cu_page c =? page).

(** The generations of an enqueued batch, recorded as children. *)
Definition persistBackfillChildren (now : time) (a : BackfillRepoPageArgs) (out : list RefreshGeneration)
    (t : backfill_tables) : result backfill_error backfill_tables :=
  match out with
  | [] => Ok t
  | _ =>
      match UpsertBackfillChildren now (repo_of a) (map (λ g, (spec_identity (rg_Spec g), rg_Generation g)) out) t with
      | Some t => Ok t
      | None => Err ChildrenNotPersisted
      end
  end.

Definition enqueue (now ev : time) (specs : list RefreshSpec) (queueName : string) (q : RefreshQueue.tables)
    : result backfill_error (list RefreshGeneration * RefreshQueue.tables) :=
  match InsertRefreshesTxReturning now ev specs queueName q with
  | Ok r => Ok r
  | Err e => Err (NotEnqueued e)
  end.

Definition move_cursor (now : time) (nextPhase : string) (nextPage : Z) (queueName : string)
    (a : BackfillRepoPageArgs) (t : backfill_tables) : result backfill_error backfill_tables :=
  match AdvanceBackfillCursor now nextPhase (wrap32 nextPage) queueName (repo_of a) (ra_Phase a)
          (wrap32 (ra_Page a)) t with
  | Some t => Ok t
  | None => Err CursorNotAdvanced
  end.

Definition next_args (a : BackfillRepoPageArgs) (nextPhase : string) (nextPage : Z) : BackfillRepoPageArgs :=
  mkRepoPage (ra_InstallationID a) (ra_RepoFullName a) nextPhase nextPage.

(** [advanceBackfill]: [Err] rolls back. A cursor that has moved is left alone. *)
Definition advanceBackfill (now ev : time) (a : BackfillRepoPageArgs) (nextPhase : string) (nextPage : Z)
    (nextQueue : string) (specs : list RefreshSpec) (d : backfill_db) : result backfill_error backfill_db :=
  match GetBackfillCursor (repo_of a) (bb_tables d) with
  | None => Err NoSuchCursor
  | Some c =>
      if negb (cursor_matches c (ra_Phase a) (ra_Page a)) then Ok d
      else
        '(out, q) ← enqueue now ev specs nextQueue (bb_queue d);
        t ← persistBackfillChildren now a out (bb_tables d);
        t ← move_cursor now nextPhase nextPage nextQueue a t;
        Ok (mkBackfillDb t q
              (if bool_decide (nextPhase = "done") then bb_jobs d
               else insert_job (RepoPage (next_args a nextPhase nextPage)) nextQueue (bb_jobs d)))
  end.

Definition unseenBackfillSpecs (a : BackfillRepoPageArgs) (specs : list RefreshSpec) (t : backfill_tables)
    : list RefreshSpec :=
  match specs with
  | [] => []
  | _ =>
      let seen := ListSeenBackfillRefreshKeys (repo_of a) KindRefreshPR (map sp_Key specs) t in
      filter (λ s, sp_Key s ∉ seen) specs
  end.

(** Where the pull-request phase goes after a page. *)
Definition next_pull_cursor (nextAPIPage passNewCount : Z) (alternatePass : bool)
    : result backfill_error (string * Z) :=
  if negb (nextAPIPage =? 0) then
    c ← encodePullBackfillCursor nextAPIPage passNewCount alternatePass; Ok ("pull_requests", c)
  else if 0 <? passNewCount then
    c ← encodePullBackfillCursor 1 0 (negb alternatePass); Ok ("pull_requests", c)
  else Ok ("waiting", 1).

Definition advancePullRequestBackfill (now ev : time) (a : BackfillRepoPageArgs) (nextAPIPage : Z)
    (specs : list RefreshSpec) (d : backfill_db) : result backfill_error backfill_db :=
  match GetBackfillCursor (repo_of a) (bb_tables d) with
  | None => Err NoSuchCursor
  | Some c =>
      if negb (cursor_matches c (ra_Phase a) (ra_Page a)) then Ok d
      else
        '(_, passNewCount, alternatePass) ← decodePullBackfillCursor (cu_page c);
        let unseen := unseenBackfillSpecs a specs (bb_tables d) in
        '(out, q) ← enqueue now ev unseen (cu_queue_name c) (bb_queue d);
        t ← persistBackfillChildren now a out (bb_tables d);
        '(nextPhase, nextCursor) ←
          next_pull_cursor nextAPIPage (wrap64 (passNewCount + Z.of_nat (length unseen))) alternatePass;
        t ← move_cursor now nextPhase nextCursor QueueSweep a t;
        Ok (mkBackfillDb t q (insert_job (RepoPage (next_args a nextPhase nextCursor)) QueueSweep (bb_jobs d)))
  end.

(** ** Starting *)

Definition StartBackfill (now : time) (installationID : Z) (repoFullName : string) (d : backfill_db)
    : result backfill_error (backfill_cursor * backfill_db) :=
  if installationID <=? 0 then Err InvalidKickoff
  else match repoutil_Split repoFullName with
       | None => Err InvalidRepositoryName
       | Some _ =>
           let '(c, t) := EnsureBackfillCursor now (installationID, repoFullName) (bb_tables d) in
           let jobs :=
             if bool_decide (cu_phase c = "done") then bb_jobs d
             else insert_job (RepoPage (mkRepoPage installationID repoFullName (cu_phase c) (cu_page c)))
                    (cu_queue_name c) (bb_jobs d) in
           Ok (c, mkBackfillDb t (bb_queue d) jobs)
       end.

Definition StartInstallationBackfill (now : time) (installationID : Z) (d : backfill_db)
    : result backfill_error (backfill_cursor * backfill_db) :=
  if installationID <=? 0 then Err InvalidKickoff
  else
    let '(c, t) := EnsureInstallationBackfillCursor now installationID (bb_tables d) in
    let jobs :=
      if bool_decide (cu_phase c = "done") then bb_jobs d
      else insert_job (InstallationPage (mkInstallationPage installationID (cu_phase c) (cu_page c)))
             (cu_queue_name c) (bb_jobs d) in
    Ok (c, mkBackfillDb t (bb_queue d) jobs).

(** ** Advancing an installation *)

(** The loop over the listed repositories. *)
Fixpoint start_repositories (now : time) (installationID : Z) (names : list string) (d : backfill_db) : backfill_db :=
  match names with
  | [] => d
  | name :: names =>
      let '(c, t) := EnsureBackfillCursor now (installationID, name) (bb_tables d) in
      let jobs :=
        if bool_decide (cu_phase c = "done") then bb_jobs d
        else insert_job (RepoPage (mkRepoPage installationID name (cu_phase c) (cu_page c)))
               (cu_queue_name c) (bb_jobs d) in
      start_repositories now installationID names (mkBackfillDb t (bb_queue d) jobs)
  end.

Definition advanceInstallationBackfill (now : time) (a : BackfillInstallationPageArgs) (repositories : list Repository)
    (nextPhase : string) (nextPage : Z) (nextQueue : string) (d : backfill_db) : result backfill_error backfill_db :=
  match GetInstallationBackfillCursor (ia_InstallationID a) (bb_tables d) with
  | None => Err NoSuchCursor
  | Some c =>
      if negb (cursor_matches c (ia_Phase a) (ia_Page a)) then Ok d
      else
        let d := start_repositories now (ia_InstallationID a) (map re_FullName repositories) d in
        match AdvanceInstallationBackfillCursor now nextPhase (wrap32 nextPage) nextQueue (ia_InstallationID a)
                (ia_Phase a) (wrap32 (ia_Page a)) (bb_tables d) with
        | None => Err CursorNotAdvanced
        | Some t =>
            Ok (mkBackfillDb t (bb_queue d)
                  (if bool_decide (nextPhase = "done") then bb_jobs d
                   else insert_job (InstallationPage (mkInstallationPage (ia_InstallationID a) nextPhase nextPage))
                          nextQueue (bb_jobs d)))
        end
  end.

(** ** The handlers *)

(** What a page job decided before its last transaction. *)
Inductive page_plan : Type :=
  | AdvanceTo (nextPhase : string) (nextPage : Z) (nextQueue : string) (specs : list RefreshSpec)
  | AdvancePulls (nextAPIPage : Z) (specs : list RefreshSpec)
  | MarkChildren
  | CountChildren.

Inductive page_outcome : Type :=
  | PageIgnored
  | PageSnoozed
  | PageFinished.

Section handlers.
Context {raw : Type} `{EqDecision raw}.

(** GitHub's answers and the other components a repository page calls:
    [RefreshRepository] on the cache, the two listings, and the arguments of
    [ensureRepository]. *)
Record page_inputs : Type := mkInputs {
  pi_installationID : Z;
  pi_orgID : Z;
  pi_refresh : refresh_request → wstate (pcache raw) → result fetch_error unit * wstate (pcache raw);
  pi_stacks : string → string * string → Z → option (list Stack * Z);
  pi_pulls : string → string * string → Z → option (list PullRequest * string * Z);
  pi_first : wstate (pcache raw);
  pi_second : wstate (pcache raw);
  pi_repository : answer Repository;
  pi_now : time
}.

(** The cursor of a job that is not stale. *)
Definition read_cursor (a : BackfillRepoPageArgs) (t : backfill_tables)
    : result backfill_error (option backfill_cursor) :=
  match GetBackfillCursor (repo_of a) t with
  | None => Err NoSuchCursor
  | Some c =>
      if negb (cursor_matches c (ra_Phase a) (ra_Page a)) || bool_decide (cu_phase c = "done") then Ok None
      else Ok (Some c)
  end.

Definition stack_spec (repo : string) (s : Stack) : RefreshSpec :=
  spec KindRefreshStack (pointer_key "stack" repo (FormatInt (ss_Number s))).

Definition pull_spec (repo : string) (p : PullRequest) : RefreshSpec :=
  spec KindRefreshPR (pointer_key "pr" repo (FormatInt (rl_Number p))).

(** The snapshots of a page of pull requests, written without an observation. *)
Definition write_pulls (source repo : string) (pulls : list PullRequest) (etag : string) (inputs : page_inputs)
    (st : wstate (pcache raw)) : result backfill_error unit * wstate (pcache raw) :=
  match ensureRepository (pi_installationID inputs) (pi_orgID inputs) no_fences source repo false
          (pi_first inputs) (pi_second inputs) (pi_repository inputs) (λ _, None) (pi_now inputs) st with
  | (Err _, st) => (Err RepositoryFailed, st)
  | (Ok repository, st) =>
      match pulls with
      | [] => (Ok tt, st)
      | _ =>
          let etags := foldl (λ m p, <[rl_Number p := etag]> m) ∅ pulls in
          let records := pullRecordsFromList repository pulls etags source (pi_now inputs) in
          let '(outcomes, st) := ApplyPullRequestBatch no_fences (pi_now inputs)
                                   (map (λ r, mkApply None r "" None None) records) st in
          if bool_decide (map_Forall (λ _ o, is_ok o = true) outcomes) then (Ok tt, st)
          else (Err PullNotWritten, st)
      end
  end.

(** [BackfillRepoPage] between its read of the cursor and its last transaction. *)
Definition plan_page (a : BackfillRepoPageArgs) (c : backfill_cursor) (inputs : page_inputs) (st : wstate (pcache raw))
    : result backfill_error page_plan * wstate (pcache raw) :=
  let class := backfillClass (cu_queue_name c) in
  let source := if bool_decide (cu_queue_name c = QueueSweep) then "reconcile" else "backfill" in
  let repo := ra_RepoFullName a in
  match repoutil_Split repo with
  | None => (Err InvalidRepositoryName, st)
  | Some name =>
      if bool_decide (ra_Phase a = "repository") then
        let '(res, st) := pi_refresh inputs
          (mkRequestArgs (pointer_key "repo" repo "metadata") (cu_queue_name c) false) st in
        match res with
        | Err _ => (Err RepositoryFailed, st)
        | Ok _ =>
            (Ok (AdvanceTo "stacks" 1 (cu_queue_name c)
                   [spec KindRefreshRepoRules (pointer_key "repo_rules" repo "rules")]), st)
        end
      else if bool_decide (ra_Phase a = "stacks") then
        match pi_stacks inputs class name (ra_Page a) with
        | None => (Err ListingFailed, st)
        | Some (stacks, next) =>
            let specs := map (stack_spec repo) stacks in
            (Ok (if negb (next =? 0) then AdvanceTo "stacks" next QueueSweep specs
                 else AdvanceTo "pull_requests" 1 (cu_queue_name c) specs), st)
        end
      else if bool_decide (ra_Phase a = "pull_requests") then
        match decodePullBackfillCursor (ra_Page a) with
        | Err e => (Err e, st)
        | Ok (page, _, _) =>
            match pi_pulls inputs class name page with
            | None => (Err ListingFailed, st)
            | Some (pulls, etag, next) =>
                let '(res, st) := write_pulls source repo pulls etag inputs st in
                (match res with
                 | Err e => Err e
                 | Ok _ => Ok (AdvancePulls next (map (pull_spec repo) pulls))
                 end, st)
            end
        end
      else if bool_decide (ra_Phase a = "waiting") then (Ok MarkChildren, st)
      else (Err UnsupportedPhase, st)
  end.

(** One more transaction of a page job: the plan that is left, if any. *)
Definition page_transaction (now ev : time) (a : BackfillRepoPageArgs) (plan : page_plan) (d : backfill_db)
    : result backfill_error (page_plan + page_outcome) * backfill_db :=
  match plan with
  | AdvanceTo nextPhase nextPage nextQueue specs =>
      match advanceBackfill now ev a nextPhase nextPage nextQueue specs d with
      | Ok d => (Ok (inr PageFinished), d)
      | Err e => (Err e, d)
      end
  | AdvancePulls nextAPIPage specs =>
      match advancePullRequestBackfill now ev a nextAPIPage specs d with
      | Ok d => (Ok (inr PageFinished), d)
      | Err e => (Err e, d)
      end
  | MarkChildren =>
      (Ok (inl CountChildren),
       set_tables (MarkCompletedBackfillChildren now (gens (bb_queue d)) (repo_of a) (bb_tables d)) d)
  | CountChildren =>
      (Ok (if (0 <? CountPendingBackfillChildren (repo_of a) (bb_tables d))%nat then inr PageSnoozed
           else inl (AdvanceTo "done" 1 QueueSweep [])), d)
  end.

(** The transactions of a job that runs alone; a plan has at most three. *)
Fixpoint run_plan (fuel : nat) (now ev : time) (a : BackfillRepoPageArgs) (plan : page_plan) (d : backfill_db)
    : result backfill_error page_outcome * backfill_db :=
  match page_transaction now ev a plan d, fuel with
  | (Err e, d), _ => (Err e, d)
  | (Ok (inr o), d), _ => (Ok o, d)
  | (Ok (inl plan), d), S fuel => run_plan fuel now ev a plan d
  | (Ok (inl _), d), O => (Err UnsupportedPhase, d)
  end.

Definition BackfillRepoPage (now ev : time) (a : BackfillRepoPageArgs) (inputs : page_inputs)
    (st : wstate (pcache raw)) (d : backfill_db)
    : result backfill_error page_outcome * wstate (pcache raw) * backfill_db :=
  match read_cursor a (bb_tables d) with
  | Err e => (Err e, st, d)
  | Ok None => (Ok PageIgnored, st, d)
  | Ok (Some c) =>
      match plan_page a c inputs st with
      | (Err e, st) => (Err e, st, d)
      | (Ok plan, st) => let '(res, d) := run_plan 2 now ev a plan d in (res, st, d)
      end
  end.
End handlers.

(** [BackfillInstallationPage]: [repositories] is the listing, a page of repositories and
    the number of the next one. *)
Definition BackfillInstallationPage (now : time) (a : BackfillInstallationPageArgs)
    (repositories : string → Z → option (list Repository * Z)) (d : backfill_db)
    : result backfill_error page_outcome * backfill_db :=
  match GetInstallationBackfillCursor (ia_InstallationID a) (bb_tables d) with
  | None => (Err NoSuchCursor, d)
  | Some c =>
      if negb (cursor_matches c (ia_Phase a) (ia_Page a)) || bool_decide (cu_phase c = "done")
      then (Ok PageIgnored, d)
      else
        let advance l nextPhase nextPage nextQueue :=
          match advanceInstallationBackfill now a l nextPhase nextPage nextQueue d with
          | Ok d => (Ok PageFinished, d)
          | Err e => (Err e, d)
          end in
        if bool_decide (cu_phase c = "repositories") then
          match repositories (backfillClass (cu_queue_name c)) (ia_Page a) with
          | None => (Err ListingFailed, d)
          | Some (l, next) =>
              if negb (next =? 0) then advance l "repositories" next QueueSweep
              else advance l "waiting" 1 (cu_queue_name c)
          end
        else if bool_decide (cu_phase c = "waiting") then
          if (0 <? CountPendingInstallationRepos (ia_InstallationID a) (bb_tables d))%nat then (Ok PageSnoozed, d)
          else advance [] "done" 1 QueueSweep
        else (Err UnsupportedPhase, d)
  end.

(** ** Interleavings *)

(** The tables, the refresh queue with its workers, the page jobs, the page workers
    between two of their transactions, and the refreshes that committed pages have
    listed. *)
Record backfill_sys : Type := mkSys {
  sy_tables : backfill_tables;
  sy_queue : queue_state;
  sy_jobs : page_jobs;
  sy_workers : list (BackfillRepoPageArgs * page_plan);
  sy_listed : list (repo_key * identity)
}.

Definition db_of (s : backfill_sys) : backfill_db := mkBackfillDb (sy_tables s) (db (sy_queue s)) (sy_jobs s).

Definition put_db (d : backfill_db) (s : backfill_sys) : backfill_sys :=
  mkSys (bb_tables d) (set_db (bb_queue d) (sy_queue s)) (bb_jobs d) (sy_workers s) (sy_listed s).

Definition add_worker (a : BackfillRepoPageArgs) (plan : page_plan) (s : backfill_sys) : backfill_sys :=
  mkSys (sy_tables s) (sy_queue s) (sy_jobs s) ((a, plan) :: sy_workers s) (sy_listed s).

Definition plan_specs (plan : page_plan) : list RefreshSpec :=
  match plan with
  | AdvanceTo _ _ _ specs | AdvancePulls _ specs => specs
  | _ => []
  end.

(** Whether the transaction of a plan finds its cursor. *)
Definition not_stale (a : BackfillRepoPageArgs) (t : backfill_tables) : bool :=
  match GetBackfillCursor (repo_of a) t with
  | Some c => cursor_matches c (ra_Phase a) (ra_Page a)
  | None => false
  end.

Definition log_page (a : BackfillRepoPageArgs) (plan : page_plan) (t : backfill_tables) (s : backfill_sys)
    : backfill_sys :=
  mkSys (sy_tables s) (sy_queue s) (sy_jobs s) (sy_workers s)
    (if not_stale a t then map (λ x, (repo_of a, spec_identity x)) (plan_specs plan) ++ sy_listed s
     else sy_listed s).

Definition next_stage (a : BackfillRepoPageArgs) (r : page_plan + page_outcome) (s : backfill_sys) : backfill_sys :=
  match r with
  | inl plan => add_worker a plan s
  | inr _ => s
  end.

(** A kickoff, a transaction of an installation page, the beginning and one transaction of
    a repository page, a move of the refresh queue, the end of a page job, or the loss of
    workers. A worker may repeat its transaction. *)
Inductive backfill_step : backfill_sys → backfill_sys → Prop :=
  | step_kickoff s now i name c d :
      StartBackfill now i name (db_of s) = Ok (c, d) → backfill_step s (put_db d s)
  | step_kickoff_installation s now i c d :
      StartInstallationBackfill now i (db_of s) = Ok (c, d) → backfill_step s (put_db d s)
  | step_installation s now a repositories p n q d :
      advanceInstallationBackfill now a repositories p n q (db_of s) = Ok d → backfill_step s (put_db d s)
  | step_plan {raw : Type} `{EqDecision raw} s a c (inputs : page_inputs (raw := raw)) st plan st' :
      read_cursor a (sy_tables s) = Ok (Some c) → plan_page a c inputs st = (Ok plan, st') →
      backfill_step s (add_worker a plan s)
  | step_transaction s now ev a plan r d :
      (a, plan) ∈ sy_workers s → page_transaction now ev a plan (db_of s) = (Ok r, d) →
      backfill_step s (next_stage a r (log_page a plan (sy_tables s) (put_db d s)))
  | step_refresh_queue s q :
      queue_step (sy_queue s) q →
      backfill_step s (mkSys (sy_tables s) q (sy_jobs s) (sy_workers s) (sy_listed s))
  | step_end_job s j :
      backfill_step s (mkSys (sy_tables s) (sy_queue s) (end_job j (sy_jobs s)) (sy_workers s) (sy_listed s))
  | step_lost s workers :
      workers ⊆ sy_workers s →
      backfill_step s (mkSys (sy_tables s) (sy_queue s) (sy_jobs s) workers (sy_listed s)).

(** No table has a row; the queue is any reachable one. *)
Definition backfill_initial (s : backfill_sys) : Prop :=
  sy_tables s = mkBackfill ∅ ∅ ∅ ∧ queue_reachable (sy_queue s) ∧ sy_workers s = [] ∧ sy_listed s = [].
End operations.

(** ** Children *)

Section children.
Context `{R : River} `{RL : !RiverLaws R} `{P : PageJobs}.

(** Every child of a repository is marked. *)
Definition all_completed (k : repo_key) (t : backfill_tables) : Prop :=
  ∀ i c, bf_children t !! (k, i) = Some c → ch_completed_at c ≠ None.

(** A child's target has been signalled, and a marked child's target has been fetched. *)
Definition children_ok (g : generations) (t : backfill_tables) : Prop :=
  ∀ k i c, bf_children t !! (k, i) = Some c →
    ch_target_generation c ≤ current_generation g i ∧
    (ch_completed_at c ≠ None → ch_target_generation c ≤ completed g i).

(** Generations only grow. *)
Definition gens_le (g g' : generations) : Prop :=
  ∀ i, current_generation g i ≤ current_generation g' i ∧ completed g i ≤ completed g' i.

Lemma children_ok_mono g g' t : gens_le g g' → children_ok g t → children_ok g' t.
Proof. intros Hle Hok k i c Hc. destruct (Hok k i c Hc) as [H1 H2], (Hle i). split; [lia|]. intros Hm. specialize (H2 Hm). lia. Qed.

Lemma upsert_fold_lookup now k l : ∀ (m : gmap (repo_key * identity) child_row), NoDup (map fst l) →
  (∀ ki, ki ∉ map (λ c : identity * Z, (k, c.1)) l →
     foldl (λ m c, <[(k, c.1) := upsert_child now c.2 (m !! (k, c.1))]> m) m l !! ki = m !! ki) ∧
  (∀ i z, (i, z) ∈ l →
     foldl (λ m c, <[(k, c.1) := upsert_child now c.2 (m !! (k, c.1))]> m) m l !! (k, i) =
     Some (upsert_child now z (m !! (k, i)))).
Proof.
  induction l as [|[j y] l IH]; intros m Hnd; cbn [foldl map fst snd] in *.
  { split; [done|]. by intros i z ?%elem_of_nil. }
  apply NoDup_cons in Hnd as [Hj Hnd]. destruct (IH (<[(k, j) := upsert_child now y (m !! (k, j))]> m) Hnd) as [H1 H2].
  split.
  - intros ki Hki. apply not_elem_of_cons in Hki as [Hne Hki]. rewrite H1 by done. by rewrite lookup_insert_ne.
  - intros i z [Heq|Hin]%elem_of_cons.
    + injection Heq as -> ->. rewrite H1, lookup_insert_eq; [done|].
      intros (c & Hc & Hin)%list_elem_of_fmap. apply Hj, list_elem_of_fmap. exists c. split; [congruence|done].
    + rewrite (H2 i z Hin), lookup_insert_ne; [done|]. intros Heq. apply Hj, list_elem_of_fmap.
      exists (i, z). split; [cbn; congruence|done].
Qed.

(** What an advance does to the children: exactly the listed identities get a child
    whose target is the generation just signalled, unmarked. *)
Lemma persist_spec now ev a specs q (d d' : RefreshQueue.tables) out t t' :
  enqueue now ev specs q d = Ok (out, d') → persistBackfillChildren now a out t = Ok t' →
  bf_cursors t' = bf_cursors t ∧ bf_installations t' = bf_installations t ∧
  (∀ k i, k ≠ repo_of a ∨ i ∉ map spec_identity specs → bf_children t' !! (k, i) = bf_children t !! (k, i)) ∧
  (∀ i, i ∈ map spec_identity specs →
     bf_children t' !! (repo_of a, i) =
     Some (upsert_child now (current_generation (gens d') i) (bf_children t !! (repo_of a, i)))).
Proof.
  unfold enqueue. destruct (InsertRefreshesTxReturning _ _ _ _ _) as [[o1 d1]|] eqn:Hi; [|done].
  intros [= -> ->]. apply insert_refreshes_effect in Hi as (Hnd & Hids & _ & _ & Hgen & _).
  unfold persistBackfillChildren, UpsertBackfillChildren. destruct out as [|g out'] eqn:Eo.
  { intros [= <-]. split_and!; [done|done|done|]. intros i Hin. by apply Hids, elem_of_nil in Hin. }
  rewrite <- Eo in *. clear Eo g out'. set (l := map _ out).
  assert (Hfst : map fst l = out_ids out) by (subst l; rewrite map_map; done).
  rewrite Hfst, bool_decide_true by done. intros [= <-]. cbn [set_children bf_cursors bf_installations bf_children].
  destruct (upsert_fold_lookup now (repo_of a) l (bf_children t)) as [H1 H2]; [by rewrite Hfst|].
  split_and!; [done|done| |].
  - intros k i Hk. apply H1. intros (c & Heq & Hc)%list_elem_of_fmap. injection Heq as -> ->.
    destruct Hk as [Hk|Hk]; [done|]. apply Hk, Hids. rewrite <- Hfst. apply list_elem_of_fmap. eauto.
  - intros i Hin. apply Hids in Hin. unfold out_ids in Hin. apply list_elem_of_fmap in Hin as (g & -> & Hg). cbn [compose].
    apply H2. subst l. apply list_elem_of_fmap. exists g. split; [|done]. by rewrite <- (Hgen g Hg).
Qed.

Lemma enqueue_effect now ev specs q (d d' : RefreshQueue.tables) out :
  enqueue now ev specs q d = Ok (out, d') →
  gens_le (gens d) (gens d') ∧
  (∀ i, i ∈ map spec_identity specs → current_generation (gens d) i < current_generation (gens d') i) ∧
  (∀ i, live (river d) i → live (river d') i) ∧ (∀ s, s ∈ specs → live (river d') (spec_identity s)).
Proof.
  unfold enqueue. destruct (InsertRefreshesTxReturning _ _ _ _ _) as [[o1 d1]|] eqn:Hi; [|done].
  intros [= -> ->]. apply insert_refreshes_effect in Hi as (_ & Hids & _ & _ & _ & Hc & Hg & _ & Hlive). split_and!.
  - intros i. rewrite Hc, Hg. case_decide; lia.
  - intros i Hin. rewrite Hg, decide_True by (by apply Hids). lia.
  - auto.
  - intros s Hs. apply Hlive. right. apply Hids, list_elem_of_fmap. eauto.
Qed.

Lemma enqueue_queue_inv now ev specs q st out d' :
  queue_inv st → enqueue now ev specs q (db st) = Ok (out, d') → queue_inv (set_db d' st).
Proof.
  unfold enqueue. destruct (InsertRefreshesTxReturning _ _ _ _ _) as [[o1 d1]|] eqn:Hi; [|done].
  intros Hinv [= -> ->]. destruct (queue_inv_produce _ _ _ _ _ _ _ Hinv Hi) as [Hr Ha Hl Hk].
  split; [done|done| |done]. intros i Ho. destruct (Hl i Ho) as [?|Ht]; [by left|right].
  cbn in Ht. by apply list_elem_of_filter in Ht as [_ ?].
Qed.

Lemma gens_le_refl g : gens_le g g.
Proof. done. Qed.

(** A move of the refresh queue never takes a generation back. *)
Lemma queue_step_gens (st st' : queue_state) :
  queue_inv st → queue_step st st' → gens_le (gens (db st)) (gens (db st')).
Proof.
  intros Hinv Hstep. destruct Hstep as [st now ev specs q out d' Hi|st now i| |st now done_at x work Hx| |st i q r d' Hr| |];
    cbn [serve set_db db gens]; try apply gens_le_refl.
  - apply insert_refreshes_effect in Hi as (_ & _ & _ & _ & _ & Hc & Hg & _). intros i. rewrite Hc, Hg. case_decide; lia.
  - intros j. rewrite claim_current, claim_completed. pose proof (qi_rows _ Hinv j). case_decide; lia.
  - unfold finishRefresh. destruct work; cbn [snd]; try apply gens_le_refl.
    all: destruct (qi_attempts _ Hinv x Hx) as (Hs & _);
      destruct (complete_refresh_effect now (at_job x) (at_args x) (at_queue x) (at_started x) (db st) Hs)
        as (Hg & Hc & Ho & _); [intros i; apply (qi_rows _ Hinv)|]; cbv zeta in *;
      intros j; rewrite Hg; destruct (decide (j = args_identity (at_args x))) as [->|Hj];
      [rewrite Hc|rewrite (Ho _ Hj)]; lia.
  - apply reinsert_effect in Hr as (-> & _). apply gens_le_refl.
Qed.

(** ** The invariant *)

(** A repository whose enumeration is over. *)
Definition late (k : repo_key) (t : backfill_tables) : Prop :=
  ∃ c, bf_cursors t !! k = Some c ∧ (cu_phase c = "waiting" ∨ cu_phase c = "done").

Definition done_ok (t : backfill_tables) : Prop :=
  ∀ k c, bf_cursors t !! k = Some c → cu_phase c = "done" → all_completed k t.

(** What a worker knows. *)
Definition plan_ok (a : BackfillRepoPageArgs) (plan : page_plan) (t : backfill_tables) : Prop :=
  match plan with
  | AdvanceTo nextPhase _ _ specs =>
      (nextPhase = "done" ∧ ra_Phase a = "waiting" ∧ specs = [] ∧ late (repo_of a) t ∧ all_completed (repo_of a) t) ∨
      (nextPhase ≠ "done" ∧ (ra_Phase a = "repository" ∨ ra_Phase a = "stacks"))
  | AdvancePulls _ specs => ra_Phase a = "pull_requests" ∧ ∀ s, s ∈ specs → sp_Kind s = KindRefreshPR
  | MarkChildren | CountChildren => ra_Phase a = "waiting" ∧ late (repo_of a) t
  end.

Record backfill_inv (s : backfill_sys) : Prop := {
  bv_queue : queue_inv (sy_queue s);
  bv_children : children_ok (gens (db (sy_queue s))) (sy_tables s);
  bv_listed : ∀ ki, ki ∈ sy_listed s → is_Some (bf_children (sy_tables s) !! ki);
  bv_done : done_ok (sy_tables s);
  bv_worker : ∀ a plan, (a, plan) ∈ sy_workers s → plan_ok a plan (sy_tables s)
}.

(** How the tables change: no child is lost, and once the enumeration of a repository is
    over it stays so and no child becomes pending again. *)
Definition evolves (t t' : backfill_tables) : Prop :=
  (∀ ki, is_Some (bf_children t !! ki) → is_Some (bf_children t' !! ki)) ∧
  (∀ k, late k t → late k t' ∧ (all_completed k t → all_completed k t')).

Lemma evolves_refl t : evolves t t.
Proof. split; auto. Qed.

Lemma evolves_trans t1 t2 t3 : evolves t1 t2 → evolves t2 t3 → evolves t1 t3.
Proof.
  intros [H1 H2] [H3 H4]. split; [auto|]. intros k Hk. destruct (H2 k Hk) as [Hk' ?], (H4 k Hk'). auto.
Qed.

Lemma plan_ok_evolves a plan t t' : evolves t t' → plan_ok a plan t → plan_ok a plan t'.
Proof.
  intros [_ He]. destruct plan; cbn.
  - intros [(? & ? & ? & Hl & ?)|?]; [|by right]. left. destruct (He _ Hl). split_and!; auto.
  - done.
  - intros [? Hl]. split; [done|]. by apply He.
  - intros [? Hl]. split; [done|]. by apply He.
Qed.

(** The cases in which only the tables change. *)
Lemma inv_tables s t q j :
  backfill_inv s → evolves (sy_tables s) t → done_ok t →
  queue_inv q → children_ok (gens (db q)) t →
  backfill_inv (mkSys t q j (sy_workers s) (sy_listed s)).
Proof.
  intros [Hq Hc Hl Hd Hw] He Hd' Hq' Hc'. split; cbn; [done|done| |done|].
  - intros ki Hki. by apply He, Hl.
  - intros a plan Ha. by apply (plan_ok_evolves _ _ _ _ He), Hw.
Qed.

(** *** Kickoffs *)

Lemma ensure_spec now k t c t' : EnsureBackfillCursor now k t = (c, t') → evolves t t' ∧
  bf_children t' = bf_children t ∧ (done_ok t → done_ok t').
Proof.
  unfold EnsureBackfillCursor. destruct (bf_cursors t !! k) as [c0|] eqn:Hk; intros [= <- <-].
  { split_and!; [apply evolves_refl|done|done]. }
  split_and!; [|done|].
  - split; [done|]. intros k' (c & Hc & Hp). split; [|done]. exists c. split; [|done]. cbn.
    rewrite lookup_insert_ne; [done|]. intros ->. congruence.
  - intros Hd k' c. cbn. intros [[<- <-]|[Hne Hc]]%lookup_insert_Some; [done|]. by apply Hd.
Qed.

Lemma start_repositories_spec now i names : ∀ d : backfill_db,
  let d' := start_repositories now i names d in
  evolves (bb_tables d) (bb_tables d') ∧ bf_children (bb_tables d') = bf_children (bb_tables d) ∧
  (done_ok (bb_tables d) → done_ok (bb_tables d')) ∧ bb_queue d' = bb_queue d.
Proof.
  induction names as [|name names IH]; intros d; cbn [start_repositories].
  { split_and!; [apply evolves_refl|done..]. }
  destruct (EnsureBackfillCursor now (i, name) (bb_tables d)) as [c t] eqn:E.
  apply ensure_spec in E as (He & Hch & Hd). destruct (IH (mkBackfillDb t (bb_queue d)
    (if bool_decide (cu_phase c = "done") then bb_jobs d else insert_job (RepoPage (mkRepoPage i name (cu_phase c) (cu_page c)))
       (cu_queue_name c) (bb_jobs d)))) as (He' & Hch' & Hd' & Hq). cbn in *.
  split_and!; [by eapply evolves_trans|congruence|auto|done].
Qed.

Lemma installations_evolve m t : evolves t (set_installations m t) ∧ (done_ok t → done_ok (set_installations m t)).
Proof. split; [|done]. split; auto. Qed.

(** *** Transactions of a page *)

Lemma move_spec now p n q a t t' : move_cursor now p n q a t = Ok t' →
  bf_children t' = bf_children t ∧ (∃ c, bf_cursors t !! repo_of a = Some c ∧ cu_phase c = ra_Phase a) ∧
  bf_cursors t' = <[repo_of a := advanced now p (wrap32 n) q]> (bf_cursors t) ∧ 0 < wrap32 n.
Proof.
  unfold move_cursor, AdvanceBackfillCursor, advance_cursor.
  destruct (bf_cursors t !! repo_of a) as [c|] eqn:Hc; [|done].
  destruct (bool_decide (cu_phase c = ra_Phase a) && _ && _) eqn:Hg; [|done]. cbn. intros [= <-]. to_props.
  split_and!; [done|by exists c|done|done].
Qed.

(** The phases an enumerating transaction starts from and goes to, and the condition of
    the last one. *)
Definition may_move (a : BackfillRepoPageArgs) (p : string) (specs : list RefreshSpec) (t : backfill_tables) : Prop :=
  (p = "done" ∧ specs = [] ∧ all_completed (repo_of a) t) ∨
  (p ≠ "done" ∧ ra_Phase a ≠ "waiting" ∧ ra_Phase a ≠ "done").

Lemma commit_spec now ev a specs q q' p n (d d' : RefreshQueue.tables) out t t1 t2 :
  enqueue now ev specs q d = Ok (out, d') → persistBackfillChildren now a out t = Ok t1 →
  move_cursor now p n q' a t1 = Ok t2 → may_move a p specs t → children_ok (gens d) t → done_ok t →
  evolves t t2 ∧ done_ok t2 ∧ children_ok (gens d') t2 ∧
  (∀ i, i ∈ map spec_identity specs → is_Some (bf_children t2 !! (repo_of a, i))).
Proof.
  intros He Hp (Hch & (c & Hc & Hphase) & Hcu & _)%move_spec Hmay Hok Hdone.
  destruct (persist_spec _ _ _ _ _ _ _ _ _ _ He Hp) as (Hcur1 & _ & Hother & Hlisted).
  apply enqueue_effect in He as (Hle & Hlt & _). rewrite Hcur1 in Hc, Hcu. rewrite <- Hch in Hother, Hlisted. clear Hch Hp t1 Hcur1.
  assert (Hsame : ∀ k, k ≠ repo_of a ∨ specs = [] → all_completed k t → all_completed k t2).
  { intros k Hk Hall i x. rewrite Hother; [apply Hall|]. destruct Hk as [Hk| ->]; [by left|right]. apply not_elem_of_nil. }
  split_and!.
  - split.
    + intros [k i] Hs. destruct (decide (k = repo_of a ∧ i ∈ map spec_identity specs)) as [[-> Hi]|Hn].
      * rewrite Hlisted by done. by eexists.
      * rewrite Hother; [done|]. destruct (decide (k = repo_of a)); [right; naive_solver|by left].
    + intros k (x & Hx & Hl). destruct (decide (k = repo_of a)) as [->|Hne].
      * destruct Hmay as [(-> & -> & _)|(_ & ? & ?)]; [|simplify_eq; destruct Hl; congruence].
        split; [|apply Hsame; by right]. exists (advanced now "done" (wrap32 n) q'). rewrite Hcu, lookup_insert_eq. auto.
      * split; [|apply Hsame; by left]. exists x. by rewrite Hcu, lookup_insert_ne.
  - intros k x. rewrite Hcu. intros [[<- <-]|[Hne Hx]]%lookup_insert_Some Hd.
    + cbn in Hd. destruct Hmay as [(_ & -> & Hall)|(? & _)]; [|done]. apply Hsame; [by right|done].
    + apply Hsame; [by left|]. by eapply Hdone.
  - intros k i x. destruct (decide (k = repo_of a ∧ i ∈ map spec_identity specs)) as [[-> Hi]|Hn].
    + rewrite Hlisted by done. intros [= <-]. specialize (Hlt i Hi). unfold upsert_child.
      destruct (bf_children t !! (repo_of a, i)) as [old|] eqn:Ho; cbn; [|by split].
      destruct (Hok _ _ _ Ho) as [Hold _]. rewrite (proj2 (Z.leb_gt _ _)) by lia. split; [lia|done].
    + rewrite Hother; [apply (children_ok_mono _ _ _ Hle Hok)|].
      destruct (decide (k = repo_of a)); [right; naive_solver|by left].
  - intros i Hi. rewrite Hlisted by done. by eexists.
Qed.

Lemma mark_spec now g k t : let t' := MarkCompletedBackfillChildren now g k t in
  bf_cursors t' = bf_cursors t ∧
  (∀ ki, bf_children t' !! ki = mark_child now g k ki <$> bf_children t !! ki).
Proof. split; [done|]. intros ki. cbn. rewrite map_lookup_imap. by destruct (bf_children t !! ki). Qed.

Lemma mark_evolves now g k t : children_ok g t →
  let t' := MarkCompletedBackfillChildren now g k t in
  evolves t t' ∧ (done_ok t → done_ok t') ∧ children_ok g t'.
Proof.
  intros Hok t'. destruct (mark_spec now g k t) as [Hcu Hch]. fold t' in Hcu, Hch.
  assert (Hall : ∀ k', all_completed k' t → all_completed k' t').
  { intros k' Ha i c. rewrite Hch. intros (c0 & Hc0 & ->)%fmap_Some. specialize (Ha i c0 Hc0).
    unfold mark_child. by case_if. }
  split_and!.
  - split; [intros ki [c Hc]; rewrite Hch, Hc; by eexists|]. intros k' (c & Hc & Hl). split; [|apply Hall].
    exists c. by rewrite Hcu.
  - intros Hd k' c. rewrite Hcu. intros Hc Hp. apply Hall. by eapply Hd.
  - intros k' i c. rewrite Hch. intros (c0 & Hc0 & ->)%fmap_Some. destruct (Hok _ _ _ Hc0) as [H1 H2].
    unfold mark_child. case_if; [|done]. cbn. split; [done|]. intros _. to_props. unfold completed. cbn [snd] in *.
    destruct (g !! i) as [row|]; [|done]. cbn. by to_props.
Qed.

Lemma count_zero_completed k t : CountPendingBackfillChildren k t = 0%nat → all_completed k t.
Proof.
  unfold CountPendingBackfillChildren. intros Hz%map_size_empty_inv i c Hc Hn.
  assert (filter (λ e : repo_key * identity * child_row, e.1.1 = k ∧ ch_completed_at e.2 = None) (bf_children t)
            !! (k, i) = Some c) as Hf by (by apply map_lookup_filter_Some).
  rewrite Hz in Hf. by rewrite lookup_empty in Hf.
Qed.

(** The specs of a pull-request page that are not enqueued already have a child. *)
Lemma unseen_covers a specs t s :
  (∀ s, s ∈ specs → sp_Kind s = KindRefreshPR) → s ∈ specs →
  s ∈ unseenBackfillSpecs a specs t ∨ is_Some (bf_children t !! (repo_of a, spec_identity s)).
Proof.
  intros Hk Hs. unfold unseenBackfillSpecs. destruct specs as [|s0 l] eqn:El; [by apply elem_of_nil in Hs|].
  rewrite <- El in *. clear El s0 l. set (seen := ListSeenBackfillRefreshKeys _ _ _ _).
  destruct (decide (sp_Key s ∈ seen)) as [Hin|Hn]; [right|left; by apply list_elem_of_filter].
  subst seen. unfold ListSeenBackfillRefreshKeys in Hin.
  apply list_elem_of_fmap in Hin as ([[k [kd ky]] c] & Hky & [(Hk1 & Hk2 & _) Hin]%list_elem_of_filter). cbn in *.
  apply elem_of_map_to_list in Hin. exists c. unfold spec_identity. rewrite (Hk _ Hs), <- Hk2, <- Hk1, Hky. done.
Qed.

Lemma unseen_subset a specs t s : s ∈ unseenBackfillSpecs a specs t → s ∈ specs.
Proof. unfold unseenBackfillSpecs. destruct specs; [done|]. by intros [_ ?]%list_elem_of_filter. Qed.

(** *** The steps *)

Lemma inv_commit s t q j l :
  backfill_inv s → evolves (sy_tables s) t → done_ok t → queue_inv q → children_ok (gens (db q)) t →
  (∀ ki, ki ∈ l → is_Some (bf_children t !! ki)) →
  backfill_inv (mkSys t q j (sy_workers s) (l ++ sy_listed s)).
Proof.
  intros Hinv He Hd Hq Hc Hl. destruct (inv_tables s t q j Hinv He Hd Hq Hc) as [H1 H2 H3 H4 H5].
  split; [done|done| |done|done]. intros ki [?|?]%elem_of_app; auto.
Qed.

Lemma inv_add_worker s a plan : backfill_inv s → plan_ok a plan (sy_tables s) → backfill_inv (add_worker a plan s).
Proof.
  intros [H1 H2 H3 H4 H5] Hp. split; [done..|]. intros a' p' [Heq|Hin]%elem_of_cons; [|by apply H5].
  by injection Heq as -> ->.
Qed.

(** A plan made from the cursor is one a worker may hold. *)
Lemma plan_page_ok {raw : Type} `{EqDecision raw} a c (inputs : page_inputs (raw := raw)) st plan st' t :
  read_cursor a t = Ok (Some c) → plan_page a c inputs st = (Ok plan, st') → plan_ok a plan t.
Proof.
  unfold read_cursor, GetBackfillCursor. destruct (bf_cursors t !! repo_of a) as [c0|] eqn:Hc; [|done].
  destruct (negb _ || _) eqn:Hm; [done|]. intros [= ->]. to_props. unfold cursor_matches in *. to_props.
  unfold plan_page. destruct (repoutil_Split _) as [name|]; [|done].
  case_bool_decide as Hph1.
  { destruct (pi_refresh _ _ _) as [[]]; intros [= <- _]. cbn. right. split; [done|by left]. }
  case_bool_decide as Hph2.
  { destruct (pi_stacks _ _ _ _) as [[stacks next]|]; intros [= <- _]. destruct (negb (next =? 0)); cbn; right; (split; [done|by right]). }
  case_bool_decide as Hph3.
  { destruct (decodePullBackfillCursor _) as [[[page ?] ?]|]; [|done].
    destruct (pi_pulls _ _ _ _) as [[[pulls etag] next]|]; [|done]. destruct (write_pulls _ _ _ _ _ _) as [[] ?]; [|done].
    intros [= <- _]. split; [done|]. by intros s (p & -> & _)%list_elem_of_fmap. }
  case_bool_decide as Hph4; [|done]. intros [= <- _]. split; [done|]. exists c. split; [done|]. left. congruence.
Qed.

Lemma set_db_same (q : queue_state) : set_db (db q) q = q.
Proof. by destruct q. Qed.

Lemma put_same s : put_db (db_of s) s = s.
Proof. by destruct s as [t [[] ? ?] j w l]. Qed.

(** A committed transaction of a plan keeps the invariant. *)
Lemma inv_advance s now ev a p n q specs d :
  backfill_inv s → plan_ok a (AdvanceTo p n q specs) (sy_tables s) →
  advanceBackfill now ev a p n q specs (db_of s) = Ok d →
  backfill_inv (log_page a (AdvanceTo p n q specs) (sy_tables s) (put_db d s)).
Proof.
  intros Hinv Hplan. unfold advanceBackfill, log_page, not_stale. cbn [bb_tables db_of].
  destruct (GetBackfillCursor _ _) as [c|]; [|done]. destruct (cursor_matches c _ _) eqn:Hm; cbn [negb].
  2: { intros [= <-]. rewrite put_same. by destruct s. }
  intros ([out q'] & He & (t1 & Hp & (t2 & Hmv & [= <-])%bind_ok)%bind_ok)%bind_ok. cbn [put_db bb_tables bb_queue bb_jobs sy_tables sy_queue sy_jobs sy_workers sy_listed].
  destruct (commit_spec _ _ _ _ _ _ _ _ _ _ _ _ _ _ He Hp Hmv) as (He1 & Hd1 & Hc1 & Hl1);
    [|apply Hinv|apply Hinv|].
  { destruct Hplan as [(-> & _ & -> & _ & ?)|(? & Ha)]; [by left|right]. split_and!; [done|destruct Ha; congruence..]. }
  apply inv_commit; [done|done|done|by eapply enqueue_queue_inv; [apply Hinv|]|done|].
  intros ki (x & -> & Hx)%list_elem_of_fmap. apply Hl1, list_elem_of_fmap. eauto.
Qed.

Lemma inv_advance_pulls s now ev a next specs d :
  backfill_inv s → plan_ok a (AdvancePulls next specs) (sy_tables s) →
  advancePullRequestBackfill now ev a next specs (db_of s) = Ok d →
  backfill_inv (log_page a (AdvancePulls next specs) (sy_tables s) (put_db d s)).
Proof.
  intros Hinv [Hphase Hkind]. unfold advancePullRequestBackfill, log_page, not_stale. cbn [bb_tables db_of].
  destruct (GetBackfillCursor _ _) as [c|]; [|done]. destruct (cursor_matches c _ _) eqn:Hm; cbn [negb].
  2: { intros [= <-]. rewrite put_same. by destruct s. }
  intros ([[? count] alt] & _ & ([out q'] & He & (t1 & Hp & ([p n] & Hn & (t2 & Hmv & [= <-])%bind_ok)%bind_ok)%bind_ok)%bind_ok)%bind_ok.
  cbn [put_db bb_tables bb_queue bb_jobs sy_tables sy_queue sy_jobs sy_workers sy_listed].
  assert (Hne : p ≠ "done").
  { revert Hn. unfold next_pull_cursor. destruct (negb _); [|destruct (0 <? _)].
    - by intros (e & _ & [= <- <-])%bind_ok.
    - by intros (e & _ & [= <- <-])%bind_ok.
    - by intros [= <- <-]. }
  destruct (commit_spec _ _ _ _ _ _ _ _ _ _ _ _ _ _ He Hp Hmv) as (He1 & Hd1 & Hc1 & Hl1);
    [right; split_and!; [done|congruence..]|apply Hinv|apply Hinv|].
  apply inv_commit; [done|done|done|by eapply enqueue_queue_inv; [apply Hinv|]|done|].
  intros ki (x & -> & Hx)%list_elem_of_fmap. destruct (unseen_covers a specs (sy_tables s) x Hkind Hx) as [Hu|Hs].
  - apply Hl1, list_elem_of_fmap. eauto.
  - by apply He1.
Qed.

Lemma inv_transaction s now ev a plan r d :
  backfill_inv s → (a, plan) ∈ sy_workers s → page_transaction now ev a plan (db_of s) = (Ok r, d) →
  backfill_inv (next_stage a r (log_page a plan (sy_tables s) (put_db d s))).
Proof.
  intros Hinv Hin. pose proof (bv_worker _ Hinv _ _ Hin) as Hplan.
  assert (Hmt : ∀ plan0, plan_specs plan0 = [] → log_page a plan0 (sy_tables s) (put_db d s) = put_db d s).
  { intros plan0 Hz. unfold log_page. rewrite Hz. by destruct (not_stale _ _). }
  destruct plan as [p n q specs|next specs| |]; unfold page_transaction.
  - destruct (advanceBackfill _ _ _ _ _ _ _ _) as [d1|] eqn:E; [|done]. intros [= <- ->]. cbn [next_stage]. by eapply inv_advance.
  - destruct (advancePullRequestBackfill _ _ _ _ _ _) as [d1|] eqn:E; [|done]. intros [= <- ->]. cbn [next_stage].
    by eapply inv_advance_pulls.
  - intros [= <- <-]. cbn [next_stage]. rewrite Hmt by done.
    destruct (mark_evolves now (gens (db (sy_queue s))) (repo_of a) (sy_tables s)) as (He & Hd & Hc); [apply Hinv|].
    apply inv_add_worker; [|destruct Hplan; split; [done|by apply He]].
    unfold put_db. cbn. rewrite set_db_same. apply inv_tables; [done|done|apply Hd, Hinv|apply Hinv|apply Hc].
  - intros [= <- <-]. rewrite Hmt by done. rewrite put_same. destruct (0 <? _)%nat eqn:Hz; cbn [next_stage]; [done|].
    apply inv_add_worker; [done|]. destruct Hplan as [? ?]. left. split_and!; [done..|].
    apply count_zero_completed. apply Nat.ltb_ge in Hz. cbn in Hz. lia.
Qed.

Lemma backfill_step_inv s s' : backfill_inv s → backfill_step s s' → backfill_inv s'.
Proof.
  intros Hinv Hstep. destruct Hstep as [s now i name c d Hk|s now i c d Hk|s now a l p n q d Hk|raw ? s a c inputs st plan st' Hr Hp
    |s now ev a plan r d Hin Ht|s q Hq|s j|s ws Hws].
  - unfold StartBackfill in Hk. destruct (i <=? 0); [done|]. destruct (repoutil_Split name); [|done]. cbn in Hk.
    destruct (EnsureBackfillCursor _ _ _) as [c0 t] eqn:E. injection Hk as <- <-.
    apply ensure_spec in E as (He & Hc & Hd). unfold put_db. cbn. rewrite set_db_same. apply inv_tables; [done|done|apply Hd, Hinv|apply Hinv|].
    intros k x y. rewrite Hc. apply Hinv.
  - unfold StartInstallationBackfill in Hk. destruct (i <=? 0); [done|]. cbn in Hk.
    unfold EnsureInstallationBackfillCursor in Hk. destruct (bf_installations _ !! i); injection Hk as <- <-; unfold put_db; cbn; rewrite set_db_same;
      (apply inv_tables; [done|split; auto|apply Hinv|apply Hinv|apply Hinv]).
  - unfold advanceInstallationBackfill in Hk. destruct (GetInstallationBackfillCursor _ _) as [c|]; [|done].
    destruct (negb _). { injection Hk as <-. by rewrite put_same. }
    destruct (start_repositories_spec now (ia_InstallationID a) (map re_FullName l) (db_of s)) as (He & Hc & Hd & Hqq).
    set (d1 := start_repositories _ _ _ _) in *. unfold AdvanceInstallationBackfillCursor in Hk.
    destruct (advance_cursor _ _ _ _ _ _ _ _) as [m|]; [|done]. cbn in Hk. injection Hk as <-. unfold put_db. cbn. rewrite Hqq. cbn. rewrite set_db_same.
    apply inv_tables; [done|by eapply evolves_trans; [exact He|split; auto]|by apply Hd, Hinv|apply Hinv|].
    intros k x y. cbn. rewrite Hc. apply Hinv.
  - apply inv_add_worker; [done|]. exact (plan_page_ok a c inputs st plan st' _ Hr Hp).
  - by eapply inv_transaction.
  - apply inv_tables; [done|apply evolves_refl|apply Hinv|by eapply queue_inv_step; [apply Hinv|]|].
    eapply children_ok_mono; [|apply Hinv]. apply queue_step_gens; [apply Hinv|done].
  - by apply (inv_tables s); [|apply evolves_refl|apply Hinv..].
  - destruct Hinv as [H1 H2 H3 H4 H5]. split; [done..|]. cbn. intros a plan Ha. apply H5. by apply Hws.
Qed.

Lemma backfill_reachable s0 s : backfill_initial s0 → rtc backfill_step s0 s → backfill_inv s.
Proof.
  intros (Ht & Hq & Hw & Hl) Hrun. assert (Hinv : backfill_inv s0).
  { split; rewrite ?Ht, ?Hw, ?Hl.
    - by apply queue_reachable_inv.
    - intros k i c. cbn. by rewrite lookup_empty.
    - by intros ki ?%elem_of_nil.
    - intros k c. cbn. by rewrite lookup_empty.
    - by intros a plan ?%elem_of_nil. }
  clear Ht Hq Hw Hl. induction Hrun; [done|]. eauto using backfill_step_inv.
Qed.

(** C21. A repository is reported done only when everything it listed has been fetched. In
    every state that kickoffs, installation pages, repository pages, refresh workers and
    River reach by interleaving their transactions, each refresh that a committed page
    listed is recorded as a child; when the cursor of a repository is at [done], every
    child of it is marked and a fetch has completed at or after the generation that was
    signalled for it; and the same holds of every child of an installation that
    [IsInstallationBackfillDone] reports. *)
Theorem backfill_done_settled s0 s :
  backfill_initial s0 → rtc backfill_step s0 s →
  let t := sy_tables s in let g := gens (db (sy_queue s)) in
  (∀ ki, ki ∈ sy_listed s → is_Some (bf_children t !! ki)) ∧
  (∀ k c i ch, bf_cursors t !! k = Some c → cu_phase c = "done" → bf_children t !! (k, i) = Some ch →
     ch_completed_at ch ≠ None ∧ ch_target_generation ch ≤ completed g i) ∧
  (∀ n r i ch, IsInstallationBackfillDone n t = true → bf_children t !! ((n, r), i) = Some ch →
     ch_target_generation ch ≤ completed g i).
Proof.
  intros Hinit Hrun t g. destruct (backfill_reachable s0 s Hinit Hrun) as [Hq Hc Hl Hd Hw]. split_and!; [done| |].
  - intros k c i ch Hk Hp Hch. assert (ch_completed_at ch ≠ None) as Hm by by eapply Hd. split; [done|]. by eapply Hc.
  - intros n r i ch Hdone Hch. eapply Hc; [done|]. intros Hn. unfold IsInstallationBackfillDone in Hdone. to_props.
    assert (filter (λ e : repo_key * identity * child_row, e.1.1.1 = n ∧ ch_completed_at e.2 = None) (bf_children t)
              !! ((n, r), i) = Some ch) as Hf by (by apply map_lookup_filter_Some).
    match goal with H : filter _ (bf_children t) = ∅ |- _ => rewrite H in Hf end. by rewrite lookup_empty in Hf.
Qed.
End children.

(** ** Pull-request passes *)

Section passes.
Context `{R : River} `{RL : !RiverLaws R} `{P : PageJobs}.

Definition pull_args (k : repo_key) (cursor : Z) : BackfillRepoPageArgs := mkRepoPage k.1 k.2 "pull_requests" cursor.

(** The jobs of one pass over a listing, from page [page] on, one after the other. *)
Fixpoint pull_pass (now ev : time) (k : repo_key) (page : Z) (pages : list (list RefreshSpec)) (d : backfill_db)
    : result backfill_error backfill_db :=
  match pages with
  | [] => Ok d
  | specs :: rest =>
      match GetBackfillCursor k (bb_tables d) with
      | None => Err NoSuchCursor
      | Some c =>
          d ← advancePullRequestBackfill now ev (pull_args k (cu_page c))
                match rest with [] => 0 | _ => page + 1 end specs d;
          pull_pass now ev k (page + 1) rest d
      end
  end.

Definition has_child (k : repo_key) (t : backfill_tables) (s : RefreshSpec) : Prop :=
  is_Some (bf_children t !! (k, spec_identity s)).

#[export] Instance has_child_dec k t s : Decision (has_child k t s).
Proof. unfold has_child. apply _. Defined.

Definition pull_specs (specs : list RefreshSpec) : Prop :=
  ∀ s, s ∈ specs → sp_Kind s = KindRefreshPR ∧ sp_Key s ≠ "".

Lemma unseen_none a specs t : pull_specs specs →
  unseenBackfillSpecs a specs t = [] ↔ ∀ s, s ∈ specs → has_child (repo_of a) t s.
Proof.
  intros Hs. split.
  - intros Hu s Hin. destruct (unseen_covers a specs t s) as [Hx|]; [intros; by apply Hs|done| |done].
    rewrite Hu in Hx. by apply elem_of_nil in Hx.
  - intros Hall. destruct (unseenBackfillSpecs a specs t) as [|s l] eqn:Hu; [done|].
    assert (Hin : s ∈ unseenBackfillSpecs a specs t) by (rewrite Hu; by left).
    pose proof (unseen_subset _ _ _ _ Hin) as Hsp. destruct (Hall s Hsp) as [c Hc]. exfalso.
    unfold unseenBackfillSpecs in Hin. destruct specs as [|s0 l0] eqn:El; [by apply elem_of_nil in Hin|].
    rewrite <- El in *. apply list_elem_of_filter in Hin as [Hn _]. apply Hn. unfold ListSeenBackfillRefreshKeys.
    apply list_elem_of_fmap. exists ((repo_of a, spec_identity s), c). split; [done|]. apply list_elem_of_filter.
    split; [|by apply elem_of_map_to_list]. cbn. split_and!; [done|by apply Hs|apply list_elem_of_fmap; eauto].
Qed.

Lemma enqueue_ok now ev specs q (d : RefreshQueue.tables) : pull_specs specs →
  ∃ out d', enqueue now ev specs q d = Ok (out, d').
Proof.
  intros Hs. destruct (proj2 (proj1 (insert_refreshes_exact now ev specs q d))) as (out & d' & Hi).
  - intros s Hin. destruct (Hs s Hin) as [-> ?]. split; [done|]. by vm_compute; left.
  - exists out, d'. unfold enqueue. by rewrite Hi.
Qed.

Lemma persist_ok now ev a specs q (d d' : RefreshQueue.tables) out t :
  enqueue now ev specs q d = Ok (out, d') → ∃ t', persistBackfillChildren now a out t = Ok t'.
Proof.
  unfold enqueue. destruct (InsertRefreshesTxReturning _ _ _ _ _) as [[o1 d1]|] eqn:Hi; [|done].
  intros [= -> ->]. apply insert_refreshes_effect in Hi as (Hnd & _). unfold persistBackfillChildren, UpsertBackfillChildren.
  destruct out; [by eexists|]. rewrite bool_decide_true; [by eexists|]. by rewrite map_map.
Qed.

Lemma cursor_moves now p n q a t c : bf_cursors t !! repo_of a = Some c → cursor_matches c (ra_Phase a) (ra_Page a) = true →
  0 < n < 2 ^ 31 → 0 < ra_Page a < 2 ^ 31 →
  ∃ t', move_cursor now p n q a t = Ok t'.
Proof.
  intros Hc Hm Hn Ha. unfold move_cursor, AdvanceBackfillCursor, advance_cursor. rewrite Hc. unfold cursor_matches in Hm.
  rewrite !wrap32_id by lia. rewrite Hm, (proj2 (Z.ltb_lt 0 n)) by lia. by eexists.
Qed.

(** One page of a pass. *)
Lemma pull_page_spec now ev k specs next page count alt c (d : backfill_db) :
  bf_cursors (bb_tables d) !! k = Some c → cu_phase c = "pull_requests" → cu_page c = pull_code page count alt →
  0 < page → 0 ≤ count → pull_specs specs → next = 0 ∨ next = page + 1 →
  page + 1 + count + Z.of_nat (length specs) ≤ 46340 →
  let u := unseenBackfillSpecs (pull_args k (cu_page c)) specs (bb_tables d) in
  let new := count + Z.of_nat (length u) in
  ∃ d', advancePullRequestBackfill now ev (pull_args k (cu_page c)) next specs d = Ok d' ∧
    (∀ s, s ∈ specs → has_child k (bb_tables d') s) ∧
    (∀ s, has_child k (bb_tables d) s → has_child k (bb_tables d') s) ∧
    (u = [] → ∀ s, has_child k (bb_tables d') s → has_child k (bb_tables d) s) ∧
    bf_cursors (bb_tables d') !! k = Some
      (if next =? 0 then
         if 0 <? new then advanced now "pull_requests" (pull_code 1 0 (negb alt)) QueueSweep
         else advanced now "waiting" 1 QueueSweep
       else advanced now "pull_requests" (pull_code next new alt) QueueSweep).
Proof.
  intros Hc Hph Hpg Hp Hcount Hs Hnext Hb u new. set (a := pull_args k (cu_page c)) in *.
  assert (Hk : repo_of a = k) by by destruct k.
  assert (Hu : (length u ≤ length specs)%nat).
  { subst u. unfold unseenBackfillSpecs. destruct specs; [done|]. apply length_filter. }
  assert (Hcode : encodePullBackfillCursor page count alt = Ok (cu_page c)) by (rewrite Hpg; apply encode_succeeds; lia).
  destruct (encode_decode page count alt (cu_page c)) as (_ & Hrange & Hdec); [lia|lia|done|].
  assert (Hm : cursor_matches c (ra_Phase a) (ra_Page a) = true).
  { unfold cursor_matches. cbn. by rewrite Hph, bool_decide_true, Z.eqb_refl. }
  assert (Hus : pull_specs u) by (intros s Hin; apply Hs; by eapply unseen_subset).
  destruct (enqueue_ok now ev u (cu_queue_name c) (bb_queue d) Hus) as (out & q' & He).
  destruct (persist_ok _ _ a _ _ _ _ _ (bb_tables d) He) as [t1 Ht1].
  destruct (persist_spec _ _ _ _ _ _ _ _ _ _ He Ht1) as (Hcur & _ & Hother & Hlisted). rewrite Hk in Hother, Hlisted.
  set (pn := if next =? 0 then if 0 <? new then ("pull_requests", pull_code 1 0 (negb alt)) else ("waiting", 1)
             else ("pull_requests", pull_code next new alt)).
  assert (Hn : next_pull_cursor next (wrap64 (count + Z.of_nat (length u))) alt = Ok pn ∧ 0 < pn.2 < 2 ^ 31).
  { fold new. rewrite wrap64_id by (unfold in_int64; lia). unfold next_pull_cursor. subst pn.
    destruct (next =? 0) eqn:En; cbn [negb]; [destruct (0 <? new)|]; cbn [snd].
    - rewrite encode_succeeds by lia. split; [done|]. by destruct alt.
    - split; [done|lia].
    - to_props. assert (He2 : encodePullBackfillCursor next new alt = Ok (pull_code next new alt)) by (apply encode_succeeds; lia).
      rewrite He2. split; [done|]. apply (encode_decode next new alt); [lia|lia|done]. }
  destruct Hn as [Hn Hnr].
  destruct (cursor_moves now pn.1 pn.2 QueueSweep a t1 c) as [t2 Ht2]; [by rewrite Hk, Hcur|done|done|done|].
  exists (mkBackfillDb t2 q' (insert_job (RepoPage (next_args a pn.1 pn.2)) QueueSweep (bb_jobs d))).
  destruct (move_spec _ _ _ _ _ _ _ Ht2) as (Hch2 & _ & Hcu2 & _). rewrite Hk in Hcu2.
  assert (Hgrow : ∀ s, has_child k (bb_tables d) s ∨ s ∈ u → has_child k t2 s).
  { intros s Hx. unfold has_child. rewrite Hch2. destruct (decide (spec_identity s ∈ map spec_identity u)) as [Hi|Hi].
    - rewrite Hlisted by done. by eexists.
    - rewrite Hother by by right. destruct Hx as [Hx|Hx]; [done|]. destruct Hi. apply list_elem_of_fmap. eauto. }
  split_and!.
  - unfold advancePullRequestBackfill, GetBackfillCursor. rewrite Hk, Hc, Hm. cbn [negb]. rewrite Hdec. cbn [mbind result_bind].
    fold u. rewrite He. cbn [mbind result_bind]. rewrite Ht1. cbn [mbind result_bind]. rewrite Hn. destruct pn as [p n].
    cbn [mbind result_bind fst snd] in *. by rewrite Ht2.
  - intros s Hin. cbn. apply Hgrow. destruct (unseen_covers a specs (bb_tables d) s) as [?|Hx];
      [intros; by apply Hs|done|by right|left]. by rewrite Hk in Hx.
  - intros s Hx. apply Hgrow. by left.
  - intros Hz s. unfold has_child. cbn [bb_tables]. rewrite Hch2, Hother; [done|]. right. rewrite Hz. apply not_elem_of_nil.
  - cbn [bb_tables]. rewrite Hcu2, lookup_insert_eq, wrap32_id by lia. subst pn.
    destruct (next =? 0); [destruct (0 <? new)|]; done.
Qed.

(** Whether a pass that has added [count] identifiers so far ends the enumeration. *)
Definition finds_nothing (k : repo_key) (count : Z) (pages : list (list RefreshSpec)) (t : backfill_tables) : Prop :=
  count = 0 ∧ ∀ specs s, specs ∈ pages → s ∈ specs → has_child k t s.

Definition listing_size (pages : list (list RefreshSpec)) : Z :=
  Z.of_nat (length pages) + Z.of_nat (length (concat pages)).

Lemma pull_pass_spec now ev k alt pages : ∀ page count c (d : backfill_db),
  pages ≠ [] → (∀ specs, specs ∈ pages → pull_specs specs) →
  bf_cursors (bb_tables d) !! k = Some c → cu_phase c = "pull_requests" → cu_page c = pull_code page count alt →
  0 < page → 0 ≤ count → page + count + listing_size pages ≤ 46340 →
  ∃ d' c', pull_pass now ev k page pages d = Ok d' ∧
    (∀ specs s, specs ∈ pages → s ∈ specs → has_child k (bb_tables d') s) ∧
    (∀ s, has_child k (bb_tables d) s → has_child k (bb_tables d') s) ∧
    bf_cursors (bb_tables d') !! k = Some c' ∧
    (cu_phase c' = "waiting" ∧ finds_nothing k count pages (bb_tables d) ∨
     cu_phase c' = "pull_requests" ∧ cu_page c' = pull_code 1 0 (negb alt) ∧ ¬ finds_nothing k count pages (bb_tables d)).
Proof.
  induction pages as [|specs rest IH]; [done|]. intros page count c d _ Hs Hc Hph Hpg Hp Hcount Hb.
  unfold listing_size in Hb. cbn [length concat] in Hb. rewrite length_app in Hb.
  set (next := match rest with [] => 0 | _ => page + 1 end).
  assert (Hs0 : pull_specs specs) by (apply Hs; by left).
  destruct (pull_page_spec now ev k specs next page count alt c d) as (d1 & Hadv & Hall & Hmono & Hback & Hcur);
    [done..| |lia|].
  { subst next. destruct rest; [by left|by right]. }
  set (u := unseenBackfillSpecs _ _ _) in *.
  assert (Hu0 : u = [] ↔ ∀ s, s ∈ specs → has_child k (bb_tables d) s).
  { subst u. rewrite unseen_none by done. by destruct k. }
  assert (Hlu : (length u ≤ length specs)%nat).
  { subst u. unfold unseenBackfillSpecs. destruct specs; [done|]. apply length_filter. }
  assert (Hnew : count + Z.of_nat (length u) = 0 ↔ count = 0 ∧ ∀ s, s ∈ specs → has_child k (bb_tables d) s).
  { rewrite <- Hu0, <- length_zero_iff_nil. lia. }
  cbn [pull_pass]. unfold GetBackfillCursor. rewrite Hc. fold next. rewrite Hadv. cbn [mbind result_bind].
  destruct rest as [|specs2 rest].
  - subst next. cbn [Z.eqb] in Hcur. exists d1. cbn [pull_pass]. eexists. split; [done|]. split.
    { intros specs' s [->|?%elem_of_nil]%elem_of_cons ?; [auto|done]. }
    split; [done|]. split; [exact Hcur|].
    assert (Hf : finds_nothing k count [specs] (bb_tables d) ↔ count + Z.of_nat (length u) = 0).
    { rewrite Hnew. unfold finds_nothing. split; (intros [? Hx]; split; [done|]).
      - intros s. apply Hx. by left.
      - intros specs' s [->|?%elem_of_nil]%elem_of_cons; [apply Hx|done]. }
    destruct (0 <? _) eqn:Hz; to_props; cbn; rewrite Hf; [right|left]; split_and!; (done || lia).
  - subst next. rewrite (proj2 (Z.eqb_neq _ _)) in Hcur by lia.
    destruct (IH (page + 1) (count + Z.of_nat (length u)) (advanced now "pull_requests"
      (pull_code (page + 1) (count + Z.of_nat (length u)) alt) QueueSweep) d1) as (d2 & c2 & Hrun & Hall2 & Hmono2 & Hc2 & Hend); [done| |exact Hcur|done|done|lia|lia| |].
    { intros specs' Hin. apply Hs. by right. }
    { unfold listing_size. cbn [length] in *. lia. }
    exists d2, c2. split; [done|]. split.
    { intros specs' s [->|Hin]%elem_of_cons Hss; [by apply Hmono2, Hall|by eapply Hall2]. }
    split; [auto|]. split; [done|].
    assert (Hf : finds_nothing k (count + Z.of_nat (length u)) (specs2 :: rest) (bb_tables d1) ↔
                 finds_nothing k count (specs :: specs2 :: rest) (bb_tables d)).
    { unfold finds_nothing. rewrite Hnew. split.
      - intros [[Hz Hx] Hy]. split; [done|]. intros specs' s [->|Hin]%elem_of_cons Hss; [by apply Hx|].
        apply Hback; [by apply Hu0|]. by eapply Hy.
      - intros [Hz Hy]. split; [split; [done|]; intros s; apply Hy; by left|]. intros specs' s Hin Hss. apply Hmono.
        eapply Hy; [by right|done]. }
    rewrite <- Hf. done.
Qed.

(** Pass after pass, the enumeration of pull requests converges. For a listing of at
    least one page whose pages and identifiers together stay below 46340, the jobs of a pass
    from page 1 all succeed; afterwards every listed pull request has a child, and the
    cursor is at [waiting] if all of them had one before the pass and otherwise at page 1
    of a pass of the other parity. A second pass over the same listing therefore ends at
    [waiting]. *)
Theorem pull_passes_converge now ev k alt pages c (d : backfill_db) :
  pages ≠ [] → (∀ specs, specs ∈ pages → pull_specs specs) → listing_size pages < 46340 →
  bf_cursors (bb_tables d) !! k = Some c → cu_phase c = "pull_requests" →
  encodePullBackfillCursor 1 0 alt = Ok (cu_page c) →
  ∃ d1 c1, pull_pass now ev k 1 pages d = Ok d1 ∧ bf_cursors (bb_tables d1) !! k = Some c1 ∧
    (∀ s, s ∈ concat pages → has_child k (bb_tables d1) s) ∧
    (cu_phase c1 = "waiting" ∧ (∀ s, s ∈ concat pages → has_child k (bb_tables d) s) ∨
     cu_phase c1 = "pull_requests" ∧ encodePullBackfillCursor 1 0 (negb alt) = Ok (cu_page c1) ∧
     (∃ s, s ∈ concat pages ∧ ¬ has_child k (bb_tables d) s) ∧
     ∃ d2 c2, pull_pass now ev k 1 pages d1 = Ok d2 ∧ bf_cursors (bb_tables d2) !! k = Some c2 ∧
       cu_phase c2 = "waiting").
Proof.
  intros Hne Hs Hsize Hc Hph Hpg. rewrite encode_succeeds in Hpg by lia. injection Hpg as Hpg.
  destruct (pull_pass_spec now ev k alt pages 1 0 c d) as (d1 & c1 & Hrun & Hall & _ & Hc1 & Hend); [done..|lia|].
  assert (Hcat : ∀ t, finds_nothing k 0 pages t ↔ ∀ s, s ∈ concat pages → has_child k t s).
  { intros t. unfold finds_nothing. split.
    - intros [_ Hx] s (l & Hl & Hsl)%list_elem_of_In%in_concat. apply (Hx l s); by apply list_elem_of_In.
    - intros Hx. split; [done|]. intros l s Hl Hsl. apply Hx, list_elem_of_In, in_concat. exists l. by rewrite <- !list_elem_of_In. }
  rewrite Hcat in Hend. assert (Hall' : finds_nothing k 0 pages (bb_tables d1)) by done.
  exists d1, c1. split; [done|]. split; [done|]. split; [by apply Hcat|].
  destruct Hend as [?|(Hp1 & Hg1 & Hn)]; [by left|right]. split; [done|].
  split; [rewrite encode_succeeds by lia; by rewrite Hg1|]. split.
  - destruct (decide (Exists (λ s, ¬ has_child k (bb_tables d) s) (concat pages))) as [Hx|Hx].
    + apply Exists_exists in Hx as (s & ? & ?). eauto.
    + destruct Hn. intros s Hin. destruct (decide (has_child k (bb_tables d) s)) as [|Hnc]; [done|].
      destruct Hx. apply Exists_exists. eauto.
  - destruct (pull_pass_spec now ev k (negb alt) pages 1 0 c1 d1) as (d2 & c2 & Hrun2 & _ & _ & Hc2 & Hend2); [done..|lia|].
    exists d2, c2. split_and!; [done|done|]. destruct Hend2 as [[? _]|(_ & _ & Hn2)]; [done|]. by destruct Hn2.
Qed.
End passes.

(** ** The chain of page jobs *)

Section chain.
Context `{R : River} `{P : PageJobs} `{PL : !PageJobsLaws P}.

(** The page a cursor stands at has a job. *)
Definition cursor_served (k : repo_key) (t : backfill_tables) (jobs : page_jobs) : Prop :=
  ∃ c, bf_cursors t !! k = Some c ∧
    (cu_phase c = "done" ∨ has_job jobs (RepoPage (mkRepoPage k.1 k.2 (cu_phase c) (cu_page c))) = true).

Lemma survives a b q jobs : b ≠ a → has_job (end_job (RepoPage a) (insert_job (RepoPage b) q jobs)) (RepoPage b) = true.
Proof.
  intros Hne. rewrite end_job_has, insert_job_has, bool_decide_false by congruence. by rewrite (bool_decide_true (RepoPage b = RepoPage b)).
Qed.

Lemma served_after now p n q a t t' jobs :
  move_cursor now p n q a t = Ok t' → 0 < n < 2 ^ 31 → next_args a p n ≠ a →
  cursor_served (repo_of a) t' (end_job (RepoPage a) (insert_job (RepoPage (next_args a p n)) q jobs)).
Proof.
  intros (_ & _ & Hcu & _)%move_spec Hn Hne. exists (advanced now p (wrap32 n) q). rewrite Hcu, lookup_insert_eq.
  split; [done|]. right. rewrite wrap32_id by lia. cbn. by apply survives.
Qed.

(** A page hands the enumeration on to the next one. When the transaction of a page job
    moves the cursor, the page the cursor then stands at has a job in River even after the
    job that moved it has ended, unless the cursor is at [done]. For a plain page this asks
    that the next page is another one; for a pull-request page, that the next page GitHub
    names is not the page just read. The parity bit is what keeps a pass of a single page
    from absorbing the job of the following pass. *)
Theorem next_page_survives now ev a (d d' : backfill_db) :
  not_stale a (bb_tables d) = true → 0 < ra_Page a < 2 ^ 31 →
  (∀ p n q specs, advanceBackfill now ev a p n q specs d = Ok d' →
     0 < n < 2 ^ 31 → (p, n) ≠ (ra_Phase a, ra_Page a) →
     cursor_served (repo_of a) (bb_tables d') (end_job (RepoPage a) (bb_jobs d'))) ∧
  (∀ page count alt next specs, advancePullRequestBackfill now ev a next specs d = Ok d' →
     ra_Phase a = "pull_requests" → decodePullBackfillCursor (ra_Page a) = Ok (page, count, alt) →
     next ≠ page → 0 ≤ next ≤ 2 ^ 30 → Z.of_nat (length specs) < 2 ^ 29 →
     cursor_served (repo_of a) (bb_tables d') (end_job (RepoPage a) (bb_jobs d'))).
Proof.
  unfold not_stale, advanceBackfill, advancePullRequestBackfill.
  destruct (GetBackfillCursor _ _) as [c|] eqn:Hg; [|done]. intros Hm Hpage. rewrite Hm. cbn [negb].
  assert (Hcp : cu_page c = ra_Page a) by (unfold cursor_matches in Hm; by to_props).
  split.
  - intros p n q specs ([out q'] & _ & (t1 & _ & (t2 & Hmv & [= <-])%bind_ok)%bind_ok)%bind_ok Hn Hne. cbn [bb_tables bb_jobs].
    case_bool_decide as Hp.
    + subst p. apply move_spec in Hmv as (_ & _ & Hcu & _). exists (advanced now "done" (wrap32 n) q).
      rewrite Hcu, lookup_insert_eq. auto.
    + eapply served_after; [done|done|]. intros Heq. apply Hne. rewrite <- Heq. done.
  - intros page count alt next specs Hadv Hph Hdec Hnext Hr Hlen. rewrite Hcp, Hdec in Hadv. cbn [mbind result_bind] in Hadv.
    set (u := unseenBackfillSpecs _ _ _) in *.
    apply bind_ok in Hadv as ([out q'] & _ & (t1 & _ & ([p n] & Hn & (t2 & Hmv & [= <-])%bind_ok)%bind_ok)%bind_ok).
    cbn [bb_tables bb_jobs].
    assert (Hcount : 0 ≤ count ≤ 2 ^ 29 ∧ 0 < page ≤ 2 ^ 29).
    { destruct (decode_diagonal (ra_Page a) Hpage) as (dg & Hd & Htd & Hdec2). rewrite Hdec2 in Hdec.
      pose proof (triangle_succ dg). injection Hdec as <- <- <-. lia. }
    assert (Hu : (length u ≤ length specs)%nat).
    { subst u. unfold unseenBackfillSpecs. destruct specs; [done|]. apply length_filter. }
    rewrite wrap64_id in Hn by (unfold in_int64; lia). set (new := count + _) in *.
    assert (Hcode : ∀ page' count' alt', encodePullBackfillCursor page' count' alt' = Ok n → 0 < page' ≤ 2 ^ 30 →
      0 ≤ count' ≤ 2 ^ 30 → (page', alt') ≠ (page, alt) → 0 < n < 2 ^ 31 ∧ n ≠ ra_Page a).
    { intros page' count' alt' He H1 H2 Hdiff. destruct (encode_decode page' count' alt' n) as (_ & ? & Hd2); [done..|].
      split; [done|]. intros ->. congruence. }
    assert (Hend : 0 < n < 2 ^ 31 ∧ next_args a p n ≠ a).
    { assert (Hargs : ∀ n', next_args a p n = a → n' = n → n' = ra_Page a) by (intros n' <- ->; done).
      revert Hn. unfold next_pull_cursor. destruct (next =? 0) eqn:En; cbn [negb]; to_props; [destruct (0 <? new)|].
      - intros (e & He & [= <- ->])%bind_ok. destruct (Hcode 1 0 (negb alt)) as [? ?]; [done|lia|lia|by destruct alt; intros [=]|].
        split; [done|]. intros Heq. by specialize (Hargs n Heq eq_refl).
      - intros [= <- <-]. split; [lia|]. intros Heq. by rewrite <- Heq in Hph.
      - intros (e & He & [= <- ->])%bind_ok. destruct (Hcode next new alt) as [? ?]; [done|lia|lia|congruence|].
        split; [done|]. intros Heq. by specialize (Hargs n Heq eq_refl). }
    destruct Hend. by apply (served_after now p n QueueSweep a t1).
Qed.
End chain.

(** ** Witnesses *)

(** A job table in which equal live arguments absorb an insertion. *)
Module RefJobs.
Definition insert (a : page_job) (q : string) (t : list (page_job * string)) : list (page_job * string) :=
  if bool_decide (a ∈ map fst t) then t else (a, q) :: t.

#[export] Instance RefJobs : PageJobs := {
  page_jobs := list (page_job * string);
  has_job t a := bool_decide (a ∈ map fst t);
  insert_job := insert;
  end_job a t := filter (λ e, e.1 ≠ a) t
}.

#[export] Instance RefJobs_laws : PageJobsLaws RefJobs.
Proof.
  split; cbn.
  - intros t a q b. unfold insert. rewrite <- bool_decide_or. apply bool_decide_ext.
    destruct (decide (a ∈ map fst t)) as [Ha|Ha]; [rewrite bool_decide_true by done|rewrite bool_decide_false by done].
    + split; [by right|]. by intros [->|?].
    + cbn [map fst]. by rewrite elem_of_cons.
  - intros t a b. rewrite <- bool_decide_not, <- bool_decide_and. apply bool_decide_ext.
    rewrite !list_elem_of_fmap. split.
    + intros (e & -> & [? ?]%list_elem_of_filter). eauto.
    + intros (Hne & e & -> & He). exists e. split; [done|]. by apply list_elem_of_filter.
Qed.
End RefJobs.

#[local] Existing Instances RefRiver.RefRiver RefRiver.RefRiver_laws RefJobs.RefJobs RefJobs.RefJobs_laws.

Definition demo_key : repo_key := (7, "acme/app").

Definition demo_pull (n : Z) : RefreshSpec := spec KindRefreshPR (pointer_key "pr" "acme/app" (FormatInt n)).

(** A repository at the first page of its pull requests. *)
Definition demo_listing : backfill_db :=
  mkBackfillDb (mkBackfill ∅ {[ demo_key := mkCursor "pull_requests" 1 QueueInteractive None 5 ]} ∅) RefRiver.empty
    [(RepoPage (pull_args demo_key 1), QueueInteractive)].

Definition demo_pages : list (list RefreshSpec) := [[demo_pull 1; demo_pull 2]; [demo_pull 3]].

Lemma demo_pull_specs specs : specs ∈ demo_pages → pull_specs specs.
Proof.
  unfold demo_pages. intros Hin s Hs. rewrite !elem_of_cons, elem_of_nil in Hin.
  destruct Hin as [->|[->|[]]]; rewrite !elem_of_cons, elem_of_nil in Hs; [destruct Hs as [->|[->|[]]]|destruct Hs as [->|[]]]; done.
Qed.

Lemma pull_passes_converge_witness :
  ∃ d1 c1 d2 c2, pull_pass 9 0 demo_key 1 demo_pages demo_listing = Ok d1 ∧ bf_cursors (bb_tables d1) !! demo_key = Some c1 ∧
    cu_phase c1 = "pull_requests" ∧ pull_pass 9 0 demo_key 1 demo_pages d1 = Ok d2 ∧
    bf_cursors (bb_tables d2) !! demo_key = Some c2 ∧ cu_phase c2 = "waiting".
Proof.
  destruct (pull_passes_converge 9 0 demo_key false demo_pages (mkCursor "pull_requests" 1 QueueInteractive None 5) demo_listing)
    as (d1 & c1 & Hrun & Hc1 & _ & [[_ Hall]|(Hp & _ & _ & d2 & c2 & ? & ? & ?)]);
    [done|apply demo_pull_specs|reflexivity|vm_compute; reflexivity|reflexivity|vm_compute; reflexivity| |].
  - destruct (Hall (demo_pull 1)) as [c Hc]; [vm_compute; by left|]. by vm_compute in Hc.
  - exists d1, c1, d2, c2. repeat (split; [assumption|]); assumption.
Defined.

(** A single page: the following pass has another job, which outlives this one. *)
Definition demo_advanced : backfill_db :=
  match advancePullRequestBackfill 9 0 (pull_args demo_key 1) 0 [demo_pull 1] demo_listing with
  | Ok d => d
  | Err _ => demo_listing
  end.

Lemma next_page_survives_witness :
  cursor_served demo_key (bb_tables demo_advanced) (end_job (RepoPage (pull_args demo_key 1)) (bb_jobs demo_advanced)).
Proof.
  destruct (next_page_survives 9 0 (pull_args demo_key 1) demo_listing demo_advanced) as [_ H];
    [vm_compute; reflexivity|cbn; lia|].
  apply (H 1 0 false 0 [demo_pull 1]); [vm_compute; reflexivity|reflexivity|vm_compute; reflexivity|lia|lia|cbn; lia].
Defined.

(** The parity alternates between two values only. If the job of the first pass is still
    running when the second pass, which found a new pull request, starts the third, the
    third pass has the same arguments, its job is absorbed, and once the first job ends the
    cursor has no job. *)
Definition second_pass : backfill_db :=
  match advancePullRequestBackfill 10 0 (pull_args demo_key 2) 0 [demo_pull 1; demo_pull 2] demo_advanced with
  | Ok d => d
  | Err _ => demo_advanced
  end.

Example third_pass_absorbed :
  bf_cursors (bb_tables second_pass) !! demo_key = Some (mkCursor "pull_requests" 1 QueueSweep None 10) ∧
  end_job (RepoPage (pull_args demo_key 2)) (end_job (RepoPage (pull_args demo_key 1)) (bb_jobs second_pass)) = [].
Proof. vm_compute. split; reflexivity. Qed.

(** A run of one repository without stacks and pull requests, from its kickoff to [done]:
    its rules are refreshed in between. *)
Inductive demo_event : Type :=
  | Kick (now : time)
  | Plan (phase : string) (page : Z)
  | Transact (now : time)
  | StartRefresh (id : Z)
  | FinishRefresh (now : time).

Definition demo_inputs : page_inputs (raw := string) :=
  mkInputs 7 5 (λ _ st, (Ok tt, st)) (λ _ _ _, Some ([], 0)) (λ _ _ _, Some ([], "", 0))
    Execute.exec_state Execute.exec_state Failed 20.

Definition demo_exec (e : demo_event) (s : backfill_sys) : option backfill_sys :=
  match e with
  | Kick now =>
      match StartBackfill now 7 "acme/app" (db_of s) with
      | Ok (_, d) => Some (put_db d s)
      | Err _ => None
      end
  | Plan phase page =>
      let a := mkRepoPage 7 "acme/app" phase page in
      match read_cursor a (sy_tables s) with
      | Ok (Some c) =>
          match plan_page a c demo_inputs Execute.exec_state with
          | (Ok plan, _) => Some (add_worker a plan s)
          | _ => None
          end
      | _ => None
      end
  | Transact now =>
      match sy_workers s with
      | (a, plan) :: _ =>
          match page_transaction now 0 a plan (db_of s) with
          | (Ok r, d) => Some (next_stage a r (log_page a plan (sy_tables s) (put_db d s)))
          | _ => None
          end
      | [] => None
      end
  | StartRefresh id =>
      a ← job_args (river (db (sy_queue s))) id;
      let q := sy_queue s in
      Some (mkSys (sy_tables s)
        (mkQueue (db q) (mkAttempt id a "interactive" (current_generation (gens (db q)) (args_identity a))
                           (gens (db q) !! args_identity a ≫= deadline_at) :: attempts q) (terminated q))
        (sy_jobs s) (sy_workers s) (sy_listed s))
  | FinishRefresh now =>
      match attempts (sy_queue s) with
      | x :: _ =>
          let q := sy_queue s in
          Some (mkSys (sy_tables s)
            (set_db (finishRefresh now now (at_job x) (at_args x) (at_queue x) (at_started x) (at_deadline x) WorkDone (db q)).2 q)
            (sy_jobs s) (sy_workers s) (sy_listed s))
      | [] => None
      end
  end.

Lemma demo_exec_step e s s' : demo_exec e s = Some s' → backfill_step s s'.
Proof.
  destruct e as [now|phase page|now|id|now]; unfold demo_exec.
  - destruct (StartBackfill _ _ _ _) as [[c d]|] eqn:E; [|done]. intros [= <-]. by eapply step_kickoff.
  - destruct (read_cursor _ _) as [[c|]|] eqn:E; [|done..]. destruct (plan_page _ _ _ _) as [[plan|] st] eqn:Ep; [|done].
    intros [= <-]. exact (step_plan s _ c demo_inputs _ plan st E Ep).
  - destruct (sy_workers s) as [|[a plan] ws] eqn:Ew; [done|]. destruct (page_transaction _ _ _ _ _) as [[r|] d] eqn:E; [|done].
    intros [= <-]. eapply step_transaction; [rewrite Ew; by left|done].
  - intros (a & Ha & [= <-])%bind_Some. apply step_refresh_queue. by apply step_start.
  - destruct (attempts (sy_queue s)) as [|x xs] eqn:Ex; [done|]. intros [= <-]. apply step_refresh_queue.
    apply (step_finish (sy_queue s) now now x WorkDone). rewrite Ex. by left.
Qed.

Fixpoint demo_run (es : list demo_event) (s : backfill_sys) : option backfill_sys :=
  match es with
  | [] => Some s
  | e :: es => s ← demo_exec e s; demo_run es s
  end.

Lemma demo_run_steps es : ∀ s s', demo_run es s = Some s' → rtc backfill_step s s'.
Proof.
  induction es as [|e es IH]; intros s s'; cbn; [by intros [= ->]|].
  intros (s1 & H1 & H2)%bind_Some. eapply rtc_l; [by eapply demo_exec_step|by apply IH].
Qed.

Definition demo_start : backfill_sys :=
  mkSys (mkBackfill ∅ ∅ ∅) (mkQueue RefRiver.empty [] []) [] [] [].

Definition demo_events : list demo_event :=
  [Kick 5; Plan "repository" 1; Transact 6; Plan "stacks" 1; Transact 7; Plan "pull_requests" 1; Transact 8;
   StartRefresh 1; FinishRefresh 9; Plan "waiting" 1; Transact 10; Transact 11; Transact 12].

Definition demo_final : backfill_sys := default demo_start (demo_run demo_events demo_start).

Definition demo_rules : identity := (KindRefreshRepoRules, "repo_rules:acme/app:rules").

Lemma backfill_done_settled_witness :
  (cu_phase <$> bf_cursors (sy_tables demo_final) !! demo_key) = Some "done" ∧
  is_Some (bf_children (sy_tables demo_final) !! (demo_key, demo_rules)) ∧
  1 ≤ completed (gens (db (sy_queue demo_final))) demo_rules.
Proof.
  split; [vm_compute; reflexivity|].
  destruct (backfill_done_settled demo_start demo_final) as (Hl & Hd & _).
  - split; [done|]. split; [apply reach_init|done].
  - apply (demo_run_steps demo_events). vm_compute. reflexivity.
  - split; [apply Hl; vm_compute; by left|].
    assert (Hc : bf_cursors (sy_tables demo_final) !! demo_key = Some (mkCursor "done" 1 QueueSweep (Some 12) 12)) by (vm_compute; reflexivity).
    assert (Hch : bf_children (sy_tables demo_final) !! (demo_key, demo_rules) = Some (mkChild 1 6 (Some 10))) by (vm_compute; reflexivity).
    exact (proj2 (Hd _ _ _ _ Hc eq_refl Hch)).
Defined.
