(* ===== verification/Drift.v ===== *)
(** * Drift detection

    [internal/drift/drift.go] and [pull_request.go] with the statements of
    [internal/store/dbgen/drift.sql.go]: a periodic pass samples cached entities, fetches
    each of them in full, compares the two semantically, records a finding when they
    differ and enqueues a refresh that should heal it; a finding that is seen again after
    its refresh has completed is escalated, and an entity found equal closes its findings.

    A JSON value is a tree whose objects are association lists in the order of their keys,
    with numbers as the [float64] that [encoding/json] decodes; a snapshot is such a tree.
    GitHub's answers, the rows of the view [drift_entities], the MD5 of a diff and the
    decimal rendering of a float are arguments. *)

From Stdlib Require Import ZArith Lia Bool String Ascii SpecFloat.
From stdpp Require Import sorting strings gmap sets numbers base list.
From S2P Require Import Prelude GoStrings GoFloat Keys RefreshQueue EntityWriter Derive Writers PullRequests.
From S2P Require Import GitHub ChangeInputs Convert Coordinator Fetch Backfill.

Local Open Scope Z_scope.

(** ** JSON *)

Inductive json : Type :=
  | JNull
  | JBool (b : bool)
  | JNum (x : float64)
  | JStr (s : string)
  | JArr (l : list json)
  | JObj (fields : list (string * json)).

(** Induction through arrays and objects. *)
Lemma json_induction (P : json → Prop) :
  P JNull → (∀ b, P (JBool b)) → (∀ x, P (JNum x)) → (∀ s, P (JStr s)) →
  (∀ l, Forall P l → P (JArr l)) → (∀ fs, Forall (λ kv, P kv.2) fs → P (JObj fs)) → ∀ v, P v.
Proof.
  intros H1 H2 H3 H4 H5 H6. fix IH 1. intros [ |b|x|s|l|fs]; [done|done|done|done|apply H5|apply H6].
  - induction l as [|v l IHl]; constructor; [apply IH|apply IHl].
  - induction fs as [|[k v] fs IHf]; constructor; [apply IH|apply IHf].
Qed.

Definition jint (z : Z) : json := JNum (f64_of_int z).
Definition jopt {A} (f : A → json) (x : option A) : json := match x with Some a => f a | None => JNull end.
(** A string that is left out when it is empty. *)
Definition jtext (s : string) : json := if bool_decide (s = "") then JNull else JStr s.

Fixpoint field (k : string) (fs : list (string * json)) : option json :=
  match fs with
  | [] => None
  | (k', v) :: fs => if bool_decide (k = k') then Some v else field k fs
  end.

(** Assignment to a map. *)
Fixpoint put (k : string) (v : json) (fs : list (string * json)) : list (string * json) :=
  match fs with
  | [] => [(k, v)]
  | (k', v') :: fs =>
      if bool_decide (k = k') then (k, v) :: fs
      else if bool_decide (string_lt k k') then (k, v) :: (k', v') :: fs
      else (k', v') :: put k v fs
  end.

Definition del (k : string) (fs : list (string * json)) : list (string * json) :=
  filter (λ kv, kv.1 ≠ k) fs.

(** A map literal. *)
Definition jobj (l : list (string * json)) : list (string * json) :=
  foldl (λ fs kv, put kv.1 kv.2 fs) [] l.

(** [reflect.DeepEqual] on decoded values. *)
Fixpoint deep_equal (a b : json) {struct a} : bool :=
  match a, b with
  | JNull, JNull => true
  | JBool x, JBool y => Bool.eqb x y
  | JNum x, JNum y => SFeqb x y
  | JStr x, JStr y => bool_decide (x = y)
  | JArr l, JArr m =>
      (fix go (l m : list json) : bool :=
         match l, m with
         | [], [] => true
         | x :: l, y :: m => deep_equal x y && go l m
         | _, _ => false
         end) l m
  | JObj fs, JObj gs =>
      (fix go (fs gs : list (string * json)) : bool :=
         match fs, gs with
         | [], [] => true
         | (k, x) :: fs, (k', y) :: gs => bool_decide (k = k') && deep_equal x y && go fs gs
         | _, _ => false
         end) fs gs
  | _, _ => false
  end.

(** A missing member reads as [nil]. *)
Definition member (k : string) (fs : list (string * json)) : json := default JNull (field k fs).

Definition string_member (k : string) (fs : list (string * json)) : string :=
  match field k fs with Some (JStr s) => s | _ => "" end.

(** ** Normalisation *)

Section comparison.
(** [fmt.Sprintf] of a float with the verb [020.0f], and the hex MD5 of an encoded diff. *)
Context (format_number : float64 → string) (md5 : json → string).

Definition semanticIdentity (item : list (string * json)) : string :=
  let node := string_member "node_id" item in
  if negb (bool_decide (node = "")) then "node:" +:+ node
  else match field "id" item with
       | Some (JNum x) => "number:" +:+ format_number x
       | id =>
           let text := match id with Some (JStr s) => s | _ => "" end in
           if negb (bool_decide (text = "")) then "string:" +:+ text
           else
             let path := string_member "path" item in
             if negb (bool_decide (path = "")) then
               let token := string_member "owner_token" item in
               if negb (bool_decide (token = "")) then "owner:" +:+ path +:+ String "000" token
               else "path:" +:+ path
             else ""
       end.

Definition has_identity (v : json) : bool :=
  match v with
  | JObj fs => negb (bool_decide (semanticIdentity fs = ""))
  | _ => false
  end.

(** The sort key of an element: its kind, then its identity. *)
Definition sort_key (v : json) : string * string :=
  match v with
  | JObj fs => (string_member "kind" fs, semanticIdentity fs)
  | _ => ("", "")
  end.

Definition key_less (a b : string * string) : bool :=
  if bool_decide (a.1 = b.1) then bool_decide (string_lt a.2 b.2) else bool_decide (string_lt a.1 b.1).

(** [sort.SliceStable]. *)
Fixpoint stable_insert (v : json) (l : list json) : list json :=
  match l with
  | [] => [v]
  | w :: l => if key_less (sort_key w) (sort_key v) then w :: stable_insert v l else v :: w :: l
  end.

Definition stable_sort (l : list json) : list json := foldr stable_insert [] l.

Fixpoint normalizeSemantic (v : json) : json :=
  match v with
  | JObj fs => JObj (map (λ kv, (kv.1, normalizeSemantic kv.2)) fs)
  | JArr l =>
      let normalized := map normalizeSemantic l in
      JArr (if negb (bool_decide (normalized = [])) && forallb has_identity normalized
            then stable_sort normalized else normalized)
  | v => v
  end.

(** ** Pull requests *)

Definition pullRequestMergeabilityClasses : list (string * string) :=
  [("unknown", "UNKNOWN"); ("dirty", "CONFLICTING"); ("conflicting", "CONFLICTING"); ("clean", "MERGEABLE");
   ("blocked", "MERGEABLE"); ("unstable", "MERGEABLE"); ("mergeable", "MERGEABLE")].

Definition pullRequestStates : list (string * string) := [("open", "open"); ("closed", "closed"); ("merged", "merged")].

Definition pullRequestReviewDecisions : list (string * string) :=
  [("", ""); ("approved", "APPROVED"); ("review_required", "REVIEW_REQUIRED");
   ("changes_requested", "CHANGES_REQUESTED")].

Fixpoint assoc (k : string) (l : list (string * string)) : option string :=
  match l with
  | [] => None
  | (k', v) :: l => if bool_decide (k = k') then Some v else assoc k l
  end.

(** A text member is replaced by its class, if it has one. *)
Definition classify_member (k : string) (classes : list (string * string)) (fs : list (string * json))
    : list (string * json) :=
  match field k fs with
  | Some (JStr s) => match assoc (ToLower s) classes with Some c => put k (JStr c) fs | None => fs end
  | _ => fs
  end.

Definition canonicalPullRequestSnapshot (snapshot : list (string * json)) : list (string * json) :=
  let fs :=
    match field "merged" snapshot with
    | Some (JBool true) => put "state" (JStr "merged") snapshot
    | _ => classify_member "state" pullRequestStates snapshot
    end in
  let fs := del "merged" fs in
  let fs := classify_member "mergeable_state" pullRequestMergeabilityClasses fs in
  classify_member "review_decision" pullRequestReviewDecisions fs.

Definition observedSemanticField (fs : list (string * json)) (k : string) : bool :=
  match field k fs with
  | None | Some JNull => false
  | Some _ => true
  end.

(** A dimension that one side has not observed is left out of both. *)
Definition drop_unobserved (k : string) (p : list (string * json) * list (string * json))
    : list (string * json) * list (string * json) :=
  if observedSemanticField p.1 k && observedSemanticField p.2 k then p else (del k p.1, del k p.2).

Definition canonicalizePullRequestComparison (cached upstream : list (string * json))
    : list (string * json) * list (string * json) :=
  foldl (λ p k, drop_unobserved k p)
    (canonicalPullRequestSnapshot cached, canonicalPullRequestSnapshot upstream)
    ["mergeable_state"; "review_decision"].

(** ** The difference *)

Definition two_sides (cached upstream : json) : json :=
  JObj (jobj [("cache", cached); ("upstream", upstream)]).

(** The members of the cached side first, then those only upstream has. *)
Fixpoint diffValue (cached upstream : json) {struct cached} : json :=
  match cached, upstream with
  | JObj fs, JObj gs =>
      JObj (jobj
        (flat_map (λ kv, let u := member kv.1 gs in
                         if deep_equal kv.2 u then [] else [(kv.1, diffValue kv.2 u)]) fs
         ++ flat_map (λ kv, match field kv.1 fs with
                            | Some _ => []
                            | None => if deep_equal JNull kv.2 then [] else [(kv.1, two_sides JNull kv.2)]
                            end) gs))
  | _, _ => two_sides cached upstream
  end.

(** The two sides as they are compared. *)
Definition comparands (entityKind : string) (cache upstream : json) : json * json :=
  let c := normalizeSemantic cache in
  let u := normalizeSemantic upstream in
  if bool_decide (entityKind = "pull_request") then
    match c, u with
    | JObj fs, JObj gs => let '(fs, gs) := canonicalizePullRequestComparison fs gs in (JObj fs, JObj gs)
    | _, _ => (c, u)
    end
  else (c, u).

(** [semanticDiff]: whether the sides agree, and the difference. *)
Definition semanticDiff (entityKind : string) (cache upstream : json) : bool * json :=
  let '(c, u) := comparands entityKind cache upstream in
  if deep_equal c u then (true, JObj []) else (false, diffValue c u).

(** *** Values of the same content *)

(** Equal up to the order of arrays whose elements all have an identity, no two of them
    the same. *)
Inductive same_content : json → json → Prop :=
  | same_refl v : same_content v v
  | same_trans u v w : same_content u v → same_content v w → same_content u w
  | same_element l1 v w l2 :
      same_content v w → same_content (JArr (l1 ++ v :: l2)) (JArr (l1 ++ w :: l2))
  | same_member l1 k v w l2 :
      same_content v w → same_content (JObj (l1 ++ (k, v) :: l2)) (JObj (l1 ++ (k, w) :: l2))
  | same_order l m :
      l ≡ₚ m → (∀ v, v ∈ l → has_identity v = true) → NoDup (map sort_key l) →
      same_content (JArr l) (JArr m).

Lemma field_map f k fs : field k (map (λ kv, (kv.1, f kv.2)) fs) = f <$> field k fs.
Proof. induction fs as [|[k' v] fs IH]; [done|]. cbn. case_bool_decide; done. Qed.

Lemma string_member_normalize k fs :
  string_member k (map (λ kv, (kv.1, normalizeSemantic kv.2)) fs) = string_member k fs.
Proof. unfold string_member. rewrite field_map. by destruct (field k fs) as [[]|]. Qed.

Lemma identity_normalize fs :
  semanticIdentity (map (λ kv, (kv.1, normalizeSemantic kv.2)) fs) = semanticIdentity fs.
Proof.
  unfold semanticIdentity. rewrite !string_member_normalize, field_map. by destruct (field "id" fs) as [[]|].
Qed.

Lemma key_normalize v : sort_key (normalizeSemantic v) = sort_key v.
Proof. destruct v; try done. cbn. by rewrite string_member_normalize, identity_normalize. Qed.

Lemma has_identity_normalize v : has_identity (normalizeSemantic v) = has_identity v.
Proof. destruct v; try done. cbn. by rewrite identity_normalize. Qed.

Definition key_le (v w : json) : Prop := key_less (sort_key w) (sort_key v) = false.

Lemma key_less_lt a b : key_less a b = true ↔ string_lt a.1 b.1 ∨ a.1 = b.1 ∧ string_lt a.2 b.2.
Proof.
  unfold key_less. case_bool_decide as H; rewrite bool_decide_eq_true; split; auto.
  - intros [Hlt|[_ ?]]; [|done]. rewrite H in Hlt. by apply string_lt_irrefl in Hlt.
  - intros [?|[? _]]; done.
Qed.

Lemma key_less_trans a b c : key_less a b = true → key_less b c = true → key_less a c = true.
Proof.
  rewrite !key_less_lt. intros [H1|[H1 H1']] [H2|[H2 H2']].
  - left. by trans b.1.
  - left. by rewrite <- H2.
  - left. by rewrite H1.
  - right. split; [congruence|by trans b.2].
Qed.

Lemma key_less_total a b : key_less a b = true ∨ a = b ∨ key_less b a = true.
Proof.
  rewrite !key_less_lt. destruct a as [a1 a2], b as [b1 b2]; cbn.
  destruct (string_lt_total a1 b1) as [?|[->|?]]; [by auto| |by auto].
  destruct (string_lt_total a2 b2) as [?|[->|?]]; auto.
Qed.

Lemma key_less_irrefl a : key_less a a = false.
Proof.
  apply not_true_iff_false. rewrite key_less_lt. intros [?|[_ ?]]; by eapply string_lt_irrefl.
Qed.

#[local] Instance key_le_trans : Transitive key_le.
Proof.
  intros u v w. unfold key_le. intros H1 H2. apply not_true_iff_false. intros H3.
  destruct (key_less_total (sort_key u) (sort_key v)) as [Hl|[He|Hl]]; [|congruence|congruence].
  rewrite (key_less_trans _ _ _ H3 Hl) in H2. done.
Qed.

Lemma stable_insert_perm v l : stable_insert v l ≡ₚ v :: l.
Proof. induction l as [|w l IH]; [done|]. cbn. case_if; [|done]. rewrite IH. apply Permutation_swap. Qed.

Lemma stable_sort_perm l : stable_sort l ≡ₚ l.
Proof. induction l as [|v l IH]; [done|]. cbn. by rewrite stable_insert_perm, IH. Qed.

Lemma stable_insert_sorted v l : Sorted key_le l → Sorted key_le (stable_insert v l).
Proof.
  induction 1 as [|w l Hs IH Hhd]; cbn; [repeat constructor|].
  destruct (key_less (sort_key w) (sort_key v)) eqn:E.
  - constructor; [done|]. assert (Hle : key_le w v).
    { unfold key_le. apply not_true_iff_false. intros E2. pose proof (key_less_trans _ _ _ E E2) as E3. by rewrite key_less_irrefl in E3. }
    destruct l as [|x l]; cbn; [by constructor|]. inversion Hhd; subst. case_if; by constructor.
  - constructor; [by constructor|]. by constructor.
Qed.

Lemma stable_sort_sorted l : StronglySorted key_le (stable_sort l).
Proof.
  apply Sorted_StronglySorted; [apply key_le_trans|]. induction l as [|v l IH]; cbn; [constructor|by apply stable_insert_sorted].
Qed.

(** Sorting forgets the order of elements with distinct keys. *)
Lemma stable_sort_unique l m : l ≡ₚ m → NoDup (map sort_key l) → stable_sort l = stable_sort m.
Proof.
  intros Hp Hnd. apply (StronglySorted_unique_strong key_le).
  - intros x y Hx Hy H1 H2. rewrite stable_sort_perm in Hx, Hy. rewrite <- Hp in Hy. unfold key_le in H1, H2.
    destruct (key_less_total (sort_key x) (sort_key y)) as [?|[He|?]]; [congruence| |congruence].
    apply list_elem_of_lookup in Hx as [i Hi]. apply list_elem_of_lookup in Hy as [j Hj].
    assert (i = j) as ->; [|congruence]. eapply NoDup_lookup; [exact Hnd|..]; rewrite list_lookup_fmap; [by rewrite Hi|].
    rewrite Hj. cbn. by rewrite He.
  - apply stable_sort_sorted.
  - apply stable_sort_sorted.
  - by rewrite !stable_sort_perm.
Qed.

Lemma same_normalized v w : same_content v w → normalizeSemantic v = normalizeSemantic w.
Proof.
  induction 1 as [v|u v w _ IH1 _ IH2|l1 v w l2 _ IH|l1 k v w l2 _ IH|l m Hp Hid Hnd]; [done|congruence| | |].
  - cbn. by rewrite !map_app; cbn; rewrite IH.
  - cbn. by rewrite !map_app; cbn; rewrite IH.
  - cbn. assert (Hall : ∀ x, x ≡ₚ l → forallb has_identity (map normalizeSemantic x) = true).
    { intros x Hx. apply forallb_forall. intros y (z & <- & Hz)%in_map_iff. rewrite has_identity_normalize.
      apply Hid. rewrite <- Hx. by apply list_elem_of_In. }
    rewrite !Hall by done. rewrite !andb_true_r.
    destruct l as [|x l]; [apply Permutation_nil_l in Hp; by subst|].
    destruct m as [|y m]; [by apply Permutation_nil_r in Hp|]. rewrite !bool_decide_false by done. cbn [negb].
    f_equal. apply stable_sort_unique; [by apply Permutation_map|]. rewrite map_map.
    by rewrite (map_ext _ sort_key) by apply key_normalize.
Qed.

(** JSON has no NaN. *)
Fixpoint numbers_ok (v : json) : bool :=
  match v with
  | JNum x => SFeqb x x
  | JArr l => forallb numbers_ok l
  | JObj fs => forallb (λ kv, numbers_ok kv.2) fs
  | _ => true
  end.

Lemma deep_equal_refl v : numbers_ok v = true → deep_equal v v = true.
Proof.
  induction v as [ |b|x|s|l IH|fs IH] using json_induction; cbn; try done.
  - by destruct b.
  - intros _. by apply bool_decide_true.
  - induction IH as [|v l Hv _ IHl]; [done|]. cbn. intros [H1 H2]%andb_true_iff. by rewrite Hv, IHl.
  - induction IH as [|[k v] fs Hv _ IHf]; [done|]. cbn in *. intros [H1 H2]%andb_true_iff.
    by rewrite bool_decide_true, Hv, IHf.
Qed.

Definition fields_ok (fs : list (string * json)) : bool := forallb (λ kv, numbers_ok kv.2) fs.

Lemma normalize_numbers v : numbers_ok v = true → numbers_ok (normalizeSemantic v) = true.
Proof.
  induction v as [ |b|x|s|l IH|fs IH] using json_induction; cbn; try done.
  - intros Hl. assert (Hm : forallb numbers_ok (map normalizeSemantic l) = true).
    { induction IH as [|v l Hv _ IHl]; [done|]. cbn in *. apply andb_true_iff in Hl as [? ?]. by rewrite Hv, IHl. }
    case_if; [|done]. rewrite forallb_forall in Hm |- *. intros x Hx. apply Hm. apply list_elem_of_In.
    apply list_elem_of_In in Hx. by rewrite stable_sort_perm in Hx.
  - induction IH as [|[k v] fs Hv _ IHf]; [done|]. cbn in *. intros [? ?]%andb_true_iff. by rewrite Hv, IHf.
Qed.

Lemma put_fields_ok k v fs : numbers_ok v = true → fields_ok fs = true → fields_ok (put k v fs) = true.
Proof.
  intros Hv. induction fs as [|[k' v'] fs IH]; cbn; [by rewrite Hv|]. intros [H1 H2]%andb_true_iff.
  repeat case_bool_decide; cbn; rewrite ?Hv, ?H1; cbn; [done|done|by apply IH].
Qed.

Lemma del_fields_ok k fs : fields_ok fs = true → fields_ok (del k fs) = true.
Proof.
  unfold fields_ok. rewrite !forallb_forall. intros H x Hx. apply H. apply list_elem_of_In. apply list_elem_of_In in Hx.
  by apply list_elem_of_filter in Hx as [_ ?].
Qed.

Lemma classify_fields_ok k cs fs : fields_ok fs = true → fields_ok (classify_member k cs fs) = true.
Proof.
  unfold classify_member. intros H. destruct (field k fs) as [[]|]; try done. destruct (assoc _ _); [|done]. by apply put_fields_ok.
Qed.

Lemma canonical_fields_ok fs : fields_ok fs = true → fields_ok (canonicalPullRequestSnapshot fs) = true.
Proof.
  intros H. unfold canonicalPullRequestSnapshot. apply classify_fields_ok, classify_fields_ok, del_fields_ok.
  destruct (field "merged" fs) as [[ |[]| | | |]|]; (by apply put_fields_ok) || (by apply classify_fields_ok).
Qed.

(** The comparison of a value with itself agrees. *)
Lemma comparands_self kind v : numbers_ok v = true →
  ∃ w, comparands kind v v = (w, w) ∧ numbers_ok w = true.
Proof.
  intros Hv%normalize_numbers. unfold comparands. case_bool_decide as Hk; [|by eexists].
  destruct (normalizeSemantic v) as [ | | | | |fs]; try (by eexists). unfold canonicalizePullRequestComparison.
  set (c := canonicalPullRequestSnapshot fs).
  assert (Hc : fields_ok c = true) by by apply canonical_fields_ok. cbn [foldl].
  assert (Hdrop : ∀ k x, fields_ok x = true → ∃ y, drop_unobserved k (x, x) = (y, y) ∧ fields_ok y = true).
  { intros k x Hx. unfold drop_unobserved. cbn [fst snd]. case_if; eexists; (split; [done|]); [done|by apply del_fields_ok]. }
  destruct (Hdrop "mergeable_state" c Hc) as (y & -> & Hy). destruct (Hdrop "review_decision" y Hy) as (z & -> & Hz).
  by exists (JObj z).
Qed.

(** C39. The comparison does not depend on the order in which either side lists things. If
    two snapshots differ only by the order, at any depth, of arrays whose elements have
    distinct identities, then any third snapshot compares with both in the same way,
    verdict and difference alike; in particular they do not differ from each other. *)
Theorem order_never_drifts kind v w :
  same_content v w → numbers_ok v = true →
  (semanticDiff kind v w).1 = true ∧
  ∀ u, semanticDiff kind v u = semanticDiff kind w u ∧ semanticDiff kind u v = semanticDiff kind u w.
Proof.
  intros Hs%same_normalized Hn.
  assert (Hc : ∀ u, comparands kind v u = comparands kind w u ∧ comparands kind u v = comparands kind u w).
  { intros u. unfold comparands. by rewrite Hs. }
  split.
  - destruct (comparands_self kind v Hn) as (x & Hx & Hnx). unfold semanticDiff.
    rewrite <- (proj2 (Hc v)), Hx. by rewrite deep_equal_refl.
  - intros u. unfold semanticDiff. by rewrite (proj1 (Hc u)), (proj2 (Hc u)).
Qed.
End comparison.

(** *** What a difference reports *)

Lemma field_put k k' v fs : field k (put k' v fs) = if decide (k = k') then Some v else field k fs.
Proof.
  induction fs as [|[k2 v2] fs IH]; cbn.
  - case_decide; [by rewrite bool_decide_true|by rewrite bool_decide_false].
  - case_bool_decide as H1; [subst k2|case_bool_decide as H2]; cbn.
    + case_decide; [by rewrite bool_decide_true|by rewrite !(bool_decide_false (k = k'))].
    + case_decide; [by rewrite bool_decide_true|by rewrite (bool_decide_false (k = k'))].
    + rewrite IH. case_decide; [subst k; by rewrite (bool_decide_false (k' = k2))|done].
Qed.

Lemma field_foldl k l : ∀ acc,
  is_Some (field k (foldl (λ fs kv, put kv.1 kv.2 fs) acc l)) ↔ is_Some (field k acc) ∨ k ∈ map fst l.
Proof.
  induction l as [|[k' v] l IH]; intros acc; cbn [foldl map fst snd].
  - rewrite elem_of_nil. tauto.
  - rewrite IH, field_put, elem_of_cons. case_decide as Hk.
    + subst k'. split; [by right; left|]. intros _. left. by eexists.
    + split; [intros [?|?]; auto|]. intros [?|[?|?]]; auto. done.
Qed.

Lemma field_elem k v fs : NoDup (map fst fs) → field k fs = Some v ↔ (k, v) ∈ fs.
Proof.
  induction fs as [|[k' v'] fs IH]; cbn; [rewrite elem_of_nil; done|]. intros [Hn Hnd]%NoDup_cons. rewrite elem_of_cons.
  case_bool_decide as H.
  - subst k'. split; [intros [= <-]; by left|]. intros [[= <-]|Hin]; [done|]. destruct Hn. apply list_elem_of_fmap. by exists (k, v).
  - rewrite IH by done. split; [by right|]. by intros [[= -> ->]|?].
Qed.

Lemma field_None k fs : field k fs = None ↔ k ∉ map fst fs.
Proof.
  induction fs as [|[k' v'] fs IH]; cbn; [split; [|done]; intros _; apply not_elem_of_nil|].
  rewrite not_elem_of_cons. case_bool_decide; [naive_solver|]. rewrite IH. naive_solver.
Qed.

(** The difference of two objects has a member exactly where the two disagree, a missing
    member counting as [null]. *)
Theorem diff_reports_exactly fs gs k :
  NoDup (map fst fs) → NoDup (map fst gs) →
  ∃ d, diffValue (JObj fs) (JObj gs) = JObj d ∧
    (is_Some (field k d) ↔ deep_equal (member k fs) (member k gs) = false).
Proof.
  intros Hf Hg. eexists. split; [reflexivity|]. unfold jobj. rewrite field_foldl, map_app, elem_of_app. cbn [field].
  replace (member k fs) with (default JNull (field k fs)) by done.
  destruct (field k fs) as [c|] eqn:Ec; cbn [default from_option id].
  - apply field_elem in Ec as Hin; [|done]. split.
    + intros [[? ?]|[Hx|Hx]]; [done| |].
      * apply list_elem_of_fmap in Hx as ([k' x] & -> & ([k2 c2] & Hk2 & Hx)%list_elem_of_In%in_flat_map). cbn [fst snd] in Hx.
        destruct (deep_equal c2 (member k2 gs)) eqn:E; [done|]. destruct Hx as [[= <- <-]|[]]. cbn in *.
        apply list_elem_of_In, field_elem in Hk2; [|done]. congruence.
      * apply list_elem_of_fmap in Hx as ([k' x] & -> & ([k2 c2] & Hk2 & Hx)%list_elem_of_In%in_flat_map). cbn [fst snd] in Hx.
        destruct (field k2 fs) eqn:E2; [done|]. destruct (deep_equal JNull c2); [done|]. destruct Hx as [[= <- <-]|[]]. cbn in *. congruence.
    + intros E. right. left. apply list_elem_of_fmap. exists (k, diffValue c (member k gs)). split; [done|].
      apply list_elem_of_In, in_flat_map. exists (k, c). split; [by apply list_elem_of_In|]. cbn. rewrite E. by left.
  - unfold member. split.
    + intros [[? ?]|[Hx|Hx]]; [done| |].
      * apply list_elem_of_fmap in Hx as ([k' x] & -> & ([k2 c2] & Hk2 & Hx)%list_elem_of_In%in_flat_map). cbn [fst snd] in Hx.
        destruct (deep_equal _ _); [done|]. destruct Hx as [[= <- <-]|[]]. cbn in *.
        apply list_elem_of_In, field_elem in Hk2; [|done]. congruence.
      * apply list_elem_of_fmap in Hx as ([k' x] & -> & ([k2 c2] & Hk2 & Hx)%list_elem_of_In%in_flat_map). cbn [fst snd] in Hx.
        destruct (field k2 fs) eqn:E2; [done|]. destruct (deep_equal JNull c2) eqn:E3; [done|]. destruct Hx as [[= <- <-]|[]]. cbn in *.
        apply list_elem_of_In, field_elem in Hk2; [|done]. by rewrite Hk2.
    + destruct (field k gs) as [u|] eqn:Eu; [|done]. intros E. right. right. apply list_elem_of_fmap.
      exists (k, two_sides JNull u). split; [done|]. apply list_elem_of_In, in_flat_map. exists (k, u).
      split; [apply list_elem_of_In; by apply field_elem|]. cbn [fst snd]. rewrite Ec. cbn [default from_option id] in E. rewrite E. by left.
Qed.

(** A member that is [null] on one side and missing on the other makes the sides unequal,
    yet the difference is empty. *)
Example null_against_missing :
  semanticDiff (λ _, "") "stack" (JObj [("open", JNull)]) (JObj []) = (false, JObj []).
Proof. reflexivity. Qed.

(** ** Entity keys and refreshes *)

Inductive drift_error : Type :=
  | InvalidEntityKey
  | InvalidNumberedKey
  | UnsupportedEntityKind
  | InvalidRepository
  | UpstreamFailed
  | PagesOutOfFuel
  | ObservationMoved
  | RuleNotDecoded
  | SampleTooSmall
  | NotEnqueuedOnce
  | HealNotEnqueued (e : queue_error)
  | FindingLost
  | DriftNotObserved
  | HeartbeatRefused.

Fixpoint str_rev (s acc : string) : string :=
  match s with
  | EmptyString => acc
  | String c s => str_rev s (String c acc)
  end.

(** [strings.LastIndex] of a byte, as the texts around its last occurrence. *)
Definition CutLast (s : string) (c : ascii) : option (string * string) :=
  match Cut (str_rev s "") c with
  | Some (after, before) => Some (str_rev before "", str_rev after "")
  | None => None
  end.

Definition HasSuffix (s suffix : string) : bool := HasPrefix (str_rev s "") (str_rev suffix "").
Definition TrimSuffix (s suffix : string) : string :=
  str_rev (TrimPrefix (str_rev s "") (str_rev suffix "")) "".

Definition repoFromKey (key prefix suffix : string) : result drift_error string :=
  if negb (HasPrefix key prefix) || negb (HasSuffix key suffix) then Err InvalidEntityKey
  else
    let repo := TrimSuffix (TrimPrefix key prefix) suffix in
    if bool_decide (repo = "") then Err InvalidEntityKey else Ok repo.

(** An empty part before or after the last colon is refused. *)
Definition stringKey (key prefix : string) : result drift_error (string * string) :=
  if negb (HasPrefix key prefix) then Err InvalidEntityKey
  else match CutLast (TrimPrefix key prefix) ":" with
       | Some (repo, value) =>
           if bool_decide (repo = "") || bool_decide (value = "") then Err InvalidEntityKey else Ok (repo, value)
       | None => Err InvalidEntityKey
       end.

Definition numberedKey (key prefix : string) : result drift_error (string * Z) :=
  '(repo, raw) ← stringKey key prefix;
  match ParseInt raw with
  | Some number => if number <=? 0 then Err InvalidNumberedKey else Ok (repo, number)
  | None => Err InvalidNumberedKey
  end.

Definition driftEntityKinds : list string :=
  ["repository"; "pull_request"; "stack"; "repo_rules"; "review_threads"; "checks"].

Definition refreshSpecForEntity (kind key : string) : result drift_error RefreshSpec :=
  if bool_decide (kind = "repository") then Ok (spec KindRefreshRepository key)
  else if bool_decide (kind = "pull_request") then Ok (spec KindRefreshPR key)
  else if bool_decide (kind = "stack") then Ok (spec KindRefreshStack key)
  else if bool_decide (kind = "repo_rules") then Ok (spec KindRefreshRepoRules key)
  else if bool_decide (kind = "review_threads") then
    '(repo, number) ← numberedKey key "review_threads:";
    Ok (spec KindRefreshPR (pointer_key "pr" repo (FormatInt number)))
  else if bool_decide (kind = "checks") then Ok (spec KindRefreshChecks key)
  else Err UnsupportedEntityKind.

(** ** Upstream snapshots *)

Section upstream.
(** The JSON encoding of a [time.Time]. *)
Context (format_time : time → string).

(** [UnixMicro]. *)
Definition semanticTime (t : time) : Z := (t - Unix 0) `div` 1000.

Definition semanticActor (actor : option ActorNode) : string * json * json :=
  match actor with
  | None => ("deleted", JNull, JNull)
  | Some a => (actor_kind (ac_Typename a), jtext (ac_ID a), jtext (ac_Login a))
  end.

Definition semanticGraphQLDatabaseID (id : option Z) : json :=
  match id with
  | Some z => if z =? 0 then JNull else jint z
  | None => JNull
  end.

(** [sort.Slice] by a string, for lists without equal keys. *)
Definition by_text {A} (f : A → string) (x y : A) : Prop := string_le (f x) (f y).
#[local] Instance by_text_dec {A} (f : A → string) : RelDecision (by_text f) := λ x y, decide (string_le _ _).

Definition semantic_comment (c : ReviewCommentNode) : json :=
  JObj (jobj [("id", JStr (wc_ID c)); ("body", JStr (wc_Body c)); ("updated_at", JStr (format_time (wc_UpdatedAt c)));
              ("author_login", JStr (default "" (wc_Author c)))]).

Definition semantic_thread (t : ReviewThreadNode) : json :=
  JObj (jobj [("id", JStr (th_ID t)); ("is_resolved", JBool (th_IsResolved t)); ("is_outdated", JBool (th_IsOutdated t));
              ("path", JStr (th_Path t)); ("line", jopt jint (th_Line t));
              ("comments", JArr (map semantic_comment (merge_sort (by_text wc_ID) (cn_Nodes (th_Comments t)))))]).

Definition semanticReviewThreads (n : PullRequestNode) : json :=
  JArr (map semantic_thread (merge_sort (by_text th_ID) (cn_Nodes (pn_ReviewThreads n)))).

Definition semantic_request (kind head : string) (u : github_account) : json :=
  JObj (jobj [("kind", JStr kind); ("id", jint (ga_ID u)); ("node_id", JStr (ga_NodeID u)); ("login", JStr (ga_Login u));
              ("head_sha", JStr head)]).

Definition by_id (u v : github_account) : Prop := ga_ID u ≤ ga_ID v.
#[local] Instance by_id_dec : RelDecision by_id := λ u v, decide (_ ≤ _).

(** Teams sort before users, each by their number. *)
Definition semanticReviewRequests (p : PullRequest) : json :=
  let users := filter (λ u, IsSupportedReviewRequestUser u = true) (default [] (rl_RequestedReviewers p)) in
  let teams := filter (λ u, IsSupportedReviewRequestTeam u = true) (default [] (rl_RequestedTeams p)) in
  JArr (map (semantic_request "team" (rl_HeadSHA p)) (merge_sort by_id teams)
        ++ map (semantic_request "user" (rl_HeadSHA p)) (merge_sort by_id users)).

Definition semantic_review (head : string) (r : PullRequestReviewNode) : json :=
  let '(kind, nodeID, login) := semanticActor (rv_Author r) in
  JObj (jobj [("id", semanticGraphQLDatabaseID (rv_FullDatabaseID r)); ("node_id", JStr (rv_ID r));
              ("author_kind", JStr kind); ("author_node_id", nodeID); ("author_login", login);
              ("state", JStr (ToLower (rv_State r))); ("submitted_at", jopt (λ t, jint (semanticTime t)) (rv_SubmittedAt r));
              ("commit_oid", jtext (default "" (rv_Commit r))); ("updated_at", jint (semanticTime (rv_UpdatedAt r)));
              ("head_sha", JStr head)]).

Definition semanticPullRequestReviews (n : PullRequestNode) : json :=
  JArr (map (semantic_review (pn_HeadRefOID n)) (merge_sort (by_text rv_ID) (cn_Nodes (pn_Reviews n)))).

Definition semantic_issue_comment (head : string) (c : IssueCommentNode) : json :=
  let '(kind, nodeID, login) := semanticActor (ic_Author c) in
  JObj (jobj [("id", semanticGraphQLDatabaseID (ic_FullDatabaseID c)); ("node_id", JStr (ic_ID c));
              ("author_kind", JStr kind); ("author_node_id", nodeID); ("author_login", login);
              ("created_at", jint (semanticTime (ic_CreatedAt c))); ("updated_at", jint (semanticTime (ic_UpdatedAt c)));
              ("head_sha", JStr head)]).

Definition semanticPullRequestComments (n : PullRequestNode) : json :=
  JArr (map (semantic_issue_comment (pn_HeadRefOID n)) (merge_sort (by_text ic_ID) (cn_Nodes (pn_Comments n)))).

(** [changeinputs.Semantic]. *)
Definition semantic_file (f : ChangedFileRecord) : json :=
  JObj (jobj [("path", JStr (fi_Path f)); ("previous_path", jtext (fi_PreviousPath f)); ("change_type", JStr (fi_ChangeType f))]).

Definition semantic_owner (o : FileOwnerRecord) : json :=
  JObj (jobj [("path", JStr (fo_Path o)); ("owner_token", JStr (fo_OwnerToken o)); ("owner_type", JStr (fo_OwnerType o));
              ("owner_name", JStr (fo_OwnerName o)); ("resolution_state", JStr (fo_ResolutionState o));
              ("owner_gh_id", if 0 <? fo_OwnerGitHubID o then jint (fo_OwnerGitHubID o) else JNull);
              ("owner_node_id", jtext (fo_OwnerNodeID o)); ("owner_login", jtext (fo_OwnerLogin o));
              ("source_pattern", JStr (fo_SourcePattern o)); ("source_line", jint (fo_SourceLine o))]).

Definition Semantic (s : PullRequestChangeSnapshotRecord) : json :=
  JObj (jobj [("base_sha", JStr (sn_BaseSHA s)); ("head_sha", JStr (sn_HeadSHA s));
              ("files_total_count", jint (sn_FilesTotalCount s)); ("files_truncated", JBool (sn_FilesTruncated s));
              ("codeowners_ref", JStr (sn_CodeownersRef s)); ("codeowners_sha", JStr (sn_CodeownersSHA s));
              ("codeowners_path", jtext (sn_CodeownersPath s)); ("codeowners_state", JStr (sn_CodeownersState s));
              ("codeowners_hash", JStr (sn_CodeownersHash s)); ("files", JArr (map semantic_file (sn_Files s)));
              ("owners", JArr (map semantic_owner (sn_Owners s)))]).

(** What GitHub answered: an error, a 404, or a value. *)
Inductive upstream_answer (T : Type) : Type :=
  | UpstreamError
  | UpstreamMissing
  | UpstreamValue (v : T).
Arguments UpstreamError {T}.
Arguments UpstreamMissing {T}.
Arguments UpstreamValue {T}.

(** The requests of a full fetch. A pull request comes with whether it is merged, a rule
    with its decoded document, a page of check runs with the number of the next one; the
    nodes are the answer of the batch query for the one node asked for, and the change
    inputs those of [Hydrate]. *)
Record upstream_inputs : Type := mkUpstream {
  up_repository : string * string → upstream_answer Repository;
  up_pull : string * string → Z → upstream_answer (PullRequest * bool);
  up_nodes : string → option (list (option PullRequestNode));
  up_changes : PullRequestNode → option PullRequestChangeSnapshotRecord;
  up_stack : string * string → Z → upstream_answer Stack;
  up_rules : string * string → upstream_answer (list (Z * option json));
  up_checks : string * string → string → Z → upstream_answer (list CheckRun * Z);
  up_fuel : nat
}.

Definition tombstoneSnapshot : json := JObj [("tombstoned", JBool true)].

Definition repository_snapshot (r : Repository) : json :=
  JObj (jobj [("id", jint (re_ID r)); ("node_id", JStr (re_NodeID r)); ("owner", JStr (re_Owner r)); ("name", JStr (re_Name r));
              ("full_name", JStr (re_FullName r)); ("default_branch", JStr (re_DefaultBranch r));
              ("archived", JBool (re_Archived r))]).

Definition put_text (k s : string) (fs : list (string * json)) : list (string * json) :=
  if bool_decide (s = "") then fs else put k (JStr s) fs.

Definition pull_snapshot (p : PullRequest) (merged : bool) (n : PullRequestNode) (changes : PullRequestChangeSnapshotRecord) : json :=
  let decision := if bool_decide (pn_ReviewDecision n = "") then rl_ReviewDecision p else pn_ReviewDecision n in
  let mergeability := if bool_decide (rl_MergeableState p = "") then pn_Mergeable n else rl_MergeableState p in
  let fs := jobj [("id", jint (rl_ID p)); ("node_id", JStr (rl_NodeID p)); ("number", jint (rl_Number p));
                  ("title", JStr (rl_Title p)); ("state", JStr (rl_State p)); ("merged", JBool merged);
                  ("draft", JBool (rl_Draft p)); ("author_login", JStr (rl_User p)); ("head_ref", JStr (rl_HeadRef p));
                  ("head_sha", JStr (rl_HeadSHA p)); ("base_ref", JStr (rl_BaseRef p)); ("base_sha", JStr (rl_BaseSHA p));
                  ("stack_number", jopt (λ s, jint (sf_Number s)) (rl_Stack p));
                  ("stack_position", jopt (λ s, jint (sf_Position s)) (rl_Stack p));
                  ("review_requests", semanticReviewRequests p); ("reviews", semanticPullRequestReviews n);
                  ("comments", semanticPullRequestComments n); ("change_inputs", Semantic changes)] in
  JObj (put_text "mergeable_state" mergeability (put_text "review_decision" decision fs)).

Definition entry_snapshot (p : StackPullRequest) : json :=
  let fs := jobj [("number", jint (sp_Number p)); ("state", JStr (sp_State p)); ("draft", JBool (sp_Draft p));
                  ("head_ref", JStr (sp_HeadRef p)); ("head_sha", JStr (sp_HeadSHA p))] in
  JObj match sp_MergedAt p with Some t => put "merged_at" (JStr (format_time t)) fs | None => fs end.

Definition stack_snapshot (s : Stack) : json :=
  JObj (jobj [("id", jint (ss_ID s)); ("node_id", JStr (ss_NodeID s)); ("number", jint (ss_Number s));
              ("base_ref", JStr (ss_BaseRef s)); ("base_sha", JStr (ss_BaseSHA s)); ("open", JBool (ss_Open s));
              ("entries", JArr (map entry_snapshot (ss_PullRequests s)))]).

Fixpoint rules_by_id (rules : list (Z * option json)) (acc : list (string * json)) : result drift_error (list (string * json)) :=
  match rules with
  | [] => Ok acc
  | (id, Some v) :: rules => rules_by_id rules (put (FormatInt id) v acc)
  | (_, None) :: _ => Err RuleNotDecoded
  end.

Fixpoint all_checks (fuel : nat) (list_page : Z → upstream_answer (list CheckRun * Z)) (page : Z) (runs : list CheckRun)
    : result drift_error (option (list CheckRun)) :=
  match fuel with
  | O => Err PagesOutOfFuel
  | S fuel =>
      match list_page page with
      | UpstreamError => Err UpstreamFailed
      | UpstreamMissing => Ok None
      | UpstreamValue (batch, next) =>
          if next =? 0 then Ok (Some (runs ++ batch)) else all_checks fuel list_page next (runs ++ batch)
      end
  end.

Definition by_run (r s : CheckRun) : Prop := ck_ID r ≤ ck_ID s.
#[local] Instance by_run_dec : RelDecision by_run := λ r s, decide (_ ≤ _).

Definition run_snapshot (r : CheckRun) : json :=
  JObj (jobj [("id", jint (ck_ID r)); ("node_id", JStr (ck_NodeID r)); ("name", JStr (ck_Name r)); ("status", JStr (ck_Status r));
              ("conclusion", JStr (ck_Conclusion r)); ("details_url", JStr (ck_DetailsURL r)); ("app_slug", JStr (ck_AppSlug r))]).

Definition split_name (repo : string) : result drift_error (string * string) :=
  match repoutil_Split repo with Some name => Ok name | None => Err InvalidRepository end.

(** A value, or the tombstone after a 404. *)
Definition or_tombstone {T} (a : upstream_answer T) (f : T → result drift_error json) : result drift_error json :=
  match a with
  | UpstreamError => Err UpstreamFailed
  | UpstreamMissing => Ok tombstoneSnapshot
  | UpstreamValue v => f v
  end.

(** The node of a pull request, or the tombstone when it has disappeared. *)
Definition with_node (inputs : upstream_inputs) (nodeID : string) (f : PullRequestNode → result drift_error json)
    : result drift_error json :=
  match up_nodes inputs nodeID with
  | None => Err UpstreamFailed
  | Some [Some n] => f n
  | Some _ => Ok tombstoneSnapshot
  end.

(** The cases of [fullFetch]. *)
Definition fetch_repository (inputs : upstream_inputs) (key : string) : result drift_error (json * RefreshSpec) :=
  repo ← repoFromKey key "repo:" ":metadata"; name ← split_name repo;
  v ← or_tombstone (up_repository inputs name) (λ r, Ok (repository_snapshot r));
  Ok (v, spec KindRefreshRepository key).

Definition fetch_pull (inputs : upstream_inputs) (key : string) : result drift_error (json * RefreshSpec) :=
  '(repo, number) ← numberedKey key "pr:"; name ← split_name repo;
  v ← or_tombstone (up_pull inputs name number) (λ '(p, merged),
    with_node inputs (rl_NodeID p) (λ n,
      if negb (bool_decide (pn_BaseRefOID n = rl_BaseSHA p)) || negb (bool_decide (pn_HeadRefOID n = rl_HeadSHA p))
      then Err ObservationMoved
      else match up_changes inputs n with
           | Some changes => Ok (pull_snapshot p merged n changes)
           | None => Err UpstreamFailed
           end));
  Ok (v, spec KindRefreshPR key).

Definition fetch_stack (inputs : upstream_inputs) (key : string) : result drift_error (json * RefreshSpec) :=
  '(repo, number) ← numberedKey key "stack:"; name ← split_name repo;
  v ← or_tombstone (up_stack inputs name number) (λ s, Ok (stack_snapshot s));
  Ok (v, spec KindRefreshStack key).

Definition fetch_rules (inputs : upstream_inputs) (key : string) : result drift_error (json * RefreshSpec) :=
  repo ← repoFromKey key "repo_rules:" ":rules"; name ← split_name repo;
  v ← or_tombstone (up_rules inputs name) (λ rules,
    l ← rules_by_id rules []; Ok (JObj [("rules_by_id", JObj l)]));
  Ok (v, spec KindRefreshRepoRules key).

Definition fetch_threads (inputs : upstream_inputs) (key : string) : result drift_error (json * RefreshSpec) :=
  '(repo, number) ← numberedKey key "review_threads:"; name ← split_name repo;
  v ← or_tombstone (up_pull inputs name number) (λ '(p, _),
    with_node inputs (rl_NodeID p) (λ n, Ok (JObj [("threads", semanticReviewThreads n)])));
  Ok (v, spec KindRefreshPR (pointer_key "pr" repo (FormatInt number))).

Definition fetch_checks (inputs : upstream_inputs) (key : string) : result drift_error (json * RefreshSpec) :=
  '(repo, head) ← stringKey key "checks:"; name ← split_name repo;
  runs ← all_checks (up_fuel inputs) (up_checks inputs name head) 1 [];
  Ok (match runs with
      | Some runs => JObj [("runs", JArr (map run_snapshot (merge_sort by_run runs)))]
      | None => tombstoneSnapshot
      end, spec KindRefreshChecks key).

Definition fullFetch (inputs : upstream_inputs) (kind key : string) : result drift_error (json * RefreshSpec) :=
  if bool_decide (kind = "repository") then fetch_repository inputs key
  else if bool_decide (kind = "pull_request") then fetch_pull inputs key
  else if bool_decide (kind = "stack") then fetch_stack inputs key
  else if bool_decide (kind = "repo_rules") then fetch_rules inputs key
  else if bool_decide (kind = "review_threads") then fetch_threads inputs key
  else if bool_decide (kind = "checks") then fetch_checks inputs key
  else Err UnsupportedEntityKind.
End upstream.

Arguments UpstreamError {T}.
Arguments UpstreamMissing {T}.
Arguments UpstreamValue {T}.

(** ** Sampling *)

(** A row of the view [drift_entities] of one installation. *)
Record drift_row : Type := mkDriftRow {
  dr_EntityKind : string;
  dr_SourceID : Z;
  dr_EntityKey : string;
  dr_LockKey : string;
  dr_CacheSnapshot : json;
  dr_LastCheckedAt : option time
}.

Definition by_source (a b : drift_row) : Prop := dr_SourceID a ≤ dr_SourceID b.
#[export] Instance by_source_dec : RelDecision by_source := λ a b, decide (_ ≤ _).

(** The two-phase statement: the sampled identifiers first, then their rows. *)
Definition sample_rows (kind : string) (wanted : Z → bool) (size : Z) (view : list drift_row) : list drift_row :=
  let ids := take (Z.to_nat (wrap32 size))
    (merge_sort Z.le (map dr_SourceID (filter (λ r, dr_EntityKind r = kind ∧ wanted (dr_SourceID r) = true) view))) in
  merge_sort by_source (filter (λ r, dr_EntityKind r = kind ∧ dr_SourceID r ∈ ids) view).

Definition SampleCachedEntitiesAfter (kind : string) (after size : Z) (view : list drift_row) : list drift_row :=
  sample_rows kind (λ id, after <? id) size view.

Definition SampleCachedEntitiesThrough (kind : string) (through size : Z) (view : list drift_row) : list drift_row :=
  sample_rows kind (λ id, id <=? through) size view.

(** The samples of a kind: forward from the cursor, then from the start. *)
Definition kind_samples (kind : string) (quota afterID : Z) (view : list drift_row) : list drift_row :=
  let after := SampleCachedEntitiesAfter kind afterID quota view in
  let remaining := quota - Z.of_nat (length after) in
  if 0 <? remaining then after ++ SampleCachedEntitiesThrough kind afterID remaining view else after.

Definition next_cursor (afterID : Z) (samples : list drift_row) : Z :=
  default afterID (dr_SourceID <$> last samples).

(** The share of a kind by its position in [driftEntityKinds]. *)
Definition kind_quota (sampleSize : Z) (index : nat) : Z :=
  let n := Z.of_nat (length driftEntityKinds) in
  sampleSize `quot` n + (if Z.of_nat index <? sampleSize `rem` n then 1 else 0).

(** *** Rotation *)

Definition source_lt (a b : drift_row) : Prop := dr_SourceID a < dr_SourceID b.

(** The rows of a kind in the order of their identifiers. *)
Definition kind_rows (kind : string) (view : list drift_row) : list drift_row :=
  merge_sort by_source (filter (λ r, dr_EntityKind r = kind) view).

(** Identifiers are unique within a kind. *)
Definition sources_unique (kind : string) (view : list drift_row) : Prop :=
  NoDup (map dr_SourceID (filter (λ r, dr_EntityKind r = kind) view)).

#[local] Instance by_source_total : Total by_source.
Proof. intros a b. unfold by_source. lia. Qed.
#[local] Instance by_source_trans : Transitive by_source.
Proof. intros a b c. unfold by_source. lia. Qed.

Lemma NoDup_sub {A B} (f : A → B) P `{∀ x, Decision (P x)} l : NoDup (map f l) → NoDup (map f (filter P l)).
Proof.
  induction l as [|x l IH]; [done|]. rewrite filter_cons. cbn [map]. intros [Hx Hnd]%NoDup_cons. case_decide; [|by apply IH].
  cbn [map]. apply NoDup_cons. split; [|by apply IH]. intros Hin. apply Hx. apply list_elem_of_fmap in Hin as (y & -> & Hy).
  apply list_elem_of_fmap. exists y. split; [done|]. by apply list_elem_of_filter in Hy as [_ ?].
Qed.

Lemma sorted_strict l : NoDup (map dr_SourceID l) → StronglySorted source_lt (merge_sort by_source l).
Proof.
  intros Hnd. pose proof (StronglySorted_merge_sort by_source l) as Hs.
  assert (Hp : NoDup (map dr_SourceID (merge_sort by_source l))) by (by rewrite merge_sort_Permutation).
  induction Hs as [|a l' Hs IH Hall]; [constructor|]. cbn in Hp. apply NoDup_cons in Hp as [Ha Hp].
  constructor; [by apply IH|]. apply Forall_forall. intros b Hb. rewrite Forall_forall in Hall. specialize (Hall b Hb).
  unfold by_source, source_lt in *. assert (dr_SourceID a ≠ dr_SourceID b); [|lia]. intros E. apply Ha. rewrite E.
  apply list_elem_of_fmap. eauto.
Qed.

Lemma sorted_same l m : StronglySorted source_lt l → StronglySorted source_lt m → l ≡ₚ m → l = m.
Proof.
  intros Hl Hm. apply (StronglySorted_unique_strong source_lt); [|done|done].
  intros x y _ _. unfold source_lt. lia.
Qed.

Lemma sorted_filter P `{∀ x, Decision (P x)} l : StronglySorted source_lt l → StronglySorted source_lt (filter P l).
Proof.
  induction 1 as [|a l Hs IH Hall]; [constructor|]. rewrite filter_cons. case_decide; [|done]. constructor; [done|].
  apply Forall_forall. intros b [_ Hb]%list_elem_of_filter. by eapply Forall_forall.
Qed.

Lemma sorted_take n l : StronglySorted source_lt l → StronglySorted source_lt (take n l).
Proof.
  intros Hs. revert n. induction Hs as [|a l Hs IH Hall]; intros [|n]; cbn; try constructor; [done|].
  apply Forall_forall. intros b Hb. eapply Forall_forall; [exact Hall|]. by apply elem_of_take in Hb as (i & Hi & _); eapply list_elem_of_lookup_2.
Qed.

Lemma strict_NoDup l : StronglySorted source_lt l → NoDup l.
Proof.
  induction 1 as [|a l Hs IH Hall]; [constructor|]. apply NoDup_cons. split; [|done]. intros Ha.
  rewrite Forall_forall in Hall. specialize (Hall a Ha). unfold source_lt in Hall. lia.
Qed.

Lemma strict_inj l x y : StronglySorted source_lt l → x ∈ l → y ∈ l → dr_SourceID x = dr_SourceID y → x = y.
Proof.
  induction 1 as [|a l Hs IH Hall]; [by intros ?%elem_of_nil|]. rewrite Forall_forall in Hall. unfold source_lt in Hall.
  rewrite !elem_of_cons. intros [->|Hx] [->|Hy] E; [done|specialize (Hall y Hy); lia|specialize (Hall x Hx); lia|by apply IH].
Qed.

Lemma filter_none (P : drift_row → Prop) `{∀ r, Decision (P r)} (l : list drift_row) : (∀ r, r ∈ l → ¬ P r) → filter P l = [].
Proof.
  induction l as [|a l IH]; intros Hl; [done|]. rewrite filter_cons, decide_False by (apply Hl; by left).
  apply IH. intros r Hr. apply Hl. by right.
Qed.

Lemma filter_whole (P : drift_row → Prop) `{∀ r, Decision (P r)} (l : list drift_row) : (∀ r, r ∈ l → P r) → filter P l = l.
Proof.
  induction l as [|a l IH]; intros Hl; [done|]. rewrite filter_cons, decide_True by (apply Hl; by left).
  f_equal. apply IH. intros r Hr. apply Hl. by right.
Qed.

Section rotation.
Context (kind : string) (view : list drift_row) (Huniq : sources_unique kind view).

Lemma kind_rows_sorted : StronglySorted source_lt (kind_rows kind view).
Proof. by apply sorted_strict. Qed.

Lemma kind_rows_elem r : r ∈ kind_rows kind view ↔ r ∈ view ∧ dr_EntityKind r = kind.
Proof. unfold kind_rows. rewrite merge_sort_Permutation, list_elem_of_filter. tauto. Qed.

(** The two phases select the first rows in order. *)
Lemma sample_rows_spec wanted size :
  sample_rows kind wanted size view =
  take (Z.to_nat (wrap32 size)) (filter (λ r, wanted (dr_SourceID r) = true) (kind_rows kind view)).
Proof.
  set (n := Z.to_nat (wrap32 size)). set (F := filter (λ r, wanted (dr_SourceID r) = true) (kind_rows kind view)).
  assert (HF : StronglySorted source_lt F) by apply sorted_filter, kind_rows_sorted.
  assert (Hids : merge_sort Z.le (map dr_SourceID (filter (λ r, dr_EntityKind r = kind ∧ wanted (dr_SourceID r) = true) view))
                 = map dr_SourceID F).
  { apply (Sorted_unique Z.le); [apply (Sorted_merge_sort _)| |].
    - clear -HF. induction HF as [|a l Hs IH Hall]; cbn; constructor; [done|]. destruct l as [|b l]; constructor.
      apply Forall_cons in Hall as [Hab _]. unfold source_lt in Hab. lia.
    - rewrite merge_sort_Permutation. apply Permutation_map. subst F. unfold kind_rows. rewrite merge_sort_Permutation.
      rewrite list_filter_filter. apply reflexive_eq, list_filter_iff. intros r. tauto. }
  unfold sample_rows. fold n. rewrite Hids. rewrite <- (fmap_take dr_SourceID). set (T := take n F).
  assert (Hsplit : filter (λ r, dr_EntityKind r = kind ∧ dr_SourceID r ∈ map dr_SourceID T) view =
                   filter (λ r, dr_SourceID r ∈ map dr_SourceID T) (filter (λ r, dr_EntityKind r = kind) view)).
  { rewrite list_filter_filter. apply list_filter_iff. intros r. tauto. }
  change (dr_SourceID <$> T) with (map dr_SourceID T). rewrite Hsplit.
  assert (HT : StronglySorted source_lt T) by by apply sorted_take.
  assert (Hsub : ∀ r, r ∈ T → r ∈ kind_rows kind view).
  { intros r Hr. subst T F. apply elem_of_take in Hr as (i & Hi & _). apply list_elem_of_lookup_2 in Hi.
    by apply list_elem_of_filter in Hi as [_ ?]. }
  apply sorted_same; [|done|].
  - apply sorted_strict, NoDup_sub, Huniq.
  - rewrite merge_sort_Permutation. apply NoDup_Permutation; [|by apply strict_NoDup|].
    + apply (NoDup_fmap_1 dr_SourceID), NoDup_sub, Huniq.
    + intros r. rewrite !list_elem_of_filter. split.
      * intros [(y & Hy & HyT)%list_elem_of_fmap [Hk Hr]]. assert (r = y) as ->; [|done].
        apply (strict_inj (kind_rows kind view)); [apply kind_rows_sorted|by apply kind_rows_elem|by apply Hsub|done].
      * intros Hr. split; [apply list_elem_of_fmap; eauto|]. apply Hsub, kind_rows_elem in Hr as [? ?]. done.
Qed.

(** The rows in the cyclic order that starts after the cursor. *)
Definition rotation (c : Z) : list drift_row :=
  filter (λ r, (c <? dr_SourceID r) = true) (kind_rows kind view) ++
  filter (λ r, (dr_SourceID r <=? c) = true) (kind_rows kind view).

Lemma kind_samples_rotation quota c : 0 < quota < 2 ^ 31 →
  kind_samples kind quota c view = take (Z.to_nat quota) (rotation c).
Proof.
  intros Hq. unfold kind_samples, SampleCachedEntitiesAfter, SampleCachedEntitiesThrough, rotation.
  rewrite !sample_rows_spec. rewrite (wrap32_id quota) by lia. set (A := filter (λ r, (c <? _) = true) _).
  set (B := filter (λ r, (_ <=? c) = true) _). rewrite length_take, take_app.
  destruct (0 <? _) eqn:E; to_props.
  - rewrite wrap32_id by lia. do 2 f_equal. lia.
  - replace (Z.to_nat quota - length A)%nat with 0%nat by lia. by rewrite take_0, app_nil_r.
Qed.

(** A strictly sorted list split at one of its elements. *)
Lemma split_at l1 x l2 : StronglySorted source_lt (l1 ++ x :: l2) →
  filter (λ r, (dr_SourceID x <? dr_SourceID r) = true) (l1 ++ x :: l2) = l2 ∧
  filter (λ r, (dr_SourceID r <=? dr_SourceID x) = true) (l1 ++ x :: l2) = l1 ++ [x].
Proof.
  intros Hs. assert (Hl1 : ∀ r, r ∈ l1 → dr_SourceID r < dr_SourceID x).
  { intros r Hr. induction l1 as [|a l1 IH]; [by apply elem_of_nil in Hr|]. cbn in Hs. apply StronglySorted_inv in Hs as [Hs Hall].
    apply elem_of_cons in Hr as [->|Hr]; [|by apply IH]. rewrite Forall_forall in Hall. apply Hall.
    apply elem_of_app. right. by left. }
  assert (Hl2 : ∀ r, r ∈ l2 → dr_SourceID x < dr_SourceID r).
  { clear Hl1. induction l1 as [|a l1 IH]; cbn in Hs; apply StronglySorted_inv in Hs as [Hs Hall]; [|by apply IH].
    intros r Hr. rewrite Forall_forall in Hall. by apply Hall. }
  rewrite !filter_app, !filter_cons. rewrite (decide_False (P := (dr_SourceID x <? dr_SourceID x) = true)) by lia.
  rewrite (decide_True (P := (dr_SourceID x <=? dr_SourceID x) = true)) by lia.
  split.
  - rewrite (filter_none _ l1), (filter_whole _ l2); [done|intros r Hr; specialize (Hl2 r Hr); lia|intros r Hr; specialize (Hl1 r Hr); lia].
  - rewrite (filter_whole _ l1), (filter_none _ l2); [done|intros r Hr; specialize (Hl2 r Hr); lia|intros r Hr; specialize (Hl1 r Hr); lia].
Qed.

Lemma rotation_length c : length (rotation c) = length (kind_rows kind view).
Proof.
  unfold rotation. rewrite length_app. induction (kind_rows kind view) as [|a l IH]; [done|]. rewrite !filter_cons.
  destruct (c <? dr_SourceID a) eqn:E1, (dr_SourceID a <=? c) eqn:E2; to_props; try lia;
    rewrite ?(decide_True (P := true = true)), ?(decide_False (P := false = true)) by done; cbn [length]; lia.
Qed.

Lemma rows_split c : kind_rows kind view =
  filter (λ r, (dr_SourceID r <=? c) = true) (kind_rows kind view) ++
  filter (λ r, (c <? dr_SourceID r) = true) (kind_rows kind view).
Proof.
  pose proof kind_rows_sorted as Hs. induction Hs as [|a l Hs IH Hall]; [done|]. rewrite !filter_cons.
  destruct (dr_SourceID a <=? c) eqn:E1, (c <? dr_SourceID a) eqn:E2; to_props; try lia;
    rewrite ?(decide_True (P := true = true)), ?(decide_False (P := false = true)) by done; cbn.
  - by rewrite <- IH.
  - rewrite Forall_forall in Hall. rewrite filter_none, filter_whole; [done|..];
      intros r Hr; specialize (Hall r Hr); unfold source_lt in Hall; lia.
Qed.

(** A pass that does not reach every row turns the rotation by its quota. *)
Lemma rotation_step quota c : 0 < quota < 2 ^ 31 → (Z.to_nat quota < length (kind_rows kind view))%nat →
  rotation (next_cursor c (kind_samples kind quota c view)) =
  drop (Z.to_nat quota) (rotation c) ++ take (Z.to_nat quota) (rotation c).
Proof.
  intros Hq Hn. rewrite kind_samples_rotation by done. set (q := Z.to_nat quota) in *.
  pose proof (rotation_length c) as Hlen. set (R := rotation c) in *.
  destruct (take q R) as [|x0 l0] eqn:Et using rev_ind.
  { apply (f_equal length) in Et. rewrite length_take in Et. cbn in Et. lia. }
  rename x0 into x, l0 into l. rewrite <- Et. unfold next_cursor. rewrite Et, last_snoc. cbn [fmap option_fmap option_map default from_option id].
  assert (HR : R = l ++ x :: drop q R).
  { rewrite <- (take_drop q R) at 1. rewrite Et, <- app_assoc. done. }
  set (D := drop q R) in *. clearbody D.
  pose proof (rows_split c) as Hrows. unfold R, rotation in HR. set (A := filter (λ r, (c <? _) = true) _) in *.
  set (B := filter (λ r, (_ <=? c) = true) _) in *. pose proof kind_rows_sorted as Hs. rewrite Hrows in Hs.
  unfold rotation at 1. rewrite Hrows.
  apply app_eq_inv in HR as [(k & HA & HB)|(k & HA & HB)].
  - destruct k as [|y k]; cbn in HB.
    + rewrite app_nil_r in HA. subst l. rewrite <- HB in Hs |- *.
      change ((x :: D) ++ A) with ([] ++ x :: (D ++ A)) in Hs |- *.
      destruct (split_at [] x (D ++ A)) as [-> ->]; [done|]. by rewrite <- !app_assoc.
    + injection HB as <- HB. rewrite HA in Hs |- *. rewrite app_assoc in Hs |- *.
      destruct (split_at (B ++ l) x k) as [-> ->]; [done|]. rewrite HB. by rewrite <- !app_assoc.
  - rewrite HB in Hs |- *. rewrite <- app_assoc in Hs |- *. cbn [app] in Hs |- *.
    destruct (split_at k x (D ++ A)) as [-> ->]; [done|]. rewrite HA, <- !app_assoc. done.
Qed.
End rotation.

(** The cursor of a kind after a number of passes over an unchanged view. *)
Fixpoint cursor_after (kind : string) (quota : Z) (view : list drift_row) (c : Z) (passes : nat) : Z :=
  match passes with
  | O => c
  | S passes => cursor_after kind quota view (next_cursor c (kind_samples kind quota c view)) passes
  end.

Lemma quota_positive sampleSize index : 6 ≤ sampleSize < 2 ^ 31 → 0 < kind_quota sampleSize index < 2 ^ 31.
Proof.
  intros Hs. unfold kind_quota. change (Z.of_nat (length driftEntityKinds)) with 6.
  rewrite Z.quot_div_nonneg by lia. assert (1 ≤ sampleSize `div` 6 ≤ sampleSize - 1).
  { split; [apply Z.div_le_lower_bound; lia|]. apply Z.lt_le_pred. apply Z.div_lt; lia. }
  case_if; lia.
Qed.

Lemma sampled_at kind view quota r : sources_unique kind view → 0 < quota < 2 ^ 31 → ∀ i c,
  rotation kind view c !! i = Some r →
  ∃ n, (n * Z.to_nat quota ≤ i)%nat ∧ r ∈ kind_samples kind quota (cursor_after kind quota view c n) view.
Proof.
  intros Hu Hq i. induction (lt_wf i) as [i _ IH]. intros c Hi. destruct (decide (i < Z.to_nat quota)%nat) as [Hlt|Hge].
  - exists 0%nat. split; [lia|]. cbn. rewrite kind_samples_rotation by done. apply (list_elem_of_lookup_2 _ i).
    by rewrite lookup_take_lt.
  - pose proof (lookup_lt_Some _ _ _ Hi) as Hlen. rewrite rotation_length in Hlen.
    destruct (IH (i - Z.to_nat quota)%nat) with (c := next_cursor c (kind_samples kind quota c view)) as (n & Hn & Hin); [lia| |].
    { rewrite rotation_step by (done || lia). rewrite lookup_app_l by (rewrite length_drop, rotation_length; lia).
      rewrite lookup_drop. by replace (Z.to_nat quota + (i - Z.to_nat quota))%nat with i by lia. }
    exists (S n). split; [lia|done].
Qed.


(** ** Findings *)

Record finding : Type := mkFinding {
  fd_InstallationID : Z;
  fd_EntityKind : string;
  fd_EntityKey : string;
  fd_DetectedAt : time;
  fd_CacheSnapshot : json;
  fd_UpstreamSnapshot : json;
  fd_Diff : json;
  fd_RefreshEnqueuedAt : time;
  fd_DiffHash : string;
  fd_FirstSeenAt : time;
  fd_LastSeenAt : time;
  fd_OccurrenceCount : Z;
  fd_HealGeneration : Z;
  fd_EscalatedAt : option time;
  fd_ResolvedAt : option time
}.

(** [drift_findings] with the last value of its sequence. *)
Record findings : Type := mkFindings {
  ft_rows : gmap Z finding;
  ft_seq : Z
}.

(** The open finding of an entity with this difference; the unique index
    [drift_findings_one_open_diff_idx] allows one. *)
Definition open_for (inst : Z) (kind key hash : string) (f : finding) : Prop :=
  fd_InstallationID f = inst ∧ fd_EntityKind f = kind ∧ fd_EntityKey f = key ∧ fd_DiffHash f = hash ∧
  fd_ResolvedAt f = None.
#[export] Instance open_for_dec inst kind key hash f : Decision (open_for inst kind key hash f).
Proof. unfold open_for. apply _. Defined.

Definition GetOpenDriftFindingByHash (inst : Z) (kind key hash : string) (t : findings) : option (Z * finding) :=
  list.head (map_to_list (filter (λ e, open_for inst kind key hash e.2) (ft_rows t))).

Definition InsertDriftFinding (inst : Z) (kind key : string) (at_ : time) (cache upstream diff : json) (hash : string)
    (t : findings) : Z * findings :=
  let id := ft_seq t + 1 in
  (id, mkFindings (<[id := mkFinding inst kind key at_ cache upstream diff at_ hash at_ at_ 1 0 None None]> (ft_rows t)) id).

Definition SetDriftFindingHealGeneration (g : Z) (id : Z) (t : findings) : option findings :=
  match ft_rows t !! id with
  | Some f => Some (mkFindings (<[id := mkFinding (fd_InstallationID f) (fd_EntityKind f) (fd_EntityKey f) (fd_DetectedAt f)
        (fd_CacheSnapshot f) (fd_UpstreamSnapshot f) (fd_Diff f) (fd_RefreshEnqueuedAt f) (fd_DiffHash f) (fd_FirstSeenAt f)
        (fd_LastSeenAt f) (fd_OccurrenceCount f) g (fd_EscalatedAt f) (fd_ResolvedAt f)]> (ft_rows t)) (ft_seq t))
  | None => None
  end.

(** The columns both sightings of an open finding write. *)
Definition sighted (now : time) (cache upstream diff : json) (count : Z) (escalated : option time) (f : finding) : finding :=
  mkFinding (fd_InstallationID f) (fd_EntityKind f) (fd_EntityKey f) (fd_DetectedAt f) cache upstream diff
    (fd_RefreshEnqueuedAt f) (fd_DiffHash f) (fd_FirstSeenAt f) now count (fd_HealGeneration f) escalated (fd_ResolvedAt f).

Definition TouchOpenDriftFinding (now : time) (cache upstream diff : json) (id : Z) (t : findings) : option findings :=
  match ft_rows t !! id with
  | Some f =>
      if bool_decide (fd_ResolvedAt f = None)
      then Some (mkFindings (<[id := sighted now cache upstream diff (fd_OccurrenceCount f) (fd_EscalatedAt f) f]> (ft_rows t))
                   (ft_seq t))
      else None
  | None => None
  end.

Definition EscalateOpenDriftFinding (now : time) (cache upstream diff : json) (id : Z) (t : findings) : option findings :=
  match ft_rows t !! id with
  | Some f =>
      if bool_decide (fd_ResolvedAt f = None)
      then Some (mkFindings (<[id := sighted now cache upstream diff (fd_OccurrenceCount f + 1)
                                       match fd_EscalatedAt f with Some t => Some t | None => Some now end f]> (ft_rows t))
                   (ft_seq t))
      else None
  | None => None
  end.

Definition resolve_finding (now : time) (inst : Z) (kind key : string) (f : finding) : finding :=
  if bool_decide (fd_InstallationID f = inst ∧ fd_EntityKind f = kind ∧ fd_EntityKey f = key ∧ fd_ResolvedAt f = None) then
    mkFinding (fd_InstallationID f) (fd_EntityKind f) (fd_EntityKey f) (fd_DetectedAt f) (fd_CacheSnapshot f)
      (fd_UpstreamSnapshot f) (fd_Diff f) (fd_RefreshEnqueuedAt f) (fd_DiffHash f) (fd_FirstSeenAt f) now
      (fd_OccurrenceCount f) (fd_HealGeneration f) (fd_EscalatedAt f) (Some now)
  else f.

Definition ResolveOpenDriftFindings (now : time) (inst : Z) (kind key : string) (t : findings) : findings :=
  mkFindings (resolve_finding now inst kind key <$> ft_rows t) (ft_seq t).

(** The oldest resolved findings before the cutoff; [locked] rows are skipped. *)
Definition resolved_before (a b : time * Z) : Prop := a.1 < b.1 ∨ a.1 = b.1 ∧ a.2 ≤ b.2.
#[export] Instance resolved_before_dec : RelDecision resolved_before := λ a b, decide (_ ∨ _).

Definition PruneResolvedDriftFindingBatch (cutoff : time) (batchSize : Z) (locked : Z → bool) (t : findings) : findings :=
  let candidates := omap (λ e : Z * finding, match fd_ResolvedAt e.2 with
                                  | Some at_ => if (at_ <? cutoff) && negb (locked e.1) then Some (at_, e.1) else None
                                  | None => None
                                  end) (map_to_list (ft_rows t)) in
  let doomed := map snd (take (Z.to_nat (wrap32 batchSize)) (merge_sort resolved_before candidates)) in
  mkFindings (filter (λ e, e.1 ∉ doomed) (ft_rows t)) (ft_seq t).

Section heal.
Context `{R : River}.

(** [recordAndHealTx] of a service whose River client is set: the finding, whether it is
    new, whether it has just been escalated, and the tables. *)
Definition recordAndHealTx (now ev : time) (inst : Z) (md5 : json → string) (kind key : string) (cache upstream diff : json)
    (s : RefreshSpec) (t : findings) (q : RefreshQueue.tables)
    : result drift_error (Z * bool * bool * findings * RefreshQueue.tables) :=
  let hash := md5 diff in
  match GetOpenDriftFindingByHash inst kind key hash t with
  | Some (id, f) =>
      let escalated := (0 <? fd_HealGeneration f) && (fd_HealGeneration f <=? completed (gens q) (spec_identity s))
                       && bool_decide (fd_EscalatedAt f = None) in
      match (if escalated then EscalateOpenDriftFinding else TouchOpenDriftFinding) now cache upstream diff id t with
      | Some t => Ok (id, false, escalated, t, q)
      | None => Err FindingLost
      end
  | None =>
      let '(id, t) := InsertDriftFinding inst kind key now cache upstream diff hash t in
      match InsertRefreshesTxReturning now ev [s] "sweep" q with
      | Err e => Err (HealNotEnqueued e)
      | Ok ([g], q) =>
          match SetDriftFindingHealGeneration (rg_Generation g) id t with
          | Some t => Ok (id, true, false, t, q)
          | None => Err FindingLost
          end
      | Ok _ => Err NotEnqueuedOnce
      end
  end.

(** ** Inspecting a sample *)

(** What became of a sample. *)
Inductive inspection : Type :=
  | SampleSkipped
  | SampleGone
  | SampleEqual
  | SampleRecorded (id : Z) (first escalated : bool).

(** [HasOutstandingRefresh]; [job] is whether a live River job has this key. *)
Definition HasOutstandingRefresh (key : string) (g : generations) (job : bool) : bool :=
  existsb (λ e, bool_decide (e.1.2 = key) && (completed_generation e.2 <? generation e.2)) (map_to_list g) || job.

(** What a sample's inspection reads: the queue before the fetch; the writer, the view and
    the queue once the observation has begun; the writer when its transaction starts. *)
Record moments : Type := mkMoments {
  mo_before : generations * bool;
  mo_observed : writer_state;
  mo_view : list drift_row;
  mo_rechecked : generations * bool;
  mo_commit : writer_state
}.

Definition GetCachedEntitySnapshot (kind key : string) (view : list drift_row) : option drift_row :=
  list.head (filter (λ r, dr_EntityKind r = kind ∧ dr_EntityKey r = key) view).

Definition same_check (a b : option time) : bool :=
  match a, b with
  | Some x, Some y => x =? y
  | _, _ => false
  end.

Definition inspectSample (format_time : time → string) (format_number : float64 → string) (md5 : json → string)
    (now ev : time) (inst : Z) (inputs : upstream_inputs) (m : moments) (sample : drift_row)
    (t : findings) (q : RefreshQueue.tables)
    : result drift_error inspection * findings * RefreshQueue.tables :=
  match refreshSpecForEntity (dr_EntityKind sample) (dr_EntityKey sample) with
  | Err e => (Err e, t, q)
  | Ok s =>
      if HasOutstandingRefresh (sp_Key s) (mo_before m).1 (mo_before m).2 then (Ok SampleSkipped, t, q)
      else match fullFetch format_time inputs (dr_EntityKind sample) (dr_EntityKey sample) with
      | Err e => (Err e, t, q)
      | Ok (upstream, s) =>
          match BeginObservation (dr_LockKey sample) (mo_observed m) with
          | Err _ => (Err DriftNotObserved, t, q)
          | Ok o =>
              match GetCachedEntitySnapshot (dr_EntityKind sample) (dr_EntityKey sample) (mo_view m) with
              | None => (Ok SampleGone, t, q)
              | Some current =>
                  if negb (same_check (dr_LastCheckedAt sample) (dr_LastCheckedAt current)) then (Ok SampleSkipped, t, q)
                  else if HasOutstandingRefresh (sp_Key s) (mo_rechecked m).1 (mo_rechecked m).2 then (Ok SampleSkipped, t, q)
                  else
                    let '(equal, diff) := semanticDiff format_number (dr_EntityKind current) (dr_CacheSnapshot current) upstream in
                    match verifyObservationVersion o (mo_commit m) with
                    | Err ErrObservationSuperseded => (Ok SampleSkipped, t, q)
                    | Err _ => (Err DriftNotObserved, t, q)
                    | Ok _ =>
                        if equal then
                          (Ok SampleEqual, ResolveOpenDriftFindings now inst (dr_EntityKind current) (dr_EntityKey current) t, q)
                        else match recordAndHealTx now ev inst md5 (dr_EntityKind current) (dr_EntityKey current)
                                     (dr_CacheSnapshot current) upstream diff s t q with
                             | Ok (id, first, escalated, t, q) => (Ok (SampleRecorded id first escalated), t, q)
                             | Err e => (Err e, t, q)
                             end
                    end
              end
          end
      end
  end.

(** ** The detector pass *)

Record detect_config : Type := mkDetectConfig {
  dc_InstallationID : Z;
  dc_Period : duration;
  dc_SampleSize : Z;
  dc_PageSize : Z;
  dc_ResolvedRetention : duration;
  dc_RetentionBatchSize : Z
}.

(** The checks of [New] on a configuration; the clients and the defaults are given. *)
Definition New (c : detect_config) : option detect_config :=
  if (dc_InstallationID c <=? 0) || (dc_Period c <=? 0) || (dc_SampleSize c <? Z.of_nat (length driftEntityKinds))
     || (dc_PageSize c <=? 0) || (100 <? dc_PageSize c) || (dc_ResolvedRetention c <=? 0) || (dc_RetentionBatchSize c <=? 0)
  then None else Some c.

Record DetectArgs : Type := mkDetectArgs {
  da_InstallationID : Z;
  da_SampleSize : Z
}.

(** What the periodic job of a service carries. *)
Definition PeriodicJobs (c : detect_config) : DetectArgs := mkDetectArgs (dc_InstallationID c) (dc_SampleSize c).

(** The tables a pass writes. *)
Record drift_db : Type := mkDriftDb {
  dd_findings : findings;
  dd_queue : RefreshQueue.tables;
  dd_cursors : gmap (Z * string) Z;
  dd_heartbeats : heartbeats
}.

(** A [SELECT] without a row leaves the variable at zero. *)
Definition GetDriftSampleCursor (inst : Z) (kind : string) (m : gmap (Z * string) Z) : Z := default 0 (m !! (inst, kind)).

Definition UpsertDriftSampleCursor (inst : Z) (kind : string) (source : Z) (m : gmap (Z * string) Z) : gmap (Z * string) Z :=
  <[(inst, kind) := source]> m.

(** What a pass meets: the rows each kind's statements see; for the sample at a position of
    a kind, what GitHub answers and what its inspection reads; the clocks; the rows another
    prune has locked. *)
Record pass_env : Type := mkPassEnv {
  pe_now : time;
  pe_event : time;
  pe_views : string → list drift_row;
  pe_inputs : string → nat → upstream_inputs;
  pe_moments : string → nat → moments;
  pe_locked : Z → bool
}.

(** What a pass has counted and found. *)
Record pass_counts : Type := mkCounts {
  pc_inspected : Z;
  pc_skipped : Z;
  pc_findings : list Z
}.

Definition count_inspection (r : inspection) (c : pass_counts) : pass_counts :=
  match r with
  | SampleSkipped => mkCounts (pc_inspected c) (pc_skipped c + 1) (pc_findings c)
  | SampleGone | SampleEqual => mkCounts (pc_inspected c + 1) (pc_skipped c) (pc_findings c)
  | SampleRecorded id _ _ => mkCounts (pc_inspected c + 1) (pc_skipped c) (pc_findings c ++ [id])
  end.

Context (format_time : time → string) (format_number : float64 → string) (md5 : json → string).

(** The samples of a kind one after the other; an error ends the pass, with what was
    committed before it. *)
Fixpoint inspect_samples (env : pass_env) (inst : Z) (kind : string) (index : nat) (samples : list drift_row)
    (c : pass_counts) (d : drift_db) : result drift_error pass_counts * drift_db :=
  match samples with
  | [] => (Ok c, d)
  | sample :: samples =>
      match inspectSample format_time format_number md5 (pe_now env) (pe_event env) inst (pe_inputs env kind index)
              (pe_moments env kind index) sample (dd_findings d) (dd_queue d) with
      | (r, t, q) =>
          let d := mkDriftDb t q (dd_cursors d) (dd_heartbeats d) in
          match r with
          | Err e => (Err e, d)
          | Ok r => inspect_samples env inst kind (S index) samples (count_inspection r c) d
          end
      end
  end.

(** The samples a pass takes of the kind at [index]. *)
Definition pass_samples (env : pass_env) (args : DetectArgs) (index : nat) (kind : string) (d : drift_db) : list drift_row :=
  kind_samples kind (kind_quota (da_SampleSize args) index) (GetDriftSampleCursor (da_InstallationID args) kind (dd_cursors d))
    (pe_views env kind).

Fixpoint detect_kinds (env : pass_env) (args : DetectArgs) (index : nat) (kinds : list string)
    (c : pass_counts) (d : drift_db) : result drift_error pass_counts * drift_db :=
  match kinds with
  | [] => (Ok c, d)
  | kind :: kinds =>
      let samples := pass_samples env args index kind d in
      match inspect_samples env (da_InstallationID args) kind 0 samples c d with
      | (Err e, d) => (Err e, d)
      | (Ok c, d) =>
          let d := match last samples with
                   | Some r => mkDriftDb (dd_findings d) (dd_queue d)
                                 (UpsertDriftSampleCursor (da_InstallationID args) kind (dr_SourceID r) (dd_cursors d))
                                 (dd_heartbeats d)
                   | None => d
                   end in
          detect_kinds env args (S index) kinds c d
      end
  end.

Definition beat (now : time) (inst : Z) (operation : string) (samples : Z) (d : drift_db) : result drift_error unit * drift_db :=
  match RecordSuccessN now inst "drift" operation samples (dd_heartbeats d) with
  | Some h => (Ok tt, mkDriftDb (dd_findings d) (dd_queue d) (dd_cursors d) h)
  | None => (Err HeartbeatRefused, d)
  end.

Definition Detect (cfg : detect_config) (env : pass_env) (backfill : backfill_tables) (args : DetectArgs) (d : drift_db)
    : result drift_error (list Z) * drift_db :=
  if negb (da_InstallationID args =? dc_InstallationID cfg) then (Ok [], d)
  else if da_SampleSize args <? Z.of_nat (length driftEntityKinds) then (Err SampleTooSmall, d)
  else if negb (IsInstallationBackfillDone (da_InstallationID args) backfill) then
    match beat (pe_now env) (da_InstallationID args) "detector_skipped" 1 d with
    | (Ok _, d) => (Ok [], d)
    | (Err e, d) => (Err e, d)
    end
  else match detect_kinds env args 0 driftEntityKinds (mkCounts 0 0 []) d with
  | (Err e, d) => (Err e, d)
  | (Ok c, d) =>
      let d := mkDriftDb (PruneResolvedDriftFindingBatch (pe_now env - dc_ResolvedRetention cfg) (dc_RetentionBatchSize cfg)
                            (pe_locked env) (dd_findings d))
                 (dd_queue d) (dd_cursors d) (dd_heartbeats d) in
      match beat (pe_now env) (da_InstallationID args) "detector" (pc_inspected c) d with
      | (Err e, d) => (Err e, d)
      | (Ok _, d) =>
          if 0 <? pc_skipped c then
            match beat (pe_now env) (da_InstallationID args) "detector_skipped" (pc_skipped c) d with
            | (Ok _, d) => (Ok (pc_findings c), d)
            | (Err e, d) => (Err e, d)
            end
          else (Ok (pc_findings c), d)
      end
  end.

Lemma inspect_samples_cursors env inst kind samples : ∀ index c d c' d',
  inspect_samples env inst kind index samples c d = (c', d') → dd_cursors d' = dd_cursors d.
Proof.
  induction samples as [|r samples IH]; intros index c d c' d'; cbn; [by intros [= _ <-]|].
  destruct (inspectSample _ _ _ _ _ _ _ _ _ _ _) as [[[x|e] t] q]; [|by intros [= _ <-]]. by intros ->%IH.
Qed.

Lemma beat_cursors now inst op n d r d' : beat now inst op n d = (r, d') → dd_cursors d' = dd_cursors d.
Proof. unfold beat. destruct (RecordSuccessN _ _ _ _ _ _); by intros [= _ <-]. Qed.

Lemma detect_kinds_cursors env args kinds : NoDup kinds → ∀ start c d c' d',
  detect_kinds env args start kinds c d = (Ok c', d') →
  (∀ kind, kind ∉ kinds → dd_cursors d' !! (da_InstallationID args, kind) = dd_cursors d !! (da_InstallationID args, kind)) ∧
  (∀ i kind, kinds !! i = Some kind →
     GetDriftSampleCursor (da_InstallationID args) kind (dd_cursors d') =
     next_cursor (GetDriftSampleCursor (da_InstallationID args) kind (dd_cursors d)) (pass_samples env args (start + i) kind d)).
Proof.
  induction kinds as [|k kinds IH]; intros Hnd start c d c' d'; cbn [detect_kinds].
  { intros [= _ <-]. split; [done|]. intros i kind. by rewrite lookup_nil. }
  apply NoDup_cons in Hnd as [Hk Hnd]. destruct (inspect_samples _ _ _ _ _ _ _) as [[c1|] d1] eqn:E; [|done].
  apply inspect_samples_cursors in E. intros Hrest. apply (IH Hnd) in Hrest as [Hout Hin].
  set (samples := pass_samples env args start k d) in *. set (d2 := match last samples with Some _ => _ | None => _ end) in *.
  assert (Hne : ∀ kind, kind ≠ k → dd_cursors d2 !! (da_InstallationID args, kind) = dd_cursors d !! (da_InstallationID args, kind)).
  { intros kind Hkind. subst d2. destruct (last samples); cbn; rewrite E; [|done]. apply lookup_insert_ne. congruence. }
  split.
  - intros kind [Hkk Hks]%not_elem_of_cons. by rewrite Hout, Hne.
  - intros [|i] kind; cbn [lookup list_lookup].
    + intros [= <-]. unfold GetDriftSampleCursor at 1. rewrite Hout, Nat.add_0_r by done. fold samples. unfold next_cursor. subst d2.
      destruct (last samples) as [r|]; cbn; rewrite E; [|done]. unfold UpsertDriftSampleCursor. by rewrite lookup_insert_eq.
    + intros Hi. rewrite (Hin i kind Hi). assert (Hkk : kind ≠ k) by (intros ->; by apply Hk, (list_elem_of_lookup_2 _ i)).
      unfold pass_samples, GetDriftSampleCursor. rewrite (Hne kind Hkk). by rewrite Nat.add_succ_r.
Qed.

(** A pass that returns moves the cursor of every kind as [sampling_covers] counts. *)
Theorem pass_advances_cursors cfg env backfill args d out d' index kind :
  Detect cfg env backfill args d = (Ok out, d') → da_InstallationID args = dc_InstallationID cfg →
  IsInstallationBackfillDone (da_InstallationID args) backfill = true → driftEntityKinds !! index = Some kind →
  GetDriftSampleCursor (da_InstallationID args) kind (dd_cursors d') =
  cursor_after kind (kind_quota (da_SampleSize args) index) (pe_views env kind)
    (GetDriftSampleCursor (da_InstallationID args) kind (dd_cursors d)) 1.
Proof.
  unfold Detect. intros Hd Ha Hb Hi. rewrite (proj2 (Z.eqb_eq _ _) Ha), Hb in Hd. cbn [negb] in Hd.
  destruct (da_SampleSize args <? _); [done|]. destruct (detect_kinds _ _ _ _ _ _) as [[c|] d1] eqn:E; [|done].
  apply detect_kinds_cursors in E as [_ Hin]; [|unfold driftEntityKinds; by repeat constructor; set_solver].
  specialize (Hin index kind Hi). change (0 + index)%nat with index in Hin.
  destruct (beat _ _ "detector" _ _) as [[u|] d2] eqn:E2; [|done]. apply beat_cursors in E2. cbn in E2.
  assert (Hc : dd_cursors d' = dd_cursors d1).
  { destruct (0 <? pc_skipped c).
    - destruct (beat _ _ "detector_skipped" _ _) as [[v|] d3] eqn:E3; [|done]. injection Hd as _ <-. apply beat_cursors in E3. congruence.
    - injection Hd as _ <-. done. }
  rewrite Hc. exact Hin.
Qed.
End heal.

(** ** The life of a finding *)

Section lifecycle.
Context `{R : River} `{RL : !RiverLaws R}.
Context (format_time : time → string) (format_number : float64 → string) (md5 : json → string).

(** The findings and the refresh queue, with the findings the observer was told of and
    those it was told persist. *)
Record drift_sys : Type := mkDriftSys {
  ds_findings : findings;
  ds_queue : queue_state;
  ds_diverged : list Z;
  ds_persistent : list Z
}.

(** The refresh queue after a sample: the identity of a new finding has a pointer again. *)
Definition healed_queue (sample : drift_row) (r : inspection) (d : RefreshQueue.tables) (st : queue_state) : queue_state :=
  match r, refreshSpecForEntity (dr_EntityKind sample) (dr_EntityKey sample) with
  | SampleRecorded _ true _, Ok s => serve [spec_identity s] d st
  | _, _ => set_db d st
  end.

(** The end of [inspectSample]: the observer's calls. *)
Definition notify (sample : drift_row) (r : inspection) (t : findings) (d : RefreshQueue.tables) (s : drift_sys) : drift_sys :=
  let q := healed_queue sample r d (ds_queue s) in
  match r with
  | SampleRecorded id first escalated =>
      mkDriftSys t q (if first then id :: ds_diverged s else ds_diverged s)
        (if escalated then id :: ds_persistent s else ds_persistent s)
  | _ => mkDriftSys t q (ds_diverged s) (ds_persistent s)
  end.

(** The inspection of a sample, a prune, or a move of the refresh queue. *)
Inductive drift_step : drift_sys → drift_sys → Prop :=
  | step_inspect s now ev inst inputs m sample r t d :
      inspectSample format_time format_number md5 now ev inst inputs m sample (ds_findings s) (db (ds_queue s)) = (Ok r, t, d) →
      drift_step s (notify sample r t d s)
  | step_prune s cutoff size locked :
      drift_step s (mkDriftSys (PruneResolvedDriftFindingBatch cutoff size locked (ds_findings s)) (ds_queue s)
                      (ds_diverged s) (ds_persistent s))
  | step_heal_queue s q :
      queue_step (ds_queue s) q → drift_step s (mkDriftSys (ds_findings s) q (ds_diverged s) (ds_persistent s)).

Definition drift_initial (s : drift_sys) : Prop :=
  ds_findings s = mkFindings ∅ 0 ∧ queue_reachable (ds_queue s) ∧ ds_diverged s = [] ∧ ds_persistent s = [].

Lemma full_fetch_spec inputs kind key v s :
  fullFetch format_time inputs kind key = Ok (v, s) → refreshSpecForEntity kind key = Ok s.
Proof.
  unfold fullFetch, refreshSpecForEntity, fetch_repository, fetch_pull, fetch_stack, fetch_rules, fetch_threads, fetch_checks. repeat case_bool_decide; try done.
  - intros (? & _ & (? & _ & (? & _ & [= _ <-])%bind_ok)%bind_ok)%bind_ok. done.
  - intros ([] & _ & (? & _ & (? & _ & [= _ <-])%bind_ok)%bind_ok)%bind_ok. done.
  - intros ([] & _ & (? & _ & (? & _ & [= _ <-])%bind_ok)%bind_ok)%bind_ok. done.
  - intros (? & _ & (? & _ & (? & _ & [= _ <-])%bind_ok)%bind_ok)%bind_ok. done.
  - intros ([] & Hn & (? & _ & (? & _ & [= _ <-])%bind_ok)%bind_ok)%bind_ok. by rewrite Hn.
  - intros ([] & _ & (? & _ & (? & _ & [= _ <-])%bind_ok)%bind_ok)%bind_ok. done.
Qed.

Lemma current_same kind key view current :
  GetCachedEntitySnapshot kind key view = Some current → dr_EntityKind current = kind ∧ dr_EntityKey current = key.
Proof.
  unfold GetCachedEntitySnapshot. destruct (filter _ view) as [|r l] eqn:E; [done|]. intros [= ->].
  assert (Hin : current ∈ filter (λ r, dr_EntityKind r = kind ∧ dr_EntityKey r = key) view) by (rewrite E; by left).
  by apply list_elem_of_filter in Hin as [? _].
Qed.

(** What an inspection does to the tables. *)
Lemma inspect_cases now ev inst inputs m sample t q r t' q' :
  inspectSample format_time format_number md5 now ev inst inputs m sample t q = (Ok r, t', q') →
  let kind := dr_EntityKind sample in let key := dr_EntityKey sample in
  match r with
  | SampleSkipped | SampleGone => t' = t ∧ q' = q
  | SampleEqual => t' = ResolveOpenDriftFindings now inst kind key t ∧ q' = q
  | SampleRecorded id first escalated =>
      ∃ s cache upstream diff, refreshSpecForEntity kind key = Ok s ∧
        recordAndHealTx now ev inst md5 kind key cache upstream diff s t q = Ok (id, first, escalated, t', q')
  end.
Proof.
  unfold inspectSample. destruct (refreshSpecForEntity _ _) as [s0|] eqn:Hs0; [|done].
  destruct (HasOutstandingRefresh _ _ _); [by intros [= <- <- <-]|].
  destruct (fullFetch _ _ _ _) as [[up s]|] eqn:Hf; [|done]. apply full_fetch_spec in Hf.
  assert (s = s0) as -> by congruence. destruct (BeginObservation _ _) as [o|]; [|done].
  destruct (GetCachedEntitySnapshot _ _ _) as [cur|] eqn:Hc; [|by intros [= <- <- <-]]. apply current_same in Hc as [-> ->].
  destruct (negb _); [by intros [= <- <- <-]|]. destruct (HasOutstandingRefresh _ _ _); [by intros [= <- <- <-]|].
  destruct (semanticDiff _ _ _ _) as [equal diff]. destruct (verifyObservationVersion _ _) as [u|[]]; try done; [|by intros [= <- <- <-]].
  destruct equal; [by intros [= <- <- <-]|]. destruct (recordAndHealTx _ _ _ _ _ _ _ _ _ _ _ _) as [[[[[id fi] es] t1] q1]|] eqn:Hr; [|done].
  intros [= <- <- <-]. exists s0. eauto.
Qed.

Lemma open_found inst kind key hash t id f :
  GetOpenDriftFindingByHash inst kind key hash t = Some (id, f) → ft_rows t !! id = Some f ∧ open_for inst kind key hash f.
Proof.
  unfold GetOpenDriftFindingByHash. destruct (map_to_list _) as [|x l] eqn:E; [done|]. intros [= ->].
  assert (Hin : (id, f) ∈ map_to_list (filter (λ e : Z * finding, open_for inst kind key hash e.2) (ft_rows t))) by (rewrite E; by left).
  apply elem_of_map_to_list, map_lookup_filter_Some in Hin. done.
Qed.

Lemma none_open inst kind key hash t : GetOpenDriftFindingByHash inst kind key hash t = None →
  ∀ id f, ft_rows t !! id = Some f → ¬ open_for inst kind key hash f.
Proof.
  unfold GetOpenDriftFindingByHash. destruct (map_to_list _) as [|x l] eqn:E; [|done]. intros _ id f Hf Ho.
  apply map_to_list_empty_iff in E. assert (Hin : filter (λ e : Z * finding, open_for inst kind key hash e.2) (ft_rows t) !! id = Some f)
    by (by apply map_lookup_filter_Some). by rewrite E, lookup_empty in Hin.
Qed.

(** The healing refresh of one entity. *)
Lemma heal_effect now ev s q g q' :
  InsertRefreshesTxReturning now ev [s] "sweep" q = Ok ([g], q') →
  rg_Generation g = current_generation (gens q') (spec_identity s) ∧
  current_generation (gens q) (spec_identity s) < current_generation (gens q') (spec_identity s) ∧
  gens_le (gens q) (gens q').
Proof.
  intros (_ & Hids & _ & _ & Hgen & Hc & Hg & _)%insert_refreshes_effect.
  assert (spec_identity (rg_Spec g) = spec_identity s) as He.
  { apply list_elem_of_singleton. change [spec_identity s] with (map spec_identity [s]). apply Hids. by left. }
  split_and!.
  - rewrite <- He. apply Hgen. by left.
  - rewrite Hg, decide_True; [lia|]. apply Hids. by left.
  - intros i. rewrite Hc, Hg. case_decide; lia.
Qed.

(** What a sighting does: an open finding with the same difference is seen again, and
    escalated once its refresh has completed; otherwise a finding is opened and healed. *)
Lemma record_cases now ev inst kind key cache upstream diff s t q id first escalated t' q' :
  recordAndHealTx now ev inst md5 kind key cache upstream diff s t q = Ok (id, first, escalated, t', q') →
  (∃ f, first = false ∧ q' = q ∧ ft_rows t !! id = Some f ∧ fd_ResolvedAt f = None ∧ ft_seq t' = ft_seq t ∧
     fd_EntityKind f = kind ∧ fd_EntityKey f = key ∧
     (if escalated then fd_HealGeneration f ≤ completed (gens q) (spec_identity s) ∧ fd_EscalatedAt f = None else True) ∧
     ft_rows t' = <[id := sighted now cache upstream diff (fd_OccurrenceCount f + if escalated then 1 else 0)
                            (if escalated then Some now else fd_EscalatedAt f) f]> (ft_rows t)) ∨
  (∃ g, first = true ∧ escalated = false ∧ id = ft_seq t + 1 ∧ ft_seq t' = id ∧
     (∀ id f, ft_rows t !! id = Some f → ¬ open_for inst kind key (md5 diff) f) ∧
     InsertRefreshesTxReturning now ev [s] "sweep" q = Ok ([g], q') ∧
     ft_rows t' = <[id := mkFinding inst kind key now cache upstream diff now (md5 diff) now now 1 (rg_Generation g) None None]>
                    (ft_rows t)).
Proof.
  unfold recordAndHealTx. destruct (GetOpenDriftFindingByHash _ _ _ _ _) as [[id0 f]|] eqn:Ho.
  - apply open_found in Ho as (Hf & Ho). destruct Ho as (_ & Hkind & Hkey & _ & Hr).
    set (esc := (_ && _ && _)). intros H. left. exists f.
    assert (Hesc : if esc then fd_HealGeneration f ≤ completed (gens q) (spec_identity s) ∧ fd_EscalatedAt f = None else True).
    { destruct esc eqn:E; [|done]. subst esc. to_props. split; [lia|done]. }
    destruct esc; unfold EscalateOpenDriftFinding, TouchOpenDriftFinding in H; rewrite Hf, bool_decide_true in H by done;
      injection H as <- <- <- <- <-; cbn; [destruct Hesc as [? Hn]; rewrite Hn|rewrite Z.add_0_r]; auto 12.
  - unfold InsertDriftFinding. cbn beta iota zeta. destruct (InsertRefreshesTxReturning _ _ _ _ _) as [[[|g [|]] q1]|] eqn:Hi; try done.
    unfold SetDriftFindingHealGeneration. cbn. rewrite lookup_insert_eq. intros [= <- <- <- <- <-]. right. exists g. cbn.
    rewrite insert_insert_eq. split_and!; try done. by apply none_open.
Qed.

(** What holds of a stored finding, with the generations and the observer's calls. *)
Record finding_ok (g : generations) (diverged persistent : list Z) (id : Z) (f : finding) : Prop := {
  fo_spec : ∃ s, refreshSpecForEntity (fd_EntityKind f) (fd_EntityKey f) = Ok s ∧
    0 < fd_HealGeneration f ≤ current_generation g (spec_identity s) ∧
    (fd_EscalatedAt f ≠ None → fd_HealGeneration f ≤ completed g (spec_identity s));
  fo_diverged : id ∈ diverged;
  fo_persistent : fd_EscalatedAt f ≠ None ↔ id ∈ persistent;
  fo_count : fd_OccurrenceCount f = if fd_EscalatedAt f is Some _ then 2 else 1
}.

(** Two findings with the same key of the index on open findings. *)
Definition same_index (f f' : finding) : Prop :=
  open_for (fd_InstallationID f) (fd_EntityKind f) (fd_EntityKey f) (fd_DiffHash f) f'.

Record drift_inv (s : drift_sys) : Prop := {
  di_queue : queue_inv (ds_queue s);
  di_rows : ∀ id f, ft_rows (ds_findings s) !! id = Some f →
    finding_ok (gens (db (ds_queue s))) (ds_diverged s) (ds_persistent s) id f;
  di_open : ∀ id f id' f', ft_rows (ds_findings s) !! id = Some f → ft_rows (ds_findings s) !! id' = Some f' →
    fd_ResolvedAt f = None → same_index f f' → id' = id;
  di_once : NoDup (ds_diverged s) ∧ NoDup (ds_persistent s);
  di_bound : ∀ id, id ∈ ds_diverged s → id ≤ ft_seq (ds_findings s);
  di_told : ∀ id, id ∈ ds_persistent s → id ∈ ds_diverged s
}.

(** A finding that a step leaves, touches or resolves. *)
Definition carried (f f' : finding) : Prop :=
  fd_InstallationID f' = fd_InstallationID f ∧ fd_EntityKind f' = fd_EntityKind f ∧ fd_EntityKey f' = fd_EntityKey f ∧
  fd_DiffHash f' = fd_DiffHash f ∧ fd_HealGeneration f' = fd_HealGeneration f ∧ fd_EscalatedAt f' = fd_EscalatedAt f ∧
  fd_OccurrenceCount f' = fd_OccurrenceCount f ∧ (fd_ResolvedAt f' = None → fd_ResolvedAt f = None).

Lemma carried_ok g g' dv ps id f f' : gens_le g g' → carried f f' → finding_ok g dv ps id f → finding_ok g' dv ps id f'.
Proof.
  intros Hle (_ & Hk & Hy & _ & Hh & He & Hc & _) [(s & Hs & Hg & Hcm) Hd Hp Ho]. split; rewrite ?Hk, ?Hy, ?Hh, ?He, ?Hc; [|done..].
  exists s. destruct (Hle (spec_identity s)). split_and!; [done|lia..|]. intros Hx. specialize (Hcm Hx). lia.
Qed.

(** A step that only leaves, touches, resolves or deletes findings. *)
Lemma inv_carried s t q : drift_inv s → ft_seq t = ft_seq (ds_findings s) →
  (∀ id f', ft_rows t !! id = Some f' → ∃ f, ft_rows (ds_findings s) !! id = Some f ∧ carried f f') →
  queue_inv q → gens_le (gens (db (ds_queue s))) (gens (db q)) → drift_inv (mkDriftSys t q (ds_diverged s) (ds_persistent s)).
Proof.
  intros [_ Hr Ho Hn Hb Ht] Hseq Hc Hq Hle. split; cbn; [done| | |done|by rewrite Hseq|done].
  - intros id f' Hf'. destruct (Hc id f' Hf') as (f & Hf & Hcf). eapply carried_ok; eauto.
  - intros id f id' f' Hf Hf' Hopen Hs. destruct (Hc _ _ Hf) as (f0 & Hf0 & H1 & H2 & H3 & H4 & _ & _ & _ & H5).
    destruct (Hc _ _ Hf') as (f1 & Hf1 & G1 & G2 & G3 & G4 & _ & _ & _ & G5). apply (Ho id f0 id' f1 Hf0 Hf1 (H5 Hopen)).
    destruct Hs as (S1 & S2 & S3 & S4 & S5). unfold same_index, open_for. rewrite <- G1, <- G2, <- G3, <- G4, <- H1, <- H2, <- H3, <- H4. split_and!; auto.
Qed.

Lemma carried_refl f : carried f f.
Proof. by split_and!. Qed.

Lemma resolve_carried now inst kind key t id f' :
  ft_rows (ResolveOpenDriftFindings now inst kind key t) !! id = Some f' → ∃ f, ft_rows t !! id = Some f ∧ carried f f'.
Proof.
  cbn. rewrite lookup_fmap, fmap_Some. intros (f & Hf & ->). exists f. split; [done|]. unfold resolve_finding.
  case_bool_decide; [|apply carried_refl]. by split_and!.
Qed.

Lemma prune_carried cutoff size locked t id f' :
  ft_rows (PruneResolvedDriftFindingBatch cutoff size locked t) !! id = Some f' → ∃ f, ft_rows t !! id = Some f ∧ carried f f'.
Proof. cbn. rewrite map_lookup_filter_Some. intros [? _]. exists f'. split; [done|apply carried_refl]. Qed.

(** Opening a finding. *)
Lemma inv_opened s now ev inst kind key cache upstream diff r g q :
  drift_inv s → refreshSpecForEntity kind key = Ok r →
  (∀ id f, ft_rows (ds_findings s) !! id = Some f → ¬ open_for inst kind key (md5 diff) f) →
  InsertRefreshesTxReturning now ev [r] "sweep" (db (ds_queue s)) = Ok ([g], q) →
  let id := ft_seq (ds_findings s) + 1 in
  let f := mkFinding inst kind key now cache upstream diff now (md5 diff) now now 1 (rg_Generation g) None None in
  drift_inv (mkDriftSys (mkFindings (<[id := f]> (ft_rows (ds_findings s))) id) (serve [spec_identity r] q (ds_queue s))
               (id :: ds_diverged s) (ds_persistent s)).
Proof.
  intros [Hq Hr Ho [Hn1 Hn2] Hb Ht] Hs Hnone Hi id f. destruct (heal_effect _ _ _ _ _ _ Hi) as (Hgen & Hup & Hle).
  assert (Hnew : id ∉ ds_diverged s) by (intros ?%Hb; lia).
  assert (Hids : out_ids [g] = [spec_identity r]).
  { apply insert_refreshes_effect in Hi as (_ & Hids & _). cbn. f_equal.
    apply list_elem_of_singleton. change [spec_identity r] with (map spec_identity [r]). apply Hids. by left. }
  split; cbn.
  - rewrite <- Hids. by eapply queue_inv_produce.
  - intros id' f' [[<- <-]|[Hne Hf']]%lookup_insert_Some.
    + split; cbn; [|by left|split; [done|]|done].
      * exists r. pose proof (qi_rows _ Hq (spec_identity r)). split_and!; [done|lia..|done].
      * by intros ?%Ht.
    + destruct (carried_ok _ _ _ _ _ _ _ Hle (carried_refl f') (Hr _ _ Hf')) as [H1 H2 H3 H4]. split; [done|by right|done|done].
  - intros i1 f1 i2 f2 [[<- <-]|[Hne1 Hf1]]%lookup_insert_Some [[<- <-]|[Hne2 Hf2]]%lookup_insert_Some Hopen Hsame; [done| | |eauto].
    + by destruct (Hnone _ _ Hf2).
    + destruct (Hnone _ _ Hf1). destruct Hsame as (S1 & S2 & S3 & S4 & _). cbn in *. by split_and!.
  - split; [|done]. by apply NoDup_cons.
  - intros i [->|?%Hb]%elem_of_cons; lia.
  - intros i Hin. right. auto.
Qed.

(** Seeing an open finding again. *)
Lemma inv_sighted s now cache upstream diff r id f (escalated : bool) :
  drift_inv s → ft_rows (ds_findings s) !! id = Some f → fd_ResolvedAt f = None →
  refreshSpecForEntity (fd_EntityKind f) (fd_EntityKey f) = Ok r →
  (if escalated then fd_HealGeneration f ≤ completed (gens (db (ds_queue s))) (spec_identity r) ∧ fd_EscalatedAt f = None else True) →
  let f' := sighted now cache upstream diff (fd_OccurrenceCount f + if escalated then 1 else 0)
              (if escalated then Some now else fd_EscalatedAt f) f in
  drift_inv (mkDriftSys (mkFindings (<[id := f']> (ft_rows (ds_findings s))) (ft_seq (ds_findings s))) (ds_queue s)
               (ds_diverged s) (if escalated then id :: ds_persistent s else ds_persistent s)).
Proof.
  intros Hinv Hf Hopen Hs Hesc f'. destruct escalated.
  - destruct Hesc as [Hcm Hnone]. destruct Hinv as [Hq Hr Ho [Hn1 Hn2] Hb Ht]. destruct (Hr _ _ Hf) as [H1 H2 H3 H4].
    assert (Hid : id ∉ ds_persistent s) by (intros ?%H3; done). split; cbn; [done| | |by split; [|apply NoDup_cons]|done|].
    + intros i fi [[<- <-]|[Hne Hfi]]%lookup_insert_Some.
      * split; cbn; [|done|by split; [left|]|by rewrite H4, Hnone]. destruct H1 as (s1 & Hs1 & Hg & _). exists s1.
        assert (s1 = r) as -> by congruence. done.
      * destruct (Hr _ _ Hfi) as [G1 G2 G3 G4]. split; [done..| |done]. rewrite G3, elem_of_cons. split; [by right|]. by intros [->|].
    + intros i1 f1 i2 f2 [[<- <-]|[Hne1 Hf1]]%lookup_insert_Some [[<- <-]|[Hne2 Hf2]]%lookup_insert_Some; cbn; try done.
      * intros _ Hsame. by eapply (Ho id f).
      * intros Hop Hsame. by eapply (Ho i1 f1 id f).
      * intros Hop Hsame. by eapply (Ho i1 f1 i2 f2).
    + intros i [->|?]%elem_of_cons; auto.
  - apply inv_carried; [done|done| |apply Hinv|apply gens_le_refl]. cbn. intros i fi [[<- <-]|[Hne Hfi]]%lookup_insert_Some.
    + exists f. split; [done|]. subst f'. split_and!; cbn; try done. lia.
    + exists fi. split; [done|apply carried_refl].
Qed.

Lemma set_db_id (st : queue_state) : set_db (db st) st = st.
Proof. by destruct st. Qed.

Lemma drift_step_inv s s' : drift_inv s → drift_step s s' → drift_inv s'.
Proof.
  intros Hinv Hstep. destruct Hstep as [s now ev inst inputs m sample r t d Hi|s cutoff size locked|s q Hq].
  - apply inspect_cases in Hi. destruct r as [| | |id first escalated].
    1-3: destruct Hi as [-> ->]; unfold notify, healed_queue; rewrite set_db_id; apply inv_carried;
      [done|done| |apply Hinv|apply gens_le_refl].
    1-2: intros id f Hf; exists f; split; [done|apply carried_refl].
    { apply resolve_carried. }
    destruct Hi as (r & cache & up & diff & Hs & Hrec). unfold notify, healed_queue. rewrite Hs.
    apply record_cases in Hrec as [(f & -> & -> & Hf & Hopen & Hseq & Hk & Hy & Hesc & Hrows)|(g & -> & -> & -> & Hseq & Hnone & Hins & Hrows)];
      destruct t as [rows seq]; cbn in Hseq, Hrows; subst.
    + rewrite set_db_id. apply (inv_sighted s now cache up diff r id f escalated); [done..|by rewrite Hk, Hy|done].
    + by eapply inv_opened.
  - apply inv_carried; [done|done|apply prune_carried|apply Hinv|apply gens_le_refl].
  - apply inv_carried; [done|done| |by eapply queue_inv_step; [apply Hinv|]|by apply queue_step_gens; [apply Hinv|]].
    intros id f Hf. exists f. split; [done|apply carried_refl].
Qed.

Lemma drift_reachable s0 s : drift_initial s0 → rtc drift_step s0 s → drift_inv s.
Proof.
  intros (Ht & Hq & Hd & Hp) Hrun. assert (Hinv : drift_inv s0).
  { split; rewrite ?Ht, ?Hd, ?Hp; cbn; [by apply queue_reachable_inv| | |split; apply NoDup_nil_2|by intros id ?%elem_of_nil..].
    all: intros id f; by rewrite lookup_empty. }
  clear Ht Hq Hd Hp. induction Hrun; [done|]. eauto using drift_step_inv.
Qed.

End lifecycle.

(** ** Witnesses *)

Section witnesses.
#[local] Existing Instances RefRiver.RefRiver RefRiver.RefRiver_laws.

Definition plain_number (x : float64) : string := "0".
Definition plain_time (t : time) : string := FormatInt t.
Definition plain_md5 (v : json) : string := match v with JObj _ => "object" | _ => "other" end.

Definition demo_review (id state : string) : json := JObj [("node_id", JStr id); ("state", JStr state)].

Lemma order_never_drifts_witness :
  let reviews l := JObj [("reviews", JArr l)] in
  let v := reviews [demo_review "R1" "approved"; demo_review "R2" "commented"] in
  let w := reviews [demo_review "R2" "commented"; demo_review "R1" "approved"] in
  v ≠ w ∧ (semanticDiff plain_number "pull_request" v w).1 = true.
Proof.
  intros reviews v w. split; [discriminate|].
  apply (order_never_drifts plain_number "pull_request" v w); [|reflexivity].
  apply (same_member plain_number [] "reviews" _ _ []). apply same_order.
  - apply perm_swap.
  - intros x [->|[->|?%elem_of_nil]%elem_of_cons]%elem_of_cons; done.
  - apply (bool_decide_unpack _). vm_compute. exact I.
Defined.

Definition demo_entity (id : Z) : drift_row :=
  mkDriftRow "stack" id (pointer_key "stack" "acme/app" (FormatInt id)) "lock" (JObj []) (Some 5).

Definition demo_view : list drift_row := [demo_entity 4; demo_entity 9; demo_entity 2; demo_entity 7].


(** A cached repository that GitHub no longer has. *)
Definition lost_repository : drift_row :=
  mkDriftRow "repository" 1 "repo:acme/app:metadata" "repo:acme/app" (JObj [("name", JStr "app")]) (Some 5).

Definition lost_inputs : upstream_inputs :=
  mkUpstream (λ _, UpstreamMissing) (λ _ _, UpstreamError) (λ _, None) (λ _, None) (λ _ _, UpstreamError) (λ _, UpstreamError)
    (λ _ _ _, UpstreamError) 1.

Definition quiet_writer : writer_state := mkWriter ∅ (mkCache ∅ 0 ∅ [] [] ∅ [] ∅ ∅).

Definition lost_moments : moments := mkMoments (∅, false) quiet_writer [lost_repository] (∅, false) quiet_writer.

Definition sighting (now : time) (s : drift_sys) : result drift_error inspection * findings * RefreshQueue.tables :=
  inspectSample plain_time plain_number plain_md5 now 0 7 lost_inputs lost_moments lost_repository (ds_findings s) (db (ds_queue s)).

(** The sample is inspected. *)
Definition seen (now : time) (s : drift_sys) : drift_sys :=
  match sighting now s with
  | (Ok r, t, d) => notify lost_repository r t d s
  | _ => s
  end.

Definition lost_identity : identity := (KindRefreshRepository, "repo:acme/app:metadata").

(** The healing refresh is started and completes. *)
Definition healing (now : time) (s : drift_sys) : drift_sys :=
  let q := ds_queue s in
  match job_args (river (db q)) 1 with
  | Some a =>
      let x := mkAttempt 1 a "sweep" (current_generation (gens (db q)) (args_identity a)) (gens (db q) !! args_identity a ≫= deadline_at) in
      let q1 := mkQueue (db q) (x :: attempts q) (terminated q) in
      mkDriftSys (ds_findings s)
        (set_db (finishRefresh now now (at_job x) (at_args x) (at_queue x) (at_started x) (at_deadline x) WorkDone (db q1)).2 q1)
        (ds_diverged s) (ds_persistent s)
  | None => s
  end.

Lemma seen_steps now s : rtc (drift_step plain_time plain_number plain_md5) s (seen now s).
Proof.
  unfold seen. destruct (sighting now s) as [[[r|] t] d] eqn:E; [|apply rtc_refl]. apply rtc_once. by eapply step_inspect.
Qed.

Lemma healing_steps now s : rtc (drift_step plain_time plain_number plain_md5) s (healing now s).
Proof.
  unfold healing. destruct (job_args (river (db (ds_queue s))) 1) as [a|] eqn:E; [|apply rtc_refl].
  eapply rtc_l; [eapply (step_heal_queue _ _ _ s), (step_start _ 1 a "sweep" E)|].
  apply rtc_once. eapply (step_heal_queue _ _ _ (mkDriftSys _ _ _ _)), (step_finish _ now now _ WorkDone). by left.
Qed.

Definition lost_start : drift_sys := mkDriftSys (mkFindings ∅ 0) (mkQueue RefRiver.empty [] []) [] [].

Definition lost_final : drift_sys := seen 20 (healing 15 (seen 10 lost_start)).

End witnesses.
