(* ===== verification/Retention.v ===== *)
(** * Retention of payloads and check history

    [internal/sweep/retention.go]: [Prune] repeats a transaction that empties a batch of
    old webhook payloads and deletes a batch of old check history, until both batches
    come back short. The payload statement is that of [Deliveries]; rows that another
    transaction has locked are skipped by both statements, so each round is given the
    rows locked during it. *)

From Stdlib Require Import ZArith Lia Bool String.
From stdpp Require Import sorting strings gmap numbers base list.
From S2P Require Import Prelude GoStrings SweepSchedule Classify Writers Deliveries.

Local Open Scope Z_scope.

(** The two tables; a row of [check_history] under its identifier. *)
Record retained : Type := mkRetained {
  rt_ledger : ledger;
  rt_history : gmap Z history_row
}.

(** The rows another transaction holds. *)
Record row_locks : Type := mkLocks {
  lk_deliveries : gset string;
  lk_history : gset Z
}.

(** ** The statements *)

Definition payload_expired (cutoff : time) (p : string * delivery) : bool :=
  (received_at p.2 <? cutoff) && bool_decide (is_Some (raw_body p.2)) && bool_decide (d_status p.2 = Processed).

(** The rows [PruneWebhookDeliveryPayloadBatch] updates. *)
Definition payload_batch (cutoff : time) (batchSize : Z) (locked : gset string) (l : ledger) : list (string * delivery) :=
  take (Z.to_nat batchSize) (merge_sort received_le
    (List.filter (λ p, payload_expired cutoff p && negb (bool_decide (p.1 ∈ locked))) (map_to_list l))).

Definition history_expired (cutoff : time) (p : Z * history_row) : bool := hi_synced_at p.2 <? cutoff.

(** [ORDER BY synced_at, id]. *)
Definition synced_le (p q : Z * history_row) : Prop :=
  hi_synced_at p.2 < hi_synced_at q.2 ∨ hi_synced_at p.2 = hi_synced_at q.2 ∧ p.1 ≤ q.1.
#[export] Instance synced_le_dec : RelDecision synced_le := λ p q, decide (_ ∨ _).

Definition history_batch (cutoff : time) (batchSize : Z) (locked : gset Z) (h : gmap Z history_row) : list (Z * history_row) :=
  take (Z.to_nat batchSize) (merge_sort synced_le
    (List.filter (λ p, history_expired cutoff p && negb (bool_decide (p.1 ∈ locked))) (map_to_list h))).

(** The number of rows deleted and the rest. *)
Definition DeleteCheckHistoryBatch (cutoff : time) (batchSize : Z) (locked : gset Z) (h : gmap Z history_row)
    : Z * gmap Z history_row :=
  let doomed := history_batch cutoff batchSize locked h in
  (Z.of_nat (length doomed), foldr (λ p h, delete p.1 h) h doomed).

(** ** Prune *)

Definition pruneBatch (c : Config) (now cutoff : time) (locks : row_locks) (s : retained) : Z * Z * retained :=
  let size := wrap32 (RetentionBatchSize c) in
  let payloads := Z.of_nat (length (payload_batch cutoff size (lk_deliveries locks) (rt_ledger s))) in
  let ledger := PruneWebhookDeliveryPayloadBatch now cutoff size (lk_deliveries locks) (rt_ledger s) in
  let '(history, rest) := DeleteCheckHistoryBatch cutoff size (lk_history locks) (rt_history s) in
  (payloads, history, mkRetained ledger rest).

(** The loop, with the locks of each round; [None] is out of fuel. *)
Fixpoint prune_rounds (fuel : nat) (c : Config) (now cutoff : time) (locks : nat → row_locks) (round : nat)
    (totalPayloads totalHistory : Z) (s : retained) : option (Z * Z * retained * nat) :=
  match fuel with
  | O => None
  | S fuel =>
      let '(payloads, history, s) := pruneBatch c now cutoff (locks round) s in
      let totalPayloads := totalPayloads + payloads in
      let totalHistory := totalHistory + history in
      if (payloads <? RetentionBatchSize c) && (history <? RetentionBatchSize c)
      then Some (totalPayloads, totalHistory, s, round)
      else prune_rounds fuel c now cutoff locks (S round) totalPayloads totalHistory s
  end.

(** The totals, the tables and the last round. *)
Definition Prune (fuel : nat) (c : Config) (now : time) (locks : nat → row_locks) (s : retained)
    : option (Z * Z * retained * nat) :=
  prune_rounds fuel c now (now - RetentionAge c) locks 0 0 0 s.

(** ** Batches *)

Section batches.
Context {K V : Type} `{Countable K} (rel : relation (K * V)) `{!RelDecision rel} (expired : K * V → bool).

Definition batch (n : nat) (locked : gset K) (m : gmap K V) : list (K * V) :=
  take n (merge_sort rel (List.filter (λ p, expired p && negb (bool_decide (p.1 ∈ locked))) (map_to_list m))).

(** The expired rows, locked or not. *)
Definition backlog (m : gmap K V) : gmap K V := filter (λ p, expired p = true) m.

Lemma batch_elem n locked m k v : (k, v) ∈ batch n locked m → m !! k = Some v ∧ expired (k, v) = true.
Proof.
  intros (i & Hi%list_elem_of_lookup_2 & _)%elem_of_take. rewrite merge_sort_Permutation in Hi.
  apply filter_elem in Hi as [Hi Hf]. apply elem_of_map_to_list in Hi. to_props. done.
Qed.

Lemma batch_NoDup n locked m : NoDup ((batch n locked m).*1).
Proof.
  unfold batch. rewrite fmap_take. eapply sublist_NoDup; [|apply sublist_take].
  rewrite merge_sort_Permutation. apply NoDup_fst_filter, NoDup_fst_map_to_list.
Qed.

Lemma batch_length n locked m : (length (batch n locked m) ≤ n)%nat.
Proof. unfold batch. rewrite length_take. lia. Qed.

(** A short batch has every expired row that is not locked. *)
Lemma batch_short n locked m k v : (length (batch n locked m) < n)%nat →
  m !! k = Some v → expired (k, v) = true → k ∈ locked ∨ (k, v) ∈ batch n locked m.
Proof.
  unfold batch. rewrite length_take. intros Hlt Hk He. destruct (decide (k ∈ locked)) as [|Hl]; [by left|right].
  rewrite take_ge by lia. rewrite merge_sort_Permutation. apply filter_elem. split; [by apply elem_of_map_to_list|].
  rewrite He. cbn. by rewrite bool_decide_false.
Qed.

(** Clearing a list of rows from the backlog. *)
Lemma backlog_clear (ps : list (K * V)) : NoDup (ps.*1) → ∀ (m m' : gmap K V),
  (∀ k v, (k, v) ∈ ps → m !! k = Some v ∧ expired (k, v) = true) →
  (∀ k, k ∈ ps.*1 → backlog m' !! k = None) → (∀ k, k ∉ ps.*1 → m' !! k = m !! k) →
  (size (backlog m') + length ps = size (backlog m))%nat.
Proof.
  intros Hnd m m' Hin Hgone Hkeep.
  assert (Heq : backlog m' = foldr (λ p, delete p.1) (backlog m) ps).
  { apply map_eq. intros k. destruct (decide (k ∈ ps.*1)) as [Hk|Hk].
    - rewrite Hgone by done. symmetry. clear -Hk. induction ps as [|p ps IH]; [by apply elem_of_nil in Hk|].
      cbn in *. destruct (decide (p.1 = k)) as [->|Hne]; [apply lookup_delete_eq|]. rewrite lookup_delete_ne by done.
      apply IH. apply elem_of_cons in Hk as [->|]; done.
    - trans (backlog m !! k).
      + unfold backlog. rewrite !map_lookup_filter, Hkeep by done. done.
      + clear -Hk. induction ps as [|p ps IH]; [done|]. cbn in *. apply not_elem_of_cons in Hk as [? ?].
        rewrite lookup_delete_ne by done. by apply IH. }
  rewrite Heq. assert (Hb : ∀ k v, (k, v) ∈ ps → is_Some (backlog m !! k)).
  { intros k v Hkv. destruct (Hin k v Hkv). exists v. by apply map_lookup_filter_Some. }
  clear -Hnd Hb. induction ps as [|[k v] ps IH]; cbn in *; [lia|]. apply NoDup_cons in Hnd as [Hk Hnd].
  rewrite map_size_delete. assert (Hs : is_Some (foldr (λ p, delete p.1) (backlog m) ps !! k)).
  { destruct (Hb k v) as [x Hx]; [by left|]. exists x. rewrite <- Hx. clear -Hk. induction ps as [|p ps IH]; [done|].
    cbn in *. apply not_elem_of_cons in Hk as [? ?]. rewrite lookup_delete_ne by done. by apply IH. }
  destruct Hs as [x Hx]. rewrite Hx. rewrite <- (IH Hnd) by (intros k' v' ?; apply (Hb k' v'); by right).
  assert (size (foldr (λ p, delete p.1) (backlog m) ps) ≠ 0)%nat.
  { intros H0. apply map_size_empty_iff in H0. by rewrite H0, lookup_empty in Hx. } lia.
Qed.
End batches.

(** ** What a pass leaves *)

(** A pass changes nothing but expired rows: a delivery keeps its row without the payload,
    a history row goes. *)
Definition only_expired (now cutoff : time) (s s' : retained) : Prop :=
  (∀ g, match rt_ledger s !! g with
        | None => rt_ledger s' !! g = None
        | Some d => rt_ledger s' !! g = Some d ∨
                    payload_expired cutoff (g, d) = true ∧ rt_ledger s' !! g = Some (pruned_row now d)
        end) ∧
  (∀ i, rt_history s' !! i = rt_history s !! i ∨
        rt_history s' !! i = None ∧ ∃ r, rt_history s !! i = Some r ∧ history_expired cutoff (i, r) = true).

Definition payload_backlog (cutoff : time) (s : retained) : nat := size (backlog (payload_expired cutoff) (rt_ledger s)).
Definition history_backlog (cutoff : time) (s : retained) : nat := size (backlog (history_expired cutoff) (rt_history s)).

(** The expired rows left are rows that were locked. *)
Definition only_locked (cutoff : time) (locks : row_locks) (s : retained) : Prop :=
  (∀ g d, rt_ledger s !! g = Some d → payload_expired cutoff (g, d) = true → g ∈ lk_deliveries locks) ∧
  (∀ i r, rt_history s !! i = Some r → history_expired cutoff (i, r) = true → i ∈ lk_history locks).

Lemma only_expired_refl now cutoff s : only_expired now cutoff s s.
Proof. split; [|by left]. intros g. destruct (rt_ledger s !! g); [by left|done]. Qed.

Lemma pruned_not_expired now cutoff g d : payload_expired cutoff (g, pruned_row now d) = false.
Proof.
  unfold payload_expired. apply andb_false_iff. left. apply andb_false_iff. right. apply bool_decide_eq_false. by intros [? ?].
Qed.

Lemma only_expired_trans now cutoff s1 s2 s3 :
  only_expired now cutoff s1 s2 → only_expired now cutoff s2 s3 → only_expired now cutoff s1 s3.
Proof.
  intros [Hl1 Hh1] [Hl2 Hh2]. split.
  - intros g. specialize (Hl1 g). specialize (Hl2 g). destruct (rt_ledger s1 !! g) as [d|].
    + destruct Hl1 as [E|[Hd E]]; rewrite E in Hl2; [done|]. right. split; [done|].
      destruct Hl2 as [?|[Hx _]]; [done|]. by rewrite pruned_not_expired in Hx.
    + by rewrite Hl1 in Hl2.
  - intros i. destruct (Hh1 i) as [E|[E Hr]], (Hh2 i) as [F|[F Hr2]]; rewrite ?E in *; eauto.
Qed.

Lemma prune_payloads now cutoff n locked l :
  let ps := batch received_le (payload_expired cutoff) n locked l in
  let l' := foldr (λ p l, <[p.1 := pruned_row now p.2]> l) l ps in
  (size (backlog (payload_expired cutoff) l') + length ps = size (backlog (payload_expired cutoff) l))%nat ∧
  (∀ g, match l !! g with
        | None => l' !! g = None
        | Some d => l' !! g = Some d ∨ payload_expired cutoff (g, d) = true ∧ l' !! g = Some (pruned_row now d)
        end) ∧
  ((length ps < n)%nat → ∀ g d, l' !! g = Some d → payload_expired cutoff (g, d) = true → g ∈ locked).
Proof.
  intros ps l'. pose proof (batch_NoDup received_le (payload_expired cutoff) n locked l) as Hnd. fold ps in Hnd.
  assert (Hin : ∀ g d, (g, d) ∈ ps → l' !! g = Some (pruned_row now d)).
  { intros g d Hg. by apply (fold_update_in (λ p, pruned_row now p.2)). }
  assert (Hout : ∀ g, g ∉ ps.*1 → l' !! g = l !! g) by (intros; by apply (fold_update_notin (λ p, pruned_row now p.2))).
  split_and!.
  - apply (backlog_clear (payload_expired cutoff) ps Hnd l l').
    + intros g d. apply batch_elem.
    + intros g ([g' d] & -> & Hg)%list_elem_of_fmap. cbn. apply map_lookup_filter_None. right. intros x Hx.
      rewrite (Hin _ _ Hg) in Hx. injection Hx as <-. by rewrite pruned_not_expired.
    + done.
  - intros g. destruct (decide (g ∈ ps.*1)) as [([g' d] & -> & Hg)%list_elem_of_fmap|Hg].
    + cbn. destruct (batch_elem _ _ _ _ _ _ _ Hg) as [-> He]. right. split; [done|by apply Hin].
    + rewrite (Hout g Hg). destruct (l !! g); [by left|done].
  - intros Hlt g d Hg He. destruct (decide (g ∈ ps.*1)) as [([g' d'] & -> & Hps)%list_elem_of_fmap|Hn].
    + cbn in Hg. rewrite (Hin _ _ Hps) in Hg. injection Hg as <-. by rewrite pruned_not_expired in He.
    + rewrite Hout in Hg by done. destruct (batch_short received_le _ _ _ _ _ _ Hlt Hg He) as [|Hps]; [done|].
      destruct Hn. apply list_elem_of_fmap. by exists (g, d).
Qed.

Lemma prune_history cutoff n locked h :
  let ps := batch synced_le (history_expired cutoff) n locked h in
  let h' := foldr (λ p h, delete p.1 h) h ps in
  (size (backlog (history_expired cutoff) h') + length ps = size (backlog (history_expired cutoff) h))%nat ∧
  (∀ i, h' !! i = h !! i ∨ h' !! i = None ∧ ∃ r, h !! i = Some r ∧ history_expired cutoff (i, r) = true) ∧
  ((length ps < n)%nat → ∀ i r, h' !! i = Some r → history_expired cutoff (i, r) = true → i ∈ locked).
Proof.
  intros ps h'. pose proof (batch_NoDup synced_le (history_expired cutoff) n locked h) as Hnd. fold ps in Hnd.
  assert (Hin : ∀ i, i ∈ ps.*1 → h' !! i = None).
  { intros i Hi. subst h'. clear Hnd. clearbody ps. induction ps as [|p ps IH]; [by apply elem_of_nil in Hi|]. cbn in *.
    destruct (decide (p.1 = i)) as [->|Hne]; [apply lookup_delete_eq|]. rewrite lookup_delete_ne by done.
    apply IH. apply elem_of_cons in Hi as [->|]; done. }
  assert (Hout : ∀ i, i ∉ ps.*1 → h' !! i = h !! i).
  { intros i Hi. subst h'. clear Hnd Hin. clearbody ps. induction ps as [|p ps IH]; [done|]. cbn in *.
    apply not_elem_of_cons in Hi as [? ?]. rewrite lookup_delete_ne by done. by apply IH. }
  split_and!.
  - apply (backlog_clear (history_expired cutoff) ps Hnd h h'); [intros i r; apply batch_elem| |done].
    intros i Hi. apply map_lookup_filter_None. left. by apply Hin.
  - intros i. destruct (decide (i ∈ ps.*1)) as [Hi|Hi]; [right|left; by apply Hout]. split; [by apply Hin|].
    apply list_elem_of_fmap in Hi as ([i' r] & -> & Hi). exists r. by eapply batch_elem.
  - intros Hlt i r Hi He. destruct (decide (i ∈ ps.*1)) as [Hps|Hn]; [by rewrite Hin in Hi|].
    rewrite Hout in Hi by done. destruct (batch_short synced_le _ _ _ _ _ _ Hlt Hi He) as [|Hps]; [done|].
    destruct Hn. apply list_elem_of_fmap. by exists (i, r).
Qed.

Section pass.
Context (c : Config) (Hsize : 0 < RetentionBatchSize c < 2 ^ 31) (now cutoff : time).

Lemma size_exact : wrap32 (RetentionBatchSize c) = RetentionBatchSize c.
Proof. apply wrap32_id. lia. Qed.

(** One transaction. *)
Lemma prune_batch_spec locks s payloads history s' :
  pruneBatch c now cutoff locks s = (payloads, history, s') →
  only_expired now cutoff s s' ∧
  Z.of_nat (payload_backlog cutoff s') + payloads = Z.of_nat (payload_backlog cutoff s) ∧
  Z.of_nat (history_backlog cutoff s') + history = Z.of_nat (history_backlog cutoff s) ∧
  0 ≤ payloads ∧ 0 ≤ history ∧
  (payloads < RetentionBatchSize c → history < RetentionBatchSize c → only_locked cutoff locks s').
Proof.
  unfold pruneBatch, DeleteCheckHistoryBatch. rewrite size_exact. intros [= <- <- <-].
  destruct (prune_payloads now cutoff (Z.to_nat (RetentionBatchSize c)) (lk_deliveries locks) (rt_ledger s)) as (P1 & P2 & P3).
  destruct (prune_history cutoff (Z.to_nat (RetentionBatchSize c)) (lk_history locks) (rt_history s)) as (H1 & H2 & H3).
  split_and!; [done| | |lia|lia|].
  - unfold payload_backlog. rewrite <- P1. rewrite Nat2Z.inj_add. done.
  - unfold history_backlog. rewrite <- H1. rewrite Nat2Z.inj_add. done.
  - intros Hp Hh. split; [apply P3|apply H3]; unfold payload_batch, history_batch, batch in *; lia.
Qed.

Lemma prune_rounds_spec locks : ∀ fuel round tp th s,
  (payload_backlog cutoff s + history_backlog cutoff s < fuel)%nat →
  ∃ p h s' last, prune_rounds fuel c now cutoff locks round tp th s = Some (p, h, s', last) ∧
    only_expired now cutoff s s' ∧ only_locked cutoff (locks last) s' ∧
    Z.of_nat (payload_backlog cutoff s') + (p - tp) = Z.of_nat (payload_backlog cutoff s) ∧
    Z.of_nat (history_backlog cutoff s') + (h - th) = Z.of_nat (history_backlog cutoff s).
Proof.
  induction fuel as [|fuel IH]; intros round tp th s Hfuel; [lia|]. cbn [prune_rounds].
  destruct (pruneBatch c now cutoff (locks round) s) as [[dp dh] s1] eqn:E.
  apply prune_batch_spec in E as (Ho & Hp & Hh & Hp0 & Hh0 & Hl).
  destruct ((dp <? _) && (dh <? _)) eqn:Hd.
  - to_props. exists (tp + dp), (th + dh), s1, round. split_and!; [done|done|by apply Hl|lia..].
  - apply andb_false_iff in Hd. rewrite !Z.ltb_ge in Hd.
    destruct (IH (S round) (tp + dp) (th + dh) s1) as (p & h & s' & last & Hr & Ho' & Hl' & Hp' & Hh'); [lia|].
    exists p, h, s', last. split_and!; [done|by eapply only_expired_trans|done|lia..].
Qed.
End pass.

(** Retention is enforced. Whatever rows other transactions hold during its rounds, a prune
    terminates: with more rounds than there are expired rows it returns; every expired
    payload or history row that is left was locked in its last round; only expired rows
    have changed, a delivery keeping all but its payload, headers and trace; and the
    totals it reports are the numbers of rows it pruned. *)
Theorem retention_enforced c now locks s fuel :
  validate c = None → RetentionBatchSize c < 2 ^ 31 →
  let cutoff := now - RetentionAge c in
  (payload_backlog cutoff s + history_backlog cutoff s < fuel)%nat →
  ∃ p h s' last, Prune fuel c now locks s = Some (p, h, s', last) ∧
    only_expired now cutoff s s' ∧ only_locked cutoff (locks last) s' ∧
    p = Z.of_nat (payload_backlog cutoff s) - Z.of_nat (payload_backlog cutoff s') ∧
    h = Z.of_nat (history_backlog cutoff s) - Z.of_nat (history_backlog cutoff s').
Proof.
  intros Hv Hs cutoff Hfuel. unfold Prune. fold cutoff.
  destruct (prune_rounds_spec c (conj (proj2 (proj2 (proj2 (proj1 (proj2 (validate_ok c Hv)))))) Hs) now cutoff locks fuel 0 0 0 s Hfuel)
    as (p & h & s' & last & Hr & Ho & Hl & Hp & Hh).
  exists p, h, s', last. split_and!; [done..|lia|lia].
Qed.
