(* ===== verification/GoParse.v ===== *)
(** * Go number and duration syntax

    [strconv.ParseFloat(s, 64)] and [time.ParseDuration], which the configuration reads its
    fractions and durations with: the full syntax (hexadecimal mantissas, underscores,
    compound durations), the rounding to [float64] and the overflow checks on [uint64]. *)

From Stdlib Require Import ZArith Lia Bool String Ascii SpecFloat.
From stdpp Require Import strings base numbers list.
From S2P Require Import Prelude GoStrings GoFloat.

Local Open Scope Z_scope.

(** ** Floats *)

(** The value of a digit in base 16, or in base 10. *)
Definition mantissa_digit (hex : bool) (c : ascii) : option Z :=
  match digit_value c with
  | Some d => Some d
  | None =>
      let n := Z.of_N (N_of_ascii (lower_byte c)) in
      if hex && (97 <=? n) && (n <=? 102) then Some (n - 87) else None
  end.

(** The digits read so far as an integer, how many of them follow the point, and what has
    been seen. *)
Record mantissa : Type := mkMantissa {
  ma_value : Z;
  ma_fraction : Z;
  ma_dot : bool;
  ma_digits : bool;
  ma_underscores : bool
}.

Fixpoint scan_mantissa (hex : bool) (s : string) (m : mantissa) : mantissa * string :=
  match s with
  | EmptyString => (m, s)
  | String c rest =>
      if Ascii.eqb c "_" then
        scan_mantissa hex rest (mkMantissa (ma_value m) (ma_fraction m) (ma_dot m) (ma_digits m) true)
      else if Ascii.eqb c "." then
        if ma_dot m then (m, s)
        else scan_mantissa hex rest (mkMantissa (ma_value m) (ma_fraction m) true (ma_digits m) (ma_underscores m))
      else match mantissa_digit hex c with
           | Some d =>
               scan_mantissa hex rest
                 (mkMantissa (ma_value m * (if hex then 16 else 10) + d) (ma_fraction m + if ma_dot m then 1 else 0)
                    (ma_dot m) true (ma_underscores m))
           | None => (m, s)
           end
  end.

(** The digits of an exponent; the value stops growing at 10000. *)
Fixpoint scan_exponent (s : string) (e : Z) (underscores : bool) : Z * bool * string :=
  match s with
  | EmptyString => (e, underscores, s)
  | String c rest =>
      if Ascii.eqb c "_" then scan_exponent rest e true
      else match digit_value c with
           | Some d => scan_exponent rest (if e <? 10000 then e * 10 + d else e) underscores
           | None => (e, underscores, s)
           end
  end.

(** What the previous character was for [underscoreOK]. *)
Inductive seen_char : Type := SawStart | SawDigit | SawUnderscore | SawOther.

Fixpoint underscores_separate (hex : bool) (s : string) (prev : seen_char) : bool :=
  match s with
  | EmptyString => match prev with SawUnderscore => false | _ => true end
  | String c s =>
      match mantissa_digit hex c with
      | Some _ => underscores_separate hex s SawDigit
      | None =>
          if Ascii.eqb c "_" then match prev with SawDigit => underscores_separate hex s SawUnderscore | _ => false end
          else match prev with SawUnderscore => false | _ => underscores_separate hex s SawOther end
      end
  end.

(** [underscoreOK], without a sign. *)
Definition underscoreOK (s : string) : bool :=
  match s with
  | String z (String b rest) =>
      let b := lower_byte b in
      if Ascii.eqb z "0" && (Ascii.eqb b "b" || Ascii.eqb b "o" || Ascii.eqb b "x")
      then underscores_separate (Ascii.eqb b "x") rest SawDigit
      else underscores_separate false s SawStart
  | _ => underscores_separate false s SawStart
  end.

(** The [float64] nearest to [m * 10 ^ e]. *)
Definition round_decimal (neg : bool) (m e : Z) : float64 :=
  match m with
  | Zpos p =>
      if 0 <=? e then binary_normalize f64_prec f64_emax ((if neg then -1 else 1) * m * 10 ^ e) 0 neg
      else let '(q, e', l) := SFdiv_core_binary f64_prec f64_emax m 0 (10 ^ (- e)) 0 in
           binary_round_aux f64_prec f64_emax neg q e' l
  | _ => S754_zero neg
  end.

(** The [float64] nearest to [m * 2 ^ e]. *)
Definition round_binary (neg : bool) (m e : Z) : float64 :=
  binary_normalize f64_prec f64_emax ((if neg then -1 else 1) * m) e neg.

(** A number without its sign. *)
Definition parse_magnitude (neg : bool) (s : string) : option float64 :=
  let '(hex, body) := match s with
                      | String z (String x (String c rest)) =>
                          if Ascii.eqb z "0" && Ascii.eqb (lower_byte x) "x" then (true, String c rest) else (false, s)
                      | _ => (false, s)
                      end in
  let '(m, rest) := scan_mantissa hex body (mkMantissa 0 0 false false false) in
  if negb (ma_digits m) then None
  else
    let finish (e : Z) (underscores : bool) (rest : string) :=
      if negb (String.eqb rest "") || underscores && negb (underscoreOK s) then None
      else
        let v := if hex then round_binary neg (ma_value m) (e - 4 * ma_fraction m)
                 else round_decimal neg (ma_value m) (e - ma_fraction m) in
        match v with S754_infinity _ => None | v => Some v end in
    match rest with
    | String c exponent =>
        if Ascii.eqb (lower_byte c) (if hex then "p" else "e")%char then
          let '(esign, exponent) := match exponent with
                                    | String "+" exponent => (1, exponent)
                                    | String "-" exponent => (-1, exponent)
                                    | _ => (1, exponent)
                                    end in
          match exponent with
          | String d _ =>
              match digit_value d with
              | Some _ =>
                  let '(e, underscores, rest) := scan_exponent exponent 0 (ma_underscores m) in
                  finish (e * esign) underscores rest
              | None => None
              end
          | EmptyString => None
          end
        else None
    | EmptyString => if hex then None else finish 0 (ma_underscores m) ""
    end.

(** [strconv.ParseFloat(s, 64)]; [None] is a syntax or range error. *)
Definition ParseFloat (s : string) : option float64 :=
  let '(neg, signed, body) := match s with
                              | String "+" rest => (false, true, rest)
                              | String "-" rest => (true, true, rest)
                              | _ => (false, false, s)
                              end in
  let word := ToLower body in
  if String.eqb word "inf" || String.eqb word "infinity" then Some (S754_infinity neg)
  else if negb signed && String.eqb word "nan" then Some S754_nan
  else parse_magnitude neg body.

Example parse_quarter : ParseFloat "0.25" = Some (f64_ratio 1 4) ∧ ParseFloat "2.5e-1" = Some (f64_ratio 1 4) ∧
  ParseFloat "0x1p-2" = Some (f64_ratio 1 4) ∧ ParseFloat "+.2_5" = Some (f64_ratio 1 4).
Proof. vm_compute. auto. Qed.

Example parse_tenth : ParseFloat "0.1" = Some (f64_ratio 1 10) ∧ ParseFloat "00.10E0" = Some (f64_ratio 1 10).
Proof. vm_compute. auto. Qed.

Example parse_rejected : ParseFloat "" = None ∧ ParseFloat "." = None ∧ ParseFloat "1_" = None ∧ ParseFloat "0x1" = None ∧
  ParseFloat "1e" = None ∧ ParseFloat "1e400" = None ∧ ParseFloat "0.5 " = None.
Proof. vm_compute. auto 10. Qed.

(** ** Durations *)

(** The longest prefix of digits; [None] when its value exceeds [2^63]. *)
Fixpoint leadingInt (s : string) (x : Z) : option (Z * string) :=
  match s with
  | EmptyString => Some (x, s)
  | String c rest =>
      match digit_value c with
      | None => Some (x, s)
      | Some d =>
          if 2 ^ 63 `div` 10 <? x then None
          else let x := x * 10 + d in if 2 ^ 63 <? x then None else leadingInt rest x
      end
  end.

(** The digits of a fraction, those that fit, with the power of ten they are out of. *)
Fixpoint leadingFraction (s : string) (x : Z) (scale : float64) (overflow : bool) : Z * float64 * string :=
  match s with
  | EmptyString => (x, scale, s)
  | String c rest =>
      match digit_value c with
      | None => (x, scale, s)
      | Some d =>
          if overflow then leadingFraction rest x scale true
          else if (2 ^ 63 - 1) `div` 10 <? x then leadingFraction rest x scale true
          else
            let y := x * 10 + d in
            if 2 ^ 63 <? y then leadingFraction rest x scale true
            else leadingFraction rest y (f64_mul scale (f64_of_int 10)) false
      end
  end.

(** The characters up to the next point or digit. *)
Fixpoint take_unit (s : string) : string * string :=
  match s with
  | EmptyString => ("", s)
  | String c rest =>
      if Ascii.eqb c "." then ("", s)
      else match digit_value c with
           | Some _ => ("", s)
           | None => let '(u, rest) := take_unit rest in (String c u, rest)
           end
  end.

(** [unitMap]; the micro sign has two encodings. *)
Definition unit_of (u : string) : option Z :=
  if String.eqb u "ns" then Some 1
  else if String.eqb u "us" || String.eqb u (bytes [194; 181; 115]%N) || String.eqb u (bytes [206; 188; 115]%N) then Some 1000
  else if String.eqb u "ms" then Some 1000000
  else if String.eqb u "s" then Some 1000000000
  else if String.eqb u "m" then Some (60 * 1000000000)
  else if String.eqb u "h" then Some (3600 * 1000000000)
  else None.

(** [uint64(x)] of a float that is not negative. *)
Definition f64_to_uint64 (x : float64) : Z :=
  match x with
  | S754_finite false m e => let v := if 0 <=? e then Zpos m * 2 ^ e else Zpos m `div` 2 ^ (- e) in v `mod` 2 ^ 64
  | _ => 0
  end.

(** One number with its unit. *)
Definition duration_part (s : string) : option (Z * string) :=
  match s with
  | EmptyString => None
  | String c _ =>
      if negb (Ascii.eqb c ".") && bool_decide (digit_value c = None) then None
      else
        '(v, rest) ← leadingInt s 0;
        let pre := negb (Nat.eqb (String.length rest) (String.length s)) in
        let '(f, scale, rest', post) :=
          match rest with
          | String "." r => let '(f, scale, r') := leadingFraction r 0 (f64_of_int 1) false in
                            (f, scale, r', negb (Nat.eqb (String.length r') (String.length r)))
          | _ => (0, f64_of_int 1, rest, false)
          end in
        if negb pre && negb post then None
        else
          let '(u, rest') := take_unit rest' in
          unit ← unit_of u;
          if 2 ^ 63 `div` unit <? v then None
          else
            let v := v * unit in
            if 0 <? f then
              let v := (v + f64_to_uint64 (f64_mul (f64_of_int f) (f64_div (f64_of_int unit) scale))) `mod` 2 ^ 64 in
              if 2 ^ 63 <? v then None else Some (v, rest')
            else Some (v, rest')
  end.

(** The parts of a duration; a part has at least two characters, so the length is fuel
    enough. *)
Fixpoint duration_parts (fuel : nat) (s : string) (d : Z) : option Z :=
  if String.eqb s "" then Some d
  else match fuel with
       | O => None
       | S fuel =>
           '(v, rest) ← duration_part s;
           let d := d + v in
           if 2 ^ 63 <? d then None else duration_parts fuel rest d
       end.

(** [time.ParseDuration]. *)
Definition ParseDuration (s : string) : option duration :=
  let '(neg, body) := match s with
                      | String "-" rest => (true, rest)
                      | String "+" rest => (false, rest)
                      | _ => (false, s)
                      end in
  if String.eqb body "0" then Some 0
  else if String.eqb body "" then None
  else
    d ← duration_parts (String.length body) body 0;
    if neg then Some (wrap64 (- d)) else if 2 ^ 63 - 1 <? d then None else Some d.

Example parse_durations : ParseDuration "1h30m" = Some (5400 * Second) ∧ ParseDuration "1.5s" = Some 1500000000 ∧
  ParseDuration "250ms" = Some 250000000 ∧ ParseDuration "-.5m" = Some (- 30 * Second) ∧ ParseDuration "0" = Some 0 ∧
  ParseDuration "2562047h47m16.854775807s" = Some (2 ^ 63 - 1).
Proof. vm_compute. auto 10. Qed.

Example durations_rejected : ParseDuration "" = None ∧ ParseDuration "5" = None ∧ ParseDuration "." = None ∧
  ParseDuration "1d" = None ∧ ParseDuration ".s" = None ∧ ParseDuration "2562048h" = None ∧ ParseDuration "1 s" = None.
Proof. vm_compute. auto 10. Qed.

(** No duration exceeds the largest [int64]. *)
Lemma ParseDuration_upper s d : ParseDuration s = Some d → d < 2 ^ 63.
Proof.
  unfold ParseDuration. destruct (match s with EmptyString => _ | String _ _ => _ end) as [neg body].
  destruct (String.eqb body "0"); [intros [= <-]; lia|]. destruct (String.eqb body ""); [done|].
  destruct (duration_parts _ _ _) as [v|]; [|done]. cbn. destruct neg; [intros [= <-]; apply wrap64_range|].
  destruct (2 ^ 63 - 1 <? v) eqn:Hv; [done|]. intros [= <-]. to_props. lia.
Qed.
