(* ===== verification/Config.v ===== *)
(** * Configuration and roles

    [internal/config/config.go] and the parts of [cmd/ghsyncd/main.go] that turn a
    configuration into the options of the components: [FromEnv] with its defaults, parsers
    and cross-checks, the requirements of the commands, the roles of a process and the
    queues they work, and the constructors' options. The environment is a function from
    names to values, with the empty string for a variable that is not set. *)

From Stdlib Require Import ZArith Lia Bool String Ascii SpecFloat.
From stdpp Require Import strings base numbers list sets gmap.
From S2P Require Import Prelude GoStrings GoFloat GoParse Keys Gate Lease Stream SweepSchedule Derive Backfill Drift.

Local Open Scope Z_scope.

Definition DatabaseAuthPassword : string := "password".
Definition DatabaseAuthRDSIAM : string := "rds-iam".

Record Config : Type := mkConfiguration {
  cfg_DatabaseURL : string;
  cfg_DatabaseAuth : string;
  cfg_HTTPAddr : string;
  cfg_GitHubAppID : Z;
  cfg_GitHubInstallationID : Z;
  cfg_GitHubOrgID : Z;
  cfg_GitHubToken : string;
  cfg_GitHubPrivateKeyPath : string;
  cfg_GitHubWebhookSecret : string;
  cfg_GitHubBaseURL : string;
  cfg_WebhookMaxBodyBytes : Z;
  cfg_DispatchBatchSize : Z;
  cfg_DispatchMaxAttempts : Z;
  cfg_DispatchDebounce : duration;
  cfg_DispatchPollInterval : duration;
  cfg_DispatchRulesFile : string;
  cfg_FetchBatchWindow : duration;
  cfg_BackfillPageSize : Z;
  cfg_BudgetSweepFloor : float64;
  cfg_BudgetEventFloor : float64;
  cfg_BudgetMaxConcurrent : Z;
  cfg_BudgetRESTLimit : Z;
  cfg_BudgetGraphQLLimit : Z;
  cfg_BudgetSecondaryFallback : duration;
  cfg_BudgetLeaseTTL : duration;
  cfg_BudgetLeaseRenewInterval : duration;
  cfg_SweepOpenStackMaxStaleness : duration;
  cfg_SweepOpenPRMaxStaleness : duration;
  cfg_SweepRepoRulesMaxStaleness : duration;
  cfg_SweepClosedMaxStaleness : duration;
  cfg_SweepRepositoryListPeriod : duration;
  cfg_SweepPageSize : Z;
  cfg_GapHealPeriod : duration;
  cfg_GapWindow : duration;
  cfg_GapPageSize : Z;
  cfg_GapMaxPages : Z;
  cfg_GapLeaseTTL : duration;
  cfg_GapContinuationDelay : duration;
  cfg_GapDeepScanPeriod : duration;
  cfg_DriftPeriod : duration;
  cfg_DriftSampleSize : Z;
  cfg_DriftPageSize : Z;
  cfg_DriftResolvedRetention : duration;
  cfg_RetentionPeriod : duration;
  cfg_RetentionAge : duration;
  cfg_RetentionBatchSize : Z;
  cfg_WatermarkRefresh : duration;
  cfg_WatermarkLeaseTTL : duration;
  cfg_WatermarkFenceTimeout : duration;
  cfg_StreamRetentionPeriod : duration;
  cfg_StreamRetentionAge : duration;
  cfg_StreamRetentionBatch : Z;
  cfg_DeriverPollInterval : duration;
  cfg_DeriverDirtyCap : Z
}.

Inductive config_error : Type :=
  | InvalidVariable (key : string)
  | DebounceTooLong
  | RetentionAgeTooShort
  | StreamRetentionAgeTooShort
  | WatermarkRefreshTooSlow
  | FloorsNotOrdered
  | RenewIntervalTooLong
  | BackfillPageTooLarge
  | PageSizesTooLarge
  | GapWindowTooLong
  | InvalidDatabaseAuth
  | DatabaseURLRequired
  | DatabaseURLInvalid
  | PasswordConfigured
  | WebhookSecretRequired
  | InstallationRequired
  | AppCredentialsRequired.

(** ** Reading variables *)

Definition parsePositiveInt (raw : string) : option Z :=
  match ParseInt raw with
  | Some v => if v <=? 0 then None else Some v
  | None => None
  end.

Definition parseUnitFraction (raw : string) : option float64 :=
  match ParseFloat raw with
  | Some v => if f64_ltb f64_zero v && f64_ltb v f64_one then Some v else None
  | None => None
  end.

Definition parsePositiveDuration (raw : string) : option duration :=
  match ParseDuration raw with
  | Some v => if v <=? 0 then None else Some v
  | None => None
  end.

Definition ParseDatabaseAuth (value : string) : result config_error string :=
  if String.eqb value "" then Ok DatabaseAuthPassword
  else if String.eqb value DatabaseAuthPassword || String.eqb value DatabaseAuthRDSIAM then Ok value
  else Err InvalidDatabaseAuth.

Definition MaxDebounce : duration := 15 * Second.
Definition lockedRetentionAge : duration := 90 * 24 * Hour.
Definition lockedStreamRetentionAge : duration := 7 * 24 * Hour.

(** The checks between the values. *)
Definition cross_checks (c : Config) : option config_error :=
  if cfg_WatermarkLeaseTTL c `quot` 2 <=? cfg_WatermarkRefresh c then Some WatermarkRefreshTooSlow
  else if f64_leb (cfg_BudgetSweepFloor c) (cfg_BudgetEventFloor c) then Some FloorsNotOrdered
  else if cfg_BudgetLeaseTTL c <=? cfg_BudgetLeaseRenewInterval c then Some RenewIntervalTooLong
  else if 100 <? cfg_BackfillPageSize c then Some BackfillPageTooLarge
  else if (100 <? cfg_SweepPageSize c) || (100 <? cfg_GapPageSize c) || (100 <? cfg_DriftPageSize c) then Some PageSizesTooLarge
  else if (githubDeliveryRetention <? cfg_GapWindow c) || (githubDeliveryRetention - cfg_GapWindow c <? cfg_GapDeepScanPeriod c)
  then Some GapWindowTooLong
  else None.

Section environment.
Context (getenv : string → string).

Definition envOr (key fallback : string) : string := if String.eqb (getenv key) "" then fallback else getenv key.

(** A variable that is not set leaves the default. *)
Definition setting {T} (parse : string → option T) (key : string) (fallback : T) : result config_error T :=
  if String.eqb (getenv key) "" then Ok fallback
  else match parse (getenv key) with Some v => Ok v | None => Err (InvalidVariable key) end.

(** A duration with a bound that only a set value has to meet. *)
Definition bounded_setting (key : string) (fallback : duration) (ok : duration → bool) (e : config_error)
    : result config_error duration :=
  if String.eqb (getenv key) "" then Ok fallback
  else match parsePositiveDuration (getenv key) with
       | Some v => if ok v then Ok v else Err e
       | None => Err (InvalidVariable key)
       end.

Definition FromEnv : result config_error Config :=
  v_GitHubAppID ← setting ParseInt "GITHUB_APP_ID" 0;
  v_GitHubInstallationID ← setting ParseInt "GITHUB_INSTALLATION_ID" 0;
  v_GitHubOrgID ← setting ParseInt "GITHUB_ORG_ID" 0;
  v_WebhookMaxBodyBytes ← setting parsePositiveInt "WEBHOOK_MAX_BODY_BYTES" (2 * 2 ^ 20);
  v_DispatchBatchSize ← setting parsePositiveInt "DISPATCH_BATCH_SIZE" 100;
  v_DispatchMaxAttempts ← setting parsePositiveInt "DISPATCH_MAX_ATTEMPTS" 5;
  v_DispatchDebounce ← bounded_setting "DISPATCH_DEBOUNCE" (5 * Second) (λ v, v <=? MaxDebounce) DebounceTooLong;
  v_DispatchPollInterval ← setting parsePositiveDuration "DISPATCH_POLL_INTERVAL" (250 * Millisecond);
  v_SweepOpenStackMaxStaleness ← setting parsePositiveDuration "SWEEP_OPEN_STACK_MAX_STALENESS" (5 * Minute);
  v_SweepOpenPRMaxStaleness ← setting parsePositiveDuration "SWEEP_OPEN_PR_MAX_STALENESS" (10 * Minute);
  v_SweepRepoRulesMaxStaleness ← setting parsePositiveDuration "SWEEP_REPO_RULES_MAX_STALENESS" (Hour);
  v_SweepClosedMaxStaleness ← setting parsePositiveDuration "SWEEP_CLOSED_MAX_STALENESS" (24 * Hour);
  v_SweepRepositoryListPeriod ← setting parsePositiveDuration "SWEEP_REPOSITORY_LIST_PERIOD" (Hour);
  v_GapHealPeriod ← setting parsePositiveDuration "GAP_HEAL_PERIOD" (5 * Minute);
  v_GapWindow ← setting parsePositiveDuration "GAP_COMPARISON_WINDOW" (6 * Hour);
  v_GapLeaseTTL ← setting parsePositiveDuration "GAP_HEAL_LEASE_TTL" (5 * Minute);
  v_GapContinuationDelay ← setting parsePositiveDuration "GAP_CONTINUATION_DELAY" (30 * Second);
  v_GapDeepScanPeriod ← setting parsePositiveDuration "GAP_DEEP_SCAN_PERIOD" (24 * Hour);
  v_DriftPeriod ← setting parsePositiveDuration "DRIFT_PERIOD" (Hour);
  v_DriftResolvedRetention ← setting parsePositiveDuration "DRIFT_RESOLVED_RETENTION" (30 * 24 * Hour);
  v_RetentionPeriod ← setting parsePositiveDuration "RETENTION_PERIOD" (24 * Hour);
  v_FetchBatchWindow ← setting parsePositiveDuration "FETCH_BATCH_WINDOW" (5 * Millisecond);
  v_BudgetSecondaryFallback ← setting parsePositiveDuration "BUDGET_SECONDARY_FALLBACK" (60 * Second);
  v_BudgetLeaseTTL ← setting parsePositiveDuration "BUDGET_LEASE_TTL" (30 * Second);
  v_BudgetLeaseRenewInterval ← setting parsePositiveDuration "BUDGET_LEASE_RENEW_INTERVAL" (10 * Second);
  v_WatermarkRefresh ← setting parsePositiveDuration "STREAM_WATERMARK_REFRESH" (100 * Millisecond);
  v_WatermarkLeaseTTL ← setting parsePositiveDuration "STREAM_WATERMARK_LEASE_TTL" (3 * Second);
  v_WatermarkFenceTimeout ← setting parsePositiveDuration "STREAM_WATERMARK_FENCE_LOCK_TIMEOUT" (Second);
  v_StreamRetentionPeriod ← setting parsePositiveDuration "STREAM_RETENTION_PERIOD" (Hour);
  v_DeriverPollInterval ← setting parsePositiveDuration "DERIVER_POLL_INTERVAL" (500 * Millisecond);
  v_SweepPageSize ← setting parsePositiveInt "SWEEP_PAGE_SIZE" 100;
  v_GapPageSize ← setting parsePositiveInt "GAP_PAGE_SIZE" 100;
  v_GapMaxPages ← setting parsePositiveInt "GAP_MAX_PAGES" 10;
  v_DriftSampleSize ← setting parsePositiveInt "DRIFT_SAMPLE_SIZE" 10;
  v_DriftPageSize ← setting parsePositiveInt "DRIFT_PAGE_SIZE" 100;
  v_RetentionBatchSize ← setting parsePositiveInt "RETENTION_BATCH_SIZE" 1000;
  v_BackfillPageSize ← setting parsePositiveInt "BACKFILL_PAGE_SIZE" 100;
  v_BudgetMaxConcurrent ← setting parsePositiveInt "BUDGET_MAX_CONCURRENT" 40;
  v_StreamRetentionBatch ← setting parsePositiveInt "STREAM_RETENTION_BATCH_SIZE" 1000;
  v_DeriverDirtyCap ← setting parsePositiveInt "DERIVER_DIRTY_CAP" 500;
  v_BudgetRESTLimit ← setting parsePositiveInt "BUDGET_REST_LIMIT" 5000;
  v_BudgetGraphQLLimit ← setting parsePositiveInt "BUDGET_GRAPHQL_LIMIT" 5000;
  v_BudgetSweepFloor ← setting parseUnitFraction "BUDGET_SWEEP_FLOOR" (f64_ratio 20 100);
  v_BudgetEventFloor ← setting parseUnitFraction "BUDGET_EVENT_FLOOR" (f64_ratio 10 100);
  v_RetentionAge ← bounded_setting "RETENTION_AGE" lockedRetentionAge (λ v, lockedRetentionAge <=? v) RetentionAgeTooShort;
  v_StreamRetentionAge ← bounded_setting "STREAM_RETENTION_AGE" lockedStreamRetentionAge
    (λ v, lockedStreamRetentionAge <=? v) StreamRetentionAgeTooShort;
  let cfg auth := {|
      cfg_DatabaseURL := getenv "DATABASE_URL";
      cfg_DatabaseAuth := auth;
      cfg_HTTPAddr := envOr "HTTP_ADDR" ":8080";
      cfg_GitHubAppID := v_GitHubAppID;
      cfg_GitHubInstallationID := v_GitHubInstallationID;
      cfg_GitHubOrgID := v_GitHubOrgID;
      cfg_GitHubToken := getenv "GITHUB_TOKEN";
      cfg_GitHubPrivateKeyPath := getenv "GITHUB_PRIVATE_KEY_PATH";
      cfg_GitHubWebhookSecret := getenv "GITHUB_WEBHOOK_SECRET";
      cfg_GitHubBaseURL := envOr "GITHUB_BASE_URL" "https://api.github.com";
      cfg_WebhookMaxBodyBytes := v_WebhookMaxBodyBytes;
      cfg_DispatchBatchSize := v_DispatchBatchSize;
      cfg_DispatchMaxAttempts := v_DispatchMaxAttempts;
      cfg_DispatchDebounce := v_DispatchDebounce;
      cfg_DispatchPollInterval := v_DispatchPollInterval;
      cfg_DispatchRulesFile := getenv "DISPATCH_RULES_FILE";
      cfg_FetchBatchWindow := v_FetchBatchWindow;
      cfg_BackfillPageSize := v_BackfillPageSize;
      cfg_BudgetSweepFloor := v_BudgetSweepFloor;
      cfg_BudgetEventFloor := v_BudgetEventFloor;
      cfg_BudgetMaxConcurrent := v_BudgetMaxConcurrent;
      cfg_BudgetRESTLimit := v_BudgetRESTLimit;
      cfg_BudgetGraphQLLimit := v_BudgetGraphQLLimit;
      cfg_BudgetSecondaryFallback := v_BudgetSecondaryFallback;
      cfg_BudgetLeaseTTL := v_BudgetLeaseTTL;
      cfg_BudgetLeaseRenewInterval := v_BudgetLeaseRenewInterval;
      cfg_SweepOpenStackMaxStaleness := v_SweepOpenStackMaxStaleness;
      cfg_SweepOpenPRMaxStaleness := v_SweepOpenPRMaxStaleness;
      cfg_SweepRepoRulesMaxStaleness := v_SweepRepoRulesMaxStaleness;
      cfg_SweepClosedMaxStaleness := v_SweepClosedMaxStaleness;
      cfg_SweepRepositoryListPeriod := v_SweepRepositoryListPeriod;
      cfg_SweepPageSize := v_SweepPageSize;
      cfg_GapHealPeriod := v_GapHealPeriod;
      cfg_GapWindow := v_GapWindow;
      cfg_GapPageSize := v_GapPageSize;
      cfg_GapMaxPages := v_GapMaxPages;
      cfg_GapLeaseTTL := v_GapLeaseTTL;
      cfg_GapContinuationDelay := v_GapContinuationDelay;
      cfg_GapDeepScanPeriod := v_GapDeepScanPeriod;
      cfg_DriftPeriod := v_DriftPeriod;
      cfg_DriftSampleSize := v_DriftSampleSize;
      cfg_DriftPageSize := v_DriftPageSize;
      cfg_DriftResolvedRetention := v_DriftResolvedRetention;
      cfg_RetentionPeriod := v_RetentionPeriod;
      cfg_RetentionAge := v_RetentionAge;
      cfg_RetentionBatchSize := v_RetentionBatchSize;
      cfg_WatermarkRefresh := v_WatermarkRefresh;
      cfg_WatermarkLeaseTTL := v_WatermarkLeaseTTL;
      cfg_WatermarkFenceTimeout := v_WatermarkFenceTimeout;
      cfg_StreamRetentionPeriod := v_StreamRetentionPeriod;
      cfg_StreamRetentionAge := v_StreamRetentionAge;
      cfg_StreamRetentionBatch := v_StreamRetentionBatch;
      cfg_DeriverPollInterval := v_DeriverPollInterval;
      cfg_DeriverDirtyCap := v_DeriverDirtyCap
    |} in
  let auth := envOr "DATABASE_AUTH" DatabaseAuthPassword in
  match cross_checks (cfg auth) with
  | Some e => Err e
  | None => auth ← ParseDatabaseAuth auth; Ok (cfg auth)
  end.
End environment.

(** ** Requirements *)

(** [RequireDatabase]; [parse_url] is [pgxpool.ParseConfig], with the password it finds. *)
Definition RequireDatabase (parse_url : string → option string) (c : Config) : option config_error :=
  if String.eqb (cfg_DatabaseURL c) "" then Some DatabaseURLRequired
  else if String.eqb (cfg_DatabaseAuth c) DatabaseAuthRDSIAM then
    match parse_url (cfg_DatabaseURL c) with
    | None => Some DatabaseURLInvalid
    | Some password => if String.eqb password "" then None else Some PasswordConfigured
    end
  else None.

Definition RequireWebhookSecret (c : Config) : option config_error :=
  if String.eqb (cfg_GitHubWebhookSecret c) "" then Some WebhookSecretRequired else None.

Definition RequireFetchCredentials (c : Config) : option config_error :=
  if (cfg_GitHubInstallationID c <=? 0) || (cfg_GitHubOrgID c <=? 0) then Some InstallationRequired
  else if negb (String.eqb (cfg_GitHubToken c) "") then None
  else if (cfg_GitHubAppID c <=? 0) || String.eqb (cfg_GitHubPrivateKeyPath c) "" then Some AppCredentialsRequired
  else None.

(** ** Roles *)

Definition allRoles : list string :=
  ["ingress"; "dispatch"; "fetch"; "sweep"; "drift"; "pruner"; "watermarker"; "deriver"; "metrics"].

Inductive roles_error : Type :=
  | UnsupportedRole (role : string)
  | NoRoles
  | SplitGitHubRoles.

Fixpoint collect_roles (l : list string) (roles : gset string) : result roles_error (gset string) :=
  match l with
  | [] => Ok roles
  | role :: l => if bool_decide (role ∈ allRoles) then collect_roles l ({[role]} ∪ roles) else Err (UnsupportedRole role)
  end.

(** [fetch], [sweep] and [drift], which share the installation's budget gate. *)
Definition githubRoles : list string := ["fetch"; "sweep"; "drift"].

Definition parseRoles (raw : string) : result roles_error (gset string) :=
  if String.eqb raw "all" then Ok (list_to_set allRoles)
  else
    roles ← collect_roles (Split raw ",") ∅;
    if bool_decide (roles = ∅) then Err NoRoles
    else
      let n := length (filter (.∈ roles) githubRoles) in
      if negb (Nat.eqb n 0) && negb (Nat.eqb n 3) then Err SplitGitHubRoles else Ok roles.

(** The queues a process works. *)
Definition riverPlanForRoles (roles : gset string) : list string :=
  (if bool_decide ("fetch" ∈ roles) then ["interactive"; "event"; "bulk"; "sweep"] else []) ++
  (if bool_decide ("sweep" ∈ roles) then ["reconcile"] else []) ++
  (if bool_decide ("drift" ∈ roles) then ["drift"] else []) ++
  (if bool_decide ("pruner" ∈ roles) then ["pruner"] else []).

(** What [serve] requires before it connects. *)
Inductive serve_error : Type :=
  | BadRoles (e : roles_error)
  | BadConfig (e : config_error).

Definition serve_checks (getenv : string → string) (parse_url : string → option string) (rolesFlag : string)
    : result serve_error (gset string * Config) :=
  match parseRoles rolesFlag with
  | Err e => Err (BadRoles e)
  | Ok roles =>
      match FromEnv getenv with
      | Err e => Err (BadConfig e)
      | Ok c =>
          match RequireDatabase parse_url c with
          | Some e => Err (BadConfig e)
          | None =>
              if cfg_GitHubInstallationID c <=? 0 then Err (BadConfig InstallationRequired)
              else match (if bool_decide ("ingress" ∈ roles) then RequireWebhookSecret c else None) with
                   | Some e => Err (BadConfig e)
                   | None =>
                       match (if bool_decide ("fetch" ∈ roles) || bool_decide ("sweep" ∈ roles) || bool_decide ("drift" ∈ roles)
                              then RequireFetchCredentials c else None) with
                       | Some e => Err (BadConfig e)
                       | None => Ok (roles, c)
                       end
                   end
          end
      end
  end.

(** ** The components' options *)

Definition sweepConfig (c : Config) : SweepSchedule.Config :=
  {| InstallationID := cfg_GitHubInstallationID c;
     OpenStackMaxStaleness := cfg_SweepOpenStackMaxStaleness c;
     OpenPRMaxStaleness := cfg_SweepOpenPRMaxStaleness c;
     RepoRulesMaxStaleness := cfg_SweepRepoRulesMaxStaleness c;
     ClosedMaxStaleness := cfg_SweepClosedMaxStaleness c;
     RepositoryListPeriod := cfg_SweepRepositoryListPeriod c;
     cf_PageSize := cfg_SweepPageSize c;
     GapHealPeriod := cfg_GapHealPeriod c;
     GapWindow := cfg_GapWindow c;
     GapPageSize := cfg_GapPageSize c;
     GapMaxPages := cfg_GapMaxPages c;
     GapLeaseTTL := cfg_GapLeaseTTL c;
     GapContinuationDelay := cfg_GapContinuationDelay c;
     GapDeepScanPeriod := cfg_GapDeepScanPeriod c;
     RetentionPeriod := cfg_RetentionPeriod c;
     RetentionAge := cfg_RetentionAge c;
     RetentionBatchSize := cfg_RetentionBatchSize c;
     OrphanScanPeriod := 0; OrphanStaleAfter := 0; OrphanBatchLimit := 0 |}.

Definition driftConfig (c : Config) : detect_config :=
  mkDetectConfig (cfg_GitHubInstallationID c) (cfg_DriftPeriod c) (cfg_DriftSampleSize c) (cfg_DriftPageSize c)
    (cfg_DriftResolvedRetention c) (cfg_RetentionBatchSize c).

Definition watermark_options (c : Config) : WatermarkOptions :=
  mkWatermarkOptions (cfg_WatermarkRefresh c) (cfg_WatermarkLeaseTTL c) (cfg_WatermarkFenceTimeout c).

Definition gate_options (c : Config) : Options :=
  {| MaxConcurrent := cfg_BudgetMaxConcurrent c;
     RESTLimit := cfg_BudgetRESTLimit c;
     GraphQLLimit := cfg_BudgetGraphQLLimit c;
     SweepFloor := cfg_BudgetSweepFloor c;
     EventFloor := cfg_BudgetEventFloor c;
     RESTRequestEstimate := 0;
     GraphQLPointEstimate := 0;
     SecondaryLimitFallback := cfg_BudgetSecondaryFallback c |}.

Definition lease_options (owner : string) (c : Config) : LeaseOptions :=
  mkLeaseOptions (cfg_GitHubInstallationID c) owner (cfg_BudgetLeaseTTL c) (cfg_BudgetLeaseRenewInterval c) 0 0.

(** [dispatch.Config], whose classifier has [rules]. *)
Record DispatchConfig : Type := mkDispatchConfig {
  dp_BatchSize : Z;
  dp_MaxAttempts : Z;
  dp_Debounce : duration;
  dp_PollInterval : duration;
  dp_BranchPageSize : Z;
  dp_rules : nat
}.

Inductive dispatch_error : Type :=
  | DispatchNotPositive
  | DispatchDebounceTooLong
  | BranchPageSizeInvalid
  | NoRules.

Definition DefaultBranchReconcilePageSize : Z := 25.

(** [dispatch.New], on a service with its clients. *)
Definition NewDispatcher (c : DispatchConfig) : result dispatch_error DispatchConfig :=
  if (dp_BatchSize c <=? 0) || (dp_MaxAttempts c <=? 0) || (dp_Debounce c <=? 0) || (dp_PollInterval c <=? 0)
  then Err DispatchNotPositive
  else if MaxDebounce <? dp_Debounce c then Err DispatchDebounceTooLong
  else
    let page := if dp_BranchPageSize c =? 0 then DefaultBranchReconcilePageSize else dp_BranchPageSize c in
    if (page <? 0) || (DefaultBranchReconcilePageSize <? page) then Err BranchPageSizeInvalid
    else if Nat.eqb (dp_rules c) 0 then Err NoRules
    else Ok (mkDispatchConfig (dp_BatchSize c) (dp_MaxAttempts c) (dp_Debounce c) (dp_PollInterval c) page (dp_rules c)).

Definition dispatch_config (rules : nat) (c : Config) : DispatchConfig :=
  mkDispatchConfig (cfg_DispatchBatchSize c) (cfg_DispatchMaxAttempts c) (cfg_DispatchDebounce c) (cfg_DispatchPollInterval c)
    0 rules.

(** ** What an accepted configuration is worth *)

(** The sizes, limits and durations that must be positive. *)
Definition positive_fields (c : Config) : list Z :=
  [cfg_WebhookMaxBodyBytes c; cfg_DispatchBatchSize c; cfg_DispatchMaxAttempts c; cfg_DispatchDebounce c;
   cfg_DispatchPollInterval c; cfg_FetchBatchWindow c; cfg_BackfillPageSize c; cfg_BudgetMaxConcurrent c;
   cfg_BudgetRESTLimit c; cfg_BudgetGraphQLLimit c; cfg_BudgetSecondaryFallback c; cfg_BudgetLeaseTTL c;
   cfg_BudgetLeaseRenewInterval c; cfg_SweepOpenStackMaxStaleness c; cfg_SweepOpenPRMaxStaleness c;
   cfg_SweepRepoRulesMaxStaleness c; cfg_SweepClosedMaxStaleness c; cfg_SweepRepositoryListPeriod c;
   cfg_SweepPageSize c; cfg_GapHealPeriod c; cfg_GapWindow c; cfg_GapPageSize c; cfg_GapMaxPages c;
   cfg_GapLeaseTTL c; cfg_GapContinuationDelay c; cfg_GapDeepScanPeriod c; cfg_DriftPeriod c; cfg_DriftSampleSize c;
   cfg_DriftPageSize c; cfg_DriftResolvedRetention c; cfg_RetentionPeriod c; cfg_RetentionAge c;
   cfg_RetentionBatchSize c; cfg_WatermarkRefresh c; cfg_WatermarkLeaseTTL c; cfg_WatermarkFenceTimeout c;
   cfg_StreamRetentionPeriod c; cfg_StreamRetentionAge c; cfg_StreamRetentionBatch c; cfg_DeriverPollInterval c;
   cfg_DeriverDirtyCap c].

Definition positive (z : Z) : Prop := 0 < z < 2 ^ 63.

Definition unit_fraction (x : float64) : Prop := f64_ltb f64_zero x = true ∧ f64_ltb x f64_one = true.

Record config_ok (c : Config) : Prop := {
  co_positive : Forall positive (positive_fields c);
  co_floors : unit_fraction (cfg_BudgetSweepFloor c) ∧ unit_fraction (cfg_BudgetEventFloor c) ∧
              f64_leb (cfg_BudgetSweepFloor c) (cfg_BudgetEventFloor c) = false;
  co_debounce : cfg_DispatchDebounce c ≤ MaxDebounce;
  co_watermark : cfg_WatermarkRefresh c < cfg_WatermarkLeaseTTL c `quot` 2;
  co_lease : cfg_BudgetLeaseRenewInterval c < cfg_BudgetLeaseTTL c;
  co_pages : cfg_BackfillPageSize c ≤ 100 ∧ cfg_SweepPageSize c ≤ 100 ∧ cfg_GapPageSize c ≤ 100 ∧ cfg_DriftPageSize c ≤ 100;
  co_gap : cfg_GapWindow c + cfg_GapDeepScanPeriod c ≤ githubDeliveryRetention;
  co_retention : lockedRetentionAge ≤ cfg_RetentionAge c ∧ lockedStreamRetentionAge ≤ cfg_StreamRetentionAge c;
  co_auth : cfg_DatabaseAuth c = DatabaseAuthPassword ∨ cfg_DatabaseAuth c = DatabaseAuthRDSIAM
}.

Section accepted.
Context (getenv : string → string).

Lemma int_setting key fallback v : setting getenv parsePositiveInt key fallback = Ok v → positive fallback → positive v.
Proof.
  unfold setting, parsePositiveInt. destruct (String.eqb _ _); [by intros [= <-]|].
  destruct (ParseInt _) as [z|] eqn:E; [|done]. destruct (z <=? 0) eqn:Hz; [done|]. intros [= <-] _.
  apply ParseInt_range in E as [_ ?]. to_props. split; lia.
Qed.

Lemma duration_setting key fallback v : setting getenv parsePositiveDuration key fallback = Ok v → positive fallback → positive v.
Proof.
  unfold setting, parsePositiveDuration. destruct (String.eqb _ _); [by intros [= <-]|].
  destruct (ParseDuration _) as [z|] eqn:E; [|done]. destruct (z <=? 0) eqn:Hz; [done|]. intros [= <-] _.
  apply ParseDuration_upper in E. to_props. split; lia.
Qed.

Lemma bounded_duration key fallback ok e v : bounded_setting getenv key fallback ok e = Ok v →
  positive fallback → ok fallback = true → positive v ∧ ok v = true.
Proof.
  unfold bounded_setting, parsePositiveDuration. destruct (String.eqb _ _); [by intros [= <-]|].
  destruct (ParseDuration _) as [z|] eqn:E; [|done]. destruct (z <=? 0) eqn:Hz; [done|]. destruct (ok z) eqn:Ho; [|done].
  intros [= <-] _ _. apply ParseDuration_upper in E. to_props. split; [split; lia|done].
Qed.

Lemma fraction_setting key fallback v : setting getenv parseUnitFraction key fallback = Ok v → unit_fraction fallback → unit_fraction v.
Proof.
  unfold setting, parseUnitFraction. destruct (String.eqb _ _); [by intros [= <-]|].
  destruct (ParseFloat _) as [z|]; [|done]. destruct (_ && _) eqn:Hz; [|done]. intros [= <-] _. by apply andb_true_iff in Hz.
Qed.

Lemma database_auth value v : ParseDatabaseAuth value = Ok v → v = DatabaseAuthPassword ∨ v = DatabaseAuthRDSIAM.
Proof.
  unfold ParseDatabaseAuth. destruct (String.eqb value ""); [intros [= <-]; by left|].
  destruct (String.eqb_spec value DatabaseAuthPassword) as [->|]; cbn; [intros [= <-]; by left|].
  destruct (String.eqb_spec value DatabaseAuthRDSIAM) as [->|]; cbn; [intros [= <-]; by right|done].
Qed.

(** What [FromEnv] guarantees. *)
Lemma from_env_ok c : FromEnv getenv = Ok c →
  config_ok c ∧ setting getenv ParseInt "GITHUB_INSTALLATION_ID" 0 = Ok (cfg_GitHubInstallationID c).
Proof.
  unfold FromEnv. intros H. repeat (apply bind_ok in H as (? & ? & H)). unfold cross_checks in H.
  cbn [cfg_WatermarkLeaseTTL cfg_WatermarkRefresh cfg_BudgetSweepFloor cfg_BudgetEventFloor cfg_BudgetLeaseTTL
    cfg_BudgetLeaseRenewInterval cfg_BackfillPageSize cfg_SweepPageSize cfg_GapPageSize cfg_DriftPageSize cfg_GapWindow
    cfg_GapDeepScanPeriod] in H.
  repeat match type of H with (match (if ?b then _ else _) with Some _ => _ | None => _ end) = _ => destruct b eqn:?; [done|] end.
  apply bind_ok in H as (auth & Hauth%database_auth & [= <-]).
  repeat match goal with
  | X : setting _ parsePositiveInt _ _ = _ |- _ => apply int_setting in X; [|split; [reflexivity|done]]
  | X : setting _ parsePositiveDuration _ _ = _ |- _ => apply duration_setting in X; [|split; [reflexivity|done]]
  | X : bounded_setting _ _ _ _ _ = _ |- _ => apply bounded_duration in X as [? ?]; [|split; [reflexivity|done]|reflexivity]
  | X : setting _ parseUnitFraction _ _ = _ |- _ => apply fraction_setting in X; [|split; vm_compute; reflexivity]
  end.
  to_props. split; [|assumption]. split; cbn; try assumption; try lia.
  - unfold positive_fields. cbn. repeat (apply Forall_cons_2; [assumption|]). apply Forall_nil_2.
  - split_and!; assumption.
Qed.
End accepted.

(** A fraction that [FromEnv] accepts is one the gate keeps. *)
Lemma fraction_kept fallback x : unit_fraction x → fraction_or fallback x = x.
Proof.
  unfold unit_fraction, fraction_or, f64_ltb, f64_leb, f64_zero, SFltb, SFleb. intros [H0 H1].
  assert (Hone : f64_one = S754_finite false 4503599627370496 (-52)) by (vm_compute; reflexivity). rewrite Hone in *. clear Hone.
  destruct x as [[]|[]| |[] m e]; cbn [SFcompare] in *; try discriminate. cbn [orb].
  rewrite (Z.compare_antisym e (-52)). destruct (e ?= -52); cbn [CompOpp]; [|reflexivity|discriminate].
  change (Pos.compare_cont Eq) with Pos.compare in *. rewrite (Pos.compare_antisym m). revert H1.
  generalize 4503599627370496%positive. intros one H1. destruct (m ?= one)%positive; [discriminate|reflexivity|discriminate].
Qed.

(** A string of digits with an optional sign has no space around it. *)
Definition number_char (c : ascii) : bool := Ascii.eqb c "-" || Ascii.eqb c "+" || bool_decide (is_Some (digit_value c)).

Lemma no_space_stripped c s : number_char c = true →
  strip_one space_runes (String c s) = None ∧ strip_one (srev <$> space_runes) (String c s) = None.
Proof. destruct c as [[] [] [] [] [] [] [] []]; try discriminate; intros _; split; reflexivity. Qed.

Fixpoint all_chars (p : ascii → bool) (s : string) : bool :=
  match s with EmptyString => true | String c s => p c && all_chars p s end.

Lemma parse_digits_chars s acc z : parse_digits s acc = Some z → all_chars number_char s = true.
Proof.
  revert acc. induction s as [|c s IH]; intros acc; cbn; [done|]. destruct (digit_value c) eqn:E; [|done]. intros H%IH.
  rewrite H, andb_true_r. unfold number_char. rewrite E. by rewrite !orb_true_r.
Qed.

Lemma parse_int_chars s z : ParseInt s = Some z → all_chars number_char s = true.
Proof.
  unfold ParseInt. destruct s as [|c s]; [done|]. unfold parse_unsigned.
  destruct (Ascii.eqb c "-") eqn:E1; [|destruct (Ascii.eqb c "+") eqn:E2].
  - destruct s as [|d s]; [done|]. destruct (parse_digits _ _) eqn:E; [|done]. intros _. apply parse_digits_chars in E. cbn [all_chars].
    unfold number_char at 1. by rewrite E1.
  - destruct s as [|d s]; [done|]. destruct (parse_digits _ _) eqn:E; [|done]. intros _. apply parse_digits_chars in E. cbn [all_chars].
    unfold number_char at 1. by rewrite E1, E2.
  - destruct (parse_digits _ _) eqn:E; [|done]. intros _. by apply parse_digits_chars in E.
Qed.

Lemma srev_chars p s : ∀ acc, all_chars p (srev_app s acc) = all_chars p s && all_chars p acc.
Proof.
  induction s as [|c s IH]; intros acc; cbn; [done|]. rewrite IH. cbn. by destruct (p c), (all_chars p s).
Qed.

Lemma srev_app_twice s : ∀ a b, srev_app (srev_app s a) b = srev_app a (s +:+ b).
Proof. induction s as [|c s IH]; intros a b; cbn; [done|]. by rewrite IH. Qed.

Lemma srev_involutive s : srev (srev s) = s.
Proof.
  unfold srev. rewrite srev_app_twice. change (srev_app "" (s +:+ "")) with (s +:+ "").
  induction s as [|c s IH]; [done|]. change (String c (s +:+ "") = String c s). by f_equal.
Qed.

Lemma number_trimmed s : all_chars number_char s = true → TrimSpace s = s.
Proof.
  assert (Hkeep : ∀ n s, all_chars number_char s = true →
    trim_left n space_runes s = s ∧ trim_left n (srev <$> space_runes) s = s).
  { intros [|n] [|c r] Hs; try done. cbn in Hs. apply andb_true_iff in Hs as [Hc _].
    destruct (no_space_stripped c r Hc) as [H1 H2]. cbn [trim_left]. by rewrite H1, H2. }
  intros Hs. assert (Hr : all_chars number_char (srev s) = true) by (unfold srev; rewrite srev_chars; by rewrite Hs).
  unfold TrimSpace. cbv zeta. rewrite (proj1 (Hkeep _ _ Hs)), (proj2 (Hkeep _ _ Hr)). apply srev_involutive.
Qed.

Section startup.
Context (getenv : string → string) (c : Config) (Henv : FromEnv getenv = Ok c) (Hinst : 0 < cfg_GitHubInstallationID c).

Lemma accepted : config_ok c.
Proof. apply (from_env_ok getenv c Henv). Qed.

(** The positive fields one by one. *)
Ltac fields := pose proof (co_positive c accepted) as Hf; unfold positive_fields in Hf; rewrite !Forall_cons in Hf; unfold positive in Hf.

(** Settles the comparisons of a goal. *)
Ltac settle :=
  repeat match goal with
  | |- context [?a <=? ?b] => first [rewrite (proj2 (Z.leb_gt a b)) by lia|rewrite (proj2 (Z.leb_le a b)) by lia]
  | |- context [?a <? ?b] => first [rewrite (proj2 (Z.ltb_ge a b)) by lia|rewrite (proj2 (Z.ltb_lt a b)) by lia]
  | |- context [?a =? ?b] => first [rewrite (proj2 (Z.eqb_neq a b)) by lia]
  end; cbn [orb].

Lemma watermarker_starts : NewWatermarker (watermark_options c) = Ok (watermark_options c).
Proof.
  fields. pose proof (co_watermark c accepted). unfold NewWatermarker, watermark_options. cbn [RefreshInterval LeaseTTL FenceLockTimeout].
  settle. done.
Qed.

Lemma retention_starts : NewRetention (cfg_StreamRetentionAge c) (cfg_StreamRetentionPeriod c) (cfg_StreamRetentionBatch c) = Ok tt.
Proof.
  fields. pose proof (co_retention c accepted) as [_ Hr]. unfold NewRetention.
  change lockedStreamRetentionAge with minimumRetentionAge in Hr.
  settle. done.
Qed.

Lemma installation_resolved : resolveInstallationID 0 (getenv "GITHUB_INSTALLATION_ID") = Ok (cfg_GitHubInstallationID c).
Proof.
  pose proof (proj2 (from_env_ok getenv c Henv)) as Hi. unfold setting in Hi.
  destruct (String.eqb_spec (getenv "GITHUB_INSTALLATION_ID") "") as [|Hne]; [injection Hi as Hi; lia|].
  destruct (ParseInt _) as [z|] eqn:E; [|done]. injection Hi as ->.
  unfold resolveInstallationID. cbn [Z.ltb Z.compare]. rewrite (number_trimmed _ (parse_int_chars _ _ E)).
  rewrite bool_decide_false by done. rewrite E, (proj2 (Z.leb_gt _ _)) by lia. done.
Qed.

Lemma deriver_starts : Derive.New (cfg_DeriverDirtyCap c) (cfg_DeriverPollInterval c) 0 (getenv "GITHUB_INSTALLATION_ID") =
  Ok (cfg_DeriverDirtyCap c, cfg_DeriverPollInterval c, cfg_GitHubInstallationID c).
Proof.
  fields. unfold Derive.New. settle. cbv zeta. settle.
  by rewrite installation_resolved.
Qed.

Lemma dispatcher_starts rules : rules ≠ 0%nat → ∃ d, NewDispatcher (dispatch_config rules c) = Ok d ∧ dp_BranchPageSize d = 25.
Proof.
  fields. pose proof (co_debounce c accepted). intros Hr. unfold NewDispatcher, dispatch_config.
  cbn [dp_BatchSize dp_MaxAttempts dp_Debounce dp_PollInterval dp_BranchPageSize dp_rules].
  settle. cbn.
  destruct rules; [done|]. eauto.
Qed.

Lemma gate_keeps_options :
  normalizeOptions (gate_options c) =
  {| MaxConcurrent := cfg_BudgetMaxConcurrent c; RESTLimit := cfg_BudgetRESTLimit c; GraphQLLimit := cfg_BudgetGraphQLLimit c;
     SweepFloor := cfg_BudgetSweepFloor c; EventFloor := cfg_BudgetEventFloor c;
     RESTRequestEstimate := defaultRESTEstimate; GraphQLPointEstimate := defaultGraphQLEstimate;
     SecondaryLimitFallback := cfg_BudgetSecondaryFallback c |}.
Proof.
  fields. destruct (co_floors c accepted) as (Hs & He & Hle). unfold normalizeOptions, gate_options.
  cbn [MaxConcurrent RESTLimit GraphQLLimit SweepFloor EventFloor RESTRequestEstimate GraphQLPointEstimate SecondaryLimitFallback].
  rewrite !fraction_kept by done. rewrite Hle. unfold Gate.positive_or. settle. done.
Qed.

Lemma lease_starts owner : owner ≠ "" →
  (∃ o, normalizeLeaseOptions (lease_options owner c) = Ok o) ↔ 4 ≤ cfg_BudgetLeaseTTL c.
Proof.
  fields. pose proof (co_lease c accepted). intros Ho. unfold normalizeLeaseOptions, lease_options.
  cbn [lo_InstallationID lo_Owner lo_TTL lo_RenewInterval lo_SnapshotInterval lo_StoreTimeout].
  rewrite !(proj2 (Z.leb_gt (cfg_BudgetLeaseTTL c) _)), (proj2 (Z.leb_gt (cfg_BudgetLeaseRenewInterval c) _)) by lia.
  rewrite (proj2 (Z.leb_gt (cfg_GitHubInstallationID c) _)) by lia. rewrite (proj2 (String.eqb_neq _ _) Ho).
  rewrite Z.leb_refl, (proj2 (Z.leb_gt _ (cfg_BudgetLeaseRenewInterval c))) by lia.
  rewrite Z.quot_div_nonneg by lia. set (ttl := cfg_BudgetLeaseTTL c) in *. cbn [orb].
  assert (Hq : ttl `div` 4 < ttl) by (apply Z.div_lt; lia).
  unfold defaultStoreTimeout, Second in *. settle. rewrite orb_false_r.
  destruct (Z.min _ (ttl `div` 4) <=? 0) eqn:E; to_props; split; intros Hx.
  - by destruct Hx.
  - pose proof (Z.div_le_lower_bound ttl 4 1). lia.
  - pose proof (Z.div_small ttl 4). lia.
  - eauto.
Qed.

Lemma sweeps_start :
  (∃ o, SweepSchedule.New (sweepConfig c) = Ok o) ↔ ∀ b, b ∈ config_bounds (sweepConfig c) → bound_too_small b = false.
Proof.
  fields. destruct (co_pages c accepted) as (_ & Hs & Hg & _). pose proof (co_gap c accepted) as Hgap.
  assert (Hd : with_defaults (sweepConfig c) = sweepConfig c).
  { unfold with_defaults, sweepConfig. cbn. unfold SweepSchedule.positive_or. settle. done. }
  unfold SweepSchedule.New. rewrite Hd. unfold validate.
  assert (Hp : existsb (λ d, d <=? 0) (config_durations (sweepConfig c)) = false).
  { unfold config_durations, sweepConfig. cbn. settle. done. }
  rewrite Hp. assert (Hq : (cf_PageSize (sweepConfig c) <=? 0) || (100 <? cf_PageSize (sweepConfig c)) ||
    (GapPageSize (sweepConfig c) <=? 0) || (100 <? GapPageSize (sweepConfig c)) || (GapMaxPages (sweepConfig c) <=? 0) ||
    (RetentionBatchSize (sweepConfig c) <=? 0) = false).
  { unfold sweepConfig. cbn. settle. done. }
  rewrite Hq. assert (Hw : (githubDeliveryRetention <? GapWindow (sweepConfig c)) ||
    (wrap64 (githubDeliveryRetention - GapWindow (sweepConfig c)) <? GapDeepScanPeriod (sweepConfig c)) = false).
  { unfold sweepConfig. cbn [GapWindow GapDeepScanPeriod]. rewrite wrap64_id.
    - settle. done.
    - unfold in_int64, githubDeliveryRetention, Hour, Minute, Second in *. lia. }
  rewrite Hw. destruct (existsb bound_too_small _) eqn:E; split; intros Hx.
  - by destruct Hx.
  - apply existsb_exists in E as (b & Hb & He). rewrite Hx in He; [done|]. by apply list_elem_of_In.
  - intros b Hb. by eapply existsb_false_elem in E.
  - eauto.
Qed.

Lemma drift_starts : (∃ o, Drift.New (driftConfig c) = Some o) ↔ 6 ≤ cfg_DriftSampleSize c.
Proof.
  fields. destruct (co_pages c accepted) as (_ & _ & _ & Hp). unfold Drift.New, driftConfig.
  cbn [dc_InstallationID dc_Period dc_SampleSize dc_PageSize dc_ResolvedRetention dc_RetentionBatchSize].
  change (Z.of_nat (length driftEntityKinds)) with 6.
  rewrite !(proj2 (Z.leb_gt _ _)), (proj2 (Z.ltb_ge 100 _)) by lia. cbn [orb]. rewrite !orb_false_r.
  destruct (cfg_DriftSampleSize c <? 6) eqn:E; to_props; split; intros Hx; [by destruct Hx|lia|lia|eauto].
Qed.
End startup.


(** The queues of GitHub work are worked together: a process that works one of them has
    the whole role group and works them all. *)
Theorem github_queues_together raw roles q :
  parseRoles raw = Ok roles → q ∈ riverPlanForRoles roles → q ≠ "pruner" →
  ["interactive"; "event"; "bulk"; "sweep"; "reconcile"; "drift"] ⊆ riverPlanForRoles roles.
Proof.
  assert (Hall : ∀ roles : gset string, (∀ r, r ∈ githubRoles → r ∈ roles) →
    ["interactive"; "event"; "bulk"; "sweep"; "reconcile"; "drift"] ⊆ riverPlanForRoles roles).
  { intros rs Hr. unfold riverPlanForRoles. rewrite !bool_decide_true by (apply Hr; unfold githubRoles; set_solver).
    destruct (bool_decide _); set_solver. }
  unfold parseRoles. destruct (String.eqb raw "all"); [intros [= <-] _ _; apply Hall; unfold githubRoles, allRoles; set_solver|].
  intros (rs & _ & H)%bind_ok. destruct (bool_decide (rs = ∅)); [done|].
  unfold githubRoles in H. rewrite !filter_cons, filter_nil in H.
  destruct (decide ("fetch" ∈ rs)) as [H1|H1], (decide ("sweep" ∈ rs)) as [H2|H2], (decide ("drift" ∈ rs)) as [H3|H3];
    cbn in H; try discriminate; injection H as <-; intros Hq Hp.
  - apply Hall. unfold githubRoles. intros r. rewrite !elem_of_cons, elem_of_nil. by intros [->|[->|[->|[]]]].
  - unfold riverPlanForRoles in Hq. rewrite !(bool_decide_false (_ ∈ rs)) in Hq by done. cbn in Hq.
    destruct (bool_decide _); set_solver.
Qed.

(** ** Witnesses *)

(** An environment that sets the installation and a floor. *)
Definition demo_env (key : string) : string :=
  if String.eqb key "GITHUB_INSTALLATION_ID" then "7" else if String.eqb key "BUDGET_SWEEP_FLOOR" then "3e-1" else "".

Definition demo_config : option Config := match FromEnv demo_env with Ok c => Some c | Err _ => None end.

Example unset_environment :
  match FromEnv (λ _, "") with
  | Ok c => cfg_DatabaseAuth c = "password" ∧ cfg_RetentionAge c = 90 * 24 * Hour ∧ cfg_DriftSampleSize c = 10
  | Err _ => False
  end.
Proof. vm_compute. auto. Qed.

Example misspelt_duration : FromEnv (λ key, if String.eqb key "GAP_HEAL_PERIOD" then "5 m" else "") = Err (InvalidVariable "GAP_HEAL_PERIOD").
Proof. vm_compute. reflexivity. Qed.

