(* ===== verification/Tokens.v ===== *)
(** * Installation tokens

    [internal/gh/token.go]: the installation token, cached until shortly before it expires,
    with concurrent renewals collapsed by a [singleflight] group. [token_step] interleaves
    callers, the start and the end of exchanges, and cancellations. Two groups exist, since a
    caller that already holds a gate admission must not wait for a renewal that waits for
    one. GitHub's answer to an exchange is an argument of the step that ends it. *)

From Stdlib Require Import ZArith Lia Bool String.
From stdpp Require Import strings gmap numbers base list relations.
From S2P Require Import Prelude GoStrings SweepSchedule.

Local Open Scope Z_scope.

Definition defaultTokenRefreshBefore : duration := Minute.

(** What [NewInstallationTokens] settles, given a gate, a parsed key and an absolute URL. *)
Record token_options : Type := mkTokenOptions {
  to_AppID : Z;
  to_InstallationID : Z;
  to_RefreshBefore : duration
}.

Definition NewInstallationTokens (o : token_options) : option token_options :=
  if (to_AppID o <=? 0) || (to_InstallationID o <=? 0) then None
  else Some (mkTokenOptions (to_AppID o) (to_InstallationID o)
               (if to_RefreshBefore o <=? 0 then defaultTokenRefreshBefore else to_RefreshBefore o)).

(** ** App claims *)

Record app_claims : Type := mkClaims {
  ac_IssuedAt : time;
  ac_ExpiresAt : time;
  ac_Issuer : string
}.

(** [time.Time.Truncate(time.Second)]. *)
Definition truncate_second (t : time) : time := t - t `mod` Second.

(** The claims of [AppTokens.Token] and [authorizeApp]. *)
Definition claims_at (appID : Z) (now : time) : app_claims :=
  mkClaims (truncate_second (now - 30 * Second)) (truncate_second (now + 90 * Second)) (FormatInt appID).

(** ** The cache *)

(** How an exchange ends. *)
Inductive exchange_answer : Type :=
  | ExchangeFailed
  | ExchangeStatus (code : Z)
  | ExchangeUndecodable
  | ExchangeToken (token : string) (expiresAt : time).

Inductive token_error : Type :=
  | ExchangeError
  | HTTPStatus (code : Z)
  | DecodeError
  | InvalidToken
  | Cancelled.

Record token_cache : Type := mkTokenCache {
  tk_token : string;
  tk_expiresAt : time
}.

(** [cached]: the token while it is not close to its expiry. *)
Definition cached (refreshBefore : duration) (now : time) (c : token_cache) : option string :=
  if negb (String.eqb (tk_token c) "") && (now <? tk_expiresAt c - refreshBefore) then Some (tk_token c) else None.

(** The end of [renew], when the answer arrives at [now]. *)
Definition renew (now : time) (a : exchange_answer) (c : token_cache) : result token_error string * token_cache :=
  match a with
  | ExchangeFailed => (Err ExchangeError, c)
  | ExchangeStatus code => (Err (HTTPStatus code), c)
  | ExchangeUndecodable => (Err DecodeError, c)
  | ExchangeToken token expiresAt =>
      if String.eqb token "" || (expiresAt <=? now) then (Err InvalidToken, c)
      else (Ok token, mkTokenCache token expiresAt)
  end.

(** ** Callers *)

(** A renewal of a group: whether its exchange has been sent, and who waits for it. *)
Record flight : Type := mkFlight {
  fl_sent : bool;
  fl_waiters : list Z
}.

(** What a caller got, and when it was decided. *)
Record outcome : Type := mkOutcome {
  oc_caller : Z;
  oc_result : result token_error string;
  oc_at : time;
  oc_expiresAt : time
}.

(** The cache, the renewal of each group ([true]: of callers inside an admission), the
    outcomes so far and the number of exchanges sent. *)
Record token_state : Type := mkTokens {
  ts_cache : token_cache;
  ts_flights : gmap bool flight;
  ts_outcomes : list outcome;
  ts_exchanges : nat
}.

Definition deliver (now : time) (expiresAt : time) (r : result token_error string) (waiters : list Z) (l : list outcome) : list outcome :=
  map (λ w, mkOutcome w r now expiresAt) waiters ++ l.

Section tokens.
Context (refreshBefore : duration).

(** [Token] as its caller runs it: the cached token, or a place in the group's renewal. *)
Definition Token (caller : Z) (admitted : bool) (now : time) (s : token_state) : token_state :=
  match cached refreshBefore now (ts_cache s) with
  | Some token =>
      mkTokens (ts_cache s) (ts_flights s) (deliver now (tk_expiresAt (ts_cache s)) (Ok token) [caller] (ts_outcomes s)) (ts_exchanges s)
  | None =>
      let f := default (mkFlight false []) (ts_flights s !! admitted) in
      mkTokens (ts_cache s) (<[admitted := mkFlight (fl_sent f) (fl_waiters f ++ [caller])]> (ts_flights s)) (ts_outcomes s) (ts_exchanges s)
  end.

(** The shared function of a group: the cache again, then an exchange. *)
Definition start_renewal (admitted : bool) (now : time) (f : flight) (s : token_state) : token_state :=
  match cached refreshBefore now (ts_cache s) with
  | Some token =>
      mkTokens (ts_cache s) (delete admitted (ts_flights s))
        (deliver now (tk_expiresAt (ts_cache s)) (Ok token) (fl_waiters f) (ts_outcomes s)) (ts_exchanges s)
  | None => mkTokens (ts_cache s) (<[admitted := mkFlight true (fl_waiters f)]> (ts_flights s)) (ts_outcomes s) (S (ts_exchanges s))
  end.

Definition end_renewal (admitted : bool) (now : time) (a : exchange_answer) (f : flight) (s : token_state) : token_state :=
  let '(r, c) := renew now a (ts_cache s) in
  mkTokens c (delete admitted (ts_flights s)) (deliver now (tk_expiresAt c) r (fl_waiters f) (ts_outcomes s)) (ts_exchanges s).

Inductive token_step : token_state → token_state → Prop :=
  | step_token s caller admitted now : token_step s (Token caller admitted now s)
  | step_start_renewal s admitted now f :
      ts_flights s !! admitted = Some f → fl_sent f = false → token_step s (start_renewal admitted now f s)
  | step_end_renewal s admitted now a f :
      ts_flights s !! admitted = Some f → fl_sent f = true → token_step s (end_renewal admitted now a f s)
  | step_cancel s admitted now f caller :
      ts_flights s !! admitted = Some f → caller ∈ fl_waiters f →
      token_step s (mkTokens (ts_cache s) (<[admitted := mkFlight (fl_sent f) (filter (.≠ caller) (fl_waiters f))]> (ts_flights s))
                      (deliver now zero_time (Err Cancelled) [caller] (ts_outcomes s)) (ts_exchanges s)).

Definition token_initial : token_state := mkTokens (mkTokenCache "" zero_time) ∅ [] 0.

(** A result that may be used: a token, not expired when it was handed out. *)
Definition usable (o : outcome) : Prop :=
  match oc_result o with
  | Ok token => token ≠ "" ∧ oc_at o < oc_expiresAt o
  | Err _ => True
  end.

Lemma cached_usable now c token : 0 < refreshBefore → cached refreshBefore now c = Some token →
  token ≠ "" ∧ token = tk_token c ∧ now + refreshBefore < tk_expiresAt c.
Proof.
  unfold cached. intros Hr. destruct (String.eqb_spec (tk_token c) "") as [|Hne]; [done|]. cbn.
  destruct (now <? _) eqn:E; [|done]. intros [= <-]. to_props. split_and!; [done|done|lia].
Qed.

Lemma deliver_usable now e r ws l : Forall usable l → (∀ w, usable (mkOutcome w r now e)) → Forall usable (deliver now e r ws l).
Proof.
  intros Hl Hr. unfold deliver. apply Forall_app. split; [|done]. apply Forall_forall. intros o (w & -> & _)%list_elem_of_fmap. apply Hr.
Qed.

(** The exchanges in flight. *)
Definition in_flight (s : token_state) : nat := size (filter (λ e, fl_sent e.2 = true) (ts_flights s)).

Lemma renew_usable now a c r c' w : renew now a c = (r, c') → usable (mkOutcome w r now (tk_expiresAt c')).
Proof.
  destruct a as [|code| |token e]; cbn; try (by intros [= <- <-]).
  destruct (String.eqb_spec token "") as [|Hne]; cbn; [by intros [= <- <-]|]. destruct (e <=? now) eqn:E; [by intros [= <- <-]|].
  intros [= <- <-]. to_props. unfold usable. cbn. split; [done|lia].
Qed.

Lemma in_flight_bound s : (in_flight s ≤ 2)%nat.
Proof.
  unfold in_flight. rewrite <- size_dom. trans (size (({[true; false]} : gset bool))); [|done].
  apply subseteq_size. intros []; set_solver.
Qed.

(** Every caller gets a usable token or an error. Whatever answers arrive and however calls,
    renewals and cancellations interleave, a token that [Token] hands out is not empty and
    had not expired when it was read or received, and at most one exchange of each group
    is in flight. *)
Theorem tokens_usable s : 0 < refreshBefore → rtc token_step token_initial s →
  Forall usable (ts_outcomes s) ∧ (in_flight s ≤ 2)%nat.
Proof.
  intros Hr Hrun. split; [|apply in_flight_bound].
  assert (Hstep : ∀ s s', token_step s s' → Forall usable (ts_outcomes s) → Forall usable (ts_outcomes s')).
  { intros s1 s2 Hs Hu. destruct Hs as [s1 caller ad now|s1 ad now f Hf Hn|s1 ad now a f Hf Hn|s1 ad now f caller Hf Hin].
    - unfold Token. destruct (cached _ _ _) eqn:E; [|done]. cbn [ts_outcomes]. apply deliver_usable; [done|]. intros w.
      apply cached_usable in E as (? & ? & ?); [|done]. unfold usable. cbn. split; [done|lia].
    - unfold start_renewal. destruct (cached _ _ _) eqn:E; [|done]. cbn [ts_outcomes]. apply deliver_usable; [done|]. intros w.
      apply cached_usable in E as (? & ? & ?); [|done]. unfold usable. cbn. split; [done|lia].
    - unfold end_renewal. destruct (renew _ _ _) as [r c] eqn:E. cbn [ts_outcomes]. apply deliver_usable; [done|]. intros w. by eapply renew_usable.
    - cbn [ts_outcomes]. apply deliver_usable; [done|]. by intros w. }
  assert (Hgen : ∀ s0 s, rtc token_step s0 s → Forall usable (ts_outcomes s0) → Forall usable (ts_outcomes s)).
  { clear Hrun. intros s0 s1 Hrun. induction Hrun; eauto. }
  eapply Hgen; [done|]. apply Forall_nil_2.
Qed.

(** The claims of an App token are in force when it is signed, for at least 89 and at most
    90 seconds, with the issue at least 30 seconds in the past. *)
Theorem claims_in_force appID now :
  let c := claims_at appID now in
  ac_IssuedAt c ≤ now - 30 * Second ∧ now + 89 * Second < ac_ExpiresAt c ≤ now + 90 * Second ∧
  ac_ExpiresAt c - ac_IssuedAt c = 120 * Second.
Proof.
  cbn. unfold truncate_second.
  assert (0 < Second) as Hs by done. pose proof (Z.mod_pos_bound (now - 30 * Second) Second Hs).
  pose proof (Z.mod_pos_bound (now + 90 * Second) Second Hs).
  assert ((now + 90 * Second) `mod` Second = (now - 30 * Second) `mod` Second) as He.
  { replace (now + 90 * Second) with (now - 30 * Second + 120 * Second) by lia. by rewrite Z.mod_add. }
  lia.
Qed.
End tokens.
