(* ===== verification/GenerationLocks.v ===== *)
(** * Generation locks

    The locks around the generation rows of [internal/queue/refresh.go]: the statements
    that try a batch of advisory and row locks, the loop that waits for a batch without
    keeping what a failed attempt took, the blocking lock of a completion, and the shared
    row lock an entity write takes last. [lock_step] interleaves the transactions that
    take them; the locks of other tables are outside the model.

    An attempt on a batch is one step: what it took before it failed is released by the
    rollback of its savepoint, or of the whole transaction, before anything waits. *)

From Stdlib Require Import ZArith Lia Bool String.
From stdpp Require Import sorting strings gmap numbers base list relations.
From S2P Require Import Prelude GoStrings Keys RefreshQueue Writers Convert.

Local Open Scope Z_scope.

(** ** The statements *)

(** [SELECT DISTINCT ... ORDER BY kind, refresh_key]. *)
Definition generation_keys (keys : list identity) : list identity := merge_sort identity_le (remove_dups keys).

(** The recursive query: one key after the other, up to the first that is not free. *)
Fixpoint try_in_order (free : identity → bool) (keys : list identity) : nat * bool :=
  match keys with
  | [] => (0%nat, true)
  | k :: keys => if free k then let '(n, ok) := try_in_order free keys in (S n, ok) else (0%nat, false)
  end.

Record lock_result : Type := mkLockResult {
  lr_Acquired : bool;
  lr_AcquiredCount : Z;
  lr_KeyCount : Z
}.

Definition TryAcquireRefreshIntentGenerationLocks (free : identity → bool) (keys : list identity) : lock_result :=
  let keys := generation_keys keys in
  let '(n, ok) := try_in_order free keys in
  mkLockResult ok (Z.of_nat n) (Z.of_nat (length keys)).

(** [FOR UPDATE SKIP LOCKED] on the rows that exist. *)
Definition TryAcquireRefreshIntentGenerationRowLocks (free : identity → bool) (rows : gset identity) (keys : list identity)
    : lock_result :=
  let keys := generation_keys keys in
  let existing := filter (.∈ rows) keys in
  let locked := List.filter free existing in
  mkLockResult (Nat.eqb (length locked) (length existing))
    (Z.of_nat (length keys) - Z.of_nat (length existing) + Z.of_nat (length locked)) (Z.of_nat (length keys)).

Inductive lock_error : Type :=
  | RefreshGenerationContention (acquired keys : Z)
  | LockCancelled.

(** [TryLockRefreshIntentGenerationsTx], with what is free of either kind of lock. *)
Definition TryLockRefreshIntentGenerationsTx (free_advisory free_row : identity → bool) (rows : gset identity)
    (keys : list identity) : result lock_error unit :=
  let r := TryAcquireRefreshIntentGenerationLocks free_advisory keys in
  let r := if lr_Acquired r then TryAcquireRefreshIntentGenerationRowLocks free_row rows keys else r in
  if lr_Acquired r then Ok tt else Err (RefreshGenerationContention (lr_AcquiredCount r) (lr_KeyCount r)).

(** What an attempt finds: the free locks, the existing rows, and whether the context ends
    in the wait after it. *)
Record lock_attempt : Type := mkLockAttempt {
  la_advisory : identity → bool;
  la_row : identity → bool;
  la_rows : gset identity;
  la_cancelled : bool
}.

(** [LockRefreshIntentGenerationsTx] over the attempts it meets; [None] while it is still
    waiting at the end of them. *)
Fixpoint LockRefreshIntentGenerationsTx (attempts : list lock_attempt) (keys : list identity) : option (result lock_error unit) :=
  match attempts with
  | [] => None
  | a :: attempts =>
      match TryLockRefreshIntentGenerationsTx (la_advisory a) (la_row a) (la_rows a) keys with
      | Ok u => Some (Ok u)
      | Err _ => if la_cancelled a then Some (Err LockCancelled) else LockRefreshIntentGenerationsTx attempts keys
      end
  end.

Lemma ordered_keys_elem keys k : k ∈ generation_keys keys ↔ k ∈ keys.
Proof. unfold generation_keys. rewrite merge_sort_Permutation. apply elem_of_remove_dups. Qed.

Lemma try_in_order_all free keys : (try_in_order free keys).2 = true ↔ ∀ k, k ∈ keys → free k = true.
Proof.
  induction keys as [|k keys IH]; cbn.
  { split; [|done]. by intros _ k ?%elem_of_nil. }
  destruct (free k) eqn:Hk.
  - destruct (try_in_order free keys) as [n ok]. cbn in *. rewrite IH. split.
    + intros H j [->|Hj]%elem_of_cons; auto.
    + intros H j Hj. apply H. by right.
  - cbn. split; [done|]. intros Hall. rewrite (Hall k) in Hk by (by left). done.
Qed.

Lemma filter_length_all {A} (f : A → bool) l : length (List.filter f l) = length l ↔ ∀ x, x ∈ l → f x = true.
Proof.
  induction l as [|x l IH]; cbn.
  { split; [|done]. by intros _ x ?%elem_of_nil. }
  destruct (f x) eqn:Hx; cbn.
  - rewrite Nat.succ_inj_wd, IH. split.
    + intros H y [->|Hy]%elem_of_cons; auto.
    + intros H y Hy. apply H. by right.
  - pose proof (List.filter_length_le f l). split; [lia|]. intros Hall. rewrite (Hall x) in Hx by (by left). done.
Qed.

(** An attempt succeeds exactly when every key's advisory lock and every existing row is
    free. *)
Lemma try_lock_exact adv row rows keys :
  TryLockRefreshIntentGenerationsTx adv row rows keys = Ok tt ↔
  (∀ k, k ∈ keys → adv k = true) ∧ (∀ k, k ∈ keys → k ∈ rows → row k = true).
Proof.
  unfold TryLockRefreshIntentGenerationsTx, TryAcquireRefreshIntentGenerationLocks, TryAcquireRefreshIntentGenerationRowLocks.
  pose proof (try_in_order_all adv (generation_keys keys)) as Ha. destruct (try_in_order _ _) as [n ok]. cbn in *.
  assert (Hr : (∀ k, k ∈ generation_keys keys → adv k = true) ↔ ∀ k, k ∈ keys → adv k = true) by (setoid_rewrite ordered_keys_elem; done).
  rewrite Hr in Ha. clear Hr. destruct ok; cbn.
  - destruct (Nat.eqb_spec (length (List.filter row (filter (.∈ rows) (generation_keys keys)))) (length (filter (.∈ rows) (generation_keys keys))))
      as [He|He]; cbn.
    + rewrite filter_length_all in He. split; [|done]. intros _. split; [by apply Ha|]. intros k Hk Hin. apply He.
      apply list_elem_of_filter. by rewrite ordered_keys_elem.
    + split; [done|]. intros [_ H]. destruct He. apply filter_length_all. intros k [Hin Hk]%list_elem_of_filter. rewrite ordered_keys_elem in Hk. by apply H.
  - split; [done|]. intros [H _]. by apply Ha in H.
Qed.

(** Waiting for a batch ends with the first attempt that finds everything free, unless the
    context ends before; until then nothing is held. *)
Theorem lock_waits_until_free before a after keys :
  Forall (λ b, TryLockRefreshIntentGenerationsTx (la_advisory b) (la_row b) (la_rows b) keys ≠ Ok tt ∧ la_cancelled b = false) before →
  (∀ k, k ∈ keys → la_advisory a k = true) → (∀ k, k ∈ keys → k ∈ la_rows a → la_row a k = true) →
  LockRefreshIntentGenerationsTx (before ++ a :: after) keys = Some (Ok tt).
Proof.
  intros Hb Ha Hr. induction Hb as [|b before [Hn Hc] Hb IH]; cbn.
  - by rewrite (proj2 (try_lock_exact _ _ _ _) (conj Ha Hr)).
  - destruct (TryLockRefreshIntentGenerationsTx _ _ _ _) as [[]|]; [done|]. by rewrite Hc.
Qed.

(** ** Transactions *)

Inductive row_mode : Type := Share | Update.

(** What a transaction asks for: the advisory lock of an entity, that of a generation, a
    batch it polls for, a batch it gives up on, or a generation row. *)
Inductive lock_action : Type :=
  | WaitEntity (key : string)
  | WaitAdvisory (k : identity)
  | TryAll (keys : list identity)
  | TryOrAbort (keys : list identity)
  | WaitRow (m : row_mode) (k : identity).

(** A transaction: what it has been granted and what it still asks for. *)
Record transaction : Type := mkTransaction {
  tx_done : list lock_action;
  tx_todo : list lock_action
}.

Abbreviation lock_state := (gmap Z transaction).

(** *** The programs of the code *)

(** [InsertRefreshesTx] in a transaction of its own. *)
Definition producer_locks (specs : list RefreshSpec) : list lock_action := [TryAll (map spec_identity specs)].

(** [completeRefresh]. *)
Definition completion_locks (k : identity) : list lock_action := [WaitAdvisory k; WaitRow Update k].

(** The adoption of an orphaned generation. *)
Definition orphan_locks (k : identity) : list lock_action := [WaitAdvisory k].

(** [dispatchBatchAttempt]: the targets of each branch push, then the intents. *)
Definition dispatch_locks (pushes : list (list identity)) (intents : list identity) : list lock_action :=
  map TryOrAbort pushes ++ [TryOrAbort intents].

(** [WithObservationTransaction] around a heal. *)
Definition heal_locks (entity : string) (s : RefreshSpec) : list lock_action := [WaitEntity entity; TryAll [spec_identity s]].

(** [withEntityTx]: the entity, the follow-ups of its hook, then the generations of its
    fences. *)
Definition writer_locks (entity : string) (followups : list RefreshSpec) (fences : list identity) : list lock_action :=
  WaitEntity entity ::
  match followups with [] => [] | _ => [TryAll (map spec_identity followups)] end ++ map (WaitRow Share) fences.

Section locks.
(** The advisory lock number of a generation: two generations may share one. *)
Context (hash : identity → Z).

(** Whether a granted action keeps another transaction from an action. *)
Definition conflicts (granted wanted : lock_action) : bool :=
  let advisory (k j : identity) := hash k =? hash j in
  let batch (f : identity → bool) (keys : list identity) := existsb f keys in
  match granted, wanted with
  | WaitEntity k, WaitEntity j => String.eqb k j
  | WaitAdvisory k, WaitAdvisory j => advisory k j
  | WaitAdvisory k, (TryAll keys | TryOrAbort keys) => batch (advisory k) keys
  | (TryAll held | TryOrAbort held), WaitAdvisory j => batch (λ k, advisory k j) held
  | (TryAll held | TryOrAbort held), (TryAll keys | TryOrAbort keys) =>
      batch (λ k, batch (λ j, advisory k j || bool_decide (k = j)) keys) held
  | (TryAll held | TryOrAbort held), WaitRow _ j => batch (λ k, bool_decide (k = j)) held
  | WaitRow _ k, (TryAll keys | TryOrAbort keys) => batch (λ j, bool_decide (k = j)) keys
  | WaitRow Share k, WaitRow Share j => false
  | WaitRow _ k, WaitRow _ j => bool_decide (k = j)
  | _, _ => false
  end.

(** The next action of [t] meets a lock of [u]. *)
Definition blocked_by (t u : transaction) : bool :=
  match tx_todo t with
  | [] => false
  | a :: _ => existsb (λ b, conflicts b a) (tx_done u)
  end.

Definition blocked (s : lock_state) (id : Z) (t : transaction) : Prop :=
  ∃ id' u, id' ≠ id ∧ s !! id' = Some u ∧ blocked_by t u = true.

Definition blockedb (s : lock_state) (id : Z) (t : transaction) : bool :=
  existsb (λ e, negb (e.1 =? id) && blocked_by t e.2) (map_to_list s).

Lemma blockedb_spec s id t : blockedb s id t = true ↔ blocked s id t.
Proof.
  unfold blockedb, blocked. rewrite existsb_exists. split.
  - intros ([id' u] & Hin%list_elem_of_In%elem_of_map_to_list & [Hne Hb]%andb_true_iff). cbn in *. exists id', u. split_and!; [|done|done].
    intros ->. by rewrite Z.eqb_refl in Hne.
  - intros (id' & u & Hne & Hs & Hb). exists (id', u). split; [by apply list_elem_of_In, elem_of_map_to_list|]. cbn. rewrite Hb, andb_true_r.
    by apply negb_true_iff, Z.eqb_neq.
Qed.

(** A transaction that waits: blocked, and not about to give up. *)
Definition waiting (s : lock_state) (id : Z) (t : transaction) : Prop :=
  blocked s id t ∧ match tx_todo t with TryOrAbort _ :: _ => False | _ => True end.

(** A transaction of [programs] begins, is granted its next action, or ends (committed,
    rolled back by a contended attempt, or aborted). *)
Inductive lock_step (programs : list lock_action → Prop) : lock_state → lock_state → Prop :=
  | step_begin s id p : s !! id = None → programs p → lock_step programs s (<[id := mkTransaction [] p]> s)
  | step_grant s id done a todo :
      s !! id = Some (mkTransaction done (a :: todo)) → ¬ blocked s id (mkTransaction done (a :: todo)) →
      lock_step programs s (<[id := mkTransaction (done ++ [a]) todo]> s)
  | step_end s id : lock_step programs s (delete id s).

(** The grant of a transaction's next action, as a function. *)
Definition grant (id : Z) (s : lock_state) : option lock_state :=
  match s !! id with
  | Some (mkTransaction done (a :: todo)) =>
      if blockedb s id (mkTransaction done (a :: todo)) then None else Some (<[id := mkTransaction (done ++ [a]) todo]> s)
  | _ => None
  end.

Lemma grant_step programs id s s' : grant id s = Some s' → lock_step programs s s'.
Proof.
  unfold grant. destruct (s !! id) as [[dn [|a todo]]|] eqn:E; try done. destruct (blockedb s id _) eqn:Hb; [done|]. intros [= <-].
  apply step_grant; [done|]. intros Hx%blockedb_spec. by rewrite Hx in Hb.
Qed.

Fixpoint grants (ids : list Z) (s : lock_state) : option lock_state :=
  match ids with
  | [] => Some s
  | id :: ids => match grant id s with Some s => grants ids s | None => None end
  end.

Lemma grants_steps programs ids s s' : grants ids s = Some s' → rtc (lock_step programs) s s'.
Proof.
  revert s. induction ids as [|id ids IH]; cbn; intros s; [by intros [= ->]|].
  destruct (grant id s) as [s1|] eqn:E; [|done]. intros H. eapply rtc_l; [by eapply grant_step|auto].
Qed.

Lemma all_waiting s :
  forallb (λ e, blockedb s e.1 e.2 && match tx_todo e.2 with TryOrAbort _ :: _ => false | _ => true end) (map_to_list s) = true →
  ∀ id t, s !! id = Some t → waiting s id t.
Proof.
  intros Hall id t Hin%elem_of_map_to_list%list_elem_of_In. rewrite forallb_forall in Hall. apply Hall in Hin as [Hb Ht]%andb_true_iff. cbn in *.
  split; [by apply blockedb_spec|]. by destruct (tx_todo t) as [|[]].
Qed.

(** ** No circular wait *)

(** The programs in which no follow-ups are taken before a fence. *)
Inductive fenced_apart : list lock_action → Prop :=
  | apart_producer specs : fenced_apart (producer_locks specs)
  | apart_completion k : fenced_apart (completion_locks k)
  | apart_orphan k : fenced_apart (orphan_locks k)
  | apart_dispatch pushes intents : fenced_apart (dispatch_locks pushes intents)
  | apart_heal entity s : fenced_apart (heal_locks entity s)
  | apart_writer entity followups fences :
      followups = [] ∨ fences = [] → fenced_apart (writer_locks entity followups fences).

(** The order in which the programs ask. *)
Definition rank (a : lock_action) : nat :=
  match a with
  | WaitEntity _ => 0 | WaitAdvisory _ => 1 | TryAll _ => 2 | WaitRow Update _ => 3 | WaitRow Share _ => 4 | TryOrAbort _ => 5
  end%nat.

Definition may_follow (b c : lock_action) : bool :=
  match b, c with
  | WaitEntity _, (TryAll _ | WaitRow _ _) => true
  | WaitAdvisory _, WaitRow _ _ => true
  | WaitRow Share _, WaitRow Share _ => true
  | TryOrAbort _, TryOrAbort _ => true
  | _, _ => false
  end.

Fixpoint in_order (p : list lock_action) : bool :=
  match p with
  | [] => true
  | b :: p => forallb (may_follow b) p && in_order p
  end.

Lemma fenced_apart_order p : fenced_apart p → in_order p = true.
Proof.
  destruct 1 as [specs|k|k|pushes intents|entity s|entity followups fences Hf]; [done|done|done| |done|].
  - unfold dispatch_locks. induction pushes as [|x pushes IH]; [done|]. cbn [map app in_order]. rewrite IH, andb_true_r.
    apply forallb_forall. intros a [(y & <- & _)%in_map_iff|[<-|[]]]%in_app_iff; done.
  - destruct Hf as [->| ->]; [|by destruct followups]. cbn. apply andb_true_iff. split.
    + apply forallb_forall. by intros a (k & <- & _)%in_map_iff.
    + induction fences as [|k fences IH]; [done|]. cbn. rewrite IH, andb_true_r. apply forallb_forall. by intros a (j & <- & _)%in_map_iff.
Qed.

Lemma in_order_split done c todo b : in_order (done ++ c :: todo) = true → b ∈ done → may_follow b c = true.
Proof.
  induction done as [|d done IH]; [by intros _ ?%elem_of_nil|]. cbn. intros [Hd Hr]%andb_true_iff [->|Hb]%elem_of_cons; [|auto].
  rewrite forallb_forall in Hd. apply Hd, in_app_iff. right. by left.
Qed.

(** The holder of a lock that others wait for is further on. *)
Lemma holder_ahead b c a : conflicts b a = true → may_follow b c = true → rank a ≠ 5%nat → (rank a < rank c)%nat.
Proof. destruct b as [| | | |[]], c as [| | | |[]], a as [| | | |[]]; cbn; try done; intros; lia. Qed.

Definition ordered_state (s : lock_state) : Prop := ∀ id t, s !! id = Some t → in_order (tx_done t ++ tx_todo t) = true.

Lemma ordered_reachable s : rtc (lock_step fenced_apart) ∅ s → ordered_state s.
Proof.
  assert (Hstep : ∀ s s', lock_step fenced_apart s s' → ordered_state s → ordered_state s').
  { intros s1 s2 Hs Ho. destruct Hs as [s1 id p Hn Hp|s1 id dn a todo Ht Hb|s1 id]; intros j t.
    - intros [[<- <-]|[_ Hj]]%lookup_insert_Some; [by apply fenced_apart_order|by eapply Ho].
    - intros [[<- <-]|[_ Hj]]%lookup_insert_Some; [|by eapply Ho]. cbn. rewrite <- app_assoc. by apply (Ho id _ Ht).
    - intros [_ Hj]%lookup_delete_Some. by eapply Ho. }
  assert (Hgen : ∀ s0 s, rtc (lock_step fenced_apart) s0 s → ordered_state s0 → ordered_state s).
  { intros s0 s1 Hrun. induction Hrun; eauto. }
  intros Hrun. apply (Hgen _ _ Hrun). intros id t. by rewrite lookup_empty.
Qed.

(** Following the holders of locks leads to a transaction that can go on. *)
Lemma chase s : ordered_state s → ∀ n id t a todo, s !! id = Some t → tx_todo t = a :: todo → (5 - rank a ≤ n)%nat →
  ∃ id' u, s !! id' = Some u ∧ ¬ waiting s id' u.
Proof.
  intros Ho n. induction n as [n IH] using lt_wf_ind. intros id t a todo Ht Htodo Hn.
  destruct (decide (rank a = 5%nat)) as [Ha|Ha].
  { exists id, t. split; [done|]. intros [_ H]. rewrite Htodo in H. by destruct a as [| | | |[]]. }
  destruct (blockedb s id t) eqn:Hbl.
  - apply blockedb_spec in Hbl as (id' & u & Hne & He & Hb). unfold blocked_by in Hb. rewrite Htodo in Hb.
    apply existsb_exists in Hb as (b & Hin & Hc). apply list_elem_of_In in Hin.
    destruct (tx_todo u) as [|c todo'] eqn:Hu.
    { exists id', u. split; [done|]. intros [(? & ? & _ & _ & Hx) _]. unfold blocked_by in Hx. by rewrite Hu in Hx. }
    assert (Hlt : (rank a < rank c)%nat).
    { apply (holder_ahead b c a Hc); [|done]. eapply in_order_split; [|done]. rewrite <- Hu. by eapply Ho. }
    eapply (IH (n - 1)%nat); [|done|done|]; [|lia]. assert (rank a ≤ 5)%nat by (destruct a as [| | | |[]]; cbn; lia). lia.
  - exists id, t. split; [done|]. intros [Hx%blockedb_spec _]. by rewrite Hx in Hbl.
Qed.

End locks.

(** *** Concrete transactions *)

Definition example_hash (k : identity) : Z := Z.pos (encode k).

Definition example_key : identity := (KindRefreshStack, "stack:o/r:5").

(** A completion that waits for the row its worker's fence still shares. *)
Definition completion_behind_writer : lock_state :=
  <[2 := mkTransaction [WaitAdvisory example_key] [WaitRow Update example_key]]>
  {[1 := mkTransaction [WaitEntity "stack"; WaitRow Share example_key] []]}.


(** The worker of a stack whose new member was cached in another stack. *)
Definition stack_writer (number member prior : Z) : list lock_action :=
  writer_locks (pointer_key "stack" "o/r" (FormatInt number))
    (stackFollowupSpecs "o/r" (mkStackResult true [member] [] [] {[member := prior]}))
    [(KindRefreshStack, pointer_key "stack" "o/r" (FormatInt number))].

(** Two stacks that each take a member from the other: the follow-ups of either writer lock
    the generation row that the other's fence then waits for. *)
Lemma crossing_fences : ∃ s, s ≠ ∅ ∧
  rtc (lock_step example_hash (λ p, p = stack_writer 5 1 9 ∨ p = stack_writer 9 2 5)) ∅ s ∧
  ∀ id t, s !! id = Some t → waiting example_hash s id t.
Proof.
  set (s0 := <[2 := mkTransaction [] (stack_writer 9 2 5)]> (<[1 := mkTransaction [] (stack_writer 5 1 9)]> (∅ : lock_state))).
  destruct (grants example_hash [1; 2; 1; 2] s0) as [s|] eqn:E; [|by vm_compute in E].
  exists s. split_and!.
  - intros ->. by vm_compute in E.
  - eapply rtc_l; [apply (step_begin _ _ _ 1 (stack_writer 5 1 9)); [done|by left]|].
    eapply rtc_l; [apply (step_begin _ _ _ 2 (stack_writer 9 2 5)); [done|by right]|]. by eapply grants_steps.
  - apply all_waiting. vm_compute in E. injection E as <-. by vm_compute.
Qed.
