(* ===== verification/EventHub.v ===== *)
(** * The watch hub of the example API

    [cmd/example-api]: a consumer of the change stream that fans entity changes out to
    HTTP watchers. [stream.go] keeps a bounded ring of recent events and one bounded
    queue per subscriber; [server.go] answers a watch from the ring, from the change
    tables, or with a fresh snapshot, and then follows the subscriber's queue.

    [watch_step] interleaves the tailer, the stream (any [stream_step]), the watchers'
    requests and their reads. Queues and control channels are objects shared by the hub
    and the watcher: a subscriber that the hub dropped keeps what was sent to it. *)

From Stdlib Require Import ZArith Lia Bool Ascii String.
From stdpp Require Import sorting strings gmap numbers base list relations.
From S2P Require Import Prelude GoStrings Config Keys Stream StreamClient.

Local Open Scope Z_scope.

(** ** Events *)

Definition entityStream : string := "entities".

Record materializedEvent : Type := mkMaterialized {
  me_Seq : Z;
  me_Kind : string;
  me_EntityKey : string;
  me_Entity : option string;
  me_Tombstone : bool
}.

(** [parsePositiveKeyPart]; [strconv.Atoi] reads the same numbers. *)
Definition parsePositiveKeyPart (value : string) : option Z :=
  match ParseInt value with
  | Some parsed => if parsed <=? 0 then None else Some parsed
  | None => None
  end.

Definition parse_pair (prefix key : string) : option (Z * Z) :=
  match Split key ":" with
  | [p; a; b] =>
      if bool_decide (p = prefix) then
        match parsePositiveKeyPart a, parsePositiveKeyPart b with
        | Some installationID, Some repoID => Some (installationID, repoID)
        | _, _ => None
        end
      else None
  | _ => None
  end.

Definition parseRepositoryKey (key : string) : option (Z * Z) := parse_pair "repo" key.

Definition parseRepositoryRulesKey (key : string) : option (Z * Z) := parse_pair "repo_rules" key.

Definition parseNumberedKey (key prefix : string) : option (Z * Z * Z) :=
  match Split key ":" with
  | [p; a; b; c] =>
      if bool_decide (p = prefix) then
        match parsePositiveKeyPart a, parsePositiveKeyPart b, parsePositiveKeyPart c with
        | Some installationID, Some repoID, Some number => Some (installationID, repoID, number)
        | _, _, _ => None
        end
      else None
  | _ => None
  end.

Definition parseChecksKey (key : string) : option (Z * Z * string) :=
  match Split key ":" with
  | [p; a; b; sha] =>
      if bool_decide (p = "checks") && negb (bool_decide (sha = "")) then
        match parsePositiveKeyPart a, parsePositiveKeyPart b with
        | Some installationID, Some repoID => Some (installationID, repoID, sha)
        | _, _ => None
        end
      else None
  | _ => None
  end.

(** The row a change is read from. *)
Inductive row_query : Type :=
  | QueryRepository (installationID repoID : Z)
  | QueryPullRequest (installationID repoID number : Z)
  | QueryStack (installationID repoID number : Z)
  | QueryChecks (installationID repoID : Z) (headSHA : string)
  | QueryRepoRules (installationID repoID : Z).

(** What a kind of event needs: nothing (unknown kind), a tombstone, or a row, of the entity
    its key names. *)
Inductive change_plan : Type :=
  | Unsupported
  | BadKey
  | Tombstoned
  | ReadRow (q : row_query).

Definition change_plan_of (kind key : string) : change_plan :=
  let numbered prefix (f : Z → Z → Z → change_plan) :=
    match parseNumberedKey key prefix with Some (i, r, n) => f i r n | None => BadKey end in
  let pair (p : option (Z * Z)) (f : Z → Z → change_plan) :=
    match p with Some (i, r) => f i r | None => BadKey end in
  if bool_decide (kind = "repository.tombstoned") then pair (parseRepositoryKey key) (λ _ _, Tombstoned)
  else if bool_decide (kind = "repository.changed") then pair (parseRepositoryKey key) (λ i r, ReadRow (QueryRepository i r))
  else if bool_decide (kind = "pull_request.tombstoned") then numbered "pr" (λ _ _ _, Tombstoned)
  else if bool_decide (kind = "pull_request.changed") then numbered "pr" (λ i r n, ReadRow (QueryPullRequest i r n))
  else if bool_decide (kind = "stack.tombstoned") then numbered "stack" (λ _ _ _, Tombstoned)
  else if bool_decide (kind = "stack.changed") then numbered "stack" (λ i r n, ReadRow (QueryStack i r n))
  else if bool_decide (kind = "checks.changed") then
    match parseChecksKey key with Some (i, r, sha) => ReadRow (QueryChecks i r sha) | None => BadKey end
  else if bool_decide (kind = "repo_rules.changed") then pair (parseRepositoryRulesKey key) (λ i r, ReadRow (QueryRepoRules i r))
  else Unsupported.

Inductive materialize_error : Type :=
  | InvalidEntityKey
  | RowReadFailed.

(** [materializeChange]; [query] answers with a row's JSON, with no row, or with an error. *)
Definition materializeChange (query : row_query → result unit (option string)) (event : Event)
    : result materialize_error (option materializedEvent) :=
  let result entity tombstone := Ok (Some (mkMaterialized (Seq event) (ev_Kind event) (EntityKey event) entity tombstone)) in
  match change_plan_of (ev_Kind event) (EntityKey event) with
  | Unsupported => Ok None
  | BadKey => Err InvalidEntityKey
  | Tombstoned => result None true
  | ReadRow q =>
      match query q with
      | Ok (Some entity) => result (Some entity) false
      | Ok None => result None true
      | Err _ => Err RowReadFailed
      end
  end.

(** ** The hub *)

Record resyncAdvisory : Type := mkAdvisory {
  ra_Reason : string;
  ra_FromSeq : Z;
  ra_PrunedThroughSeq : Z
}.

(** A subscriber's channels; [subscriberControl] carries an advisory or nothing. *)
Record subscriber : Type := mkSubscriber {
  sb_events : list materializedEvent;
  sb_control : option (option resyncAdvisory);
  sb_afterSeq : Z
}.

(** [hub_objects] is the heap of subscribers, [hub_subscribers] the hub's map. *)
Record eventHub : Type := mkHub {
  hub_ring : list materializedEvent;
  hub_ringStart : nat;
  hub_ringCapacity : nat;
  hub_subscriberBuffer : nat;
  hub_subscribers : gset Z;
  hub_objects : gmap Z subscriber;
  hub_baseSeq : Z;
  hub_throughSeq : Z;
  hub_knownSafeSeq : Z;
  hub_closed : bool
}.

Definition newEventHub (ringCapacity subscriberBuffer : nat) : eventHub :=
  mkHub [] 0 ringCapacity subscriberBuffer ∅ ∅ 0 0 0 false.

Definition with_ring (ring : list materializedEvent) (start : nat) (base through known : Z) (h : eventHub) : eventHub :=
  mkHub ring start (hub_ringCapacity h) (hub_subscriberBuffer h) (hub_subscribers h) (hub_objects h) base through known (hub_closed h).

Definition with_subscribers (subs : gset Z) (objects : gmap Z subscriber) (h : eventHub) : eventHub :=
  mkHub (hub_ring h) (hub_ringStart h) (hub_ringCapacity h) (hub_subscriberBuffer h) subs objects
    (hub_baseSeq h) (hub_throughSeq h) (hub_knownSafeSeq h) (hub_closed h).

Definition initialize (safeSeq : Z) (h : eventHub) : eventHub := with_ring [] 0 safeSeq safeSeq safeSeq h.

(** A send on the control channel of a dropped subscriber: one slot, [None] would block. *)
Definition send_control (c : option resyncAdvisory) (sub : subscriber) : option subscriber :=
  match sb_control sub with
  | Some _ => None
  | None => Some (mkSubscriber (sb_events sub) (Some c) (sb_afterSeq sub))
  end.

(** Dropping a subscriber with a last message. *)
Definition drop_subscriber (c : option resyncAdvisory) (id : Z) (h : eventHub) : option eventHub :=
  match hub_objects h !! id with
  | None => None
  | Some sub =>
      match send_control c sub with
      | None => None
      | Some sub => Some (with_subscribers (hub_subscribers h ∖ {[id]}) (<[id := sub]> (hub_objects h)) h)
      end
  end.

Definition slow_client : resyncAdvisory := mkAdvisory "slow_client" 0 0.

(** The body of [publish]'s loop. *)
Definition offer (event : materializedEvent) (id : Z) (h : eventHub) : option eventHub :=
  match hub_objects h !! id with
  | None => None
  | Some sub =>
      if me_Seq event <=? sb_afterSeq sub then Some h
      else if Nat.ltb (length (sb_events sub)) (hub_subscriberBuffer h) then
        Some (with_subscribers (hub_subscribers h)
                (<[id := mkSubscriber (sb_events sub ++ [event]) (sb_control sub) (me_Seq event)]> (hub_objects h)) h)
      else drop_subscriber (Some slow_client) id h
  end.

Fixpoint for_subscribers (f : Z → eventHub → option eventHub) (ids : list Z) (h : eventHub) : option eventHub :=
  match ids with
  | [] => Some h
  | id :: ids => match f id h with Some h => for_subscribers f ids h | None => None end
  end.

(** The ring's part of [publish]; [None] is an index out of range. *)
Definition push_ring (event : materializedEvent) (h : eventHub) : option eventHub :=
  let known := Z.max (me_Seq event) (hub_knownSafeSeq h) in
  if Nat.eqb (length (hub_ring h)) (hub_ringCapacity h) then
    match hub_ring h !! hub_ringStart h with
    | None => None
    | Some old =>
        Some (with_ring (<[hub_ringStart h := event]> (hub_ring h)) ((hub_ringStart h + 1) mod hub_ringCapacity h)
                (me_Seq old) (me_Seq event) known h)
    end
  else Some (with_ring (hub_ring h ++ [event]) (hub_ringStart h) (hub_baseSeq h) (me_Seq event) known h).

(** [None] is a send that blocks or an index out of range. *)
Definition publish (event : materializedEvent) (h : eventHub) : option eventHub :=
  if hub_closed h || (me_Seq event <=? hub_throughSeq h) then Some h
  else match push_ring event h with
       | None => None
       | Some h => for_subscribers (offer event) (elements (hub_subscribers h)) h
       end.

Inductive subscription : Type :=
  | subscriptionNotCovered
  | subscriptionCovered (current : Z) (replay : list materializedEvent)
  | subscriptionClosed.

(** The ring from its start, as the loop over offsets reads it. *)
Definition ring_events (h : eventHub) : list materializedEvent :=
  omap (λ offset, hub_ring h !! ((hub_ringStart h + offset) mod length (hub_ring h))%nat) (seq 0 (length (hub_ring h))).

#[local] Arguments ring_events : simpl never.

Definition subscribeFromRingLocked (from : Z) (h : eventHub) : subscription * eventHub :=
  if hub_closed h then (subscriptionClosed, h)
  else if hub_knownSafeSeq h <? from then (subscriptionNotCovered, h)
  else if (from <? hub_throughSeq h) && (from <? hub_baseSeq h) then (subscriptionNotCovered, h)
  else
    let current := fresh (dom (hub_objects h)) in
    (subscriptionCovered current (filter (λ e, from < me_Seq e) (ring_events h)),
     with_subscribers ({[current]} ∪ hub_subscribers h)
       (<[current := mkSubscriber [] None (Z.max from (hub_throughSeq h))]> (hub_objects h)) h).

Definition subscribeFromRing (from : Z) (h : eventHub) : subscription * eventHub := subscribeFromRingLocked from h.

Definition updateKnownSafeLocked (safeSeq : Z) (h : eventHub) : eventHub :=
  with_ring (hub_ring h) (hub_ringStart h) (hub_baseSeq h) (hub_throughSeq h) (Z.max safeSeq (hub_knownSafeSeq h)) h.

Definition subscribeAfterSnapshot (safeSeq : Z) (h : eventHub) : subscription * eventHub :=
  subscribeFromRingLocked safeSeq (updateKnownSafeLocked safeSeq h).

Definition unsubscribe (current : Z) (h : eventHub) : eventHub :=
  with_subscribers (hub_subscribers h ∖ {[current]}) (hub_objects h) h.

Definition resetForResync (safeSeq : Z) (advisory : resyncAdvisory) (h : eventHub) : option eventHub :=
  initialize safeSeq <$> for_subscribers (drop_subscriber (Some advisory)) (elements (hub_subscribers h)) h.

Definition close (h : eventHub) : option eventHub :=
  if hub_closed h then Some h
  else for_subscribers (drop_subscriber None) (elements (hub_subscribers h))
         (mkHub (hub_ring h) (hub_ringStart h) (hub_ringCapacity h) (hub_subscriberBuffer h) (hub_subscribers h) (hub_objects h)
            (hub_baseSeq h) (hub_throughSeq h) (hub_knownSafeSeq h) true).

(** [handleEvent] over the events of a page, up to the first that fails. *)
Fixpoint handle_events (query : Event → row_query → result unit (option string)) (events : list Event) (h : eventHub)
    : option (eventHub * bool) :=
  match events with
  | [] => Some (h, true)
  | e :: events =>
      match materializeChange (query e) e with
      | Err _ => Some (h, false)
      | Ok None => handle_events query events h
      | Ok (Some m) => match publish m h with Some h => handle_events query events h | None => None end
      end
  end.

(** ** The server *)

(** [resumeSequence], from the [from] parameter when there is one and the [Last-Event-ID]
    header otherwise; [None] inside [Ok] asks for a snapshot. *)
Definition resumeSequence (from : option string) (lastEventID : string) : result unit (option Z) :=
  let value := default lastEventID from in
  if String.eqb (TrimSpace value) "" then match from with Some _ => Err tt | None => Ok None end
  else match ParseInt value with
       | Some seq => if seq <? 0 then Err tt else Ok (Some seq)
       | None => Err tt
       end.

Fixpoint materialize_all (query : row_query → result unit (option string)) (events : list Event)
    : result materialize_error (list materializedEvent) :=
  match events with
  | [] => Ok []
  | e :: events =>
      m ← materializeChange query e;
      rest ← materialize_all query events;
      Ok (match m with Some m => m :: rest | None => rest end)
  end.

(** The transaction of [subscribeFromDatabase]. *)
Inductive replay_read : Type :=
  | ReplayFailed
  | ReplayAdvisory (advisory : resyncAdvisory)
  | ReplayEvents (events : list materializedEvent) (safeSeq : Z).

Definition subscribeFromDatabase (replayLimit : nat) (query : row_query → result unit (option string)) (from : Z)
    (d : stream_tables) : replay_read :=
  let prunedThrough := pruned_through d entityStream in
  let safeSeq := safe_seq (stream_watermark d) in
  if from <? prunedThrough then ReplayAdvisory (mkAdvisory "pruned_horizon" from prunedThrough)
  else if safeSeq <? from then ReplayAdvisory (mkAdvisory "future_sequence" from 0)
  else
    let streamEvents := PageChangeEvents entityStream from safeSeq (Z.of_nat replayLimit + 1) d in
    if Nat.ltb replayLimit (length streamEvents) then ReplayAdvisory (mkAdvisory "replay_limit_exceeded" from 0)
    else match materialize_all query streamEvents with
         | Err _ => ReplayFailed
         | Ok events => ReplayEvents events safeSeq
         end.

(** A watcher between its read of the tables and its registration, in
    [serveSubscription] with what is left of its replay, or gone. *)
Inductive watch_phase : Type :=
  | Registering (events : list materializedEvent) (safeSeq : Z)
  | Following (current : Z) (replay : list materializedEvent)
  | Finished.

(** [wa_from]: the sequence it resumed from, or that of its snapshot. [wa_written]: the
    [change] events written to it. *)
Record watcher : Type := mkWatcher {
  wa_from : Z;
  wa_phase : watch_phase;
  wa_written : list materializedEvent
}.

(** The stream, the hub, the tailer's committed cursor and the watchers. *)
Record watch_state : Type := mkWatch {
  ws_stream : stream_state;
  ws_hub : eventHub;
  ws_cursor : Z;
  ws_watchers : gmap Z watcher
}.

Definition safe_of (s : stream_state) : Z := safe_seq (stream_watermark (tabs s)).

Section watch.
Context (batchSize : Z) (replayLimit : nat).

Inductive watch_step : watch_state → watch_state → Prop :=
  | step_stream s s' h c ws :
      stream_step s s' → watch_step (mkWatch s h c ws) (mkWatch s' h c ws)
  | step_tail s h h' c ws query n ok :
      (** A page of [Tail]: its first [n] events are handled, and the cursor moves when all
          of them were and the transaction committed. *)
      let page := PageChangeEvents entityStream c (safe_of s) batchSize (tabs s) in
      pruned_through (tabs s) entityStream ≤ c →
      handle_events query (take n page) h = Some (h', ok) →
      ∀ committed : bool, (committed = true → ok = true ∧ (length page ≤ n)%nat) →
      watch_step (mkWatch s h c ws) (mkWatch s h' (if committed then page_end c page else c) ws)
  | step_resync s h h' c ws safeSeq :
      (** [ErrResyncRequired]: a bootstrap at a watermark, then the reset. *)
      c < pruned_through (tabs s) entityStream → 0 ≤ safeSeq ≤ safe_of s →
      resetForResync safeSeq (mkAdvisory "pruned_horizon" c (pruned_through (tabs s) entityStream)) h = Some h' →
      watch_step (mkWatch s h c ws) (mkWatch s h' safeSeq ws)
  | step_close s h h' c ws :
      close h = Some h' → watch_step (mkWatch s h c ws) (mkWatch s h' c ws)
  | step_watch_ring s h h' c ws id from current replay :
      ws !! id = None → subscribeFromRing from h = (subscriptionCovered current replay, h') →
      watch_step (mkWatch s h c ws) (mkWatch s h' c (<[id := mkWatcher from (Following current replay) []]> ws))
  | step_watch_database s h c ws id from query events safeSeq :
      ws !! id = None → subscribeFromDatabase replayLimit query from (tabs s) = ReplayEvents events safeSeq →
      watch_step (mkWatch s h c ws) (mkWatch s h c (<[id := mkWatcher from (Registering events safeSeq) []]> ws))
  | step_watch_snapshot s h c ws id :
      (** [writeSnapshot]: the entities as of the watermark. *)
      ws !! id = None →
      watch_step (mkWatch s h c ws) (mkWatch s h c (<[id := mkWatcher (safe_of s) (Registering [] (safe_of s)) []]> ws))
  | step_register s h c ws id from events safeSeq r h' :
      ws !! id = Some (mkWatcher from (Registering events safeSeq) []) → subscribeAfterSnapshot safeSeq h = (r, h') →
      watch_step (mkWatch s h c ws)
        (mkWatch s h' c (<[id := mkWatcher from
           match r with subscriptionCovered current replay => Following current (events ++ replay) | _ => Finished end []]> ws))
  | step_write_replay s h c ws id from current e replay written sub :
      ws !! id = Some (mkWatcher from (Following current (e :: replay)) written) →
      hub_objects h !! current = Some sub → sb_control sub = None →
      watch_step (mkWatch s h c ws) (mkWatch s h c (<[id := mkWatcher from (Following current replay) (written ++ [e])]> ws))
  | step_write_event s h c ws id from current written sub e rest :
      ws !! id = Some (mkWatcher from (Following current []) written) →
      hub_objects h !! current = Some sub → sb_events sub = e :: rest →
      watch_step (mkWatch s h c ws)
        (mkWatch s (with_subscribers (hub_subscribers h) (<[current := mkSubscriber rest (sb_control sub) (sb_afterSeq sub)]> (hub_objects h)) h) c
           (<[id := mkWatcher from (Following current []) (written ++ [e])]> ws))
  | step_leave s h c ws id from current replay written :
      (** A control message, a cancelled request or a failed write. *)
      ws !! id = Some (mkWatcher from (Following current replay) written) →
      watch_step (mkWatch s h c ws) (mkWatch s (unsubscribe current h) c (<[id := mkWatcher from Finished written]> ws)).

(** [start]: a bootstrap at a watermark, then the hub's [initialize]. *)
Inductive watch_initial : watch_state → Prop :=
  | watch_start s capacity buffer safeSeq :
      stream_reachable s → 0 ≤ safeSeq ≤ safe_of s → capacity ≠ 0%nat →
      watch_initial (mkWatch s (initialize safeSeq (newEventHub capacity buffer)) safeSeq ∅).

Definition watch_reachable (w : watch_state) : Prop := ∃ w0, watch_initial w0 ∧ rtc watch_step w0 w.
End watch.

(** ** What a watcher should see *)

Definition notice (e : materializedEvent) : Z * string * string := (me_Seq e, me_Kind e, me_EntityKey e).

Definition event_notice (e : Event) : Z * string * string := (Seq e, ev_Kind e, EntityKey e).

Definition supported (e : Event) : bool :=
  match change_plan_of (ev_Kind e) (EntityKey e) with Unsupported => false | _ => true end.

(** The supported changes committed in an interval of the stream, in order. *)
Definition changes (s : stream_state) (after through : Z) : list (Z * string * string) :=
  map event_notice (List.filter supported (events_between (log s) entityStream after through)).

(** *** The stream *)

Lemma events_between_unique m m' st a t a' t' :
  keyed m → keyed m' →
  (∀ e, m !! Seq e = Some e ∧ ev_Stream e = st ∧ a < Seq e ≤ t ↔ m' !! Seq e = Some e ∧ ev_Stream e = st ∧ a' < Seq e ≤ t') →
  events_between m st a t = events_between m' st a' t'.
Proof.
  intros Hk Hk' Heq. apply (StronglySorted_unique_strong seq_le).
  - intros e1 e2 (H1 & _)%events_between_elem (H2 & H2' & Hb)%events_between_elem H12 H21; [|done..].
    unfold seq_le in *. assert (Seq e1 = Seq e2) as Hs by lia. assert (m !! Seq e2 = Some e2) as Hm by (by apply Heq).
    rewrite Hs in H1. by simplify_eq.
  - apply events_between_le.
  - apply events_between_le.
  - apply NoDup_Permutation; [by apply events_between_NoDup..|]. intros e. by rewrite !events_between_elem by done.
Qed.

Lemma events_between_split m st a b c : keyed m → a ≤ b ≤ c →
  events_between m st a c = events_between m st a b ++ events_between m st b c.
Proof.
  intros Hk Hb. apply (StronglySorted_unique_strong seq_le).
  - intros e1 e2 (H1 & _)%events_between_elem Hin H12 H21; [|done].
    assert (m !! Seq e2 = Some e2) as H2 by (by apply elem_of_app in Hin as [Hin|Hin]; apply events_between_elem in Hin as (? & _)).
    unfold seq_le in *. assert (Seq e1 = Seq e2) as Hs by lia. rewrite Hs in H1. by simplify_eq.
  - apply events_between_le.
  - apply StronglySorted_app_2; [|apply events_between_le..].
    intros x y (_ & _ & ?)%events_between_elem (_ & _ & ?)%events_between_elem; [|done..]. unfold seq_le. lia.
  - apply NoDup_Permutation; [by apply events_between_NoDup| |].
    + apply NoDup_app. split_and!; [by apply events_between_NoDup| |by apply events_between_NoDup].
      intros x (_ & _ & ?)%events_between_elem (_ & _ & ?)%events_between_elem; [lia|done..].
    + intros e. rewrite elem_of_app, !events_between_elem by done. split; [|intuition lia].
      intros (H1 & H2 & H3). destruct (decide (Seq e ≤ b)); [left|right]; split_and!; done || lia.
Qed.

Definition notice_seq (n : Z * string * string) : Z := n.1.1.

Lemma changes_split s a b c : stream_inv s → a ≤ b ≤ c → changes s a c = changes s a b ++ changes s b c.
Proof.
  intros Hi Hb. unfold changes. rewrite (events_between_split _ _ a b c) by (done || apply Hi).
  by rewrite List.filter_app, map_app.
Qed.

Lemma changes_range s a b n : stream_inv s → n ∈ changes s a b → a < notice_seq n ≤ b.
Proof.
  intros Hi (e & -> & He)%list_elem_of_fmap. apply list_elem_of_In, filter_In in He as [He _].
  apply list_elem_of_In, events_between_elem in He as (_ & _ & ?); [done|apply Hi].
Qed.

Lemma changes_empty s a b : stream_inv s → b ≤ a → changes s a b = [].
Proof.
  intros Hi Hb. destruct (changes s a b) as [|n l] eqn:E; [done|]. assert (a < notice_seq n ≤ b); [|lia].
  apply (changes_range s); [done|]. rewrite E. by left.
Qed.

Lemma sorted_filter_map {A} (f : A → Z) (p : A → bool) l :
  StronglySorted Z.lt (map f l) → StronglySorted Z.lt (map f (List.filter p l)).
Proof.
  induction l as [|x l IH]; cbn; [done|]. intros Hs. apply StronglySorted_inv in Hs as [Hs Hx]. destruct (p x); [|auto]. cbn.
  constructor; [auto|]. rewrite Forall_forall in *. intros y (z & -> & Hz)%list_elem_of_fmap. apply Hx, list_elem_of_fmap.
  exists z. split; [done|]. apply list_elem_of_In in Hz. apply filter_In in Hz as [? _]. by apply list_elem_of_In.
Qed.

Lemma changes_sorted s a b : stream_inv s → StronglySorted Z.lt (map notice_seq (changes s a b)).
Proof.
  intros Hi. unfold changes. rewrite map_map. cbn. apply sorted_filter_map, events_between_sorted, Hi.
Qed.

Lemma filter_no_one {A} (p : A → bool) l : (∀ x, x ∈ l → p x = false) → List.filter p l = [].
Proof.
  induction l as [|x l IH]; intros Hp; cbn; [done|]. rewrite Hp by (by left). apply IH. intros y Hy. apply Hp. by right.
Qed.

Lemma filter_every {A} (p : A → bool) l : (∀ x, x ∈ l → p x = true) → List.filter p l = l.
Proof.
  induction l as [|x l IH]; intros Hp; cbn; [done|]. rewrite Hp by (by left). f_equal. apply IH. intros y Hy. apply Hp. by right.
Qed.

(** What follows a sequence inside an interval. *)
Lemma changes_after s a b c : stream_inv s → a ≤ c → List.filter (λ n, c <? notice_seq n) (changes s a b) = changes s c b.
Proof.
  intros Hi Hc. destruct (decide (c ≤ b)) as [Hb|Hb].
  - rewrite (changes_split s a c b), List.filter_app by (done || lia).
    rewrite filter_no_one, filter_every; [done|..]; intros n Hn%changes_range; [apply Z.ltb_lt|done|apply Z.ltb_ge|done]; lia.
  - rewrite (changes_empty s c b) by (done || lia). apply filter_no_one. intros n Hn%changes_range; [|done]. apply Z.ltb_ge. lia.
Qed.

(** The changes behind the watermark are final. *)
Lemma changes_stable s s' a b : stream_inv s → stream_step s s' → b ≤ safe_of s → changes s' a b = changes s a b.
Proof.
  intros Hi Hs Hb. destruct (step_watermark_stable s s' Hi Hs) as [_ Hl]. pose proof (stream_inv_step s s' Hi Hs) as Hi'.
  unfold changes. f_equal. f_equal. apply events_between_unique; [apply Hi'|apply Hi|]. intros e. unfold safe_of in Hb.
  split; intros (He & ? & ?); (split; [|done]); [rewrite <- Hl by lia|rewrite Hl by lia]; done.
Qed.

(** Above the pruning horizon, the tables still have every committed event. *)
Lemma stored_changes s a b : stream_inv s → pruned_through (tabs s) entityStream ≤ a →
  events_between (change_events (tabs s)) entityStream a b = events_between (log s) entityStream a b.
Proof.
  intros Hi Hp. destruct (si_tables s Hi) as [Hk Hlk Hsub] eqn:E. apply events_between_unique; [done|done|]. intros e. split.
  - intros (He & ? & ?). split_and!; [by apply Hsub|done|lia|lia].
  - intros (He & Hst & ?). split_and!; [|done|lia|lia]. eapply undelivered_stored; [apply Hi|done|done|done|lia].
Qed.

(** *** The ring *)

Lemma omap_lookup_shift {A} (l : list A) (g : nat → nat) n : ∀ a k,
  (∀ o, (a ≤ o < a + n)%nat → g o = (o - a + k)%nat) → (k + n ≤ length l)%nat →
  omap (λ o, l !! g o) (seq a n) = take n (drop k l).
Proof.
  induction n as [|n IH]; intros a k Hg Hn; [done|]. cbn [seq]. rewrite list_omap_cons || cbn [omap list_omap].
  destruct (lookup_lt_is_Some_2 l k) as [x Hx]; [lia|]. rewrite (Hg a) by lia. rewrite Nat.sub_diag. cbn [Nat.add]. rewrite Hx.
  rewrite (drop_S l x k) by done. cbn [take]. f_equal. apply IH; [|lia]. intros o Ho. rewrite Hg by lia. lia.
Qed.

Lemma ring_events_rotate h : (hub_ringStart h ≤ length (hub_ring h))%nat →
  ring_events h = drop (hub_ringStart h) (hub_ring h) ++ take (hub_ringStart h) (hub_ring h).
Proof.
  intros Hs. unfold ring_events. set (r := hub_ring h) in *. set (k := hub_ringStart h) in *.
  destruct (decide (length r = 0)%nat) as [Hz|Hz]; [destruct r; [by destruct k|done]|].
  replace (seq 0 (length r)) with (seq 0 (length r - k) ++ seq (length r - k) k)
    by (rewrite <- seq_app; f_equal; lia).
  rewrite omap_app. f_equal.
  - rewrite (omap_lookup_shift r _ _ 0 k); [|intros o Ho; rewrite Nat.mod_small; lia|lia]. rewrite <- length_drop. apply firstn_all.
  - rewrite (omap_lookup_shift r _ _ (length r - k) 0); [done| |lia].
    intros o Ho. replace (k + o)%nat with (o - (length r - k) + 1 * length r)%nat by lia. rewrite Nat.Div0.mod_add, Nat.mod_small; lia.
Qed.

(** The shape of the ring: full, or not yet wrapped. *)
Record ring_shape (h : eventHub) : Prop := {
  rs_capacity : hub_ringCapacity h ≠ 0%nat;
  rs_length : (length (hub_ring h) ≤ hub_ringCapacity h)%nat;
  rs_start : if decide (length (hub_ring h) = hub_ringCapacity h)
             then (hub_ringStart h < hub_ringCapacity h)%nat else hub_ringStart h = 0%nat
}.

Definition same_hub (h h' : eventHub) : Prop :=
  hub_ring h' = hub_ring h ∧ hub_ringStart h' = hub_ringStart h ∧ hub_ringCapacity h' = hub_ringCapacity h ∧
  hub_baseSeq h' = hub_baseSeq h ∧ hub_throughSeq h' = hub_throughSeq h ∧ hub_knownSafeSeq h' = hub_knownSafeSeq h ∧
  hub_closed h' = hub_closed h.

Lemma ring_events_ext h h' : same_hub h h' → ring_events h' = ring_events h.
Proof. intros (Hr & Hs & _). unfold ring_events. by rewrite Hr, Hs. Qed.

Lemma ring_start_le h : ring_shape h → (hub_ringStart h ≤ length (hub_ring h))%nat.
Proof. intros [_ _ Hs]. destruct (decide _); lia. Qed.

(** A push drops the oldest event of a full ring, whose sequence becomes the base. *)
Lemma push_ring_spec e h : ring_shape h → ∃ h', push_ring e h = Some h' ∧ ring_shape h' ∧
  hub_subscribers h' = hub_subscribers h ∧ hub_objects h' = hub_objects h ∧ hub_closed h' = hub_closed h ∧
  hub_throughSeq h' = me_Seq e ∧ hub_knownSafeSeq h' = Z.max (me_Seq e) (hub_knownSafeSeq h) ∧
  ((hub_baseSeq h' = hub_baseSeq h ∧ ring_events h' = ring_events h ++ [e]) ∨
   ∃ old rest, ring_events h = old :: rest ∧ hub_baseSeq h' = me_Seq old ∧ ring_events h' = rest ++ [e]).
Proof.
  intros Hsh. pose proof (ring_start_le h Hsh) as Hle. destruct Hsh as [Hc Hl Hs]. unfold push_ring.
  destruct (Nat.eqb_spec (length (hub_ring h)) (hub_ringCapacity h)) as [Hf|Hf].
  - rewrite decide_True in Hs by done. destruct (lookup_lt_is_Some_2 (hub_ring h) (hub_ringStart h)) as [old Hold]; [lia|]. rewrite Hold.
    eexists. split; [done|]. cbn.
    assert (Hst : ((hub_ringStart h + 1) `mod` hub_ringCapacity h < hub_ringCapacity h)%nat) by (by apply Nat.mod_upper_bound).
    split; [split; cbn; rewrite ?length_insert; [done|done|by rewrite decide_True]|]. split_and!; [done..|]. right.
    exists old, (drop (S (hub_ringStart h)) (hub_ring h) ++ take (hub_ringStart h) (hub_ring h)). split_and!.
    + rewrite ring_events_rotate by done. by rewrite (drop_S _ old) by done.
    + done.
    + rewrite ring_events_rotate by (cbn; rewrite length_insert; lia). cbn [hub_ring hub_ringStart with_ring].
      destruct (decide (hub_ringStart h + 1 = hub_ringCapacity h)%nat) as [He|He].
      * rewrite He, Nat.Div0.mod_same, drop_0, take_0, app_nil_r. rewrite insert_take_drop by lia.
        rewrite (drop_ge _ (S (hub_ringStart h))) by lia. done.
      * rewrite Nat.mod_small by lia. rewrite Nat.add_1_r, <- app_assoc. f_equal.
        -- by rewrite drop_insert_lt by lia.
        -- rewrite (take_S_r _ _ e) by (apply list_lookup_insert_eq; lia). by rewrite take_insert_ge by lia.
  - rewrite decide_False in Hs by done. eexists. split; [done|]. cbn. split; [split; cbn; rewrite ?length_app; cbn; [done|lia|]|].
    { rewrite Hs. destruct (decide _); lia. }
    split_and!; [done..|]. left. split; [done|]. rewrite !ring_events_rotate; cbn; rewrite ?length_app, Hs; [|lia..]. by rewrite !app_nil_r.
Qed.

(** *** Subscribers *)

(** An action on one subscriber [id], which leaves the rest of the hub alone. *)
Definition acts_alone (f : Z → eventHub → option eventHub) (Q : subscriber → subscriber → bool → Prop) : Prop :=
  ∀ id h sub, hub_objects h !! id = Some sub → sb_control sub = None →
    ∃ sub' (keep : bool), Q sub sub' keep ∧
      f id h = Some (with_subscribers (if keep then hub_subscribers h else hub_subscribers h ∖ {[id]}) (<[id := sub']> (hub_objects h)) h).

Lemma for_subscribers_spec f Q ids : acts_alone f Q → NoDup ids → ∀ h,
  (∀ id, id ∈ ids → ∃ sub, hub_objects h !! id = Some sub ∧ sb_control sub = None) →
  ∃ h', for_subscribers f ids h = Some h' ∧ same_hub h h' ∧
    (∀ id, id ∉ ids → hub_objects h' !! id = hub_objects h !! id ∧ (id ∈ hub_subscribers h' ↔ id ∈ hub_subscribers h)) ∧
    (∀ id sub, id ∈ ids → hub_objects h !! id = Some sub →
       ∃ sub' keep, Q sub sub' keep ∧ hub_objects h' !! id = Some sub' ∧
         (id ∈ hub_subscribers h' ↔ id ∈ hub_subscribers h ∧ keep = true)).
Proof.
  intros Hf Hnd. induction Hnd as [|id ids Hid Hnd IH]; intros h Hobj; cbn [for_subscribers].
  { exists h. split_and!; [done|done|done|]. by intros id sub ?%elem_of_nil. }
  destruct (Hobj id) as (sub & Hsub & Hc); [by left|]. destruct (Hf id h sub Hsub Hc) as (sub' & keep & HQ & ->).
  set (h1 := with_subscribers _ _ h).
  assert (Hne : ∀ j, j ≠ id → hub_objects h1 !! j = hub_objects h !! j ∧ (j ∈ hub_subscribers h1 ↔ j ∈ hub_subscribers h)).
  { intros j Hj. unfold h1. cbn. rewrite lookup_insert_ne by done. split; [done|]. destruct keep; [done|set_solver]. }
  destruct (IH h1) as (h' & -> & Hs & Hout & Hin).
  { intros j Hj. rewrite (proj1 (Hne j ltac:(intros ->; done))). apply Hobj. by right. }
  exists h'. split_and!; [done|by unfold same_hub in *| |].
  - intros j Hj. rewrite not_elem_of_cons in Hj. destruct Hj as [Hj1 Hj2]. destruct (Hout j Hj2) as [-> ->]. by apply Hne.
  - intros j sub0 [->|Hj]%elem_of_cons Hj0.
    + rewrite Hsub in Hj0. injection Hj0 as <-. exists sub', keep. destruct (Hout id Hid) as [-> ->]. split_and!; [done| |].
      * unfold h1. cbn. by rewrite lookup_insert_eq.
      * unfold h1. cbn. destruct keep; [naive_solver|set_solver].
    + assert (j ≠ id) as Hji by (by intros ->). destruct (Hne j Hji) as [Ho Hsb]. rewrite <- Ho in Hj0.
      destruct (Hin j sub0 Hj Hj0) as (s2 & k2 & ? & ? & Hiff). exists s2, k2. rewrite Hiff, Hsb. done.
Qed.

(** What a dropped subscriber keeps. *)
Definition dropped (sub sub' : subscriber) (keep : bool) : Prop :=
  keep = false ∧ sb_events sub' = sb_events sub ∧ sb_afterSeq sub' = sb_afterSeq sub.

Lemma drop_alone c : acts_alone (drop_subscriber c) dropped.
Proof.
  intros id h sub Hsub Hc. exists (mkSubscriber (sb_events sub) (Some c) (sb_afterSeq sub)), false. split; [done|].
  unfold drop_subscriber, send_control. by rewrite Hsub, Hc.
Qed.

(** What a publication does to a subscriber. *)
Definition offered (e : materializedEvent) (sub sub' : subscriber) (keep : bool) : Prop :=
  (keep = true → sb_control sub' = None ∧ me_Seq e ≤ sb_afterSeq sub') ∧
  ((sb_events sub' = sb_events sub ∧ sb_afterSeq sub' = sb_afterSeq sub) ∨
   (sb_afterSeq sub < me_Seq e ∧ sb_events sub' = sb_events sub ++ [e] ∧ sb_afterSeq sub' = me_Seq e)).

Lemma with_subscribers_id h : with_subscribers (hub_subscribers h) (hub_objects h) h = h.
Proof. by destruct h. Qed.

Lemma offer_alone e : acts_alone (offer e) (offered e).
Proof.
  intros id h sub Hsub Hc. unfold offer. rewrite Hsub. destruct (me_Seq e <=? sb_afterSeq sub) eqn:Ha.
  - exists sub, true. rewrite insert_id, with_subscribers_id by done. to_props. split; [|done]. split; [done|]. by left.
  - to_props. destruct (Nat.ltb _ _).
    + eexists _, true. split; [|done]. split; [by cbn|]. right. split_and!; [lia|done|done].
    + destruct (drop_alone (Some slow_client) id h sub Hsub Hc) as (sub' & keep & (-> & He & Hs) & Hd). exists sub', false. split; [|done].
      split; [done|]. by left.
Qed.

(** ** Invariant *)

Record hub_inv (s : stream_state) (h : eventHub) (cursor : Z) : Prop := {
  hi_shape : ring_shape h;
  hi_ring : map notice (ring_events h) = changes s (hub_baseSeq h) (hub_throughSeq h);
  hi_bounds : hub_baseSeq h ≤ hub_throughSeq h ≤ safe_of s ∧ hub_knownSafeSeq h ≤ safe_of s;
  hi_cursor : cursor ≤ safe_of s ∧ (hub_closed h = false → changes s (hub_throughSeq h) cursor = []);
  hi_subscribers : ∀ id, id ∈ hub_subscribers h →
    ∃ sub, hub_objects h !! id = Some sub ∧ sb_control sub = None ∧ hub_throughSeq h ≤ sb_afterSeq sub;
  hi_closed : hub_closed h = true → hub_subscribers h = ∅
}.

(** What a watcher with queue [sub] has been and will be sent. *)
Definition follows (s : stream_state) (from : Z) (got : list materializedEvent) (sub : subscriber) : Prop :=
  from ≤ sb_afterSeq sub ≤ safe_of s ∧ map notice (got ++ sb_events sub) = changes s from (sb_afterSeq sub).

Definition watcher_ok (s : stream_state) (h : eventHub) (w : watcher) : Prop :=
  match wa_phase w with
  | Registering events safeSeq =>
      wa_written w = [] ∧ wa_from w ≤ safeSeq ≤ safe_of s ∧ map notice events = changes s (wa_from w) safeSeq
  | Following current replay =>
      ∃ sub, hub_objects h !! current = Some sub ∧ follows s (wa_from w) (wa_written w ++ replay) sub
  | Finished => ∃ b, b ≤ safe_of s ∧ map notice (wa_written w) `prefix_of` changes s (wa_from w) b
  end.

(** The subscribers of [h'] extend those of [h] by an event that was next for them. *)
Definition objects_grow (s : stream_state) (h h' : eventHub) : Prop :=
  ∀ id sub, hub_objects h !! id = Some sub → ∃ sub', hub_objects h' !! id = Some sub' ∧
    ((sb_events sub' = sb_events sub ∧ sb_afterSeq sub' = sb_afterSeq sub) ∨
     ∃ l, sb_events sub' = sb_events sub ++ l ∧ sb_afterSeq sub ≤ sb_afterSeq sub' ≤ safe_of s ∧
          map notice l = changes s (sb_afterSeq sub) (sb_afterSeq sub')).

Lemma watcher_grow s h h' w : stream_inv s → objects_grow s h h' → watcher_ok s h w → watcher_ok s h' w.
Proof.
  intros Hi Hg. unfold watcher_ok. destruct (wa_phase w) as [|current replay|]; [done| |done].
  intros (sub & Hsub & Hb & Hn). destruct (Hg _ _ Hsub) as (sub' & Hs' & [[He Ha]|(l & He & Ha & Hl)]); exists sub'; (split; [done|]).
  - unfold follows. by rewrite He, Ha.
  - unfold follows. split; [lia|]. rewrite He, app_assoc, map_app, Hn, Hl. symmetry. apply changes_split; [done|lia].
Qed.

Lemma watcher_stable s s' h w : stream_inv s → stream_step s s' → watcher_ok s h w → watcher_ok s' h w.
Proof.
  intros Hi Hst. assert (safe_of s ≤ safe_of s') as Hsafe by (by apply step_watermark_stable).
  unfold watcher_ok. destruct (wa_phase w).
  - intros (? & ? & Hn). split_and!; [done|lia|lia|]. rewrite Hn. symmetry. apply changes_stable; done || lia.
  - intros (sub & ? & Hb & Hn). exists sub. split; [done|]. split; [lia|]. rewrite Hn. symmetry. apply changes_stable; done || lia.
  - intros (b & Hb & Hp). exists b. split; [lia|]. by rewrite (changes_stable s s').
Qed.

Lemma hub_stable s s' h c : stream_inv s → stream_step s s' → hub_inv s h c → hub_inv s' h c.
Proof.
  intros Hi Hst [Hsh Hr Hb [Hc Hcc] Hs Hcl]. assert (safe_of s ≤ safe_of s') as Hsafe by (by apply step_watermark_stable).
  split; [done| |lia| |done|done].
  - rewrite Hr. symmetry. apply changes_stable; done || lia.
  - split; [lia|]. intros Hx. rewrite <- (Hcc Hx). apply changes_stable; done || lia.
Qed.

(** *** Publications *)

Lemma objects_grow_refl s h h' : hub_objects h' = hub_objects h → objects_grow s h h'.
Proof. intros He id sub Hs. exists sub. rewrite He. split; [done|by left]. Qed.

Lemma objects_grow_trans s h1 h2 h3 : stream_inv s → objects_grow s h1 h2 → objects_grow s h2 h3 → objects_grow s h1 h3.
Proof.
  intros Hi H12 H23 id sub Hs. destruct (H12 _ _ Hs) as (sub2 & Hs2 & Hc2). destruct (H23 _ _ Hs2) as (sub3 & Hs3 & Hc3).
  exists sub3. split; [done|]. destruct Hc2 as [[He2 Ha2]|(l2 & He2 & Ha2 & Hl2)], Hc3 as [[He3 Ha3]|(l3 & He3 & Ha3 & Hl3)];
    rewrite ?Ha2, ?Ha3, ?He2, ?He3 in *; [by left|right|right|right].
  - by exists l3.
  - by exists l2.
  - exists (l2 ++ l3). split; [by rewrite app_assoc|]. split; [lia|]. rewrite map_app, Hl2, Hl3. symmetry. apply changes_split; done || lia.
Qed.

Lemma hub_inv_cursor s h p c : stream_inv s → hub_inv s h p → c ≤ p → hub_inv s h c.
Proof.
  intros Hi [Hsh Hr Hb [Hc Hcc] Hs Hcl] Hle. split; [done..| |done|done]. split; [lia|]. intros Hx.
  destruct (decide (c ≤ hub_throughSeq h)); [apply changes_empty; done || lia|].
  specialize (Hcc Hx). rewrite (changes_split s _ c p) in Hcc by (done || lia). by apply app_eq_nil in Hcc as [-> _].
Qed.

(** The ring after the next change of its interval. *)
Lemma ring_next s h m base' events' : stream_inv s → hub_baseSeq h ≤ hub_throughSeq h < me_Seq m →
  map notice (ring_events h) = changes s (hub_baseSeq h) (hub_throughSeq h) →
  changes s (hub_throughSeq h) (me_Seq m) = [notice m] →
  ((base' = hub_baseSeq h ∧ events' = ring_events h ++ [m]) ∨
   ∃ old rest, ring_events h = old :: rest ∧ base' = me_Seq old ∧ events' = rest ++ [m]) →
  map notice events' = changes s base' (me_Seq m) ∧ base' ≤ me_Seq m.
Proof.
  intros Hi Hb Hr Hnext Hcase.
  assert (Hchain : changes s (hub_baseSeq h) (me_Seq m) = map notice (ring_events h ++ [m]))
    by (rewrite (changes_split s _ (hub_throughSeq h)) by (done || lia); by rewrite Hnext, map_app, Hr).
  destruct Hcase as [[-> ->]|(old & rest & Ho & -> & ->)]; [split; [done|lia]|].
  assert (Hold : hub_baseSeq h < notice_seq (notice old) ≤ hub_throughSeq h)
    by (apply (changes_range s); [done|]; rewrite <- Hr, Ho; by left).
  cbn in Hold. split; [|lia]. pose proof (changes_sorted s (hub_baseSeq h) (me_Seq m) Hi) as Hsort.
  rewrite <- (changes_after s (hub_baseSeq h)) by (done || lia). rewrite Hchain, Ho in *.
  cbn [app map List.filter notice_seq notice fst] in *.
  rewrite Z.ltb_irrefl, filter_every; [done|]. intros n Hn. apply Z.ltb_lt.
  apply StronglySorted_inv in Hsort as [_ Hall]. rewrite Forall_forall in Hall. apply (Hall (notice_seq n)), list_elem_of_fmap. eauto.
Qed.

(** The next supported change is accepted, and every subscriber is sent it or dropped;
    nothing blocks. *)
Lemma publish_inv s h c m : stream_inv s → hub_inv s h c → me_Seq m ≤ safe_of s →
  (hub_closed h = false → hub_throughSeq h < me_Seq m → changes s (hub_throughSeq h) (me_Seq m) = [notice m]) →
  ∃ h', publish m h = Some h' ∧ hub_inv s h' c ∧ objects_grow s h h' ∧ hub_closed h' = hub_closed h ∧
    (hub_closed h = false → me_Seq m ≤ hub_throughSeq h').
Proof.
  intros Hi Hinv Hm Hnext. unfold publish. destruct (hub_closed h) eqn:Hclosed.
  { exists h. split_and!; [done..|by apply objects_grow_refl|done|done]. }
  destruct (me_Seq m <=? hub_throughSeq h) eqn:Hle; to_props.
  { exists h. split_and!; [done..|by apply objects_grow_refl|done|done]. }
  destruct Hinv as [Hsh Hr Hb [Hc Hcc] Hs Hcl]. rewrite Hclosed in *. cbn [orb]. specialize (Hnext eq_refl Hle).
  destruct (push_ring_spec m h Hsh) as (h1 & -> & Hsh1 & Hsub1 & Hobj1 & Hcl1 & Hth1 & Hk1 & Hring1).
  destruct (for_subscribers_spec (offer m) (offered m) (elements (hub_subscribers h1)) (offer_alone m) (NoDup_elements _) h1)
    as (h' & -> & Hsame & Hout & Hin).
  { intros id Hid%elem_of_elements. rewrite Hsub1 in Hid. destruct (Hs id Hid) as (sub & ? & ? & _). exists sub. by rewrite Hobj1. }
  pose proof Hsame as (Hsr & Hss & Hscap & Hsb & Hst & Hsk & Hsc). exists h'. split; [done|].
  destruct (ring_next s h m _ _ Hi ltac:(lia) Hr Hnext Hring1) as [Hev Hbase].
  split_and!.
  - split.
    + destruct Hsh1 as [H1 H2 H3]. split; rewrite ?Hsr, ?Hss, ?Hscap; done.
    + rewrite (ring_events_ext h1 h') by done. by rewrite Hsb, Hst, Hth1.
    + rewrite Hsb, Hst, Hsk, Hth1, Hk1. lia.
    + split; [done|]. intros _. rewrite Hst, Hth1. specialize (Hcc eq_refl). destruct (decide (c ≤ me_Seq m)); [by apply changes_empty|].
      rewrite (changes_split s _ (me_Seq m)) in Hcc by (done || lia). by apply app_eq_nil in Hcc as [_ ->].
    + intros id Hid. rewrite Hst, Hth1. assert (id ∈ elements (hub_subscribers h1)) as Hel.
      { destruct (decide (id ∈ elements (hub_subscribers h1))) as [|Hn]; [done|]. apply (Hout id) in Hn as [_ Hiff].
        apply elem_of_elements. by apply Hiff. }
      assert (id ∈ hub_subscribers h) as Hid0 by (rewrite <- Hsub1; by apply elem_of_elements). destruct (Hs id Hid0) as (sub & Ho & _).
      rewrite <- Hobj1 in Ho. destruct (Hin id sub Hel Ho) as (sub' & keep & [Hkeep _] & Hs' & Hiff). exists sub'. split; [done|].
      apply Hkeep. by apply Hiff.
    + rewrite Hsc, Hcl1. by rewrite Hclosed.
  - intros id sub Ho. rewrite <- Hobj1 in Ho. destruct (decide (id ∈ elements (hub_subscribers h1))) as [Hel|Hn].
    + destruct (Hin id sub Hel Ho) as (sub' & keep & [_ Hcase] & Hs' & _). exists sub'. split; [done|].
      destruct Hcase as [?|(Hlt & He & Ha)]; [by left|right]. exists [m]. rewrite Ha. split_and!; [done|lia|lia|].
      assert (hub_throughSeq h ≤ sb_afterSeq sub) as Hth.
      { apply elem_of_elements in Hel. rewrite Hsub1 in Hel. destruct (Hs id Hel) as (sub0 & Ho0 & _ & ?). rewrite Hobj1, Ho0 in Ho. by simplify_eq. }
      rewrite <- (changes_after s (hub_throughSeq h)) by done. rewrite Hnext. cbn. by rewrite (proj2 (Z.ltb_lt _ _) Hlt).
    + exists sub. rewrite (proj1 (Hout id Hn)). split; [done|by left].
  - by rewrite Hsc, Hcl1.
  - intros _. rewrite Hst, Hth1. lia.
Qed.

(** *** Pages *)

Lemma materialize_notice query e m : materializeChange query e = Ok (Some m) → notice m = event_notice e ∧ supported e = true.
Proof.
  unfold materializeChange, supported. destruct (change_plan_of _ _) as [| | |q]; try done; [by intros [= <-]|].
  destruct (query q) as [[|]|]; by intros [= <-].
Qed.

Lemma materialize_none query e : materializeChange query e = Ok None → supported e = false.
Proof.
  unfold materializeChange, supported. destruct (change_plan_of _ _) as [| | |q]; try done. by destruct (query q) as [[|]|].
Qed.

(** The first event of an interval. *)
Lemma first_event m st p b e rest : keyed m → events_between m st p b = e :: rest →
  p < Seq e ≤ b ∧ events_between m st p (Seq e) = [e] ∧ events_between m st (Seq e) b = rest.
Proof.
  intros Hk He. assert (e ∈ events_between m st p b) as Hin by (rewrite He; by left).
  apply events_between_elem in Hin as (_ & _ & Hb); [|done]. split; [done|].
  assert (events_between m st (Seq e) b = rest) as Hrest.
  { pose proof (events_between_rest m st p b 1 Hk) as Hr. cbn zeta in Hr. by rewrite He in Hr. }
  split; [|done]. rewrite (events_between_split m st p (Seq e) b), Hrest in He by (done || lia).
  apply (app_inv_tail rest). done.
Qed.

Lemma changes_to_next s h p e : stream_inv s → hub_inv s h p → hub_closed h = false →
  p < Seq e → events_between (log s) entityStream p (Seq e) = [e] → hub_throughSeq h < Seq e →
  changes s (hub_throughSeq h) (Seq e) = if supported e then [event_notice e] else [].
Proof.
  intros Hi [_ _ _ [_ Hcc] _ _] Hcl Hp He Ht. specialize (Hcc Hcl).
  assert (changes s p (Seq e) = if supported e then [event_notice e] else []) as Hpe
    by (unfold changes; rewrite He; cbn; by destruct (supported e)).
  destruct (decide (hub_throughSeq h ≤ p)).
  - rewrite (changes_split s _ p), Hcc, Hpe by (done || lia). done.
  - rewrite <- (changes_after s p), Hpe by (done || lia). destruct (supported e); [|done]. cbn. by rewrite (proj2 (Z.ltb_lt _ _) Ht).
Qed.

Lemma hub_inv_forward s h p e : stream_inv s → hub_inv s h p → p < Seq e ≤ safe_of s →
  (hub_closed h = false → changes s (hub_throughSeq h) (Seq e) = []) → hub_inv s h (Seq e).
Proof. intros Hi [] He Hx. split; try done. split; [lia|done]. Qed.

Lemma handle_events_inv query s n : ∀ h p, stream_inv s → hub_inv s h p →
  let events := take n (events_between (log s) entityStream p (safe_of s)) in
  ∃ h' ok p', handle_events query events h = Some (h', ok) ∧ hub_inv s h' p' ∧ p ≤ p' ∧ objects_grow s h h' ∧
    (ok = true → p' = page_end p events).
Proof.
  induction n as [|n IH]; intros h p Hi Hinv; cbn zeta.
  { exists h, true, p. split_and!; [done..|lia|by apply objects_grow_refl|done]. }
  destruct (events_between (log s) entityStream p (safe_of s)) as [|e rest] eqn:Hev.
  { exists h, true, p. split_and!; [done..|lia|by apply objects_grow_refl|done]. }
  assert (keyed (log s)) as Hk by apply Hi. destruct (first_event _ _ _ _ _ _ Hk Hev) as (Hb & He & Hrest).
  assert (Hend : page_end p (take (S n) (e :: rest)) = page_end (Seq e) (take n rest)).
  { cbn [take]. change (e :: take n rest) with ([e] ++ take n rest). by rewrite <- page_end_app. }
  rewrite Hend. cbn [take handle_events]. subst rest.
  destruct (materializeChange (query e) e) as [[m|]|] eqn:Hm.
  - apply materialize_notice in Hm as [Hn Hsup]. injection Hn as Hseq Hkind Hkey.
    destruct (publish_inv s h p m Hi Hinv) as (h1 & -> & Hinv1 & Hg1 & Hcl1 & Hth1); [lia| |].
    { intros Hcl Hlt. rewrite Hseq in Hlt |- *. rewrite (changes_to_next s h p e) by (done || lia). rewrite Hsup. unfold notice, event_notice. by rewrite Hseq, Hkind, Hkey. }
    destruct (IH h1 (Seq e)) as (h' & ok & p' & -> & Hinv' & Hp' & Hg' & Hok); [done| |].
    { apply (hub_inv_forward s h1 p); [done..|]. rewrite Hcl1. intros Hcl. apply changes_empty; [done|]. specialize (Hth1 Hcl). lia. }
    exists h', ok, p'. split_and!; [done..|lia| |done]. by eapply objects_grow_trans.
  - apply materialize_none in Hm. destruct (IH h (Seq e)) as (h' & ok & p' & -> & Hinv' & Hp' & Hg' & Hok); [done| |].
    { apply (hub_inv_forward s h p); [done..|]. intros Hcl. destruct (decide (hub_throughSeq h < Seq e)).
      - rewrite (changes_to_next s h p e) by (done || lia). by rewrite Hm.
      - apply changes_empty; [done|lia]. }
    exists h', ok, p'. split_and!; [done..|lia|done|done].
  - exists h, false, p. split_and!; [done..|lia|by apply objects_grow_refl|done].
Qed.

Lemma materialize_all_notices query l events : materialize_all query l = Ok events →
  map notice events = map event_notice (List.filter supported l).
Proof.
  revert events. induction l as [|e l IH]; intros events; cbn; [by intros [= <-]|].
  destruct (materializeChange query e) as [m|] eqn:Hm; [|done]. cbn. destruct (materialize_all query l) as [rest|]; [|done]. cbn.
  intros [= <-]. destruct m as [m|].
  - apply materialize_notice in Hm as [Hn ->]. cbn. by rewrite Hn, (IH rest).
  - apply materialize_none in Hm as ->. by apply IH.
Qed.

Lemma database_replay_exact s limit query from events safeSeq : stream_inv s →
  subscribeFromDatabase limit query from (tabs s) = ReplayEvents events safeSeq →
  safeSeq = safe_of s ∧ from ≤ safeSeq ∧ map notice events = changes s from safeSeq.
Proof.
  intros Hi. unfold subscribeFromDatabase. destruct (from <? _) eqn:Hp; [done|]. destruct (_ <? from) eqn:Hf; [done|].
  destruct (Nat.ltb limit _) eqn:Hl; [done|]. destruct (materialize_all query _) as [evs|] eqn:Hm; [|done]. intros [= <- <-]. to_props.
  split_and!; [done|lia|]. apply materialize_all_notices in Hm. rewrite Hm. unfold changes. do 2 f_equal.
  rewrite <- stored_changes by (done || lia). unfold PageChangeEvents in *. apply Nat.ltb_ge in Hl. rewrite length_take in Hl.
  apply take_ge. lia.
Qed.

(** *** Subscriptions *)

Lemma filter_notice from l :
  map notice (filter (λ e, from < me_Seq e) l) = List.filter (λ n, from <? notice_seq n) (map notice l).
Proof.
  induction l as [|e l IH]; [done|]. rewrite filter_cons. cbn. destruct (decide (from < me_Seq e)) as [Hd|Hd].
  - rewrite (proj2 (Z.ltb_lt _ _) Hd). cbn. by rewrite IH.
  - rewrite (proj2 (Z.ltb_ge _ _)) by lia. done.
Qed.

(** A subscription starts with exactly the changes after its sequence. *)
Lemma subscribe_inv s h c from r h' : stream_inv s → hub_inv s h c → subscribeFromRingLocked from h = (r, h') →
  hub_inv s h' c ∧
  (∀ id, id ∈ dom (hub_objects h) → hub_objects h' !! id = hub_objects h !! id) ∧
  match r with
  | subscriptionCovered current replay =>
      current ∉ dom (hub_objects h) ∧ from ≤ safe_of s ∧
      ∃ sub, hub_objects h' !! current = Some sub ∧ follows s from replay sub
  | _ => h' = h
  end.
Proof.
  intros Hi Hinv. unfold subscribeFromRingLocked. destruct (hub_closed h) eqn:Hcl; [by intros [= <- <-]|].
  destruct (_ <? from) eqn:Hk; [by intros [= <- <-]|]. destruct ((from <? _) && _) eqn:Hc; [by intros [= <- <-]|].
  intros [= <- <-]. set (current := fresh _). assert (Hfresh : current ∉ dom (hub_objects h)) by apply is_fresh.
  destruct Hinv as [Hsh Hr Hb Hcur Hs Hclosed]. to_props. split_and!.
  - split; [by destruct Hsh|done|done|done| |cbn; congruence]. intros id Hid. cbn in *. destruct (decide (id = current)) as [->|Hne].
    + rewrite lookup_insert_eq. eexists. split; [done|]. cbn. split; [done|lia].
    + rewrite lookup_insert_ne by done. apply Hs. set_solver.
  - intros id Hid. cbn. apply lookup_insert_ne. by intros ->.
  - done.
  - lia.
  - eexists. cbn. rewrite lookup_insert_eq. split; [done|]. unfold follows. cbn. split; [lia|]. rewrite app_nil_r, filter_notice, Hr.
    destruct (decide (hub_baseSeq h ≤ from)) as [Hbf|Hbf].
    + rewrite changes_after by done. destruct (decide (from ≤ hub_throughSeq h)); [by rewrite Z.max_r|].
      rewrite Z.max_l by lia. rewrite !changes_empty by (done || lia). done.
    + exfalso. destruct (from <? hub_throughSeq h) eqn:E1; cbn in Hc; to_props; lia.
Qed.

(** Dropping every subscriber never blocks. *)
Lemma drop_all s h a : (∀ id, id ∈ hub_subscribers h → ∃ sub, hub_objects h !! id = Some sub ∧ sb_control sub = None) →
  ∃ h', for_subscribers (drop_subscriber a) (elements (hub_subscribers h)) h = Some h' ∧ same_hub h h' ∧
    hub_subscribers h' = ∅ ∧ objects_grow s h h'.
Proof.
  intros Hinv. destruct (for_subscribers_spec _ _ (elements (hub_subscribers h)) (drop_alone a) (NoDup_elements _) h)
    as (h' & -> & Hsame & Hout & Hin).
  { intros id Hid%elem_of_elements. by apply Hinv. }
  exists h'. split_and!; [done|done| |].
  - apply set_eq. intros id. split; [|set_solver]. intros Hid. destruct (decide (id ∈ elements (hub_subscribers h))) as [Hel|Hn].
    + destruct (Hinv id) as (sub & Ho & _); [by apply elem_of_elements|].
      destruct (Hin id sub Hel Ho) as (sub' & keep & (-> & _) & _ & Hiff). apply Hiff in Hid as [_ ?]. done.
    + exfalso. apply Hn, elem_of_elements. by apply (Hout id Hn).
  - intros id sub Ho. destruct (decide (id ∈ elements (hub_subscribers h))) as [Hel|Hn].
    + destruct (Hin id sub Hel Ho) as (sub' & keep & (_ & ? & ?) & ? & _). exists sub'. split; [done|by left].
    + exists sub. rewrite (proj1 (Hout id Hn)). split; [done|by left].
Qed.

Lemma subscribers_free s h c : hub_inv s h c →
  ∀ id, id ∈ hub_subscribers h → ∃ sub, hub_objects h !! id = Some sub ∧ sb_control sub = None.
Proof. intros Hinv id Hid. destruct (hi_subscribers _ _ _ Hinv id Hid) as (sub & ? & ? & _). by exists sub. Qed.

Lemma hub_inv_initialized s h c : stream_inv s → hub_subscribers h = ∅ → hub_ringCapacity h ≠ 0%nat → c ≤ safe_of s →
  hub_inv s (initialize c h) c.
Proof.
  intros Hi Hs Hcap Hc. split; cbn; [|by rewrite changes_empty|lia| |by rewrite Hs|done].
  - split; cbn; [done|lia|]. rewrite decide_False by done. done.
  - split; [done|]. intros _. by apply changes_empty.
Qed.

Lemma reset_inv s h c safeSeq a : stream_inv s → hub_inv s h c → safeSeq ≤ safe_of s →
  ∃ h', resetForResync safeSeq a h = Some h' ∧ hub_inv s h' safeSeq ∧ objects_grow s h h'.
Proof.
  intros Hi Hinv Hs. unfold resetForResync. destruct (drop_all s h (Some a) (subscribers_free s h c Hinv)) as (h' & -> & Hsame & Hsub & Hg).
  exists (initialize safeSeq h'). split_and!; [done| |].
  - apply hub_inv_initialized; [done|done| |done]. destruct Hsame as (_ & _ & -> & _). apply Hinv.
  - intros id sub Ho. destruct (Hg id sub Ho) as (sub' & ? & ?). by exists sub'.
Qed.

Lemma close_inv s h c : hub_inv s h c → ∃ h', close h = Some h' ∧ hub_inv s h' c ∧ objects_grow s h h'.
Proof.
  intros Hinv. unfold close. destruct (hub_closed h) eqn:Hcl; [exists h; split_and!; [done..|by apply objects_grow_refl]|].
  set (h1 := mkHub _ _ _ _ _ _ _ _ _ true).
  destruct (drop_all s h1 None) as (h' & Hf & Hsame & Hsub & Hg); [intros id Hid; by apply (subscribers_free s h c)|].
  exists h'. split; [exact Hf|]. split; [|done]. destruct Hinv as [[H1 H2 H3] Hr Hb [Hc _] _ _].
  destruct Hsame as (Hsr & Hss & Hscap & Hsb & Hst & Hsk & Hsc). split.
  - split; rewrite ?Hsr, ?Hss, ?Hscap; done.
  - rewrite Hsb, Hst. unfold ring_events. rewrite Hsr, Hss. done.
  - rewrite Hsb, Hst, Hsk. done.
  - split; [done|]. by rewrite Hsc.
  - rewrite Hsub. set_solver.
  - done.
Qed.

(** ** The watchers *)

Record watch_inv (w : watch_state) : Prop := {
  wi_stream : stream_inv (ws_stream w);
  wi_hub : hub_inv (ws_stream w) (ws_hub w) (ws_cursor w);
  wi_watchers : ∀ id x, ws_watchers w !! id = Some x → watcher_ok (ws_stream w) (ws_hub w) x;
  wi_apart : ∀ i j x y current r r', ws_watchers w !! i = Some x → ws_watchers w !! j = Some y →
    wa_phase x = Following current r → wa_phase y = Following current r' → i = j
}.

(** The hub moved and the watchers did not. *)
Lemma watch_inv_hub s h h' c c' ws : watch_inv (mkWatch s h c ws) → hub_inv s h' c' → objects_grow s h h' →
  watch_inv (mkWatch s h' c' ws).
Proof.
  intros [Hi Hh Hw Ha] Hh' Hg. split; [done|done| |done]. intros id x Hx. eapply watcher_grow; [done..|]. by apply (Hw id).
Qed.

(** One watcher changed, and follows no queue of another. *)
Lemma watch_inv_watcher s h h' c ws id x :
  watch_inv (mkWatch s h c ws) → hub_inv s h' c → watcher_ok s h' x →
  (∀ j y, j ≠ id → ws !! j = Some y → watcher_ok s h' y) →
  (∀ current r, wa_phase x = Following current r → ∀ j y r', ws !! j = Some y → wa_phase y = Following current r' → j = id) →
  watch_inv (mkWatch s h' c (<[id := x]> ws)).
Proof.
  intros [Hi Hh Hw Ha] Hh' Hx Hothers Hap. split; [done|done| |]; cbn.
  - intros j y [[<- <-]|[Hne Hj]]%lookup_insert_Some; [done|]. by eapply Hothers.
  - intros i j xi xj cur r r' [[<- <-]|[Hni Hxi]]%lookup_insert_Some [[<- <-]|[Hnj Hxj]]%lookup_insert_Some Hpi Hpj; [done|..].
    + symmetry. by eapply Hap.
    + by eapply Hap.
    + by eapply (Ha i j).
Qed.

Lemma current_known s h x current r : watcher_ok s h x → wa_phase x = Following current r → current ∈ dom (hub_objects h).
Proof. unfold watcher_ok. intros Hx Hp. rewrite Hp in Hx. destruct Hx as (sub & Ho & _). by apply elem_of_dom. Qed.

(** Registration of a watcher that already has [events]. *)
Lemma subscribed_inv s h h0 c ws id from start events r h' :
  watch_inv (mkWatch s h c ws) → hub_objects h0 = hub_objects h → hub_inv s h0 c →
  subscribeFromRingLocked start h0 = (r, h') → from ≤ start ≤ safe_of s → map notice events = changes s from start →
  watch_inv (mkWatch s h' c (<[id := mkWatcher from
    match r with subscriptionCovered current replay => Following current (events ++ replay) | _ => Finished end []]> ws)).
Proof.
  intros Hw Ho0 Hh0 Hsub Hfrom Hev. pose proof (wi_stream _ Hw) as Hi. cbn in Hi.
  destruct (subscribe_inv s h0 c start r h' Hi Hh0 Hsub) as (Hh' & Hdom & Hr). rewrite Ho0 in Hdom.
  assert (Hold : ∀ y j, ws !! j = Some y → watcher_ok s h' y).
  { intros y j Hy. pose proof (wi_watchers _ Hw j y Hy) as Hok. cbn in Hok. revert Hok. unfold watcher_ok.
    destruct (wa_phase y); [done| |done]. intros (sub & Hsub0 & ?). exists sub. split; [|done]. rewrite Hdom; [done|]. by apply elem_of_dom. }
  apply (watch_inv_watcher s h); [done|done| |intros j y _; apply Hold|].
  - destruct r as [|current replay|]; [by exists start; split; [lia|apply prefix_nil]| |by exists start; split; [lia|apply prefix_nil]].
    destruct Hr as (_ & _ & sub & Hs & Hb & Hn). exists sub. split; [done|]. split; [cbn; lia|]. cbn.
    rewrite <- app_assoc, map_app, Hev, Hn. symmetry. apply changes_split; [done|lia].
  - destruct r as [|current replay|]; [done| |done]. cbn. intros cur r0 [= <- _] j y r' Hy Hp.
    destruct Hr as [Hfresh _]. destruct Hfresh. rewrite Ho0. eapply current_known; [|done]. by apply (wi_watchers _ Hw j).
Qed.

(** A page of the tailer. *)
Lemma tail_inv query s h c ws n batch h' ok (committed : bool) :
  let page := PageChangeEvents entityStream c (safe_of s) batch (tabs s) in
  watch_inv (mkWatch s h c ws) → pruned_through (tabs s) entityStream ≤ c →
  handle_events query (take n page) h = Some (h', ok) → (committed = true → ok = true ∧ (length page ≤ n)%nat) →
  watch_inv (mkWatch s h' (if committed then page_end c page else c) ws).
Proof.
  intros page Hw Hp Hhe Hcm. pose proof (wi_stream _ Hw) as Hi. pose proof (wi_hub _ Hw) as Hh. cbn in Hi, Hh.
  assert (Hpage : page = take (Z.to_nat batch) (events_between (log s) entityStream c (safe_of s)))
    by (unfold page, PageChangeEvents; by rewrite stored_changes).
  destruct (handle_events_inv query s (n `min` Z.to_nat batch) h c Hi Hh) as (h2 & ok2 & p' & He2 & Hh2 & Hp' & Hg & Hend).
  rewrite <- take_take, <- Hpage in He2, Hend. rewrite Hhe in He2. injection He2 as <- <-.
  eapply watch_inv_hub; [done| |done]. destruct committed; [|by eapply hub_inv_cursor].
  destruct (Hcm eq_refl) as [Hok Hlen]. specialize (Hend Hok). rewrite take_ge in Hend by done. by rewrite <- Hend.
Qed.

(** A write from the replay changes nothing that the watcher will get. *)
Lemma write_replay_ok s h from cur e replay written :
  watcher_ok s h (mkWatcher from (Following cur (e :: replay)) written) →
  watcher_ok s h (mkWatcher from (Following cur replay) (written ++ [e])).
Proof. intros (sub & Ho & Hf). exists sub. split; [done|]. cbn in *. by rewrite <- app_assoc. Qed.

(** Taking an event from a queue. *)
Definition popped (h : eventHub) (current : Z) (sub : subscriber) (rest : list materializedEvent) : eventHub :=
  with_subscribers (hub_subscribers h) (<[current := mkSubscriber rest (sb_control sub) (sb_afterSeq sub)]> (hub_objects h)) h.

Lemma popped_inv s h c current sub rest : hub_inv s h c → hub_objects h !! current = Some sub → hub_inv s (popped h current sub rest) c.
Proof.
  intros [Hsh Hr Hb Hc Hs Hcl] Ho. split; [by destruct Hsh|done|done|done| |done]. intros id Hid. cbn in *.
  destruct (Hs id Hid) as (sub0 & Ho0 & ? & ?). destruct (decide (id = current)) as [->|Hne].
  - rewrite lookup_insert_eq. eexists. split; [done|]. cbn. by simplify_eq.
  - rewrite lookup_insert_ne by done. by exists sub0.
Qed.

Lemma unsubscribe_inv s h c current : hub_inv s h c → hub_inv s (unsubscribe current h) c.
Proof.
  intros [Hsh Hr Hb Hc Hs Hcl]. split; [by destruct Hsh|done|done|done| |].
  - intros id Hid. cbn in *. apply Hs. set_solver.
  - cbn. intros Hx. rewrite (Hcl Hx). set_solver.
Qed.

Lemma left_ok s h from cur replay written :
  watcher_ok s h (mkWatcher from (Following cur replay) written) → watcher_ok s h (mkWatcher from Finished written).
Proof.
  intros (sub & Ho & Hb & Hn). exists (sb_afterSeq sub). cbn in *. split; [lia|]. rewrite <- Hn, <- !app_assoc, map_app. apply prefix_app_r. done.
Qed.

Lemma watch_inv_step batch limit w w' : watch_step batch limit w w' → watch_inv w → watch_inv w'.
Proof.
  intros Hstep Hw. pose proof (wi_stream _ Hw) as Hi. pose proof (wi_hub _ Hw) as Hh.
  destruct Hstep as [s s' h c ws Hs|s h h' c ws query n ok page Hp Hhe committed Hcm|s h h' c ws safeSeq Hc Hs Hr|s h h' c ws Hcl
    |s h h' c ws id from cur replay Hn Hsub|s h c ws id from query events safeSeq Hn Hdb|s h c ws id Hn
    |s h c ws id from events safeSeq r h' Hx Hsub|s h c ws id from cur e replay written sub Hx Ho Hct
    |s h c ws id from cur written sub e rest Hx Ho He|s h c ws id from cur replay written Hx]; cbn [ws_stream ws_hub ws_cursor] in *.
  - destruct Hw as [_ _ Hw Ha]. split; [by eapply stream_inv_step|by eapply hub_stable| |done].
    intros id x Hx. eapply watcher_stable; [done..|]. by apply (Hw id).
  - by eapply tail_inv.
  - destruct (reset_inv s h c safeSeq (mkAdvisory "pruned_horizon" c (pruned_through (tabs s) entityStream)) Hi Hh) as (h2 & Hr2 & Hh2 & Hg); [lia|].
    rewrite Hr in Hr2. injection Hr2 as <-. by eapply watch_inv_hub.
  - destruct (close_inv s h c Hh) as (h2 & Hr2 & Hh2 & Hg). rewrite Hcl in Hr2. injection Hr2 as <-. by eapply watch_inv_hub.
  - replace replay with ([] ++ replay) by done.
    eapply (subscribed_inv s h h c ws id from from [] (subscriptionCovered cur replay)); [done..| |].
    + destruct (subscribe_inv s h c from _ h' Hi Hh Hsub) as (_ & _ & _ & ? & _). lia.
    + cbn. symmetry. apply changes_empty; [done|lia].
  - destruct (database_replay_exact s limit query from events safeSeq Hi Hdb) as (-> & Hf & Hev).
    apply (watch_inv_watcher s h); [done|done| | |done]; [by cbn|]. intros j y _. apply (wi_watchers _ Hw).
  - apply (watch_inv_watcher s h); [done|done| | |done]; [|intros j y _; apply (wi_watchers _ Hw)].
    split_and!; [done|cbn; lia|cbn; lia|]. cbn. symmetry. apply changes_empty; [done|lia].
  - destruct (wi_watchers _ Hw id _ Hx) as (_ & Hf & Hev). cbn in Hf, Hev.
    eapply (subscribed_inv s h (updateKnownSafeLocked safeSeq h)); [done|done| |exact Hsub|done|done].
    destruct Hh as [Hsh Hr Hb Hc Hs Hcl]. split; [by destruct Hsh|done|cbn; lia|done..].
  - apply (watch_inv_watcher s h); [done|done| |intros j y _; apply (wi_watchers _ Hw)|].
    + apply write_replay_ok. by apply (wi_watchers _ Hw id).
    + cbn. intros cur0 r [= <- _] j y r' Hy Hpy. by eapply (wi_apart _ Hw j id).
  - fold (popped h cur sub rest). apply (watch_inv_watcher s h); [done|by apply popped_inv| | |].
    + destruct (wi_watchers _ Hw id _ Hx) as (sub0 & Ho0 & Hb & Hn). cbn in Ho0, Hb, Hn. simplify_eq.
      eexists. cbn. rewrite lookup_insert_eq. split; [done|]. split; [done|]. cbn. rewrite He in Hn.
      rewrite app_nil_r in *. by rewrite <- app_assoc.
    + intros j y Hne Hy. pose proof (wi_watchers _ Hw j y Hy) as Hok. cbn in Hok. revert Hok. unfold watcher_ok.
      destruct (wa_phase y) as [|cy ry|] eqn:Hpy; [done| |done]. intros (suby & Hoy & Hfy). exists suby. split; [|done].
      cbn. rewrite lookup_insert_ne; [done|]. intros ->. apply Hne. by eapply (wi_apart _ Hw j id).
    + cbn. intros cur0 r [= <- _] j y r' Hy Hpy. by eapply (wi_apart _ Hw j id).
  - apply (watch_inv_watcher s h); [done|by apply unsubscribe_inv| |intros j y _; apply (wi_watchers _ Hw)|done].
    eapply left_ok. by apply (wi_watchers _ Hw id).
Qed.

(** A publication never blocks, whatever the event. *)
Lemma publish_total s h c m : hub_inv s h c → publish m h ≠ None.
Proof.
  intros Hinv. unfold publish. destruct (_ || _); [done|].
  destruct (push_ring_spec m h (hi_shape _ _ _ Hinv)) as (h1 & -> & _ & Hsub & Hobj & _).
  destruct (for_subscribers_spec (offer m) (offered m) (elements (hub_subscribers h1)) (offer_alone m) (NoDup_elements _) h1) as (h' & -> & _); [|done].
  intros id Hid%elem_of_elements. rewrite Hsub in Hid. rewrite Hobj. by apply (subscribers_free s h c).
Qed.

Lemma watch_reachable_inv batch limit w : watch_reachable batch limit w → watch_inv w.
Proof.
  intros (w0 & [s capacity buffer safeSeq Hs Hb Hcap] & Hsteps).
  assert (watch_inv (mkWatch s (initialize safeSeq (newEventHub capacity buffer)) safeSeq ∅)) as H0.
  { apply stream_reachable_inv in Hs as Hi. split; [done|apply hub_inv_initialized; done || (cbn; lia)|done|done]. }
  revert H0. induction Hsteps as [|w1 w2 w3 H12 _ IH]; [done|]. intros H1. by apply IH, (watch_inv_step batch limit w1).
Qed.

Lemma changes_prefix s a b c : stream_inv s → b ≤ c → changes s a b `prefix_of` changes s a c.
Proof.
  intros Hi Hb. destruct (decide (a ≤ b)); [rewrite (changes_split s a b c) by (done || lia); by apply prefix_app_r|].
  rewrite (changes_empty s a b) by (done || lia). apply prefix_nil.
Qed.

Lemma written_prefix w id x : watch_inv w → ws_watchers w !! id = Some x →
  map notice (wa_written x) `prefix_of` changes (ws_stream w) (wa_from x) (safe_of (ws_stream w)).
Proof.
  intros Hw Hx. pose proof (wi_stream _ Hw) as Hi. pose proof (wi_watchers _ Hw id x Hx) as Hok. unfold watcher_ok in Hok.
  destruct (wa_phase x) as [events safeSeq|current replay|].
  - destruct Hok as (-> & _). apply prefix_nil.
  - destruct Hok as (sub & _ & Hb & Hn). trans (changes (ws_stream w) (wa_from x) (sb_afterSeq sub)); [|apply changes_prefix; done || lia].
    rewrite <- Hn, <- !app_assoc, map_app. by apply prefix_app_r.
  - destruct Hok as (b & Hb & Hp). etransitivity; [done|]. by apply changes_prefix.
Qed.

(** C12. A watcher sees exactly the committed changes after the sequence it resumed from or
    took its snapshot at. However the tailer, redelivered pages, commits, pruning, resyncs,
    other watchers and slow readers interleave, and whether it was answered from the ring
    or from the change tables, what has been written to a watcher is a prefix, in order and
    without gaps or repetitions, of the supported changes committed after its start; a
    watcher that has read its queue and is still subscribed has been written all of them, up
    to the last change the hub accepted; and no operation of the hub blocks on a
    subscriber. *)
Theorem watch_exact batch limit w id x (Hreach : watch_reachable batch limit w) (Hx : ws_watchers w !! id = Some x) :
  let s := ws_stream w in
  let h := ws_hub w in
  map notice (wa_written x) `prefix_of` changes s (wa_from x) (safe_of s) ∧
  (∀ current sub, wa_phase x = Following current [] → current ∈ hub_subscribers h →
     hub_objects h !! current = Some sub → sb_events sub = [] →
     ∃ through, hub_throughSeq h ≤ through ≤ safe_of s ∧ map notice (wa_written x) = changes s (wa_from x) through) ∧
  (∀ m, publish m h ≠ None) ∧ (∀ safeSeq a, resetForResync safeSeq a h ≠ None) ∧ close h ≠ None.
Proof.
  cbn zeta. apply watch_reachable_inv in Hreach as Hw. pose proof (wi_hub _ Hw) as Hh. split_and!.
  - by eapply written_prefix.
  - intros current sub Hp Hin Ho He. pose proof (wi_watchers _ Hw id x Hx) as Hok. unfold watcher_ok in Hok. rewrite Hp in Hok.
    destruct Hok as (sub0 & Ho0 & Hb & Hn). rewrite Ho in Ho0. injection Ho0 as <-. rewrite He, !app_nil_r in Hn.
    destruct (hi_subscribers _ _ _ Hh current Hin) as (sub1 & Ho1 & _ & Hth). rewrite Ho in Ho1. injection Ho1 as <-.
    exists (sb_afterSeq sub). split; [lia|done].
  - intros m. eapply publish_total. done.
  - intros safeSeq a. unfold resetForResync. destruct (drop_all (ws_stream w) (ws_hub w) (Some a) (subscribers_free _ _ _ Hh)) as (h' & -> & _). done.
  - destruct (close_inv _ _ _ Hh) as (h' & -> & _). done.
Qed.

(** A prefix of the changes that ends with a sequence has all of them up to it. *)
Lemma prefix_complete s a b l n : stream_inv s → l ++ [n] `prefix_of` changes s a b → l ++ [n] = changes s a (notice_seq n) ∧ notice_seq n ≤ b.
Proof.
  intros Hi [k Hk]. assert (Hn : a < notice_seq n ≤ b) by (apply (changes_range s); [done|]; rewrite Hk; set_solver).
  split; [|lia]. rewrite (changes_split s a (notice_seq n) b) in Hk by (done || lia).
  pose proof (changes_sorted s a b Hi) as Hsort. rewrite (changes_split s a (notice_seq n) b), Hk in Hsort by (done || lia).
  rewrite map_app in Hsort.
  assert (Hle : ∀ y, y ∈ l ++ [n] → notice_seq y ≤ notice_seq n).
  { intros y [Hy|Hy%list_elem_of_singleton]%elem_of_app; [|by subst]. rewrite !map_app, <- app_assoc in Hsort.
    apply Z.lt_le_incl, (StronglySorted_app_1_elem_of _ _ _ (notice_seq y) (notice_seq n) Hsort); [|set_solver]. apply list_elem_of_fmap. eauto. }
  assert (Hgt : ∀ y, y ∈ k → notice_seq n < notice_seq y).
  { intros y Hy. apply (StronglySorted_app_1_elem_of _ _ _ (notice_seq n) (notice_seq y) Hsort); apply list_elem_of_fmap; eauto. set_solver. }
  apply (f_equal (List.filter (λ y, notice_seq y <=? notice_seq n))) in Hk. rewrite !List.filter_app in Hk.
  rewrite (filter_every _ (changes s a _)) in Hk by (intros y Hy%changes_range; [apply Z.leb_le; lia|done]).
  rewrite (filter_no_one _ (changes s _ b)) in Hk by (intros y Hy%changes_range; [apply Z.leb_gt; lia|done]).
  rewrite (filter_every _ l), (filter_no_one _ k) in Hk.
  2: { intros y Hy. apply Z.leb_gt. auto. }
  2: { intros y Hy. apply Z.leb_le, Hle. set_solver. }
  cbn in Hk. rewrite Z.leb_refl in Hk. by rewrite !app_nil_r in Hk.
Qed.

(** A watcher that reconnects from the last sequence it was written misses nothing and sees
    nothing twice. *)
Theorem resume_seamless batch limit w w' id x id' x' l m
    (Hreach : watch_reachable batch limit w) (Hsteps : rtc (watch_step batch limit) w w')
    (Hx : ws_watchers w !! id = Some x) (Hlast : wa_written x = l ++ [m])
    (Hx' : ws_watchers w' !! id' = Some x') (Hresume : wa_from x' = me_Seq m) :
  map notice (wa_written x ++ wa_written x') `prefix_of` changes (ws_stream w') (wa_from x) (safe_of (ws_stream w')).
Proof.
  assert (Hi0 : watch_inv w) by (by apply watch_reachable_inv in Hreach).
  assert (Hstable : watch_inv w' ∧ safe_of (ws_stream w) ≤ safe_of (ws_stream w') ∧
    ∀ a b, b ≤ safe_of (ws_stream w) → changes (ws_stream w') a b = changes (ws_stream w) a b).
  { clear Hx Hx' Hreach. induction Hsteps as [w|w1 w2 w3 H12 _ IH]; [done|].
    destruct (IH (watch_inv_step _ _ _ _ H12 Hi0)) as (Hi3 & Hle & Hch). split; [done|]. pose proof (wi_stream _ Hi0) as Hs.
    destruct H12; cbn [ws_stream] in *; try done. destruct (step_watermark_stable _ _ Hs H) as [Hsafe _]. fold (safe_of s) (safe_of s') in Hsafe.
    split; [lia|]. intros a b Hb. rewrite Hch by lia. by apply changes_stable. }
  destruct Hstable as (Hi & Hle & Hch). pose proof (wi_stream _ Hi) as Hs.
  pose proof (written_prefix w id x Hi0 Hx) as Hp. rewrite <- Hch, Hlast, map_app in Hp by lia. cbn in Hp.
  destruct (prefix_complete _ _ _ _ _ Hs Hp) as [Heq Hb]. cbn in Heq, Hb.
  pose proof (written_prefix w' id' x' Hi Hx') as Hp'. rewrite Hresume in Hp'. rewrite Hlast, !map_app. cbn.
  rewrite Heq. destruct (decide (wa_from x ≤ me_Seq m)) as [Hf|Hf].
  - rewrite (changes_split _ (wa_from x) (me_Seq m) (safe_of (ws_stream w'))) by (done || lia). by apply prefix_app.
  - rewrite (changes_empty _ (wa_from x) (me_Seq m)) in Heq by (done || lia). by destruct (map notice l).
Qed.

(** ** Keys of the engine *)

(** The kinds the engine's writers publish for an entity, with the row they are read from. *)
Definition changed_kind (e : entity) : string :=
  match e with
  | ERepository _ _ => "repository.changed"
  | EPullRequest _ _ _ => "pull_request.changed"
  | EStack _ _ _ => "stack.changed"
  | EChecks _ _ _ => "checks.changed"
  | ERepoRules _ _ => "repo_rules.changed"
  end.

Definition tombstoned_kind (e : entity) : option string :=
  match e with
  | ERepository _ _ => Some "repository.tombstoned"
  | EPullRequest _ _ _ => Some "pull_request.tombstoned"
  | EStack _ _ _ => Some "stack.tombstoned"
  | EChecks _ _ _ | ERepoRules _ _ => None
  end.

Definition entity_query (e : entity) : row_query :=
  match e with
  | ERepository i r => QueryRepository i r
  | EPullRequest i r n => QueryPullRequest i r n
  | EStack i r n => QueryStack i r n
  | EChecks i r sha => QueryChecks i r sha
  | ERepoRules i r => QueryRepoRules i r
  end.

(** Entities as GitHub numbers them. *)
Definition entity_valid (e : entity) : Prop :=
  entity_wf e ∧
  match e with
  | ERepository i r | ERepoRules i r => 0 < i ∧ 0 < r
  | EPullRequest i r n | EStack i r n => 0 < i ∧ 0 < r ∧ 0 < n
  | EChecks i r sha => 0 < i ∧ 0 < r ∧ sha ≠ "" ∧ ContainsByte sha ":" = false
  end.

Lemma parsePositiveKeyPart_format n : in_int64 n → 0 < n → parsePositiveKeyPart (FormatInt n) = Some n.
Proof. intros Hn Hp. unfold parsePositiveKeyPart. rewrite ParseInt_FormatInt by done. case_if; to_props; [lia|done]. Qed.

Lemma Split_pair kind a b : ContainsByte kind ":" = false → ContainsByte a ":" = false → ContainsByte b ":" = false →
  Split (kind +:+ String ":" (a +:+ String ":" b)) ":" = [kind; a; b].
Proof. intros. by rewrite !Split_app, Split_nosep. Qed.

(** Every key the engine publishes is read back to the row of its entity. *)
Theorem engine_keys_materialize e : entity_valid e →
  change_plan_of (changed_kind e) (entity_key e) = ReadRow (entity_query e) ∧
  (∀ kind, tombstoned_kind e = Some kind → change_plan_of kind (entity_key e) = Tombstoned).
Proof.
  intros [Hwf Hv].
  assert (Hpair : ∀ p i r, in_int64 i → in_int64 r → 0 < i → 0 < r → ContainsByte p ":" = false →
            parse_pair p (p +:+ String ":" (FormatInt i +:+ String ":" (FormatInt r))) = Some (i, r)).
  { intros p i r Hi Hr Hi0 Hr0 Hp. unfold parse_pair. rewrite Split_pair by eauto using FormatInt_nocolon.
    rewrite bool_decide_true by done. by rewrite !parsePositiveKeyPart_format. }
  assert (Hnum : ∀ p i r n, in_int64 i → in_int64 r → in_int64 n → 0 < i → 0 < r → 0 < n → ContainsByte p ":" = false →
            parseNumberedKey (p +:+ String ":" (FormatInt i +:+ String ":" (FormatInt r +:+ String ":" (FormatInt n)))) p = Some (i, r, n)).
  { intros p i r n Hi Hr Hn Hi0 Hr0 Hn0 Hp. unfold parseNumberedKey. rewrite Split_scope by eauto using FormatInt_nocolon.
    rewrite bool_decide_true by done. by rewrite !parsePositiveKeyPart_format. }
  destruct e as [i r|i r n|i r n|i r sha|i r]; cbn in Hwf, Hv |- *; unfold change_plan_of; cbn.
  - unfold parseRepositoryKey.
    change (Outbox.RepositoryKey i r) with ("repo" +:+ String ":" (FormatInt i +:+ String ":" (FormatInt r))).
    rewrite (Hpair "repo" i r) by (done || lia || apply Hwf || apply Hv). split; [done|]. by intros k [= <-].
  - change (Outbox.PullRequestKey i r n) with ("pr" +:+ String ":" (FormatInt i +:+ String ":" (FormatInt r +:+ String ":" (FormatInt n)))).
    rewrite (Hnum "pr" i r n) by (done || lia || apply Hwf || apply Hv). split; [done|]. by intros k [= <-].
  - change (Outbox.StackKey i r n) with ("stack" +:+ String ":" (FormatInt i +:+ String ":" (FormatInt r +:+ String ":" (FormatInt n)))).
    rewrite (Hnum "stack" i r n) by (done || lia || apply Hwf || apply Hv). split; [done|]. by intros k [= <-].
  - split; [|done]. unfold parseChecksKey, Outbox.ChecksKey.
    change ("checks:" +:+ FormatInt i +:+ ":" +:+ FormatInt r +:+ ":" +:+ sha)
      with ("checks" +:+ String ":" (FormatInt i +:+ String ":" (FormatInt r +:+ String ":" sha))).
    rewrite Split_scope by (done || by apply FormatInt_nocolon || by apply Hv). rewrite (bool_decide_false (sha = "")) by apply Hv. cbn.
    rewrite !parsePositiveKeyPart_format by (done || lia || apply Hwf || apply Hv). done.
  - split; [|done]. unfold parseRepositoryRulesKey.
    change (Outbox.RepoRulesKey i r) with ("repo_rules" +:+ String ":" (FormatInt i +:+ String ":" (FormatInt r))).
    rewrite (Hpair "repo_rules" i r) by (done || lia || apply Hwf || apply Hv). done.
Qed.

(** ** Snapshots and listings *)

Inductive snapshot_limit : Type := EntitiesLimit (maximum : Z) | BytesLimit (maximum : Z).

Definition row_bytes (row : string * string * string) : Z :=
  let '(kind, key, entity) := row in
  Z.of_nat (String.length kind) + Z.of_nat (String.length key) + Z.of_nat (String.length entity).

(** The loop over the snapshot's rows, which measures them again. *)
Fixpoint scan_snapshot (bytesLimit : Z) (materialized : Z) (rows : list (string * string * string))
    : result snapshot_limit (list materializedEvent) :=
  match rows with
  | [] => Ok []
  | row :: rows =>
      let materialized := materialized + row_bytes row in
      if bytesLimit <? materialized then Err (BytesLimit bytesLimit)
      else
        rest ← scan_snapshot bytesLimit materialized rows;
        Ok (mkMaterialized 0 row.1.1 row.1.2 (Some row.2) false :: rest)
  end.

(** [loadSnapshotEntities], of the rows [snapshot_entities] has. *)
Definition loadSnapshotEntities (entityLimit bytesLimit : Z) (rows : list (string * string * string))
    : result snapshot_limit (list materializedEvent) :=
  if entityLimit <? Z.of_nat (length rows) then Err (EntitiesLimit entityLimit)
  else if bytesLimit <? foldr Z.add 0 (map row_bytes rows) then Err (BytesLimit bytesLimit)
  else scan_snapshot bytesLimit 0 rows.

Lemma scan_snapshot_complete limit rows : ∀ start, start + foldr Z.add 0 (map row_bytes rows) ≤ limit →
  scan_snapshot limit start rows = Ok (map (λ row, mkMaterialized 0 row.1.1 row.1.2 (Some row.2) false) rows).
Proof.
  induction rows as [|row rows IH]; intros start Hs; [done|]. cbn in *.
  assert (0 ≤ foldr Z.add 0 (map row_bytes rows)).
  { clear. induction rows as [|[[a b] c] rows IH]; cbn; lia. }
  rewrite (proj2 (Z.ltb_ge _ _)) by lia. by rewrite IH by lia.
Qed.

(** A snapshot is either refused whole or has every entity. *)
Theorem snapshot_all_or_nothing entityLimit bytesLimit rows :
  match loadSnapshotEntities entityLimit bytesLimit rows with
  | Ok events => map (λ e, (me_Kind e, me_EntityKey e, default "" (me_Entity e))) events = rows
  | Err (EntitiesLimit m) => m = entityLimit ∧ entityLimit < Z.of_nat (length rows)
  | Err (BytesLimit m) => m = bytesLimit ∧ bytesLimit < foldr Z.add 0 (map row_bytes rows)
  end.
Proof.
  unfold loadSnapshotEntities. destruct (entityLimit <? _) eqn:He; to_props; [done|]. destruct (bytesLimit <? _) eqn:Hb; to_props; [done|].
  rewrite scan_snapshot_complete by lia. rewrite map_map. rewrite <- (map_id rows) at 2. apply map_ext. by intros [[a b] c].
Qed.

Definition defaultListLimit : Z := 100.
Definition maximumListLimit : Z := 500.

Definition requestLimit (value : string) : option Z :=
  if String.eqb value "" then Some defaultListLimit
  else match ParseInt value with
       | Some limit => if (limit <=? 0) || (maximumListLimit <? limit) then None else Some limit
       | None => None
       end.

Definition positivePathInt (value : string) : option Z :=
  match ParseInt value with
  | Some parsed => if parsed <=? 0 then None else Some parsed
  | None => None
  end.

(** The status and the entity of [writeSingularEntity]. *)
Definition writeSingularEntity (rows : list string) : Z * option string :=
  match rows with
  | [] => (404, None)
  | [row] => (200, Some row)
  | _ => (409, None)
  end.

(** ** Configuration *)

Definition boundedEnvInt (getenv : string → string) (name : string) (fallback maximum : Z) : option Z :=
  let value := TrimSpace (getenv name) in
  if String.eqb value "" then Some fallback
  else match ParseInt value with
       | Some parsed => if (parsed <=? 0) || (maximum <? parsed) then None else Some parsed
       | None => None
       end.

Record apiConfig : Type := mkApiConfig {
  api_databaseURL : string;
  api_databaseAuth : string;
  api_addr : string;
  api_consumerName : string;
  api_ringSize : Z;
  api_subscriberBuffer : Z;
  api_replayLimit : Z
}.

Inductive api_config_error : Type :=
  | DatabaseURLRequired
  | InvalidDatabaseAuth
  | OutOfBounds (name : string).

Definition parseConfig (getenv : string → string) : result api_config_error apiConfig :=
  let or_default value fallback := if String.eqb value "" then fallback else value in
  let bounded name fallback maximum :=
    match boundedEnvInt getenv name fallback maximum with Some v => Ok v | None => Err (OutOfBounds name) end in
  let databaseURL := TrimSpace (getenv "DATABASE_URL") in
  if String.eqb databaseURL "" then Err DatabaseURLRequired
  else match ParseDatabaseAuth (getenv "DATABASE_AUTH") with
       | Err _ => Err InvalidDatabaseAuth
       | Ok databaseAuth =>
           let addr := or_default (TrimSpace (getenv "API_ADDR")) ":8081" in
           let consumerName := or_default (TrimSpace (getenv "API_CONSUMER_NAME")) "example-api" in
           ringSize ← bounded "API_RING_SIZE" 512 100000;
           subscriberBuffer ← bounded "API_SUBSCRIBER_BUFFER" 64 10000;
           replayLimit ← bounded "API_REPLAY_LIMIT" 1000 100000;
           Ok (mkApiConfig databaseURL databaseAuth addr consumerName ringSize subscriberBuffer replayLimit)
       end.

Lemma boundedEnvInt_range getenv name fallback maximum v : 0 < fallback ≤ maximum →
  boundedEnvInt getenv name fallback maximum = Some v → 0 < v ≤ maximum.
Proof.
  intros Hf. unfold boundedEnvInt. destruct (String.eqb _ _); [by intros [= <-]|]. destruct (ParseInt _) as [p|]; [|done].
  destruct (_ || _) eqn:E; [done|]. intros [= <-]. to_props. lia.
Qed.

(** An accepted configuration has room in the ring and in every queue. *)
Theorem configured_hub_has_room getenv c : parseConfig getenv = Ok c →
  Z.to_nat (api_ringSize c) ≠ 0%nat ∧ Z.to_nat (api_subscriberBuffer c) ≠ 0%nat ∧ 0 < api_replayLimit c ≤ 100000.
Proof.
  unfold parseConfig. destruct (String.eqb _ _); [done|]. destruct (ParseDatabaseAuth _); [|done].
  intros (ring & Hr & H)%bind_ok. apply bind_ok in H as (buffer & Hb & H). apply bind_ok in H as (replay & Hp & H). injection H as <-. cbn.
  destruct (boundedEnvInt getenv "API_RING_SIZE" 512 100000) as [r|] eqn:E1; [injection Hr as ->|done].
  destruct (boundedEnvInt getenv "API_SUBSCRIBER_BUFFER" 64 10000) as [b|] eqn:E2; [injection Hb as ->|done].
  destruct (boundedEnvInt getenv "API_REPLAY_LIMIT" 1000 100000) as [p|] eqn:E3; [injection Hp as ->|done].
  apply boundedEnvInt_range in E1, E2, E3; lia.
Qed.

(** ** A concrete run *)

(** A watcher subscribes at the start, the tailer handles a page of two changes, the watcher
    is written the first and reconnects from it. *)
Definition ex_query : Event → row_query → result unit (option string) := λ _ _, Ok (Some "{}").

Definition ex_started : watch_state := mkWatch ex_published (initialize 0 (newEventHub 4 4)) 0 ∅.

Definition ex_change (q : Z) : materializedEvent := mkMaterialized q "pull_request.changed" "pr:1:2:3" (Some "{}") false.

Definition ex_hub (subs : gset Z) (objects : gmap Z subscriber) : eventHub :=
  mkHub [ex_change 1; ex_change 2] 0 4 4 subs objects 0 2 2 false.

Definition ex_queue (l : list Z) : subscriber := mkSubscriber (map ex_change l) None 2.

Definition ex_written : watch_state :=
  mkWatch ex_published (ex_hub {[0]} {[0 := ex_queue [2]]}) 2 {[7 := mkWatcher 0 (Following 0 []) [ex_change 1]]}.

Lemma ex_written_reachable : watch_reachable 10 5 ex_written.
Proof.
  exists ex_started. split; [apply watch_start; [apply ex_published_reachable|vm_compute; split; congruence|done]|].
  eapply rtc_l; [eapply (step_watch_ring _ _ _ _ _ _ _ 7 0 0 []); [done|vm_compute; reflexivity]|].
  eapply rtc_l; [eapply (step_tail _ _ _ _ _ _ _ ex_query 2 true) with (committed := true); [vm_compute; congruence|vm_compute; reflexivity|]|].
  { intros _. split; [done|]. vm_compute. lia. }
  eapply rtc_l; [eapply (step_write_event _ _ _ _ _ _ 7 0 0 [] _ (ex_change 1)); vm_compute; reflexivity|].
  assert (∀ w, w = ex_written → rtc (watch_step 10 5) w ex_written) as Hrefl by (intros ? ->; done).
  apply Hrefl. vm_compute. reflexivity.
Qed.

Lemma watch_exact_witness :
  map notice [ex_change 1] `prefix_of` changes ex_published 0 2 ∧ publish (ex_change 3) (ws_hub ex_written) ≠ None.
Proof.
  destruct (watch_exact 10 5 ex_written 7 (mkWatcher 0 (Following 0 []) [ex_change 1])) as (Hp & _ & Hpub & _);
    [apply ex_written_reachable|vm_compute; reflexivity|].
  split; [exact Hp|apply Hpub].
Defined.

(** The watcher reconnects from the change it was written, and is written the other from the
    ring. *)
Definition ex_resumed : watch_state :=
  mkWatch ex_published (ex_hub {[1]} {[0 := ex_queue [2]; 1 := ex_queue []]}) 2
    {[7 := mkWatcher 0 Finished [ex_change 1]; 8 := mkWatcher 1 (Following 1 []) [ex_change 2]]}.

Lemma ex_resumed_steps : rtc (watch_step 10 5) ex_written ex_resumed.
Proof.
  eapply rtc_l; [eapply (step_leave _ _ _ _ _ _ 7 0 0 [] [ex_change 1]); vm_compute; reflexivity|].
  eapply rtc_l; [eapply (step_watch_ring _ _ _ _ _ _ _ 8 1 1 [ex_change 2]); [done|vm_compute; reflexivity]|].
  eapply rtc_l; [eapply (step_write_replay _ _ _ _ _ _ 8 1 1 (ex_change 2) [] []); vm_compute; reflexivity|].
  assert (∀ w, w = ex_resumed → rtc (watch_step 10 5) w ex_resumed) as Hrefl by (intros ? ->; done).
  apply Hrefl. vm_compute. reflexivity.
Qed.

Lemma resume_seamless_witness : map notice [ex_change 1; ex_change 2] `prefix_of` changes ex_published 0 2.
Proof.
  exact (resume_seamless 10 5 ex_written ex_resumed 7 (mkWatcher 0 (Following 0 []) [ex_change 1])
    8 (mkWatcher 1 (Following 1 []) [ex_change 2]) [] (ex_change 1) ex_written_reachable ex_resumed_steps eq_refl eq_refl eq_refl eq_refl).
Defined.
