(* ===== verification/Loops.v ===== *)
(** * The polling loops

    The loops that drive the modelled steps: [Tail] of [pkg/streamclient], [Service.Run] of
    [internal/derive], [Dispatcher.Run] and [DispatchBatch] of [internal/dispatch], and the
    timers of [internal/stream]. An iteration is a function of the loop's state and of what
    the environment answers: results of the steps, of LISTEN connections and of waits, with
    the time each took. The theorems bound how long a loop waits before it polls again, how
    fast it may spin, and why it ends. *)

From Stdlib Require Import ZArith Lia Bool String.
From stdpp Require Import strings numbers base list.
From S2P Require Import Prelude GoStrings StreamClient Derive.

Local Open Scope Z_scope.

(** ** LISTEN loops *)

(** A page or a pass: a race to be repeated, an error, or the number of rows handled. *)
Inductive poll_outcome (E : Type) : Type :=
  | PollRace
  | PollFailed (e : E)
  | Polled (count : Z).
Arguments PollRace {E}.
Arguments PollFailed {E} e.
Arguments Polled {E} count.

Inductive wait_outcome : Type :=
  | Notified (after : duration)
  | WaitTimedOut
  | WaitFailed (after : duration).

(** What an iteration meets: the poll and its duration, whether a LISTEN connection can be
    acquired and how long that takes, whether the context has ended, and the wait. *)
Record loop_env (E : Type) : Type := mkEnv {
  le_poll : poll_outcome E;
  le_poll_took : duration;
  le_acquired : bool;
  le_acquire_took : duration;
  le_cancelled : bool;
  le_wait : wait_outcome
}.
Arguments mkEnv {E}. Arguments le_poll {E}. Arguments le_poll_took {E}. Arguments le_acquired {E}.
Arguments le_acquire_took {E}. Arguments le_cancelled {E}. Arguments le_wait {E}.

(** The clock, the LISTEN connection, its backoff, and the next attempt to connect. *)
Record loop_state : Type := mkLoop {
  lp_now : time;
  lp_listener : bool;
  lp_backoff : duration;
  lp_nextAttempt : time
}.

Inductive loop_end (E : Type) : Type :=
  | EndFailed (e : E)
  | EndCancelled.
Arguments EndFailed {E} e.
Arguments EndCancelled {E}.

Definition minListenerBackoff : duration := 100 * 1000000.
Definition acquire_timeout (poll : duration) : duration := Z.min poll (250 * 1000000).

Definition at_time (t : time) (s : loop_state) : loop_state := mkLoop t (lp_listener s) (lp_backoff s) (lp_nextAttempt s).

Section listen.
Context {E : Type} (poll : duration).

(** [normalizeTailContextError]: a network timeout of a context that has ended is reported
    as the context's error; [timeout] tells such errors, [from_handler] those of handlers. *)
Definition normalizeTailContextError (from_handler timeout : E → bool) (cancelled : bool) (e : E) : loop_end E :=
  if from_handler e then EndFailed e
  else if negb cancelled then EndFailed e
  else if timeout e then EndCancelled
  else EndFailed e.

(** One iteration of [Tail]. *)
Definition tail_iteration (from_handler timeout : E → bool) (batchSize : Z) (maxBackoff : duration) (env : loop_env E) (s : loop_state)
    : loop_end E + loop_state :=
  let s := at_time (lp_now s + le_poll_took env) s in
  match le_poll env with
  | PollRace => inr s
  | PollFailed e => inl (normalizeTailContextError from_handler timeout (le_cancelled env) e)
  | Polled delivered =>
      if delivered =? batchSize then inr s
      else
        let due := negb (lp_listener s) && negb (lp_now s <? lp_nextAttempt s) in
        let now := if due then lp_now s + le_acquire_took env else lp_now s in
        if due && negb (le_acquired env) && le_cancelled env then inl EndCancelled
        else
          let s :=
            if due then
              if le_acquired env then mkLoop now true (lp_backoff s) (lp_nextAttempt s)
              else mkLoop now false (growBackoff (lp_backoff s) maxBackoff) (now + lp_backoff s)
            else s in
          if negb (lp_listener s) then
            if le_cancelled env then inl EndCancelled else inr (at_time (now + poll) s)
          else
            match le_wait env with
            | Notified after => inr (mkLoop (now + after) true minListenerBackoff (lp_nextAttempt s))
            | WaitTimedOut => inr (mkLoop (now + poll) true minListenerBackoff (lp_nextAttempt s))
            | WaitFailed after =>
                if le_cancelled env then inl EndCancelled
                else inr (mkLoop (now + after) false (growBackoff (lp_backoff s) maxBackoff) (now + after + lp_backoff s))
            end
  end.

(** One iteration of the deriver's [Run], which resets the backoff when it connects. *)
Definition derive_iteration (dirtyCap : Z) (env : loop_env E) (s : loop_state) : loop_end E + loop_state :=
  let s := at_time (lp_now s + le_poll_took env) s in
  match le_poll env with
  | PollRace => inr s
  | PollFailed e => inl (if le_cancelled env then EndCancelled else EndFailed e)
  | Polled count =>
      if count =? dirtyCap then inr s
      else
        let due := negb (lp_listener s) && negb (lp_now s <? lp_nextAttempt s) in
        let now := if due then lp_now s + le_acquire_took env else lp_now s in
        if due && negb (le_acquired env) && le_cancelled env then inl EndCancelled
        else
          let s :=
            if due then
              if le_acquired env then mkLoop now true minListenerBackoff (lp_nextAttempt s)
              else mkLoop now false (growListenerBackoff (lp_backoff s)) (now + lp_backoff s)
            else s in
          if negb (lp_listener s) then
            if le_cancelled env then inl EndCancelled else inr (at_time (now + poll) s)
          else
            match le_wait env with
            | Notified after => inr (mkLoop (now + after) true (lp_backoff s) (lp_nextAttempt s))
            | WaitTimedOut => inr (mkLoop (now + poll) true (lp_backoff s) (lp_nextAttempt s))
            | WaitFailed after =>
                if le_cancelled env then inl EndCancelled
                else inr (mkLoop (now + after) false (growListenerBackoff (lp_backoff s)) (now + after + lp_backoff s))
            end
  end.

(** Waits and connection attempts take no longer than their timeouts. *)
Record env_ok (env : loop_env E) : Prop := {
  eo_poll : 0 ≤ le_poll_took env;
  eo_acquire : 0 ≤ le_acquire_took env ≤ acquire_timeout poll;
  eo_wait : match le_wait env with Notified d | WaitFailed d => 0 ≤ d ≤ poll | WaitTimedOut => True end
}.

(** Nothing to do: fewer rows than a batch, no race and no notification. *)
Definition quiet (full : Z) (env : loop_env E) : Prop :=
  (∃ n, le_poll env = Polled n ∧ n ≠ full) ∧ match le_wait env with Notified _ => False | _ => True end.

Definition backoff_ok (maxBackoff : duration) (s : loop_state) : Prop := minListenerBackoff ≤ lp_backoff s ≤ maxBackoff.

(** What either loop does in an iteration that goes on. *)
Record paced (full : Z) (maxBackoff : duration) (env : loop_env E) (s s' : loop_state) : Prop := {
  pc_backoff : backoff_ok maxBackoff s';
  pc_bound : lp_now s' - (lp_now s + le_poll_took env) ≤ acquire_timeout poll + poll;
  pc_forward : lp_now s + le_poll_took env ≤ lp_now s';
  pc_quiet : quiet full env →
    lp_now s + poll ≤ lp_now s' ∨
    (lp_listener s' = false ∧ lp_now s' + minListenerBackoff ≤ lp_nextAttempt s' ∧
     (lp_listener s = true ∨ lp_nextAttempt s ≤ lp_now s + le_poll_took env))
}.

Lemma grow_backoff_ok b maximum : maximum < 2 ^ 62 → minListenerBackoff ≤ b ≤ maximum →
  minListenerBackoff ≤ growBackoff b maximum ≤ maximum.
Proof.
  unfold growBackoff, minListenerBackoff. intros Hm Hb. rewrite wrap64_id by (unfold in_int64; lia).
  destruct (_ <? _) eqn:E0; to_props; lia.
Qed.

Lemma growListenerBackoff_is b : growListenerBackoff b = growBackoff b maxListenerBackoff.
Proof. done. Qed.

Ltac pace :=
  match goal with H : inr _ = inr _ |- _ => injection H as <- end;
  split; unfold backoff_ok, at_time in *; cbn [lp_now lp_listener lp_backoff lp_nextAttempt] in *; unfold acquire_timeout, minListenerBackoff in *;
  [lia|lia|lia|];
  intros [(m & Hm1 & Hm2) Hq]; try match goal with W : le_wait _ = _ |- _ => rewrite W in Hq end; try done; try congruence; to_props;
  first [left; lia | right; split_and!; [done|lia|first [by left|right; lia]]].

Lemma tail_paced from_handler timeout batchSize maxBackoff env s s' :
  0 ≤ poll → minListenerBackoff ≤ maxBackoff < 2 ^ 62 → env_ok env → backoff_ok maxBackoff s →
  tail_iteration from_handler timeout batchSize maxBackoff env s = inr s' → paced batchSize maxBackoff env s s'.
Proof.
  intros Hp Hm [He Ha Hw] Hb. pose proof (grow_backoff_ok (lp_backoff s) maxBackoff (proj2 Hm) Hb) as Hg.
  unfold tail_iteration. destruct (le_poll env) as [| |n] eqn:Hpoll; cbn [lp_now lp_listener lp_backoff lp_nextAttempt at_time]; intros H;
    [pace|done|]. destruct (Z.eqb_spec n batchSize) as [Hn|Hn]; [pace|].
  destruct (lp_listener s) eqn:Hl; cbn [negb andb] in H.
  - cbn [lp_listener lp_now lp_backoff lp_nextAttempt at_time] in H. rewrite ?Hl in H. cbn [negb] in H. destruct (le_wait env) as [d| |d] eqn:Hwait; [pace|pace|]. destruct (le_cancelled env); [done|pace].
  - destruct (lp_now s + le_poll_took env <? lp_nextAttempt s) eqn:Hdue; cbn [negb andb lp_listener at_time] in H; rewrite ?Hl in H; cbn [negb] in H.
    + destruct (le_cancelled env); [done|]. pace.
    + destruct (le_acquired env) eqn:Hacq; cbn [negb andb lp_listener] in H.
      * destruct (le_wait env) as [d| |d] eqn:Hwait; [pace|pace|]. destruct (le_cancelled env); [done|pace].
      * destruct (le_cancelled env); [done|pace].
Qed.

Lemma derive_paced dirtyCap env s s' :
  0 ≤ poll → env_ok env → backoff_ok maxListenerBackoff s →
  derive_iteration dirtyCap env s = inr s' → paced dirtyCap maxListenerBackoff env s s'.
Proof.
  intros Hp [He Ha Hw] Hb. assert (Hmax : minListenerBackoff ≤ maxListenerBackoff < 2 ^ 62) by done.
  pose proof (grow_backoff_ok (lp_backoff s) maxListenerBackoff (proj2 Hmax) Hb) as Hg.
  pose proof (grow_backoff_ok minListenerBackoff maxListenerBackoff (proj2 Hmax) ltac:(lia)) as Hg0.
  rewrite <- growListenerBackoff_is in Hg, Hg0. unfold derive_iteration.
  destruct (le_poll env) as [| |n] eqn:Hpoll; cbn [lp_now lp_listener lp_backoff lp_nextAttempt at_time]; intros H;
    [pace|done|]. destruct (Z.eqb_spec n dirtyCap) as [Hn|Hn]; [pace|].
  destruct (lp_listener s) eqn:Hl; cbn [negb andb] in H.
  - cbn [lp_listener lp_now lp_backoff lp_nextAttempt at_time] in H. rewrite ?Hl in H. cbn [negb] in H. destruct (le_wait env) as [d| |d] eqn:Hwait; [pace|pace|]. destruct (le_cancelled env); [done|pace].
  - destruct (lp_now s + le_poll_took env <? lp_nextAttempt s) eqn:Hdue; cbn [negb andb lp_listener at_time] in H; rewrite ?Hl in H; cbn [negb] in H.
    + destruct (le_cancelled env); [done|]. pace.
    + destruct (le_acquired env) eqn:Hacq; cbn [negb andb lp_listener] in H.
      * destruct (le_wait env) as [d| |d] eqn:Hwait; [pace|pace|]. destruct (le_cancelled env); [done|pace].
      * destruct (le_cancelled env); [done|pace].
Qed.
End listen.

Section listen_theorems.
Context {E : Type} (poll : duration).

(** Two iterations without work take at least as long as a poll or the shortest backoff. *)
Lemma paced_twice full maxBackoff (env1 env2 : loop_env E) s s1 s2 :
  env_ok poll env2 → 0 ≤ poll → paced poll full maxBackoff env1 s s1 → paced poll full maxBackoff env2 s1 s2 →
  0 ≤ le_poll_took env1 → quiet full env1 → quiet full env2 → lp_now s + Z.min poll minListenerBackoff ≤ lp_now s2.
Proof.
  intros [He2 _ _] Hp [_ _ Hf1 Hq1] [_ _ Hf2 Hq2] He1 H1 H2. specialize (Hq1 H1). specialize (Hq2 H2).
  destruct Hq1 as [Hq1|(Hl1 & Hn1 & _)]; [lia|]. destruct Hq2 as [Hq2|(_ & _ & [Hl|Hn])]; [lia|congruence|lia].
Qed.

(** [Tail] polls again at most a connection attempt and a poll interval after a page, with
    or without notifications; it does not spin when there is nothing to do; it ends only
    with an error of a page or because its context has ended, never because of LISTEN; and
    its backoff stays within its bounds. *)
Theorem tail_on_time (from_handler timeout : E → bool) batchSize maxBackoff (env1 env2 : loop_env E) s
    (Hpoll : 0 ≤ poll) (Hmax : minListenerBackoff ≤ maxBackoff < 2 ^ 62) (Henv1 : env_ok poll env1) (Henv2 : env_ok poll env2)
    (Hs : backoff_ok maxBackoff s) :
  match tail_iteration poll from_handler timeout batchSize maxBackoff env1 s with
  | inl (EndFailed e) => le_poll env1 = PollFailed e
  | inl EndCancelled => le_cancelled env1 = true
  | inr s1 =>
      backoff_ok maxBackoff s1 ∧
      lp_now s + le_poll_took env1 ≤ lp_now s1 ≤ lp_now s + le_poll_took env1 + acquire_timeout poll + poll ∧
      ∀ s2, tail_iteration poll from_handler timeout batchSize maxBackoff env2 s1 = inr s2 →
        quiet batchSize env1 → quiet batchSize env2 → lp_now s + Z.min poll minListenerBackoff ≤ lp_now s2
  end.
Proof.
  destruct (tail_iteration poll from_handler timeout batchSize maxBackoff env1 s) as [[e|]|s1] eqn:H1.
  - revert H1. unfold tail_iteration, normalizeTailContextError. destruct (le_poll env1) as [|x|n]; [done| |].
    + destruct (from_handler x), (le_cancelled env1), (timeout x); cbn; by intros [= <-].
    + cbn zeta. repeat case_match; done.
  - revert H1. unfold tail_iteration, normalizeTailContextError. destruct (le_poll env1) as [|x|n]; [done| |].
    + destruct (from_handler x), (le_cancelled env1), (timeout x); done.
    + cbn zeta. destruct (le_cancelled env1); [done|]. rewrite !andb_false_r. repeat case_match; done.
  - pose proof (tail_paced poll _ _ _ _ _ _ _ Hpoll Hmax Henv1 Hs H1) as Hp1. split_and!; [apply Hp1|apply Hp1| |].
    + pose proof (pc_bound _ _ _ _ _ _ Hp1). lia.
    + intros s2 H2 Hq1 Hq2. eapply (paced_twice batchSize maxBackoff env1 env2 s s1); [done|done|done| |apply Henv1|done|done].
      eapply tail_paced; [done..| |done]. apply Hp1.
Qed.

(** The same of the deriver's [Run]. *)
Theorem derive_on_time dirtyCap (env1 env2 : loop_env E) s
    (Hpoll : 0 ≤ poll) (Henv1 : env_ok poll env1) (Henv2 : env_ok poll env2) (Hs : backoff_ok maxListenerBackoff s) :
  match derive_iteration poll dirtyCap env1 s with
  | inl (EndFailed e) => le_poll env1 = PollFailed e ∧ le_cancelled env1 = false
  | inl EndCancelled => le_cancelled env1 = true
  | inr s1 =>
      backoff_ok maxListenerBackoff s1 ∧
      lp_now s + le_poll_took env1 ≤ lp_now s1 ≤ lp_now s + le_poll_took env1 + acquire_timeout poll + poll ∧
      ∀ s2, derive_iteration poll dirtyCap env2 s1 = inr s2 →
        quiet dirtyCap env1 → quiet dirtyCap env2 → lp_now s + Z.min poll minListenerBackoff ≤ lp_now s2
  end.
Proof.
  destruct (derive_iteration poll dirtyCap env1 s) as [[e|]|s1] eqn:H1.
  - revert H1. unfold derive_iteration. destruct (le_poll env1) as [|x|n]; [done| |].
    + destruct (le_cancelled env1); by intros [= <-].
    + cbn zeta. repeat case_match; done.
  - revert H1. unfold derive_iteration. destruct (le_poll env1) as [|x|n]; [done| |].
    + by destruct (le_cancelled env1).
    + cbn zeta. destruct (le_cancelled env1); [done|]. rewrite !andb_false_r. repeat case_match; done.
  - pose proof (derive_paced poll _ _ _ _ Hpoll Henv1 Hs H1) as Hp1. split_and!; [apply Hp1|apply Hp1| |].
    + pose proof (pc_bound _ _ _ _ _ _ Hp1). lia.
    + intros s2 H2 Hq1 Hq2. eapply (paced_twice dirtyCap maxListenerBackoff env1 env2 s s1); [done|done|done| |apply Henv1|done|done].
      eapply derive_paced; [done..| |done]. apply Hp1.
Qed.
End listen_theorems.

(** ** The dispatcher *)

(** The facts [retryableDispatchError] asks of an error. *)
Record dispatch_failure : Type := mkDispatchFailure {
  df_contention : bool;
  df_sqlState : option string;
  df_connect : bool;
  df_connClosed : bool;
  df_safeToRetry : bool;
  df_timeout : bool;
  df_network : bool
}.

Definition retryableDispatchError (e : dispatch_failure) : bool :=
  if df_contention e then true
  else if match df_sqlState e with
          | Some code => String.eqb code "40001" || String.eqb code "40P01" || HasPrefix code "08"
          | None => false
          end then true
  else if df_connect e || df_connClosed e || df_safeToRetry e || df_timeout e then true
  else df_network e.

(** [jitteredRetryDelay], with the random number drawn below the interval. *)
Definition jitteredRetryDelay (interval drawn : duration) : duration :=
  if interval <=? 1 then interval else wrap64 (interval `quot` 2 + drawn).

(** [DispatchBatch] over the attempts it makes and, after each, whether the context ended in
    the wait; [None] while it still retries. *)
Fixpoint DispatchBatch (attempts : list (result dispatch_failure Z * bool)) : option (result (option dispatch_failure) Z) :=
  match attempts with
  | [] => None
  | (Ok count, _) :: _ => Some (Ok count)
  | (Err e, cancelled) :: attempts =>
      if negb (df_contention e) then Some (Err (Some e))
      else if cancelled then Some (Err None)
      else DispatchBatch attempts
  end.

(** What [Dispatcher.Run] does after a batch: poll again at once or after a delay, or end. *)
Inductive dispatch_next : Type :=
  | PollAgain (delay : duration)
  | RunEnds (e : option dispatch_failure).

Definition dispatcher_iteration (pollInterval drawn : duration) (cancelled : bool) (batch : result (option dispatch_failure) Z) : dispatch_next :=
  match batch with
  | Err e =>
      if cancelled then RunEnds None
      else match e with
           | None => RunEnds None
           | Some e => if negb (retryableDispatchError e) then RunEnds (Some e) else PollAgain (jitteredRetryDelay pollInterval drawn)
           end
  | Ok count => if 0 <? count then PollAgain 0 else if cancelled then RunEnds None else PollAgain pollInterval
  end.

Lemma jitter_bounds interval drawn : 1 < interval < 2 ^ 62 → 0 ≤ drawn < interval →
  interval `quot` 2 ≤ jitteredRetryDelay interval drawn < interval `quot` 2 + interval.
Proof.
  intros Hi Hd. unfold jitteredRetryDelay. destruct (_ <=? _) eqn:E; to_props; [lia|].
  assert (0 ≤ interval `quot` 2 ≤ interval) by (split; [apply Z.quot_pos; lia|apply Z.quot_le_upper_bound; lia]).
  rewrite wrap64_id by (unfold in_int64; lia). lia.
Qed.

(** The dispatcher's loops end only for a reason: a batch is retried while it is contended
    and its answer is that of its first uncontended attempt; after a retryable error or an
    empty batch the dispatcher waits at least half a poll interval and less than one and a
    half, and it ends only on cancellation or on an error that is not retryable. *)
Theorem dispatcher_persists attempts contended last pollInterval drawn cancelled
    (Hcontended : Forall (λ a, match a.1 with Err e => df_contention e = true | Ok _ => False end ∧ a.2 = false) contended)
    (Hlast : match last with Err e => df_contention e = false | Ok _ => True end)
    (Hpoll : 1 < pollInterval < 2 ^ 62) (Hdrawn : 0 ≤ drawn < pollInterval) :
  let batch := match last with Ok n => Ok n | Err e => Err (Some e) end in
  DispatchBatch (contended ++ (last, cancelled) :: attempts) = Some batch ∧
  match dispatcher_iteration pollInterval drawn false batch with
  | PollAgain 0 => ∃ n, last = Ok n ∧ 0 < n
  | PollAgain delay => pollInterval `quot` 2 ≤ delay < pollInterval `quot` 2 + pollInterval
  | RunEnds e => ∃ f, e = Some f ∧ last = Err f ∧ retryableDispatchError f = false
  end.
Proof.
  cbn zeta. split.
  - induction Hcontended as [|[[|e] c] l [Ha Hc] _ IH]; cbn in *; [|done|by rewrite Ha, Hc].
    destruct last as [n|e]; [done|]. by rewrite Hlast.
  - assert (Hhalf : 1 ≤ pollInterval `quot` 2 ≤ pollInterval)
      by (split; [apply Z.quot_le_lower_bound; lia|apply Z.quot_le_upper_bound; lia]).
    destruct last as [n|e]; cbn.
    + destruct (0 <? n) eqn:En; to_props; [by exists n|]. destruct pollInterval; lia.
    + destruct (retryableDispatchError e) eqn:Er; cbn; [|by exists e].
      pose proof (jitter_bounds pollInterval drawn Hpoll Hdrawn). destruct (jitteredRetryDelay _ _); lia.
Qed.
