(* ===== verification/Endpoints.v ===== *)
(** * REST endpoints and GraphQL calls

    [internal/gh/rest.go] and [internal/gh/graphql.go]: the requests of each endpoint, the
    reading of the [Link] header that paginates them, and the GraphQL call with the rate
    block it reports to the request gate.

    [send] is the request gate with the server behind it, [parses] says which texts
    [url.Parse] accepts; a query is decoded as [url.ParseQuery] does. A GraphQL envelope is
    decoded by an argument, as are the values of the responses. *)

From Stdlib Require Import ZArith Lia Bool String Ascii.
From stdpp Require Import sorting strings gmap sets numbers base list.
From S2P Require Import Prelude GoStrings Gate GitHub.

Local Open Scope Z_scope.

(** ** Paths *)

(** What a path names. *)
Inductive endpoint : Type :=
  | RepositoryEndpoint (owner repo : string)
  | BranchEndpoint (owner repo branch : string)
  | InstallationRepositoriesEndpoint
  | RulesEndpoint (owner repo : string)
  | StacksEndpoint (owner repo : string)
  | StackEndpoint (owner repo : string) (number : Z)
  | PullsEndpoint (owner repo : string)
  | PullEndpoint (owner repo : string) (number : Z)
  | FilesEndpoint (owner repo : string) (number : Z)
  | CheckRunsEndpoint (owner repo headSHA : string).

Definition repo_path (owner repo : string) : string := "repos/" +:+ PathEscape owner +:+ "/" +:+ PathEscape repo.

Definition endpoint_path (e : endpoint) : string :=
  match e with
  | RepositoryEndpoint o r => repo_path o r
  | BranchEndpoint o r b => repo_path o r +:+ "/branches/" +:+ PathEscape b
  | InstallationRepositoriesEndpoint => "installation/repositories"
  | RulesEndpoint o r => repo_path o r +:+ "/rulesets"
  | StacksEndpoint o r => repo_path o r +:+ "/stacks"
  | StackEndpoint o r n => repo_path o r +:+ "/stacks/" +:+ FormatInt n
  | PullsEndpoint o r => repo_path o r +:+ "/pulls"
  | PullEndpoint o r n => repo_path o r +:+ "/pulls/" +:+ FormatInt n
  | FilesEndpoint o r n => repo_path o r +:+ "/pulls/" +:+ FormatInt n +:+ "/files"
  | CheckRunsEndpoint o r sha => repo_path o r +:+ "/commits/" +:+ PathEscape sha +:+ "/check-runs"
  end.

(** ** Requests *)

Record get_request : Type := mkGet {
  gr_path : string;
  gr_query : gmap string string;
  gr_etag : string
}.

Definition set_if (b : bool) (key value : string) (query : gmap string string) : gmap string string :=
  if b then <[key := value]> query else query.

Definition setPagination (query : gmap string string) (perPage page : Z) : gmap string string :=
  set_if (0 <? page) "page" (FormatInt page) (set_if (0 <? perPage) "per_page" (FormatInt perPage) query).

Record ListPullsOptions : Type := mkListPullsOptions {
  lp_State : string;
  lp_Sort : string;
  lp_Direction : string;
  lp_PerPage : Z;
  lp_Page : Z
}.

Record ListStacksOptions : Type := mkListStacksOptions {
  ls_PullRequest : Z;
  ls_PerPage : Z;
  ls_Page : Z
}.

Record PageOptions : Type := mkPageOptions {
  po_PerPage : Z;
  po_Page : Z
}.

Section requests.
Context {T : Type} (send : get_request → option (http_response T)).

(** [client.getJSON] with the gate: no metadata when the gate refused or the request
    failed. *)
Definition getJSON_of (r : get_request) : option RESTResponse * result http_error (option T) :=
  match send r with
  | None => (None, Err TransportError)
  | Some resp => let '(meta, v) := getJSON (gr_etag r) resp in (Some meta, v)
  end.

Definition GetRepository (owner repo etag : string) := getJSON_of (mkGet (endpoint_path (RepositoryEndpoint owner repo)) ∅ etag).

Definition GetStack (owner repo : string) (number : Z) (etag : string) :=
  getJSON_of (mkGet (endpoint_path (StackEndpoint owner repo number)) ∅ etag).

Definition GetPull (owner repo : string) (number : Z) (etag : string) :=
  getJSON_of (mkGet (endpoint_path (PullEndpoint owner repo number)) ∅ etag).

Definition ListRepositoryRules (owner repo etag : string) := getJSON_of (mkGet (endpoint_path (RulesEndpoint owner repo)) ∅ etag).

Definition ListInstallationRepositories (o : PageOptions) (etag : string) :=
  getJSON_of (mkGet (endpoint_path InstallationRepositoriesEndpoint) (setPagination ∅ (po_PerPage o) (po_Page o)) etag).

Definition ListStacks (owner repo : string) (o : ListStacksOptions) (etag : string) :=
  getJSON_of (mkGet (endpoint_path (StacksEndpoint owner repo))
    (setPagination (set_if (0 <? ls_PullRequest o) "pull_request" (FormatInt (ls_PullRequest o)) ∅) (ls_PerPage o) (ls_Page o)) etag).

Definition ListPulls (owner repo : string) (o : ListPullsOptions) (etag : string) :=
  getJSON_of (mkGet (endpoint_path (PullsEndpoint owner repo))
    (setPagination (set_if (negb (String.eqb (lp_Direction o) "")) "direction" (lp_Direction o)
                     (set_if (negb (String.eqb (lp_Sort o) "")) "sort" (lp_Sort o)
                       (set_if (negb (String.eqb (lp_State o) "")) "state" (lp_State o) ∅))) (lp_PerPage o) (lp_Page o)) etag).

Definition listPullRequestFiles (owner repo : string) (number : Z) (o : PageOptions) (etag : string) :=
  getJSON_of (mkGet (endpoint_path (FilesEndpoint owner repo number)) (setPagination ∅ (po_PerPage o) (po_Page o)) etag).

Definition ListPullRequestFiles (owner repo : string) (number : Z) (o : PageOptions) := listPullRequestFiles owner repo number o "".

Definition ListCheckRuns (owner repo headSHA : string) (o : PageOptions) (etag : string) :=
  getJSON_of (mkGet (endpoint_path (CheckRunsEndpoint owner repo headSHA)) (setPagination ∅ (po_PerPage o) (po_Page o)) etag).
End requests.

(** ** The next page *)

(** [strings.Index(s, string(c))]. *)
Fixpoint index_byte (s : string) (c : ascii) : option nat :=
  match s with
  | EmptyString => None
  | String d s => if Ascii.eqb d c then Some O else S <$> index_byte s c
  end.

(** [url.QueryUnescape]. *)
Fixpoint query_unescape (s : string) : option string :=
  match s with
  | EmptyString => Some EmptyString
  | String "%" (String a (String b s)) =>
      match unhex a, unhex b with
      | Some x, Some y => String (ascii_of_N (16 * x + y)) <$> query_unescape s
      | _, _ => None
      end
  | String "%" _ => None
  | String "+" s => String " " <$> query_unescape s
  | String c s => String c <$> query_unescape s
  end.

(** The parameters of [url.ParseQuery]; what it cannot parse it leaves out. *)
Fixpoint query_params (parts : list string) : list (string * string) :=
  match parts with
  | [] => []
  | part :: parts =>
      if ContainsByte part ";" || String.eqb part "" then query_params parts
      else
        let '(key, value) := match Cut part "=" with Some kv => kv | None => (part, "") end in
        match query_unescape key, query_unescape value with
        | Some k, Some v => (k, v) :: query_params parts
        | _, _ => query_params parts
        end
  end.

(** [url.URL.Query] of a parsed text: the query is between the first question mark and the
    fragment. *)
Definition url_query (raw : string) : list (string * string) :=
  let raw := match Cut raw "#" with Some (before, _) => before | None => raw end in
  match Cut raw "?" with
  | Some (_, query) => query_params (Split query "&")
  | None => []
  end.

(** [url.Values.Get]. *)
Definition query_get (params : list (string * string)) (key : string) : string :=
  match List.find (λ kv, String.eqb kv.1 key) params with Some kv => kv.2 | None => "" end.

(** The value [strconv.Atoi] returns beside its error: nothing for a syntax error, the
    nearest bound for a number out of range. *)
Definition Atoi_value (s : string) : Z :=
  let parsed :=
    match s with
    | String c s' =>
        if Ascii.eqb c "-" then Z.opp <$> parse_unsigned s'
        else if Ascii.eqb c "+" then parse_unsigned s'
        else parse_unsigned s
    | EmptyString => None
    end in
  match parsed with
  | Some n => Z.max (- 2 ^ 63) (Z.min (2 ^ 63 - 1) n)
  | None => 0
  end.

Definition next_mark : string := "rel=" +:+ String "034" ("next" +:+ String "034" "").

Section link.
Context (parses : string → bool).

Fixpoint next_of (parts : list string) : Z * string :=
  match parts with
  | [] => (0, "")
  | part :: parts =>
      if negb (Contains part next_mark) then next_of parts
      else
        match index_byte part "<", index_byte part ">" with
        | Some start, Some stop =>
            if (stop <=? start)%nat then next_of parts
            else
              let raw := substring (S start) (stop - start - 1) part in
              if parses raw then
                let query := url_query raw in (Atoi_value (query_get query "page"), query_get query "cursor")
              else next_of parts
        | _, _ => next_of parts
        end
  end.

Definition parseNextLink (link : string) : Z * string := next_of (Split link ",").
End link.

(** ** GraphQL *)

Record GraphQLError : Type := mkGraphQLError {
  ge_Type : string;
  ge_Message : string
}.

(** A decoded envelope: the raw data, the errors, and the rate block of the data. *)
Record envelope : Type := mkEnvelope {
  en_data : string;
  en_errors : list GraphQLError;
  en_rate : option GraphQLRate
}.

Inductive call_error : Type :=
  | RateUnread
  | ResponseTooLarge (limit : Z)
  | InvalidRateBlock
  | CallRefused
  | CallHTTP (status : Z)
  | EnvelopeUndecoded
  | RateOmitted
  | DataUndecoded
  | AnsweredErrors (errors : list GraphQLError).

Definition GraphQLErrors_Error (errors : list GraphQLError) : string :=
  match errors with
  | [] => "GitHub GraphQL error"
  | e :: _ => "GitHub GraphQL: " +:+ ge_Message e
  end.

Section graphql.
Context (decode_rate : string → option (option GraphQLRate)) (decode_envelope : string → option envelope).

(** [extractGraphQLRate]: the rate and what is left of the body; [body] is [None] when it
    cannot be read. *)
Definition extractGraphQLRate (body : option string) (maxResponseBytes : Z) : result call_error (option GraphQLRate) * string :=
  match body with
  | None => (Err RateUnread, "")
  | Some body =>
      if maxResponseBytes <? Z.of_nat (String.length body) then (Err (ResponseTooLarge maxResponseBytes), "")
      else
        match decode_rate body with
        | None | Some None => (Ok None, body)
        | Some (Some rate) =>
            if (rate_Limit rate <=? 0) || (rate_Remaining rate <? 0) || IsZero (rate_ResetAt rate) then (Err InvalidRateBlock, body)
            else (Ok (Some rate), body)
        end
  end.

Record GraphQLResponse : Type := mkGraphQLResponse {
  gq_RateLimit : GraphQLRate;
  gq_Errors : list GraphQLError
}.

(** What [Call] returns: metadata, the decoded target, and the error. *)
Record call_result (T : Type) : Type := mkCall {
  cl_response : option GraphQLResponse;
  cl_value : option T;
  cl_error : option call_error
}.

(** [Call] once the gate has let the request through: [network] is the status and the body
    of the response. The gate reports a failed extraction as the error of the request. *)
Definition Call {T} (unmarshal : string → option T) (maxResponseBytes : Z) (network : option (Z * option string)) : call_result T :=
  match network with
  | None => mkCall T None None (Some CallRefused)
  | Some (status, body) =>
      match extractGraphQLRate body maxResponseBytes with
      | (Err e, _) => mkCall T None None (Some e)
      | (Ok rate, rest) =>
          if negb (success status) then mkCall T None None (Some (CallHTTP status))
          else
            match decode_envelope rest with
            | None => mkCall T None None (Some EnvelopeUndecoded)
            | Some env =>
                match rate with
                | None => mkCall T None None (Some RateOmitted)
                | Some rate =>
                    let response := mkGraphQLResponse rate (en_errors env) in
                    let failed value :=
                      mkCall T (Some response) value (match en_errors env with [] => None | es => Some (AnsweredErrors es) end) in
                    if String.eqb (en_data env) "" then failed None
                    else
                      match unmarshal (en_data env) with
                      | None => mkCall T (Some response) None (Some DataUndecoded)
                      | Some v => failed (Some v)
                      end
                end
            end
      end
  end.
End graphql.

(** ** Paths are unambiguous *)

Definition endpoint_segments (e : endpoint) : list string :=
  match e with
  | RepositoryEndpoint o r => ["repos"; PathEscape o; PathEscape r]
  | BranchEndpoint o r b => ["repos"; PathEscape o; PathEscape r; "branches"; PathEscape b]
  | InstallationRepositoriesEndpoint => ["installation"; "repositories"]
  | RulesEndpoint o r => ["repos"; PathEscape o; PathEscape r; "rulesets"]
  | StacksEndpoint o r => ["repos"; PathEscape o; PathEscape r; "stacks"]
  | StackEndpoint o r n => ["repos"; PathEscape o; PathEscape r; "stacks"; FormatInt n]
  | PullsEndpoint o r => ["repos"; PathEscape o; PathEscape r; "pulls"]
  | PullEndpoint o r n => ["repos"; PathEscape o; PathEscape r; "pulls"; FormatInt n]
  | FilesEndpoint o r n => ["repos"; PathEscape o; PathEscape r; "pulls"; FormatInt n; "files"]
  | CheckRunsEndpoint o r sha => ["repos"; PathEscape o; PathEscape r; "commits"; PathEscape sha; "check-runs"]
  end.

Lemma hex_digit_slash n : (n < 16)%N → Ascii.eqb (hex_digit n) "/" = false.
Proof.
  intros Hn. apply Ascii.eqb_neq. intros Heq. pose proof (unhex_digit n Hn) as Hu. rewrite Heq in Hu. vm_compute in Hu. discriminate Hu.
Qed.

Lemma PathEscape_slash s : ContainsByte (PathEscape s) "/" = false.
Proof.
  unfold PathEscape. induction s as [|c s IH]; [done|]. cbn [escape]. destruct (shouldEscape encodePathSegment c) eqn:He.
  - cbn [ContainsByte]. pose proof (N_ascii_bounded c) as Hb. rewrite !hex_digit_slash, IH; [done|apply N.mod_lt; lia|].
    apply N.Div0.div_lt_upper_bound. lia.
  - cbn [ContainsByte]. rewrite IH. destruct (Ascii.eqb c "/") eqn:Hc; [|done]. apply Ascii.eqb_eq in Hc. subst c. vm_compute in He. discriminate He.
Qed.

Lemma PathEscape_inj a b : PathEscape a = PathEscape b → a = b.
Proof. intros H. apply (f_equal unescape) in H. unfold PathEscape in H. rewrite !unescape_escape in H. by injection H. Qed.

Lemma FormatInt_slash n : ContainsByte (FormatInt n) "/" = false.
Proof. apply FormatInt_nobyte; done. Qed.

Lemma Split_slash a b : ContainsByte a "/" = false → Split (a +:+ "/" +:+ b) "/" = a :: Split b "/".
Proof. apply Split_app. Qed.

Lemma endpoint_path_split e : Split (endpoint_path e) "/" = endpoint_segments e.
Proof.
  assert (Hrepo : ∀ o r t, Split (repo_path o r +:+ "/" +:+ t) "/" = "repos" :: PathEscape o :: PathEscape r :: Split t "/").
  { intros o r t. unfold repo_path. change ("repos/" +:+ PathEscape o +:+ "/" +:+ PathEscape r) with ("repos" +:+ "/" +:+ (PathEscape o +:+ "/" +:+ PathEscape r)).
    rewrite !append_assoc. rewrite Split_slash by done. rewrite Split_slash by apply PathEscape_slash. by rewrite Split_slash by apply PathEscape_slash. }
  destruct e as [o r|o r b| |o r|o r|o r n|o r|o r n|o r n|o r sha]; cbn [endpoint_path endpoint_segments].
  - unfold repo_path. change ("repos/" +:+ PathEscape o +:+ "/" +:+ PathEscape r) with ("repos" +:+ "/" +:+ (PathEscape o +:+ "/" +:+ PathEscape r)).
    rewrite Split_slash by done. rewrite Split_slash by apply PathEscape_slash. by rewrite Split_nosep by apply PathEscape_slash.
  - change ("/branches/" +:+ PathEscape b) with ("/" +:+ ("branches" +:+ "/" +:+ PathEscape b)).
    rewrite Hrepo, Split_slash by done. by rewrite Split_nosep by apply PathEscape_slash.
  - done.
  - change "/rulesets" with ("/" +:+ "rulesets"). by rewrite Hrepo.
  - change "/stacks" with ("/" +:+ "stacks"). by rewrite Hrepo.
  - change ("/stacks/" +:+ FormatInt n) with ("/" +:+ ("stacks" +:+ "/" +:+ FormatInt n)).
    rewrite Hrepo, Split_slash by done. by rewrite Split_nosep by apply FormatInt_slash.
  - change "/pulls" with ("/" +:+ "pulls"). by rewrite Hrepo.
  - change ("/pulls/" +:+ FormatInt n) with ("/" +:+ ("pulls" +:+ "/" +:+ FormatInt n)).
    rewrite Hrepo, Split_slash by done. by rewrite Split_nosep by apply FormatInt_slash.
  - change ("/pulls/" +:+ FormatInt n +:+ "/files") with ("/" +:+ ("pulls" +:+ "/" +:+ (FormatInt n +:+ "/" +:+ "files"))).
    rewrite Hrepo, Split_slash by done. by rewrite Split_slash by apply FormatInt_slash.
  - change ("/commits/" +:+ PathEscape sha +:+ "/check-runs") with ("/" +:+ ("commits" +:+ "/" +:+ (PathEscape sha +:+ "/" +:+ "check-runs"))).
    rewrite Hrepo, Split_slash by done. by rewrite Split_slash by apply PathEscape_slash.
Qed.

Definition endpoint_number (e : endpoint) : Z :=
  match e with StackEndpoint _ _ n | PullEndpoint _ _ n | FilesEndpoint _ _ n => n | _ => 0 end.

(** Requests for different things have different paths, whatever owners, repositories,
    branches and commits are called. *)
Theorem endpoints_unambiguous e1 e2 : in_int64 (endpoint_number e1) → in_int64 (endpoint_number e2) →
  request_path (endpoint_path e1) = request_path (endpoint_path e2) → e1 = e2.
Proof.
  intros H1 H2 Heq. assert (Hp : endpoint_path e1 = endpoint_path e2).
  { apply (f_equal unescape) in Heq. unfold request_path in Heq. rewrite !unescape_escape in Heq. by injection Heq. }
  apply (f_equal (λ p, Split p "/")) in Hp. rewrite !endpoint_path_split in Hp.
  destruct e1, e2; cbn [endpoint_segments] in Hp; try discriminate Hp; try reflexivity; injection Hp; intros;
    repeat match goal with
    | H : PathEscape _ = PathEscape _ |- _ => apply PathEscape_inj in H
    | H : FormatInt _ = FormatInt _ |- _ => apply FormatInt_inj in H; [|exact H1|exact H2]
    end; subst; reflexivity.
Qed.

(** ** Links *)

Definition quote : ascii := "034".

Definition link_entry (uri rel : string) : string := "<" +:+ uri +:+ ">; rel=" +:+ String quote (rel +:+ String quote "").

(** The header as GitHub sends it. *)
Fixpoint link_header (entries : list (string * string)) : string :=
  match entries with
  | [] => ""
  | (uri, rel) :: rest =>
      match rest with
      | [] => link_entry uri rel
      | _ => link_entry uri rel +:+ ", " +:+ link_header rest
      end
  end.

Definition plain_entry (entry : string * string) : Prop :=
  (∀ c, c ∈ [","; "<"; ">"; quote]%char → ContainsByte entry.1 c = false) ∧
  ContainsByte entry.2 "," = false ∧ ContainsByte entry.2 quote = false.

Fixpoint count_byte (s : string) (c : ascii) : nat :=
  match s with
  | EmptyString => 0
  | String d s => (if Ascii.eqb d c then 1 else 0) + count_byte s c
  end.

Lemma count_app a b c : count_byte (a +:+ b) c = (count_byte a c + count_byte b c)%nat.
Proof. induction a as [|d a IH]; [done|]. rewrite append_cons. cbn [count_byte]. rewrite IH. lia. Qed.

Lemma count_none s c : ContainsByte s c = false → count_byte s c = 0%nat.
Proof. induction s as [|d s IH]; cbn; [done|]. destruct (Ascii.eqb d c); [done|]. exact IH. Qed.

Lemma HasPrefix_split s p : HasPrefix s p = true → ∃ t, s = p +:+ t.
Proof. intros H. apply HasPrefix_inv in H. eauto. Qed.

Lemma Contains_split s sub : Contains s sub = true → ∃ a b, s = a +:+ sub +:+ b.
Proof.
  induction s as [|c s IH]; cbn [Contains]; intros H; apply orb_true_iff in H as [H|H]; try done.
  - apply HasPrefix_split in H as [t Ht]. by exists "", t.
  - apply HasPrefix_split in H as [t Ht]. by exists "", t.
  - destruct (IH H) as (a & b & ->). by exists (String c a), b.
Qed.

Lemma Contains_app a s sub : HasPrefix s sub = true → Contains (a +:+ s) sub = true.
Proof.
  intros H. induction a as [|c a IH]; [rewrite append_empty; destruct s; cbn [Contains]; by rewrite H|].
  rewrite append_cons. cbn [Contains]. rewrite IH. apply orb_true_r.
Qed.

(** A part of the header is that of the next page exactly when its relation is. *)
Lemma next_mark_found pre rel : ContainsByte pre quote = false → ContainsByte rel quote = false →
  Contains (pre +:+ "rel=" +:+ String quote (rel +:+ String quote "")) next_mark = String.eqb rel "next".
Proof.
  intros Hp Hr. destruct (String.eqb rel "next") eqn:He.
  - apply String.eqb_eq in He as ->. apply Contains_app. vm_compute. reflexivity.
  - destruct (Contains _ _) eqn:Hc; [|done]. exfalso. apply String.eqb_neq in He. apply He. apply Contains_split in Hc as (a & b & Heq).
    change (next_mark +:+ b) with ("rel=" +:+ String quote ("next" +:+ String quote b)) in Heq.
    assert (Hcount : count_byte a quote = 0%nat).
    { apply (f_equal (λ s, count_byte s quote)) in Heq. rewrite !count_app in Heq. cbn [count_byte] in Heq. rewrite !count_app in Heq.
      rewrite (count_none pre), (count_none rel) in Heq by done. cbn in Heq. lia. }
    assert (Ha : ContainsByte a quote = false).
    { clear -Hcount. induction a as [|d a IH]; [done|]. cbn in *. destruct (Ascii.eqb d quote); [lia|]. by apply IH. }
    rewrite <- !(append_assoc _ "rel=") in Heq. apply (f_equal (λ s, Cut s quote)) in Heq.
    rewrite !Cut_app in Heq by (rewrite ContainsByte_app; rewrite ?Hp, ?Ha; done). injection Heq as _ Heq.
    apply (f_equal (λ s, Cut s quote)) in Heq. rewrite !Cut_app in Heq by done. by injection Heq.
Qed.

Lemma index_byte_app a c b : ContainsByte a c = false → index_byte (a +:+ String c b) c = Some (String.length a).
Proof.
  induction a as [|d a IH]; [rewrite append_empty; cbn [index_byte]; by rewrite Ascii.eqb_refl|]. rewrite append_cons. cbn [index_byte ContainsByte String.length].
  destruct (Ascii.eqb d c); [done|]. intros H. by rewrite (IH H).
Qed.

Lemma substring_app a b c : substring (String.length a) (String.length b) (a +:+ b +:+ c) = b.
Proof.
  induction a as [|d a IH]; [|rewrite append_cons; exact IH]. rewrite append_empty. cbn [String.length].
  induction b as [|d b IH]; [rewrite append_empty; by destruct c|]. rewrite append_cons. cbn [String.length substring]. by rewrite IH.
Qed.

Section links.
Context (parses : string → bool).

(** The page of the first entry that links to one. *)
Definition next_entry (entries : list (string * string)) : Z * string :=
  match List.find (λ e, String.eqb e.2 "next" && parses e.1) entries with
  | Some e => (Atoi_value (query_get (url_query e.1) "page"), query_get (url_query e.1) "cursor")
  | None => (0, "")
  end.

Definition is_pad (pad : string) : Prop := pad = "" ∨ pad = " ".

Lemma pad_plain pad c : is_pad pad → c ≠ " "%char → ContainsByte pad c = false.
Proof. intros [->| ->] Hc; [done|]. cbn [ContainsByte]. rewrite (proj2 (Ascii.eqb_neq _ _)); [done|congruence]. Qed.

Lemma next_of_entry pad uri rel parts : is_pad pad → plain_entry (uri, rel) →
  next_of parses ((pad +:+ link_entry uri rel) :: parts) =
  if String.eqb rel "next" && parses uri then (Atoi_value (query_get (url_query uri) "page"), query_get (url_query uri) "cursor")
  else next_of parses parts.
Proof.
  intros Hpad (Hu & Hr1 & Hr2). cbn [fst snd] in Hu, Hr1, Hr2. cbn [next_of].
  assert (Hmark : Contains (pad +:+ link_entry uri rel) next_mark = String.eqb rel "next").
  { unfold link_entry. change (">; rel=" +:+ String quote (rel +:+ String quote "")) with (">; " +:+ ("rel=" +:+ String quote (rel +:+ String quote ""))).
    rewrite <- !append_assoc. rewrite append_assoc. apply next_mark_found; [|done]. rewrite !ContainsByte_app, (pad_plain pad) by done.
    rewrite (Hu quote) by set_solver. done. }
  rewrite Hmark. destruct (String.eqb rel "next"); [|done]. cbn [negb andb].
  assert (Hlt : index_byte (pad +:+ link_entry uri rel) "<" = Some (String.length pad)).
  { apply index_byte_app. by apply pad_plain. }
  assert (Hgt : index_byte (pad +:+ link_entry uri rel) ">" = Some (String.length (pad +:+ "<" +:+ uri))).
  { unfold link_entry. change (">; rel=" +:+ String quote (rel +:+ String quote "")) with (String ">" ("; rel=" +:+ String quote (rel +:+ String quote ""))).
    rewrite <- !append_assoc. apply index_byte_app. rewrite !ContainsByte_app, (pad_plain pad) by done. rewrite (Hu ">"%char) by set_solver. done. }
  rewrite Hlt, Hgt. assert (Hlen : String.length (pad +:+ "<" +:+ uri) = (String.length pad + 1 + String.length uri)%nat).
  { assert (Happ : ∀ a b, String.length (a +:+ b) = (String.length a + String.length b)%nat) by (clear; induction a as [|c a IH]; intros b; [done|]; rewrite append_cons; cbn [String.length]; by rewrite IH).
    rewrite !Happ. cbn. lia. }
  rewrite Hlen. rewrite (proj2 (Nat.leb_gt _ _)) by lia.
  assert (Hsub : substring (S (String.length pad)) (String.length pad + 1 + String.length uri - String.length pad - 1) (pad +:+ link_entry uri rel) = uri).
  { replace (String.length pad + 1 + String.length uri - String.length pad - 1)%nat with (String.length uri) by lia. unfold link_entry.
    rewrite <- (append_assoc pad "<"). replace (S (String.length pad)) with (String.length (pad +:+ "<")) by (by destruct Hpad as [->| ->]).
    apply substring_app. }
  rewrite Hsub. done.
Qed.

Lemma entry_no_comma pad uri rel : is_pad pad → plain_entry (uri, rel) → ContainsByte (pad +:+ link_entry uri rel) "," = false.
Proof.
  intros Hpad (Hu & Hr1 & Hr2). cbn [fst snd] in *. unfold link_entry.
  change (String quote (rel +:+ String quote "")) with ((String quote "") +:+ (rel +:+ String quote "")).
  rewrite !ContainsByte_app, (pad_plain pad), Hr1 by done. rewrite (Hu ","%char) by set_solver. done.
Qed.

Lemma next_of_header entries : ∀ pad, is_pad pad → Forall plain_entry entries →
  next_of parses (Split (pad +:+ link_header entries) ",") = next_entry entries.
Proof.
  induction entries as [|[uri rel] entries IH]; intros pad Hpad Hf.
  { destruct Hpad as [->| ->]; vm_compute; reflexivity. }
  inversion_clear Hf as [|?? He Hf']. cbn [link_header]. unfold next_entry. cbn [List.find fst snd]. destruct entries as [|e entries].
  - rewrite Split_nosep by (by apply entry_no_comma). rewrite next_of_entry by done. cbn [next_of List.find]. by destruct (_ && _).
  - change (", " +:+ link_header (e :: entries)) with (String "," (" " +:+ link_header (e :: entries))). rewrite <- append_assoc.
    rewrite Split_app by (by apply entry_no_comma). rewrite next_of_entry by done. rewrite IH by (done || by right). unfold next_entry.
    by destruct (_ && _).
Qed.
End links.

(** The link to the next page is found in a header of any number of links. *)
Theorem next_link_followed parses entries : Forall plain_entry entries → parseNextLink parses (link_header entries) = next_entry parses entries.
Proof. intros Hf. unfold parseNextLink. rewrite <- (next_of_header parses entries "" (or_introl eq_refl) Hf). by rewrite append_empty. Qed.

(** ** Calls *)

(** A call that succeeds was answered in full within the size limit, without errors, and with
    a rate block that the gate records. *)
Theorem call_accounted {T} decode_rate decode_envelope (unmarshal : string → option T) limit network :
  let c := Call decode_rate decode_envelope unmarshal limit network in
  cl_error T c = None →
  ∃ status body env rate,
    network = Some (status, Some body) ∧ success status = true ∧ Z.of_nat (String.length body) ≤ limit ∧
    decode_envelope body = Some env ∧ en_errors env = [] ∧ decode_rate body = Some (Some rate) ∧
    cl_response T c = Some (mkGraphQLResponse rate []) ∧
    (cl_value T c = None ↔ en_data env = "") ∧ (∀ v, cl_value T c = Some v → unmarshal (en_data env) = Some v) ∧
    ∀ g, observeGraphQL g rate = observeBudget g PoolGraphQL (Budget true (rate_Limit rate) (rate_Remaining rate) (rate_ResetAt rate)).
Proof.
  unfold Call. destruct network as [[status [body|]]|]; cbn [extractGraphQLRate]; [|done..].
  destruct (limit <? _) eqn:Hl; [done|]. destruct (decode_rate body) as [[rate|]|] eqn:Hr.
  - destruct ((rate_Limit rate <=? 0) || _ || _) eqn:Hv; [done|]. destruct (success status) eqn:Hs; cbn [negb]; [|done].
    destruct (decode_envelope body) as [env|] eqn:He; [|done].
    assert (Hobs : ∀ g, observeGraphQL g rate = observeBudget g PoolGraphQL (Budget true (rate_Limit rate) (rate_Remaining rate) (rate_ResetAt rate)))
      by (intros g; unfold observeGraphQL; by rewrite Hv).
    destruct (String.eqb (en_data env) "") eqn:Hd; [apply String.eqb_eq in Hd|apply String.eqb_neq in Hd; destruct (unmarshal (en_data env)) as [v|] eqn:Hu; [|done]];
      cbn; destruct (en_errors env) eqn:Hes; try done; intros _; exists status, body, env, rate; split_and!; try done; try lia; naive_solver.
  - destruct (success status); cbn [negb]; [|done]. by destruct (decode_envelope body).
  - destruct (success status); cbn [negb]; [|done]. by destruct (decode_envelope body).
Qed.

(** A response over the limit is refused whatever it says. *)
Lemma large_response_refused {T} decode_rate decode_envelope (unmarshal : string → option T) limit status body :
  limit < Z.of_nat (String.length body) →
  cl_error T (Call decode_rate decode_envelope unmarshal limit (Some (status, Some body))) = Some (ResponseTooLarge limit).
Proof. intros Hl. unfold Call. cbn [extractGraphQLRate]. by rewrite (proj2 (Z.ltb_lt _ _)). Qed.

(** ** Concrete requests *)

Example ex_link : parseNextLink (λ _, true)
  (link_header [("https://api.github.com/x?page=1", "prev"); ("https://api.github.com/x?per_page=100&page=3&cursor=a%2Bb", "next")]) = (3, "a+b").
Proof. vm_compute. reflexivity. Qed.

Example ex_path : request_path (endpoint_path (FilesEndpoint "acme" "app" 12)) = "repos/acme/app/pulls/12/files".
Proof. vm_compute. reflexivity. Qed.

Example ex_pagination : setPagination ∅ 100 0 = {["per_page" := "100"]}.
Proof. vm_compute. reflexivity. Qed.
