(* ===== verification/Recording.v ===== *)
(** * Recordings

    [internal/replay/recording.go]: the recording of a repository's history that the load
    generator replays. A recording is a header line and one event per line, as JSON; [Read]
    and [Write] check the header, the sequence numbers and times of the events and every
    event by its kind, and [NormalizeEvents] turns timed events into a numbered sequence.

    [encoding/json] is an argument: an encoder, which fails on what JSON cannot hold, and a
    decoder. A reader is the bytes it delivers and the error it ends with, if any; the
    scanner is [bufio.Scanner] with its limit of four mebibytes for a line. Sequence numbers
    count lines and are not wrapped; [SliceStable] is the merge sort of the library, which
    is stable. *)

From Stdlib Require Import ZArith Lia Bool SpecFloat String Ascii.
From stdpp Require Import sorting strings gmap numbers base list relations.
From S2P Require Import Prelude GoStrings GoFloat.

Local Open Scope Z_scope.

(** ** Data *)

Definition RecordingVersion : Z := 2.

Record RecRepository : Type := mkRecRepository {
  rrep_ID : Z;
  rrep_NodeID : string;
  rrep_Owner : string;
  rrep_Name : string;
  rrep_DefaultBranch : string;
  rrep_DefaultBranchSHA : string;
  rrep_UpdatedAt : time
}.

#[export] Instance RecRepository_eq_dec : EqDecision RecRepository.
Proof. solve_decision. Defined.

Definition RecFullName (r : RecRepository) : string := rrep_Owner r +:+ "/" +:+ rrep_Name r.

Record RecHeader : Type := mkRecHeader {
  rhd_Type : string;
  rhd_Version : Z;
  rhd_Repository : RecRepository;
  rhd_Since : time;
  rhd_Until : time;
  rhd_StartedAt : time;
  rhd_SynthesizeStacks : float64;
  rhd_Seed : Z
}.

Record RecBranch : Type := mkRecBranch {
  rbr_Ref : string;
  rbr_SHA : string;
  rbr_Repository : string
}.

Record RecPull : Type := mkRecPull {
  rpr_ID : Z;
  rpr_NodeID : string;
  rpr_Number : Z;
  rpr_Title : string;
  rpr_State : string;
  rpr_Draft : bool;
  rpr_Merged : bool;
  rpr_AuthorLogin : string;
  rpr_ReviewDecision : string;
  rpr_MergeableState : string;
  rpr_Head : RecBranch;
  rpr_Base : RecBranch;
  rpr_CreatedAt : time;
  rpr_UpdatedAt : time;
  rpr_ClosedAt : option time;
  rpr_MergedAt : option time
}.

Record RecReview : Type := mkRecReview {
  rrv_ID : Z;
  rrv_NodeID : string;
  rrv_State : string;
  rrv_Body : string;
  rrv_AuthorLogin : string;
  rrv_AuthorKind : string;
  rrv_AuthorNodeID : string;
  rrv_CommitSHA : string;
  rrv_SubmittedAt : time;
  rrv_UpdatedAt : time
}.

Record RecIssueComment : Type := mkRecIssueComment {
  ric_ID : Z;
  ric_NodeID : string;
  ric_AuthorKind : string;
  ric_AuthorNodeID : string;
  ric_AuthorLogin : string;
  ric_Body : string;
  ric_CreatedAt : time;
  ric_UpdatedAt : time
}.

Record RecReviewComment : Type := mkRecReviewComment {
  rcm_ID : Z;
  rcm_NodeID : string;
  rcm_ReviewID : Z;
  rcm_Body : string;
  rcm_Path : string;
  rcm_Line : option Z;
  rcm_AuthorLogin : string;
  rcm_CreatedAt : time;
  rcm_UpdatedAt : time
}.

Record RecReviewThread : Type := mkRecReviewThread {
  rth_ID : string;
  rth_IsResolved : bool;
  rth_IsOutdated : bool;
  rth_Path : string;
  rth_Line : option Z;
  rth_Comments : list RecReviewComment
}.

Record RecCheckSuite : Type := mkRecCheckSuite {
  rcs_ID : Z;
  rcs_NodeID : string;
  rcs_HeadSHA : string;
  rcs_Status : string;
  rcs_Conclusion : string;
  rcs_AppSlug : string;
  rcs_CreatedAt : time;
  rcs_UpdatedAt : time
}.

Record RecCheckRun : Type := mkRecCheckRun {
  rcr_ID : Z;
  rcr_NodeID : string;
  rcr_HeadSHA : string;
  rcr_Name : string;
  rcr_Status : string;
  rcr_Conclusion : string;
  rcr_DetailsURL : string;
  rcr_AppSlug : string;
  rcr_StartedAt : option time;
  rcr_CompletedAt : option time
}.

Record RecCommit : Type := mkRecCommit {
  rco_SHA : string;
  rco_ParentSHA : string;
  rco_Ref : string;
  rco_CommittedAt : time;
  rco_PullRequestNumber : Z;
  rco_DefaultBranch : bool
}.

Record RecPush : Type := mkRecPush {
  rpu_Ref : string;
  rpu_Before : string;
  rpu_After : string;
  rpu_Forced : bool;
  rpu_DefaultBranch : bool;
  rpu_PushedAt : time
}.

Record RecStack : Type := mkRecStack {
  rst_ID : Z;
  rst_Number : Z;
  rst_Base : RecBranch;
  rst_PullRequests : list Z;
  rst_PullRequestStates : list RecPull;
  rst_Synthetic : bool
}.

Record RecEvent : Type := mkRecEvent {
  rev_Seq : Z;
  rev_AtMS : Z;
  rev_Kind : string;
  rev_Action : string;
  rev_Repository : option RecRepository;
  rev_PullRequest : option RecPull;
  rev_Review : option RecReview;
  rev_IssueComment : option RecIssueComment;
  rev_Thread : option RecReviewThread;
  rev_Comment : option RecReviewComment;
  rev_CheckSuite : option RecCheckSuite;
  rev_CheckRun : option RecCheckRun;
  rev_Commit : option RecCommit;
  rev_Push : option RecPush;
  rev_Stack : option RecStack;
  rev_PreviousBase : option RecBranch
}.

Record Recording : Type := mkRecording {
  rec_Header : RecHeader;
  rec_Events : list RecEvent
}.

Record TimedEvent : Type := mkTimedEvent {
  te_At : time;
  te_StableKey : string;
  te_Event : RecEvent
}.

(** ** Validation *)

Inductive event_error : Type :=
  | SeqNotPositive
  | NegativeAtMS
  | IncompleteRepository
  | IncompletePullRequest
  | UnsupportedAction (kind action : string)
  | IncompleteReview
  | IncompleteIssueComment
  | InvalidAuthor
  | IncompleteThread
  | IncompleteReviewComment
  | IncompleteCheckSuite
  | IncompleteCheckRun
  | IncompleteCommit
  | IncompletePush
  | IncompleteStack
  | StackStates (members states : nat)
  | StackMember (index : nat) (e : event_error)
  | StackMemberNumber (index : nat) (number member : Z)
  | StackRepeats (number : Z)
  | UnknownKind (kind : string)
  | RepositoryDisagrees.

Definition empty (s : string) : bool := String.eqb s "".

Definition oneOf (value : string) (allowed : list string) : bool := existsb (String.eqb value) allowed.

Definition validParticipantActor (kind nodeID login : string) : bool :=
  if oneOf kind ["user"; "bot"; "mannequin"; "organization"; "enterprise_user_account"; "unknown"]%string then true
  else if String.eqb kind "deleted" then empty nodeID && empty login
  else false.

Definition complete_pull (p : RecPull) : bool :=
  negb ((rpr_ID p <=? 0) || empty (rpr_NodeID p) || (rpr_Number p <=? 0) || empty (rbr_Ref (rpr_Head p))
        || empty (rbr_SHA (rpr_Head p)) || empty (rbr_Ref (rpr_Base p)) || IsZero (rpr_CreatedAt p) || IsZero (rpr_UpdatedAt p)).

Definition validateRecordedPull (p : option RecPull) : result event_error unit :=
  match p with
  | Some p => if complete_pull p then Ok () else Err IncompletePullRequest
  | None => Err IncompletePullRequest
  end.

Definition validateReviewComment (c : option RecReviewComment) : result event_error unit :=
  match c with
  | Some c =>
      if (rcm_ID c <=? 0) || empty (rcm_NodeID c) || empty (rcm_Path c) || IsZero (rcm_CreatedAt c) || IsZero (rcm_UpdatedAt c)
      then Err IncompleteReviewComment else Ok ()
  | None => Err IncompleteReviewComment
  end.

(** Fail with [e] when [bad] holds. *)
Definition reject {E} (bad : bool) (e : E) : result E unit := if bad then Err e else Ok ().

(** A pointer that is nil or whose value is unfit. *)
Definition unfit {A} (p : option A) (bad : A → bool) : bool := match p with None => true | Some a => bad a end.

(** The loop over the states of a stack's members. *)
Fixpoint validate_members (index : nat) (states : list RecPull) (members : list Z) (seen : gset Z) : result event_error unit :=
  match states, members with
  | [], _ => Ok ()
  | pull :: states, m :: members =>
      match validateRecordedPull (Some pull) with
      | Err e => Err (StackMember index e)
      | Ok _ =>
          if negb (rpr_Number pull =? m) then Err (StackMemberNumber index (rpr_Number pull) m)
          else if decide (rpr_Number pull ∈ seen) then Err (StackRepeats (rpr_Number pull))
          else validate_members (S index) states members ({[rpr_Number pull]} ∪ seen)
      end
  | _ :: _, [] => Ok ()
  end.

Definition validate_stack (s : option RecStack) : result event_error unit :=
  match s with
  | None => Err IncompleteStack
  | Some s =>
      if (rst_ID s <=? 0) || (rst_Number s <=? 0) || (length (rst_PullRequests s) <? 2)%nat then Err IncompleteStack
      else if negb (length (rst_PullRequestStates s) =? length (rst_PullRequests s))%nat
      then Err (StackStates (length (rst_PullRequests s)) (length (rst_PullRequestStates s)))
      else validate_members 0 (rst_PullRequestStates s) (rst_PullRequests s) ∅
  end.

Definition validate_kind (e : RecEvent) : result event_error unit :=
  let action allowed := reject (negb (oneOf (rev_Action e) allowed)) (UnsupportedAction (rev_Kind e) (rev_Action e)) in
  let kind := rev_Kind e in
  if String.eqb kind "repository" then
    reject (unfit (rev_Repository e) (λ r, (rrep_ID r <=? 0) || empty (rrep_NodeID r))) IncompleteRepository
  else if String.eqb kind "pull_request" then
    _ ← validateRecordedPull (rev_PullRequest e); action ["opened"; "synchronize"; "edited"; "closed"; "reopened"]%string
  else if String.eqb kind "pull_request_review" then
    _ ← validateRecordedPull (rev_PullRequest e);
    _ ← reject (unfit (rev_Review e) (λ r, (rrv_ID r <=? 0) || empty (rrv_NodeID r) || IsZero (rrv_SubmittedAt r))) IncompleteReview;
    action ["submitted"; "dismissed"]%string
  else if String.eqb kind "issue_comment" then
    _ ← validateRecordedPull (rev_PullRequest e);
    _ ← reject (unfit (rev_IssueComment e) (λ c, empty (ric_NodeID c) || IsZero (ric_CreatedAt c) || IsZero (ric_UpdatedAt c)))
          IncompleteIssueComment;
    _ ← reject (unfit (rev_IssueComment e)
                  (λ c, negb (validParticipantActor (ric_AuthorKind c) (ric_AuthorNodeID c) (ric_AuthorLogin c)))) InvalidAuthor;
    action ["created"; "edited"; "deleted"]%string
  else if String.eqb kind "review_thread" then
    _ ← validateRecordedPull (rev_PullRequest e);
    _ ← reject (unfit (rev_Thread e) (λ t, empty (rth_ID t))) IncompleteThread;
    action ["resolved"; "unresolved"]%string
  else if String.eqb kind "review_comment" then
    _ ← validateRecordedPull (rev_PullRequest e);
    _ ← validateReviewComment (rev_Comment e);
    action ["created"; "edited"]%string
  else if String.eqb kind "check_suite" then
    _ ← reject (unfit (rev_CheckSuite e) (λ s, (rcs_ID s <=? 0) || empty (rcs_NodeID s) || empty (rcs_HeadSHA s)
                                               || IsZero (rcs_CreatedAt s) || IsZero (rcs_UpdatedAt s))) IncompleteCheckSuite;
    action ["requested"; "completed"]%string
  else if String.eqb kind "check_run" then
    _ ← reject (unfit (rev_CheckRun e) (λ r, (rcr_ID r <=? 0) || empty (rcr_NodeID r) || empty (rcr_HeadSHA r)
                                             || empty (rcr_Name r))) IncompleteCheckRun;
    action ["created"; "completed"]%string
  else if String.eqb kind "commit" then
    reject (unfit (rev_Commit e) (λ c, empty (rco_SHA c) || empty (rco_Ref c) || IsZero (rco_CommittedAt c))) IncompleteCommit
  else if String.eqb kind "push" then
    reject (unfit (rev_Push e) (λ p, empty (rpu_Ref p) || empty (rpu_Before p) || empty (rpu_After p) || IsZero (rpu_PushedAt p)))
      IncompletePush
  else if String.eqb kind "stack" then validate_stack (rev_Stack e)
  else Err (UnknownKind kind).

Definition validateEvent (e : RecEvent) : result event_error unit :=
  if rev_Seq e <=? 0 then Err SeqNotPositive
  else if rev_AtMS e <? 0 then Err NegativeAtMS
  else validate_kind e.

Inductive header_error : Type :=
  | UnsupportedHeader (type : string) (version : Z)
  | HeaderRepository
  | HeaderWindow
  | HeaderStartedAt
  | HeaderPercent.

Definition is_nan (x : float64) : bool := match x with S754_nan => true | _ => false end.

Definition is_inf (x : float64) : bool := match x with S754_infinity _ => true | _ => false end.

Definition validateHeader (h : RecHeader) : result header_error unit :=
  if negb (String.eqb (rhd_Type h) "recording") || negb (rhd_Version h =? RecordingVersion)
  then Err (UnsupportedHeader (rhd_Type h) (rhd_Version h))
  else if (rrep_ID (rhd_Repository h) <=? 0) || empty (rrep_NodeID (rhd_Repository h)) || empty (rrep_Owner (rhd_Repository h))
          || empty (rrep_Name (rhd_Repository h)) || empty (rrep_DefaultBranch (rhd_Repository h)) then Err HeaderRepository
  else if IsZero (rhd_Since h) || IsZero (rhd_Until h) || negb (After (rhd_Until h) (rhd_Since h)) then Err HeaderWindow
  else if IsZero (rhd_StartedAt h) || Before (rhd_StartedAt h) (rhd_Since h) || negb (Before (rhd_StartedAt h) (rhd_Until h))
  then Err HeaderStartedAt
  else if f64_ltb (rhd_SynthesizeStacks h) f64_zero || f64_ltb (f64_of_int 100) (rhd_SynthesizeStacks h)
          || is_nan (rhd_SynthesizeStacks h) || is_inf (rhd_SynthesizeStacks h) then Err HeaderPercent
  else Ok ().

Definition validateEventHeader (e : RecEvent) (h : RecHeader) : result event_error unit :=
  match rev_Repository e with
  | Some r => if decide (r = rhd_Repository h) then Ok () else Err RepositoryDisagrees
  | None => Ok ()
  end.

(** ** Reading *)

(** [scanner.Buffer(_, 4<<20)]. *)
Definition line_limit : Z := 4 * 2 ^ 20.

Definition newline : ascii := "010".
Definition carriage_return : ascii := "013".

(** [dropCR] of the scanner. *)
Definition dropCR (line : string) : string :=
  match srev line with
  | String c rest => if Ascii.eqb c carriage_return then srev rest else line
  | EmptyString => line
  end.

Inductive scan_error : Type := TooLong | ReadFailed.

(** [bufio.ScanLines]: the lines before the end of the input or before one that does not fit
    the buffer; an input that does not end in a newline ends in one more line. *)
Fixpoint scan_lines (pieces : list string) (failure : option scan_error) : list string * option scan_error :=
  match pieces with
  | [] => ([], failure)
  | piece :: pieces' =>
      match pieces' with
      | [] => if line_limit <=? Z.of_nat (String.length piece) then ([], Some TooLong)
              else if empty piece then ([], failure) else ([dropCR piece], failure)
      | _ => if line_limit <=? Z.of_nat (String.length piece) then ([], Some TooLong)
             else let '(lines, err) := scan_lines pieces' failure in (dropCR piece :: lines, err)
      end
  end.

Definition scan (content : string) (failure : option scan_error) : list string * option scan_error :=
  scan_lines (Split content newline) failure.

Inductive recording_error : Type :=
  | HeaderUnread (e : scan_error)
  | RecordingEmpty
  | HeaderUndecoded
  | InvalidHeader (e : header_error)
  | HeaderUnencoded
  | EventUndecoded (previousSeq : Z)
  | EventUnencoded (seq : Z)
  | SeqFollows (seq previous : Z)
  | SeqIndex (index : nat) (seq : Z)
  | MovesBackward (seq previousAt at_ : Z)
  | FirstStartsAt (at_ : Z)
  | InvalidEvent (seq : Z) (e : event_error)
  | EventsUnread (e : scan_error).

(** Go's wrapping of an error. *)
Definition wrap_err {E F A} (f : E → F) (m : result E A) : result F A :=
  match m with Ok a => Ok a | Err e => Err (f e) end.

Section codec.
Context (encode_header : RecHeader → option string) (decode_header : string → option RecHeader)
        (encode_event : RecEvent → option string) (decode_event : string → option RecEvent).

(** The loop of [Read] over the lines after the header. *)
Fixpoint read_events (h : RecHeader) (lines : list string) (previousSeq previousAt : Z) : result recording_error (list RecEvent) :=
  match lines with
  | [] => Ok []
  | line :: lines =>
      match decode_event line with
      | None => Err (EventUndecoded previousSeq)
      | Some e =>
          if negb (rev_Seq e =? previousSeq + 1) then Err (SeqFollows (rev_Seq e) previousSeq)
          else if rev_AtMS e <? previousAt then Err (MovesBackward (rev_Seq e) previousAt (rev_AtMS e))
          else if (previousSeq =? 0) && negb (rev_AtMS e =? 0) then Err (FirstStartsAt (rev_AtMS e))
          else
            _ ← wrap_err (InvalidEvent (rev_Seq e)) (validateEvent e);
            _ ← wrap_err (InvalidEvent (rev_Seq e)) (validateEventHeader e h);
            rest ← read_events h lines (rev_Seq e) (rev_AtMS e);
            Ok (e :: rest)
      end
  end.

Definition Read (content : string) (failure : option scan_error) : result recording_error Recording :=
  match scan content failure with
  | ([], Some e) => Err (HeaderUnread e)
  | ([], None) => Err RecordingEmpty
  | (first :: lines, err) =>
      match decode_header first with
      | None => Err HeaderUndecoded
      | Some h =>
          if negb (String.eqb (rhd_Type h) "recording") || negb (rhd_Version h =? RecordingVersion)
          then Err (InvalidHeader (UnsupportedHeader (rhd_Type h) (rhd_Version h)))
          else
            _ ← wrap_err InvalidHeader (validateHeader h);
            events ← read_events h lines 0 0;
            match err with Some e => Err (EventsUnread e) | None => Ok (mkRecording h events) end
      end
  end.

(** ** Writing *)

(** The header [Write] completes. *)
Definition complete_header (h : RecHeader) : RecHeader :=
  mkRecHeader (if empty (rhd_Type h) then "recording" else rhd_Type h)
    (if rhd_Version h =? 0 then RecordingVersion else rhd_Version h)
    (rhd_Repository h) (rhd_Since h) (rhd_Until h) (rhd_StartedAt h) (rhd_SynthesizeStacks h) (rhd_Seed h).

(** [encoder.Encode] ends each value with a newline. *)
Definition encoded_line (s : string) : string := s +:+ String newline "".

Fixpoint write_events (h : RecHeader) (index : nat) (previousAt : Z) (events : list RecEvent) : result recording_error string :=
  match events with
  | [] => Ok ""
  | e :: events =>
      if negb (rev_Seq e =? Z.of_nat index + 1) then Err (SeqIndex index (rev_Seq e))
      else
        _ ← wrap_err (InvalidEvent (rev_Seq e)) (validateEvent e);
        _ ← wrap_err (InvalidEvent (rev_Seq e)) (validateEventHeader e h);
        if (index =? 0)%nat && negb (rev_AtMS e =? 0) then Err (FirstStartsAt (rev_AtMS e))
        else if (0 <? index)%nat && (rev_AtMS e <? previousAt) then Err (MovesBackward (rev_Seq e) previousAt (rev_AtMS e))
        else
          match encode_event e with
          | None => Err (EventUnencoded (rev_Seq e))
          | Some s =>
              rest ← write_events h (S index) (rev_AtMS e) events;
              Ok (encoded_line s +:+ rest)
          end
  end.

(** [Write], to a writer that accepts every byte. *)
Definition Write (r : Recording) : result recording_error string :=
  let h := complete_header (rec_Header r) in
  _ ← wrap_err InvalidHeader (validateHeader h);
  match encode_header h with
  | None => Err HeaderUnencoded
  | Some s =>
      rest ← write_events h 0 0 (rec_Events r);
      Ok (encoded_line s +:+ rest)
  end.
End codec.

(** ** Normalisation *)

Definition eventOrder (e : RecEvent) : Z :=
  let kind := rev_Kind e in
  if String.eqb kind "repository" then 0
  else if String.eqb kind "commit" then 10
  else if String.eqb kind "push" then 20
  else if String.eqb kind "pull_request" then 30
  else if String.eqb kind "pull_request_review" then 40
  else if String.eqb kind "review_comment" then 50
  else if String.eqb kind "issue_comment" then 55
  else if String.eqb kind "review_thread" then 60
  else if String.eqb kind "check_suite" then (if String.eqb (rev_Action e) "completed" then 100 else 70)
  else if String.eqb kind "check_run" then (if String.eqb (rev_Action e) "completed" then 90 else 80)
  else if String.eqb kind "stack" then 110
  else 100.

Definition pullNumber (e : RecEvent) : Z := match rev_PullRequest e with None => 0 | Some p => rpr_Number p end.

(** The comparison of [sort.SliceStable]. *)
Definition event_less (a b : TimedEvent) : bool :=
  if negb (te_At a =? te_At b) then te_At a <? te_At b
  else if negb (eventOrder (te_Event a) =? eventOrder (te_Event b)) then eventOrder (te_Event a) <? eventOrder (te_Event b)
  else if negb (String.eqb (rev_Kind (te_Event a)) (rev_Kind (te_Event b)))
  then string_ltb (rev_Kind (te_Event a)) (rev_Kind (te_Event b))
  else if negb (String.eqb (rev_Action (te_Event a)) (rev_Action (te_Event b)))
  then string_ltb (rev_Action (te_Event a)) (rev_Action (te_Event b))
  else if negb (pullNumber (te_Event a) =? pullNumber (te_Event b)) then pullNumber (te_Event a) <? pullNumber (te_Event b)
  else string_ltb (te_StableKey a) (te_StableKey b).

Definition event_le (a b : TimedEvent) : Prop := event_less b a = false.

#[export] Instance event_le_dec : RelDecision event_le.
Proof. intros a b. unfold event_le. apply _. Defined.

(** [time.Sub], which saturates, in milliseconds. *)
Definition sub_milliseconds (t u : time) : Z :=
  Z.quot (Z.max (- 2 ^ 63) (Z.min (2 ^ 63 - 1) (t - u))) 1000000.

Definition numbered (e : RecEvent) (seq at_ : Z) : RecEvent :=
  mkRecEvent seq at_ (rev_Kind e) (rev_Action e) (rev_Repository e) (rev_PullRequest e) (rev_Review e) (rev_IssueComment e)
    (rev_Thread e) (rev_Comment e) (rev_CheckSuite e) (rev_CheckRun e) (rev_Commit e) (rev_Push e) (rev_Stack e) (rev_PreviousBase e).

Fixpoint number_from (startedAt : time) (index : nat) (events : list TimedEvent) : list RecEvent :=
  match events with
  | [] => []
  | e :: events =>
      numbered (te_Event e) (Z.of_nat index + 1) (sub_milliseconds (te_At e) startedAt) :: number_from startedAt (S index) events
  end.

Definition NormalizeEvents (events : list TimedEvent) : list RecEvent * time :=
  match merge_sort event_le events with
  | [] => ([], zero_time)
  | first :: rest => (number_from (te_At first) 0 (first :: rest), te_At first)
  end.

(** ** What a recording may hold *)

Definition event_ok (h : RecHeader) (e : RecEvent) : Prop := validateEvent e = Ok () ∧ validateEventHeader e h = Ok ().

(** Numbered from [index + 1], no earlier than [at_], and starting at zero. *)
Fixpoint in_sequence (index : nat) (at_ : Z) (events : list RecEvent) : Prop :=
  match events with
  | [] => True
  | e :: events =>
      rev_Seq e = Z.of_nat index + 1 ∧ (index = O → rev_AtMS e = 0) ∧ (index ≠ O → at_ ≤ rev_AtMS e) ∧
      in_sequence (S index) (rev_AtMS e) events
  end.

Definition well_formed (r : Recording) : Prop :=
  validateHeader (rec_Header r) = Ok () ∧ in_sequence 0 0 (rec_Events r) ∧ Forall (event_ok (rec_Header r)) (rec_Events r).

Lemma wrap_err_ok {E F A} (f : E → F) (m : result E A) a : wrap_err f m = Ok a ↔ m = Ok a.
Proof. destruct m; split; naive_solver. Qed.

Lemma validateEvent_at e : validateEvent e = Ok () → 0 < rev_Seq e ∧ 0 ≤ rev_AtMS e.
Proof. unfold validateEvent. destruct (_ <=? _) eqn:H1; [done|]. destruct (_ <? _) eqn:H2; [done|]. lia. Qed.

Lemma complete_header_id h : validateHeader h = Ok () → complete_header h = h.
Proof.
  unfold validateHeader. destruct (negb _ || negb _) eqn:H; [done|]. intros _. unfold complete_header, empty.
  apply orb_false_iff in H as [Ht%negb_false_iff Hv%negb_false_iff]. apply String.eqb_eq in Ht. apply Z.eqb_eq in Hv.
  rewrite Ht, Hv. cbn. destruct h; cbn in *. by subst.
Qed.

(** The concatenation of encoded lines. *)
Definition lines_of (l : list string) : string := foldr (λ s rest, encoded_line s +:+ rest) "" l.

Section codec_lemmas.
Context (encode_header : RecHeader → option string) (decode_header : string → option RecHeader)
        (encode_event : RecEvent → option string) (decode_event : string → option RecEvent).

Lemma read_events_ok h lines : ∀ (index : nat) at_ events, (index = O → at_ = 0) →
  read_events decode_event h lines (Z.of_nat index) at_ = Ok events ↔
  Forall2 (λ l e, decode_event l = Some e) lines events ∧ in_sequence index at_ events ∧ Forall (event_ok h) events.
Proof.
  induction lines as [|line lines IH]; intros index at_ events H0; cbn.
  { split; [intros [= <-]; split_and!; constructor|]. intros [Hf _]. by inversion Hf. }
  destruct (decode_event line) as [e|] eqn:Hd; [|split; [done|intros [Hf _]; inversion Hf; congruence]].
  assert (Hhead : ∀ es, Forall2 (λ l e, decode_event l = Some e) (line :: lines) es →
    ∃ es', es = e :: es' ∧ Forall2 (λ l e, decode_event l = Some e) lines es').
  { intros es Hf. inversion Hf; subst. simplify_eq. eauto. }
  destruct (rev_Seq e =? _) eqn:Hs; cbn [negb].
  2: { split; [done|]. intros (Hf & Hq & _). destruct (Hhead _ Hf) as (es & -> & _). destruct Hq as [Hq _]. lia. }
  destruct (rev_AtMS e <? at_) eqn:Ha.
  { split; [done|]. intros (Hf & Hq & Hok). destruct (Hhead _ Hf) as (es & -> & _). destruct Hq as (_ & H1 & H2 & _).
    destruct index; [specialize (H0 eq_refl); specialize (H1 eq_refl)|specialize (H2 ltac:(done))]; lia. }
  destruct ((_ =? 0) && _) eqn:Hz.
  { split; [done|]. intros (Hf & Hq & Hok). destruct (Hhead _ Hf) as (es & -> & _). destruct Hq as (_ & H1 & _).
    apply andb_true_iff in Hz as [Hz1%Z.eqb_eq Hz2%negb_true_iff]. destruct index; [|lia]. specialize (H1 eq_refl). lia. }
  assert (Hfirst : index = O → rev_AtMS e = 0) by (intros ->; cbn in Hz; destruct (rev_AtMS e =? 0) eqn:?; [lia|done]).
  assert (Hseq : rev_Seq e = Z.of_nat (S index)) by lia. rewrite bind_ok. setoid_rewrite wrap_err_ok.
  split.
  - intros ([] & Hv & Hrest). rewrite bind_ok in Hrest. destruct Hrest as ([] & Hvh & Hrest). rewrite wrap_err_ok in Hvh.
    rewrite bind_ok in Hrest. destruct Hrest as (es & Hes & [= <-]). rewrite Hseq in Hes. apply IH in Hes as (Hf & Hq & Hok); [|done].
    split_and!; [by constructor|..|by constructor]. cbn. split_and!; [lia|done|lia|done].
  - intros (Hf & Hq & Hok). destruct (Hhead _ Hf) as (es & -> & Hf'). destruct Hq as (_ & _ & _ & Hq). inversion_clear Hok as [|?? [Hv Hvh] Hok'].
    exists (). split; [done|]. rewrite bind_ok. exists (). rewrite wrap_err_ok. split; [done|]. rewrite bind_ok. exists es. split; [|done].
    rewrite Hseq. by apply IH.
Qed.

Lemma write_events_ok h events : ∀ (index : nat) at_ out,
  write_events encode_event h index at_ events = Ok out ↔
  in_sequence index at_ events ∧ Forall (event_ok h) events ∧
  ∃ ss, Forall2 (λ e s, encode_event e = Some s) events ss ∧ out = lines_of ss.
Proof.
  induction events as [|e events IH]; intros index at_ out; cbn [write_events].
  { split; [intros [= <-]; split_and!; [done|constructor|by exists []; split; [constructor|]]|].
    intros (_ & _ & ss & Hf & ->). by inversion Hf. }
  destruct (rev_Seq e =? _) eqn:Hs; cbn [negb].
  2: { split; [done|]. intros ([Hq _] & _). lia. }
  rewrite bind_ok. setoid_rewrite wrap_err_ok. split.
  - intros ([] & Hv & H). rewrite bind_ok in H. destruct H as ([] & Hvh & H). rewrite wrap_err_ok in Hvh.
    destruct (_ && _) eqn:H1; [done|]. destruct (_ && _) eqn:H2 in H; [done|]. destruct (encode_event e) as [s|] eqn:He; [|done].
    rewrite bind_ok in H. destruct H as (rest & Hw & [= <-]). apply IH in Hw as (Hq & Hok & ss & Hf & ->).
    split_and!; [|by constructor|by exists (s :: ss); split; [constructor|]].
    cbn. split_and!; [lia|..|done]; intros Hi; destruct index; try done; cbn in *; lia.
  - intros ((Hq1 & Hq2 & Hq3 & Hq) & Hok & ss & Hf & ->). inversion_clear Hok as [|?? [Hv Hvh] Hok']. inversion Hf as [|? s ? ss' He Hf']; subst.
    exists (). split; [done|]. rewrite bind_ok. exists (). rewrite wrap_err_ok. split; [done|].
    rewrite (proj2 (andb_false_iff _ _)) by (destruct index; [specialize (Hq2 eq_refl); right; lia|by left]).
    rewrite (proj2 (andb_false_iff _ _)) by (destruct index; [by left|specialize (Hq3 ltac:(done)); right; lia]).
    rewrite He, bind_ok. exists (lines_of ss'). split; [|done]. apply IH. eauto.
Qed.

Lemma Write_ok r out :
  Write encode_header encode_event r = Ok out ↔
  well_formed (mkRecording (complete_header (rec_Header r)) (rec_Events r)) ∧
  ∃ s ss, encode_header (complete_header (rec_Header r)) = Some s ∧ Forall2 (λ e s, encode_event e = Some s) (rec_Events r) ss ∧
          out = lines_of (s :: ss).
Proof.
  unfold Write, well_formed. cbn [rec_Header rec_Events]. rewrite bind_ok. setoid_rewrite wrap_err_ok. split.
  - intros ([] & Hv & H). destruct (encode_header _) as [s|] eqn:He; [|done]. rewrite bind_ok in H. destruct H as (rest & Hw & [= <-]).
    apply write_events_ok in Hw as (Hq & Hok & ss & Hf & ->). split; [done|]. by exists s, ss.
  - intros ((Hv & Hq & Hok) & s & ss & He & Hf & ->). exists (). split; [done|]. rewrite He, bind_ok. exists (lines_of ss).
    split; [|done]. apply write_events_ok. eauto.
Qed.
End codec_lemmas.

(** ** Lines *)

(** A line the scanner gives back as it was written. *)
Definition plain_line (s : string) : Prop :=
  ContainsByte s newline = false ∧ ContainsByte s carriage_return = false ∧ Z.of_nat (String.length s) < line_limit.

Lemma ContainsByte_srev_app s c : ∀ acc, ContainsByte (srev_app s acc) c = ContainsByte s c || ContainsByte acc c.
Proof.
  induction s as [|a s IH]; intros acc; cbn [srev_app ContainsByte]; [done|]. rewrite IH. cbn [ContainsByte].
  destruct (Ascii.eqb a c), (ContainsByte s c), (ContainsByte acc c); done.
Qed.

Lemma dropCR_plain s : ContainsByte s carriage_return = false → dropCR s = s.
Proof.
  intros Hs. unfold dropCR. destruct (srev s) as [|c rest] eqn:Hr; [done|].
  assert (Hc : ContainsByte (srev s) carriage_return = false) by (unfold srev; by rewrite ContainsByte_srev_app, Hs).
  rewrite Hr in Hc. cbn [ContainsByte] in Hc. apply orb_false_iff in Hc as [Hc _]. by rewrite Hc.
Qed.

Lemma Split_nonempty s c : Split s c ≠ [].
Proof. induction s as [|a s IH]; cbn; [done|]. destruct (Ascii.eqb a c); [done|]. by destruct (Split s c). Qed.

Lemma scan_written ss : Forall plain_line ss → scan (lines_of ss) None = (ss, None).
Proof.
  induction 1 as [|s ss (Hn & Hc & Hl) _ IH]; [vm_compute; reflexivity|]. unfold scan in *. cbn [lines_of foldr]. fold (lines_of ss).
  unfold encoded_line. rewrite append_assoc. change (String newline "" +:+ lines_of ss) with (String newline (lines_of ss)).
  rewrite Split_app by done. cbn [scan_lines]. destruct (Split (lines_of ss) newline) as [|p ps] eqn:Hsp; [by apply Split_nonempty in Hsp|].
  rewrite (proj2 (Z.leb_gt _ _)) by done. rewrite IH. by rewrite dropCR_plain.
Qed.

(** ** Reading and writing *)

(** What [encoding/json] does for a recording: every part of it that it encodes becomes one
    line, which it decodes to the same value. *)
Definition faithful_codec {A} (encode : A → option string) (decode : string → option A) (a : A) : Prop :=
  ∀ s, encode a = Some s → decode s = Some a ∧ plain_line s.

Lemma encodes_all (encode_event : RecEvent → option string) es :
  Forall (λ e, is_Some (encode_event e)) es → ∃ ss, Forall2 (λ e s, encode_event e = Some s) es ss.
Proof. induction 1 as [|e es [s Hs] _ [ss IH]]; [exists []; constructor|]. exists (s :: ss). by constructor. Qed.

(** Reading what was written gives the recording back, its header completed. *)
Theorem recording_round_trip encode_header decode_header encode_event decode_event r out :
  faithful_codec encode_header decode_header (complete_header (rec_Header r)) →
  Forall (faithful_codec encode_event decode_event) (rec_Events r) →
  Write encode_header encode_event r = Ok out →
  Read decode_header decode_event out None = Ok (mkRecording (complete_header (rec_Header r)) (rec_Events r)).
Proof.
  intros Hh He Hw. apply Write_ok in Hw as ((Hv & Hq & Hok) & s & ss & Hs & Hss & ->). cbn in Hv, Hq, Hok.
  destruct (Hh s Hs) as [Hds Hps].
  assert (Hlines : Forall plain_line ss ∧ Forall2 (λ l e, decode_event l = Some e) ss (rec_Events r)).
  { clear -He Hss. induction Hss as [|e s' es ss' Hes _ IH]; [by split; constructor|]. inversion_clear He as [|?? Hc He'].
    destruct (Hc s' Hes), (IH He'). split; by constructor. }
  destruct Hlines as [Hpl Hdec]. unfold Read. rewrite scan_written by (by constructor). rewrite Hds.
  assert (Htype : negb (String.eqb (rhd_Type (complete_header (rec_Header r))) "recording")
                  || negb (rhd_Version (complete_header (rec_Header r)) =? RecordingVersion) = false).
  { unfold validateHeader in Hv. by destruct (negb _ || negb _). }
  rewrite Htype. rewrite bind_ok. exists (). rewrite wrap_err_ok. split; [done|]. rewrite bind_ok. exists (rec_Events r). split; [|done].
  apply (read_events_ok decode_event _ ss 0); auto.
Qed.

(** What is read may be written: a reader accepts only well-formed recordings, and the writer
    accepts all of those. *)
Theorem read_well_formed encode_header decode_header encode_event decode_event content failure r :
  Read decode_header decode_event content failure = Ok r →
  well_formed r ∧
  (is_Some (encode_header (rec_Header r)) → Forall (λ e, is_Some (encode_event e)) (rec_Events r) →
   ∃ out, Write encode_header encode_event r = Ok out).
Proof.
  intros Hr. assert (Hw : well_formed r).
  { unfold Read in Hr. destruct (scan content failure) as [[|first lines] err]; [by destruct err|].
    destruct (decode_header first) as [h|]; [|done]. destruct (negb _ || negb _); [done|].
    rewrite bind_ok in Hr. destruct Hr as ([] & Hv & Hr). rewrite wrap_err_ok in Hv. rewrite bind_ok in Hr. destruct Hr as (es & Hes & Hr).
    destruct err; [done|]. injection Hr as <-. apply (read_events_ok decode_event h lines 0) in Hes as (_ & Hq & Hok); [|done]. done. }
  split; [done|]. intros [s Hs] Hes. destruct Hw as (Hv & Hq & Hok).
  destruct (encodes_all encode_event (rec_Events r) Hes) as [ss Hss].
  exists (lines_of (s :: ss)). apply Write_ok. rewrite complete_header_id by done. split; [done|]. by exists s, ss.
Qed.

(** ** Normalised events *)

Section less_orders.
Context {A : Type}.

(** A comparison that is a total order up to [same]. *)
Record less_order (less : A → A → bool) (same : A → A → Prop) : Prop := {
  less_trans a b c : less b a = false → less c b = false → less c a = false;
  less_total a b : less a b = false ∨ less b a = false;
  less_same a b : less a b = false → less b a = false → same a b
}.

(** Comparing first by [f], then by [less]. *)
Lemma lex_order {K} (eqb ltb : K → K → bool) (f : A → K) less same :
  (∀ x y, eqb x y = true ↔ x = y) → (∀ x, ltb x x = false) → (∀ x y z, ltb x y = true → ltb y z = true → ltb x z = true) →
  (∀ x y, x = y ∨ ltb x y = true ∨ ltb y x = true) → less_order less same →
  less_order (λ a b, if negb (eqb (f a) (f b)) then ltb (f a) (f b) else less a b) (λ a b, f a = f b ∧ same a b).
Proof.
  intros Heq Hir Htr Htri [H1 H2 H3].
  assert (Hcase : ∀ x y, (eqb x y = true ∧ x = y) ∨ (eqb x y = false ∧ x ≠ y)).
  { intros x y. destruct (eqb x y) eqn:E; [left|right]; split; try done; [by apply Heq|]. intros ->. by rewrite (proj2 (Heq y y) eq_refl) in E. }
  assert (Has : ∀ x y, ltb x y = true → ltb y x = false).
  { intros x y Hxy. destruct (ltb y x) eqn:Hyx; [|done]. pose proof (Htr _ _ _ Hxy Hyx) as C. by rewrite Hir in C. }
  assert (Hor : ∀ x y, x ≠ y → ltb x y = false → ltb y x = true) by (intros x y Hne Hf; destruct (Htri x y) as [|[|]]; congruence).
  split.
  - intros a b c Hba Hcb. destruct (Hcase (f b) (f a)) as [[E1 N1]|[E1 N1]], (Hcase (f c) (f b)) as [[E2 N2]|[E2 N2]],
      (Hcase (f c) (f a)) as [[E3 N3]|[E3 N3]]; rewrite E1 in Hba; rewrite E2 in Hcb; rewrite E3; cbn in *; try congruence; eauto.
    apply Hor in Hba, Hcb; [|done..]. rewrite N3 in Hcb. apply Has in Hcb. congruence.
  - intros a b. destruct (Hcase (f a) (f b)) as [[E1 N1]|[E1 N1]], (Hcase (f b) (f a)) as [[E2 N2]|[E2 N2]]; rewrite E1, E2; cbn; try congruence; [apply H2|].
    destruct (ltb (f a) (f b)) eqn:Hlt; [right; by apply Has|by left].
  - intros a b. destruct (Hcase (f a) (f b)) as [[E1 N1]|[E1 N1]], (Hcase (f b) (f a)) as [[E2 N2]|[E2 N2]]; rewrite E1, E2; cbn; try congruence; [auto|].
    intros Ha%Hor; [|done]. congruence.
Qed.

Lemma key_order {K} (ltb : K → K → bool) (f : A → K) :
  (∀ x, ltb x x = false) → (∀ x y z, ltb x y = true → ltb y z = true → ltb x z = true) → (∀ x y, x = y ∨ ltb x y = true ∨ ltb y x = true) →
  less_order (λ a b, ltb (f a) (f b)) (λ a b, f a = f b).
Proof.
  intros Hir Htr Htri. split.
  - intros a b c Hba Hcb. destruct (ltb (f c) (f a)) eqn:Hca; [|done].
    destruct (Htri (f b) (f a)) as [E|[E|E]]; [congruence..|]. pose proof (Htr _ _ _ Hca E). congruence.
  - intros a b. destruct (ltb (f a) (f b)) eqn:E; [right|by left]. destruct (ltb (f b) (f a)) eqn:E'; [|done].
    pose proof (Htr _ _ _ E E') as C. by rewrite Hir in C.
  - intros a b H1 H2. destruct (Htri (f a) (f b)) as [|[|]]; congruence.
Qed.
End less_orders.

Definition event_key (e : TimedEvent) : Z * Z * string * string * Z * string :=
  (te_At e, eventOrder (te_Event e), rev_Kind (te_Event e), rev_Action (te_Event e), pullNumber (te_Event e), te_StableKey e).

Lemma string_ltb_irrefl s : string_ltb s s = false.
Proof. destruct (string_ltb s s) eqn:E; [|done]. apply string_ltb_lt in E. unfold string_lt in E. by rewrite string_compare_refl in E. Qed.

Lemma string_ltb_trans a b c : string_ltb a b = true → string_ltb b c = true → string_ltb a c = true.
Proof. rewrite !string_ltb_lt. apply string_lt_trans. Qed.

Lemma string_ltb_tri a b : a = b ∨ string_ltb a b = true ∨ string_ltb b a = true.
Proof. rewrite !string_ltb_lt. destruct (string_lt_total a b) as [|[|]]; auto. Qed.

(** The comparison of events orders them by their keys. *)
Lemma event_less_order : less_order event_less (λ a b, event_key a = event_key b).
Proof.
  assert (Hz : ∀ f less same, less_order less same →
    less_order (λ a b : TimedEvent, if negb (f a =? f b) then f a <? f b else less a b) (λ a b, f a = f b ∧ same a b)).
  { intros. apply lex_order; [apply Z.eqb_eq|intros; lia|intros; lia|intros; lia|done]. }
  assert (Hs : ∀ f less same, less_order less same →
    less_order (λ a b : TimedEvent, if negb (String.eqb (f a) (f b)) then string_ltb (f a) (f b) else less a b) (λ a b, f a = f b ∧ same a b)).
  { intros. apply lex_order; [apply String.eqb_eq|apply string_ltb_irrefl|apply string_ltb_trans|apply string_ltb_tri|done]. }
  pose proof (Hz te_At _ _ (Hz (eventOrder ∘ te_Event) _ _ (Hs (rev_Kind ∘ te_Event) _ _ (Hs (rev_Action ∘ te_Event) _ _
    (Hz (pullNumber ∘ te_Event) _ _ (key_order string_ltb te_StableKey string_ltb_irrefl string_ltb_trans string_ltb_tri)))))) as [H1 H2 H3].
  split; [exact H1|exact H2|]. intros a b Ha Hb. destruct (H3 a b Ha Hb) as (? & ? & ? & ? & ? & ?).
  unfold event_key. cbn in *. congruence.
Qed.

#[export] Instance event_le_trans : Transitive event_le.
Proof. intros a b c. unfold event_le. apply (less_trans _ _ event_less_order). Qed.

#[export] Instance event_le_total : Total event_le.
Proof. intros a b. unfold event_le. destruct (less_total _ _ event_less_order a b); auto. Qed.

Lemma event_le_at a b : event_le a b → te_At a ≤ te_At b.
Proof. unfold event_le, event_less. destruct (te_At b =? te_At a) eqn:E; cbn; lia. Qed.

Lemma sub_milliseconds_mono t u s : t ≤ u → sub_milliseconds t s ≤ sub_milliseconds u s.
Proof. intros. unfold sub_milliseconds. apply Z.quot_le_mono; lia. Qed.

Lemma sub_milliseconds_self t : sub_milliseconds t t = 0.
Proof. unfold sub_milliseconds. by rewrite Z.sub_diag. Qed.

Lemma number_in_sequence started events : ∀ index at_,
  StronglySorted event_le events →
  (∀ e, e ∈ events → at_ ≤ sub_milliseconds (te_At e) started) →
  (index = O → ∀ e, head events = Some e → te_At e = started) →
  in_sequence index at_ (number_from started index events).
Proof.
  induction events as [|e events IH]; intros index at_ Hs Hat H0; cbn [number_from in_sequence]; [done|]. inversion_clear Hs as [|?? Hs' Hle].
  rewrite Forall_forall in Hle. split_and!; [done|intros ->; cbn; rewrite (H0 eq_refl e) by done; apply sub_milliseconds_self|intros _; apply Hat; by left|].
  apply IH; [done| |done]. intros e' He'. cbn. apply sub_milliseconds_mono, event_le_at. by apply Hle.
Qed.

Lemma NormalizeEvents_events l :
  (NormalizeEvents l).1 = number_from (NormalizeEvents l).2 0 (merge_sort event_le l) ∧
  ∀ e, head (merge_sort event_le l) = Some e → te_At e = (NormalizeEvents l).2.
Proof. unfold NormalizeEvents. destruct (merge_sort event_le l); [done|]. cbn. split; [done|]. by intros e [= <-]. Qed.

Lemma normalized_after_start l t : t ∈ merge_sort event_le l → 0 ≤ sub_milliseconds (te_At t) (NormalizeEvents l).2.
Proof.
  intros Ht. destruct (NormalizeEvents_events l) as [_ Hh]. pose proof (StronglySorted_merge_sort event_le l) as Hs.
  rewrite <- (sub_milliseconds_self (NormalizeEvents l).2). apply sub_milliseconds_mono.
  destruct (merge_sort event_le l) as [|first rest]; [by apply elem_of_nil in Ht|]. rewrite <- (Hh first eq_refl).
  apply elem_of_cons in Ht as [->|Ht]; [done|]. inversion_clear Hs as [|?? _ Hle]. rewrite Forall_forall in Hle. by apply event_le_at, Hle.
Qed.

(** Normalised events are in sequence, whatever they are. *)
Lemma normalized_in_sequence l : in_sequence 0 0 (NormalizeEvents l).1.
Proof.
  destruct (NormalizeEvents_events l) as [Heq Hh]. rewrite Heq. apply number_in_sequence; [apply StronglySorted_merge_sort; apply _| |auto].
  apply normalized_after_start.
Qed.

Lemma number_from_ok h started events : ∀ index,
  (∀ t, t ∈ events → 0 ≤ sub_milliseconds (te_At t) started) →
  Forall (event_ok h) (number_from started index events) ↔
  Forall (λ t, validate_kind (te_Event t) = Ok () ∧ validateEventHeader (te_Event t) h = Ok ()) events.
Proof.
  induction events as [|t events IH]; intros index Hat; cbn [number_from]; [by rewrite !Forall_nil|].
  assert (H0 : 0 ≤ sub_milliseconds (te_At t) started) by (apply Hat; by left).
  rewrite !Forall_cons, IH by (intros t' Ht'; apply Hat; by right). unfold event_ok, validateEvent. cbn [rev_Seq rev_AtMS numbered].
  rewrite (proj2 (Z.leb_gt _ _)), (proj2 (Z.ltb_ge _ _)) by lia. done.
Qed.

(** Normalised events are written whatever their order and their times: only an event that
    is invalid of its kind, that names another repository or that cannot be encoded, or an
    invalid header, is refused. *)
Theorem normalized_written encode_header encode_event h l :
  let events := (NormalizeEvents l).1 in
  is_Some (encode_header (complete_header h)) → Forall (λ e, is_Some (encode_event e)) events →
  (∃ out, Write encode_header encode_event (mkRecording h events) = Ok out) ↔
  validateHeader (complete_header h) = Ok () ∧
  Forall (λ t, validate_kind (te_Event t) = Ok () ∧ validateEventHeader (te_Event t) (complete_header h) = Ok ()) l.
Proof.
  intros events [s Hs] Hes.
  destruct (encodes_all encode_event events Hes) as [ss Hss].
  assert (Hok : Forall (event_ok (complete_header h)) events ↔
    Forall (λ t, validate_kind (te_Event t) = Ok () ∧ validateEventHeader (te_Event t) (complete_header h) = Ok ()) l).
  { unfold events. rewrite (proj1 (NormalizeEvents_events l)), number_from_ok by apply normalized_after_start. by rewrite merge_sort_Permutation. }
  rewrite <- Hok. split.
  - intros [out Hw]. apply Write_ok in Hw as [(Hv & _ & He) _]. done.
  - intros [Hv He]. exists (lines_of (s :: ss)). apply Write_ok. split; [split_and!; [done|apply normalized_in_sequence|done]|]. by exists s, ss.
Qed.

(** Normalising is deterministic: the order in which distinguishable events were collected
    does not matter. *)
Theorem normalize_any_order l1 l2 : NoDup (event_key <$> l1) → l1 ≡ₚ l2 → NormalizeEvents l1 = NormalizeEvents l2.
Proof.
  intros Hnd Hp. unfold NormalizeEvents.
  assert (merge_sort event_le l1 = merge_sort event_le l2) as ->; [|done].
  apply (StronglySorted_unique_strong event_le); [|apply StronglySorted_merge_sort; apply _..|by rewrite !merge_sort_Permutation].
  intros a b Ha Hb Hab Hba. rewrite merge_sort_Permutation in Ha, Hb. rewrite <- Hp in Hb.
  pose proof (less_same _ _ event_less_order b a Hab Hba) as Hk.
  apply list_elem_of_lookup in Ha as [i Hi], Hb as [j Hj].
  assert (i = j) as -> by (apply (NoDup_lookup (event_key <$> l1) i j (event_key a)); [done|rewrite list_lookup_fmap; by rewrite Hi|
    rewrite list_lookup_fmap, Hj; cbn; by rewrite Hk]).
  congruence.
Qed.

(** ** A concrete recording *)

Definition ex_repository : RecRepository := mkRecRepository 1 "R_1" "acme" "app" "main" "c0" 5.

Definition ex_header : RecHeader := mkRecHeader "" 0 ex_repository 10 20 12 f64_zero 7.

Definition ex_push : RecEvent :=
  mkRecEvent 9 9 "push" "" None None None None None None None None None (Some (mkRecPush "main" "c0" "c1" false true 12)) None None.

Definition ex_repository_event : RecEvent :=
  mkRecEvent 0 0 "repository" "" (Some ex_repository) None None None None None None None None None None None.

(** A codec that knows the two events. *)
Definition ex_encode_event (e : RecEvent) : option string :=
  if String.eqb (rev_Kind e) "push" then Some "{push}" else Some "{repository}".

Definition ex_recording : Recording :=
  mkRecording ex_header (NormalizeEvents [mkTimedEvent 3000012 "b" ex_push; mkTimedEvent 12 "a" ex_repository_event]).1.

Definition ex_decode_event (s : string) : option RecEvent :=
  if String.eqb s "{push}" then last (rec_Events ex_recording) else head (rec_Events ex_recording).

Example ex_recording_seqs : map (λ e, (rev_Kind e, rev_Seq e, rev_AtMS e)) (rec_Events ex_recording) = [("repository", 1, 0); ("push", 2, 3)].
Proof. vm_compute. reflexivity. Qed.

Definition ex_content : string := lines_of ["{header}"; "{repository}"; "{push}"]%string.

Lemma recording_round_trip_witness :
  Read (λ _, Some (complete_header ex_header)) ex_decode_event ex_content None = Ok (mkRecording (complete_header ex_header) (rec_Events ex_recording)).
Proof.
  apply (recording_round_trip (λ _, Some "{header}") _ ex_encode_event ex_decode_event ex_recording ex_content).
  - intros s [= <-]. split; [done|]. repeat split; vm_compute; lia.
  - apply Forall_lookup. intros i e He. assert (Hi : (i < 2)%nat) by (apply lookup_lt_Some in He; vm_compute in He; lia).
    destruct i as [|[|]]; [| |lia]; vm_compute in He; injection He as <-; intros s [= <-];
      (split; [vm_compute; reflexivity|]; repeat split; vm_compute; lia).
  - vm_compute. reflexivity.
Defined.
