(* ===== verification/ReplayStacks.v ===== *)
(** * Stacks of a recording

    [internal/replay/stacks.go]: the stacks a recording implies. A pull request whose base is
    the head branch of another is stacked on it; a stack is a connected component of that
    relation, its members listed from the bottom. Go iterates over maps in any order:
    [order] is the order in which the neighbours of a pull request are met, and the result
    does not depend on it. *)

From Stdlib Require Import ZArith Lia Bool SpecFloat String Ascii.
From stdpp Require Import sorting strings gmap numbers base list relations.
From S2P Require Import Prelude GoStrings GoFloat Recording.

Local Open Scope Z_scope.

(** ** Parents *)

Definition or_repository (r : RecRepository) (name : string) : string :=
  if String.eqb name "" then RecFullName r else name.

Definition branchKey (repository ref : string) : string := repository +:+ String "000" ref.

Definition pull_le (a b : RecPull) : Prop := rpr_Number a ≤ rpr_Number b.

#[export] Instance pull_le_dec : RelDecision pull_le.
Proof. intros a b. unfold pull_le. apply _. Defined.

(** [byHead]: the pull requests of a head branch, by number. *)
Definition byHead (r : RecRepository) (pulls : list RecPull) (key : string) : list RecPull :=
  merge_sort pull_le
    (filter (λ p, rbr_Ref (rpr_Head p) ≠ rrep_DefaultBranch r ∧ or_repository r (rbr_Repository (rpr_Head p)) = RecFullName r ∧
                  branchKey (or_repository r (rbr_Repository (rpr_Head p))) (rbr_Ref (rpr_Head p)) = key) pulls).

Definition better_fallback (candidate fallback : RecPull) : bool :=
  (String.eqb (rpr_State candidate) "open" && negb (String.eqb (rpr_State fallback) "open"))
  || (String.eqb (rpr_State candidate) (rpr_State fallback) && (rpr_UpdatedAt fallback <? rpr_UpdatedAt candidate)).

Fixpoint choose (child : RecPull) (fallback : option RecPull) (candidates : list RecPull) : option RecPull :=
  match candidates with
  | [] => fallback
  | c :: candidates =>
      if rpr_Number c =? rpr_Number child then choose child fallback candidates
      else if negb (String.eqb (rbr_SHA (rpr_Base child)) "") && negb (String.eqb (rbr_SHA (rpr_Head c)) "")
              && String.eqb (rbr_SHA (rpr_Head c)) (rbr_SHA (rpr_Base child)) then Some c
      else choose child
             (match fallback with
              | None => Some c
              | Some f => if better_fallback c f then Some c else Some f
              end) candidates
  end.

Definition chooseStackParent (child : RecPull) (candidates : list RecPull) : option RecPull :=
  choose child None candidates.

Definition parent_of (r : RecRepository) (pulls : list RecPull) (p : RecPull) : option RecPull :=
  chooseStackParent p (byHead r pulls (branchKey (or_repository r (rbr_Repository (rpr_Base p))) (rbr_Ref (rpr_Base p)))).

(** [parentByChild] and [adjacent], filled in the order of the pull requests. *)
Definition add_edge (a b : Z) (m : gmap Z (gset Z)) : gmap Z (gset Z) := <[a := {[b]} ∪ default ∅ (m !! a)]> m.

Fixpoint link (r : RecRepository) (all pulls : list RecPull) (parents : gmap Z Z) (adjacent : gmap Z (gset Z))
    : gmap Z Z * gmap Z (gset Z) :=
  match pulls with
  | [] => (parents, adjacent)
  | p :: pulls =>
      match parent_of r all p with
      | None => link r all pulls parents adjacent
      | Some q =>
          link r all pulls (<[rpr_Number p := rpr_Number q]> parents)
            (add_edge (rpr_Number p) (rpr_Number q) (add_edge (rpr_Number q) (rpr_Number p) adjacent))
      end
  end.

(** ** Components *)

Section traversal.
Context (order : gset Z → list Z) (adjacent : gmap Z (gset Z)).

Definition neighbours (n : Z) : list Z := order (default ∅ (adjacent !! n)).

(** The loop over the neighbours of a pull request. *)
Fixpoint enqueue (ns : list Z) (queue : list Z) (visited : gset Z) : list Z * gset Z :=
  match ns with
  | [] => (queue, visited)
  | n :: ns => if decide (n ∈ visited) then enqueue ns queue visited else enqueue ns (queue ++ [n]) ({[n]} ∪ visited)
  end.

Fixpoint component_of (fuel : nat) (queue : list Z) (visited : gset Z) (component : list Z) : list Z * gset Z :=
  match fuel, queue with
  | S fuel, current :: queue =>
      let '(queue, visited) := enqueue (neighbours current) queue visited in
      component_of fuel queue visited (component ++ [current])
  | _, _ => (component, visited)
  end.

(** The components, in the order of their smallest numbers. *)
Fixpoint components (fuel : nat) (numbers : list Z) (visited : gset Z) : list (list Z) :=
  match numbers with
  | [] => []
  | n :: numbers =>
      if decide (n ∈ visited) then components fuel numbers visited
      else
        let '(component, visited) := component_of fuel [n] ({[n]} ∪ visited) [] in
        component :: components fuel numbers visited
  end.
End traversal.

(** ** Order within a stack *)

Section ordering.
Context (parents : gmap Z Z) (component : list Z).

Definition parent_in (n : Z) : option Z :=
  match parents !! n with Some p => if decide (p ∈ component) then Some p else None | None => None end.

Definition roots : list Z := merge_sort Z.le (filter (λ n, parent_in n = None) component).

Definition children (p : Z) : list Z := merge_sort Z.le (filter (λ n, parent_in n = Some p) component).

(** [visit]; [seen] is the set of what is in [ordered]. *)
Fixpoint visit (fuel : nat) (n : Z) (ordered : list Z) : list Z :=
  match fuel with
  | O => ordered
  | S fuel =>
      if decide (n ∈ ordered) then ordered
      else foldl (λ o c, visit fuel c o) (ordered ++ [n]) (children n)
  end.

Definition visit_all (ns : list Z) (ordered : list Z) : list Z := foldl (λ o n, visit (S (length component)) n o) ordered ns.

Definition orderStackComponent : list Z := visit_all (merge_sort Z.le component) (visit_all roots []).
End ordering.

Definition stack_le (a b : RecStack) : Prop := rst_Number a ≤ rst_Number b.

#[export] Instance stack_le_dec : RelDecision stack_le.
Proof. intros a b. unfold stack_le. apply _. Defined.

(** [stackID]: [sum8] is the first eight bytes of the SHA-256 of a text, as a number. *)
Definition stackIDRange : Z := 1000000000000.

Definition stackID (sum8 : string → Z) (repository : string) (numbers : list Z) : Z :=
  stackIDRange + sum8 (foldl (λ text n, text +:+ FormatInt n +:+ ",") (repository +:+ ":") numbers) `mod` stackIDRange.

(** The zero [PullRequest], which a missing key of a map reads as. *)
Definition zero_pull : RecPull :=
  mkRecPull 0 "" 0 "" "" false false "" "" "" (mkRecBranch "" "" "") (mkRecBranch "" "" "") zero_time zero_time None None.

(** [byNumber]: the last pull request of a number. *)
Definition byNumber (pulls : list RecPull) (n : Z) : RecPull :=
  from_option snd zero_pull (list_find (λ p, rpr_Number p = n) (reverse pulls)).

(** The stack of a component; a component of one pull request has none. *)
Definition stack_of (sum8 : string → Z) (r : RecRepository) (pulls : list RecPull) (parents : gmap Z Z) (component : list Z)
    : option RecStack :=
  if (length component <? 2)%nat then None
  else
    let ordered := orderStackComponent parents component in
    match ordered with
    | [] => None
    | bottom :: _ =>
        Some (mkRecStack (stackID sum8 (RecFullName r) ordered) bottom (rpr_Base (byNumber pulls bottom)) ordered
                (map (byNumber pulls) ordered) false)
    end.

Definition DeriveStacks (order : gset Z → list Z) (sum8 : string → Z) (r : RecRepository) (pulls : list RecPull) : list RecStack :=
  let '(parents, adjacent) := link r pulls pulls ∅ ∅ in
  let numbers := merge_sort Z.le (elements (dom adjacent)) in
  merge_sort stack_le (omap (stack_of sum8 r pulls parents) (components order adjacent (S (size adjacent)) numbers ∅)).

(** ** Synthetic stacks *)

Definition f64_add (x y : float64) : float64 := SFadd f64_prec f64_emax x y.

Definition with_repository (name : string) (b : RecBranch) : RecBranch := mkRecBranch (rbr_Ref b) (rbr_SHA b) name.

Definition with_branches (head base : RecBranch) (p : RecPull) : RecPull :=
  mkRecPull (rpr_ID p) (rpr_NodeID p) (rpr_Number p) (rpr_Title p) (rpr_State p) (rpr_Draft p) (rpr_Merged p) (rpr_AuthorLogin p)
    (rpr_ReviewDecision p) (rpr_MergeableState p) head base (rpr_CreatedAt p) (rpr_UpdatedAt p) (rpr_ClosedAt p) (rpr_MergedAt p).

Definition set_repositories (name : string) (p : RecPull) : RecPull :=
  with_branches (with_repository name (rpr_Head p)) (with_repository name (rpr_Base p)) p.

Definition set_base (b : RecBranch) (p : RecPull) : RecPull := with_branches (rpr_Head p) b p.

Definition number_at (result : list RecPull) (i : nat) : Z := from_option rpr_Number 0 (result !! i).

Definition index_le (result : list RecPull) (i j : nat) : Prop := number_at result i ≤ number_at result j.

#[export] Instance index_le_dec result : RelDecision (index_le result).
Proof. intros i j. unfold index_le. apply _. Defined.

(** The loop that bases each member of a group on the one before. *)
Fixpoint chain (group : list nat) (result : list RecPull) : list RecPull :=
  match group with
  | i :: rest =>
      match rest with
      | j :: _ =>
          match result !! i with
          | Some parent => chain rest (alter (set_base (rpr_Head parent)) j result)
          | None => result
          end
      | [] => result
      end
  | [] => result
  end.

Definition synthesize_group (name : string) (state : list RecPull * gset Z) (group : list nat) : list RecPull * gset Z :=
  let '(result, synthetic) := state in
  let group := merge_sort (index_le result) group in
  let result := foldl (λ result i, alter (set_repositories name) i result) result group in
  (chain group result, foldl (λ synthetic i, {[number_at result i]} ∪ synthetic) synthetic group).

(** The groups the loop cuts: pairs, and one of three when the number is odd. *)
Fixpoint cut_groups (fuel : nat) (eligible : list nat) : list (list nat) :=
  match fuel with
  | O => []
  | S fuel =>
      if (length eligible <? 2)%nat then []
      else
        let size := if Nat.odd (length eligible) then 3%nat else 2%nat in
        take size eligible :: cut_groups fuel (drop size eligible)
  end.

(** The indices that may join a synthetic stack. *)
Fixpoint eligible_from (r : RecRepository) (realMembers : list Z) (index : nat) (pulls : list RecPull) : list nat :=
  match pulls with
  | [] => []
  | p :: pulls =>
      if decide ((rpr_Number p ∉ realMembers) ∧ rbr_Ref (rpr_Head p) ≠ rrep_DefaultBranch r)
      then index :: eligible_from r realMembers (S index) pulls
      else eligible_from r realMembers (S index) pulls
  end.

Definition half : float64 := f64_ratio 1 2.

Definition synthetic_target (percent : float64) (eligible : nat) : Z :=
  Z.min (f64_trunc (f64_add (f64_div (f64_mul (f64_of_int (Z.of_nat eligible)) percent) (f64_of_int 100)) half)) (Z.of_nat eligible).

(** [SynthesizeStackBases]; [shuffle] is the seeded shuffle. *)
Definition SynthesizeStackBases (order : gset Z → list Z) (sum8 : string → Z) (shuffle : Z → list nat → list nat)
    (r : RecRepository) (pulls : list RecPull) (percent : float64) (seed : Z) : list RecPull * gset Z :=
  if f64_leb percent f64_zero || is_nan percent || (length pulls <? 2)%nat then (pulls, ∅)
  else
    let percent := if f64_ltb (f64_of_int 100) percent then f64_of_int 100 else percent in
    let realMembers := mjoin (rst_PullRequests <$> DeriveStacks order sum8 r pulls) in
    let eligible := eligible_from r realMembers 0 pulls in
    let target := synthetic_target percent (length eligible) in
    if target <? 2 then (pulls, ∅)
    else
      let chosen := take (Z.to_nat target) (shuffle seed eligible) in
      foldl (synthesize_group (RecFullName r)) (pulls, ∅) (cut_groups (length chosen) chosen).

(** ** The order of a stack *)

#[export] Instance Z_le_total : Total Z.le.
Proof. intros a b. lia. Qed.

Lemma sorted_perm_eq (l1 l2 : list Z) : l1 ≡ₚ l2 → merge_sort Z.le l1 = merge_sort Z.le l2.
Proof.
  intros Hp. apply (StronglySorted_unique Z.le); [apply StronglySorted_merge_sort; apply _..|].
  by rewrite !merge_sort_Permutation.
Qed.

Lemma merge_sort_elem (l : list Z) n : n ∈ merge_sort Z.le l ↔ n ∈ l.
Proof. by rewrite merge_sort_Permutation. Qed.

Section order_lemmas.
Context (parents : gmap Z Z) (component : list Z).
Abbreviation kids := (children parents component).
Abbreviation dfs := (visit parents component).
Abbreviation up := (parent_in parents component).

Lemma kids_elem p n : n ∈ kids p ↔ n ∈ component ∧ up n = Some p.
Proof. unfold children. rewrite merge_sort_elem, list_elem_of_filter. tauto. Qed.

Lemma roots_elem n : n ∈ roots parents component ↔ n ∈ component ∧ up n = None.
Proof. unfold roots. rewrite merge_sort_elem, list_elem_of_filter. tauto. Qed.

(** What a traversal adds: new members after what was there, each once. *)
Definition extends (o o' : list Z) : Prop := ∃ l, o' = o ++ l ∧ Forall (.∈ component) l.

Lemma listing_refl o : extends o o.
Proof. exists []. by rewrite app_nil_r. Qed.

Lemma listing_trans o1 o2 o3 : extends o1 o2 → extends o2 o3 → extends o1 o3.
Proof. intros (l1 & -> & H1) (l2 & -> & H2). exists (l1 ++ l2). rewrite app_assoc. split; [done|]. by apply Forall_app. Qed.

Lemma extends_sub o o' n : extends o o' → n ∈ o → n ∈ o'.
Proof. intros (l & -> & _). set_solver. Qed.

Lemma visit_extends fuel : ∀ n o, n ∈ component → extends o (dfs fuel n o).
Proof.
  induction fuel as [|fuel IH]; intros n o Hn; cbn; [apply listing_refl|]. destruct (decide (n ∈ o)); [apply listing_refl|].
  assert (Hfold : ∀ l o', Forall (.∈ component) l → extends o' (foldl (λ o c, dfs fuel c o) o' l)).
  { induction l as [|c l IHl]; intros o' Hl; cbn; [apply listing_refl|]. inversion_clear Hl.
    eapply listing_trans; [by apply IH|by apply IHl]. }
  eapply listing_trans; [|apply Hfold; apply Forall_forall; by intros c [? _]%kids_elem]. exists [n]. split; [done|]. by apply Forall_singleton.
Qed.

Lemma visit_NoDup fuel : ∀ n o, NoDup o → NoDup (dfs fuel n o).
Proof.
  induction fuel as [|fuel IH]; intros n o Ho; cbn; [done|]. destruct (decide (n ∈ o)); [done|].
  assert (NoDup (o ++ [n])) as Hn by (apply NoDup_app; split_and!; [done|set_solver|apply NoDup_singleton]). revert Hn.
  generalize (o ++ [n]). induction (kids n) as [|c l IHl]; intros o' Ho'; cbn; [done|]. by apply IHl, IH.
Qed.

(** The members not yet listed. *)
Definition left_over (o : list Z) : nat := length (filter (.∉ o) component).

Lemma left_over_mono o o' : (∀ n, n ∈ o → n ∈ o') → (left_over o' ≤ left_over o)%nat.
Proof.
  intros Hs. unfold left_over. induction component as [|c l IH]; [done|]. rewrite !filter_cons.
  destruct (decide (c ∉ o')), (decide (c ∉ o)); cbn; try lia. exfalso. naive_solver.
Qed.

Lemma left_over_less o n : n ∈ component → n ∉ o → (left_over (o ++ [n]) < left_over o)%nat.
Proof.
  intros Hn Ho. unfold left_over. induction component as [|c l IH]; [by apply elem_of_nil in Hn|].
  assert (Hle : (length (filter (.∉ o ++ [n]) l) ≤ length (filter (.∉ o) l))%nat).
  { clear IH Hn. induction l as [|d l IH]; [done|]. rewrite !filter_cons. destruct (decide (d ∉ o ++ [n])), (decide (d ∉ o)); cbn; try lia. set_solver. }
  rewrite !filter_cons. apply elem_of_cons in Hn as [<-|Hn].
  - rewrite decide_False by set_solver. rewrite decide_True by done. cbn. lia.
  - specialize (IH Hn). destruct (decide (c ∉ o ++ [n])), (decide (c ∉ o)); cbn; try lia. set_solver.
Qed.

(** With enough fuel, a visit lists its pull request, and everything it newly lists has its
    children listed too. *)
Lemma visit_complete fuel : ∀ n o, n ∈ component → (left_over o < fuel)%nat →
  n ∈ dfs fuel n o ∧ ∀ m c, m ∈ dfs fuel n o → m ∉ o → c ∈ kids m → c ∈ dfs fuel n o.
Proof.
  induction fuel as [|fuel IH]; intros n o Hn Hf; [lia|]. cbn. destruct (decide (n ∈ o)) as [Hin|Hin]; [done|].
  pose proof (left_over_less o n Hn Hin) as Hlt.
  assert (Hfold : ∀ l o', Forall (.∈ component) l → (left_over o' < fuel)%nat →
    (∀ c, c ∈ l → c ∈ foldl (λ o c, dfs fuel c o) o' l) ∧
    ∀ m c, m ∈ foldl (λ o c, dfs fuel c o) o' l → m ∉ o' → c ∈ kids m → c ∈ foldl (λ o c, dfs fuel c o) o' l).
  { induction l as [|x l IHl]; intros o' Hl Ho'; cbn; [by split; [intros c ?%elem_of_nil|]|]. inversion_clear Hl as [|?? Hx Hl'].
    destruct (IH x o' Hx Ho') as [Hx1 Hx2]. pose proof (visit_extends fuel x o' Hx) as Hext.
    assert (Ho2 : (left_over (dfs fuel x o') < fuel)%nat).
    { eapply Nat.le_lt_trans; [apply left_over_mono|exact Ho']. intros y. by apply extends_sub. }
    destruct (IHl (dfs fuel x o') Hl' Ho2) as [Hl1 Hl2].
    assert (Hmono : ∀ y, y ∈ dfs fuel x o' → y ∈ foldl (λ o c, dfs fuel c o) (dfs fuel x o') l).
    { intros y Hy. clear -Hl' Hy. revert Hy. generalize (dfs fuel x o'). induction Hl' as [|z l Hz Hl IH]; intros o2 Hy; cbn; [done|].
      apply IH. eapply extends_sub; [by apply visit_extends|done]. }
    split.
    - intros c [->|Hc]%elem_of_cons; [by apply Hmono|by apply Hl1].
    - intros m c Hm Hm' Hc. destruct (decide (m ∈ dfs fuel x o')) as [Hd|Hd]; [apply Hmono; by eapply Hx2|by eapply Hl2]. }
  destruct (Hfold (kids n) (o ++ [n])) as [H1 H2]; [apply Forall_forall; by intros c [? _]%kids_elem|lia|].
  assert (Hn' : n ∈ foldl (λ o c, dfs fuel c o) (o ++ [n]) (kids n)).
  { assert (Hmono : ∀ l o' y, Forall (.∈ component) l → y ∈ o' → y ∈ foldl (λ o c, dfs fuel c o) o' l).
    { induction l as [|z l IHl]; intros o' y Hl Hy; cbn; [done|]. inversion_clear Hl. apply IHl; [done|]. eapply extends_sub; [by apply visit_extends|done]. }
    apply Hmono; [apply Forall_forall; by intros c [? _]%kids_elem|set_solver]. }
  split; [done|]. intros m c Hm Hm' Hc. destruct (decide (m = n)) as [->|Hne]; [by apply H1|]. apply (H2 m); [done|set_solver|done].
Qed.

Lemma left_over_le o : (left_over o ≤ length component)%nat.
Proof. unfold left_over. apply length_filter. Qed.

Lemma all_cons n ns : (∀ m, m ∈ n :: ns → m ∈ component) → n ∈ component ∧ ∀ m, m ∈ ns → m ∈ component.
Proof. intros H. split; [apply H; by left|]. intros m Hm. apply H. by right. Qed.

Lemma visit_all_extends ns : ∀ o, (∀ n, n ∈ ns → n ∈ component) → extends o (visit_all parents component ns o).
Proof.
  induction ns as [|n ns IH]; intros o Hns; [apply listing_refl|]. apply all_cons in Hns as [Hn Hns].
  eapply listing_trans; [by apply visit_extends|by apply IH].
Qed.

Lemma visit_all_NoDup ns : ∀ o, NoDup o → NoDup (visit_all parents component ns o).
Proof. induction ns as [|n ns IH]; intros o Ho; [done|]. apply (IH (dfs _ n o)). by apply visit_NoDup. Qed.

Lemma visit_all_complete ns : ∀ o, (∀ n, n ∈ ns → n ∈ component) →
  (∀ n, n ∈ ns → n ∈ visit_all parents component ns o) ∧
  ∀ m c, m ∈ visit_all parents component ns o → m ∉ o → c ∈ kids m → c ∈ visit_all parents component ns o.
Proof.
  induction ns as [|n ns IH]; intros o Hns; [split; [by intros n ?%elem_of_nil|done]|].
  apply all_cons in Hns as [Hn Hns].
  change (visit_all parents component (n :: ns) o) with (visit_all parents component ns (dfs (S (length component)) n o)).
  pose proof (left_over_le o) as Hlo. destruct (visit_complete (S (length component)) n o) as [H1 H2]; [done|lia|].
  destruct (IH (dfs (S (length component)) n o)) as [H3 H4]; [done|].
  assert (Hmono : ∀ y, y ∈ dfs (S (length component)) n o → y ∈ visit_all parents component ns (dfs (S (length component)) n o)).
  { intros y Hy. eapply extends_sub; [by apply visit_all_extends|done]. }
  split.
  - intros c [->|Hc]%elem_of_cons; [by apply Hmono|by apply H3].
  - intros m c Hm Hm' Hc. destruct (decide (m ∈ dfs (S (length component)) n o)); [apply Hmono; by eapply H2|by eapply H4].
Qed.

(** A stack lists its members, each once. *)
Lemma orderStackComponent_elem n : n ∈ orderStackComponent parents component ↔ n ∈ component.
Proof.
  unfold orderStackComponent. split.
  - pose proof (visit_all_extends (roots parents component) []) as (l1 & H1 & F1); [by intros m [? _]%roots_elem|].
    pose proof (visit_all_extends (merge_sort Z.le component) (visit_all parents component (roots parents component) []))
      as (l2 & H2 & F2); [intros m; by rewrite merge_sort_elem|].
    rewrite H2, H1. rewrite Forall_forall in F1, F2. intros [?%F1|?%F2]%elem_of_app; done.
  - intros Hn. apply visit_all_complete; [intros m; by rewrite merge_sort_elem|by rewrite merge_sort_elem].
Qed.

Lemma orderStackComponent_NoDup : NoDup (orderStackComponent parents component).
Proof. apply visit_all_NoDup, visit_all_NoDup, NoDup_nil_2. Qed.

(** ** Parents first *)

Definition grounded (o : list Z) : Prop := ∀ l1 n l2 p, o = l1 ++ n :: l2 → up n = Some p → p ∈ l1.

Lemma grounded_snoc o n : grounded o → (∀ p, up n = Some p → p ∈ o) → grounded (o ++ [n]).
Proof.
  intros Ho Hn l1 m l2 p Heq Hp. destruct l2 as [|x l2 _] using rev_ind.
  - apply app_inj_tail in Heq as [<- <-]. by apply Hn.
  - rewrite app_comm_cons, app_assoc in Heq. apply app_inj_tail in Heq as [Heq _]. by eapply Ho.
Qed.

Lemma visit_grounded fuel : ∀ n o, grounded o → (∀ p, up n = Some p → p ∈ o) → grounded (dfs fuel n o).
Proof.
  induction fuel as [|fuel IH]; intros n o Ho Hn; cbn; [done|]. destruct (decide (n ∈ o)); [done|].
  pose proof (grounded_snoc o n Ho Hn) as Ho'. assert (n ∈ o ++ [n]) as Hin by set_solver.
  assert (Hk : Forall (λ c, c ∈ component ∧ up c = Some n) (kids n)) by (apply Forall_forall; by intros c ?%kids_elem).
  clear Ho. revert Ho' Hin. generalize (o ++ [n]). induction Hk as [|c l [Hc Hup] Hk IHl]; intros o' Ho' Hin; cbn; [done|].
  apply IHl; [apply IH; [done|intros p Hp; rewrite Hup in Hp; by simplify_eq]|].
  eapply extends_sub; [by apply visit_extends|done].
Qed.

Lemma roots_grounded : grounded (visit_all parents component (roots parents component) []).
Proof.
  assert (Hr : Forall (λ n, up n = None) (roots parents component)) by (apply Forall_forall; by intros n [_ ?]%roots_elem).
  unfold visit_all. revert Hr. generalize (roots parents component).
  assert (Hnil : grounded []) by (intros [|??] ????; done). revert Hnil. generalize (@nil Z).
  intros o Ho l Hr. revert o Ho. induction Hr as [|n l Hn Hr IH]; intros o Ho; cbn [foldl]; [done|].
  apply IH, visit_grounded; [done|]. intros p Hp. congruence.
Qed.

(** Following parents from [n] ends at a member with none. *)
Inductive rooted : Z → Prop :=
| rooted_root n : up n = None → rooted n
| rooted_up n p : up n = Some p → rooted p → rooted n.

Lemma up_elem n p : up n = Some p → p ∈ component.
Proof. unfold parent_in. destruct (parents !! n); [|done]. case_decide; [|done]. by intros [= <-]. Qed.

Lemma rooted_reached n : rooted n → n ∈ component → n ∈ visit_all parents component (roots parents component) [].
Proof.
  destruct (visit_all_complete (roots parents component) []) as [H1 H2]; [by intros m [? _]%roots_elem|].
  induction 1 as [n Hn|n p Hn Hp IH]; intros Hc; [apply H1; by apply roots_elem|].
  eapply H2; [apply IH, (up_elem n p Hn)|apply not_elem_of_nil|by apply kids_elem].
Qed.

Lemma visit_all_done ns : ∀ o, (∀ n, n ∈ ns → n ∈ o) → visit_all parents component ns o = o.
Proof.
  induction ns as [|n ns IH]; intros o Ho; cbn; [done|]. rewrite decide_True by set_solver. apply IH. set_solver.
Qed.

Lemma rooted_grounded : (∀ n, n ∈ component → rooted n) → grounded (orderStackComponent parents component).
Proof.
  intros Hall. unfold orderStackComponent. rewrite visit_all_done; [apply roots_grounded|].
  intros n Hn. rewrite merge_sort_elem in Hn. apply rooted_reached; [by apply Hall|done].
Qed.
End order_lemmas.

(** The order within a stack does not depend on the order in which its members were met. *)
Section perm.
Context (parents : gmap Z Z) (c1 c2 : list Z) (Hperm : c1 ≡ₚ c2).

Lemma parent_in_perm n : parent_in parents c1 n = parent_in parents c2 n.
Proof. unfold parent_in. destruct (parents !! n) as [p|]; [|done]. apply decide_ext. by rewrite Hperm. Qed.

Lemma sorted_filter_perm (P Q : Z → Prop) `{!∀ n, Decision (P n), !∀ n, Decision (Q n)} :
  (∀ n, P n ↔ Q n) → merge_sort Z.le (filter P c1) = merge_sort Z.le (filter Q c2).
Proof. intros HPQ. apply sorted_perm_eq. rewrite (list_filter_iff P Q) by done. by rewrite Hperm. Qed.

Lemma children_perm p : children parents c1 p = children parents c2 p.
Proof. apply sorted_filter_perm. intros n. by rewrite parent_in_perm. Qed.

Lemma roots_perm : roots parents c1 = roots parents c2.
Proof. apply sorted_filter_perm. intros n. by rewrite parent_in_perm. Qed.

Lemma visit_perm fuel : ∀ n o, visit parents c1 fuel n o = visit parents c2 fuel n o.
Proof.
  induction fuel as [|fuel IH]; intros n o; cbn; [done|]. case_decide; [done|]. rewrite children_perm.
  generalize (o ++ [n]). induction (children parents c2 n) as [|c l IHl]; intros o'; cbn; [done|]. by rewrite IH.
Qed.

Lemma visit_all_perm ns : ∀ o, visit_all parents c1 ns o = visit_all parents c2 ns o.
Proof.
  induction ns as [|n ns IH]; intros o; [done|]. unfold visit_all in *. cbn [foldl]. by rewrite IH, visit_perm, Hperm.
Qed.

Lemma orderStackComponent_perm : orderStackComponent parents c1 = orderStackComponent parents c2.
Proof.
  unfold orderStackComponent. by rewrite !visit_all_perm, roots_perm, (sorted_perm_eq _ _ Hperm).
Qed.
End perm.

(** ** Connected components *)

Section components_lemmas.
Context (adjacent : gmap Z (gset Z)).

(** The pull requests next to one. *)
Definition next_to (a b : Z) : Prop := b ∈ default ∅ (adjacent !! a).

Context (Hsym : ∀ a b, next_to a b → next_to b a).

Lemma next_to_dom a b : next_to a b → a ∈ dom adjacent ∧ b ∈ dom adjacent.
Proof.
  assert (Hone : ∀ x y, next_to x y → x ∈ dom adjacent).
  { intros x y. unfold next_to. rewrite elem_of_dom. destruct (adjacent !! x); [eauto|set_solver]. }
  intros H. split; [by eapply Hone|]. by eapply Hone, Hsym.
Qed.

Lemma reach_sym a b : rtc next_to a b → rtc next_to b a.
Proof. induction 1 as [|a b c Hab _ IH]; [done|]. eapply rtc_r; [exact IH|by apply Hsym]. Qed.

Lemma reach_closed (V : gset Z) a b : (∀ x y, x ∈ V → next_to x y → y ∈ V) → a ∈ V → rtc next_to a b → b ∈ V.
Proof. intros HV Ha. induction 1 as [|a b c Hab _ IH]; [done|]. apply IH. by eapply HV. Qed.

Lemma reach_dom a b : a ∈ dom adjacent → rtc next_to a b → b ∈ dom adjacent.
Proof. intros Ha Hr. apply (reach_closed (dom adjacent) a b); [|done..]. intros x y _ Hxy. by apply next_to_dom in Hxy as [_ ?]. Qed.

Context (order : gset Z → list Z) (Horder : ∀ X, order X ≡ₚ elements X).

Lemma neighbours_elem a b : b ∈ neighbours order adjacent a ↔ next_to a b.
Proof. unfold neighbours, next_to. by rewrite Horder, elem_of_elements. Qed.

Lemma enqueue_adds ns : ∀ queue visited, ∃ new,
  enqueue ns queue visited = (queue ++ new, list_to_set new ∪ visited) ∧ NoDup new ∧ ∀ x, x ∈ new ↔ x ∈ ns ∧ x ∉ visited.
Proof.
  induction ns as [|n ns IH]; intros queue visited; cbn.
  { exists []. rewrite app_nil_r. split_and!; [f_equal; set_solver|constructor|]. intros x. rewrite !elem_of_nil. tauto. }
  case_decide as Hn.
  - destruct (IH queue visited) as (new & -> & Hnd & Hnew). exists new. split_and!; [done..|].
    intros x. rewrite elem_of_cons, Hnew. split; [tauto|]. intros [[->|?] ?]; tauto.
  - destruct (IH (queue ++ [n]) ({[n]} ∪ visited)) as (new & -> & Hnd & Hnew). exists (n :: new). split_and!.
    + rewrite <- app_assoc. cbn. f_equal. set_solver.
    + constructor; [|done]. rewrite Hnew. intros [_ Hx]. apply Hx. set_solver.
    + intros x. rewrite !elem_of_cons, Hnew, not_elem_of_union, not_elem_of_singleton.
      destruct (decide (x = n)) as [->|]; tauto.
Qed.

(** A component met from [start], when [V0] was visited before it. *)
Record exploring (V0 : gset Z) (start : Z) (queue : list Z) (visited : gset Z) (component : list Z) : Prop := {
  ex_nodup : NoDup (component ++ queue);
  ex_visited : visited = list_to_set (component ++ queue) ∪ V0;
  ex_fresh x : x ∈ component ++ queue → x ∉ V0;
  ex_reach x : x ∈ component ++ queue → rtc next_to start x;
  ex_closed x y : x ∈ component → next_to x y → y ∈ visited;
  ex_start : start ∈ component ++ queue
}.

Lemma exploring_step V0 start current queue visited component queue' visited' :
  exploring V0 start (current :: queue) visited component →
  enqueue (neighbours order adjacent current) queue visited = (queue', visited') →
  exploring V0 start queue' visited' (component ++ [current]).
Proof.
  intros [Hnd Hv Hf Hr Hc Hs] He. destruct (enqueue_adds (neighbours order adjacent current) queue visited) as (new & Heq & Hnn & Hnew).
  rewrite Heq in He. injection He as <- <-.
  assert (Hassoc : (component ++ [current]) ++ queue ++ new = (component ++ current :: queue) ++ new) by (rewrite <- !app_assoc; done).
  assert (Hlist : ∀ x, x ∈ component ++ current :: queue → x ∈ visited) by (intros x Hx; subst visited; set_solver).
  split; rewrite ?Hassoc.
  - apply NoDup_app. split_and!; [done| |done]. intros x Hx Hx'. apply Hnew in Hx' as [_ Hx']. by apply Hx', Hlist.
  - subst visited. rewrite list_to_set_app_L. set_solver.
  - intros x [Hx|Hx]%elem_of_app; [by apply Hf|]. apply Hnew in Hx as [_ Hx]. subst visited. set_solver.
  - intros x [Hx|Hx]%elem_of_app; [by apply Hr|]. apply Hnew in Hx as [Hx _]. rewrite neighbours_elem in Hx.
    eapply rtc_r; [apply (Hr current); set_solver|done].
  - intros x y [Hx| ->%list_elem_of_singleton]%elem_of_app Hxy; [specialize (Hc x y Hx Hxy); set_solver|].
    destruct (decide (y ∈ visited)); [set_solver|]. apply elem_of_union_l, elem_of_list_to_set, Hnew. by rewrite neighbours_elem.
  - apply elem_of_app. by left.
Qed.

Lemma exploring_dom V0 start queue visited component :
  start ∈ dom adjacent → exploring V0 start queue visited component → (length (component ++ queue) ≤ size adjacent)%nat.
Proof.
  intros Hs He. rewrite <- size_dom. rewrite <- (size_list_to_set (C := gset Z) (component ++ queue)) by apply He.
  apply subseteq_size. intros x Hx%elem_of_list_to_set. apply (reach_dom start); [done|]. by apply He.
Qed.

Lemma component_of_spec V0 start fuel : ∀ queue visited component,
  (∀ x y, x ∈ V0 → next_to x y → y ∈ V0) → start ∈ dom adjacent →
  exploring V0 start queue visited component → (size adjacent < fuel + length component)%nat →
  ∃ c, component_of order adjacent fuel queue visited component = (c, list_to_set c ∪ V0) ∧ NoDup c ∧ ∀ x, x ∈ c ↔ rtc next_to start x.
Proof.
  induction fuel as [|fuel IH]; intros queue visited component HV Hs He Hfuel.
  { pose proof (exploring_dom _ _ _ _ _ Hs He) as Hl. rewrite length_app in Hl. cbn in Hfuel. lia. }
  destruct queue as [|current queue]; cbn.
  - exists component. destruct He as [Hnd Hv Hf Hr Hc Hst]. rewrite app_nil_r in *. split_and!; [by rewrite Hv|done|].
    intros x. split; [apply Hr|]. intros Hx. clear IH Hs Hr. revert Hst. induction Hx as [|a b c Hab _ IHx]; [done|]. intros Ha. apply IHx.
    specialize (Hc a b Ha Hab). rewrite Hv in Hc. apply elem_of_union in Hc as [Hc%elem_of_list_to_set|Hc]; [done|].
    exfalso. apply (Hf a Ha). eapply HV; [exact Hc|by apply Hsym].
  - destruct (enqueue _ _ _) as [queue' visited'] eqn:Hq. apply IH; [done..| |].
    + by eapply exploring_step.
    + rewrite length_app. cbn. lia.
Qed.

Lemma component_spec V0 start : (∀ x y, x ∈ V0 → next_to x y → y ∈ V0) → start ∈ dom adjacent → start ∉ V0 →
  ∃ c, component_of order adjacent (S (size adjacent)) [start] ({[start]} ∪ V0) [] = (c, list_to_set c ∪ V0) ∧
       NoDup c ∧ ∀ x, x ∈ c ↔ rtc next_to start x.
Proof.
  intros HV Hd Hs. apply component_of_spec; [done..| |cbn; lia]. split.
  - cbn. apply NoDup_singleton.
  - cbn. set_solver.
  - by intros x ->%list_elem_of_singleton.
  - by intros x ->%list_elem_of_singleton.
  - by intros x y ?%elem_of_nil.
  - by apply list_elem_of_singleton.
Qed.

(** A class of the relation, listed once. *)
Definition class_list (c : list Z) : Prop := NoDup c ∧ ∃ s, s ∈ dom adjacent ∧ ∀ x, x ∈ c ↔ rtc next_to s x.

Lemma components_spec numbers : ∀ V0, (∀ x y, x ∈ V0 → next_to x y → y ∈ V0) → (∀ n, n ∈ numbers → n ∈ dom adjacent) →
  let cs := components order adjacent (S (size adjacent)) numbers V0 in
  Forall class_list cs ∧ NoDup (mjoin cs) ∧ (∀ x, x ∈ mjoin cs → x ∉ V0) ∧ ∀ n, n ∈ numbers → n ∈ V0 ∨ n ∈ mjoin cs.
Proof.
  induction numbers as [|n numbers IH]; intros V0 HV Hn; cbn [components].
  { cbn. split_and!; [constructor|constructor|by intros x ?%elem_of_nil|by intros m ?%elem_of_nil]. }
  assert (Hrest : ∀ m, m ∈ numbers → m ∈ dom adjacent) by (intros m Hm; apply Hn; by right).
  case_decide as Hvis.
  - destruct (IH V0 HV Hrest) as (H1 & H2 & H3 & H4). split_and!; [done..|]. intros m [->|Hm]%elem_of_cons; [by left|by apply H4].
  - destruct (component_spec V0 n HV) as (c & -> & Hnd & Hc); [apply Hn; by left|done|].
    assert (HV' : ∀ x y, x ∈ list_to_set c ∪ V0 → next_to x y → y ∈ list_to_set c ∪ V0).
    { intros x y [Hx%elem_of_list_to_set|Hx]%elem_of_union Hxy; [|apply elem_of_union_r; by eapply HV].
      apply elem_of_union_l, elem_of_list_to_set, Hc. eapply rtc_r; [by apply Hc|done]. }
    assert (Hfresh : ∀ x, x ∈ c → x ∉ V0).
    { intros x Hx Hx0. apply Hvis. apply (reach_closed V0 x n); [done..|]. apply reach_sym. by apply Hc. }
    destruct (IH _ HV' Hrest) as (H1 & H2 & H3 & H4). cbn. split_and!.
    + constructor; [|done]. split; [done|]. exists n. split; [apply Hn; by left|done].
    + apply NoDup_app. split_and!; [done| |done]. intros x Hx Hx'%H3. apply Hx'. set_solver.
    + intros x [Hx|Hx]%elem_of_app; [by apply Hfresh|]. apply H3 in Hx. set_solver.
    + intros m [->|Hm]%elem_of_cons; [right; apply elem_of_app; left; by apply Hc|].
      destruct (H4 m Hm) as [Hm'|Hm']; [|right; apply elem_of_app; by right].
      apply elem_of_union in Hm' as [Hm'%elem_of_list_to_set|]; [right; apply elem_of_app; by left|by left].
Qed.
End components_lemmas.

(** The components do not depend on the order of the neighbours, but for the order within. *)
Lemma components_any_order o1 o2 adjacent numbers :
  (∀ X, o1 X ≡ₚ elements X) → (∀ X, o2 X ≡ₚ elements X) → (∀ a b, next_to adjacent a b → next_to adjacent b a) →
  ∀ V0, (∀ x y, x ∈ V0 → next_to adjacent x y → y ∈ V0) → (∀ n, n ∈ numbers → n ∈ dom adjacent) →
  Forall2 (≡ₚ) (components o1 adjacent (S (size adjacent)) numbers V0) (components o2 adjacent (S (size adjacent)) numbers V0).
Proof.
  intros Ho1 Ho2 Hsym. induction numbers as [|n numbers IH]; intros V0 HV Hn; cbn [components]; [constructor|].
  assert (Hrest : ∀ m, m ∈ numbers → m ∈ dom adjacent) by (intros m Hm; apply Hn; by right).
  case_decide as Hvis; [by apply IH|].
  destruct (component_spec adjacent Hsym o1 Ho1 V0 n HV) as (c1 & -> & Hnd1 & Hc1); [apply Hn; by left|done|].
  destruct (component_spec adjacent Hsym o2 Ho2 V0 n HV) as (c2 & -> & Hnd2 & Hc2); [apply Hn; by left|done|].
  assert (Hset : list_to_set c1 = (list_to_set c2 : gset Z)) by (apply set_eq; intros x; by rewrite !elem_of_list_to_set, Hc1, Hc2).
  constructor; [apply NoDup_Permutation; [done..|]; intros x; by rewrite Hc1, Hc2|]. rewrite Hset. apply IH; [|done].
  intros x y [Hx%elem_of_list_to_set|Hx]%elem_of_union Hxy; [|apply elem_of_union_r; by eapply HV].
  apply elem_of_union_l, elem_of_list_to_set, Hc2. eapply rtc_r; [by apply Hc2|done].
Qed.

(** ** The stacks of a recording *)

Section stacks.
Context (r : RecRepository) (pulls : list RecPull).

(** A pull request is based on another. *)
Definition stacked (a b : Z) : Prop :=
  ∃ p q, p ∈ pulls ∧ parent_of r pulls p = Some q ∧ rpr_Number p = a ∧ rpr_Number q = b.

Definition linked (a b : Z) : Prop := stacked a b ∨ stacked b a.

Lemma choose_elem child candidates : ∀ fallback q,
  (∀ f, fallback = Some f → rpr_Number f ≠ rpr_Number child) → choose child fallback candidates = Some q →
  (q ∈ candidates ∨ fallback = Some q) ∧ rpr_Number q ≠ rpr_Number child.
Proof.
  induction candidates as [|c candidates IH]; intros fallback q Hf Hq; cbn in Hq; [split; [by right|by apply Hf]|].
  destruct (rpr_Number c =? rpr_Number child) eqn:Hn.
  { destruct (IH _ _ Hf Hq) as [[?|?] ?]; split; auto. left. by right. }
  assert (Hc : rpr_Number c ≠ rpr_Number child) by lia. destruct (_ && _) in Hq.
  { injection Hq as <-. split; [left; by left|done]. }
  assert (Hf' : ∀ g, match fallback with None => Some c | Some f => if better_fallback c f then Some c else Some f end = Some g →
    (g = c ∨ fallback = Some g) ∧ rpr_Number g ≠ rpr_Number child).
  { intros g Hg. destruct fallback as [f|]; [destruct (better_fallback c f)|]; simplify_eq; auto. }
  destruct (IH _ _ (λ g Hg, proj2 (Hf' g Hg)) Hq) as [[Hin|Hg] Hne]; (split; [|done]); [left; by right|].
  destruct (Hf' q Hg) as [[->|?] _]; [left; by left|by right].
Qed.

Lemma parent_of_elem p q : parent_of r pulls p = Some q → q ∈ pulls ∧ rpr_Number q ≠ rpr_Number p.
Proof.
  intros Hq. apply choose_elem in Hq as [[Hq|?] Hne]; [|done..]. split; [|done]. unfold byHead in Hq.
  rewrite merge_sort_Permutation, list_elem_of_filter in Hq. tauto.
Qed.

Lemma stacked_irrefl a : ¬ stacked a a.
Proof. intros (p & q & _ & [_ Hne]%parent_of_elem & <- & Heq). done. Qed.

Lemma linked_sym a b : linked a b → linked b a.
Proof. unfold linked. tauto. Qed.

Lemma linked_number a b : linked a b → a ∈ rpr_Number <$> pulls.
Proof.
  intros [(p & q & Hp & Hq & <- & _)|(p & q & Hp & Hq & _ & <-)]; apply list_elem_of_fmap; [by exists p|].
  apply parent_of_elem in Hq as [? _]. by exists q.
Qed.

Lemma next_to_add_edge x y m a b : next_to (add_edge x y m) a b ↔ (a = x ∧ b = y) ∨ next_to m a b.
Proof.
  unfold next_to, add_edge. destruct (decide (a = x)) as [->|Hne]; [rewrite lookup_insert_eq|rewrite lookup_insert_ne by done]; cbn; set_solver.
Qed.

Lemma dom_add_edge x y m : dom (add_edge x y m) = {[x]} ∪ dom m.
Proof. unfold add_edge. by rewrite dom_insert_L. Qed.

Lemma link_spec all l : ∀ parents adjacent parents' adjacent',
  link r all l parents adjacent = (parents', adjacent') →
  (∀ a b, next_to adjacent' a b ↔ next_to adjacent a b ∨
     ∃ p q, p ∈ l ∧ parent_of r all p = Some q ∧
            ((rpr_Number p = a ∧ rpr_Number q = b) ∨ (rpr_Number p = b ∧ rpr_Number q = a))) ∧
  ((∀ a, a ∈ dom adjacent → ∃ b, next_to adjacent a b) → ∀ a, a ∈ dom adjacent' → ∃ b, next_to adjacent' a b).
Proof.
  induction l as [|p l IH]; intros parents adjacent parents' adjacent' Hl; cbn in Hl.
  { injection Hl as <- <-. split; [|done]. intros a b. split; [by left|]. intros [?|(p & q & ?%elem_of_nil & _)]; done. }
  destruct (parent_of r all p) as [q|] eqn:Hp.
  - destruct (IH _ _ _ _ Hl) as [H1 H2]. split.
    + intros a b. rewrite H1, !next_to_add_edge. split.
      * intros [[[-> ->]|[[-> ->]|?]]|(p' & q' & ? & ?)]; [right; exists p, q; set_solver|right; exists p, q; set_solver|by left|].
        right. exists p', q'. set_solver.
      * intros [?|(p' & q' & [->|?]%elem_of_cons & Hq & Hab)]; [tauto| |right; eauto]. rewrite Hp in Hq. simplify_eq. naive_solver.
    + intros Hd. apply H2. intros a. rewrite !dom_add_edge, !elem_of_union, !elem_of_singleton.
      intros [->|[->|Ha]]; [exists (rpr_Number q)|exists (rpr_Number p)|destruct (Hd a Ha) as [b Hb]; exists b]; rewrite !next_to_add_edge; tauto.
  - destruct (IH _ _ _ _ Hl) as [H1 H2]. split; [|done]. intros a b. rewrite H1. split.
    + intros [?|(p' & q' & ? & ?)]; [by left|]. right. exists p', q'. set_solver.
    + intros [?|(p' & q' & [->|?]%elem_of_cons & Hq & Hab)]; [tauto|congruence|right; eauto].
Qed.

Lemma link_parents all l : ∀ parents adjacent parents' adjacent',
  NoDup (rpr_Number <$> l) → link r all l parents adjacent = (parents', adjacent') →
  (∀ p, p ∈ l → parents !! rpr_Number p = None) →
  ∀ a b, parents' !! a = Some b ↔ parents !! a = Some b ∨ ∃ p q, p ∈ l ∧ parent_of r all p = Some q ∧ rpr_Number p = a ∧ rpr_Number q = b.
Proof.
  induction l as [|p l IH]; intros parents adjacent parents' adjacent' Hnd Hl Hfresh a b; cbn in Hl.
  { injection Hl as <- <-. split; [by left|]. intros [?|(p & q & ?%elem_of_nil & _)]; done. }
  rewrite fmap_cons in Hnd. inversion_clear Hnd as [|?? Hnp Hnd'].
  assert (Hp0 : parents !! rpr_Number p = None) by (apply Hfresh; by left).
  assert (Hne : ∀ p', p' ∈ l → rpr_Number p ≠ rpr_Number p').
  { intros p' Hp' Heq. apply Hnp. apply list_elem_of_fmap. by exists p'. }
  destruct (parent_of r all p) as [q|] eqn:Hp.
  - rewrite (IH _ _ _ _ Hnd' Hl) by (intros p' Hp'; rewrite lookup_insert_ne by (by apply Hne); apply Hfresh; by right).
    rewrite lookup_insert_Some. split.
    + intros [[[<- <-]|[_ ?]]|(p' & q' & ? & ?)]; [right; exists p, q; set_solver|by left|right; exists p', q'; set_solver].
    + intros [Ha|(p' & q' & [->|?]%elem_of_cons & Hq & <- & <-)].
      * left. right. split; [|done]. intros Heq. subst a. congruence.
      * rewrite Hp in Hq. simplify_eq. left. by left.
      * right. eauto 10.
  - rewrite (IH _ _ _ _ Hnd' Hl) by (intros p' Hp'; apply Hfresh; by right). split.
    + intros [?|(p' & q' & ? & ?)]; [by left|right; exists p', q'; set_solver].
    + intros [?|(p' & q' & [->|?]%elem_of_cons & Hq & ?)]; [by left|congruence|right; eauto].
Qed.

Definition parents_map : gmap Z Z := (link r pulls pulls ∅ ∅).1.
Definition adjacent_map : gmap Z (gset Z) := (link r pulls pulls ∅ ∅).2.

Lemma adjacent_linked a b : next_to adjacent_map a b ↔ linked a b.
Proof.
  unfold adjacent_map. destruct (link r pulls pulls ∅ ∅) as [ps ad] eqn:Hl. apply link_spec in Hl as [Hl _]. cbn. rewrite Hl.
  unfold linked, stacked. split.
  - intros [H|(p & q & ? & ? & [[? ?]|[? ?]])]; [unfold next_to in H; rewrite lookup_empty in H; cbn in H; set_solver|left; eauto 10|right; eauto 10].
  - intros [(p & q & ? & ? & ? & ?)|(p & q & ? & ? & ? & ?)]; right; eauto 10.
Qed.

Lemma adjacent_linked_rtc a b : rtc (next_to adjacent_map) a b ↔ rtc linked a b.
Proof. split; apply rtc_subrel; intros x y; by rewrite adjacent_linked. Qed.

Lemma adjacent_sym a b : next_to adjacent_map a b → next_to adjacent_map b a.
Proof. rewrite !adjacent_linked. apply linked_sym. Qed.

Lemma adjacent_dom a : a ∈ dom adjacent_map ↔ ∃ b, linked a b.
Proof.
  split.
  - intros Ha. unfold adjacent_map in Ha. destruct (link r pulls pulls ∅ ∅) as [ps ad] eqn:Hl. pose proof (link_spec _ _ _ _ _ _ Hl) as [_ Hd].
    destruct (Hd ltac:(intros x; rewrite dom_empty_L; set_solver) a Ha) as [b Hb]. exists b. rewrite <- adjacent_linked.
    unfold adjacent_map. by rewrite Hl.
  - intros [b Hb]. rewrite <- adjacent_linked in Hb. by apply (next_to_dom adjacent_map adjacent_sym a b).
Qed.

Lemma class_pair c : class_list adjacent_map c → (2 ≤ length c)%nat.
Proof.
  intros (Hnd & s & Hs & Hc). apply adjacent_dom in Hs as [b Hb].
  assert (s ∈ c) as H1 by (by apply Hc). assert (b ∈ c) as H2 by (apply Hc, rtc_once; by rewrite adjacent_linked).
  destruct c as [|x [|y c]]; [by apply elem_of_nil in H1| |cbn; lia]. apply list_elem_of_singleton in H1, H2. subst.
  exfalso. destruct Hb as [Hb|Hb]; by apply stacked_irrefl in Hb.
Qed.

Context (sum8 : string → Z).

(** The stack of a class has its members. *)
Lemma stack_of_class c : class_list adjacent_map c → ∃ s, stack_of sum8 r pulls parents_map c = Some s ∧
  rst_PullRequests s = orderStackComponent parents_map c ∧ rst_PullRequests s ≡ₚ c ∧
  head (rst_PullRequests s) = Some (rst_Number s) ∧ rst_PullRequestStates s = map (byNumber pulls) (rst_PullRequests s) ∧
  rst_ID s = stackID sum8 (RecFullName r) (rst_PullRequests s) ∧ rst_Base s = rpr_Base (byNumber pulls (rst_Number s)).
Proof.
  intros Hc. pose proof (class_pair c Hc) as Hl. unfold stack_of. rewrite (proj2 (Nat.ltb_ge _ _)) by done.
  assert (Hp : orderStackComponent parents_map c ≡ₚ c).
  { apply NoDup_Permutation; [apply orderStackComponent_NoDup|apply Hc|apply orderStackComponent_elem]. }
  destruct (orderStackComponent parents_map c) as [|bottom rest] eqn:Ho.
  { apply Permutation_nil_l in Hp. subst c. cbn in Hl. lia. }
  eexists. split; [done|]. by cbn.
Qed.
Context (order : gset Z → list Z) (Horder : ∀ X, order X ≡ₚ elements X).

Definition found : list (list Z) :=
  components order adjacent_map (S (size adjacent_map)) (merge_sort Z.le (elements (dom adjacent_map))) ∅.

Lemma DeriveStacks_found :
  DeriveStacks order sum8 r pulls = merge_sort stack_le (omap (stack_of sum8 r pulls parents_map) found).
Proof. unfold DeriveStacks, found, parents_map, adjacent_map. by destruct (link r pulls pulls ∅ ∅). Qed.

Lemma found_spec :
  Forall (class_list adjacent_map) found ∧ NoDup (mjoin found) ∧ ∀ n, n ∈ mjoin found ↔ ∃ m, linked n m.
Proof.
  destruct (components_spec adjacent_map adjacent_sym order Horder (merge_sort Z.le (elements (dom adjacent_map))) ∅) as (H1 & H2 & _ & H4);
    [set_solver|intros n; by rewrite merge_sort_elem, elem_of_elements|]. fold found in H1, H2, H4. split_and!; [done..|].
  intros n. rewrite <- adjacent_dom. split.
  - intros (c & Hn & Hc)%list_elem_of_join. rewrite Forall_forall in H1. destruct (H1 c Hc) as (_ & s & Hs & Hcs). apply Hcs in Hn.
    by apply (reach_dom adjacent_map adjacent_sym s).
  - intros Hn. destruct (H4 n) as [?|?]; [by rewrite merge_sort_elem, elem_of_elements|set_solver|done].
Qed.

End stacks.

Section derived.
Context (r : RecRepository) (pulls : list RecPull) (order : gset Z → list Z) (sum8 : string → Z).
Context (Horder : ∀ X, order X ≡ₚ elements X).

Lemma omap_members l : Forall (class_list (adjacent_map r pulls)) l →
  mjoin (rst_PullRequests <$> omap (stack_of sum8 r pulls (parents_map r pulls)) l) ≡ₚ mjoin l ∧
  (∀ s, s ∈ omap (stack_of sum8 r pulls (parents_map r pulls)) l → ∃ c, c ∈ l ∧ stack_of sum8 r pulls (parents_map r pulls) c = Some s).
Proof.
  intros Hl. split; [|intros s; rewrite list_elem_of_omap; naive_solver].
  induction Hl as [|c l Hc _ IH]; [done|]. destruct (stack_of_class r pulls sum8 c Hc) as (s & Hs & _ & Hp & _). cbn. rewrite Hs. cbn. by rewrite Hp, IH.
Qed.

(** A derived stack and the class it is of. *)
Lemma derived_class s : s ∈ DeriveStacks order sum8 r pulls → ∃ c, class_list (adjacent_map r pulls) c ∧
  stack_of sum8 r pulls (parents_map r pulls) c = Some s.
Proof.
  rewrite DeriveStacks_found, merge_sort_Permutation. destruct (found_spec r pulls order Horder) as (H1 & _).
  intros Hs. apply (proj2 (omap_members _ H1)) in Hs as (c & Hc & Hs). rewrite Forall_forall in H1. eauto.
Qed.

Lemma derived_members : mjoin (rst_PullRequests <$> DeriveStacks order sum8 r pulls) ≡ₚ mjoin (found r pulls order).
Proof.
  rewrite DeriveStacks_found, merge_sort_Permutation. apply omap_members. apply (found_spec r pulls order Horder).
Qed.

(** A stack is a class of the pull requests that are based on each other. *)
Lemma derived_connected s a b : s ∈ DeriveStacks order sum8 r pulls → a ∈ rst_PullRequests s →
  b ∈ rst_PullRequests s ↔ rtc (linked r pulls) a b.
Proof.
  intros (c & Hc & Hs)%derived_class Ha. destruct (stack_of_class r pulls sum8 c Hc) as (s' & Hs' & _ & Hp & _).
  rewrite Hs in Hs'. injection Hs' as <-. rewrite Hp in Ha |- *. destruct Hc as (_ & x & Hx & Hc). rewrite Hc in Ha |- *.
  rewrite <- adjacent_linked_rtc. split; intros Hr.
  - etrans; [apply reach_sym; [apply adjacent_sym|exact Ha]|done].
  - by etrans.
Qed.

Lemma stacks_ascending (l : list RecStack) :
  StronglySorted stack_le l → NoDup (mjoin (rst_PullRequests <$> l)) →
  (∀ s, s ∈ l → head (rst_PullRequests s) = Some (rst_Number s)) → StronglySorted Z.lt (rst_Number <$> l).
Proof.
  induction 1 as [|s l Hs IH Hle]; cbn; intros Hnd Hh; [constructor|]. apply NoDup_app in Hnd as (_ & Hdis & Hnd).
  constructor; [apply IH; [done|]; intros s' Hs'; apply Hh; by right|]. apply Forall_fmap, Forall_forall. intros s' Hs'. cbn.
  rewrite Forall_forall in Hle. specialize (Hle s' Hs'). unfold stack_le in Hle.
  assert (rst_Number s ≠ rst_Number s'); [|lia]. intros Heq.
  pose proof (Hh s ltac:(by left)) as H1. pose proof (Hh s' ltac:(by right)) as H2.
  apply (Hdis (rst_Number s)).
  - destruct (rst_PullRequests s); simplify_eq/=. by left.
  - apply list_elem_of_join. exists (rst_PullRequests s'). split; [|by apply list_elem_of_fmap_2].
    rewrite Heq. destruct (rst_PullRequests s'); simplify_eq/=. by left.
Qed.
End derived.

#[export] Instance stack_le_trans : Transitive stack_le.
Proof. intros a b c. unfold stack_le. lia. Qed.

#[export] Instance stack_le_total : Total stack_le.
Proof. intros a b. unfold stack_le. lia. Qed.

(** The derived stacks partition the pull requests that are based on another or that another
    is based on: each is in one stack, two are in the same stack exactly when a chain of
    bases connects them, and the stacks come by ascending number of their first member. *)
Theorem stacks_partition order sum8 r pulls : (∀ X, order X ≡ₚ elements X) →
  let stacks := DeriveStacks order sum8 r pulls in
  NoDup (mjoin (rst_PullRequests <$> stacks)) ∧
  (∀ n, n ∈ mjoin (rst_PullRequests <$> stacks) ↔ ∃ m, linked r pulls n m) ∧
  (∀ s a b, s ∈ stacks → a ∈ rst_PullRequests s → b ∈ rst_PullRequests s ↔ rtc (linked r pulls) a b) ∧
  StronglySorted Z.lt (rst_Number <$> stacks).
Proof.
  intros Ho stacks. destruct (found_spec r pulls order Ho) as (H1 & H2 & H3).
  pose proof (derived_members r pulls order sum8 Ho) as Hm. fold stacks in Hm.
  assert (Hnd : NoDup (mjoin (rst_PullRequests <$> stacks))) by (by rewrite Hm). split_and!.
  - done.
  - intros n. by rewrite Hm.
  - intros s a b. by apply derived_connected.
  - apply stacks_ascending; [unfold stacks; rewrite DeriveStacks_found; apply StronglySorted_merge_sort; apply _|done|].
    intros s (c & Hc & Hs)%derived_class; [|done]. destruct (stack_of_class r pulls sum8 c Hc) as (s' & Hs' & _ & _ & Hh & _). congruence.
Qed.

(** The stacks do not depend on the order in which maps are iterated. *)
Theorem stacks_any_order o1 o2 sum8 r pulls : (∀ X, o1 X ≡ₚ elements X) → (∀ X, o2 X ≡ₚ elements X) →
  DeriveStacks o1 sum8 r pulls = DeriveStacks o2 sum8 r pulls.
Proof.
  intros Ho1 Ho2. rewrite !DeriveStacks_found. f_equal.
  assert (Hf : Forall2 (≡ₚ) (found r pulls o1) (found r pulls o2)).
  { apply components_any_order; [done..|apply adjacent_sym|set_solver|]. intros n. by rewrite merge_sort_elem, elem_of_elements. }
  induction Hf as [|c1 c2 l1 l2 Hc _ IH]; [done|]. cbn. rewrite IH.
  assert (stack_of sum8 r pulls (parents_map r pulls) c1 = stack_of sum8 r pulls (parents_map r pulls) c2) as ->; [|done].
  unfold stack_of. by rewrite (orderStackComponent_perm _ _ _ Hc), Hc.
Qed.

(** ** Bases first *)

Section bases.
Context (r : RecRepository) (pulls : list RecPull) (Hnd : NoDup (rpr_Number <$> pulls)).

Lemma parents_stacked a b : parents_map r pulls !! a = Some b ↔ stacked r pulls a b.
Proof.
  unfold parents_map. destruct (link r pulls pulls ∅ ∅) as [ps ad] eqn:Hl. cbn.
  rewrite (link_parents r pulls pulls _ _ _ _ Hnd Hl) by done. unfold stacked. split; [|by right]. intros [H|H]; [by rewrite lookup_empty in H|done].
Qed.

Lemma class_parent c a b : class_list (adjacent_map r pulls) c → a ∈ c → parent_in (parents_map r pulls) c a = Some b ↔ stacked r pulls a b.
Proof.
  intros (_ & s & _ & Hc) Ha. unfold parent_in. rewrite <- parents_stacked. destruct (parents_map r pulls !! a) as [p|] eqn:Hp; [|done].
  case_decide as Hin; [done|]. exfalso. apply Hin, Hc. eapply rtc_r; [by apply Hc|]. apply adjacent_linked. left. by apply parents_stacked.
Qed.

(** What a pull request shares with the one it is based on, a whole class shares. *)
Lemma class_shares c (P : Z → Prop) a b : class_list (adjacent_map r pulls) c →
  (∀ x y, parent_in (parents_map r pulls) c x = Some y → P x ↔ P y) → a ∈ c → b ∈ c → P a → P b.
Proof.
  intros Hcl HP Ha Hb Hr. pose proof Hcl as (_ & s & Hs & Hc).
  assert (Hab : rtc (next_to (adjacent_map r pulls)) a b).
  { etrans; [apply reach_sym; [apply adjacent_sym|by apply Hc]|by apply Hc]. }
  clear Hb. revert Ha Hr. induction Hab as [|a x b Hax _ IH]; [done|]. intros Ha Hr.
  assert (Hx : x ∈ c) by (apply Hc; eapply rtc_r; [by apply Hc|done]). apply IH; [done|].
  apply adjacent_linked in Hax as [Hax|Hax].
  - apply (class_parent c a x Hcl Ha) in Hax. by apply (HP a x).
  - apply (class_parent c x a Hcl Hx) in Hax. by apply (HP x a).
Qed.
End bases.

(** A stack with a member that is based on no other starts with that member, and lists
    every other after the one it is based on. *)
Theorem stacks_bases_first order sum8 r pulls s root :
  (∀ X, order X ≡ₚ elements X) → NoDup (rpr_Number <$> pulls) → s ∈ DeriveStacks order sum8 r pulls →
  root ∈ rst_PullRequests s → (∀ b, ¬ stacked r pulls root b) →
  rst_Number s = root ∧
  ∀ below a above b, rst_PullRequests s = below ++ a :: above → stacked r pulls a b → b ∈ below.
Proof.
  intros Ho Hnd Hs Hroot Hno. apply (derived_class r pulls order sum8 Ho) in Hs as (c & Hc & Hs).
  destruct (stack_of_class r pulls sum8 c Hc) as (s' & Hs' & Heq & Hp & Hh & _). rewrite Hs in Hs'. injection Hs' as <-.
  rewrite Hp in Hroot.
  assert (Hup : parent_in (parents_map r pulls) c root = None).
  { destruct (parent_in _ c root) as [b|] eqn:Hup; [|done]. apply (class_parent r pulls Hnd c root b Hc Hroot) in Hup. by apply Hno in Hup. }
  assert (Hr : ∀ n, n ∈ c → rooted (parents_map r pulls) c n).
  { intros n Hn. apply (class_shares r pulls Hnd c (rooted (parents_map r pulls) c) root n Hc); [|done..|by apply rooted_root].
    intros x y Hxy. split; [inversion 1; congruence|]. by apply rooted_up. }
  assert (Htop : ∀ n, n ∈ c → rtc (λ x y, parent_in (parents_map r pulls) c x = Some y) n root).
  { intros n Hn. apply (class_shares r pulls Hnd c (λ n, rtc _ n root) root n Hc); [|done..].
    intros x y Hxy. split; [|by apply rtc_l]. inversion 1; subst; congruence. }
  pose proof (rooted_grounded (parents_map r pulls) c Hr) as Hg. rewrite <- Heq in Hg.
  split.
  - destruct (rst_PullRequests s) as [|bottom rest] eqn:Hl; [done|]. injection Hh as <-.
    assert (Hb : bottom ∈ c) by (rewrite <- Hp; by left). destruct (Htop bottom Hb) as [|? y ? Hy]; [done|].
    by apply (Hg [] bottom rest y eq_refl), elem_of_nil in Hy.
  - intros below a above b Hl Hst. eapply Hg; [exact Hl|]. apply (class_parent r pulls Hnd c a b Hc); [|done]. rewrite <- Hp, Hl. set_solver.
Qed.

(** ** Derived stacks are recordable *)

Lemma byNumber_spec pulls n : n ∈ rpr_Number <$> pulls → byNumber pulls n ∈ pulls ∧ rpr_Number (byNumber pulls n) = n.
Proof.
  intros (p & -> & Hp)%list_elem_of_fmap. unfold byNumber.
  destruct (list_find _ (reverse pulls)) as [[i q]|] eqn:Hf.
  - apply list_find_Some in Hf as (Hi & Hq & _). cbn. split; [|done]. apply list_elem_of_lookup_2 in Hi. by rewrite elem_of_reverse in Hi.
  - exfalso. eapply list_find_None in Hf. rewrite Forall_forall in Hf. apply (Hf p); [by apply elem_of_reverse|done].
Qed.

Lemma validate_members_ok pulls l : ∀ index seen, Forall (λ p, complete_pull p = true) pulls → NoDup l →
  (∀ n, n ∈ l → n ∈ rpr_Number <$> pulls ∧ n ∉ seen) → validate_members index (map (byNumber pulls) l) l seen = Ok ().
Proof.
  induction l as [|n l IH]; intros index seen Hp Hnd Hl; [done|]. inversion_clear Hnd as [|?? Hn Hnd'].
  destruct (Hl n ltac:(by left)) as [Hin Hseen]. destruct (byNumber_spec pulls n Hin) as [Hb Hnum]. cbn.
  rewrite Forall_forall in Hp. rewrite (Hp _ Hb). rewrite Hnum, Z.eqb_refl. cbn. rewrite decide_False by done.
  apply IH; [by apply Forall_forall|done|]. intros m Hm. destruct (Hl m ltac:(by right)) as [Hm1 Hm2]. split; [done|].
  rewrite not_elem_of_union, not_elem_of_singleton. split; [by intros ->|done].
Qed.

(** Every stack derived from complete pull requests passes the validation of its event. *)
Theorem derived_stacks_valid order sum8 r pulls s :
  (∀ X, order X ≡ₚ elements X) → Forall (λ p, complete_pull p = true) pulls → s ∈ DeriveStacks order sum8 r pulls →
  validate_stack (Some s) = Ok () ∧ stackIDRange ≤ rst_ID s < 2 * stackIDRange.
Proof.
  intros Ho Hp Hs. apply (derived_class r pulls order sum8 Ho) in Hs as (c & Hc & Hs).
  destruct (stack_of_class r pulls sum8 c Hc) as (s' & Hs' & Heq & Hperm & Hh & Hst & Hid & _). rewrite Hs in Hs'. injection Hs' as <-.
  assert (Hnum : ∀ n, n ∈ rst_PullRequests s → n ∈ rpr_Number <$> pulls).
  { intros n Hn. rewrite Hperm in Hn. destruct Hc as (_ & x & Hx & Hcx). apply Hcx in Hn.
    apply (reach_dom _ (adjacent_sym r pulls)) in Hn; [|done]. apply adjacent_dom in Hn as [m Hm]. by eapply linked_number. }
  assert (Hrange : stackIDRange ≤ rst_ID s < 2 * stackIDRange).
  { rewrite Hid. unfold stackID. pose proof (Z.mod_pos_bound (sum8 (foldl (λ text n, text +:+ FormatInt n +:+ ",")
      (RecFullName r +:+ ":") (rst_PullRequests s))) stackIDRange ltac:(done)). lia. }
  split; [|done]. assert (Hpos : 0 < rst_Number s).
  { assert (Hin : rst_Number s ∈ rst_PullRequests s) by (destruct (rst_PullRequests s) as [|x l]; [done|injection Hh as ->; by left]).
    destruct (byNumber_spec pulls _ (Hnum _ Hin)) as [Hb Heqn]. rewrite Forall_forall in Hp. specialize (Hp _ Hb).
    unfold complete_pull in Hp. rewrite Heqn in Hp. destruct (rst_Number s <=? 0) eqn:Hle; [|lia]. rewrite !orb_true_r in Hp. done. }
  unfold validate_stack. unfold stackIDRange in Hrange.
  rewrite (proj2 (Z.leb_gt _ _)) by lia. rewrite (proj2 (Z.leb_gt _ _)) by lia. rewrite Hperm at 1.
  rewrite (proj2 (Nat.ltb_ge _ _)) by (by apply (class_pair r pulls)). cbn [orb]. rewrite Hst, length_map, Nat.eqb_refl. cbn [negb].
  apply validate_members_ok; [done|rewrite Heq; apply orderStackComponent_NoDup|]. intros n Hn. split; [by apply Hnum|set_solver].
Qed.

(** ** What synthesis does *)

(** [j] is based on the head of [i]. *)
Definition based_on (result : list RecPull) (j i : nat) : Prop :=
  ∃ p q, result !! j = Some p ∧ result !! i = Some q ∧ rpr_Base p = rpr_Head q.

Lemma eligible_from_elem r real pulls : ∀ index i, i ∈ eligible_from r real index pulls ↔
  ∃ k p, i = (index + k)%nat ∧ pulls !! k = Some p ∧ (rpr_Number p ∉ real) ∧ rbr_Ref (rpr_Head p) ≠ rrep_DefaultBranch r.
Proof.
  induction pulls as [|p pulls IH]; intros index i; cbn.
  { rewrite elem_of_nil. split; [done|]. by intros (k & p & _ & ? & _). }
  assert (Hsplit : (∃ k q, i = (index + k)%nat ∧ (p :: pulls) !! k = Some q ∧ (rpr_Number q ∉ real) ∧ rbr_Ref (rpr_Head q) ≠ rrep_DefaultBranch r) ↔
    (i = index ∧ (rpr_Number p ∉ real) ∧ rbr_Ref (rpr_Head p) ≠ rrep_DefaultBranch r) ∨ i ∈ eligible_from r real (S index) pulls).
  { rewrite IH. split.
    - intros ([|k] & q & -> & Hq & Hok); cbn in Hq; [left; simplify_eq; rewrite Nat.add_0_r; done|right; exists k, q; split; [lia|done]].
    - intros [(-> & Hok)|(k & q & -> & Hq & Hok)]; [exists O, p; rewrite Nat.add_0_r; done|exists (S k), q; split; [lia|done]]. }
  rewrite Hsplit. case_decide; [rewrite elem_of_cons|]; tauto.
Qed.

Lemma eligible_from_NoDup r real pulls : ∀ index, NoDup (eligible_from r real index pulls).
Proof.
  induction pulls as [|p pulls IH]; intros index; cbn; [constructor|]. case_decide; [|done]. constructor; [|done].
  rewrite eligible_from_elem. intros (k & q & ? & _). lia.
Qed.

(** The groups have every index once, in groups of two or three. *)
Lemma cut_groups_spec fuel : ∀ eligible, length eligible ≠ 1%nat → (length eligible ≤ fuel)%nat →
  mjoin (cut_groups fuel eligible) = eligible ∧ Forall (λ g, length g = 2 ∨ length g = 3)%nat (cut_groups fuel eligible).
Proof.
  induction fuel as [|fuel IH]; intros eligible H1 Hf; cbn [cut_groups]; [by destruct eligible; [|cbn in Hf; lia]|].
  destruct (length eligible <? 2)%nat eqn:Hl.
  { destruct eligible as [|x [|y l]]; [done|done|cbn in Hl; done]. }
  apply Nat.ltb_ge in Hl. set (size := if Nat.odd (length eligible) then 3%nat else 2%nat).
  assert (Hsize : (size = 2 ∨ size = 3)%nat ∧ (size ≤ length eligible)%nat ∧ (length eligible - size ≠ 1)%nat).
  { unfold size. destruct (Nat.odd (length eligible)) eqn:Ho.
    - apply Nat.odd_spec in Ho as [k Hk]. lia.
    - rewrite <- Nat.negb_even, negb_false_iff in Ho. apply Nat.even_spec in Ho as [k Hk]. lia. }
  destruct Hsize as (Hs & Hle & Hne). destruct (IH (drop size eligible)) as [IH1 IH2]; [rewrite length_drop; lia..|].
  split; [change (take size eligible ++ mjoin (cut_groups fuel (drop size eligible)) = eligible); rewrite IH1; apply take_drop|]. constructor; [|done]. rewrite length_take. lia.
Qed.

Lemma chain_spec group : ∀ result, NoDup group → (∀ i, i ∈ group → (i < length result)%nat) →
  (∀ k, k ∉ tail group → chain group result !! k = result !! k) ∧
  (∀ k, rpr_Head <$> chain group result !! k = rpr_Head <$> result !! k) ∧
  rpr_Number <$> chain group result = rpr_Number <$> result ∧
  (∀ before i j after, group = before ++ i :: j :: after → based_on (chain group result) j i).
Proof.
  induction group as [|i rest IH]; intros result Hnd Hlt; [split_and!; [done..|]; intros [|??]; done|].
  destruct rest as [|j rest]; [split_and!; [done..|]; intros [|?[|??]]; done|].
  destruct (lookup_lt_is_Some_2 result i) as [parent Hp]; [apply Hlt; by left|].
  assert (Hchain : chain (i :: j :: rest) result = chain (j :: rest) (alter (set_base (rpr_Head parent)) j result)).
  { change (chain (i :: j :: rest) result) with
      (match result !! i with Some p => chain (j :: rest) (alter (set_base (rpr_Head p)) j result) | None => result end). by rewrite Hp. }
  rewrite Hchain. clear Hchain.
  inversion_clear Hnd as [|?? Hi Hnd']. set (result' := alter (set_base (rpr_Head parent)) j result).
  assert (Hij : i ≠ j) by set_solver.
  destruct (IH result' Hnd') as (H1 & H2 & H3 & H4); [unfold result'; rewrite length_alter; intros k Hk; apply Hlt; by right|].
  assert (Hh : ∀ k, rpr_Head <$> result' !! k = rpr_Head <$> result !! k).
  { intros k. unfold result'. destruct (decide (k = j)) as [->|]; [rewrite list_lookup_alter_eq|by rewrite list_lookup_alter_ne].
    by destruct (result !! j). }
  split_and!.
  - cbn [tail]. intros k Hk. assert (k ≠ j ∧ k ∉ rest) as [Hkj Hkr] by set_solver. rewrite H1 by done. unfold result'. by rewrite list_lookup_alter_ne.
  - intros k. by rewrite H2, Hh.
  - rewrite H3. unfold result'. apply list_eq. intros k. rewrite !list_lookup_fmap.
    destruct (decide (k = j)) as [->|]; [rewrite list_lookup_alter_eq|by rewrite list_lookup_alter_ne]. by destruct (result !! j).
  - intros [|x before] i' j' after Heq; [|injection Heq as -> Heq; by eapply H4]. injection Heq as <- <- <-.
    destruct (lookup_lt_is_Some_2 result j) as [child Hc]; [apply Hlt; set_solver|].
    assert (Hj : chain (j :: rest) result' !! j = Some (set_base (rpr_Head parent) child)).
    { rewrite H1 by (inversion_clear Hnd'; done). unfold result'. by rewrite list_lookup_alter_eq, Hc. }
    pose proof (H2 i) as Hhi. rewrite Hh, Hp in Hhi. destruct (chain (j :: rest) result' !! i) as [q|] eqn:Hq; [|done].
    exists (set_base (rpr_Head parent) child), q. split_and!; [done..|]. cbn in Hhi |- *. by injection Hhi.
Qed.

Definition set_all (name : string) (group : list nat) (result : list RecPull) : list RecPull :=
  foldl (λ result i, alter (set_repositories name) i result) result group.

Lemma set_all_spec name group : ∀ result, NoDup group → ∀ k : nat,
  set_all name group result !! k = if decide (k ∈ group) then set_repositories name <$> result !! k else result !! k.
Proof.
  induction group as [|i group IH]; intros result Hnd k; [done|]. inversion_clear Hnd as [|?? Hi Hnd'].
  change (set_all name (i :: group) result) with (set_all name group (alter (set_repositories name) i result)). rewrite IH by done. destruct (decide (k = i)) as [->|Hne].
  - rewrite decide_False by done. rewrite decide_True by (by left). by rewrite list_lookup_alter_eq.
  - rewrite list_lookup_alter_ne by done. destruct (decide (k ∈ group)); [rewrite decide_True by (by right)|rewrite decide_False by set_solver]; done.
Qed.

Lemma set_numbers result group : ∀ synthetic n,
  n ∈ foldl (λ synthetic i, {[number_at result i]} ∪ synthetic) (synthetic : gset Z) group ↔ n ∈ synthetic ∨ ∃ i, i ∈ group ∧ number_at result i = n.
Proof.
  induction group as [|i group IH]; intros synthetic n; cbn; [split; [by left|]; intros [?|(i & ?%elem_of_nil & _)]; done|].
  rewrite IH, elem_of_union, elem_of_singleton. split.
  - intros [[->|?]|(j & ? & ?)]; [right; exists i; split; [by left|done]|by left|right; exists j; split; [by right|done]].
  - intros [?|(j & [->|?]%elem_of_cons & <-)]; [tauto|tauto|right; eauto].
Qed.

Lemma neighbour_in (l : list nat) i : NoDup l → (2 ≤ length l)%nat → i ∈ l →
  ∃ j before after, j ∈ l ∧ j ≠ i ∧ (l = before ++ i :: j :: after ∨ l = before ++ j :: i :: after).
Proof.
  intros Hnd Hl (before & after & ->)%list_elem_of_split. apply NoDup_app in Hnd as (_ & Hd & Hnd%NoDup_cons). destruct Hnd as [Hi _].
  destruct after as [|j after].
  - destruct before as [|j before _] using rev_ind; [cbn in Hl; lia|]. exists j, before, []. rewrite <- app_assoc.
    split_and!; [set_solver| |by right]. intros ->. apply (Hd i); set_solver.
  - exists j, before, after. split_and!; [set_solver|set_solver|by left].
Qed.

(** A group's members get the repository, and each is based on another or has another based
    on it; the rest stays as it was. *)
Lemma synthesize_group_spec name result synthetic group result' synthetic' :
  NoDup group → (∀ i, i ∈ group → (i < length result)%nat) → synthesize_group name (result, synthetic) group = (result', synthetic') →
  rpr_Number <$> result' = rpr_Number <$> result ∧
  (∀ k, k ∉ group → result' !! k = result !! k) ∧
  (∀ k, k ∈ group → rpr_Head <$> result' !! k = with_repository name ∘ rpr_Head <$> result !! k) ∧
  (∀ n, n ∈ synthetic' ↔ n ∈ synthetic ∨ ∃ i, i ∈ group ∧ number_at result i = n) ∧
  ((2 ≤ length group)%nat → ∀ i, i ∈ group → ∃ j, j ∈ group ∧ j ≠ i ∧ (based_on result' i j ∨ based_on result' j i)).
Proof.
  intros Hnd Hlt. unfold synthesize_group. intros [= <- <-]. pose proof (merge_sort_Permutation (index_le result) group) as Hp.
  revert Hp. generalize (merge_sort (index_le result) group). intros g Hp. fold (set_all name g result).
  assert (Hndg : NoDup g) by (by rewrite Hp).
  pose proof (set_all_spec name g result Hndg) as Hset.
  assert (Hnum : rpr_Number <$> set_all name g result = rpr_Number <$> result).
  { apply list_eq. intros k. rewrite !list_lookup_fmap, Hset. case_decide; [|done]. by destruct (result !! k). }
  assert (Hlen : length (set_all name g result) = length result) by (apply (f_equal length) in Hnum; by rewrite !length_fmap in Hnum).
  destruct (chain_spec g (set_all name g result) Hndg) as (H1 & H2 & H3 & H4); [intros i Hi; rewrite Hlen; apply Hlt; by rewrite <- Hp|].
  split_and!.
  - by rewrite H3.
  - intros k Hk. rewrite <- Hp in Hk. rewrite H1 by (destruct g; [done|set_solver]). by rewrite Hset, decide_False.
  - intros k Hk. rewrite <- Hp in Hk. rewrite H2, Hset, decide_True by done. by destruct (result !! k).
  - intros n. rewrite set_numbers. split; (intros [?|(i & Hi & <-)]; [by left|right; exists i; split; [by (rewrite Hp in Hi || rewrite Hp)|]]);
      unfold number_at; rewrite Hset; case_decide; try done; by destruct (result !! i).
  - intros Hl i Hi. rewrite <- Hp in Hl, Hi. destruct (neighbour_in g i Hndg Hl Hi) as (j & before & after & Hj & Hne & [Heq|Heq]);
      exists j; rewrite <- Hp; (split_and!; [done..|]); [right|left]; by eapply H4.
Qed.

Lemma number_at_ext (l l' : list RecPull) : rpr_Number <$> l = rpr_Number <$> l' → ∀ i, number_at l i = number_at l' i.
Proof.
  intros H i. apply (f_equal (.!! i)) in H. rewrite !list_lookup_fmap in H. unfold number_at. destruct (l !! i), (l' !! i); cbn in *; congruence.
Qed.

Lemma synthesize_groups_spec name groups : ∀ result synthetic result' synthetic',
  NoDup (mjoin groups) → (∀ i, i ∈ mjoin groups → (i < length result)%nat) → Forall (λ g, 2 ≤ length g)%nat groups →
  foldl (synthesize_group name) (result, synthetic) groups = (result', synthetic') →
  rpr_Number <$> result' = rpr_Number <$> result ∧
  (∀ k, k ∉ mjoin groups → result' !! k = result !! k) ∧
  (∀ k, k ∈ mjoin groups → rpr_Head <$> result' !! k = with_repository name ∘ rpr_Head <$> result !! k) ∧
  (∀ n, n ∈ synthetic' ↔ n ∈ synthetic ∨ ∃ i, i ∈ mjoin groups ∧ number_at result i = n) ∧
  (∀ i, i ∈ mjoin groups → ∃ j, j ∈ mjoin groups ∧ j ≠ i ∧ (based_on result' i j ∨ based_on result' j i)).
Proof.
  induction groups as [|g groups IH]; intros result synthetic result' synthetic' Hnd Hlt Hl Hf.
  { injection Hf as <- <-. cbn. split_and!; [done|done|by intros k ?%elem_of_nil| |by intros i ?%elem_of_nil].
    intros n. split; [by left|]. intros [?|(i & ?%elem_of_nil & _)]; done. }
  change (mjoin (g :: groups)) with (g ++ mjoin groups) in *. cbn [foldl] in Hf.
  destruct (synthesize_group name (result, synthetic) g) as [res1 syn1] eqn:Hg. apply NoDup_app in Hnd as (Hng & Hdis & Hnd). inversion_clear Hl as [|?? Hlg Hl'].
  destruct (synthesize_group_spec _ _ _ _ _ _ Hng (λ i Hi, Hlt i (proj2 (elem_of_app _ _ _) (or_introl Hi))) Hg) as (A1 & A2 & A3 & A4 & A5).
  assert (Hlen : length res1 = length result) by (apply (f_equal length) in A1; by rewrite !length_fmap in A1).
  destruct (IH res1 syn1 result' synthetic' Hnd) as (B1 & B2 & B3 & B4 & B5); [|done..|].
  { intros i Hi. rewrite Hlen. apply Hlt, elem_of_app. by right. }
  split_and!.
  - by rewrite B1.
  - intros k Hk. rewrite not_elem_of_app in Hk. rewrite B2, A2; tauto.
  - intros k [Hk|Hk]%elem_of_app; [rewrite B2 by (by apply Hdis); by apply A3|]. rewrite B3 by done. by rewrite A2 by (intros Hk'; by apply (Hdis k)).
  - intros n. rewrite B4, A4. setoid_rewrite elem_of_app. setoid_rewrite (number_at_ext _ _ A1). naive_solver.
  - intros i [Hi|Hi]%elem_of_app.
    + destruct (A5 Hlg i Hi) as (j & Hj & Hne & Hb). exists j. split_and!; [apply elem_of_app; by left|done|].
      unfold based_on in *. by rewrite (B2 i (Hdis i Hi)), (B2 j (Hdis j Hj)).
    + destruct (B5 i Hi) as (j & Hj & Hne & Hb). exists j. split_and!; [apply elem_of_app; by right|done..].
Qed.

Lemma choose_some child candidates : ∀ fallback,
  is_Some fallback ∨ (∃ c, c ∈ candidates ∧ rpr_Number c ≠ rpr_Number child) → is_Some (choose child fallback candidates).
Proof.
  induction candidates as [|c candidates IH]; intros fallback Hs; cbn; [destruct Hs as [?|(c & ?%elem_of_nil & _)]; done|].
  destruct (rpr_Number c =? rpr_Number child) eqn:Hn.
  - apply IH. destruct Hs as [?|(c' & [->|?]%elem_of_cons & ?)]; [by left|lia|right; eauto].
  - destruct (_ && _); [by eexists|]. apply IH. left. destruct fallback as [f|]; [destruct (better_fallback c f)|]; by eexists.
Qed.

(** A pull request based on the head of another is stacked. *)
Lemma based_stacked r pulls p q :
  p ∈ pulls → q ∈ pulls → rpr_Number q ≠ rpr_Number p → rpr_Base p = rpr_Head q →
  rbr_Repository (rpr_Head q) = RecFullName r → rbr_Ref (rpr_Head q) ≠ rrep_DefaultBranch r → ∃ m, stacked r pulls (rpr_Number p) m.
Proof.
  intros Hp Hq Hne Hb Hrepo Href.
  assert (Hor : or_repository r (RecFullName r) = RecFullName r) by (unfold or_repository; by destruct (String.eqb _ _)).
  destruct (choose_some p (byHead r pulls (branchKey (or_repository r (rbr_Repository (rpr_Base p))) (rbr_Ref (rpr_Base p)))) None) as [m Hm].
  { right. exists q. split; [|done]. unfold byHead. rewrite merge_sort_Permutation, list_elem_of_filter, Hb, Hrepo, Hor. done. }
  exists (rpr_Number m), p, m. done.
Qed.

(** Synthetic stacks: no pull request changes its number, one that was not chosen does not
    change at all, none that was already in a stack is chosen, and every chosen one is in a
    pair of which one is based on the other's head, and so stacked. *)
Theorem synthetic_stacks order sum8 shuffle r pulls percent seed result synthetic :
  (∀ l, shuffle seed l ≡ₚ l) → NoDup (rpr_Number <$> pulls) →
  SynthesizeStackBases order sum8 shuffle r pulls percent seed = (result, synthetic) →
  rpr_Number <$> result = rpr_Number <$> pulls ∧
  (∀ k p, pulls !! k = Some p → rpr_Number p ∉ synthetic → result !! k = Some p) ∧
  (∀ n, n ∈ synthetic → n ∉ mjoin (rst_PullRequests <$> DeriveStacks order sum8 r pulls)) ∧
  (∀ n, n ∈ synthetic → ∃ p q, p ∈ result ∧ q ∈ result ∧ rpr_Number p ∈ synthetic ∧ rpr_Number q ∈ synthetic ∧
     (n = rpr_Number p ∨ n = rpr_Number q) ∧ rpr_Base p = rpr_Head q ∧ ∃ m, stacked r result (rpr_Number p) m).
Proof.
  intros Hsh Hnd Hsyn. unfold SynthesizeStackBases in Hsyn.
  assert (Hnone : (pulls, ∅) = (result, synthetic) → rpr_Number <$> result = rpr_Number <$> pulls ∧
    (∀ k p, pulls !! k = Some p → rpr_Number p ∉ synthetic → result !! k = Some p) ∧ ∀ n, ¬ (n ∈ synthetic)).
  { intros [= <- <-]. split_and!; [done..|]. set_solver. }
  destruct (_ || _); [destruct (Hnone Hsyn) as (? & ? & Hno); split_and!; [done..| |]; by intros n ?%Hno|].
  set (real := mjoin (rst_PullRequests <$> DeriveStacks order sum8 r pulls)) in *.
  set (eligible := eligible_from r real 0 pulls) in *. set (target := synthetic_target _ _) in Hsyn.
  destruct (target <? 2) eqn:Ht; [destruct (Hnone Hsyn) as (? & ? & Hno); split_and!; [done..| |]; by intros n ?%Hno|]. clear Hnone.
  set (chosen := take (Z.to_nat target) (shuffle seed eligible)) in *.
  assert (Hchosen : ∀ i, i ∈ chosen → ∃ p, pulls !! i = Some p ∧ (rpr_Number p ∉ real) ∧ rbr_Ref (rpr_Head p) ≠ rrep_DefaultBranch r).
  { intros i Hi. unfold chosen in Hi. apply list_elem_of_lookup in Hi as [k Hk]. apply lookup_take_Some in Hk as [Hk _].
    apply list_elem_of_lookup_2 in Hk. rewrite Hsh in Hk. unfold eligible in Hk. rewrite eligible_from_elem in Hk.
    destruct Hk as (k' & p & -> & Hp & Hok). by exists p. }
  assert (Hndc : NoDup chosen).
  { apply (sublist_NoDup _ (shuffle seed eligible)); [rewrite Hsh; apply eligible_from_NoDup|apply sublist_take]. }
  assert (Hlen : (2 ≤ length chosen)%nat).
  { unfold chosen. rewrite length_take, Hsh. unfold target, synthetic_target in Ht |- *. fold eligible. lia. }
  destruct (cut_groups_spec (length chosen) chosen) as [Hjoin Hsizes]; [lia..|].
  apply synthesize_groups_spec in Hsyn as (H1 & H2 & H3 & H4 & H5); rewrite ?Hjoin in *; [|done| |].
  2: { intros i Hi. destruct (Hchosen i Hi) as (p & Hp & _). by apply lookup_lt_Some in Hp. }
  2: { eapply Forall_impl; [exact Hsizes|]. cbn. lia. }
  assert (Hmem : ∀ i, i ∈ chosen → number_at pulls i ∈ synthetic) by (intros i Hi; apply H4; right; eauto).
  split_and!.
  - done.
  - intros k p Hp Hno. rewrite H2; [done|]. intros Hk. apply Hno. replace (rpr_Number p) with (number_at pulls k); [by apply Hmem|].
    unfold number_at. by rewrite Hp.
  - intros n Hn. apply H4 in Hn as [?|(i & Hi & <-)]; [set_solver|]. destruct (Hchosen i Hi) as (p & Hp & Hreal & _).
    unfold number_at. by rewrite Hp.
  - intros n Hn. apply H4 in Hn as [?|(i & Hi & <-)]; [set_solver|]. destruct (H5 i Hi) as (j & Hj & Hij & Hb).
    assert (Hpair : ∀ a b, a ∈ chosen → b ∈ chosen → a ≠ b → based_on result a b → ∃ p q, p ∈ result ∧ q ∈ result ∧
      rpr_Number p = number_at pulls a ∧ rpr_Number q = number_at pulls b ∧ rpr_Base p = rpr_Head q ∧ ∃ m, stacked r result (rpr_Number p) m).
    { intros a b Ha Hbc Hab (p & q & Hp & Hq & Hbase). exists p, q.
      assert (Hpa : rpr_Number p = number_at pulls a) by (rewrite <- (number_at_ext _ _ H1); unfold number_at; by rewrite Hp).
      assert (Hqb : rpr_Number q = number_at pulls b) by (rewrite <- (number_at_ext _ _ H1); unfold number_at; by rewrite Hq).
      pose proof (list_elem_of_lookup_2 _ _ _ Hp). pose proof (list_elem_of_lookup_2 _ _ _ Hq). split_and!; [done..|].
      destruct (Hchosen b Hbc) as (q0 & Hq0 & _ & Href). pose proof (H3 b Hbc) as Hhead. rewrite Hq, Hq0 in Hhead. cbn in Hhead. injection Hhead as Hhead.
      apply (based_stacked r result p q); [done|done| |done|by rewrite Hhead|by rewrite Hhead]. intros Heq. apply Hab. symmetry.
      apply (NoDup_lookup (rpr_Number <$> result) b a (rpr_Number q)); [by rewrite H1|by rewrite list_lookup_fmap, Hq|].
      by rewrite list_lookup_fmap, Hp, Heq. }
    destruct Hb as [Hb|Hb]; [destruct (Hpair i j Hi Hj (not_eq_sym Hij) Hb) as (p & q & ? & ? & Hp & Hq & ? & ?)|destruct (Hpair j i Hj Hi Hij Hb) as (p & q & ? & ? & Hp & Hq & ? & ?)];
      exists p, q; rewrite Hp, Hq in *; split_and!; auto.
Qed.

(** ** Concrete stacks *)

Definition ex_pull (n : Z) (head base : string) : RecPull :=
  mkRecPull n "PR" n "t" "open" false false "a" "" "" (mkRecBranch head ("h" +:+ head) "") (mkRecBranch base "" "") 5 6 None None.

Definition ex_repo : RecRepository := mkRecRepository 1 "R_1" "acme" "app" "main" "c0" 5.

(** Four is stacked on two and two on nine; three and five are based on each other; seven is
    on the default branch. *)
Definition ex_pulls : list RecPull :=
  [ex_pull 9 "a" "main"; ex_pull 2 "b" "a"; ex_pull 4 "c" "b"; ex_pull 3 "x" "y"; ex_pull 5 "y" "x"; ex_pull 7 "z" "main"]%string.

Example ex_stacks : rst_PullRequests <$> DeriveStacks elements (λ _, 0) ex_repo ex_pulls = [[3; 5]; [9; 2; 4]].
Proof. vm_compute. reflexivity. Qed.

Lemma stacks_bases_first_witness : ∃ s, s ∈ DeriveStacks elements (λ _, 0) ex_repo ex_pulls ∧ rst_Number s = 9.
Proof.
  destruct (DeriveStacks elements (λ _, 0) ex_repo ex_pulls) as [|s1 [|s2 l]] eqn:Hd; [vm_compute in Hd; discriminate Hd..|].
  assert (Hs : s2 ∈ DeriveStacks elements (λ _, 0) ex_repo ex_pulls) by (rewrite Hd; right; left).
  exists s2. split; [right; left|]. apply (stacks_bases_first elements (λ _, 0) ex_repo ex_pulls s2 9); [done| |done| |].
  - apply (bool_decide_unpack _). vm_compute. exact I.
  - assert (rst_PullRequests s2 = [9; 2; 4]) as ->; [|left].
    pose proof ex_stacks as He. rewrite Hd in He. cbn in He. by injection He.
  - intros b (p & q & Hp & Hq & Hn & _).
    repeat (apply elem_of_cons in Hp as [->|Hp]; [vm_compute in Hn, Hq; first [discriminate Hn|discriminate Hq]|]). by apply elem_of_nil in Hp.
Defined.
