(* ===== verification/ReplayProgram.v ===== *)
(** * Compiling a recording to a replay

    [internal/replay/compiler.go]: a recording is played in laps, each lap in a number of
    copies, and every copy of every lap is a namespace of its own: identifiers and numbers
    are shifted by a stride, names, branches and hashes are rewritten. [Compile] checks the
    recording and fixes the strides, [NextLap] produces the timed steps of a lap.

    Integers are at their width: [int] and [int64] are 64 bits wide, laps, namespaces and
    step numbers are [uint64]. Arguments are [encoding/json] (the copy of an event is its
    decoded encoding), SHA-256 in hexadecimal, and the construction of a webhook's payload
    from an event with its schema check; case folding is on ASCII, and the conversion of a
    float out of range is that of amd64. *)

From Stdlib Require Import ZArith Lia Bool SpecFloat String Ascii.
From stdpp Require Import sorting strings gmap numbers base list relations.
From S2P Require Import Prelude GoStrings GoFloat Recording.

Local Open Scope Z_scope.

Definition MaxInt64 : Z := 2 ^ 63 - 1.
Definition MaxUint64 : Z := 2 ^ 64 - 1.
Definition wrapu64 (z : Z) : Z := z `mod` 2 ^ 64.

(** ** Data *)

Definition DefaultWebhookSecret : string := "ghsync-replay-secret".

Record CompileOptions : Type := mkCompileOptions {
  co_Speed : float64;
  co_Copies : Z;
  co_Loop : bool;
  co_WebhookSecret : string
}.

Record FixtureMutation : Type := mkFixtureMutation {
  fm_Kind : string;
  fm_Action : string;
  fm_Repository : RecRepository;
  fm_PullRequest : option RecPull;
  fm_Review : option RecReview;
  fm_IssueComment : option RecIssueComment;
  fm_ReviewThread : option RecReviewThread;
  fm_ReviewComment : option RecReviewComment;
  fm_CheckSuite : option RecCheckSuite;
  fm_CheckRun : option RecCheckRun;
  fm_Commit : option RecCommit;
  fm_Push : option RecPush;
  fm_Stack : option RecStack
}.

Record ReplayDelivery : Type := mkReplayDelivery {
  rd_GUID : string;
  rd_Event : string;
  rd_Action : string;
  rd_Payload : string;
  rd_Signature : string
}.

Record ReplayStep : Type := mkStep {
  sp_Seq : Z;
  sp_SourceSeq : Z;
  sp_AtMS : Z;
  sp_Copy : Z;
  sp_Lap : Z;
  sp_Mutation : FixtureMutation;
  sp_Deliveries : list ReplayDelivery
}.

Record Program : Type := mkProgram {
  pg_recording : Recording;
  pg_options : CompileOptions;
  pg_nextLap : Z;
  pg_idStride : Z;
  pg_numStride : Z;
  pg_lapSpanMS : Z;
  pg_exhausted : bool
}.

Inductive replay_error : Type :=
  | SpeedInvalid
  | CopiesInvalid
  | NoEvents
  | ReplayHeader (e : header_error)
  | ReplaySeqIndex (index : nat) (seq : Z)
  | Unordered (seq at_ : Z)
  | ReplayEvent (seq : Z) (e : event_error)
  | IDRangeOverflows
  | NumberRangeOverflows
  | TimelineOverflows
  | EndOfReplay
  | LapOverflows
  | LapTimeOverflows
  | NamespaceOverflows
  | NamespaceExceeds
  | OffsetOverflows
  | NumberOffsetOverflows
  | IDOverflows
  | NumberOverflows
  | CloneFailed
  | PayloadFailed
  | StepTimeOverflows
  | StepSequenceOverflows.

Abbreviation ok := (result replay_error).

(** ** Arithmetic *)

(** [int64(math.Round(x))]: to the nearest integer, halves away from zero. *)
Definition f64_round (x : float64) : Z :=
  match x with
  | S754_zero _ => 0
  | S754_finite s m e =>
      let v := if 0 <=? e then Zpos m * 2 ^ e else (2 * Zpos m + 2 ^ (- e)) `div` (2 * 2 ^ (- e)) in
      let v := if s then - v else v in
      if in_int64b v then v else - 2 ^ 63
  | S754_infinity _ | S754_nan => - 2 ^ 63
  end.

Definition scaleAtMS (atMS : Z) (speed : float64) : Z := f64_round (f64_div (f64_of_int atMS) speed).

Definition positiveStride (maximum : Z) : ok Z :=
  if (maximum <? 0) || (maximum =? MaxInt64) then Err IDRangeOverflows else Ok (maximum + 1).

Definition checkedLapOffset (lap span : Z) : ok Z :=
  if (span <=? 0) || (MaxInt64 `div` span <? lap) then Err LapTimeOverflows else Ok (lap * span).

Definition replayNamespace (lap copies copyIndex : Z) : ok Z :=
  if MaxUint64 `div` copies <? lap then Err NamespaceOverflows
  else
    let namespace := wrapu64 (lap * copies + copyIndex) in
    if MaxInt64 <? namespace then Err NamespaceExceeds else Ok namespace.

Definition checkedOffset (stride namespace : Z) : ok Z :=
  if (stride <=? 0) || (MaxInt64 `div` stride <? namespace) then Err OffsetOverflows else Ok (stride * namespace).

Definition addID (value offset : Z) : ok Z :=
  if (value <? 0) || (MaxInt64 - value <? offset) then Err IDOverflows else Ok (value + offset).

Definition addNumber (value offset : Z) : ok Z :=
  if (value <? 0) || (MaxInt64 - value <? offset) then Err NumberOverflows else Ok (value + offset).

(** ** Maxima *)

Definition max_all (l : list Z) : Z := foldl Z.max 0 l.

Definition ptr_list {A B} (p : option A) (f : A → list B) : list B := match p with Some a => f a | None => [] end.

(** [eventMaximumID]; each [max] is against what is listed. *)
Definition eventMaximumID (e : RecEvent) : Z :=
  max_all (ptr_list (rev_PullRequest e) (λ p, [rpr_ID p]) ++ ptr_list (rev_Review e) (λ r, [rrv_ID r])
           ++ ptr_list (rev_IssueComment e) (λ c, [ric_ID c])
           ++ ptr_list (rev_Thread e) (λ t, mjoin (map (λ c, [rcm_ID c; rcm_ReviewID c]) (rth_Comments t)))
           ++ ptr_list (rev_Comment e) (λ c, [rcm_ID c; rcm_ReviewID c])
           ++ ptr_list (rev_CheckSuite e) (λ s, [rcs_ID s]) ++ ptr_list (rev_CheckRun e) (λ r, [rcr_ID r])
           ++ ptr_list (rev_Stack e) (λ s, rst_ID s :: map rpr_ID (rst_PullRequestStates s))).

Definition eventMaximumNumber (e : RecEvent) : Z :=
  max_all (ptr_list (rev_PullRequest e) (λ p, [rpr_Number p])
           ++ ptr_list (rev_Stack e) (λ s, rst_Number s :: rst_PullRequests s ++ map rpr_Number (rst_PullRequestStates s))).

(** ** Compiling *)

Fixpoint check_events (h : RecHeader) (index : nat) (previousAt : Z) (events : list RecEvent) : ok unit :=
  match events with
  | [] => Ok ()
  | e :: events =>
      if negb (rev_Seq e =? Z.of_nat index + 1) then Err (ReplaySeqIndex index (rev_Seq e))
      else if ((index =? 0)%nat && negb (rev_AtMS e =? 0)) || ((0 <? index)%nat && (rev_AtMS e <? previousAt))
      then Err (Unordered (rev_Seq e) (rev_AtMS e))
      else
        _ ← wrap_err (ReplayEvent (rev_Seq e)) (validateEvent e);
        _ ← wrap_err (ReplayEvent (rev_Seq e)) (validateEventHeader e h);
        check_events h (S index) (rev_AtMS e) events
  end.

Definition f64_is_zero (x : float64) : bool := match x with S754_zero _ => true | _ => false end.

(** [CompileOptions] with its defaults. *)
Definition default_options (o : CompileOptions) : CompileOptions :=
  mkCompileOptions (if f64_is_zero (co_Speed o) then f64_one else co_Speed o) (if co_Copies o =? 0 then 1 else co_Copies o)
    (co_Loop o) (if empty (co_WebhookSecret o) then DefaultWebhookSecret else co_WebhookSecret o).

Definition Compile (r : Recording) (options : CompileOptions) : ok Program :=
  let options := default_options options in
  if f64_leb (co_Speed options) f64_zero || is_nan (co_Speed options) || is_inf (co_Speed options) then Err SpeedInvalid
  else if co_Copies options <? 1 then Err CopiesInvalid
  else
    match last (rec_Events r) with
    | None => Err NoEvents
    | Some final =>
        _ ← wrap_err ReplayHeader (validateHeader (rec_Header r));
        _ ← check_events (rec_Header r) 0 0 (rec_Events r);
        let maximumID := Z.max (max_all (map eventMaximumID (rec_Events r))) (rrep_ID (rhd_Repository (rec_Header r))) in
        let maximumNumber := max_all (map eventMaximumNumber (rec_Events r)) in
        idStride ← positiveStride maximumID;
        let numberStride := wrap64 (maximumNumber + 1) in
        if numberStride <=? 0 then Err NumberRangeOverflows
        else
          let scaledLastAt := scaleAtMS (rev_AtMS final) (co_Speed options) in
          if (scaledLastAt <? 0) || (scaledLastAt =? MaxInt64) then Err TimelineOverflows
          else Ok (mkProgram r options 0 idStride numberStride (Z.max (scaledLastAt + 1) 1) false)
    end.

(** ** Renumbering *)

Section renumber.
Context (encode_event : RecEvent → option string) (decode_event : string → option RecEvent) (sha256_hex : string → string).

(** [isZeroSHA]. *)
Fixpoint all_zeros (s : string) : bool :=
  match s with
  | EmptyString => true
  | String c s => Ascii.eqb c "0" && all_zeros s
  end.

Definition isZeroSHA (value : string) : bool := negb (empty value) && all_zeros value.

(** The first forty digits of the hash. *)
Definition renumberSHA (value : string) (namespace : Z) : string :=
  if empty value || isZeroSHA value then value
  else substring 0 40 (sha256_hex (FormatInt namespace +:+ ":" +:+ value)).

Definition renumberNodeID (value : string) (namespace : Z) : string :=
  if empty value then "" else value +:+ "_replay_" +:+ FormatInt namespace.

Definition renumberRepositoryName (value : string) (namespace : Z) : string := value +:+ "-replay-" +:+ FormatInt namespace.

Definition renumberFullName (value : string) (namespace : Z) : string :=
  match Cut value "/" with
  | Some (owner, name) => owner +:+ "/" +:+ renumberRepositoryName name namespace
  | None => renumberRepositoryName value namespace
  end.

Definition renumberBranchRef (ref : string) (namespace : Z) : string := "replay/" +:+ FormatInt namespace +:+ "/" +:+ ref.

Definition renumberRef (ref : string) (namespace : Z) : string :=
  if HasPrefix ref "refs/heads/" then "refs/heads/replay/" +:+ FormatInt namespace +:+ "/" +:+ TrimPrefix ref "refs/heads/"
  else "refs/replay/" +:+ FormatInt namespace +:+ "/" +:+ TrimPrefix ref "refs/".

Definition renumberBranch (b : RecBranch) (namespace : Z) (original repository : RecRepository) : RecBranch :=
  mkRecBranch (renumberBranchRef (rbr_Ref b) namespace) (renumberSHA (rbr_SHA b) namespace)
    (if empty (rbr_Repository b) || String.eqb (rbr_Repository b) (RecFullName original) then RecFullName repository
     else renumberFullName (rbr_Repository b) namespace).

Definition renumberRepository (p : Program) (lap copyIndex : Z) : ok RecRepository :=
  namespace ← replayNamespace lap (co_Copies (pg_options p)) copyIndex;
  let r := rhd_Repository (rec_Header (pg_recording p)) in
  if namespace =? 0 then Ok r
  else
    offset ← checkedOffset (pg_idStride p) namespace;
    id ← addID (rrep_ID r) offset;
    Ok (mkRecRepository id (renumberNodeID (rrep_NodeID r) namespace) (rrep_Owner r)
          (renumberRepositoryName (rrep_Name r) namespace) (renumberBranchRef (rrep_DefaultBranch r) namespace)
          (renumberSHA (rrep_DefaultBranchSHA r) namespace) (rrep_UpdatedAt r)).

(** A renumbering through a pointer. *)
Definition on_ptr {A} (f : A → ok A) (p : option A) : ok (option A) :=
  match p with None => Ok None | Some a => b ← f a; Ok (Some b) end.

Section event.
Context (offsetID offsetNumber namespace : Z) (original repository : RecRepository).

Definition renumberPullRequest (p : RecPull) : ok RecPull :=
  id ← addID (rpr_ID p) offsetID;
  number ← addNumber (rpr_Number p) offsetNumber;
  Ok (mkRecPull id (renumberNodeID (rpr_NodeID p) namespace) number (rpr_Title p) (rpr_State p) (rpr_Draft p) (rpr_Merged p)
        (rpr_AuthorLogin p) (rpr_ReviewDecision p) (rpr_MergeableState p)
        (renumberBranch (rpr_Head p) namespace original repository) (renumberBranch (rpr_Base p) namespace original repository)
        (rpr_CreatedAt p) (rpr_UpdatedAt p) (rpr_ClosedAt p) (rpr_MergedAt p)).

Definition renumberReview (r : RecReview) : ok RecReview :=
  id ← addID (rrv_ID r) offsetID;
  Ok (mkRecReview id (renumberNodeID (rrv_NodeID r) namespace) (rrv_State r) (rrv_Body r) (rrv_AuthorLogin r) (rrv_AuthorKind r)
        (rrv_AuthorNodeID r) (renumberSHA (rrv_CommitSHA r) namespace) (rrv_SubmittedAt r) (rrv_UpdatedAt r)).

Definition renumberIssueComment (c : RecIssueComment) : ok RecIssueComment :=
  id ← addID (ric_ID c) offsetID;
  Ok (mkRecIssueComment id (renumberNodeID (ric_NodeID c) namespace) (ric_AuthorKind c)
        (renumberNodeID (ric_AuthorNodeID c) namespace) (ric_AuthorLogin c) (ric_Body c) (ric_CreatedAt c) (ric_UpdatedAt c)).

Definition renumberComment (c : RecReviewComment) : ok RecReviewComment :=
  id ← addID (rcm_ID c) offsetID;
  review ← (if 0 <? rcm_ReviewID c then addID (rcm_ReviewID c) offsetID else Ok (rcm_ReviewID c));
  Ok (mkRecReviewComment id (renumberNodeID (rcm_NodeID c) namespace) review (rcm_Body c) (rcm_Path c) (rcm_Line c)
        (rcm_AuthorLogin c) (rcm_CreatedAt c) (rcm_UpdatedAt c)).

Definition renumberThread (t : RecReviewThread) : ok RecReviewThread :=
  comments ← mapM renumberComment (rth_Comments t);
  Ok (mkRecReviewThread (renumberNodeID (rth_ID t) namespace) (rth_IsResolved t) (rth_IsOutdated t) (rth_Path t) (rth_Line t) comments).

Definition renumberCheckSuite (s : RecCheckSuite) : ok RecCheckSuite :=
  id ← addID (rcs_ID s) offsetID;
  Ok (mkRecCheckSuite id (renumberNodeID (rcs_NodeID s) namespace) (renumberSHA (rcs_HeadSHA s) namespace) (rcs_Status s)
        (rcs_Conclusion s) (rcs_AppSlug s) (rcs_CreatedAt s) (rcs_UpdatedAt s)).

Definition renumberCheckRun (r : RecCheckRun) : ok RecCheckRun :=
  id ← addID (rcr_ID r) offsetID;
  Ok (mkRecCheckRun id (renumberNodeID (rcr_NodeID r) namespace) (renumberSHA (rcr_HeadSHA r) namespace) (rcr_Name r)
        (rcr_Status r) (rcr_Conclusion r) (rcr_DetailsURL r) (rcr_AppSlug r) (rcr_StartedAt r) (rcr_CompletedAt r)).

Definition renumberCommit (c : RecCommit) : ok RecCommit :=
  number ← (if 0 <? rco_PullRequestNumber c then addNumber (rco_PullRequestNumber c) offsetNumber else Ok (rco_PullRequestNumber c));
  Ok (mkRecCommit (renumberSHA (rco_SHA c) namespace) (renumberSHA (rco_ParentSHA c) namespace) (renumberRef (rco_Ref c) namespace)
        (rco_CommittedAt c) number (rco_DefaultBranch c)).

Definition renumberPush (p : RecPush) : RecPush :=
  mkRecPush (renumberRef (rpu_Ref p) namespace) (renumberSHA (rpu_Before p) namespace) (renumberSHA (rpu_After p) namespace)
    (rpu_Forced p) (rpu_DefaultBranch p) (rpu_PushedAt p).

Definition renumberStack (s : RecStack) : ok RecStack :=
  id ← addID (rst_ID s) offsetID;
  number ← addNumber (rst_Number s) offsetNumber;
  members ← mapM (λ n, addNumber n offsetNumber) (rst_PullRequests s);
  states ← mapM renumberPullRequest (rst_PullRequestStates s);
  Ok (mkRecStack id number (renumberBranch (rst_Base s) namespace original repository) members states (rst_Synthetic s)).

(** The body of [renumberEvent], on its copy of the event. *)
Definition renumber_parts (e : RecEvent) : ok RecEvent :=
  pull ← on_ptr renumberPullRequest (rev_PullRequest e);
  review ← on_ptr renumberReview (rev_Review e);
  issueComment ← on_ptr renumberIssueComment (rev_IssueComment e);
  thread ← on_ptr renumberThread (rev_Thread e);
  comment ← on_ptr renumberComment (rev_Comment e);
  suite ← on_ptr renumberCheckSuite (rev_CheckSuite e);
  run ← on_ptr renumberCheckRun (rev_CheckRun e);
  commit ← on_ptr renumberCommit (rev_Commit e);
  stack ← on_ptr renumberStack (rev_Stack e);
  Ok (mkRecEvent (rev_Seq e) (rev_AtMS e) (rev_Kind e) (rev_Action e) ((λ _, repository) <$> rev_Repository e) pull review issueComment
        thread comment suite run commit (renumberPush <$> rev_Push e) stack
        ((λ b, renumberBranch b namespace original repository) <$> rev_PreviousBase e)).
End event.

Definition cloneEvent (e : RecEvent) : ok RecEvent :=
  match encode_event e with
  | Some body => match decode_event body with Some e => Ok e | None => Err CloneFailed end
  | None => Err CloneFailed
  end.

Definition renumberEvent (p : Program) (e : RecEvent) (namespace : Z) (repository : RecRepository) : ok RecEvent :=
  if namespace =? 0 then cloneEvent e
  else
    copy ← cloneEvent e;
    offsetID ← checkedOffset (pg_idStride p) namespace;
    match checkedOffset (pg_numStride p) namespace with
    | Err _ => Err NumberOffsetOverflows
    | Ok offsetNumber =>
        renumber_parts offsetID offsetNumber namespace (rhd_Repository (rec_Header (pg_recording p))) repository copy
    end.

Definition normalizeEventForReplay (e : RecEvent) : RecEvent :=
  match rev_CheckSuite e with
  | Some s =>
      if String.eqb (ToLower (rcs_Conclusion s)) "skipped" then
        mkRecEvent (rev_Seq e) (rev_AtMS e) (rev_Kind e) (rev_Action e) (rev_Repository e) (rev_PullRequest e) (rev_Review e)
          (rev_IssueComment e) (rev_Thread e) (rev_Comment e)
          (Some (mkRecCheckSuite (rcs_ID s) (rcs_NodeID s) (rcs_HeadSHA s) (rcs_Status s) "neutral" (rcs_AppSlug s)
                   (rcs_CreatedAt s) (rcs_UpdatedAt s)))
          (rev_CheckRun e) (rev_Commit e) (rev_Push e) (rev_Stack e) (rev_PreviousBase e)
      else e
  | None => e
  end.

(** ** Deliveries *)

(** The text whose hash is the identifier of a delivery. *)
Definition guid_text (repository : string) (sourceSeq namespace lap copyIndex deliveryIndex : Z) : string :=
  repository +:+ ":" +:+ FormatInt sourceSeq +:+ ":" +:+ FormatInt namespace +:+ ":" +:+ FormatInt lap +:+ ":"
    +:+ FormatInt copyIndex +:+ ":" +:+ FormatInt deliveryIndex.

Definition deliveryGUID (repository : string) (sourceSeq namespace lap copyIndex deliveryIndex : Z) : string :=
  let hexValue := substring 0 32 (sha256_hex (guid_text repository sourceSeq namespace lap copyIndex deliveryIndex)) in
  substring 0 8 hexValue +:+ "-" +:+ substring 8 4 hexValue +:+ "-" +:+ substring 12 4 hexValue +:+ "-"
    +:+ substring 16 4 hexValue +:+ "-" +:+ substring 20 12 hexValue.

(** [payload]: [buildPayload], its encoding and the check against the schema. *)
Context (payload : RecRepository → RecEvent → option (option (string * string))) (sign : string → string → string).

Definition compileDeliveries (repository : RecRepository) (e : RecEvent) (namespace lap copyIndex : Z) (secret : string)
    : ok (list ReplayDelivery) :=
  match payload repository e with
  | None => Err PayloadFailed
  | Some None => Ok []
  | Some (Some (body, webhookEvent)) =>
      Ok [mkReplayDelivery (deliveryGUID (RecFullName repository) (rev_Seq e) namespace lap copyIndex 0) webhookEvent (rev_Action e)
            body (sign secret body)]
  end.

(** ** A lap *)

Definition mutation_of (repository : RecRepository) (e : RecEvent) : FixtureMutation :=
  mkFixtureMutation (rev_Kind e) (rev_Action e) repository (rev_PullRequest e) (rev_Review e) (rev_IssueComment e) (rev_Thread e)
    (rev_Comment e) (rev_CheckSuite e) (rev_CheckRun e) (rev_Commit e) (rev_Push e) (rev_Stack e).

(** The body of the loops over events and copies. *)
Definition lap_step (p : Program) (lap lapOffset : Z) (e : RecEvent) (copyIndex : Z) : ok ReplayStep :=
  namespace ← replayNamespace lap (co_Copies (pg_options p)) copyIndex;
  repository ← renumberRepository p lap copyIndex;
  renumbered ← renumberEvent p (normalizeEventForReplay e) namespace repository;
  deliveries ← compileDeliveries repository renumbered namespace lap copyIndex (co_WebhookSecret (pg_options p));
  let scaledAt := scaleAtMS (rev_AtMS e) (co_Speed (pg_options p)) in
  if MaxInt64 - lapOffset <? scaledAt then Err StepTimeOverflows
  else Ok (mkStep 0 (rev_Seq e) (scaledAt + lapOffset) copyIndex lap (mutation_of repository renumbered) deliveries).

Definition copies_of (p : Program) : list Z := map Z.of_nat (seq 0 (Z.to_nat (co_Copies (pg_options p)))).

Definition lap_steps (p : Program) (lap lapOffset : Z) : ok (list ReplayStep) :=
  mapM (λ ec, lap_step p lap lapOffset ec.1 ec.2) (mjoin (map (λ e, map (λ c, (e, c)) (copies_of p)) (rec_Events (pg_recording p)))).

Definition step_less (a b : ReplayStep) : bool :=
  if negb (sp_AtMS a =? sp_AtMS b) then sp_AtMS a <? sp_AtMS b
  else if negb (sp_SourceSeq a =? sp_SourceSeq b) then sp_SourceSeq a <? sp_SourceSeq b
  else sp_Copy a <? sp_Copy b.

Definition step_le (a b : ReplayStep) : Prop := step_less b a = false.

#[export] Instance step_le_dec : RelDecision step_le.
Proof. intros a b. unfold step_le. apply _. Defined.

Definition with_seq (seq : Z) (s : ReplayStep) : ReplayStep :=
  mkStep seq (sp_SourceSeq s) (sp_AtMS s) (sp_Copy s) (sp_Lap s) (sp_Mutation s) (sp_Deliveries s).

Definition NextLap (p : Program) : ok (list ReplayStep) * Program :=
  if pg_exhausted p then (Err EndOfReplay, p)
  else
    let lap := pg_nextLap p in
    if lap =? MaxUint64 then (Err LapOverflows, p)
    else
      let steps :=
        lapOffset ← checkedLapOffset lap (pg_lapSpanMS p);
        steps ← lap_steps p lap lapOffset;
        let steps := merge_sort step_le steps in
        if (0 <? length steps)%nat && (MaxUint64 `div` Z.of_nat (length steps) <? lap) then Err StepSequenceOverflows
        else
          let baseSeq := lap * Z.of_nat (length steps) in
          Ok (imap (λ index, with_seq (wrapu64 (baseSeq + Z.of_nat index + 1))) steps) in
      match steps with
      | Err e => (Err e, p)
      | Ok steps =>
          (Ok steps, mkProgram (pg_recording p) (pg_options p) (pg_nextLap p + 1) (pg_idStride p) (pg_numStride p) (pg_lapSpanMS p)
                       (pg_exhausted p || negb (co_Loop (pg_options p))))
      end.

Definition FirstLap (r : Recording) (options : CompileOptions) : ok (list ReplayStep) :=
  match Compile r options with
  | Err e => Err e
  | Ok p => match NextLap p with (Err EndOfReplay, _) => Ok [] | (steps, _) => steps end
  end.
End renumber.

(** ** What [Compile] checks *)

Lemma check_events_ok h events : ∀ index at_,
  check_events h index at_ events = Ok () ↔ in_sequence index at_ events ∧ Forall (event_ok h) events.
Proof.
  induction events as [|e events IH]; intros index at_; cbn [check_events in_sequence]; [split; [by split; [|constructor]|done]|].
  rewrite Forall_cons. unfold event_ok at 1. destruct (rev_Seq e =? _) eqn:Hs; cbn [negb]; [|split; [done|]; intros [[? _] _]; lia].
  destruct (_ || _) eqn:Ho.
  { split; [done|]. intros [(_ & H1 & H2 & _) _]. apply orb_true_iff in Ho as [Ho|Ho]; apply andb_true_iff in Ho as [Hi Ho].
    - apply Nat.eqb_eq in Hi. specialize (H1 Hi). rewrite H1 in Ho. done.
    - apply Nat.ltb_lt in Hi. specialize (H2 ltac:(lia)). lia. }
  rewrite bind_ok. setoid_rewrite wrap_err_ok. setoid_rewrite bind_ok. setoid_rewrite wrap_err_ok. setoid_rewrite IH.
  assert (Ho1 : index = O → rev_AtMS e = 0) by (intros ->; destruct (rev_AtMS e =? 0) eqn:?; [lia|done]).
  assert (Ho2 : index ≠ O → at_ ≤ rev_AtMS e).
  { intros Hi. destruct index; [done|]. cbn in Ho. lia. }
  split.
  - intros ([] & ? & [] & ? & ? & ?). split_and!; [lia|done..].
  - intros ((? & ? & ? & ?) & (? & ?) & ?). exists (). split; [done|]. exists (). done.
Qed.

Lemma max_all_from l : ∀ m, m ≤ foldl Z.max m l ∧ ∀ v, v ∈ l → v ≤ foldl Z.max m l.
Proof.
  induction l as [|x l IH]; intros m; cbn; [split; [lia|by intros v ?%elem_of_nil]|]. destruct (IH (Z.max m x)) as [H1 H2].
  split; [lia|]. intros v [->|Hv]%elem_of_cons; [lia|by apply H2].
Qed.

Lemma max_all_le l v : v ∈ l → v ≤ max_all l.
Proof. exact (proj2 (max_all_from l 0) v). Qed.

Lemma max_all_nonneg l : 0 ≤ max_all l.
Proof. exact (proj1 (max_all_from l 0)). Qed.

Record compiled (r : Recording) (p : Program) : Prop := {
  cp_recording : pg_recording p = r;
  cp_well_formed : well_formed r;
  cp_events : rec_Events r ≠ [];
  cp_copies : 1 ≤ co_Copies (pg_options p) ≤ MaxInt64;
  cp_stride e : e ∈ rec_Events r → eventMaximumID e < pg_idStride p;
  cp_repository : rrep_ID (rhd_Repository (rec_Header r)) < pg_idStride p;
  cp_numbers e : e ∈ rec_Events r → eventMaximumNumber e < pg_numStride p;
  cp_span : 1 ≤ pg_lapSpanMS p;
  cp_last e : last (rec_Events r) = Some e → pg_lapSpanMS p = scaleAtMS (rev_AtMS e) (co_Speed (pg_options p)) + 1;
  cp_lap : 0 ≤ pg_nextLap p;
  cp_speed : ∃ m e, co_Speed (pg_options p) = S754_finite false m e
}.

Lemma wrap64_succ m : 0 ≤ m → 0 < wrap64 (m + 1) → in_int64 m → wrap64 (m + 1) = m + 1.
Proof.
  intros H0 Hp Hm. destruct (decide (m = 2 ^ 63 - 1)) as [->|Hne]; [vm_compute in Hp; discriminate Hp|].
  apply wrap64_id. unfold in_int64 in *. lia.
Qed.

(** A program is compiled only from a well-formed recording, with strides above everything
    the recording names. *)
Lemma Compile_ok r options p :
  co_Copies options ≤ MaxInt64 → Forall (λ e, in_int64 (eventMaximumNumber e)) (rec_Events r) → Compile r options = Ok p → compiled r p ∧ pg_nextLap p = 0 ∧ pg_exhausted p = false.
Proof.
  intros Hc64 Hnum Hc. unfold Compile in Hc. destruct (_ || is_inf _) eqn:Hspeed; [done|]. destruct (co_Copies _ <? 1) eqn:Hcopies; [done|].
  destruct (last (rec_Events r)) as [final|] eqn:Hlast; [|done].
  rewrite bind_ok in Hc. destruct Hc as ([] & Hv & Hc). rewrite wrap_err_ok in Hv.
  rewrite bind_ok in Hc. destruct Hc as ([] & Hev & Hc). rewrite check_events_ok in Hev. destruct Hev as [Hq Hok].
  rewrite bind_ok in Hc. destruct Hc as (stride & Hst & Hc). unfold positiveStride in Hst. destruct (_ || _) eqn:Hmax in Hst; [done|].
  injection Hst as <-. destruct (wrap64 _ <=? 0) eqn:Hn; [done|]. destruct (_ || _) eqn:Ht in Hc; [done|]. injection Hc as <-.
  split; [|done]. apply orb_false_iff in Ht as [Ht _]. rewrite Forall_forall in Hnum.
  assert (Hid : ∀ e, e ∈ rec_Events r → eventMaximumID e ≤ max_all (map eventMaximumID (rec_Events r))).
  { intros e He. apply max_all_le, list_elem_of_fmap. by exists e. }
  apply Z.ltb_ge in Hcopies, Ht.
  split; cbn [pg_recording pg_options pg_nextLap pg_idStride pg_numStride pg_lapSpanMS pg_exhausted].
  - done.
  - by split.
  - by intros Hnil; rewrite Hnil in Hlast.
  - split; [done|]. unfold default_options, co_Copies at 1. destruct (_ =? 0); [done|exact Hc64].
  - intros e He. specialize (Hid e He). lia.
  - lia.
  - intros e He. assert (Hm : eventMaximumNumber e ≤ max_all (map eventMaximumNumber (rec_Events r))).
    { apply max_all_le, list_elem_of_fmap. by exists e. }
    rewrite wrap64_succ; [lia|apply max_all_nonneg|lia|].
    assert (Hall : ∀ l m, in_int64 m → (∀ e, e ∈ l → in_int64 (eventMaximumNumber e)) → in_int64 (foldl Z.max m (map eventMaximumNumber l))).
    { clear. induction l as [|x l IH]; intros m Hm Hl; [done|]. cbn. apply IH; [|intros e He; apply Hl; by right].
      specialize (Hl x ltac:(by left)). unfold in_int64 in *. lia. }
    apply Hall; [vm_compute; done|done].
  - lia.
  - intros e He. rewrite Hlast in He. injection He as <-. cbn in Ht |- *. lia.
  - lia.
  - cbn in Hspeed |- *. destruct (co_Speed options) as [b|b| |[] m ex]; cbn in Hspeed |- *; try done; [by eexists _, _|by destruct b|by exists m, ex].
Qed.

(** ** Identifiers of an event *)

Definition comment_ids (c : RecReviewComment) : list Z := rcm_ID c :: (if 0 <? rcm_ReviewID c then [rcm_ReviewID c] else []).

Definition ids_of (pull : option RecPull) (review : option RecReview) (issue : option RecIssueComment) (thread : option RecReviewThread)
    (comment : option RecReviewComment) (suite : option RecCheckSuite) (run : option RecCheckRun) (stack : option RecStack) : list Z :=
  ptr_list pull (λ p, [rpr_ID p]) ++ ptr_list review (λ r, [rrv_ID r]) ++ ptr_list issue (λ c, [ric_ID c])
  ++ ptr_list thread (λ t, mjoin (map comment_ids (rth_Comments t))) ++ ptr_list comment comment_ids
  ++ ptr_list suite (λ s, [rcs_ID s]) ++ ptr_list run (λ r, [rcr_ID r])
  ++ ptr_list stack (λ s, rst_ID s :: map rpr_ID (rst_PullRequestStates s)).

Definition numbers_of (pull : option RecPull) (commit : option RecCommit) (stack : option RecStack) : list Z :=
  ptr_list pull (λ p, [rpr_Number p])
  ++ ptr_list commit (λ c, if 0 <? rco_PullRequestNumber c then [rco_PullRequestNumber c] else [])
  ++ ptr_list stack (λ s, rst_Number s :: rst_PullRequests s ++ map rpr_Number (rst_PullRequestStates s)).

Definition event_ids (e : RecEvent) : list Z :=
  ids_of (rev_PullRequest e) (rev_Review e) (rev_IssueComment e) (rev_Thread e) (rev_Comment e) (rev_CheckSuite e) (rev_CheckRun e) (rev_Stack e).

Definition event_numbers (e : RecEvent) : list Z := numbers_of (rev_PullRequest e) (rev_Commit e) (rev_Stack e).

(** The identifiers a step names, its repository's included, and its numbers. *)
Definition step_ids (s : ReplayStep) : list Z :=
  let m := sp_Mutation s in
  rrep_ID (fm_Repository m) :: ids_of (fm_PullRequest m) (fm_Review m) (fm_IssueComment m) (fm_ReviewThread m) (fm_ReviewComment m)
    (fm_CheckSuite m) (fm_CheckRun m) (fm_Stack m).

Definition step_numbers (s : ReplayStep) : list Z :=
  let m := sp_Mutation s in numbers_of (fm_PullRequest m) (fm_Commit m) (fm_Stack m).

Lemma event_ids_max e v : v ∈ event_ids e → v ≤ eventMaximumID e.
Proof.
  intros Hv. apply max_all_le. unfold event_ids, ids_of in Hv. rewrite !elem_of_app in *.
  assert (Hc : ∀ c, v ∈ comment_ids c → v ∈ [rcm_ID c; rcm_ReviewID c]).
  { intros c. unfold comment_ids. case_match; set_solver. }
  destruct Hv as [?|[?|[?|[Hv|[Hv|[?|[?|?]]]]]]]; [tauto|tauto|tauto| | |tauto..].
  - right. right. right. left. destruct (rev_Thread e) as [t|]; [|done]. cbn in *. apply list_elem_of_join in Hv as (l & Hv & Hl).
    apply list_elem_of_fmap in Hl as (c & -> & Hl). apply list_elem_of_join. exists [rcm_ID c; rcm_ReviewID c]. split; [by apply Hc|].
    apply list_elem_of_fmap. by exists c.
  - do 4 right. left. destruct (rev_Comment e) as [c|]; [|done]. by apply Hc.
Qed.

(** *** Renumbering shifts them *)

Lemma addID_ok v o w : addID v o = Ok w → w = v + o ∧ 0 ≤ v.
Proof. unfold addID. destruct (_ || _) eqn:H; [done|]. intros [= <-]. apply orb_false_iff in H. lia. Qed.

Lemma addNumber_ok v o w : addNumber v o = Ok w → w = v + o ∧ 0 ≤ v.
Proof. unfold addNumber. destruct (_ || _) eqn:H; [done|]. intros [= <-]. apply orb_false_iff in H. lia. Qed.

Lemma mapM_result {E A B} (f : A → result E B) l : ∀ k, mapM f l = Ok k ↔ Forall2 (λ x y, f x = Ok y) l k.
Proof.
  induction l as [|x l IH]; intros k; cbn; [split; [intros [= <-]; constructor|by inversion 1]|]. rewrite bind_ok. split.
  - intros (y & Hy & H). rewrite bind_ok in H. destruct H as (k' & Hk & [= <-]). constructor; [done|by apply IH].
  - inversion 1 as [|? y ? k' Hy Hk]; subst. exists y. split; [done|]. rewrite bind_ok. exists k'. split; [by apply IH|done].
Qed.

Lemma on_ptr_ok {A} (f : A → ok A) p p' : on_ptr f p = Ok p' ↔
  match p, p' with None, None => True | Some a, Some b => f a = Ok b | _, _ => False end.
Proof.
  destruct p as [a|]; cbn; [rewrite bind_ok|]; destruct p' as [b|]; split; try done.
  - by intros (b' & Hb & [= <-]).
  - intros H. by exists b.
  - by intros (b' & Hb & [=]).
Qed.

(** A renumbering that shifts what [g] lists by [o]. *)
Definition shifts {A} (g : A → list Z) (o : Z) (f : A → ok A) : Prop := ∀ a b, f a = Ok b → g b = map (Z.add o) (g a) ∧ Forall (Z.le 0) (g a).

Lemma shifts_ptr {A} (g : A → list Z) o f p p' : shifts g o f → on_ptr f p = Ok p' →
  ptr_list p' g = map (Z.add o) (ptr_list p g) ∧ Forall (Z.le 0) (ptr_list p g).
Proof. intros Hf Hp. apply on_ptr_ok in Hp. destruct p, p'; cbn; try done. by apply Hf. Qed.

Lemma shifts_map {A} (g : A → list Z) o f l : ∀ l', shifts g o f → Forall2 (λ x y, f x = Ok y) l l' →
  mjoin (map g l') = map (Z.add o) (mjoin (map g l)) ∧ Forall (Z.le 0) (mjoin (map g l)).
Proof.
  intros l' Hf. induction 1 as [|x y l l' Hxy _ [IH1 IH2]]; [by split; [|constructor]|]. destruct (Hf x y Hxy) as [H1 H2].
  change (mjoin (map g (y :: l'))) with (g y ++ mjoin (map g l')). change (mjoin (map g (x :: l))) with (g x ++ mjoin (map g l)).
  rewrite map_app, H1, IH1. split; [done|]. by apply Forall_app.
Qed.

Lemma mjoin_singletons {A} (f : A → Z) l : mjoin (map (λ x, [f x]) l) = map f l.
Proof. induction l as [|x l IH]; [done|]. cbn. f_equal. exact IH. Qed.

Lemma shifts_each {A} (f : A → Z) o h l l' : shifts (λ x, [f x]) o h → Forall2 (λ x y, h x = Ok y) l l' →
  map f l' = map (Z.add o) (map f l) ∧ Forall (Z.le 0) (map f l).
Proof. rewrite <- (mjoin_singletons f l), <- (mjoin_singletons f l'). apply shifts_map. Qed.

Ltac binds :=
  repeat match goal with
  | H : _ ≫= _ = Ok _ |- _ => rewrite bind_ok in H; destruct H as (? & ? & H)
  | H : Ok _ = Ok _ |- _ => injection H as <-
  end.

Section shifted.
Context (sha256_hex : string → string) (offsetID offsetNumber namespace : Z) (original repository : RecRepository).
Context (Hoff : 0 ≤ offsetID) (Hnum : 0 ≤ offsetNumber).

Lemma shift_pull_id : shifts (λ p, [rpr_ID p]) offsetID (renumberPullRequest sha256_hex offsetID offsetNumber namespace original repository).
Proof. intros p q H. unfold renumberPullRequest in H. binds. apply addID_ok in H0 as [-> ?]. cbn. rewrite Z.add_comm. by repeat constructor. Qed.

Lemma shift_pull_number : shifts (λ p, [rpr_Number p]) offsetNumber (renumberPullRequest sha256_hex offsetID offsetNumber namespace original repository).
Proof. intros p q H. unfold renumberPullRequest in H. binds. apply addNumber_ok in H1 as [-> ?]. cbn. rewrite Z.add_comm. by repeat constructor. Qed.

Lemma shift_review : shifts (λ r, [rrv_ID r]) offsetID (renumberReview sha256_hex offsetID namespace).
Proof. intros p q H. unfold renumberReview in H. binds. apply addID_ok in H0 as [-> ?]. cbn. rewrite Z.add_comm. by repeat constructor. Qed.

Lemma shift_issue_comment : shifts (λ c, [ric_ID c]) offsetID (renumberIssueComment offsetID namespace).
Proof. intros p q H. unfold renumberIssueComment in H. binds. apply addID_ok in H0 as [-> ?]. cbn. rewrite Z.add_comm. by repeat constructor. Qed.

Lemma shift_comment : shifts comment_ids offsetID (renumberComment offsetID namespace).
Proof.
  intros c d H. unfold renumberComment in H. binds. apply addID_ok in H0 as [-> Hid]. unfold comment_ids. cbn [rcm_ID rcm_ReviewID].
  destruct (0 <? rcm_ReviewID c) eqn:Hr.
  - apply addID_ok in H1 as [-> ?]. rewrite (proj2 (Z.ltb_lt _ _)) by lia. cbn. rewrite !(Z.add_comm offsetID). by repeat constructor.
  - injection H1 as <-. rewrite Hr. cbn. rewrite Z.add_comm. by repeat constructor.
Qed.

Lemma shift_thread : shifts (λ t, mjoin (map comment_ids (rth_Comments t))) offsetID (renumberThread offsetID namespace).
Proof. intros t u H. unfold renumberThread in H. binds. apply mapM_result in H0. cbn. eapply shifts_map; [apply shift_comment|done]. Qed.

Lemma shift_suite : shifts (λ s, [rcs_ID s]) offsetID (renumberCheckSuite sha256_hex offsetID namespace).
Proof. intros p q H. unfold renumberCheckSuite in H. binds. apply addID_ok in H0 as [-> ?]. cbn. rewrite Z.add_comm. by repeat constructor. Qed.

Lemma shift_run : shifts (λ r, [rcr_ID r]) offsetID (renumberCheckRun sha256_hex offsetID namespace).
Proof. intros p q H. unfold renumberCheckRun in H. binds. apply addID_ok in H0 as [-> ?]. cbn. rewrite Z.add_comm. by repeat constructor. Qed.

Lemma shift_commit : shifts (λ c, if 0 <? rco_PullRequestNumber c then [rco_PullRequestNumber c] else []) offsetNumber
  (renumberCommit sha256_hex offsetNumber namespace).
Proof.
  intros c d H. unfold renumberCommit in H. binds. cbn [rco_PullRequestNumber]. destruct (0 <? rco_PullRequestNumber c) eqn:Hr.
  - apply addNumber_ok in H0 as [-> ?]. rewrite (proj2 (Z.ltb_lt _ _)) by lia. cbn. rewrite Z.add_comm. by repeat constructor.
  - injection H0 as <-. rewrite Hr. by repeat constructor.
Qed.

Lemma shift_stack_ids : shifts (λ s, rst_ID s :: map rpr_ID (rst_PullRequestStates s)) offsetID
  (renumberStack sha256_hex offsetID offsetNumber namespace original repository).
Proof.
  intros s t H. unfold renumberStack in H. binds. apply addID_ok in H0 as [-> ?]. apply mapM_result in H3.
  destruct (shifts_each _ _ _ _ _ shift_pull_id H3) as [H4 H5]. cbn [rst_ID rst_PullRequestStates map].
  split; [f_equal; [lia|done]|]. by constructor.
Qed.

Lemma shift_stack_numbers : shifts (λ s, rst_Number s :: rst_PullRequests s ++ map rpr_Number (rst_PullRequestStates s)) offsetNumber
  (renumberStack sha256_hex offsetID offsetNumber namespace original repository).
Proof.
  intros s t H. unfold renumberStack in H. binds. apply addNumber_ok in H1 as [-> ?]. apply mapM_result in H2, H3.
  destruct (shifts_each _ _ _ _ _ shift_pull_number H3) as [H4 H5].
  assert (Hadd : shifts (λ n, [n]) offsetNumber (λ n, addNumber n offsetNumber)).
  { intros a b [-> ?]%addNumber_ok. cbn. rewrite Z.add_comm. by repeat constructor. }
  destruct (shifts_each (λ n, n) _ _ _ _ Hadd H2) as [H6 H7]. rewrite (map_id (rst_PullRequests s)) in H6, H7. rewrite map_id in H6. cbn [rst_Number rst_PullRequests rst_PullRequestStates map].
  rewrite map_app. split; [f_equal; [lia|by rewrite H4, H6]|]. constructor; [done|]. by apply Forall_app.
Qed.

(** Renumbering shifts every identifier and every number of an event. *)
Lemma renumber_parts_shift e e' :
  renumber_parts sha256_hex offsetID offsetNumber namespace original repository e = Ok e' →
  (event_ids e' = map (Z.add offsetID) (event_ids e) ∧ Forall (Z.le 0) (event_ids e)) ∧
  (event_numbers e' = map (Z.add offsetNumber) (event_numbers e) ∧ Forall (Z.le 0) (event_numbers e)).
Proof.
  intros H. unfold renumber_parts in H. binds. unfold event_ids, event_numbers, ids_of, numbers_of. cbn.
  rewrite !map_app, !Forall_app.
  pose proof (shifts_ptr _ _ _ _ _ shift_pull_id H0) as [-> ?]. pose proof (shifts_ptr _ _ _ _ _ shift_pull_number H0) as [-> ?].
  pose proof (shifts_ptr _ _ _ _ _ shift_review H1) as [-> ?]. pose proof (shifts_ptr _ _ _ _ _ shift_issue_comment H2) as [-> ?].
  pose proof (shifts_ptr _ _ _ _ _ shift_thread H3) as [-> ?]. pose proof (shifts_ptr _ _ _ _ _ shift_comment H4) as [-> ?].
  pose proof (shifts_ptr _ _ _ _ _ shift_suite H5) as [-> ?]. pose proof (shifts_ptr _ _ _ _ _ shift_run H6) as [-> ?].
  pose proof (shifts_ptr _ _ _ _ _ shift_commit H7) as [-> ?]. pose proof (shifts_ptr _ _ _ _ _ shift_stack_ids H8) as [-> ?].
  pose proof (shifts_ptr _ _ _ _ _ shift_stack_numbers H8) as [-> ?]. done.
Qed.
End shifted.

(** ** Namespaces *)

Lemma checkedOffset_ok stride namespace offset : checkedOffset stride namespace = Ok offset → 0 < stride ∧ offset = stride * namespace.
Proof. unfold checkedOffset. destruct (_ || _) eqn:H; [done|]. intros [= <-]. apply orb_false_iff in H. lia. Qed.

(** Offsets that pass the check are those that fit an [int64]. *)
Lemma checkedOffset_fits stride namespace : 0 < stride → 0 ≤ namespace →
  checkedOffset stride namespace = if stride * namespace <=? MaxInt64 then Ok (stride * namespace) else Err OffsetOverflows.
Proof.
  intros Hs Hn. unfold checkedOffset. rewrite (proj2 (Z.leb_gt _ _)) by lia. cbn [orb].
  destruct (stride * namespace <=? MaxInt64) eqn:H.
  - apply Z.leb_le in H. rewrite (proj2 (Z.ltb_ge _ _)); [done|]. apply Z.div_le_lower_bound; lia.
  - apply Z.leb_gt in H. rewrite (proj2 (Z.ltb_lt _ _)); [done|]. apply Z.div_lt_upper_bound; lia.
Qed.

Section laps.
Context (encode_event : RecEvent → option string) (decode_event : string → option RecEvent) (sha256_hex : string → string)
        (payload : RecRepository → RecEvent → option (option (string * string))) (sign : string → string → string).

Abbreviation next_lap := (NextLap encode_event decode_event sha256_hex payload sign).
Abbreviation step_of := (lap_step encode_event decode_event sha256_hex payload sign).

Definition namespace_of (p : Program) (lap copy : Z) : Z := lap * co_Copies (pg_options p) + copy.

Lemma copies_elem p c : c ∈ copies_of p ↔ 0 ≤ c < co_Copies (pg_options p).
Proof.
  unfold copies_of. rewrite list_elem_of_fmap. split.
  - intros (n & -> & Hn). apply elem_of_seq in Hn. lia.
  - intros Hc. exists (Z.to_nat c). split; [lia|]. apply elem_of_seq. lia.
Qed.

(** A lap that could be computed has its namespaces within the signed range. *)
Lemma lap_steps_elem r p lap offset steps : compiled r p → 0 ≤ lap →
  lap_steps encode_event decode_event sha256_hex payload sign p lap offset = Ok steps →
  lap * co_Copies (pg_options p) ≤ MaxInt64 ∧
  ∀ s, s ∈ steps ↔ ∃ e c, e ∈ rec_Events r ∧ 0 ≤ c < co_Copies (pg_options p) ∧ step_of p lap offset e c = Ok s.
Proof.
  intros Hcp Hlap Hs. unfold lap_steps in Hs. apply mapM_result in Hs. rewrite (cp_recording _ _ Hcp) in Hs.
  assert (Hall : ∀ ec, ec ∈ mjoin (map (λ e, map (λ c, (e, c)) (copies_of p)) (rec_Events r)) ↔ ec.1 ∈ rec_Events r ∧ 0 ≤ ec.2 < co_Copies (pg_options p)).
  { intros [e c]. rewrite list_elem_of_join, <- copies_elem. split.
    - intros (l & Hl & (e' & -> & He')%list_elem_of_fmap). apply list_elem_of_fmap in Hl as (c' & [= -> ->] & Hc). done.
    - intros [He Hc]. exists (map (λ c, (e, c)) (copies_of p)). split; apply list_elem_of_fmap; [by exists c|by exists e]. }
  split.
  - pose proof (cp_events _ _ Hcp) as Hne. destruct (rec_Events r) as [|e es] eqn:Her; [done|]. clear Hne.
    pose proof (cp_copies _ _ Hcp) as Hc1.
    assert (Hin : (e, 0) ∈ mjoin (map (λ e, map (λ c, (e, c)) (copies_of p)) (e :: es))) by (apply Hall; cbn; split; [by left|lia]).
    apply list_elem_of_lookup in Hin as [i Hi]. destruct (Forall2_lookup_l _ _ _ _ _ Hs Hi) as (s & _ & Hstep). cbn in Hstep.
    unfold lap_step in Hstep. rewrite bind_ok in Hstep. destruct Hstep as (ns & Hns & _). unfold replayNamespace in Hns.
    destruct (_ <? lap) eqn:Hdiv in Hns; [done|]. apply Z.ltb_ge in Hdiv.
    assert (lap * co_Copies (pg_options p) ≤ MaxUint64).
    { transitivity (MaxUint64 `div` co_Copies (pg_options p) * co_Copies (pg_options p)); [nia|].
      rewrite Z.mul_comm. apply Z.mul_div_le. lia. }
    unfold wrapu64 in Hns. rewrite Z.add_0_r, Z.mod_small in Hns by (unfold MaxUint64 in *; nia).
    destruct (MaxInt64 <? _) eqn:Hmax in Hns; [done|]. lia.
  - intros s. rewrite list_elem_of_lookup. split.
    + intros [i Hi]. destruct (Forall2_lookup_r _ _ _ _ _ Hs Hi) as ([e c] & Hec & Hstep). exists e, c.
      apply list_elem_of_lookup_2, Hall in Hec. cbn in *. tauto.
    + intros (e & c & He & Hc & Hstep). assert (Hin : (e, c) ∈ mjoin (map (λ e, map (λ c, (e, c)) (copies_of p)) (rec_Events r))) by (by apply Hall).
      apply list_elem_of_lookup in Hin as [i Hi]. destruct (Forall2_lookup_l _ _ _ _ _ Hs Hi) as (s' & Hs' & Hstep'). exists i. cbn in *. congruence.
Qed.

Lemma replayNamespace_ok r p lap c n : compiled r p → 0 ≤ lap → lap * co_Copies (pg_options p) ≤ MaxInt64 → 0 ≤ c < co_Copies (pg_options p) →
  replayNamespace lap (co_Copies (pg_options p)) c = Ok n → n = namespace_of p lap c ∧ 0 ≤ n ≤ MaxInt64.
Proof.
  intros Hcp Hlap Hmax Hc Hn. pose proof (cp_copies _ _ Hcp) as Hcopies. unfold replayNamespace in Hn. destruct (_ <? lap) in Hn; [done|].
  unfold wrapu64 in Hn. rewrite Z.mod_small in Hn by (unfold MaxInt64 in *; nia). destruct (MaxInt64 <? _) eqn:Hm; [done|].
  injection Hn as <-. unfold namespace_of. nia.
Qed.

Lemma event_ids_normalize e : event_ids (normalizeEventForReplay e) = event_ids e ∧ event_numbers (normalizeEventForReplay e) = event_numbers e.
Proof.
  unfold normalizeEventForReplay. destruct (rev_CheckSuite e) as [s|] eqn:Hs; [|done]. destruct (String.eqb _ _); [|done].
  unfold event_ids, event_numbers. cbn. rewrite Hs. done.
Qed.

(** [encoding/json] copies an event of the recording faithfully. *)
Definition faithful_clone (r : Recording) : Prop :=
  ∀ e, e ∈ rec_Events r → cloneEvent encode_event decode_event (normalizeEventForReplay e) = Ok (normalizeEventForReplay e).

Lemma map_add_0 l : map (Z.add 0) l = l.
Proof. rewrite <- (map_id l) at 2. apply map_ext. intros. lia. Qed.

(** A step names the identifiers and numbers of its event, shifted by its namespace. *)
Lemma lap_step_shift r p lap offset e c s :
  compiled r p → faithful_clone r → 0 ≤ lap → lap * co_Copies (pg_options p) ≤ MaxInt64 → 0 ≤ c < co_Copies (pg_options p) →
  e ∈ rec_Events r → 0 < pg_idStride p → 0 < pg_numStride p → step_of p lap offset e c = Ok s →
  let n := namespace_of p lap c in
  sp_Lap s = lap ∧ sp_Copy s = c ∧ sp_SourceSeq s = rev_Seq e ∧ sp_AtMS s = scaleAtMS (rev_AtMS e) (co_Speed (pg_options p)) + offset ∧
  step_ids s = map (Z.add (pg_idStride p * n)) (rrep_ID (rhd_Repository (rec_Header r)) :: event_ids e) ∧
  (n ≠ 0 → Forall (Z.le 0) (rrep_ID (rhd_Repository (rec_Header r)) :: event_ids e)) ∧
  step_numbers s = map (Z.add (pg_numStride p * n)) (event_numbers e) ∧ (n ≠ 0 → Forall (Z.le 0) (event_numbers e)).
Proof.
  intros Hcp Hcl Hlap Hmax Hc He Hids Hnums Hs n. unfold lap_step in Hs.
  rewrite bind_ok in Hs. destruct Hs as (n' & Hn & Hs). pose proof (replayNamespace_ok r p lap c n' Hcp Hlap Hmax Hc Hn) as [-> Hrange]. fold n in Hn, Hs, Hrange. clearbody n.
  rewrite bind_ok in Hs. destruct Hs as (repo & Hrepo & Hs). rewrite bind_ok in Hs. destruct Hs as (e' & He' & Hs).
  rewrite bind_ok in Hs. destruct Hs as (ds & _ & Hs). destruct (MaxInt64 - offset <? _); [done|]. injection Hs as <-.
  unfold renumberRepository in Hrepo. rewrite Hn in Hrepo. cbn [mbind result_bind] in Hrepo. unfold renumberEvent in He'.
  rewrite (Hcl e He) in He'. destruct (event_ids_normalize e) as [Hei Hen].
  unfold step_ids, step_numbers. cbn [sp_Lap sp_Copy sp_SourceSeq sp_AtMS sp_Mutation mutation_of fm_Repository fm_PullRequest fm_Review
    fm_IssueComment fm_ReviewThread fm_ReviewComment fm_CheckSuite fm_CheckRun fm_Commit fm_Stack].
  fold (event_ids e') (event_numbers e'). rewrite (cp_recording _ _ Hcp) in *. destruct (n =? 0) eqn:Hn0.
  - apply Z.eqb_eq in Hn0. rewrite Hn0 in *. injection Hrepo as <-. injection He' as <-. rewrite !Z.mul_0_r, !map_add_0, Hei, Hen. done.
  - apply Z.eqb_neq in Hn0. rewrite bind_ok in Hrepo. destruct Hrepo as (off & Hoff & Hrepo). apply checkedOffset_ok in Hoff as Hoff'.
    destruct Hoff' as [_ Hoff']. rewrite bind_ok in Hrepo. destruct Hrepo as (id & Hid & [= <-]). apply addID_ok in Hid as [-> Hid].
    cbn [mbind result_bind] in He'. rewrite Hoff in He'. destruct (checkedOffset (pg_numStride p) n) as [offn|] eqn:Hoffn; [|done].
    apply checkedOffset_ok in Hoffn as [_ Hoffn]. cbn in He'. apply renumber_parts_shift in He' as [[H1 H2] [H3 H4]]; [|nia..].
    rewrite Hei in H1, H2. rewrite Hen in H3, H4. rewrite H1, H3, Hoff', Hoffn. cbn [rrep_ID map].
    split_and!; try done; [f_equal; lia|intros _; by constructor].
Qed.

(** *** Played laps *)

Definition played (p p' : Program) : Prop := ∃ steps, next_lap p = (Ok steps, p').

Lemma NextLap_inv p steps p' : next_lap p = (Ok steps, p') →
  ∃ offset unsorted, checkedLapOffset (pg_nextLap p) (pg_lapSpanMS p) = Ok offset ∧
    lap_steps encode_event decode_event sha256_hex payload sign p (pg_nextLap p) offset = Ok unsorted ∧
    (length unsorted ≠ O → pg_nextLap p ≤ MaxUint64 `div` Z.of_nat (length unsorted)) ∧
    steps = imap (λ index, with_seq (wrapu64 (pg_nextLap p * Z.of_nat (length unsorted) + Z.of_nat index + 1))) (merge_sort step_le unsorted) ∧
    p' = mkProgram (pg_recording p) (pg_options p) (pg_nextLap p + 1) (pg_idStride p) (pg_numStride p) (pg_lapSpanMS p)
           (pg_exhausted p || negb (co_Loop (pg_options p))) ∧ pg_exhausted p = false.
Proof.
  unfold NextLap. destruct (pg_exhausted p); [done|]. destruct (_ =? MaxUint64); [done|].
  destruct (checkedLapOffset _ _ ≫= _) as [sorted|] eqn:Hb; [|done]. intros [= <- <-].
  rewrite bind_ok in Hb. destruct Hb as (offset & Ho & Hb). rewrite bind_ok in Hb. destruct Hb as (unsorted & Hu & Hb).
  assert (Hlen : length (merge_sort step_le unsorted) = length unsorted) by (by rewrite merge_sort_Permutation). rewrite Hlen in Hb.
  destruct (_ && _) eqn:Hs; [done|]. injection Hb as <-. exists offset, unsorted. split_and!; try done.
  intros Hne. destruct (length unsorted) as [|k] eqn:Hk; [done|]. apply andb_false_iff in Hs as [Hs|Hs%Z.ltb_ge]; [done|exact Hs].
Qed.

Lemma played_compiled r p p' : compiled r p → rtc played p p' →
  compiled r p' ∧ pg_options p' = pg_options p ∧ pg_idStride p' = pg_idStride p ∧ pg_numStride p' = pg_numStride p ∧ pg_lapSpanMS p' = pg_lapSpanMS p.
Proof.
  intros Hcp Hr. revert Hcp. induction Hr as [|p q p' [steps Hq] _ IH]; [done|]. intros Hcp.
  apply NextLap_inv in Hq as (_ & _ & _ & _ & _ & _ & -> & _). apply IH. destruct Hcp. split; cbn; try done. lia.
Qed.
Lemma strides_positive r p : compiled r p → 0 < pg_idStride p ∧ 0 < pg_numStride p.
Proof.
  intros Hcp. split.
  - destruct (cp_well_formed _ _ Hcp) as [Hv _]. pose proof (cp_repository _ _ Hcp) as Hr. unfold validateHeader in Hv.
    destruct (_ || negb _) in Hv; [done|]. destruct (rrep_ID _ <=? 0) eqn:Hid in Hv; [done|]. lia.
  - pose proof (cp_events _ _ Hcp) as Hne. destruct (rec_Events r) as [|e es] eqn:Her; [done|].
    assert (e ∈ rec_Events r) as He by (rewrite Her; by left). pose proof (cp_numbers _ _ Hcp e He) as Hn.
    pose proof (max_all_nonneg (ptr_list (rev_PullRequest e) (λ p, [rpr_Number p])
      ++ ptr_list (rev_Stack e) (λ s, rst_Number s :: rst_PullRequests s ++ map rpr_Number (rst_PullRequestStates s)))) as H0.
    unfold eventMaximumNumber in Hn. lia.
Qed.

Lemma NextLap_elem r p steps p' s : compiled r p → next_lap p = (Ok steps, p') → s ∈ steps →
  ∃ e c u q offset, e ∈ rec_Events r ∧ 0 ≤ c < co_Copies (pg_options p) ∧ pg_nextLap p * co_Copies (pg_options p) ≤ MaxInt64 ∧
    checkedLapOffset (pg_nextLap p) (pg_lapSpanMS p) = Ok offset ∧ step_of p (pg_nextLap p) offset e c = Ok u ∧ s = with_seq q u.
Proof.
  intros Hcp Hl Hs. apply NextLap_inv in Hl as (offset & unsorted & Ho & Hu & _ & -> & _).
  destruct (lap_steps_elem r p _ _ _ Hcp (cp_lap _ _ Hcp) Hu) as [Hmax Hel].
  apply list_elem_of_lookup in Hs as [i Hi]. rewrite list_lookup_imap in Hi.
  destruct (merge_sort step_le unsorted !! i) as [u|] eqn:Hmi; [|done]. injection Hi as <-.
  apply list_elem_of_lookup_2 in Hmi. rewrite merge_sort_Permutation in Hmi. apply Hel in Hmi as (e & c & He & Hc & Hstep). eauto 20.
Qed.

(** The number of a commit's pull request does not exceed those of the recorded pull
    requests and stacks. *)
Definition known_commits (r : Recording) : Prop :=
  ∀ e c, e ∈ rec_Events r → rev_Commit e = Some c → ∃ e', e' ∈ rec_Events r ∧ rco_PullRequestNumber c ≤ eventMaximumNumber e'.

Lemma event_numbers_max r p e v : compiled r p → known_commits r → e ∈ rec_Events r → v ∈ event_numbers e → v < pg_numStride p.
Proof.
  intros Hcp Hk He Hv. unfold event_numbers, numbers_of in Hv. rewrite !elem_of_app in Hv.
  assert (Hmax : v ∈ ptr_list (rev_PullRequest e) (λ p, [rpr_Number p]) ++
    ptr_list (rev_Stack e) (λ s, rst_Number s :: rst_PullRequests s ++ map rpr_Number (rst_PullRequestStates s)) → v < pg_numStride p).
  { intros Hin. apply max_all_le in Hin. pose proof (cp_numbers _ _ Hcp e He) as Hn. unfold eventMaximumNumber in Hn. lia. }
  destruct Hv as [Hv|[Hv|Hv]]; [apply Hmax, elem_of_app; by left| |apply Hmax, elem_of_app; by right].
  destruct (rev_Commit e) as [c|] eqn:Hc; [|by apply elem_of_nil in Hv]. cbn in Hv.
  destruct (0 <? _); [|by apply elem_of_nil in Hv]. apply list_elem_of_singleton in Hv as ->.
  destruct (Hk e c He Hc) as (e' & He' & Hle). pose proof (cp_numbers _ _ Hcp e' He'). lia.
Qed.

Lemma shifted_apart stride n1 n2 v1 v2 : 0 ≤ n1 → 0 ≤ n2 → n1 ≠ n2 → v1 < stride → v2 < stride → 0 < stride →
  (n1 ≠ 0 → 0 ≤ v1) → (n2 ≠ 0 → 0 ≤ v2) → stride * n1 + v1 ≠ stride * n2 + v2.
Proof.
  intros H1 H2 Hne Hv1 Hv2 Hs Hp1 Hp2. destruct (Z.lt_trichotomy n1 n2) as [Hlt|[?|Hlt]]; [|done|].
  - specialize (Hp2 ltac:(lia)). assert (stride * n1 + stride ≤ stride * n2) by nia. lia.
  - specialize (Hp1 ltac:(lia)). assert (stride * n2 + stride ≤ stride * n1) by nia. lia.
Qed.

Lemma namespaces_apart copies l1 c1 l2 c2 : 0 ≤ c1 < copies → 0 ≤ c2 < copies → (l1, c1) ≠ (l2, c2) → l1 * copies + c1 ≠ l2 * copies + c2.
Proof. intros H1 H2 Hne Heq. apply Hne. assert (l1 = l2) by nia. subst. f_equal. lia. Qed.

(** Copies and laps do not meet: steps of different laps or copies share no identifier of
    an entity or repository, and no number of a pull request or stack. *)
Theorem replay_isolated r p0 p1 p2 steps1 steps2 p1' p2' s1 s2 :
  compiled r p0 → faithful_clone r → rtc played p0 p1 → rtc played p0 p2 →
  next_lap p1 = (Ok steps1, p1') → next_lap p2 = (Ok steps2, p2') → s1 ∈ steps1 → s2 ∈ steps2 →
  (sp_Lap s1, sp_Copy s1) ≠ (sp_Lap s2, sp_Copy s2) →
  (∀ v, v ∈ step_ids s1 → v ∉ step_ids s2) ∧ (known_commits r → ∀ v, v ∈ step_numbers s1 → v ∉ step_numbers s2).
Proof.
  intros Hcp Hcl H1 H2 Hl1 Hl2 Hs1 Hs2 Hne.
  destruct (played_compiled r p0 p1 Hcp H1) as (Hc1 & Ho1 & Hi1 & Hn1 & _), (played_compiled r p0 p2 Hcp H2) as (Hc2 & Ho2 & Hi2 & Hn2 & _).
  destruct (strides_positive r p0 Hcp) as [Hpos Hnpos].
  destruct (NextLap_elem r p1 steps1 p1' s1 Hc1 Hl1 Hs1) as (e1 & c1 & u1 & q1 & o1 & He1 & Hr1 & Hm1 & _ & Hst1 & ->).
  destruct (NextLap_elem r p2 steps2 p2' s2 Hc2 Hl2 Hs2) as (e2 & c2 & u2 & q2 & o2 & He2 & Hr2 & Hm2 & _ & Hst2 & ->).
  apply (lap_step_shift r) in Hst1 as (L1 & C1 & _ & _ & I1 & P1 & N1 & Q1); try done; [|apply Hc1|congruence..].
  apply (lap_step_shift r) in Hst2 as (L2 & C2 & _ & _ & I2 & P2 & N2 & Q2); try done; [|apply Hc2|congruence..].
  cbn in Hne. rewrite L1, C1, L2, C2 in Hne. rewrite Ho1 in Hr1. rewrite Ho2 in Hr2.
  pose proof (cp_lap _ _ Hc1). pose proof (cp_lap _ _ Hc2). pose proof (cp_copies _ _ Hcp).
  assert (Hns : namespace_of p1 (pg_nextLap p1) c1 ≠ namespace_of p2 (pg_nextLap p2) c2).
  { unfold namespace_of. rewrite Ho1, Ho2. by apply namespaces_apart. }
  assert (0 ≤ namespace_of p1 (pg_nextLap p1) c1) by (unfold namespace_of; rewrite Ho1; nia).
  assert (0 ≤ namespace_of p2 (pg_nextLap p2) c2) by (unfold namespace_of; rewrite Ho2; nia).
  revert I1 P1 N1 Q1 I2 P2 N2 Q2 Hns. generalize dependent (namespace_of p1 (pg_nextLap p1) c1). intros n1 Hn1' I1 P1 N1 Q1.
  generalize dependent (namespace_of p2 (pg_nextLap p2) c2). intros n2 Hn2' I2 P2 N2 Q2 Hns. rewrite Hi1, Hn1 in *. rewrite Hi2, Hn2 in *.
  assert (Hbound : ∀ e v, e ∈ rec_Events r → v ∈ rrep_ID (rhd_Repository (rec_Header r)) :: event_ids e → v < pg_idStride p0).
  { intros e v He [->|Hv]%elem_of_cons; [apply Hcp|]. apply event_ids_max in Hv. pose proof (cp_stride _ _ Hcp e He). lia. }
  split.
  - intros v Hv1 Hv2. change (step_ids (with_seq q1 u1)) with (step_ids u1) in Hv1. change (step_ids (with_seq q2 u2)) with (step_ids u2) in Hv2.
    rewrite I1 in Hv1. rewrite I2 in Hv2. apply list_elem_of_fmap in Hv1 as (v1 & -> & Hv1), Hv2 as (v2 & Heq & Hv2).
    revert Heq. apply shifted_apart; try done; [by apply (Hbound e1)|by apply (Hbound e2)| |]; intros Hz;
      [specialize (P1 Hz); rewrite Forall_forall in P1; by apply P1|specialize (P2 Hz); rewrite Forall_forall in P2; by apply P2].
  - intros Hk v Hv1 Hv2. change (step_numbers (with_seq q1 u1)) with (step_numbers u1) in Hv1.
    change (step_numbers (with_seq q2 u2)) with (step_numbers u2) in Hv2.
    rewrite N1 in Hv1. rewrite N2 in Hv2. apply list_elem_of_fmap in Hv1 as (v1 & -> & Hv1), Hv2 as (v2 & Heq & Hv2).
    revert Heq. apply shifted_apart; try done; [by apply (event_numbers_max r p0 e1)|by apply (event_numbers_max r p0 e2)| |]; intros Hz;
      [specialize (Q1 Hz); rewrite Forall_forall in Q1; by apply Q1|specialize (Q2 Hz); rewrite Forall_forall in Q2; by apply Q2].
Qed.

(** *** Time *)

#[local] Instance step_le_trans : Transitive step_le.
Proof. intros a b c. unfold step_le, step_less. repeat case_match; lia. Qed.

#[local] Instance step_le_total : Total step_le.
Proof. intros a b. unfold step_le, step_less. repeat case_match; lia. Qed.

Lemma scaleAtMS_0 m e : scaleAtMS 0 (S754_finite false m e) = 0.
Proof. done. Qed.

(** Division by the speed keeps the order of the recorded times. *)
Definition scale_ordered (r : Recording) (speed : float64) : Prop :=
  ∀ e e', e ∈ rec_Events r → e' ∈ rec_Events r → rev_AtMS e ≤ rev_AtMS e' → scaleAtMS (rev_AtMS e) speed ≤ scaleAtMS (rev_AtMS e') speed.

Lemma in_sequence_bounds events : ∀ index at_, in_sequence index at_ events → (index = O → at_ = 0) →
  ∀ e, e ∈ events → at_ ≤ rev_AtMS e ∧ ∀ l, last events = Some l → rev_AtMS e ≤ rev_AtMS l.
Proof.
  induction events as [|x events IH]; intros index at_ Hq H0 e He; [by apply elem_of_nil in He|]. destruct Hq as (_ & H1 & H2 & Hq).
  assert (Hx : at_ ≤ rev_AtMS x) by (destruct index; [rewrite (H1 eq_refl), (H0 eq_refl); lia|by apply H2]).
  assert (Hlast : ∀ l, last (x :: events) = Some l → rev_AtMS x ≤ rev_AtMS l).
  { intros l Hl. destruct events as [|y events]; [injection Hl as <-; lia|]. rewrite last_cons_cons in Hl.
    apply (IH _ _ Hq ltac:(done) l). by apply last_Some_elem_of. }
  apply elem_of_cons in He as [->|He]; [done|]. destruct (IH _ _ Hq ltac:(done) e He) as [H3 H4]. split; [lia|].
  intros l Hl. apply H4. destruct events; [by apply elem_of_nil in He|]. by rewrite last_cons_cons in Hl.
Qed.

Lemma scale_range r p e : compiled r p → scale_ordered r (co_Speed (pg_options p)) → e ∈ rec_Events r →
  0 ≤ scaleAtMS (rev_AtMS e) (co_Speed (pg_options p)) < pg_lapSpanMS p.
Proof.
  intros Hcp Hsc He. destruct (cp_well_formed _ _ Hcp) as (_ & Hq & _).
  destruct (in_sequence_bounds _ _ _ Hq ltac:(done) e He) as [H0 Hl].
  destruct (last (rec_Events r)) as [l|] eqn:Hlast.
  2: { apply last_None in Hlast. by apply (cp_events _ _ Hcp) in Hlast. }
  assert (l ∈ rec_Events r) as Hlin by (by apply last_Some_elem_of).
  pose proof (Hsc e l He Hlin (Hl l eq_refl)). rewrite (cp_last _ _ Hcp l Hlast). split; [|lia].
  destruct (rec_Events r) as [|f fs] eqn:Hev; [by apply elem_of_nil in He|]. assert (Hf : rev_AtMS f = 0) by (cbn in Hq; tauto).
  assert (Hle : scaleAtMS (rev_AtMS f) (co_Speed (pg_options p)) ≤ scaleAtMS (rev_AtMS e) (co_Speed (pg_options p))).
  { apply Hsc; rewrite ?Hev; [by left|done|lia]. }
  rewrite Hf in Hle. destruct (cp_speed _ _ Hcp) as (m & ex & Hsp). rewrite Hsp in Hle at 1. by rewrite scaleAtMS_0 in Hle.
Qed.

Lemma checkedLapOffset_ok lap span o : checkedLapOffset lap span = Ok o → o = lap * span ∧ 0 < span.
Proof. unfold checkedLapOffset. destruct (_ || _) eqn:H; [done|]. intros [= <-]. apply orb_false_iff in H. lia. Qed.

Lemma lap_steps_length r p lap o steps : compiled r p →
  lap_steps encode_event decode_event sha256_hex payload sign p lap o = Ok steps →
  Z.of_nat (length steps) = Z.of_nat (length (rec_Events r)) * co_Copies (pg_options p).
Proof.
  intros Hcp Hs. unfold lap_steps in Hs. apply mapM_result, Forall2_length in Hs. rewrite <- Hs, (cp_recording _ _ Hcp).
  pose proof (cp_copies _ _ Hcp) as Hc.
  assert (Hlen : length (copies_of p) = Z.to_nat (co_Copies (pg_options p))) by (unfold copies_of; by rewrite length_map, length_seq).
  clear Hs. induction (rec_Events r) as [|e es IH]; [done|].
  change (mjoin (map (λ e, map (λ c, (e, c)) (copies_of p)) (e :: es))) with
    (map (λ c, (e, c)) (copies_of p) ++ mjoin (map (λ e, map (λ c, (e, c)) (copies_of p)) es)).
  rewrite length_app, length_map, Hlen. cbn [length]. lia.
Qed.

(** A lap has every event in every copy, in order of time, within its own span of time, and
    numbered on from the laps before it. *)
Theorem lap_timeline r p steps p' :
  compiled r p → faithful_clone r → scale_ordered r (co_Speed (pg_options p)) → next_lap p = (Ok steps, p') →
  let n := Z.of_nat (length (rec_Events r)) * co_Copies (pg_options p) in
  Z.of_nat (length steps) = n ∧ StronglySorted step_le steps ∧
  Forall (λ s, sp_Lap s = pg_nextLap p ∧ pg_nextLap p * pg_lapSpanMS p ≤ sp_AtMS s < (pg_nextLap p + 1) * pg_lapSpanMS p) steps ∧
  (pg_nextLap p * n + n ≤ MaxUint64 → ∀ i s, steps !! i = Some s → sp_Seq s = pg_nextLap p * n + Z.of_nat i + 1) ∧
  pg_nextLap p' = pg_nextLap p + 1 ∧ (pg_exhausted p' = true ↔ co_Loop (pg_options p) = false).
Proof.
  intros Hcp Hcl Hsc Hl n. pose proof Hl as Hl0. apply NextLap_inv in Hl as (offset & unsorted & Ho & Hu & _ & Hsteps & -> & Hex).
  pose proof (lap_steps_length r p _ _ _ Hcp Hu) as Hlen. fold n in Hlen. split_and!.
  - by rewrite Hsteps, length_imap, merge_sort_Permutation.
  - rewrite Hsteps. pose proof (StronglySorted_merge_sort step_le unsorted) as Hs. clear -Hs.
    assert (Hgen : ∀ l (f : nat → Z), StronglySorted step_le l → StronglySorted step_le (imap (λ i, with_seq (f i)) l)).
    { clear. induction l as [|x l IH]; intros f Hs; [constructor|]. inversion_clear Hs as [|?? Hs' Hx]. cbn [imap].
      constructor; [by apply (IH (f ∘ S))|]. rewrite Forall_forall in *. intros y (i & Hi)%list_elem_of_lookup. rewrite list_lookup_imap in Hi.
      destruct (l !! i) as [z|] eqn:Hz; [|done]. injection Hi as <-. exact (Hx z (list_elem_of_lookup_2 _ _ _ Hz)). }
    by apply Hgen.
  - apply Forall_forall. intros s Hs. destruct (NextLap_elem r p steps _ s Hcp Hl0 Hs) as (e & c & u & q & o & He & Hc & Hm & Ho' & Hst & ->).
    destruct (strides_positive r p Hcp) as [Hp1 Hp2].
    destruct (lap_step_shift r p _ _ _ _ _ Hcp Hcl (cp_lap _ _ Hcp) Hm Hc He Hp1 Hp2 Hst) as (HL & _ & _ & Hat & _).
    apply checkedLapOffset_ok in Ho' as [-> _]. pose proof (scale_range r p e Hcp Hsc He). cbn. split; [done|]. rewrite Hat. lia.
  - intros Hmax i s Hi. rewrite Hsteps, list_lookup_imap in Hi. destruct (merge_sort step_le unsorted !! i) as [u|] eqn:Hmi; [|done].
    apply lookup_lt_Some in Hmi. rewrite merge_sort_Permutation in Hmi. injection Hi as <-. cbn. rewrite Hlen. unfold wrapu64.
    pose proof (cp_lap _ _ Hcp). apply Z.mod_small. unfold MaxUint64 in *. nia.
  - done.
  - cbn. rewrite Hex. cbn. by rewrite negb_true_iff.
Qed.

(** Laps do not overlap in time. *)
Theorem laps_ordered r p p1 p2 steps1 steps2 p2' s1 s2 :
  compiled r p → faithful_clone r → scale_ordered r (co_Speed (pg_options p)) →
  next_lap p = (Ok steps1, p1) → rtc played p1 p2 → next_lap p2 = (Ok steps2, p2') →
  s1 ∈ steps1 → s2 ∈ steps2 → sp_AtMS s1 < sp_AtMS s2.
Proof.
  intros Hcp Hcl Hsc Hl1 Hr Hl2 Hs1 Hs2.
  assert (Hp1 : compiled r p1 ∧ pg_options p1 = pg_options p ∧ pg_lapSpanMS p1 = pg_lapSpanMS p).
  { destruct (played_compiled r p p1 Hcp) as (? & ? & _ & _ & ?); [apply rtc_once; by eexists|done]. }
  destruct Hp1 as (Hc1 & Ho1 & Hspan1). destruct (played_compiled r p1 p2 Hc1 Hr) as (Hc2 & Ho2 & _ & _ & Hspan2).
  assert (Hlap : pg_nextLap p + 1 ≤ pg_nextLap p2).
  { apply NextLap_inv in Hl1 as (_ & _ & _ & _ & _ & _ & -> & _). clear -Hr.
    remember (mkProgram _ _ _ _ _ _ _) as q eqn:Hq. assert (pg_nextLap p + 1 ≤ pg_nextLap q) as Hle by (by rewrite Hq). clear Hq. revert Hle.
    induction Hr as [|q q' q2 [st Hq'] _ IH]; [done|]. intros Hle. apply IH. apply NextLap_inv in Hq' as (_ & _ & _ & _ & _ & _ & -> & _). cbn. lia. }
  pose proof (lap_timeline r p steps1 p1 Hcp Hcl Hsc Hl1) as (_ & _ & Ht1 & _).
  pose proof (lap_timeline r p2 steps2 p2' Hc2 Hcl) as Ht2. rewrite Ho2, Ho1, Hspan2, Hspan1 in Ht2. destruct (Ht2 Hsc Hl2) as (_ & _ & Ht2' & _).
  rewrite Forall_forall in Ht1, Ht2'. destruct (Ht1 s1 Hs1) as [_ H1], (Ht2' s2 Hs2) as [_ H2]. pose proof (cp_span _ _ Hcp). nia.
Qed.
End laps.

(** ** Renumbered events are valid *)

Section valid.
Context (sha256_hex : string → string) (Hsha : ∀ s, String.length (sha256_hex s) = 64%nat).
Context (offsetID offsetNumber namespace : Z) (original repository : RecRepository) (Hoff : 0 ≤ offsetID) (Hnum : 0 ≤ offsetNumber).

Lemma empty_false s : empty s = false ↔ s ≠ "".
Proof. unfold empty. apply String.eqb_neq. Qed.

Lemma empty_app a b : empty (a +:+ b) = empty a && empty b.
Proof. by destruct a. Qed.

Lemma renumberNodeID_empty s : empty (renumberNodeID s namespace) = empty s.
Proof. unfold renumberNodeID. destruct (empty s) eqn:He; [done|]. by rewrite empty_app, He. Qed.

Lemma renumberSHA_empty s : empty (renumberSHA sha256_hex s namespace) = empty s.
Proof.
  unfold renumberSHA. destruct (empty s) eqn:He; [done|]. cbn [orb]. destruct (isZeroSHA s); [done|].
  specialize (Hsha (FormatInt namespace +:+ ":" +:+ s)). destruct (sha256_hex _); [done|]. done.
Qed.

Lemma renumberBranchRef_empty s : empty (renumberBranchRef s namespace) = false.
Proof. done. Qed.

Lemma renumberRef_empty s : empty (renumberRef s namespace) = false.
Proof. unfold renumberRef. by destruct (HasPrefix _ _). Qed.

#[local] Arguments renumberNodeID : simpl never.
#[local] Arguments renumberSHA : simpl never.
#[local] Arguments renumberRef : simpl never.
#[local] Arguments empty : simpl never.

Lemma reject_ok {E} b (e : E) : reject b e = Ok () ↔ b = false.
Proof. unfold reject. by destruct b. Qed.

Lemma bind_unit {E} (m k : result E ()) : (_ ← m; k) = Ok () ↔ m = Ok () ∧ k = Ok ().
Proof. destruct m as [[]|]; cbn; split; [done|by intros [_ ?]|done|by intros [? _]]. Qed.

Lemma validParticipantActor_renumber kind node login :
  validParticipantActor kind (renumberNodeID node namespace) login = validParticipantActor kind node login.
Proof. unfold validParticipantActor. by rewrite renumberNodeID_empty. Qed.

Lemma unfit_ok {A} (f : A → ok A) (bad : A → bool) p p' : on_ptr f p = Ok p' → (∀ a b, f a = Ok b → bad a = false → bad b = false) →
  unfit p bad = false → unfit p' bad = false.
Proof. intros Hp Hf. apply on_ptr_ok in Hp. destruct p as [a|], p' as [b|]; cbn; try done. by apply Hf. Qed.

Lemma complete_pull_renumber p q :
  renumberPullRequest sha256_hex offsetID offsetNumber namespace original repository p = Ok q → complete_pull p = true → complete_pull q = true.
Proof.
  intros H. unfold renumberPullRequest in H. binds. apply addID_ok in H0 as [-> ?]. apply addNumber_ok in H1 as [-> ?].
  unfold complete_pull. cbn. rewrite !negb_true_iff, !orb_false_iff. rewrite renumberNodeID_empty, renumberSHA_empty. cbn.
  intros (((((((? & ?) & ?) & ?) & ?) & ?) & ?) & ?). split_and!; try done; lia.
Qed.

Lemma validateRecordedPull_renumber p q :
  on_ptr (renumberPullRequest sha256_hex offsetID offsetNumber namespace original repository) p = Ok q →
  validateRecordedPull p = Ok () → validateRecordedPull q = Ok ().
Proof.
  intros Hp. apply on_ptr_ok in Hp. destruct p as [a|], q as [b|]; cbn; try done.
  destruct (complete_pull a) eqn:Ha; [|done]. by rewrite (complete_pull_renumber a b Hp Ha).
Qed.

Lemma validateReviewComment_renumber c d : on_ptr (renumberComment offsetID namespace) c = Ok d →
  validateReviewComment c = Ok () → validateReviewComment d = Ok ().
Proof.
  intros Hp. apply on_ptr_ok in Hp. destruct c as [a|], d as [b|]; cbn; try done. unfold renumberComment in Hp. binds.
  apply addID_ok in H as [-> ?]. cbn. rewrite renumberNodeID_empty. destruct (_ || _) eqn:Hb; [done|]. intros _.
  match goal with |- (if ?b then _ else _) = _ => assert (b = false) as ->; [|done] end.
  rewrite !orb_false_iff in *. destruct_and!. split_and!; try done; lia.
Qed.

Lemma validate_members_renumber states : ∀ index members seen states' members' seen',
  Forall2 (λ a b, renumberPullRequest sha256_hex offsetID offsetNumber namespace original repository a = Ok b) states states' →
  Forall2 (λ a b, addNumber a offsetNumber = Ok b) members members' →
  (∀ n : Z, n + offsetNumber ∈ (seen' : gset Z) ↔ n ∈ (seen : gset Z)) →
  validate_members index states members seen = Ok () → validate_members index states' members' seen' = Ok ().
Proof.
  induction states as [|p states IH]; intros index members seen states' members' seen' Hs Hm Hseen; inversion Hs as [|? q ? states2 Hq Hs2]; subst; [done|].
  inversion Hm as [|m m' members2 members3 Hm1 Hm2]; subst; [done|]. cbn. destruct (complete_pull p) eqn:Hp; [|done].
  rewrite (complete_pull_renumber p q Hq Hp). apply addNumber_ok in Hm1 as [-> _].
  assert (Hqn : rpr_Number q = rpr_Number p + offsetNumber).
  { unfold renumberPullRequest in Hq. binds. apply addNumber_ok in H0 as [-> _]. done. }
  rewrite Hqn. destruct (rpr_Number p =? m) eqn:Heq; cbn [negb]; [|done]. rewrite (proj2 (Z.eqb_eq _ _)) by lia. cbn [negb].
  destruct (decide (rpr_Number p ∈ seen)) as [|Hns]; [done|]. rewrite decide_False by (by rewrite Hseen). apply IH; [done..|].
  intros n. rewrite !elem_of_union, !elem_of_singleton, Hseen. split; (intros [?|?]; [left; lia|by right]).
Qed.

Lemma validate_stack_renumber s t :
  on_ptr (renumberStack sha256_hex offsetID offsetNumber namespace original repository) s = Ok t → validate_stack s = Ok () → validate_stack t = Ok ().
Proof.
  intros Hp. apply on_ptr_ok in Hp. destruct s as [a|], t as [b|]; cbn; try done. unfold renumberStack in Hp. binds.
  apply addID_ok in H as [-> ?]. apply addNumber_ok in H0 as [-> ?]. apply mapM_result in H1, H2. cbn.
  pose proof (Forall2_length _ _ _ H1) as Hl1. pose proof (Forall2_length _ _ _ H2) as Hl2. rewrite <- Hl1, <- Hl2.
  destruct (_ || _) eqn:Hb; [done|]. rewrite !orb_false_iff in Hb. destruct Hb as ((? & ?) & Hlen). rewrite Hlen.
  rewrite (proj2 (Z.leb_gt _ _)), (proj2 (Z.leb_gt _ _)) by lia. cbn [orb]. destruct (negb _); [done|].
  by apply validate_members_renumber.
Qed.

Ltac fits H :=
  eapply (unfit_ok _ _ _ _ H); [|eassumption]; let a := fresh in let b := fresh in let Hf := fresh in let Hg := fresh in
  intros a b Hf Hg; cbv [renumberReview renumberIssueComment renumberThread renumberCheckSuite renumberCheckRun renumberCommit] in Hf; binds;
  repeat match goal with Hi : addID _ _ = Ok _ |- _ => apply addID_ok in Hi as [-> ?] end;
  cbn; cbn in Hg; rewrite ?renumberNodeID_empty, ?renumberSHA_empty, ?renumberRef_empty, ?validParticipantActor_renumber; rewrite ?orb_false_iff in *; destruct_and?; split_and?; try done; lia.

(** Renumbering a valid event gives a valid event. *)
Theorem renumbered_valid e e' :
  0 < rrep_ID repository → rrep_NodeID repository ≠ "" →
  renumber_parts sha256_hex offsetID offsetNumber namespace original repository e = Ok e' →
  validateEvent e = Ok () → validateEvent e' = Ok ().
Proof.
  intros Hrid Hrnode H. unfold renumber_parts in H. binds. unfold validateEvent, validate_kind.
  cbn [rev_Seq rev_AtMS rev_Kind rev_Action rev_Repository rev_PullRequest rev_Review rev_IssueComment rev_Thread rev_Comment rev_CheckSuite rev_CheckRun
    rev_Commit rev_Push rev_Stack].
  destruct (rev_Seq e <=? 0); [done|]. destruct (rev_AtMS e <? 0); [done|].
  destruct (String.eqb (rev_Kind e) "repository").
  { rewrite !reject_ok. destruct (rev_Repository e) as [repo0|]; cbn; [|done]. intros _. rewrite orb_false_iff, empty_false. split; [lia|done]. }
  destruct (String.eqb (rev_Kind e) "pull_request").
  { rewrite !bind_unit. intros [Hp ?]. split; [by eapply validateRecordedPull_renumber|done]. }
  destruct (String.eqb (rev_Kind e) "pull_request_review").
  { rewrite !bind_unit, !reject_ok. intros (Hp & Hr & ?). split_and!; [by eapply validateRecordedPull_renumber|fits H1|done]. }
  destruct (String.eqb (rev_Kind e) "issue_comment").
  { rewrite !bind_unit, !reject_ok. intros (Hp & Hr & Ha & ?). split_and!; [by eapply validateRecordedPull_renumber|fits H2|fits H2|done]. }
  destruct (String.eqb (rev_Kind e) "review_thread").
  { rewrite !bind_unit, !reject_ok. intros (Hp & Hr & ?). split_and!; [by eapply validateRecordedPull_renumber|fits H3|done]. }
  destruct (String.eqb (rev_Kind e) "review_comment").
  { rewrite !bind_unit, !reject_ok. intros (Hp & Hr & ?). split_and!; [by eapply validateRecordedPull_renumber|by eapply validateReviewComment_renumber|done]. }
  destruct (String.eqb (rev_Kind e) "check_suite"); [rewrite !bind_unit, !reject_ok; intros [Hr ?]; split; [fits H5|done]|].
  destruct (String.eqb (rev_Kind e) "check_run"); [rewrite !bind_unit, !reject_ok; intros [Hr ?]; split; [fits H6|done]|].
  destruct (String.eqb (rev_Kind e) "commit"); [rewrite !reject_ok; intros Hr; fits H7|].
  destruct (String.eqb (rev_Kind e) "push").
  { rewrite !reject_ok. destruct (rev_Push e) as [push|]; cbn; [|done]. rewrite renumberRef_empty, !renumberSHA_empty, !orb_false_iff. tauto. }
  destruct (String.eqb (rev_Kind e) "stack"); [by apply validate_stack_renumber|done].
Qed.
End valid.

(** ** Delivery identifiers *)

Lemma last_part_inj a b c d :
  ContainsByte b ":" = false → ContainsByte d ":" = false → a +:+ ":" +:+ b = c +:+ ":" +:+ d → a = c ∧ b = d.
Proof.
  intros Hb Hd. revert c. induction a as [|x a IH]; intros c Heq.
  - destruct c as [|y c]; [by injection Heq|]. cbn in Heq. injection Heq as _ Heq. rewrite append_empty in Heq. subst b. rewrite ContainsByte_app in Hb. cbn in Hb.
    by rewrite orb_true_r in Hb.
  - destruct c as [|y c]; cbn in Heq; injection Heq as -> Heq.
    + rewrite append_empty in Heq. subst d. rewrite ContainsByte_app in Hd. cbn in Hd. by rewrite orb_true_r in Hd.
    + destruct (IH c Heq) as [-> ->]. done.
Qed.

Lemma guid_text_nested r s n l c i :
  guid_text r s n l c i = ((((r +:+ ":" +:+ FormatInt s) +:+ ":" +:+ FormatInt n) +:+ ":" +:+ FormatInt l) +:+ ":" +:+ FormatInt c) +:+ ":" +:+ FormatInt i.
Proof. unfold guid_text. by rewrite !append_assoc. Qed.

(** Deliveries of different events, laps or copies are identified by hashes of different
    texts, whatever the repositories are called. *)
Theorem guid_texts_distinct r1 s1 n1 l1 c1 i1 r2 s2 n2 l2 c2 i2 :
  Forall in_int64 [s1; n1; l1; c1; i1; s2; n2; l2; c2; i2] →
  guid_text r1 s1 n1 l1 c1 i1 = guid_text r2 s2 n2 l2 c2 i2 → (r1, s1, n1, l1, c1, i1) = (r2, s2, n2, l2, c2, i2).
Proof.
  intros Hf Heq. repeat (apply Forall_cons in Hf as [? Hf]). rewrite !guid_text_nested in Heq.
  do 5 (apply last_part_inj in Heq as [Heq ?%FormatInt_inj]; [|done|done|apply FormatInt_nocolon|apply FormatInt_nocolon]). by subst.
Qed.

(** ** A concrete replay *)

Definition ex_options : CompileOptions := mkCompileOptions f64_zero 2 true "".

Definition ex_source : Recording := mkRecording (complete_header ex_header) (rec_Events ex_recording).

Definition ex_program : Program :=
  match Compile ex_source ex_options with Ok p => p | Err _ => mkProgram ex_source ex_options 0 0 0 0 true end.

Definition ex_next : Program → ok (list ReplayStep) * Program :=
  NextLap ex_encode_event ex_decode_event (λ s, s) (λ _ _, Some None) (λ _ _, "").

Definition ex_later : Program := (ex_next ex_program).2.

Definition step_summary (s : ReplayStep) : Z * Z * Z * Z * Z * list Z := (sp_Seq s, sp_SourceSeq s, sp_AtMS s, sp_Lap s, sp_Copy s, step_ids s).

Example ex_first_lap : match (ex_next ex_program).1 with Ok steps => map step_summary steps | Err _ => [] end =
  [(1, 1, 0, 0, 0, [1]); (2, 1, 0, 0, 1, [3]); (3, 2, 3, 0, 0, [1]); (4, 2, 3, 0, 1, [3])].
Proof. vm_compute. reflexivity. Qed.

Example ex_second_lap : match (ex_next ex_later).1 with Ok steps => map step_summary steps | Err _ => [] end =
  [(5, 1, 4, 1, 0, [5]); (6, 1, 4, 1, 1, [7]); (7, 2, 7, 1, 0, [5]); (8, 2, 7, 1, 1, [7])].
Proof. vm_compute. reflexivity. Qed.

Lemma ex_compiled : compiled ex_source ex_program.
Proof.
  assert (Hc : Compile ex_source ex_options = Ok ex_program) by (vm_compute; reflexivity).
  apply Compile_ok in Hc as [Hc _]; [done|vm_compute; congruence|]. apply Forall_lookup. intros i e He.
  assert (Hi : (i < 2)%nat) by (apply lookup_lt_Some in He; vm_compute in He; lia).
  destruct i as [|[|]]; [| |lia]; vm_compute in He; injection He as <-; apply in_int64b_spec; vm_compute; reflexivity.
Qed.

Lemma ex_faithful : faithful_clone ex_encode_event ex_decode_event ex_source.
Proof.
  intros e (i & He)%list_elem_of_lookup. assert (Hi : (i < 2)%nat) by (apply lookup_lt_Some in He; vm_compute in He; lia).
  destruct i as [|[|]]; [| |lia]; vm_compute in He; injection He as <-; vm_compute; reflexivity.
Qed.

Definition steps_of (x : ok (list ReplayStep) * Program) : list ReplayStep := match x.1 with Ok steps => steps | Err _ => [] end.

Lemma replay_isolated_witness : ∃ s1 s2, step_ids s1 = [1] ∧ step_ids s2 = [5] ∧ ∀ v, v ∈ step_ids s1 → v ∉ step_ids s2.
Proof.
  destruct (steps_of (ex_next ex_program)) as [|s1 l1] eqn:H1; [vm_compute in H1; discriminate H1|].
  destruct (steps_of (ex_next ex_later)) as [|s2 l2] eqn:H2; [vm_compute in H2; discriminate H2|].
  exists s1, s2. assert (Hs1 : hd_error (map step_summary (s1 :: l1)) = Some (1, 1, 0, 0, 0, [1])) by (rewrite <- H1; vm_compute; reflexivity).
  assert (Hs2 : hd_error (map step_summary (s2 :: l2)) = Some (5, 1, 4, 1, 0, [5])) by (rewrite <- H2; vm_compute; reflexivity).
  cbn [map hd_error] in Hs1, Hs2. assert (HI1 : step_ids s1 = [1]) by exact (f_equal (λ x, (default (0, 0, 0, 0, 0, []) x).2) Hs1).
  assert (HI2 : step_ids s2 = [5]) by exact (f_equal (λ x, (default (0, 0, 0, 0, 0, []) x).2) Hs2).
  assert (HL1 : sp_Lap s1 = 0) by exact (f_equal (λ x, (default (0, 0, 0, 0, 0, []) x).1.1.2) Hs1).
  assert (HL2 : sp_Lap s2 = 1) by exact (f_equal (λ x, (default (0, 0, 0, 0, 0, []) x).1.1.2) Hs2).
  split; [exact HI1|]. split; [exact HI2|].
  apply (replay_isolated ex_encode_event ex_decode_event (λ s, s) (λ _ _, Some None) (λ _ _, "") ex_source ex_program ex_program ex_later
    (s1 :: l1) (s2 :: l2) ex_later (ex_next ex_later).2).
  - apply ex_compiled.
  - apply ex_faithful.
  - apply rtc_refl.
  - apply rtc_once. exists (s1 :: l1). rewrite <- H1. vm_compute. reflexivity.
  - rewrite <- H1. vm_compute. reflexivity.
  - rewrite <- H2. vm_compute. reflexivity.
  - left.
  - left.
  - rewrite HL1, HL2. intros [=].
Defined.
