(* ===== verification/Workers.v ===== *)
(** * Job lanes, workers and the processes that run them

    [internal/queue/queue.go], the job arguments, insert options and workers of
    [internal/queue/refresh.go], the workers and schedules of [internal/sweep/sweep.go] and
    [internal/drift/drift.go], and the River wiring of [cmd/ghsyncd/main.go].

    A job has a kind and a queue; a process works the queues of its roles and has a table of
    workers by kind. The file models how the two are put together and shows that they agree:
    whatever job some part of the program inserts, a process that works the job's queue has
    the worker of its kind with what the worker needs, and the process that inserts it knows
    the kind. River's queue itself is the interface of [RefreshQueue]; the handlers and the
    services are records of operations on the world of a worker. *)

From Stdlib Require Import ZArith Lia Bool String Ascii.
From stdpp Require Import sorting strings base numbers list sets gmap.
From S2P Require Import Prelude GoStrings RefreshQueue Classify SweepSchedule GapHeal Sweep.
From S2P Require Import Derive Backfill Drift Config.

Local Open Scope Z_scope.

(** ** Queues *)

Definition QueueEvent : string := "event".
Definition QueueBulk : string := "bulk".
Definition QueueReconcile : string := "reconcile".
Definition QueueDrift : string := "drift".
Definition QueuePruner : string := "pruner".

(** ** Kinds and arguments *)

Definition KindReconcileBranchPage : string := "reconcile_branch_page".
Definition KindBackfillRepoPage : string := "backfill_repo_page".
Definition KindBackfillInstallation : string := "backfill_installation_page".
Definition jobKindKickoff : string := "sweep_kickoff".
Definition jobKindPage : string := "sweep_list_page".
Definition jobKindGapHeal : string := "sweep_gap_heal".
Definition jobKindPrune : string := "retention_prune".
Definition jobKindOrphanScan : string := "refresh_orphan_scan".
Definition jobKindDetect : string := "drift_detect".

Record KickoffArgs : Type := mkKickoff {
  ka_SweepKind : string;
  ka_Installation : Z
}.

(** The types of [JobArgs]. The first seven embed a [RefreshArgs]. *)
Inductive job_args : Type :=
  | RefreshPRArgs (a : RefreshArgs)
  | RefreshRepositoryArgs (a : RefreshArgs)
  | RefreshRepoRulesArgs (a : RefreshArgs)
  | RefreshStackArgs (a : RefreshArgs)
  | RefreshChecksArgs (a : RefreshArgs)
  | RefreshBranchArgs (a : RefreshArgs)
  | ResolveStackMembershipArgs (a : RefreshArgs)
  | BranchPage (a : page_args)
  | RepoPageArgs (a : BackfillRepoPageArgs)
  | InstallationPageArgs (a : BackfillInstallationPageArgs)
  | KickoffJob (a : KickoffArgs)
  | ListPageJob (a : ListPageArgs)
  | GapHealJob (a : GapHealArgs)
  | PruneJob
  | OrphanScanJob
  | DetectJob (a : DetectArgs).

(** The method [Kind] of each type. *)
Definition Kind (j : job_args) : string :=
  match j with
  | RefreshPRArgs _ => KindRefreshPR
  | RefreshRepositoryArgs _ => KindRefreshRepository
  | RefreshRepoRulesArgs _ => KindRefreshRepoRules
  | RefreshStackArgs _ => KindRefreshStack
  | RefreshChecksArgs _ => KindRefreshChecks
  | RefreshBranchArgs _ => KindRefreshBranch
  | ResolveStackMembershipArgs _ => KindResolveStackMembership
  | BranchPage _ => KindReconcileBranchPage
  | RepoPageArgs _ => KindBackfillRepoPage
  | InstallationPageArgs _ => KindBackfillInstallation
  | KickoffJob _ => jobKindKickoff
  | ListPageJob _ => jobKindPage
  | GapHealJob _ => jobKindGapHeal
  | PruneJob => jobKindPrune
  | OrphanScanJob => jobKindOrphanScan
  | DetectJob _ => jobKindDetect
  end.

(** The embedded pointer of a refresh job. *)
Definition refresh_of (j : job_args) : option RefreshArgs :=
  match j with
  | RefreshPRArgs a | RefreshRepositoryArgs a | RefreshRepoRulesArgs a | RefreshStackArgs a
  | RefreshChecksArgs a | RefreshBranchArgs a | ResolveStackMembershipArgs a => Some a
  | _ => None
  end.

Definition is_backfill (j : job_args) : bool :=
  match j with RepoPageArgs _ | InstallationPageArgs _ => true | _ => false end.

Definition NewRefreshPRArgs (key : string) : job_args := RefreshPRArgs (mkArgs KindRefreshPR key false).
Definition NewRefreshRepositoryArgs (key : string) : job_args :=
  RefreshRepositoryArgs (mkArgs KindRefreshRepository key false).
Definition NewRepositoryHeadArgs (key : string) : job_args :=
  RefreshRepositoryArgs (NewRefreshRepositoryHeadArgs key).
Definition NewRefreshRepoRulesArgs (key : string) : job_args :=
  RefreshRepoRulesArgs (mkArgs KindRefreshRepoRules key false).
Definition NewRefreshStackArgs (key : string) : job_args := RefreshStackArgs (mkArgs KindRefreshStack key false).
Definition NewRefreshChecksArgs (key : string) : job_args := RefreshChecksArgs (mkArgs KindRefreshChecks key false).
Definition NewRefreshBranchArgs (key : string) : job_args := RefreshBranchArgs (mkArgs KindRefreshBranch key false).
Definition NewResolveStackMembershipArgs (key : string) : job_args :=
  ResolveStackMembershipArgs (mkArgs KindResolveStackMembership key false).

Definition NewBackfillRepoPageArgs (installationID : Z) (repoFullName phase : string) (page : Z) : job_args :=
  RepoPageArgs (mkRepoPage installationID repoFullName phase page).
Definition NewBackfillInstallationPageArgs (installationID : Z) (phase : string) (page : Z) : job_args :=
  InstallationPageArgs (mkInstallationPage installationID phase page).
Definition NewBranchReconcilePageArgs (repoID : Z) (repoFullName branch : string) (generation page : Z)
    (targets : list branch_target) : job_args :=
  BranchPage (mkPage repoID repoFullName branch generation page targets).

(** [argsForSpec], with the type of the arguments it builds. *)
Definition jobForSpec (s : RefreshSpec) : result queue_error job_args :=
  let kind := sp_Kind s in
  if String.eqb kind KindRefreshPR then Ok (NewRefreshPRArgs (sp_Key s))
  else if String.eqb kind KindRefreshRepository then Ok (NewRefreshRepositoryArgs (sp_Key s))
  else if String.eqb kind KindRefreshRepoRules then Ok (NewRefreshRepoRulesArgs (sp_Key s))
  else if String.eqb kind KindRefreshStack then Ok (NewRefreshStackArgs (sp_Key s))
  else if String.eqb kind KindRefreshChecks then Ok (NewRefreshChecksArgs (sp_Key s))
  else if String.eqb kind KindRefreshBranch then Ok (NewRefreshBranchArgs (sp_Key s))
  else if String.eqb kind KindResolveStackMembership then Ok (NewResolveStackMembershipArgs (sp_Key s))
  else Err UnsupportedKind.

(** ** Insert options *)

Inductive job_state : Type :=
  | Available | PendingJob | Retryable | Running | Scheduled | Completed | Cancelled | Discarded.

#[export] Instance job_state_eq_dec : EqDecision job_state.
Proof. solve_decision. Defined.

Record insert_opts : Type := mkInsertOpts {
  io_Queue : string;
  io_Priority : Z;
  io_ScheduledAt : time;
  io_ByArgs : bool;
  io_ByState : list job_state
}.

Definition live_states : list job_state := [Available; PendingJob; Retryable; Running; Scheduled].

Definition NewRefreshInsertOptsForQueue (queueName : string) (scheduledAt : time) : insert_opts :=
  mkInsertOpts queueName 1 scheduledAt true live_states.
Definition NewRefreshInsertOpts (scheduledAt : time) : insert_opts := NewRefreshInsertOptsForQueue QueueEvent scheduledAt.
Definition NewBackfillInsertOptsForQueue (queueName : string) : insert_opts :=
  mkInsertOpts queueName 1 zero_time true live_states.
Definition NewBackfillInsertOpts : insert_opts := NewBackfillInsertOptsForQueue QueueInteractive.
Definition periodicInsertOpts (queueName : string) : insert_opts := mkInsertOpts queueName 1 zero_time false [].
Definition listPageInsertOpts : insert_opts := mkInsertOpts QueueReconcile 1 zero_time true live_states.
Definition gapContinuationInsertOpts (scheduledAt : time) : insert_opts :=
  mkInsertOpts QueueReconcile 1 scheduledAt true live_states.

(** ** Schedules *)

(** A [river.PeriodicJob]; the constructor of its job is given the lease token that
    [newGapLeaseToken] draws at that call. *)
Record periodic_job : Type := mkPeriodic {
  pj_Interval : duration;
  pj_New : string → job_args * insert_opts;
  pj_ID : string;
  pj_RunOnStart : bool
}.

Definition kickoffPeriodic (c : SweepSchedule.Config) (kind : string) (bound : duration) : periodic_job :=
  mkPeriodic (Cadence (scheduleForBound bound))
    (λ _, (KickoffJob (mkKickoff kind (InstallationID c)), periodicInsertOpts QueueReconcile))
    ("ghsync_sweep_" +:+ kind) true.

Definition ReconciliationPeriodicJobs (c : SweepSchedule.Config) : list periodic_job :=
  [kickoffPeriodic c KindStacks (OpenStackMaxStaleness c);
   kickoffPeriodic c KindPullRequests (OpenPRMaxStaleness c);
   kickoffPeriodic c KindRepoRules (RepoRulesMaxStaleness c);
   kickoffPeriodic c KindClosed (ClosedMaxStaleness c);
   kickoffPeriodic c KindRepositories (RepositoryListPeriod c);
   mkPeriodic (GapHealPeriod c)
     (λ token, (GapHealJob (mkGapArgs (InstallationID c) "" token), periodicInsertOpts QueueReconcile))
     "ghsync_gap_heal" true;
   mkPeriodic (orphanScanPeriod c) (λ _, (OrphanScanJob, periodicInsertOpts QueueReconcile))
     "ghsync_refresh_orphan_scan" true].

Definition PrunerPeriodicJobs (c : SweepSchedule.Config) : list periodic_job :=
  [mkPeriodic (RetentionPeriod c) (λ _, (PruneJob, periodicInsertOpts QueuePruner)) "ghsync_retention_prune" true].

Definition DriftPeriodicJobs (c : detect_config) : list periodic_job :=
  [mkPeriodic (dc_Period c) (λ _, (DetectJob (Drift.PeriodicJobs c), mkInsertOpts QueueDrift 1 zero_time false []))
     "ghsync_drift_detect" true].

Definition allPeriodicJobs (cfg : Config.Config) : list periodic_job :=
  ReconciliationPeriodicJobs (sweepConfig cfg) ++ PrunerPeriodicJobs (sweepConfig cfg) ++
  DriftPeriodicJobs (driftConfig cfg).

(** ** The world of a worker *)

Section world.
Context {R : River} {X L E : Type}.
(** [errors.Is] against [ErrRefreshGenerationSuperseded] and [errGapHealLeaseLost]. *)
Context (is_superseded is_lease_lost : E → bool).

(** The queue's tables, the rest of what handlers read and write, and what observers have
    recorded. *)
Record world : Type := mkWorld {
  wd_tables : RefreshQueue.tables;
  wd_rest : X;
  wd_log : L
}.

Definition set_tables (d : RefreshQueue.tables) (w : world) : world := mkWorld d (wd_rest w) (wd_log w).
Definition set_log (l : L) (w : world) : world := mkWorld (wd_tables w) (wd_rest w) l.

(** What a worker returns: the error of its callback, or one of its own. *)
Inductive work_error : Type :=
  | CallbackError (e : E)
  | SnapshotFailed
  | CompletionFailed
  | NotConfigured (kind : string).

Record RefreshObservation : Type := mkObservation {
  ob_Kind : string;
  ob_Queue : string;
  ob_EventReceivedAt : time;
  ob_CacheCommittedAt : time;
  ob_StartedAt : time;
  ob_CompletedAt : time;
  ob_Superseded : bool;
  ob_Err : option work_error
}.

(** The arguments of [RefreshDeadlineMissed]. *)
Record deadline_miss : Type := mkMiss {
  dm_Kind : string;
  dm_Key : string;
  dm_Deadline : time;
  dm_CompletedAt : time
}.

Abbreviation DeadlineObserver := (deadline_miss → L → L).
Abbreviation RefreshObserver := (RefreshObservation → L → L).

(** [DeadlineObservers.RefreshDeadlineMissed]: every observer that is not nil, in order. *)
Definition DeadlineObservers (observers : list (option DeadlineObserver)) : DeadlineObserver := λ miss l,
  foldl (λ l observer, match observer with Some f => f miss l | None => l end) l observers.

Record refreshDeadlineMonitor : Type := mkMonitor {
  mo_deadlineObserver : option DeadlineObserver;
  mo_refreshObserver : option RefreshObserver
}.

Definition observeRefresh (m : refreshDeadlineMonitor) (o : RefreshObservation) (w : world) : world :=
  match mo_refreshObserver m with
  | None => w
  | Some f => set_log (f o (wd_log w)) w
  end.

(** ** Handlers *)

Record RefreshRequest : Type := mkRequest {
  rr_Args : RefreshArgs;
  rr_Queue : string
}.

(** What the context of an attempt carries: the event and the generation fence. *)
Record work_context : Type := mkContext {
  wc_event : time;
  wc_fence : option (identity * Z)
}.

(** The result of a callback, with the commit time it left in its context. *)
Record work_return : Type := mkReturn {
  wr_err : option E;
  wr_committed : time
}.

Abbreviation refresh_callback := (work_context → RefreshRequest → world → work_return * world).

Record RefreshHandler : Type := mkHandler {
  RefreshPR : refresh_callback;
  RefreshRepository : refresh_callback;
  RefreshRepoRules : refresh_callback;
  RefreshStack : refresh_callback;
  RefreshChecks : refresh_callback;
  RefreshBranch : refresh_callback;
  ReconcileBranchPage : page_args → world → option E * world;
  ResolveStackMembership : refresh_callback;
  BackfillRepoPage : BackfillRepoPageArgs → world → option E * world;
  BackfillInstallationPage : BackfillInstallationPageArgs → world → option E * world
}.

(** The operations of [sweep.Service] and [drift.Service] that workers call. *)
Record SweepService : Type := mkSweepService {
  sv_Kickoff : KickoffArgs → world → option E * world;
  sv_ReconcilePage : ListPageArgs → world → option E * world;
  sv_HealDeliveryGaps : GapHealArgs → world → option E * world;
  sv_Prune : world → option E * world;
  sv_ReconcileRefreshOrphans : world → option E * world
}.

Abbreviation DriftService := (DetectArgs → world → option E * world).

(** ** An attempt at a refresh *)

(** The clock readings of an attempt (the database's at completion, the worker's two) and
    whether its snapshot and its completion transaction succeed. *)
Record attempt_env : Type := mkEnv {
  en_now : time;
  en_started : time;
  en_finished : time;
  en_snapshot : bool;
  en_complete : bool
}.

Definition or_zero (t : option time) : time := match t with Some t => t | None => zero_time end.

(** [runRefresh] on job [id] of queue [queueName]. *)
Definition runRefresh (env : attempt_env) (work : option (work_context → RefreshArgs → world → work_return * world))
    (id : Z) (queueName : string) (a : RefreshArgs) (m : refreshDeadlineMonitor) (w : world)
    : option work_error * world :=
  if negb (en_snapshot env) then (Some SnapshotFailed, w)
  else
    let row := gens (wd_tables w) !! args_identity a in
    let started := current_generation (gens (wd_tables w)) (args_identity a) in
    let event := or_zero (row ≫= event_received_at) in
    let deadline := row ≫= deadline_at in
    match work with
    | None => (Some (NotConfigured (PointerKind a)), w)
    | Some work =>
        let ctx := mkContext event (if 0 <? started then Some (args_identity a, started) else None) in
        let '(ret, w1) := work ctx a w in
        let observe superseded err :=
          observeRefresh m (mkObservation (PointerKind a) queueName event (wr_committed ret) (en_started env)
                              (en_finished env) superseded err) in
        let finish superseded :=
          if negb (en_complete env)
          then (Some CompletionFailed, observe superseded (Some CompletionFailed) w1)
          else
            let w2 := set_tables (completeRefresh (en_now env) id a queueName started (wd_tables w1)) w1 in
            let w3 := observe superseded None w2 in
            (None,
             match mo_deadlineObserver m, deadline with
             | Some f, Some d =>
                 if After (en_finished env) d
                 then set_log (f (mkMiss (PointerKind a) (Key a) d (en_finished env)) (wd_log w3)) w3
                 else w3
             | _, _ => w3
             end) in
        match wr_err ret with
        | Some e =>
            if is_superseded e then finish true
            else (Some (CallbackError e), observe false (Some (CallbackError e)) w1)
        | None => finish false
        end
    end.

(** ** Workers *)

Inductive worker : Type :=
  | refreshPRWorker (handler : option RefreshHandler) (m : refreshDeadlineMonitor)
  | refreshRepositoryWorker (handler : option RefreshHandler) (m : refreshDeadlineMonitor)
  | refreshRepoRulesWorker (handler : option RefreshHandler) (m : refreshDeadlineMonitor)
  | refreshStackWorker (handler : option RefreshHandler) (m : refreshDeadlineMonitor)
  | refreshChecksWorker (handler : option RefreshHandler) (m : refreshDeadlineMonitor)
  | refreshBranchWorker (handler : option RefreshHandler) (m : refreshDeadlineMonitor)
  | branchReconcilePageWorker (handler : option RefreshHandler)
  | resolveStackMembershipWorker (handler : option RefreshHandler) (m : refreshDeadlineMonitor)
  | backfillRepoPageWorker (handler : option RefreshHandler) (m : refreshDeadlineMonitor)
  | backfillInstallationPageWorker (handler : option RefreshHandler) (m : refreshDeadlineMonitor)
  | kickoffWorker (service : SweepService)
  | listPageWorker (service : SweepService)
  | gapHealWorker (service : SweepService)
  | orphanScanWorker (service : SweepService)
  | pruneWorker (service : SweepService)
  | driftWorker (service : DriftService).

Record job : Type := mkJob {
  jb_ID : Z;
  jb_Queue : string;
  jb_Args : job_args
}.

(** The closure a refresh worker passes to [runRefresh]: absent without a handler. *)
Definition callback (handler : option RefreshHandler) (method : RefreshHandler → refresh_callback) (queueName : string)
    : option (work_context → RefreshArgs → world → work_return * world) :=
  (λ h ctx a, method h ctx (mkRequest a queueName)) <$> handler.

Definition lift (r : option E * world) : option work_error * world := (CallbackError <$> r.1, r.2).

(** The two backfill workers: no generation row, one observation. *)
Definition observed_page (env : attempt_env) (m : refreshDeadlineMonitor) (kind queueName : string)
    (r : option E * world) : option work_error * world :=
  let err := CallbackError <$> r.1 in
  (err, observeRefresh m (mkObservation kind queueName zero_time zero_time (en_started env) (en_finished env) false err) r.2).

(** The method [Work] of each worker; [None] when the job's arguments are of another type. *)
Definition Work (env : attempt_env) (k : worker) (j : job) (w : world) : option (option work_error * world) :=
  let q := jb_Queue j in
  let refresh handler method m a := Some (runRefresh env (callback handler method q) (jb_ID j) q a m w) in
  match k, jb_Args j with
  | refreshPRWorker h m, RefreshPRArgs a => refresh h RefreshPR m a
  | refreshRepositoryWorker h m, RefreshRepositoryArgs a => refresh h RefreshRepository m a
  | refreshRepoRulesWorker h m, RefreshRepoRulesArgs a => refresh h RefreshRepoRules m a
  | refreshStackWorker h m, RefreshStackArgs a => refresh h RefreshStack m a
  | refreshChecksWorker h m, RefreshChecksArgs a => refresh h RefreshChecks m a
  | refreshBranchWorker h m, RefreshBranchArgs a => refresh h RefreshBranch m a
  | resolveStackMembershipWorker h m, ResolveStackMembershipArgs a => refresh h ResolveStackMembership m a
  | branchReconcilePageWorker h, BranchPage a =>
      Some match h with
           | None => (Some (NotConfigured KindReconcileBranchPage), w)
           | Some h => lift (ReconcileBranchPage h a w)
           end
  | backfillRepoPageWorker h m, RepoPageArgs a =>
      Some match h with
           | None => (Some (NotConfigured KindBackfillRepoPage), w)
           | Some h => observed_page env m KindBackfillRepoPage q (BackfillRepoPage h a w)
           end
  | backfillInstallationPageWorker h m, InstallationPageArgs a =>
      Some match h with
           | None => (Some (NotConfigured KindBackfillInstallation), w)
           | Some h => observed_page env m KindBackfillInstallation q (BackfillInstallationPage h a w)
           end
  | kickoffWorker s, KickoffJob a => Some (lift (sv_Kickoff s a w))
  | listPageWorker s, ListPageJob a => Some (lift (sv_ReconcilePage s a w))
  | gapHealWorker s, GapHealJob a =>
      let '(err, w) := sv_HealDeliveryGaps s a w in
      Some (match err with
            | Some e => if is_lease_lost e then None else Some (CallbackError e)
            | None => None
            end, w)
  | orphanScanWorker s, OrphanScanJob => Some (lift (sv_ReconcileRefreshOrphans s w))
  | pruneWorker s, PruneJob => Some (lift (sv_Prune s w))
  | driftWorker s, DetectJob a => Some (lift (s a w))
  | _, _ => None
  end.

(** The kind a worker is registered under: that of its argument type. *)
Definition worker_kind (k : worker) : string :=
  match k with
  | refreshPRWorker _ _ => KindRefreshPR
  | refreshRepositoryWorker _ _ => KindRefreshRepository
  | refreshRepoRulesWorker _ _ => KindRefreshRepoRules
  | refreshStackWorker _ _ => KindRefreshStack
  | refreshChecksWorker _ _ => KindRefreshChecks
  | refreshBranchWorker _ _ => KindRefreshBranch
  | branchReconcilePageWorker _ => KindReconcileBranchPage
  | resolveStackMembershipWorker _ _ => KindResolveStackMembership
  | backfillRepoPageWorker _ _ => KindBackfillRepoPage
  | backfillInstallationPageWorker _ _ => KindBackfillInstallation
  | kickoffWorker _ => jobKindKickoff
  | listPageWorker _ => jobKindPage
  | gapHealWorker _ => jobKindGapHeal
  | orphanScanWorker _ => jobKindOrphanScan
  | pruneWorker _ => jobKindPrune
  | driftWorker _ => jobKindDetect
  end.

(** [river.Workers]. [AddWorker] panics on a kind that is registered already. *)
Abbreviation workers := (gmap string worker).

Inductive client_error : Type :=
  | DuplicateWorker (kind : string)
  | UnsupportedQueue (name : string)
  | NoWorkers (name : string).

Definition AddWorker (k : worker) (ws : workers) : result client_error workers :=
  match ws !! worker_kind k with
  | Some _ => Err (DuplicateWorker (worker_kind k))
  | None => Ok (<[worker_kind k := k]> ws)
  end.

Fixpoint add_workers (ks : list worker) (ws : workers) : result client_error workers :=
  match ks with
  | [] => Ok ws
  | k :: ks => ws ← AddWorker k ws; add_workers ks ws
  end.

Definition refresh_workers (handler : option RefreshHandler) (m : refreshDeadlineMonitor) : list worker :=
  [refreshPRWorker handler m; refreshRepositoryWorker handler m; refreshRepoRulesWorker handler m;
   refreshStackWorker handler m; refreshChecksWorker handler m; refreshBranchWorker handler m;
   branchReconcilePageWorker handler; resolveStackMembershipWorker handler m; backfillRepoPageWorker handler m;
   backfillInstallationPageWorker handler m].

Definition registerRefreshWorkers (handler : option RefreshHandler) (deadlineObserver : option DeadlineObserver)
    (refreshObserver : option RefreshObserver) (ws : workers) : result client_error workers :=
  add_workers (refresh_workers handler (mkMonitor deadlineObserver refreshObserver)) ws.

Definition RegisterReconciliationWorkers (s : SweepService) (ws : workers) : result client_error workers :=
  add_workers [kickoffWorker s; listPageWorker s; gapHealWorker s; orphanScanWorker s] ws.
Definition RegisterPrunerWorker (s : SweepService) (ws : workers) : result client_error workers :=
  add_workers [pruneWorker s] ws.
Definition RegisterDriftWorker (s : DriftService) (ws : workers) : result client_error workers :=
  add_workers [driftWorker s] ws.

(** ** Clients *)

(** The plugins and the clock are left out: an attempt is given its clock readings. *)
Record clientOptions : Type := mkClientOptions {
  co_refreshHandler : option RefreshHandler;
  co_registerRefreshWorker : bool;
  co_registrars : list (workers → result client_error workers);
  co_periodicJobs : list periodic_job;
  co_queueNames : list string;
  co_queuesExplicit : bool;
  co_maxWorkers : gmap string Z;
  co_deadlineObserver : option DeadlineObserver;
  co_refreshObserver : option RefreshObserver
}.

Abbreviation ClientOption := (clientOptions → clientOptions).

Definition WithRefreshHandler (handler : RefreshHandler) : ClientOption := λ o,
  mkClientOptions (Some handler) (co_registerRefreshWorker o) (co_registrars o) (co_periodicJobs o) (co_queueNames o)
    (co_queuesExplicit o) (co_maxWorkers o) (co_deadlineObserver o) (co_refreshObserver o).
Definition WithoutRefreshWorkers : ClientOption := λ o,
  mkClientOptions (co_refreshHandler o) false (co_registrars o) (co_periodicJobs o) (co_queueNames o)
    (co_queuesExplicit o) (co_maxWorkers o) (co_deadlineObserver o) (co_refreshObserver o).
Definition WithQueues (names : list string) : ClientOption := λ o,
  mkClientOptions (co_refreshHandler o) (co_registerRefreshWorker o) (co_registrars o) (co_periodicJobs o) names
    true (co_maxWorkers o) (co_deadlineObserver o) (co_refreshObserver o).
Definition WithQueueMaxWorkers (queueName : string) (maxWorkers : Z) : ClientOption := λ o,
  mkClientOptions (co_refreshHandler o) (co_registerRefreshWorker o) (co_registrars o) (co_periodicJobs o) (co_queueNames o)
    (co_queuesExplicit o) (<[queueName := maxWorkers]> (co_maxWorkers o)) (co_deadlineObserver o) (co_refreshObserver o).
Definition WithDeadlineObserver (observer : DeadlineObserver) : ClientOption := λ o,
  mkClientOptions (co_refreshHandler o) (co_registerRefreshWorker o) (co_registrars o) (co_periodicJobs o) (co_queueNames o)
    (co_queuesExplicit o) (co_maxWorkers o) (Some observer) (co_refreshObserver o).
Definition WithRefreshObserver (observer : RefreshObserver) : ClientOption := λ o,
  mkClientOptions (co_refreshHandler o) (co_registerRefreshWorker o) (co_registrars o) (co_periodicJobs o) (co_queueNames o)
    (co_queuesExplicit o) (co_maxWorkers o) (co_deadlineObserver o) (Some observer).
Definition WithWorkerRegistrar (registrar : workers → result client_error workers) : ClientOption := λ o,
  mkClientOptions (co_refreshHandler o) (co_registerRefreshWorker o) (co_registrars o ++ [registrar]) (co_periodicJobs o)
    (co_queueNames o) (co_queuesExplicit o) (co_maxWorkers o) (co_deadlineObserver o) (co_refreshObserver o).
Definition WithPeriodicJobs (jobs : list periodic_job) : ClientOption := λ o,
  mkClientOptions (co_refreshHandler o) (co_registerRefreshWorker o) (co_registrars o) (co_periodicJobs o ++ jobs)
    (co_queueNames o) (co_queuesExplicit o) (co_maxWorkers o) (co_deadlineObserver o) (co_refreshObserver o).

(** The [river.Config] handed to [river.NewClient]. *)
Record river_config : Type := mkRiverConfig {
  rc_PeriodicJobs : list periodic_job;
  rc_Queues : gmap string Z;
  rc_Workers : workers
}.

Definition defaultMaxWorkers (name : string) : option Z :=
  if String.eqb name QueueInteractive then Some 4
  else if String.eqb name QueueEvent then Some 8
  else if String.eqb name QueueBulk then Some 4
  else if String.eqb name QueueSweep then Some 4
  else if String.eqb name QueueReconcile then Some 2
  else if String.eqb name QueueDrift then Some 1
  else if String.eqb name QueuePruner then Some 1
  else None.

Fixpoint client_queues (maxWorkers : gmap string Z) (names : list string) (queues : gmap string Z)
    : result client_error (gmap string Z) :=
  match names with
  | [] => Ok queues
  | name :: names =>
      match defaultMaxWorkers name with
      | None => Err (UnsupportedQueue name)
      | Some n =>
          let override := default 0 (maxWorkers !! name) in
          let n := if override =? 0 then n else override in
          if n <=? 0 then Err (NoWorkers name) else client_queues maxWorkers names (<[name := n]> queues)
      end
  end.

Definition run_registrars (rs : list (workers → result client_error workers)) (ws : workers)
    : result client_error workers :=
  foldl (λ acc register, ws ← acc; register ws) (Ok ws) rs.

Definition NewClient (options : list ClientOption) : result client_error river_config :=
  let o := foldl (λ o option, option o) (mkClientOptions None true [] [] [] false ∅ None None) options in
  ws ← (if co_registerRefreshWorker o
        then registerRefreshWorkers (co_refreshHandler o) (co_deadlineObserver o) (co_refreshObserver o) ∅
        else Ok ∅);
  ws ← run_registrars (co_registrars o) ws;
  let names := if co_queuesExplicit o then co_queueNames o
               else [QueueInteractive; QueueEvent; QueueBulk; QueueSweep] in
  queues ← client_queues (co_maxWorkers o) names ∅;
  Ok (mkRiverConfig (co_periodicJobs o) queues ws).

(** ** The clients of the commands *)

Definition refreshWorkerOptions (roles : gset string) : list ClientOption :=
  if bool_decide ("fetch" ∈ roles) || bool_decide ("dispatch" ∈ roles) then [] else [WithoutRefreshWorkers].

(** Whether [serve] starts its client. *)
Definition worksJobs (roles : gset string) : bool :=
  bool_decide ("fetch" ∈ roles) || bool_decide ("sweep" ∈ roles) || bool_decide ("drift" ∈ roles)
  || bool_decide ("pruner" ∈ roles).

(** Whether [serve] builds a client. *)
Definition needsRiver (roles : gset string) : bool :=
  bool_decide ("dispatch" ∈ roles) || bool_decide ("fetch" ∈ roles) || bool_decide ("sweep" ∈ roles)
  || bool_decide ("drift" ∈ roles) || bool_decide ("pruner" ∈ roles).

(** The options [serve] passes to [NewClient]; [log] and [metrics] are its two deadline
    observers, [metricsRefresh] its refresh observer. *)
Definition serve_options (roles : gset string) (cfg : Config.Config) (handler : RefreshHandler) (sweep : SweepService)
    (drift : DriftService) (log metrics : DeadlineObserver) (metricsRefresh : RefreshObserver) : list ClientOption :=
  [WithQueues (riverPlanForRoles roles)] ++
  (if bool_decide ("fetch" ∈ roles)
   then [WithRefreshHandler handler; WithDeadlineObserver (DeadlineObservers [Some log; Some metrics]);
         WithRefreshObserver metricsRefresh]
   else []) ++
  refreshWorkerOptions roles ++
  (if worksJobs roles then [WithPeriodicJobs (allPeriodicJobs cfg)] else []) ++
  (if bool_decide ("sweep" ∈ roles) then [WithWorkerRegistrar (RegisterReconciliationWorkers sweep)] else []) ++
  (if bool_decide ("pruner" ∈ roles) then [WithWorkerRegistrar (RegisterPrunerWorker sweep)] else []) ++
  (if bool_decide ("drift" ∈ roles) then [WithWorkerRegistrar (RegisterDriftWorker drift)] else []).

(** The client of [ghsyncd backfill], which is never started. *)
Definition backfill_options : list ClientOption := [].

End world.

(** ** What the program inserts *)

(** Who inserts a job: a process with a role, the schedule of River's leader, or the
    backfill command. *)
Inductive producer : Type :=
  | Role (role : string)
  | Leader
  | BackfillCommand.

(** The insertions of the program, one rule for each place that makes them. A worker that
    runs on a job inserts its follow-ups on the job's own queue or on the one the code
    names, so the insertions are closed under the jobs that cause them. *)
Inductive produced : producer → job_args → insert_opts → Prop :=
  (** [Dispatcher.insertParams], through [refreshArgs]. *)
  | produced_event s j at_ :
      jobForSpec s = Ok j → produced (Role "dispatch") j (NewRefreshInsertOpts at_)
  (** The head observation and the pages of a branch push. *)
  | produced_head key :
      produced (Role "dispatch") (NewRepositoryHeadArgs key) (NewRefreshInsertOptsForQueue QueueBulk zero_time)
  | produced_page hint repoID generation targets pageSize params counts a :
      branchReconciliationPages hint repoID generation targets pageSize = Ok (params, counts) → a ∈ params →
      produced (Role "dispatch") (BranchPage a) (NewBackfillInsertOptsForQueue QueueBulk)
  (** [enqueueStaleStacks], [enqueueStaleRepoRules], [persistPage] and the orphan scan. *)
  | produced_sweep s j at_ :
      jobForSpec s = Ok j → produced (Role "sweep") j (NewRefreshInsertOptsForQueue QueueSweep at_)
  | produced_list_page a : produced (Role "sweep") (ListPageJob a) listPageInsertOpts
  | produced_gap a at_ : produced (Role "sweep") (GapHealJob a) (gapContinuationInsertOpts at_)
  (** The healing refreshes of drift detection. *)
  | produced_drift s j at_ :
      jobForSpec s = Ok j → produced (Role "drift") j (NewRefreshInsertOptsForQueue QueueSweep at_)
  (** The schedule table of the leader. *)
  | produced_periodic cfg p token :
      p ∈ allPeriodicJobs cfg → produced Leader (pj_New p token).1 (pj_New p token).2
  (** [StartInstallationBackfill], on the queue of a cursor. *)
  | produced_backfill installationID phase page q :
      q ∈ [QueueInteractive; QueueSweep] →
      produced BackfillCommand (NewBackfillInstallationPageArgs installationID phase page) (NewBackfillInsertOptsForQueue q)
  (** The follow-ups of a refresh: those of its handler, and itself when it is dirty. *)
  | produced_follow_up p j o a s j' at_ :
      produced p j o → refresh_of j = Some a → jobForSpec s = Ok j' →
      produced (Role "fetch") j' (NewRefreshInsertOptsForQueue (io_Queue o) at_)
  | produced_dirty p j o a :
      produced p j o → refresh_of j = Some a →
      produced (Role "fetch") j (NewRefreshInsertOptsForQueue (io_Queue o) zero_time)
  (** The follow-ups of a branch page, whose refreshes run on the bulk queue. *)
  | produced_page_follow_up s j at_ :
      jobForSpec s = Ok j → produced (Role "fetch") j (NewRefreshInsertOptsForQueue QueueBulk at_)
  (** The next pages and the refreshes of a backfill, on its cursor's queue. *)
  | produced_next_page p j o j' q :
      produced p j o → is_backfill j = true → is_backfill j' = true → q ∈ [QueueInteractive; QueueSweep] →
      produced (Role "fetch") j' (NewBackfillInsertOptsForQueue q)
  | produced_backfill_refresh p j o s j' q at_ :
      produced p j o → is_backfill j = true → jobForSpec s = Ok j' → q ∈ [QueueInteractive; QueueSweep] →
      produced (Role "fetch") j' (NewRefreshInsertOptsForQueue q at_).

(** ** Lanes *)

Definition fetch_queues : list string := [QueueInteractive; QueueEvent; QueueBulk; QueueSweep].

(** The queues that jobs of an argument type use. *)
Definition lane (j : job_args) : list string :=
  match j with
  | KickoffJob _ | ListPageJob _ | GapHealJob _ | OrphanScanJob => [QueueReconcile]
  | PruneJob => [QueuePruner]
  | DetectJob _ => [QueueDrift]
  | _ => fetch_queues
  end.

(** The jobs of the fetch role: refreshes, branch pages and backfills. *)
Definition is_fetch (j : job_args) : Prop := lane j = fetch_queues.

Lemma jobForSpec_inv s j :
  jobForSpec s = Ok j →
  argsForSpec s = Ok (mkArgs (sp_Kind s) (sp_Key s) false) ∧ Kind j = sp_Kind s ∧
  refresh_of j = Some (mkArgs (sp_Kind s) (sp_Key s) false).
Proof.
  unfold jobForSpec, argsForSpec, supported_kinds. cbv zeta.
  repeat match goal with
  | |- context [String.eqb ?a ?b] => destruct (String.eqb_spec a b) as [->|?]
  end; intros [= <-]; (split; [by rewrite bool_decide_true by set_solver|done]).
Qed.

(** The typed arguments are those of [argsForSpec]. *)
Lemma jobForSpec_total s a : argsForSpec s = Ok a → ∃ j, jobForSpec s = Ok j ∧ refresh_of j = Some a.
Proof.
  unfold argsForSpec. destruct (bool_decide_reflect (sp_Kind s ∈ supported_kinds)) as [Hin|]; [|done].
  intros [= <-]. unfold jobForSpec. unfold supported_kinds in Hin.
  rewrite !elem_of_cons in Hin.
  destruct Hin as [->|[->|[->|[->|[->|[->|[->|[]%elem_of_nil]]]]]]]; cbn; eexists; (split; [done|done]).
Qed.

Lemma refresh_is_fetch j a : refresh_of j = Some a → is_fetch j.
Proof. by destruct j. Qed.

Lemma spec_is_fetch s j : jobForSpec s = Ok j → is_fetch j.
Proof. intros (_ & _ & H)%jobForSpec_inv. by eapply refresh_is_fetch. Qed.

Lemma backfill_is_fetch j : is_backfill j = true → is_fetch j.
Proof. by destruct j. Qed.

Lemma periodic_in_lane cfg p token : p ∈ allPeriodicJobs cfg → io_Queue (pj_New p token).2 ∈ lane (pj_New p token).1.
Proof.
  unfold allPeriodicJobs, ReconciliationPeriodicJobs, PrunerPeriodicJobs, DriftPeriodicJobs. cbn [app].
  intros Hp. repeat (apply elem_of_cons in Hp as [->|Hp]; [cbn; set_solver|]). by apply elem_of_nil in Hp.
Qed.

(** Every insertion uses a queue of its type's lane. *)
Lemma produced_in_lane p j o : produced p j o → io_Queue o ∈ lane j.
Proof.
  assert (Hf : ∀ j q, is_fetch j → q ∈ fetch_queues → q ∈ lane j) by (intros ?? ->; done).
  induction 1 as [s j at_ Hs|key|? ? ? ? ? ? ? a _ _|s j at_ Hs|a|a at_|s j at_ Hs|cfg p token Hp|? ? ? q Hq
    |p j o a s j' at_ _ IH Ha Hs|p j o a _ IH Ha|s j at_ Hs|p j o j' q _ _ _ Hj Hq|p j o s j' q at_ _ _ _ Hs Hq];
    cbn [io_Queue NewRefreshInsertOpts NewRefreshInsertOptsForQueue NewBackfillInsertOptsForQueue listPageInsertOpts gapContinuationInsertOpts].
  all: try (apply Hf; [first [by eapply spec_is_fetch|by apply backfill_is_fetch|done]|unfold fetch_queues; set_solver]).
  - cbn. set_solver.
  - cbn. set_solver.
  - by apply (periodic_in_lane cfg).
  - apply Hf; [by eapply spec_is_fetch|]. by rewrite (refresh_is_fetch _ _ Ha) in IH.
  - exact IH.
Qed.

(** The GitHub roles come together. *)
Lemma role_group raw roles r r' :
  parseRoles raw = Ok roles → r ∈ githubRoles → r ∈ roles → r' ∈ githubRoles → r' ∈ roles.
Proof.
  unfold parseRoles. destruct (String.eqb raw "all").
  { intros [= <-] _ _ Hr. unfold githubRoles in Hr. unfold allRoles. set_solver. }
  intros (rs & _ & H)%bind_ok. destruct (bool_decide (rs = ∅)); [done|].
  unfold githubRoles in *. rewrite !filter_cons, filter_nil in H.
  rewrite !elem_of_cons, !elem_of_nil.
  destruct (decide ("fetch" ∈ rs)) as [H1|H1], (decide ("sweep" ∈ rs)) as [H2|H2], (decide ("drift" ∈ rs)) as [H3|H3];
    cbn in H; try discriminate; injection H as <-;
    intros [->|[->|[->|[]]]] Hin [->|[->|[->|[]]]]; done.
Qed.

(** ** The worker table and the queues of a process *)

Section clients.
Context {R : River} {X L E : Type}.
Context (is_superseded is_lease_lost : E → bool).
Context (cfg : Config.Config) (handler : @RefreshHandler R X L E) (sweep : @SweepService R X L E)
  (drift : DetectArgs → @world R X L → option E * @world R X L).
Context (log metrics : deadline_miss → L → L) (metricsRefresh : @RefreshObservation E → L → L).

Abbreviation serve roles := (NewClient (serve_options roles cfg handler sweep drift log metrics metricsRefresh)).

(** What a process of [roles] gives its refresh workers. *)
Definition role_handler (roles : gset string) : option RefreshHandler :=
  if bool_decide ("fetch" ∈ roles) then Some handler else None.
Definition role_monitor (roles : gset string) : refreshDeadlineMonitor :=
  if bool_decide ("fetch" ∈ roles) then mkMonitor (Some (DeadlineObservers [Some log; Some metrics])) (Some metricsRefresh)
  else mkMonitor None None.

(** The workers of a process, by its roles. *)
Definition role_workers (roles : gset string) : list (@worker R X L E) :=
  (if bool_decide ("fetch" ∈ roles) || bool_decide ("dispatch" ∈ roles)
   then refresh_workers (role_handler roles) (role_monitor roles) else []) ++
  (if bool_decide ("sweep" ∈ roles)
   then [kickoffWorker sweep; listPageWorker sweep; gapHealWorker sweep; orphanScanWorker sweep] else []) ++
  (if bool_decide ("pruner" ∈ roles) then [pruneWorker sweep] else []) ++
  (if bool_decide ("drift" ∈ roles) then [driftWorker drift] else []).

Lemma add_workers_app ks ls (ws : gmap string (@worker R X L E)) :
  add_workers (ks ++ ls) ws = (ws ← add_workers ks ws; add_workers ls ws).
Proof.
  revert ws. induction ks as [|k ks IH]; intros ws; [done|]. cbn [app add_workers].
  unfold mbind at 1 3, result_bind. destruct (AddWorker k ws); [apply IH|done].
Qed.

Lemma add_workers_ok ks (ws : gmap string (@worker R X L E)) :
  NoDup (map worker_kind ks) → (∀ k, k ∈ ks → ws !! worker_kind k = None) →
  ∃ ws', add_workers ks ws = Ok ws' ∧
    ∀ kind k, ws' !! kind = Some k ↔ ws !! kind = Some k ∨ k ∈ ks ∧ worker_kind k = kind.
Proof.
  revert ws. induction ks as [|k ks IH]; intros ws Hnd Hfresh.
  - exists ws. split; [done|]. intros kind k. set_solver.
  - cbn [map] in Hnd. apply NoDup_cons in Hnd as [Hk Hnd]. cbn [add_workers]. unfold AddWorker.
    rewrite (Hfresh k) by set_solver. cbn [mbind result_bind].
    destruct (IH (<[worker_kind k := k]> ws) Hnd) as (ws' & Hadd & Hws).
    { intros k' Hk'. rewrite lookup_insert_ne; [apply Hfresh; set_solver|].
      intros Heq. apply Hk. rewrite Heq. by apply list_elem_of_fmap_2. }
    exists ws'. split; [exact Hadd|]. intros kind k0. rewrite Hws, lookup_insert_Some, elem_of_cons.
    pose proof (Hfresh k ltac:(set_solver)) as Hnone. split.
    + intros [[[? ?]|[? ?]]|[? ?]]; subst; auto.
    + intros [H|[[->|H] <-]]; auto.
      left. right. split; [|done]. intros <-. congruence.
Qed.

Lemma role_workers_distinct roles : NoDup (map worker_kind (role_workers roles)).
Proof.
  unfold role_workers. destruct (_ || _), (bool_decide _), (bool_decide _), (bool_decide _); cbn;
    (apply (bool_decide_unpack _); vm_compute; exact I).
Qed.

(** [serve]'s client, read off its options. *)
Lemma serve_client roles :
  serve roles =
  (ws ← add_workers (role_workers roles) ∅;
   qs ← client_queues ∅ (riverPlanForRoles roles) ∅;
   Ok (mkRiverConfig (if worksJobs roles then allPeriodicJobs cfg else []) qs ws)).
Proof.
  unfold NewClient, serve_options, role_workers, role_handler, role_monitor, refreshWorkerOptions, worksJobs.
  rewrite !add_workers_app. generalize (riverPlanForRoles roles). intros plan.
  destruct (bool_decide ("fetch" ∈ roles)), (bool_decide ("dispatch" ∈ roles)), (bool_decide ("sweep" ∈ roles)),
    (bool_decide ("pruner" ∈ roles)), (bool_decide ("drift" ∈ roles));
    cbn [orb foldl app WithQueues WithRefreshHandler WithDeadlineObserver WithRefreshObserver WithoutRefreshWorkers
         WithPeriodicJobs WithWorkerRegistrar co_refreshHandler co_registerRefreshWorker co_registrars co_periodicJobs
         co_queueNames co_queuesExplicit co_maxWorkers co_deadlineObserver co_refreshObserver run_registrars
         registerRefreshWorkers RegisterReconciliationWorkers RegisterPrunerWorker RegisterDriftWorker];
    reflexivity.
Qed.

Lemma client_queues_ok names (qs : gmap string Z) :
  (∀ q, q ∈ names → is_Some (defaultMaxWorkers q)) → (∀ q n, qs !! q = Some n → 0 < n) →
  ∃ qs', client_queues ∅ names qs = Ok qs' ∧ dom qs' = list_to_set names ∪ dom qs ∧ ∀ q n, qs' !! q = Some n → 0 < n.
Proof.
  revert qs. induction names as [|name names IH]; intros qs Hn Hqs.
  - exists qs. split; [done|]. split; [set_solver|done].
  - cbn [client_queues]. destruct (Hn name ltac:(set_solver)) as [n Hname]. rewrite Hname, lookup_empty.
    assert (0 < n) as Hpos.
    { unfold defaultMaxWorkers in Hname. repeat (destruct (String.eqb _ _); [injection Hname as <-; lia|]). done. }
    cbn [default]. rewrite Z.eqb_refl. destruct (Z.leb_spec n 0); [lia|].
    destruct (IH (<[name := n]> qs)) as (qs' & ? & Hdom & ?).
    + intros q ?. apply Hn. set_solver.
    + intros q m. rewrite lookup_insert_Some. intros [[_ <-]|[_ Hq]]; [done|by eapply Hqs].
    + exists qs'. split_and!; [done| |done]. rewrite Hdom, dom_insert_L. cbn [list_to_set]. set_solver.
Qed.

Lemma plan_supported roles q : q ∈ riverPlanForRoles roles → is_Some (defaultMaxWorkers q).
Proof.
  unfold riverPlanForRoles. rewrite !elem_of_app.
  intros [Hq|[Hq|[Hq|Hq]]]; destruct (bool_decide _); try by apply elem_of_nil in Hq.
  all: repeat (apply elem_of_cons in Hq as [->|Hq]; [by eexists|]); by apply elem_of_nil in Hq.
Qed.

(** A process's client, with exactly the queues of its roles, each with workers to run on,
    and exactly the workers of its roles. *)
Lemma serve_client_builds roles :
  ∃ rc, serve roles = Ok rc ∧ dom (rc_Queues rc) = list_to_set (riverPlanForRoles roles) ∧
    (∀ q n, rc_Queues rc !! q = Some n → 0 < n) ∧
    (∀ kind k, rc_Workers rc !! kind = Some k ↔ k ∈ role_workers roles ∧ worker_kind k = kind).
Proof.
  rewrite serve_client.
  destruct (add_workers_ok (role_workers roles) ∅ (role_workers_distinct roles)) as (ws & Hws & Hl).
  { intros k _. apply lookup_empty. }
  destruct (client_queues_ok (riverPlanForRoles roles) ∅ (plan_supported roles)) as (qs & Hqs & Hdom & Hpos).
  { intros q n. by rewrite lookup_empty. }
  rewrite Hws, Hqs. eexists. split; [reflexivity|]. cbn [rc_Queues rc_Workers]. split_and!.
  - rewrite Hdom, dom_empty_L. set_solver.
  - exact Hpos.
  - intros kind k. rewrite Hl, lookup_empty. naive_solver.
Qed.


(** ** Every job finds its worker *)

(** The worker that runs a job of a process's roles. *)
Definition worker_for (h : option RefreshHandler) (m : refreshDeadlineMonitor) (j : job_args) : @worker R X L E :=
  match j with
  | RefreshPRArgs _ => refreshPRWorker h m
  | RefreshRepositoryArgs _ => refreshRepositoryWorker h m
  | RefreshRepoRulesArgs _ => refreshRepoRulesWorker h m
  | RefreshStackArgs _ => refreshStackWorker h m
  | RefreshChecksArgs _ => refreshChecksWorker h m
  | RefreshBranchArgs _ => refreshBranchWorker h m
  | ResolveStackMembershipArgs _ => resolveStackMembershipWorker h m
  | BranchPage _ => branchReconcilePageWorker h
  | RepoPageArgs _ => backfillRepoPageWorker h m
  | InstallationPageArgs _ => backfillInstallationPageWorker h m
  | KickoffJob _ => kickoffWorker sweep
  | ListPageJob _ => listPageWorker sweep
  | GapHealJob _ => gapHealWorker sweep
  | OrphanScanJob => orphanScanWorker sweep
  | PruneJob => pruneWorker sweep
  | DetectJob _ => driftWorker drift
  end.

(** The role whose processes work a job. *)
Definition working_role (j : job_args) : string :=
  match j with
  | KickoffJob _ | ListPageJob _ | GapHealJob _ | OrphanScanJob => "sweep"
  | PruneJob => "pruner"
  | DetectJob _ => "drift"
  | _ => "fetch"
  end.

Lemma worker_for_kind h m j : worker_kind (worker_for h m j) = Kind j.
Proof. by destruct j. Qed.

(** A role that works a job's lane registers its worker; the fetch jobs' workers are
    registered by a dispatch process too. *)
Lemma worker_for_registered roles j :
  working_role j ∈ roles ∨ is_fetch j ∧ "dispatch" ∈ roles →
  worker_for (role_handler roles) (role_monitor roles) j ∈ role_workers roles.
Proof.
  intros Hr. unfold role_workers. rewrite !elem_of_app.
  destruct j; cbn [working_role worker_for] in *.
  all: try (left; rewrite (proj2 (orb_true_iff _ _));
    [unfold refresh_workers; repeat constructor|rewrite !bool_decide_eq_true; tauto]).
  all: destruct Hr as [Hr|[Hr _]]; [|by vm_compute in Hr].
  - right. left. rewrite bool_decide_true by done. repeat constructor.
  - right. left. rewrite bool_decide_true by done. repeat constructor.
  - right. left. rewrite bool_decide_true by done. repeat constructor.
  - do 2 right. left. rewrite bool_decide_true by done. repeat constructor.
  - right. left. rewrite bool_decide_true by done. repeat constructor.
  - do 3 right. rewrite bool_decide_true by done. repeat constructor.
Qed.

(** The role that works a queue. *)
Definition queue_role (q : string) : option string :=
  if bool_decide (q ∈ fetch_queues) then Some "fetch"
  else if String.eqb q QueueReconcile then Some "sweep"
  else if String.eqb q QueueDrift then Some "drift"
  else if String.eqb q QueuePruner then Some "pruner"
  else None.

Lemma plan_role roles q : q ∈ riverPlanForRoles roles ↔ ∃ r, queue_role q = Some r ∧ r ∈ roles.
Proof.
  assert (Hb : ∀ (r : string) (l : list string),
    q ∈ (if bool_decide (r ∈ roles) then l else []) ↔ r ∈ roles ∧ q ∈ l).
  { intros r l. destruct (bool_decide_reflect (r ∈ roles)); [tauto|]. rewrite elem_of_nil. tauto. }
  unfold riverPlanForRoles. rewrite !elem_of_app, !Hb. clear Hb. split.
  - intros [[? H]|[[? H]|[[? H]|[? H]]]];
      repeat (apply elem_of_cons in H as [->|H]; [by eexists|]); by apply elem_of_nil in H.
  - intros (r & Hr & Hin). unfold queue_role in Hr.
    destruct (bool_decide_reflect (q ∈ fetch_queues)) as [Hf|_]; [injection Hr as <-; left; auto|].
    destruct (String.eqb_spec q QueueReconcile) as [->|_]; [injection Hr as <-; right; left; split; [done|constructor]|].
    destruct (String.eqb_spec q QueueDrift) as [->|_]; [injection Hr as <-; do 2 right; left; split; [done|constructor]|].
    destruct (String.eqb_spec q QueuePruner) as [->|_]; [injection Hr as <-; do 3 right; split; [done|constructor]|done].
Qed.

(** A queue of a job's lane is worked only by its working role. *)
Lemma lane_role roles j q : q ∈ lane j → q ∈ riverPlanForRoles roles ↔ working_role j ∈ roles.
Proof.
  rewrite plan_role. intros Hq.
  assert (queue_role q = Some (working_role j)) as ->; [|naive_solver].
  destruct j; cbn [lane working_role] in *; unfold fetch_queues in Hq;
    repeat (apply elem_of_cons in Hq as [->|Hq]; [reflexivity|]); by apply elem_of_nil in Hq.
Qed.

(** A worker with its handler answers a job of its type with its own outcome. *)
Lemma worker_for_works env h m j id q w :
  ∃ r, Work is_superseded is_lease_lost env (worker_for (Some h) m j) (mkJob id q j) w = Some r ∧
       ∀ kind, r.1 ≠ Some (NotConfigured kind).
Proof.
  assert (Hrun : ∀ work a, let r := runRefresh is_superseded env (Some work) id q a m w in ∀ kind, r.1 ≠ Some (NotConfigured kind)).
  { intros work a. unfold runRefresh. cbv zeta. intros kind. destruct (en_snapshot env); [|done]. cbn [negb].
    destruct (work _ a w) as [ret w1]. destruct (wr_err ret) as [e|]; [destruct (is_superseded e)|];
      try done; destruct (en_complete env); done. }
  assert (Hlift : ∀ (r : option E * @world R X L) kind, (lift r).1 ≠ Some (NotConfigured kind)).
  { intros [[e|] w'] kind; done. }
  destruct j; cbn [worker_for Work jb_Args jb_Queue jb_ID callback fmap option_fmap option_map];
    try (eexists; split; [reflexivity|]; intros kind; first [apply Hrun|apply Hlift]).
  destruct (sv_HealDeliveryGaps sweep a w) as [[e|] w']; [destruct (is_lease_lost e)|]; eexists; split; try reflexivity; done.
Qed.

(** No job is orphaned by the split of the program into roles: whatever part of the program
    inserts a job, a process that works the job's queue has the worker of its kind, of its
    argument type, with the handler it needs. *)
Theorem jobs_worked roles rc p j o :
  serve roles = Ok rc → produced p j o → io_Queue o ∈ dom (rc_Queues rc) →
  ∃ k, rc_Workers rc !! Kind j = Some k ∧
    ∀ env id w, ∃ r, Work is_superseded is_lease_lost env k (mkJob id (io_Queue o) j) w = Some r ∧
                     ∀ kind, r.1 ≠ Some (NotConfigured kind).
Proof.
  destruct (serve_client_builds roles) as (rc' & Hrc & Hdom & _ & Hws). rewrite Hrc. intros [= <-] Hp Hq.
  rewrite Hdom, elem_of_list_to_set in Hq. apply (lane_role roles j) in Hq; [|by eapply produced_in_lane].
  exists (worker_for (role_handler roles) (role_monitor roles) j). split.
  - apply Hws. split; [apply worker_for_registered; by left|apply worker_for_kind].
  - intros env id w. unfold role_handler. destruct (decide ("fetch" ∈ roles)) as [Hf|Hf].
    + rewrite bool_decide_true by done. apply worker_for_works.
    + destruct (worker_for_works env handler (role_monitor roles) j id (io_Queue o) w) as (r & Hr & Hn).
      exists r. split; [|done]. rewrite <- Hr. destruct j; done.
Qed.

(** Whoever inserts a job knows its kind: River refuses an insertion whose kind the
    inserting client has no worker for. *)
Theorem producers_know_kinds raw roles rc role j o :
  parseRoles raw = Ok roles → serve roles = Ok rc → role ∈ roles → produced (Role role) j o →
  is_Some (rc_Workers rc !! Kind j).
Proof.
  intros Hraw. destruct (serve_client_builds roles) as (rc' & Hrc & _ & _ & Hws). rewrite Hrc. intros [= <-] Hr Hp.
  assert (Hgroup : ∀ r, r ∈ githubRoles → r ∈ roles → "fetch" ∈ roles) by (intros r ??; by apply (role_group raw roles r); [..|constructor]).
  eexists (worker_for (role_handler roles) (role_monitor roles) j). apply Hws.
  split; [apply worker_for_registered|apply worker_for_kind].
  assert (Hj : is_fetch j → "fetch" ∈ roles → working_role j ∈ roles).
  { intros Hfe ?. destruct j; try done; by vm_compute in Hfe. }
  assert (Hfetch : is_fetch j → role ∈ githubRoles → working_role j ∈ roles).
  { intros ??. apply Hj; [done|by eapply Hgroup]. }
  inversion Hp; subst; clear Hp.
  1-3: right; split; [first [by eapply spec_is_fetch|done]|done].
  all: left; try exact Hr.
  all: apply Hfetch; [first [by eapply spec_is_fetch|by eapply refresh_is_fetch|by apply backfill_is_fetch]|].
  all: repeat constructor.
Qed.

(** A deployment whose processes have accepted roles, one of them the GitHub roles and one
    the pruner, leaves no job behind: the queue of every job the program inserts is worked
    by one of its processes, which starts its client and has the job's worker with the
    handler it needs. *)
Theorem every_job_runs (processes : list (string * gset string)) p j o :
  (∀ x, x ∈ processes → parseRoles x.1 = Ok x.2) →
  (∃ x r, x ∈ processes ∧ r ∈ githubRoles ∧ r ∈ x.2) → (∃ x, x ∈ processes ∧ "pruner" ∈ x.2) →
  produced p j o →
  ∃ x rc k, x ∈ processes ∧ serve x.2 = Ok rc ∧ needsRiver x.2 = true ∧ worksJobs x.2 = true ∧
    io_Queue o ∈ dom (rc_Queues rc) ∧ rc_Workers rc !! Kind j = Some k ∧
    ∀ env id w, ∃ r, Work is_superseded is_lease_lost env k (mkJob id (io_Queue o) j) w = Some r ∧
                     ∀ kind, r.1 ≠ Some (NotConfigured kind).
Proof.
  intros Hok (xg & r & Hxg & Hr & Hin) (xp & Hxp & Hpr) Hp.
  assert (∃ x, x ∈ processes ∧ working_role j ∈ x.2) as (x & Hx & Hw).
  { destruct (decide (working_role j = "pruner")) as [->|Hne]; [by exists xp|]. exists xg. split; [done|].
    apply (role_group xg.1 xg.2 r); [by apply Hok|done|done|]. by destruct j; try repeat constructor. }
  destruct (serve_client_builds x.2) as (rc & Hrc & Hdom & _).
  assert (Hq : io_Queue o ∈ dom (rc_Queues rc)).
  { rewrite Hdom, elem_of_list_to_set. apply (lane_role x.2 j); [by eapply produced_in_lane|done]. }
  destruct (jobs_worked x.2 rc p j o Hrc Hp Hq) as (k & Hk & Hwork).
  exists x, rc, k. split_and!; try done; unfold needsRiver, worksJobs; rewrite !orb_true_iff, !bool_decide_eq_true;
    destruct j; cbn in Hw; tauto.
Qed.

End clients.

(** ** Schedules *)

(** The schedule table of an accepted configuration: no two entries share an identifier,
    every period is positive, every entry runs when its leader starts, and a kickoff runs often enough to leave its
    staleness bound the headroom of a completion. *)
Theorem schedules_sound getenv cfg o :
  FromEnv getenv = Ok cfg → SweepSchedule.New (sweepConfig cfg) = Ok o →
  NoDup (map pj_ID (allPeriodicJobs cfg)) ∧
  (∀ p, p ∈ allPeriodicJobs cfg → 0 < pj_Interval p ∧ pj_RunOnStart p = true) ∧
  (∀ b, b ∈ config_bounds (sweepConfig cfg) → SweepSchedule.plan_ok (scheduleForBound b)).
Proof.
  intros Henv Hnew. pose proof (from_env_ok getenv cfg Henv) as [Hok _].
  pose proof (co_positive cfg Hok) as Hf. unfold positive_fields in Hf. rewrite !Forall_cons in Hf. unfold positive in Hf.
  assert (Hsmall : ∀ b, b ∈ config_bounds (sweepConfig cfg) → bound_too_small b = false).
  { unfold SweepSchedule.New in Hnew. destruct (validate _) eqn:Hv; [done|].
    by apply validate_ok in Hv as (_ & _ & _ & Hb). }
  assert (Hplan : ∀ b, b ∈ config_bounds (sweepConfig cfg) → SweepSchedule.plan_ok (scheduleForBound b)).
  { intros b Hb. assert (0 < b < 2 ^ 63).
    { unfold config_bounds, sweepConfig in Hb. cbn in Hb.
      repeat (apply elem_of_cons in Hb as [->|Hb]; [lia|]). by apply elem_of_nil in Hb. }
    apply scheduleForBound_ok; [lia|unfold in_int64; lia|by apply Hsmall]. }
  split; [|split; [|exact Hplan]].
  - cbn. apply (bool_decide_unpack _). vm_compute. exact I.
  - intros p Hp. unfold allPeriodicJobs, ReconciliationPeriodicJobs, PrunerPeriodicJobs, DriftPeriodicJobs in Hp.
    cbn [app] in Hp. unfold kickoffPeriodic in Hp.
    do 5 (apply elem_of_cons in Hp as [->|Hp]; [split; [|done]; apply Hplan; repeat constructor|]).
    repeat (apply elem_of_cons in Hp as [->|Hp]; [split; [|done]; first [reflexivity|cbn; lia]|]). by apply elem_of_nil in Hp.
Qed.

(** ** What an attempt reports *)

Section attempts.
Context {R : River} {X L E : Type} (is_superseded : E → bool).

(** The callback's result as [RefreshQueue] sees it. *)
Definition work_class (err : option E) : work_result :=
  match err with
  | None => WorkDone
  | Some e => if is_superseded e then WorkSuperseded else WorkFailed
  end.

Definition superseded_by (err : option E) : bool := match err with Some e => is_superseded e | None => false end.

(** An attempt of a configured worker that took its snapshot runs the callback once, under
    the fence of the generation it saw. Afterwards the tables are those of
    [RefreshQueue.finishRefresh] (those the callback left, when the completion transaction
    fails); the refresh observer is told of the attempt exactly once, with the very error
    the worker returns; and the deadline observer is called, after it, exactly when the
    refresh completed late. *)
Theorem attempt_reported env work id q a fd fo (w : @world R X L) :
  en_snapshot env = true →
  let row := gens (wd_tables w) !! args_identity a in
  let started := current_generation (gens (wd_tables w)) (args_identity a) in
  let event := or_zero (row ≫= event_received_at) in
  let fence := if 0 <? started then Some (args_identity a, started) else None in
  let '(ret, w1) := work (mkContext event fence) a w in
  let '(err, w') := runRefresh is_superseded env (Some work) id q a (mkMonitor (Some fd) (Some fo)) w in
  let '(res, d) :=
    if en_complete env
    then finishRefresh (en_now env) (en_finished env) id a q started (row ≫= deadline_at) (work_class (wr_err ret)) (wd_tables w1)
    else (Err RefreshFailed, wd_tables w1) in
  let observation :=
    mkObservation (PointerKind a) q event (wr_committed ret) (en_started env) (en_finished env)
      (superseded_by (wr_err ret)) err in
  let observed := fo observation (wd_log w1) in
  (err = None ↔ is_ok res = true) ∧
  w' = mkWorld d (wd_rest w1)
         match res, row ≫= deadline_at with
         | Ok true, Some deadline => fd (mkMiss (PointerKind a) (Key a) deadline (en_finished env)) observed
         | _, _ => observed
         end.
Proof.
  intros Hs. cbv zeta. unfold runRefresh. rewrite Hs. cbn [negb].
  destruct (work _ a w) as [ret w1]. unfold work_class, superseded_by, finishRefresh, observeRefresh, set_log, set_tables.
  cbn [mo_refreshObserver mo_deadlineObserver].
  destruct (wr_err ret) as [e|]; [destruct (is_superseded e)|];
    destruct (en_complete env); cbn [negb is_ok wd_tables wd_rest wd_log]; (split; [done|]); try done.
  all: destruct (_ ≫= deadline_at) as [dl|]; [|done]; destruct (After _ dl); done.
Qed.
End attempts.

(** ** The orphan scan *)

Section orphans.
Context {R : River} {L : Type}.
(** What [latestTerminalPointerState] reads: the state of the identity's latest ended job. *)
Context (terminal_state : identity → option string).

Definition latestTerminalPointerState (i : identity) : string :=
  match terminal_state i with Some s => s | None => "unknown" end.

Inductive orphan_error : Type :=
  | NoRiverClient
  | ScanFailed (e : queue_error)
  | HeartbeatFailed.

(** The loop over the replaced generations, with the [OnOrphanedRefresh] hook. *)
Definition report_orphans (hook : option (string → string → L → L)) (orphans : list (identity * Z)) (l : L) : L :=
  foldl (λ l x, match hook with
                | Some f => f x.1.1 (latestTerminalPointerState x.1) l
                | None => l
                end) l orphans.

(** [ReconcileRefreshOrphans]; [now] is the service's clock, [dbNow] the database's. *)
Definition ReconcileRefreshOrphans (c : SweepSchedule.Config) (hasRiver : bool) (now dbNow : time)
    (hook : option (string → string → L → L)) (d : RefreshQueue.tables) (h : heartbeats) (l : L)
    : result orphan_error unit * (RefreshQueue.tables * heartbeats * L) :=
  if negb hasRiver then (Err NoRiverClient, (d, h, l))
  else
    let staleBefore := now - orphanStaleAfter c in
    match ReconcileOrphanedRefreshPointers staleBefore (orphanBatchLimit c) QueueSweep d with
    | (Err (e, _), d) => (Err (ScanFailed e), (d, h, l))
    | (Ok res, d) =>
        let l := report_orphans hook (Orphans res) l in
        match RecordSuccessN dbNow (InstallationID c) "sweep" jobKindOrphanScan (Z.of_nat (length (Orphans res))) h with
        | None => (Err HeartbeatFailed, (d, h, l))
        | Some h => (Ok tt, (d, h, l))
        end
    end.

(** The scan fails only on a generation row of an unsupported kind. *)
Lemma reconcile_rows_ok rows q res (d : RefreshQueue.tables) :
  (∀ i, i ∈ rows → i.1 ∈ supported_kinds) → ∃ res' d', reconcile_rows rows q res d = (Ok res', d').
Proof.
  revert res d. induction rows as [|i rows IH]; intros res d Hk; [by exists res, d|].
  cbn [reconcile_rows]. unfold reinsertRefreshPointer, argsForSpec. cbn [sp_Kind].
  rewrite bool_decide_true by (apply Hk; constructor).
  destruct (_ <=? _); [apply IH; intros; apply Hk; by constructor|].
  destruct (river_insert _ q zero_time (river d)) as [r t1]. apply IH. intros. apply Hk. by constructor.
Qed.

(** A pass of the default configuration over generations of supported kinds succeeds: it
    leaves one heartbeat that counts the generations it gave a new pointer, and tells the
    hook of each of them, in order, with the state its last pointer ended in. *)
Theorem orphan_pass_succeeds cfg now dbNow hook (d : RefreshQueue.tables) h l :
  0 < cfg_GitHubInstallationID cfg →
  (∀ i row, gens d !! i = Some row → i.1 ∈ supported_kinds) →
  ∃ res d' h',
    ReconcileOrphanedRefreshPointers (now - defaultOrphanStaleAfter) defaultOrphanBatchLimit QueueSweep d = (Ok res, d') ∧
    ReconcileRefreshOrphans (sweepConfig cfg) true now dbNow hook d h l =
      (Ok tt, (d', h', foldl (λ l e, match hook with Some f => f e.1 e.2 l | None => l end) l
                         (map (λ x, (x.1.1, latestTerminalPointerState x.1)) (Orphans res)))) ∧
    h' = RecordOperationHeartbeat dbNow (cfg_GitHubInstallationID cfg, "sweep", jobKindOrphanScan)
           (Z.of_nat (length (Orphans res))) h.
Proof.
  intros Hinst Hk. unfold ReconcileOrphanedRefreshPointers. cbn [defaultOrphanBatchLimit Z.leb Z.compare].
  destruct (reconcile_rows_ok (ListOutstandingRefreshIntentGenerations (gens d) (now - defaultOrphanStaleAfter) defaultOrphanBatchLimit)
    QueueSweep (mkReconciled (Z.of_nat (length (ListOutstandingRefreshIntentGenerations (gens d) (now - defaultOrphanStaleAfter) defaultOrphanBatchLimit))) 0 []) d)
    as (res & d' & Hres).
  { intros i Hi. unfold ListOutstandingRefreshIntentGenerations in Hi.
    apply list_elem_of_fmap in Hi as ([t i'] & -> & Hi). apply elem_of_take in Hi as (n & Hn & _).
    apply list_elem_of_lookup_2 in Hn. rewrite merge_sort_Permutation in Hn.
    apply list_elem_of_fmap in Hn as ([i0 row] & [= -> ->] & Hn). apply list_elem_of_filter in Hn as [_ Hn].
    apply elem_of_map_to_list in Hn. by eapply Hk. }
  exists res, d'. eexists. split; [exact Hres|]. split; [|reflexivity].
  unfold ReconcileRefreshOrphans. cbn [negb].
  change (orphanStaleAfter (sweepConfig cfg)) with defaultOrphanStaleAfter.
  change (orphanBatchLimit (sweepConfig cfg)) with defaultOrphanBatchLimit.
  unfold ReconcileOrphanedRefreshPointers. cbn [defaultOrphanBatchLimit Z.leb Z.compare]. rewrite Hres.
  unfold RecordSuccessN. cbn [InstallationID sweepConfig].
  rewrite (proj2 (Z.leb_gt _ _)), (proj2 (Z.ltb_ge _ 0)) by lia. cbn [orb].
  rewrite !bool_decide_false by done. cbn [orb]. unfold report_orphans.
  do 3 f_equal. generalize (Orphans res) l. intros os. induction os as [|x os IH]; intros l0; [done|]. apply IH.
Qed.
End orphans.

(** ** A deployment *)

Module Demo.

Abbreviation demo_world := (@world RefRiver.RefRiver unit unit).

Definition refresh (_ : work_context) (_ : RefreshRequest) (w : demo_world) : @work_return unit * demo_world :=
  (mkReturn None 7, w).

Definition handler : @RefreshHandler RefRiver.RefRiver unit unit unit :=
  mkHandler refresh refresh refresh refresh refresh refresh (λ _ w, (None, w)) refresh (λ _ w, (None, w)) (λ _ w, (None, w)).

Definition sweep : @SweepService RefRiver.RefRiver unit unit unit :=
  mkSweepService (λ _ w, (None, w)) (λ _ w, (None, w)) (λ _ w, (None, w)) (λ w, (None, w)) (λ w, (None, w)).

Definition drift (_ : DetectArgs) (w : demo_world) : option unit * demo_world := (None, w).

(** A process with every role and a second pruner. *)
Definition processes : list (string * gset string) :=
  [("all", list_to_set allRoles); ("pruner,metrics", list_to_set ["pruner"; "metrics"])].

(** They work the head observation of a default-branch push. *)
Example demo_deployment cfg :
  ∃ x rc k, x ∈ processes ∧
    NewClient (serve_options x.2 cfg handler sweep drift (λ _ l, l) (λ _ l, l) (λ _ l, l)) = Ok rc ∧
    needsRiver x.2 = true ∧ worksJobs x.2 = true ∧
    QueueBulk ∈ dom (rc_Queues rc) ∧ rc_Workers rc !! KindRefreshRepository = Some k ∧
    ∀ env id (w : demo_world), ∃ r,
      Work (λ _, true) (λ _, false) env k (mkJob id QueueBulk (NewRepositoryHeadArgs "repo:o/r")) w = Some r ∧
      ∀ kind, r.1 ≠ Some (NotConfigured kind).
Proof.
  apply (every_job_runs (λ _, true) (λ _, false) cfg handler sweep drift (λ _ l, l) (λ _ l, l) (λ _ l, l) processes
    (Role "dispatch") (NewRepositoryHeadArgs "repo:o/r") (NewRefreshInsertOptsForQueue QueueBulk zero_time)).
  - intros x Hx. repeat (apply elem_of_cons in Hx as [->|Hx]; [vm_compute; reflexivity|]). by apply elem_of_nil in Hx.
  - exists ("all", list_to_set allRoles), "fetch". split; [constructor|]. split; [constructor|]. by apply (bool_decide_unpack _).
  - exists ("all", list_to_set allRoles). split; [constructor|]. by apply (bool_decide_unpack _).
  - apply produced_head.
Defined.

End Demo.
