(* ===== verification/Commands.v ===== *)
(** * The operator's commands and the end of a process

    Of [cmd/ghsyncd/main.go]: the choice of a command, the options of [requeue] and the
    whole of its replay, and the shutdown sequence of [serve]. The flag package has parsed
    the arguments: a command's flags are the definitions' arguments. *)

From Stdlib Require Import ZArith Lia Bool String Ascii.
From stdpp Require Import sorting strings base numbers list sets gmap.
From S2P Require Import Prelude GoStrings Classify Deliveries.

Local Open Scope Z_scope.

(** ** Choosing a command *)

Inductive command : Type :=
  | CmdServe (args : list string)
  | CmdMigrate
  | CmdRequeue (args : list string)
  | CmdBackfill (args : list string)
  | CmdVersion.

(** [run]: a first argument that is not a flag names the command. *)
Definition run (args : list string) : result string command :=
  let '(cmd, args) :=
    match args with
    | a :: rest => if HasPrefix a "-" then ("serve", args) else (a, rest)
    | [] => ("serve", args)
    end in
  if String.eqb cmd "serve" then Ok (CmdServe args)
  else if String.eqb cmd "migrate" then Ok CmdMigrate
  else if String.eqb cmd "requeue" then Ok (CmdRequeue args)
  else if String.eqb cmd "backfill" then Ok (CmdBackfill args)
  else if String.eqb cmd "version" then Ok CmdVersion
  else Err cmd.

(** ** The options of a replay *)

Record requeueOptions : Type := mkRequeue {
  rq_guids : list string;
  rq_event : string;
  rq_errorContains : string
}.

Inductive requeue_error : Type :=
  | PositionalArguments
  | SelectionRequired
  | TooManyGUIDs
  | Requeued (count selected : Z).

(** [uniqueStrings] of the command: the first of each, in order. *)
Fixpoint unique_strings (seen values : list string) : list string :=
  match values with
  | [] => []
  | v :: values => if bool_decide (v ∈ seen) then unique_strings seen values else v :: unique_strings (v :: seen) values
  end.

Definition non_empty (l : list string) : list string := List.filter (λ v, negb (String.eqb v "")) l.

Definition parseRequeueOptions (guid guids event errorContains : string) (positional : nat)
    : result requeue_error requeueOptions :=
  if negb (Nat.eqb positional 0) then Err PositionalArguments
  else
    let selected := unique_strings [] (non_empty (TrimSpace guid :: map TrimSpace (Split guids ","))) in
    let event := TrimSpace event in
    let errorContains := TrimSpace errorContains in
    let family := negb (String.eqb event "") || negb (String.eqb errorContains "") in
    if Bool.eqb (negb (Nat.eqb (length selected) 0)) family
       || (family && (String.eqb event "" || String.eqb errorContains "")) then Err SelectionRequired
    else if (100 <? length selected)%nat then Err TooManyGUIDs
    else Ok (mkRequeue selected event errorContains).

(** ** The replay *)

(** The rows a replay locks, and those of them it requeues: the rows affected by the
    statement's last update. *)
Definition replayed (o : requeueOptions) (locked : gset string) (l : ledger) : list (string * delivery) :=
  take 100 (merge_sort received_le
    (List.filter (λ p, requeue_selected (rq_guids o) (rq_event o) (rq_errorContains o) p.1 p.2
                       && negb (bool_decide (p.1 ∈ locked))) (map_to_list l))).

Definition has_payload (d : delivery) : bool :=
  negb (bool_decide (is_Some (payload_pruned_at d)) || bool_decide (raw_body d = None)).

(** [requeue] after its options, on a database that answers: the rows it leaves and its
    error. The statement commits by itself, so an error does not undo it. *)
Definition requeue (now : time) (note : bool → delivery → string) (o : requeueOptions) (locked : gset string) (l : ledger)
    : option requeue_error * ledger :=
  let l' := RequeueParkedWebhookDeliveries now note (rq_guids o) (rq_event o) (rq_errorContains o) locked l in
  let count := Z.of_nat (length (List.filter (λ p, has_payload p.2) (replayed o locked l))) in
  let selected := Z.of_nat (length (rq_guids o)) in
  (if (0 <? selected) && negb (count =? selected) then Some (Requeued count selected) else None, l').

(** ** Shutdown *)

Section shutdown.
Context {E : Type}.

Inductive shutdown_error : Type :=
  | ServiceFailed (e : E)
  | HTTPShutdown (e : E)
  | RiverForced (e : E)
  | GateShutdown (e : E).

Inductive shutdown_action : Type :=
  | CancelServices
  | StopHTTP
  | StopRiver
  | CancelRiver
  | CloseGate.

#[export] Instance shutdown_action_eq_dec : EqDecision shutdown_action.
Proof. solve_decision. Defined.

(** The end of [serve], after a signal ([None]) or a service's error: what it does, in
    order, and what it returns. [river] is whether a started client exists, [gate] whether
    the process has the budget gate; the other arguments are the results of the calls. *)
Definition shutdown (serviceErr : option E) (river gate : bool) (http stop forced close : option E)
    : list shutdown_action * option shutdown_error :=
  let err := ServiceFailed <$> serviceErr in
  let first (err : option shutdown_error) next := match err with Some _ => err | None => next end in
  let err := first err (HTTPShutdown <$> http) in
  let '(riverActions, riverFailed) :=
    if river then match stop with
                  | None => ([StopRiver], None)
                  | Some _ => ([StopRiver; CancelRiver], forced)
                  end
    else ([], None) in
  let done_ := [CancelServices; StopHTTP] ++ riverActions in
  match riverFailed with
  | Some e => (done_, Some (RiverForced e))
  | None => if gate then (done_ ++ [CloseGate], first err (GateShutdown <$> close)) else (done_, err)
  end.

End shutdown.

(** ** The options *)

Lemma unique_strings_elem seen values v : v ∈ unique_strings seen values ↔ v ∈ values ∧ v ∉ seen.
Proof.
  revert seen. induction values as [|x values IH]; intros seen; cbn [unique_strings].
  - rewrite elem_of_nil. tauto.
  - rewrite elem_of_cons. destruct (bool_decide_reflect (x ∈ seen)) as [Hx|Hx].
    + rewrite IH. split; [tauto|]. intros [[->|?] ?]; tauto.
    + rewrite elem_of_cons, IH, not_elem_of_cons. split; [intros [->|?]; tauto|].
      intros [[->|?] ?]; [by left|]. destruct (decide (v = x)); [by left|tauto].
Qed.

Lemma unique_strings_NoDup seen values : NoDup (unique_strings seen values).
Proof.
  revert seen. induction values as [|x values IH]; intros seen; cbn [unique_strings]; [constructor|].
  case_bool_decide; [apply IH|]. constructor; [|apply IH]. rewrite unique_strings_elem. set_solver.
Qed.

(** Accepted options select in exactly one way: by a set of at most a hundred distinct,
    non-empty GUIDs, all of those given, or by an event and a text, both non-empty. *)
Theorem requeue_options_exclusive guid guids event errorContains n o :
  parseRequeueOptions guid guids event errorContains n = Ok o →
  NoDup (rq_guids o) ∧
  (∀ g, g ∈ rq_guids o ↔ g ≠ "" ∧ g ∈ TrimSpace guid :: map TrimSpace (Split guids ",")) ∧
  (rq_guids o ≠ [] ∧ (length (rq_guids o) ≤ 100)%nat ∧ rq_event o = "" ∧ rq_errorContains o = "" ∨
   rq_guids o = [] ∧ rq_event o = TrimSpace event ∧ rq_event o ≠ "" ∧
   rq_errorContains o = TrimSpace errorContains ∧ rq_errorContains o ≠ "").
Proof.
  unfold parseRequeueOptions. destruct (Nat.eqb n 0); [|done]. cbn [negb]. cbv zeta.
  set (given := TrimSpace guid :: map TrimSpace (Split guids ",")).
  set (selected := unique_strings [] (non_empty given)).
  destruct (String.eqb_spec (TrimSpace event) "") as [He|He], (String.eqb_spec (TrimSpace errorContains) "") as [Hc|Hc];
    cbn [negb orb andb]; rewrite ?orb_true_r, ?orb_false_r, ?andb_true_r, ?andb_false_r.
  all: destruct (Nat.eqb_spec (length selected) 0) as [Hl|Hl]; cbn [negb Bool.eqb]; try done.
  all: destruct (Nat.ltb_spec 100 (length selected)); [done|]; intros [= <-]; cbn [rq_guids rq_event rq_errorContains].
  all: split; [apply unique_strings_NoDup|split].
  1,3: intros g; unfold selected, non_empty; rewrite unique_strings_elem, filter_elem, elem_of_nil, negb_true_iff, String.eqb_neq; tauto.
  - left. split; [by intros E; rewrite E in Hl|]. split; [lia|done].
  - right. by apply nil_length_inv in Hl.
Qed.

(** ** The replay *)

Lemma replayed_select o locked l :
  replayed o locked l =
  select received_le (λ p, requeue_selected (rq_guids o) (rq_event o) (rq_errorContains o) p.1 p.2
                           && negb (bool_decide (p.1 ∈ locked))) 100 l.
Proof. done. Qed.

(** The rows a replay of GUIDs is about: parked, named, and not locked by another. *)
Definition eligible (o : requeueOptions) (locked : gset string) (l : ledger) (g : string) (d : delivery) : Prop :=
  g ∈ rq_guids o ∧ l !! g = Some d ∧ d_status d = Parked ∧ g ∉ locked.

Lemma replayed_guids o locked l g d :
  rq_guids o ≠ [] → NoDup (rq_guids o) → (length (rq_guids o) ≤ 100)%nat →
  (g, d) ∈ replayed o locked l ↔ eligible o locked l g d.
Proof.
  intros Hne Hnd Hlen. set (sel := λ p : string * delivery,
    requeue_selected (rq_guids o) (rq_event o) (rq_errorContains o) p.1 p.2 && negb (bool_decide (p.1 ∈ locked))).
  assert (Hsel : ∀ g d, sel (g, d) = true ↔ g ∈ rq_guids o ∧ d_status d = Parked ∧ g ∉ locked).
  { intros g0 d0. unfold sel, requeue_selected. cbn [fst snd]. destruct (rq_guids o) as [|x xs]; [done|].
    rewrite !andb_true_iff, negb_true_iff, bool_decide_eq_false, !bool_decide_eq_true. tauto. }
  assert (Hall : take 100 (merge_sort received_le (List.filter sel (map_to_list l))) =
                 merge_sort received_le (List.filter sel (map_to_list l))).
  { apply take_ge. rewrite merge_sort_Permutation, <- (length_fmap fst).
    etransitivity; [|exact Hlen]. apply submseteq_length, NoDup_submseteq.
    - apply NoDup_fst_filter, NoDup_fst_map_to_list.
    - intros x Hx. apply list_elem_of_fmap in Hx as ([x' d'] & -> & Hx). apply filter_elem in Hx as [_ Hx].
      by apply Hsel in Hx as (? & _). }
  unfold replayed. fold sel. rewrite Hall, merge_sort_Permutation, filter_elem, elem_of_map_to_list, Hsel.
  unfold eligible. tauto.
Qed.

(** A replay of a set of GUIDs reports success exactly when every one of them was a parked
    delivery that it could lock and that still had its payload. Whatever it reports, it has
    touched only parked, named rows: those with a payload are pending again with their
    attempts reset, the others stay parked with a note. *)
Theorem requeue_exact now note o locked l err l' :
  rq_guids o ≠ [] → NoDup (rq_guids o) → (length (rq_guids o) ≤ 100)%nat →
  requeue now note o locked l = (err, l') →
  (err = None ↔ ∀ g, g ∈ rq_guids o → ∃ d, eligible o locked l g d ∧ has_payload d = true) ∧
  (∀ g d, eligible o locked l g d → l' !! g = Some (requeued_row now note d) ∧
     d_status (requeued_row now note d) = if has_payload d then Pending else Parked) ∧
  (∀ g, (¬ ∃ d, eligible o locked l g d) → l' !! g = l !! g).
Proof.
  intros Hne Hnd Hlen. unfold requeue. cbv zeta. intros [= <- <-].
  pose proof (replayed_guids o locked l) as Hin.
  assert (Hkeys : NoDup ((replayed o locked l).*1)) by (rewrite replayed_select; apply select_NoDup).
  split; [|split].
  - set (ready := List.filter (λ p, has_payload p.2) (replayed o locked l)).
    assert (Hready : ∀ g, g ∈ ready.*1 ↔ ∃ d, eligible o locked l g d ∧ has_payload d = true).
    { intros g. unfold ready. rewrite list_elem_of_fmap. split.
      - intros ([g' d] & -> & [Hd Hp]%filter_elem). exists d. split; [by apply Hin|done].
      - intros (d & Hd & Hp). exists (g, d). split; [done|]. apply filter_elem. split; [by apply Hin|done]. }
    assert (Hsub : ready.*1 ⊆+ rq_guids o).
    { apply NoDup_submseteq; [by apply NoDup_fst_filter|]. intros g (d & [Hg _] & _)%Hready. done. }
    assert (0 < Z.of_nat (length (rq_guids o))) by (destruct (rq_guids o); [done|cbn; lia]).
    rewrite (proj2 (Z.ltb_lt _ _)) by done. cbn [andb].
    destruct (Z.eqb_spec (Z.of_nat (length ready)) (Z.of_nat (length (rq_guids o)))) as [Heq|Hneq]; cbn [negb].
    + split; [|done]. intros _ g Hg. apply Hready.
      rewrite (submseteq_length_Permutation _ _ Hsub); [done|]. rewrite length_fmap. lia.
    + split; [done|]. intros Hall. exfalso. apply Hneq. f_equal. rewrite <- (length_fmap fst ready).
      apply Nat.le_antisymm; [by apply submseteq_length|].
      apply submseteq_length, NoDup_submseteq; [done|]. intros g Hg. apply Hready. by apply Hall.
  - intros g d Hel. split.
    + apply (fold_update_in (λ p, requeued_row now note p.2)); [exact Hkeys|]. by apply Hin.
    + destruct Hel as (_ & _ & Hp & _). unfold requeued_row, has_payload. destruct (_ || _); done.
  - intros g Hno. apply (fold_update_notin (λ p, requeued_row now note p.2)).
    intros ([g' d] & -> & Hd)%list_elem_of_fmap. apply Hno. exists d. by apply Hin.
Qed.

(** ** Families of deliveries *)

(** A character that [LIKE] takes literally. *)
Definition literal (c : ascii) : bool :=
  negb (bool_decide (c = "%"%char)) && negb (bool_decide (c = "_"%char)) && negb (bool_decide (c = "092"%char)).

Lemma like_any p s : like_chars ("%"%char :: p) s = true ↔ ∃ a b, s = a ++ b ∧ like_chars p b = true.
Proof.
  cbn [like_chars]. rewrite bool_decide_true by done. induction s as [|x s IH].
  - rewrite orb_false_r. split; [intros H; by exists [], []|]. intros (a & b & Hs & H).
    symmetry in Hs. apply app_nil in Hs as [-> ->]. done.
  - rewrite orb_true_iff, IH. split.
    + intros [H|(a & b & -> & H)]; [by exists [], (x :: s)|by exists (x :: a), b].
    + intros ([|y a] & b & Hs & H); cbn in Hs; [subst; by left|]. injection Hs as -> ->. right. eauto.
Qed.

Lemma like_literal t p s : forallb literal t = true → like_chars (t ++ p) s = true ↔ ∃ b, s = t ++ b ∧ like_chars p b = true.
Proof.
  revert s. induction t as [|c t IH]; intros s; cbn [app forallb].
  - intros _. split; [by exists s|]. by intros (b & -> & Hb).
  - rewrite andb_true_iff. intros [Hc Ht]. unfold literal in Hc. rewrite !andb_true_iff, !negb_true_iff, !bool_decide_eq_false in Hc.
    destruct Hc as [[H1 H2] H3]. cbn [like_chars]. rewrite !bool_decide_false by done.
    destruct s as [|x s]; [split; [done|by intros (b & Hb & _)]|].
    rewrite andb_true_iff, bool_decide_eq_true, IH by done. split.
    + intros [-> (b & -> & H)]. by exists b.
    + intros (b & Hs & H). cbn in Hs. injection Hs as -> ->. eauto.
Qed.

(** A replay by event and text selects the deliveries whose error contains the text, as
    long as the text has no percent sign, underscore or backslash. *)
Theorem family_is_substring event text g d :
  forallb literal (list_ascii_of_string text) = true →
  requeue_selected [] event text g d = true ↔
  d_status d = Parked ∧ d_event d = event ∧ ∃ a b, default "" (last_error d) = a +:+ text +:+ b.
Proof.
  intros Ht. unfold requeue_selected, like. rewrite !andb_true_iff, bool_decide_eq_true, seqb_true.
  enough (Hl : like_chars (list_ascii_of_string ("%" +:+ text +:+ "%")) (list_ascii_of_string (default "" (last_error d))) = true
    ↔ ∃ a b, default "" (last_error d) = a +:+ text +:+ b) by (rewrite Hl; tauto).
  change (list_ascii_of_string ("%" +:+ text +:+ "%")) with ("%"%char :: list_ascii_of_string (text +:+ "%")).
  rewrite like_any. generalize (default "" (last_error d)). intros s.
  assert (Happ : ∀ a b, list_ascii_of_string (a +:+ b) = list_ascii_of_string a ++ list_ascii_of_string b).
  { induction a as [|c a IH]; intros b; [done|]. cbn. by rewrite <- IH. }
  setoid_rewrite Happ. setoid_rewrite (like_literal _ _ _ Ht). split.
  - intros (a & b & Hs & c & -> & _). exists (string_of_list_ascii a), (string_of_list_ascii c).
    rewrite <- (string_of_list_ascii_of_string s), Hs.
    rewrite <- (string_of_list_ascii_of_string (_ +:+ _)), !Happ, !list_ascii_of_string_of_list_ascii. done.
  - intros (a & b & ->). exists (list_ascii_of_string a), (list_ascii_of_string (text +:+ b)).
    rewrite !Happ. split; [done|]. exists (list_ascii_of_string b). split; [done|].
    apply like_any. exists (list_ascii_of_string b), []. by rewrite app_nil_r.
Qed.

(** With an underscore the text is a pattern: a replay of [lock_lost] takes a delivery
    whose error has no such substring. *)
Example family_is_pattern :
  let d := mkDelivery "push" (Some "{}") "{}" 1 Parked 5 (Some "block-lost") None 1 None None in
  requeue_selected [] "push" "lock_lost" "g" d = true ∧
  ¬ ∃ a b, "block-lost" = a +:+ "lock_lost" +:+ b.
Proof.
  split; [done|]. intros (a & b & H).
  repeat (destruct a as [|? a]; [cbn in H; discriminate H|cbn in H; injection H as _ H]). destruct a; discriminate H.
Qed.

(** ** Shutdown *)

(** The process always ends its services before its HTTP server, and that before its
    workers. It closes the budget gate last, unless the workers could not even be
    cancelled; only then does it lose an earlier error, and otherwise it returns the first
    there was. *)
Theorem shutdown_ordered {E : Type} (serviceErr : option E) river gate http stop forced close :
  let '(actions, err) := shutdown serviceErr river gate http stop forced close in
  let stuck := river && bool_decide (is_Some stop) && bool_decide (is_Some forced) in
  (∃ workers, actions = [CancelServices; StopHTTP] ++ workers ++ (if gate && negb stuck then [CloseGate] else []) ∧
     (∀ x, x ∈ workers → x = StopRiver ∨ x = CancelRiver) ∧ (StopRiver ∈ workers ↔ river = true) ∧
     (CancelRiver ∈ workers ↔ river = true ∧ is_Some stop)) ∧
  err = if stuck then RiverForced <$> forced
        else match serviceErr, http, (if gate then close else None) with
             | Some e, _, _ => Some (ServiceFailed e)
             | None, Some e, _ => Some (HTTPShutdown e)
             | None, None, Some e => Some (GateShutdown e)
             | None, None, None => None
             end.
Proof.
  unfold shutdown.
  destruct (if river then match stop with None => ([StopRiver], None) | Some _ => ([StopRiver; CancelRiver], forced) end
            else ([], None)) as [workers failed] eqn:Hw.
  assert (Hf : failed = if river && bool_decide (is_Some stop) then forced else None).
  { destruct river, stop; injection Hw as <- <-; done. }
  assert (Hws : (∀ x, x ∈ workers → x = StopRiver ∨ x = CancelRiver) ∧ (StopRiver ∈ workers ↔ river = true) ∧
     (CancelRiver ∈ workers ↔ river = true ∧ is_Some stop)).
  { destruct river, stop; injection Hw as <- _; rewrite ?elem_of_cons, ?elem_of_nil; unfold is_Some;
      (split; [intros x; rewrite ?elem_of_cons, ?elem_of_nil|]); naive_solver. }
  subst failed. destruct (river && bool_decide (is_Some stop)) eqn:Hr.
  - destruct forced as [e|]; rewrite ?(bool_decide_true (is_Some _)), ?(bool_decide_false (is_Some None)) by (try by eexists; by intros []).
    + cbn [andb negb]. rewrite andb_false_r. split; [|done]. exists workers. by rewrite app_nil_r.
    + cbn [andb negb]. rewrite andb_true_r. destruct gate; (split; [exists workers; by rewrite ?app_nil_r|by destruct serviceErr, http, close]).
  - cbn [andb negb]. rewrite andb_true_r. destruct gate; (split; [exists workers; by rewrite ?app_nil_r|by destruct serviceErr, http, close]).
Qed.
